(* ===== verification/_CoqProject ===== *)
-Q . S2P
Prelude.v
Run.v
Base.v
Address.v
Crypto.v
Segment.v
Armor.v
Storage.v
StorageProofs.v
StorageWrite.v
StorageRead.v
StorageSpec.v
MemStorage.v
StorageDemo.v
SuperBlk.v
SuperProofs.v
Volume.v
SuperDemo.v
Wal.v
WalProofs.v
WalMgr.v
Cow.v
Trans.v
TxMgr.v
TxState.v
TxCommit.v
TxView.v
TxWorld.v
TxEnd.v
TxAtomic.v
TxBegin.v
TxOps.v
TxRefine.v
TxSpec.v
TxDemo.v
Entry.v
ChunkMap.v
Append.v
Link.v
Merkle.v
MerkleProofs.v
Content.v
Chunker.v
Stage.v
StageProofs.v
MemStore.v
ContentSpec.v
BaseSpec.v
Fnode.v
Fs.v
FsTree.v
FsInv.v
FsForest.v
FsCont.v
FsTx.v
FsTreeSpec.v
FsEdit.v
FsOps.v
FsRename.v
FsFiles.v
FsDirs.v
FsSpec.v
FsDemo.v
File.v
FileProofs.v
FileSpec.v
FileCalls.v
FileDemo.v
Index.v
IndexTree.v
IndexProofs.v
IndexSpec.v
IndexSafe.v
IndexDemo.v
Vio.v
FileArmor.v
Sector.v
SectorDemo.v
