(* ===== verification/Prelude.v ===== *)
(** * ZboxFS: a verification of its storage, transactions, contents and file system.

    ZboxFS (src/src/) is an encrypted file system in user space. From below:

    - a _volume_ (src/src/volume/) keeps entities, named by 32 byte ids, on a depot of blocks
      (a file, memory, a service): a _storage_ cuts an entity into encrypted frames, an _armor_
      keeps an item in two arms, left and right, so that one is good at any time, and the
      _super block_, in two arms too, holds the master key under the password;
    - _transactions_ (src/src/trans/): an entity in memory is copied on its first change (Cow),
      a commit writes the copies to the other arms, and a write-ahead log names what a
      transaction writes until its commit is recorded in the queue of transactions;
    - _contents_ (src/src/content/): a file's bytes are cut into chunks by a rolling hash,
      chunks found again are shared, the others are appended to segments; a content is a list
      of entries and spans over segments, with a Merkle tree; segments count references;
    - the _file system_ (src/src/fs/): fnodes, which are directories or files with a history of
      versions, each the id of a content; a map from hashes to contents shares equal contents;
      paths are resolved through two caches.

    ** How code is modelled

    Prelude.v has the errors of src/src/error.rs and [res], the result of a pure function:
    [Ok], [Err] or [Panic], the last for every panic, overflow included (the checked build).
    Run.v has the monad of stateful code, [run St]: the state is kept when a call fails, and a
    call may also _stop_ ([None]), as when the machine is switched off in the middle; [spec]
    says of a run what holds when it returns, when it fails and when it stops, and never lets
    it panic. Integers are [Z], with checked additions and the casts written out ([u_add],
    [to_isize], [U64]); indices out of range panic as in Rust.

    Foreign code is a class with its documented laws: the serialiser (rmp_serde), the hash
    functions and ciphers of libsodium, linked_hash_map ([LinkedMap] in Base.v), the depots
    behind the trait Storable, the clock, the sources of ids and random bytes. Between
    components the same is done with Rust's traits and with what a caller relies on:
    [SegStore]/[SegTrans] for segments below contents, [Volume]/[VolumeLaws] for the
    items of a volume below transactions, [ContentLayer] for contents below fnodes.
    Each class has instances in the Demo and Mem files, on which the theorems are instantiated.

    ** The parts and their files

    Base, errors, addresses.  Base.v: src/src/base/refcnt.rs, utils.rs, lru.rs. Address.v:
    src/src/volume/address.rs, allocator.rs. BaseSpec.v has their theorems: the account of the
    cache over any operations, the division of addresses into frames and units.

    Volume.  Crypto.v: the codes of cost and cipher and the framing of authenticated encryption
    of src/src/base/crypto.rs. Armor.v: volume/armor.rs. Storage.v: volume/storage/storage.rs,
    readers, writers and both caches; MemStorage.v: the depot in memory. StorageProofs.v,
    StorageWrite.v, StorageRead.v and StorageSpec.v prove that a storage refines a map from ids
    to bytes, over any depot that keeps its contract, and what is in doubt when a call of the
    depot fails or the machine stops; StorageDemo.v has the witnesses, and two panics.
    SuperBlk.v: volume/super_block.rs and base/version.rs; SuperProofs.v: a save that is stopped
    or fails anywhere can be repaired with the old or the new password; Volume.v:
    volume/volume.rs, with the round trips of init, open and reset_password; SuperDemo.v: a save
    whose put fails can lose both arms.

    Index of a depot.  Index.v: volume/storage/index_mgr.rs, addresses by id in a log structured
    merge tree. IndexTree.v: searching, sorting, merging and cutting tables, and the levels
    as one list of items, and what a compaction makes of it; IndexProofs.v: the contract of the
    armors below, and each operation while they work; IndexSpec.v: the index as a
    map, under the conditions on which compaction keeps it; IndexSafe.v: what holds whatever
    fails; IndexDemo.v: witnesses, and runs in which compaction brings back deleted addresses
    or loses addresses.

    Depot on files.  Vio.v: the files of the operating system behind base/vio.rs, with the
    directories of base/utils.rs and the paths of trans/eid.rs. Each call has a fate: it works,
    it fails, or the machine stops in it, with a part of it done; [touches] says which files
    a run may have changed. FileArmor.v: volume/storage/file/file_armor.rs, items in two
    encrypted files each, and that a save which breaks off leaves an item to be loaded; a load in
    which a read fails may give the older arm ([sees] says that none does). Sector.v:
    volume/storage/file/sector.rs, blocks in files of 4096 with a map each. SectorDemo.v:
    instances and the witness.

    Transactions.  Wal.v: trans/wal.rs, logs, queue and recovery; Cow.v: trans/cow.rs; Trans.v:
    trans/trans.rs; TxMgr.v: trans/txmgr.rs with the calls of cow.rs and segment.rs that go
    through it. The state of one volume, all entities in memory, all transactions and the
    current transaction of each thread is [World]. WalProofs.v, WalMgr.v, TxState.v,
    TxCommit.v, TxView.v, TxWorld.v, TxEnd.v, TxAtomic.v, TxBegin.v, TxOps.v and TxRefine.v
    carry the proofs: [committed] is the abstract state, a map of what each id
    would load as after a stop, and [world_ok] the invariant. TxRefine.v and TxSpec.v: commits
    are atomic, also when the machine stops; opening the volume afterwards recovers the old
    entities or the new; any interleaving of calls of any threads refines the map with atomic
    commits; aborts, isolation, errors and numbers. TxDemo.v: a volume whose
    calls fail by plan, the witnesses, and runs that show what aborting and redoing lose.

    Contents.  Segment.v: content/segment.rs and the chunks of chunk.rs; ChunkMap.v: the
    rest of chunk.rs; Entry.v: span.rs and entry.rs; Append.v, Link.v: appending, linking and
    unlinking; Merkle.v: merkle_tree.rs; Content.v: content.rs; Chunker.v: chunker.rs; Stage.v: the
    writers of segment.rs, content.rs and store.rs. MerkleProofs.v: build, merge and truncate give
    the tree of the bytes. StageProofs.v and ContentSpec.v: reading, overwriting,
    truncating, linking and unlinking against plain lists of bytes, the chunker against a cut of
    the whole stream, and the whole write path. MemStore.v: segments in memory.

    File system.  Fnode.v: fs/fnode.rs and the content map of content/store.rs; Fs.v: fs/fs.rs.
    A state maps ids to what the fnode's cow shows and to contents. Transactions are taken
    whole: a body that fails leaves the state as it was ([restore]). Of what is stored TxSpec.v proves
    that of the manager; of the entities in memory it is an abstraction, as [Cow::abort] keeps the copy
    of an entity that was updated and then deleted (cow.rs:420). FsTree.v: paths through named edges; FsInv.v: the forest of fnodes and its caches
    as an invariant, finding fnodes by path; FsForest.v: attaching and detaching; FsCont.v: the
    content map; FsTx.v: versions, and transactions over [fs_ok]. FsTreeSpec.v is
    the reference: a map from paths to nodes, with one pure function for each call.
    [represents] in FsEdit.v relates the two, and FsEdit.v, FsOps.v, FsRename.v,
    FsFiles.v and FsDirs.v prove of each operation that it does what the reference
    does, or fails with the error the reference gives and leaves the tree alone, or fails for
    a reason from outside ([outside]). FsSpec.v: any sequence of calls, types of nodes, rename
    as a move of paths, calls that end, listing of directories. FsDemo.v: an environment
    that fails by plan, and the witnesses.

    Open files.  File.v: src/src/file.rs, each operation of a handle, with [fn_set_len],
    [zero_fill] and the readers of fnode.rs. FileProofs.v states as a class what a handle relies
    on (fnodes with versions, the writer and reader of the store, transactions), and a
    reference: a list of versions with a position. FileProofs.v, FileSpec.v and FileCalls.v prove
    that any call does what the reference does, or leaves the file's versions as they were.
    FileDemo.v: the class's instance in memory, witnesses, and a write that fails for good.

    ** Crashes, failures, fuel

    A depot or a volume may fail any call, with or without effect as its contract says, and the
    machine may stop inside any call: theorems about runs have a case for each. What a depot
    does to a block or super block that is being written when it fails is the class's choice,
    within the contract; SuperDemo.v and TxDemo.v have instances of both kinds.
    Loops of the code whose recursion is not structural have fuel, and running out of it is a
    panic, which [spec] excludes: the loops over frames, spans and nodes have as fuel a length
    that the proofs show is enough ([recycle_loop]: the transactions in the queue;
    [Chunker.write]: the bytes given; [create_dir_all]: the components of the path).

    ** What is not modelled

    - lz4 (base/lz4.rs), libsodium and the serialiser: foreign code. Compression is off in
      the volume's readers and writers.
    - the depots for SQLite, Redis and the Zbox service: clients of foreign services. The
      faulty depot of the tests is not code of the product. Of the depot on files
      volume/storage/file/file.rs is not modelled, which passes calls on to the index and
      the sectors; of sectors no theorem is stated.
    - src/src/repo.rs, which passes calls on to Fs and File, the bindings for C, Java and the
      browser, log and display texts, the wall clock.
    - copying a directory with all below it ([Fs::copy_dir_all]) is modelled but no theorem is
      stated of it.
    - locks: a call of the model is what a thread does while it holds the locks; deadlocks are
      not considered. The data and content caches (DataCache, CowCache for contents) are taken
      to be transparent; those of fnodes, of chunks, of frames and of addresses are modelled.
    - SipHash, the domain of ids (32 bytes, here numbers) and the layout of serialised data. *)
From Stdlib Require Export ZArith Lia.
From stdpp Require Export base tactics option list gmap numbers.
Export stdpp.list_basics.list stdpp.list_relations.list stdpp.list_monad.list
  stdpp.list_misc.list stdpp.list_tactics.list.

#[export] Set Default Goal Selector "!".
Open Scope Z_scope.

(** ** Errors: [enum Error] of src/error.rs *)

(** The variants that carry a foreign error ([Encode], [Decode], [Var], [Io]) keep no
    payload: no modelled code inspects it. *)
Inductive Error : Set :=
| RefOverflow | RefUnderflow
| InitCrypto | NoAesHardware | Hashing | InvalidCost | InvalidCipher | Encrypt | Decrypt
| InvalidUri | InvalidSuperBlk | Corrupted | WrongVersion | NoEntity | NotInSync
| RepoOpened | RepoClosed | RepoExists
| InTrans | NotInTrans | NoTrans | Uncompleted | InUse
| NoContent
| InvalidArgument | InvalidPath | NotFound | AlreadyExists | IsRoot | IsDir | IsFile
| NotDir | NotFile | NotEmpty | NoVersion
| ReadOnly | CannotRead | CannotWrite | NotWrite | NotFinish | Closed
| Encode | Decode | Var | Io.

#[export] Instance Error_eq_dec : EqDecision Error.
Proof. solve_decision. Defined.

(** ** Outcomes: [Result<A>] with panics as a third value *)

(** [Panic] stands for every Rust panic: a failed [assert!], an index out of range,
    [unwrap] of [None] and an arithmetic overflow (the checked build). *)
Inductive res (A : Type) : Type :=
| Ok (a : A)
| Err (e : Error)
| Panic.
Arguments Ok {A} a.
Arguments Err {A} e.
Arguments Panic {A}.

#[export] Instance res_ret : MRet res := @Ok.
#[export] Instance res_bind : MBind res := λ A B k m,
  match m with Ok a => k a | Err e => Err e | Panic => Panic end.
#[export] Instance res_fmap : FMap res := λ A B f m,
  match m with Ok a => Ok (f a) | Err e => Err e | Panic => Panic end.

Lemma bind_ok {A B} (a : A) (k : A → res B) : (Ok a ≫= k) = k a.
Proof. reflexivity. Qed.

Lemma bind_Ok_inv {A B} (m : res A) (k : A → res B) b :
  (m ≫= k) = Ok b → ∃ a, m = Ok a ∧ k a = Ok b.
Proof. destruct m; simpl; intros; try discriminate; eauto. Qed.

Lemma bind_Ok_iff {A B} (m : res A) (k : A → res B) b :
  (m ≫= k) = Ok b ↔ ∃ a, m = Ok a ∧ k a = Ok b.
Proof. split; [apply bind_Ok_inv |]. intros (a & -> & ?). done. Qed.

(** The result of [Option::unwrap], [Option::ok_or] and [assert!]. *)
Definition unwrap {A} (o : option A) : res A :=
  match o with Some a => Ok a | None => Panic end.
Definition ok_or {A} (e : Error) (o : option A) : res A :=
  match o with Some a => Ok a | None => Err e end.
Definition rassert (b : bool) : res unit := if b then Ok () else Panic.

Definition no_panic {A} (r : res A) : Prop := r ≠ Panic.

(** ** Machine integers: [usize] and [u64] *)

Definition U64 : Z := 2 ^ 64.
Definition U32 : Z := 2 ^ 32.

Definition is_u64 (x : Z) : Prop := 0 ≤ x < U64.
Definition is_u32 (x : Z) : Prop := 0 ≤ x < U32.

Definition u_add (a b : Z) : res Z := if a + b <? U64 then Ok (a + b) else Panic.
Definition u_sub (a b : Z) : res Z := if b <=? a then Ok (a - b) else Panic.
Definition u_mul (a b : Z) : res Z := if a * b <? U64 then Ok (a * b) else Panic.

Lemma u_add_ok a b : a + b < U64 → u_add a b = Ok (a + b).
Proof. unfold u_add. intros. by rewrite (proj2 (Z.ltb_lt _ _)). Qed.
Lemma u_sub_ok a b : b ≤ a → u_sub a b = Ok (a - b).
Proof. unfold u_sub. intros. by rewrite (proj2 (Z.leb_le _ _)). Qed.
Lemma u_mul_ok a b : a * b < U64 → u_mul a b = Ok (a * b).
Proof. unfold u_mul. intros. by rewrite (proj2 (Z.ltb_lt _ _)). Qed.
Lemma u_add_inv a b c : u_add a b = Ok c → c = a + b ∧ a + b < U64.
Proof. unfold u_add. case_match; [|done]. intros [= <-]. lia. Qed.
Lemma u_sub_inv a b c : u_sub a b = Ok c → c = a - b ∧ b ≤ a.
Proof. unfold u_sub. case_match; [|done]. intros [= <-]. lia. Qed.
Lemma sat_sub x y : (if x <? y then u_sub y x else Ok 0) = Ok (Z.max 0 (y - x)).
Proof.
  destruct (x <? y) eqn:H; [apply Z.ltb_lt in H | apply Z.ltb_ge in H];
    rewrite ?u_sub_ok by lia; f_equal; lia.
Qed.
Lemma rassert_ok b : b = true → rassert b = Ok ().
Proof. by intros ->. Qed.
Lemma rassert_inv b u : rassert b = Ok u → b = true.
Proof. by destruct b. Qed.

(** ** Boolean comparisons as arithmetic facts *)

Ltac zify_b :=
  repeat match goal with
  | H : (_ <? _) = true |- _ => apply Z.ltb_lt in H
  | H : (_ <? _) = false |- _ => apply Z.ltb_ge in H
  | H : (_ <=? _) = true |- _ => apply Z.leb_le in H
  | H : (_ <=? _) = false |- _ => apply Z.leb_gt in H
  | H : (_ =? _) = true |- _ => apply Z.eqb_eq in H
  | H : (_ =? _) = false |- _ => apply Z.eqb_neq in H
  | H : (_ && _) = true |- _ => apply andb_true_iff in H as [? ?]
  | H : (_ && _) = false |- _ => apply andb_false_iff in H
  | H : (_ || _) = true |- _ => apply orb_true_iff in H
  | H : (_ || _) = false |- _ => apply orb_false_iff in H as [? ?]
  | H : negb _ = true |- _ => apply negb_true_iff in H
  | H : negb _ = false |- _ => apply negb_false_iff in H
  end.

(** ** Vectors indexed by [usize] *)

Section zlist.
Context {A : Type}.
Implicit Types (l : list A) (x : A).

Definition zlen l : Z := Z.of_nat (length l).
Definition ztake (n : Z) l : list A := take (Z.to_nat n) l.
Definition zdrop (n : Z) l : list A := drop (Z.to_nat n) l.
Definition zget l (i : Z) : option A := if 0 <=? i then l !! Z.to_nat i else None.
Definition zset l (i : Z) x : list A := <[Z.to_nat i := x]> l.

(** [v[i]], [v[b..e]], [v.remove(i)], [v.split_off(i)], [v[i] = x]. *)
Definition vindex l (i : Z) : res A := unwrap (zget l i).
Definition vslice l (b e : Z) : res (list A) :=
  if (b <=? e) && (e <=? zlen l) then Ok (ztake (e - b) (zdrop b l)) else Panic.
Definition vremove l (i : Z) : res (list A) :=
  if i <? zlen l then Ok (ztake i l ++ zdrop (i + 1) l) else Panic.
Definition vsplit_off l (i : Z) : res (list A * list A) :=
  if i <=? zlen l then Ok (ztake i l, zdrop i l) else Panic.
Definition vset l (i : Z) x : res (list A) :=
  if (0 <=? i) && (i <? zlen l) then Ok (zset l i x) else Panic.

(** [Iterator::position]. *)
Fixpoint position (f : A → bool) l : option Z :=
  match l with
  | [] => None
  | x :: l => if f x then Some 0 else Z.succ <$> position f l
  end.

Lemma zlen_nonneg l : 0 ≤ zlen l.
Proof. unfold zlen. lia. Qed.
Lemma zlen_nil : zlen [] = 0.
Proof. done. Qed.
Lemma zlen_cons x l : zlen (x :: l) = zlen l + 1.
Proof. unfold zlen. simpl. lia. Qed.
Lemma zlen_app l1 l2 : zlen (l1 ++ l2) = zlen l1 + zlen l2.
Proof. unfold zlen. rewrite length_app. lia. Qed.
Lemma zlen_snoc l x : zlen (l ++ [x]) = zlen l + 1.
Proof. by rewrite zlen_app, zlen_cons, zlen_nil. Qed.
Lemma zlen_ztake n l : 0 ≤ n → zlen (ztake n l) = Z.min n (zlen l).
Proof. unfold zlen, ztake. rewrite length_take. lia. Qed.
Lemma zlen_zdrop n l : 0 ≤ n → zlen (zdrop n l) = Z.max 0 (zlen l - n).
Proof. unfold zlen, zdrop. rewrite length_drop. lia. Qed.
Lemma ztake_zdrop n l : ztake n l ++ zdrop n l = l.
Proof. apply take_drop. Qed.
Lemma ztake_app_le n l1 l2 : n ≤ zlen l1 → ztake n (l1 ++ l2) = ztake n l1.
Proof. unfold ztake, zlen. intros. apply take_app_le. lia. Qed.
Lemma ztake_app_ge n l1 l2 : zlen l1 ≤ n → ztake n (l1 ++ l2) = l1 ++ ztake (n - zlen l1) l2.
Proof.
  unfold ztake, zlen. intros. rewrite take_app_ge by lia. do 2 f_equal. lia.
Qed.
Lemma zdrop_app_le n l1 l2 : n ≤ zlen l1 → zdrop n (l1 ++ l2) = zdrop n l1 ++ l2.
Proof. unfold zdrop, zlen. intros. apply drop_app_le. lia. Qed.
Lemma zdrop_app_ge n l1 l2 : zlen l1 ≤ n → zdrop n (l1 ++ l2) = zdrop (n - zlen l1) l2.
Proof.
  unfold zdrop, zlen. intros. rewrite drop_app_ge by lia. f_equal. lia.
Qed.
Lemma ztake_ge n l : zlen l ≤ n → ztake n l = l.
Proof. unfold ztake, zlen. intros. apply take_ge. lia. Qed.
Lemma zdrop_ge n l : zlen l ≤ n → zdrop n l = [].
Proof. unfold zdrop, zlen. intros. apply drop_ge. lia. Qed.
Lemma ztake_0 n l : n ≤ 0 → ztake n l = [].
Proof. unfold ztake. intros. by rewrite (Z2Nat.nonpos n). Qed.
Lemma zdrop_0 n l : n ≤ 0 → zdrop n l = l.
Proof. unfold zdrop. intros. by rewrite (Z2Nat.nonpos n). Qed.
Lemma zdrop_zdrop n m l : 0 ≤ n → 0 ≤ m → zdrop n (zdrop m l) = zdrop (n + m) l.
Proof. unfold zdrop. intros. rewrite drop_drop. f_equal. lia. Qed.
Lemma ztake_ztake n m l : ztake n (ztake m l) = ztake (Z.min n m) l.
Proof. unfold ztake. rewrite take_take. f_equal. lia. Qed.
Lemma zdrop_ztake n m l : 0 ≤ n → zdrop n (ztake m l) = ztake (m - n) (zdrop n l).
Proof.
  unfold zdrop, ztake. intros. rewrite skipn_firstn_comm. f_equal. lia.
Qed.
Lemma zget_Some l i x : zget l i = Some x ↔ 0 ≤ i ∧ l !! Z.to_nat i = Some x.
Proof.
  unfold zget. case_match; zify_b; [|split; [done | lia]].
  split; [done|]. by intros [_ ?].
Qed.
Lemma zget_lt l i x : zget l i = Some x → 0 ≤ i < zlen l.
Proof.
  intros [? ?%lookup_lt_Some]%zget_Some. unfold zlen. lia.
Qed.
Lemma zget_is_Some l i : 0 ≤ i < zlen l → ∃ x, zget l i = Some x.
Proof.
  unfold zlen. intros. destruct (lookup_lt_is_Some_2 l (Z.to_nat i)) as [x Hx]; [lia|].
  exists x. apply zget_Some. split; [lia | done].
Qed.
Lemma zget_app_l l1 l2 i : i < zlen l1 → zget (l1 ++ l2) i = zget l1 i.
Proof.
  unfold zget, zlen. intros. case_match; [|done]. apply lookup_app_l. lia.
Qed.
Lemma zget_app_r l1 l2 i : zlen l1 ≤ i → zget (l1 ++ l2) i = zget l2 (i - zlen l1).
Proof.
  unfold zget, zlen. intros.
  rewrite (proj2 (Z.leb_le 0 i)), (proj2 (Z.leb_le 0 _)) by lia.
  rewrite lookup_app_r by lia. f_equal. lia.
Qed.
Lemma zget_cons_S x l i : 0 ≤ i → zget (x :: l) (i + 1) = zget l i.
Proof.
  intros. unfold zget. rewrite (proj2 (Z.leb_le 0 i)), (proj2 (Z.leb_le 0 (i + 1))) by lia.
  replace (Z.to_nat (i + 1)) with (S (Z.to_nat i)) by lia. done.
Qed.
Lemma zget_neg l i : i < 0 → zget l i = None.
Proof. intros. unfold zget. by rewrite (proj2 (Z.leb_gt _ _)) by lia. Qed.
Lemma zget_ge l i : zlen l ≤ i → zget l i = None.
Proof.
  intros. destruct (zget l i) eqn:Hx; [|done]. apply zget_lt in Hx. lia.
Qed.
Lemma zget_ext l1 l2 : (∀ i, zget l1 i = zget l2 i) → l1 = l2.
Proof.
  intros Hi. apply list_eq. intros i. specialize (Hi (Z.of_nat i)).
  unfold zget in Hi. rewrite (proj2 (Z.leb_le _ _)) in Hi by lia. by rewrite Nat2Z.id in Hi.
Qed.
Lemma zget_split l i x :
  zget l i = Some x → l = ztake i l ++ x :: zdrop (i + 1) l ∧ zlen (ztake i l) = i.
Proof.
  intros Hx. pose proof (zget_lt _ _ _ Hx). apply zget_Some in Hx as [? Hx].
  split; [|rewrite zlen_ztake; lia].
  unfold ztake, zdrop. rewrite Z2Nat.inj_add by lia. change (Z.to_nat 1) with 1%nat.
  rewrite Nat.add_1_r. symmetry. by apply take_drop_middle.
Qed.
Lemma zget_middle l1 l2 x : zget (l1 ++ x :: l2) (zlen l1) = Some x.
Proof. rewrite zget_app_r, Z.sub_diag by lia. done. Qed.
Lemma vset_middle l1 l2 x y : vset (l1 ++ x :: l2) (zlen l1) y = Ok (l1 ++ y :: l2).
Proof.
  unfold vset, zset, zlen. rewrite length_app. simpl.
  rewrite (proj2 (Z.leb_le _ _)), (proj2 (Z.ltb_lt _ _)) by lia. simpl.
  rewrite Nat2Z.id. f_equal. by rewrite insert_app_r_alt, Nat.sub_diag by lia.
Qed.
Lemma vset_split l i x y :
  zget l i = Some x → vset l i y = Ok (ztake i l ++ y :: zdrop (i + 1) l).
Proof.
  intros [Hl Hi]%zget_split. 
  pose proof (vset_middle (ztake i l) (zdrop (i + 1) l) x y) as H.
  by rewrite <- Hl, Hi in H.
Qed.
Lemma vindex_ok l i x : zget l i = Some x → vindex l i = Ok x.
Proof. unfold vindex. by intros ->. Qed.
Lemma vindex_middle l1 l2 x : vindex (l1 ++ x :: l2) (zlen l1) = Ok x.
Proof. apply vindex_ok, zget_middle. Qed.
Lemma ztake_zlen l1 l2 : ztake (zlen l1) (l1 ++ l2) = l1.
Proof. by rewrite ztake_app_le, ztake_ge by lia. Qed.
Lemma zdrop_zlen l1 l2 : zdrop (zlen l1) (l1 ++ l2) = l2.
Proof. by rewrite zdrop_app_ge, zdrop_0 by lia. Qed.
Lemma vremove_middle l1 l2 x : vremove (l1 ++ x :: l2) (zlen l1) = Ok (l1 ++ l2).
Proof.
  unfold vremove. pose proof (zlen_nonneg l2). pose proof (zlen_nonneg l1).
  rewrite (proj2 (Z.ltb_lt _ _)) by (rewrite zlen_app, zlen_cons; lia).
  rewrite ztake_zlen. replace (zlen l1 + 1) with (1 + zlen l1) by lia.
  by rewrite <- zdrop_zdrop, zdrop_zlen by lia.
Qed.
Lemma vsplit_off_app l1 l2 : vsplit_off (l1 ++ l2) (zlen l1) = Ok (l1, l2).
Proof.
  unfold vsplit_off. pose proof (zlen_nonneg l2).
  rewrite (proj2 (Z.leb_le _ _)) by (rewrite zlen_app; lia).
  by rewrite ztake_zlen, zdrop_zlen.
Qed.
Lemma vindex_inv l i x : vindex l i = Ok x → zget l i = Some x.
Proof. unfold vindex, unwrap. case_match; by intros [=->] || done. Qed.

Lemma position_Some f l i :
  position f l = Some i ↔
  ∃ x, zget l i = Some x ∧ f x = true ∧ Forall (λ y, f y = false) (ztake i l).
Proof.
  revert i. induction l as [|y l IH]; intros i; simpl.
  { split; [done|]. intros (x & [? Hx]%zget_Some & _). by rewrite lookup_nil in Hx. }
  destruct (f y) eqn:Hy.
  - split.
    + intros [= <-]. exists y. split; [done|]. split; [done|]. constructor.
    + intros (x & Hx & Hfx & Hall). pose proof (zget_lt _ _ _ Hx).
      destruct (decide (i = 0)) as [->|]; [done|].
      unfold ztake in Hall. replace (Z.to_nat i) with (S (Z.to_nat (i - 1))) in Hall by lia.
      simpl in Hall. inversion Hall. congruence.
  - rewrite fmap_Some. split.
    + intros (j & (x & Hx & Hfx & Hall)%IH & ->). exists x.
      pose proof (zget_lt _ _ _ Hx). apply zget_Some in Hx as [? Hx].
      split; [apply zget_Some; split; [lia|]; by rewrite Z2Nat.inj_succ by lia|].
      split; [done|]. unfold ztake. rewrite Z2Nat.inj_succ by lia. by constructor.
    + intros (x & Hx & Hfx & Hall). pose proof (zget_lt _ _ _ Hx).
      apply zget_Some in Hx as [? Hx].
      destruct (decide (i = 0)) as [->|]; [simpl in Hx; congruence|].
      exists (i - 1). split; [|lia]. apply IH. exists x.
      unfold ztake in *. replace (Z.to_nat i) with (S (Z.to_nat (i - 1))) in Hx, Hall by lia.
      simpl in *. inversion Hall. split; [apply zget_Some; split; [lia|done]|done].
Qed.
Lemma position_exists f l : (∃ x, x ∈ l ∧ f x = true) → ∃ i, position f l = Some i.
Proof.
  induction l as [|y l IH]; simpl; [by intros (x & ?%not_elem_of_nil & _)|].
  intros (x & Hin & Hfx). destruct (f y) eqn:Hy; [eauto|].
  apply elem_of_cons in Hin as [->|Hin]; [congruence|].
  destruct IH as [i ->]; eauto.
Qed.
Lemma zget_zset l i x j :
  0 ≤ i < zlen l → zget (zset l i x) j = if decide (j = i) then Some x else zget l j.
Proof.
  intros Hi. unfold zget, zset, zlen in *. destruct (0 <=? j) eqn:Hj; zify_b.
  - destruct (decide (j = i)) as [->|Hne].
    + rewrite list_lookup_insert_eq by lia. done.
    + by rewrite list_lookup_insert_ne by lia.
  - by rewrite decide_False by lia.
Qed.
Lemma zlen_zset l i x : zlen (zset l i x) = zlen l.
Proof. unfold zlen, zset. by rewrite length_insert. Qed.
Lemma vset_ok l i x : 0 ≤ i < zlen l → vset l i x = Ok (zset l i x).
Proof.
  intros. unfold vset. by rewrite (proj2 (Z.leb_le _ _)), (proj2 (Z.ltb_lt _ _)) by lia.
Qed.
Lemma zget_ztake l n i : zget (ztake n l) i = if decide (i < n) then zget l i else None.
Proof.
  unfold zget, ztake. destruct (0 <=? i) eqn:Hi; zify_b; [|by case_decide].
  case_decide; [by rewrite lookup_take_lt by lia|by rewrite lookup_take_ge by lia].
Qed.
Lemma zget_replicate n (x : A) i :
  zget (replicate (Z.to_nat n) x) i = if decide (0 ≤ i < n) then Some x else None.
Proof.
  unfold zget. destruct (0 <=? i) eqn:Hi; zify_b; [|by rewrite decide_False by lia].
  case_decide; [by rewrite lookup_replicate_2 by lia|].
  apply lookup_ge_None. rewrite length_replicate. lia.
Qed.
Lemma zlen_replicate n (x : A) : 0 ≤ n → zlen (replicate (Z.to_nat n) x) = n.
Proof. intros. unfold zlen. rewrite length_replicate. lia. Qed.
Lemma zget_zdrop l n i :
  0 ≤ n → zget (zdrop n l) i = if decide (0 ≤ i) then zget l (n + i) else None.
Proof.
  intros. unfold zget, zdrop. case_decide.
  - rewrite !(proj2 (Z.leb_le _ _)) by lia. rewrite lookup_drop. f_equal. lia.
  - by rewrite (proj2 (Z.leb_gt _ _)) by lia.
Qed.
Lemma zget_app l1 l2 i :
  zget (l1 ++ l2) i = if decide (i < zlen l1) then zget l1 i else zget l2 (i - zlen l1).
Proof. case_decide; [by apply zget_app_l|apply zget_app_r; lia]. Qed.
Lemma zget_nil i : zget (@nil A) i = None.
Proof. unfold zget. by case_match. Qed.
Lemma ztake_nil n : ztake n (@nil A) = [].
Proof. apply take_nil. Qed.
End zlist.

Arguments zlen {A} l : simpl never.

(** Overwriting a byte string at [n]: its bytes with those of [new] in place. *)
Definition overwrite {A} (old : list A) (n : Z) (new : list A) : list A :=
  ztake n old ++ new ++ zdrop (n + zlen new) old.
Lemma zlen_overwrite {A} (old new : list A) n :
  0 ≤ n ≤ zlen old → zlen (overwrite old n new) = Z.max (zlen old) (n + zlen new).
Proof.
  intros. pose proof (zlen_nonneg new). unfold overwrite.
  rewrite !zlen_app, zlen_ztake, zlen_zdrop by lia. lia.
Qed.

(** Sum of a [usize] measure over a vector ([iter().map(f).sum()]). *)
Definition zsum {A} (f : A → Z) (l : list A) : Z := foldr (λ x s, f x + s) 0 l.

Lemma zsum_nil {A} (f : A → Z) : zsum f [] = 0.
Proof. done. Qed.
Lemma zsum_cons {A} (f : A → Z) x l : zsum f (x :: l) = f x + zsum f l.
Proof. done. Qed.
Lemma zsum_app {A} (f : A → Z) l1 l2 : zsum f (l1 ++ l2) = zsum f l1 + zsum f l2.
Proof. induction l1; simpl; lia. Qed.
Lemma zsum_nonneg {A} (f : A → Z) l : Forall (λ x, 0 ≤ f x) l → 0 ≤ zsum f l.
Proof. induction 1; simpl; lia. Qed.

(** A [for] loop over a vector whose body may fail. *)
Fixpoint foldM {S A} (f : S → A → res S) (s : S) (l : list A) : res S :=
  match l with
  | [] => Ok s
  | x :: l => s ← f s x; foldM f s l
  end.

Lemma foldM_app {S A} (f : S → A → res S) s l1 l2 :
  foldM f s (l1 ++ l2) = (s ← foldM f s l1; foldM f s l2).
Proof. revert s. induction l1; intros s; simpl; [done|]. by destruct (f s a); simpl. Qed.

(** [v[a..a + src.len()].copy_from_slice(src)]. *)
Definition vcopy {A} (l : list A) (a : Z) (src : list A) : res (list A) :=
  if a + zlen src <=? zlen l then Ok (ztake a l ++ src ++ zdrop (a + zlen src) l) else Panic.

(** The range [b..e] of a [for] loop. *)
Definition range (b e : Z) : list Z := seqZ b (e - b).

Lemma range_nil b e : e ≤ b → range b e = [].
Proof. intros. apply seqZ_nil. lia. Qed.
Lemma range_cons b e : b < e → range b e = b :: range (b + 1) e.
Proof.
  intros. unfold range. rewrite seqZ_cons by lia. f_equal. f_equal; lia.
Qed.

Lemma zlen_range b e : b ≤ e → zlen (range b e) = e - b.
Proof. intros. unfold zlen, range. rewrite length_seqZ. lia. Qed.
Lemma zget_range b e i : zget (range b e) i = if decide (0 ≤ i < e - b) then Some (b + i) else None.
Proof.
  unfold zget, range. destruct (0 <=? i) eqn:Hi; zify_b; [|by rewrite decide_False by lia].
  case_decide.
  - apply lookup_seqZ. lia.
  - apply lookup_ge_None. rewrite length_seqZ. lia.
Qed.
Lemma range_snoc b e : b ≤ e → range b (e + 1) = range b e ++ [e].
Proof.
  intros. apply zget_ext. intros i. rewrite zget_range.
  destruct (decide (i < e - b)).
  - rewrite zget_app_l by (rewrite zlen_range; lia). rewrite zget_range.
    repeat case_decide; try done; lia.
  - rewrite zget_app_r by (rewrite zlen_range; lia). rewrite zlen_range by lia.
    case_decide.
    + replace (i - (e - b)) with 0 by lia. change (zget [e] 0) with (Some e). f_equal. lia.
    + rewrite zget_ge; [done|]. change (zlen [e]) with 1. lia.
Qed.
Lemma zget_fmap {A B} (f : A → B) l i : zget (f <$> l) i = f <$> zget l i.
Proof. unfold zget. case_match; [|done]. apply list_lookup_fmap. Qed.
Lemma zlen_fmap {A B} (f : A → B) (l : list A) : zlen (f <$> l) = zlen l.
Proof. unfold zlen. by rewrite length_fmap. Qed.
Lemma foldM_fmap {S A B} (f : S → B → res S) (g : A → B) s l :
  foldM f s (g <$> l) = foldM (λ s x, f s (g x)) s l.
Proof. revert s. induction l; intros s; [done|]. simpl. destruct (f s (g a)); simpl; auto. Qed.
Lemma foldM_rev_fmap {S A B} (f : S → B → res S) (g : A → B) s l :
  foldM f s (rev (g <$> l)) = foldM (λ s x, f s (g x)) s (rev l).
Proof.
  revert s. induction l; intros s; [done|]. simpl. rewrite !foldM_app.
  by rewrite IHl.
Qed.

(** Equality of slices of byte strings, index by index. *)
Ltac slice_len :=
  repeat match goal with
  | |- context [zlen (_ ++ _)] => rewrite zlen_app
  | |- context [zlen (ztake _ _)] => rewrite zlen_ztake by lia
  | |- context [zlen (zdrop _ _)] => rewrite zlen_zdrop by lia
  | |- context [zlen []] => rewrite zlen_nil
  end.
Ltac slice_step :=
  match goal with
  | |- context [zget (_ ++ _) _] => rewrite zget_app; slice_len; case_decide
  | |- context [zget (ztake _ _) _] => rewrite zget_ztake; case_decide
  | |- context [zget (zdrop _ _) _] => rewrite zget_zdrop by lia; case_decide
  | |- context [zget [] _] => rewrite zget_nil
  end.
Ltac slice :=
  apply zget_ext; intros ?; repeat (slice_step; try lia);
  first [done | f_equal; lia | rewrite !zget_ge by (slice_len; lia); done | rewrite zget_ge by (slice_len; lia); done
        | symmetry; rewrite zget_ge by (slice_len; lia); done
        | rewrite zget_neg by lia; done | symmetry; rewrite zget_neg by lia; done
        | rewrite !zget_neg by lia; done ].

(** [Iterator::position] with a test that may itself panic. *)
Fixpoint positionM {A} (f : A → res bool) (l : list A) : res (option Z) :=
  match l with
  | [] => Ok None
  | x :: l => b ← f x; if b : bool then Ok (Some 0) else o ← positionM f l; Ok (option_map Z.succ o)
  end.

Lemma positionM_ok {A} (f : A → res bool) (g : A → bool) l :
  Forall (λ x, f x = Ok (g x)) l → positionM f l = Ok (position g l).
Proof.
  induction 1 as [|x l Hx _ IH]; [done|]. simpl. rewrite Hx. simpl.
  destruct (g x); [done|]. by rewrite IH.
Qed.

(** ** Automation *)

Create Rewrite HintDb zres.
#[export] Hint Rewrite @bind_ok : zres.
Create Rewrite HintDb zlist.
#[export] Hint Rewrite @zlen_nil @zlen_cons @zlen_app @zsum_nil @zsum_cons @zsum_app : zlist.

(** Run one step of a computation in [res] whose side condition is linear. *)
Ltac res_step :=
  first
    [ rewrite bind_ok
    | rewrite u_add_ok by lia
    | rewrite u_sub_ok by lia
    | rewrite u_mul_ok by lia
    | rewrite rassert_ok by (rewrite ?andb_true_iff, ?Z.leb_le, ?Z.ltb_lt, ?Z.eqb_eq; lia) ].
Ltac res_run := repeat (res_step; cbn [fst snd]).

(** Invert a successful computation in [res]. *)
Ltac res_inv_one H :=
  let a := fresh "a" in let Ha := fresh "Ha" in
  apply bind_Ok_inv in H as (a & Ha & H);
  try (apply u_add_inv in Ha as [-> Ha]);
  try (apply u_sub_inv in Ha as [-> Ha]);
  try (apply rassert_inv in Ha);
  try (apply vindex_inv in Ha).

(** *** Copies into a vector *)

Lemma vcopy_ok {A} (l : list A) a src :
  0 ≤ a → a + zlen src ≤ zlen l →
  ∃ l', vcopy l a src = Ok l' ∧ zlen l' = zlen l ∧
    ∀ i, zget l' i = if decide (a ≤ i < a + zlen src) then zget src (i - a) else zget l i.
Proof.
  intros Ha Hle. pose proof (zlen_nonneg src). unfold vcopy.
  rewrite (proj2 (Z.leb_le _ _)) by lia. eexists. split; [done|].
  split; [rewrite !zlen_app, zlen_ztake, zlen_zdrop by lia; lia|]. intros i.
  destruct (decide (i < 0)); [rewrite zget_neg, decide_False, zget_neg by lia; done|].
  destruct (decide (i < a)).
  { rewrite zget_app_l by (rewrite zlen_ztake by lia; lia). rewrite zget_ztake.
    rewrite decide_True, decide_False by lia. done. }
  rewrite zget_app_r by (rewrite zlen_ztake by lia; lia).
  rewrite zlen_ztake, Z.min_l by lia.
  destruct (decide (i < a + zlen src)).
  { rewrite zget_app_l by lia. by rewrite decide_True by lia. }
  rewrite zget_app_r by lia. rewrite decide_False by lia.
  rewrite zget_zdrop, decide_True by lia. f_equal. lia.
Qed.
Lemma vcopy_app {A} (l1 l2 src : list A) :
  zlen src ≤ zlen l2 → vcopy (l1 ++ l2) (zlen l1) src = Ok (l1 ++ src ++ zdrop (zlen src) l2).
Proof.
  intros. pose proof (zlen_nonneg src). unfold vcopy. rewrite zlen_app.
  rewrite (proj2 (Z.leb_le _ _)), ztake_zlen, zdrop_app_ge by lia. do 4 f_equal. lia.
Qed.
