(* ===== verification/Run.v ===== *)
(** * Effectful code: a state monad that keeps the state when a call fails or the machine stops.

    An operation may return a value, return an error, panic, or never return because the
    machine stops in the middle of it; in every case the state it has reached so far remains.
    [spec] is the Hoare-style judgement the proofs about such operations use. *)
From S2P Require Import Prelude.

(** ** The monad *)

(** The outcome is [None] when the machine stops. *)
Definition run (S A : Type) : Type := S → option (res A) * S.

#[export] Instance run_ret {S} : MRet (run S) := λ A a s, (Some (Ok a), s).
#[export] Instance run_bind {S} : MBind (run S) := λ A B k m s,
  match m s with
  | (Some (Ok a), s') => k a s'
  | (Some (Err e), s') => (Some (Err e), s')
  | (Some Panic, s') => (Some Panic, s')
  | (None, s') => (None, s')
  end.

(** A computation that needs no state. *)
Definition lift {S A} (r : res A) : run S A := λ s, (Some r, s).
Definition fail {S A} (e : Error) : run S A := lift (Err e).
Definition ask {S A} (f : S → A) : run S A := λ s, (Some (Ok (f s)), s).
Definition modify {S} (f : S → S) : run S unit := λ s, (Some (Ok ()), f s).

(** The [Result] of a call as a value, for a caller that goes on after an error. *)
Definition attempt {S A} (m : run S A) : run S (res A) := λ s,
  match m s with
  | (Some Panic, s') => (Some Panic, s')
  | (Some r, s') => (Some (Ok r), s')
  | (None, s') => (None, s')
  end.

(** [Result::or_else]. *)
Definition or_else {S A} (m : run S A) (h : Error → run S A) : run S A :=
  r ← attempt m; match r with Ok a => mret a | Err e => h e | Panic => lift Panic end.

(** [for x in l]: [f] on each item, stopping at the first that does not succeed. *)
Fixpoint for_each {S A} (f : A → run S unit) (l : list A) : run S unit :=
  match l with
  | [] => mret ()
  | x :: l => _ ← f x; for_each f l
  end.

(** A computation on a part of the state. *)
Definition zoom {S T A} (get : T → S) (set : S → T → T) (m : run S A) : run T A := λ t,
  let '(r, s) := m (get t) in (r, set s t).

(** ** The judgement *)

(** From [s], [m] returns a value in [Q], an error in [E], or stops or panics in [H]. *)
Definition spec {S A} (m : run S A) (s : S) (Q : A → S → Prop) (E : Error → S → Prop)
    (H : S → Prop) : Prop :=
  match m s with
  | (Some (Ok a), s') => Q a s'
  | (Some (Err e), s') => E e s'
  | (_, s') => H s'
  end.

Section rules.
Context {S A B : Type}.
Implicit Types (m : run S A) (s : S) (Q : A → S → Prop) (E : Error → S → Prop) (H : S → Prop).

Lemma spec_mono m s Q E H (Q' : A → S → Prop) E' H' :
  spec m s Q E H → (∀ a s', Q a s' → Q' a s') → (∀ e s', E e s' → E' e s') →
  (∀ s', H s' → H' s') → spec m s Q' E' H'.
Proof. unfold spec. destruct (m s) as [[[]|] ?]; eauto. Qed.

Lemma spec_ret (a : A) s Q E H : Q a s → spec (mret a) s Q E H.
Proof. done. Qed.

Lemma spec_bind (m : run S A) (k : A → run S B) s (Q : B → S → Prop) E H :
  spec m s (λ a s', spec (k a) s' Q E H) E H → spec (m ≫= k) s Q E H.
Proof. unfold spec, mbind, run_bind. destruct (m s) as [[[]|] ?]; done. Qed.

Lemma spec_lift_ok (a : A) s Q E H : Q a s → spec (lift (Ok a)) s Q E H.
Proof. done. Qed.

Lemma spec_fail (e : Error) s Q E H : E e s → spec (fail e) s Q E H.
Proof. done. Qed.

Lemma spec_ask (f : S → A) s Q E H : Q (f s) s → spec (ask f) s Q E H.
Proof. done. Qed.

Lemma spec_modify (f : S → S) s (Q : unit → S → Prop) E H :
  Q () (f s) → spec (modify f) s Q E H.
Proof. done. Qed.

Lemma spec_attempt m s (Q : res A → S → Prop) E H :
  spec m s (λ a, Q (Ok a)) (λ e, Q (Err e)) H → spec (attempt m) s Q E H.
Proof. unfold spec, attempt. destruct (m s) as [[[]|] ?]; done. Qed.

Lemma spec_or_else m h s Q E H :
  spec m s Q (λ e s', spec (h e) s' Q E H) H → spec (or_else m h) s Q E H.
Proof.
  unfold spec, or_else, attempt, mbind, run_bind. by destruct (m s) as [[[]|] ?].
Qed.

(** With something that is known of the state however the run ends. *)
Lemma spec_also m s Q E H (R : S → Prop) :
  spec m s Q E H → R (m s).2 → spec m s (λ a s', Q a s' ∧ R s') (λ e s', E e s' ∧ R s') (λ s', H s' ∧ R s').
Proof. unfold spec. by destruct (m s) as [[[]|] ?]. Qed.

(** What holds however the run ends. *)
Lemma spec_all (m : run S A) s (Q : A → S → Prop) E H (R : S → Prop) :
  spec m s Q E H → (∀ a s', Q a s' → R s') → (∀ e s', E e s' → R s') → (∀ s', H s' → R s') →
  R (m s).2.
Proof. unfold spec. destruct (m s) as [[[]|] ?]; eauto. Qed.
End rules.

(** A loop whose state is described by the items done. *)
Lemma spec_for_each {S A} (f : A → run S unit) (l : list A) (R : list A → S → Prop)
    (E : Error → S → Prop) (H : S → Prop) s :
  R [] s →
  (∀ pre x rest s', l = pre ++ x :: rest → R pre s' →
     spec (f x) s' (λ _, R (pre ++ [x])) E H) →
  spec (for_each f l) s (λ _, R l) E H.
Proof.
  intros Hs Hf. enough (∀ rest pre s', l = pre ++ rest → R pre s' →
    spec (for_each f rest) s' (λ _, R l) E H) as Hall
    by exact (Hall l [] s eq_refl Hs).
  induction rest as [|x rest IH]; intros dn s' Hl Hr; cbn [for_each].
  - rewrite app_nil_r in Hl. by subst.
  - apply spec_bind. eapply spec_mono; [by apply (Hf dn x rest)| |done|done].
    intros [] s'' Hr'. apply (IH (dn ++ [x])); [by rewrite <- app_assoc|done].
Qed.

Lemma spec_zoom {S T A} (get : T → S) (set : S → T → T) (m : run S A) t Q E H :
  spec m (get t) (λ a s, Q a (set s t)) (λ e s, E e (set s t)) (λ s, H (set s t)) →
  spec (zoom get set m) t Q E H.
Proof. unfold spec, zoom. destruct (m (get t)) as [[[]|] ?]; done. Qed.

(** What a run that returned has established. *)
Lemma spec_value {S A} (m : run S A) s (a : A) Q E H :
  spec m s Q E H → (m s).1 = Some (Ok a) → Q a (m s).2.
Proof. unfold spec. destruct (m s) as [[[]|] ?]; simpl; intros Hs Hm; simplify_eq. done. Qed.

(** One step of a run: the bind, then the lemma for its first call. *)
Ltac step := first [apply spec_bind | apply spec_attempt | apply spec_ask | apply spec_modify
  | apply spec_lift_ok | apply spec_ret | apply spec_fail | apply spec_zoom].
Ltac steps := repeat step.
Tactic Notation "step_by" uconstr(lem) := apply spec_bind; eapply spec_mono; [eapply lem|..].

Lemma spec_and {S A} (m : run S A) s Q E H Q' E' H' :
  spec m s Q E H → spec m s Q' E' H' →
  spec m s (λ a s', Q a s' ∧ Q' a s') (λ e s', E e s' ∧ E' e s') (λ s', H s' ∧ H' s').
Proof. unfold spec. by destruct (m s) as [[[]|] ?]. Qed.

(** ** Parts of the state that a computation leaves alone *)

Definition stable {S X A} (f : S → X) (m : run S A) : Prop := ∀ s, f (m s).2 = f s.

Section stable.
Context {S X : Type} (f : S → X).
Lemma stable_ret {A} (a : A) : stable f (mret a).
Proof. done. Qed.
Lemma stable_lift {A} (r : res A) : stable f (lift r).
Proof. done. Qed.
Lemma stable_fail {A} e : stable f (fail e : run S A).
Proof. done. Qed.
Lemma stable_ask {A} (g : S → A) : stable f (ask g).
Proof. done. Qed.
Lemma stable_modify g : (∀ s, f (g s) = f s) → stable f (modify g).
Proof. intros Hg s. apply Hg. Qed.
Lemma stable_bind {A B} (m : run S A) (k : A → run S B) : stable f m → (∀ a, stable f (k a)) → stable f (m ≫= k).
Proof.
  intros Hm Hk s. specialize (Hm s). unfold mbind, run_bind. destruct (m s) as [[[a|e|]|] s1]; [|done..].
  by rewrite (Hk a s1).
Qed.
Lemma stable_attempt {A} (m : run S A) : stable f m → stable f (attempt m).
Proof. intros Hm s. specialize (Hm s). unfold attempt. by destruct (m s) as [[[a|e|]|] s1]. Qed.
Lemma stable_or_else {A} (m : run S A) h : stable f m → (∀ e, stable f (h e)) → stable f (or_else m h).
Proof.
  intros Hm Hh. apply stable_bind; [by apply stable_attempt|]. intros [a|e|]; [apply stable_ret|apply Hh|apply stable_lift].
Qed.
Lemma stable_zoom {T A} (get : S → T) (set : T → S → S) (m : run T A) :
  (∀ s t, f (set t s) = f s) → stable f (zoom get set m).
Proof. intros Hs s. unfold zoom. destruct (m (get s)) as [r t]. apply Hs. Qed.
End stable.

Create HintDb stable discriminated.
#[export] Hint Resolve stable_ret stable_lift stable_fail stable_ask stable_modify stable_bind stable_attempt
  stable_or_else stable_zoom : stable.
