(* ===== verification/Base.v ===== *)
(** * src/base: reference counts, alignment helpers, the LRU cache and the interface of
    the linked hash map the caches and logs are kept in. *)
From S2P Require Import Prelude.

(** ** Reference counts: src/base/refcnt.rs *)

Module RefCnt.
(** The tuple struct [RefCnt(u32)] is its value. *)
Definition val (r : Z) : Z := r.
Definition new : Z := 0.

(** Each returns the new counter with the method's [Ok] value; on [Err] the counter is
    left as it was. *)
Definition inc_ref (r : Z) : res (Z * Z) :=
  if r + 1 <? U32 then Ok (r + 1, r + 1) else Err RefOverflow.
Definition dec_ref (r : Z) : res (Z * Z) :=
  if 1 <=? r then Ok (r - 1, r - 1) else Err RefUnderflow.

Lemma inc_ref_inv r r' n : inc_ref r = Ok (r', n) → r' = r + 1 ∧ n = r + 1 ∧ r + 1 < U32.
Proof. unfold inc_ref. case_match; zify_b; [|done]. intros [= <- <-]. lia. Qed.
Lemma dec_ref_inv r r' n : dec_ref r = Ok (r', n) → r' = r - 1 ∧ n = r - 1 ∧ 1 ≤ r.
Proof. unfold dec_ref. case_match; zify_b; [|done]. intros [= <- <-]. lia. Qed.
Lemma inc_ref_ok r : r + 1 < U32 → inc_ref r = Ok (r + 1, r + 1).
Proof. unfold inc_ref. intros. by rewrite (proj2 (Z.ltb_lt _ _)). Qed.
Lemma dec_ref_ok r : 1 ≤ r → dec_ref r = Ok (r - 1, r - 1).
Proof. unfold dec_ref. intros. by rewrite (proj2 (Z.leb_le _ _)). Qed.
End RefCnt.

(** ** Alignment: src/base/utils.rs *)

Module Utils.
(** [x as isize] on a 64-bit machine. *)
Definition as_isize (x : Z) : Z := if x <? 2 ^ 63 then x else x - U64.

Definition align_offset (x size : Z) : res Z :=
  m ← u_sub size 1; Ok (Z.land x m).
Definition align_floor (x size : Z) : res Z :=
  m ← u_sub size 1; u_sub x (Z.land x m).
Definition align_floor_chunk (x size : Z) : res Z :=
  f ← align_floor x size; if size =? 0 then Panic else Ok (f / size).
(** [-(x as isize)] overflows only for [isize::MIN]. *)
Definition align_ceil (x size : Z) : res Z :=
  if x =? 0 then Ok size
  else if as_isize x =? - 2 ^ 63 then Panic
  else u_add x (Z.land (- as_isize x) (as_isize size - 1)).
Definition align_ceil_chunk (x size : Z) : res Z :=
  c ← align_ceil x size; if size =? 0 then Panic else Ok (c / size).

Section pow2.
Context (k : Z) (Hk : 0 ≤ k < 63).
Abbreviation size := (2 ^ k).

Lemma size_pos : 0 < size.
Proof. apply Z.pow_pos_nonneg; lia. Qed.
Lemma size_small : size < 2 ^ 63.
Proof. apply Z.pow_lt_mono_r; lia. Qed.
Lemma land_mask x : Z.land x (size - 1) = x mod size.
Proof.
  rewrite Z.sub_1_r, <- Z.ones_equiv. apply Z.land_ones. lia.
Qed.

Lemma align_offset_spec x : align_offset x size = Ok (x mod size).
Proof.
  pose proof size_pos. unfold align_offset. res_run. by rewrite land_mask.
Qed.
Lemma align_floor_spec x : 0 ≤ x → align_floor x size = Ok (size * (x / size)).
Proof.
  intros. pose proof size_pos. unfold align_floor. res_run.
  rewrite land_mask. pose proof (Z.mod_le x size ltac:(lia) ltac:(lia)).
  rewrite u_sub_ok by lia. f_equal. pose proof (Z.div_mod x size ltac:(lia)). lia.
Qed.
Lemma align_floor_chunk_spec x : 0 ≤ x → align_floor_chunk x size = Ok (x / size).
Proof.
  intros. pose proof size_pos. unfold align_floor_chunk.
  rewrite align_floor_spec by lia. rewrite bind_ok.
  rewrite (proj2 (Z.eqb_neq _ _)) by lia.
  by rewrite Z.mul_comm, Z.div_mul by lia.
Qed.
(** Rounding up: zero takes a whole unit, a multiple stays where it is. *)
Lemma align_ceil_spec x :
  0 ≤ x < 2 ^ 62 → align_ceil x size = Ok (size * Z.max 1 ((x + size - 1) / size)).
Proof.
  intros Hx. pose proof size_pos. pose proof size_small.
  assert (E63 : 2 ^ 63 = 2 * 2 ^ 62) by reflexivity.
  assert (E64 : U64 = 4 * 2 ^ 62) by reflexivity.
  unfold align_ceil. destruct (Z.eqb_spec x 0) as [->|Hx0].
  { rewrite Z.div_small by lia. f_equal. lia. }
  unfold as_isize.
  rewrite (proj2 (Z.ltb_lt x _)), (proj2 (Z.ltb_lt size _)) by lia.
  rewrite (proj2 (Z.eqb_neq _ _)) by lia.
  rewrite land_mask. pose proof (Z.mod_pos_bound (- x) size ltac:(lia)).
  rewrite u_add_ok by lia. f_equal.
  assert (Hq : x + (- x) mod size = size * (- ((- x) / size))).
  { pose proof (Z.div_mod (- x) size ltac:(lia)). lia. }
  rewrite Hq. f_equal.
  assert (Hc : (x + size - 1) / size = - ((- x) / size)).
  { symmetry. apply (Z.div_unique _ _ _ (size - 1 - (- x) mod size)); lia. }
  rewrite Hc.
  assert (1 ≤ (x + size - 1) / size); [|lia].
  apply Z.div_le_lower_bound; lia.
Qed.
Lemma align_ceil_chunk_spec x :
  0 ≤ x < 2 ^ 62 → align_ceil_chunk x size = Ok (Z.max 1 ((x + size - 1) / size)).
Proof.
  intros. pose proof size_pos. unfold align_ceil_chunk.
  rewrite align_ceil_spec by lia. rewrite bind_ok.
  rewrite (proj2 (Z.eqb_neq _ _)) by lia.
  by rewrite Z.mul_comm, Z.div_mul by lia.
Qed.
End pow2.
End Utils.

(** ** Association lists in order *)

Section assoc.
Context {K V : Type} `{EqDecision K}.
Implicit Types (l : list (K * V)) (k : K) (v : V).

Fixpoint assoc k l : option V :=
  match l with
  | [] => None
  | (k', v) :: l => if decide (k = k') then Some v else assoc k l
  end.
Definition assoc_del k l : list (K * V) := filter (λ kv, kv.1 ≠ k) l.

Lemma assoc_Some_elem k v l : assoc k l = Some v → (k, v) ∈ l.
Proof.
  induction l as [|[k' v'] l IH]; simpl; [done|].
  case_decide; [intros [= ->]; subst; left | intros ?; right; auto].
Qed.
Lemma assoc_elem k v l : NoDup l.*1 → (k, v) ∈ l → assoc k l = Some v.
Proof.
  induction l as [|[k' v'] l IH]; simpl; [by intros ? ?%not_elem_of_nil|].
  intros [Hni Hnd]%NoDup_cons [Heq|Hin]%elem_of_cons.
  - injection Heq as <- <-. by rewrite decide_True.
  - rewrite decide_False; [by apply IH|]. intros ->. apply Hni.
    apply list_elem_of_fmap. by exists (k', v).
Qed.
Lemma assoc_None k l : assoc k l = None ↔ k ∉ l.*1.
Proof.
  induction l as [|[k' v'] l IH]; simpl; [split; [intros _; apply not_elem_of_nil|done]|].
  rewrite not_elem_of_cons, <- IH. case_decide; [split; [done|by intros []]|tauto].
Qed.
Lemma assoc_app k l1 l2 :
  assoc k (l1 ++ l2) = match assoc k l1 with Some v => Some v | None => assoc k l2 end.
Proof. induction l1 as [|[k' v'] l1 IH]; simpl; [done|]. by case_decide. Qed.
Lemma assoc_del_ne k k' l : k ≠ k' → assoc k (assoc_del k' l) = assoc k l.
Proof.
  intros Hne. unfold assoc_del. induction l as [|[k2 v2] l IH]; [done|].
  rewrite filter_cons. cbn [fst assoc].
  destruct (decide (k2 ≠ k')) as [|Heq].
  - cbn [assoc]. case_decide; [done|apply IH].
  - rewrite decide_False; [apply IH|]. intros ->. apply Heq. congruence.
Qed.
Lemma assoc_del_eq k l : assoc k (assoc_del k l) = None.
Proof.
  apply assoc_None. unfold assoc_del. rewrite list_elem_of_fmap.
  intros ([k' v] & -> & [Hne _]%list_elem_of_filter). done.
Qed.
Lemma assoc_del_id k l : assoc k l = None → assoc_del k l = l.
Proof.
  intros Hn%assoc_None. unfold assoc_del. induction l as [|[k' v'] l IH]; [done|].
  simpl in Hn. rewrite not_elem_of_cons in Hn. destruct Hn as [Hne Hn].
  rewrite filter_cons_True by (simpl; congruence). f_equal. by apply IH.
Qed.
Lemma NoDup_assoc_filter (P : K * V → Prop) `{∀ x, Decision (P x)} l :
  NoDup l.*1 → NoDup (filter P l).*1.
Proof.
  induction l as [|[k v] l IH]; [done|]. simpl. intros [Hni Hnd]%NoDup_cons.
  rewrite filter_cons. case_decide; [|auto]. simpl. apply NoDup_cons. split; [|auto].
  intros ([k2 v'] & Heq & [_ Hin]%list_elem_of_filter)%list_elem_of_fmap.
  apply Hni, list_elem_of_fmap. by exists (k2, v').
Qed.
Lemma NoDup_assoc_insert k v l : NoDup l.*1 → NoDup (assoc_del k l ++ [(k, v)]).*1.
Proof.
  intros. rewrite fmap_app. apply NoDup_app. split; [by apply NoDup_assoc_filter|].
  split; [|apply NoDup_singleton].
  intros k'. simpl. intros Hin ->%list_elem_of_singleton.
  by apply assoc_None in Hin; [|apply assoc_del_eq].
Qed.
Lemma zsum_assoc_del (f : K * V → Z) k l :
  NoDup l.*1 →
  zsum f (assoc_del k l) = zsum f l - match assoc k l with Some v => f (k, v) | None => 0 end.
Proof.
  unfold assoc_del. induction l as [|[k' v'] l IH]; [done|].
  simpl. intros [Hni Hnd]%NoDup_cons. rewrite filter_cons. simpl.
  destruct (decide (k = k')) as [->|Hne].
  - rewrite decide_False by naive_solver. rewrite IH by done.
    apply assoc_None in Hni. rewrite Hni. lia.
  - rewrite decide_True by done. simpl. rewrite IH by done. lia.
Qed.
Lemma length_assoc_del k l :
  NoDup l.*1 →
  zlen (assoc_del k l) = zlen l - match assoc k l with Some _ => 1 | None => 0 end.
Proof.
  intros Hnd. assert (Hz : ∀ l' : list (K * V), zlen l' = zsum (λ _, 1) l').
  { induction l'; [done|]. rewrite zlen_cons. simpl. lia. }
  rewrite !Hz, zsum_assoc_del by done. by destruct (assoc k l).
Qed.
End assoc.

(** ** The linked hash map of the [linked_hash_map] crate *)

(** A third-party map that iterates in order of last insertion or refresh. It is a
    parameter: [lm_entries] lists its pairs front (oldest) to back, and the laws are the
    crate's documented behaviour of each method in terms of that list. *)
Class LinkedMapOps (K V M : Type) := {
  lm_entries : M → list (K * V);
  lm_new : M;
  lm_insert : K → V → M → option V * M;
  lm_or_insert : K → V → M → M;
  lm_get_refresh : K → M → option V * M;
  lm_remove : K → M → option V * M;
  lm_pop_front : M → M;
  lm_retain : (K → V → bool) → M → M
}.
#[export] Hint Mode LinkedMapOps - - ! : typeclass_instances.

Class LinkedMap (K V M : Type) `{EqDecision K} `{!LinkedMapOps K V M} : Prop := {
  lm_entries_nodup (m : M) : NoDup (lm_entries m).*1;
  lm_entries_new : lm_entries (lm_new : M) = [];
  lm_insert_old k v (m : M) : (lm_insert k v m).1 = assoc k (lm_entries m);
  lm_entries_insert k v (m : M) :
    lm_entries (lm_insert k v m).2 = assoc_del k (lm_entries m) ++ [(k, v)];
  lm_entries_or_insert k v (m : M) :
    lm_entries (lm_or_insert k v m)
    = match assoc k (lm_entries m) with
      | Some _ => lm_entries m | None => lm_entries m ++ [(k, v)] end;
  lm_get_refresh_val k (m : M) : (lm_get_refresh k m).1 = assoc k (lm_entries m);
  lm_entries_get_refresh k (m : M) :
    lm_entries (lm_get_refresh k m).2
    = match assoc k (lm_entries m) with
      | Some v => assoc_del k (lm_entries m) ++ [(k, v)] | None => lm_entries m end;
  lm_remove_old k (m : M) : (lm_remove k m).1 = assoc k (lm_entries m);
  lm_entries_remove k (m : M) : lm_entries (lm_remove k m).2 = assoc_del k (lm_entries m);
  lm_entries_pop_front (m : M) : lm_entries (lm_pop_front m) = tail (lm_entries m);
  lm_entries_retain f (m : M) :
    lm_entries (lm_retain f m) = filter (λ kv, f kv.1 kv.2 = true) (lm_entries m)
}.

Definition lm_get `{EqDecision K, LinkedMapOps K V M} (k : K) (m : M) : option V :=
  assoc k (lm_entries m).

Section linked_map.
Context `{EqDecision K, !LinkedMapOps K V M, !LinkedMap K V M}.
Implicit Types (m : M) (k : K) (v : V).

Lemma lm_get_new k : lm_get k (lm_new : M) = None.
Proof. unfold lm_get. by rewrite lm_entries_new. Qed.
Lemma lm_get_insert k k' v m :
  lm_get k (lm_insert k' v m).2 = if decide (k = k') then Some v else lm_get k m.
Proof.
  unfold lm_get. rewrite lm_entries_insert, assoc_app. case_decide as Hk.
  - subst. rewrite assoc_del_eq. simpl. by rewrite decide_True.
  - rewrite assoc_del_ne by done. simpl. rewrite decide_False by done.
    by destruct (assoc k _).
Qed.
Lemma lm_get_get_refresh k k' m : lm_get k (lm_get_refresh k' m).2 = lm_get k m.
Proof.
  unfold lm_get. rewrite lm_entries_get_refresh.
  destruct (assoc k' _) as [v|] eqn:Hk'; [|done].
  rewrite assoc_app. destruct (decide (k = k')) as [->|Hne].
  - rewrite assoc_del_eq. simpl. by rewrite decide_True.
  - rewrite assoc_del_ne by done. simpl. rewrite decide_False by done.
    by destruct (assoc k _).
Qed.
Lemma lm_get_remove k k' m :
  lm_get k (lm_remove k' m).2 = if decide (k = k') then None else lm_get k m.
Proof.
  unfold lm_get. rewrite lm_entries_remove. case_decide as Hk.
  - subst. apply assoc_del_eq.
  - by apply assoc_del_ne.
Qed.
Lemma lm_get_or_insert k k' v m :
  lm_get k (lm_or_insert k' v m)
  = if decide (k = k') then Some (default v (lm_get k m)) else lm_get k m.
Proof.
  unfold lm_get. rewrite lm_entries_or_insert. destruct (assoc k' _) as [v'|] eqn:Hk'.
  - case_decide; [subst; by rewrite Hk'|done].
  - rewrite assoc_app. simpl. case_decide; [subst; by rewrite Hk'|].
    by destruct (assoc k _).
Qed.
Lemma lm_get_elem k v m : lm_get k m = Some v ↔ (k, v) ∈ lm_entries m.
Proof.
  split; [apply assoc_Some_elem|]. apply assoc_elem, lm_entries_nodup.
Qed.
End linked_map.

(** The laws are consistent: an association list without duplicate keys has them. *)
Module AssocMap.
Section instance.
Context (K V : Type) `{EqDecision K}.
Record amap := AMap { am_list : list (K * V); am_nodup : NoDup am_list.*1 }.

Lemma or_insert_nodup k v (m : amap) :
  NoDup (match assoc k (am_list m) with
         | Some _ => am_list m | None => am_list m ++ [(k, v)] end).*1.
Proof.
  destruct m as [l Hl]; simpl. destruct (assoc k l) eqn:E; [done|].
  rewrite <- (assoc_del_id k l) by done. by apply NoDup_assoc_insert.
Qed.
Lemma refresh_nodup k (m : amap) :
  NoDup (match assoc k (am_list m) with
         | Some v => assoc_del k (am_list m) ++ [(k, v)] | None => am_list m end).*1.
Proof.
  destruct m as [l Hl]; simpl. destruct (assoc k l); [by apply NoDup_assoc_insert|done].
Qed.
Lemma tail_nodup (m : amap) : NoDup (tail (am_list m)).*1.
Proof. destruct m as [[|? l] Hl]; simpl; [constructor|]. by apply list.NoDup_cons in Hl as []. Qed.

#[global] Instance amap_ops : LinkedMapOps K V amap := {|
  lm_entries := am_list;
  lm_new := AMap [] (NoDup_nil_2);
  lm_insert k v m :=
    (assoc k (am_list m),
     AMap (assoc_del k (am_list m) ++ [(k, v)]) (NoDup_assoc_insert k v _ (am_nodup m)));
  lm_or_insert k v m := AMap _ (or_insert_nodup k v m);
  lm_get_refresh k m := (assoc k (am_list m), AMap _ (refresh_nodup k m));
  lm_remove k m :=
    (assoc k (am_list m), AMap (assoc_del k (am_list m)) (NoDup_assoc_filter _ _ (am_nodup m)));
  lm_pop_front m := AMap _ (tail_nodup m);
  lm_retain f m :=
    AMap (filter (λ kv, f kv.1 kv.2 = true) (am_list m)) (NoDup_assoc_filter _ _ (am_nodup m))
|}.
#[global] Instance amap_laws : LinkedMap K V amap.
Proof. split; try done. apply am_nodup. Qed.
End instance.
Arguments am_list {K V} _.
End AssocMap.

(** ** LRU cache: src/base/lru.rs *)

(** The [Meter] and [Pinnable] traits. *)
Class Meter (V : Type) := measure : V → Z.
Class Pinnable (V : Type) := is_pinned : V → bool.
#[export] Hint Mode Meter ! : typeclass_instances.
#[export] Hint Mode Pinnable ! : typeclass_instances.

Module Lru.
(** The [meter] and [pin_ckr] fields are the class instances. *)
Record Lru (M : Type) := mkLru { capacity : Z; used : Z; map : M }.
Arguments mkLru {M} _ _ _.
Arguments capacity {M} _.
Arguments used {M} _.
Arguments map {M} _.

Section lru.
Context {K V M : Type} `{EqDecision K, !LinkedMapOps K V M, !Meter V, !Pinnable V}.
Implicit Types (l : Lru M) (k : K) (v : V).

(** [(x as isize + d) as usize]. *)
Definition add_usize (x d : Z) : Z := (x + d) mod U64.

Definition new (cap : Z) : Lru M := mkLru cap 0 lm_new.

Definition first_unpinned (m : M) : option (K * V) :=
  head (filter (λ kv, is_pinned kv.2 = false) (lm_entries m)).

Definition remove_lru l : option V * Lru M :=
  match first_unpinned (map l) with
  | Some (k, v) =>
      (Some v, mkLru (capacity l) (add_usize (used l) (- measure v)) (lm_remove k (map l)).2)
  | None => (None, l)
  end.

Definition insert k v l : res (option V * Lru M) :=
  _ ← rassert (0 <? capacity l);
  let delta := measure v in
  let '(old, m) := lm_insert k v (map l) in
  let delta := match old with Some old_val => delta - measure old_val | None => delta end in
  let l := mkLru (capacity l) (add_usize (used l) delta) m in
  let l := if capacity l <? used l then (remove_lru l).2 else l in
  Ok (old, l).

Definition contains_key k l : bool := bool_decide (is_Some (lm_get k (map l))).

Definition get_refresh k l : option V * Lru M :=
  let '(o, m) := lm_get_refresh k (map l) in (o, mkLru (capacity l) (used l) m).

Definition remove k l : option V * Lru M :=
  match lm_remove k (map l) with
  | (Some v, m) => (Some v, mkLru (capacity l) (add_usize (used l) (- measure v)) m)
  | (None, m) => (None, mkLru (capacity l) (used l) m)
  end.

(** [entries()] hands out the map's own entries: removing some of them is a [retain]
    on the map that leaves [used] alone. *)
Definition entries_remove (f : K → V → bool) l : Lru M :=
  mkLru (capacity l) (used l) (lm_retain (λ k v, negb (f k v)) (map l)).

(** The meter's account of the cache. *)
Definition total (m : M) : Z := zsum (λ kv, measure kv.2) (lm_entries m).
Definition lru_ok l : Prop := used l = total (map l) ∧ total (map l) < 2 ^ 62.
End lru.

Section lru_lemmas.
Context {K V M : Type} `{EqDecision K, !LinkedMapOps K V M, !LinkedMap K V M,
  !Meter V, !Pinnable V}.
Context (measure_nonneg : ∀ v : V, 0 ≤ measure v).
Implicit Types (l : Lru M) (k : K) (v : V) (m : M).

Lemma total_nonneg m : 0 ≤ total m.
Proof.
  apply zsum_nonneg, Forall_true. intros. apply measure_nonneg.
Qed.
Lemma total_remove k m :
  total (lm_remove k m).2
  = total m - match lm_get k m with Some v => measure v | None => 0 end.
Proof.
  unfold total. rewrite lm_entries_remove, zsum_assoc_del by apply lm_entries_nodup. done.
Qed.
Lemma total_insert k v m :
  total (lm_insert k v m).2
  = total m - match lm_get k m with Some v => measure v | None => 0 end + measure v.
Proof.
  unfold total. rewrite lm_entries_insert, zsum_app, zsum_assoc_del by apply lm_entries_nodup.
  unfold lm_get. simpl. lia.
Qed.
Lemma total_refresh k m : total (lm_get_refresh k m).2 = total m.
Proof.
  unfold total. rewrite lm_entries_get_refresh.
  destruct (assoc k (lm_entries m)) eqn:E; [|done].
  rewrite zsum_app, zsum_assoc_del, E by apply lm_entries_nodup. simpl. lia.
Qed.
Lemma total_get_le k v m : lm_get k m = Some v → measure v ≤ total m.
Proof.
  intros Hk. pose proof (total_remove k m) as Ht. rewrite Hk in Ht.
  pose proof (total_nonneg (lm_remove k m).2). lia.
Qed.

Lemma first_unpinned_get k v m :
  first_unpinned m = Some (k, v) → lm_get k m = Some v ∧ is_pinned v = false.
Proof.
  unfold first_unpinned. intros Hh%head_Some_elem_of.
  apply list_elem_of_filter in Hh as [Hp Hin]. split; [by apply lm_get_elem|done].
Qed.

Lemma remove_lru_ok l : lru_ok l → lru_ok (remove_lru l).2.
Proof.
  intros [Hu Hb]. unfold remove_lru.
  destruct (first_unpinned (map l)) as [[k v]|] eqn:Hf; [|done].
  apply first_unpinned_get in Hf as [Hk _].
  pose proof (total_get_le _ _ _ Hk). pose proof (measure_nonneg v).
  assert (U64 = 4 * 2 ^ 62) by reflexivity.
  unfold lru_ok, add_usize. simpl. rewrite total_remove, Hk.
  rewrite Z.mod_small by lia. lia.
Qed.
Lemma remove_ok k l : lru_ok l → lru_ok (remove k l).2.
Proof.
  intros [Hu Hb]. unfold remove.
  pose proof (total_remove k (map l)) as Ht. pose proof (lm_remove_old k (map l)) as Ho.
  destruct (lm_remove k (map l)) as [o m] eqn:E. simpl in Ho, Ht.
  change (assoc k (lm_entries (map l))) with (lm_get k (map l)) in Ho. subst o.
  pose proof (total_nonneg m). assert (U64 = 4 * 2 ^ 62) by reflexivity.
  unfold lru_ok, add_usize.
  destruct (lm_get k (map l)) as [v|]; simpl; [|lia].
  pose proof (measure_nonneg v). rewrite Z.mod_small by lia. lia.
Qed.
Lemma get_refresh_ok k l : lru_ok l → lru_ok (get_refresh k l).2.
Proof.
  unfold lru_ok, get_refresh. pose proof (total_refresh k (map l)).
  destruct (lm_get_refresh k (map l)). simpl in *. intros. lia.
Qed.
(** What [insert] does before the eviction test. *)
Lemma insert_unfold k v l :
  0 < capacity l → lru_ok l → total (map l) + measure v < 2 ^ 62 →
  let l' := mkLru (capacity l) (total (lm_insert k v (map l)).2) (lm_insert k v (map l)).2 in
  lru_ok l' ∧
  insert k v l
  = Ok (lm_get k (map l), if capacity l <? used l' then (remove_lru l').2 else l').
Proof.
  intros Hc [Hu Hb] Hv l'. subst l'. pose proof (total_insert k v (map l)) as Ht.
  assert (U64 = 4 * 2 ^ 62) by reflexivity.
  pose proof (measure_nonneg v). pose proof (total_nonneg (lm_insert k v (map l)).2).
  split.
  { split; simpl; [done|]. rewrite Ht. destruct (lm_get k (map l)) as [w|]; [|lia].
    pose proof (measure_nonneg w). lia. }
  unfold insert. rewrite rassert_ok by (apply Z.ltb_lt; lia). rewrite bind_ok.
  pose proof (lm_insert_old k v (map l)) as Ho.
  unfold lm_get in *. destruct (lm_insert k v (map l)) as [o m] eqn:E.
  cbn [fst snd] in *. subst o. unfold add_usize. cbn [capacity used map].
  assert (Hd : used l + match assoc k (lm_entries (map l)) with
      | Some old_val => measure v - measure old_val | None => measure v end = total m).
  { rewrite Ht, Hu. destruct (assoc k _); lia. }
  rewrite Hd, Z.mod_small; [done|]. split; [done|]. rewrite Ht.
  destruct (assoc k (lm_entries (map l))) as [w|]; [|lia].
  pose proof (measure_nonneg w). lia.
Qed.
Lemma insert_ok k v l :
  0 < capacity l → lru_ok l → total (map l) + measure v < 2 ^ 62 →
  ∃ l', insert k v l = Ok (lm_get k (map l), l') ∧ lru_ok l' ∧ capacity l' = capacity l.
Proof.
  intros Hc Hl Hv. destruct (insert_unfold k v l Hc Hl Hv) as [Hok ->].
  eexists. split; [done|]. case_match; [|done].
  split; [by apply remove_lru_ok|]. unfold remove_lru. by repeat case_match.
Qed.
End lru_lemmas.
End Lru.
