(* ===== verification/Address.v ===== *)
(** * src/volume: block spans, entity addresses, their division into sectors and frames,
    and the block allocator. *)
From S2P Require Import Prelude.

(** Constants of src/volume/mod.rs. *)
Definition BLK_SIZE : Z := 8 * 1024.
Definition BLKS_PER_FRAME : Z := 16.
Definition FRAME_SIZE : Z := BLKS_PER_FRAME * BLK_SIZE.

(** ** Block spans *)

Module Span.
Record Span := mkSpan { begin : Z; cnt : Z }.

#[export] Instance Span_eq_dec : EqDecision Span.
Proof. solve_decision. Defined.

Definition send (s : Span) : res Z := u_add (begin s) (cnt s).
Definition bytes_len (s : Span) : res Z := u_mul (cnt s) BLK_SIZE.

(** The span keeps [at..], the part before it is returned. *)
Definition split_to (s : Span) (at_ : Z) : res (Span * Span) :=
  e ← send s;
  _ ← rassert ((begin s <=? at_) && (at_ <? e));
  e ← send s;
  d ← u_sub e at_;
  c ← u_sub (cnt s) d;
  let ret := mkSpan (begin s) c in
  c' ← u_sub (cnt s) (cnt ret);
  Ok (mkSpan at_ c', ret).

(** The [while at < span.end()] loop of [divide_by]. *)
Fixpoint divide_loop (fuel : nat) (s : Span) (at_ size : Z) (acc : list Span)
    : res (list Span) :=
  match fuel with
  | O => Panic
  | S fuel =>
      e ← send s;
      if at_ <? e then
        '(s, split) ← split_to s at_;
        at_ ← u_add at_ size;
        divide_loop fuel s at_ size (acc ++ [split])
      else Ok (acc ++ [s])
  end.

(** Every round takes a non-empty piece off, so [cnt + 1] rounds are enough. *)
Definition divide_by (s : Span) (size : Z) : res (list Span) :=
  if cnt s =? 0 then Ok []
  else
    a ← u_add (begin s) size;
    if size =? 0 then Panic
    else
      at_ ← u_sub a (begin s mod size);
      divide_loop (S (Z.to_nat (cnt s))) s at_ size [].

(** The blocks of a span ([into_iter]). *)
Definition blocks (s : Span) : list Z := seqZ (begin s) (cnt s).

Definition span_ok (s : Span) : Prop := 0 ≤ begin s ∧ 0 ≤ cnt s ∧ begin s + cnt s < U64.

Lemma send_ok s : span_ok s → send s = Ok (begin s + cnt s).
Proof. intros (?&?&?). unfold send. by res_run. Qed.
Lemma split_to_spec s at_ :
  span_ok s → begin s ≤ at_ < begin s + cnt s →
  split_to s at_
  = Ok (mkSpan at_ (begin s + cnt s - at_), mkSpan (begin s) (at_ - begin s)).
Proof.
  intros (?&?&?) ?. unfold split_to, send. res_run. simpl.
  rewrite u_sub_ok by lia. rewrite bind_ok. do 3 f_equal; lia.
Qed.
Lemma blocks_split s at_ :
  begin s ≤ at_ ≤ begin s + cnt s →
  blocks s
  = blocks (mkSpan (begin s) (at_ - begin s)) ++ blocks (mkSpan at_ (begin s + cnt s - at_)).
Proof.
  intros. unfold blocks. simpl.
  replace (cnt s) with ((at_ - begin s) + (begin s + cnt s - at_)) at 1 by lia.
  rewrite seqZ_app by lia. do 2 f_equal. lia.
Qed.
Lemma zlen_blocks s : 0 ≤ cnt s → zlen (blocks s) = cnt s.
Proof. unfold zlen, blocks. rewrite length_seqZ. lia. Qed.

(** A piece of the division: non-empty, and inside one [size]-aligned unit. *)
Definition in_unit (size : Z) (s : Span) : Prop :=
  0 < cnt s ∧ begin s / size = (begin s + cnt s - 1) / size.

Lemma divide_loop_spec size fuel s at_ acc :
  0 < size → span_ok s → 0 < cnt s → begin s + cnt s + size < U64 →
  at_ = size * (begin s / size) + size →
  (Z.to_nat (cnt s) < fuel)%nat →
  ∃ l, divide_loop fuel s at_ size acc = Ok (acc ++ l) ∧
    concat (blocks <$> l) = blocks s ∧ Forall (in_unit size) l.
Proof.
  intros Hsize. revert s at_ acc. induction fuel as [|fuel IH]; intros s at_ acc; [lia|].
  intros Hok Hcnt Hov -> Hfuel. pose proof Hok as (Hb & _ & He).
  pose proof (Z.mul_div_le (begin s) size Hsize).
  pose proof (Z.mul_succ_div_gt (begin s) size Hsize).
  cbn [divide_loop]. rewrite send_ok by done. res_run.
  destruct (_ <? _) eqn:Hlt; zify_b.
  - rewrite split_to_spec by (done || lia). res_run.
    set (at_ := size * (begin s / size) + size) in *.
    assert (Hdiv : at_ / size = begin s / size + 1).
    { symmetry. apply (Z.div_unique _ _ _ 0); lia. }
    destruct (IH (mkSpan at_ (begin s + cnt s - at_)) (at_ + size)
      (acc ++ [mkSpan (begin s) (at_ - begin s)])) as (l & Hl & Hc & HF);
      unfold span_ok; simpl; [lia..|rewrite Hdiv; lia|lia|].
    exists (mkSpan (begin s) (at_ - begin s) :: l).
    rewrite Hl, <- app_assoc. split; [done|]. split.
    + rewrite fmap_cons, concat_cons, Hc. symmetry. apply blocks_split. lia.
    + constructor; [|done]. split; simpl; [lia|].
      apply (Z.div_unique _ _ _ (size - 1)); lia.
  - exists [s]. split; [done|]. split; [simpl; apply app_nil_r|].
    constructor; [|done]. split; [lia|].
    apply (Z.div_unique _ _ _ (begin s + cnt s - 1 - size * (begin s / size))); lia.
Qed.

Lemma divide_by_ok s size :
  0 < size → span_ok s → begin s + cnt s + size < U64 →
  ∃ l, divide_by s size = Ok l ∧
    concat (blocks <$> l) = blocks s ∧ Forall (in_unit size) l.
Proof.
  intros Hsize Hok Hov. pose proof Hok as (Hb & Hc & He). unfold divide_by.
  destruct (Z.eqb_spec (cnt s) 0) as [H0|H0].
  { exists []. unfold blocks. rewrite H0. split; [done|]. split; [done|constructor]. }
  res_run. rewrite (proj2 (Z.eqb_neq _ _)) by lia.
  pose proof (Z.mod_pos_bound (begin s) size Hsize). res_run.
  pose proof (Z.div_mod (begin s) size ltac:(lia)).
  destruct (divide_loop_spec size (S (Z.to_nat (cnt s))) s
    (begin s + size - begin s mod size) []) as (l & Hl & ?); [lia|done|lia..|].
  rewrite Hl. eauto.
Qed.
End Span.
Export (hints) Span.

(** ** Spans with their offset in the address *)

Module LocSpan.
Record LocSpan := mkLocSpan { span : Span.Span; offset : Z }.
Definition new (b c o : Z) : LocSpan := mkLocSpan (Span.mkSpan b c) o.

#[export] Instance LocSpan_eq_dec : EqDecision LocSpan.
Proof. solve_decision. Defined.

Definition split_to (l : LocSpan) (at_ : Z) : res (LocSpan * LocSpan) :=
  '(s, r) ← Span.split_to (span l) at_;
  let ret := mkLocSpan r (offset l) in
  n ← Span.bytes_len (span ret);
  o ← u_add (offset l) n;
  Ok (mkLocSpan s o, ret).
End LocSpan.

(** ** Entity addresses *)

Module Addr.
Import LocSpan.
Record Addr := mkAddr { len : Z; list_ : list LocSpan }.
Definition default_addr : Addr := mkAddr 0 [].

(** [append]: a span that starts where the last one ends is merged into it. *)
Definition append (a : Addr) (s : Span.Span) (n : Z) : res Addr :=
  match last (list_ a) with
  | None => Ok (mkAddr n (list_ a ++ [LocSpan.new (Span.begin s) (Span.cnt s) 0]))
  | Some lst =>
      e ← Span.send (span lst);
      l ← (if Span.begin s =? e then
             c ← u_add (Span.cnt (span lst)) (Span.cnt s);
             Ok (removelast (list_ a)
                 ++ [mkLocSpan (Span.mkSpan (Span.begin (span lst)) c) (offset lst)])
           else Ok (list_ a ++ [LocSpan.new (Span.begin s) (Span.cnt s) (len a)]));
      n' ← u_add (len a) n;
      Ok (mkAddr n' l)
  end.

(** [frames[i].list.push(s)], and the frame's length set with it. *)
Definition frame_push (frames : list Addr) (i : Z) (s : LocSpan) : res (list Addr) :=
  f ← vindex frames i; vset frames i (mkAddr (len f) (list_ f ++ [s])).
Definition frame_set_len (frames : list Addr) (i n : Z) : res (list Addr) :=
  f ← vindex frames i; vset frames i (mkAddr n (list_ f)).

(** The inner [loop] of [divide_to_frames]; returns frames, frame index, block count. *)
Fixpoint frame_loop (fuel : nat) (ls : LocSpan) (frames : list Addr) (frm_idx blk_cnt : Z)
    : res (list Addr * Z * Z) :=
  match fuel with
  | O => Panic
  | S fuel =>
      blk_left ← u_sub BLKS_PER_FRAME blk_cnt;
      if Span.cnt (span ls) <=? blk_left then
        frames ← frame_push frames frm_idx ls;
        blk_cnt ← u_add blk_cnt (Span.cnt (span ls));
        Ok (frames, frm_idx, blk_cnt)
      else
        at_ ← u_add (Span.begin (span ls)) blk_left;
        '(ls, split) ← LocSpan.split_to ls at_;
        frames ← frame_push frames frm_idx split;
        frames ← frame_set_len frames frm_idx FRAME_SIZE;
        frm_idx' ← u_add frm_idx 1;
        frame_loop fuel ls (frames ++ [default_addr]) frm_idx' 0
  end.

Fixpoint frames_of (l : list LocSpan) (frames : list Addr) (frm_idx blk_cnt : Z)
    : res (list Addr * Z * Z) :=
  match l with
  | [] => Ok (frames, frm_idx, blk_cnt)
  | ls :: l =>
      a ← u_mul frm_idx FRAME_SIZE;
      b ← u_mul blk_cnt BLK_SIZE;
      o ← u_add a b;
      (* a full frame holds 16 blocks, so a span of [c] blocks spans at most [c/16 + 2] *)
      '(frames, frm_idx, blk_cnt) ←
        frame_loop (Z.to_nat (Span.cnt (span ls)) + 2) (mkLocSpan (span ls) o)
          frames frm_idx blk_cnt;
      frames_of l frames frm_idx blk_cnt
  end.

Definition divide_to_frames (a : Addr) : res (list Addr) :=
  '(frames, frm_idx, _) ← frames_of (list_ a) [default_addr] 0 0;
  n ← u_mul frm_idx FRAME_SIZE;
  n ← u_sub (len a) n;
  frames ← frame_set_len frames (zlen frames - 1) n;
  _ ← rassert (len a =? zsum len frames);
  Ok frames.

(** The blocks of an address, in order, and how many there are. *)
Definition blocks (a : Addr) : list Z := concat ((λ l, Span.blocks (span l)) <$> list_ a).
Definition blk_total (l : list LocSpan) : Z := zsum (λ s, Span.cnt (span s)) l.

(** Well-formed list of spans: non-empty spans below [2^50] blocks in all. *)
Definition spans_ok (l : list LocSpan) : Prop :=
  Forall (λ s, Span.span_ok (span s) ∧ 0 < Span.cnt (span s)) l ∧ blk_total l < 2 ^ 50.

(** Well-formed address: its byte length ends inside its last block. *)
Definition addr_ok (a : Addr) : Prop :=
  spans_ok (list_ a) ∧
  BLK_SIZE * (blk_total (list_ a) - 1) < len a ≤ BLK_SIZE * blk_total (list_ a).
End Addr.

Module AddrProofs.
Import LocSpan Addr.

Lemma blk_total_nonneg l : spans_ok l → 0 ≤ blk_total l.
Proof.
  intros [HF _]. apply zsum_nonneg. eapply Forall_impl; [exact HF|]. simpl. intros ? [_ ?]. lia.
Qed.
Lemma blocks_of_app l1 l2 :
  concat ((λ l, Span.blocks (span l)) <$> (l1 ++ l2))
  = concat ((λ l, Span.blocks (span l)) <$> l1) ++ concat ((λ l, Span.blocks (span l)) <$> l2).
Proof. by rewrite fmap_app, concat_app. Qed.

Lemma blk_total_app l1 l2 : blk_total (l1 ++ l2) = blk_total l1 + blk_total l2.
Proof. unfold blk_total. apply zsum_app. Qed.
Lemma blk_total_snoc l s : blk_total (l ++ [s]) = blk_total l + Span.cnt (span s).
Proof. rewrite blk_total_app. unfold blk_total at 2. simpl. lia. Qed.

(** [append] adds the blocks and the length of the span. *)
Lemma append_ok a s n :
  spans_ok (list_ a) → (list_ a = [] → len a = 0) → Span.span_ok s → 0 < Span.cnt s →
  blk_total (list_ a) + Span.cnt s < 2 ^ 50 → len a + n < U64 →
  ∃ a', append a s n = Ok a' ∧ len a' = len a + n ∧ blocks a' = blocks a ++ Span.blocks s ∧
    spans_ok (list_ a') ∧ blk_total (list_ a') = blk_total (list_ a) + Span.cnt s ∧ list_ a' ≠ [].
Proof.
  intros [HF Ht] H0 Hs Hc Htot Hn. unfold append. destruct (list_ a) as [|lst l _] eqn:Hl using rev_ind; cbn [last].
  - eexists. split; [done|]. cbn [len list_]. rewrite H0 by done. split; [done|].
    unfold blocks. rewrite Hl. simpl. rewrite app_nil_r. split; [done|]. unfold spans_ok, blk_total in *. simpl in *.
    split; [split; [by apply Forall_singleton|lia]|]. split; [lia|done].
  - rewrite last_snoc. apply Forall_app in HF as [HF Hlst]. apply Forall_singleton in Hlst as [Hlok Hlc]. rewrite blk_total_snoc in *.
    pose proof (blk_total_nonneg l) as Hnn. unfold spans_ok in Hnn.
    rewrite Span.send_ok by done. rewrite bind_ok.
    assert (Hnn' : 0 ≤ blk_total l) by (apply Hnn; split; [done|lia]).
    destruct (Z.eqb_spec (Span.begin s) (Span.begin (span lst) + Span.cnt (span lst))) as [Hb|Hb].
    + rewrite (u_add_ok (Span.cnt _)) by (unfold U64; lia). rewrite removelast_last. res_run.
      eexists. split; [done|]. split; [done|]. cbn [list_].
      assert (Hm : Span.blocks (Span.mkSpan (Span.begin (span lst)) (Span.cnt (span lst) + Span.cnt s))
        = Span.blocks (span lst) ++ Span.blocks s).
      { unfold Span.blocks. cbn [Span.begin Span.cnt]. destruct Hs as (? & ? & ?). rewrite seqZ_app by lia. by rewrite <- Hb. }
      unfold blocks. cbn [list_]. rewrite Hl, !blocks_of_app, <- app_assoc. simpl. rewrite !app_nil_r, Hm.
      split; [done|]. rewrite blk_total_snoc. cbn [span Span.cnt]. destruct Hs as (? & ? & ?), Hlok as (? & ? & ?).
      split; [split; [|rewrite blk_total_snoc; cbn [span Span.cnt]; lia]|split; [lia|by destruct l]].
      apply Forall_app. split; [done|]. apply Forall_singleton. unfold Span.span_ok. cbn [span Span.begin Span.cnt]. lia.
    + res_run. eexists. split; [done|]. split; [done|]. cbn [list_].
      unfold blocks. cbn [list_]. rewrite Hl, !blocks_of_app. simpl. rewrite !app_nil_r. split; [done || by rewrite <- !app_assoc|].
      rewrite !blk_total_snoc. cbn [span Span.cnt LocSpan.new].
      split; [split; [|rewrite !blk_total_snoc; cbn [span Span.cnt LocSpan.new]; lia]|split; [lia|by destruct l]].
      apply Forall_app. split; [by apply Forall_app; split; [|by apply Forall_singleton]|]. by apply Forall_singleton.
Qed.

(** The frames built so far: full frames of sixteen blocks, then the one being filled. *)
Definition full_frame (f : Addr) : Prop :=
  len f = FRAME_SIZE ∧ blk_total (list_ f) = BLKS_PER_FRAME.
(** The spans of a frame lie at consecutive block offsets from [o]. *)
Fixpoint offsets_from (o : Z) (l : list LocSpan) : Prop :=
  match l with
  | [] => True
  | s :: l => offset s = o * BLK_SIZE ∧ offsets_from (o + Span.cnt (span s)) l
  end.

Lemma offsets_from_app o l1 l2 :
  offsets_from o (l1 ++ l2) ↔ offsets_from o l1 ∧ offsets_from (o + blk_total l1) l2.
Proof.
  revert o. induction l1 as [|s l1 IH]; intros o; simpl.
  { rewrite Z.add_0_r. tauto. }
  rewrite IH. unfold blk_total. simpl. rewrite Z.add_assoc. tauto.
Qed.

(** Spans are well formed, and a frame begins with one that is not empty. *)
Definition frame_spans (f : Addr) : Prop :=
  Forall (λ s, Span.span_ok (span s)) (list_ f) ∧
  match list_ f with s :: _ => 0 < Span.cnt (span s) | [] => True end.

Definition frames_inv (done : list Addr) (cur : Addr) (blks : list Z) : Prop :=
  Forall full_frame done ∧
  len cur = 0 ∧ 0 ≤ blk_total (list_ cur) ≤ BLKS_PER_FRAME ∧
  offsets_from 0 (concat (list_ <$> done) ++ list_ cur) ∧
  concat (blocks <$> (done ++ [cur])) = blks ∧
  Forall frame_spans (done ++ [cur]).

Lemma frame_push_last fs f s :
  frame_push (fs ++ [f]) (zlen fs) s = Ok (fs ++ [mkAddr (len f) (list_ f ++ [s])]).
Proof. unfold frame_push. by rewrite (vindex_ok _ _ f), bind_ok, vset_middle by apply zget_middle. Qed.
Lemma frame_set_len_last fs f n :
  frame_set_len (fs ++ [f]) (zlen fs) n = Ok (fs ++ [mkAddr n (list_ f)]).
Proof. unfold frame_set_len. by rewrite (vindex_ok _ _ f), bind_ok, vset_middle by apply zget_middle. Qed.

Lemma total_full done :
  Forall full_frame done → blk_total (concat (list_ <$> done)) = BLKS_PER_FRAME * zlen done.
Proof.
  induction 1 as [|f fs [_ Hf] _ IH]; [done|].
  rewrite fmap_cons, concat_cons, blk_total_app, zlen_cons, IH, Hf. lia.
Qed.

(** Pushing a span that fits the current frame. *)
Lemma frames_inv_push done cur blks ls :
  frames_inv done cur blks → Span.span_ok (span ls) → (blk_total (list_ cur) = 0 → 0 < Span.cnt (span ls)) →
  blk_total (list_ cur) + Span.cnt (span ls) ≤ BLKS_PER_FRAME →
  offset ls = (BLKS_PER_FRAME * zlen done + blk_total (list_ cur)) * BLK_SIZE →
  frames_inv done (mkAddr (len cur) (list_ cur ++ [ls])) (blks ++ Span.blocks (span ls)).
Proof.
  intros (Hd & Hl & Ht & Ho & Hb & Hs) Hok Hc Hfit Hoff. pose proof Hok as (_ & Hc0 & _). unfold frames_inv; simpl.
  rewrite blk_total_snoc. split_and!; [done|done|lia|lia| | |].
  - rewrite app_assoc. apply offsets_from_app. split; [done|]. simpl. split; [|done].
    rewrite Hoff, blk_total_app, total_full by done. lia.
  - subst blks. rewrite !fmap_app, !concat_app. unfold blocks. simpl.
    rewrite !app_nil_r, fmap_app, concat_app. simpl. by rewrite app_nil_r, app_assoc.
  - apply Forall_app in Hs as [Hs1 [[Hs2 Hhd] _]%Forall_cons]. apply Forall_app. split; [done|].
    apply Forall_singleton. split; simpl.
    + apply Forall_app. split; [done|]. by apply Forall_singleton.
    + destruct (list_ cur) eqn:Hcur; simpl; [by apply Hc|done].
Qed.
(** Closing a full frame and opening the next. *)
Lemma frames_inv_close done cur blks :
  frames_inv done cur blks → blk_total (list_ cur) = BLKS_PER_FRAME →
  frames_inv (done ++ [mkAddr FRAME_SIZE (list_ cur)]) default_addr blks.
Proof.
  intros (Hd & Hl & Ht & Ho & Hb & Hs) Hf. unfold frames_inv, full_frame. split_and!.
  - apply Forall_app. split; [done|]. repeat constructor. done.
  - done.
  - done.
  - done.
  - rewrite fmap_app, concat_app. simpl. by rewrite !app_nil_r.
  - subst blks. rewrite !fmap_app, !concat_app. unfold blocks. simpl. by rewrite !app_nil_r.
  - apply Forall_app in Hs as [Hs1 [Hs2 _]%Forall_cons]. apply Forall_app. split.
    + apply Forall_app. split; [done|]. by apply Forall_singleton.
    + apply Forall_singleton. split; [by constructor|done].
Qed.

Lemma frame_loop_spec fuel ls done cur blks :
  frames_inv done cur blks →
  Span.span_ok (span ls) → 0 < Span.cnt (span ls) →
  BLKS_PER_FRAME * zlen done + blk_total (list_ cur) + Span.cnt (span ls) < 2 ^ 50 →
  offset ls = (BLKS_PER_FRAME * zlen done + blk_total (list_ cur)) * BLK_SIZE →
  (Z.to_nat (Span.cnt (span ls)) + (if (blk_total (list_ cur) =? BLKS_PER_FRAME)%Z then 1 else 0)
   < fuel)%nat →
  ∃ done' cur',
    frame_loop fuel ls (done ++ [cur]) (zlen done) (blk_total (list_ cur))
    = Ok (done' ++ [cur'], zlen done', blk_total (list_ cur')) ∧
    frames_inv done' cur' (blks ++ Span.blocks (span ls)) ∧ 0 < blk_total (list_ cur') ∧
    BLKS_PER_FRAME * zlen done' + blk_total (list_ cur')
    = BLKS_PER_FRAME * zlen done + blk_total (list_ cur) + Span.cnt (span ls).
Proof.
  revert ls done cur blks. induction fuel as [|fuel IH]; [lia|].
  intros ls done cur blks Hinv Hok Hcnt Hbd Hoff Hfuel.
  pose proof Hinv as (Hd & Hl & Ht & Ho & Hb & Hs). pose proof Hok as (Hb0 & _ & He).
  pose proof (zlen_nonneg done). unfold BLKS_PER_FRAME, BLK_SIZE in *.
  assert (HU : U64 = 2 ^ 64) by reflexivity.
  cbn [frame_loop]. unfold BLKS_PER_FRAME. res_run. destruct (Span.cnt _ <=? _) eqn:Hfit; zify_b.
  - rewrite frame_push_last. res_run. exists done, (mkAddr (len cur) (list_ cur ++ [ls])).
    cbn [list_]. rewrite blk_total_snoc. unfold BLKS_PER_FRAME.
    split; [done|]. split; [|lia].
    apply frames_inv_push; unfold BLKS_PER_FRAME, BLK_SIZE; [done|done|lia..].
  - res_run. unfold LocSpan.split_to. rewrite Span.split_to_spec by (done || lia).
    res_run. cbn [span]. unfold Span.bytes_len, BLK_SIZE. cbn [Span.cnt]. res_run.
    rewrite frame_push_last. res_run. rewrite frame_set_len_last. res_run.
    cbn [list_].
    remember (16 - blk_total (list_ cur)) as k eqn:Hk.
    match goal with |- context [list_ cur ++ [?x]] => remember x as split eqn:Hsplit end.
    set (cur1 := mkAddr (len cur) (list_ cur ++ [split])).
    assert (Hsp : Span.cnt (span split) = k) by (subst split; cbn [span Span.cnt]; lia).
    assert (Hinv1 : frames_inv done cur1 (blks ++ Span.blocks (span split))).
    { apply frames_inv_push; unfold BLKS_PER_FRAME, BLK_SIZE; [done| |lia|lia|].
      - subst split. cbn [span]. unfold Span.span_ok. cbn [Span.begin Span.cnt]. lia.
      - subst split. exact Hoff. }
    assert (Htot : blk_total (list_ cur1) = 16).
    { subst cur1. cbn [list_]. rewrite blk_total_snoc. lia. }
    pose proof (frames_inv_close _ _ _ Hinv1 Htot) as Hinv2.
    set (done2 := done ++ [mkAddr FRAME_SIZE (list_ cur1)]) in Hinv2.
    assert (Hlen2 : zlen done + 1 = zlen done2).
    { subst done2. by rewrite zlen_app, zlen_cons, zlen_nil. }
    rewrite Hlen2. subst cur1. cbn [list_] in done2. fold done2.
    edestruct (IH (mkLocSpan (Span.mkSpan (Span.begin (span ls) + k)
        (Span.begin (span ls) + Span.cnt (span ls) - (Span.begin (span ls) + k)))
        (offset ls + (Span.begin (span ls) + k - Span.begin (span ls)) * (8 * 1024)))
        done2 default_addr) as (done' & cur' & Hloop & Hinv' & Hpos & Hcount);
      [exact Hinv2|..]; cbn [span offset Span.begin Span.cnt];
      unfold Span.span_ok; cbn [Span.begin Span.cnt].
    + lia.
    + lia.
    + change (blk_total (list_ default_addr)) with 0. lia.
    + change (blk_total (list_ default_addr)) with 0. lia.
    + change (blk_total (list_ default_addr)) with 0. simpl.
      destruct (Z.eqb_spec (blk_total (list_ cur)) 16); lia.
    + exists done', cur'. split; [exact Hloop|]. split; [|split; [done|]].
      2: { revert Hcount. change (blk_total (list_ default_addr)) with 0.
        cbn [span Span.cnt]. unfold BLKS_PER_FRAME. lia. }
      rewrite <- app_assoc in Hinv'. subst split. cbn [span] in Hinv'.
      rewrite (Span.blocks_split (span ls) (Span.begin (span ls) + k)) by lia.
      exact Hinv'.
Qed.

Lemma frames_of_spec l done cur blks :
  frames_inv done cur blks →
  Forall (λ s, Span.span_ok (span s) ∧ 0 < Span.cnt (span s)) l →
  BLKS_PER_FRAME * zlen done + blk_total (list_ cur) + blk_total l < 2 ^ 50 →
  ∃ done' cur',
    frames_of l (done ++ [cur]) (zlen done) (blk_total (list_ cur))
    = Ok (done' ++ [cur'], zlen done', blk_total (list_ cur')) ∧
    frames_inv done' cur' (blks ++ concat ((λ l, Span.blocks (span l)) <$> l)) ∧
    (l ≠ [] → 0 < blk_total (list_ cur')) ∧
    BLKS_PER_FRAME * zlen done' + blk_total (list_ cur')
    = BLKS_PER_FRAME * zlen done + blk_total (list_ cur) + blk_total l.
Proof.
  revert done cur blks. induction l as [|s l IH]; intros done cur blks Hinv HF Hbd.
  { exists done, cur. rewrite app_nil_r. unfold blk_total at 5. simpl.
    rewrite Z.add_0_r. done. }
  apply Forall_cons in HF as [[Hok Hc] HF].
  pose proof Hinv as (Hd & _ & Ht & _ & Hb & _). pose proof (zlen_nonneg done).
  assert (Hl0 : 0 ≤ blk_total l).
  { apply zsum_nonneg. eapply Forall_impl; [exact HF|]. simpl. intros ? [_ ?]. lia. }
  assert (Hcons : blk_total (s :: l) = Span.cnt (span s) + blk_total l) by done.
  assert (HU : U64 = 2 ^ 64) by reflexivity.
  cbn [frames_of]. unfold FRAME_SIZE, BLKS_PER_FRAME, BLK_SIZE in *. res_run.
  edestruct (frame_loop_spec (Z.to_nat (Span.cnt (span s)) + 2)
    (mkLocSpan (span s) (zlen done * (16 * (8 * 1024)) + blk_total (list_ cur) * (8 * 1024)))
    done cur blks) as (done1 & cur1 & Hloop & Hinv1 & Hpos & Hcount); [done|..];
    cbn [span offset]; unfold BLKS_PER_FRAME, BLK_SIZE; [done|lia|lia|lia|case_match; lia|].
  cbn [span] in Hinv1, Hcount. unfold BLKS_PER_FRAME in Hcount. rewrite Hloop. res_run.
  destruct (IH done1 cur1 _ Hinv1 HF) as (done2 & cur2 & Hl2 & Hinv2 & Hpos2 & Hc2);
    [unfold BLKS_PER_FRAME; lia|].
  exists done2, cur2. rewrite Hl2. split; [done|].
  rewrite fmap_cons, concat_cons, app_assoc. split; [done|].
  unfold BLKS_PER_FRAME in *. split; [|lia].
  intros _. destruct l as [|s2 l]; [|by apply Hpos2].
  simpl in Hl2. injection Hl2 as _ _ Heq. lia.
Qed.

(** What a division into frames promises: all frames but the last are full, the byte
    lengths add up, the blocks are those of the address in order, and every piece knows
    its byte offset in the address. *)
Definition frames_ok (a : Addr) (frames : list Addr) : Prop :=
  ∃ done cur, frames = done ++ [cur] ∧
    Forall full_frame done ∧
    0 < blk_total (list_ cur) ≤ BLKS_PER_FRAME ∧
    BLK_SIZE * (blk_total (list_ cur) - 1) < len cur ≤ BLK_SIZE * blk_total (list_ cur) ∧
    zsum len frames = len a ∧
    concat (blocks <$> frames) = blocks a ∧
    offsets_from 0 (concat (list_ <$> frames)) ∧
    Forall frame_spans frames.

Lemma zsum_full_len done :
  Forall full_frame done → zsum len done = FRAME_SIZE * zlen done.
Proof.
  induction 1 as [|f fs [Hf _] _ IH]; [done|]. rewrite zlen_cons. simpl. lia.
Qed.

Lemma divide_to_frames_ok a :
  addr_ok a → list_ a ≠ [] → ∃ frames, divide_to_frames a = Ok frames ∧ frames_ok a frames.
Proof.
  intros [[HF Hb] Hlen] Hne. unfold divide_to_frames.
  assert (Hinv0 : frames_inv [] default_addr []).
  { unfold frames_inv. simpl. unfold BLKS_PER_FRAME. split_and!; try (done || lia). by apply Forall_singleton; split; [constructor|]. }
  destruct (frames_of_spec (list_ a) [] default_addr [] Hinv0 HF)
    as (done & cur & Hf & (Hd & Hl & Ht & Ho & Hbl & Hs) & Hpos & Hc).
  { change (zlen []) with 0. change (blk_total (list_ default_addr)) with 0. lia. }
  specialize (Hpos Hne). change ([] ++ [default_addr]) with [default_addr] in Hf.
  change (zlen []) with 0 in Hf, Hc.
  change (blk_total (list_ default_addr)) with 0 in Hf, Hc.
  rewrite Hf. pose proof (zlen_nonneg done).
  assert (HU : U64 = 2 ^ 64) by reflexivity.
  unfold FRAME_SIZE, BLKS_PER_FRAME, BLK_SIZE in *. res_run.
  rewrite zlen_app, zlen_cons, zlen_nil. replace (zlen done + (0 + 1) - 1) with (zlen done) by lia.
  rewrite frame_set_len_last. res_run.
  set (n := len a - _). assert (Hn : n = len a - zlen done * (16 * (8 * 1024))) by done.
  assert (Hsum : zsum len (done ++ [mkAddr n (list_ cur)]) = len a).
  { rewrite zsum_app, zsum_full_len by done. unfold FRAME_SIZE, BLKS_PER_FRAME, BLK_SIZE.
    simpl. lia. }
  rewrite Hsum, Z.eqb_refl. cbn [rassert]. res_run.
  eexists. split; [done|]. exists done, (mkAddr n (list_ cur)).
  split; [done|]. split; [done|]. unfold BLKS_PER_FRAME, BLK_SIZE. cbn [list_ len].
  split; [lia|]. split; [lia|]. split; [done|]. split.
  - rewrite app_nil_l in Hbl. rewrite fmap_app, concat_app in *. unfold blocks in *. exact Hbl.
  - split; [rewrite fmap_app, concat_app; simpl; by rewrite app_nil_r|].
    apply Forall_app in Hs as [Hs1 [Hs2 _]%Forall_cons]. apply Forall_app. split; [done|]. by apply Forall_singleton.
Qed.
End AddrProofs.

(** ** Block allocator: src/volume/allocator.rs *)

Module Allocator.
Record Allocator := mkAllocator { blk_wmark : Z }.
Definition new : Allocator := mkAllocator 0.
Definition set_block_wmark (a : Allocator) (w : Z) : Allocator := mkAllocator w.
Definition allocate (a : Allocator) (blk_cnt : Z) : res (Allocator * Span.Span) :=
  w ← u_add (blk_wmark a) blk_cnt;
  Ok (mkAllocator w, Span.mkSpan (blk_wmark a) blk_cnt).

Lemma allocate_ok a n :
  0 ≤ blk_wmark a → 0 ≤ n → blk_wmark a + n < U64 →
  allocate a n = Ok (mkAllocator (blk_wmark a + n), Span.mkSpan (blk_wmark a) n).
Proof. intros. unfold allocate. by res_run. Qed.
End Allocator.

