(* ===== verification/Crypto.v ===== *)
(** * src/base/crypto.rs: cost and cipher codes, and the framing of authenticated encryption.

    libsodium is foreign: its ciphers, its password hash, its key derivation and its random
    bytes are parameters. The code around it is here: what is put in front of a cipher text,
    the lengths, the extended nonce of AES, and the bytes that stand for cost and cipher. *)
From S2P Require Import Prelude.

Abbreviation byte := Z.
Abbreviation bytes := (list Z).

(** ** Cost and cipher *)

Module OpsLimit.
Inductive OpsLimit : Set := Interactive | Moderate | Sensitive.
End OpsLimit.
Module MemLimit.
Inductive MemLimit : Set := Interactive | Moderate | Sensitive.
End MemLimit.

(** The numbers handed to the password hash. *)
Definition ops_value (o : OpsLimit.OpsLimit) : Z :=
  match o with OpsLimit.Interactive => 2 | OpsLimit.Moderate => 3 | OpsLimit.Sensitive => 4 end.
Definition mem_value (m : MemLimit.MemLimit) : Z :=
  match m with
  | MemLimit.Interactive => 67108864 | MemLimit.Moderate => 268435456 | MemLimit.Sensitive => 1073741824
  end.

Module Cost.
Record Cost := mkCost { ops_limit : OpsLimit.OpsLimit; mem_limit : MemLimit.MemLimit }.
Definition BYTES_LEN : Z := 1.
Definition default : Cost := mkCost OpsLimit.Interactive MemLimit.Interactive.

Definition to_u8 (c : Cost) : byte :=
  let ops := match ops_limit c with
             | OpsLimit.Interactive => 0 | OpsLimit.Moderate => 1 | OpsLimit.Sensitive => 2 end in
  let mem := match mem_limit c with
             | MemLimit.Interactive => 0 | MemLimit.Moderate => 1 | MemLimit.Sensitive => 2 end in
  Z.lor ops (Z.shiftl mem 4).

(** Patterns are tested in order; the fields are evaluated in order. *)
Definition from_u8 (c : byte) : res Cost :=
  o ← (let n := Z.land c 15 in
       if n =? 0 then Ok OpsLimit.Interactive
       else if n =? 1 then Ok OpsLimit.Moderate
       else if n =? 2 then Ok OpsLimit.Sensitive
       else Err InvalidCost);
  m ← (let n := Z.shiftr c 4 in
       if n =? 0 then Ok MemLimit.Interactive
       else if n =? 1 then Ok MemLimit.Moderate
       else if n =? 2 then Ok MemLimit.Sensitive
       else Err InvalidCost);
  Ok (mkCost o m).

Lemma from_to_u8 c : from_u8 (to_u8 c) = Ok c.
Proof. by destruct c as [[] []]. Qed.
Lemma to_u8_byte c : 0 ≤ to_u8 c < 256.
Proof. by destruct c as [[] []]; vm_compute; split. Qed.
End Cost.

Module Cipher.
Inductive Cipher : Set := Xchacha | Aes.
#[export] Instance Cipher_eq_dec : EqDecision Cipher.
Proof. solve_decision. Defined.
Definition BYTES_LEN : Z := 1.
Definition default : Cipher := Xchacha.
Definition from_u8 (s : byte) : res Cipher :=
  if s =? 0 then Ok Xchacha else if s =? 1 then Ok Aes else Err InvalidCipher.
Definition into_u8 (c : Cipher) : byte := match c with Xchacha => 0 | Aes => 1 end.

Lemma from_into_u8 c : from_u8 (into_u8 c) = Ok c.
Proof. by destruct c. Qed.
End Cipher.
Import Cipher.

(** ** libsodium *)

Class Sodium := {
  aead_encrypt (c : Cipher) (key nonce ad msg : bytes) : option bytes;
  aead_decrypt (c : Cipher) (key nonce ad ctxt : bytes) : option bytes;
  hchacha20 (input key const : bytes) : bytes;
  pwhash (pwd salt : bytes) (ops mem : Z) : option bytes;
  kdf_derive (key : bytes) (id : Z) : option bytes;
  aes_available : bool
}.

Definition ATAG_SIZE : Z := 16.

(** What is documented of the ciphers: decrypting undoes encrypting, and the cipher text is
    the message and a tag. *)
Class SodiumLaws `{!Sodium} : Prop := {
  aead_length c key nonce ad msg x :
    aead_encrypt c key nonce ad msg = Some x → zlen x = zlen msg + ATAG_SIZE;
  aead_inverse c key nonce ad msg x :
    aead_encrypt c key nonce ad msg = Some x → aead_decrypt c key nonce ad x = Some msg
}.

(** Random bytes, drawn from a source. *)
Class Random (R : Type) := random_buf : Z → R → bytes * R.
Class RandomLaws (R : Type) `{!Random R} : Prop :=
  random_length n r : 0 ≤ n → zlen (random_buf n r).1 = n.

(** ** Authenticated encryption *)

Module Crypto.
Section crypto.
Context `{!Sodium}.

Record Crypto := mkCrypto { cost : Cost.Cost; cipher : Cipher }.
Definition default : Crypto := mkCrypto Cost.default Cipher.default.

Definition KEY_SIZE : Z := 32.
Definition AES_NONCE_SIZE : Z := 28.
Definition XCHACHA_NONCE_SIZE : Z := 24.
Definition NONCE_EXT_CONST : bytes :=
  [50; 185; 165; 184; 177; 150; 131; 133; 163; 78; 71; 151; 13; 130; 193; 109].

Definition new (co : Cost.Cost) (ci : Cipher) : res Crypto :=
  match ci with
  | Xchacha => Ok (mkCrypto co ci)
  | Aes => if negb aes_available then Err NoAesHardware else Ok (mkCrypto co ci)
  end.

Definition nonce_size (c : Crypto) : Z :=
  match cipher c with Xchacha => XCHACHA_NONCE_SIZE | Aes => AES_NONCE_SIZE end.

(** The last 12 bytes of the nonce, and a key made of the first 16. *)
Definition extend_nonce (c : Crypto) (nonce key : bytes) : res (bytes * bytes) :=
  _ ← rassert (bool_decide (cipher c = Aes));
  Ok (zdrop 16 nonce, hchacha20 (ztake 16 nonce) key NONCE_EXT_CONST).

Definition encrypted_len (c : Crypto) (msglen : Z) : res Z :=
  n ← u_add (nonce_size c) ATAG_SIZE; u_add n msglen.
Definition decrypted_len (c : Crypto) (ctxt_len : Z) : res Z :=
  n ← u_sub ctxt_len (nonce_size c); u_sub n ATAG_SIZE.

(** The bytes written to the destination: the nonce and the cipher text. [nonce] is the
    random one, as long as the one of AES. *)
Definition encrypt_raw (c : Crypto) (nonce msg key ad : bytes) : res bytes :=
  o ← match cipher c with
      | Xchacha => Ok (aead_encrypt Xchacha key (ztake XCHACHA_NONCE_SIZE nonce) ad msg)
      | Aes =>
          '(subnonce, subkey) ← extend_nonce c nonce key;
          Ok (aead_encrypt Aes subkey subnonce ad msg)
      end;
  match o with
  | Some ctxt => Ok (ztake (nonce_size c) nonce ++ ctxt)
  | None => Err Encrypt
  end.
Definition encrypt_with_ad (c : Crypto) (nonce msg key ad : bytes) : res bytes :=
  _ ← encrypted_len c (zlen msg); encrypt_raw c nonce msg key ad.
Definition encrypt (c : Crypto) (nonce msg key : bytes) : res bytes := encrypt_with_ad c nonce msg key [].
Definition encrypt_to (c : Crypto) (nonce msg key : bytes) : res bytes := encrypt_raw c nonce msg key [].

Definition decrypt_raw (c : Crypto) (ctxt key ad : bytes) : res bytes :=
  nonce ← vslice ctxt 0 (nonce_size c);
  let body := zdrop (nonce_size c) ctxt in
  o ← match cipher c with
      | Xchacha => Ok (aead_decrypt Xchacha key nonce ad body)
      | Aes =>
          '(subnonce, subkey) ← extend_nonce c nonce key;
          Ok (aead_decrypt Aes subkey subnonce ad body)
      end;
  ok_or Decrypt o.
Definition decrypt_with_ad (c : Crypto) (ctxt key ad : bytes) : res bytes :=
  _ ← decrypted_len c (zlen ctxt); decrypt_raw c ctxt key ad.
Definition decrypt (c : Crypto) (ctxt key : bytes) : res bytes := decrypt_with_ad c ctxt key [].
Definition decrypt_to (c : Crypto) (ctxt key : bytes) : res bytes := decrypt_raw c ctxt key [].

Definition hash_pwd (c : Crypto) (pwd salt : bytes) : res bytes :=
  ok_or Hashing (pwhash pwd salt (ops_value (Cost.ops_limit (cost c))) (mem_value (Cost.mem_limit (cost c)))).

Definition derive_from_key (key : bytes) (subkey_id : Z) : res bytes := ok_or Hashing (kdf_derive key subkey_id).
(** [HashKey::derive]. *)
Definition derive (key : bytes) (subkey_id : Z) : res bytes :=
  match derive_from_key key subkey_id with Ok k => Ok k | _ => Panic end.

(** *** Encrypting and decrypting are inverse *)

Context `{!SodiumLaws}.
Implicit Types (c : Crypto) (nonce msg key ad x : bytes).

(** What is in front of a message when it is encrypted. *)
Definition overhead c : Z := nonce_size c + ATAG_SIZE.
Lemma overhead_range c : 40 ≤ overhead c ≤ 44.
Proof. unfold overhead, nonce_size. destruct (cipher c); by vm_compute. Qed.
Lemma nonce_size_range c : 24 ≤ nonce_size c ≤ 28.
Proof. unfold nonce_size. destruct (cipher c); by vm_compute. Qed.

Lemma encrypted_len_ok c n : 0 ≤ n < 2 ^ 63 → encrypted_len c n = Ok (overhead c + n).
Proof.
  intros. unfold encrypted_len, overhead. pose proof (nonce_size_range c).
  unfold ATAG_SIZE. rewrite u_add_ok by (unfold U64; lia). res_run. rewrite u_add_ok by (unfold U64; lia). done.
Qed.
Lemma decrypted_len_ok c n : overhead c ≤ n → decrypted_len c n = Ok (n - overhead c).
Proof.
  intros. unfold decrypted_len. pose proof (nonce_size_range c). unfold overhead, ATAG_SIZE in *.
  rewrite u_sub_ok by lia. res_run. f_equal. lia.
Qed.

(** The library refuses some message. *)
Definition aead_fails : Prop := ∃ ci key nonce ad msg, aead_encrypt ci key nonce ad msg = None.

Lemma encrypt_raw_cases c nonce msg key ad :
  (∃ x, encrypt_raw c nonce msg key ad = Ok x) ∨ (encrypt_raw c nonce msg key ad = Err Encrypt ∧ aead_fails).
Proof.
  unfold encrypt_raw, extend_nonce. destruct (cipher c) eqn:Hc; res_run.
  - destruct (aead_encrypt _ _ _ _ _) eqn:He; [eauto|right; split; [done|by repeat eexists]].
  - rewrite rassert_ok by by apply bool_decide_eq_true. res_run.
    destruct (aead_encrypt _ _ _ _ _) eqn:He; [eauto|right; split; [done|by repeat eexists]].
Qed.

Lemma encrypt_raw_ok c nonce msg key ad x :
  zlen nonce = AES_NONCE_SIZE → encrypt_raw c nonce msg key ad = Ok x →
  zlen x = overhead c + zlen msg ∧ decrypt_raw c x key ad = Ok msg.
Proof.
  intros Hn He. unfold encrypt_raw in He. apply bind_Ok_inv in He as (o & Ho & He).
  destruct o as [ct|]; [|done]. injection He as <-.
  assert (Hl : zlen (ztake (nonce_size c) nonce) = nonce_size c).
  { pose proof (nonce_size_range c). rewrite zlen_ztake by lia. unfold AES_NONCE_SIZE in Hn. lia. }
  assert (Hs : vslice (ztake (nonce_size c) nonce ++ ct) 0 (nonce_size c) = Ok (ztake (nonce_size c) nonce)).
  { unfold vslice. pose proof (nonce_size_range c). pose proof (zlen_nonneg ct).
    rewrite (proj2 (andb_true_iff _ _)) by (split; apply Z.leb_le; rewrite ?zlen_app; lia).
    rewrite zdrop_0, Z.sub_0_r by lia. by rewrite ztake_app_le, ztake_ztake, Z.min_id by lia. }
  unfold decrypt_raw. rewrite Hs, bind_ok. rewrite zdrop_app_ge, Hl, Z.sub_diag, zdrop_0 by lia.
  unfold overhead, nonce_size in *. destruct (cipher c) eqn:Hci.
  - injection Ho as Ho. rewrite bind_ok. rewrite (aead_inverse _ _ _ _ _ _ Ho).
    split; [|done]. rewrite zlen_app, Hl. rewrite (aead_length _ _ _ _ _ _ Ho). lia.
  - unfold extend_nonce in *. rewrite Hci in *. rewrite rassert_ok in * by by apply bool_decide_eq_true.
    rewrite !bind_ok in *. injection Ho as Ho.
    assert (Hz : ztake AES_NONCE_SIZE nonce = nonce) by (apply ztake_ge; lia).
    rewrite Hz in *. rewrite (aead_inverse _ _ _ _ _ _ Ho).
    split; [|done]. rewrite zlen_app, (aead_length _ _ _ _ _ _ Ho). lia.
Qed.

Lemma encrypt_with_ad_ok c nonce msg key ad x :
  zlen nonce = AES_NONCE_SIZE → encrypt_with_ad c nonce msg key ad = Ok x →
  zlen x = overhead c + zlen msg ∧ decrypt_with_ad c x key ad = Ok msg.
Proof.
  intros Hn He. unfold encrypt_with_ad in He. apply bind_Ok_inv in He as (n & _ & He).
  destruct (encrypt_raw_ok _ _ _ _ _ _ Hn He) as [Hl Hd]. split; [done|].
  unfold decrypt_with_ad. rewrite decrypted_len_ok by (rewrite Hl; pose proof (zlen_nonneg msg); lia).
  by rewrite bind_ok.
Qed.
End crypto.
End Crypto.
