(* ===== verification/Segment.v ===== *)
(** * src/content/chunk.rs and src/content/segment.rs: data chunks and segments.

    A segment lists the chunks of one segment-data blob; each chunk is counted by the
    content entries that reference it. *)
From S2P Require Import Prelude Base.

(** Entity ids are compared and copied only, so an id is its 256-bit value (big endian,
    which makes [Z]'s order the derived one). Bytes are [Z]. *)
Abbreviation Eid := Z.
Abbreviation byte := Z.

(** ** Chunks *)

Module Chunk.
Record Chunk := mkChunk { pos : Z; clen : Z; refcnt : Z }.

Definition new (p l : Z) : Chunk := mkChunk p l RefCnt.new.
Definition inc_ref (c : Chunk) : res (Chunk * Z) :=
  '(r, n) ← RefCnt.inc_ref (refcnt c); Ok (mkChunk (pos c) (clen c) r, n).
Definition dec_ref (c : Chunk) : res (Chunk * Z) :=
  '(r, n) ← RefCnt.dec_ref (refcnt c); Ok (mkChunk (pos c) (clen c) r, n).
Definition end_pos (c : Chunk) : res Z := u_add (pos c) (clen c).
Definition is_orphan (c : Chunk) : bool := RefCnt.val (refcnt c) =? 0.
End Chunk.

(** ** Segment data *)

Module SegData.
(** [SegData::read]: the bytes copied to a destination of length [n]. *)
Definition read (data : list byte) (n offset : Z) : res (list byte) :=
  e ← u_add offset n;
  _ ← rassert (e <=? zlen data);
  vslice data offset e.

Lemma segdata_read_ok data n offset :
  0 ≤ n → 0 ≤ offset → offset + n ≤ zlen data → zlen data < U64 →
  read data n offset = Ok (ztake n (zdrop offset data)).
Proof.
  intros. unfold read, vslice. res_run.
  rewrite !(proj2 (Z.leb_le _ _)) by lia. simpl.
  by replace (offset + n - offset) with n by lia.
Qed.
End SegData.

(** What an operation registers with the running transaction. *)
Inductive Action : Set := New | Update | Delete.
#[export] Instance Action_eq_dec : EqDecision Action.
Proof. solve_decision. Defined.

(** ** Segments *)

Module Segment.
Import Chunk.
Record Segment := mkSegment { len : Z; used : Z; data_id : Eid; chunks : list Chunk }.

Definition MAX_CHUNKS : Z := 256.

(** The fresh random id is an argument. *)
Definition new (id : Eid) : Segment := mkSegment 0 0 id [].
Definition chunk_cnt (s : Segment) : Z := zlen (chunks s).
Definition is_full (s : Segment) : bool := MAX_CHUNKS <=? zlen (chunks s).
Definition is_orphan (s : Segment) : bool := used s =? 0.
Definition is_shrinkable (s : Segment) : bool := used s <? Z.shiftr (len s) 2.

(** Indexing: [seg[i]] and [seg[b..e]]. *)
Definition index (s : Segment) (i : Z) : res Chunk := vindex (chunks s) i.
Definition index_range (s : Segment) (b e : Z) : res (list Chunk) := vslice (chunks s) b e.

Definition append_chunk (s : Segment) (data_len : Z) : res Segment :=
  let c := Chunk.new (len s) data_len in
  l ← u_add (len s) data_len;
  Ok (mkSegment l (used s) (data_id s) (chunks s ++ [c])).

Definition ref_chunk (s : Segment) (idx : Z) : res (Segment * Z) :=
  c ← index s idx;
  '(c, refcnt) ← inc_ref c;
  cs ← vset (chunks s) idx c;
  if refcnt =? 1 then
    u ← u_add (used s) (clen c);
    _ ← rassert (u <=? len s);
    Ok (mkSegment (len s) u (data_id s) cs, refcnt)
  else Ok (mkSegment (len s) (used s) (data_id s) cs, refcnt).

Definition ref_chunks (s : Segment) (b e : Z) : res Segment :=
  foldM (λ s idx, '(s, _) ← ref_chunk s idx; Ok s) s (range b e).

Definition deref_chunk (s : Segment) (idx : Z) : res (Segment * Z) :=
  c ← index s idx;
  '(c, refcnt) ← dec_ref c;
  cs ← vset (chunks s) idx c;
  if refcnt =? 0 then
    u ← u_sub (used s) (clen c);
    Ok (mkSegment (len s) u (data_id s) cs, refcnt)
  else Ok (mkSegment (len s) (used s) (data_id s) cs, refcnt).

Definition deref_chunks (s : Segment) (b e : Z) : res Segment :=
  foldM (λ s idx, '(s, _) ← deref_chunk s idx; Ok s) s (range b e).

(** The re-positioning loop of [shrink]: new chunks, new data, retired indices. *)
Fixpoint shrink_loop (data : list byte) (idx : Z) (cs : list Chunk) (buf : list byte)
    (retired : list Z) : res (list Chunk * list byte * list Z) :=
  match cs with
  | [] => Ok ([], buf, retired)
  | c :: cs =>
      if Chunk.is_orphan c then
        '(cs, buf, retired) ← shrink_loop data (idx + 1) cs buf (retired ++ [idx]);
        Ok (c :: cs, buf, retired)
      else
        e ← end_pos c;
        d ← vslice data (pos c) e;
        let buf := buf ++ d in
        p ← u_sub (zlen buf) (clen c);
        '(cs, buf, retired) ← shrink_loop data (idx + 1) cs buf retired;
        Ok (mkChunk p (clen c) (refcnt c) :: cs, buf, retired)
  end.

(** What [shrink] does outside the segment: the segment data registered with the
    transaction and the blob written to the volume, in program order. *)
Inductive Effect :=
| AddToTrans (id : Eid) (a : Action)
| SaveData (id : Eid) (data : list byte).

(** [shrink] of the mutable copy of a segment whose data is [data]; [new_data_id] is the
    fresh id. Returns the segment, the effects and the retired chunk indices. *)
Definition shrink (s : Segment) (data : list byte) (new_data_id : Eid)
    : res (Segment * list Effect * list Z) :=
  '(cs, buf, retired) ← shrink_loop data 0 (chunks s) [] [];
  _ ← rassert (zlen buf =? used s);
  Ok (mkSegment (used s) (used s) new_data_id cs,
      [AddToTrans (data_id s) Delete; SaveData new_data_id buf; AddToTrans new_data_id New],
      retired).

(** ** Invariants *)

(** The bytes the live chunks occupy. *)
Definition live_len (c : Chunk) : Z := if Chunk.is_orphan c then 0 else clen c.
Definition live_sum (cs : list Chunk) : Z := zsum live_len cs.

Definition chunk_ok (c : Chunk) : Prop :=
  0 ≤ pos c ∧ 0 < clen c ∧ is_u32 (refcnt c) ∧ pos c + clen c < U64.
Definition seg_ok (s : Segment) : Prop :=
  Forall chunk_ok (chunks s) ∧ used s = live_sum (chunks s) ∧ used s ≤ len s ∧ len s < U64.

(** The blob holds every live chunk. *)
Definition data_ok (cs : list Chunk) (data : list byte) : Prop :=
  Forall (λ c, Chunk.is_orphan c = false → pos c + clen c ≤ zlen data) cs.

(** The bytes of a chunk. *)
Definition chunk_bytes (data : list byte) (c : Chunk) : list byte :=
  ztake (clen c) (zdrop (pos c) data).

Lemma live_sum_nonneg cs : Forall chunk_ok cs → 0 ≤ live_sum cs.
Proof.
  intros. apply zsum_nonneg. eapply Forall_impl; [done|].
  intros c (_&?&_). unfold live_len. destruct (Chunk.is_orphan c); lia.
Qed.

(** *** Reference counting *)

Definition upd (cs : list Chunk) (i : Z) (f : Chunk → Chunk) : list Chunk :=
  match zget cs i with Some c => ztake i cs ++ f c :: zdrop (i + 1) cs | None => cs end.
Definition add_ref (d : Z) (c : Chunk) : Chunk := mkChunk (pos c) (clen c) (refcnt c + d).

Lemma live_sum_upd cs i f c :
  zget cs i = Some c → live_sum (upd cs i f) = live_sum cs - live_len c + live_len (f c).
Proof.
  intros Hc. unfold upd. rewrite Hc.
  destruct (zget_split _ _ _ Hc) as [Hl _]. rewrite Hl at 3.
  unfold live_sum. rewrite !zsum_app. simpl. lia.
Qed.
Lemma zget_upd cs i j f :
  zget (upd cs i f) j = if decide (i = j) then f <$> zget cs j else zget cs j.
Proof.
  unfold upd. destruct (zget cs i) as [c|] eqn:Hc.
  2: { case_decide; [subst; by rewrite Hc | done]. }
  destruct (zget_split _ _ _ Hc) as [Hl Hi]. pose proof (zget_lt _ _ _ Hc).
  set (l1 := ztake i cs) in *. set (l2 := zdrop (i + 1) cs) in *. clearbody l1 l2.
  case_decide as Hij; [subst j|].
  { rewrite Hc. simpl. rewrite <- Hi at 1. apply zget_middle. }
  rewrite Hl. destruct (decide (j < i)); [by rewrite !zget_app_l by lia|].
  rewrite !zget_app_r by lia. unfold zget.
  replace (Z.to_nat (j - zlen l1)) with (S (Z.to_nat (j - zlen l1 - 1))) by lia. done.
Qed.
Lemma zlen_upd cs i f : zlen (upd cs i f) = zlen cs.
Proof.
  unfold upd. destruct (zget cs i) as [c|] eqn:Hc; [|done].
  destruct (zget_split _ _ _ Hc) as [Hl _]. rewrite Hl at 3.
  by rewrite !zlen_app, !zlen_cons.
Qed.
Lemma Forall_upd (P : Chunk → Prop) cs i f c :
  zget cs i = Some c → P (f c) → Forall P cs → Forall P (upd cs i f).
Proof.
  intros Hc Hf HF. unfold upd. rewrite Hc. destruct (zget_split _ _ _ Hc) as [Hl _].
  rewrite Hl in HF. apply Forall_app in HF as [? [_ ?]%Forall_cons].
  apply Forall_app. auto.
Qed.
Lemma zget_Forall (P : Chunk → Prop) cs i c : zget cs i = Some c → Forall P cs → P c.
Proof. intros [_ Hc]%zget_Some HF. by eapply Forall_lookup_1. Qed.
Lemma ref_chunk_ok s i c :
  seg_ok s → zget (chunks s) i = Some c → refcnt c + 1 < U32 →
  (refcnt c = 0 → used s + clen c ≤ len s) →
  ∃ s', ref_chunk s i = Ok (s', refcnt c + 1) ∧ seg_ok s' ∧
    chunks s' = upd (chunks s) i (add_ref 1) ∧ len s' = len s ∧ data_id s' = data_id s.
Proof.
  intros (HF & Hu & Hle & Hlt) Hc Hr Hroom.
  pose proof (zget_Forall _ _ _ _ Hc HF) as Hck. pose proof Hck as (Hp & Hcl & Hrc & Hpe).
  unfold is_u32 in Hrc. unfold ref_chunk, index. rewrite (vindex_ok _ _ _ Hc). res_run.
  unfold inc_ref. rewrite RefCnt.inc_ref_ok by done. res_run.
  rewrite (vset_split _ _ _ _ Hc). res_run.
  assert (Hcs : ztake i (chunks s) ++ add_ref 1 c :: zdrop (i + 1) (chunks s)
    = upd (chunks s) i (add_ref 1)) by (unfold upd; by rewrite Hc).
  fold (add_ref 1 c). rewrite Hcs.
  assert (HF' : Forall chunk_ok (upd (chunks s) i (add_ref 1))).
  { eapply Forall_upd; [done| |done]. unfold chunk_ok, is_u32, add_ref; simpl. lia. }
  pose proof (live_sum_upd _ _ (add_ref 1) _ Hc) as Hls.
  unfold live_len, Chunk.is_orphan, RefCnt.val in Hls. simpl in Hls.
  rewrite (proj2 (Z.eqb_neq (refcnt c + 1) 0)) in Hls by lia.
  destruct (refcnt c + 1 =? 1) eqn:E1; zify_b.
  - rewrite (proj2 (Z.eqb_eq (refcnt c) 0)) in Hls by lia. specialize (Hroom ltac:(lia)).
    cbn [clen add_ref]. res_run. eexists. split; [done|]. unfold seg_ok; simpl.
    split_and!; try done; lia.
  - rewrite (proj2 (Z.eqb_neq (refcnt c) 0)) in Hls by lia.
    eexists. split; [done|]. unfold seg_ok; simpl. split_and!; try done; lia.
Qed.

Lemma deref_chunk_ok s i c :
  seg_ok s → zget (chunks s) i = Some c → 1 ≤ refcnt c →
  ∃ s', deref_chunk s i = Ok (s', refcnt c - 1) ∧ seg_ok s' ∧
    chunks s' = upd (chunks s) i (add_ref (-1)) ∧ len s' = len s ∧ data_id s' = data_id s.
Proof.
  intros (HF & Hu & Hle & Hlt) Hc Hr.
  pose proof (zget_Forall _ _ _ _ Hc HF) as Hck. pose proof Hck as (Hp & Hcl & Hrc & Hpe).
  unfold is_u32 in Hrc. unfold deref_chunk, index. rewrite (vindex_ok _ _ _ Hc). res_run.
  unfold dec_ref. rewrite RefCnt.dec_ref_ok by done. res_run.
  rewrite (vset_split _ _ _ _ Hc). res_run.
  assert (Hcs : ztake i (chunks s) ++ add_ref (-1) c :: zdrop (i + 1) (chunks s)
    = upd (chunks s) i (add_ref (-1))) by (unfold upd; by rewrite Hc).
  change (refcnt c - 1) with (refcnt c + -1).
  fold (add_ref (-1) c). rewrite Hcs.
  assert (HF' : Forall chunk_ok (upd (chunks s) i (add_ref (-1)))).
  { eapply Forall_upd; [done| |done]. unfold chunk_ok, is_u32, add_ref; simpl. lia. }
  pose proof (live_sum_nonneg _ HF') as Hnn.
  pose proof (live_sum_upd _ _ (add_ref (-1)) _ Hc) as Hls.
  unfold live_len, Chunk.is_orphan, RefCnt.val in Hls. cbn [refcnt clen add_ref] in Hls.
  rewrite (proj2 (Z.eqb_neq (refcnt c) 0)) in Hls by lia.
  destruct (refcnt c + -1 =? 0) eqn:E1; zify_b.
  - cbn [clen add_ref]. res_run. eexists. split; [done|]. unfold seg_ok; simpl.
    split_and!; try done; lia.
  - eexists. split; [done|]. unfold seg_ok; simpl. split_and!; try done; lia.
Qed.

(** A range of chunks with every counter moved by [d]. *)
Definition moved (d b e : Z) (cs cs' : list Chunk) : Prop :=
  ∀ i, zget cs' i = (λ c, if bool_decide (b ≤ i < e) then add_ref d c else c) <$> zget cs i.

Definition total_len (cs : list Chunk) : Z := zsum clen cs.

Lemma live_sum_le cs : Forall chunk_ok cs → live_sum cs ≤ total_len cs.
Proof.
  induction 1 as [|c cs (_&?&_) _ IH]; [done|]. unfold live_sum, total_len in *. simpl.
  unfold live_len at 1. case_match; lia.
Qed.
Lemma total_len_upd cs i d : total_len (upd cs i (add_ref d)) = total_len cs.
Proof.
  unfold upd. destruct (zget cs i) as [c|] eqn:Hc; [|done].
  destruct (zget_split _ _ _ Hc) as [Hl _]. rewrite Hl at 3.
  unfold total_len. by rewrite !zsum_app, !zsum_cons.
Qed.

Lemma moved_step d b e cs cs' :
  b < e → moved d (b + 1) e (upd cs b (add_ref d)) cs' → moved d b e cs cs'.
Proof.
  intros Hbe Hm i. rewrite Hm, zget_upd. case_decide as Hi.
  - subst i. rewrite <- option_fmap_compose. destruct (zget cs b); [|done]. simpl.
    rewrite bool_decide_false, bool_decide_true by lia. done.
  - destruct (zget cs i); [|done]. simpl. f_equal.
    repeat case_bool_decide; done || lia.
Qed.
Lemma moved_nil d b e cs : e ≤ b → moved d b e cs cs.
Proof.
  intros ? i. destruct (zget cs i); [|done]. simpl. by rewrite bool_decide_false by lia.
Qed.
Lemma moved_inv b e cs cs' cs'' :
  moved 1 b e cs cs' → moved (-1) b e cs' cs'' → cs'' = cs.
Proof.
  intros H1 H2. apply zget_ext. intros i. rewrite H2, H1.
  destruct (zget cs i) as [[]|]; [|done]. simpl. f_equal.
  case_bool_decide; [|done]. unfold add_ref. simpl. f_equal. lia.
Qed.

(** The two situations a range of chunks is referenced in: chunks that are alive, or a
    segment that has room for all its chunks (no chunk has been retired). *)
Definition linkable (s : Segment) (b e : Z) : Prop :=
  (∀ i c, b ≤ i < e → zget (chunks s) i = Some c → 0 < refcnt c) ∨
  total_len (chunks s) ≤ len s.

Lemma ref_chunks_ok s b e :
  seg_ok s → 0 ≤ b → e ≤ zlen (chunks s) →
  (∀ i c, b ≤ i < e → zget (chunks s) i = Some c → refcnt c + 1 < U32) →
  linkable s b e →
  ∃ s', ref_chunks s b e = Ok s' ∧ seg_ok s' ∧ moved 1 b e (chunks s) (chunks s') ∧
    len s' = len s ∧ data_id s' = data_id s.
Proof.
  unfold ref_chunks. remember (Z.to_nat (e - b)) as n eqn:Hn. revert s b Hn.
  induction n as [|n IH]; intros s b Hn Hok Hb He Hr Hlk.
  { rewrite range_nil by lia. exists s. split; [done|]. split; [done|].
    split; [apply moved_nil; lia|done]. }
  rewrite range_cons by lia. cbn [foldM].
  destruct (zget_is_Some (chunks s) b) as [c Hc]; [lia|].
  destruct (ref_chunk_ok s b c Hok Hc) as (s1 & -> & Hok1 & Hcs1 & Hl1 & Hd1).
  { eapply Hr; [|done]. lia. }
  { intros H0. destruct Hlk as [Hlk|Hlk]; [specialize (Hlk b c ltac:(lia) Hc); lia|].
    destruct Hok as (HF & Hu & _). etransitivity; [|exact Hlk].
    rewrite <- (total_len_upd (chunks s) b 1).
    pose proof (zget_Forall _ _ _ _ Hc HF) as Hck.
    destruct Hck as (Hp & Hcl & Hrc & Hpe).
    etransitivity; [|apply live_sum_le].
    - rewrite (live_sum_upd _ _ _ _ Hc), Hu. unfold live_len, Chunk.is_orphan, RefCnt.val.
      cbn [refcnt add_ref clen]. rewrite H0. simpl. lia.
    - eapply Forall_upd; [done| |done]. unfold chunk_ok, is_u32, add_ref, U32 in *; simpl. lia. }
  res_run. destruct (IH s1 (b + 1)) as (s' & -> & Hok' & Hm & Hl & Hd);
    [lia|done|lia|by rewrite Hcs1, zlen_upd| | |].
  { intros i c' Hi. rewrite Hcs1, zget_upd, decide_False by lia. apply Hr. lia. }
  { destruct Hlk as [Hlk|Hlk]; [left|right; by rewrite Hcs1, total_len_upd, Hl1].
    intros i c' Hi. rewrite Hcs1, zget_upd, decide_False by lia. apply Hlk. lia. }
  exists s'. split; [done|]. split; [done|]. rewrite Hcs1 in Hm.
  split; [apply moved_step; [lia|done]|]. by rewrite Hl, Hd.
Qed.

Lemma deref_chunks_ok s b e :
  seg_ok s → 0 ≤ b → e ≤ zlen (chunks s) →
  (∀ i c, b ≤ i < e → zget (chunks s) i = Some c → 1 ≤ refcnt c) →
  ∃ s', deref_chunks s b e = Ok s' ∧ seg_ok s' ∧ moved (-1) b e (chunks s) (chunks s') ∧
    len s' = len s ∧ data_id s' = data_id s.
Proof.
  unfold deref_chunks. remember (Z.to_nat (e - b)) as n eqn:Hn. revert s b Hn.
  induction n as [|n IH]; intros s b Hn Hok Hb He Hr.
  { rewrite range_nil by lia. exists s. split; [done|]. split; [done|].
    split; [apply moved_nil; lia|done]. }
  rewrite range_cons by lia. cbn [foldM].
  destruct (zget_is_Some (chunks s) b) as [c Hc]; [lia|].
  destruct (deref_chunk_ok s b c Hok Hc) as (s1 & -> & Hok1 & Hcs1 & Hl1 & Hd1).
  { eapply Hr; [|done]. lia. }
  res_run. destruct (IH s1 (b + 1)) as (s' & -> & Hok' & Hm & Hl & Hd);
    [lia|done|lia|by rewrite Hcs1, zlen_upd| |].
  { intros i c' Hi. rewrite Hcs1, zget_upd, decide_False by lia. apply Hr. lia. }
  exists s'. split; [done|]. split; [done|]. rewrite Hcs1 in Hm.
  split; [apply moved_step; [lia|done]|]. by rewrite Hl, Hd.
Qed.

Lemma seg_ext s s' :
  seg_ok s → seg_ok s' → chunks s' = chunks s → len s' = len s → data_id s' = data_id s →
  s' = s.
Proof.
  destruct s, s'. unfold seg_ok. simpl. intros (_&->&_) (_&->&_) -> -> ->. done.
Qed.

(** *** Shrinking *)

Lemma slice_app_mid {A} (l1 l2 : list A) (x : list A) :
  ztake (zlen x) (zdrop (zlen l1) (l1 ++ x ++ l2)) = x.
Proof.
  rewrite zdrop_app_ge, Z.sub_diag, zdrop_0 by lia.
  rewrite ztake_app_le, ztake_ge by lia. done.
Qed.

(** The chunk and its image after re-positioning [data] into [data']. *)
Definition shrunk (data data' : list byte) (c c' : Chunk) : Prop :=
  clen c' = clen c ∧ refcnt c' = refcnt c ∧
  (Chunk.is_orphan c = false →
   chunk_bytes data' c' = chunk_bytes data c ∧ 0 ≤ pos c' ∧ pos c' + clen c' ≤ zlen data') ∧
  (Chunk.is_orphan c = true → c' = c).
(** The indices of the orphans of [cs], counted from [i]. *)
Fixpoint orphans (i : Z) (cs : list Chunk) : list Z :=
  match cs with
  | [] => []
  | c :: cs => (if Chunk.is_orphan c then [i] else []) ++ orphans (i + 1) cs
  end.
(** The image positions the live chunks get: packed from [p]. *)
Fixpoint packed (p : Z) (cs : list Chunk) : Prop :=
  match cs with
  | [] => True
  | c :: cs => if Chunk.is_orphan c then packed p cs else pos c = p ∧ packed (p + clen c) cs
  end.

Lemma shrink_loop_ok data idx cs buf retired :
  Forall chunk_ok cs → data_ok cs data → zlen data < U64 → zlen buf + live_sum cs < U64 →
  ∃ cs' tl, shrink_loop data idx cs buf retired
            = Ok (cs', buf ++ tl, retired ++ orphans idx cs) ∧
    zlen tl = live_sum cs ∧ packed (zlen buf) cs' ∧
    ∀ post, Forall2 (shrunk data (buf ++ tl ++ post)) cs cs'.
Proof.
  intros HF. revert idx buf retired. induction HF as [|c cs Hck HF IH];
    intros idx buf retired Hd Hdl Hbl.
  { exists [], []. rewrite !app_nil_r. split; [done|]. split; [done|]. split; [done|].
    constructor. }
  apply Forall_cons in Hd as [Hdc Hd]. destruct Hck as (Hp & Hcl & Hrc & Hpe).
  pose proof (live_sum_nonneg _ HF) as Hnn. pose proof (zlen_nonneg buf).
  assert (Hls : live_sum (c :: cs) = live_len c + live_sum cs) by done.
  rewrite Hls in *. cbn [shrink_loop orphans]. unfold live_len in *.
  destruct (Chunk.is_orphan c) eqn:Ho.
  - destruct (IH (idx + 1) buf (retired ++ [idx]) Hd Hdl ltac:(lia))
      as (cs' & tl & -> & Hl & Hpk & Hall). res_run.
    exists (c :: cs'), tl. rewrite <- app_assoc. split; [done|]. split; [lia|].
    simpl. rewrite Ho. split; [done|].
    intros post. constructor; [|done]. split; [done|]. split; [done|]. by rewrite Ho.
  - specialize (Hdc eq_refl). unfold end_pos. res_run. unfold vslice.
    rewrite !(proj2 (Z.leb_le _ _)) by lia. cbn [andb]. res_run.
    replace (pos c + clen c - pos c) with (clen c) by lia.
    fold (chunk_bytes data c). set (d := chunk_bytes data c).
    assert (Hdlen : zlen d = clen c).
    { unfold d, chunk_bytes. rewrite zlen_ztake, zlen_zdrop by lia. lia. }
    rewrite zlen_app, Hdlen. res_run. replace (zlen buf + clen c - clen c) with (zlen buf) by lia.
    destruct (IH (idx + 1) (buf ++ d) retired Hd Hdl) as (cs' & tl & -> & Hl & Hpk & Hall).
    { rewrite zlen_app, Hdlen. lia. }
    res_run. exists (mkChunk (zlen buf) (clen c) (refcnt c) :: cs'), (d ++ tl).
    rewrite <- !app_assoc. split; [done|]. rewrite zlen_app in *. split; [lia|].
    cbn [packed]. unfold Chunk.is_orphan at 1. cbn [refcnt pos clen].
    fold (Chunk.is_orphan c). rewrite Ho. rewrite Hdlen in Hpk. split; [done|].
    intros post. rewrite <- !app_assoc. constructor.
    + split; [done|]. split; [done|]. rewrite Ho. split; [intros _|done].
      cbn [pos clen]. split; [|split; [done|]].
      * unfold chunk_bytes at 1. cbn [pos clen]. rewrite <- Hdlen. apply slice_app_mid.
      * rewrite !zlen_app. pose proof (zlen_nonneg tl). pose proof (zlen_nonneg post). lia.
    + specialize (Hall post). by rewrite <- !app_assoc in Hall.
Qed.

Lemma shrunk_orphan data data' c c' : shrunk data data' c c' → Chunk.is_orphan c' = Chunk.is_orphan c.
Proof. intros (_ & Hr & _). unfold Chunk.is_orphan. by rewrite Hr. Qed.
Lemma Forall2_shrunk_live data data' cs cs' :
  Forall2 (shrunk data data') cs cs' → live_sum cs' = live_sum cs.
Proof.
  induction 1 as [|c c' cs cs' Hc _ IH]; [done|]. unfold live_sum in *. simpl. rewrite IH.
  unfold live_len. rewrite (shrunk_orphan _ _ _ _ Hc). destruct Hc as (-> & _). done.
Qed.

Lemma shrunk_chunk_ok data data' c c' :
  shrunk data data' c c' → zlen data' < U64 → chunk_ok c → chunk_ok c'.
Proof.
  intros (Hl & Hr & Hlive & Horp) Hd (Hp & Hcl & Hrc & Hpe).
  destruct (Chunk.is_orphan c); [by rewrite Horp|].
  destruct (Hlive eq_refl) as (_ & ? & ?). unfold chunk_ok. rewrite Hl, Hr in *.
  split_and!; try done; lia.
Qed.
Lemma shrunk_ok data data' cs cs' :
  Forall2 (shrunk data data') cs cs' → zlen data' < U64 → Forall chunk_ok cs →
  Forall chunk_ok cs' ∧ data_ok cs' data'.
Proof.
  intros H2 Hd HF. induction H2 as [|c c' cs cs' Hc _ IH]; [by split; constructor|].
  apply Forall_cons in HF as [Hck HF]. destruct (IH HF) as [IH1 IH2].
  split; [constructor; [by eapply shrunk_chunk_ok|done]|].
  constructor; [|done]. rewrite (shrunk_orphan _ _ _ _ Hc). intros Ho.
  destruct Hc as (_ & _ & Hlive & _). by apply Hlive.
Qed.

Lemma shrink_ok s data nid :
  seg_ok s → data_ok (chunks s) data → zlen data < U64 →
  ∃ s' buf, shrink s data nid
    = Ok (s', [AddToTrans (data_id s) Delete; SaveData nid buf; AddToTrans nid New],
          orphans 0 (chunks s)) ∧
    data_id s' = nid ∧ len s' = used s ∧ used s' = used s ∧ zlen buf = used s ∧
    Forall2 (shrunk data buf) (chunks s) (chunks s') ∧ packed 0 (chunks s') ∧
    live_sum (chunks s') = used s.
Proof.
  intros (HF & Hu & Hle & Hlt) Hd Hdl. unfold shrink.
  destruct (shrink_loop_ok data 0 (chunks s) [] [] HF Hd Hdl) as (cs' & tl & -> & Hl & Hpk & Hall).
  { change (zlen []) with 0. lia. }
  specialize (Hall []). rewrite app_nil_r, app_nil_l in *.
  rewrite !bind_ok, rassert_ok by (apply Z.eqb_eq; lia). rewrite bind_ok.
  eexists _, tl. split; [done|]. cbn [data_id len used chunks]. split_and!; try done; [lia|].
  rewrite (Forall2_shrunk_live _ _ _ _ Hall). done.
Qed.
End Segment.
