(* ===== verification/Armor.v ===== *)
(** * src/volume/armor.rs: saving an item in two arms.

    An item is saved alternately under two ids derived from its own, with a growing sequence
    number, so that the last complete save survives a write that fails. The volume is an
    interface: two stores of serialised items, the one of the logs and the one of entities. *)
From S2P Require Import Prelude Run.

Abbreviation Eid := Z.

(** ** The volume *)

(** The logs ([get_wal], [put_wal], [del_wal]) and the entities of the volume. *)
Inductive Kind : Set := Logs | Ents.
#[export] Instance Kind_eq_dec : EqDecision Kind.
Proof. solve_decision. Defined.

(** Whole serialised items are read and written: a writer's bytes are in place when it is
    finished, or not at all. *)
Class Volume (V : Type) (X : Kind → Type) := {
  vol_get (k : Kind) : Eid → run V (X k);
  vol_put (k : Kind) : Eid → X k → run V unit;
  vol_del (k : Kind) : Eid → run V unit;
  vol_flush : run V unit;
  vol_block_wmark : run V Z;                (* the allocator's, through [get_allocator] *)
  vol_set_block_wmark : Z → run V unit
}.
#[export] Hint Mode Volume ! - : typeclass_instances.

(** [contents] is what the volume holds; a call fails or the machine stops in it only while
    the volume is not [steady]. A call that fails has changed nothing; when the machine stops
    in a write, the write may have been made or not. *)
Class VolumeLaws (V : Type) (X : Kind → Type) `{!Volume V X} := {
  contents : V → ∀ k, gmap Eid (X k);
  steady : V → Prop;
  same (s s' : V) := (∀ k, contents s' k = contents s k) ∧ (steady s → steady s');
  changed (k : Kind) (m : gmap Eid (X k)) (s s' : V) :=
    contents s' k = m ∧ (∀ k', k' ≠ k → contents s' k' = contents s k') ∧ (steady s → steady s');
  get_law k id s : spec (vol_get k id) s (λ x s', contents s k !! id = Some x ∧ same s s')
    (λ e s', same s s' ∧
      ((e = NotFound ∧ contents s k !! id = None) ∨ (e ≠ NotFound ∧ ¬ steady s)))
    (λ s', same s s' ∧ ¬ steady s);
  put_law k id x s : spec (vol_put k id x) s (λ _ s', changed k (<[id := x]> (contents s k)) s s')
    (λ _ s', same s s' ∧ ¬ steady s)
    (λ s', (same s s' ∨ changed k (<[id := x]> (contents s k)) s s') ∧ ¬ steady s);
  del_law k id s : spec (vol_del k id) s (λ _ s', changed k (delete id (contents s k)) s s')
    (λ _ s', same s s' ∧ ¬ steady s)
    (λ s', (same s s' ∨ changed k (delete id (contents s k)) s s') ∧ ¬ steady s);
  flush_law s : spec vol_flush s (λ _ s', same s s')
    (λ _ s', same s s' ∧ ¬ steady s) (λ s', same s s' ∧ ¬ steady s);
  block_wmark_law s : spec vol_block_wmark s (λ _ s', same s s') (λ _ _, False) (λ _, False);
  set_block_wmark_law n s :
    spec (vol_set_block_wmark n) s (λ _ s', same s s') (λ _ _, False) (λ _, False)
}.
#[export] Hint Mode VolumeLaws ! - - : typeclass_instances.

Lemma same_refl `{VolumeLaws V X} (s : V) : same s s.
Proof. done. Qed.
Lemma same_trans `{VolumeLaws V X} (s1 s2 s3 : V) : same s1 s2 → same s2 s3 → same s1 s3.
Proof. intros [H1 P1] [H2 P2]. split; [intros k; by rewrite H2|auto]. Qed.
#[export] Hint Resolve same_refl : core.

(** ** Arms *)

Module Arm.
Inductive Arm : Set := Left | Right.
#[global] Instance Arm_eq_dec : EqDecision Arm.
Proof. solve_decision. Defined.

Definition other (a : Arm) : Arm := match a with Left => Right | Right => Left end.
Definition default : Arm := Left.

Lemma other_other a : other (other a) = a.
Proof. by destruct a. Qed.
Lemma other_ne a : other a ≠ a.
Proof. by destruct a. Qed.
Lemma arm_cases (a b : Arm) : b = a ∨ b = other a.
Proof. destruct a, b; auto. Qed.
End Arm.
Import Arm.

(** [Arm::to_eid] hashes the id with the arm. The hash is foreign: ids are [named] when arms
    are made of them, and then the arms are apart. *)
Class ArmHash := { to_eid : Arm → Eid → Eid }.
Class ArmHashLaws `{!ArmHash} := {
  named : Eid → Prop;
  to_eid_inj a b i j : named i → named j → to_eid a i = to_eid b j → a = b ∧ i = j;
  to_eid_apart a i j : named i → named j → to_eid a i ≠ j
}.

Section remove.
Context `{!ArmHash} {V : Type} {X : Kind → Type} `{!Volume V X}.

Definition both_eid (id : Eid) : Eid * Eid := (to_eid Left id, to_eid Right id).

(** [Result::and] of two calls: both run, the first error counts. *)
Definition both (m1 m2 : run V unit) : run V unit :=
  r1 ← attempt m1; r2 ← attempt m2;
  match r1 with Ok _ => lift r2 | Err e => fail e | Panic => lift Panic end.

Definition remove_arm (a : Arm) (id : Eid) : run V unit := vol_del Ents (to_eid a id).
Definition remove_all (id : Eid) : run V unit :=
  let '(l, r) := both_eid id in both (vol_del Ents l) (vol_del Ents r).
End remove.

(** ** Armored items *)

(** The serialiser is foreign: what is written of an item is read back as its [stored_form],
    the item without the fields it does not serialise. *)
Class Serde (X I : Type) := { encode : I → X; decode : X → option I; stored_form : I → I }.
#[export] Hint Mode Serde - ! : typeclass_instances.
Class SerdeLaws (X I : Type) `{!Serde X I} :=
  decode_encode (i : I) : decode (encode i) = Some (stored_form i).
#[export] Hint Mode SerdeLaws - ! - : typeclass_instances.

(** The traits [Id], [Seq] and [ArmAccess]. *)
Class ArmAccess (I : Type) := {
  item_id : I → Eid;
  item_seq : I → Z;
  item_arm : I → Arm;
  set_item (s : Z) (a : Arm) : I → I
}.
#[export] Hint Mode ArmAccess ! : typeclass_instances.

Class ArmAccessLaws (X I : Type) `{!ArmAccess I, !Serde X I} := {
  stored_form_fields (i : I) : item_id (stored_form i) = item_id i ∧
    item_seq (stored_form i) = item_seq i ∧ item_arm (stored_form i) = item_arm i;
  set_item_fields s a (i : I) : item_id (set_item s a i) = item_id i ∧
    item_seq (set_item s a i) = s ∧ item_arm (set_item s a i) = a;
  set_item_same (i : I) : set_item (item_seq i) (item_arm i) i = i;
  set_item_twice s a s' a' (i : I) : set_item s a (set_item s' a' i) = set_item s a i
}.
#[export] Hint Mode ArmAccessLaws - ! - - : typeclass_instances.

Module Armor.
Section armor.
Context `{!ArmHash} {V : Type} {X : Kind → Type} `{!Volume V X}.
Context (k : Kind) {I : Type} `{!ArmAccess I, !Serde (X k) I}.

Definition inc_seq (i : I) : res I :=
  n ← u_add (item_seq i) 1; Ok (set_item n (item_arm i) i).
Definition toggle (i : I) : I := set_item (item_seq i) (other (item_arm i)) i.

Definition load_one_arm (id : Eid) (a : Arm) : run V I :=
  x ← vol_get k (to_eid a id); lift (ok_or Decode (decode x)).

Definition load_item (id : Eid) : run V I :=
  left_arm ← attempt (load_one_arm id Left);
  right_arm ← attempt (load_one_arm id Right);
  match left_arm with
  | Ok l =>
      match right_arm with
      | Ok r =>
          _ ← lift (rassert (negb (item_seq l =? item_seq r)));
          mret (if item_seq r <? item_seq l then l else r)
      | Err NotFound => mret l
      | r => lift r
      end
  | Err NotFound => lift right_arm
  | l => lift l
  end.

(** The item is changed even when the call fails. *)
Definition save_item (i : I) : run V (I * res unit) :=
  i ← lift (inc_seq i);
  let i := toggle i in
  r ← attempt (vol_put k (to_eid (item_arm i) (item_id i)) (encode i));
  match r with Ok _ => mret (i, Ok ()) | _ => mret (toggle i, r) end.

Definition remove_other_arm (i : I) : run V unit :=
  vol_del k (to_eid (other (item_arm i)) (item_id i)).
Definition remove_all_arms (id : Eid) : run V unit :=
  let '(l, r) := both_eid id in both (vol_del k l) (vol_del k r).
End armor.
End Armor.

(** ** What the armor guarantees *)

Section laws.
Context `{!ArmHash, !ArmHashLaws} {V : Type} {X : Kind → Type} `{!Volume V X, !VolumeLaws V X}.
Context (k : Kind) {I : Type} `{!ArmAccess I, !Serde (X k) I}.
Context `{!SerdeLaws (X k) I, !ArmAccessLaws (X k) I}.
Implicit Types (s : V) (m : gmap Eid (X k)) (id : Eid) (a : Arm) (i j : I).

Definition arm_item m id a : option I := m !! to_eid a id ≫= decode.
Definition absent m id : Prop := ∀ a, m !! to_eid a id = None.

(** The other arm is empty or holds an older item. *)
Definition older m id a (n : Z) : Prop :=
  m !! to_eid a id = None ∨ ∃ j, arm_item m id a = Some j ∧ item_seq j < n.

(** The item of the id is [i], in its arm. *)
Definition stored m id i : Prop :=
  item_id i = id ∧ arm_item m id (item_arm i) = Some i ∧ older m id (other (item_arm i)) (item_seq i).

(** A call on the volume that has failed or has stopped it. *)
Definition failed s s' : Prop := same s s' ∧ ¬ steady s.

Lemma load_one_arm_spec s id a :
  (contents s k !! to_eid a id = None ∨ is_Some (arm_item (contents s k) id a)) →
  spec (Armor.load_one_arm k id a) s
    (λ i s', same s s' ∧ arm_item (contents s k) id a = Some i)
    (λ e s', same s s' ∧ ((e = NotFound ∧ contents s k !! to_eid a id = None) ∨
       (e ≠ NotFound ∧ ¬ steady s)))
    (failed s).
Proof.
  intros Hd. unfold Armor.load_one_arm. step_by (get_law k); [|done|done].
  intros x s' [Hx Hs]. unfold arm_item in *. rewrite Hx in *. destruct Hd as [|[i Hi]]; [done|].
  simpl in *. rewrite Hi. simpl. by apply spec_lift_ok.
Qed.

(** Loading an item that is stored gives it. *)
Lemma load_stored s id i :
  stored (contents s k) id i →
  spec (Armor.load_item k id) s (λ j s', j = i ∧ same s s') (λ e s', e ≠ NotFound ∧ failed s s')
    (failed s).
Proof.
  intros (Hid & Hin & Hold). unfold Armor.load_item.
  assert (Hdec : ∀ a, contents s k !! to_eid a id = None ∨ is_Some (arm_item (contents s k) id a)).
  { intros a. destruct (arm_cases (item_arm i) a) as [->| ->]; [right; by rewrite Hin|].
    destruct Hold as [|(j & Hj & _)]; [by left|right; by rewrite Hj]. }
  assert (Hnn : contents s k !! to_eid (item_arm i) id ≠ None).
  { intros Hn. unfold arm_item in Hin. by rewrite Hn in Hin. }
  apply spec_bind, spec_attempt. eapply spec_mono; [by apply load_one_arm_spec| | |done].
  - intros l s1 [Hs1 Hl]. apply spec_bind, spec_attempt.
    assert (Hc : contents s1 k = contents s k) by apply Hs1.
    eapply spec_mono; [apply load_one_arm_spec; by rewrite Hc| | |].
    + intros r s2 [Hs2 Hr]. rewrite Hc in Hr.
      assert (Hss : same s s2) by by eapply same_trans.
      destruct (item_arm i) eqn:Ha; simpl in Hold; destruct Hold as [Hn|(j & Hj & Hlt)];
        [by unfold arm_item in *; rewrite Hn in *| |by unfold arm_item in *; rewrite Hn in *|];
        simplify_eq; rewrite (proj2 (Z.eqb_neq _ _)) by lia; simpl; apply spec_bind, spec_lift_ok, spec_ret.
      * by rewrite (proj2 (Z.ltb_lt _ _)).
      * by rewrite (proj2 (Z.ltb_ge _ _)) by lia.
    + intros e s2 [Hs2 [[-> Hn]|[Hne Hst]]].
      * rewrite Hc in Hn. split; [|by eapply same_trans].
        destruct (arm_cases (item_arm i) Right) as [Ha|Ha]; [by rewrite Ha in Hn|].
        apply (f_equal other) in Ha. rewrite other_other in Ha. simpl in Ha. rewrite Ha in Hl. congruence.
      * assert (Hf : e ≠ NotFound ∧ failed s s2).
        { split; [done|]. split; [by eapply same_trans|]. intros Hst'. by apply Hst, Hs1. }
        by destruct e; try exact Hf.
    + intros s2 [Hs2 Hst]. split; [by eapply same_trans|]. intros Hst'. by apply Hst, Hs1.
  - intros e s1 [Hs1 He]. apply spec_bind, spec_attempt.
    assert (Hc : contents s1 k = contents s k) by apply Hs1.
    eapply spec_mono; [apply load_one_arm_spec; by rewrite Hc| | |].
    + intros r s2 [Hs2 Hr]. rewrite Hc in Hr. assert (Hss : same s s2) by by eapply same_trans.
      destruct He as [[-> Hn]|[Hne Hst]].
      2: { assert (Hf : e ≠ NotFound ∧ failed s s2) by done. by destruct e; try exact Hf. }
      split; [|done]. destruct (arm_cases (item_arm i) Left) as [Ha|Ha]; [by rewrite Ha in Hn|].
      apply (f_equal other) in Ha. rewrite other_other in Ha. simpl in Ha. rewrite Ha in Hr. congruence.
    + intros e' s2 [Hs2 He']. assert (Hss : same s s2) by by eapply same_trans.
      destruct He as [[-> Hn]|[Hne Hst]].
      2: { assert (Hf : e ≠ NotFound ∧ failed s s2) by done. by destruct e; try exact Hf. }
      destruct He' as [[-> Hn']|[Hne' Hst']].
      * rewrite Hc in Hn'. exfalso. by destruct (item_arm i).
      * split; [done|]. split; [done|]. intros Hst. by apply Hst', Hs1.
    + intros s2 [Hs2 Hst]. split; [by eapply same_trans|]. intros Hst'. by apply Hst, Hs1.
Qed.

(** Loading an item of which no arm is there reports that. *)
Lemma load_absent s id :
  absent (contents s k) id →
  spec (Armor.load_item (I:=I) k id) s (λ _ _, False)
    (λ e s', same s s' ∧ (e = NotFound ∨ ¬ steady s)) (failed s).
Proof.
  intros Hab. unfold Armor.load_item.
  apply spec_bind, spec_attempt. eapply spec_mono; [apply load_one_arm_spec; by left| | |done].
  - intros l s1 [_ Hl]. unfold arm_item in Hl. by rewrite Hab in Hl.
  - intros e s1 [Hs1 He]. apply spec_bind, spec_attempt.
    assert (Hc : contents s1 k = contents s k) by apply Hs1.
    eapply spec_mono; [apply load_one_arm_spec; rewrite Hc; by left| | |].
    + intros r s2 [_ Hr]. unfold arm_item in Hr. by rewrite Hc, Hab in Hr.
    + intros e' s2 [Hs2 He']. assert (Hss : same s s2) by by eapply same_trans.
      destruct He as [[-> Hn]|[Hne Hst]].
      2: { assert (Hf : same s s2 ∧ (e = NotFound ∨ ¬ steady s)) by auto. by destruct e; try exact Hf. }
      split; [done|]. destruct He' as [[-> _]|[_ Hst]]; [by left|right; intros Hst'; by apply Hst, Hs1].
    + intros s2 [Hs2 Hst]. split; [by eapply same_trans|]. intros Hst'. by apply Hst, Hs1.
Qed.

(** Saving writes the other arm with the next number; a failed save leaves the volume as it
    was and the item in its arm, with the number used up. *)
Definition next_item i : I := set_item (item_seq i + 1) (other (item_arm i)) i.
Lemma save_spec s i :
  spec (Armor.save_item k i) s
    (λ r s', match r.2 with
             | Ok _ => r.1 = next_item i ∧
                 changed k (<[to_eid (other (item_arm i)) (item_id i) := encode (next_item i)]>
                              (contents s k)) s s'
             | Err _ => r.1 = set_item (item_seq i + 1) (item_arm i) i ∧ failed s s'
             | Panic => False
             end)
    (λ _ _, False)
    (λ s', (same s s' ∨ changed k (<[to_eid (other (item_arm i)) (item_id i) := encode (next_item i)]>
                                     (contents s k)) s s') ∧
       (¬ steady s ∨ U64 ≤ item_seq i + 1)).
Proof.
  unfold Armor.save_item. apply spec_bind. unfold Armor.inc_seq.
  destruct (decide (item_seq i + 1 < U64)) as [Hlt|]; cycle 1.
  { unfold u_add. rewrite (proj2 (Z.ltb_ge _ _)) by lia. split; [by left|]. right. lia. }
  rewrite u_add_ok, bind_ok by done. apply spec_lift_ok.
  assert (Hi : Armor.toggle (set_item (item_seq i + 1) (item_arm i) i) = next_item i).
  { unfold Armor.toggle. destruct (set_item_fields (item_seq i + 1) (item_arm i) i) as (_ & -> & ->).
    by rewrite set_item_twice. }
  rewrite Hi. destruct (set_item_fields (item_seq i + 1) (other (item_arm i)) i) as (Hid & Hseq & Harm).
  fold (next_item i) in Hid, Hseq, Harm. rewrite Hid, Harm.
  apply spec_bind, spec_attempt. eapply spec_mono; [apply put_law| | |].
  - intros [] s' Hs. by apply spec_ret.
  - intros e s' Hs. apply spec_ret. simpl. split; [|done]. unfold Armor.toggle.
    rewrite Hseq, Harm, other_other. apply set_item_twice.
  - intros s' [Hs Hst]. by auto.
Qed.

Lemma stored_next m i :
  named (item_id i) → older m (item_id i) (item_arm i) (item_seq i + 1) →
  stored (<[to_eid (other (item_arm i)) (item_id i) := encode (next_item i)]> m) (item_id i)
    (stored_form (next_item i)).
Proof.
  intros Hn Hold. destruct (set_item_fields (item_seq i + 1) (other (item_arm i)) i) as (Hid & Hseq & Harm).
  fold (next_item i) in Hid, Hseq, Harm.
  destruct (stored_form_fields (next_item i)) as (Hid' & Hseq' & Harm').
  unfold stored. rewrite Hid', Hseq', Harm', Hid, Hseq, Harm, other_other. split; [done|].
  split; [unfold arm_item; rewrite lookup_insert_eq; simpl; apply decode_encode|].
  unfold older, arm_item. rewrite lookup_insert_ne; [exact Hold|].
  intros Heq. destruct (to_eid_inj _ _ _ _ Hn Hn Heq) as [Ha _]. by apply other_ne in Ha.
Qed.

Lemma stored_inj m id i j : stored m id i → stored m id j → i = j.
Proof.
  intros (_ & Hi & Hio) (_ & Hj & Hjo). destruct (arm_cases (item_arm i) (item_arm j)) as [Ha|Ha].
  - rewrite Ha in Hj. congruence.
  - rewrite Ha in Hj, Hjo. rewrite other_other in Hjo. unfold older, arm_item in *.
    destruct Hio as [Hn|(x & Hx & Hlt)]; [by rewrite Hn in Hj|].
    destruct Hjo as [Hn|(y & Hy & Hlt')]; [by rewrite Hn in Hi|]. simplify_eq. lia.
Qed.

(** Arms of other ids are not touched. *)
Lemma stored_frame m id i key x :
  (∀ a, key ≠ to_eid a id) → stored m id i → stored (<[key := x]> m) id i.
Proof.
  intros Hk (Hid & Hin & Hold). unfold stored, older, arm_item in *.
  rewrite !lookup_insert_ne by apply Hk. by split_and!.
Qed.
Lemma absent_frame m id key (x : X k) :
  (∀ a, key ≠ to_eid a id) → absent m id → absent (<[key := x]> m) id.
Proof. intros Hk Hab a. rewrite lookup_insert_ne by apply Hk. apply Hab. Qed.
End laws.

(** *** Removing *)

Section pruning.
Context `{!ArmHash, !ArmHashLaws} {V : Type} {X : Kind → Type} `{!Volume V X, !VolumeLaws V X}.
Implicit Types (s : V) (K : Kind → Eid → Prop).

(** Only entries named by [K] are lost. *)
Definition pruned K s s' : Prop :=
  (∀ k key, contents s' k !! key = contents s k !! key ∨ (K k key ∧ contents s' k !! key = None)) ∧
  (steady s → steady s').

Lemma pruned_same K s s' : same s s' → pruned K s s'.
Proof. intros [Hc Hs]. split; [|done]. intros k key. left. by rewrite Hc. Qed.
Lemma pruned_trans K s1 s2 s3 : pruned K s1 s2 → pruned K s2 s3 → pruned K s1 s3.
Proof.
  intros [H1 P1] [H2 P2]. split; [|auto]. intros k key.
  destruct (H2 k key) as [->|]; [apply H1|by right].
Qed.
Lemma pruned_mono K K' s s' : pruned K s s' → (∀ k key, K k key → K' k key) → pruned K' s s'.
Proof. intros [Hp P] HK. split; [|done]. intros k key. destruct (Hp k key) as [|[]]; auto. Qed.
Lemma pruned_None K s s' k key :
  pruned K s s' → contents s k !! key = None → contents s' k !! key = None.
Proof. intros [Hp _] Hn. destruct (Hp k key) as [->|[_ ?]]; done. Qed.
Lemma pruned_keep K s s' k key :
  pruned K s s' → ¬ K k key → contents s' k !! key = contents s k !! key.
Proof. intros [Hp _] Hn. by destruct (Hp k key) as [|[]]. Qed.

Lemma del_spec k id s :
  spec (vol_del k id) s
    (λ _ s', pruned (λ k' key, k' = k ∧ key = id) s s' ∧ contents s' k !! id = None)
    (λ _ s', failed s s') (λ s', pruned (λ k' key, k' = k ∧ key = id) s s' ∧ ¬ steady s).
Proof.
  assert (Hdel : ∀ s', changed k (delete id (contents s k)) s s' → pruned (λ k' key, k' = k ∧ key = id) s s').
  { intros s' (Hk & Hne & Hst). split; [|done].
    intros k' key. destruct (decide (k' = k)) as [->|]; [|left; by rewrite Hne].
    rewrite Hk. destruct (decide (key = id)) as [->|].
    - rewrite lookup_delete_eq. by right.
    - left. by rewrite lookup_delete_ne. }
  eapply spec_mono; [apply del_law| |done|].
  - intros [] s' Hch. split; [by apply Hdel|]. destruct Hch as (-> & _). apply lookup_delete_eq.
  - intros s' [[Hs|Hch] Hst]; split; [by apply pruned_same|done|by apply Hdel|done].
Qed.

Definition arms_of (k : Kind) (id : Eid) (k' : Kind) (key : Eid) : Prop :=
  k' = k ∧ ∃ a, key = to_eid a id.

(** Removing both arms: what fails may leave one of them. *)
Lemma remove_both_spec k id s :
  spec (Armor.remove_all_arms k id) s
    (λ _ s', pruned (arms_of k id) s s' ∧ absent k (contents s' k) id)
    (λ _ s', pruned (arms_of k id) s s' ∧ ¬ steady s)
    (λ s', pruned (arms_of k id) s s' ∧ ¬ steady s).
Proof.
  unfold Armor.remove_all_arms, both. simpl.
  assert (Hone : ∀ a s s', pruned (λ k' key, k' = k ∧ key = to_eid a id) s s' → pruned (arms_of k id) s s').
  { intros a s1 s2 Hp. eapply pruned_mono; [exact Hp|]. intros k' key [-> ->]. split; [done|by exists a]. }
  apply spec_bind, spec_attempt. eapply spec_mono; [apply del_spec| | |].
  - intros [] s1 [Hp1 Hn1]. apply Hone in Hp1. apply spec_bind, spec_attempt.
    eapply spec_mono; [apply del_spec| | |].
    + intros [] s2 [Hp2 Hn2]. apply Hone in Hp2. simpl. apply spec_lift_ok.
      split; [by eapply pruned_trans|]. intros []; [|done]. by eapply pruned_None.
    + intros e s2 [Hs2 Hst]. apply (pruned_same (arms_of k id)) in Hs2.
      apply (spec_fail (A:=unit)). split; [by eapply pruned_trans|].
      intros Hst'. by apply Hst, Hp1.
    + intros s2 [Hp2 Hst]. apply Hone in Hp2.
      split; [by eapply pruned_trans|]. intros Hst'. by apply Hst, Hp1.
  - intros e s1 [Hs1 Hst]. apply (pruned_same (arms_of k id)) in Hs1.
    apply spec_bind, spec_attempt. eapply spec_mono; [apply del_spec| | |].
    + intros [] s2 [Hp2 _]. apply Hone in Hp2. apply (spec_fail (A:=unit)).
      split; [by eapply pruned_trans|done].
    + intros e' s2 [Hs2 _]. apply (pruned_same (arms_of k id)) in Hs2.
      apply (spec_fail (A:=unit)). split; [by eapply pruned_trans|done].
    + intros s2 [Hp2 _]. apply Hone in Hp2. split; [by eapply pruned_trans|done].
  - intros s1 [Hp1 Hst]. by apply Hone in Hp1.
Qed.
End pruning.
