(* ===== verification/Storage.v ===== *)
(** * src/volume/storage/storage.rs: entities as encrypted frames on blocks.

    An entity is cut into frames of at most sixteen blocks, each encrypted, and its address
    says which blocks hold them. The depot below keeps blocks, addresses and logs; addresses
    and decrypted frames are cached. *)
From S2P Require Import Prelude Run Base Address Crypto Armor.

(** ** The trait [Storable] *)

Class Storable (D : Type) := {
  dp_exists : run D bool;
  dp_connect (force : bool) : run D unit;
  dp_init (c : Crypto.Crypto) (key : bytes) : run D unit;
  dp_open (c : Crypto.Crypto) (key : bytes) (force : bool) : run D unit;
  dp_get_super_block (suffix : Z) : run D bytes;
  dp_put_super_block (super_blk : bytes) (suffix : Z) : run D unit;
  dp_get_wal (id : Eid) : run D bytes;
  dp_put_wal (id : Eid) (wal : bytes) : run D unit;
  dp_del_wal (id : Eid) : run D unit;
  dp_get_address (id : Eid) : run D bytes;
  dp_put_address (id : Eid) (addr : bytes) : run D unit;
  dp_del_address (id : Eid) : run D unit;
  dp_get_blocks (s : Span.Span) : run D bytes;
  dp_put_blocks (s : Span.Span) (blks : bytes) : run D unit;
  dp_del_blocks (s : Span.Span) : run D unit;
  dp_flush : run D unit;
  dp_destroy : run D unit
}.
#[export] Hint Mode Storable ! : typeclass_instances.

(** The serialiser of addresses is foreign. *)
Class AddrSerde := { addr_ser : Addr.Addr → bytes; addr_de : bytes → option Addr.Addr }.
Class AddrSerdeLaws `{!AddrSerde} : Prop := {
  addr_de_ser a : addr_de (addr_ser a) = Some a;
  addr_ser_len a : Addr.spans_ok (Addr.list_ a) → zlen (addr_ser a) < 2 ^ 63
}.

(** [FrameCacheMeter], [CountMeter] and [PinChecker]. *)
#[export] Instance frame_meter : Meter bytes := zlen.
#[export] Instance addr_meter : Meter Addr.Addr := λ _, 1.
#[export] Instance frame_pin : Pinnable bytes := λ _, false.
#[export] Instance addr_pin : Pinnable Addr.Addr := λ _, false.

Module Storage.
Record Storage (FM AM : Type) := mkStorage {
  allocator : Allocator.Allocator; crypto : Crypto.Crypto; key : bytes;
  frame_cache : Lru.Lru FM; addr_cache : Lru.Lru AM
}.
Arguments mkStorage {FM AM}. Arguments allocator {FM AM}. Arguments crypto {FM AM}. Arguments key {FM AM}.
Arguments frame_cache {FM AM}. Arguments addr_cache {FM AM}.

(** The storage with its depot and the source of random bytes. *)
Record St (D R FM AM : Type) := mkSt { depot : D; rng : R; sto : Storage FM AM }.
Arguments mkSt {D R FM AM}. Arguments depot {D R FM AM}. Arguments rng {D R FM AM}. Arguments sto {D R FM AM}.

Definition FRAME_CACHE_SIZE : Z := 4 * 1024 * 1024.
Definition FRAME_CACHE_THRESHOLD : Z := 512 * 1024.
Definition ADDRESS_CACHE_SIZE : Z := 64.

Section storage.
Context `{!Sodium, !AddrSerde} {D R FM AM : Type} `{!Storable D, !Random R}.
Context `{!LinkedMapOps Z bytes FM, !LinkedMapOps Eid Addr.Addr AM}.
Abbreviation act := (run (St D R FM AM)).

Definition new : Storage FM AM :=
  mkStorage Allocator.new Crypto.default [] (Lru.new (K:=Z) (V:=bytes) FRAME_CACHE_SIZE)
    (Lru.new (K:=Eid) (V:=Addr.Addr) ADDRESS_CACHE_SIZE).

Definition on_depot {A} (m : run D A) : act A := zoom depot (λ d s, mkSt d (rng s) (sto s)) m.
Definition the {A} (f : Storage FM AM → A) : act A := ask (λ s, f (sto s)).
Definition set_sto (f : Storage FM AM → Storage FM AM) : act unit :=
  modify (λ s, mkSt (depot s) (rng s) (f (sto s))).
Definition set_frames (c : Lru.Lru FM) : act unit :=
  set_sto (λ s, mkStorage (allocator s) (crypto s) (key s) c (addr_cache s)).
Definition set_addrs (c : Lru.Lru AM) : act unit :=
  set_sto (λ s, mkStorage (allocator s) (crypto s) (key s) (frame_cache s) c).
Definition set_allocator (a : Allocator.Allocator) : act unit :=
  set_sto (λ s, mkStorage a (crypto s) (key s) (frame_cache s) (addr_cache s)).
Definition draw (n : Z) : act bytes := λ s,
  let '(b, r) := random_buf n (rng s) in (Some (Ok b), mkSt (depot s) r (sto s)).

Definition set_crypto (c : Crypto.Crypto) : act unit :=
  set_sto (λ s, mkStorage (allocator s) c (key s) (frame_cache s) (addr_cache s)).
Definition set_key (k : bytes) : act unit :=
  set_sto (λ s, mkStorage (allocator s) (crypto s) k (frame_cache s) (addr_cache s)).

Definition exists_ : act bool := on_depot dp_exists.
Definition connect (force : bool) : act unit := on_depot (dp_connect force).
(** The master key is random. *)
Definition init (co : Cost.Cost) (ci : Cipher.Cipher) : act unit :=
  c ← lift (Crypto.new co ci);
  _ ← set_crypto c;
  k ← draw Crypto.KEY_SIZE;
  _ ← set_key k;
  d ← lift (Crypto.derive k 0);
  on_depot (dp_init c d).
Definition open (co : Cost.Cost) (ci : Cipher.Cipher) (k : bytes) (force : bool) : act unit :=
  c ← lift (Crypto.new co ci);
  _ ← set_crypto c;
  _ ← set_key k;
  d ← lift (Crypto.derive k 0);
  on_depot (dp_open c d force).
Definition get_super_block (suffix : Z) : act bytes := on_depot (dp_get_super_block suffix).
Definition put_super_block (super_blk : bytes) (suffix : Z) : act unit := on_depot (dp_put_super_block super_blk suffix).
Definition destroy : act unit := on_depot dp_destroy.

(** The cipher text of a message, with a new nonce. *)
Definition encrypt (msg : bytes) : act bytes :=
  c ← the crypto; k ← the key; nonce ← draw Crypto.AES_NONCE_SIZE; lift (Crypto.encrypt c nonce msg k).
Definition decrypt (ctxt : bytes) : act bytes :=
  c ← the crypto; k ← the key; lift (Crypto.decrypt c ctxt k).

Definition get_address (id : Eid) : act Addr.Addr :=
  cache ← the addr_cache;
  let '(o, cache) := Lru.get_refresh (K:=Eid) (V:=Addr.Addr) id cache in
  _ ← set_addrs cache;
  match o with
  | Some addr => mret addr
  | None =>
      buf ← on_depot (dp_get_address id);
      buf ← decrypt buf;
      addr ← lift (ok_or Decode (addr_de buf));
      cache ← the addr_cache;
      '(_, cache) ← lift (Lru.insert (K:=Eid) (V:=Addr.Addr) id addr cache);
      _ ← set_addrs cache;
      mret addr
  end.

Definition put_address (id : Eid) (addr : Addr.Addr) : act unit :=
  buf ← encrypt (addr_ser addr);
  _ ← on_depot (dp_put_address id buf);
  cache ← the addr_cache;
  '(_, cache) ← lift (Lru.insert (K:=Eid) (V:=Addr.Addr) id addr cache);
  set_addrs cache.

(** The [while] loop: the cached frames that begin in a span are dropped; each round advances. *)
Fixpoint drop_frames (fuel : nat) (inaddr_idx blk_idx end_idx : Z) (cache : Lru.Lru FM) : Lru.Lru FM :=
  match fuel with
  | O => cache
  | S fuel =>
      if inaddr_idx <? end_idx then
        let offset := inaddr_idx mod BLKS_PER_FRAME in
        let cache := if offset =? 0 then (Lru.remove (K:=Z) (V:=bytes) blk_idx cache).2 else cache in
        let step := Z.min (end_idx - inaddr_idx) (BLKS_PER_FRAME - offset) in
        drop_frames fuel (inaddr_idx + step) (blk_idx + step) end_idx cache
      else cache
  end.

Fixpoint remove_spans (l : list LocSpan.LocSpan) (inaddr_idx : Z) : act unit :=
  match l with
  | [] => mret ()
  | ls :: l =>
      let s := LocSpan.span ls in
      _ ← on_depot (dp_del_blocks s);
      cache ← the frame_cache;
      let end_idx := inaddr_idx + Span.cnt s in
      _ ← set_frames (drop_frames (Z.to_nat (Span.cnt s)) inaddr_idx (Span.begin s) end_idx cache);
      remove_spans l end_idx
  end.
Definition remove_address_blocks (addr : Addr.Addr) : act unit := remove_spans (Addr.list_ addr) 0.

Definition del_wal (id : Eid) : act unit := on_depot (dp_del_wal id).

Definition del (id : Eid) : act unit :=
  r ← attempt (get_address id);
  match r with
  | Ok addr =>
      _ ← remove_address_blocks addr;
      _ ← on_depot (dp_del_address id);
      cache ← the addr_cache;
      set_addrs (Lru.remove (K:=Eid) (V:=Addr.Addr) id cache).2
  | Err NotFound => mret ()
  | Err e => fail e
  | Panic => lift Panic
  end.

Definition flush : act unit := on_depot dp_flush.
End storage.
End Storage.

(** ** Readers and writers *)

(** An error carried through [std::io]: only its being [NotFound] is kept. *)
Definition io_err (e : Error) : Error := match e with NotFound => NotFound | _ => Io end.
Definition io_other (e : Error) : Error := Io.
Definition map_err {S A} (f : Error → Error) (m : run S A) : run S A := or_else m (λ e, fail (f e)).

Module WalIo.
Section wal_io.
Context `{!Sodium, !AddrSerde} {D R FM AM : Type} `{!Storable D, !Random R}.
Context `{!LinkedMapOps Z bytes FM, !LinkedMapOps Eid Addr.Addr AM}.
Abbreviation act := (run (Storage.St D R FM AM)).

Record WalReader := mkReader { id : Eid; pos : Z; wal : bytes }.
Definition new (i : Eid) : WalReader := mkReader i 0 [].
(** [read] into a buffer of length [n]. *)
Definition read (r : WalReader) (n : Z) : act (bytes * WalReader) :=
  w ← (match wal r with
       | [] =>
           enc ← map_err io_err (Storage.on_depot (dp_get_wal (id r)));
           map_err io_other (Storage.decrypt enc)
       | w => mret w
       end);
  let copy_len := Z.min (zlen w - pos r) n in
  out ← lift (vslice w (pos r) (pos r + copy_len));
  mret (out, mkReader (id r) (pos r + copy_len) w).

(** [WalWriter]: its id and the bytes so far. *)
Record WalWriter := mkWriter { wid : Eid; buf : bytes }.
Definition wtr_new (i : Eid) : WalWriter := mkWriter i [].
Definition write (w : WalWriter) (b : bytes) : Z * WalWriter := (zlen b, mkWriter (wid w) (buf w ++ b)).
Definition finish (w : WalWriter) : act unit :=
  enc ← Storage.encrypt (buf w); Storage.on_depot (dp_put_wal (wid w) enc).
End wal_io.
End WalIo.

Module Reader.
Record Reader := mkReader {
  addrs : list Addr.Addr; ent_len : Z; frm_idx : Z; frm_key : Z;
  dec_size : Z;            (* the length of the buffer [dec_frame] *)
  dec_frame : bytes;       (* its first [dec_frame_len] bytes *)
  pos : Z                  (* [read] *)
}.
Definition dec_frame_len (r : Reader) : Z := zlen (dec_frame r).

Section reader.
Context `{!Sodium, !AddrSerde} {D R FM AM : Type} `{!Storable D, !Random R}.
Context `{!LinkedMapOps Z bytes FM, !LinkedMapOps Eid Addr.Addr AM}.
Abbreviation act := (run (Storage.St D R FM AM)).

Definition first_block (addrs : list Addr.Addr) (i : Z) : res Z :=
  f ← vindex addrs i; ls ← vindex (Addr.list_ f) 0; Ok (Span.begin (LocSpan.span ls)).

Definition new (id : Eid) : act Reader :=
  addr ← Storage.get_address id;
  c ← Storage.the Storage.crypto;
  size ← lift (Crypto.decrypted_len c FRAME_SIZE);
  addrs ← lift (Addr.divide_to_frames addr);
  k ← lift (first_block addrs 0);
  mret (mkReader addrs (Addr.len addr) 0 k size [] 0).

(** Reads the blocks of a frame one after another into the buffer [frame], of [FRAME_SIZE]. *)
Fixpoint read_spans (l : list LocSpan.LocSpan) (frame : bytes) : act bytes :=
  match l with
  | [] => mret frame
  | ls :: l =>
      n ← lift (Span.bytes_len (LocSpan.span ls));
      _ ← lift (rassert (zlen frame + n <=? FRAME_SIZE));
      b ← map_err io_err (Storage.on_depot (dp_get_blocks (LocSpan.span ls)));
      read_spans l (frame ++ b)
  end.

(** [copy_frame_out], to a buffer of length [n]: the bytes, and whether the frame is used up. *)
Definition copy_frame_out (r : Reader) (n : Z) (frame : bytes) : res (bytes * bool) :=
  _ ← rassert (negb (dec_size r =? 0));
  let begin := pos r mod dec_size r in
  left ← u_sub (zlen frame) begin;
  let copy_len := Z.min n left in
  out ← vslice frame begin (begin + copy_len);
  Ok (out, zlen frame <=? begin + copy_len).

(** The decrypted frame in the reader, read from the depot if it is in neither of the caches. *)
Definition load (r : Reader) : act bytes :=
  cache ← Storage.the Storage.frame_cache;
  if (dec_frame_len r =? 0) && negb (Lru.contains_key (K:=Z) (V:=bytes) (frm_key r) cache) then
    a ← lift (vindex (addrs r) (frm_idx r));
    frame ← read_spans (Addr.list_ a) [];
    ctxt ← lift (vslice frame 0 (Addr.len a));
    c ← Storage.the Storage.crypto; k ← Storage.the Storage.key;
    dec ← map_err io_other (lift (Crypto.decrypt_to c ctxt k));
    if ent_len r <? Storage.FRAME_CACHE_THRESHOLD then
      cache ← Storage.the Storage.frame_cache;
      '(_, cache) ← lift (Lru.insert (K:=Z) (V:=bytes) (frm_key r) dec cache);
      _ ← Storage.set_frames cache;
      mret dec
    else mret dec
  else mret (dec_frame r).

(** The frame to copy from: the cached one, if the entity is not too big. *)
Definition current (r : Reader) (dec : bytes) : act bytes :=
  if ent_len r <? Storage.FRAME_CACHE_THRESHOLD then
    cache ← Storage.the Storage.frame_cache;
    let '(o, cache) := Lru.get_refresh (K:=Z) (V:=bytes) (frm_key r) cache in
    _ ← Storage.set_frames cache;
    lift (unwrap o)
  else mret dec.

(** [read] into a buffer of length [n]. *)
Definition read (r : Reader) (n : Z) : act (bytes * Reader) :=
  if (zlen (addrs r) <=? frm_idx r) || (n =? 0) then mret ([], r)
  else
    dec ← load r;
    frame ← current r dec;
    '(out, exhausted) ← lift (copy_frame_out r n frame);
    let pos := pos r + zlen out in
    if exhausted : bool then
      let i := frm_idx r + 1 in
      k ← (if i <? zlen (addrs r) then lift (first_block (addrs r) i) else mret (frm_key r));
      mret (out, mkReader (addrs r) (ent_len r) i k (dec_size r) [] pos)
    else mret (out, mkReader (addrs r) (ent_len r) (frm_idx r) (frm_key r) (dec_size r) dec pos).
End reader.
End Reader.

Module Writer.
Record Writer := mkWriter {
  id : Eid; addr : Addr.Addr;
  stg_size : Z;        (* the length of the buffer [stg] *)
  stg : bytes          (* its first [stg_len] bytes *)
}.

Section writer.
Context `{!Sodium, !AddrSerde} {D R FM AM : Type} `{!Storable D, !Random R}.
Context `{!LinkedMapOps Z bytes FM, !LinkedMapOps Eid Addr.Addr AM}.
Abbreviation act := (run (Storage.St D R FM AM)).

Definition new (i : Eid) : act Writer :=
  c ← Storage.the Storage.crypto;
  size ← lift (Crypto.decrypted_len c FRAME_SIZE);
  mret (mkWriter i Addr.default_addr size []).

(** Encrypts what is staged to a frame, pads it with random bytes and writes it to new blocks.
    A writer whose call has failed is not used again. *)
Definition write_frame (w : Writer) : act Writer :=
  if zlen (stg w) =? 0 then mret w
  else
    c ← Storage.the Storage.crypto; k ← Storage.the Storage.key;
    nonce ← Storage.draw Crypto.AES_NONCE_SIZE;
    enc ← lift (Crypto.encrypt_to c nonce (stg w) k);
    blk_cnt ← lift (Utils.align_ceil_chunk (zlen enc) BLK_SIZE);
    aligned_len ← lift (u_mul blk_cnt BLK_SIZE);
    _ ← lift (rassert (aligned_len <=? FRAME_SIZE));
    pad ← Storage.draw (aligned_len - zlen enc);
    al ← Storage.the Storage.allocator;
    '(al, span) ← lift (Allocator.allocate al blk_cnt);
    _ ← Storage.set_allocator al;
    _ ← Storage.on_depot (dp_put_blocks span (enc ++ pad));
    a ← lift (Addr.append (addr w) span (zlen enc));
    mret (mkWriter (id w) a (stg_size w) []).

Definition write (w : Writer) (b : bytes) : act (Z * Writer) :=
  room ← lift (u_sub (stg_size w) (zlen (stg w)));
  let copy_len := Z.min room (zlen b) in
  let w := mkWriter (id w) (addr w) (stg_size w) (stg w ++ ztake copy_len b) in
  w ← (if stg_size w <=? zlen (stg w) then map_err io_other (write_frame w) else mret w);
  mret (copy_len, w).

Definition finish (w : Writer) : act unit :=
  w ← write_frame w;
  r ← attempt (Storage.get_address (id w));
  _ ← match r with
      | Ok old => Storage.remove_address_blocks old
      | Err NotFound => mret ()
      | Err e => fail e
      | Panic => lift Panic
      end;
  Storage.put_address (id w) (addr w).
End writer.
End Writer.
