(* ===== verification/StorageProofs.v ===== *)
(** * The contract of a depot, and what a storage keeps of its entities. *)
From S2P Require Import Prelude Run Base Address Crypto Armor Storage.

(** ** Caches *)

Section lru.
Context {K V M : Type} `{EqDecision K, !LinkedMapOps K V M, !LinkedMap K V M, !Meter V, !Pinnable V}.
Implicit Types (c : Lru.Lru M) (k : K) (v : V).

Context (measure_nonneg : ∀ v : V, 0 ≤ measure v) (unpinned : ∀ v : V, is_pinned v = false).

(** The items are of size 1 to [B], and no more than fit if all had size 1, but for one. *)
Definition lru_fits (B cap : Z) c : Prop :=
  Lru.lru_ok c ∧ Lru.capacity c = cap ∧ zlen (lm_entries (Lru.map c)) ≤ cap + 1 ∧
  ∀ k v, lm_get k (Lru.map c) = Some v → 1 ≤ measure v ≤ B.

Lemma lru_fits_new B cap : 0 ≤ cap → lru_fits B cap (Lru.new cap).
Proof.
  intros Hc. unfold lru_fits, Lru.lru_ok, Lru.total, Lru.new. cbn [Lru.map Lru.used Lru.capacity].
  assert (He : lm_entries (lm_new : M) = []) by apply lm_entries_new.
  rewrite !He. rewrite (zlen_nil (A:=K*V)). split; [done|]. split; [done|]. split; [lia|]. intros k v. by rewrite lm_get_new.
Qed.

Lemma total_bounds B (l : list (K * V)) :
  (∀ k v, (k, v) ∈ l → 1 ≤ measure v ≤ B) → zlen l ≤ zsum (λ kv, measure kv.2) l ≤ zlen l * B.
Proof.
  induction l as [|[k v] l IH]; intros Hl; [rewrite zlen_nil; simpl; lia|]. rewrite zlen_cons, zsum_cons. cbn [snd].
  specialize (Hl k v (list_elem_of_here _ _)) as Hv.
  assert (zlen l ≤ zsum (λ kv, measure kv.2) l ≤ zlen l * B); [|lia].
  apply IH. intros k' v' Hin. apply (Hl k' v'). by right.
Qed.

Lemma lru_fits_refresh B cap k c : lru_fits B cap c → lru_fits B cap (Lru.get_refresh k c).2.
Proof.
  intros (Hok & Hc & Hn & Hm). pose proof (Lru.get_refresh_ok k c Hok) as Hok'.
  unfold Lru.get_refresh in *. pose proof (lm_entries_get_refresh k (Lru.map c)) as He.
  pose proof (λ k', lm_get_get_refresh k' k (Lru.map c)) as Hg.
  destruct (lm_get_refresh k (Lru.map c)) as [o m]. cbn [snd Lru.map Lru.capacity] in *.
  split; [done|]. split; [done|]. split; [|intros k' v; by rewrite Hg; apply Hm].
  simpl. rewrite He. destruct (assoc k _) eqn:Ha; [|done]. rewrite zlen_snoc.
  rewrite length_assoc_del, Ha by apply lm_entries_nodup. lia.
Qed.

Lemma lru_get_refresh k k' c : lm_get k' (Lru.map (Lru.get_refresh k c).2) = lm_get k' (Lru.map c).
Proof.
  unfold Lru.get_refresh. pose proof (lm_get_get_refresh k' k (Lru.map c)) as Hg.
  by destruct (lm_get_refresh k (Lru.map c)).
Qed.
Lemma lru_refresh_val k c : (Lru.get_refresh k c).1 = lm_get k (Lru.map c).
Proof.
  unfold Lru.get_refresh. pose proof (lm_get_refresh_val k (Lru.map c)) as Hg.
  by destruct (lm_get_refresh k (Lru.map c)).
Qed.
Lemma lru_remove k k' c :
  lm_get k' (Lru.map (Lru.remove k c).2) = if decide (k' = k) then None else lm_get k' (Lru.map c).
Proof.
  unfold Lru.remove. pose proof (lm_get_remove k' k (Lru.map c)) as Hg.
  by destruct (lm_remove k (Lru.map c)) as [[v|] m].
Qed.

Lemma zlen_assoc_del (l : list (K * V)) k : zlen (assoc_del k l) ≤ zlen l.
Proof. unfold assoc_del, zlen. pose proof (length_filter (λ kv : K * V, kv.1 ≠ k) l). lia. Qed.

Lemma lru_fits_remove B cap k c : lru_fits B cap c → lru_fits B cap (Lru.remove k c).2.
Proof.
  intros (Hok & Hc & Hn & Hm). split; [by apply Lru.remove_ok|].
  assert (He : Lru.capacity (Lru.remove k c).2 = Lru.capacity c ∧
    lm_entries (Lru.map (Lru.remove k c).2) = assoc_del k (lm_entries (Lru.map c))).
  { unfold Lru.remove. pose proof (lm_entries_remove k (Lru.map c)) as He.
    by destruct (lm_remove k (Lru.map c)) as [[v|] m]. }
  destruct He as [-> ->]. split; [done|]. split; [pose proof (zlen_assoc_del (lm_entries (Lru.map c)) k); lia|].
  intros k' v. rewrite lru_remove. case_decide; [done|]. apply Hm.
Qed.

Lemma filter_unpinned (l : list (K * V)) : filter (λ kv : K * V, is_pinned kv.2 = false) l = l.
Proof. induction l as [|kv l IH]; [done|]. by rewrite filter_cons_True, IH by apply unpinned. Qed.

(** Inserting may drop one other item. *)
Lemma lru_fits_insert B cap k v c :
  lru_fits B cap c → 0 < cap → 1 ≤ measure v ≤ B → measure v ≤ cap → (cap + 2) * B < 2 ^ 62 →
  ∃ c', Lru.insert k v c = Ok (lm_get k (Lru.map c), c') ∧ lru_fits B cap c' ∧
    lm_get k (Lru.map c') = Some v ∧
    ∀ k' v', lm_get k' (Lru.map c') = Some v' → (k' = k ∧ v' = v) ∨ lm_get k' (Lru.map c) = Some v'.
Proof.
  intros (Hok & Hcap & Hn & Hm) Hpos Hv Hvc Hbig.
  assert (Htot : zlen (lm_entries (Lru.map c)) ≤ Lru.total (Lru.map c) ≤ zlen (lm_entries (Lru.map c)) * B).
  { apply total_bounds. intros k' v' Hin. apply (Hm k' v'). by apply lm_get_elem. }
  destruct (Lru.insert_unfold measure_nonneg k v c) as [Hok' Hins]; [lia|done|nia|].
  rewrite Hins. set (m := (lm_insert k v (Lru.map c)).2) in *.
  set (c1 := Lru.mkLru (Lru.capacity c) (Lru.total m) m) in *.
  assert (He1 : lm_entries m = assoc_del k (lm_entries (Lru.map c)) ++ [(k, v)]) by apply lm_entries_insert.
  assert (Hg1 : ∀ k', lm_get k' m = if decide (k' = k) then Some v else lm_get k' (Lru.map c))
    by (intros; apply lm_get_insert).
  assert (Hm1 : ∀ k' v', lm_get k' m = Some v' → 1 ≤ measure v' ≤ B).
  { intros k' v'. rewrite Hg1. case_decide; [intros [= <-]; lia|apply Hm]. }
  assert (Htot1 : zlen (lm_entries m) ≤ Lru.total m).
  { apply (total_bounds B). intros k' v' Hin. apply (Hm1 k' v'). by apply lm_get_elem. }
  change (Lru.used c1) with (Lru.total m) in *. eexists. split; [done|]. destruct (Lru.capacity c <? Lru.total m) eqn:Hfull; zify_b.
  - (* the oldest item goes *)
    assert (Hhead : ∃ k0 v0, Lru.first_unpinned m = Some (k0, v0) ∧ k0 ≠ k).
    { unfold Lru.first_unpinned. rewrite He1. set (es := assoc_del k _) in *.
      assert (Hf : filter (λ kv : K * V, is_pinned kv.2 = false) (es ++ [(k, v)]) = es ++ [(k, v)]).
      { apply filter_unpinned. }
      rewrite Hf. destruct es as [|[k0 v0] es'] eqn:Hes.
      - exfalso. unfold Lru.total in Hfull. rewrite He1 in Hfull. simpl in Hfull. lia.
      - exists k0, v0. split; [done|]. intros ->.
        assert (Hin : (k, v0) ∈ assoc_del k (lm_entries (Lru.map c))) by (fold es; rewrite Hes; left).
        unfold assoc_del in Hin. apply list_elem_of_filter in Hin as [Hne _]. by apply Hne. }
    destruct Hhead as (k0 & v0 & Hfst & Hk0). destruct (Lru.first_unpinned_get _ _ _ Hfst) as [Hg0 _].
    assert (Hr : ∀ k', lm_get k' (Lru.map (Lru.remove_lru c1).2) = if decide (k' = k0) then None else lm_get k' m).
    { intros k'. unfold Lru.remove_lru. cbn [Lru.map c1]. rewrite Hfst. cbn [snd Lru.map]. apply lm_get_remove. }
    assert (Hre : lm_entries (Lru.map (Lru.remove_lru c1).2) = assoc_del k0 (lm_entries m) ∧
      Lru.capacity (Lru.remove_lru c1).2 = Lru.capacity c).
    { unfold Lru.remove_lru. cbn [Lru.map c1]. rewrite Hfst. cbn [snd Lru.map]. by rewrite lm_entries_remove. }
    destruct Hre as [Hre Hrc].
    split; [split; [by apply Lru.remove_lru_ok|split; [congruence|split]]|split].
    + rewrite Hre, length_assoc_del by apply lm_entries_nodup. unfold lm_get in Hg0. rewrite Hg0.
      rewrite He1, zlen_snoc. pose proof (zlen_assoc_del (lm_entries (Lru.map c)) k). lia.
    + intros k' v'. rewrite Hr. case_decide; [done|apply Hm1].
    + rewrite Hr, decide_False by congruence. by rewrite Hg1, decide_True.
    + intros k' v'. rewrite Hr. case_decide; [done|]. rewrite Hg1. case_decide; [intros [= <-]; by left|by right].
  - split; [split; [done|split; [done|split]]|split].
    + cbn [Lru.map c1]. lia.
    + exact Hm1.
    + cbn [Lru.map c1]. by rewrite Hg1, decide_True.
    + intros k' v'. cbn [Lru.map c1]. rewrite Hg1. case_decide; [intros [= <-]; by left|by right].
Qed.
End lru.

(** ** The contract of a depot *)

(** The bytes of blocks, one after another. *)
Definition blocks_bytes (m : gmap Z bytes) (bl : list Z) : option bytes := @concat Z <$> mapM (λ b, m !! b) bl.

(** [steady] as for volumes (Armor.v). A write that fails or stops may have been made in part:
    of blocks any part, of a log or an address all or nothing. *)
Class StorableLaws (D : Type) `{!Storable D} := {
  dp_blks : D → gmap Z bytes;
  dp_addrs : D → gmap Eid bytes;
  dp_wals : D → gmap Eid bytes;
  dp_steady : D → Prop;
  (* the depot has come to hold these *)
  dp_has B A L (d d' : D) := dp_blks d' = B ∧ dp_addrs d' = A ∧ dp_wals d' = L ∧ (dp_steady d → dp_steady d');
  dp_same (d d' : D) := dp_has (dp_blks d) (dp_addrs d) (dp_wals d) d d';
  dp_blks_within bl (d d' : D) := ∃ B, dp_has B (dp_addrs d) (dp_wals d) d d' ∧ ∀ b, b ∉ bl → B !! b = dp_blks d !! b;
  (* the log [id] alone may have changed: nothing is said of what a write that breaks off leaves *)
  dp_wal_within id (d d' : D) := ∃ L, dp_has (dp_blks d) (dp_addrs d) L d d' ∧ ∀ i, i ≠ id → L !! i = dp_wals d !! i;
  dp_block_size d b x : dp_blks d !! b = Some x → zlen x = BLK_SIZE;
  get_wal_law id d : spec (dp_get_wal id) d (λ x d', dp_wals d !! id = Some x ∧ dp_same d d')
    (λ e d', dp_same d d' ∧ ((e = NotFound ∧ dp_wals d !! id = None) ∨ (e ≠ NotFound ∧ ¬ dp_steady d)))
    (λ d', dp_same d d' ∧ ¬ dp_steady d);
  put_wal_law id x d : let m := <[id := x]> (dp_wals d) in
    spec (dp_put_wal id x) d (λ _ d', dp_has (dp_blks d) (dp_addrs d) m d d')
      (λ _ d', dp_wal_within id d d' ∧ ¬ dp_steady d)
      (λ d', dp_wal_within id d d' ∧ ¬ dp_steady d);
  del_wal_law id d : let m := delete id (dp_wals d) in
    spec (dp_del_wal id) d (λ _ d', dp_has (dp_blks d) (dp_addrs d) m d d')
      (λ _ d', dp_wal_within id d d' ∧ ¬ dp_steady d)
      (λ d', dp_wal_within id d d' ∧ ¬ dp_steady d);
  get_address_law id d : spec (dp_get_address id) d (λ x d', dp_addrs d !! id = Some x ∧ dp_same d d')
    (λ e d', dp_same d d' ∧ ((e = NotFound ∧ dp_addrs d !! id = None) ∨ (e ≠ NotFound ∧ ¬ dp_steady d)))
    (λ d', dp_same d d' ∧ ¬ dp_steady d);
  put_address_law id x d : let m := <[id := x]> (dp_addrs d) in
    spec (dp_put_address id x) d (λ _ d', dp_has (dp_blks d) m (dp_wals d) d d')
      (λ _ d', (dp_same d d' ∨ dp_has (dp_blks d) m (dp_wals d) d d') ∧ ¬ dp_steady d)
      (λ d', (dp_same d d' ∨ dp_has (dp_blks d) m (dp_wals d) d d') ∧ ¬ dp_steady d);
  del_address_law id d : let m := delete id (dp_addrs d) in
    spec (dp_del_address id) d (λ _ d', dp_has (dp_blks d) m (dp_wals d) d d')
      (λ _ d', (dp_same d d' ∨ dp_has (dp_blks d) m (dp_wals d) d d') ∧ ¬ dp_steady d)
      (λ d', (dp_same d d' ∨ dp_has (dp_blks d) m (dp_wals d) d d') ∧ ¬ dp_steady d);
  get_blocks_law s d : Span.span_ok s → Span.cnt s * BLK_SIZE < U64 → spec (dp_get_blocks s) d
    (λ x d', blocks_bytes (dp_blks d) (Span.blocks s) = Some x ∧ dp_same d d')
    (λ e d', dp_same d d' ∧ ((e = NotFound ∧ blocks_bytes (dp_blks d) (Span.blocks s) = None) ∨
       (e ≠ NotFound ∧ ¬ dp_steady d)))
    (λ d', dp_same d d' ∧ ¬ dp_steady d);
  put_blocks_law s x d : Span.span_ok s → Span.cnt s * BLK_SIZE < U64 → zlen x = Span.cnt s * BLK_SIZE → spec (dp_put_blocks s x) d
    (λ _ d', dp_blks_within (Span.blocks s) d d' ∧ blocks_bytes (dp_blks d') (Span.blocks s) = Some x)
    (λ _ d', dp_blks_within (Span.blocks s) d d' ∧ ¬ dp_steady d)
    (λ d', dp_blks_within (Span.blocks s) d d' ∧ ¬ dp_steady d);
  del_blocks_law s d : Span.span_ok s → spec (dp_del_blocks s) d
    (λ _ d', dp_blks_within (Span.blocks s) d d' ∧ ∀ b, b ∈ Span.blocks s → dp_blks d' !! b = None)
    (λ _ d', dp_blks_within (Span.blocks s) d d' ∧ ¬ dp_steady d)
    (λ d', dp_blks_within (Span.blocks s) d d' ∧ ¬ dp_steady d);
  dp_flush_law d : spec dp_flush d (λ _ d', dp_same d d') (λ _ d', dp_same d d' ∧ ¬ dp_steady d)
    (λ d', dp_same d d' ∧ ¬ dp_steady d)
}.
#[export] Hint Mode StorableLaws ! - : typeclass_instances.

Lemma blocks_bytes_app m l1 l2 x :
  blocks_bytes m (l1 ++ l2) = Some x ↔
  ∃ x1 x2, x = x1 ++ x2 ∧ blocks_bytes m l1 = Some x1 ∧ blocks_bytes m l2 = Some x2.
Proof.
  unfold blocks_bytes. rewrite fmap_Some. setoid_rewrite mapM_Some. split.
  - intros (xs & (xs1 & xs2 & H1 & H2 & ->)%Forall2_app_inv_l & ->). exists (concat xs1), (concat xs2).
    rewrite concat_app. split; [done|]. by split; apply fmap_Some; eexists; (split; [apply mapM_Some|]).
  - intros (x1 & x2 & -> & (xs1 & H1%mapM_Some & ->)%fmap_Some & (xs2 & H2%mapM_Some & ->)%fmap_Some).
    exists (xs1 ++ xs2). split; [by apply Forall2_app|by rewrite concat_app].
Qed.

Lemma blocks_bytes_ext (m m' : gmap Z bytes) bl :
  (∀ b, b ∈ bl → m' !! b = m !! b) → blocks_bytes m' bl = blocks_bytes m bl.
Proof.
  intros Hm. unfold blocks_bytes. f_equal. induction bl as [|b bl IH]; [done|].
  cbn [mapM]. rewrite Hm by by left. by rewrite IH by (intros; apply Hm; by right).
Qed.

Lemma blocks_bytes_length `{StorableLaws D} (d : D) bl x :
  blocks_bytes (dp_blks d) bl = Some x → zlen x = zlen bl * BLK_SIZE.
Proof.
  unfold blocks_bytes. intros (xs & Hx%mapM_Some & ->)%fmap_Some. induction Hx as [|b x bl xs Hb _ IH]; [done|].
  apply dp_block_size in Hb. cbn [concat]. rewrite zlen_app, zlen_cons. lia.
Qed.

(** ** Frames *)

(** A frame: its blocks and its length in bytes. *)
Definition frame_full (f : list Z * Z) : Prop := zlen f.1 = BLKS_PER_FRAME ∧ f.2 = FRAME_SIZE.

(** The frames of an entity whose blocks are [bl] and whose length is [n]. *)
Definition framing (bl : list Z) (n : Z) (fs : list (list Z * Z)) : Prop :=
  concat fs.*1 = bl ∧ zsum snd fs = n ∧
  ∃ init lst, fs = init ++ [lst] ∧ Forall frame_full init ∧
    0 < zlen lst.1 ≤ BLKS_PER_FRAME ∧ BLK_SIZE * (zlen lst.1 - 1) < lst.2 ≤ BLK_SIZE * zlen lst.1.

Lemma framing_cons bl n f fs :
  framing bl n (f :: fs) → (fs = [] ∧ f = (bl, n) ∧ 0 < zlen bl ≤ BLKS_PER_FRAME) ∨
    (frame_full f ∧ ∃ bl', bl = f.1 ++ bl' ∧ 0 < zlen bl' ∧ framing bl' (n - FRAME_SIZE) fs).
Proof.
  intros (Hb & Hn & init & lst & Hfs & Hi & Hl & Hr). destruct init as [|f' init]; simpl in Hfs; simplify_eq.
  - left. simpl. rewrite app_nil_r, Z.add_0_r. by destruct lst.
  - right. apply Forall_cons in Hi as [Hf Hi]. split; [done|]. exists (concat (init ++ [lst]).*1).
    split; [done|]. split.
    + rewrite fmap_app, concat_app, zlen_app. simpl. rewrite app_nil_r. pose proof (zlen_nonneg (concat init.*1)). lia.
    + split; [done|]. split; [|by exists init, lst]. rewrite zsum_cons. destruct Hf as [_ ->]. lia.
Qed.

Lemma framing_unique bl n fs fs' : framing bl n fs → framing bl n fs' → fs = fs'.
Proof.
  revert bl n fs'. induction fs as [|f fs IH]; intros bl n fs' H1 H2.
  { destruct H1 as (_ & _ & init & lst & Hf & _). by destruct init. }
  destruct fs' as [|f' fs'].
  { destruct H2 as (_ & _ & init & lst & Hf & _). by destruct init. }
  apply framing_cons in H1 as [(-> & -> & Hl)|([Hf1 Hf2] & bl1 & -> & Hp & H1)],
    H2 as [(-> & -> & Hl')|([Hf1' Hf2'] & bl2 & Hb & Hp' & H2)].
  - done.
  - subst bl. rewrite zlen_app in Hl. lia.
  - rewrite zlen_app in Hl'. lia.
  - destruct f as [b1 n1], f' as [b2 n2]. cbn [fst snd] in *. subst n1 n2.
    assert (b1 = b2 ∧ bl1 = bl2) as [-> ->].
    { apply app_inj_1; [|done]. unfold zlen in *. lia. }
    f_equal. by eapply IH.
Qed.

Lemma framing_size bl n fs : framing bl n fs → BLK_SIZE * (zlen bl - 1) < n ≤ BLK_SIZE * zlen bl.
Proof.
  intros (<- & <- & init & lst & -> & Hi & Hl & Hr). rewrite fmap_app, concat_app, zsum_app, zlen_app. simpl. rewrite app_nil_r.
  assert (zsum snd init = BLK_SIZE * zlen (concat init.*1)); [|lia].
  clear -Hi. induction Hi as [|f fs [Hf1 Hf2] _ IH]; [done|].
  rewrite fmap_cons, concat_cons, zlen_app, zsum_cons, IH, Hf1, Hf2. unfold FRAME_SIZE. lia.
Qed.

(** [divide_to_frames] gives the frames of the address, made of well-formed spans. *)
Lemma zlen_spans_ge l : Addr.blk_total l ≤ zlen (concat ((λ l, Span.blocks (LocSpan.span l)) <$> l)).
Proof.
  induction l as [|s l IH]; [done|]. rewrite fmap_cons, concat_cons, zlen_app. unfold Addr.blk_total in *.
  rewrite zsum_cons. enough (Span.cnt (LocSpan.span s) ≤ zlen (Span.blocks (LocSpan.span s))) by lia.
  unfold Span.blocks, zlen. rewrite length_seqZ. lia.
Qed.

Lemma addr_blocks_len a : Addr.spans_ok (Addr.list_ a) → zlen (Addr.blocks a) = Addr.blk_total (Addr.list_ a).
Proof.
  intros [HF _]. unfold Addr.blocks. induction HF as [|s l [Hs Hc] _ IH]; [done|].
  rewrite fmap_cons, concat_cons, zlen_app, IH. unfold Addr.blk_total. rewrite zsum_cons.
  rewrite Span.zlen_blocks by lia. done.
Qed.

Lemma divide_framing a frames :
  Addr.addr_ok a → AddrProofs.frames_ok a frames →
  framing (Addr.blocks a) (Addr.len a) ((λ f, (Addr.blocks f, Addr.len f)) <$> frames).
Proof.
  intros Ha (done & cur & -> & Hd & Hc & Hl & Hs & Hb & _).
  pose proof (addr_blocks_len a (proj1 Ha)) as Htot. destruct Ha as [_ Hlen].
  rewrite zsum_app, AddrProofs.zsum_full_len in Hs by done. simpl in Hs.
  (* no span is shorter than its blocks, and there are as many blocks in all *)
  assert (Heq : Forall (λ f, zlen (Addr.blocks f) = Addr.blk_total (Addr.list_ f)) (done ++ [cur])).
  { assert (Hge : ∀ fs : list Addr.Addr, zsum (λ f, Addr.blk_total (Addr.list_ f)) fs ≤ zlen (concat (Addr.blocks <$> fs)) ∧
      (zsum (λ f, Addr.blk_total (Addr.list_ f)) fs = zlen (concat (Addr.blocks <$> fs)) →
       Forall (λ f, zlen (Addr.blocks f) = Addr.blk_total (Addr.list_ f)) fs)).
    { induction fs as [|f fs [IH1 IH2]]; [done|]. rewrite fmap_cons, concat_cons, zlen_app, zsum_cons.
      pose proof (zlen_spans_ge (Addr.list_ f)) as Hf. fold (Addr.blocks f) in Hf. split; [lia|].
      intros Heq. apply Forall_cons. split; [lia|]. apply IH2. lia. }
    apply Hge. rewrite Hb, Htot, zsum_app. simpl.
    assert (Hdn : zsum (λ f, Addr.blk_total (Addr.list_ f)) done = BLKS_PER_FRAME * zlen done).
    { clear -Hd. induction Hd as [|f fs [_ Hf] _ IH]; [done|]. rewrite zlen_cons, zsum_cons, IH, Hf. lia. }
    rewrite Hdn. unfold FRAME_SIZE, BLKS_PER_FRAME, BLK_SIZE in *. nia. }
  apply Forall_app in Heq as [Heq1 [Heq2 _]%Forall_cons].
  split; [by rewrite <- Hb, <- list_fmap_compose|]. split.
  { rewrite fmap_app, zsum_app. simpl. enough (zsum snd ((λ f, (Addr.blocks f, Addr.len f)) <$> done) = zsum Addr.len done) as ->.
    - rewrite AddrProofs.zsum_full_len by done. lia.
    - clear. induction done as [|f fs IH]; [done|]. by rewrite fmap_cons, !zsum_cons, IH. }
  eexists _, _. rewrite fmap_app. split; [done|]. cbn [fst snd]. rewrite Heq2. split; [|done].
  apply Forall_fmap, Forall_forall. intros f Hf. rewrite Forall_forall in Hd, Heq1.
  destruct (Hd f Hf) as [H1 H2]. split; [|done]. cbn [compose fst]. rewrite Heq1 by done. exact H2.
Qed.

(** ** What a storage keeps *)

Section inv.
Context `{!Sodium, !SodiumLaws, !AddrSerde, !AddrSerdeLaws}.
Context {D R FM AM : Type} `{!Storable D, !StorableLaws D, !Random R, !RandomLaws R}.
Context `{!LinkedMapOps Z bytes FM, !LinkedMap Z bytes FM, !LinkedMapOps Eid Addr.Addr AM, !LinkedMap Eid Addr.Addr AM}.
Context (cr : Crypto.Crypto) (ky : bytes).
Abbreviation St := (Storage.St D R FM AM).
Abbreviation Storage := (Storage.Storage FM AM).
Implicit Types (s : St) (st : Storage) (d : D) (own : Z → option Eid) (M : gmap Eid bytes) (U : gset Eid).
Implicit Types (id : Eid) (a : Addr.Addr) (b k : Z) (p data : bytes).

(** The plain bytes of a full frame. *)
Definition dlen : Z := FRAME_SIZE - Crypto.overhead cr.
Lemma dlen_range : 131028 ≤ dlen ≤ 131032.
Proof. unfold dlen. pose proof (Crypto.overhead_range cr). unfold FRAME_SIZE, BLKS_PER_FRAME, BLK_SIZE. lia. Qed.

(** An address of the entity: its blocks, all different, are the entity's own. *)
Definition owned own id a : Prop :=
  Addr.addr_ok a ∧ Addr.list_ a ≠ [] ∧ NoDup (Addr.blocks a) ∧ ∀ b, b ∈ Addr.blocks a → own b = Some id.
(** The address that the depot has for the entity. *)
Definition address d id a : Prop :=
  ∃ x, dp_addrs d !! id = Some x ∧ Crypto.decrypt cr x ky = Ok (addr_ser a).
Definition frame_data (B : gmap Z bytes) (f : list Z * Z) p : Prop :=
  ∃ x, blocks_bytes B f.1 = Some x ∧ Crypto.decrypt_to cr (ztake f.2 x) ky = Ok p.
(** Plain frames: full but for the last. *)
Definition pieces_ok (ps : list bytes) : Prop :=
  ∃ init lst, ps = init ++ [lst] ∧ Forall (λ p, zlen p = dlen) init ∧ 0 < zlen lst ≤ dlen.
Definition entity (B : gmap Z bytes) a data : Prop :=
  ∃ fs ps, framing (Addr.blocks a) (Addr.len a) fs ∧ Forall2 (frame_data B) fs ps ∧ pieces_ok ps ∧ concat ps = data.

(** What a cached frame holds; frames of large entities are not cached. *)
Definition cached_ok (B : gmap Z bytes) a (f : list Z * Z) p : Prop :=
  frame_data B f p ∧ Addr.len a < Storage.FRAME_CACHE_THRESHOLD.

(** The storage holds the entities [M]; of the ids in [U], which a call that failed has
    touched, it holds anything. [own] says which entity a block was allocated for: entities
    never share blocks. *)
Record store_ok st d own M U : Prop := {
  so_crypto : Storage.crypto st = cr;
  so_key : Storage.key st = ky;
  so_own b i : own b = Some i → 0 ≤ b < Allocator.blk_wmark (Storage.allocator st);
  so_wmark : 0 ≤ Allocator.blk_wmark (Storage.allocator st);
  so_addr id x : dp_addrs d !! id = Some x → ∃ a, Crypto.decrypt cr x ky = Ok (addr_ser a) ∧ owned own id a;
  so_cached id a : lm_get id (Lru.map (Storage.addr_cache st)) = Some a → owned own id a ∧ (id ∉ U → address d id a);
  so_view id : id ∉ U →
    match M !! id with
    | Some data => ∃ a, address d id a ∧ entity (dp_blks d) a data
    | None => dp_addrs d !! id = None
    end;
  so_frames k p : lm_get k (Lru.map (Storage.frame_cache st)) = Some p → ∃ i, own k = Some i ∧
    (i ∉ U → ∀ a fs f, address d i a → framing (Addr.blocks a) (Addr.len a) fs → f ∈ fs →
       head f.1 = Some k → cached_ok (dp_blks d) a f p);
  so_frames_fit : lru_fits (K:=Z) (V:=bytes) dlen Storage.FRAME_CACHE_SIZE (Storage.frame_cache st);
  so_addrs_fit : lru_fits (K:=Eid) (V:=Addr.Addr) 1 Storage.ADDRESS_CACHE_SIZE (Storage.addr_cache st)
}.
Definition st_ok s own M U : Prop := store_ok (Storage.sto s) (Storage.depot s) own M U.

Lemma address_inj d id a a' : address d id a → address d id a' → a = a'.
Proof.
  intros (x & Hx & Ha) (x' & Hx' & Ha'). assert (x = x') as <- by congruence.
  assert (addr_ser a = addr_ser a') as Heq by congruence.
  pose proof (addr_de_ser a) as H1'. rewrite Heq, addr_de_ser in H1'. by simplify_eq.
Qed.

Lemma dp_same_refl d : dp_same d d.
Proof. done. Qed.
Lemma dp_same_trans d1 d2 d3 : dp_same d1 d2 → dp_same d2 d3 → dp_same d1 d3.
Proof.
  intros (B1 & A1 & L1 & S1) (B2 & A2 & L2 & S2). unfold dp_same, dp_has. split_and!; try congruence. auto.
Qed.

Lemma store_ok_eq st d d' own M U :
  store_ok st d own M U → dp_blks d' = dp_blks d → dp_addrs d' = dp_addrs d → store_ok st d' own M U.
Proof. intros [] HB HA. unfold address in *. split; unfold address; rewrite ?HA, ?HB; try done. Qed.
Lemma store_ok_same st d d' own M U : store_ok st d own M U → dp_same d d' → store_ok st d' own M U.
Proof. intros Hs (HB & HA & _). by eapply store_ok_eq. Qed.

Lemma store_ok_addrs st d own M U c :
  store_ok st d own M U → lru_fits (K:=Eid) (V:=Addr.Addr) 1 Storage.ADDRESS_CACHE_SIZE c →
  (∀ id a, lm_get id (Lru.map c) = Some a → lm_get id (Lru.map (Storage.addr_cache st)) = Some a ∨
     (owned own id a ∧ (id ∉ U → address d id a))) →
  store_ok (Storage.mkStorage (Storage.allocator st) (Storage.crypto st) (Storage.key st) (Storage.frame_cache st) c) d own M U.
Proof.
  intros Hs Hf Hc. pose proof (so_cached _ _ _ _ _ Hs) as Hold. destruct Hs. split; try done.
  intros id a Ha. destruct (Hc id a Ha) as [Ho|]; [by apply Hold|done].
Qed.

Lemma store_ok_frames st d own M U c :
  store_ok st d own M U → lru_fits (K:=Z) (V:=bytes) dlen Storage.FRAME_CACHE_SIZE c →
  (∀ k p, lm_get k (Lru.map c) = Some p → lm_get k (Lru.map (Storage.frame_cache st)) = Some p ∨
     ∃ i, own k = Some i ∧
     (i ∉ U → ∀ a fs f, address d i a → framing (Addr.blocks a) (Addr.len a) fs → f ∈ fs →
        head f.1 = Some k → cached_ok (dp_blks d) a f p)) →
  store_ok (Storage.mkStorage (Storage.allocator st) (Storage.crypto st) (Storage.key st) c (Storage.addr_cache st)) d own M U.
Proof.
  intros Hs Hf Hc. pose proof (so_frames _ _ _ _ _ Hs) as Hold. destruct Hs. split; try done.
  intros k p Hp. destruct (Hc k p Hp) as [Ho|]; [by apply Hold|done].
Qed.

Lemma bytes_measure p : 0 ≤ measure p.
Proof. apply zlen_nonneg. Qed.
Lemma addr_measure a : 0 ≤ measure a.
Proof. done. Qed.
Lemma bytes_unpinned p : is_pinned p = false.
Proof. done. Qed.
Lemma addr_unpinned a : is_pinned a = false.
Proof. done. Qed.

Lemma on_depot_spec {T} (m : run D T) s (Q : T → St → Prop) E (F : St → Prop) :
  spec m (Storage.depot s) (λ r d, Q r (Storage.mkSt d (Storage.rng s) (Storage.sto s)))
    (λ e d, E e (Storage.mkSt d (Storage.rng s) (Storage.sto s)))
    (λ d, F (Storage.mkSt d (Storage.rng s) (Storage.sto s))) →
  spec (Storage.on_depot m) s Q E F.
Proof. intros HS. by apply spec_zoom. Qed.

(** Reading changes no more than caches. *)
Definition reads s s' own M U : Prop := st_ok s' own M U ∧ dp_same (Storage.depot s) (Storage.depot s').

Lemma reads_refl s own M U : st_ok s own M U → reads s s own M U.
Proof. by split. Qed.
Lemma reads_trans s1 s2 s3 own M U : reads s1 s2 own M U → reads s2 s3 own M U → reads s1 s3 own M U.
Proof. intros [_ Hd1] [Hok Hd2]. split; [done|]. by eapply dp_same_trans. Qed.

Lemma reads_depot s d own M U :
  st_ok s own M U → dp_same (Storage.depot s) d →
  reads s (Storage.mkSt d (Storage.rng s) (Storage.sto s)) own M U.
Proof. intros Hs Hd. split; [|done]. by eapply store_ok_same. Qed.

Lemma decrypt_spec s own M U x Q E F :
  st_ok s own M U → spec (lift (Crypto.decrypt cr x ky)) s Q E F → spec (Storage.decrypt x) s Q E F.
Proof.
  intros Hs. unfold Storage.decrypt, Storage.the, spec, mbind, run_bind, ask, lift. cbn.
  by rewrite (so_crypto _ _ _ _ _ Hs), (so_key _ _ _ _ _ Hs).
Qed.

Lemma cache_sizes : (Storage.FRAME_CACHE_SIZE + 2) * dlen < 2 ^ 62 ∧ (Storage.ADDRESS_CACHE_SIZE + 2) * 1 < 2 ^ 62 ∧
  dlen ≤ Storage.FRAME_CACHE_SIZE.
Proof. pose proof dlen_range. unfold Storage.FRAME_CACHE_SIZE, Storage.ADDRESS_CACHE_SIZE. lia. Qed.

(** Caching an address that is the entity's. *)
Lemma cache_addr st d own M U id a :
  store_ok st d own M U → owned own id a → (id ∉ U → address d id a) →
  ∃ o c, Lru.insert (K:=Eid) (V:=Addr.Addr) id a (Storage.addr_cache st) = Ok (o, c) ∧
    store_ok (Storage.mkStorage (Storage.allocator st) (Storage.crypto st) (Storage.key st) (Storage.frame_cache st) c) d own M U ∧
    lm_get id (Lru.map c) = Some a.
Proof.
  intros Hs Ho Ha.
  destruct (lru_fits_insert addr_measure addr_unpinned 1 Storage.ADDRESS_CACHE_SIZE id a
    (Storage.addr_cache st) (so_addrs_fit _ _ _ _ _ Hs)) as (c & -> & Hfit & Hnew & Hold);
    [done|by split|by vm_compute|done|].
  eexists _, c. split; [done|]. split; [|done]. apply store_ok_addrs; [done|done|].
  intros i a' Hi. apply Hold in Hi as [[-> ->]|Hi]; [by right|by left].
Qed.

Lemma get_address_spec s own M U id :
  st_ok s own M U →
  spec (Storage.get_address id) s
    (λ a s', reads s s' own M U ∧ owned own id a ∧ (id ∉ U → address (Storage.depot s) id a))
    (λ e s', reads s s' own M U ∧
       ((e = NotFound ∧ dp_addrs (Storage.depot s) !! id = None ∧
         lm_get id (Lru.map (Storage.addr_cache (Storage.sto s'))) = None) ∨
        (e ≠ NotFound ∧ ¬ dp_steady (Storage.depot s))))
    (λ s', reads s s' own M U ∧ ¬ dp_steady (Storage.depot s)).
Proof.
  intros Hs. unfold Storage.get_address. apply spec_bind, spec_ask.
  pose proof (lru_refresh_val id (Storage.addr_cache (Storage.sto s))) as Hval.
  pose proof (λ i, lru_get_refresh id i (Storage.addr_cache (Storage.sto s))) as Hget.
  pose proof (lru_fits_refresh 1 Storage.ADDRESS_CACHE_SIZE id _ (so_addrs_fit _ _ _ _ _ Hs)) as Hfit.
  destruct (Lru.get_refresh id (Storage.addr_cache (Storage.sto s))) as [o cache].
  cbn [fst snd] in *. apply spec_bind, spec_modify.
  match goal with |- spec _ ?s1 _ _ _ => set (s1' := s1) end.
  assert (Hr : reads s s1' own M U).
  { split; [|done]. apply store_ok_addrs; [done|done|]. intros i a Hi. left. by rewrite <- Hget. }
  destruct o as [a|].
  { apply spec_ret. split; [done|]. by apply (so_cached _ _ _ _ _ Hs). }
  apply spec_bind, on_depot_spec. change (Storage.depot s1') with (Storage.depot s).
  eapply spec_mono; [apply get_address_law| | |].
  - intros x d [Hx Hd]. apply spec_bind. eapply decrypt_spec; [eapply store_ok_same; [apply Hr|done]|].
    destruct (so_addr _ _ _ _ _ Hs id x Hx) as (a & Hdec & Ho). rewrite Hdec. apply spec_lift_ok.
    rewrite addr_de_ser. apply spec_bind, spec_lift_ok.
    assert (Hda : id ∉ U → address (Storage.depot s) id a) by (by exists x).
    destruct (cache_addr (Storage.sto s1') d own M U id a) as (o & c & Hins & Hok & _).
    { eapply store_ok_same; [apply Hr|done]. }
    { done. }
    { intros Hi. by exists x; rewrite (proj1 (proj2 Hd)). }
    apply spec_bind, spec_ask. cbn [Storage.sto]. rewrite Hins.
    apply spec_bind, spec_lift_ok, spec_bind, spec_modify, spec_ret. by split; [split|].
  - intros e d [Hd He]. split; [eapply reads_trans; [done|]; apply reads_depot; [apply Hr|done]|].
    destruct He as [[-> He]|He]; [left|by right]. split; [done|]. split; [done|]. by rewrite Hget.
  - intros d [Hd He]. split; [|done]. eapply reads_trans; [done|]. apply reads_depot; [apply Hr|done].
Qed.
(** Looking up an address leaves frames and allocator alone. *)
Definition quiet s s' : Prop := Storage.frame_cache (Storage.sto s') = Storage.frame_cache (Storage.sto s) ∧
  Storage.allocator (Storage.sto s') = Storage.allocator (Storage.sto s).
Lemma get_address_quiet s id : quiet s (Storage.get_address id s).2.
Proof.
  apply (spec_all (Storage.get_address id) s (λ _, quiet s) (λ _, quiet s) (quiet s)); [|done..].
  unfold Storage.get_address. apply spec_bind, spec_ask. destruct (Lru.get_refresh _ _) as [[a|] c]; [done|].
  apply spec_bind, spec_modify, spec_bind, on_depot_spec.
  unfold spec. destruct (dp_get_address id _) as [[[x|e|]|] d]; try done.
  unfold Storage.decrypt, Storage.the, mbind, run_bind, ask, lift. cbn.
  destruct (Crypto.decrypt _ _ _) as [y|e|]; try done. destruct (addr_de y) as [a|]; [|done]. cbn.
  by destruct (Lru.insert _ _ _) as [[o c']|e|].
Qed.

(** *** Changes of the depot *)

Lemma store_ok_dirty st d own M U (U' : gset Eid) : U ⊆ U' → store_ok st d own M U → store_ok st d own M U'.
Proof.
  intros HU []. split; try done.
  - intros id a Ha. destruct (so_cached0 id a Ha). split; [done|set_solver].
  - intros id Hid. apply so_view0. set_solver.
  - intros k p Hk. destruct (so_frames0 k p Hk) as (i & Hi & Hf). exists i. split; [done|]. set_solver.
Qed.

Lemma frame_data_ext (B B' : gmap Z bytes) f p :
  (∀ b, b ∈ f.1 → B' !! b = B !! b) → frame_data B f p → frame_data B' f p.
Proof. intros Hb (x & Hx & Hp). exists x. by rewrite (blocks_bytes_ext B B'). Qed.

Lemma framing_blocks bl n fs f : framing bl n fs → f ∈ fs → ∀ b, b ∈ f.1 → b ∈ bl.
Proof.
  intros (<- & _) Hf b Hb. apply list_elem_of_In, in_concat. exists f.1.
  split; apply list_elem_of_In; [by apply list_elem_of_fmap_2|done].
Qed.

Lemma entity_ext (B B' : gmap Z bytes) a data :
  (∀ b, b ∈ Addr.blocks a → B' !! b = B !! b) → entity B a data → entity B' a data.
Proof.
  intros Hb (fs & ps & Hf & Hd & Hp). exists fs, ps. split; [done|]. split; [|done].
  assert (Hin : ∀ f, f ∈ fs → ∀ b, b ∈ f.1 → B' !! b = B !! b) by (intros f Hin b Hbf; by eapply Hb, framing_blocks).
  clear -Hd Hin. induction Hd as [|f p fs ps Hfp _ IH]; constructor.
  - eapply frame_data_ext; [|done]. apply Hin. by left.
  - apply IH. intros f' Hf'. apply Hin. by right.
Qed.

(** Writing blocks that no entity has, or one that is dirty. *)
Lemma store_ok_blks st d d' own M U B :
  store_ok st d own M U → dp_has B (dp_addrs d) (dp_wals d) d d' →
  (∀ b i, own b = Some i → i ∉ U → B !! b = dp_blks d !! b) → store_ok st d' own M U.
Proof.
  intros Hs (HB & HA & _ & _) Hb. pose proof (so_addr _ _ _ _ _ Hs) as Haddr. destruct Hs.
  assert (Hown : ∀ i a, i ∉ U → address d i a → ∀ b, b ∈ Addr.blocks a → dp_blks d' !! b = dp_blks d !! b).
  { intros i a Hi (x & Hx & Hdec) b Hin. destruct (Haddr i x Hx) as (a' & Hdec' & (_ & _ & _ & Ho)).
    assert (a = a') as <- by (eapply (address_inj d i); by exists x). rewrite HB. eauto. }
  assert (Hadr : ∀ i a, address d' i a ↔ address d i a) by (intros i a; unfold address; by rewrite HA).
  split; try done.
  - by rewrite HA.
  - intros id a Ha. rewrite Hadr. by apply so_cached0.
  - intros id Hid. specialize (so_view0 id Hid). rewrite HA. destruct (M !! id); [|done].
    destruct so_view0 as (a & Ha & He). exists a. rewrite Hadr. split; [done|].
    eapply entity_ext; [|done]. by eapply Hown.
  - intros k p Hk. destruct (so_frames0 k p Hk) as (i & Hi & Hf). exists i. split; [done|].
    intros HiU a fs f Ha%Hadr Hfs Hin Hh. destruct (Hf HiU a fs f Ha Hfs Hin Hh) as [Hfd Hlt].
    split; [|done]. eapply frame_data_ext; [|done]. intros b Hbf. eapply Hown; [done..|]. by eapply framing_blocks.
Qed.

(** Changing the address of a dirty entity. *)
Lemma store_ok_addr st d d' own M U id A :
  store_ok st d own M U → dp_has (dp_blks d) A (dp_wals d) d d' → id ∈ U →
  (∀ i, i ≠ id → A !! i = dp_addrs d !! i) →
  (∀ x, A !! id = Some x → ∃ a, Crypto.decrypt cr x ky = Ok (addr_ser a) ∧ owned own id a) →
  store_ok st d' own M U.
Proof.
  intros Hs (HB & HA & _ & _) HU Hne Hx. destruct Hs.
  assert (Hadr : ∀ i a, i ∉ U → address d' i a ↔ address d i a).
  { intros i a Hi. unfold address. by rewrite HA, Hne by set_solver. }
  split; try done.
  - intros i x. rewrite HA. destruct (decide (i = id)) as [->|]; [apply Hx|]. rewrite Hne by done. apply so_addr0.
  - intros i a Ha. destruct (so_cached0 i a Ha) as [Ho Hd]. split; [done|]. intros Hi. by apply Hadr, Hd.
  - intros i Hi. specialize (so_view0 i Hi). rewrite HA, HB, Hne by set_solver. destruct (M !! i); [|done].
    destruct so_view0 as (a & Ha & He). exists a. by rewrite Hadr.
  - intros k p Hk. destruct (so_frames0 k p Hk) as (i & Hi & Hf). exists i. split; [done|].
    intros HiU a fs f Ha%Hadr; [|done]. rewrite HB. by apply Hf.
Qed.

(** Blocks newly allocated to an entity. *)
Lemma store_ok_own st d own own' M U al :
  store_ok st d own M U → (∀ b i, own b = Some i → own' b = Some i) →
  (∀ b i, own' b = Some i → 0 ≤ b < Allocator.blk_wmark al) → 0 ≤ Allocator.blk_wmark al →
  store_ok (Storage.mkStorage al (Storage.crypto st) (Storage.key st) (Storage.frame_cache st) (Storage.addr_cache st)) d own' M U.
Proof.
  intros [] Hsub Hw Hwn.
  assert (Ho : ∀ i a, owned own i a → owned own' i a) by (intros i a (? & ? & ? & ?); do 3 (split; [done|]); eauto).
  split; try done.
  - intros i x Hx. destruct (so_addr0 i x Hx) as (a & Ha & Hoa). eauto.
  - intros i a Ha. destruct (so_cached0 i a Ha). eauto.
  - intros k p Hk. destruct (so_frames0 k p Hk) as (i & Hi & Hf). exists i. eauto.
Qed.

(** A dirty entity that is known again. *)
Lemma store_ok_clean st d own M U id (o : option bytes) :
  store_ok st d own M U →
  (∀ a, lm_get id (Lru.map (Storage.addr_cache st)) = Some a → address d id a) →
  match o with
  | Some data => ∃ a, address d id a ∧ entity (dp_blks d) a data ∧
      ∀ b, b ∈ Addr.blocks a → lm_get b (Lru.map (Storage.frame_cache st)) = None
  | None => dp_addrs d !! id = None
  end →
  store_ok st d own (partial_alter (λ _, o) id M) (U ∖ {[id]}).
Proof.
  intros Hs Hc Ho. destruct Hs. split; try done.
  - intros i a Ha. destruct (so_cached0 i a Ha) as [Hoa Hd]. split; [done|]. intros Hi.
    destruct (decide (i = id)) as [->|]; [by apply Hc|]. apply Hd. set_solver.
  - intros i Hi. destruct (decide (i = id)) as [->|Hne].
    + rewrite lookup_partial_alter_eq. destruct o; [|done]. destruct Ho as (a & Ha & He & _). by exists a.
    + rewrite lookup_partial_alter_ne by done. apply so_view0. set_solver.
  - intros k p Hk. destruct (so_frames0 k p Hk) as (i & Hi & Hf). exists i. split; [done|].
    intros HiU a fs f Ha Hfs Hin Hh. destruct (decide (i = id)) as [->|Hne]; [|apply (Hf ltac:(set_solver) a fs); done].
    exfalso. destruct o as [data|].
    + destruct Ho as (a' & Ha' & _ & Hn). assert (a' = a) as -> by by eapply address_inj.
      assert (Hb : k ∈ Addr.blocks a).
      { eapply framing_blocks; [done..|]. destruct f as [[|k' bl] n]; [done|]. injection Hh as ->. left. }
      rewrite (Hn k Hb) in Hk. done.
    + destruct Ha as (x & Hx & _). congruence.
Qed.
(** *** Removing *)

(** What the calls that change an entity leave of the rest. *)
Definition keeps s s' : Prop :=
  dp_wals (Storage.depot s') = dp_wals (Storage.depot s) ∧ (dp_steady (Storage.depot s) → dp_steady (Storage.depot s')).
Lemma keeps_refl s : keeps s s.
Proof. done. Qed.
Lemma keeps_trans s1 s2 s3 : keeps s1 s2 → keeps s2 s3 → keeps s1 s3.
Proof. intros [HL1 HS1] [HL2 HS2]. split; [congruence|auto]. Qed.
Lemma reads_keeps s s' own M U : reads s s' own M U → keeps s s'.
Proof. intros (_ & _ & _ & HL & HS). by split. Qed.

Lemma drop_frames_fits fuel i b e (c : Lru.Lru FM) :
  lru_fits (K:=Z) (V:=bytes) dlen Storage.FRAME_CACHE_SIZE c →
  lru_fits (K:=Z) (V:=bytes) dlen Storage.FRAME_CACHE_SIZE (Storage.drop_frames fuel i b e c) ∧
  ∀ k p, lm_get k (Lru.map (Storage.drop_frames fuel i b e c)) = Some p → lm_get k (Lru.map c) = Some p.
Proof.
  revert i b c. induction fuel as [|fuel IH]; intros i b c Hc; cbn [Storage.drop_frames]; [done|].
  destruct (i <? e); [|done]. destruct (_ =? 0); [|by apply IH].
  destruct (IH (i + Z.min (e - i) (BLKS_PER_FRAME - i mod BLKS_PER_FRAME))
    (b + Z.min (e - i) (BLKS_PER_FRAME - i mod BLKS_PER_FRAME)) (Lru.remove (K:=Z) (V:=bytes) b c).2) as [Hf Hg];
    [by apply (lru_fits_remove bytes_measure)|]. split; [done|]. intros k p Hk%Hg. rewrite lru_remove in Hk. by case_decide.
Qed.

(** What removing the blocks of a dirty entity leaves. *)
Definition trims s s' own M U : Prop :=
  st_ok s' own M U ∧ keeps s s' ∧ dp_addrs (Storage.depot s') = dp_addrs (Storage.depot s) ∧
  Storage.addr_cache (Storage.sto s') = Storage.addr_cache (Storage.sto s) ∧
  Storage.allocator (Storage.sto s') = Storage.allocator (Storage.sto s) ∧
  (∀ b, own b = None → dp_blks (Storage.depot s') !! b = dp_blks (Storage.depot s) !! b) ∧
  ∀ k p, lm_get k (Lru.map (Storage.frame_cache (Storage.sto s'))) = Some p →
    lm_get k (Lru.map (Storage.frame_cache (Storage.sto s))) = Some p.
Lemma trims_refl s own M U : st_ok s own M U → trims s s own M U.
Proof. done. Qed.
Lemma trims_trans s1 s2 s3 own M U : trims s1 s2 own M U → trims s2 s3 own M U → trims s1 s3 own M U.
Proof.
  intros (_ & HK1 & HA1 & HC1 & HL1 & HB1 & HF1) (Hok & HK2 & HA2 & HC2 & HL2 & HB2 & HF2).
  split; [done|]. split; [by eapply keeps_trans|]. split; [congruence|]. split; [congruence|]. split; [congruence|].
  split; [|eauto]. intros b Hb. by rewrite HB2, HB1.
Qed.

Lemma remove_spans_spec s own M U id l n :
  st_ok s own M U → id ∈ U →
  Forall (λ ls, Span.span_ok (LocSpan.span ls) ∧ ∀ b, b ∈ Span.blocks (LocSpan.span ls) → own b = Some id) l →
  spec (Storage.remove_spans l n) s (λ _ s', trims s s' own M U ∧
      ∀ b, (∃ ls, ls ∈ l ∧ b ∈ Span.blocks (LocSpan.span ls)) ∨ dp_blks (Storage.depot s) !! b = None →
        dp_blks (Storage.depot s') !! b = None)
    (λ e s', trims s s' own M U ∧ ¬ dp_steady (Storage.depot s)) (λ s', trims s s' own M U ∧ ¬ dp_steady (Storage.depot s)).
Proof.
  revert s n. induction l as [|ls l IH]; intros s n Hs HU Hl; cbn [Storage.remove_spans].
  { apply spec_ret. split; [by apply trims_refl|]. intros b [(ls & Hin & _)|Hb]; [|done]. by apply not_elem_of_nil in Hin. }
  apply Forall_cons in Hl as [[Hok Hown] Hl].
  assert (Hblks : ∀ d, dp_blks_within (Span.blocks (LocSpan.span ls)) (Storage.depot s) d →
    trims s (Storage.mkSt d (Storage.rng s) (Storage.sto s)) own M U).
  { intros d (B & HB & Hw). split.
    - eapply store_ok_blks; [exact Hs|done|]. intros b i Hb Hi. apply Hw. intros Hin%Hown. congruence.
    - destruct HB as (HB & HA & HL & HS). do 4 (split; [done|]). split; [|done]. intros b Hb. cbn [Storage.depot].
      rewrite HB. apply Hw. intros Hin%Hown. congruence. }
  apply spec_bind, on_depot_spec. eapply spec_mono; [by apply del_blocks_law| | |].
  2: intros e d [Hd Hst]; by split; [apply Hblks|].
  2: intros d [Hd Hst]; by split; [apply Hblks|].
  intros [] d [Hd Hgone]. pose proof (Hblks d Hd) as (Hs1 & HK1 & _).
  apply spec_bind, spec_ask, spec_bind, spec_modify. cbn [Storage.sto Storage.depot Storage.rng].
  destruct (drop_frames_fits (Z.to_nat (Span.cnt (LocSpan.span ls))) n (Span.begin (LocSpan.span ls))
    (n + Span.cnt (LocSpan.span ls)) _ (so_frames_fit _ _ _ _ _ Hs)) as [Hfit Hsub].
  match goal with |- spec _ ?s1 _ _ _ => assert (Htr : trims s s1 own M U) end.
  { pose proof (Hblks d Hd) as (_ & _ & HA1 & _ & _ & HB1 & _). split; [|by do 5 (split; [done|])].
    apply (store_ok_frames (Storage.sto s)); [exact Hs1|done|]. intros k p Hk. left. by apply Hsub. }
  eapply spec_mono; [apply IH; [apply Htr|done|done]| | |].
  - intros [] s' (Htr2 & Hg2). split.
    + by eapply trims_trans.
    + intros b Hb. apply Hg2. cbn [Storage.depot]. destruct Hb as [(ls' & [->|Hin]%elem_of_cons & Hb)|Hb].
      * right. by apply Hgone.
      * left. by exists ls'.
      * right. destruct (decide (b ∈ Span.blocks (LocSpan.span ls))); [by apply Hgone|].
        destruct Hd as (B & (-> & _) & Hw). by rewrite Hw.
  - intros e s' (Htr2 & Hst). split; [by eapply trims_trans|by intros Hst1; apply Hst, HK1].
  - intros s' (Htr2 & Hst). split; [by eapply trims_trans|by intros Hst1; apply Hst, HK1].
Qed.
(** A call that fails leaves the entity in a state of its own. *)
Definition spoils s s' own M U id : Prop :=
  st_ok s' own M ({[id]} ∪ U) ∧ keeps s s' ∧ ¬ dp_steady (Storage.depot s).

Lemma spoils_trans s1 s2 s3 own M U id :
  keeps s1 s2 → spoils s2 s3 own M U id → spoils s1 s3 own M U id.
Proof. intros HK (Hok & HK2 & Hst). split; [done|]. split; [by eapply keeps_trans|]. by intros Hst1%HK. Qed.
Lemma trims_spoils s s' own M U id :
  trims s s' own M ({[id]} ∪ U) → ¬ dp_steady (Storage.depot s) → spoils s s' own M U id.
Proof. by intros (Hok & HK & _). Qed.
Lemma reads_spoils s s' own M U id :
  reads s s' own M U → ¬ dp_steady (Storage.depot s) → spoils s s' own M U id.
Proof.
  intros Hr Hst. split; [|split; [by eapply reads_keeps|done]]. eapply store_ok_dirty; [|apply Hr]. set_solver.
Qed.

Lemma st_ok_dirty s own M U id : st_ok s own M U → st_ok s own M ({[id]} ∪ U).
Proof. apply store_ok_dirty. set_solver. Qed.

(** The blocks of an owned address may be removed. *)
Lemma owned_spans own id a :
  owned own id a →
  Forall (λ ls, Span.span_ok (LocSpan.span ls) ∧ ∀ b, b ∈ Span.blocks (LocSpan.span ls) → own b = Some id) (Addr.list_ a).
Proof.
  intros ([[HF _] _] & _ & _ & Ho). apply Forall_forall. intros ls Hin. rewrite Forall_forall in HF. split; [by apply HF|].
  intros b Hb. apply Ho. apply list_elem_of_In, in_concat. exists (Span.blocks (LocSpan.span ls)).
  split; apply list_elem_of_In; [|done]. by apply (list_elem_of_fmap_2 (λ l, Span.blocks (LocSpan.span l))).
Qed.

(** [del]: the entity is gone; that it was not there is no error. *)
Lemma sto_del_spec s own M U id :
  st_ok s own M U →
  spec (Storage.del id) s (λ _ s', st_ok s' own (delete id M) (U ∖ {[id]}) ∧ keeps s s')
    (λ e s', spoils s s' own M U id) (λ s', spoils s s' own M U id).
Proof.
  intros Hs. unfold Storage.del. apply spec_bind, spec_attempt.
  eapply spec_mono; [by apply get_address_spec| | |].
  3: by intros s' [Hr Hst]; apply reads_spoils.
  - intros a s1 (Hr & Ho & _). apply spec_bind. eapply spec_mono.
    { apply (remove_spans_spec s1 own M ({[id]} ∪ U) id); [apply st_ok_dirty, Hr|set_solver|by apply owned_spans]. }
    2: intros e s2 [Htr Hst]; eapply spoils_trans; [by eapply reads_keeps|by apply trims_spoils].
    2: intros s2 [Htr Hst]; eapply spoils_trans; [by eapply reads_keeps|by apply trims_spoils].
    intros [] s2 [(Hs2 & HK2 & HA2 & HC2 & HL2 & HB2 & HF2) _].
    apply spec_bind, on_depot_spec.
    assert (Hdel : ∀ d, dp_has (dp_blks (Storage.depot s2)) (delete id (dp_addrs (Storage.depot s2))) (dp_wals (Storage.depot s2)) (Storage.depot s2) d →
      store_ok (Storage.sto s2) d own M ({[id]} ∪ U)).
    { intros d Hd. eapply (store_ok_addr _ _ _ _ _ _ id); [exact Hs2|done|set_solver| |].
      - intros i Hi. by rewrite lookup_delete_ne.
      - intros x. by rewrite lookup_delete_eq. }
    assert (Hbad : ∀ d, (dp_same (Storage.depot s2) d ∨ dp_has (dp_blks (Storage.depot s2)) (delete id (dp_addrs (Storage.depot s2))) (dp_wals (Storage.depot s2)) (Storage.depot s2) d) ∧
      ¬ dp_steady (Storage.depot s2) → spoils s (Storage.mkSt d (Storage.rng s2) (Storage.sto s2)) own M U id).
    { intros d [Hd Hst]. eapply spoils_trans; [by eapply reads_keeps|]. eapply spoils_trans; [exact HK2|].
      destruct Hd as [Hd|Hd]; (split; [|split; [by destruct Hd as (_ & _ & HL & HS)|done]]); [by eapply store_ok_same|by apply Hdel]. }
    eapply spec_mono; [apply del_address_law| |intros e d; apply Hbad|intros d; apply Hbad].
    intros [] d Hd. pose proof (Hdel d Hd) as Hok. destruct Hd as (HB & HA & HL & HS).
    apply spec_bind, spec_ask, spec_modify. cbn [Storage.sto Storage.depot Storage.rng].
    split.
    + pose proof (lru_fits_remove addr_measure _ _ id _ (so_addrs_fit _ _ _ _ _ Hok)) as Hfit.
      assert (Hok2 : store_ok (Storage.mkStorage (Storage.allocator (Storage.sto s2)) (Storage.crypto (Storage.sto s2))
        (Storage.key (Storage.sto s2)) (Storage.frame_cache (Storage.sto s2))
        (Lru.remove (K:=Eid) (V:=Addr.Addr) id (Storage.addr_cache (Storage.sto s2))).2) d own M ({[id]} ∪ U)).
      { apply store_ok_addrs; [done|done|]. intros i a' Hi. left. rewrite lru_remove in Hi. by case_decide. }
      eapply store_ok_clean with (id := id) (o := None) in Hok2.
      * by replace (({[id]} ∪ U) ∖ {[id]}) with (U ∖ {[id]}) in Hok2 by set_solver.
      * cbn [Storage.addr_cache]. intros a'. rewrite lru_remove. by case_decide.
      * rewrite HA. apply lookup_delete_eq.
    + eapply keeps_trans; [by eapply reads_keeps|]. eapply keeps_trans; [exact HK2|]. by split.
  - intros e s1 [Hr [(-> & Hn & Hc)|[He Hst]]].
    + apply spec_ret. split; [|by eapply reads_keeps].
      destruct Hr as [Hok (_ & HA & _)]. apply (store_ok_clean _ _ _ _ _ id None); [done| |by rewrite HA].
      intros a. by rewrite Hc.
    + destruct e; try done; apply spec_fail; by apply reads_spoils.
Qed.
(** *** Writing *)

Lemma draw_spec s n Q E F :
  (∀ x r, (0 ≤ n → zlen x = n) → Q x (Storage.mkSt (Storage.depot s) r (Storage.sto s))) → spec (Storage.draw n) s Q E F.
Proof.
  intros HQ. unfold spec, Storage.draw. pose proof (random_length n (Storage.rng s)) as Hl.
  destruct (random_buf n (Storage.rng s)) as [x r]. by apply HQ.
Qed.

Lemma encrypt_spec s own M U msg (Q : bytes → St → Prop) E F :
  st_ok s own M U → zlen msg < 2 ^ 63 →
  (∀ x r, Crypto.decrypt cr x ky = Ok msg → Q x (Storage.mkSt (Storage.depot s) r (Storage.sto s))) →
  (∀ r, Crypto.aead_fails → E Encrypt (Storage.mkSt (Storage.depot s) r (Storage.sto s))) →
  spec (Storage.encrypt msg) s Q E F.
Proof.
  intros Hs Hm HQ HE. unfold Storage.encrypt. apply spec_bind, spec_ask, spec_bind, spec_ask, spec_bind, draw_spec.
  intros nonce r Hn. rewrite (so_crypto _ _ _ _ _ Hs), (so_key _ _ _ _ _ Hs).
  assert (He : Crypto.encrypt cr nonce msg ky = Crypto.encrypt_raw cr nonce msg ky []).
  { unfold Crypto.encrypt, Crypto.encrypt_with_ad. pose proof (zlen_nonneg msg).
    by rewrite Crypto.encrypted_len_ok, bind_ok by lia. }
  destruct (Crypto.encrypt_raw_cases cr nonce msg ky []) as [[x Hx]|[Hx Hf]].
  - rewrite He, Hx. apply spec_lift_ok, HQ. eapply Crypto.encrypt_with_ad_ok; [by apply Hn|].
    fold (Crypto.encrypt cr nonce msg ky). by rewrite He.
  - rewrite He, Hx. by apply spec_fail, HE.
Qed.

(** An entity just written: its address is the entity's, and none of its frames is cached. *)
Definition fresh s own id a data : Prop :=
  owned own id a ∧ entity (dp_blks (Storage.depot s)) a data ∧
  ∀ b, b ∈ Addr.blocks a → lm_get b (Lru.map (Storage.frame_cache (Storage.sto s))) = None.

(** A call that changes an entity and fails: its depot is not steady, or encryption failed. *)
Definition botches s s' own M U id : Prop :=
  st_ok s' own M ({[id]} ∪ U) ∧ keeps s s' ∧ (Crypto.aead_fails ∨ ¬ dp_steady (Storage.depot s)).

Lemma botches_trans s1 s2 s3 own M U id : keeps s1 s2 → botches s2 s3 own M U id → botches s1 s3 own M U id.
Proof.
  intros HK (Hok & HK2 & He). split; [done|]. split; [by eapply keeps_trans|].
  destruct He as [He|Hst]; [by left|right]. by intros Hst1%HK.
Qed.
Lemma spoils_botches s s' own M U id : spoils s s' own M U id → botches s s' own M U id.
Proof. intros (Hok & HK & Hst). split; [done|]. split; [done|by right]. Qed.

Lemma put_address_spec s own M U id a data :
  st_ok s own M ({[id]} ∪ U) → fresh s own id a data →
  spec (Storage.put_address id a) s (λ _ s', st_ok s' own (<[id := data]> M) (U ∖ {[id]}) ∧ keeps s s')
    (λ e s', botches s s' own M U id) (λ s', spoils s s' own M U id).
Proof.
  intros Hs (Ho & He & Hf). unfold Storage.put_address. apply spec_bind.
  eapply encrypt_spec; [exact Hs|apply addr_ser_len, Ho| |].
  2: by intros r Hf'; split; [exact Hs|split; [done|by left]].
  intros x r Hx. apply spec_bind, on_depot_spec. cbn [Storage.depot Storage.rng Storage.sto].
  assert (Hput : ∀ d, dp_has (dp_blks (Storage.depot s)) (<[id := x]> (dp_addrs (Storage.depot s))) (dp_wals (Storage.depot s)) (Storage.depot s) d →
    store_ok (Storage.sto s) d own M ({[id]} ∪ U)).
  { intros d Hd. eapply (store_ok_addr _ _ _ _ _ _ id); [exact Hs|done|set_solver| |].
    - intros i Hi. by rewrite lookup_insert_ne.
    - intros x'. rewrite lookup_insert_eq. intros [= <-]. by exists a. }
  assert (Hbad : ∀ d, (dp_same (Storage.depot s) d ∨ dp_has (dp_blks (Storage.depot s)) (<[id := x]> (dp_addrs (Storage.depot s))) (dp_wals (Storage.depot s)) (Storage.depot s) d) ∧
    ¬ dp_steady (Storage.depot s) → spoils s (Storage.mkSt d r (Storage.sto s)) own M U id).
  { intros d [Hd Hst].
    destruct Hd as [Hd|Hd]; (split; [|split; [by destruct Hd as (_ & _ & HL & HS)|done]]); [by eapply store_ok_same|by apply Hput]. }
  eapply spec_mono; [apply put_address_law| |intros e d Hd; by apply spoils_botches, Hbad|intros d; apply Hbad].
  intros [] d Hd. pose proof (Hput d Hd) as Hok. destruct Hd as (HB & HA & HL & HS).
  assert (Had : address d id a) by (exists x; by rewrite HA, lookup_insert_eq).
  destruct (cache_addr (Storage.sto s) d own M ({[id]} ∪ U) id a) as (o & c & Hins & Hok2 & Hc); [done..|].
  apply spec_bind, spec_ask. cbn [Storage.sto]. rewrite Hins. apply spec_bind, spec_lift_ok, spec_modify. split; [|by split].
  apply store_ok_clean with (id := id) (o := Some data) in Hok2.
  - by replace (({[id]} ∪ U) ∖ {[id]}) with (U ∖ {[id]}) in Hok2 by set_solver.
  - cbn [Storage.addr_cache]. intros a'. rewrite Hc. by intros [= <-].
  - exists a. split; [done|]. cbn [Storage.frame_cache]. by rewrite HB.
Qed.
End inv.
