(* ===== verification/StorageWrite.v ===== *)
(** * Writing an entity: src/volume/storage/storage.rs, [Writer]. *)
From S2P Require Import Prelude Run Base Address Crypto Armor Storage StorageProofs.

Lemma spec_map_err {S A} (f : Error → Error) (m : run S A) s (Q : A → S → Prop) E H :
  spec m s Q (λ e s', E (f e) s') H → spec (map_err f m) s Q E H.
Proof. intros Hm. apply spec_or_else. eapply spec_mono; [exact Hm|done| |done]. intros e s' He. by apply spec_fail. Qed.

Section write.
Context `{!Sodium, !SodiumLaws, !AddrSerde, !AddrSerdeLaws}.
Context {D R FM AM : Type} `{!Storable D, !StorableLaws D, !Random R, !RandomLaws R}.
Context `{!LinkedMapOps Z bytes FM, !LinkedMap Z bytes FM, !LinkedMapOps Eid Addr.Addr AM, !LinkedMap Eid Addr.Addr AM}.
Context (cr : Crypto.Crypto) (ky : bytes).
Abbreviation St := (Storage.St D R FM AM).
Abbreviation st_ok := (StorageProofs.st_ok cr ky).
Abbreviation store_ok := (StorageProofs.store_ok cr ky).
Abbreviation frame_data := (StorageProofs.frame_data cr ky).
Implicit Types (s : St) (d : D) (own : Z → option Eid) (M : gmap Eid bytes) (U : gset Eid).
Implicit Types (id : Eid) (a : Addr.Addr) (b k : Z) (p data : bytes) (w : Writer.Writer).

(** The frames [fs] of an address being built hold [ps]. *)
Record written s own a (fs : list (list Z * Z)) (ps : list bytes) : Prop := {
  wr_spans : Addr.spans_ok (Addr.list_ a);
  wr_nil : Addr.list_ a = [] ↔ fs = [];
  wr_blocks : concat fs.*1 = Addr.blocks a;
  wr_len : zsum snd fs = Addr.len a;
  wr_size : 0 ≤ Addr.len a ≤ BLK_SIZE * Addr.blk_total (Addr.list_ a);
  wr_nodup : NoDup (Addr.blocks a);
  wr_own b : b ∈ Addr.blocks a → own b = None ∧ 0 ≤ b < Allocator.blk_wmark (Storage.allocator (Storage.sto s)) ∧
    lm_get b (Lru.map (Storage.frame_cache (Storage.sto s))) = None;
  wr_data : Forall2 (frame_data (dp_blks (Storage.depot s))) fs ps
}.

(** What writing frames does to the rest: nothing, but that it allocates and fills new blocks. *)
Definition extends s s' : Prop :=
  keeps s s' ∧ dp_addrs (Storage.depot s') = dp_addrs (Storage.depot s) ∧
  (∀ b, b < Allocator.blk_wmark (Storage.allocator (Storage.sto s)) →
     dp_blks (Storage.depot s') !! b = dp_blks (Storage.depot s) !! b) ∧
  Storage.frame_cache (Storage.sto s') = Storage.frame_cache (Storage.sto s) ∧
  Allocator.blk_wmark (Storage.allocator (Storage.sto s)) ≤ Allocator.blk_wmark (Storage.allocator (Storage.sto s')).

Lemma extends_rng s r : extends s (Storage.mkSt (Storage.depot s) r (Storage.sto s)).
Proof. by do 4 (split; [done|]). Qed.
Lemma extends_refl s : extends s s.
Proof. by do 4 (split; [done|]). Qed.
Lemma extends_trans s1 s2 s3 : extends s1 s2 → extends s2 s3 → extends s1 s3.
Proof.
  intros (HK1 & HA1 & HB1 & HF1 & HW1) (HK2 & HA2 & HB2 & HF2 & HW2). split; [by eapply keeps_trans|].
  split; [congruence|]. split; [|split; [congruence|lia]]. intros b Hb. rewrite HB2 by lia. by apply HB1.
Qed.

Lemma written_extends s s' own a fs ps : extends s s' → written s own a fs ps → written s' own a fs ps.
Proof.
  intros (_ & _ & HB & HF & HW) []. split; try done.
  - intros b Hb. rewrite HF. destruct (wr_own0 b Hb) as (Ho & Hr & Hc). split; [done|]. split; [lia|done].
  - assert (Hin : ∀ f, f ∈ fs → ∀ b, b ∈ f.1 → dp_blks (Storage.depot s') !! b = dp_blks (Storage.depot s) !! b).
    { intros f Hf b Hb. apply HB. enough (b ∈ Addr.blocks a) as Hba by by apply wr_own0. rewrite <- wr_blocks0.
      apply list_elem_of_In, in_concat. exists f.1. split; apply list_elem_of_In; [by apply list_elem_of_fmap_2|done]. }
    clear -wr_data0 Hin. induction wr_data0 as [|f p fs ps Hfp _ IH]; constructor.
    + eapply frame_data_ext; [|done]. apply Hin. by left.
    + apply IH. intros f' Hf'. apply Hin. by right.
Qed.

(** One more frame, on blocks past those of all entities. *)
Lemma written_snoc s own a a' fs ps bl n p :
  written s own a fs ps → Addr.blocks a' = Addr.blocks a ++ bl → Addr.len a' = Addr.len a + n → 0 ≤ n →
  Addr.spans_ok (Addr.list_ a') → Addr.list_ a' ≠ [] →
  Addr.blk_total (Addr.list_ a') = Addr.blk_total (Addr.list_ a) + zlen bl → n ≤ BLK_SIZE * zlen bl →
  NoDup bl → (∀ b, b ∈ Addr.blocks a → b ∉ bl) →
  (∀ b, b ∈ bl → own b = None ∧ 0 ≤ b < Allocator.blk_wmark (Storage.allocator (Storage.sto s)) ∧
    lm_get b (Lru.map (Storage.frame_cache (Storage.sto s))) = None) →
  frame_data (dp_blks (Storage.depot s)) (bl, n) p →
  written s own a' (fs ++ [(bl, n)]) (ps ++ [p]).
Proof.
  intros [] Hb Hl Hn Hs Hne Ht Hnb Hnd Hdj Hbl Hp. split; [done|split; [done|by destruct fs]|..].
  - rewrite fmap_app, concat_app, wr_blocks0, Hb. simpl. by rewrite app_nil_r.
  - rewrite zsum_app, wr_len0, Hl. simpl. lia.
  - rewrite Ht, Hl. lia.
  - rewrite Hb. by apply NoDup_app.
  - rewrite Hb. intros b [Hin|Hin]%elem_of_app; [by apply wr_own0|by apply Hbl].
  - by apply Forall2_app; [|constructor].
Qed.

(** The number of blocks of a frame. *)
Definition frame_blks (n : Z) : Z := Z.max 1 ((n + BLK_SIZE - 1) / BLK_SIZE).
Lemma frame_blks_range n : 0 < n ≤ FRAME_SIZE →
  1 ≤ frame_blks n ≤ BLKS_PER_FRAME ∧ BLK_SIZE * (frame_blks n - 1) < n ≤ BLK_SIZE * frame_blks n.
Proof.
  intros Hn. unfold frame_blks, FRAME_SIZE, BLKS_PER_FRAME, BLK_SIZE in *.
  pose proof (Z_div_mod_eq_full (n + 8 * 1024 - 1) (8 * 1024)). pose proof (Z.mod_pos_bound (n + 8 * 1024 - 1) (8 * 1024)). lia.
Qed.
Lemma align_frame n : 0 < n ≤ FRAME_SIZE → Utils.align_ceil_chunk n BLK_SIZE = Ok (frame_blks n).
Proof.
  intros Hn. change BLK_SIZE with (2 ^ 13). rewrite Utils.align_ceil_chunk_spec; [done|lia|].
  unfold FRAME_SIZE, BLKS_PER_FRAME, BLK_SIZE in Hn. lia.
Qed.

(** Allocating the blocks [sp] and writing to them. *)

Section put.
Context s own M U (n : Z) (r : R) (Hs : st_ok s own M U) (Hn : 1 ≤ n ≤ BLKS_PER_FRAME).
Abbreviation wmark := (Allocator.blk_wmark (Storage.allocator (Storage.sto s))).
Abbreviation sp := (Span.mkSpan wmark n).
Abbreviation al := (Allocator.mkAllocator (wmark + n)).
Abbreviation st' := (Storage.mkStorage al (Storage.crypto (Storage.sto s)) (Storage.key (Storage.sto s))
  (Storage.frame_cache (Storage.sto s)) (Storage.addr_cache (Storage.sto s))).

Lemma new_blocks b : b ∈ Span.blocks sp →
  own b = None ∧ wmark ≤ b < wmark + n ∧ lm_get b (Lru.map (Storage.frame_cache (Storage.sto s))) = None.
Proof.
  unfold Span.blocks. intros Hb%elem_of_seqZ. cbn [Span.begin Span.cnt] in Hb.
  assert (Ho : own b = None).
  { destruct (own b) as [i|] eqn:Ho; [|done]. apply (so_own _ _ _ _ _ _ _ Hs) in Ho. lia. }
  split; [done|]. split; [done|]. destruct (lm_get b _) as [p|] eqn:Hg; [|done].
  apply (so_frames _ _ _ _ _ _ _ Hs) in Hg as (i & Hi & _). congruence.
Qed.

Lemma put_new d : dp_blks_within (Span.blocks sp) (Storage.depot s) d →
  let s' := Storage.mkSt d r st' in st_ok s' own M U ∧ extends s s'.
Proof.
  intros (B & HB & Hne) s'.
  assert (Hold : ∀ b, b < wmark → B !! b = dp_blks (Storage.depot s) !! b).
  { intros b Hb. apply Hne. intros (_ & Hr & _)%new_blocks. lia. }
  pose proof (so_wmark _ _ _ _ _ _ _ Hs) as Hw0. split.
  - apply (store_ok_own cr ky (Storage.sto s) d own); [|done| |cbn [Allocator.blk_wmark]; lia].
    + eapply store_ok_blks; [exact Hs|done|]. intros b i Ho _. apply Hold. apply (so_own _ _ _ _ _ _ _ Hs) in Ho; lia.
    + intros b i Ho%(so_own _ _ _ _ _ _ _ Hs). cbn [Allocator.blk_wmark]. lia.
  - destruct HB as (HB & HA & HL & HS). split; [by split|]. split; [done|]. split; [|split; [done|cbn; lia]].
    intros b Hb. cbn [Storage.depot s']. rewrite HB. by apply Hold.
Qed.
End put.

(** A writer in progress: [done] is in frames and the rest is staged. *)
Definition wtr_ok s own w fs ps : Prop :=
  Writer.stg_size w = dlen cr ∧ written s own (Writer.addr w) fs ps ∧
  Addr.blk_total (Addr.list_ (Writer.addr w)) ≤ Allocator.blk_wmark (Storage.allocator (Storage.sto s)).

(** A call of a writer that fails leaves all entities as they were. *)
Definition quits s s' own M U : Prop :=
  st_ok s' own M U ∧ extends s s' ∧ (Crypto.aead_fails ∨ ¬ dp_steady (Storage.depot s)).
Definition halts s s' own M U : Prop := st_ok s' own M U ∧ extends s s' ∧ ¬ dp_steady (Storage.depot s).

Lemma halts_quits s s' own M U : halts s s' own M U → quits s s' own M U.
Proof. intros (Hs & He & Hst). split; [done|]. split; [done|by right]. Qed.
Lemma quits_trans s1 s2 s3 own M U : extends s1 s2 → quits s2 s3 own M U → quits s1 s3 own M U.
Proof.
  intros Hext (Hs2 & Hext2 & Hst). split; [done|]. split; [by eapply extends_trans|].
  destruct Hst as [|Hst]; [by left|right]. intros Hst1. by apply Hst, (proj1 Hext).
Qed.
Lemma halts_trans s1 s2 s3 own M U : extends s1 s2 → halts s2 s3 own M U → halts s1 s3 own M U.
Proof.
  intros Hext (Hs2 & Hext2 & Hst). split; [done|]. split; [by eapply extends_trans|].
  intros Hst1. by apply Hst, (proj1 Hext).
Qed.

Lemma write_frame_spec s own M U w fs ps :
  st_ok s own M U → wtr_ok s own w fs ps → 0 < zlen (Writer.stg w) ≤ dlen cr →
  Allocator.blk_wmark (Storage.allocator (Storage.sto s)) + BLKS_PER_FRAME < 2 ^ 50 →
  let n := Crypto.overhead cr + zlen (Writer.stg w) in
  spec (Writer.write_frame w) s
    (λ w' s', ∃ bl, st_ok s' own M U ∧ extends s s' ∧
      wtr_ok s' own w' (fs ++ [(bl, n)]) (ps ++ [Writer.stg w]) ∧ zlen bl = frame_blks n ∧
      Writer.id w' = Writer.id w ∧ Writer.stg w' = [] ∧
      Allocator.blk_wmark (Storage.allocator (Storage.sto s'))
        = Allocator.blk_wmark (Storage.allocator (Storage.sto s)) + frame_blks n)
    (λ e s', quits s s' own M U) (λ s', halts s s' own M U).
Proof.
  intros Hs (Hsz & Hwr & Htot) Hstg Hw n. unfold Writer.write_frame.
  rewrite (proj2 (Z.eqb_neq _ _)) by lia.
  apply spec_bind, spec_ask, spec_bind, spec_ask, spec_bind, draw_spec. intros nonce r Hnonce.
  rewrite (so_crypto _ _ _ _ _ _ _ Hs), (so_key _ _ _ _ _ _ _ Hs).
  change (Crypto.encrypt_to cr nonce (Writer.stg w) ky) with (Crypto.encrypt_raw cr nonce (Writer.stg w) ky []).
  destruct (Crypto.encrypt_raw_cases cr nonce (Writer.stg w) ky []) as [[x Hx]|[Hx Hf]]; rewrite Hx; apply spec_bind.
  2: { apply spec_fail. split; [exact Hs|]. split; [apply extends_rng|by left]. }
  destruct (Crypto.encrypt_raw_ok _ _ _ _ _ _ (Hnonce ltac:(done)) Hx) as [Hlen Hdec]. fold n in Hlen.
  assert (Hn : 0 < n ≤ FRAME_SIZE).
  { unfold n. pose proof (Crypto.overhead_range cr). unfold dlen in Hstg. lia. }
  destruct (frame_blks_range n Hn) as [Hk Hkn].
  apply spec_lift_ok, spec_bind. rewrite Hlen, align_frame by done. apply spec_lift_ok, spec_bind.
  rewrite u_mul_ok by (unfold U64, BLKS_PER_FRAME, BLK_SIZE in *; lia). apply spec_lift_ok, spec_bind.
  rewrite rassert_ok by (apply Z.leb_le; unfold FRAME_SIZE; nia).
  apply spec_lift_ok, spec_bind, draw_spec. intros pad r2 Hpad. specialize (Hpad ltac:(nia)).
  pose proof (so_wmark _ _ _ _ _ _ _ Hs) as Hw0.
  apply spec_bind, spec_ask, spec_bind. cbn [Storage.sto Storage.depot].
  rewrite Allocator.allocate_ok by (unfold U64; lia). apply spec_lift_ok, spec_bind, spec_modify, spec_bind, on_depot_spec.
  cbn [Storage.sto Storage.depot Storage.rng].
  set (sp := Span.mkSpan _ (frame_blks n)).
  assert (Hsp : Span.span_ok sp) by (unfold Span.span_ok, sp, U64; cbn [Span.begin Span.cnt]; lia).
  eapply spec_mono; [apply put_blocks_law; [exact Hsp|cbn [Span.cnt sp]; unfold U64, BLKS_PER_FRAME, BLK_SIZE in *; lia|cbn [Span.cnt sp]; rewrite zlen_app; lia]| | |].
  2: intros e d Hd; apply halts_quits; revert d Hd.
  2, 3: intros d [Hd Hst]; destruct (put_new s own M U (frame_blks n) r2 Hs ltac:(lia) d Hd); by split.
  intros [] d [Hd Hblk]. destruct (put_new s own M U (frame_blks n) r2 Hs ltac:(lia) d Hd) as [Hok Hext].
  pose proof (written_extends _ _ _ _ _ _ Hext Hwr) as Hwr'.
  assert (Hbl : zlen (Span.blocks sp) = frame_blks n) by (apply Span.zlen_blocks; cbn [Span.cnt sp]; lia).
  destruct (AddrProofs.append_ok (Writer.addr w) sp n) as (a' & Ha & Hal & Hab & Hasp & Hat & Hne);
    [apply Hwr| | done | cbn [Span.cnt sp]; lia | cbn [Span.cnt sp]; lia | | ].
  - intros Hnil%(wr_nil _ _ _ _ _ Hwr). rewrite <- (wr_len _ _ _ _ _ Hwr), Hnil. done.
  - pose proof (wr_size _ _ _ _ _ Hwr). unfold U64, FRAME_SIZE, BLKS_PER_FRAME, BLK_SIZE in *. lia.
  - apply spec_bind. rewrite Ha. apply spec_lift_ok, spec_ret. exists (Span.blocks sp).
    split; [exact Hok|]. split; [exact Hext|]. split; [|by split_and!].
    split; [done|]. split; [|cbn [Writer.addr Storage.sto Storage.allocator Allocator.blk_wmark Span.cnt sp] in *; lia].
    cbn [Writer.id Writer.addr]. eapply written_snoc; [exact Hwr'|done|done|lia|done|done| |lia| | | |].
    + rewrite Hbl. exact Hat.
    + apply NoDup_seqZ.
    + intros b Hb Hb2. apply (wr_own _ _ _ _ _ Hwr) in Hb as (_ & Hr & _).
      destruct (new_blocks s own M U (frame_blks n) Hs b Hb2) as (_ & Hr2 & _). lia.
    + intros b Hb. destruct (new_blocks s own M U (frame_blks n) Hs b Hb) as (Ho & Hr & Hc).
      split; [done|]. split; [|done]. cbn [Storage.sto Storage.allocator Allocator.blk_wmark]. lia.
    + exists (x ++ pad). cbn [fst snd]. split; [exact Hblk|]. rewrite ztake_app_le, ztake_ge by lia. exact Hdec.
Qed.

(** Between calls: full frames, and less than one staged. *)
Definition wtr_at s own w data : Prop := ∃ fs ps, wtr_ok s own w fs ps ∧ Forall frame_full fs ∧
  Forall (λ p, zlen p = dlen cr) ps ∧ concat ps ++ Writer.stg w = data ∧ zlen (Writer.stg w) < dlen cr.

(** The blocks that finishing after [n] more bytes takes at most, with room for them below [lim]. *)
Definition need w (n : Z) : Z := BLKS_PER_FRAME * ((zlen (Writer.stg w) + n) / dlen cr + 1).
Context (lim : Z) (Hlim : lim ≤ 2 ^ 50).
Definition room s w (n : Z) : Prop := Allocator.blk_wmark (Storage.allocator (Storage.sto s)) + need w n < lim.
Lemma need_pos w n : 0 ≤ n → BLKS_PER_FRAME ≤ need w n.
Proof.
  intros Hn. unfold need. pose proof (dlen_range cr). pose proof (zlen_nonneg (Writer.stg w)).
  assert (0 ≤ (zlen (Writer.stg w) + n) / dlen cr) by (apply Z.div_pos; lia). unfold BLKS_PER_FRAME. lia.
Qed.

Lemma written_none s own : written s own Addr.default_addr [] [].
Proof.
  split; try done; [constructor|by intros b Hb%not_elem_of_nil].
Qed.

Lemma new_spec s own M U id :
  st_ok s own M U →
  spec (Writer.new id) s (λ w s', s' = s ∧ wtr_at s own w [] ∧ Writer.id w = id ∧ Writer.stg w = []) (λ _ _, False) (λ _, False).
Proof.
  intros Hs. unfold Writer.new. apply spec_bind, spec_ask, spec_bind. rewrite (so_crypto _ _ _ _ _ _ _ Hs).
  pose proof (dlen_range cr) as Hd. rewrite Crypto.decrypted_len_ok by (unfold dlen in Hd; lia).
  apply spec_lift_ok, spec_ret. split; [done|]. split; [|done]. exists [], []. split; [|].
  - split; [done|]. split; [apply written_none|]. apply (so_wmark _ _ _ _ _ _ _ Hs).
  - split; [done|]. split; [done|]. split; [done|]. cbn [Writer.stg]. change (zlen (@nil Z)) with 0. lia.
Qed.

Lemma write_spec s own M U w data (b : bytes) (m : Z) :
  st_ok s own M U → wtr_at s own w data → b ≠ [] → 0 ≤ m → room s w (zlen b + m) →
  spec (Writer.write w b) s
    (λ nw s', st_ok s' own M U ∧ extends s s' ∧ wtr_at s' own nw.2 (data ++ ztake nw.1 b) ∧
      0 < nw.1 ≤ zlen b ∧ Writer.id nw.2 = Writer.id w ∧ room s' nw.2 (zlen b - nw.1 + m))
    (λ e s', quits s s' own M U) (λ s', halts s s' own M U).
Proof.
  intros Hs (fs & ps & (Hsz & Hwr & Htot) & Hfs & Hps & Hdata & Hstg) Hb Hm Hroom. unfold Writer.write.
  assert (Hb' : 0 < zlen b) by (destruct b; [done|rewrite zlen_cons; pose proof (zlen_nonneg b); lia]).
  rewrite Hsz, u_sub_ok by lia. apply spec_bind, spec_lift_ok.
  set (n := Z.min (dlen cr - zlen (Writer.stg w)) (zlen b)). set (w1 := Writer.mkWriter _ _ _ _).
  assert (Hn : 0 < n ≤ zlen b) by (unfold n; lia).
  assert (Hl1 : zlen (Writer.stg w1) = zlen (Writer.stg w) + n).
  { cbn [Writer.stg w1]. rewrite zlen_app, zlen_ztake by lia. lia. }
  assert (Hw1 : wtr_ok s own w1 fs ps) by done.
  apply spec_bind. cbn [Writer.stg_size w1]. destruct (_ <=? _) eqn:Hfull; zify_b; fold w1 in Hfull.
  - apply spec_map_err. eapply spec_mono; [apply (write_frame_spec s own M U w1 fs ps)| |done|done].
    + done.
    + done.
    + pose proof (zlen_nonneg (Writer.stg w)). lia.
    + unfold room in Hroom. pose proof (need_pos w (zlen b + m)). lia.
    + intros w2 s' (bl & Hs' & Hext & Hw2 & Hbl & Hid & Hstg2 & Hwm). apply spec_ret. cbn [fst snd].
      assert (Hsd : zlen (Writer.stg w1) = dlen cr) by (unfold n in Hl1; lia). rewrite Hsd in *.
      assert (HF : Crypto.overhead cr + dlen cr = FRAME_SIZE) by (unfold dlen; lia). rewrite HF in *.
      split; [done|]. split; [done|]. split; [|split; [done|split; [by rewrite Hid|]]].
      * eexists _, _. split; [exact Hw2|]. split; [|split; [|split]].
        -- apply Forall_app. split; [done|]. by apply Forall_singleton.
        -- apply Forall_app. split; [done|]. by apply Forall_singleton.
        -- rewrite Hstg2, app_nil_r, concat_app. simpl. rewrite app_nil_r, app_assoc. by rewrite Hdata.
        -- rewrite Hstg2. pose proof (dlen_range cr). change (zlen (@nil Z)) with 0. lia.
      * unfold room, need in *. rewrite Hwm, Hstg2. change (zlen (@nil Z)) with 0. change (frame_blks FRAME_SIZE) with BLKS_PER_FRAME.
        pose proof (dlen_range cr). replace (zlen (Writer.stg w) + (zlen b + m)) with ((zlen b - n + m) + 1 * dlen cr) in Hroom by lia.
        rewrite Z.div_add in Hroom by lia. rewrite Z.add_0_l. lia.
  - apply spec_ret, spec_ret. cbn [fst snd]. split; [done|]. split; [apply extends_refl|].
    split; [|split; [done|split; [done|]]].
    + exists fs, ps. split; [done|]. split; [done|]. split; [done|]. split; [|unfold w1 in *; lia].
      cbn [Writer.stg w1]. by rewrite app_assoc, Hdata.
    + unfold room, need in *. rewrite Hl1. by replace (zlen (Writer.stg w) + n + (zlen b - n + m)) with (zlen (Writer.stg w) + (zlen b + m)) by lia.
Qed.

(** *** A whole entity *)

(** [Write::write_all]: every call takes at least one byte. *)
Fixpoint write_all (fuel : nat) w (b : bytes) : run St Writer.Writer :=
  match b, fuel with
  | [], _ => mret w
  | _, O => lift Panic
  | _, S fuel => '(n, w) ← Writer.write w b; if n =? 0 then fail Io else write_all fuel w (zdrop n b)
  end.
Fixpoint write_slices (l : list bytes) w : run St Writer.Writer :=
  match l with
  | [] => mret w
  | x :: l => w ← write_all (length x) w x; write_slices l w
  end.

Lemma write_all_spec fuel s own M U w data (b : bytes) (m : Z) :
  st_ok s own M U → wtr_at s own w data → 0 ≤ m → room s w (zlen b + m) → (length b ≤ fuel)%nat →
  spec (write_all fuel w b) s
    (λ w' s', st_ok s' own M U ∧ extends s s' ∧ wtr_at s' own w' (data ++ b) ∧
      Writer.id w' = Writer.id w ∧ room s' w' m)
    (λ e s', quits s s' own M U) (λ s', halts s s' own M U).
Proof.
  revert s own w data b. induction fuel as [|fuel IH]; intros s own w data b Hs Hw Hm Hroom Hfuel.
  - destruct b; [|simpl in Hfuel; lia]. apply spec_ret. rewrite app_nil_r. by split; [|split; [apply extends_refl|]].
  - destruct b as [|x b].
    { apply spec_ret. rewrite app_nil_r. by split; [|split; [apply extends_refl|]]. }
    cbn [write_all]. apply spec_bind. eapply spec_mono; [by apply (write_spec s own M U w data (x :: b) m)| |done|done].
    intros [n w'] s' (Hs' & Hext & Hw' & Hn & Hid & Hroom'). cbn [fst snd] in *.
    rewrite (proj2 (Z.eqb_neq _ _)) by lia.
    assert (Hd : zlen (zdrop n (x :: b)) = zlen (x :: b) - n) by (rewrite zlen_zdrop by lia; lia).
    eapply spec_mono; [apply (IH s' own w' (data ++ ztake n (x :: b))); try done| | |].
    + by rewrite Hd.
    + unfold zlen in *. simpl in *. lia.
    + intros w2 s2 (Hs2 & Hext2 & Hw2 & Hid2 & Hr2). split; [done|].
      split; [by eapply extends_trans|]. rewrite <- app_assoc, ztake_zdrop in Hw2. by rewrite Hid2.
    + intros e s2. by eapply quits_trans.
    + intros s2. by eapply halts_trans.
Qed.

Lemma write_slices_spec s own M U w data (l : list bytes) (m : Z) :
  st_ok s own M U → wtr_at s own w data → 0 ≤ m → room s w (zlen (concat l) + m) →
  spec (write_slices l w) s
    (λ w' s', st_ok s' own M U ∧ extends s s' ∧ wtr_at s' own w' (data ++ concat l) ∧
      Writer.id w' = Writer.id w ∧ room s' w' m)
    (λ e s', quits s s' own M U) (λ s', halts s s' own M U).
Proof.
  revert s own w data. induction l as [|x l IH]; intros s own w data Hs Hw Hm Hroom; cbn [write_slices concat] in *.
  { apply spec_ret. rewrite app_nil_r. by split; [|split; [apply extends_refl|]]. }
  rewrite zlen_app, <- Z.add_assoc in Hroom. pose proof (zlen_nonneg (concat l)).
  apply spec_bind. eapply spec_mono; [apply (write_all_spec _ s own M U w data x); [done|done| |done|lia]; lia| |done|done].
  intros w' s' (Hs' & Hext & Hw' & Hid & Hroom').
  eapply spec_mono; [by apply IH| | |].
  - intros w2 s2 (Hs2 & Hext2 & Hw2 & Hid2 & Hr2). split; [done|].
    split; [by eapply extends_trans|]. rewrite <- app_assoc in Hw2. by rewrite Hid2.
  - intros e s2. by eapply quits_trans.
  - intros s2. by eapply halts_trans.
Qed.

(** What is written and staged makes an entity. *)
Lemma full_framing (fs : list (list Z * Z)) bl :
  Forall frame_full fs → fs ≠ [] → concat fs.*1 = bl → framing bl (zsum snd fs) fs.
Proof.
  intros Hf Hne <-. destruct fs as [|f fs _] using rev_ind; [done|]. apply Forall_app in Hf as [Hf Hl].
  apply Forall_singleton in Hl as [Hl1 Hl2]. split; [done|]. split; [done|]. exists fs, f. split; [done|]. split; [done|].
  rewrite Hl1, Hl2. unfold FRAME_SIZE, BLKS_PER_FRAME, BLK_SIZE. lia.
Qed.

(** All of an entity is in frames. *)
Definition ready s own a data : Prop :=
  ∃ fs ps, written s own a fs ps ∧ framing (Addr.blocks a) (Addr.len a) fs ∧ pieces_ok cr ps ∧ concat ps = data.

Lemma last_frame_spec s own M U w data :
  st_ok s own M U → wtr_at s own w data → data ≠ [] → room s w 0 →
  spec (Writer.write_frame w) s
    (λ w' s', st_ok s' own M U ∧ extends s s' ∧ ready s' own (Writer.addr w') data ∧ Writer.id w' = Writer.id w ∧
      Allocator.blk_wmark (Storage.allocator (Storage.sto s')) < lim)
    (λ e s', quits s s' own M U) (λ s', halts s s' own M U).
Proof.
  intros Hs (fs & ps & Hok & Hfs & Hps & Hdata & Hlt) Hne Hroom.
  pose proof (need_pos w 0 ltac:(done)) as Hneed. unfold room in Hroom.
  destruct (decide (Writer.stg w = [])) as [Hnil|Hstg].
  - unfold Writer.write_frame. rewrite Hnil. apply spec_ret. split; [done|]. split; [apply extends_refl|].
    unfold BLKS_PER_FRAME in Hneed. split; [|split; [done|lia]].
    destruct Hok as (_ & Hwr & _). rewrite Hnil, app_nil_r in Hdata. exists fs, ps. split; [done|].
    assert (Hps0 : ps ≠ []) by (by intros ->). split; [|split; [|done]].
    + rewrite <- (wr_len _ _ _ _ _ Hwr). apply full_framing; [done| |apply Hwr].
      intros ->. pose proof (wr_data _ _ _ _ _ Hwr) as Hd. by apply Forall2_nil_inv_l in Hd.
    + destruct ps as [|p ps _] using rev_ind; [done|]. apply Forall_app in Hps as [Hps Hp]. apply Forall_cons in Hp as [Hp _].
      exists ps, p. pose proof (dlen_range cr) as Hdl. split; [done|]. split; [done|]. lia.
  - assert (Hpos : 0 < zlen (Writer.stg w)) by (destruct (Writer.stg w); [done|rewrite zlen_cons; pose proof (zlen_nonneg l); lia]).
    eapply spec_mono; [apply (write_frame_spec s own M U w fs ps); [done|done|lia|lia]| |done|done].
    intros w' s' (bl & Hs' & Hext & (_ & Hwr & _) & Hbl & Hid & _ & Hwm).
    destruct (frame_blks_range (Crypto.overhead cr + zlen (Writer.stg w))) as [Hk1 Hk2].
    { pose proof (Crypto.overhead_range cr). unfold dlen in Hlt. lia. }
    split; [done|]. split; [done|]. split; [|split; [done|lia]].
    eexists _, _. split; [exact Hwr|]. split; [|split].
    + split; [apply (wr_blocks _ _ _ _ _ Hwr)|]. split; [apply (wr_len _ _ _ _ _ Hwr)|]. eexists _, _.
      split; [done|]. split; [done|]. cbn [fst snd]. rewrite Hbl. lia.
    + exists ps, (Writer.stg w). split; [done|]. split; [done|]. lia.
    + rewrite concat_app. simpl. by rewrite app_nil_r.
Qed.

Lemma written_trims s s' own M U a fs ps :
  trims cr ky s s' own M U → written s own a fs ps → written s' own a fs ps.
Proof.
  intros (_ & _ & _ & _ & HL & HB & HF) []. split; try done.
  - intros b Hb. destruct (wr_own0 b Hb) as (Ho & Hr & Hc). split; [done|]. split; [by rewrite HL|].
    destruct (lm_get b (Lru.map (Storage.frame_cache (Storage.sto s')))) eqn:Hg; [|done]. apply HF in Hg. congruence.
  - assert (Hin : ∀ f, f ∈ fs → ∀ b, b ∈ f.1 → dp_blks (Storage.depot s') !! b = dp_blks (Storage.depot s) !! b).
    { intros f Hf b Hb. apply HB. enough (b ∈ Addr.blocks a) as Hba by by apply wr_own0. rewrite <- wr_blocks0.
      apply list_elem_of_In, in_concat. exists f.1. split; apply list_elem_of_In; [by apply list_elem_of_fmap_2|done]. }
    clear -wr_data0 Hin. induction wr_data0 as [|f p fs ps Hfp _ IH]; constructor.
    + eapply frame_data_ext; [|done]. apply Hin. by left.
    + apply IH. intros f' Hf'. apply Hin. by right.
Qed.
Lemma ready_ext s s' own a data :
  (∀ fs ps, written s own a fs ps → written s' own a fs ps) → ready s own a data → ready s' own a data.
Proof. intros HW (fs & ps & Hwr & Hrest). exists fs, ps. split; [by apply HW|done]. Qed.

(** Its blocks become the entity's. *)
Definition owns own id a b : option Eid := if decide (b ∈ Addr.blocks a) then Some id else own b.

Lemma ready_fresh s own M U id a data :
  st_ok s own M U → ready s own a data → st_ok s (owns own id a) M U ∧ fresh cr ky s (owns own id a) id a data.
Proof.
  intros Hs (fs & ps & Hwr & Hfr & Hps & Hdata). pose proof (so_wmark _ _ _ _ _ _ _ Hs) as Hw0. split.
  - unfold StorageProofs.st_ok in *. destruct s as [d r [al c k F C]]. cbn [Storage.sto Storage.depot] in *.
    change (Storage.mkStorage al c k F C) with (Storage.mkStorage al (Storage.crypto (Storage.mkStorage al c k F C))
      (Storage.key (Storage.mkStorage al c k F C)) (Storage.frame_cache (Storage.mkStorage al c k F C)) (Storage.addr_cache (Storage.mkStorage al c k F C))).
    eapply store_ok_own; [exact Hs| | |exact Hw0].
    + intros b i Ho. unfold owns. rewrite decide_False; [done|]. intros Hb%(wr_own _ _ _ _ _ Hwr). by destruct Hb; congruence.
    + intros b i. unfold owns. case_decide as Hb; [intros _; by apply (wr_own _ _ _ _ _ Hwr) in Hb as (_ & ? & _)|].
      apply (so_own _ _ _ _ _ _ _ Hs).
  - split; [|split].
    + pose proof (framing_size _ _ _ Hfr) as Hsz. rewrite addr_blocks_len in Hsz by apply Hwr. split; [|split; [|split]].
      * split; [apply Hwr|done].
      * intros Hnil%(wr_nil _ _ _ _ _ Hwr). subst. destruct Hfr as (_ & _ & init & lst & Hf & _). by destruct init.
      * apply Hwr.
      * intros b Hb. unfold owns. by rewrite decide_True.
    + exists fs, ps. split; [done|]. split; [apply Hwr|done].
    + intros b Hb. by apply (wr_own _ _ _ _ _ Hwr) in Hb as (_ & _ & Hc).
Qed.

Lemma ready_put s own M U id a data :
  st_ok s own M ({[id]} ∪ U) → ready s own a data →
  spec (Storage.put_address id a) s
    (λ _ s', ∃ own', st_ok s' own' (<[id := data]> M) (U ∖ {[id]}) ∧ keeps s s')
    (λ e s', ∃ own', botches cr ky s s' own' M U id) (λ s', ∃ own', spoils cr ky s s' own' M U id).
Proof.
  intros Hs Hr. destruct (ready_fresh s own M _ id a data Hs Hr) as [Hs' Hf].
  eapply spec_mono; [by apply (put_address_spec cr ky s (owns own id a) M U id a data)| | |].
  - intros [] s' Hq. eexists; exact Hq.
  - intros e s' Hq. eexists; exact Hq.
  - intros s' Hq. eexists; exact Hq.
Qed.

(** [finish]: the entity holds what was written, and its old blocks are gone. *)
Lemma finish_spec s own M U w data :
  st_ok s own M U → wtr_at s own w data → data ≠ [] → room s w 0 →
  let id := Writer.id w in
  spec (Writer.finish w) s
    (λ _ s', ∃ own', st_ok s' own' (<[id := data]> M) (U ∖ {[id]}) ∧ keeps s s')
    (λ e s', ∃ own', botches cr ky s s' own' M U id) (λ s', ∃ own', spoils cr ky s s' own' M U id).
Proof.
  intros Hs Hw Hne Hroom id. unfold Writer.finish. apply spec_bind.
  eapply spec_mono; [by apply (last_frame_spec s own M U w data)| | |].
  2: { intros e s1 (Hs1 & (HK & _) & Hst). exists own. split; [by apply st_ok_dirty|by split]. }
  2: { intros s1 (Hs1 & (HK & _) & Hst). exists own. split; [by apply st_ok_dirty|by split]. }
  intros w1 s1 (Hs1 & (HK1 & _) & Hr1 & Hid & _). fold id in Hid. rewrite Hid.
  apply spec_bind, spec_attempt.
  eapply spec_mono; [eapply spec_also with (R := quiet s1); [by apply get_address_spec|apply get_address_quiet]| | |].
  3: { intros s2 [[Hr Hst] _]. exists own. eapply spoils_trans; [exact HK1|]. by apply reads_spoils. }
  - intros old s2 ((Hr & Ho & _) & HF2 & HA2). apply spec_bind.
    assert (Hr2 : ready s2 own (Writer.addr w1) data).
    { eapply ready_ext; [|exact Hr1]. intros fs ps. apply written_extends. destruct Hr as [_ (HB & HA & HL & HS)].
      split; [by split|]. split; [done|]. split; [by intros; rewrite HB|]. split; [done|]. rewrite HA2. lia. }
    eapply spec_mono.
    { apply (remove_spans_spec cr ky s2 own M ({[id]} ∪ U) id); [apply st_ok_dirty, Hr|set_solver|by apply owned_spans]. }
    2: { intros e s3 [Htr Hst]. exists own. apply spoils_botches. eapply spoils_trans; [exact HK1|].
         eapply spoils_trans; [by eapply reads_keeps|by apply trims_spoils]. }
    2: { intros s3 [Htr Hst]. exists own. eapply spoils_trans; [exact HK1|].
         eapply spoils_trans; [by eapply reads_keeps|by apply trims_spoils]. }
    intros [] s3 [Htr _]. assert (HK3 : keeps s s3).
    { eapply keeps_trans; [exact HK1|]. eapply keeps_trans; [by eapply reads_keeps|apply Htr]. }
    eapply spec_mono; [apply (ready_put s3 own M U id (Writer.addr w1) data); [apply Htr|]| | |].
    + eapply ready_ext; [|exact Hr2]. intros fs ps. by eapply written_trims.
    + intros [] s4 (own' & Hok & HK4). exists own'. split; [done|]. by eapply keeps_trans.
    + intros e s4 (own' & Hb). exists own'. by eapply botches_trans.
    + intros s4 (own' & Hb). exists own'. by eapply spoils_trans.
  - intros e s2 ((Hr & He) & HF2 & HA2). destruct He as [(-> & _ & _)|[He Hst]].
    2: { assert (Hb : spoils cr ky s s2 own M U id) by (eapply spoils_trans; [exact HK1|by apply reads_spoils]).
         apply spoils_botches in Hb. destruct e; try done; apply spec_bind, spec_fail; by exists own. }
    apply spec_bind, spec_ret.
    assert (Hr2 : ready s2 own (Writer.addr w1) data).
    { eapply ready_ext; [|exact Hr1]. intros fs ps. apply written_extends. destruct Hr as [_ (HB & HA & HL & HS)].
      split; [by split|]. split; [done|]. split; [by intros; rewrite HB|]. split; [done|]. rewrite HA2. lia. }
    assert (HK2 : keeps s s2) by (eapply keeps_trans; [exact HK1|by eapply reads_keeps]).
    eapply spec_mono; [apply (ready_put s2 own M U id (Writer.addr w1) data); [apply st_ok_dirty, Hr|done]| | |].
    + intros [] s4 (own' & Hok & HK4). exists own'. split; [done|]. by eapply keeps_trans.
    + intros e s4 (own' & Hb). exists own'. by eapply botches_trans.
    + intros s4 (own' & Hb). exists own'. by eapply spoils_trans.
Qed.
End write.
