(* ===== verification/StorageRead.v ===== *)
(** * Reading an entity: src/volume/storage/storage.rs, [Reader]. *)
From S2P Require Import Prelude Run Base Address Crypto Armor Storage StorageProofs StorageWrite.

Lemma framing_frame bl n fs f :
  framing bl n fs → f ∈ fs → 0 < zlen f.1 ≤ BLKS_PER_FRAME ∧ 0 < f.2 ≤ BLK_SIZE * zlen f.1.
Proof.
  intros (_ & _ & init & lst & -> & Hi & Hl & Hr) [Hf|Hf]%elem_of_app.
  - rewrite Forall_forall in Hi. destruct (Hi f Hf) as [-> ->]. unfold FRAME_SIZE, BLKS_PER_FRAME, BLK_SIZE. lia.
  - apply list_elem_of_singleton in Hf as ->. unfold BLKS_PER_FRAME, BLK_SIZE in *. lia.
Qed.

(** Different frames begin with different blocks. *)
Lemma frames_keys (fs : list (list Z * Z)) f g k :
  NoDup (concat fs.*1) → f ∈ fs → g ∈ fs → head f.1 = Some k → head g.1 = Some k → f = g.
Proof.
  intros Hnd Hf Hg Hfk Hgk. apply list_elem_of_split in Hf as (l1 & l2 & ->).
  assert (Hin : ∀ h (l : list (list Z * Z)), h ∈ l → head h.1 = Some k → k ∈ concat l.*1).
  { intros h l Hh Hk. apply list_elem_of_In, in_concat. exists h.1. split; apply list_elem_of_In; [by apply list_elem_of_fmap_2|].
    destruct (h.1); [done|]. injection Hk as ->. left. }
  assert (Hkf : k ∈ f.1) by (destruct (f.1); [done|]; injection Hfk as ->; left).
  rewrite fmap_app, concat_app, fmap_cons, concat_cons in Hnd. apply NoDup_app in Hnd as (_ & H12 & Hnd).
  apply NoDup_app in Hnd as (_ & H2 & _). apply elem_of_app in Hg as [Hg|[->|Hg]%elem_of_cons]; [|done|].
  - destruct (H12 k); [by apply (Hin g)|]. apply elem_of_app. by left.
  - destruct (H2 k); [done|]. by apply (Hin g).
Qed.

(** The frames of an address: well-formed spans, the first block being the key. *)
Lemma frames_first a frames i f :
  Addr.addr_ok a → AddrProofs.frames_ok a frames → zget frames i = Some f →
  Forall (λ s, Span.span_ok (LocSpan.span s)) (Addr.list_ f) ∧
  0 < zlen (Addr.blocks f) ≤ BLKS_PER_FRAME ∧ 0 < Addr.len f ≤ BLK_SIZE * zlen (Addr.blocks f) ∧
  ∃ k, Reader.first_block frames i = Ok k ∧ head (Addr.blocks f) = Some k.
Proof.
  intros Ha Hf Hi. pose proof (divide_framing a frames Ha Hf) as Hfr. destruct Hf as (dn & cur & _ & _ & _ & _ & _ & _ & _ & Hsp).
  apply zget_Some in Hi as Hin. destruct Hin as [_ Hin%list_elem_of_lookup_2].
  rewrite Forall_forall in Hsp. destruct (Hsp f Hin) as [Hok Hpos].
  assert (Hff : (Addr.blocks f, Addr.len f) ∈ (λ f, (Addr.blocks f, Addr.len f)) <$> frames)
    by by apply (list_elem_of_fmap_2 (λ f, (Addr.blocks f, Addr.len f))).
  destruct (framing_frame _ _ _ _ Hfr Hff) as [Hb Hl]. cbn [fst snd] in *.
  split; [done|]. split; [done|]. split; [done|].
  unfold Reader.first_block. rewrite (vindex_ok _ _ _ Hi), bind_ok. clear Hff. unfold Addr.blocks in *.
  destruct (Addr.list_ f) as [|s l]; [by destruct Hb|].
  rewrite (vindex_ok _ 0 s) by done. rewrite bind_ok. eexists. split; [done|].
  rewrite fmap_cons, concat_cons. unfold Span.blocks. rewrite seqZ_cons by lia. done.
Qed.

Lemma vslice_0 {A} (l : list A) n : 0 ≤ n ≤ zlen l → vslice l 0 n = Ok (ztake n l).
Proof.
  intros Hn. unfold vslice. rewrite (proj2 (andb_true_iff _ _)) by (split; apply Z.leb_le; lia).
  by rewrite zdrop_0, Z.sub_0_r by lia.
Qed.

Section read.
Context `{!Sodium, !SodiumLaws, !AddrSerde, !AddrSerdeLaws}.
Context {D R FM AM : Type} `{!Storable D, !StorableLaws D, !Random R, !RandomLaws R}.
Context `{!LinkedMapOps Z bytes FM, !LinkedMap Z bytes FM, !LinkedMapOps Eid Addr.Addr AM, !LinkedMap Eid Addr.Addr AM}.
Context (cr : Crypto.Crypto) (ky : bytes).
Abbreviation St := (Storage.St D R FM AM).
Abbreviation st_ok := (StorageProofs.st_ok cr ky).
Abbreviation frame_data := (StorageProofs.frame_data cr ky).
Abbreviation reads := (StorageProofs.reads cr ky).
Implicit Types (s : St) (d : D) (own : Z → option Eid) (M : gmap Eid bytes) (U : gset Eid).
Implicit Types (id : Eid) (a f : Addr.Addr) (i n o k : Z) (p data : bytes) (r : Reader.Reader).

(** Reading the spans of a frame. *)
Lemma read_spans_spec s l frame x :
  Forall (λ ls, Span.span_ok (LocSpan.span ls)) l →
  blocks_bytes (dp_blks (Storage.depot s)) (concat ((λ l, Span.blocks (LocSpan.span l)) <$> l)) = Some x →
  zlen frame + zlen x ≤ FRAME_SIZE →
  let same s' := ∃ d, s' = Storage.mkSt d (Storage.rng s) (Storage.sto s) ∧ dp_same (Storage.depot s) d in
  spec (Reader.read_spans l frame) s (λ y s', y = frame ++ x ∧ same s')
    (λ _ s', same s' ∧ ¬ dp_steady (Storage.depot s)) (λ s', same s' ∧ ¬ dp_steady (Storage.depot s)).
Proof.
  revert s frame x. induction l as [|ls l IH]; intros s frame x Hl Hx Hsz same; cbn [Reader.read_spans].
  - injection Hx as <-. apply spec_ret. rewrite app_nil_r. split; [done|]. exists (Storage.depot s).
    split; [by destruct s|apply dp_same_refl].
  - apply Forall_cons in Hl as [Hok Hl]. rewrite fmap_cons, concat_cons in Hx.
    apply blocks_bytes_app in Hx as (x1 & x2 & -> & Hx1 & Hx2). rewrite zlen_app in Hsz.
    pose proof (blocks_bytes_length _ _ _ Hx1) as Hl1. rewrite Span.zlen_blocks in Hl1 by apply Hok.
    pose proof (zlen_nonneg x2). pose proof (zlen_nonneg frame). unfold Span.bytes_len.
    rewrite u_mul_ok by (unfold U64, FRAME_SIZE, BLKS_PER_FRAME, BLK_SIZE in *; lia).
    apply spec_bind, spec_lift_ok, spec_bind. rewrite rassert_ok by (apply Z.leb_le; lia). apply spec_lift_ok.
    apply spec_bind, spec_map_err, on_depot_spec. eapply spec_mono; [apply get_blocks_law; [done|unfold U64, FRAME_SIZE, BLKS_PER_FRAME, BLK_SIZE in *; lia]| | |].
    + intros y d [Hy Hd]. rewrite Hx1 in Hy. injection Hy as <-.
      eapply spec_mono; [apply (IH (Storage.mkSt d (Storage.rng s) (Storage.sto s)) (frame ++ x1) x2)| | |].
      * done.
      * cbn [Storage.depot]. destruct Hd as (HB & _). by rewrite HB.
      * rewrite zlen_app. lia.
      * intros y s' [-> (d' & -> & Hd')]. split; [by rewrite app_assoc|]. exists d'. split; [done|]. by eapply dp_same_trans.
      * intros e s' [(d' & -> & Hd') Hst]. split; [exists d'; split; [done|by eapply dp_same_trans]|].
        intros Hst0. by apply Hst, (proj2 (proj2 (proj2 Hd))).
      * intros s' [(d' & -> & Hd') Hst]. split; [exists d'; split; [done|by eapply dp_same_trans]|].
        intros Hst0. by apply Hst, (proj2 (proj2 (proj2 Hd))).
    + intros e d [Hd [[_ Hn]|[_ Hst]]]; [congruence|]. split; [by exists d|done].
    + intros d [Hd Hst]. split; [by exists d|done].
Qed.

(** A reader of the entity in frame [i], at its byte [o]. *)
Record rdr_ok s own id a (frames : list Addr.Addr) (ps : list bytes) r i o : Prop := {
  rd_addr : address cr ky (Storage.depot s) id a;
  rd_owned : owned own id a;
  rd_frames : AddrProofs.frames_ok a frames;
  rd_data : Forall2 (frame_data (dp_blks (Storage.depot s))) ((λ f, (Addr.blocks f, Addr.len f)) <$> frames) ps;
  rd_pieces : pieces_ok cr ps;
  rd_addrs : Reader.addrs r = frames;
  rd_len : Reader.ent_len r = Addr.len a;
  rd_size : Reader.dec_size r = dlen cr;
  rd_idx : Reader.frm_idx r = i ∧ 0 ≤ i ≤ zlen ps;
  rd_cur p : zget ps i = Some p → Reader.pos r = dlen cr * i + o ∧ 0 ≤ o < zlen p ∧
    (Reader.dec_frame r = [] ∨ (Reader.dec_frame r = p ∧ (Addr.len a < Storage.FRAME_CACHE_THRESHOLD →
       ∃ q, lm_get (Reader.frm_key r) (Lru.map (Storage.frame_cache (Storage.sto s))) = Some q)));
  rd_key f : zget frames i = Some f → head (Addr.blocks f) = Some (Reader.frm_key r)
}.
(** What is left to read of the entity. *)
Definition rdr_at s own id r data rest : Prop := ∃ a frames ps i o, rdr_ok s own id a frames ps r i o ∧
  concat ps = data ∧
  rest = match zget ps i with Some p => zdrop o p ++ concat (zdrop (i + 1) ps) | None => [] end.

Lemma frame_data_inj (B : gmap Z bytes) g p q : frame_data B g p → frame_data B g q → p = q.
Proof. intros (x & Hx & Hp) (y & Hy & Hq). congruence. Qed.

(** The current frame of a reader. *)
Lemma rdr_frame s own id a frames ps r i o p :
  rdr_ok s own id a frames ps r i o → zget ps i = Some p →
  ∃ f, zget frames i = Some f ∧ frame_data (dp_blks (Storage.depot s)) (Addr.blocks f, Addr.len f) p ∧ 0 < zlen p ≤ dlen cr.
Proof.
  intros [] Hp. pose proof (Forall2_length _ _ _ rd_data0) as Hlen. rewrite length_fmap in Hlen.
  apply zget_lt in Hp as Hi. destruct (zget_is_Some frames i) as [f Hf]; [unfold zlen in *; lia|].
  exists f. split; [done|]. split.
  - apply zget_Some in Hp as [_ Hp]. apply zget_Some in Hf as [_ Hf].
    eapply (Forall2_lookup_lr _ _ _ (Z.to_nat i) _ _ rd_data0); [by rewrite list_lookup_fmap, Hf|done].
  - destruct rd_pieces0 as (init & lst & -> & Hall & Hl). apply zget_Some in Hp as [_ Hp%list_elem_of_lookup_2].
    pose proof (dlen_range cr). apply elem_of_app in Hp as [Hp|Hp%list_elem_of_singleton].
    + rewrite Forall_forall in Hall. rewrite (Hall p Hp). lia.
    + subst p. lia.
Qed.

(** A frame that is cached is the one of the entity. *)
Lemma cached_frame s own M U id a frames ps r i o p q :
  st_ok s own M U → id ∉ U → rdr_ok s own id a frames ps r i o → zget ps i = Some p →
  lm_get (Reader.frm_key r) (Lru.map (Storage.frame_cache (Storage.sto s))) = Some q →
  q = p ∧ Addr.len a < Storage.FRAME_CACHE_THRESHOLD.
Proof.
  intros Hs HU Hr Hp Hq. destruct (rdr_frame _ _ _ _ _ _ _ _ _ _ Hr Hp) as (f & Hf & Hfd & _).
  destruct (so_frames _ _ _ _ _ _ _ Hs _ _ Hq) as (j & Hj & Hall).
  pose proof (rd_key _ _ _ _ _ _ _ _ _ Hr f Hf) as Hk.
  pose proof (divide_framing a frames (proj1 (rd_owned _ _ _ _ _ _ _ _ _ Hr)) (rd_frames _ _ _ _ _ _ _ _ _ Hr)) as Hfr.
  assert (Hin : (Addr.blocks f, Addr.len f) ∈ (λ f, (Addr.blocks f, Addr.len f)) <$> frames).
  { apply (list_elem_of_fmap_2 (λ f, (Addr.blocks f, Addr.len f))). apply zget_Some in Hf as [_ Hf].
    by eapply list_elem_of_lookup_2. }
  assert (j = id) as ->.
  { assert (Hb : Reader.frm_key r ∈ Addr.blocks a).
    { eapply framing_blocks; [exact Hfr|exact Hin|]. cbn [fst]. destruct (Addr.blocks f); [done|]. injection Hk as ->. left. }
    apply (rd_owned _ _ _ _ _ _ _ _ _ Hr) in Hb. congruence. }
  destruct (Hall HU a _ (Addr.blocks f, Addr.len f) (rd_addr _ _ _ _ _ _ _ _ _ Hr) Hfr Hin Hk) as [Hqd Hlt].
  split; [|done]. by eapply frame_data_inj.
Qed.

(** The cache of frames with one more. *)
Lemma cache_frame s own M U id a frames ps r i o p :
  st_ok s own M U → rdr_ok s own id a frames ps r i o → zget ps i = Some p →
  Addr.len a < Storage.FRAME_CACHE_THRESHOLD →
  ∃ x c, Lru.insert (K:=Z) (V:=bytes) (Reader.frm_key r) p (Storage.frame_cache (Storage.sto s)) = Ok (x, c) ∧
    lm_get (Reader.frm_key r) (Lru.map c) = Some p ∧
    st_ok (Storage.mkSt (Storage.depot s) (Storage.rng s) (Storage.mkStorage (Storage.allocator (Storage.sto s))
      (Storage.crypto (Storage.sto s)) (Storage.key (Storage.sto s)) c (Storage.addr_cache (Storage.sto s)))) own M U.
Proof.
  intros Hs Hr Hp Hlt. destruct (rdr_frame _ _ _ _ _ _ _ _ _ _ Hr Hp) as (f & Hf & Hfd & Hpl).
  destruct (cache_sizes cr) as (Hc1 & _ & Hc2).
  destruct (lru_fits_insert bytes_measure bytes_unpinned (dlen cr) Storage.FRAME_CACHE_SIZE (Reader.frm_key r) p
    (Storage.frame_cache (Storage.sto s)) (so_frames_fit _ _ _ _ _ _ _ Hs)) as (c & -> & Hfit & Hnew & Hold);
    [done|unfold measure, frame_meter; lia|unfold measure, frame_meter; lia|done|].
  eexists _, c. split; [done|]. split; [done|]. apply (store_ok_frames cr ky (Storage.sto s)); [exact Hs|done|].
  intros k q Hq. apply Hold in Hq as [[-> ->]|Hq]; [right|by left]. exists id.
  pose proof (rd_key _ _ _ _ _ _ _ _ _ Hr f Hf) as Hk.
  pose proof (divide_framing a frames (proj1 (rd_owned _ _ _ _ _ _ _ _ _ Hr)) (rd_frames _ _ _ _ _ _ _ _ _ Hr)) as Hfr.
  assert (Hin : (Addr.blocks f, Addr.len f) ∈ (λ f, (Addr.blocks f, Addr.len f)) <$> frames).
  { apply (list_elem_of_fmap_2 (λ f, (Addr.blocks f, Addr.len f))). apply zget_Some in Hf as [_ Hf].
    by eapply list_elem_of_lookup_2. }
  split.
  { apply (rd_owned _ _ _ _ _ _ _ _ _ Hr). eapply framing_blocks; [exact Hfr|exact Hin|]. cbn [fst].
    destruct (Addr.blocks f); [done|]. injection Hk as ->. left. }
  intros _ a' fs g Ha' Hfs Hg Hgk. assert (a' = a) as -> by (eapply address_inj; [done|apply Hr]).
  assert (fs = (λ f, (Addr.blocks f, Addr.len f)) <$> frames) as -> by by eapply framing_unique.
  assert (g = (Addr.blocks f, Addr.len f)) as ->; [|done].
  eapply frames_keys; [|done|done|done|done]. destruct Hfr as [-> _]. apply (rd_owned _ _ _ _ _ _ _ _ _ Hr).
Qed.
(** Between the calls of a reader only caches change. *)
Lemma rdr_reads s s' own M U id a frames ps r i o :
  reads s s' own M U → rdr_ok s own id a frames ps r i o →
  (∀ q, lm_get (Reader.frm_key r) (Lru.map (Storage.frame_cache (Storage.sto s))) = Some q →
    ∃ q', lm_get (Reader.frm_key r) (Lru.map (Storage.frame_cache (Storage.sto s'))) = Some q') →
  rdr_ok s' own id a frames ps r i o.
Proof.
  intros [_ (HB & HA & _)] [] Hc. split; try done.
  - destruct rd_addr0 as (x & Hx & Hd). exists x. by rewrite HA.
  - by rewrite HB.
  - intros p Hp. destruct (rd_cur0 p Hp) as (H1' & H2' & H3'). split; [done|]. split; [done|].
    destruct H3' as [H3'|[H3' H4']]; [by left|right]. split; [done|]. intros Hlt. destruct (H4' Hlt) as [q Hq]. by eapply Hc.
Qed.

(** The frame is loaded if it has to be. *)
Lemma load_spec s own M U id a frames ps r i o p :
  st_ok s own M U → id ∉ U → rdr_ok s own id a frames ps r i o → zget ps i = Some p →
  spec (Reader.load r) s
    (λ dec s', reads s s' own M U ∧ rdr_ok s' own id a frames ps r i o ∧ (dec = [] ∨ dec = p) ∧
      if Addr.len a <? Storage.FRAME_CACHE_THRESHOLD
      then lm_get (Reader.frm_key r) (Lru.map (Storage.frame_cache (Storage.sto s'))) = Some p else dec = p)
    (λ _ s', reads s s' own M U ∧ ¬ dp_steady (Storage.depot s)) (λ s', reads s s' own M U ∧ ¬ dp_steady (Storage.depot s)).
Proof.
  intros Hs HU Hr Hp. unfold Reader.load. apply spec_bind, spec_ask.
  pose proof (rd_cur _ _ _ _ _ _ _ _ _ Hr p Hp) as (_ & _ & Hdec).
  assert (Hcached : ∀ q, lm_get (Reader.frm_key r) (Lru.map (Storage.frame_cache (Storage.sto s))) = Some q →
    q = p ∧ Addr.len a < Storage.FRAME_CACHE_THRESHOLD) by (intros q Hq; by eapply cached_frame).
  destruct (_ && _) eqn:Hc.
  - apply andb_true_iff in Hc as [Hc1 _]. apply Z.eqb_eq in Hc1.
    assert (Hd0 : Reader.dec_frame r = []) by (apply length_zero_iff_nil; unfold Reader.dec_frame_len, zlen in Hc1; lia).
    destruct (rdr_frame _ _ _ _ _ _ _ _ _ _ Hr Hp) as (f & Hf & (x & Hx & Hxp) & Hpl). cbn [fst snd] in Hx, Hxp.
    destruct (frames_first a frames i f (proj1 (rd_owned _ _ _ _ _ _ _ _ _ Hr)) (rd_frames _ _ _ _ _ _ _ _ _ Hr) Hf)
      as (Hspans & Hbl & Hlen & _).
    pose proof (blocks_bytes_length _ _ _ Hx) as Hxl. change (zlen (concat _)) with (zlen (Addr.blocks f)) in Hxl.
    rewrite (rd_addrs _ _ _ _ _ _ _ _ _ Hr), (proj1 (rd_idx _ _ _ _ _ _ _ _ _ Hr)).
    apply spec_bind. rewrite (vindex_ok _ _ _ Hf). apply spec_lift_ok, spec_bind.
    eapply spec_mono; [apply (read_spans_spec s (Addr.list_ f) [] x Hspans Hx)| | |].
    { change (zlen (@nil Z)) with 0. rewrite Z.add_0_l, Hxl. unfold FRAME_SIZE, BLKS_PER_FRAME, BLK_SIZE in *. lia. }
    2: { intros e s' [(d & -> & Hd) Hst]. split; [by apply reads_depot|done]. }
    2: { intros s' [(d & -> & Hd) Hst]. split; [by apply reads_depot|done]. }
    intros y s' [-> (d & -> & Hd)]. cbn [app]. pose proof (reads_depot cr ky s d own M U Hs Hd) as Hrd.
    assert (Hr' : rdr_ok (Storage.mkSt d (Storage.rng s) (Storage.sto s)) own id a frames ps r i o)
      by (eapply rdr_reads; [exact Hrd|exact Hr|]; eauto).
    apply spec_bind. rewrite vslice_0 by lia. apply spec_lift_ok.
    apply spec_bind, spec_ask, spec_bind, spec_ask, spec_bind, spec_map_err. cbn [Storage.sto].
    rewrite (so_crypto _ _ _ _ _ _ _ Hs), (so_key _ _ _ _ _ _ _ Hs), Hxp. apply spec_lift_ok.
    rewrite (rd_len _ _ _ _ _ _ _ _ _ Hr). destruct (Addr.len a <? _) eqn:Hlt.
    + apply spec_bind, spec_ask. zify_b.
      destruct (cache_frame _ own M U id a frames ps r i o p (proj1 Hrd) Hr' Hp Hlt) as (v & c & Hins & Hnew & Hok).
      apply spec_bind. cbn [Storage.sto] in *. rewrite Hins. apply spec_lift_ok, spec_bind, spec_modify, spec_ret.
      assert (Hrd2 : reads s (Storage.mkSt d (Storage.rng s) (Storage.mkStorage (Storage.allocator (Storage.sto s))
        (Storage.crypto (Storage.sto s)) (Storage.key (Storage.sto s)) c (Storage.addr_cache (Storage.sto s)))) own M U)
        by (split; [exact Hok|exact (proj2 Hrd)]).
      split; [exact Hrd2|]. split; [|split; [by right|done]].
      eapply rdr_reads; [exact Hrd2|exact Hr|]. intros q _. by exists p.
    + apply spec_ret. split; [done|]. split; [done|]. split; [by right|done].
  - apply spec_ret. split; [by apply reads_refl|]. split; [done|]. unfold Reader.dec_frame_len, Lru.contains_key in Hc.
    destruct (Addr.len a <? _) eqn:Hlt; zify_b.
    + destruct Hdec as [Hd0|[Hd0 Hq]].
      * split; [by left|]. rewrite Hd0 in Hc. destruct Hc as [|Hc]; [done|]. apply negb_false_iff, bool_decide_eq_true in Hc as [q Hq].
        by destruct (Hcached q Hq) as [<- _].
      * split; [by right|]. destruct (Hq Hlt) as [q Hq']. by destruct (Hcached q Hq') as [<- _].
    + destruct Hdec as [Hd0|[Hd0 Hq]]; [|split; [by right|done]].
      exfalso. rewrite Hd0 in Hc. destruct Hc as [|Hc]; [done|]. apply negb_false_iff, bool_decide_eq_true in Hc as [q Hq].
      destruct (Hcached q Hq). lia.
Qed.
Lemma current_spec s own M U id a frames ps r i o p dec :
  st_ok s own M U → rdr_ok s own id a frames ps r i o →
  (if Addr.len a <? Storage.FRAME_CACHE_THRESHOLD
   then lm_get (Reader.frm_key r) (Lru.map (Storage.frame_cache (Storage.sto s))) = Some p else dec = p) →
  spec (Reader.current r dec) s
    (λ frame s', frame = p ∧ reads s s' own M U ∧ rdr_ok s' own id a frames ps r i o ∧
      (Addr.len a < Storage.FRAME_CACHE_THRESHOLD →
       lm_get (Reader.frm_key r) (Lru.map (Storage.frame_cache (Storage.sto s'))) = Some p))
    (λ _ _, False) (λ _, False).
Proof.
  intros Hs Hr Hd. unfold Reader.current. rewrite (rd_len _ _ _ _ _ _ _ _ _ Hr). destruct (Addr.len a <? _) eqn:Hlt; zify_b.
  2: { apply spec_ret. split; [done|]. split; [by apply reads_refl|]. split; [done|lia]. }
  apply spec_bind, spec_ask.
  pose proof (lru_refresh_val (Reader.frm_key r) (Storage.frame_cache (Storage.sto s))) as Hval.
  pose proof (λ j, lru_get_refresh (Reader.frm_key r) j (Storage.frame_cache (Storage.sto s))) as Hget.
  pose proof (lru_fits_refresh (dlen cr) Storage.FRAME_CACHE_SIZE (Reader.frm_key r) _ (so_frames_fit _ _ _ _ _ _ _ Hs)) as Hfit.
  destruct (Lru.get_refresh (Reader.frm_key r) (Storage.frame_cache (Storage.sto s))) as [v c]. cbn [fst snd] in *. subst v.
  apply spec_bind, spec_modify. rewrite Hd. apply spec_lift_ok. split; [done|].
  assert (Hrd : reads s (Storage.mkSt (Storage.depot s) (Storage.rng s) (Storage.mkStorage (Storage.allocator (Storage.sto s))
    (Storage.crypto (Storage.sto s)) (Storage.key (Storage.sto s)) c (Storage.addr_cache (Storage.sto s)))) own M U).
  { split; [|apply dp_same_refl]. apply (store_ok_frames cr ky (Storage.sto s)); [exact Hs|done|].
    intros k q Hq. left. by rewrite <- Hget. }
  assert (Hg : lm_get (Reader.frm_key r) (Lru.map c) = Some p) by by rewrite Hget.
  split; [exact Hrd|]. split; [|done]. eapply rdr_reads; [exact Hrd|exact Hr|]. intros q _. by exists p.
Qed.

Lemma copy_frame_ok r n p i o :
  Reader.dec_size r = dlen cr → Reader.pos r = dlen cr * i + o → 0 ≤ i → 0 ≤ o < zlen p → zlen p ≤ dlen cr → 0 ≤ n →
  Reader.copy_frame_out r n p = Ok (ztake n (zdrop o p), zlen p <=? o + Z.min n (zlen p - o)).
Proof.
  intros Hsz Hpos Hi Ho Hp Hn. unfold Reader.copy_frame_out. rewrite Hsz.
  rewrite rassert_ok by (apply negb_true_iff, Z.eqb_neq; lia). rewrite bind_ok.
  assert (Hm : Reader.pos r mod dlen cr = o).
  { rewrite Hpos, Z.add_comm, Z.mul_comm, Z.mod_add by lia. by apply Z.mod_small; lia. }
  rewrite Hm, u_sub_ok by lia. rewrite bind_ok. unfold vslice.
  rewrite (proj2 (andb_true_iff _ _)) by (split; apply Z.leb_le; lia). rewrite bind_ok. f_equal. f_equal.
  replace (o + Z.min n (zlen p - o) - o) with (Z.min n (zlen p - o)) by lia.
  destruct (Z.min_spec n (zlen p - o)) as [[_ ->]|[Hge ->]]; [done|].
  assert (Hz : zlen (zdrop o p) = zlen p - o) by (rewrite zlen_zdrop by lia; lia).
  rewrite (ztake_ge n), (ztake_ge (zlen p - o)) by lia. done.
Qed.

Lemma zdrop_get {A} (l : list A) j : 0 ≤ j →
  zdrop j l = match zget l j with Some x => x :: zdrop (j + 1) l | None => [] end.
Proof.
  intros Hj. destruct (zget l j) as [x|] eqn:Hx.
  - apply zget_Some in Hx as [_ Hx]. unfold zdrop. rewrite (drop_S _ _ _ Hx). by replace (Z.to_nat (j + 1)) with (S (Z.to_nat j)) by lia.
  - apply zdrop_ge. destruct (decide (zlen l ≤ j)); [done|]. destruct (zget_is_Some l j); [lia|congruence].
Qed.

Lemma rest_next (ps : list bytes) i : 0 ≤ i →
  concat (zdrop i ps) = match zget ps i with Some p => zdrop 0 p ++ concat (zdrop (i + 1) ps) | None => [] end.
Proof. intros Hi. rewrite zdrop_get by done. destruct (zget ps i); [|done]. by rewrite (zdrop_0 0) by lia. Qed.

(** All frames before another are full. *)
Lemma piece_full ps i p q : pieces_ok cr ps → zget ps i = Some p → zget ps (i + 1) = Some q → zlen p = dlen cr.
Proof.
  intros (init & lst & -> & Hall & _) Hp Hq. apply zget_lt in Hq as Hlt. rewrite zlen_snoc in Hlt.
  rewrite zget_app_l in Hp by lia. apply zget_Some in Hp as [_ Hp%list_elem_of_lookup_2].
  rewrite Forall_forall in Hall. by apply Hall.
Qed.
(** After a frame is used up. *)
Lemma rdr_next s own id a frames ps r i o p (out : bytes) :
  rdr_ok s own id a frames ps r i o → zget ps i = Some p → zlen out = zlen p - o →
  let j := i + 1 in
  ∃ k, (if j <? zlen frames then Reader.first_block frames j else Ok (Reader.frm_key r)) = Ok k ∧
    rdr_ok s own id a frames ps (Reader.mkReader frames (Addr.len a) j k (dlen cr) [] (Reader.pos r + zlen out)) j 0.
Proof.
  intros [] Hp Hout j. pose proof (Forall2_length _ _ _ rd_data0) as Hlen. rewrite length_fmap in Hlen.
  assert (Hlz : zlen frames = zlen ps) by (unfold zlen; lia). apply zget_lt in Hp as Hi.
  assert (Hk : ∃ k, (if j <? zlen frames then Reader.first_block frames j else Ok (Reader.frm_key r)) = Ok k ∧
    ∀ f, zget frames j = Some f → head (Addr.blocks f) = Some k).
  { destruct (j <? zlen frames) eqn:Hj; zify_b.
    - destruct (zget_is_Some frames j) as [f Hf]; [lia|].
      destruct (frames_first a frames j f (proj1 rd_owned0) rd_frames0 Hf) as (_ & _ & _ & k & Hk & Hh).
      exists k. split; [done|]. intros g Hg. congruence.
    - eexists. split; [done|]. intros f Hf%zget_lt. lia. }
  destruct Hk as (k & Hk & Hh). exists k. split; [done|]. split; try done; cbn [Reader.frm_idx Reader.pos Reader.dec_frame].
  - split; [done|lia].
  - intros q Hq. destruct (rd_cur0 p Hp) as (Hpos & Ho & _). rewrite (piece_full ps i p q) in Hout by done.
    split; [lia|]. split; [|by left]. destruct rd_pieces0 as (init & lst & -> & Hall & Hl).
    apply zget_Some in Hq as [_ Hq%list_elem_of_lookup_2]. pose proof (dlen_range cr).
    apply elem_of_app in Hq as [Hq|Hq%list_elem_of_singleton]; [rewrite Forall_forall in Hall; rewrite (Hall q Hq)|subst q]; lia.
Qed.

(** [read] gives the next bytes, at least one of them if any are left. *)
Lemma read_spec s own M U id data r rest n :
  st_ok s own M U → id ∉ U → rdr_at s own id r data rest → 0 ≤ n →
  spec (Reader.read r n) s
    (λ or s', reads s s' own M U ∧ ∃ rest', rest = or.1 ++ rest' ∧ rdr_at s' own id or.2 data rest' ∧
      zlen or.1 ≤ n ∧ (0 < n → rest ≠ [] → or.1 ≠ []))
    (λ _ s', reads s s' own M U ∧ ¬ dp_steady (Storage.depot s)) (λ s', reads s s' own M U ∧ ¬ dp_steady (Storage.depot s)).
Proof.
  intros Hs HU (a & frames & ps & i & o & Hr & Hdata & Hrest) Hn. unfold Reader.read.
  pose proof (rd_addrs _ _ _ _ _ _ _ _ _ Hr) as Hfrs. destruct (rd_idx _ _ _ _ _ _ _ _ _ Hr) as [Hidx Hir].
  pose proof (Forall2_length _ _ _ (rd_data _ _ _ _ _ _ _ _ _ Hr)) as Hlen. rewrite length_fmap in Hlen.
  rewrite Hfrs, Hidx. destruct (_ || _) eqn:Hend.
  - apply spec_ret. split; [by apply reads_refl|]. exists rest. cbn [fst snd]. split; [done|].
    split; [by exists a, frames, ps, i, o|]. split; [by rewrite zlen_nil|]. intros Hn0 Hne. exfalso. apply Hne.
    apply orb_true_iff in Hend as [Hend|Hend]; zify_b; [|lia]. subst rest. rewrite zget_ge; [done|unfold zlen in *; lia].
  - apply orb_false_iff in Hend as [Hend1 Hend2]. zify_b.
    destruct (zget_is_Some ps i) as [p Hp]; [unfold zlen in *; lia|]. rewrite Hp in Hrest.
    destruct (rdr_frame _ _ _ _ _ _ _ _ _ _ Hr Hp) as (_ & _ & _ & Hpl).
    destruct (rd_cur _ _ _ _ _ _ _ _ _ Hr p Hp) as (Hpos & Ho & _).
    apply spec_bind. eapply spec_mono; [by apply load_spec| |done|done].
    intros dec s1 (Hr1 & Hok1 & Hdec & Hc1). apply spec_bind.
    eapply spec_mono; [apply (current_spec s1 own M U id a frames ps r i o p dec (proj1 Hr1) Hok1 Hc1)| |done|done].
    intros frame s2 (-> & Hr2 & Hok2 & Hc2). pose proof (reads_trans _ _ _ _ _ _ _ _ Hr1 Hr2) as Hr02.
    apply spec_bind. rewrite (copy_frame_ok r n p i o) by (done || lia || apply Hok2). apply spec_lift_ok.
    assert (Hol : zlen (ztake n (zdrop o p)) = Z.min n (zlen p - o)) by (rewrite zlen_ztake, zlen_zdrop by lia; lia).
    destruct (zlen p <=? _) eqn:Hex; zify_b.
    + destruct (rdr_next s2 own id a frames ps r i o p (ztake n (zdrop o p)) Hok2 Hp ltac:(lia)) as (k & Hk & Hnext).
      rewrite (rd_len _ _ _ _ _ _ _ _ _ Hok2), (rd_size _ _ _ _ _ _ _ _ _ Hok2), ?Hfrs, ?Hidx.
      apply spec_bind. eapply (spec_mono _ _ (λ k' s', k' = k ∧ s' = s2) (λ _ _, False) (λ _, False)); [|clear Hk|done|done].
      { destruct (i + 1 <? zlen frames); [rewrite Hk; by apply spec_lift_ok|injection Hk as ->; by apply spec_ret]. }
      intros k' s' [-> ->]. apply spec_ret. split; [done|]. cbn [fst snd].
      assert (Hout : ztake n (zdrop o p) = zdrop o p) by (apply ztake_ge; rewrite zlen_zdrop by lia; lia).
      rewrite Hout in *. exists (concat (zdrop (i + 1) ps)). split; [done|]. split; [|split; [lia|]].
      * eexists a, frames, ps, (i + 1), 0. split; [exact Hnext|]. split; [done|]. apply rest_next. lia.
      * intros _ _ Hnil. rewrite Hnil, zlen_nil in Hol. lia.
    + rewrite (rd_len _ _ _ _ _ _ _ _ _ Hok2), (rd_size _ _ _ _ _ _ _ _ _ Hok2).
      apply spec_ret. split; [done|]. cbn [fst snd]. exists (zdrop (o + n) p ++ concat (zdrop (i + 1) ps)).
      assert (Hmin : Z.min n (zlen p - o) = n) by lia. rewrite Hmin in *.
      split; [|split; [|split; [lia|]]].
      * rewrite Hrest, app_assoc. f_equal. rewrite <- (ztake_zdrop n (zdrop o p)) at 1. by rewrite zdrop_zdrop, Z.add_comm by lia.
      * exists a, frames, ps, i, (o + n). split; [|by rewrite Hp]. destruct Hok2. split; try done.
        -- cbn [Reader.pos Reader.dec_frame Reader.frm_key]. intros q Hq. assert (q = p) as -> by congruence.
           split; [lia|]. split; [lia|]. destruct Hdec as [->| ->]; [by left|right]. split; [done|]. intros Hlt. by exists p; apply Hc2.
      * intros Hn0 _ Hnil. rewrite Hnil, zlen_nil in Hol. lia.
Qed.
(** *** A whole entity *)

Lemma reader_new_spec s own M U id :
  st_ok s own M U → id ∉ U →
  spec (Reader.new id) s
    (λ r s', reads s s' own M U ∧ ∃ data, M !! id = Some data ∧ rdr_at s' own id r data data)
    (λ e s', reads s s' own M U ∧ ((e = NotFound ∧ M !! id = None) ∨ ¬ dp_steady (Storage.depot s)))
    (λ s', reads s s' own M U ∧ ¬ dp_steady (Storage.depot s)).
Proof.
  intros Hs HU. unfold Reader.new. apply spec_bind. eapply spec_mono; [by apply get_address_spec| | |done].
  2: { intros e s' [Hr He]. split; [done|]. destruct He as [(-> & Hn & _)|[_ He]]; [left|by right]. split; [done|].
       pose proof (so_view _ _ _ _ _ _ _ Hs id HU) as Hv. destruct (M !! id); [|done].
       destruct Hv as (a & (x & Hx & _) & _). congruence. }
  intros a s' (Hr & Ho & Ha). specialize (Ha HU). apply spec_bind, spec_ask, spec_bind.
  rewrite (so_crypto _ _ _ _ _ _ _ (proj1 Hr)).
  pose proof (dlen_range cr) as Hd. rewrite Crypto.decrypted_len_ok by (unfold dlen in Hd; lia). fold (dlen cr).
  apply spec_lift_ok, spec_bind. pose proof Ho as (Haok & Hne & _).
  destruct (AddrProofs.divide_to_frames_ok a Haok Hne) as (frames & -> & Hfr). apply spec_lift_ok.
  pose proof (divide_framing a frames Haok Hfr) as Hframing.
  assert (Hf0 : ∃ f, zget frames 0 = Some f).
  { destruct Hfr as (dn & cur & -> & _). destruct dn; by eexists. }
  destruct Hf0 as [f Hf]. destruct (frames_first a frames 0 f Haok Hfr Hf) as (_ & _ & _ & k & Hk & Hh).
  rewrite Hk. apply spec_bind, spec_lift_ok, spec_ret. split; [done|].
  pose proof (so_view _ _ _ _ _ _ _ Hs id HU) as Hv. destruct (M !! id) as [data|]; [|destruct Ha as (x & Hx & _); congruence].
  destruct Hv as (a' & Ha' & fs & ps & Hfs & Hps & Hpok & Hdata). assert (a' = a) as -> by by eapply address_inj.
  assert (fs = (λ f, (Addr.blocks f, Addr.len f)) <$> frames) as -> by by eapply framing_unique.
  exists data. split; [done|]. destruct Hr as [Hs' (HB & HA & _)]. exists a, frames, ps, 0, 0. split; [|split; [done|]].
  - split; try done; cbn [Reader.frm_idx Reader.pos Reader.dec_frame Reader.frm_key].
    + destruct Ha as (x & Hx & Hdx). exists x. by rewrite HA.
    + by rewrite HB.
    + split; [done|]. pose proof (zlen_nonneg ps). lia.
    + intros p Hp. split; [lia|]. split; [|by left]. destruct Hpok as (init & lst & -> & Hall & Hl).
      apply zget_Some in Hp as [_ Hp%list_elem_of_lookup_2].
      apply elem_of_app in Hp as [Hp|Hp%list_elem_of_singleton]; [rewrite Forall_forall in Hall; rewrite (Hall p Hp)|subst p]; lia.
    + intros g Hg. congruence.
  - rewrite <- rest_next by done. by rewrite zdrop_0 by lia.
Qed.

(** [Read::read_to_end], with buffers of any sizes: up to the first call that reads nothing. *)
Fixpoint read_to_end (fuel : nat) (size : nat → Z) r : run St bytes :=
  match fuel with
  | O => lift Panic
  | S fuel =>
      '(out, r) ← Reader.read r (size fuel);
      match out with [] => mret [] | _ => rest ← read_to_end fuel size r; mret (out ++ rest) end
  end.

Lemma read_to_end_spec fuel size s own M U id data r rest :
  st_ok s own M U → id ∉ U → rdr_at s own id r data rest → (∀ i : nat, 0 < size i) → (length rest < fuel)%nat →
  spec (read_to_end fuel size r) s (λ x s', x = rest ∧ reads s s' own M U)
    (λ _ s', reads s s' own M U ∧ ¬ dp_steady (Storage.depot s)) (λ s', reads s s' own M U ∧ ¬ dp_steady (Storage.depot s)).
Proof.
  revert s r rest. induction fuel as [|fuel IH]; intros s r rest Hs HU Hr Hsize Hfuel; [lia|]. cbn [read_to_end].
  apply spec_bind. specialize (Hsize fuel) as Hn.
  eapply spec_mono; [by apply (read_spec s own M U id data r rest (size fuel)); [..|lia]| |done|done].
  intros [out r'] s' (Hrd & rest' & -> & Hr' & _ & Hpos). cbn [fst snd] in *. destruct out as [|x out].
  - apply spec_ret. split; [|done]. destruct rest'; [done|]. by destruct (Hpos Hn).
  - apply spec_bind. eapply spec_mono; [apply (IH s' r' rest'); try done| | |].
    + apply Hrd.
    + simpl in Hfuel. rewrite length_app in Hfuel. lia.
    + intros y s2 [-> Hrd2]. apply spec_ret. split; [done|]. by eapply reads_trans.
    + intros e s2 [Hrd2 Hst]. split; [by eapply reads_trans|]. intros Hst0. by apply Hst, (proj2 Hrd).
    + intros s2 [Hrd2 Hst]. split; [by eapply reads_trans|]. intros Hst0. by apply Hst, (proj2 Hrd).
Qed.
End read.
