(* ===== verification/StorageSpec.v ===== *)
(** * What a storage promises: src/volume/storage/storage.rs. *)
From S2P Require Import Prelude Run Base Address Crypto Armor Storage StorageProofs StorageWrite StorageRead.

Section spec.
Context `{!Sodium, !SodiumLaws, !AddrSerde, !AddrSerdeLaws}.
Context {D R FM AM : Type} `{!Storable D, !StorableLaws D, !Random R, !RandomLaws R}.
Context `{!LinkedMapOps Z bytes FM, !LinkedMap Z bytes FM, !LinkedMapOps Eid Addr.Addr AM, !LinkedMap Eid Addr.Addr AM}.
Context (cr : Crypto.Crypto) (ky : bytes).
Abbreviation St := (Storage.St D R FM AM).
Abbreviation act := (run St).
Abbreviation st_ok := (StorageProofs.st_ok cr ky).
Implicit Types (s : St) (own : Z → option Eid) (M W : gmap Eid bytes) (U V : gset Eid) (id : Eid).

(** ** Only writers allocate *)

Definition wmark s : Z := Allocator.blk_wmark (Storage.allocator (Storage.sto s)).

Lemma on_depot_stable {T} (m : run D T) : stable wmark (Storage.on_depot (R:=R) (FM:=FM) (AM:=AM) m).
Proof. by apply stable_zoom. Qed.
Lemma set_frames_stable c : stable wmark (Storage.set_frames (D:=D) (R:=R) (AM:=AM) c).
Proof. done. Qed.
Lemma set_addrs_stable c : stable wmark (Storage.set_addrs (D:=D) (R:=R) (FM:=FM) c).
Proof. done. Qed.
Lemma the_stable {T} (f : Storage.Storage FM AM → T) : stable wmark (Storage.the (D:=D) (R:=R) f).
Proof. done. Qed.
Lemma draw_stable n : stable wmark (Storage.draw (D:=D) (R:=R) (FM:=FM) (AM:=AM) n).
Proof. intros s. unfold Storage.draw. by destruct (random_buf n (Storage.rng s)). Qed.
Hint Resolve on_depot_stable set_frames_stable set_addrs_stable the_stable draw_stable : stable.

Ltac stable := repeat first [progress intros | progress auto with stable | apply stable_bind | case_match].

Lemma get_address_stable id : stable wmark (Storage.get_address (D:=D) (R:=R) (FM:=FM) id).
Proof. unfold Storage.get_address, Storage.decrypt. stable. Qed.
Lemma put_address_stable id a : stable wmark (Storage.put_address (D:=D) (R:=R) (FM:=FM) (AM:=AM) id a).
Proof. unfold Storage.put_address, Storage.encrypt. stable. Qed.
Lemma remove_spans_stable l n : stable wmark (Storage.remove_spans (D:=D) (R:=R) (FM:=FM) (AM:=AM) l n).
Proof. revert n. induction l as [|ls l IH]; intros n; cbn [Storage.remove_spans]; stable. Qed.
Hint Resolve get_address_stable put_address_stable remove_spans_stable : stable.
Lemma del_stable id : stable wmark (Storage.del (D:=D) (R:=R) (FM:=FM) id).
Proof. unfold Storage.del, Storage.remove_address_blocks. stable. Qed.
Lemma reader_new_stable id : stable wmark (Reader.new (D:=D) (R:=R) (FM:=FM) id).
Proof. unfold Reader.new. stable. Qed.

(** ** Commands, and what they mean *)

(** Slices written one after another, and the sizes of the buffers that are read into. *)
Inductive Cmd : Type :=
| Put (id : Eid) (slices : list bytes)
| Get (id : Eid) (fuel : nat) (size : nat → Z)
| Del (id : Eid)
| PutWal (id : Eid) (slices : list bytes)
| GetWal (id : Eid) (fuel : nat) (size : nat → Z)
| DelWal (id : Eid).

(** [Read::read_to_end] of a log. *)
Fixpoint wal_to_end (fuel : nat) (size : nat → Z) (r : WalIo.WalReader) : act bytes :=
  match fuel with
  | O => lift Panic
  | S fuel =>
      '(out, r) ← WalIo.read r (size fuel);
      match out with [] => mret [] | _ => rest ← wal_to_end fuel size r; mret (out ++ rest) end
  end.

Definition exec (c : Cmd) : act (option bytes) :=
  match c with
  | Put id l => w ← Writer.new id; w ← write_slices l w; _ ← Writer.finish w; mret None
  | Get id fuel size => r ← Reader.new id; x ← read_to_end fuel size r; mret (Some x)
  | Del id => _ ← Storage.del id; mret None
  | PutWal id l => _ ← WalIo.finish (foldl (λ w b, (WalIo.write w b).2) (WalIo.wtr_new id) l); mret None
  | GetWal id fuel size => x ← wal_to_end fuel size (WalIo.new id); mret (Some x)
  | DelWal id => _ ← Storage.del_wal id; mret None
  end.

(** Two maps, and the ids of which nothing is known because a call that changes them failed. *)
Record Abs := mkAbs { ents : gmap Eid bytes; edirty : gset Eid; logs : gmap Eid bytes; ldirty : gset Eid }.
Implicit Types (A : Abs).

Definition answer A (c : Cmd) : res (option bytes) :=
  match c with
  | Get id _ _ => x ← ok_or NotFound (ents A !! id); Ok (Some x)
  | GetWal id _ _ => x ← ok_or NotFound (logs A !! id); Ok (Some x)
  | _ => Ok None
  end.
Definition next A (c : Cmd) : Abs :=
  match c with
  | Put id l => mkAbs (<[id := concat l]> (ents A)) (edirty A ∖ {[id]}) (logs A) (ldirty A)
  | Del id => mkAbs (delete id (ents A)) (edirty A ∖ {[id]}) (logs A) (ldirty A)
  | PutWal id l => mkAbs (ents A) (edirty A) (<[id := concat l]> (logs A)) (ldirty A ∖ {[id]})
  | DelWal id => mkAbs (ents A) (edirty A) (delete id (logs A)) (ldirty A ∖ {[id]})
  | _ => A
  end.
(** After a call that failed. *)
Definition spoil A (c : Cmd) : Abs :=
  match c with
  | Put id _ | Del id => mkAbs (ents A) ({[id]} ∪ edirty A) (logs A) (ldirty A)
  | PutWal id _ | DelWal id => mkAbs (ents A) (edirty A) (logs A) ({[id]} ∪ ldirty A)
  | _ => A
  end.

(** An entity is not empty, what is read is known, and there is fuel to read all of it. *)
Definition legal A (c : Cmd) : Prop :=
  match c with
  | Put _ l => concat l ≠ []
  | Get id fuel size => (id ∉ edirty A) ∧ (∀ i : nat, 0 < size i) ∧ ∀ x, ents A !! id = Some x → (length x < fuel)%nat
  | GetWal id fuel size => (id ∉ ldirty A) ∧ (∀ i : nat, 0 < size i) ∧ (0 < fuel)%nat ∧ ∀ x, logs A !! id = Some x → (length x < fuel)%nat
  | PutWal _ l => zlen (concat l) < 2 ^ 63
  | _ => True
  end.
(** The blocks that a command allocates at most. *)
Definition blocks_of (c : Cmd) : Z :=
  match c with Put _ l => BLKS_PER_FRAME * (zlen (concat l) / dlen cr + 1) | _ => 0 end.

Definition wals_ok (d : D) W V : Prop := ∀ id, id ∉ V →
  match W !! id with
  | Some data => ∃ x, dp_wals d !! id = Some x ∧ Crypto.decrypt cr x ky = Ok data
  | None => dp_wals d !! id = None
  end.
(** The storage holds what the maps say. *)
Definition holds s A : Prop :=
  (∃ own, st_ok s own (ents A) (edirty A)) ∧ wals_ok (Storage.depot s) (logs A) (ldirty A).
(** ** Logs *)

Lemma wals_ok_keeps (d d' : D) W V : dp_wals d' = dp_wals d → wals_ok d W V → wals_ok d' W V.
Proof. unfold wals_ok. by intros ->. Qed.
Lemma wals_ok_dirty (d : D) W V (V' : gset Eid) : V ⊆ V' → wals_ok d W V → wals_ok d W V'.
Proof. intros HV Hw id Hid. apply Hw. set_solver. Qed.

(** A reader of a log. *)
Definition wal_at (r : WalIo.WalReader) id (data rest : bytes) : Prop :=
  WalIo.id r = id ∧ ((WalIo.wal r = [] ∧ WalIo.pos r = 0) ∨ WalIo.wal r = data) ∧
  0 ≤ WalIo.pos r ≤ zlen data ∧ rest = zdrop (WalIo.pos r) data.

Lemma wal_read_spec s own M U W V id data r rest (n : Z) :
  st_ok s own M U → wals_ok (Storage.depot s) W V → id ∉ V → W !! id = Some data → wal_at r id data rest → 0 ≤ n →
  spec (WalIo.read r n) s
    (λ or s', reads cr ky s s' own M U ∧ or.1 = ztake n rest ∧ wal_at or.2 id data (zdrop n rest))
    (λ _ s', reads cr ky s s' own M U ∧ ¬ dp_steady (Storage.depot s))
    (λ s', reads cr ky s s' own M U ∧ ¬ dp_steady (Storage.depot s)).
Proof.
  intros Hs Hw HV Hid (<- & Hwal & Hpos & ->) Hn. unfold WalIo.read. apply spec_bind.
  eapply (spec_mono _ _ (λ w s', w = data ∧ reads cr ky s s' own M U)
    (λ _ s', reads cr ky s s' own M U ∧ ¬ dp_steady (Storage.depot s)) (λ s', reads cr ky s s' own M U ∧ ¬ dp_steady (Storage.depot s))).
  - destruct (WalIo.wal r) as [|x w] eqn:Hr.
    2: { apply spec_ret. destruct Hwal as [[? _]|<-]; [done|]. split; [done|by apply reads_refl]. }
    apply spec_bind, spec_map_err, on_depot_spec. specialize (Hw _ HV). rewrite Hid in Hw. destruct Hw as (x & Hx & Hdec).
    eapply spec_mono; [apply get_wal_law| | |].
    + intros y d [Hy Hd]. assert (y = x) as -> by congruence. pose proof (reads_depot cr ky s d own M U Hs Hd) as Hrd.
      apply spec_map_err. eapply decrypt_spec; [apply Hrd|]. rewrite Hdec. by apply spec_lift_ok.
    + intros e d [Hd [[_ Hn']|[_ Hst]]]; [congruence|]. split; [by apply reads_depot|done].
    + intros d [Hd Hst]. split; [by apply reads_depot|done].
  - intros w s' [-> Hrd]. apply spec_bind.
    assert (Hsl : vslice data (WalIo.pos r) (WalIo.pos r + Z.min (zlen data - WalIo.pos r) n) = Ok (ztake n (zdrop (WalIo.pos r) data))).
    { unfold vslice. rewrite (proj2 (andb_true_iff _ _)) by (split; apply Z.leb_le; lia). f_equal.
      assert (Hz : zlen (zdrop (WalIo.pos r) data) = zlen data - WalIo.pos r) by (rewrite zlen_zdrop by lia; lia).
      destruct (decide (n ≤ zlen data - WalIo.pos r)); [f_equal; lia|]. by rewrite !ztake_ge by lia. }
    rewrite Hsl. apply spec_lift_ok, spec_ret. split; [done|]. split; [done|]. split; [done|].
    cbn [fst snd WalIo.wal WalIo.pos]. split; [by right|]. split; [lia|].
    destruct (decide (n ≤ zlen data - WalIo.pos r)).
    + rewrite zdrop_zdrop by lia. f_equal. lia.
    + rewrite !zdrop_ge; [done|lia|rewrite zlen_zdrop by lia; lia].
  - done.
  - done.
Qed.

Lemma wal_to_end_spec fuel size s own M U W V id data r rest :
  st_ok s own M U → wals_ok (Storage.depot s) W V → id ∉ V → W !! id = Some data → wal_at r id data rest →
  (∀ i : nat, 0 < size i) → (length rest < fuel)%nat →
  spec (wal_to_end fuel size r) s (λ x s', x = rest ∧ reads cr ky s s' own M U)
    (λ _ s', reads cr ky s s' own M U ∧ ¬ dp_steady (Storage.depot s))
    (λ s', reads cr ky s s' own M U ∧ ¬ dp_steady (Storage.depot s)).
Proof.
  revert s r rest. induction fuel as [|fuel IH]; intros s r rest Hs Hw HV Hid Hr Hsize Hfuel; [lia|]. cbn [wal_to_end].
  apply spec_bind. pose proof (Hsize fuel) as Hn.
  eapply spec_mono; [by apply (wal_read_spec s own M U W V id data r rest (size fuel)); [..|lia]| |done|done].
  intros [out r'] s' (Hrd & Hout & Hr'). cbn [fst snd] in *. destruct out as [|x out].
  - apply spec_ret. split; [|done]. destruct rest as [|y rest]; [done|]. unfold ztake in Hout.
    destruct (Z.to_nat (size fuel)) eqn:Hsz; [lia|done].
  - apply spec_bind. eapply spec_mono; [apply (IH s' r' (zdrop (size fuel) rest)); try done| | |].
    + apply Hrd.
    + eapply wals_ok_keeps; [|done]. apply Hrd.
    + destruct rest as [|y rest]; [by rewrite ztake_nil in Hout|]. unfold zdrop. rewrite length_drop. simpl in *. lia.
    + intros y s2 [-> Hrd2]. apply spec_ret. split; [by rewrite Hout, ztake_zdrop|]. by eapply reads_trans.
    + intros e s2 [Hrd2 Hst]. split; [by eapply reads_trans|]. intros Hst0. by apply Hst, (proj2 Hrd).
    + intros s2 [Hrd2 Hst]. split; [by eapply reads_trans|]. intros Hst0. by apply Hst, (proj2 Hrd).
Qed.

(** That there is no such log is an error. *)
Lemma wal_none_spec fuel size s own M U W V id :
  st_ok s own M U → wals_ok (Storage.depot s) W V → id ∉ V → W !! id = None → (0 < fuel)%nat →
  spec (wal_to_end fuel size (WalIo.new id)) s (λ _ _, False)
    (λ e s', reads cr ky s s' own M U ∧ (e = NotFound ∨ ¬ dp_steady (Storage.depot s)))
    (λ s', reads cr ky s s' own M U ∧ ¬ dp_steady (Storage.depot s)).
Proof.
  intros Hs Hw HV Hid Hfuel. destruct fuel as [|fuel]; [lia|]. cbn [wal_to_end]. unfold WalIo.read. cbn [WalIo.wal WalIo.id WalIo.new].
  specialize (Hw _ HV). rewrite Hid in Hw.
  apply spec_bind, spec_bind, spec_bind, spec_map_err, on_depot_spec. eapply spec_mono; [apply get_wal_law| | |].
  - intros y d [Hy Hd]. congruence.
  - intros e d [Hd He]. split; [by apply reads_depot|]. destruct He as [[-> _]|[_ He]]; [by left|by right].
  - intros d [Hd Hst]. split; [by apply reads_depot|done].
Qed.

(** Writing the log, in one go at the end. *)
Lemma wal_buf id l w : WalIo.wid w = id →
  let w' := foldl (λ w b, (WalIo.write w b).2) w l in WalIo.wid w' = id ∧ WalIo.buf w' = WalIo.buf w ++ concat l.
Proof.
  revert w. induction l as [|b l IH]; intros w Hw; cbn [foldl concat]; [by rewrite app_nil_r|].
  destruct (IH (WalIo.write w b).2 Hw) as [H1' H2']. split; [done|]. rewrite H2'. cbn [snd WalIo.write WalIo.buf]. by rewrite app_assoc.
Qed.
(** Changing a log leaves entities and other logs alone. *)
Lemma wal_put_ok (d d' : D) W V id x data :
  wals_ok d W V → dp_wals d' = <[id := x]> (dp_wals d) → Crypto.decrypt cr x ky = Ok data →
  wals_ok d' (<[id := data]> W) (V ∖ {[id]}).
Proof.
  intros Hw HL Hx i Hi. rewrite HL. destruct (decide (i = id)) as [->|Hne].
  - rewrite !lookup_insert_eq. eauto.
  - rewrite !lookup_insert_ne by done. apply Hw. set_solver.
Qed.
Lemma wal_del_ok (d d' : D) W V id :
  wals_ok d W V → dp_wals d' = delete id (dp_wals d) → wals_ok d' (delete id W) (V ∖ {[id]}).
Proof.
  intros Hw HL i Hi. rewrite HL. destruct (decide (i = id)) as [->|Hne].
  - by rewrite !lookup_delete_eq.
  - rewrite !lookup_delete_ne by done. apply Hw. set_solver.
Qed.
Lemma wal_spoil_ok (d d' : D) W V id :
  wals_ok d W V → (∀ i, i ≠ id → dp_wals d' !! i = dp_wals d !! i) → wals_ok d' W ({[id]} ∪ V).
Proof. intros Hw HL i Hi. rewrite HL by set_solver. apply Hw. set_solver. Qed.

(** *** Every command does what the maps say, or fails because the depot or the cipher does *)

Definition steadier s s' : Prop := dp_steady (Storage.depot s) → dp_steady (Storage.depot s').

Lemma holds_reads s s' own A :
  reads cr ky s s' own (ents A) (edirty A) → wals_ok (Storage.depot s) (logs A) (ldirty A) → holds s' A ∧ steadier s s'.
Proof.
  intros [Hs (_ & _ & HL & HS)] Hw. split; [|done]. split; [by exists own|]. by eapply wals_ok_keeps.
Qed.

Lemma exec_get_spec s A id fuel size :
  holds s A → legal A (Get id fuel size) →
  spec (exec (Get id fuel size)) s (λ a s', answer A (Get id fuel size) = Ok a ∧ holds s' A ∧ steadier s s')
    (λ e s', (answer A (Get id fuel size) = Err e ∨ ¬ dp_steady (Storage.depot s)) ∧ holds s' A ∧ steadier s s')
    (λ s', ¬ dp_steady (Storage.depot s) ∧ holds s' A ∧ steadier s s').
Proof.
  intros [[own Hs] Hw] (HU & Hsize & Hfuel). cbn [exec answer]. apply spec_bind.
  eapply spec_mono; [by apply (reader_new_spec cr ky s own (ents A) (edirty A) id)| | |].
  - intros r s1 (Hr & data & Hid & Hat). rewrite Hid in *.
    apply spec_bind. destruct (holds_reads _ _ _ _ Hr Hw) as [[_ Hw1] _].
    eapply spec_mono; [apply (read_to_end_spec cr ky fuel size s1 own (ents A) (edirty A) id data r data);
      [apply Hr|done|done|done|by apply Hfuel]| | |].
    + intros x s2 [-> Hr2]. apply spec_ret. split; [done|]. by eapply holds_reads; [eapply reads_trans|].
    + intros e s2 [Hr2 Hst]. split; [right; intros Hst0; by apply Hst, (proj2 Hr)|]. by eapply holds_reads; [eapply reads_trans|].
    + intros s2 [Hr2 Hst]. split; [intros Hst0; by apply Hst, (proj2 Hr)|]. by eapply holds_reads; [eapply reads_trans|].
  - intros e s1 [Hr He]. split; [|by eapply holds_reads]. destruct He as [[-> Hn]|He]; [left|by right]. by rewrite Hn.
  - intros s1 [Hr Hst]. split; [done|]. by eapply holds_reads.
Qed.

Lemma exec_get_wal_spec s A id fuel size :
  holds s A → legal A (GetWal id fuel size) →
  spec (exec (GetWal id fuel size)) s (λ a s', answer A (GetWal id fuel size) = Ok a ∧ holds s' A ∧ steadier s s')
    (λ e s', (answer A (GetWal id fuel size) = Err e ∨ ¬ dp_steady (Storage.depot s)) ∧ holds s' A ∧ steadier s s')
    (λ s', ¬ dp_steady (Storage.depot s) ∧ holds s' A ∧ steadier s s').
Proof.
  intros [[own Hs] Hw] (HV & Hsize & Hfuel0 & Hfuel). cbn [exec answer]. apply spec_bind.
  destruct (logs A !! id) as [data|] eqn:Hid.
  - eapply spec_mono; [apply (wal_to_end_spec fuel size s own (ents A) (edirty A) (logs A) (ldirty A) id data (WalIo.new id) data); try done| | |].
    + split; [done|]. split; [by left|]. cbn. split; [pose proof (zlen_nonneg data); lia|by rewrite zdrop_0 by lia].
    + by apply Hfuel.
    + intros x s2 [-> Hr2]. apply spec_ret. split; [done|]. by eapply holds_reads.
    + intros e s2 [Hr2 Hst]. split; [by right|]. by eapply holds_reads.
    + intros s2 [Hr2 Hst]. split; [done|]. by eapply holds_reads.
  - eapply spec_mono; [by apply (wal_none_spec fuel size s own (ents A) (edirty A) (logs A) (ldirty A) id)| | |].
    + done.
    + intros e s2 [Hr2 He]. split; [|by eapply holds_reads]. destruct He as [-> |He]; [by left|by right].
    + intros s2 [Hr2 Hst]. split; [done|]. by eapply holds_reads.
Qed.
Lemma spec_stable {T} (m : act T) s n : stable wmark m → wmark s < n →
  spec m s (λ _ s', wmark s' < n) (λ _ _, True) (λ _, True).
Proof. unfold spec. intros Hm Hs. specialize (Hm s). destruct (m s) as [[[]|] s']; cbn [snd] in *; [lia|done..]. Qed.

(** Finishing allocates no more than the last frame. *)
Lemma finish_wmark s own M U w data lim :
  lim ≤ 2 ^ 50 → st_ok s own M U → wtr_at cr ky s own w data → data ≠ [] → room cr lim s w 0 →
  spec (Writer.finish w) s (λ _ s', wmark s' < lim) (λ _ _, True) (λ _, True).
Proof.
  intros Hlim Hs Hw Hne Hroom. unfold Writer.finish, Storage.remove_address_blocks. apply spec_bind.
  eapply spec_mono; [by apply (last_frame_spec cr ky lim Hlim s own M U w data)| |done|done].
  intros w' s' (_ & _ & _ & _ & Hwm). apply spec_stable; [stable|done].
Qed.

Lemma exec_put_spec s A id l :
  holds s A → concat l ≠ [] → wmark s + blocks_of (Put id l) < 2 ^ 50 →
  spec (exec (Put id l)) s
    (λ a s', a = None ∧ holds s' (next A (Put id l)) ∧ steadier s s' ∧ wmark s' ≤ wmark s + blocks_of (Put id l))
    (λ e s', (Crypto.aead_fails ∨ ¬ dp_steady (Storage.depot s)) ∧ holds s' (spoil A (Put id l)) ∧ steadier s s')
    (λ s', ¬ dp_steady (Storage.depot s) ∧ holds s' (spoil A (Put id l)) ∧ steadier s s').
Proof.
  intros [[own Hs] Hw] Hne Hroom. cbn [exec]. set (lim := wmark s + blocks_of (Put id l) + 1).
  assert (Hlim : lim ≤ 2 ^ 50) by lia.
  assert (Hkeep : ∀ s', keeps s s' → wals_ok (Storage.depot s') (logs A) (ldirty A)) by (intros s' [HL _]; by eapply wals_ok_keeps).
  assert (Hq : ∀ s', quits cr ky s s' own (ents A) (edirty A) →
    (Crypto.aead_fails ∨ ¬ dp_steady (Storage.depot s)) ∧ holds s' (spoil A (Put id l)) ∧ steadier s s').
  { intros s' (Hs' & (HK & _) & Hst). split; [done|]. split; [|exact (proj2 HK)]. split; [exists own; by apply st_ok_dirty|by apply Hkeep]. }
  assert (Hh : ∀ s', halts cr ky s s' own (ents A) (edirty A) →
    ¬ dp_steady (Storage.depot s) ∧ holds s' (spoil A (Put id l)) ∧ steadier s s').
  { intros s' Hh. split; [apply Hh|]. by apply Hq, halts_quits. }
  apply spec_bind. eapply spec_mono; [by apply (new_spec cr ky s own (ents A) (edirty A) id)| |done|done].
  intros w s0 (-> & Hw0 & Hid0 & Hstg0).
  assert (Hroom0 : room cr lim s w (zlen (concat l) + 0)).
  { unfold room, need. rewrite Hstg0, zlen_nil, Z.add_0_l, Z.add_0_r. unfold lim, wmark, blocks_of in *. lia. }
  apply spec_bind. eapply spec_mono; [apply (write_slices_spec cr ky lim Hlim s own (ents A) (edirty A) w [] l 0 Hs Hw0 ltac:(done) Hroom0)| | |].
  2: intros e s'; apply Hq. 2: intros s'; apply Hh.
  intros w1 s1 (Hs1 & (HK1 & Hext1) & Hw1 & Hid1 & Hroom1). cbn [app] in Hw1. rewrite Hid0 in Hid1.
  apply spec_bind. eapply spec_mono.
  { apply spec_and; [apply (finish_spec cr ky lim Hlim s1 own (ents A) (edirty A) w1 (concat l) Hs1 Hw1 Hne Hroom1)|].
    apply (finish_wmark s1 own (ents A) (edirty A) w1 (concat l) lim Hlim Hs1 Hw1 Hne Hroom1). }
  - intros [] s2 [(own' & Hs2 & HK2) Hwm]. apply spec_ret. rewrite Hid1 in Hs2.
    assert (HK : keeps s s2) by by eapply keeps_trans.
    split; [done|]. split; [split; [by exists own'|by apply Hkeep]|]. split; [exact (proj2 HK)|]. unfold lim in Hwm. lia.
  - intros e s2 [(own' & Hb) _]. apply (botches_trans cr ky s s1) in Hb; [|done]. destruct Hb as (Hs2 & HK2 & Hst).
    rewrite Hid1 in Hs2. split; [done|]. split; [split; [by exists own'|by apply Hkeep]|exact (proj2 HK2)].
  - intros s2 [(own' & Hb) _]. apply (spoils_trans cr ky s s1) in Hb; [|done]. destruct Hb as (Hs2 & HK2 & Hst).
    rewrite Hid1 in Hs2. split; [done|]. split; [split; [by exists own'|by apply Hkeep]|exact (proj2 HK2)].
Qed.
Lemma exec_del_spec s A id :
  holds s A →
  spec (exec (Del id)) s (λ a s', a = None ∧ holds s' (next A (Del id)) ∧ steadier s s')
    (λ e s', ¬ dp_steady (Storage.depot s) ∧ holds s' (spoil A (Del id)) ∧ steadier s s')
    (λ s', ¬ dp_steady (Storage.depot s) ∧ holds s' (spoil A (Del id)) ∧ steadier s s').
Proof.
  intros [[own Hs] Hw]. cbn [exec]. apply spec_bind.
  assert (Hb : ∀ s', spoils cr ky s s' own (ents A) (edirty A) id →
    ¬ dp_steady (Storage.depot s) ∧ holds s' (spoil A (Del id)) ∧ steadier s s').
  { intros s' (Hs' & [HL HS] & Hst). split; [done|]. split; [split; [by exists own|by eapply wals_ok_keeps]|done]. }
  eapply spec_mono; [by apply (sto_del_spec cr ky s own (ents A) (edirty A) id)| |intros e s'; apply Hb|intros s'; apply Hb].
  intros [] s' [Hs' [HL HS]]. apply spec_ret. split; [done|]. split; [split; [by exists own|by eapply wals_ok_keeps]|done].
Qed.

(** The calls on logs change nothing but the log. *)
Lemma wal_call s A id (L : gmap Eid bytes) (m : run D unit) (A' : Abs) (r : R) :
  holds s A → ents A' = ents A → edirty A' = edirty A →
  (∀ d, dp_wals d = L → wals_ok d (logs A') (ldirty A')) →
  let has := dp_has (dp_blks (Storage.depot s)) (dp_addrs (Storage.depot s)) L (Storage.depot s) in
  let bad d := dp_wal_within id (Storage.depot s) d ∧ ¬ dp_steady (Storage.depot s) in
  spec m (Storage.depot s) (λ _ d, has d) (λ _ d, bad d) (λ d, bad d) →
  let A'' := mkAbs (ents A) (edirty A) (logs A) ({[id]} ∪ ldirty A) in
  spec (Storage.on_depot m) (Storage.mkSt (Storage.depot s) r (Storage.sto s))
    (λ _ s', holds s' A' ∧ steadier s s')
    (λ _ s', ¬ dp_steady (Storage.depot s) ∧ holds s' A'' ∧ steadier s s')
    (λ s', ¬ dp_steady (Storage.depot s) ∧ holds s' A'' ∧ steadier s s').
Proof.
  intros [[own Hs] Hw] HE HU Hok has bad Hm A''.
  assert (Hst_ok : ∀ d L', dp_has (dp_blks (Storage.depot s)) (dp_addrs (Storage.depot s)) L' (Storage.depot s) d →
    st_ok (Storage.mkSt d r (Storage.sto s)) own (ents A) (edirty A)).
  { intros d L' (HB & HA & _). by eapply store_ok_eq. }
  assert (Hbad : ∀ d, bad d → let s' := Storage.mkSt d r (Storage.sto s) in
    ¬ dp_steady (Storage.depot s) ∧ holds s' A'' ∧ steadier s s').
  { intros d [(L' & Hd & Hne) Hst]. split; [done|].
    split; [split; [exists own; by eapply Hst_ok|]|by destruct Hd as (_ & _ & _ & HS)].
    eapply wal_spoil_ok; [exact Hw|]. intros i Hi. cbn [Storage.depot]. rewrite (proj1 (proj2 (proj2 Hd))). by apply Hne. }
  apply on_depot_spec. eapply spec_mono; [exact Hm| |intros e d; apply Hbad|intros d; apply Hbad].
  intros [] d Hd. split; [|by destruct Hd as (_ & _ & _ & HS)]. split.
  - exists own. rewrite HE, HU. by eapply Hst_ok.
  - apply Hok, Hd.
Qed.

Lemma exec_wal_spec s A c : holds s A → legal A c → (∃ id, (∃ l, c = PutWal id l) ∨ c = DelWal id) →
  spec (exec c) s (λ a s', a = None ∧ holds s' (next A c) ∧ steadier s s')
    (λ e s', (Crypto.aead_fails ∨ ¬ dp_steady (Storage.depot s)) ∧ holds s' (spoil A c) ∧ steadier s s')
    (λ s', ¬ dp_steady (Storage.depot s) ∧ holds s' (spoil A c) ∧ steadier s s').
Proof.
  intros Hh Hl (id & [[l ->]| ->]); pose proof Hh as [[own Hs] Hw]; cbn [exec next spoil]; apply spec_bind.
  - unfold WalIo.finish. destruct (wal_buf id l (WalIo.wtr_new id) eq_refl) as [-> ->]. cbn [WalIo.buf WalIo.wtr_new app].
    apply spec_bind. eapply encrypt_spec; [exact Hs|exact Hl| |].
    + intros x r Hx. eapply spec_mono; [eapply (wal_call s A id (<[id := x]> (dp_wals (Storage.depot s))) _
        (next A (PutWal id l))); [done|done|done| |apply put_wal_law]| | |].
      * intros d Hd. cbn [next logs ldirty]. eapply wal_put_ok; [exact Hw|exact Hd|exact Hx].
      * intros [] s' Hs'. by apply spec_ret.
      * intros e s' (Hst & Hs'). split; [by right|done].
      * done.
    + intros r Hf. split; [by left|]. split; [|by intros Hst]. split; [by exists own|]. eapply wals_ok_dirty; [|exact Hw]. set_solver.
  - unfold Storage.del_wal. destruct s as [d r st].
    eapply spec_mono; [eapply (wal_call (Storage.mkSt d r st) A id (delete id (dp_wals d)) _ (next A (DelWal id)));
      [done|done|done| |apply del_wal_law]| | |].
    + intros d' Hd. cbn [next logs ldirty]. eapply wal_del_ok; [exact Hw|exact Hd].
    + intros [] s' Hs'. by apply spec_ret.
    + intros e s' (Hst & Hs'). split; [by right|done].
    + done.
Qed.
Lemma read_spans_stable l b : stable wmark (Reader.read_spans (D:=D) (R:=R) (FM:=FM) (AM:=AM) l b).
Proof. revert b. induction l as [|ls l IH]; intros b; cbn [Reader.read_spans]; unfold map_err; stable. Qed.
Hint Resolve read_spans_stable del_stable reader_new_stable : stable.
Lemma read_stable r n : stable wmark (Reader.read (D:=D) (R:=R) (FM:=FM) (AM:=AM) r n).
Proof. unfold Reader.read, Reader.load, Reader.current, map_err. stable. Qed.
Lemma wal_read_stable r n : stable wmark (WalIo.read (D:=D) (R:=R) (FM:=FM) (AM:=AM) r n).
Proof. unfold WalIo.read, map_err, Storage.decrypt. stable. Qed.
Hint Resolve read_stable wal_read_stable : stable.
Lemma exec_stable c : (∀ id l, c ≠ Put id l) → stable wmark (exec c).
Proof.
  intros Hc. destruct c as [id l|id fuel size|id|id l|id fuel size|id]; cbn [exec]; [by destruct (Hc id l)|..].
  - apply stable_bind; [auto with stable|]. intros r. apply stable_bind; [|stable]. clear Hc. revert r.
    induction fuel as [|fuel IH]; intros r; cbn [read_to_end]; stable.
  - stable.
  - unfold WalIo.finish, Storage.encrypt. stable.
  - apply stable_bind; [|stable]. clear Hc. generalize (WalIo.new id). induction fuel as [|fuel IH]; intros r; cbn [wal_to_end]; stable.
  - unfold Storage.del_wal. stable.
Qed.

Lemma exec_spec s A c :
  holds s A → legal A c → wmark s + blocks_of c < 2 ^ 50 →
  spec (exec c) s
    (λ a s', answer A c = Ok a ∧ holds s' (next A c) ∧ steadier s s' ∧ wmark s' ≤ wmark s + blocks_of c)
    (λ e s', (answer A c = Err e ∧ holds s' (next A c) ∧ steadier s s' ∧ wmark s' ≤ wmark s + blocks_of c) ∨
       ((Crypto.aead_fails ∨ ¬ dp_steady (Storage.depot s)) ∧ holds s' (spoil A c)))
    (λ s', ¬ dp_steady (Storage.depot s) ∧ holds s' (spoil A c)).
Proof.
  intros Hh Hl Hroom.
  assert (Hw : ∀ Q E F, (∀ id l, c ≠ Put id l) → spec (exec c) s Q E F → spec (exec c) s
    (λ a s', Q a s' ∧ wmark s' ≤ wmark s + blocks_of c) (λ e s', E e s' ∧ wmark s' ≤ wmark s + blocks_of c)
    (λ s', F s' ∧ wmark s' ≤ wmark s + blocks_of c)).
  { intros Q E F Hc Hsp. apply (spec_also _ _ _ _ _ (λ s', wmark s' ≤ wmark s + blocks_of c) Hsp).
    rewrite (exec_stable c Hc). destruct c; cbn [blocks_of]; try lia. by destruct (Hc id slices). }
  destruct c as [id l|id fuel size|id|id l|id fuel size|id].
  - eapply spec_mono; [by apply exec_put_spec|..]; cbn beta.
    + intros a s' (-> & H1' & H2' & H3'). done.
    + intros e s' (H1' & H2' & H3'). by right.
    + intros s' (H1' & H2' & H3'). done.
  - eapply spec_mono; [apply Hw; [done|by apply exec_get_spec]|..]; cbn beta.
    + tauto.
    + intros e s' (([H1'|H1'] & H2' & H3') & H4'); [by left|]. right. split; [by right|done].
    + tauto.
  - eapply spec_mono; [apply Hw; [done|by apply exec_del_spec]|..]; cbn beta.
    + intros a s' ((-> & H1' & H2') & H3'). done.
    + intros e s' ((H1' & H2' & H3') & H4'). right. split; [by right|done].
    + tauto.
  - eapply spec_mono; [apply Hw; [done|apply exec_wal_spec; eauto]|..]; cbn beta.
    + intros a s' ((-> & H1' & H2') & H3'). done.
    + intros e s' ((H1' & H2' & H3') & H4'). by right.
    + tauto.
  - eapply spec_mono; [apply Hw; [done|by apply exec_get_wal_spec]|..]; cbn beta.
    + tauto.
    + intros e s' (([H1'|H1'] & H2' & H3') & H4'); [by left|]. right. split; [by right|done].
    + tauto.
  - eapply spec_mono; [apply Hw; [done|apply exec_wal_spec; eauto]|..]; cbn beta.
    + intros a s' ((-> & H1' & H2') & H3'). done.
    + intros e s' ((H1' & H2' & H3') & H4'). by right.
    + tauto.
Qed.

(** ** Runs *)

Fixpoint results (cs : list Cmd) s : list (option (res (option bytes))) :=
  match cs with [] => [] | c :: cs => (exec c s).1 :: results cs (exec c s).2 end.
Fixpoint answers (cs : list Cmd) A : list (option (res (option bytes))) :=
  match cs with [] => [] | c :: cs => Some (answer A c) :: answers cs (next A c) end.
Fixpoint all_legal A (cs : list Cmd) : Prop :=
  match cs with [] => True | c :: cs => legal A c ∧ all_legal (next A c) cs end.

(** A new storage over an empty depot holds nothing. *)
Definition empty : Abs := mkAbs ∅ ∅ ∅ ∅.
Lemma new_holds s :
  Storage.allocator (Storage.sto s) = Allocator.new → Storage.crypto (Storage.sto s) = cr → Storage.key (Storage.sto s) = ky →
  Storage.frame_cache (Storage.sto s) = Lru.new (K:=Z) (V:=bytes) Storage.FRAME_CACHE_SIZE →
  Storage.addr_cache (Storage.sto s) = Lru.new (K:=Eid) (V:=Addr.Addr) Storage.ADDRESS_CACHE_SIZE →
  dp_addrs (Storage.depot s) = ∅ → dp_wals (Storage.depot s) = ∅ → holds s empty.
Proof.
  intros Hal Hc Hk HF HA Hd Hw. split; [|intros id _; cbn; by rewrite Hw].
  exists (λ _, None). split; try done; rewrite ?HF, ?HA, ?Hd, ?Hal; try done.
  - intros id a Ha. unfold Lru.new in Ha. cbn [Lru.map] in Ha. by rewrite lm_get_new in Ha.
  - intros k p Hp. unfold Lru.new in Hp. cbn [Lru.map] in Hp. by rewrite lm_get_new in Hp.
  - by apply lru_fits_new.
  - by apply lru_fits_new.
Qed.

(** C20: The calls of a storage do what two maps of bytes do. Writing slices to an entity and
    finishing makes it their concatenation, however they are cut into frames, encrypted and laid
    out in blocks; reading it with buffers of any sizes gives all of it and no more; deleting
    removes it, and to delete what is not there is no error; reading what is not there is
    [NotFound]; the same for logs. No other entity or log is affected. If a call fails or stops
    or panics, then the depot failed or the cipher refused a message, and at most the entity or
    log it was to change is in doubt. *)
Theorem storage_calls s A c :
  holds s A → legal A c → wmark s + blocks_of c < 2 ^ 50 →
  match exec c s with
  | (Some (Ok a), s') => answer A c = Ok a ∧ holds s' (next A c) ∧ wmark s' ≤ wmark s + blocks_of c
  | (Some (Err e), s') => (answer A c = Err e ∧ holds s' (next A c)) ∨
      ((Crypto.aead_fails ∨ ¬ dp_steady (Storage.depot s)) ∧ holds s' (spoil A c))
  | (_, s') => ¬ dp_steady (Storage.depot s) ∧ holds s' (spoil A c)
  end.
Proof.
  intros Hh Hl Hroom. pose proof (exec_spec s A c Hh Hl Hroom) as He. unfold spec in He.
  destruct (exec c s) as [[[a|e|]|] s']; [|destruct He as [He|He]; [left|right]; tauto|exact He|exact He]. tauto.
Qed.

(** C7: Over a depot that does not fail, any sequence of calls on a storage answers as the maps
    do: a storage refines a map from ids to bytes, whatever caches hold. *)
Theorem storage_refines_map s A cs :
  holds s A → dp_steady (Storage.depot s) → ¬ Crypto.aead_fails → all_legal A cs →
  wmark s + zsum blocks_of cs < 2 ^ 50 → results cs s = answers cs A.
Proof.
  revert s A. induction cs as [|c cs IH]; intros s A Hh Hst Hf Hl Hroom; cbn [results answers]; [done|].
  destruct Hl as [Hl Hls]. rewrite zsum_cons in Hroom.
  assert (Hb : ∀ cs, 0 ≤ zsum blocks_of cs).
  { clear. induction cs as [|c cs IH]; [done|]. rewrite zsum_cons. enough (0 ≤ blocks_of c) by lia. destruct c; try done.
    cbn [blocks_of]. pose proof (dlen_range cr). pose proof (zlen_nonneg (concat slices)).
    assert (0 ≤ zlen (concat slices) / dlen cr) by (apply Z.div_pos; lia). unfold BLKS_PER_FRAME. lia. }
  specialize (Hb cs). pose proof (exec_spec s A c Hh Hl ltac:(lia)) as He. unfold spec in He.
  destruct (exec c s) as [[[a|e|]|] s']; cbn [fst snd].
  - destruct He as (-> & Hh' & HS & Hw). f_equal. apply IH; [done|by apply HS|done|done|lia].
  - destruct He as [(-> & Hh' & HS & Hw)|[[?|?] _]]; [|done..]. f_equal. apply IH; [done|by apply HS|done|done|lia].
  - by destruct He.
  - by destruct He.
Qed.
End spec.
