(* ===== verification/MemStorage.v ===== *)
(** * src/volume/storage/mem/mem.rs: the depot in memory.

    All depots of the process are in one table, by location. A handle whose depot has been
    destroyed panics at its next use. *)
From stdpp Require Import strings.
From S2P Require Import Prelude Run Base Address Crypto Armor Storage StorageProofs.

Module Depot.
Record Depot := mkDepot {
  is_opened : bool; super_blk_map : gmap Z bytes; wal_map : gmap Eid bytes;
  blk_map : gmap Z bytes; addr_map : gmap Eid bytes
}.
Definition new : Depot := mkDepot false ∅ ∅ ∅ ∅.
Definition set_opened (b : bool) (d : Depot) : Depot :=
  mkDepot b (super_blk_map d) (wal_map d) (blk_map d) (addr_map d).
Definition set_supers (m : gmap Z bytes) (d : Depot) : Depot :=
  mkDepot (is_opened d) m (wal_map d) (blk_map d) (addr_map d).
Definition set_wals (m : gmap Eid bytes) (d : Depot) : Depot :=
  mkDepot (is_opened d) (super_blk_map d) m (blk_map d) (addr_map d).
Definition set_blks (m : gmap Z bytes) (d : Depot) : Depot :=
  mkDepot (is_opened d) (super_blk_map d) (wal_map d) m (addr_map d).
Definition set_addrs (m : gmap Eid bytes) (d : Depot) : Depot :=
  mkDepot (is_opened d) (super_blk_map d) (wal_map d) (blk_map d) m.
End Depot.

Module MemStorage.
(** A handle, with the table [STORAGES]. *)
Record Mem := mkMem { storages : gmap string Depot.Depot; is_attached : bool; loc : string }.
Abbreviation act := (run Mem).

Definition new (st : gmap string Depot.Depot) (l : string) : Mem := mkMem st false l.

(** [storages.get(&self.loc).unwrap()], and its change in place. *)
Definition depot : act Depot.Depot := λ m, (Some (unwrap (storages m !! loc m)), m).
Definition set_depot (d : Depot.Depot) : act unit :=
  modify (λ m, mkMem (<[loc m := d]> (storages m)) (is_attached m) (loc m)).

Definition lock_repo (force : bool) : act unit :=
  d ← depot;
  _ ← (if Depot.is_opened d && negb force then fail RepoOpened else mret ());
  _ ← set_depot (Depot.set_opened true d);
  modify (λ m, mkMem (storages m) true (loc m)).

Definition exists_ : act bool := ask (λ m, bool_decide (is_Some (storages m !! loc m))).
Definition connect (force : bool) : act unit := mret ().
Definition init : act unit := _ ← set_depot Depot.new; lock_repo false.
Definition open (force : bool) : act unit := lock_repo force.

Definition get_super_block (suffix : Z) : act bytes :=
  o ← ask (λ m, storages m !! loc m);
  d ← lift (ok_or NotFound o);
  lift (ok_or NotFound (Depot.super_blk_map d !! suffix)).
Definition put_super_block (super_blk : bytes) (suffix : Z) : act unit :=
  d ← depot; set_depot (Depot.set_supers (<[suffix := super_blk]> (Depot.super_blk_map d)) d).

Definition get_wal (id : Eid) : act bytes := d ← depot; lift (ok_or NotFound (Depot.wal_map d !! id)).
Definition put_wal (id : Eid) (wal : bytes) : act unit :=
  d ← depot; set_depot (Depot.set_wals (<[id := wal]> (Depot.wal_map d)) d).
Definition del_wal (id : Eid) : act unit :=
  d ← depot; set_depot (Depot.set_wals (delete id (Depot.wal_map d)) d).

Definition get_address (id : Eid) : act bytes := d ← depot; lift (ok_or NotFound (Depot.addr_map d !! id)).
Definition put_address (id : Eid) (addr : bytes) : act unit :=
  d ← depot; set_depot (Depot.set_addrs (<[id := addr]> (Depot.addr_map d)) d).
Definition del_address (id : Eid) : act unit :=
  d ← depot; set_depot (Depot.set_addrs (delete id (Depot.addr_map d)) d).

(** [copy_from_slice] panics if the lengths differ. *)
Fixpoint read_blocks (m : gmap Z bytes) (bl : list Z) : res bytes :=
  match bl with
  | [] => Ok []
  | b :: bl =>
      blk ← ok_or NotFound (m !! b);
      _ ← rassert (zlen blk =? BLK_SIZE);
      rest ← read_blocks m bl;
      Ok (blk ++ rest)
  end.
Fixpoint write_blocks (m : gmap Z bytes) (bl : list Z) (blks : bytes) : res (gmap Z bytes) :=
  match bl with
  | [] => Ok m
  | b :: bl =>
      blk ← vslice blks 0 BLK_SIZE;
      write_blocks (<[b := blk]> m) bl (zdrop BLK_SIZE blks)
  end.

(** The length of the destination is the one of the span. *)
Definition get_blocks (s : Span.Span) : act bytes :=
  _ ← lift (Span.bytes_len s); d ← depot; lift (read_blocks (Depot.blk_map d) (Span.blocks s)).
Definition put_blocks (s : Span.Span) (blks : bytes) : act unit :=
  n ← lift (Span.bytes_len s);
  _ ← lift (rassert (zlen blks =? n));
  d ← depot;
  m ← lift (write_blocks (Depot.blk_map d) (Span.blocks s) blks);
  set_depot (Depot.set_blks m d).
Definition del_blocks (s : Span.Span) : act unit :=
  d ← depot; set_depot (Depot.set_blks (foldl (λ m b, delete b m) (Depot.blk_map d) (Span.blocks s)) d).
Definition flush : act unit := mret ().
Definition destroy : act unit := modify (λ m, mkMem (delete (loc m) (storages m)) (is_attached m) (loc m)).
(** [Drop]. *)
Definition drop : act unit :=
  modify (λ m, if is_attached m
    then mkMem (alter (Depot.set_opened false) (loc m) (storages m)) (is_attached m) (loc m) else m).
End MemStorage.

#[export] Instance mem_storable : Storable MemStorage.Mem := {|
  dp_exists := MemStorage.exists_; dp_connect := MemStorage.connect; dp_init _ _ := MemStorage.init;
  dp_open _ _ := MemStorage.open; dp_destroy := MemStorage.destroy;
  dp_get_super_block := MemStorage.get_super_block; dp_put_super_block := MemStorage.put_super_block;
  dp_get_wal := MemStorage.get_wal; dp_put_wal := MemStorage.put_wal; dp_del_wal := MemStorage.del_wal;
  dp_get_address := MemStorage.get_address; dp_put_address := MemStorage.put_address;
  dp_del_address := MemStorage.del_address; dp_get_blocks := MemStorage.get_blocks;
  dp_put_blocks := MemStorage.put_blocks; dp_del_blocks := MemStorage.del_blocks; dp_flush := MemStorage.flush
|}.

(** ** It keeps the contract of a depot *)

Section laws.
Import MemStorage.
Implicit Types (m : Mem) (B : gmap Z bytes).

Definition here m : Depot.Depot := default Depot.new (storages m !! loc m).
(** Blocks of another length cannot be read. *)
Definition sized B : gmap Z bytes := filter (λ kv : Z * bytes, zlen kv.2 = BLK_SIZE) B.
Definition mem_steady m : Prop :=
  is_Some (storages m !! loc m) ∧ sized (Depot.blk_map (here m)) = Depot.blk_map (here m).

Lemma sized_lookup B b x : sized B !! b = Some x ↔ B !! b = Some x ∧ zlen x = BLK_SIZE.
Proof. unfold sized. by rewrite map_lookup_filter_Some. Qed.

Lemma here_set m d a : here (mkMem (<[loc m := d]> (storages m)) a (loc m)) = d.
Proof. unfold here. cbn [storages loc]. by rewrite lookup_insert_eq. Qed.
Lemma here_get m d : storages m !! loc m = Some d → here m = d.
Proof. unfold here. by intros ->. Qed.

(** With its depot there, a call sees it; without it panics. *)
Lemma spec_depot {A} (k : Depot.Depot → run Mem A) m Q E H :
  (storages m !! loc m = Some (here m) → spec (k (here m)) m Q E H) →
  (¬ mem_steady m → H m) → spec (d ← depot; k d) m Q E H.
Proof.
  intros Hk Hp. unfold spec, mbind, run_bind, depot in *. destruct (storages m !! loc m) as [d|] eqn:Hd; cbn [unwrap].
  - apply here_get in Hd as Hh. rewrite Hh in *. by apply Hk.
  - apply Hp. intros [[d' Hd'] _]. congruence.
Qed.

Lemma read_blocks_spec B bl :
  match read_blocks B bl with
  | Ok x => blocks_bytes (sized B) bl = Some x
  | Err e => e = NotFound ∧ blocks_bytes (sized B) bl = None
  | Panic => sized B ≠ B
  end.
Proof.
  induction bl as [|b bl IH]; [done|]. cbn [read_blocks]. unfold blocks_bytes in *. cbn [mapM].
  destruct (B !! b) as [x|] eqn:Hb; cbn [ok_or].
  - rewrite bind_ok. destruct (Z.eqb_spec (zlen x) BLK_SIZE) as [Hx|Hx]; cbn [rassert].
    + rewrite bind_ok. assert (Hs : sized B !! b = Some x) by by apply sized_lookup. rewrite Hs.
      destruct (read_blocks B bl) as [r|e|]; [|destruct IH as [-> IH]|exact IH].
      * cbn. destruct (mapM _ bl); [|done]. injection IH as <-. done.
      * split; [done|]. cbn. by destruct (mapM _ bl).
    + cbn. intros Heq. rewrite <- Heq in Hb. by apply sized_lookup in Hb as [_ ?].
  - split; [done|]. assert (Hs : sized B !! b = None).
    { destruct (sized B !! b) eqn:Hs; [|done]. apply sized_lookup in Hs as [Hs _]. congruence. }
    by rewrite Hs.
Qed.
Lemma sized_id B : sized B = B ↔ ∀ b x, B !! b = Some x → zlen x = BLK_SIZE.
Proof.
  split.
  - intros Heq b x Hb. rewrite <- Heq in Hb. by apply sized_lookup in Hb as [_ ?].
  - intros Hall. apply map_eq. intros b. apply option_eq. intros x. rewrite sized_lookup. split; [by intros [? _]|].
    intros Hb. split; [done|]. by eapply Hall.
Qed.
Lemma sized_ext B B' b : B' !! b = B !! b → sized B' !! b = sized B !! b.
Proof. intros Hb. apply option_eq. intros x. by rewrite !sized_lookup, Hb. Qed.

Lemma write_blocks_spec B bl x :
  NoDup bl → zlen x = zlen bl * BLK_SIZE →
  ∃ B', write_blocks B bl x = Ok B' ∧ (∀ b, b ∉ bl → B' !! b = B !! b) ∧
    blocks_bytes (sized B') bl = Some x ∧ (sized B = B → sized B' = B').
Proof.
  revert B x. induction bl as [|b bl IH]; intros B x Hnd Hx; cbn [write_blocks].
  - exists B. split; [done|]. split; [done|]. split; [|done]. change (zlen (@nil Z)) with 0 in Hx.
    destruct x as [|y x]; [done|]. rewrite zlen_cons in Hx. pose proof (zlen_nonneg x). lia.
  - apply NoDup_cons in Hnd as [Hb Hnd]. rewrite zlen_cons in Hx. pose proof (zlen_nonneg bl).
    unfold vslice. rewrite (proj2 (andb_true_iff _ _)) by (split; apply Z.leb_le; unfold BLK_SIZE in *; lia).
    rewrite bind_ok, Z.sub_0_r, zdrop_0 by done.
    assert (Hy : zlen (ztake BLK_SIZE x) = BLK_SIZE) by (rewrite zlen_ztake by done; unfold BLK_SIZE in *; lia).
    destruct (IH (<[b := ztake BLK_SIZE x]> B) (zdrop BLK_SIZE x)) as (B' & HB & Hold & Hnew & Hsz).
    { done. }
    { rewrite zlen_zdrop by done. unfold BLK_SIZE in *. lia. }
    exists B'. split; [done|]. split; [|split].
    + intros c [Hc1 Hc2]%not_elem_of_cons. rewrite Hold by done. by rewrite lookup_insert_ne.
    + unfold blocks_bytes in *. cbn [mapM]. assert (Hs : sized B' !! b = Some (ztake BLK_SIZE x)).
      { apply sized_lookup. split; [|done]. by rewrite Hold, lookup_insert_eq. }
      rewrite Hs. cbn. destruct (mapM _ bl) as [xs|]; [|done]. cbn in Hnew |- *. injection Hnew as ->.
      by rewrite ztake_zdrop.
    + intros Hall. apply Hsz, sized_id. intros c y. destruct (decide (c = b)) as [->|Hc].
      * rewrite lookup_insert_eq. by intros [= <-].
      * rewrite lookup_insert_ne by done. revert c y Hc. intros c y _. by apply sized_id.
Qed.

Lemma delete_blocks B (bl : list Z) (b : Z) :
  foldl (λ (C : gmap Z bytes) c, delete c C) B bl !! b = if decide (b ∈ bl) then None else B !! b.
Proof.
  revert B. induction bl as [|c bl IH]; intros B; cbn [foldl]; [by rewrite decide_False by apply not_elem_of_nil|].
  rewrite IH. destruct (decide (b ∈ bl)) as [Hb|Hb]; [by rewrite decide_True by by right|].
  destruct (decide (b = c)) as [->|Hc]; [rewrite decide_True by (by left); by rewrite lookup_delete_eq|].
  rewrite decide_False by (by intros [?|?]%elem_of_cons). by rewrite lookup_delete_ne.
Qed.

(** Storing the depot with a part of it changed. *)
Lemma set_depot_spec m d (Q : unit → Mem → Prop) E H :
  storages m !! loc m = Some (here m) →
  (∀ m', here m' = d → storages m' !! loc m' = Some d → Q () m') → spec (set_depot d) m Q E H.
Proof. intros Hm HQ. apply spec_modify, HQ; [apply here_set|]. cbn. by rewrite lookup_insert_eq. Qed.
(** A change of the depot in place. *)
Lemma change_spec (f : Depot.Depot → Depot.Depot) m (Q : unit → Mem → Prop) E H :
  (∀ m', here m' = f (here m) → is_Some (storages m' !! loc m') → Q () m') → (¬ mem_steady m → H m) →
  spec (d ← depot; set_depot (f d)) m Q E H.
Proof.
  intros HQ HH. apply spec_depot; [|done]. intros Hm. apply set_depot_spec; [done|]. intros m' Hh Hp. apply HQ; [done|by eexists].
Qed.
Lemma steady_blks m m' :
  here m' = here m ∨ Depot.blk_map (here m') = Depot.blk_map (here m) → is_Some (storages m' !! loc m') →
  mem_steady m → mem_steady m'.
Proof. intros Hh Hp [_ Hs]. split; [done|]. by destruct Hh as [-> | ->]. Qed.
End laws.

#[export] Program Instance mem_storable_laws : StorableLaws MemStorage.Mem := {|
  dp_blks m := sized (Depot.blk_map (here m)); dp_addrs m := Depot.addr_map (here m);
  dp_wals m := Depot.wal_map (here m); dp_steady := mem_steady
|}.
Next Obligation. by intros m b x [_ ?]%sized_lookup. Qed.
Next Obligation.
  intros id m. unfold dp_get_wal; cbn. unfold MemStorage.get_wal. apply spec_depot; [intros Hm|by split].
  destruct (Depot.wal_map (here m) !! id) as [x|] eqn:Hx; cbn [ok_or]; [by apply spec_lift_ok|].
  apply spec_fail. split; [done|by left].
Qed.
Next Obligation.
  intros id x m. cbn. apply (change_spec (λ d, Depot.set_wals (<[id := x]> (Depot.wal_map d)) d)).
  - intros m' Hh Hp. rewrite Hh. do 3 (split; [done|]). apply steady_blks; [right; by rewrite Hh|done].
  - intros Hst. split; [by eexists|done].
Qed.
Next Obligation.
  intros id m. cbn. apply (change_spec (λ d, Depot.set_wals (delete id (Depot.wal_map d)) d)).
  - intros m' Hh Hp. rewrite Hh. do 3 (split; [done|]). apply steady_blks; [right; by rewrite Hh|done].
  - intros Hst. split; [by eexists|done].
Qed.
Next Obligation.
  intros id m. unfold dp_get_address; cbn. unfold MemStorage.get_address. apply spec_depot; [intros Hm|by split].
  destruct (Depot.addr_map (here m) !! id) as [x|] eqn:Hx; cbn [ok_or]; [by apply spec_lift_ok|].
  apply spec_fail. split; [done|by left].
Qed.
Next Obligation.
  intros id x m. cbn. apply (change_spec (λ d, Depot.set_addrs (<[id := x]> (Depot.addr_map d)) d)).
  - intros m' Hh Hp. rewrite Hh. do 3 (split; [done|]). apply steady_blks; [right; by rewrite Hh|done].
  - intros Hst. split; [by left|done].
Qed.
Next Obligation.
  intros id m. cbn. apply (change_spec (λ d, Depot.set_addrs (delete id (Depot.addr_map d)) d)).
  - intros m' Hh Hp. rewrite Hh. do 3 (split; [done|]). apply steady_blks; [right; by rewrite Hh|done].
  - intros Hst. split; [by left|done].
Qed.
Next Obligation.
  intros s m Hs Hc. cbn. unfold MemStorage.get_blocks, Span.bytes_len. rewrite u_mul_ok by done.
  apply spec_bind, spec_lift_ok, spec_depot; [intros Hm|by split].
  pose proof (read_blocks_spec (Depot.blk_map (here m)) (Span.blocks s)) as Hr.
  destruct (MemStorage.read_blocks _ _) as [x|e|]; [by apply spec_lift_ok| |].
  - apply spec_fail. split; [done|by left].
  - split; [done|]. by intros [_ Hsz].
Qed.
Next Obligation.
  intros s x m Hs Hc Hx. cbn. unfold MemStorage.put_blocks, Span.bytes_len. rewrite u_mul_ok by done.
  apply spec_bind, spec_lift_ok, spec_bind. rewrite rassert_ok by by apply Z.eqb_eq. apply spec_lift_ok, spec_depot.
  2: { intros Hst. split; [|done]. by eexists. }
  intros Hm. apply spec_bind. destruct (write_blocks_spec (Depot.blk_map (here m)) (Span.blocks s) x) as (B & -> & Hold & Hnew & Hsz).
  { apply NoDup_seqZ. }
  { by rewrite Span.zlen_blocks by apply Hs. }
  apply spec_lift_ok, set_depot_spec; [done|]. intros m' Hh Hp. rewrite Hh. split; [|done].
  exists (sized B). split; [|intros b Hb; by apply sized_ext, Hold]. do 3 (split; [done|]).
  intros [_ Hst]. split; [by eexists|]. rewrite Hh. by apply Hsz.
Qed.
Next Obligation.
  intros s m Hs. cbn. apply (change_spec (λ d, Depot.set_blks (foldl (λ m b, delete b m) (Depot.blk_map d) (Span.blocks s)) d)).
  - intros m' Hh Hp. rewrite Hh. cbn [Depot.blk_map Depot.set_blks]. split.
    + eexists. split; [do 3 (split; [done|])|].
      * intros [_ Hst]. split; [done|]. rewrite Hh. cbn [Depot.blk_map Depot.set_blks]. apply sized_id.
        intros b x. rewrite delete_blocks. case_decide; [done|]. by apply sized_id.
      * intros b Hb. apply sized_ext. rewrite delete_blocks. by rewrite decide_False.
    + intros b Hb. destruct (sized _ !! b) eqn:Hg; [|done]. apply sized_lookup in Hg as [Hg _].
      rewrite delete_blocks in Hg. by rewrite decide_True in Hg.
  - intros Hst. split; [|done]. by eexists.
Qed.
Next Obligation. intros m. by apply spec_ret. Qed.
