(* ===== verification/StorageDemo.v ===== *)
(** * A storage over a depot in memory: witnesses, and what readers and writers do not survive.

    The cipher appends a tag of zeros, the random source draws zeros. *)
From stdpp Require Import strings.
From S2P Require Import Prelude Run Base Address Crypto Armor Storage StorageProofs StorageWrite StorageRead StorageSpec MemStorage.
Import AssocMap.

(** The tag tells the key. *)
Definition tag (key : bytes) : bytes := Zpos (countable.encode key) :: replicate 15 0.
Lemma tag_inj k k' : tag k = tag k' → k = k'.
Proof. intros [= H]. by apply (inj countable.encode). Qed.
#[export] Instance toy_sodium : Sodium := {|
  aead_encrypt _ k _ _ m := Some (m ++ tag k);
  aead_decrypt _ k _ _ x := let n := (length x - 16)%nat in
    if bool_decide (drop n x = tag k) then Some (take n x) else None;
  hchacha20 _ k _ := k; pwhash p s _ _ := Some (p ++ s); kdf_derive k i := Some (i :: k); aes_available := true
|}.
#[export] Instance toy_sodium_laws : SodiumLaws.
Proof.
  split.
  - intros c k n ad m x [= <-]. by rewrite zlen_app.
  - intros c k n ad m x [= <-]. cbn [aead_decrypt toy_sodium]. rewrite length_app.
    change (length (tag k)) with 16%nat. rewrite Nat.add_sub, take_app_length, drop_app_length.
    by rewrite bool_decide_eq_true_2.
Qed.
#[export] Instance toy_random : Random unit := λ n r, (replicate (Z.to_nat n) 0, r).
#[export] Instance toy_random_laws : RandomLaws unit.
Proof. intros n r Hn. cbn. by apply zlen_replicate. Qed.

(** An address as numbers: its length, then three for each span. *)
Definition span_ser (s : LocSpan.LocSpan) : bytes :=
  [Span.begin (LocSpan.span s); Span.cnt (LocSpan.span s); LocSpan.offset s].
Fixpoint spans_de (l : bytes) : option (list LocSpan.LocSpan) :=
  match l with
  | [] => Some []
  | b :: c :: o :: l => cons (LocSpan.new b c o) <$> spans_de l
  | _ => None
  end.
#[export] Instance toy_addr : AddrSerde := {|
  addr_ser a := Addr.len a :: concat (span_ser <$> Addr.list_ a);
  addr_de x := match x with [] => None | n :: x => Addr.mkAddr n <$> spans_de x end
|}.
#[export] Instance toy_addr_laws : AddrSerdeLaws.
Proof.
  split.
  - intros [n l]. cbn. enough (spans_de (concat (span_ser <$> l)) = Some l) as -> by done.
    induction l as [|[[b c] o] l IH]; [done|]. cbn. cbn in IH. by rewrite IH.
  - intros [n l] [HF Ht]. cbn [Addr.list_ Addr.len addr_ser toy_addr] in *.
    assert (H : zlen (concat (span_ser <$> l)) = 3 * zlen l ∧ zlen l ≤ Addr.blk_total l).
    { clear Ht. unfold Addr.blk_total. induction HF as [|s l [_ Hc] _ IH]; [done|].
      rewrite fmap_cons, concat_cons, zlen_app, !zlen_cons, zsum_cons. change (zlen (span_ser s)) with 3. lia. }
    rewrite zlen_cons. destruct H as [-> ?]. lia.
Qed.

(** A storage just made, over an empty depot. *)
Definition toy_key : bytes := [7].
Definition toy_st : Storage.St MemStorage.Mem unit (amap Z bytes) (amap Eid Addr.Addr) :=
  Storage.mkSt (MemStorage.mkMem {["here"%string := Depot.new]} true "here") ()
    (Storage.mkStorage Allocator.new Crypto.default toy_key (Lru.new (K:=Z) (V:=bytes) Storage.FRAME_CACHE_SIZE)
      (Lru.new (K:=Eid) (V:=Addr.Addr) Storage.ADDRESS_CACHE_SIZE)).

Lemma toy_holds : holds Crypto.default toy_key toy_st empty.
Proof. by apply new_holds. Qed.
Lemma toy_steady : dp_steady (Storage.depot toy_st).
Proof. split; [by eexists|done]. Qed.
Lemma toy_never_fails : ¬ Crypto.aead_fails.
Proof. by intros (c & k & n & ad & m & Hf). Qed.

Definition toy_cmds : list Cmd :=
  [Put 5 [[1; 2]; []; [3]]; PutWal 5 [[4]; [5; 6]]; Get 5 4 (λ _, 2); Put 5 [[9]]; Get 5 2 (λ _, 1);
   GetWal 5 4 (λ _, 8); Get 6 1 (λ _, 1); Del 5; Del 6; Get 5 2 (λ _, 1); DelWal 5; GetWal 5 1 (λ _, 1)].

Lemma toy_legal : all_legal empty toy_cmds.
Proof.
  cbn [all_legal toy_cmds legal next ents edirty logs ldirty empty]. split_and!; try done; try set_solver; try (simpl; lia);
    intros x Hx; vm_compute in Hx; simplify_eq; simpl; lia.
Qed.

Example toy_answers : answers toy_cmds empty =
  Some <$> [Ok None; Ok None; Ok (Some [1; 2; 3]); Ok None; Ok (Some [9]); Ok (Some [4; 5; 6]); Err NotFound; Ok None; Ok None;
   Err NotFound; Ok None; Err NotFound].
Proof. by vm_compute. Qed.

Lemma storage_calls_witness :
  holds Crypto.default toy_key toy_st empty ∧
  match exec (Put 5 [[1; 2]; [3]]) toy_st with
  | (Some (Ok a), s') => answer empty (Put 5 [[1; 2]; [3]]) = Ok a ∧
      holds Crypto.default toy_key s' (next empty (Put 5 [[1; 2]; [3]])) ∧ wmark s' ≤ 16
  | _ => False
  end.
Proof.
  split; [exact toy_holds|].
  pose proof (storage_calls Crypto.default toy_key toy_st empty (Put 5 [[1; 2]; [3]]) toy_holds ltac:(done) ltac:(done)) as Hc.
  destruct (exec _ _) as [[[a|e|]|] s'].
  - exact Hc.
  - destruct Hc as [[Ha _]|[[Hf|Hs] _]]; [done|by apply toy_never_fails|by apply Hs, toy_steady].
  - by apply (proj1 Hc), toy_steady.
  - by apply (proj1 Hc), toy_steady.
Defined.

Lemma storage_refines_map_witness :
  dp_steady (Storage.depot toy_st) ∧ results toy_cmds toy_st = answers toy_cmds empty.
Proof.
  split; [exact toy_steady|].
  apply (storage_refines_map Crypto.default toy_key); [exact toy_holds|exact toy_steady|exact toy_never_fails|exact toy_legal|by vm_compute].
Defined.

(** A reader does not survive the deletion of its entity: it has a frame in hand, but reads
    from the cache, expects the frame there, and panics. *)
Theorem deleted_under_reader :
  ((w ← Writer.new 5; '(_, w) ← Writer.write w [1; 2; 3]; _ ← Writer.finish w;
    r ← Reader.new 5; '(out, r) ← Reader.read r 1; _ ← Storage.del 5; '(out', _) ← Reader.read r 1;
    mret (out, out')) toy_st).1 = Some Panic.
Proof. vm_compute. reflexivity. Qed.

(** An entity to which nothing is written is stored, but opening it to read panics. *)
Theorem empty_entity_panics :
  ((w ← Writer.new 5; Writer.finish w) toy_st).1 = Some (Ok ()) ∧
  ((w ← Writer.new 5; _ ← Writer.finish w; Reader.new 5) toy_st).1 = Some Panic.
Proof. vm_compute. split; reflexivity. Qed.
