(* ===== verification/SuperBlk.v ===== *)
(** * src/volume/super_block.rs: the super block, kept in two arms.

    The head is plain; the body, which holds the master key, is encrypted with the hash of the
    password. Both arms are written with the same text. The body's serialiser and the clock
    are foreign. *)
From S2P Require Import Prelude Run Base Address Crypto Armor Storage.

(** ** Little-endian numbers *)

Fixpoint to_le (n : nat) (x : Z) : bytes :=
  match n with O => [] | S n => x mod 256 :: to_le n (x / 256) end.
Fixpoint of_le (l : bytes) : Z := match l with [] => 0 | b :: l => b + 256 * of_le l end.

Lemma zlen_to_le n x : zlen (to_le n x) = Z.of_nat n.
Proof. revert x. induction n; intros x; [done|]. cbn [to_le]. rewrite zlen_cons, IHn. lia. Qed.
Lemma of_to_le n x : 0 ≤ x < 256 ^ Z.of_nat n → of_le (to_le n x) = x.
Proof.
  revert x. induction n as [|n IH]; intros x Hx; [cbn in *; lia|]. cbn [to_le of_le].
  rewrite Nat2Z.inj_succ, Z.pow_succ_r in Hx by lia.
  rewrite IH; [pose proof (Z.div_mod x 256); lia|]. split; [apply Z.div_pos; lia|apply Z.div_lt_upper_bound; lia].
Qed.

(** [Eid::new]: thirty-two random bytes. *)
Definition EID_SIZE : Z := 32.

(** [Time::now]. *)
Class Clock (R : Type) := time_now : R → Z * R.

(** ** src/base/version.rs *)

Module Version.
Record Version := mkVersion { major : Z; minor : Z; patch : Z }.
Definition repo_version : Version := mkVersion 0 8 0.
Definition lib_version : Version := mkVersion 0 9 1.
Definition match_repo_version (v : Version) : bool :=
  (major v =? major repo_version) && (minor v =? minor repo_version).
End Version.

Definition SALT_SIZE : Z := 16.

Module Head.
Record Head := mkHead { salt : bytes; cost : Cost.Cost; cipher : Cipher.Cipher }.
Definition BYTES_LEN : Z := SALT_SIZE + Cost.BYTES_LEN + Cipher.BYTES_LEN.

Definition seri (h : Head) : res bytes :=
  buf ← vcopy (replicate (Z.to_nat BYTES_LEN) 0) 0 (salt h);
  let pos := SALT_SIZE in
  buf ← vset buf pos (Cost.to_u8 (cost h));
  let pos := pos + Cost.BYTES_LEN in
  vset buf pos (Cipher.into_u8 (cipher h)).

Definition deseri (buf : bytes) : res Head :=
  if zlen buf <? BYTES_LEN then Err InvalidSuperBlk
  else
    salt ← vslice buf 0 SALT_SIZE;
    let pos := SALT_SIZE in
    b ← vindex buf pos; cost ← Cost.from_u8 b;
    let pos := pos + Cost.BYTES_LEN in
    b ← vindex buf pos; cipher ← Cipher.from_u8 b;
    Ok (mkHead salt cost cipher).
End Head.

Module Body.
Record Body := mkBody {
  seq : Z; volume_id : Eid; ver : Version.Version; key : bytes; uri : bytes; compress : bool;
  ctime : Z; mtime : Z; payload : bytes
}.
(** With the next sequence number, at time [now]. *)
Definition touch (now : Z) (b : Body) : res Body :=
  n ← u_add (seq b) 1;
  Ok (mkBody n (volume_id b) (ver b) (key b) (uri b) (compress b) (ctime b) now (payload b)).
(** The body up to its sequence number and the time of its last change. *)
Definition same (b b' : Body) : Prop :=
  volume_id b = volume_id b' ∧ ver b = ver b' ∧ key b = key b' ∧ uri b = uri b' ∧
  compress b = compress b' ∧ ctime b = ctime b' ∧ payload b = payload b'.
End Body.

Class BodySerde := { body_ser : Body.Body → option bytes; body_de : bytes → option Body.Body }.
Class BodySerdeLaws `{!BodySerde} : Prop := body_de_ser b x : body_ser b = Some x → body_de x = Some b.

Module SuperBlk.
Record SuperBlk := mkSuper { head : Head.Head; body : Body.Body }.
Definition MAGIC : bytes := [233; 239; 241; 251].

Section super_blk.
Context `{!Sodium, !AddrSerde, !BodySerde} {D R FM AM : Type} `{!Storable D, !Random R, !Clock R}.
Context `{!LinkedMapOps Z bytes FM, !LinkedMapOps Eid Addr.Addr AM}.
Abbreviation act := (run (Storage.St D R FM AM)).

Definition now : act Z := λ s,
  let '(t, r) := time_now (Storage.rng s) in (Some (Ok t), Storage.mkSt (Storage.depot s) r (Storage.sto s)).

(** What both arms are given: the head, and the encrypted body behind its length, padded to a block. *)
Definition compose (c : Crypto.Crypto) (vkey nonce head_buf body_buf : bytes) : res bytes :=
  let comp_buf := to_le 8 (zlen body_buf) ++ body_buf in
  room ← u_sub BLK_SIZE (zlen head_buf);
  new_len ← Crypto.decrypted_len c room;
  _ ← (if new_len <? zlen comp_buf then Err InvalidSuperBlk else Ok ());
  let comp_buf := comp_buf ++ replicate (Z.to_nat (new_len - zlen comp_buf)) 0 in
  enc_buf ← Crypto.encrypt_with_ad c nonce comp_buf vkey MAGIC;
  Ok (head_buf ++ enc_buf).

(** Both puts are made, whatever becomes of the first: [and] is given its argument's value. *)
Definition put_arms (buf : bytes) : act unit :=
  r0 ← attempt (Storage.put_super_block buf 0);
  r1 ← attempt (Storage.put_super_block buf 1);
  lift (_ ← r0; r1).

(** The super block is given back with its new sequence number and time; one whose save has
    failed is not used again. *)
Definition save (sb : SuperBlk) (pwd : bytes) : act SuperBlk :=
  c ← lift (Crypto.new (Head.cost (head sb)) (Head.cipher (head sb)));
  vkey ← lift (Crypto.hash_pwd c pwd (Head.salt (head sb)));
  head_buf ← lift (Head.seri (head sb));
  t ← now;
  body ← lift (Body.touch t (body sb));
  body_buf ← lift (ok_or Encode (body_ser body));
  nonce ← Storage.draw Crypto.AES_NONCE_SIZE;
  buf ← lift (compose c vkey nonce head_buf body_buf);
  _ ← put_arms buf;
  mret (mkSuper (head sb) body).

(** [load_arm] once the bytes are read. *)
Definition parse (pwd buf : bytes) : res SuperBlk :=
  head ← Head.deseri buf;
  c ← Crypto.new (Head.cost head) (Head.cipher head);
  vkey ← Crypto.hash_pwd c pwd (Head.salt head);
  comp_buf ← Crypto.decrypt_with_ad c (zdrop Head.BYTES_LEN buf) vkey MAGIC;
  lenb ← vslice comp_buf 0 8;
  body_end ← u_add 8 (of_le lenb);
  body_buf ← vslice comp_buf 8 body_end;
  body ← ok_or Decode (body_de body_buf);
  Ok (mkSuper head body).
Definition load_arm (suffix : Z) (pwd : bytes) : act SuperBlk :=
  buf ← Storage.get_super_block suffix; lift (parse pwd buf).

Definition load (pwd : bytes) : act SuperBlk :=
  larm ← load_arm 0 pwd;
  rarm ← load_arm 1 pwd;
  if Body.seq (body larm) =? Body.seq (body rarm) then mret larm else fail InvalidSuperBlk.

Definition repair (pwd : bytes) : act unit :=
  left_arm ← attempt (load_arm 0 pwd);
  right_arm ← attempt (load_arm 1 pwd);
  match left_arm, right_arm with
  | Ok larm, Ok rarm =>
      if negb (bool_decide (Body.volume_id (body larm) = Body.volume_id (body rarm)))
         || negb (bool_decide (Body.key (body larm) = Body.key (body rarm)))
      then fail InvalidSuperBlk
      else if Body.seq (body rarm) <? Body.seq (body larm) then _ ← save larm pwd; mret ()
      else if Body.seq (body larm) <? Body.seq (body rarm) then _ ← save rarm pwd; mret ()
      else mret ()
  | Ok larm, _ => _ ← save larm pwd; mret ()
  | Err err, Ok rarm => _ ← save rarm pwd; mret ()
  | Err err, _ => fail err
  | Panic, _ => lift Panic
  end.
End super_blk.
End SuperBlk.
