(* ===== verification/SuperProofs.v ===== *)
(** * What the two arms of the super block are worth: src/volume/super_block.rs. *)
From S2P Require Import Prelude Run Base Address Crypto Armor Storage SuperBlk.
Import SuperBlk.

(** ** The contract of a depot for super blocks *)

(** A put is not atomic: one that returns an error, or during which the machine stops, may have changed
    nothing, done all, or left a torn text or none at all. One that returns has done all. *)
Class SuperLaws (D : Type) `{!Storable D} := {
  dp_super : D → Z → option bytes;
  dp_torn : bytes → Prop;
  dp_calm : D → Prop;
  dp_arms f (d d' : D) := (∀ i, dp_super d' i = f i) ∧ (dp_calm d → dp_calm d');
  get_super_law i d : spec (dp_get_super_block i) d
    (λ x d', dp_super d i = Some x ∧ dp_arms (dp_super d) d d')
    (λ _ d', dp_arms (dp_super d) d d' ∧ (dp_super d i = None ∨ ¬ dp_calm d))
    (λ d', dp_arms (dp_super d) d d' ∧ ¬ dp_calm d);
  put_super_law x i d : spec (dp_put_super_block x i) d
    (λ _ d', dp_arms (λ j, if decide (j = i) then Some x else dp_super d j) d d')
    (λ _ d', ¬ dp_calm d ∧ ∃ o, (o = dp_super d i ∨ o = Some x ∨ o = None ∨ ∃ y, o = Some y ∧ dp_torn y) ∧
       dp_arms (λ j, if decide (j = i) then o else dp_super d j) d d')
    (λ d', ¬ dp_calm d ∧ ∃ o, (o = dp_super d i ∨ o = Some x ∨ o = None ∨ ∃ y, o = Some y ∧ dp_torn y) ∧
       dp_arms (λ j, if decide (j = i) then o else dp_super d j) d d')
}.
#[export] Hint Mode SuperLaws ! - : typeclass_instances.

(** ** Texts *)

Section text.
Context `{!Sodium, !SodiumLaws, !BodySerde, !BodySerdeLaws}.
Implicit Types (h : Head.Head) (sb : SuperBlk) (pwd x : bytes).

Definition head_ok h : Prop := zlen (Head.salt h) = SALT_SIZE.

Lemma head_seri_ok h : head_ok h →
  Head.seri h = Ok (Head.salt h ++ [Cost.to_u8 (Head.cost h); Cipher.into_u8 (Head.cipher h)]).
Proof.
  unfold head_ok. intros Hh. unfold Head.seri.
  pose proof (vcopy_app [] (replicate (Z.to_nat Head.BYTES_LEN) 0) (Head.salt h)) as Hv.
  cbn [app] in Hv. change (zlen (@nil Z)) with 0 in Hv. rewrite Hv by (by rewrite Hh). rewrite bind_ok, Hh.
  change (zdrop SALT_SIZE _) with [0; 0]. rewrite <- Hh, vset_middle, bind_ok.
  pose proof (vset_middle (Head.salt h ++ [Cost.to_u8 (Head.cost h)]) [] 0 (Cipher.into_u8 (Head.cipher h))) as Hv2.
  rewrite zlen_snoc, <- !app_assoc in Hv2. exact Hv2.
Qed.

Lemma head_deseri_ok h x y : head_ok h → Head.seri h = Ok x → zlen x = Head.BYTES_LEN ∧ Head.deseri (x ++ y) = Ok h.
Proof.
  intros Hh Hx. pose proof (zlen_nonneg y). rewrite head_seri_ok in Hx by done. injection Hx as <-.
  assert (Hl : zlen (Head.salt h ++ [Cost.to_u8 (Head.cost h); Cipher.into_u8 (Head.cipher h)]) = Head.BYTES_LEN)
    by (rewrite zlen_app, Hh; done).
  split; [done|]. unfold Head.deseri. rewrite (proj2 (Z.ltb_ge _ _)) by (rewrite zlen_app; lia).
  unfold vslice. change (0 <=? SALT_SIZE) with true.
  rewrite (proj2 (Z.leb_le SALT_SIZE _)) by (rewrite zlen_app, Hl; change Head.BYTES_LEN with 18; change SALT_SIZE with 16; lia).
  cbn [andb]. rewrite bind_ok, zdrop_0, Z.sub_0_r by lia. rewrite <- app_assoc.
  unfold head_ok in Hh. rewrite <- Hh, ztake_zlen. cbn [app]. rewrite vindex_middle, bind_ok, Cost.from_to_u8, bind_ok.
  pose proof (vindex_middle (Head.salt h ++ [Cost.to_u8 (Head.cost h)]) y (Cipher.into_u8 (Head.cipher h))) as Hv.
  rewrite zlen_snoc, <- app_assoc in Hv. cbn [app] in Hv. change Cost.BYTES_LEN with 1.
  rewrite Hv, bind_ok, Cipher.from_into_u8, bind_ok. by destruct h.
Qed.

(** A text that [save] writes. *)
Definition sealed pwd sb x : Prop :=
  ∃ c vkey hb bb nonce, Crypto.new (Head.cost (head sb)) (Head.cipher (head sb)) = Ok c ∧
    Crypto.hash_pwd c pwd (Head.salt (head sb)) = Ok vkey ∧ Head.seri (head sb) = Ok hb ∧
    body_ser (body sb) = Some bb ∧ zlen nonce = Crypto.AES_NONCE_SIZE ∧ compose c vkey nonce hb bb = Ok x.

(** It is read back with the password. *)
Lemma parse_sealed pwd sb x : head_ok (head sb) → sealed pwd sb x → parse pwd x = Ok sb.
Proof.
  intros Hh (c & vkey & hb & bb & nonce & Hc & Hk & Hhb & Hbb & Hn & Hx).
  unfold compose in Hx. res_inv_one Hx. res_inv_one Hx. res_inv_one Hx. res_inv_one Hx. injection Hx as <-.
  destruct (head_deseri_ok _ _ a1 Hh Hhb) as [Hl Hd]. unfold parse.
  rewrite Hd, bind_ok, Hc, bind_ok, Hk, bind_ok, <- Hl, zdrop_zlen.
  destruct (Crypto.encrypt_with_ad_ok _ _ _ _ _ _ Hn Ha2) as [_ ->]. rewrite bind_ok.
  pose proof (zlen_to_le 8 (zlen bb)) as H8. pose proof (zlen_nonneg bb).
  destruct (a <? _) eqn:Hfit; [done|]. apply Z.ltb_ge in Hfit. rewrite zlen_app, H8 in Hfit.
  assert (a ≤ BLK_SIZE).
  { unfold Crypto.decrypted_len in Ha0. res_inv_one Ha0. apply u_sub_inv in Ha0 as [-> _].
    pose proof (Crypto.nonce_size_range c). pose proof (zlen_nonneg hb). change ATAG_SIZE with 16. lia. }
  change BLK_SIZE with 8192 in *. set (pad := replicate _ 0). rewrite <- app_assoc.
  assert (vslice (to_le 8 (zlen bb) ++ bb ++ pad) 0 8 = Ok (to_le 8 (zlen bb))) as ->.
  { unfold vslice. pose proof (zlen_nonneg pad). rewrite (proj2 (Z.leb_le 8 _)) by (rewrite !zlen_app, H8; lia).
    cbn [andb]. rewrite zdrop_0 by lia. change (8 - 0) with (Z.of_nat 8). by rewrite <- H8, ztake_zlen. }
  rewrite bind_ok, of_to_le by (change (256 ^ Z.of_nat 8) with U64; unfold U64; lia).
  rewrite u_add_ok by (unfold U64; lia). rewrite bind_ok.
  assert (vslice (to_le 8 (zlen bb) ++ bb ++ pad) 8 (8 + zlen bb) = Ok bb) as ->.
  { unfold vslice. pose proof (zlen_nonneg pad). rewrite !(proj2 (Z.leb_le _ _)) by (rewrite ?zlen_app, ?H8; lia).
    cbn [andb]. change 8 with (Z.of_nat 8) at 3. rewrite <- H8, zdrop_zlen.
    replace (8 + zlen bb - 8) with (zlen bb) by lia. by rewrite ztake_zlen. }
  rewrite bind_ok, (body_de_ser _ _ Hbb). by destruct sb.
Qed.

(** What is read has a salt, and its password is hashed. *)
Lemma head_deseri_inv x h : Head.deseri x = Ok h → head_ok h.
Proof.
  unfold Head.deseri. case_match eqn:Hl; [done|]. zify_b. intros Hd. res_inv_one Hd.
  res_inv_one Hd. res_inv_one Hd. res_inv_one Hd. res_inv_one Hd. injection Hd as <-. unfold head_ok. cbn [Head.salt].
  unfold vslice in Ha. case_match; [|done]. injection Ha as <-.
  rewrite zlen_ztake, zdrop_0 by (change SALT_SIZE with 16; lia).
  change Head.BYTES_LEN with 18 in *. change SALT_SIZE with 16. lia.
Qed.
Lemma parse_inv pwd x sb : parse pwd x = Ok sb →
  head_ok (head sb) ∧ ∃ c vkey, Crypto.new (Head.cost (head sb)) (Head.cipher (head sb)) = Ok c ∧
    Crypto.hash_pwd c pwd (Head.salt (head sb)) = Ok vkey.
Proof.
  unfold parse. intros Hp. res_inv_one Hp. apply head_deseri_inv in Ha. do 7 res_inv_one Hp.
  injection Hp as <-. eauto.
Qed.

(** The same super block, with a higher sequence number and a new time. *)
Definition alike sb sb' : Prop := head sb' = head sb ∧ Body.same (body sb) (body sb').
Definition next sb sb' : Prop := alike sb sb' ∧ Body.seq (body sb') = Body.seq (body sb) + 1.
Lemma alike_refl sb : alike sb sb.
Proof. done. Qed.
Lemma touch_next t sb b : Body.touch t (body sb) = Ok b → next sb (mkSuper (head sb) b).
Proof. unfold Body.touch. intros Hb. res_inv_one Hb. by injection Hb as <-. Qed.

(** The body can be serialised and fits in a block with either cipher. *)
Definition fits (b : Body.Body) : Prop :=
  ∃ bb, body_ser b = Some bb ∧ 8 + zlen bb ≤ BLK_SIZE - Head.BYTES_LEN - 44.

Lemma compose_ok c vkey nonce hb bb : ¬ Crypto.aead_fails → zlen hb = Head.BYTES_LEN →
  8 + zlen bb ≤ BLK_SIZE - Head.BYTES_LEN - 44 → ∃ x, compose c vkey nonce hb bb = Ok x.
Proof.
  intros Hf Hl Hb. unfold compose. pose proof (Crypto.overhead_range c). pose proof (zlen_nonneg bb).
  change BLK_SIZE with 8192 in *. change Head.BYTES_LEN with 18 in *.
  rewrite u_sub_ok, bind_ok, Crypto.decrypted_len_ok, bind_ok by lia.
  assert (H8 : zlen (to_le 8 (zlen bb) ++ bb) = 8 + zlen bb) by (by rewrite zlen_app, zlen_to_le).
  rewrite H8. rewrite (proj2 (Z.ltb_ge _ _)) by lia. rewrite bind_ok.
  set (m := _ ++ replicate _ _). assert (zlen m = 8192 - zlen hb - Crypto.overhead c) as Hm.
  { unfold m. rewrite zlen_app, H8, zlen_replicate by lia. lia. }
  unfold Crypto.encrypt_with_ad. rewrite Crypto.encrypted_len_ok, bind_ok by lia.
  destruct (Crypto.encrypt_raw_cases c nonce m vkey MAGIC) as [[x ->]|[_ Ha]]; [eauto|done].
Qed.
End text.

(** ** Operations *)

Section ops.
Context `{!Sodium, !SodiumLaws, !AddrSerde, !BodySerde, !BodySerdeLaws}.
Context {D R FM AM : Type} `{!Storable D, !SuperLaws D, !Random R, !RandomLaws R, !Clock R}.
Context `{!LinkedMapOps Z bytes FM, !LinkedMapOps Eid Addr.Addr AM}.
Abbreviation St := (Storage.St D R FM AM).
Implicit Types (s : St) (d : D) (sb : SuperBlk) (pwd x : bytes) (o : option bytes).

Definition arms d o0 o1 d' : Prop :=
  dp_arms (λ j, if decide (j = 0) then o0 else if decide (j = 1) then o1 else dp_super d j) d d'.
Definition arms_kept d d' : Prop := dp_arms (dp_super d) d d'.
(** An arm that a put of [x] did not return from: it holds the old text or the new, or neither. *)
Definition whole x o o' : Prop := o' = o ∨ o' = Some x.
Definition gone o' : Prop := o' = None ∨ ∃ y, o' = Some y ∧ dp_torn (D:=D) y.
Definition part x o o' : Prop := whole x o o' ∨ gone o'.
(** The first put of a save from [s] has failed. *)
Definition first_put_failed x s : Prop := ∃ e, (dp_put_super_block x 0 (Storage.depot s)).1 = Some (Err e).
(** The arms after puts that did not both return. *)
Definition left_over x s o0 o1 : Prop :=
  part x (dp_super (Storage.depot s) 0) o0 ∧ part x (dp_super (Storage.depot s) 1) o1 ∧
  (whole x (dp_super (Storage.depot s) 0) o0 ∨ whole x (dp_super (Storage.depot s) 1) o1 ∨ first_put_failed x s).

Lemma arms_kept_refl d : arms_kept d d.
Proof. by split. Qed.
Lemma arms_kept_trans d1 d2 d3 : arms_kept d1 d2 → arms_kept d2 d3 → arms_kept d1 d3.
Proof. intros [Hi ?] [Hj ?]. split; [intros i; by rewrite Hj|auto]. Qed.
Lemma arms_arms d o0 o1 d' : arms d o0 o1 d' → dp_super d' 0 = o0 ∧ dp_super d' 1 = o1.
Proof. intros [Hi _]. by rewrite !Hi. Qed.

(** One put, then both. *)
Lemma put_spec x i s (Q : unit → St → Prop) (E : Error → St → Prop) (F : St → Prop) :
  (∀ r d', dp_arms (λ j, if decide (j = i) then Some x else dp_super (Storage.depot s) j) (Storage.depot s) d' →
     Q r (Storage.mkSt d' (Storage.rng s) (Storage.sto s))) →
  (∀ e d' o, (dp_put_super_block x i (Storage.depot s)).1 = Some (Err e) →
     ¬ dp_calm (Storage.depot s) → part x (dp_super (Storage.depot s) i) o →
     dp_arms (λ j, if decide (j = i) then o else dp_super (Storage.depot s) j) (Storage.depot s) d' →
     E e (Storage.mkSt d' (Storage.rng s) (Storage.sto s))) →
  (∀ d' o, ¬ dp_calm (Storage.depot s) → part x (dp_super (Storage.depot s) i) o →
     dp_arms (λ j, if decide (j = i) then o else dp_super (Storage.depot s) j) (Storage.depot s) d' →
     F (Storage.mkSt d' (Storage.rng s) (Storage.sto s))) →
  spec (Storage.put_super_block x i) s Q E F.
Proof.
  intros Hq He Hf. pose proof (put_super_law x i (Storage.depot s)) as Hl.
  assert (Hp : ∀ o, (o = dp_super (Storage.depot s) i ∨ o = Some x ∨ o = None ∨ ∃ y, o = Some y ∧ dp_torn (D:=D) y) →
    part x (dp_super (Storage.depot s) i) o) by (intros o; unfold part, whole, gone; tauto).
  apply spec_zoom. unfold spec in *. destruct (dp_put_super_block x i (Storage.depot s)) as [[[r|e|]|] d']; cbn [fst] in *.
  - by apply Hq.
  - destruct Hl as (Hc & o & Ho & Hd). by apply (He e d' o); [|done|apply Hp|].
  - destruct Hl as (Hc & o & Ho & Hd). by apply (Hf d' o); [|apply Hp|].
  - destruct Hl as (Hc & o & Ho & Hd). by apply (Hf d' o); [|apply Hp|].
Qed.

Lemma arms_0 d o d' : dp_arms (λ j, if decide (j = 0) then o else dp_super d j) d d' → arms d o (dp_super d 1) d'.
Proof. intros [Hi Hc]. split; [|done]. intros i. rewrite Hi. repeat case_decide; by subst. Qed.
Lemma arms_1 d o0 o1 o d' d'' : arms d o0 o1 d' →
  dp_arms (λ j, if decide (j = 1) then o else dp_super d' j) d' d'' → arms d o0 o d''.
Proof. intros [Hi Hc] [Hj Hd]. split; [|auto]. intros i. rewrite Hj, Hi. repeat case_decide; by subst. Qed.
Lemma arms_calm d o0 o1 d' : arms d o0 o1 d' → ¬ dp_calm d' → ¬ dp_calm d.
Proof. intros [_ Hc] Hn ?. auto. Qed.

(** A value computed from what is known: the cases of its outcome. *)
Lemma spec_lift_eq {T} (r : res T) s (Q : T → St → Prop) (E : Error → St → Prop) (F : St → Prop) :
  (∀ a, r = Ok a → Q a s) → (∀ e, E e s) → F s → spec (lift r) s Q E F.
Proof. unfold spec, lift. destruct r; auto. Qed.

Lemma spec_bind_inv {T T'} (m : run St T) (k : T → run St T') s (Q : T' → St → Prop) (E : Error → St → Prop) (F : St → Prop) :
  spec (m ≫= k) s Q E F → spec m s (λ a s', spec (k a) s' Q E F) E F.
Proof. unfold spec, mbind, run_bind. by destruct (m s) as [[[]|] ?]. Qed.

Definition did_not_both x s s' : Prop :=
  ¬ dp_calm (Storage.depot s) ∧ ∃ o0 o1, left_over x s o0 o1 ∧ arms (Storage.depot s) o0 o1 (Storage.depot s').
Lemma put_both_spec x s :
  spec (put_arms x) s (λ _ s', arms (Storage.depot s) (Some x) (Some x) (Storage.depot s'))
    (λ _, did_not_both x s) (did_not_both x s).
Proof.
  assert (Hsnd : ∀ (r0 : res unit) o0 d', r0 ≠ Panic → part x (dp_super (Storage.depot s) 0) o0 →
    (r0 = Ok () ∧ o0 = Some x ∨ (∃ e, r0 = Err e) ∧ first_put_failed x s ∧ ¬ dp_calm (Storage.depot s)) →
    arms (Storage.depot s) o0 (dp_super (Storage.depot s) 1) d' →
    spec (r1 ← attempt (Storage.put_super_block x 1); lift (_ ← r0; r1)) (Storage.mkSt d' (Storage.rng s) (Storage.sto s))
      (λ _ s', arms (Storage.depot s) (Some x) (Some x) (Storage.depot s')) (λ _, did_not_both x s) (did_not_both x s)).
  { intros r0 o0 d' Hp Ho0 Hr0 Ha. pose proof (proj2 (arms_arms _ _ _ _ Ha)) as H1'.
    assert (Hfail : ∀ d'' o, ¬ dp_calm d' → part x (dp_super d' 1) o →
      dp_arms (λ j, if decide (j = 1) then o else dp_super d' j) d' d'' →
      did_not_both x s (Storage.mkSt d'' (Storage.rng s) (Storage.sto s))).
    { intros d'' o Hc Ho Hd. apply (arms_1 _ _ _ _ _ _ Ha) in Hd. rewrite H1' in Ho.
      split; [exact (arms_calm _ _ _ _ Ha Hc)|]. exists o0, o. split; [|done]. split; [done|]. split; [done|].
      destruct Hr0 as [[_ ->]|(_ & Hff & _)]; [left; by right|by right; right]. }
    apply spec_bind, spec_attempt, put_spec; cbn [Storage.depot].
    - intros [] d'' Hd. apply (arms_1 _ _ _ _ _ _ Ha) in Hd. destruct r0 as [[]|e|]; [|cbn|done].
      + apply spec_lift_ok. destruct Hr0 as [[_ ->]|[[e He] _]]; done.
      + destruct Hr0 as [[? _]|(_ & Hff & Hc)]; [done|]. split; [done|]. exists o0, (Some x). split; [|done].
        split; [done|]. split; [left; by right|by right; right].
    - intros e d'' o _ Hc Ho Hd. pose proof (Hfail d'' o Hc Ho Hd). by destruct r0 as [[]|e'|].
    - intros d'' o Hc Ho Hd. by apply (Hfail d'' o). }
  unfold put_arms. apply spec_bind, spec_attempt, put_spec.
  - intros [] d' Hd. apply (Hsnd (Ok ()) (Some x)); [done|left; by right|by left|by apply arms_0].
  - intros e d' o Hr Hc Ho Hd. apply (Hsnd (Err e) o); [done|done|right; split; [eauto|by split; [exists e|]]|by apply arms_0].
  - intros d' o Hc Ho Hd. split; [done|]. exists o, (dp_super (Storage.depot s) 1). split; [|by apply arms_0].
    split; [done|]. split; [left; by left|]. right; left. by left.
Qed.

(** [s'] after a save of [sb] from [s] that did not return: nothing was put, or arms may be torn. *)
Definition unsaved s s' : Prop := arms_kept (Storage.depot s) (Storage.depot s').
Definition mixed s pwd sb s' : Prop :=
  ¬ dp_calm (Storage.depot s) ∧ ∃ sb' x o0 o1, next sb sb' ∧ sealed pwd sb' x ∧ left_over x s o0 o1 ∧
    arms (Storage.depot s) o0 o1 (Storage.depot s').

Lemma super_save_spec sb pwd s :
  spec (save sb pwd) s
    (λ sb' s', next sb sb' ∧ ∃ x, sealed pwd sb' x ∧ arms (Storage.depot s) (Some x) (Some x) (Storage.depot s'))
    (λ _ s', unsaved s s' ∨ mixed s pwd sb s') (λ s', unsaved s s' ∨ mixed s pwd sb s').
Proof.
  assert (Hu : ∀ s', Storage.depot s' = Storage.depot s → unsaved s s') by (intros s' Hs; unfold unsaved; rewrite Hs; apply arms_kept_refl).
  unfold save. apply spec_bind, spec_lift_eq; [intros c Hc|by left; apply Hu..].
  apply spec_bind, spec_lift_eq; [intros vkey Hk|by left; apply Hu..].
  apply spec_bind, spec_lift_eq; [intros hb Hhb|by left; apply Hu..].
  apply spec_bind. unfold spec at 1, now at 1. destruct (time_now (Storage.rng s)) as [t r].
  apply spec_bind, spec_lift_eq; [intros b Hb|by left; apply Hu..].
  apply spec_bind, spec_lift_eq; [intros bb Hbb|by left; apply Hu..].
  apply spec_bind. unfold spec at 1, Storage.draw at 1. cbn [Storage.rng].
  pose proof (random_length Crypto.AES_NONCE_SIZE r ltac:(done)) as Hn.
  destruct (random_buf Crypto.AES_NONCE_SIZE r) as [nonce r']. cbn [fst] in Hn.
  apply spec_bind, spec_lift_eq; [intros x Hx|by left; apply Hu..].
  apply touch_next in Hb. set (sb' := mkSuper (head sb) b) in *.
  assert (Hs : sealed pwd sb' x).
  { exists c, vkey, hb, bb, nonce. split_and!; [done|done|done| |done|done]. change (body_ser b = Some bb). destruct (body_ser b); cbn in Hbb; congruence. }
  apply spec_bind. eapply spec_mono; [apply put_both_spec| | |]; cbn [Storage.depot].
  - intros [] s' Ha. apply spec_ret. split; [done|]. by exists x.
  - intros e s' (Hc' & o0 & o1 & Ho & Ha). right. split; [done|]. by exists sb', x, o0, o1.
  - intros s' (Hc' & o0 & o1 & Ho & Ha). right. split; [done|]. by exists sb', x, o0, o1.
Qed.

(** *** On a depot where nothing fails *)

(** What an arm gives when it is read with a password. *)
Definition arm_val pwd d (i : Z) : res SuperBlk := x ← ok_or NotFound (dp_super d i); parse pwd x.
(** The depot still works, and holds the same. *)
Definition calm_kept s s' : Prop :=
  dp_calm (Storage.depot s') ∧ ∀ i, dp_super (Storage.depot s') i = dp_super (Storage.depot s) i.

Lemma arm_val_kept pwd s s' i : calm_kept s s' → arm_val pwd (Storage.depot s') i = arm_val pwd (Storage.depot s) i.
Proof. intros [_ Hi]. unfold arm_val. by rewrite Hi. Qed.
Lemma calm_kept_trans s1 s2 s3 : calm_kept s1 s2 → calm_kept s2 s3 → calm_kept s1 s3.
Proof. intros [_ Hi] [Hc Hj]. split; [done|]. intros i. by rewrite Hj. Qed.

Lemma load_arm_spec i pwd s : dp_calm (Storage.depot s) →
  spec (load_arm i pwd) s (λ a s', arm_val pwd (Storage.depot s) i = Ok a ∧ calm_kept s s')
    (λ e s', (∃ e', arm_val pwd (Storage.depot s) i = Err e') ∧ calm_kept s s')
    (λ _, arm_val pwd (Storage.depot s) i = Panic).
Proof.
  intros Hc. unfold load_arm, arm_val. apply spec_bind, spec_zoom. eapply spec_mono; [apply get_super_law| | |].
  - intros x d' [-> [Hi Hk]]. cbn [ok_or]. rewrite bind_ok.
    assert (Hkept : calm_kept s (Storage.mkSt d' (Storage.rng s) (Storage.sto s))) by (split; [by apply Hk|done]).
    destruct (parse pwd x) as [a|e|]; [by apply spec_lift_ok|apply spec_fail; eauto|done].
  - intros e d' [[Hi Hk] [Hn|?]]; [|done]. rewrite Hn. split; [by exists NotFound|]. split; [by apply Hk|done].
  - by intros d' [_ ?].
Qed.

Lemma save_calm sb pwd s : dp_calm (Storage.depot s) → ¬ Crypto.aead_fails → head_ok (head sb) →
  (∀ b, Body.same (body sb) b → fits b) → Body.seq (body sb) + 1 < U64 →
  (∃ c vkey, Crypto.new (Head.cost (head sb)) (Head.cipher (head sb)) = Ok c ∧
     Crypto.hash_pwd c pwd (Head.salt (head sb)) = Ok vkey) →
  spec (save sb pwd) s (λ sb' s', next sb sb' ∧ dp_calm (Storage.depot s') ∧ ∀ i, i = 0 ∨ i = 1 →
      arm_val pwd (Storage.depot s') i = Ok sb') (λ _ _, False) (λ _, False).
Proof.
  intros Hc Hf Hh Hfit Hseq (c & vkey & Hnew & Hpw).
  assert (Hok : spec (save sb pwd) s (λ _ _, True) (λ _ _, False) (λ _, False)).
  { unfold save. rewrite Hnew. apply spec_bind, spec_lift_ok. rewrite Hpw. apply spec_bind, spec_lift_ok.
    rewrite head_seri_ok by done. apply spec_bind, spec_lift_ok, spec_bind. unfold spec at 1, now at 1.
    destruct (time_now (Storage.rng s)) as [t r]. unfold Body.touch. rewrite u_add_ok, bind_ok by done.
    apply spec_bind, spec_lift_ok. match goal with |- context [body_ser ?b] => destruct (Hfit b) as (bb & -> & Hlen); [done|] end.
    apply spec_bind, spec_lift_ok, spec_bind. unfold spec at 1, Storage.draw at 1. cbn [Storage.rng].
    destruct (random_buf Crypto.AES_NONCE_SIZE r) as [nonce r'].
    match goal with |- context [compose c vkey nonce ?hb bb] => destruct (compose_ok c vkey nonce hb bb) as [x ->]; [done| |done|] end.
    { rewrite zlen_app, Hh. done. }
    apply spec_bind, spec_lift_ok, spec_bind. eapply spec_mono; [apply put_both_spec|done| |]; by intros * [? _]. }
  eapply spec_mono; [apply spec_and; [exact Hok|apply super_save_spec]| |by intros ? ? [? _]|by intros ? [? _]].
  intros sb' s' (_ & Hn & x & Hx & Ha). split; [done|]. split; [by apply Ha|].
  intros i Hi. unfold arm_val. destruct Ha as [Ha _]. rewrite Ha.
  assert (parse pwd x = Ok sb') by (apply parse_sealed; [by rewrite (proj1 (proj1 Hn))|done]).
  by destruct Hi as [-> | ->]; cbn.
Qed.

(** The arm that a repair goes by. *)
Definition best (v0 v1 : res SuperBlk) : option SuperBlk :=
  match v0, v1 with
  | Ok l, Ok r => Some (if Body.seq (body l) <? Body.seq (body r) then r else l)
  | Ok l, _ => Some l
  | _, Ok r => Some r
  | _, _ => None
  end.

Lemma load_calm pwd s sb sb' : dp_calm (Storage.depot s) → arm_val pwd (Storage.depot s) 0 = Ok sb →
  arm_val pwd (Storage.depot s) 1 = Ok sb' → Body.seq (body sb) = Body.seq (body sb') →
  spec (load pwd) s (λ r s', r = sb ∧ calm_kept s s') (λ _ _, False) (λ _, False).
Proof.
  intros Hc H0' H1' Hq. unfold load. apply spec_bind. eapply spec_mono; [by apply load_arm_spec| | |]; rewrite H0';
    [|by intros ? ? [[? ?] _]|done].
  intros a s1 [[= <-] Hk]. apply spec_bind. eapply spec_mono; [by apply load_arm_spec, Hk| | |];
    rewrite (arm_val_kept _ _ _ _ Hk), H1'; [|by intros ? ? [[? ?] _]|done].
  intros b s2 [[= <-] Hk2]. rewrite Hq, Z.eqb_refl. apply spec_ret. split; [done|by eapply calm_kept_trans].
Qed.

Lemma repair_calm pwd s sb : let v0 := arm_val pwd (Storage.depot s) 0 in let v1 := arm_val pwd (Storage.depot s) 1 in
  dp_calm (Storage.depot s) → ¬ Crypto.aead_fails → v0 ≠ Panic → v1 ≠ Panic → best v0 v1 = Some sb →
  (∀ l r, v0 = Ok l → v1 = Ok r → Body.volume_id (body l) = Body.volume_id (body r) ∧ Body.key (body l) = Body.key (body r)) →
  (∀ b, Body.same (body sb) b → fits b) → Body.seq (body sb) + 1 < U64 →
  spec (_ ← repair pwd; load pwd) s (λ r s', alike sb r ∧ dp_calm (Storage.depot s')) (λ _ _, False) (λ _, False).
Proof.
  intros v0 v1 Hc Hf Hp0 Hp1 Hb Hkeys Hfit Hseq.
  assert (Hload : ∀ s' sb', dp_calm (Storage.depot s') → alike sb sb' → arm_val pwd (Storage.depot s') 0 = Ok sb' →
    (∃ r, arm_val pwd (Storage.depot s') 1 = Ok r ∧ Body.seq (body sb') = Body.seq (body r)) →
    spec (load pwd) s' (λ r s', alike sb r ∧ dp_calm (Storage.depot s')) (λ _ _, False) (λ _, False)).
  { intros s' sb' Hc' Ha Hl (r & Hr & Hq). eapply spec_mono; [by eapply load_calm|by intros ? ? [-> [? _]]|done|done]. }
  assert (Hsave : ∀ s' x, calm_kept s s' → parse pwd x = Ok sb →
    spec (_ ← (_ ← save sb pwd; mret ()); load pwd) s' (λ r s', alike sb r ∧ dp_calm (Storage.depot s')) (λ _ _, False) (λ _, False)).
  { intros s' x [Hc' _] Hx. destruct (parse_inv _ _ _ Hx) as [Hh Hck]. apply spec_bind, spec_bind.
    eapply spec_mono; [by apply save_calm| |done|done]. intros sb' s'' (Hn & Hc'' & Hi). apply spec_ret.
    apply (Hload _ sb'); [done|apply Hn|by auto|exists sb'; auto]. }
  assert (Hx : ∀ i a, arm_val pwd (Storage.depot s) i = Ok a → ∃ x, parse pwd x = Ok a).
  { intros i a Hv. unfold arm_val in Hv. res_inv_one Hv. eauto. }
  apply spec_bind. unfold repair. apply spec_bind, spec_attempt. eapply spec_mono; [by apply load_arm_spec| | |].
  3: { intros ? Hv. by destruct Hp0. }
  - intros l s1 [Hl Hk1]. fold v0 in Hl. rewrite Hl in Hb. apply spec_bind, spec_attempt.
    eapply spec_mono; [by apply load_arm_spec, Hk1| | |]; rewrite (arm_val_kept _ _ _ _ Hk1); fold v1.
    + intros r s2 [Hr Hk2]. rewrite Hr in Hb. destruct (Hkeys _ _ Hl Hr) as [-> ->].
      rewrite !bool_decide_eq_true_2 by done. cbn [negb orb].
      pose proof (calm_kept_trans _ _ _ Hk1 Hk2) as Hk. destruct (Hx _ _ Hl) as [xl ?], (Hx _ _ Hr) as [xr ?].
      cbn [best] in Hb. injection Hb as Hb.
      destruct (Body.seq (body r) <? Body.seq (body l)) eqn:Hrl; [|destruct (Body.seq (body l) <? Body.seq (body r)) eqn:Hlr];
        zify_b; subst sb.
      * rewrite (proj2 (Z.ltb_ge _ _)) in * by lia. by apply (spec_bind_inv _ _ _ _ _ _ (Hsave s2 xl Hk ltac:(done))).
      * by apply (spec_bind_inv _ _ _ _ _ _ (Hsave s2 xr Hk ltac:(done))).
      * apply spec_ret. apply (Hload _ l); [apply Hk|apply alike_refl|by rewrite (arm_val_kept _ _ _ _ Hk)|].
        exists r. split; [by rewrite (arm_val_kept _ _ _ _ Hk)|lia].
    + intros e s2 [[e' Hr] Hk2]. rewrite Hr in Hb. injection Hb as ->. destruct (Hx _ _ Hl) as [xl ?].
      by apply (spec_bind_inv _ _ _ _ _ _ (Hsave s2 xl (calm_kept_trans _ _ _ Hk1 Hk2) ltac:(done))).
    + intros ? Hv. by destruct Hp1.
  - intros e s1 [[e' Hl] Hk1]. fold v0 in Hl. rewrite Hl in Hb. apply spec_bind, spec_attempt.
    eapply spec_mono; [by apply load_arm_spec, Hk1| | |]; rewrite (arm_val_kept _ _ _ _ Hk1); fold v1.
    + intros r s2 [Hr Hk2]. rewrite Hr in Hb. injection Hb as ->. destruct (Hx _ _ Hr) as [xr ?].
      by apply (spec_bind_inv _ _ _ _ _ _ (Hsave s2 xr (calm_kept_trans _ _ _ Hk1 Hk2) ltac:(done))).
    + intros e2 s2 [[e2' Hr] _]. by rewrite Hr in Hb.
    + intros ? Hv. by destruct Hp1.
Qed.

(** *** A save that did not return *)

(** Read with the password, the text is an error. *)
Definition rejects pwd x : Prop := ∃ e, parse pwd x = Err e.

(** What is known of a super block [sb0], in both arms, and of its change to [sb]. *)
Definition change_ok sb0 sb : Prop :=
  head_ok (head sb) ∧ Body.seq (body sb) = Body.seq (body sb0) ∧ Body.seq (body sb0) + 2 < U64 ∧
  Body.volume_id (body sb) = Body.volume_id (body sb0) ∧ Body.key (body sb) = Body.key (body sb0) ∧
  ∀ b, Body.same (body sb0) b ∨ Body.same (body sb) b → fits b.

(** After it, one arm at least holds the old text or the new one, unless the first put has failed; the
    other may be gone. *)
Lemma save_leaves sb0 sb pwd pwd' s :
  (∀ i, i = 0 ∨ i = 1 → arm_val pwd (Storage.depot s) i = Ok sb0) → change_ok sb0 sb →
  ∃ sb', (next sb sb' ∧ ∀ x, sealed pwd' sb' x → parse pwd' x = Ok sb') ∧
  ∃ x0 x1 x o0 o1, parse pwd x0 = Ok sb0 ∧ parse pwd x1 = Ok sb0 ∧ (sealed pwd' sb' x ∨ (o0 = Some x0 ∧ o1 = Some x1)) ∧
    part x (Some x0) o0 ∧ part x (Some x1) o1 ∧ (whole x (Some x0) o0 ∨ whole x (Some x1) o1 ∨ first_put_failed x s) ∧
    arms (Storage.depot s) o0 o1 (Storage.depot (save sb pwd' s).2).
Proof.
  intros Hv (Hh & _).
  assert (Hi : ∀ i, i = 0 ∨ i = 1 → ∃ x, dp_super (Storage.depot s) i = Some x ∧ parse pwd x = Ok sb0).
  { intros i Hi. specialize (Hv i Hi). unfold arm_val in Hv. destruct (dp_super _ i) as [x|]; [by exists x|done]. }
  destruct (Hi 0) as (x0 & Hx0 & Hp0); [by left|]. destruct (Hi 1) as (x1 & Hx1 & Hp1); [by right|].
  assert (Hkeep : ∀ sb', next sb sb' → ∀ x, sealed pwd' sb' x → parse pwd' x = Ok sb')
    by (intros sb' Hn x; apply parse_sealed; by rewrite (proj1 (proj1 Hn))).
  assert (Hun : ∀ s', unsaved s s' → arms (Storage.depot s) (Some x0) (Some x1) (Storage.depot s')).
  { intros s' [Hk ?]. split; [|done]. intros j. rewrite Hk. repeat case_decide; by subst. }
  assert (Hex : ∃ sb', next sb sb').
  { exists (mkSuper (head sb) (Body.mkBody (Body.seq (body sb) + 1) (Body.volume_id (body sb)) (Body.ver (body sb))
      (Body.key (body sb)) (Body.uri (body sb)) (Body.compress (body sb)) (Body.ctime (body sb)) 0 (Body.payload (body sb)))). done. }
  assert (Hbad : ∀ s', unsaved s s' ∨ mixed s pwd' sb s' →
    ∃ sb', (next sb sb' ∧ ∀ x, sealed pwd' sb' x → parse pwd' x = Ok sb') ∧
    ∃ x0 x1 x o0 o1, parse pwd x0 = Ok sb0 ∧ parse pwd x1 = Ok sb0 ∧ (sealed pwd' sb' x ∨ (o0 = Some x0 ∧ o1 = Some x1)) ∧
      part x (Some x0) o0 ∧ part x (Some x1) o1 ∧ (whole x (Some x0) o0 ∨ whole x (Some x1) o1 ∨ first_put_failed x s) ∧
      arms (Storage.depot s) o0 o1 (Storage.depot s')).
  { intros s' [Hu|(Hc & sb' & x & o0 & o1 & Hn & Hx & (Ho0 & Ho1 & Ho) & Ha)].
    - destruct Hex as [sb' Hn]. exists sb'. split; [by split; [|by apply Hkeep]|].
      exists x0, x1, x0, (Some x0), (Some x1).
      split_and!; [done|done|by right|left; by left|left; by left|left; by left|by apply Hun].
    - exists sb'. split; [by split; [|by apply Hkeep]|]. rewrite Hx0 in Ho0, Ho. rewrite Hx1 in Ho1, Ho.
      exists x0, x1, x, o0, o1. split_and!; try done. by left. }
  eapply (spec_all (save sb pwd') s); [apply super_save_spec| |intros e s'; apply Hbad|intros s'; apply Hbad].
  intros sb' s' (Hn & x & Hx & Ha). exists sb'. split; [by split; [|by apply Hkeep]|].
  exists x0, x1, x, (Some x), (Some x). split_and!; [done|done|by left|left; by right|left; by right|left; by right|done].
Qed.

(** A repair, when every arm that opens is one of some super blocks of the same volume. *)
Lemma repair_among p s (P : SuperBlk → Prop) vid ky :
  dp_calm (Storage.depot s) → ¬ Crypto.aead_fails →
  (∀ i, i = 0 ∨ i = 1 → (∃ a, arm_val p (Storage.depot s) i = Ok a ∧ P a) ∨ ∃ e, arm_val p (Storage.depot s) i = Err e) →
  (∃ i, (i = 0 ∨ i = 1) ∧ ∃ a, arm_val p (Storage.depot s) i = Ok a) →
  (∀ a, P a → Body.volume_id (body a) = vid ∧ Body.key (body a) = ky ∧ Body.seq (body a) + 1 < U64 ∧
     ∀ b, Body.same (body a) b → fits b) →
  ∃ a r, P a ∧ ((_ ← repair p; load p) s).1 = Some (Ok r) ∧ alike a r.
Proof.
  intros Hc Hf Hi Hsome HP.
  assert (Hgo : ∀ a, P a → best (arm_val p (Storage.depot s) 0) (arm_val p (Storage.depot s) 1) = Some a →
    ∃ a r, P a ∧ ((_ ← repair p; load p) s).1 = Some (Ok r) ∧ alike a r).
  { intros a Ha Hb. destruct (HP a Ha) as (_ & _ & Hq & Hfit).
    assert (Hsp : spec (_ ← repair p; load p) s (λ r s', alike a r ∧ dp_calm (Storage.depot s')) (λ _ _, False) (λ _, False)).
    { apply repair_calm; try done.
      - intros Hp. destruct (Hi 0) as [(? & E & _)|[? E]]; [by left|congruence..].
      - intros Hp. destruct (Hi 1) as [(? & E & _)|[? E]]; [by right|congruence..].
      - intros l r Hl Hr. destruct (Hi 0) as [(? & E & Pl)|[? E]]; [by left| |congruence].
        destruct (Hi 1) as [(? & E' & Pr)|[? E']]; [by right| |congruence]. simplify_eq.
        destruct (HP _ Pl) as (? & ? & _), (HP _ Pr) as (? & ? & _). split; congruence. }
    unfold spec in Hsp. destruct ((_ ← repair p; load p) s) as [[[r|e|]|] s']; [|done..].
    exists a, r. by destruct Hsp. }
  destruct (Hi 0) as [(a0 & E0 & P0)|[e0 E0]]; [by left| |]; (destruct (Hi 1) as [(a1 & E1 & P1)|[e1 E1]]; [by right| |]);
    rewrite E0, E1 in Hgo; cbn [best] in Hgo.
  - destruct (_ <? _); [by apply (Hgo a1)|by apply (Hgo a0)].
  - by apply (Hgo a0).
  - by apply (Hgo a1).
  - destruct Hsome as (i & [-> | ->] & b & Hb); congruence.
Qed.

(** What a repair with either password can stumble on. *)
Definition torn_panics d pwd pwd' : Prop :=
  ∃ i y p, (i = 0 ∨ i = 1) ∧ (p = pwd ∨ p = pwd') ∧ dp_super d i = Some y ∧ dp_torn (D:=D) y ∧ parse p y = Panic.

(** C32: A save of the super block, under the same password or another, that returns, fails or is
    cut short by a stop of the machine, its puts torn or not: once the depot works again, repairing with
    the old password or with the new one succeeds, and what is loaded then is the old super
    block or the new one, but for sequence number and time of change; unless both arms are gone, for which the
    first put has failed and the second was made in spite of it (super_block.rs:126), or a torn text
    makes reading panic (super_block.rs:145). A torn text is never read as a super block, and a text
    that opens with one of two different passwords is an error under the other. *)
Theorem interrupted_save_repaired sb0 sb pwd pwd' s s2 :
  (∀ i, i = 0 ∨ i = 1 → arm_val pwd (Storage.depot s) i = Ok sb0) → change_ok sb0 sb →
  dp_calm (Storage.depot s2) →
  (∀ i, dp_super (Storage.depot s2) i = dp_super (Storage.depot (save sb pwd' s).2) i) →
  (∀ y p a, dp_torn (D:=D) y → parse p y ≠ Ok a) →
  (pwd' ≠ pwd → ∀ x a, (parse pwd' x = Ok a → rejects pwd x) ∧ (parse pwd x = Ok a → rejects pwd' x)) →
  ¬ Crypto.aead_fails →
  (∃ p base, (p = pwd ∧ base = sb0 ∨ p = pwd' ∧ base = sb) ∧
    ∃ r, ((_ ← repair p; load p) s2).1 = Some (Ok r) ∧ alike base r) ∨
  ((∃ x, first_put_failed x s) ∧ gone (dp_super (Storage.depot s2) 0) ∧ gone (dp_super (Storage.depot s2) 1)) ∨
  torn_panics (Storage.depot s2) pwd pwd'.
Proof.
  intros Hv Hch Hc Hs2 Htorn Hother Hf.
  destruct (save_leaves _ _ _ pwd' _ Hv Hch) as (sb' & [Hn Hkeep] & x0 & x1 & x & o0 & o1 & Hx0 & Hx1 & Hx & Ho0 & Ho1 & Ho & Ha).
  destruct Hch as (Hh & Hq & Hmax & Hvid & Hkey & Hfit).
  destruct (arms_arms _ _ _ _ Ha) as [E0 E1]. rewrite <- Hs2 in E0, E1. clear Ha Hs2.
  assert (Hsame : ∀ b, Body.same (body sb') b → Body.same (body sb) b)
    by (destruct Hn as [[_ Hn] _]; intros b Hb; unfold Body.same in *; destruct_and!; split_and!; congruence).
  assert (HP : ∀ a, a = sb0 ∨ a = sb' → Body.volume_id (body a) = Body.volume_id (body sb0) ∧
    Body.key (body a) = Body.key (body sb0) ∧ Body.seq (body a) + 1 < U64 ∧ ∀ b, Body.same (body a) b → fits b).
  { intros a [-> | ->]; [split_and!; try done; [lia|intros b ?; apply Hfit; by left]|].
    destruct Hn as [[Hhd Hb] Hsq]. pose proof Hb as Hb'. unfold Body.same in Hb'. destruct_and!.
    split_and!; [congruence|congruence|lia|intros b Hb2; apply Hfit; right; by apply Hsame]. }
  set (v := λ p i, arm_val p (Storage.depot s2) i).
  assert (Hwhole : ∀ i x' o, dp_super (Storage.depot s2) i = o → whole x (Some x') o → parse pwd x' = Ok sb0 →
    sealed pwd' sb' x ∨ o = Some x' →
    (∃ x', parse pwd x' = Ok sb0 ∧ ∀ p, v p i = parse p x') ∨ (sealed pwd' sb' x ∧ ∀ p, v p i = parse p x)).
  { intros i x' o Ho' Hw Hp Hx'. assert (Hold : o = Some x' → ∃ x', parse pwd x' = Ok sb0 ∧ ∀ p, v p i = parse p x')
      by (intros ->; exists x'; split; [done|]; intros p; unfold v, arm_val; by rewrite Ho').
    destruct Hw as [Hw| ->]; [by left; apply Hold|]. destruct Hx' as [Hx'|Hx']; [right|by left; apply Hold].
    split; [done|]. intros p. unfold v, arm_val. by rewrite Ho'. }
  assert (Hpart : ∀ i x' o, i = 0 ∨ i = 1 → dp_super (Storage.depot s2) i = o → part x (Some x') o → parse pwd x' = Ok sb0 →
    sealed pwd' sb' x ∨ o = Some x' →
    torn_panics (Storage.depot s2) pwd pwd' ∨
    (∃ x', parse pwd x' = Ok sb0 ∧ ∀ p, v p i = parse p x') ∨ (sealed pwd' sb' x ∧ ∀ p, v p i = parse p x) ∨
    gone (dp_super (Storage.depot s2) i) ∧ ∀ p, p = pwd ∨ p = pwd' → ∃ e, v p i = Err e).
  { intros i x' o Hi Ho' [Hw|Ht] Hp Hx'; [right; destruct (Hwhole i x' o Ho' Hw Hp Hx'); auto|].
    unfold v, arm_val. rewrite Ho'. pose proof Ht as [-> |(y & -> & Hy)]; [right; right; right; split; [done|]; by exists NotFound|].
    assert (Hone : ∀ p, p = pwd ∨ p = pwd' → (∃ e, parse p y = Err e) ∨ torn_panics (Storage.depot s2) pwd pwd').
    { intros p Hpp. destruct (parse p y) as [a|e|] eqn:He; [by destruct (Htorn y p a)|by left; exists e|].
      right. by exists i, y, p. }
    destruct (Hone pwd) as [He|]; [by left| |by left]. destruct (Hone pwd') as [He'|]; [by right| |by left].
    right; right; right. split; [done|]. by intros p [-> | ->]. }
  assert (Hall : torn_panics (Storage.depot s2) pwd pwd' ∨ ∀ i, i = 0 ∨ i = 1 →
    (∃ x', parse pwd x' = Ok sb0 ∧ ∀ p, v p i = parse p x') ∨ (sealed pwd' sb' x ∧ ∀ p, v p i = parse p x) ∨
    gone (dp_super (Storage.depot s2) i) ∧ ∀ p, p = pwd ∨ p = pwd' → ∃ e, v p i = Err e).
  { destruct (Hpart 0 x0 o0) as [|Hc0]; [by left|done..|destruct Hx as [?|[? ?]]; auto|by left|].
    destruct (Hpart 1 x1 o1) as [|Hc1]; [by right|done..|destruct Hx as [?|[? ?]]; auto|by left|].
    right. by intros i [-> | ->]. }
  destruct Hall as [|Hall]; [by right; right|]. clear Hpart.
  assert (Hone : (∃ i, (i = 0 ∨ i = 1) ∧ ((∃ x', parse pwd x' = Ok sb0 ∧ ∀ p, v p i = parse p x') ∨
    (sealed pwd' sb' x ∧ ∀ p, v p i = parse p x))) ∨
    ((∃ x, first_put_failed x s) ∧ gone (dp_super (Storage.depot s2) 0) ∧ gone (dp_super (Storage.depot s2) 1))).
  { destruct (Hall 0) as [?|[?|[Hg0 _]]]; [by left|by left; exists 0; auto..|].
    destruct (Hall 1) as [?|[?|[Hg1 _]]]; [by right|by left; exists 1; auto..|].
    destruct Ho as [Hw|[Hw|Hff]]; [left; exists 0|left; exists 1|right; eauto]; (split; [auto|]);
      eapply Hwhole; eauto; destruct Hx as [?|[? ?]]; auto. }
  destruct Hone as [Hone|]; [left|by right; left]. clear Hwhole.
  assert (Hfin : ∀ p (P : SuperBlk → Prop), (∀ a, P a → (p = pwd ∧ a = sb0) ∨ (p = pwd' ∧ a = sb')) →
    (∀ i, i = 0 ∨ i = 1 → (∃ a, v p i = Ok a ∧ P a) ∨ ∃ e, v p i = Err e) →
    (∃ i, (i = 0 ∨ i = 1) ∧ ∃ a, v p i = Ok a) →
    ∃ p base, (p = pwd ∧ base = sb0 ∨ p = pwd' ∧ base = sb) ∧ ∃ r, ((_ ← repair p; load p) s2).1 = Some (Ok r) ∧ alike base r).
  { intros p P HPa Hv' Hsome.
    destruct (repair_among p s2 P (Body.volume_id (body sb0)) (Body.key (body sb0))) as (a & r & Pa & Hr & Hal); try done.
    { intros a Pa. apply HP. destruct (HPa a Pa) as [[_ ?]|[_ ?]]; auto. }
    destruct (HPa a Pa) as [[-> ->]|[-> ->]]; [exists pwd, sb0; split; [by left|by exists r]|].
    exists pwd', sb. split; [by right|]. exists r. split; [done|].
    destruct Hn as [[Hhd Hb] _], Hal as [Hhd' Hb']. split; [congruence|by apply Hsame]. }
  destruct (decide (pwd' = pwd)) as [->|Hne].
  - apply (Hfin pwd (λ a, a = sb0 ∨ a = sb')); [by intros a [->| ->]; [left|right]| |].
    + intros i Hi. destruct (Hall i Hi) as [(x' & Hx' & Hp)|[[Hs Hp]|[_ Hp]]]; [left; exists sb0|left; exists sb'|right; apply Hp; by left];
        rewrite Hp; auto.
    + destruct Hone as (i & Hi & [(x' & Hx' & Hp)|[Hs Hp]]); exists i; (split; [done|]); rewrite Hp; eauto.
  - pose proof (Hother Hne) as Hxx. destruct Hone as (i & Hi & [(x' & Hx' & Hp)|[Hs Hp]]).
    + apply (Hfin pwd (eq sb0)); [intros a <-; by left| |exists i; split; [done|]; rewrite Hp; eauto].
      intros j Hj. destruct (Hall j Hj) as [(x2 & Hx2 & Hp2)|[[Hs Hp2]|[_ Hp2]]]; [left; exists sb0|right|right; apply Hp2; by left];
        rewrite Hp2; [done|]. apply (Hxx x sb'). by apply Hkeep.
    + apply (Hfin pwd' (eq sb')); [intros a <-; by right| |exists i; split; [done|]; rewrite Hp; eauto].
      intros j Hj. destruct (Hall j Hj) as [(x2 & Hx2 & Hp2)|[[Hs' Hp2]|[_ Hp2]]]; [right|left; exists sb'|right; apply Hp2; by right];
        rewrite Hp2; [by apply (Hxx x2 sb0)|auto].
Qed.
End ops.
