(* ===== verification/Volume.v ===== *)
(** * src/volume/volume.rs: making, opening and repairing a volume.

    A volume is a storage and its description. Which depot an URI stands for is not modelled:
    [new] is given the storage. *)
From S2P Require Import Prelude Run Base Address Crypto Armor Storage SuperBlk SuperProofs.
Import SuperBlk.

(** [fs::Config], the part a volume uses. *)
Record Config := mkConfig { cfg_cost : Cost.Cost; cfg_cipher : Cipher.Cipher; cfg_compress : bool }.

Module Info.
Record Info := mkInfo {
  id : Eid; ver : Version.Version; uri : bytes; compress : bool; cost : Cost.Cost; cipher : Cipher.Cipher; ctime : Z
}.
Definition default : Info := mkInfo 0 (Version.mkVersion 0 0 0) [] false Cost.default Cipher.default 0.
Definition set_uri (u : bytes) (i : Info) : Info := mkInfo (id i) (ver i) u (compress i) (cost i) (cipher i) (ctime i).
Definition set_cost (c : Cost.Cost) (i : Info) : Info := mkInfo (id i) (ver i) (uri i) (compress i) c (cipher i) (ctime i).
End Info.

Module Volume.
Record Volume (S : Type) := mkVolume { info : Info.Info; storage : S }.
Arguments mkVolume {S}. Arguments info {S}. Arguments storage {S}.

Section volume.
Context `{!Sodium, !AddrSerde, !BodySerde} {D R FM AM : Type} `{!Storable D, !Random R, !Clock R}.
Context `{!LinkedMapOps Z bytes FM, !LinkedMapOps Eid Addr.Addr AM}.
Abbreviation St := (Storage.St D R FM AM).
Abbreviation act := (run (Volume St)).

Definition on_storage {A} (m : run St A) : act A := zoom storage (λ s v, mkVolume (info v) s) m.
Definition set_info (f : Info.Info → Info.Info) : act unit := modify (λ v, mkVolume (f (info v)) (storage v)).

Definition new (uri : bytes) (s : St) : Volume St := mkVolume (Info.set_uri uri Info.default) s.

Definition init (pwd : bytes) (cfg : Config) (payload : bytes) : act unit :=
  _ ← on_storage (Storage.connect false);
  _ ← on_storage (Storage.init (cfg_cost cfg) (cfg_cipher cfg));
  eid ← on_storage (Storage.draw EID_SIZE);
  t ← on_storage now;
  _ ← set_info (λ i, Info.mkInfo (of_le eid) Version.repo_version (Info.uri i) (cfg_compress cfg)
                       (cfg_cost cfg) (cfg_cipher cfg) t);
  salt ← on_storage (Storage.draw SALT_SIZE);
  key ← on_storage (Storage.the Storage.key);
  i ← ask info;
  let super_blk := mkSuper (Head.mkHead salt (cfg_cost cfg) (cfg_cipher cfg))
    (Body.mkBody 0 (Info.id i) (Info.ver i) key (Info.uri i) (cfg_compress cfg) (Info.ctime i) 0 payload) in
  _ ← on_storage (save super_blk pwd);
  mret ().

(** The payload of the super block is given back. *)
Definition open (pwd : bytes) (force : bool) : act bytes :=
  _ ← on_storage (Storage.connect force);
  sb ← on_storage (load pwd);
  _ ← (if negb (Version.match_repo_version (Body.ver (body sb))) then fail WrongVersion else mret ());
  _ ← on_storage (Storage.open (Head.cost (head sb)) (Head.cipher (head sb)) (Body.key (body sb)) force);
  _ ← set_info (λ i, Info.mkInfo (Body.volume_id (body sb)) (Body.ver (body sb)) (Info.uri i)
                       (Body.compress (body sb)) (Head.cost (head sb)) (Head.cipher (head sb)) (Body.ctime (body sb)));
  mret (Body.payload (body sb)).

Definition repair_super_block (pwd : bytes) : act unit :=
  _ ← on_storage (Storage.connect false); on_storage (repair pwd).

Definition exists_ : act bool := on_storage Storage.exists_.

Definition reset_password (old_pwd new_pwd : bytes) (cost : Cost.Cost) : act unit :=
  sb ← on_storage (load old_pwd);
  let h := head sb in
  _ ← on_storage (save (mkSuper (Head.mkHead (Head.salt h) cost (Head.cipher h)) (body sb)) new_pwd);
  set_info (Info.set_cost cost).

Definition del_wal (id : Eid) : act unit := on_storage (Storage.del_wal id).
Definition del (id : Eid) : act unit := on_storage (Storage.del id).
Definition flush : act unit := on_storage Storage.flush.
Definition destroy : act unit := on_storage Storage.destroy.
End volume.
End Volume.

(** ** Opening gives what was made *)

(** Connecting to a depot leaves its super blocks alone. *)
Class ConnectLaws (D : Type) `{!Storable D, !SuperLaws D} : Prop :=
  connect_law force (d : D) : spec (dp_connect force) d (λ _ d', dp_arms (dp_super d) d d') (λ _ _, True) (λ _, True).
#[export] Hint Mode ConnectLaws ! - - : typeclass_instances.

Section laws.
Context `{!Sodium, !SodiumLaws, !AddrSerde, !BodySerde, !BodySerdeLaws}.
Context {D R FM AM : Type} `{!Storable D, !SuperLaws D, !ConnectLaws D, !Random R, !RandomLaws R, !Clock R}.
Context `{!LinkedMapOps Z bytes FM, !LinkedMapOps Eid Addr.Addr AM}.
Abbreviation St := (Storage.St D R FM AM).
Abbreviation Vol := (Volume.Volume St).
Implicit Types (v : Vol) (s : St) (sb : SuperBlk).

(** The depot of a volume. *)
Definition vdepot v : D := Storage.depot (Volume.storage v).
Definition vsto v : Storage.Storage FM AM := Storage.sto (Volume.storage v).

(** Both arms give the super block, and its key can be used. *)
Definition sealed_in (d : D) pwd sb : Prop :=
  (∀ i, i = 0 ∨ i = 1 → arm_val pwd d i = Ok sb) ∧
  (∃ c, Crypto.new (Head.cost (head sb)) (Head.cipher (head sb)) = Ok c) ∧
  ∃ k, Crypto.derive (Body.key (body sb)) 0 = Ok k.

Lemma on_storage_spec {T} (m : run St T) v (Q : T → Vol → Prop) E F :
  spec m (Volume.storage v) (λ a s, Q a (Volume.mkVolume (Volume.info v) s))
    (λ e s, E e (Volume.mkVolume (Volume.info v) s)) (λ s, F (Volume.mkVolume (Volume.info v) s)) →
  spec (Volume.on_storage m) v Q E F.
Proof. intros Hm. by apply spec_zoom. Qed.

(** An error in opening is the depot's, and so is a stop. *)
Definition fails {T} (m : run D T) (e : Error) : Prop := ∃ d, (m d).1 = Some (Err e).
Definition halts {T} (m : run D T) : Prop := ∃ d, (m d).1 = None ∨ (m d).1 = Some Panic.
Definition open_fails force e : Prop := fails (dp_connect (D:=D) force) e ∨ ∃ c k, fails (dp_open c k force) e.
Definition open_halts force : Prop := halts (dp_connect (D:=D) force) ∨ ∃ c k, halts (dp_open c k force).

Lemma spec_self {T} (m : run D T) d : spec m d (λ _ _, True) (λ e _, fails m e) (λ _, halts m).
Proof. unfold spec, fails, halts. destruct (m d) as [[[]|] ?] eqn:E; try done; exists d; rewrite E; auto. Qed.

Lemma sealed_in_kept (d d' : D) pwd sb : (∀ i, dp_super d' i = dp_super d i) → sealed_in d pwd sb → sealed_in d' pwd sb.
Proof. intros Hs [Hi ?]. split; [|done]. intros i. unfold arm_val. rewrite Hs. apply Hi. Qed.

Lemma open_sealed pwd force sb v :
  dp_calm (vdepot v) → sealed_in (vdepot v) pwd sb → Version.match_repo_version (Body.ver (body sb)) = true →
  spec (Volume.open pwd force) v
    (λ p v', p = Body.payload (body sb) ∧
       Volume.info v' = Info.mkInfo (Body.volume_id (body sb)) (Body.ver (body sb)) (Info.uri (Volume.info v))
         (Body.compress (body sb)) (Head.cost (head sb)) (Head.cipher (head sb)) (Body.ctime (body sb)) ∧
       Crypto.new (Head.cost (head sb)) (Head.cipher (head sb)) = Ok (Storage.crypto (vsto v')) ∧
       Storage.key (vsto v') = Body.key (body sb))
    (λ e _, open_fails force e) (λ _, open_halts force).
Proof.
  intros Hc (Hi & (c & Hnew) & (k & Hk)) Hver. unfold Volume.open. apply spec_bind, on_storage_spec, spec_zoom.
  eapply spec_mono; [apply spec_and; [apply spec_self|apply connect_law]| |by intros e ? [? _]; left|by intros ? [? _]; left].
  intros [] d1 [_ [Ha Hcalm]]. cbn beta. apply spec_bind, on_storage_spec.
  assert (Hv : ∀ i, arm_val pwd d1 i = arm_val pwd (vdepot v) i) by (intros i; unfold arm_val; by rewrite Ha).
  eapply spec_mono; [apply (load_calm pwd _ sb sb); cbn; [by apply Hcalm|rewrite Hv; auto|rewrite Hv; auto|done]| |done|done].
  intros ? s2 [-> Hk2]. rewrite Hver. apply spec_bind, spec_ret, spec_bind, on_storage_spec. unfold Storage.open.
  rewrite Hnew. apply spec_bind, spec_lift_ok, spec_bind, spec_modify, spec_bind, spec_modify. rewrite Hk.
  apply spec_bind, spec_lift_ok, spec_zoom.
  eapply spec_mono; [apply spec_self| |intros e ? Hf; right; do 2 eexists; exact Hf|intros ? Hf; right; do 2 eexists; exact Hf].
  intros [] d3 _. apply spec_bind, spec_modify, spec_ret. by split_and!.
Qed.

(** What the volume says of itself is what its super block says. *)
Definition described v sb : Prop :=
  Volume.info v = Info.mkInfo (Body.volume_id (body sb)) (Body.ver (body sb)) (Info.uri (Volume.info v))
    (Body.compress (body sb)) (Head.cost (head sb)) (Head.cipher (head sb)) (Body.ctime (body sb)).

(** After a save, both arms give the super block. *)
Lemma save_sealed sb pwd s : head_ok (head sb) →
  spec (save sb pwd) s (λ sb' s', next sb sb' ∧ ∀ i, i = 0 ∨ i = 1 → arm_val pwd (Storage.depot s') i = Ok sb')
    (λ _ _, True) (λ _, True).
Proof.
  intros Hh. eapply spec_mono; [apply super_save_spec| |done|done]. intros sb' s' (Hn & x & Hx & Ha & _). split; [done|].
  intros i Hi. unfold arm_val. rewrite Ha.
  assert (parse pwd x = Ok sb') by (apply parse_sealed; [by rewrite (proj1 (proj1 Hn))|done]).
  by destruct Hi as [-> | ->]; cbn.
Qed.

Lemma spec_any {X T} (m : run X T) x : spec m x (λ _ _, True) (λ _ _, True) (λ _, True).
Proof. unfold spec. by destruct (m x) as [[[]|] ?]. Qed.
(** Random bytes for the storage of a volume. *)
Lemma draw_bytes n (s : St) (Q : bytes → St → Prop) E F : 0 ≤ n →
  (∀ x r, zlen x = n → Q x (Storage.mkSt (Storage.depot s) r (Storage.sto s))) → spec (Storage.draw n) s Q E F.
Proof.
  intros Hn Hq. pose proof (random_length n (Storage.rng s) Hn) as Hl. unfold spec, Storage.draw.
  destruct (random_buf n (Storage.rng s)) as [x r]. by apply Hq.
Qed.

(** Saving leaves the storage itself alone. *)
Lemma save_stable sb pwd : stable Storage.sto (save (D:=D) (R:=R) (FM:=FM) (AM:=AM) sb pwd).
Proof.
  assert (Hput : ∀ x i, stable Storage.sto (Storage.put_super_block (D:=D) (R:=R) (FM:=FM) (AM:=AM) x i)) by (intros x i; by apply stable_zoom).
  unfold save, put_arms. repeat first [apply stable_lift | apply stable_ret | apply stable_attempt | apply Hput | apply stable_bind | intros ?].
  - unfold now. by destruct (time_now _).
  - unfold Storage.draw. by destruct (random_buf _ _).
Qed.

Lemma init_spec pwd cfg payload v :
  spec (Volume.init pwd cfg payload) v
    (λ _ v1, ∃ sb, sealed_in (vdepot v1) pwd sb ∧ described v1 sb ∧ Body.payload (body sb) = payload ∧
       Version.match_repo_version (Body.ver (body sb)) = true ∧
       Crypto.new (Head.cost (head sb)) (Head.cipher (head sb)) = Ok (Storage.crypto (vsto v1)) ∧
       Storage.key (vsto v1) = Body.key (body sb)) (λ _ _, True) (λ _, True).
Proof.
  unfold Volume.init. apply spec_bind. eapply spec_mono; [apply spec_any| |done|done]. intros [] va _.
  apply spec_bind, on_storage_spec. unfold Storage.init. apply spec_bind.
  destruct (Crypto.new (cfg_cost cfg) (cfg_cipher cfg)) as [c|e|] eqn:Hnew; [|done..]. apply spec_lift_ok.
  apply spec_bind, spec_modify, spec_bind, draw_bytes; [done|]. intros k r _. apply spec_bind, spec_modify, spec_bind.
  destruct (Crypto.derive k 0) as [d|e|] eqn:Hder; [|done..]. apply spec_lift_ok, spec_zoom.
  eapply spec_mono; [apply spec_any| |done|done]. intros [] d1 _. cbn beta.
  apply spec_bind, on_storage_spec, draw_bytes; [done|]. intros eid r2 _.
  apply spec_bind, on_storage_spec. unfold spec at 1, now at 1. destruct (time_now _) as [t r3].
  apply spec_bind, spec_modify, spec_bind, on_storage_spec, draw_bytes; [done|]. intros salt r4 Hsalt.
  apply spec_bind, on_storage_spec, spec_ask, spec_bind, spec_ask, spec_bind, on_storage_spec.
  match goal with |- spec (save ?sb _) ?s _ _ _ => set (sb0 := sb); set (s0 := s) end.
  eapply spec_mono; [apply spec_also with (R := λ s' : St, Storage.sto s' = Storage.sto s0); [by apply save_sealed|apply save_stable]|
    |done|done].
  intros sb' s' [[[[Hhd Hb] _] Hi] Hsto]. apply spec_ret. exists sb'.
  unfold described, sealed_in. rewrite Hhd. unfold vdepot, vsto. cbn [Volume.storage Volume.info]. rewrite Hsto.
  destruct Hb as (Hb1 & Hb2 & Hb3 & Hb4 & Hb5 & Hb6 & Hb7). rewrite <- Hb1, <- Hb2, <- Hb3, <- Hb5, <- Hb6, <- Hb7.
  split_and!; try done; [by exists c|by exists d].
Qed.

(** C33: What [init] makes, [open] finds: whenever the depot works and its super blocks are those
    that a successful [init] left, opening with the same password gives back the payload, the
    description of the volume, and a storage with the same cipher and master key, unless the
    depot itself refuses to connect or open. *)
Theorem init_then_open pwd cfg payload force v v1 v2 :
  Volume.init pwd cfg payload v = (Some (Ok ()), v1) →
  dp_calm (vdepot v2) → (∀ i, dp_super (vdepot v2) i = dp_super (vdepot v1) i) → Info.uri (Volume.info v2) = Info.uri (Volume.info v1) →
  spec (Volume.open pwd force) v2
    (λ p v3, p = payload ∧ Volume.info v3 = Volume.info v1 ∧
       Storage.crypto (vsto v3) = Storage.crypto (vsto v1) ∧ Storage.key (vsto v3) = Storage.key (vsto v1))
    (λ e _, open_fails force e) (λ _, open_halts force).
Proof.
  intros Hinit Hc Hs Huri. pose proof (init_spec pwd cfg payload v) as Hi. unfold spec in Hi. rewrite Hinit in Hi.
  destruct Hi as (sb & Hsb & Hd & <- & Hver & Hcr & Hk).
  eapply spec_mono; [apply (open_sealed pwd force sb); [done|by apply (sealed_in_kept (vdepot v1))|done]| |done|done].
  intros p v3 (-> & Hinfo & Hcr3 & Hk3). rewrite Hcr in Hcr3. injection Hcr3 as ->.
  split_and!; [done| |done|congruence]. by rewrite Hinfo, Hd, Huri.
Qed.

(** C34: After a reset of the password that returned, the new password opens the volume and gives
    the payload and the keys that the old one gave. *)
Theorem reset_then_open old_pwd new_pwd cost force sb v v1 v2 :
  dp_calm (vdepot v) → sealed_in (vdepot v) old_pwd sb → Version.match_repo_version (Body.ver (body sb)) = true →
  (∃ c, Crypto.new cost (Head.cipher (head sb)) = Ok c) →
  Volume.reset_password old_pwd new_pwd cost v = (Some (Ok ()), v1) →
  dp_calm (vdepot v2) → (∀ i, dp_super (vdepot v2) i = dp_super (vdepot v1) i) →
  spec (Volume.open new_pwd force) v2
    (λ p v3, p = Body.payload (body sb) ∧ Info.cost (Volume.info v3) = cost ∧
       Info.cipher (Volume.info v3) = Head.cipher (head sb) ∧
       Crypto.new cost (Head.cipher (head sb)) = Ok (Storage.crypto (vsto v3)) ∧ Storage.key (vsto v3) = Body.key (body sb))
    (λ e _, open_fails force e) (λ _, open_halts force).
Proof.
  intros Hc (Hi & _ & Hk) Hver Hnew Hreset Hc2 Hs.
  assert (Hr : spec (Volume.reset_password old_pwd new_pwd cost) v (λ _ v1, ∃ sb', sealed_in (vdepot v1) new_pwd sb' ∧
    head sb' = Head.mkHead (Head.salt (head sb)) cost (Head.cipher (head sb)) ∧ Body.same (body sb) (body sb')) (λ _ _, True) (λ _, True)).
  { unfold Volume.reset_password. apply spec_bind, on_storage_spec.
    eapply spec_mono; [apply (load_calm old_pwd _ sb sb); auto| |done|done]. intros ? s2 [-> _].
    assert (Hh : head_ok (head sb)).
    { specialize (Hi 0 (or_introl eq_refl)). unfold arm_val in Hi. res_inv_one Hi. by eapply parse_inv. }
    apply spec_bind, on_storage_spec. eapply spec_mono; [by apply save_sealed| |done|done].
    intros sb' s' [[[Hhd Hb] _] Hi']. apply spec_modify. exists sb'. split; [|done].
    split; [done|]. rewrite Hhd. split; [done|]. by rewrite <- (proj1 (proj2 (proj2 Hb))). }
  unfold spec in Hr. rewrite Hreset in Hr. destruct Hr as (sb' & Hsb & Hhd & Hb).
  pose proof Hb as (_ & Hb2 & Hb3 & _ & _ & _ & Hb7).
  eapply spec_mono; [apply (open_sealed new_pwd force sb'); [done|by apply (sealed_in_kept (vdepot v1))|by rewrite <- Hb2]| |done|done].
  intros p v3 (-> & -> & Hcr & Hk3). cbn [Info.cost Info.cipher]. rewrite Hhd in *. split_and!; congruence || done.
Qed.
End laws.
