(* ===== verification/SuperDemo.v ===== *)
(** * Super blocks in memory, on a depot whose puts fail by plan: witnesses, and what is lost
    when a put that returns an error has torn its arm. *)
From stdpp Require Import strings.
From S2P Require Import Prelude Run Base Address Crypto Armor Storage StorageProofs MemStorage StorageDemo SuperBlk SuperProofs Volume.
Import AssocMap SuperBlk.

(** ** The depot in memory keeps the contract *)

#[export] Program Instance mem_super_laws : SuperLaws MemStorage.Mem := {|
  dp_super m i := Depot.super_blk_map (here m) !! i; dp_torn _ := False;
  dp_calm m := is_Some (MemStorage.storages m !! MemStorage.loc m)
|}.
Next Obligation.
  intros i m. cbn. unfold MemStorage.get_super_block. apply spec_bind, spec_ask, spec_bind.
  destruct (MemStorage.storages m !! MemStorage.loc m) as [d|] eqn:Hd; cbn [ok_or].
  - assert (Hk : is_Some (Some d) → is_Some (MemStorage.storages m !! MemStorage.loc m)) by by rewrite Hd.
    apply spec_lift_ok. rewrite <- (here_get _ _ Hd). destruct (Depot.super_blk_map (here m) !! i) eqn:He.
    + by apply spec_lift_ok.
    + apply spec_fail. by split; [|left].
  - assert (Hk : is_Some (@None Depot.Depot) → is_Some (MemStorage.storages m !! MemStorage.loc m)) by by rewrite Hd.
    apply spec_fail. split; [done|right]. by intros [].
Qed.
Next Obligation.
  intros x i m. cbn. unfold MemStorage.put_super_block. apply spec_bind. unfold spec at 1, MemStorage.depot at 1, unwrap.
  destruct (MemStorage.storages m !! MemStorage.loc m) as [d|] eqn:Hd.
  - rewrite (here_get _ _ Hd). apply spec_modify. rewrite here_set. cbn. split; [|by rewrite lookup_insert_eq].
    intros j. destruct (decide (j = i)) as [->|]; [by rewrite lookup_insert_eq|by rewrite lookup_insert_ne].
  - split; [by intros []|]. exists (Depot.super_blk_map (here m) !! i). split; [by left|]. split; [|by intros []].
    intros j. by case_decide; subst.
Qed.
#[export] Instance mem_connect_laws : ConnectLaws MemStorage.Mem.
Proof. intros f m. by apply spec_ret. Qed.

(** ** A depot whose puts of super blocks fail by plan *)

(** What a put that does not return leaves of its arm, and how it ends. A torn text is shorter than a
    head and what encryption adds. *)
Inductive Left : Set := Kept | Made | Torn (y : option bytes).
Inductive Fate : Set := Fine | Bad (l : Left) | Halt (l : Left).
Record Flaky := mkFlaky { mem : MemStorage.Mem; fates : list Fate }.

Definition on_mem {A} (m : run MemStorage.Mem A) : run Flaky A := zoom mem (λ d f, mkFlaky d (fates f)) m.
Definition set_arm (o : option bytes) (i : Z) (m : MemStorage.Mem) : MemStorage.Mem :=
  MemStorage.mkMem (<[MemStorage.loc m := Depot.set_supers (partial_alter (λ _, o) i (Depot.super_blk_map (here m))) (here m)]>
    (MemStorage.storages m)) (MemStorage.is_attached m) (MemStorage.loc m).
Definition too_short (y : bytes) : bool := zlen y <? Head.BYTES_LEN + 40.
Definition leave (l : Left) (x : bytes) (i : Z) (m : MemStorage.Mem) : MemStorage.Mem :=
  match l with
  | Kept => m
  | Made => set_arm (Some x) i m
  | Torn None => set_arm None i m
  | Torn (Some y) => if too_short y then set_arm (Some y) i m else m
  end.
Definition flaky_put (x : bytes) (i : Z) : run Flaky unit := λ f,
  let rest := tail (fates f) in
  match hd Fine (fates f) with
  | Fine => (Some (Ok ()), mkFlaky (set_arm (Some x) i (mem f)) rest)
  | Bad l => (Some (Err Io), mkFlaky (leave l x i (mem f)) rest)
  | Halt l => (None, mkFlaky (leave l x i (mem f)) rest)
  end.

#[export] Instance flaky_storable : Storable Flaky := {|
  dp_exists := on_mem dp_exists; dp_connect f := on_mem (dp_connect f); dp_init c k := on_mem (dp_init c k);
  dp_open c k f := on_mem (dp_open c k f); dp_destroy := on_mem dp_destroy;
  dp_get_super_block i := on_mem (dp_get_super_block i); dp_put_super_block := flaky_put;
  dp_get_wal i := on_mem (dp_get_wal i); dp_put_wal i x := on_mem (dp_put_wal i x); dp_del_wal i := on_mem (dp_del_wal i);
  dp_get_address i := on_mem (dp_get_address i); dp_put_address i x := on_mem (dp_put_address i x);
  dp_del_address i := on_mem (dp_del_address i); dp_get_blocks s := on_mem (dp_get_blocks s);
  dp_put_blocks s x := on_mem (dp_put_blocks s x); dp_del_blocks s := on_mem (dp_del_blocks s); dp_flush := on_mem dp_flush
|}.

Definition flaky_calm (f : Flaky) : Prop := dp_calm (mem f) ∧ Forall (eq Fine) (fates f).
Lemma set_arm_here o i m j : Depot.super_blk_map (here (set_arm o i m)) !! j =
  if decide (j = i) then o else Depot.super_blk_map (here m) !! j.
Proof.
  unfold set_arm. rewrite here_set. cbn. case_decide as Hj; [subst; by rewrite lookup_partial_alter_eq|by rewrite lookup_partial_alter_ne].
Qed.
Lemma set_arm_calm o i m : dp_calm (set_arm o i m).
Proof. cbn. by rewrite lookup_insert_eq. Qed.
Lemma fates_rest (l : list Fate) : Forall (eq Fine) l → hd Fine l = Fine ∧ Forall (eq Fine) (tail l).
Proof. by intros []. Qed.

(** What is left of an arm. *)
Lemma leave_arm l x i m : ∃ o,
  (o = Depot.super_blk_map (here m) !! i ∨ o = Some x ∨ o = None ∨ ∃ y, o = Some y ∧ too_short y = true) ∧
  (∀ j, Depot.super_blk_map (here (leave l x i m)) !! j = if decide (j = i) then o else Depot.super_blk_map (here m) !! j).
Proof.
  assert (Hkept : ∃ o, (o = Depot.super_blk_map (here m) !! i ∨ o = Some x ∨ o = None ∨ ∃ y, o = Some y ∧ too_short y = true) ∧
    (∀ j, Depot.super_blk_map (here m) !! j = if decide (j = i) then o else Depot.super_blk_map (here m) !! j)).
  { exists (Depot.super_blk_map (here m) !! i). split; [by left|]. intros j. by case_decide; subst. }
  destruct l as [| |[y|]]; cbn [leave]; [done| | |].
  - exists (Some x). split; [by right; left|apply set_arm_here].
  - destruct (too_short y) eqn:Hy; [|done]. exists (Some y). split; [right; right; eauto|apply set_arm_here].
  - exists None. split; [by right; right; left|apply set_arm_here].
Qed.

#[export] Program Instance flaky_super_laws : SuperLaws Flaky := {|
  dp_super f := dp_super (mem f); dp_torn y := too_short y = true; dp_calm := flaky_calm
|}.
Next Obligation.
  intros i f. apply spec_zoom. eapply spec_mono; [apply (get_super_law i (mem f))| | |]; cbn [mem]; unfold flaky_calm; cbn [mem fates].
  - intros x d' [? [? ?]]. split; [done|]. split; [done|]. intros [? ?]. auto.
  - intros e d' [[? ?] Hn]. split; [split; [done|]; intros [? ?]; auto|]. destruct Hn; [by left|right; by intros [? _]].
  - intros d' [[? ?] Hn]. split; [split; [done|]; intros [? ?]; auto|]. by intros [? _].
Qed.
Next Obligation.
  intros x i f. unfold spec. cbn. unfold flaky_put. destruct (hd Fine (fates f)) as [|l|l] eqn:Hf.
  - split; [apply set_arm_here|]. intros [_ Hc]. split; [apply set_arm_calm|by apply fates_rest].
  - assert (¬ flaky_calm f) by (intros [_ [? _]%fates_rest]; congruence).
    split; [done|]. destruct (leave_arm l x i (mem f)) as (o & Ho & Ha). exists o. split; [exact Ho|by split].
  - assert (¬ flaky_calm f) by (intros [_ [? _]%fates_rest]; congruence).
    split; [done|]. destruct (leave_arm l x i (mem f)) as (o & Ho & Ha). exists o. split; [exact Ho|by split].
Qed.
#[export] Instance flaky_connect_laws : ConnectLaws Flaky.
Proof. intros b f. apply spec_zoom, spec_ret. by split. Qed.

(** ** A body as one number *)

Definition body_code (b : Body.Body) :=
  ((Body.seq b, Body.volume_id b, (Version.major (Body.ver b), Version.minor (Body.ver b), Version.patch (Body.ver b)), Body.key b),
   (Body.uri b, Body.compress b, Body.ctime b, Body.mtime b, Body.payload b)).
Definition body_of (c : (Z * Z * (Z * Z * Z) * bytes) * (bytes * bool * Z * Z * bytes)) : Body.Body :=
  match c with
  | ((s, v, (a, b, p), k), (u, c, t, m, pl)) => Body.mkBody s v (Version.mkVersion a b p) k u c t m pl
  end.
#[export] Instance toy_body : BodySerde := {|
  body_ser b := Some [Zpos (countable.encode (body_code b))];
  body_de l := match l with [Zpos p] => body_of <$> countable.decode p | _ => None end
|}.
#[export] Instance toy_body_laws : BodySerdeLaws.
Proof. intros [? ? [] ? ? ? ? ? ?] x [= <-]. cbn [body_de toy_body]. by rewrite countable.decode_encode. Qed.
#[export] Instance toy_clock : Clock unit := λ r, (9, r).

(** A new volume on a depot, with a plan. *)
Abbreviation toy_vol := (Volume.Volume (Storage.St Flaky unit (amap Z bytes) (amap Eid Addr.Addr))).
Definition on_flaky (i : Info.Info) (m : MemStorage.Mem) (l : list Fate) : toy_vol :=
  Volume.mkVolume i (Storage.mkSt (mkFlaky m l) () Storage.new).
Definition toy_volume : toy_vol :=
  on_flaky (Info.set_uri [5] Info.default) (MemStorage.mkMem ∅ false "here") [].
Definition toy_cfg : Config := mkConfig Cost.default Cipher.Xchacha true.
(** A new session: the handle is dropped, nothing is cached. *)
Definition restart (l : list Fate) (v : toy_vol) : toy_vol :=
  on_flaky (Volume.info v) (MemStorage.drop (mem (vdepot v))).2 l.
Definition toy_made : toy_vol := (Volume.init [1] toy_cfg [42] toy_volume).2.

(** ** Witnesses *)

(** A text too short for what encryption adds is never read. *)
Lemma torn_rejected (pwd y : bytes) a : dp_torn (D:=Flaky) y → parse pwd y ≠ Ok a.
Proof.
  cbn. unfold too_short, parse. intros Hy%Z.ltb_lt Hp. res_inv_one Hp. res_inv_one Hp. res_inv_one Hp. res_inv_one Hp.
  unfold Crypto.decrypt_with_ad in Ha2. res_inv_one Ha2. unfold Crypto.decrypted_len in Ha3. res_inv_one Ha3.
  apply u_sub_inv in Ha3 as [_ Hle]. pose proof (Crypto.nonce_size_range a1) as Hr.
  pose proof (zlen_nonneg y). assert (HB : Head.BYTES_LEN = 18) by done. assert (HT : ATAG_SIZE = 16) by done.
  rewrite HB in *. rewrite zlen_zdrop in Hle by lia. lia.
Qed.
Lemma toy_fits b : fits b.
Proof. eexists. split; [done|]. done. Qed.

(** The tag of the toy cipher tells the key, which tells the first byte of the password. *)
Lemma toy_other p q l l' x a : p ≠ q → parse (p :: l) x = Ok a → rejects (q :: l') x.
Proof.
  intros Hne Hp. unfold rejects, parse in *. res_inv_one Hp. rewrite Ha, bind_ok. res_inv_one Hp. rewrite Ha0, bind_ok.
  unfold Crypto.hash_pwd in *. cbn [pwhash toy_sodium ok_or] in *. rewrite bind_ok in *. res_inv_one Hp. clear Hp.
  unfold Crypto.decrypt_with_ad, Crypto.decrypt_raw in *. res_inv_one Ha1. rewrite Ha2, bind_ok. res_inv_one Ha1. rewrite Ha3, bind_ok.
  assert (Hk : ∀ c n ad (y m : bytes), aead_decrypt c ((p :: l) ++ Head.salt a0) n ad y = Some m →
    aead_decrypt c ((q :: l') ++ Head.salt a0) n ad y = None).
  { intros c n ad y m Hd. cbn [aead_decrypt toy_sodium] in *. case_bool_decide as H1; [|done]. rewrite bool_decide_eq_false_2; [done|].
    rewrite H1. intros Ht%tag_inj. by injection Ht. }
  destruct (Crypto.cipher a1) eqn:Hci.
  - rewrite bind_ok in *. destruct (aead_decrypt Cipher.Xchacha _ _ _ _) eqn:Hd in Ha1; [|done]. apply Hk in Hd. rewrite Hd. by eexists.
  - unfold Crypto.extend_nonce in *. rewrite Hci in *. rewrite rassert_ok in * by by apply bool_decide_eq_true.
    rewrite !bind_ok in *. cbn [hchacha20 toy_sodium] in *.
    destruct (aead_decrypt Cipher.Aes _ _ _ _) eqn:Hd in Ha1; [|done]. apply Hk in Hd. rewrite Hd. by eexists.
Qed.

(** The super block of the new volume, the same with a higher cost, and a save of it under another
    password that stops in its second put, which it leaves torn. *)
Definition toy_super (c : Cost.Cost) : SuperBlk :=
  mkSuper (Head.mkHead (replicate 16 0) c Cipher.Xchacha)
    (Body.mkBody 1 0 Version.repo_version (replicate 32 0) [5] true 9 9 [42]).
Definition higher : Cost.Cost := Cost.mkCost OpsLimit.Moderate MemLimit.Interactive.
Definition toy_before := Volume.storage (restart [Fine; Halt (Torn (Some [3]))] toy_made).
Definition toy_after := Volume.storage (on_flaky Info.default (mem (Storage.depot (save (toy_super higher) [2] toy_before).2)) []).

Lemma interrupted_save_repaired_witness :
  (save (toy_super higher) [2] toy_before).1 = None ∧
  (¬ gone (D:=Flaky) (dp_super (Storage.depot toy_after) 0)) ∧ gone (D:=Flaky) (dp_super (Storage.depot toy_after) 1) ∧
  ((∃ p base, (p = [1] ∧ base = toy_super Cost.default ∨ p = [2] ∧ base = toy_super higher) ∧
    ∃ r, ((_ ← repair p; load p) toy_after).1 = Some (Ok r) ∧ alike base r) ∨
  ((∃ x, first_put_failed x toy_before) ∧ gone (D:=Flaky) (dp_super (Storage.depot toy_after) 0) ∧ gone (D:=Flaky) (dp_super (Storage.depot toy_after) 1)) ∨
  torn_panics (D:=Flaky) (Storage.depot toy_after) [1] [2]).
Proof.
  split; [vm_compute; reflexivity|].
  assert (Hlong : match dp_super (Storage.depot toy_after) 0 with Some y => too_short y | None => true end = false) by (vm_compute; reflexivity).
  split.
  { assert (Hg : ∀ o, match o with Some y => too_short y | None => true end = false → ¬ gone (D:=Flaky) o).
    { intros o Ho [->|(y & -> & Hy)]; [discriminate Ho|]. cbn in Hy. rewrite Hy in Ho. discriminate Ho. }
    apply Hg. exact Hlong. }
  split; [right; exists [3]; split; vm_compute; reflexivity|].
  apply (interrupted_save_repaired (toy_super Cost.default) (toy_super higher) [1] [2] toy_before toy_after).
  - intros i [-> | ->]; vm_compute; reflexivity.
  - split; [reflexivity|]. split; [reflexivity|]. split; [reflexivity|]. split; [reflexivity|]. split; [reflexivity|].
    intros b _. apply toy_fits.
  - split; [vm_compute; eauto|done].
  - intros i. reflexivity.
  - intros y p a. apply torn_rejected.
  - intros _ x a. split; by apply toy_other.
  - exact toy_never_fails.
Defined.

Lemma init_then_open_witness :
  match Volume.open [1] false (restart [] toy_made) with
  | (Some (Ok p), v) => p = [42] ∧ Storage.key (vsto v) = Storage.key (vsto toy_made)
  | _ => False
  end.
Proof.
  assert (Hinit : Volume.init [1] toy_cfg [42] (toy_volume) = (Some (Ok ()), toy_made)) by (vm_compute; reflexivity).
  pose proof (init_then_open [1] toy_cfg [42] false toy_volume toy_made (restart [] toy_made) Hinit) as Ho.
  assert (Hc : dp_calm (vdepot (restart [] toy_made))) by (split; [vm_compute; eauto|done]).
  specialize (Ho Hc ltac:(intros i; vm_compute; reflexivity) ltac:(vm_compute; reflexivity)).
  unfold spec in Ho.
  assert (Hok : (Volume.open [1] false (restart [] toy_made)).1 = Some (Ok [42])) by (vm_compute; reflexivity).
  destruct (Volume.open _ _ _) as [[[p|e|]|] v]; try discriminate Hok.
  destruct Ho as (-> & _ & _ & Hk). by split.
Defined.

Lemma reset_then_open_witness :
  match Volume.open [2] false (restart [] (Volume.reset_password [1] [2] higher (restart [] toy_made)).2) with
  | (Some (Ok p), v) => p = [42] ∧ Info.cost (Volume.info v) = higher
  | _ => False
  end.
Proof.
  set (v1 := Volume.reset_password [1] [2] higher (restart [] toy_made)).
  assert (Hr : v1 = (Some (Ok ()), v1.2)) by (vm_compute; reflexivity).
  assert (Hs : sealed_in (vdepot (restart [] toy_made)) [1] (toy_super Cost.default)).
  { split; [by intros i [-> | ->]; vm_compute|]. split; vm_compute; eauto. }
  assert (Hc : dp_calm (vdepot (restart [] toy_made))) by (split; [vm_compute; eauto|constructor]).
  assert (Hc' : dp_calm (vdepot (restart [] v1.2))) by (split; [vm_compute; eauto|constructor]).
  assert (Hi : ∀ i, dp_super (vdepot (restart [] v1.2)) i = dp_super (vdepot v1.2) i)
    by (intros i; vm_compute; reflexivity).
  assert (Hn : ∃ c, Crypto.new higher Cipher.Xchacha = Ok c) by (vm_compute; eauto).
  pose proof (reset_then_open [1] [2] higher false _ _ v1.2 (restart [] v1.2) Hc Hs eq_refl Hn Hr Hc' Hi) as Ho.
  unfold spec in Ho.
  assert (Hok : (Volume.open [2] false (restart [] v1.2)).1 = Some (Ok [42])) by (vm_compute; reflexivity).
  destruct (Volume.open _ _ _) as [[[p|e|]|] v]; try discriminate Hok.
  destruct Ho as (-> & Hcost & _). by split.
Defined.

(** A run: that both puts are made whatever becomes of the first costs both arms, where a put that
    returns an error may leave its arm torn: after such a save the volume opens with neither
    password, and no repair helps. *)
Lemma failed_save_loses_both :
  let v := Volume.reset_password [1] [2] higher (restart [Bad (Torn None); Bad (Torn None)] toy_made) in
  v.1 = Some (Err Io) ∧
  ∀ p, (Volume.open p true (restart [] v.2)).1 = Some (Err NotFound) ∧
       (Volume.repair_super_block p (restart [] v.2)).1 = Some (Err NotFound).
Proof. split; [vm_compute; reflexivity|]. intros p. split; vm_compute; reflexivity. Qed.
