(* ===== verification/Wal.v ===== *)
(** * src/trans/wal.rs: the write-ahead logs and their queue.

    A transaction logs the entities it touches; the queue records which transactions are under
    way and which are done. Both are saved by the armor. *)
From S2P Require Import Prelude Run Base Segment Armor.
Import Arm.

Abbreviation Txid := Z.

(** [Txid::derive_id] hashes the id with a key; the hash is foreign. *)
Class TxidHash := { derive_id : Txid → Eid }.

(** The iteration order of the standard library's hash tables. *)
Class HashOrder := {
  set_iter : gset Txid → list Txid;
  map_iter {A} : gmap Txid A → list (Txid * A)
}.
Class HashOrderLaws `{!HashOrder} := {
  set_iter_elem X t : t ∈ set_iter X ↔ t ∈ X;
  map_iter_elem {A} (m : gmap Txid A) t a : (t, a) ∈ map_iter m ↔ m !! t = Some a
}.

Module EntityType.
Inductive EntityType : Set := Cow | Direct.
#[global] Instance EntityType_eq_dec : EqDecision EntityType.
Proof. solve_decision. Defined.
End EntityType.
Export (hints) EntityType.

(** ** The log of a transaction *)

Module Wal.
Record Entry := mkEntry { eid : Eid; action : Action; ent_type : EntityType.EntityType; earm : Arm }.

Section wal.
Context {M : Type} `{!LinkedMapOps Eid Entry M}.

Record Wal := mkWal { id : Eid; seq : Z; arm : Arm; txid : Txid; entries : M }.

#[export] Instance wal_arm_access : ArmAccess Wal := {|
  item_id := id; item_seq := seq; item_arm := arm;
  set_item s a w := mkWal (id w) s a (txid w) (entries w)
|}.

Definition new `{!TxidHash} (t : Txid) : Wal := mkWal (derive_id t) 0 Arm.default t lm_new.

Definition add_entry (w : Wal) (i : Eid) (a : Action) (ty : EntityType.EntityType) (ar : Arm) : Wal :=
  mkWal (id w) (seq w) (arm w) (txid w) (lm_insert i (mkEntry i a ty ar) (entries w)).2.
Definition remove_entry (w : Wal) (i : Eid) : Wal :=
  mkWal (id w) (seq w) (arm w) (txid w) (lm_remove i (entries w)).2.

Definition values (w : Wal) : list Entry := (lm_entries (entries w)).*2.

Context `{!ArmHash} {V : Type} {X : Kind → Type} `{!Volume V X}.

Definition recycle_entry (e : Entry) : run V unit :=
  match action e with
  | New | Update => mret ()
  | Delete =>
      match ent_type e with
      | EntityType.Cow => Armor.remove_all_arms Logs (eid e)
      | EntityType.Direct => vol_del Ents (eid e)
      end
  end.
Definition recycle (w : Wal) : run V unit := for_each recycle_entry (values w).

Definition clean_entry (e : Entry) : run V unit :=
  match action e with
  | New =>
      match ent_type e with
      | EntityType.Cow => remove_all (eid e)
      | EntityType.Direct => vol_del Ents (eid e)
      end
  | Update =>
      match ent_type e with
      | EntityType.Cow => remove_arm (earm e) (eid e)
      | EntityType.Direct => vol_del Ents (eid e)
      end
  | Delete => mret ()
  end.
Definition clean_aborted (w : Wal) : run V unit := for_each clean_entry (values w).
End wal.
Arguments Wal : clear implicits.
End Wal.
Export (hints) Wal.

(** ** The queue of transactions *)

Module WalQueue.
Section queue.
Context {M : Type}.

Record WalQueue := mkWalQueue {
  id : Eid; seq : Z; arm : Arm;
  txid_wmark : Z; blk_wmark : Z;
  done : list Txid; doing : gset Txid;
  aborting : gmap Txid (Wal.Wal M)    (* not serialised *)
}.

#[export] Instance walq_arm_access : ArmAccess WalQueue := {|
  item_id := id; item_seq := seq; item_arm := arm;
  set_item s a q := mkWalQueue (id q) s a (txid_wmark q) (blk_wmark q) (done q) (doing q) (aborting q)
|}.

Definition COMMITTED_QUEUE_SIZE : Z := 2.

Definition new (i : Eid) : WalQueue := mkWalQueue i 0 Arm.default 0 0 [] ∅ ∅.
Definition watermarks (q : WalQueue) : Z * Z := (txid_wmark q, blk_wmark q).
Definition set_watermarks (t b : Z) (q : WalQueue) : WalQueue :=
  mkWalQueue (id q) (seq q) (arm q) t b (done q) (doing q) (aborting q).
Definition has_doing (q : WalQueue) : bool := negb (bool_decide (doing q = ∅)).
Definition has_abort (q : WalQueue) : bool := negb (bool_decide (aborting q = ∅)).

Definition set_queues (d : list Txid) (g : gset Txid) (a : gmap Txid (Wal.Wal M)) (q : WalQueue) :=
  mkWalQueue (id q) (seq q) (arm q) (txid_wmark q) (blk_wmark q) d g a.

Definition begin_trans (t : Txid) (q : WalQueue) : res WalQueue :=
  _ ← rassert (negb (bool_decide (t ∈ doing q)));
  Ok (set_queues (done q) ({[t]} ∪ doing q) (aborting q) q).
Definition pop_front (q : WalQueue) : WalQueue := set_queues (tail (done q)) (doing q) (aborting q) q.
Definition enqueue (t : Txid) (q : WalQueue) : WalQueue :=
  set_queues (done q ++ [t]) (doing q ∖ {[t]}) (aborting q) q.
Definition begin_abort (w : Wal.Wal M) (q : WalQueue) : WalQueue :=
  set_queues (done q) (doing q) (<[Wal.txid w := w]> (aborting q)) q.
Definition end_abort (t : Txid) (q : WalQueue) : WalQueue :=
  set_queues (done q) (doing q ∖ {[t]}) (delete t (aborting q)) q.
Definition end_aborts (ts : list Txid) (q : WalQueue) : WalQueue := foldl (flip end_abort) q ts.
End queue.
Arguments WalQueue : clear implicits.
End WalQueue.
Export (hints) WalQueue.

(** ** The manager of the queue *)

Module WalQueueMgr.
Record WalQueueMgr (M : Type) := mkMgr {
  txid_wmark : Txid;
  walq : WalQueue.WalQueue M;
  walq_backup : option (WalQueue.WalQueue M)
}.
Arguments mkMgr {M}. Arguments txid_wmark {M}. Arguments walq {M}. Arguments walq_backup {M}.

(** The manager with the volume it works on. *)
Record St (V M : Type) := mkSt { mgr : WalQueueMgr M; vol : V }.
Arguments mkSt {V M}. Arguments mgr {V M}. Arguments vol {V M}.

Section mgr.
Context `{!ArmHash, !TxidHash, !HashOrder} {V M : Type} {X : Kind → Type}.
Context `{!Volume V X, !LinkedMapOps Eid Wal.Entry M}.
Context `{!Serde (X Logs) (Wal.Wal M), !Serde (X Logs) (WalQueue.WalQueue M)}.
Abbreviation act := (run (St V M)).

Definition new (walq_id : Eid) : WalQueueMgr M := mkMgr 0 (WalQueue.new walq_id) None.

Definition on_vol {A} (m : run V A) : act A := zoom vol (λ v s, mkSt (mgr s) v) m.
Definition the_walq : act (WalQueue.WalQueue M) := ask (λ s, walq (mgr s)).
Definition set_walq (q : WalQueue.WalQueue M) : act unit :=
  modify (λ s, mkSt (mkMgr (txid_wmark (mgr s)) q (walq_backup (mgr s))) (vol s)).
Definition upd_walq (f : WalQueue.WalQueue M → WalQueue.WalQueue M) : act unit :=
  q ← the_walq; set_walq (f q).

Definition backup_walq : act unit :=
  modify (λ s, mkSt (mkMgr (txid_wmark (mgr s)) (walq (mgr s)) (Some (walq (mgr s)))) (vol s)).
Definition restore_walq : act unit :=
  b ← ask (λ s, walq_backup (mgr s)); q ← lift (unwrap b);
  modify (λ s, mkSt (mkMgr (txid_wmark (mgr s)) q None) (vol s)).

Definition save_walq : act unit :=
  blk ← on_vol vol_block_wmark;
  t ← ask (λ s, txid_wmark (mgr s));
  _ ← upd_walq (WalQueue.set_watermarks t blk);
  _ ← on_vol vol_flush;
  q ← the_walq;
  '(q, r) ← on_vol (Armor.save_item Logs q);
  _ ← set_walq q;
  lift r.

Definition or_restore (m : act unit) : act unit := or_else m (λ e, _ ← restore_walq; fail e).

Definition next_txid : act Txid :=
  t ← ask (λ s, txid_wmark (mgr s)); t ← lift (unwrap (if t + 1 <? U64 then Some (t + 1) else None));
  _ ← modify (λ s, mkSt (mkMgr t (walq (mgr s)) (walq_backup (mgr s))) (vol s)); mret t.

Definition begin_trans (t : Txid) : act unit :=
  _ ← backup_walq;
  q ← the_walq; q ← lift (WalQueue.begin_trans t q); _ ← set_walq q;
  or_restore save_walq.

Definition recycle_trans : act unit :=
  q ← the_walq;
  t ← lift (unwrap (head (WalQueue.done q)));
  r ← attempt (on_vol (Armor.load_item (I:=Wal.Wal M) Logs (derive_id t)));
  match r with
  | Ok w => _ ← on_vol (Wal.recycle w); on_vol (Armor.remove_all_arms Logs (derive_id t))
  | Err NotFound => mret ()
  | Err e => fail e
  | Panic => lift Panic
  end.

(** The loop of [WalQueue::commit_trans]: each round shortens the queue. *)
Fixpoint recycle_loop (fuel : nat) : act unit :=
  q ← the_walq;
  if WalQueue.COMMITTED_QUEUE_SIZE <=? zlen (WalQueue.done q) then
    match fuel with
    | O => lift Panic
    | S fuel => _ ← recycle_trans; _ ← upd_walq WalQueue.pop_front; recycle_loop fuel
    end
  else mret ().

Definition walq_commit_trans (w : Wal.Wal M) : act unit :=
  q ← the_walq;
  _ ← recycle_loop (length (WalQueue.done q));
  upd_walq (WalQueue.enqueue (Wal.txid w)).

Definition commit_trans (w : Wal.Wal M) : act unit :=
  _ ← backup_walq;
  or_restore (_ ← walq_commit_trans w; save_walq).

Definition begin_abort (w : Wal.Wal M) : act unit := upd_walq (WalQueue.begin_abort w).

Definition end_abort (t : Txid) : act unit :=
  _ ← backup_walq;
  _ ← upd_walq (WalQueue.end_abort t);
  or_restore save_walq.

Definition walq_hot_redo_abort : act unit :=
  q ← the_walq;
  let aborting := map_iter (WalQueue.aborting q) in
  _ ← for_each (λ tw, on_vol (Wal.clean_aborted tw.2)) aborting;
  upd_walq (WalQueue.end_aborts ((λ tw, Wal.txid tw.2) <$> aborting)).

Definition hot_redo_abort : act unit :=
  q ← the_walq;
  if negb (WalQueue.has_abort q) then mret ()
  else
    _ ← backup_walq;
    or_restore (_ ← walq_hot_redo_abort; save_walq).

Definition redo_one (t : Txid) : act unit :=
  r ← attempt (on_vol (Armor.load_item (I:=Wal.Wal M) Logs (derive_id t)));
  match r with
  | Ok w => on_vol (Wal.clean_aborted w)
  | Err NotFound => mret ()
  | Err e => fail e
  | Panic => lift Panic
  end.

Definition cold_redo_abort : act unit :=
  q ← the_walq;
  let doing := set_iter (WalQueue.doing q) in
  _ ← for_each redo_one doing;
  upd_walq (WalQueue.end_aborts doing).

Definition open (walq_id : Eid) : act unit :=
  q ← on_vol (Armor.load_item (I:=WalQueue.WalQueue M) Logs walq_id);
  _ ← set_walq q;
  let '(t, blk) := WalQueue.watermarks q in
  _ ← modify (λ s, mkSt (mkMgr t (walq (mgr s)) (walq_backup (mgr s))) (vol s));
  _ ← on_vol (vol_set_block_wmark blk);
  if WalQueue.has_doing q then
    _ ← backup_walq;
    or_restore (_ ← cold_redo_abort; save_walq)
  else mret ().
End mgr.
End WalQueueMgr.
