(* ===== verification/WalProofs.v ===== *)
(** * What the logs and their queue guarantee.

    Recovery deletes what the logs of unfinished transactions name, and nothing that is
    committed. The committed part of the entity store is a map [C]; the keys in [D] may hold
    what an unfinished transaction wrote. *)
From S2P Require Import Prelude Run Base Segment Armor Wal.
Import Arm.

(** Logs and the queue have ids of their own. *)
Class TxidHashLaws `{ArmHashLaws, !TxidHash} := {
  derive_named t : named (derive_id t);
  derive_inj t t' : derive_id t = derive_id t' → t = t'
}.

Section wal.
Context `{!ArmHash, !ArmHashLaws, !TxidHash, !TxidHashLaws}.
Context {V M : Type} {X : Kind → Type} `{!Volume V X, !VolumeLaws V X}.
Context `{!LinkedMapOps Eid Wal.Entry M}.
Implicit Types (v : V) (e : Wal.Entry) (w : Wal.Wal M) (key : Eid).

(** *** Cleaning and recycling a log *)

(** The entity keys that cleaning an entry deletes. *)
Definition clean_key e key : Prop :=
  match Wal.action e, Wal.ent_type e with
  | New, EntityType.Cow => ∃ a, key = to_eid a (Wal.eid e)
  | Update, EntityType.Cow => key = to_eid (Wal.earm e) (Wal.eid e)
  | (New | Update), EntityType.Direct => key = Wal.eid e
  | Delete, _ => False
  end.
Definition cleans w key : Prop := ∃ e, e ∈ Wal.values w ∧ clean_key e key.
Definition ents_of (P : Eid → Prop) (k : Kind) key : Prop := k = Ents ∧ P key.

Lemma pruned_one (K : Kind → Eid → Prop) k id v v' :
  pruned (λ k' key, k' = k ∧ key = id) v v' → K k id → pruned K v v'.
Proof. intros Hp HK. eapply pruned_mono; [exact Hp|]. by intros k' key [-> ->]. Qed.

Lemma clean_entry_spec e v :
  spec (Wal.clean_entry e) v
    (λ _ v', pruned (ents_of (clean_key e)) v v' ∧
       ∀ key, clean_key e key → contents v' Ents !! key = None)
    (λ _ v', pruned (ents_of (clean_key e)) v v' ∧ ¬ steady v)
    (λ v', pruned (ents_of (clean_key e)) v v' ∧ ¬ steady v).
Proof.
  assert (Hdel : ∀ id, clean_key e id → (∀ key, clean_key e key → key = id) →
    spec (vol_del Ents id) v
      (λ _ v', pruned (ents_of (clean_key e)) v v' ∧
         ∀ key, clean_key e key → contents v' Ents !! key = None)
      (λ _ v', pruned (ents_of (clean_key e)) v v' ∧ ¬ steady v)
      (λ v', pruned (ents_of (clean_key e)) v v' ∧ ¬ steady v)).
  { intros id Hid Huniq. eapply spec_mono; [apply del_spec| | |].
    - intros [] v' [Hp Hn]. split; [by eapply pruned_one|]. by intros key ->%Huniq.
    - intros _ v' [Hs Hst]. by apply (pruned_same (ents_of (clean_key e))) in Hs.
    - intros v' [Hp Hst]. split; [by eapply pruned_one|done]. }
  unfold Wal.clean_entry, clean_key in *.
  destruct (Wal.action e), (Wal.ent_type e); try (by apply Hdel).
  - assert (HK : ∀ v', pruned (arms_of Ents (Wal.eid e)) v v' →
      pruned (ents_of (λ key, ∃ a, key = to_eid a (Wal.eid e))) v v').
    { intros v' Hp. eapply pruned_mono; [exact Hp|]. by intros k key [-> Ha]. }
    eapply spec_mono; [apply (remove_both_spec Ents)| | |].
    + intros [] v' [Hp Hab]. split; [by apply HK|]. intros key [a ->]. apply Hab.
    + intros _ v' [Hp Hst]. by auto.
    + intros v' [Hp Hst]. by auto.
  - apply spec_ret. split; [by apply pruned_same|done].
  - apply spec_ret. split; [by apply pruned_same|done].
Qed.

Lemma clean_aborted_spec w v :
  spec (Wal.clean_aborted w) v
    (λ _ v', pruned (ents_of (cleans w)) v v' ∧ ∀ key, cleans w key → contents v' Ents !! key = None)
    (λ _ v', pruned (ents_of (cleans w)) v v' ∧ ¬ steady v)
    (λ v', pruned (ents_of (cleans w)) v v' ∧ ¬ steady v).
Proof.
  eapply spec_mono.
  - apply (spec_for_each _ _ (λ es v', pruned (ents_of (cleans w)) v v' ∧
      ∀ e key, e ∈ es → clean_key e key → contents v' Ents !! key = None)
      (λ _ v', pruned (ents_of (cleans w)) v v' ∧ ¬ steady v)
      (λ v', pruned (ents_of (cleans w)) v v' ∧ ¬ steady v)).
    + split; [by apply pruned_same|]. by intros e key ?%elem_of_nil.
    + intros pre e rest v' Hes [Hp Hall].
      assert (He : ∀ v'', pruned (ents_of (clean_key e)) v' v'' → pruned (ents_of (cleans w)) v v'').
      { intros v'' Hp'. eapply pruned_trans; [exact Hp|]. eapply pruned_mono; [exact Hp'|].
        intros k key [-> Hk]. split; [done|]. exists e. split; [|done].
        rewrite Hes. apply elem_of_app. right. left. }
      assert (Hst : ¬ steady v' → ¬ steady v) by (intros Hn Hs; by apply Hn, Hp).
      eapply spec_mono; [apply clean_entry_spec| | |].
      * intros [] v'' [Hp' Hn]. split; [by apply He|].
        intros e' key [Hin| ->%list_elem_of_singleton]%elem_of_app Hk; [|by apply Hn].
        eapply pruned_None; [exact Hp'|]. by eapply Hall.
      * intros _ v'' [Hp' Hn]. by auto.
      * intros v'' [Hp' Hn]. by auto.
  - intros [] v' [Hp Hall]. split; [done|]. intros key (e & Hin & Hk). by eapply Hall.
  - done.
  - done.
Qed.

(** The keys that recycling a log deletes: the Direct entities it deleted; the arms of
    deleted Cow entities are looked for among the logs. *)
Definition recycles w (k : Kind) key : Prop :=
  ∃ e, e ∈ Wal.values w ∧ Wal.action e = Delete ∧
    match Wal.ent_type e with
    | EntityType.Cow => k = Logs ∧ ∃ a, key = to_eid a (Wal.eid e)
    | EntityType.Direct => k = Ents ∧ key = Wal.eid e
    end.

Lemma recycle_spec w v :
  spec (Wal.recycle w) v (λ _ v', pruned (recycles w) v v')
    (λ _ v', pruned (recycles w) v v' ∧ ¬ steady v) (λ v', pruned (recycles w) v v' ∧ ¬ steady v).
Proof.
  apply (spec_for_each _ _ (λ _ v', pruned (recycles w) v v')).
  - by apply pruned_same.
  - intros pre e rest v' Hes Hp.
    assert (He : e ∈ Wal.values w) by (rewrite Hes; apply elem_of_app; right; left).
    assert (Hst : ¬ steady v' → ¬ steady v) by (intros Hn Hs; by apply Hn, Hp).
    unfold Wal.recycle_entry. destruct (Wal.action e) eqn:Ha; [by apply spec_ret..|].
    destruct (Wal.ent_type e) eqn:Hty.
    + assert (HK : ∀ v'', pruned (arms_of Logs (Wal.eid e)) v' v'' → pruned (recycles w) v v'').
      { intros v'' Hp'. eapply pruned_trans; [exact Hp|]. eapply pruned_mono; [exact Hp'|].
        intros k key [-> Hk]. exists e. by rewrite Hty. }
      eapply spec_mono; [apply (remove_both_spec Logs)| | |].
      * intros [] v'' [Hp' _]. by apply HK.
      * intros _ v'' [Hp' Hn]. by auto.
      * intros v'' [Hp' Hn]. by auto.
    + assert (HK : recycles w Ents (Wal.eid e)) by (exists e; by rewrite Hty).
      eapply spec_mono; [apply del_spec| | |].
      * intros [] v'' [Hp' _]. eapply pruned_trans; [exact Hp|]. by eapply pruned_one.
      * intros _ v'' [Hs Hn]. split; [|by auto]. eapply pruned_trans; [exact Hp|]. by apply pruned_same.
      * intros v'' [Hp' Hn]. split; [|by auto]. eapply pruned_trans; [exact Hp|]. by eapply pruned_one.
Qed.
End wal.

(** ** The invariant of the stored logs *)

(** The queue without what is not serialised. *)
Definition frozen {M} (q : WalQueue.WalQueue M) : WalQueue.WalQueue M :=
  WalQueue.set_queues (WalQueue.done q) (WalQueue.doing q) ∅ q.

(** Logs are serialised in full, queues but for what is being aborted, and the queue has an
    id that no log has. *)
Class WalLaws `{ArmHashLaws, !TxidHash} (X : Kind → Type) (M : Type) (walq_id : Eid)
    `{!Serde (X Logs) (Wal.Wal M), !Serde (X Logs) (WalQueue.WalQueue M)} : Prop := {
  wal_form (w : Wal.Wal M) : stored_form (X:=X Logs) w = w;
  walq_form (q : WalQueue.WalQueue M) : stored_form (X:=X Logs) q = frozen q;
  walq_named : named walq_id;
  walq_apart t : derive_id t ≠ walq_id
}.

Section inv.
Context `{!ArmHash, !ArmHashLaws, !TxidHash, !TxidHashLaws, !HashOrder, !HashOrderLaws}.
Context {V M : Type} {X : Kind → Type} `{!Volume V X, !VolumeLaws V X}.
Context `{!LinkedMapOps Eid Wal.Entry M}.
Context `{!Serde (X Logs) (Wal.Wal M), !SerdeLaws (X Logs) (Wal.Wal M)}.
Context `{!Serde (X Logs) (WalQueue.WalQueue M), !SerdeLaws (X Logs) (WalQueue.WalQueue M)}.

Context (walq_id : Eid) `{!WalLaws X M walq_id}.
Implicit Types (v : V) (q : WalQueue.WalQueue M) (w : Wal.Wal M) (key : Eid) (t : Txid).
Implicit Types (C : gmap Eid (X Ents)) (D : Eid → Prop) (m : gmap Eid (X Logs)).

#[local] Instance wal_arm_laws : ArmAccessLaws (X Logs) (Wal.Wal M).
Proof. split; [intros i; by rewrite wal_form|done|by intros []|done]. Qed.
#[local] Instance walq_arm_laws : ArmAccessLaws (X Logs) (WalQueue.WalQueue M).
Proof. split; [intros i; by rewrite walq_form|done|by intros []|done]. Qed.

(** The log of [t] in an arm. *)
Definition log m t a w : Prop := arm_item Logs m (derive_id t) a = Some w.
Definition log_ok m t : Prop :=
  (∀ a, m !! to_eid a (derive_id t) = None ∨
     ∃ w, log m t a w ∧ Wal.arm w = a ∧ Wal.id w = derive_id t ∧ Wal.txid w = t) ∧
  ∀ l r, log m t Left l → log m t Right r → Wal.seq l ≠ Wal.seq r.

Lemma log_cases m t :
  log_ok m t → absent Logs m (derive_id t) ∨ ∃ w, stored Logs m (derive_id t) w ∧ Wal.txid w = t.
Proof.
  intros [Ha Hne].
  destruct (Ha Left) as [Hl|(l & Hl & Hla & Hli & Hlt)], (Ha Right) as [Hr|(r & Hr & Hra & Hri & Hrt)].
  - left. by intros [].
  - right. exists r. split; [|done]. unfold stored. simpl. rewrite Hra. simpl.
    split; [done|]. split; [done|]. by left.
  - right. exists l. split; [|done]. unfold stored. simpl. rewrite Hla. simpl.
    split; [done|]. split; [done|]. by left.
  - right. specialize (Hne l r Hl Hr).
    destruct (decide (Wal.seq r < Wal.seq l)) as [Hlt'|].
    + exists l. split; [|done]. unfold stored. simpl. rewrite Hla. simpl.
      split; [done|]. split; [done|]. right. by exists r.
    + exists r. split; [|done]. unfold stored. simpl. rewrite Hra. simpl.
      split; [done|]. split; [done|]. right. exists l. split; [done|]. simpl. lia.
Qed.

Lemma stored_log m t w : stored Logs m (derive_id t) w → log m t (Wal.arm w) w.
Proof. by intros (_ & ? & _). Qed.

(** Ids whose arms are in use among the logs. *)
Definition reserved (i : Eid) : Prop := i = walq_id ∨ ∃ t, i = derive_id t.

(** What recycling may delete. *)
Definition spare C (k : Kind) key : Prop :=
  match k with
  | Ents => C !! key = None
  | Logs => ∀ a i, reserved i → key ≠ to_eid a i
  end.

Definition covered m q key : Prop :=
  ∃ t w, t ∈ WalQueue.doing q ∧ stored Logs m (derive_id t) w ∧ cleans w key.

(** The logs for a queue of transactions: cleaning what is under way and recycling what is
    done spares the committed part, and all that may be dirty is named by a log. *)
Record logs_ok v q C D : Prop := {
  lo_logs t : log_ok (contents v Logs) t;
  lo_named t a w e : log (contents v Logs) t a w → e ∈ Wal.values w → named (Wal.eid e);
  lo_pos : 0 ≤ WalQueue.txid_wmark q;
  lo_wmark t : WalQueue.txid_wmark q < t → absent Logs (contents v Logs) (derive_id t);
  lo_kept : C ⊆ contents v Ents;
  lo_doing t a w key : t ∈ WalQueue.doing q → log (contents v Logs) t a w → cleans w key → C !! key = None;
  lo_done t a w k key : t ∈ WalQueue.done q → log (contents v Logs) t a w → recycles w k key → spare C k key;
  lo_apart t : t ∈ WalQueue.done q → t ∉ WalQueue.doing q;
  lo_known t : t ∈ WalQueue.done q ∨ t ∈ WalQueue.doing q → t ≤ WalQueue.txid_wmark q;
  lo_dirty key : D key → covered (contents v Logs) q key
}.
Definition inv v q C D : Prop :=
  stored Logs (contents v Logs) walq_id (frozen q) ∧ logs_ok v q C D.

Lemma walq_key a b t : to_eid a walq_id ≠ to_eid b (derive_id t).
Proof.
  intros Heq. destruct (to_eid_inj _ _ _ _ walq_named (derive_named t) Heq) as [_ Hi].
  by apply (walq_apart t).
Qed.
Lemma log_key a b t t' : to_eid a (derive_id t) = to_eid b (derive_id t') → a = b ∧ t = t'.
Proof.
  intros Heq. destruct (to_eid_inj _ _ _ _ (derive_named t) (derive_named t') Heq) as [-> Hi].
  split; [done|]. by apply derive_inj.
Qed.

Lemma logs_ok_same v v' q C D : logs_ok v q C D → same v v' → logs_ok v' q C D.
Proof. intros [] [Hc _]. split; intros *; rewrite ?Hc; eauto. Qed.
Lemma inv_same v v' q C D : inv v q C D → same v v' → inv v' q C D.
Proof.
  intros [Hq Hl] Hs. split; [|by eapply logs_ok_same]. by rewrite (proj1 Hs).
Qed.

(** Losing entries that nothing relies on. *)
Lemma log_pruned (K : Kind → Eid → Prop) v v' t a w :
  pruned K v v' → log (contents v' Logs) t a w → log (contents v Logs) t a w.
Proof.
  intros [Hp _]. unfold log, arm_item. destruct (Hp Logs (to_eid a (derive_id t))) as [->|[_ ->]]; done.
Qed.
Lemma log_ok_pruned (K : Kind → Eid → Prop) v v' t :
  pruned K v v' → log_ok (contents v Logs) t → log_ok (contents v' Logs) t.
Proof.
  intros Hp [Ha Hne]. split.
  - intros a. pose proof Hp as [Hp' _]. destruct (Hp' Logs (to_eid a (derive_id t))) as [Heq|[_ ?]]; [|by left].
    destruct (Ha a) as [Hn|(w & Hw & Hrest)]; [left; by rewrite Heq|right].
    exists w. split; [|done]. unfold log, arm_item. by rewrite Heq.
  - intros l r Hl Hr. apply Hne; by eapply log_pruned.
Qed.
Lemma stored_pruned {I : Type} `{!ArmAccess I, !Serde (X Logs) I} (K : Kind → Eid → Prop) v v' id (i : I) :
  pruned K v v' → (∀ a, ¬ K Logs (to_eid a id)) → stored Logs (contents v Logs) id i →
  stored Logs (contents v' Logs) id i.
Proof.
  intros Hp HK (Hid & Hin & Hold). unfold stored, older, arm_item in *.
  rewrite !(pruned_keep K v v' Logs) by eauto. by split_and!.
Qed.

Lemma logs_ok_pruned (K : Kind → Eid → Prop) v v' q C D :
  logs_ok v q C D → pruned K v v' → (∀ key, K Ents key → C !! key = None) →
  (∀ key, D key → ∃ t w, t ∈ WalQueue.doing q ∧ stored Logs (contents v Logs) (derive_id t) w ∧
     cleans w key ∧ ∀ a, ¬ K Logs (to_eid a (derive_id t))) →
  logs_ok v' q C D.
Proof.
  intros Hl Hp HK Hcov. split.
  - intros t. eapply log_ok_pruned; [exact Hp|]. apply Hl.
  - intros t a w e Hw. eapply (lo_named _ _ _ _ Hl). by eapply log_pruned.
  - apply Hl.
  - intros t Ht a. eapply pruned_None; [exact Hp|]. by eapply lo_wmark.
  - apply map_subseteq_spec. intros key x Hx. pose proof (lo_kept _ _ _ _ Hl) as Hk.
    rewrite map_subseteq_spec in Hk. rewrite (pruned_keep K v v' Ents) by
      (first [done | intros Hkey%HK; congruence]). by apply Hk.
  - intros t a w key Ht Hw. eapply (lo_doing _ _ _ _ Hl); [exact Ht|]. by eapply log_pruned.
  - intros t a w k key Ht Hw. eapply (lo_done _ _ _ _ Hl); [exact Ht|]. by eapply log_pruned.
  - apply Hl.
  - apply Hl.
  - intros key (t & w & Ht & Hw & Hc & HK')%Hcov. exists t, w. split; [done|]. split; [|done].
    by eapply stored_pruned.
Qed.

Lemma logs_ok_ext v q q' C D :
  WalQueue.doing q' = WalQueue.doing q → WalQueue.done q' = WalQueue.done q →
  WalQueue.txid_wmark q' = WalQueue.txid_wmark q → logs_ok v q C D → logs_ok v q' C D.
Proof.
  intros Hg Hd Hw []. unfold covered in *. split; unfold covered; rewrite ?Hg, ?Hd, ?Hw; eauto.
Qed.

(** Saving a queue touches no log. *)
Lemma logs_ok_walq v v' q C D a x :
  logs_ok v q C D → changed Logs (<[to_eid a walq_id := x]> (contents v Logs)) v v' →
  logs_ok v' q C D.
Proof.
  intros Hl (Hc & Hne & _).
  assert (Hlk : ∀ b t, contents v' Logs !! to_eid b (derive_id t) = contents v Logs !! to_eid b (derive_id t)).
  { intros b t. rewrite Hc. apply lookup_insert_ne, walq_key. }
  assert (Hlog : ∀ t b, arm_item (I:=Wal.Wal M) Logs (contents v' Logs) (derive_id t) b
    = arm_item Logs (contents v Logs) (derive_id t) b).
  { intros t b. unfold arm_item. by rewrite Hlk. }
  assert (Hsto : ∀ t w, stored Logs (contents v Logs) (derive_id t) w →
    stored Logs (contents v' Logs) (derive_id t) w).
  { intros t w. unfold stored, older. rewrite Hlog, Hlk. setoid_rewrite Hlog. done. }
  destruct Hl. unfold log in *. split; unfold log.
  - intros t. destruct (lo_logs0 t) as [Hl1 Hl2]. split; unfold log in *; intros *; rewrite ?Hlog, ?Hlk; eauto.
  - intros t b w e. rewrite Hlog. eauto.
  - done.
  - intros t Ht b. rewrite Hlk. by eapply lo_wmark0.
  - by rewrite Hne.
  - intros t b w key. rewrite Hlog. eauto.
  - intros t b w k key. rewrite Hlog. eauto.
  - done.
  - done.
  - intros key (t & w & Ht & Hw & Hk)%lo_dirty0. exists t, w. by auto.
Qed.

(** Entities and logs of transactions are untouched. *)
Definition saved_only v v' : Prop :=
  contents v' Ents = contents v Ents ∧
  (∀ a t, contents v' Logs !! to_eid a (derive_id t) = contents v Logs !! to_eid a (derive_id t)) ∧
  (steady v → steady v').

(** *** The manager *)

Abbreviation St := (WalQueueMgr.St V M).
Implicit Types (s : St).

Lemma on_vol_spec {A} (o : run V A) s (Q : A → St → Prop) E (H' : St → Prop) :
  spec o (WalQueueMgr.vol s) (λ a v, Q a (WalQueueMgr.mkSt (WalQueueMgr.mgr s) v))
    (λ e v, E e (WalQueueMgr.mkSt (WalQueueMgr.mgr s) v))
    (λ v, H' (WalQueueMgr.mkSt (WalQueueMgr.mgr s) v)) →
  spec (WalQueueMgr.on_vol o) s Q E H'.
Proof.
  unfold spec, WalQueueMgr.on_vol, zoom. by destruct (o (WalQueueMgr.vol s)) as [[[]|] ?].
Qed.

Definition mgr_kept s s' : Prop :=
  WalQueueMgr.txid_wmark (WalQueueMgr.mgr s') = WalQueueMgr.txid_wmark (WalQueueMgr.mgr s) ∧
  WalQueueMgr.walq_backup (WalQueueMgr.mgr s') = WalQueueMgr.walq_backup (WalQueueMgr.mgr s).

Lemma save_walq_spec s q C D C' D' :
  let q1 := WalQueueMgr.walq (WalQueueMgr.mgr s) in
  let q2 b := WalQueue.set_watermarks (WalQueueMgr.txid_wmark (WalQueueMgr.mgr s)) b q1 in
  inv (WalQueueMgr.vol s) q C D → WalQueue.id q1 = walq_id → WalQueue.arm q1 = WalQueue.arm q →
  WalQueue.seq q ≤ WalQueue.seq q1 → (∀ b, logs_ok (WalQueueMgr.vol s) (q2 b) C' D') →
  spec WalQueueMgr.save_walq s
    (λ _ s', inv (WalQueueMgr.vol s') (WalQueueMgr.walq (WalQueueMgr.mgr s')) C' D' ∧
       saved_only (WalQueueMgr.vol s) (WalQueueMgr.vol s') ∧
       (∃ b, WalQueueMgr.walq (WalQueueMgr.mgr s') = next_item (q2 b)) ∧ mgr_kept s s')
    (λ _ s', failed (WalQueueMgr.vol s) (WalQueueMgr.vol s') ∧ mgr_kept s s')
    (λ s', (same (WalQueueMgr.vol s) (WalQueueMgr.vol s') ∨
         ∃ b, inv (WalQueueMgr.vol s') (next_item (q2 b)) C' D' ∧
           saved_only (WalQueueMgr.vol s) (WalQueueMgr.vol s')) ∧
       (¬ steady (WalQueueMgr.vol s) ∨ U64 ≤ WalQueue.seq q1 + 1)).
Proof.
  destruct s as [[tw q1 bk] v]. cbn [WalQueueMgr.vol WalQueueMgr.mgr WalQueueMgr.walq WalQueueMgr.txid_wmark].
  set (q2 := λ b, WalQueue.set_watermarks tw b q1).
  intros [Hq _] Hid Harm Hseq Hok. unfold WalQueueMgr.save_walq.
  apply spec_bind, on_vol_spec. eapply spec_mono; [apply block_wmark_law| |done|done].
  intros b v1 Hs1. apply spec_bind, spec_ask. apply spec_bind. unfold WalQueueMgr.upd_walq.
  apply spec_bind, spec_ask, spec_modify.
  cbn [WalQueueMgr.mgr WalQueueMgr.vol WalQueueMgr.walq WalQueueMgr.txid_wmark WalQueueMgr.walq_backup].
  fold (q2 b). apply spec_bind, on_vol_spec. eapply spec_mono; [apply flush_law| | |].
  - intros [] v2 Hs2. apply spec_bind, spec_ask.
    cbn [WalQueueMgr.mgr WalQueueMgr.vol WalQueueMgr.walq WalQueueMgr.txid_wmark WalQueueMgr.walq_backup].
    pose proof (same_trans _ _ _ Hs1 Hs2 : same v v2) as Hs.
    assert (Hst : ¬ steady v2 → ¬ steady v) by (intros Hn Hst; by apply Hn, Hs).
    assert (Hsaved : ∀ v3, changed Logs (<[to_eid (other (item_arm (q2 b))) (item_id (q2 b)) :=
        encode (next_item (q2 b))]> (contents v2 Logs)) v2 v3 →
      inv v3 (next_item (q2 b)) C' D' ∧ saved_only v v3).
    { intros v3 Hch. pose proof Hch as (Hc & Hne & Hst3). unfold saved_only. rewrite Hne, (proj1 Hs) by done.
        split; [split|split; [done|split; [|intros Hv; by apply Hst3, Hs]]].
        -- pose proof (stored_next Logs (contents v Logs) (q2 b)) as Hnx.
           rewrite walq_form in Hnx. simpl item_id in Hnx. rewrite Hid in Hnx.
           rewrite Hc, (proj1 Hs). simpl item_id. rewrite Hid.
           apply Hnx; [apply walq_named|]. destruct Hq as (_ & Hin & _). right. exists (frozen q).
           split; [simpl in *; by rewrite Harm|]. simpl. lia.
        -- apply (logs_ok_ext _ (q2 b)); [done..|]. eapply (logs_ok_walq v2); [exact (logs_ok_same _ _ _ _ _ (Hok b) Hs)|].
           simpl item_id in Hch. rewrite Hid in Hch. exact Hch.
        -- intros a t. rewrite Hc, (proj1 Hs). simpl item_id. rewrite Hid.
           apply lookup_insert_ne, walq_key. }
    apply spec_bind, on_vol_spec. eapply spec_mono; [apply (save_spec Logs)| | |].
    + intros [q3 [[]|e|]] v3 Hr; cbn [fst snd] in Hr; [|destruct Hr as [-> [Hs3 Hn]]|done];
        apply spec_bind, spec_modify.
      * destruct Hr as [-> Hch]. apply spec_lift_ok.
        cbn [WalQueueMgr.mgr WalQueueMgr.vol WalQueueMgr.walq WalQueueMgr.txid_wmark WalQueueMgr.walq_backup].
        destruct (Hsaved v3 Hch). split_and!; try done. by exists b.
      * apply spec_fail. split; [split; [exact (same_trans _ _ _ Hs Hs3)|by auto]|done].
    + done.
    + intros v3 [Hs3 Hn]. split; [|simpl in Hn; destruct Hn; auto].
      destruct Hs3 as [Hs3|Hch]; [left; exact (same_trans _ _ _ Hs Hs3)|right; exists b; by apply Hsaved].
  - intros e v2 [Hs2 Hn]. split; [|done]. split; [exact (same_trans _ _ _ Hs1 Hs2)|]. intros Hst. by apply Hn, Hs1.
  - intros v2 [Hs2 Hn]. split; [left; exact (same_trans _ _ _ Hs1 Hs2)|]. left. intros Hst. by apply Hn, Hs1.
Qed.

(** *** Redoing aborts *)

(** Entities that are not committed may be lost. *)
Definition uncommitted C (k : Kind) key : Prop := k = Ents ∧ C !! key = None.

Lemma logs_ok_uncommitted v v' q C D : logs_ok v q C D → pruned (uncommitted C) v v' → logs_ok v' q C D.
Proof.
  intros Hl Hp. eapply logs_ok_pruned; [exact Hl|exact Hp|by intros key []|].
  intros key (t & w & Ht & Hw & Hc)%(lo_dirty _ _ _ _ Hl). exists t, w.
  split; [done|]. split; [done|]. split; [done|]. by intros a [].
Qed.
Lemma inv_uncommitted v v' q C D : inv v q C D → pruned (uncommitted C) v v' → inv v' q C D.
Proof.
  intros [Hq Hl] Hp. split; [|by eapply logs_ok_uncommitted].
  eapply stored_pruned; [exact Hp|by intros a []|done].
Qed.

Definition wiped D m v t : Prop :=
  ∀ w key, stored Logs m (derive_id t) w → cleans w key → D key → contents v Ents !! key = None.

Lemma clean_log_spec s q C D t w :
  logs_ok (WalQueueMgr.vol s) q C D → t ∈ WalQueue.doing q →
  stored Logs (contents (WalQueueMgr.vol s) Logs) (derive_id t) w →
  spec (WalQueueMgr.on_vol (Wal.clean_aborted w)) s
    (λ _ s', WalQueueMgr.mgr s' = WalQueueMgr.mgr s ∧
       pruned (uncommitted C) (WalQueueMgr.vol s) (WalQueueMgr.vol s') ∧
       wiped D (contents (WalQueueMgr.vol s) Logs) (WalQueueMgr.vol s') t)
    (λ _ s', WalQueueMgr.mgr s' = WalQueueMgr.mgr s ∧
       pruned (uncommitted C) (WalQueueMgr.vol s) (WalQueueMgr.vol s') ∧ ¬ steady (WalQueueMgr.vol s))
    (λ s', pruned (uncommitted C) (WalQueueMgr.vol s) (WalQueueMgr.vol s') ∧ ¬ steady (WalQueueMgr.vol s)).
Proof.
  intros Hl Ht Hw. assert (HK : ∀ v', pruned (ents_of (cleans w)) (WalQueueMgr.vol s) v' →
    pruned (uncommitted C) (WalQueueMgr.vol s) v').
  { intros v' Hp. eapply pruned_mono; [exact Hp|]. intros k key [-> Hk]. split; [done|].
    eapply (lo_doing _ _ _ _ Hl); [done|by apply stored_log|done]. }
  apply on_vol_spec. eapply spec_mono; [apply clean_aborted_spec| | |].
  - intros [] v' [Hp Hn]. split; [done|]. split; [by apply HK|].
    intros w' key Hw' Hk _. apply Hn. by rewrite (stored_inj _ _ _ _ _ Hw Hw').
  - intros _ v' [Hp Hn]. by auto.
  - intros v' [Hp Hn]. by auto.
Qed.

Lemma redo_one_spec s q C D t :
  logs_ok (WalQueueMgr.vol s) q C D → t ∈ WalQueue.doing q →
  spec (WalQueueMgr.redo_one t) s
    (λ _ s', WalQueueMgr.mgr s' = WalQueueMgr.mgr s ∧
       pruned (uncommitted C) (WalQueueMgr.vol s) (WalQueueMgr.vol s') ∧
       wiped D (contents (WalQueueMgr.vol s) Logs) (WalQueueMgr.vol s') t)
    (λ _ s', WalQueueMgr.mgr s' = WalQueueMgr.mgr s ∧
       pruned (uncommitted C) (WalQueueMgr.vol s) (WalQueueMgr.vol s') ∧ ¬ steady (WalQueueMgr.vol s))
    (λ s', pruned (uncommitted C) (WalQueueMgr.vol s) (WalQueueMgr.vol s') ∧ ¬ steady (WalQueueMgr.vol s)).
Proof.
  destruct s as [g v]. cbn [WalQueueMgr.vol WalQueueMgr.mgr]. intros Hl Ht.
  unfold WalQueueMgr.redo_one. apply spec_bind, spec_attempt, on_vol_spec.
  cbn [WalQueueMgr.vol WalQueueMgr.mgr].
  destruct (log_cases _ t (lo_logs _ _ _ _ Hl t)) as [Hab|(w & Hw & _)].
  - eapply spec_mono; [by apply (load_absent Logs)|done| |].
    + intros e v' [Hs He]. assert (Hp : pruned (uncommitted C) v v') by by apply pruned_same.
      assert (Hnone : wiped D (contents v Logs) v' t).
      { intros w key (_ & Hw & _). unfold arm_item in Hw. by rewrite Hab in Hw. }
      destruct (decide (e = NotFound)) as [->|Hne]; [by apply spec_ret|].
      destruct He as [|Hst]; [done|]. by destruct e.
    + intros v' [Hs Hst]. split; [by apply pruned_same|done].
  - eapply spec_mono; [by apply (load_stored Logs)| | |].
    + intros w' v' [-> Hs]. cbn beta.
      eapply spec_mono; [apply (clean_log_spec (WalQueueMgr.mkSt g v') q C D t w)| | |];
        cbn [WalQueueMgr.vol WalQueueMgr.mgr].
      * by eapply logs_ok_same.
      * done.
      * by rewrite (proj1 Hs).
      * rewrite (proj1 Hs). intros [] s' (Hm & Hp & Hn). split; [done|]. split; [|done].
        eapply pruned_trans; [by apply pruned_same|exact Hp].
      * intros _ s' (Hm & Hp & Hn). split; [done|]. split; [|intros Hst; by apply Hn, Hs].
        eapply pruned_trans; [by apply pruned_same|exact Hp].
      * intros s' (Hp & Hn). split; [|intros Hst; by apply Hn, Hs].
        eapply pruned_trans; [by apply pruned_same|exact Hp].
    + intros e v' [Hne [Hs Hst]].
      assert (Hf : WalQueueMgr.mgr (WalQueueMgr.mkSt g v') = g ∧ pruned (uncommitted C) v v' ∧ ¬ steady v).
      { split; [done|]. split; [by apply pruned_same|done]. }
      by destruct e; try exact Hf.
    + intros v' [Hs Hst]. split; [by apply pruned_same|done].
Qed.

(** A loop over unfinished transactions that cleans the log of each. *)
Lemma redo_loop_spec {A} (f : A → run St unit) (txid : A → Txid) (l : list A) s q C D :
  logs_ok (WalQueueMgr.vol s) q C D →
  (∀ x s', x ∈ l → WalQueueMgr.mgr s' = WalQueueMgr.mgr s →
     logs_ok (WalQueueMgr.vol s') q C D →
     contents (WalQueueMgr.vol s') Logs = contents (WalQueueMgr.vol s) Logs →
     spec (f x) s'
      (λ _ s2, WalQueueMgr.mgr s2 = WalQueueMgr.mgr s' ∧
         pruned (uncommitted C) (WalQueueMgr.vol s') (WalQueueMgr.vol s2) ∧
         wiped D (contents (WalQueueMgr.vol s') Logs) (WalQueueMgr.vol s2) (txid x))
      (λ _ s2, WalQueueMgr.mgr s2 = WalQueueMgr.mgr s' ∧
         pruned (uncommitted C) (WalQueueMgr.vol s') (WalQueueMgr.vol s2) ∧ ¬ steady (WalQueueMgr.vol s'))
      (λ s2, pruned (uncommitted C) (WalQueueMgr.vol s') (WalQueueMgr.vol s2) ∧ ¬ steady (WalQueueMgr.vol s'))) →
  spec (for_each f l) s
    (λ _ s', WalQueueMgr.mgr s' = WalQueueMgr.mgr s ∧
       pruned (uncommitted C) (WalQueueMgr.vol s) (WalQueueMgr.vol s') ∧
       ∀ x, x ∈ l → wiped D (contents (WalQueueMgr.vol s) Logs) (WalQueueMgr.vol s') (txid x))
    (λ _ s', WalQueueMgr.mgr s' = WalQueueMgr.mgr s ∧
       pruned (uncommitted C) (WalQueueMgr.vol s) (WalQueueMgr.vol s') ∧ ¬ steady (WalQueueMgr.vol s))
    (λ s', pruned (uncommitted C) (WalQueueMgr.vol s) (WalQueueMgr.vol s') ∧ ¬ steady (WalQueueMgr.vol s)).
Proof.
  intros Hl Hf.
  apply (spec_for_each f l (λ pre s', WalQueueMgr.mgr s' = WalQueueMgr.mgr s ∧
    pruned (uncommitted C) (WalQueueMgr.vol s) (WalQueueMgr.vol s') ∧
    ∀ x, x ∈ pre → wiped D (contents (WalQueueMgr.vol s) Logs) (WalQueueMgr.vol s') (txid x))).
  - split; [done|]. split; [by apply pruned_same|]. by intros x ?%elem_of_nil.
  - intros pre x rest s' Hes (Hm & Hp & Hall).
    assert (Hlg : contents (WalQueueMgr.vol s') Logs = contents (WalQueueMgr.vol s) Logs).
    { apply map_eq. intros key. by eapply pruned_keep; [exact Hp|intros []]. }
    assert (Hx : x ∈ l) by (rewrite Hes; apply elem_of_app; right; left).
    assert (Hst : ¬ steady (WalQueueMgr.vol s') → ¬ steady (WalQueueMgr.vol s))
      by (intros Hn Hs; by apply Hn, Hp).
    eapply spec_mono; [apply Hf; [done|done|by eapply logs_ok_uncommitted|done]| | |].
    + intros [] s2 (Hm2 & Hp2 & Hw2). split; [congruence|]. split; [by eapply pruned_trans|].
      intros y [Hy| ->%list_elem_of_singleton]%elem_of_app; [|by rewrite Hlg in Hw2].
      intros w key Hw Hk HD. eapply pruned_None; [exact Hp2|]. by eapply Hall.
    + intros _ s2 (Hm2 & Hp2 & Hn). split; [congruence|]. split; [by eapply pruned_trans|by auto].
    + intros s2 (Hp2 & Hn). split; [by eapply pruned_trans|by auto].
Qed.

Lemma end_aborts_fields (ts : list Txid) q :
  WalQueue.doing (WalQueue.end_aborts ts q) = WalQueue.doing q ∖ list_to_set ts ∧
  WalQueue.done (WalQueue.end_aborts ts q) = WalQueue.done q ∧
  WalQueue.id (WalQueue.end_aborts ts q) = WalQueue.id q ∧
  WalQueue.seq (WalQueue.end_aborts ts q) = WalQueue.seq q ∧
  WalQueue.arm (WalQueue.end_aborts ts q) = WalQueue.arm q ∧
  (∀ t, WalQueue.aborting (WalQueue.end_aborts ts q) !! t =
     if decide (t ∈ ts) then None else WalQueue.aborting q !! t).
Proof.
  revert q. induction ts as [|t ts IH]; intros q.
  - split_and!; [set_solver|done..|]. intros t. by rewrite decide_False by apply not_elem_of_nil.
  - change (WalQueue.end_aborts (t :: ts) q) with (WalQueue.end_aborts ts (WalQueue.end_abort t q)).
    destruct (IH (WalQueue.end_abort t q)) as (-> & -> & -> & -> & -> & Ha).
    split_and!; [simpl; set_solver|done..|]. intros t'. rewrite Ha. unfold WalQueue.end_abort, WalQueue.set_queues.
    cbn [WalQueue.aborting]. destruct (decide (t' ∈ ts)) as [Hin|Hin].
    { rewrite decide_True; [done|by right]. }
    destruct (decide (t' = t)) as [->|Hne].
    + rewrite decide_True by left. apply lookup_delete_eq.
    + rewrite decide_False by (rewrite not_elem_of_cons; done). by rewrite lookup_delete_ne.
Qed.

(** Entities are as before, but for uncommitted ones that may be gone. *)
Definition ents_pruned C v v' : Prop := ∀ key,
  contents v' Ents !! key = contents v Ents !! key ∨
  (C !! key = None ∧ contents v' Ents !! key = None).
Lemma ents_pruned_of C v v' : pruned (uncommitted C) v v' → ents_pruned C v v'.
Proof. intros [Hp _] key. destruct (Hp Ents key) as [|[[_ ?] ?]]; auto. Qed.

(** Transactions whose logs are wiped leave the queue. *)
Lemma logs_ok_forget v v' q q' C D (gone : gset Txid) :
  logs_ok v q C D → pruned (uncommitted C) v v' →
  (∀ t, t ∈ gone → wiped D (contents v Logs) v' t) →
  WalQueue.doing q' = WalQueue.doing q ∖ gone → WalQueue.done q' = WalQueue.done q →
  WalQueue.txid_wmark q ≤ WalQueue.txid_wmark q' →
  logs_ok v' q' C (λ key, D key ∧ covered (contents v' Logs) q' key).
Proof.
  intros Hl Hp Hw Hg Hd Hwm. pose proof (logs_ok_uncommitted _ _ _ _ _ Hl Hp) as [].
  split; rewrite ?Hd, ?Hg; eauto; [lia|..].
  - intros t Ht. apply lo_wmark0. lia.
  - intros t a w key [Ht _]%elem_of_difference. eauto.
  - intros t Ht Ht'%elem_of_difference. destruct Ht' as [Ht' _]. by eapply lo_apart0.
  - intros t Ht. transitivity (WalQueue.txid_wmark q); [|done]. apply lo_known0.
    destruct Ht as [|[? _]%elem_of_difference]; auto.
  - by intros key [_ Hc].
Qed.

(** What the wiped logs covered is gone. *)
Lemma forget_dirty v v' q q' C D (gone : gset Txid) key :
  logs_ok v q C D → pruned (uncommitted C) v v' →
  (∀ t, t ∈ gone → wiped D (contents v Logs) v' t) →
  WalQueue.doing q' = WalQueue.doing q ∖ gone → D key →
  contents v' Ents !! key = None ∨ covered (contents v' Logs) q' key.
Proof.
  intros Hl Hp Hw Hg Hk. destruct (lo_dirty _ _ _ _ Hl key Hk) as (t & w & Ht & Hs & Hc).
  destruct (decide (t ∈ gone)) as [Hin|Hin]; [left; by eapply Hw|]. right.
  exists t, w. split; [rewrite Hg; by apply elem_of_difference|]. split; [|done].
  eapply stored_pruned; [exact Hp|by intros a []|done].
Qed.

Lemma inv_frozen v q C D : inv v q C D → inv v (frozen q) C D.
Proof. intros [Hq Hl]. split; [exact Hq|]. exact (logs_ok_ext v q (frozen q) C D eq_refl eq_refl eq_refl Hl). Qed.

Lemma or_restore_spec (m : run St unit) s (Q : unit → St → Prop) E (H' : St → Prop) :
  spec m s Q (λ e s', ∃ b, WalQueueMgr.walq_backup (WalQueueMgr.mgr s') = Some b ∧
    E e (WalQueueMgr.mkSt (WalQueueMgr.mkMgr (WalQueueMgr.txid_wmark (WalQueueMgr.mgr s')) b None)
           (WalQueueMgr.vol s'))) H' →
  spec (WalQueueMgr.or_restore m) s Q E H'.
Proof.
  intros Hm. apply spec_or_else. eapply spec_mono; [exact Hm|done| |done].
  intros e s' (b & Hb & He). unfold WalQueueMgr.restore_walq. apply spec_bind, spec_bind, spec_ask.
  rewrite Hb. apply spec_bind, spec_lift_ok, spec_modify, spec_fail. exact He.
Qed.

Lemma cold_redo_abort_spec s q C D :
  WalQueueMgr.walq (WalQueueMgr.mgr s) = frozen q → logs_ok (WalQueueMgr.vol s) q C D →
  spec WalQueueMgr.cold_redo_abort s
    (λ _ s', let q' := WalQueueMgr.walq (WalQueueMgr.mgr s') in
       WalQueue.doing q' = ∅ ∧ WalQueue.aborting q' = ∅ ∧ WalQueue.done q' = WalQueue.done q ∧
       WalQueue.id q' = WalQueue.id q ∧ WalQueue.arm q' = WalQueue.arm q ∧
       WalQueue.seq q' = WalQueue.seq q ∧ mgr_kept s s' ∧
       pruned (uncommitted C) (WalQueueMgr.vol s) (WalQueueMgr.vol s') ∧
       ∀ t, t ∈ WalQueue.doing q → wiped D (contents (WalQueueMgr.vol s) Logs) (WalQueueMgr.vol s') t)
    (λ _ s', mgr_kept s s' ∧ pruned (uncommitted C) (WalQueueMgr.vol s) (WalQueueMgr.vol s') ∧
       ¬ steady (WalQueueMgr.vol s))
    (λ s', pruned (uncommitted C) (WalQueueMgr.vol s) (WalQueueMgr.vol s') ∧ ¬ steady (WalQueueMgr.vol s)).
Proof.
  intros Hq Hl. unfold WalQueueMgr.cold_redo_abort. apply spec_bind, spec_ask. rewrite Hq.
  change (WalQueue.doing (frozen q)) with (WalQueue.doing q).
  apply spec_bind. eapply spec_mono; [apply (redo_loop_spec _ (λ t, t) _ s q C D Hl)| | |done].
  - intros t s' Ht%set_iter_elem _ Hl' _. by apply (redo_one_spec s' q C D).
  - intros [] [g v'] (Hm & Hp & Hw). cbn [WalQueueMgr.mgr WalQueueMgr.vol] in *. subst g.
    apply spec_bind, spec_ask, spec_modify.
    cbn [WalQueueMgr.mgr WalQueueMgr.vol WalQueueMgr.walq]. rewrite Hq.
    destruct (end_aborts_fields (set_iter (WalQueue.doing q)) (frozen q)) as (-> & -> & -> & -> & -> & Ha).
    split_and!; try done.
    + apply set_eq. intros t. rewrite elem_of_difference, elem_of_list_to_set, set_iter_elem.
      change (WalQueue.doing (frozen q)) with (WalQueue.doing q).
      split; [by intros []|by intros ?%elem_of_empty].
    + apply map_empty. intros t. rewrite Ha. by case_decide.
    + intros t Ht. apply Hw. by apply set_iter_elem.
  - intros _ s' (Hm & Hp & Hn). split; [|done]. split; by rewrite Hm.
Qed.

Definition opened q C D v v' : Prop :=
  ents_pruned C v v' ∧ ∀ key, D key → contents v' Ents !! key = None.

(** [WalQueueMgr::open] recovers: what was under way is wiped, what was committed is kept; a
    recovery that fails can be tried again. *)
Lemma open_spec g v q C D :
  inv v q C D →
  spec (WalQueueMgr.open walq_id) (WalQueueMgr.mkSt g v)
    (λ _ s', let q' := WalQueueMgr.walq (WalQueueMgr.mgr s') in
       inv (WalQueueMgr.vol s') q' C (λ _, False) ∧ WalQueue.doing q' = ∅ ∧
       WalQueue.aborting q' = ∅ ∧ WalQueue.done q' = WalQueue.done q ∧ WalQueue.id q' = walq_id ∧
       WalQueue.txid_wmark q' = WalQueue.txid_wmark q ∧
       WalQueueMgr.txid_wmark (WalQueueMgr.mgr s') = WalQueue.txid_wmark q ∧
       opened q C D v (WalQueueMgr.vol s') ∧ (steady v → steady (WalQueueMgr.vol s')))
    (λ _ s', (inv (WalQueueMgr.vol s') q C D ∧ ents_pruned C v (WalQueueMgr.vol s')) ∧ ¬ steady v)
    (λ s', ((inv (WalQueueMgr.vol s') q C D ∧ ents_pruned C v (WalQueueMgr.vol s')) ∨
        ∃ q', inv (WalQueueMgr.vol s') q' C (λ _, False) ∧ opened q C D v (WalQueueMgr.vol s')) ∧
       (¬ steady v ∨ U64 ≤ WalQueue.seq q + 1)).
Proof.
  intros Hi. pose proof Hi as [Hq Hl]. unfold WalQueueMgr.open. apply spec_bind, on_vol_spec.
  eapply spec_mono; [by apply (load_stored Logs)| | |].
  - intros q0 v1 [-> Hs1]. cbn [WalQueueMgr.vol WalQueueMgr.mgr] in *.
    apply spec_bind, spec_modify. cbn [WalQueue.watermarks]. apply spec_bind, spec_modify.
    cbn [WalQueueMgr.vol WalQueueMgr.mgr WalQueueMgr.walq WalQueueMgr.walq_backup].
    apply spec_bind, on_vol_spec. cbn [WalQueueMgr.vol WalQueueMgr.mgr].
    eapply spec_mono; [apply set_block_wmark_law| |done|done].
    intros [] v2 Hs2. pose proof (same_trans _ _ _ Hs1 Hs2) as Hs.
    pose proof (inv_same _ _ _ _ _ (inv_frozen _ _ _ _ Hi) Hs) as Hi2.
    change (WalQueue.txid_wmark (frozen q)) with (WalQueue.txid_wmark q).
    unfold WalQueue.has_doing. change (WalQueue.doing (frozen q)) with (WalQueue.doing q).
    destruct (bool_decide_reflect (WalQueue.doing q = ∅)) as [Hno|Hsome]; cbn [negb].
    + apply spec_ret. cbn [WalQueueMgr.vol WalQueueMgr.mgr WalQueueMgr.walq].
      assert (HD : ∀ key, ¬ D key).
      { intros key (t & w & Ht & _)%(lo_dirty _ _ _ _ Hl). set_solver. }
      split; [|split_and!; [done|done|done|apply Hq|done|done| |apply Hs]].
      * destruct Hi2 as [Hq2 []]. split; [done|]. split; eauto. done.
      * split; [|by intros key ?%HD]. intros key. left. by rewrite (proj1 Hs).
    + apply spec_bind, spec_modify. cbn [WalQueueMgr.vol WalQueueMgr.mgr WalQueueMgr.walq WalQueueMgr.txid_wmark].
      apply or_restore_spec, spec_bind. destruct Hi2 as [Hq2 Hl2].
      pose proof (logs_ok_ext v2 (frozen q) q C D eq_refl eq_refl eq_refl Hl2) as Hl3.
      eapply spec_mono; [apply (cold_redo_abort_spec _ q C D); [done|exact Hl3]| | |];
        cbn [WalQueueMgr.vol WalQueueMgr.mgr WalQueueMgr.walq WalQueueMgr.txid_wmark].
      * intros [] s3 (Hg & Ha & Hd & Hid & Harm & Hseq & [Htw Hbk] & Hp & Hw).
        cbn [WalQueueMgr.vol WalQueueMgr.mgr WalQueueMgr.walq WalQueueMgr.txid_wmark WalQueueMgr.walq_backup] in *.
        pose proof (inv_uncommitted _ _ _ _ _ (conj Hq2 Hl2) Hp) as Hi3.
        assert (Hpr : ∀ v4, contents v4 Ents = contents (WalQueueMgr.vol s3) Ents → ents_pruned C v v4).
        { intros v4 He4 key. rewrite He4, <- (proj1 Hs Ents). by apply ents_pruned_of. }
        assert (Hdirty : ∀ key, D key → contents (WalQueueMgr.vol s3) Ents !! key = None).
        { intros key HD. destruct (lo_dirty _ _ _ _ Hl3 key HD) as (t & w & Ht & Hsw & Hc).
          by eapply (Hw t). }
        eapply spec_mono.
        -- apply (save_walq_spec s3 (frozen q) C D C (λ _, False) Hi3); [by rewrite Hid; apply Hq|done|by rewrite Hseq|].
           intros b. pose proof (logs_ok_uncommitted _ _ _ _ _ Hl3 Hp) as [].
           split; simpl; rewrite ?Hg, ?Hd, ?Htw; eauto; try done; try set_solver.
        -- intros [] s4 (Hi4 & (Hents & _ & Hst4) & [b Hb] & [Htw4 _]). rewrite Hb in *. cbn in Hi4 |- *.
           split; [exact Hi4|]. rewrite Hg, Ha, Hd, Hid, Htw4, Htw. split_and!; try done; [apply Hq| |].
           ++ split; [by apply Hpr|intros key Hk; rewrite Hents; by apply Hdirty].
           ++ intros Hst. apply Hst4, Hp, Hs, Hst.
        -- intros e s4 [[Hs4 Hn] [_ Hbk4]]. exists (frozen q). split; [congruence|].
           cbn [WalQueueMgr.vol]. split; [|intros Hst; apply Hn, Hp, Hs, Hst].
           split; [|apply Hpr, Hs4].
           pose proof (inv_same _ _ _ _ _ Hi3 Hs4) as [Hqq Hll]. split; [exact Hqq|].
           exact (logs_ok_ext _ (frozen q) q C D eq_refl eq_refl eq_refl Hll).
        -- intros s4 [Hs4 Hn]. split.
           ++ destruct Hs4 as [Hs4|(b & Hi4 & He4 & _)]; [left; split; [|apply Hpr, Hs4]|right].
              { pose proof (inv_same _ _ _ _ _ Hi3 Hs4) as [Hqq Hll]. split; [exact Hqq|].
                exact (logs_ok_ext _ (frozen q) q C D eq_refl eq_refl eq_refl Hll). }
              eexists. split; [exact Hi4|]. split; [by apply Hpr|]. intros key Hk. rewrite He4. by apply Hdirty.
           ++ destruct Hn as [Hn|Hn]; [left; intros Hst; apply Hn, Hp, Hs, Hst|right; by rewrite <- Hseq].
      * intros e s3 ([Htw Hbk] & Hp & Hn). exists (frozen q). split; [done|]. cbn [WalQueueMgr.vol].
        split; [|intros Hst; apply Hn, Hs, Hst].
        split; [split|intros key; rewrite <- (proj1 Hs Ents); by apply ents_pruned_of].
        -- exact (proj1 (inv_uncommitted _ _ _ _ _ (conj Hq2 Hl2) Hp)).
        -- by eapply logs_ok_uncommitted.
      * intros s3 (Hp & Hn). split; [left|left; intros Hst; apply Hn, Hs, Hst].
        split; [split|intros key; rewrite <- (proj1 Hs Ents); by apply ents_pruned_of].
        -- exact (proj1 (inv_uncommitted _ _ _ _ _ (conj Hq2 Hl2) Hp)).
        -- by eapply logs_ok_uncommitted.
  - intros e v1 [_ [Hs Hn]]. split; [|done]. split; [by eapply inv_same|]. intros key. left. by rewrite (proj1 Hs).
  - intros v1 [Hs Hn]. split; [left|by left]. split; [by eapply inv_same|]. intros key. left. by rewrite (proj1 Hs).
Qed.

(** *** The manager between calls *)

(** The queue in memory agrees with the stored one; its numbers may be ahead. *)
Definition mem_of (g : WalQueueMgr.WalQueueMgr M) q : Prop :=
  WalQueue.id (WalQueueMgr.walq g) = walq_id ∧ WalQueue.arm (WalQueueMgr.walq g) = WalQueue.arm q ∧
  WalQueue.seq q ≤ WalQueue.seq (WalQueueMgr.walq g) ∧
  WalQueue.done (WalQueueMgr.walq g) = WalQueue.done q ∧
  WalQueue.doing (WalQueueMgr.walq g) = WalQueue.doing q ∧
  WalQueue.txid_wmark q ≤ WalQueueMgr.txid_wmark g.
Definition live s C D : Prop :=
  ∃ q, inv (WalQueueMgr.vol s) q C D ∧ mem_of (WalQueueMgr.mgr s) q.
Definition safe v C D : Prop := ∃ q, inv v q C D.

Lemma live_safe s C D : live s C D → safe (WalQueueMgr.vol s) C D.
Proof. intros (q & Hi & _). by exists q. Qed.

Definition queues (q q' : WalQueue.WalQueue M) : Prop :=
  WalQueue.done q' = WalQueue.done q ∧ WalQueue.doing q' = WalQueue.doing q ∧
  WalQueue.aborting q' = WalQueue.aborting q.

(** A call that fails leaves the queue as it was; one that stops leaves the old one stored or
    the new. *)
Definition kept_queue (K : Kind → Eid → Prop) s q C D s' : Prop :=
  inv (WalQueueMgr.vol s') q C D ∧ mem_of (WalQueueMgr.mgr s') q ∧ pruned K (WalQueueMgr.vol s) (WalQueueMgr.vol s') ∧
  WalQueueMgr.walq (WalQueueMgr.mgr s') = WalQueueMgr.walq (WalQueueMgr.mgr s) ∧
  WalQueueMgr.txid_wmark (WalQueueMgr.mgr s') = WalQueueMgr.txid_wmark (WalQueueMgr.mgr s) ∧
  ¬ steady (WalQueueMgr.vol s).
Definition stopped (K : Kind → Eid → Prop) s C D C' D' s' : Prop :=
  (safe (WalQueueMgr.vol s') C D ∨ safe (WalQueueMgr.vol s') C' D') ∧
  (∃ v1, pruned K (WalQueueMgr.vol s) v1 ∧ contents (WalQueueMgr.vol s') Ents = contents v1 Ents) ∧
  (¬ steady (WalQueueMgr.vol s) ∨ U64 ≤ WalQueue.seq (WalQueueMgr.walq (WalQueueMgr.mgr s)) + 1).

(** The queue of the logs, apart from its own arms. *)
Definition walq_arms (k : Kind) key : Prop := k = Logs ∧ ∃ a, key = to_eid a walq_id.

(** Saving the changed queue [q1] after [backup_walq]; [s] is the state before the call. *)
Lemma save_changed_spec s q1 v1 q C D C' D' (K : Kind → Eid → Prop) :
  let g := WalQueueMgr.mgr s in
  inv v1 q C D → mem_of g q → pruned K (WalQueueMgr.vol s) v1 →
  WalQueue.id q1 = walq_id → WalQueue.arm q1 = WalQueue.arm q → 
  WalQueue.seq q1 = WalQueue.seq (WalQueueMgr.walq g) →
  (∀ b, logs_ok v1 (WalQueue.set_watermarks (WalQueueMgr.txid_wmark g) b q1) C' D') →
  spec WalQueueMgr.save_walq
    (WalQueueMgr.mkSt (WalQueueMgr.mkMgr (WalQueueMgr.txid_wmark g) q1 (Some (WalQueueMgr.walq g))) v1)
    (λ _ s', live s' C' D' ∧ queues q1 (WalQueueMgr.walq (WalQueueMgr.mgr s')) ∧
       WalQueueMgr.txid_wmark (WalQueueMgr.mgr s') = WalQueueMgr.txid_wmark g ∧
       saved_only v1 (WalQueueMgr.vol s'))
    (λ _ s', ∃ b, WalQueueMgr.walq_backup (WalQueueMgr.mgr s') = Some b ∧
       kept_queue K s q C D (WalQueueMgr.mkSt
         (WalQueueMgr.mkMgr (WalQueueMgr.txid_wmark (WalQueueMgr.mgr s')) b None) (WalQueueMgr.vol s')))
    (stopped K s C D C' D').
Proof.
  cbn zeta. intros Hi Hm Hp Hid Harm Hseq Hok.
  eapply spec_mono; [apply (save_walq_spec _ q C D C' D'); cbn [WalQueueMgr.vol WalQueueMgr.mgr
    WalQueueMgr.walq WalQueueMgr.txid_wmark]; [done|done|done| |exact Hok]| | |].
  - rewrite Hseq. apply Hm.
  - cbn [WalQueueMgr.vol WalQueueMgr.mgr WalQueueMgr.walq WalQueueMgr.txid_wmark].
    intros [] s' (Hi' & Hso & [b Hb] & [Htw _]). cbn [WalQueueMgr.txid_wmark WalQueueMgr.mgr] in Htw.
    split; [|split; [by rewrite Hb|split; [done|done]]].
    exists (WalQueueMgr.walq (WalQueueMgr.mgr s')). split; [done|].
    unfold mem_of. rewrite Htw, Hb. simpl. split_and!; try done; lia.
  - cbn [WalQueueMgr.vol WalQueueMgr.mgr]. intros e s' [[Hs Hn] [Htw Hbk]].
    cbn [WalQueueMgr.txid_wmark WalQueueMgr.mgr WalQueueMgr.walq_backup] in Htw, Hbk.
    exists (WalQueueMgr.walq (WalQueueMgr.mgr s)). split; [done|].
    split; [by eapply inv_same|].
    split; [|split; [|split; [done|split; [done|intros Hst; by apply Hn, Hp]]]].
    + unfold mem_of in *. by rewrite Htw.
    + cbn [WalQueueMgr.vol]. eapply pruned_trans; [exact Hp|by apply pruned_same].
  - cbn [WalQueueMgr.vol WalQueueMgr.mgr WalQueueMgr.walq]. intros s' [Hs Hn].
    split; [destruct Hs as [Hs|(b & Hi' & _)]; [left; exists q; by eapply inv_same|right; by eexists]|].
    split; [exists v1; split; [done|]; by destruct Hs as [[Hs _]|(b & _ & Hs & _)]|].
    rewrite Hseq in Hn. destruct Hn as [Hn|]; [left; intros Hst; by apply Hn, Hp|by right].
Qed.

(** *** Beginning and ending *)

Definition nothing (k : Kind) key : Prop := False.

Lemma begin_trans_spec s q C D t :
  inv (WalQueueMgr.vol s) q C D → mem_of (WalQueueMgr.mgr s) q →
  WalQueueMgr.txid_wmark (WalQueueMgr.mgr s) = t → WalQueue.txid_wmark q < t →
  spec (WalQueueMgr.begin_trans t) s
    (λ _ s', live s' C D ∧
       WalQueue.doing (WalQueueMgr.walq (WalQueueMgr.mgr s'))
         = {[t]} ∪ WalQueue.doing (WalQueueMgr.walq (WalQueueMgr.mgr s)) ∧
       WalQueue.done (WalQueueMgr.walq (WalQueueMgr.mgr s')) = WalQueue.done (WalQueueMgr.walq (WalQueueMgr.mgr s)) ∧
       WalQueue.aborting (WalQueueMgr.walq (WalQueueMgr.mgr s'))
         = WalQueue.aborting (WalQueueMgr.walq (WalQueueMgr.mgr s)) ∧
       WalQueueMgr.txid_wmark (WalQueueMgr.mgr s') = t ∧
       saved_only (WalQueueMgr.vol s) (WalQueueMgr.vol s') ∧
       absent Logs (contents (WalQueueMgr.vol s') Logs) (derive_id t))
    (λ _, kept_queue nothing s q C D) (stopped nothing s C D C D).
Proof.
  intros Hi Hm Htw Hlt. pose proof Hi as [_ Hl].
  pose proof Hm as (Hid & Harm & Hseq & Hdn & Hdo & _).
  destruct s as [g v]. cbn [WalQueueMgr.mgr WalQueueMgr.vol] in *.
  assert (Hnot : t ∉ WalQueue.doing q).
  { intros Hin. pose proof (lo_known _ _ _ _ Hl t (or_intror Hin)). lia. }
  unfold WalQueueMgr.begin_trans. apply spec_bind, spec_modify. apply spec_bind, spec_ask, spec_bind.
  cbn [WalQueueMgr.mgr WalQueueMgr.vol WalQueueMgr.walq WalQueueMgr.txid_wmark WalQueueMgr.walq_backup].
  unfold WalQueue.begin_trans. rewrite Hdo, bool_decide_false by done. simpl negb. cbn [rassert].
  rewrite bind_ok. apply spec_lift_ok, spec_bind, spec_modify.
  cbn [WalQueueMgr.mgr WalQueueMgr.vol WalQueueMgr.walq WalQueueMgr.txid_wmark WalQueueMgr.walq_backup].
  apply or_restore_spec. eapply spec_mono.
  - apply (save_changed_spec (WalQueueMgr.mkSt g v) _ v q C D C D nothing Hi Hm);
      cbn [WalQueueMgr.mgr WalQueueMgr.vol]; [by apply pruned_same|done|done|done|].
    intros b. destruct Hl. split; simpl; rewrite ?Hdn, ?Hdo, ?Htw; eauto; [lia|..].
    + intros t' Ht'. apply lo_wmark0. lia.
    + intros t' a w key [->%elem_of_singleton|Ht']%elem_of_union Hw; [|by eauto].
      unfold log, arm_item in Hw. by rewrite lo_wmark0 in Hw.
    + intros t' Ht' [->%elem_of_singleton|Hin]%elem_of_union; [|by eapply lo_apart0].
      pose proof (lo_known0 t (or_introl Ht')). lia.
    + intros t' [Ht'|[->%elem_of_singleton|Ht']%elem_of_union]; [|lia|];
        [pose proof (lo_known0 t' (or_introl Ht'))|pose proof (lo_known0 t' (or_intror Ht'))]; lia.
    + intros key (t' & w & Ht' & Hw)%lo_dirty0. exists t', w. split; [|done].
      cbn [WalQueue.doing WalQueue.set_watermarks WalQueue.set_queues]. apply elem_of_union. by right.
  - cbn [WalQueueMgr.mgr WalQueueMgr.vol]. intros [] s' (Hl' & (Hq1 & Hq2 & Hq3) & Htw' & Hso).
    split; [done|]. rewrite Hq1, Hq2, Hq3. simpl. rewrite Htw'. split_and!; try done.
    intros a. rewrite (proj1 (proj2 Hso)). by apply (lo_wmark _ _ _ _ Hl).
  - done.
  - done.
Qed.
End inv.
