(* ===== verification/WalMgr.v ===== *)
(** * Committing and aborting in the queue of transactions.

    A commit recycles the oldest transactions done and then replaces the stored queue: that
    single write decides it. *)
From S2P Require Import Prelude Run Base Segment Armor Wal WalProofs.
Import Arm.

Section mgr.
Context `{!ArmHash, !ArmHashLaws, !TxidHash, !TxidHashLaws, !HashOrder, !HashOrderLaws}.
Context {V M : Type} {X : Kind → Type} `{!Volume V X, !VolumeLaws V X}.
Context `{!LinkedMapOps Eid Wal.Entry M}.
Context `{!Serde (X Logs) (Wal.Wal M), !SerdeLaws (X Logs) (Wal.Wal M)}.
Context `{!Serde (X Logs) (WalQueue.WalQueue M), !SerdeLaws (X Logs) (WalQueue.WalQueue M)}.
Context (walq_id : Eid) `{!WalLaws X M walq_id}.
Abbreviation St := (WalQueueMgr.St V M).
Abbreviation live := (live walq_id). Abbreviation inv := (inv walq_id).
Abbreviation logs_ok := (logs_ok walq_id).
Implicit Types (v : V) (q : WalQueue.WalQueue M) (w : Wal.Wal M) (key : Eid) (t : Txid) (s : St).
Implicit Types (C : gmap Eid (X Ents)) (D : Eid → Prop) (K : Kind → Eid → Prop).

(** ** Recycling *)

(** [K] allows all that recycling the log of [t] may delete. *)
Definition allows K v t : Prop :=
  log_ok (contents v Logs) t ∧ (∀ a, K Logs (to_eid a (derive_id t))) ∧
  ∀ a w k key, log (contents v Logs) t a w → recycles w k key → K k key.

Lemma allows_pruned K v v' t : allows K v t → pruned K v v' → allows K v' t.
Proof.
  intros (Hlo & Hk & Hr) Hp. split; [by eapply log_ok_pruned|]. split; [done|].
  intros a w k key Hw. eapply Hr. by eapply log_pruned.
Qed.

Lemma recycle_trans_spec K s t rest :
  WalQueue.done (WalQueueMgr.walq (WalQueueMgr.mgr s)) = t :: rest → allows K (WalQueueMgr.vol s) t →
  spec WalQueueMgr.recycle_trans s
    (λ _ s', WalQueueMgr.mgr s' = WalQueueMgr.mgr s ∧ pruned K (WalQueueMgr.vol s) (WalQueueMgr.vol s'))
    (λ _ s', WalQueueMgr.mgr s' = WalQueueMgr.mgr s ∧ pruned K (WalQueueMgr.vol s) (WalQueueMgr.vol s') ∧
       ¬ steady (WalQueueMgr.vol s))
    (λ s', pruned K (WalQueueMgr.vol s) (WalQueueMgr.vol s') ∧ ¬ steady (WalQueueMgr.vol s)).
Proof.
  destruct s as [g v]. cbn [WalQueueMgr.vol WalQueueMgr.mgr]. intros Hdn (Hlo & HK & Hr).
  unfold WalQueueMgr.recycle_trans. apply spec_bind, spec_ask. cbn [WalQueueMgr.mgr]. rewrite Hdn.
  apply spec_bind, spec_lift_ok, spec_bind, spec_attempt, on_vol_spec. cbn [WalQueueMgr.vol WalQueueMgr.mgr].
  destruct (log_cases _ t Hlo) as [Hab|(w & Hw & _)].
  - eapply spec_mono; [by apply (load_absent Logs)|done| |].
    + intros e v' [Hs He]. destruct (decide (e = NotFound)) as [->|Hne].
      { apply spec_ret. split; [done|by apply pruned_same]. }
      destruct He as [|Hst]; [done|].
      assert (Hf : g = g ∧ pruned K v v' ∧ ¬ steady v) by (split; [done|by split; [apply pruned_same|]]).
      by destruct e; try exact Hf.
    + intros v' [Hs Hst]. split; [by apply pruned_same|done].
  - eapply spec_mono; [by apply (load_stored Logs)| | |].
    + intros w' v1 [-> Hs1]. cbn beta. apply spec_bind, on_vol_spec. cbn [WalQueueMgr.vol WalQueueMgr.mgr].
      assert (HKw : ∀ k key, recycles w k key → K k key).
      { intros k key. eapply Hr. by apply stored_log. }
      assert (Hst1 : ∀ v2, ¬ steady v1 → pruned K v1 v2 → pruned K v v2 ∧ ¬ steady v).
      { intros v2 Hn Hp. split; [|intros Hst; by apply Hn, Hs1].
        eapply pruned_trans; [by apply pruned_same|done]. }
      eapply spec_mono; [apply recycle_spec| | |].
      * intros [] v2 Hp2. eapply pruned_mono in Hp2; [|exact HKw].
        apply on_vol_spec. cbn [WalQueueMgr.vol WalQueueMgr.mgr].
        assert (Hp : pruned K v v2) by (eapply pruned_trans; [by apply pruned_same|done]).
        assert (HKa : ∀ v3, pruned (arms_of Logs (derive_id t)) v2 v3 → pruned K v v3).
        { intros v3 Hp3. eapply pruned_trans; [exact Hp|]. eapply pruned_mono; [exact Hp3|].
          intros k key [-> [a ->]]. apply HK. }
        eapply spec_mono; [apply remove_both_spec| | |].
        -- intros [] v3 [Hp3 _]. by auto.
        -- intros _ v3 [Hp3 Hn]. split; [done|]. split; [by auto|]. intros Hst. by apply Hn, Hp.
        -- intros v3 [Hp3 Hn]. split; [by auto|]. intros Hst. by apply Hn, Hp.
      * intros _ v2 [Hp2 Hn]. eapply pruned_mono in Hp2; [|exact HKw]. split; [done|by auto].
      * intros v2 [Hp2 Hn]. eapply pruned_mono in Hp2; [|exact HKw]. by auto.
    + intros e v' [Hne [Hs Hst]].
      assert (Hf : g = g ∧ pruned K v v' ∧ ¬ steady v) by (split; [done|by split; [apply pruned_same|]]).
      by destruct e; try exact Hf.
    + intros v' [Hs Hst]. split; [by apply pruned_same|done].
Qed.

(** The queue with some of its oldest transactions gone. *)
Definition popped (q q' : WalQueue.WalQueue M) : Prop :=
  ∃ pre rest, WalQueue.done q = pre ++ rest ∧
    q' = WalQueue.set_queues rest (WalQueue.doing q) (WalQueue.aborting q) q.

Lemma recycle_loop_spec K fuel s :
  (length (WalQueue.done (WalQueueMgr.walq (WalQueueMgr.mgr s))) ≤ fuel)%nat →
  (∀ t, t ∈ WalQueue.done (WalQueueMgr.walq (WalQueueMgr.mgr s)) → allows K (WalQueueMgr.vol s) t) →
  spec (WalQueueMgr.recycle_loop fuel) s
    (λ _ s', popped (WalQueueMgr.walq (WalQueueMgr.mgr s)) (WalQueueMgr.walq (WalQueueMgr.mgr s')) ∧
       mgr_kept s s' ∧ pruned K (WalQueueMgr.vol s) (WalQueueMgr.vol s'))
    (λ _ s', mgr_kept s s' ∧ pruned K (WalQueueMgr.vol s) (WalQueueMgr.vol s') ∧
       ¬ steady (WalQueueMgr.vol s))
    (λ s', pruned K (WalQueueMgr.vol s) (WalQueueMgr.vol s') ∧ ¬ steady (WalQueueMgr.vol s)).
Proof.
  revert s. induction fuel as [|fuel IH]; intros [[tw q bk] v];
    cbn [WalQueueMgr.vol WalQueueMgr.mgr WalQueueMgr.walq]; intros Hf Hall; cbn [WalQueueMgr.recycle_loop];
    apply spec_bind, spec_ask; cbn [WalQueueMgr.vol WalQueueMgr.mgr WalQueueMgr.walq].
  { destruct (WalQueue.done q) as [|t l] eqn:Hdn; [|simpl in Hf; lia]. simpl.
    apply spec_ret. split; [|split; [done|by apply pruned_same]].
    exists [], []. split; [done|]. simpl. by rewrite <- Hdn; destruct q. }
  destruct (WalQueue.COMMITTED_QUEUE_SIZE <=? zlen (WalQueue.done q)) eqn:Hz; cycle 1.
  { apply spec_ret. split; [|split; [done|by apply pruned_same]].
    exists [], (WalQueue.done q). split; [done|]. by destruct q. }
  destruct (WalQueue.done q) as [|t rest] eqn:Hdn; [done|].
  apply spec_bind. eapply spec_mono.
  - apply (recycle_trans_spec K _ t rest); [done|]. apply Hall. left.
  - cbn [WalQueueMgr.vol WalQueueMgr.mgr]. intros [] [g1 v1] [Hg Hp].
    cbn [WalQueueMgr.vol WalQueueMgr.mgr] in Hg, Hp. subst g1.
    apply spec_bind, spec_bind, spec_ask, spec_modify.
    cbn [WalQueueMgr.vol WalQueueMgr.mgr WalQueueMgr.walq WalQueueMgr.txid_wmark WalQueueMgr.walq_backup].
    assert (Hst : ¬ steady v1 → ¬ steady v) by (intros Hn Hs; by apply Hn, Hp).
    eapply spec_mono; [apply IH| | |]; cbn [WalQueueMgr.vol WalQueueMgr.mgr WalQueueMgr.walq WalQueue.done WalQueue.pop_front WalQueue.set_queues].
    + rewrite Hdn. simpl in Hf |- *. lia.
    + intros t' Ht'. rewrite Hdn in Ht'. eapply allows_pruned; [apply Hall; by right|done].
    + intros [] s' ((pre & rest' & Hpr & ->) & Hk & Hp'). split; [|split; [done|by eapply pruned_trans]].
      exists (t :: pre), rest'. simpl in Hpr. rewrite Hdn in Hpr. simpl in Hpr.
      split; [by rewrite Hdn, Hpr|done].
    + intros e s' (Hk & Hp' & Hn). split; [done|]. split; [by eapply pruned_trans|by auto].
    + intros s' (Hp' & Hn). split; [by eapply pruned_trans|by auto].
  - cbn [WalQueueMgr.vol WalQueueMgr.mgr]. intros e [g1 v1] (Hg & Hp & Hn).
    cbn [WalQueueMgr.vol WalQueueMgr.mgr] in Hg. subst g1. by split.
  - done.
Qed.

(** The loop ends with a queue that is short enough. *)
Lemma recycle_loop_short fuel s s' :
  WalQueueMgr.recycle_loop fuel s = (Some (Ok ()), s') →
  zlen (WalQueue.done (WalQueueMgr.walq (WalQueueMgr.mgr s'))) < WalQueue.COMMITTED_QUEUE_SIZE.
Proof.
  revert s. induction fuel as [|fuel IH]; intros s; cbn [WalQueueMgr.recycle_loop];
    unfold mbind, run_bind, WalQueueMgr.the_walq, ask;
    destruct (WalQueue.COMMITTED_QUEUE_SIZE <=? _) eqn:Hz; try done.
  1,3: intros [= <-]; lia.
  destruct (WalQueueMgr.recycle_trans s) as [[[[]|e|]|] s1]; try done. apply IH.
Qed.

(** ** Committing *)

Lemma logs_ok_shrink v q q' C D :
  logs_ok v q C D → WalQueue.doing q' = WalQueue.doing q →
  (∀ t, t ∈ WalQueue.done q' → t ∈ WalQueue.done q) →
  WalQueue.txid_wmark q ≤ WalQueue.txid_wmark q' → logs_ok v q' C D.
Proof.
  intros [] Hg Hd Hw. unfold covered in *. split; unfold covered; rewrite ?Hg; eauto; [lia|..].
  - intros t Ht. apply lo_wmark. lia.
  - intros t Ht. transitivity (WalQueue.txid_wmark q); [|done]. apply lo_known.
    destruct Ht; auto.
Qed.

(** What a commit may delete: what the logs of the transactions done name, and these logs. *)
Definition retired q C C' k key : Prop :=
  (spare walq_id C k key ∧ spare walq_id C' k key) ∨
  (k = Logs ∧ ∃ a t, t ∈ WalQueue.done q ∧ key = to_eid a (derive_id t)).

Lemma retired_log q C C' a t : retired q C C' Logs (to_eid a (derive_id t)) → t ∈ WalQueue.done q.
Proof.
  intros [[Hs _]|(_ & b & t' & Ht & Heq)].
  - exfalso. apply (Hs a (derive_id t)); [right; by eexists|done].
  - by destruct (log_key _ _ _ _ Heq) as [_ ->].
Qed.
Lemma retired_walq q C C' a : ¬ retired q C C' Logs (to_eid a walq_id).
Proof.
  intros [[Hs _]|(_ & b & t' & Ht & Heq)].
  - apply (Hs a walq_id); [by left|done].
  - by apply (walq_key walq_id) in Heq.
Qed.
Lemma logs_ok_retired v v' q q0 C D C1 C2 :
  logs_ok v q C D → pruned (retired q0 C1 C2) v v' → C = C1 ∨ C = C2 →
  (∀ t, t ∈ WalQueue.done q0 → t ∉ WalQueue.doing q) → logs_ok v' q C D.
Proof.
  intros Hl Hp HC Hap. eapply (logs_ok_pruned walq_id); [exact Hl|exact Hp| |].
  - intros key [[Hs1 Hs2]|[? _]]; [|done]. by destruct HC as [->| ->].
  - intros key (t & w & Ht & Hw & Hc)%(lo_dirty _ _ _ _ _ Hl). exists t, w.
    split_and!; try done. intros a Hr%retired_log. by apply (Hap t).
Qed.

Lemma commit_trans_spec s q w C D C' D' :
  inv (WalQueueMgr.vol s) q C D → mem_of walq_id (WalQueueMgr.mgr s) q →
  Wal.txid w ∈ WalQueue.doing q →
  logs_ok (WalQueueMgr.vol s) (WalQueue.enqueue (Wal.txid w) q) C' D' →
  spec (WalQueueMgr.commit_trans w) s
    (λ _ s', live s' C' D' ∧
       (∃ v1, pruned (retired q C C') (WalQueueMgr.vol s) v1 ∧ saved_only v1 (WalQueueMgr.vol s')) ∧
       WalQueue.doing (WalQueueMgr.walq (WalQueueMgr.mgr s'))
         = WalQueue.doing (WalQueueMgr.walq (WalQueueMgr.mgr s)) ∖ {[Wal.txid w]} ∧
       WalQueue.aborting (WalQueueMgr.walq (WalQueueMgr.mgr s'))
         = WalQueue.aborting (WalQueueMgr.walq (WalQueueMgr.mgr s)) ∧
       (∀ t, t ∈ WalQueue.done (WalQueueMgr.walq (WalQueueMgr.mgr s')) →
          t = Wal.txid w ∨ t ∈ WalQueue.done q) ∧
       WalQueueMgr.txid_wmark (WalQueueMgr.mgr s') = WalQueueMgr.txid_wmark (WalQueueMgr.mgr s))
    (λ _, kept_queue walq_id (retired q C C') s q C D) (stopped walq_id (retired q C C') s C D C' D').
Proof.
  intros Hi Hm Ht Hl'. pose proof Hi as [Hq Hl]. pose proof Hm as (Hid & Harm & Hseq & Hdn & Hdo & Hwm).
  destruct s as [g v]. cbn [WalQueueMgr.vol WalQueueMgr.mgr] in *.
  unfold WalQueueMgr.commit_trans. apply spec_bind, spec_modify, or_restore_spec.
  unfold WalQueueMgr.walq_commit_trans. apply spec_bind, spec_bind, spec_ask.
  cbn [WalQueueMgr.vol WalQueueMgr.mgr WalQueueMgr.walq WalQueueMgr.txid_wmark].
  assert (Hwalq : ∀ v1, pruned (retired q C C') v v1 → inv v1 q C D).
  { intros v1 Hp. split.
    - eapply stored_pruned; [exact Hp|intros a; apply retired_walq|exact Hq].
    - eapply logs_ok_retired; [exact Hl|exact Hp|by left|apply Hl]. }
  apply spec_bind. eapply spec_mono.
  - apply (recycle_loop_spec (retired q C C')); [done|].
    cbn [WalQueueMgr.vol WalQueueMgr.mgr WalQueueMgr.walq]. rewrite Hdn. intros t Htd.
    split; [apply Hl|]. split; [intros a; right; split; [done|by exists a, t]|].
    intros a w' k key Hw Hr. left. split; [by eapply (lo_done _ _ _ _ _ Hl)|].
    eapply (lo_done _ _ _ _ _ Hl'); [|exact Hw|exact Hr]. simpl. apply elem_of_app. by left.
  - intros [] [g1 v1] ((pre & rest & Hpr & Hq1) & [Htw Hbk] & Hp).
    cbn [WalQueueMgr.vol WalQueueMgr.mgr WalQueueMgr.walq WalQueueMgr.txid_wmark WalQueueMgr.walq_backup] in *.
    apply spec_bind, spec_ask, spec_modify. cbn [WalQueueMgr.vol WalQueueMgr.mgr WalQueueMgr.walq].
    rewrite Htw, Hbk, Hq1. eapply spec_mono.
    + apply (save_changed_spec walq_id (WalQueueMgr.mkSt g v) _ v1 q C D C' D' (retired q C C'));
        cbn [WalQueueMgr.vol WalQueueMgr.mgr]; [by apply Hwalq|done|done|done|done|done|].
      intros b. eapply (logs_ok_shrink _ (WalQueue.enqueue (Wal.txid w) q)).
      * eapply logs_ok_retired; [exact Hl'|exact Hp|by right|]. intros t' Ht' Hg. simpl in Hg.
        apply elem_of_difference in Hg as [Hg _]. by eapply (lo_apart _ _ _ _ _ Hl).
      * simpl. by rewrite Hdo.
      * intros t'. simpl. rewrite !elem_of_app, <- Hdn, Hpr, elem_of_app. intros [|]; auto.
      * simpl. done.
    + cbn [WalQueueMgr.vol WalQueueMgr.mgr]. intros [] s' (Hl2 & (Hd2 & Hg2 & Ha2) & Htw2 & Hso).
      split; [done|]. split; [by exists v1|]. split_and!; [by rewrite Hg2|by rewrite Ha2| |done].
      intros t' Ht'. rewrite Hd2 in Ht'. simpl in Ht'.
      apply elem_of_app in Ht' as [Ht'| ->%list_elem_of_singleton]; [right|by left].
      rewrite <- Hdn, Hpr. apply elem_of_app. by right.
    + done.
    + done.
  - cbn [WalQueueMgr.vol WalQueueMgr.mgr]. intros e [g1 v1] ([Htw Hbk] & Hp & Hn).
    cbn [WalQueueMgr.vol WalQueueMgr.mgr WalQueueMgr.walq WalQueueMgr.txid_wmark WalQueueMgr.walq_backup] in *.
    exists (WalQueueMgr.walq g). split; [done|]. rewrite Htw.
    split; [by apply Hwalq|]. split; [done|]. by split.
  - cbn [WalQueueMgr.vol WalQueueMgr.mgr]. intros s' (Hp & Hn).
    split; [left; exists q; by apply Hwalq|]. split; [by eexists|by left].
Qed.

(** ** Aborting *)

Lemma end_abort_spec s q t C D :
  inv (WalQueueMgr.vol s) q C D → mem_of walq_id (WalQueueMgr.mgr s) q →
  (∀ key, D key → ∃ t' w, t' ≠ t ∧ t' ∈ WalQueue.doing q ∧
     stored Logs (contents (WalQueueMgr.vol s) Logs) (derive_id t') w ∧ cleans w key) →
  spec (WalQueueMgr.end_abort t) s
    (λ _ s', live s' C D ∧ saved_only (WalQueueMgr.vol s) (WalQueueMgr.vol s') ∧
       queues (WalQueue.end_abort t (WalQueueMgr.walq (WalQueueMgr.mgr s)))
         (WalQueueMgr.walq (WalQueueMgr.mgr s')) ∧
       WalQueueMgr.txid_wmark (WalQueueMgr.mgr s') = WalQueueMgr.txid_wmark (WalQueueMgr.mgr s))
    (λ _, kept_queue walq_id nothing s q C D) (stopped walq_id nothing s C D C D).
Proof.
  intros Hi Hm Hcov. pose proof Hi as [Hq Hl]. pose proof Hm as (Hid & Harm & Hseq & Hdn & Hdo & Hwm).
  destruct s as [g v]. cbn [WalQueueMgr.vol WalQueueMgr.mgr] in *.
  unfold WalQueueMgr.end_abort. apply spec_bind, spec_modify, spec_bind, spec_bind, spec_ask, spec_modify.
  cbn [WalQueueMgr.vol WalQueueMgr.mgr WalQueueMgr.walq WalQueueMgr.txid_wmark WalQueueMgr.walq_backup].
  apply or_restore_spec. eapply spec_mono.
  - apply (save_changed_spec walq_id (WalQueueMgr.mkSt g v) _ v q C D C D nothing Hi Hm);
      cbn [WalQueueMgr.vol WalQueueMgr.mgr]; [by apply pruned_same|done|done|done|].
    intros b. destruct Hl. split; simpl; rewrite ?Hdn, ?Hdo; eauto; [lia|..].
    + intros t' Ht'. apply lo_wmark. lia.
    + intros t' a w key [Ht' _]%elem_of_difference. eauto.
    + intros t' Ht' [Hin _]%elem_of_difference. by eapply lo_apart.
    + intros t' Ht'. transitivity (WalQueue.txid_wmark q); [|done]. apply lo_known.
      destruct Ht' as [|[? _]%elem_of_difference]; auto.
    + intros key (t' & w & Hne & Ht' & Hw)%Hcov. exists t', w. split; [|done].
      cbn [WalQueue.doing WalQueue.set_watermarks WalQueue.end_abort WalQueue.set_queues].
      apply elem_of_difference. split; [by rewrite Hdo|]. by intros ?%elem_of_singleton.
  - cbn [WalQueueMgr.vol WalQueueMgr.mgr]. intros [] s' (Hl' & Hqs & Htw' & Hso). done.
  - done.
  - done.
Qed.
End mgr.
