(* ===== verification/Cow.v ===== *)
(** * src/trans/cow.rs: entities that are changed by copying.

    A Cow keeps the committed value in one arm and, inside a transaction, the new value in the
    other. This file has the entity itself and what it does when its transaction ends. *)
From S2P Require Import Prelude Run Base Segment Armor Wal.
Import Arm.

(** The trait [Cowable]: the notification may drop cached references, so the value stays the
    same up to what is not serialised. *)
Class Cowable (T : Type) := on_commit : T → res T.
#[export] Hint Mode Cowable ! : typeclass_instances.
Class CowableLaws (T : Type) `{!Cowable T} := {
  tidy : T → T;
  on_commit_ok x : on_commit x = Ok (tidy x)
}.

Module Cow.
Section cow.
Context {T : Type}.

Record Cow := mkCow {
  id : Eid; seq : Z; arm : Arm; left : option T; right : option T;
  txid : option Txid; action : option Action
}.

#[export] Instance cow_arm_access : ArmAccess Cow := {|
  item_id := id; item_seq := seq; item_arm := arm;
  set_item s a c := mkCow (id c) s a (left c) (right c) (txid c) (action c)
|}.

Definition get_by (a : Arm) (c : Cow) : option T := match a with Left => left c | Right => right c end.
Definition set_by (a : Arm) (o : option T) (c : Cow) : Cow :=
  match a with
  | Left => mkCow (id c) (seq c) (arm c) o (right c) (txid c) (action c)
  | Right => mkCow (id c) (seq c) (arm c) (left c) o (txid c) (action c)
  end.
Definition set_trans (t : option Txid) (a : option Action) (c : Cow) : Cow :=
  mkCow (id c) (seq c) (arm c) (left c) (right c) t a.

Definition new (i : Eid) (inner : T) : Cow :=
  let a := other Arm.default in set_by a (Some inner) (mkCow i 0 a None None None None).

Definition in_trans (c : Cow) : bool := match txid c with Some _ => true | None => false end.
Definition has_other (c : Cow) : bool := match get_by (other (arm c)) c with Some _ => true | None => false end.
Definition curr (c : Cow) : option T := get_by (arm c) c.
Definition set_curr (o : option T) (c : Cow) : Cow := set_by (arm c) o c.
Definition set_other (o : option T) (c : Cow) : Cow := set_by (other (arm c)) o c.

(** An empty arm panics. *)
Definition inner_by (c : Cow) (a : Arm) : res T := unwrap (get_by a c).
Definition inner (c : Cow) : res T := inner_by c (arm c).
Definition other_inner (c : Cow) : res T := inner_by c (other (arm c)).

(** [Deref]: what a thread whose transaction is [cur] reads. *)
Definition deref (cur : Txid) (c : Cow) : res T :=
  if bool_decide (txid c = None) || negb (bool_decide (txid c = Some cur)) || bool_decide (action c = Some New)
  then inner c else other_inner c.

Context `{!Cowable T} `{!ArmHash} {V : Type} {X : Kind → Type} `{!Volume V X, !Serde (X Ents) Cow}.

(** The outcome and the entity, which is changed even when its commit fails. *)
Definition commit (c : Cow) : run V (Cow * res unit) :=
  match action c with
  | None => lift Panic
  | Some New =>
      x ← lift (inner c);
      match on_commit x with
      | Ok x =>
          '(c, r) ← Armor.save_item Ents (Armor.toggle (set_curr (Some x) c));
          match r with Ok _ => mret (c, Ok ()) | _ => mret (Armor.toggle c, r) end
      | Err e => mret (c, Err e)
      | Panic => lift Panic
      end
  | Some Update =>
      x ← lift (other_inner c);
      match on_commit x with
      | Ok x =>
          let c := set_other (Some x) c in
          let old := curr c in
          '(c, r) ← Armor.save_item Ents (set_curr None c);
          let c := match r with Ok _ => Armor.toggle c | _ => c end in
          mret (set_curr old c, r)
      | Err e => mret (c, Err e)
      | Panic => lift Panic
      end
  | Some Delete =>
      x ← lift (inner c);
      match on_commit x with
      | Ok x => mret (set_curr (Some x) c, Ok ())
      | Err e => mret (c, Err e)
      | Panic => lift Panic
      end
  end.

Definition complete_commit (c : Cow) : res Cow :=
  match action c with
  | Some Update => Ok (set_trans None None (set_other None (Armor.toggle c)))
  | Some _ => Ok (set_trans None None c)
  | None => Panic
  end.

Definition abort (c : Cow) : res Cow :=
  match action c with
  | Some Update => Ok (set_trans None None (set_other None c))
  | Some _ => Ok (set_trans None None c)
  | None => Panic
  end.
End cow.
Arguments Cow : clear implicits.
End Cow.
Export (hints) Cow.

(** ** What committing one entity does *)

(** The transaction of an entity is not serialised. *)
Class CowSerde (T : Type) (X : Kind → Type) `{!Serde (X Ents) (Cow.Cow T)} : Prop :=
  cow_form (c : Cow.Cow T) : stored_form (X:=X Ents) c = Cow.set_trans None None c.

Section commit.
Context `{!ArmHash, !ArmHashLaws} {T V : Type} {X : Kind → Type} `{!Volume V X, !VolumeLaws V X}.
Context `{!Cowable T, !CowableLaws T, !Serde (X Ents) (Cow.Cow T), !SerdeLaws (X Ents) (Cow.Cow T)}.
Context `{!CowSerde T X}.
Implicit Types (c : Cow.Cow T) (v : V).
Import Cow.

#[local] Instance cow_arm_laws : ArmAccessLaws (X Ents) (Cow T).
Proof. split; [intros i; by rewrite cow_form|done|by intros []|done]. Qed.

(** The entity as its commit stores it. *)
Definition staged c : option (Cow T) :=
  match action c with
  | Some New =>
      x ← curr c;
      Some (set_trans None None (next_item (Armor.toggle (set_curr (Some (tidy x)) c))))
  | Some Update =>
      x ← get_by (other (arm c)) c;
      Some (set_trans None None (next_item (set_curr None (set_other (Some (tidy x)) c))))
  | _ => None
  end.

(** The arm a commit of the entity writes. *)
Definition target c : Arm := if decide (action c = Some New) then arm c else other (arm c).

Lemma staged_fields c i :
  staged c = Some i → id i = id c ∧ seq i = seq c + 1 ∧ arm i = target c ∧ txid i = None ∧ action i = None.
Proof.
  unfold staged, target. destruct (action c) as [[]|]; try done.
  - destruct (curr c); [|done]. intros [= <-]. simpl. rewrite other_other.
    by destruct c as [? ? [] ? ? ? ?].
  - destruct (get_by _ c); [|done]. intros [= <-]. simpl. by destruct c as [? ? [] ? ? ? ?].
Qed.

(** The staged value: the one in the arm written. *)
Lemma staged_value c i :
  staged c = Some i → curr i = tidy <$> get_by (target c) c.
Proof.
  unfold staged, target, curr. destruct (action c) as [[]|] eqn:Ha; try done.
  - rewrite decide_True by done. destruct (get_by (arm c) c) eqn:Hg; [|done]. intros [= <-].
    destruct c as [? ? [] ? ? ? ?]; done.
  - rewrite decide_False by done. destruct (get_by (other (arm c)) c) eqn:Hg; [|done]. intros [= <-].
    destruct c as [? ? [] ? ? ? ?]; done.
Qed.

(** The entity in memory between its commit and the end of the transaction: the value it had
    is still there, and so is its arm. *)
Definition pending c c' : Prop :=
  id c' = id c ∧ arm c' = arm c ∧ seq c ≤ seq c' ∧ txid c' = txid c ∧ action c' = action c ∧
  match action c with
  | Some Update => curr c' = curr c
  | _ => curr c' = curr c ∨ curr c' = tidy <$> curr c
  end.

Lemma pending_refl c : pending c c.
Proof. unfold pending. destruct (action c) as [[]|]; by auto 10 with lia. Qed.

Lemma cow_commit_spec c v :
  is_Some (action c) → is_Some (curr c) → (action c = Some Update → has_other c = true) →
  spec (commit c) v
    (λ r v', pending c r.1 ∧
       match r.2 with
       | Ok _ => match staged c with
                 | Some i => ∃ x, decode x = Some i ∧
                     changed Ents (<[to_eid (target c) (id c) := x]> (contents v Ents)) v v' ∧
                     seq r.1 = seq i ∧
                     (action c = Some Update → get_by (target c) r.1 = curr i) ∧
                     (action c = Some New → curr r.1 = curr i)
                 | None => same v v'
                 end
       | Err _ => failed v v'
       | Panic => False
       end)
    (λ _ _, False)
    (λ v', (same v v' ∨ ∃ i x, staged c = Some i ∧ decode x = Some i ∧
         changed Ents (<[to_eid (target c) (id c) := x]> (contents v Ents)) v v') ∧
       (¬ steady v ∨ U64 ≤ seq c + 1)).
Proof.
  intros [a Ha] [x Hx] Hoth. unfold commit, staged, target, pending. rewrite Ha.
  destruct a; cbn match.
  - (* New *)
    unfold inner, inner_by. unfold curr in Hx. rewrite Hx. apply spec_bind, spec_lift_ok.
    rewrite on_commit_ok. apply spec_bind. unfold curr. rewrite Hx. cbn [mbind option_bind].
    set (c1 := Armor.toggle (set_curr (Some (tidy x)) c)).
    assert (H1 : id c1 = id c ∧ seq c1 = seq c ∧ arm c1 = other (arm c)) by by destruct c as [? ? [] ? ? ? ?].
    destruct H1 as (Hid1 & Hseq1 & Harm1).
    eapply spec_mono; [apply (save_spec Ents)| |done|].
    + intros [c2 [[]|e|]] v' Hr; cbn [fst snd] in Hr; [|destruct Hr as [-> Hf]|done]; apply spec_ret; cbn [fst snd].
      * destruct Hr as [-> Hch]. rewrite decide_True by done.
        change (item_arm c1) with (arm c1) in Hch. change (item_id c1) with (id c1) in Hch.
        rewrite Hid1, Harm1, other_other in Hch.
        split; [subst c1; destruct c as [? ? [] ? ? ? ?]; simpl in *; subst; simpl; split_and!; auto with lia|].
        exists (encode (next_item c1)). rewrite decode_encode, cow_form. split; [done|].
        split; [done|]. split; [done|]. split; [done|]. intros _.
        subst c1. by destruct c as [? ? [] ? ? ? ?].
      * subst c1. destruct c as [? ? [] ? ? ? ?]; simpl in *; subst; simpl; split_and!; auto with lia; apply Hf.
    + intros v' [Hs Hn]. split; [|change (item_seq c1) with (seq c1) in Hn; by rewrite Hseq1 in Hn].
      destruct Hs as [|Hch]; [by left|right]. change (item_arm c1) with (arm c1) in Hch.
      change (item_id c1) with (id c1) in Hch. rewrite Hid1, Harm1, ?other_other in Hch.
      eexists _, _. split; [done|]. split; [by rewrite decode_encode, cow_form|].
      by rewrite ?decide_True, ?decide_False by done.
  - (* Update *)
    specialize (Hoth Ha). unfold has_other in Hoth. unfold other_inner, inner_by.
    destruct (get_by (other (arm c)) c) as [y|] eqn:Hy; [|done]. apply spec_bind, spec_lift_ok.
    rewrite on_commit_ok. cbn zeta. apply spec_bind. cbn [mbind option_bind].
    set (c1 := set_curr None (set_other (Some (tidy y)) c)).
    assert (H1 : id c1 = id c ∧ seq c1 = seq c ∧ arm c1 = arm c) by by destruct c as [? ? [] ? ? ? ?].
    destruct H1 as (Hid1 & Hseq1 & Harm1).
    eapply spec_mono; [apply (save_spec Ents)| |done|].
    + intros [c2 [[]|e|]] v' Hr; cbn [fst snd] in Hr; [|destruct Hr as [-> Hf]|done]; apply spec_ret; cbn [fst snd].
      * destruct Hr as [-> Hch]. rewrite decide_False by done.
        change (item_arm c1) with (arm c1) in Hch. change (item_id c1) with (id c1) in Hch.
        rewrite Hid1, Harm1 in Hch.
        split; [subst c1; destruct c as [? ? [] ? ? ? ?]; simpl in *; subst; simpl; split_and!; auto with lia|].
        exists (encode (next_item c1)). rewrite decode_encode, cow_form. split; [done|].
        split; [done|]. subst c1. by destruct c as [? ? [] ? ? ? ?].
      * subst c1. destruct c as [? ? [] ? ? ? ?]; simpl in *; subst; simpl; split_and!; auto with lia; apply Hf.
    + intros v' [Hs Hn]. split; [|change (item_seq c1) with (seq c1) in Hn; by rewrite Hseq1 in Hn].
      destruct Hs as [|Hch]; [by left|right]. change (item_arm c1) with (arm c1) in Hch.
      change (item_id c1) with (id c1) in Hch. rewrite Hid1, Harm1, ?other_other in Hch.
      eexists _, _. split; [done|]. split; [by rewrite decode_encode, cow_form|].
      by rewrite ?decide_True, ?decide_False by done.
  - (* Delete *)
    unfold inner, inner_by. unfold curr in Hx. rewrite Hx. apply spec_bind, spec_lift_ok.
    rewrite on_commit_ok. apply spec_ret. cbn [fst snd]. split; [|done]. unfold curr.
    destruct c as [? ? [] ? ? ? ?]; simpl in *; subst; simpl; split_and!; auto with lia.
Qed.
End commit.
