(* ===== verification/Trans.v ===== *)
(** * src/trans/trans.rs and [Transable] of src/content/segment.rs: a transaction.

    A transaction keeps references to the entities it touches, its cohorts, and their log. *)
From S2P Require Import Prelude Run Base Segment Armor Wal Cow.
Import Arm.

(** Where an entity shared by references lives. *)
Abbreviation Loc := nat.

(** The stub that stands for segment data in a transaction. *)
Module SegStub.
Record SegStub := mkStub { id : Eid; action : option Action }.
Definition new (i : Eid) (a : Action) : SegStub := mkStub i (Some a).
Definition commit (d : SegStub) : res unit :=
  match action d with Some Update | None => Panic | Some _ => Ok () end.
Definition clear (d : SegStub) : SegStub := mkStub (id d) None.
End SegStub.

(** ** Entities: the trait [Transable] and its implementations *)

Module Entity.
Section entity.
Context {T : Type} `{!Cowable T} `{!ArmHash} {V : Type} {X : Kind → Type}.
Context `{!Volume V X, !Serde (X Ents) (Cow.Cow T)}.

Inductive Entity := ECow (c : Cow.Cow T) | EData (d : SegStub.SegStub).

Definition id (e : Entity) : Eid := match e with ECow c => Cow.id c | EData d => SegStub.id d end.
Definition action (e : Entity) : res Action :=
  unwrap match e with ECow c => Cow.action c | EData d => SegStub.action d end.
Definition commit (e : Entity) : run V (Entity * res unit) :=
  match e with
  | ECow c => '(c, r) ← Cow.commit c; mret (ECow c, r)
  | EData d => _ ← lift (SegStub.commit d); mret (EData d, Ok ())
  end.
Definition complete_commit (e : Entity) : res Entity :=
  match e with ECow c => ECow <$> Cow.complete_commit c | EData d => Ok (EData (SegStub.clear d)) end.
Definition abort (e : Entity) : res Entity :=
  match e with ECow c => ECow <$> Cow.abort c | EData d => Ok (EData (SegStub.clear d)) end.
End entity.
Arguments Entity : clear implicits.
End Entity.
Import Entity.

(** ** The transaction *)

Module Trans.
Record Trans (M N : Type) := mkTrans {
  txid : Txid; cohorts : N; wal : Wal.Wal M; wal_saved : bool
}.
Arguments mkTrans {M N}. Arguments txid {M N}. Arguments cohorts {M N}. Arguments wal {M N}.
Arguments wal_saved {M N}.

(** A transaction with the entities and the volume. [uses] are the counts that the calls of
    [Arc::strong_count] will give, which other threads decide. *)
Record St (T V M N : Type) := mkSt {
  tr : Trans M N; heap : gmap Loc (Entity T); uses : list Z; vol : V
}.
Arguments mkSt {T V M N}. Arguments tr {T V M N}. Arguments heap {T V M N}.
Arguments uses {T V M N}. Arguments vol {T V M N}.

Section trans.
Context `{!ArmHash, !TxidHash} {T V M N : Type} {X : Kind → Type} `{!Cowable T}.
Context `{!Volume V X, !LinkedMapOps Eid Wal.Entry M, !LinkedMapOps Eid Loc N}.
Context `{!Serde (X Logs) (Wal.Wal M), !Serde (X Ents) (Cow.Cow T)}.
Abbreviation act := (run (St T V M N)).

Definition new (t : Txid) : Trans M N := mkTrans t lm_new (Wal.new t) false.

Definition on_vol {A} (m : run V A) : act A :=
  zoom vol (λ v s, mkSt (tr s) (heap s) (uses s) v) m.
Definition set_tr (f : Trans M N → Trans M N) : act unit :=
  modify (λ s, mkSt (f (tr s)) (heap s) (uses s) (vol s)).
Definition set_wal (w : Wal.Wal M) : act unit :=
  set_tr (λ x, mkTrans (txid x) (cohorts x) w (wal_saved x)).
Definition set_saved (b : bool) : act unit :=
  set_tr (λ x, mkTrans (txid x) (cohorts x) (wal x) b).
Definition set_cohorts (n : N) : act unit :=
  set_tr (λ x, mkTrans (txid x) n (wal x) (wal_saved x)).
Definition the_wal : act (Wal.Wal M) := ask (λ s, wal (tr s)).
Definition the_cohorts : act (list (Eid * Loc)) := ask (λ s, lm_entries (cohorts (tr s))).

(** The entity behind a reference; a reference keeps it alive. *)
Definition entity (l : Loc) : act (Entity T) :=
  o ← ask (λ s, heap s !! l); lift (unwrap o).
Definition set_entity (l : Loc) (e : Entity T) : act unit :=
  modify (λ s, mkSt (tr s) (<[l := e]> (heap s)) (uses s) (vol s)).
Definition strong_count : act Z :=
  n ← ask (λ s, hd 1 (uses s)); _ ← modify (λ s, mkSt (tr s) (heap s) (tail (uses s)) (vol s)); mret n.

Definition save_wal : act unit :=
  w ← the_wal; '(w, r) ← on_vol (Armor.save_item Logs w); _ ← set_wal w; lift r.

Definition begin_trans : act unit := save_wal.

Definition add_entity (id : Eid) (l : Loc) (a : Action) (ty : EntityType.EntityType) (ar : Arm) : act unit :=
  w ← the_wal; _ ← set_wal (Wal.add_entry w id a ty ar);
  _ ← set_saved false;
  _ ← (if decide (ty = EntityType.Direct) then
         _ ← or_else save_wal (λ e, w ← the_wal; _ ← set_wal (Wal.remove_entry w id); fail e);
         set_saved true
       else mret ());
  n ← ask (λ s, cohorts (tr s));
  set_cohorts (lm_or_insert id l n).

(** Commits the cohorts in order and gives those deleted that are in use. *)
Fixpoint commit_loop (ls : list (Eid * Loc)) (in_use : list Eid) : act (list Eid) :=
  match ls with
  | [] => mret in_use
  | (_, l) :: ls =>
      e ← entity l;
      a ← lift (action e);
      in_use ← (if decide (a = Delete) then
                  n ← strong_count; mret (if 1 <? n then in_use ++ [id e] else in_use)
                else mret in_use);
      '(e, r) ← on_vol (commit e);
      _ ← set_entity l e;
      _ ← lift r;
      commit_loop ls in_use
  end.

Definition check_unused (i : Eid) : act unit :=
  n ← ask (λ s, cohorts (tr s));
  _ ← lift (unwrap (lm_get i n));
  n ← strong_count;
  if 1 <? n then fail InUse else mret ().

Definition commit : act (Wal.Wal M) :=
  saved ← ask (λ s, wal_saved (tr s));
  _ ← (if saved : bool then mret () else _ ← save_wal; set_saved true);
  ls ← the_cohorts;
  in_use ← commit_loop ls [];
  _ ← for_each check_unused in_use;
  the_wal.

Definition complete_commit : act unit :=
  ls ← the_cohorts;
  _ ← for_each (λ il, e ← entity il.2; e ← lift (complete_commit e); set_entity il.2 e) ls;
  set_cohorts lm_new.

Definition abort : act unit :=
  ls ← the_cohorts;
  _ ← for_each (λ il, e ← entity il.2; e ← lift (abort e); set_entity il.2 e) ls;
  _ ← set_cohorts lm_new;
  w ← the_wal;
  _ ← on_vol (Wal.clean_aborted w);
  on_vol (Armor.remove_all_arms Logs (Wal.id w)).
End trans.
End Trans.
