(* ===== verification/TxMgr.v ===== *)
(** * src/trans/txmgr.rs, with the calls of src/trans/cow.rs, txid.rs and segment.rs that go
    through it.

    The world is the memory and the volume that threads share: the transactions under way,
    the entities and the queue of the logs. A thread is known by a number. *)
From S2P Require Import Prelude Run Base Segment Armor Wal Cow Trans.
Import Arm Entity.

Abbreviation Thread := nat.

Module TxMgr.
(** The transaction list is kept by txid: its order is never looked at. *)
Record World (T V M N : Type) := mkWorld {
  txs : gmap Txid (Trans.Trans M N); ents : gmap Eid Txid; walq_mgr : WalQueueMgr.WalQueueMgr M;
  vol : V; heap : gmap Loc (Entity T); uses : list Z; thread_txid : gmap Thread Txid
}.
Arguments mkWorld {T V M N}. Arguments txs {T V M N}. Arguments ents {T V M N}.
Arguments walq_mgr {T V M N}. Arguments vol {T V M N}. Arguments heap {T V M N}.
Arguments uses {T V M N}. Arguments thread_txid {T V M N}.

Section txmgr.
Context `{!ArmHash, !TxidHash, !HashOrder} {T V M N : Type} {X : Kind → Type} `{!Cowable T}.
Context `{!Volume V X, !LinkedMapOps Eid Wal.Entry M, !LinkedMapOps Eid Loc N}.
Context `{!Serde (X Logs) (Wal.Wal M), !Serde (X Logs) (WalQueue.WalQueue M), !Serde (X Ents) (Cow.Cow T)}.
Abbreviation World := (World T V M N).
Abbreviation act := (run World).
Implicit Types (w : World) (th : Thread).

Definition set_txs (f : gmap Txid (Trans.Trans M N) → gmap Txid (Trans.Trans M N)) : act unit :=
  modify (λ w, mkWorld (f (txs w)) (ents w) (walq_mgr w) (vol w) (heap w) (uses w) (thread_txid w)).
Definition set_ents (f : gmap Eid Txid → gmap Eid Txid) : act unit :=
  modify (λ w, mkWorld (txs w) (f (ents w)) (walq_mgr w) (vol w) (heap w) (uses w) (thread_txid w)).
Definition set_heap (f : gmap Loc (Entity T) → gmap Loc (Entity T)) : act unit :=
  modify (λ w, mkWorld (txs w) (ents w) (walq_mgr w) (vol w) (f (heap w)) (uses w) (thread_txid w)).
Definition set_thread th (t : Txid) : act unit :=
  modify (λ w, mkWorld (txs w) (ents w) (walq_mgr w) (vol w) (heap w) (uses w) (<[th := t]> (thread_txid w))).

Definition on_walq {A} (m : run (WalQueueMgr.St V M) A) : act A :=
  zoom (λ w, WalQueueMgr.mkSt (walq_mgr w) (vol w))
    (λ s w, mkWorld (txs w) (ents w) (WalQueueMgr.mgr s) (WalQueueMgr.vol s) (heap w) (uses w) (thread_txid w)) m.

(** A call on a transaction of the list, which [unwrap]s the lookup. *)
Definition on_tx {A} (t : Txid) (m : run (Trans.St T V M N) A) : act A := λ w,
  match txs w !! t with
  | None => (Some Panic, w)
  | Some x =>
      let '(r, s) := m (Trans.mkSt x (heap w) (uses w) (vol w)) in
      (r, mkWorld (<[t := Trans.tr s]> (txs w)) (ents w) (walq_mgr w) (Trans.vol s) (Trans.heap s)
            (Trans.uses s) (thread_txid w))
  end.

(** *** [Txid], the transaction of a thread; zero is none *)

Definition current_or_empty w th : Txid := match thread_txid w !! th with Some t => t | None => 0 end.
Definition is_in_trans w th : bool := negb (current_or_empty w th =? 0).
Definition current th : act Txid :=
  t ← ask (λ w, current_or_empty w th); if t =? 0 then fail NotInTrans else mret t.
Definition reset_current th : act unit := set_thread th 0.
Definition next_txid th : act Txid :=
  t ← on_walq WalQueueMgr.next_txid; _ ← set_thread th t; mret t.

(** *** The transaction manager *)

Definition new (walq_id : Eid) (v : V) : World :=
  mkWorld ∅ ∅ (WalQueueMgr.new walq_id) v ∅ [] ∅.
Definition open (walq_id : Eid) : act unit := on_walq (WalQueueMgr.open walq_id).

Definition remove_trans th (t : Txid) : act unit :=
  _ ← set_txs (delete t);
  _ ← set_ents (filter (λ it, it.2 ≠ t));
  reset_current th.

Definition abort_trans th (t : Txid) : act unit :=
  x ← ask (λ w, txs w !! t); x ← lift (unwrap x);
  _ ← on_walq (WalQueueMgr.begin_abort (Trans.wal x));
  _ ← attempt (_ ← on_tx t Trans.abort; on_walq (WalQueueMgr.end_abort t));
  remove_trans th t.

(** Gives the txid that the handle holds. *)
Definition begin_trans th : act Txid :=
  inside ← ask (λ w, is_in_trans w th);
  if inside : bool then fail InTrans
  else
    _ ← on_walq WalQueueMgr.hot_redo_abort;
    t ← next_txid th;
    _ ← or_else (on_walq (WalQueueMgr.begin_trans t)) (λ e, _ ← reset_current th; fail e);
    _ ← set_txs (<[t := Trans.new t]>);
    _ ← or_else (on_tx t Trans.begin_trans) (λ e, _ ← abort_trans th t; fail e);
    mret t.

Definition add_to_trans (id : Eid) (t : Txid) (l : Loc) (a : Action) (ty : EntityType.EntityType)
    (ar : Arm) : act unit :=
  o ← ask (λ w, ents w !! id);
  cur ← match o with Some t' => mret t' | None => _ ← set_ents (<[id := t]>); mret t end;
  if decide (cur ≠ t) then fail InTrans
  else
    x ← ask (λ w, txs w !! t); _ ← lift (ok_or NoTrans x);
    on_tx t (Trans.add_entity id l a ty ar).

Definition commit_trans th (t : Txid) : act unit :=
  r ← attempt (w ← on_tx t Trans.commit; on_walq (WalQueueMgr.commit_trans w));
  match r with
  | Ok _ => _ ← on_tx t Trans.complete_commit; remove_trans th t
  | Err e => _ ← abort_trans th t; fail e
  | Panic => lift Panic
  end.

(** *** [TxHandle] *)

Definition handle_abort th (t : Txid) (e : Error) : act unit := _ ← abort_trans th t; fail e.
Definition handle_run th (t : Txid) (oper : act unit) : act unit := or_else oper (handle_abort th t).
Definition handle_run_all th (t : Txid) (oper : act unit) : act unit :=
  r ← attempt oper;
  match r with
  | Ok _ => commit_trans th t
  | Err e => handle_abort th t e
  | Panic => lift Panic
  end.

(** *** Entities and their transaction *)

Definition cow_of (l : Loc) : act (Cow.Cow T) :=
  o ← ask (λ w, heap w !! l); lift (unwrap match o with Some (ECow c) => Some c | _ => None end).
Definition set_cow (l : Loc) (c : Cow.Cow T) : act unit := set_heap (<[l := ECow c]>).
Definition alloc (e : Entity T) : act Loc :=
  l ← ask (λ w, fresh (dom (heap w))); _ ← set_heap (<[l := e]>); mret l.

(** What adding an action to an entity that is in the transaction already comes to: nothing,
    a panic for a wrong order, or adding it. *)
Definition action_order (cur a : Action) : res bool :=
  match cur, a with
  | New, (New | Update) => Ok false
  | New, Delete => Ok true
  | Update, New => Panic
  | Update, Update => Ok false
  | Update, Delete => Ok true
  | Delete, Delete => Ok false
  | Delete, _ => Panic
  end.

Definition cow_add_to_trans th (l : Loc) (a : Action) : act unit :=
  cur ← current th;
  c ← cow_of l;
  go ← match Cow.txid c with
       | None => mret true
       | Some t =>
           if decide (t ≠ cur) then fail InUse
           else match Cow.action c with None => mret true | Some b => lift (action_order b a) end
       end;
  if go : bool then
    let ar := if decide (a = New) then Cow.arm c else other (Cow.arm c) in
    _ ← add_to_trans (Cow.id c) cur l a EntityType.Cow ar;
    set_cow l (Cow.set_trans (Some cur) (Some a) c)
  else mret ().

(** [Cow::make_mut]: the arm whose value the returned reference designates. *)
Definition make_mut th (l : Loc) : act Arm :=
  c ← cow_of l;
  if decide (Cow.action c = Some New) then _ ← lift (Cow.inner c); mret (Cow.arm c)
  else
    _ ← (if Cow.has_other c then mret ()
         else x ← lift (Cow.inner c); set_cow l (Cow.set_other (Some x) c));
    _ ← cow_add_to_trans th l Update;
    c ← cow_of l; _ ← lift (Cow.other_inner c); mret (other (Cow.arm c)).

(** Changing an entity through [make_mut]. *)
Definition update th (l : Loc) (f : T → T) : act unit :=
  a ← make_mut th l; c ← cow_of l; set_cow l (Cow.set_by a (f <$> Cow.get_by a c) c).

Definition make_del th (l : Loc) : act unit := cow_add_to_trans th l Delete.

Definition into_cow_with_id th (x : T) (id : Eid) : act Loc :=
  l ← alloc (ECow (Cow.new id x)); _ ← cow_add_to_trans th l New; mret l.

Definition load (id : Eid) : act Loc :=
  c ← zoom vol (λ v w, mkWorld (txs w) (ents w) (walq_mgr w) v (heap w) (uses w) (thread_txid w))
        (Armor.load_item (I:=Cow.Cow T) Ents id);
  alloc (ECow c).

(** [SegData::add_to_trans]. *)
Definition data_add_to_trans (id : Eid) (a : Action) (t : Txid) : act unit :=
  l ← alloc (EData (SegStub.new id a));
  add_to_trans id t l a EntityType.Direct Arm.default.
End txmgr.
End TxMgr.
