(* ===== verification/TxState.v ===== *)
(** * The state of a transaction about to commit, and what committing makes of the volume.

    The committed entities are a map [W] from ids to entities as stored; a transaction that is
    well formed has its entities and its log in step. *)
From S2P Require Import Prelude Run Base Segment Armor Wal WalProofs WalMgr Cow Trans.
Import Arm.

(** ** A transaction writes: its log first, then its entities.

    The log of a transaction under way covers every entity arm it will write, so that the
    committed part of the volume stays as it is and what is written can be wiped. *)

Section logs.
Context `{!ArmHash, !ArmHashLaws, !TxidHash, !TxidHashLaws}.
Context {V M : Type} {X : Kind → Type} `{!Volume V X, !VolumeLaws V X, !LinkedMapOps Eid Wal.Entry M}.
Context `{!Serde (X Logs) (Wal.Wal M), !SerdeLaws (X Logs) (Wal.Wal M)}.
Context `{!Serde (X Logs) (WalQueue.WalQueue M)}.
Context (walq_id : Eid) `{!WalLaws X M walq_id}.
Abbreviation inv := (inv walq_id).
Implicit Types (v : V) (q : WalQueue.WalQueue M) (w : Wal.Wal M) (key : Eid) (t : Txid).
Implicit Types (C : gmap Eid (X Ents)) (D : Eid → Prop).

(** ** Writing under the log *)

(** An entity arm that is not committed may be overwritten. *)
Lemma inv_put v v' q C D key x :
  inv v q C D → changed Ents (<[key := x]> (contents v Ents)) v v' → C !! key = None →
  inv v' q C D.
Proof.
  intros [Hq Hl] (Hc & Hne & _) Hk.
  assert (Hlg : contents v' Logs = contents v Logs) by by apply Hne.
  split; [by rewrite Hlg|]. destruct Hl. split; rewrite ?Hlg; eauto.
  rewrite map_subseteq_spec in *. intros k y Hy. rewrite Hc.
  rewrite lookup_insert_ne by congruence. by apply lo_kept.
Qed.

Lemma log_put_ne (m : gmap Eid (X Logs)) t t' a b (x : X Logs) :
  (t', b) ≠ (t, a) →
  <[to_eid a (derive_id t) := x]> m !! to_eid b (derive_id t') = m !! to_eid b (derive_id t').
Proof.
  intros Hne. apply lookup_insert_ne. intros Heq. destruct (log_key _ _ _ _ Heq) as [-> ->]. done.
Qed.

(** Saving the log of a transaction under way. *)
Lemma inv_log v v' q C D D' t w x :
  inv v q C D → t ∈ WalQueue.doing q → Wal.txid w = t → Wal.id w = derive_id t →
  changed Logs (<[to_eid (Wal.arm w) (derive_id t) := x]> (contents v Logs)) v v' →
  decode x = Some w →
  older Logs (I:=Wal.Wal M) (contents v Logs) (derive_id t) (other (Wal.arm w)) (Wal.seq w) →
  (∀ key, cleans w key → C !! key = None) → (∀ e, e ∈ Wal.values w → named (Wal.eid e)) →
  (∀ key, D' key → cleans w key ∨
     ∃ t' w', t' ≠ t ∧ t' ∈ WalQueue.doing q ∧ stored Logs (contents v Logs) (derive_id t') w' ∧
       cleans w' key) →
  inv v' q C D' ∧ stored Logs (contents v' Logs) (derive_id t) w.
Proof.
  intros [Hq Hl] Ht Hwt Hwi (Hc & Hne & _) Hx Hold HC Hnm HD.
  set (m := contents v Logs) in *. set (a := Wal.arm w) in *.
  assert (Hlk : ∀ t' b, (t', b) ≠ (t, a) →
    contents v' Logs !! to_eid b (derive_id t') = m !! to_eid b (derive_id t')).
  { intros t' b Hn. rewrite Hc. by apply log_put_ne. }
  assert (Hself : arm_item (I:=Wal.Wal M) Logs (contents v' Logs) (derive_id t) a = Some w).
  { unfold arm_item. rewrite Hc, lookup_insert_eq. done. }
  assert (Hitem : ∀ t' b, (t', b) ≠ (t, a) →
    arm_item (I:=Wal.Wal M) Logs (contents v' Logs) (derive_id t') b = arm_item Logs m (derive_id t') b).
  { intros t' b Hn. unfold arm_item. by rewrite Hlk. }
  assert (Hother : (t, other a) ≠ (t, a)) by (intros [= Ho]; by apply other_ne in Ho).
  assert (Hst : ∀ t' w', t' ≠ t → stored Logs m (derive_id t') w' →
    stored Logs (contents v' Logs) (derive_id t') w').
  { intros t' w' Hn. unfold stored, older. rewrite !Hitem, Hlk by congruence. done. }
  split; [split|].
  - destruct Hq as (Hid & Hin & Ho). split; [done|]. unfold older, arm_item in *.
    rewrite Hc. rewrite !lookup_insert_ne by (intros Heq; by apply eq_sym, walq_key in Heq). by split.
  - destruct Hl. split; rewrite ?Hne by done; eauto.
    + intros t'. destruct (decide (t' = t)) as [->|Hn].
      * destruct (lo_logs t) as [Hb Hs]. split.
        -- intros b. destruct (arm_cases a b) as [->| ->].
           ++ right. by exists w.
           ++ unfold log. rewrite Hitem, Hlk by done. apply Hb.
        -- unfold log. intros l r Hll Hrr.
           assert (Hlt : ∀ w', arm_item Logs m (derive_id t) (other a) = Some w' → Wal.seq w' < Wal.seq w).
           { intros w' Hw'. destruct Hold as [Hn|(j & Hj & ?)].
             - unfold arm_item in Hw'. by rewrite Hn in Hw'.
             - rewrite Hj in Hw'. by injection Hw' as <-. }
           destruct a eqn:Ea; simpl in Hother, Hlt.
           ++ rewrite Hself in Hll. injection Hll as <-. rewrite Hitem in Hrr by done.
              apply Hlt in Hrr. lia.
           ++ rewrite Hself in Hrr. injection Hrr as <-. rewrite Hitem in Hll by done.
              apply Hlt in Hll. lia.
      * destruct (lo_logs t') as [Hb Hs]. split; unfold log.
        -- intros b. rewrite Hitem, Hlk by congruence. apply Hb.
        -- intros l r. rewrite !Hitem by congruence. apply Hs.
    + intros t' b w' e Hw' He. destruct (decide ((t', b) = (t, a))) as [[= -> ->]|Hn].
      * unfold log in Hw'. rewrite Hself in Hw'. injection Hw' as <-. by apply Hnm.
      * unfold log in Hw'. rewrite Hitem in Hw' by done. by eapply lo_named.
    + intros t' Ht' b. assert (t' ≠ t) by (pose proof (lo_known t (or_intror Ht)); lia).
      rewrite Hlk by congruence. by apply lo_wmark.
    + intros t' b w' key Ht' Hw'. destruct (decide ((t', b) = (t, a))) as [[= -> ->]|Hn].
      * unfold log in Hw'. rewrite Hself in Hw'. injection Hw' as <-. apply HC.
      * unfold log in Hw'. rewrite Hitem in Hw' by done. by eapply lo_doing.
    + intros t' b w' k key Ht' Hw'. assert (t' ≠ t) by (intros ->; by apply (lo_apart t)).
      unfold log in Hw'. rewrite Hitem in Hw' by congruence. by eapply lo_done.
    + intros key Hk. destruct (HD key Hk) as [Hcl|(t' & w' & Hn & Ht' & Hw' & Hcl)].
      * exists t, w. split; [done|]. split; [|done]. split; [done|]. split; [exact Hself|].
        unfold older. simpl item_arm. fold a. rewrite Hlk, Hitem by done. exact Hold.
      * exists t', w'. split; [done|]. split; [by apply Hst|done].
  - split; [done|]. split; [exact Hself|]. unfold older. simpl item_arm. fold a.
    rewrite Hlk, Hitem by done. exact Hold.
Qed.
End logs.

Section state.
Context `{!ArmHash, !ArmHashLaws, !TxidHash, !TxidHashLaws}.
Context {T V M N : Type} {X : Kind → Type} `{!Volume V X, !VolumeLaws V X, !Cowable T, !CowableLaws T}.
Context `{!LinkedMapOps Eid Wal.Entry M, !LinkedMap Eid Wal.Entry M}.
Context `{!LinkedMapOps Eid Loc N, !LinkedMap Eid Loc N}.
Context `{!Serde (X Logs) (Wal.Wal M), !SerdeLaws (X Logs) (Wal.Wal M)}.
Context `{!Serde (X Logs) (WalQueue.WalQueue M), !SerdeLaws (X Logs) (WalQueue.WalQueue M)}.
Context `{!Serde (X Ents) (Cow.Cow T), !SerdeLaws (X Ents) (Cow.Cow T), !CowSerde T X}.
Context (walq_id : Eid) `{!WalLaws X M walq_id}.
Abbreviation Cow := (Cow.Cow T).
Abbreviation Entity := (Entity.Entity T).
Implicit Types (v : V) (q : WalQueue.WalQueue M) (w : Wal.Wal M) (key id : Eid) (t : Txid).
Implicit Types (C : gmap Eid (X Ents)) (D : Eid → Prop) (e : Wal.Entry) (es : list Wal.Entry).
Implicit Types (W : gmap Eid Cow) (c : Cow).

(** ** Committed entities *)

(** An entity as it is stored: it has a value and is in no transaction. *)
Definition whole id c : Prop :=
  Cow.id c = id ∧ is_Some (Cow.curr c) ∧ Cow.txid c = None ∧ Cow.action c = None.

(** The entity is committed in its arm and in no other. *)
Definition placed C id c : Prop :=
  C !! to_eid (Cow.arm c) id ≫= decode = Some c ∧ C !! to_eid (other (Cow.arm c)) id = None.

(** Each committed entity is in its arm; its other arm is older, or is to be wiped. *)
Definition view_ok v C D W : Prop := ∀ id c, W !! id = Some c →
  named id ∧ whole id c ∧ placed C id c ∧
  (D (to_eid (other (Cow.arm c)) id) ∨
   older (I:=Cow) Ents (contents v Ents) id (other (Cow.arm c)) (Cow.seq c)).

(** Once what is to be wiped is wiped, loading an entity gives the committed one. *)
Lemma view_stored v C D W :
  view_ok v C D W → C ⊆ contents v Ents → (∀ key, D key → contents v Ents !! key = None) →
  ∀ id c, W !! id = Some c → stored Ents (contents v Ents) id c.
Proof.
  intros Hv HC HD id c Hc. destruct (Hv id c Hc) as (_ & [Hid _] & [Hin _] & Ho). split; [done|]. split.
  - unfold arm_item. simpl item_arm. destruct (C !! to_eid (Cow.arm c) id) as [x|] eqn:Hx; [|done].
    rewrite map_subseteq_spec in HC. by rewrite (HC _ _ Hx).
  - destruct Ho as [Hk|Ho]; [left; by apply HD|exact Ho].
Qed.

Lemma older_pruned (K : Kind → Eid → Prop) v v' id a n :
  pruned K v v' → older (I:=Cow) Ents (contents v Ents) id a n →
  older (I:=Cow) Ents (contents v' Ents) id a n.
Proof.
  intros [Hp _]. unfold older, arm_item. destruct (Hp Ents (to_eid a id)) as [->|[_ ->]]; [done|by left].
Qed.
Lemma view_ok_pruned (K : Kind → Eid → Prop) v v' C D W :
  view_ok v C D W → pruned K v v' → view_ok v' C D W.
Proof.
  intros Hv Hp id c Hc. destruct (Hv id c Hc) as (Hn & Hid & Hin & Ho). split_and!; try done.
  destruct Ho as [|Ho]; [by left|right]. by eapply older_pruned.
Qed.
Lemma view_ok_ents v v' C D W :
  contents v' Ents = contents v Ents → view_ok v C D W → view_ok v' C D W.
Proof. intros He Hv id c Hc. unfold older in *. rewrite He. by apply Hv. Qed.

(** Writing an arm that is to be wiped. *)
Lemma view_ok_put v v' C D W key x :
  view_ok v C D W → changed Ents (<[key := x]> (contents v Ents)) v v' → D key → view_ok v' C D W.
Proof.
  intros Hv (Hc & _ & _) Hk id c Hw. destruct (Hv id c Hw) as (Hn & Hid & Hin & Ho). split_and!; try done.
  destruct (decide (key = to_eid (other (Cow.arm c)) id)) as [->|Hne]; [by left|].
  unfold older, arm_item in *. rewrite Hc, lookup_insert_ne by done. exact Ho.
Qed.

(** Writing an arm of an id that is not committed. *)
Lemma view_ok_mono v C D D' W : view_ok v C D W → (∀ key, D key → D' key) → view_ok v C D' W.
Proof.
  intros Hv HD id c Hc. destruct (Hv id c Hc) as (Hn & Hid & Hin & [Hk|Ho]); split_and!; auto.
Qed.

(** ** What a log makes of the committed part *)

Definition entry w id : option Wal.Entry := lm_get id (Wal.entries w).

(** Arms that become committed, and arms that cease to be. *)
Definition new_key e key : bool :=
  match Wal.action e, Wal.ent_type e with
  | (New | Update), EntityType.Cow => bool_decide (key = to_eid (Wal.earm e) (Wal.eid e))
  | New, EntityType.Direct => bool_decide (key = Wal.eid e)
  | _, _ => false
  end.
Definition old_key e key : bool :=
  match Wal.action e, Wal.ent_type e with
  | Update, EntityType.Cow => bool_decide (key = to_eid (other (Wal.earm e)) (Wal.eid e))
  | Delete, EntityType.Cow =>
      bool_decide (key = to_eid Left (Wal.eid e)) || bool_decide (key = to_eid Right (Wal.eid e))
  | Delete, EntityType.Direct => bool_decide (key = Wal.eid e)
  | _, _ => false
  end.

Definition commits es (m C : gmap Eid (X Ents)) : gmap Eid (X Ents) :=
  filter (λ kx, existsb (λ e, new_key e kx.1) es = true) m ∪
  filter (λ kx, existsb (λ e, old_key e kx.1) es = false) C.

Lemma commits_Some es m C key x :
  commits es m C !! key = Some x ↔
  (existsb (λ e, new_key e key) es = true ∧ m !! key = Some x) ∨
  ((existsb (λ e, new_key e key) es = false ∨ m !! key = None) ∧
   existsb (λ e, old_key e key) es = false ∧ C !! key = Some x).
Proof.
  unfold commits. rewrite lookup_union_Some_raw, map_lookup_filter_Some, map_lookup_filter_None,
    map_lookup_filter_Some. simpl. split.
  - intros [[? ?]|[Hn [? ?]]]; [by left|right]. split; [|done].
    destruct (existsb (λ e, new_key e key) es) eqn:He; [|by left].
    destruct Hn as [|Hn]; [by right|]. destruct (m !! key) as [y|] eqn:Hm; [|by right].
    by destruct (Hn y).
  - intros [[? ?]|[Hn [? ?]]]; [by left|right]. split; [|done].
    destruct Hn as [Hn| ->]; [|by left]. right. intros y _. by rewrite Hn.
Qed.

Lemma existsb_elem (f : Wal.Entry → bool) es : existsb f es = true ↔ ∃ e, e ∈ es ∧ f e = true.
Proof.
  rewrite existsb_exists. split; intros (e & He & Hf); exists e; split; try done;
    by apply list_elem_of_In.
Qed.
Lemma existsb_none (f : Wal.Entry → bool) es : existsb f es = false ↔ ∀ e, e ∈ es → f e = false.
Proof.
  split.
  - intros Hf e He. destruct (f e) eqn:Hfe; [|done].
    rewrite <- Hf. symmetry. apply existsb_elem. by exists e.
  - intros Hall. destruct (existsb f es) eqn:He; [|done]. apply existsb_elem in He as (e & Hin & Hf).
    by rewrite Hall in Hf.
Qed.

Lemma new_key_cleans e key : new_key e key = true → clean_key e key.
Proof.
  unfold new_key, clean_key. destruct (Wal.action e), (Wal.ent_type e); try done;
    intros ->%bool_decide_eq_true; try done. by eexists.
Qed.

(** ** A transaction with its entities *)

Definition cohort_ok W t w id (x : Entity) : Prop :=
  named id ∧ Entity.id x = id ∧
  match x with
  | Entity.ECow c =>
      Cow.txid c = Some t ∧ is_Some (Cow.curr c) ∧
      ∃ a, Cow.action c = Some a ∧
        entry w id = Some (Wal.mkEntry id a EntityType.Cow (if decide (a = New) then Cow.arm c else other (Cow.arm c))) ∧
        match a with
        | New => W !! id = None
        | Update => Cow.has_other c = true ∧
            ∃ c0, W !! id = Some c0 ∧ Cow.arm c0 = Cow.arm c ∧ Cow.seq c0 ≤ Cow.seq c
        | Delete => True
        end
  | Entity.EData d =>
      (SegStub.action d = Some New ∨ SegStub.action d = Some Delete) ∧
      ∀ e, entry w id = Some e → Wal.ent_type e = EntityType.Direct ∧ Wal.action e ≠ Update
  end.

Record tx_ok v q C D W (heap : gmap Loc Entity) t (x : Trans.Trans M N) : Prop := {
  tx_doing : t ∈ WalQueue.doing q;
  tx_txid : Wal.txid (Trans.wal x) = t;
  tx_id : Wal.id (Trans.wal x) = derive_id t;
  tx_older : older (I:=Wal.Wal M) Logs (contents v Logs) (derive_id t) (Wal.arm (Trans.wal x))
    (Wal.seq (Trans.wal x) + 1);
  tx_saved : Trans.wal_saved x = true → stored Logs (contents v Logs) (derive_id t) (Trans.wal x);
  tx_keys i e : (i, e) ∈ lm_entries (Wal.entries (Trans.wal x)) → Wal.eid e = i;
  tx_cohorts i l : (i, l) ∈ lm_entries (Trans.cohorts x) →
    ∃ y, heap !! l = Some y ∧ cohort_ok W t (Trans.wal x) i y;
  tx_entries i e : entry (Trans.wal x) i = Some e → i ∈ (lm_entries (Trans.cohorts x)).*1;
  tx_safe key : cleans (Trans.wal x) key → C !! key = None;
  tx_cover w' key : stored Logs (contents v Logs) (derive_id t) w' → cleans w' key → D key →
    cleans (Trans.wal x) key;
  tx_apart t' a w' key : t' ∈ WalQueue.doing q → t' ≠ t → log (contents v Logs) t' a w' →
    cleans w' key → ¬ cleans (Trans.wal x) key;
  tx_done t' a w' key e : t' ∈ WalQueue.done q → log (contents v Logs) t' a w' →
    recycles w' Ents key → e ∈ Wal.values (Trans.wal x) → new_key e key = false;
  tx_past a w' k key : log (contents v Logs) t a w' → recycles w' k key → recycles (Trans.wal x) k key;
  tx_new i l c : (i, l) ∈ lm_entries (Trans.cohorts x) → heap !! l = Some (Entity.ECow c) →
    Cow.action c = Some New →
    older (I:=Cow) Ents (contents v Ents) i (other (Cow.arm c)) (Cow.seq c + 1);
  tx_retire e : e ∈ Wal.values (Trans.wal x) → Wal.action e = Delete →
    Wal.ent_type e = EntityType.Cow → ¬ reserved walq_id (Wal.eid e)
}.

Lemma entry_named q C D W h t (x : Trans.Trans M N) v e :
  tx_ok v q C D W h t x → e ∈ Wal.values (Trans.wal x) →
  named (Wal.eid e) ∧ ∃ l y, (Wal.eid e, l) ∈ lm_entries (Trans.cohorts x) ∧ h !! l = Some y ∧
    cohort_ok W t (Trans.wal x) (Wal.eid e) y ∧ entry (Trans.wal x) (Wal.eid e) = Some e.
Proof.
  intros Htx ([i e0] & Heq & He)%list_elem_of_fmap. simpl in Heq. subst e0.
  pose proof (tx_keys _ _ _ _ _ _ _ _ Htx i e He) as ->.
  assert (Hen : entry (Trans.wal x) i = Some e).
  { apply assoc_elem; [apply lm_entries_nodup|done]. }
  pose proof (tx_entries _ _ _ _ _ _ _ _ Htx i e Hen) as ([i' l] & Hi & Hin)%list_elem_of_fmap.
  simpl in Hi. subst i'. destruct (tx_cohorts _ _ _ _ _ _ _ _ Htx i l Hin) as (y & Hy & Hc).
  split; [apply Hc|]. by exists l, y.
Qed.
End state.
