(* ===== verification/TxCommit.v ===== *)
(** * [Trans::commit] writes the entities of a transaction, and nothing that is committed. *)
From S2P Require Import Prelude Run Base Segment Armor Wal WalProofs WalMgr Cow Trans TxState.
Import Arm.

Section commit.
Context `{!ArmHash, !ArmHashLaws, !TxidHash, !TxidHashLaws}.
Context {T V M N : Type} {X : Kind → Type} `{!Volume V X, !VolumeLaws V X, !Cowable T, !CowableLaws T}.
Context `{!LinkedMapOps Eid Wal.Entry M, !LinkedMap Eid Wal.Entry M}.
Context `{!LinkedMapOps Eid Loc N, !LinkedMap Eid Loc N}.
Context `{!Serde (X Logs) (Wal.Wal M), !SerdeLaws (X Logs) (Wal.Wal M)}.
Context `{!Serde (X Logs) (WalQueue.WalQueue M), !SerdeLaws (X Logs) (WalQueue.WalQueue M)}.
Context `{!Serde (X Ents) (Cow.Cow T), !SerdeLaws (X Ents) (Cow.Cow T), !CowSerde T X}.
Context (walq_id : Eid) `{!WalLaws X M walq_id}.
#[local] Existing Instances wal_arm_laws.
Abbreviation Cow := (Cow.Cow T).
Abbreviation Entity := (Entity.Entity T).
Abbreviation St := (Trans.St T V M N).
Implicit Types (v : V) (q : WalQueue.WalQueue M) (w : Wal.Wal M) (key id : Eid) (t : Txid).
Implicit Types (C : gmap Eid (X Ents)) (D : Eid → Prop) (W : gmap Eid Cow) (c : Cow) (s : St).

Lemma on_vol_tx_spec {A} (o : run V A) s (Q : A → St → Prop) E (H' : St → Prop) :
  spec o (Trans.vol s)
    (λ a v, Q a (Trans.mkSt (Trans.tr s) (Trans.heap s) (Trans.uses s) v))
    (λ e v, E e (Trans.mkSt (Trans.tr s) (Trans.heap s) (Trans.uses s) v))
    (λ v, H' (Trans.mkSt (Trans.tr s) (Trans.heap s) (Trans.uses s) v)) →
  spec (Trans.on_vol o) s Q E H'.
Proof.
  unfold spec, Trans.on_vol, zoom. by destruct (o (Trans.vol s)) as [[[]|] ?].
Qed.

(** ** The entities of a transaction *)

(** An entity that its commit can handle: the arm it writes is to be wiped, not committed. *)
Definition cell_ok C D id (x : Entity) : Prop :=
  named id ∧ Entity.id x = id ∧
  match x with
  | Entity.ECow c =>
      is_Some (Cow.action c) ∧ is_Some (Cow.curr c) ∧
      (Cow.action c = Some Update → Cow.has_other c = true) ∧
      (is_Some (Cow.staged c) → D (to_eid (Cow.target c) id) ∧ C !! to_eid (Cow.target c) id = None)
  | Entity.EData d => SegStub.action d = Some New ∨ SegStub.action d = Some Delete
  end.

(** An entity that was committed, or whose commit failed. *)
Definition settled (x x' : Entity) : Prop :=
  match x, x' with
  | Entity.ECow c, Entity.ECow c' => Cow.pending c c'
  | Entity.EData d, Entity.EData d' => d' = d
  | _, _ => False
  end.
Definition finished (x x' : Entity) : Prop :=
  match x, x' with
  | Entity.ECow c, Entity.ECow c' =>
      ∀ i, Cow.staged c = Some i → Cow.seq c' = Cow.seq i ∧
        (Cow.action c = Some Update → Cow.get_by (Cow.target c) c' = Cow.curr i) ∧
        (Cow.action c = Some New → Cow.curr c' = Cow.curr i)
  | _, _ => True
  end.

Lemma settled_refl x : settled x x.
Proof. destruct x; [apply Cow.pending_refl|done]. Qed.

Definition crowded (h : gmap Loc Entity) (ls : list (Eid * Loc)) : Prop :=
  ∃ id l c, (id, l) ∈ ls ∧ h !! l = Some (Entity.ECow c) ∧ U64 ≤ Cow.seq c + 1.

Definition target_key (h : gmap Loc Entity) (ls : list (Eid * Loc)) key : Prop :=
  ∃ id l c, (id, l) ∈ ls ∧ h !! l = Some (Entity.ECow c) ∧ is_Some (Cow.staged c) ∧
    key = to_eid (Cow.target c) id.

(** Only the entities of [ls] change, and each as its commit may change it. *)
Definition heap_settled (ls : list (Eid * Loc)) (h h' : gmap Loc Entity) : Prop :=
  (∀ l, l ∉ ls.*2 → h' !! l = h !! l) ∧
  ∀ l x, h !! l = Some x → ∃ x', h' !! l = Some x' ∧ settled x x'.

Lemma heap_settled_refl ls h : heap_settled ls h h.
Proof. split; [done|]. intros l x Hx. exists x. split; [done|apply settled_refl]. Qed.

Lemma heap_settled_cons i l ls h h' x x' :
  l ∉ ls.*2 → h !! l = Some x → settled x x' → heap_settled ls (<[l := x']> h) h' →
  heap_settled ((i, l) :: ls) h h'.
Proof.
  intros Hl Hx Hs [Hf Hd]. split.
  - intros l' [Hne Hn]%not_elem_of_cons. rewrite Hf by done. by apply lookup_insert_ne.
  - intros l' y Hy. destruct (decide (l' = l)) as [->|Hne].
    + rewrite Hf, lookup_insert_eq by done. rewrite Hx in Hy. injection Hy as <-. by exists x'.
    + apply Hd. by rewrite lookup_insert_ne.
Qed.

(** What stays the same while entities are written. *)
Definition logged C D W q s s' : Prop :=
  Trans.tr s' = Trans.tr s ∧ inv walq_id (Trans.vol s') q C D ∧ view_ok (Trans.vol s') C D W ∧
  contents (Trans.vol s') Logs = contents (Trans.vol s) Logs ∧
  (steady (Trans.vol s) → steady (Trans.vol s')) ∧ (Trans.uses s = [] → Trans.uses s' = []).

Lemma logged_trans C D W q s1 s2 s3 : logged C D W q s1 s2 → logged C D W q s2 s3 → logged C D W q s1 s3.
Proof.
  intros (Ht & _ & _ & Hl & Hs & Hu) (Ht' & Hi & Hv & Hl' & Hs' & Hu').
  split; [congruence|]. split; [done|]. split; [done|]. split; [congruence|]. by auto.
Qed.

Lemma entity_commit_spec C D W q s id x :
  cell_ok C D id x → inv walq_id (Trans.vol s) q C D → view_ok (Trans.vol s) C D W →
  spec (Trans.on_vol (Entity.commit x)) s
    (λ r s', settled x r.1 ∧ Trans.tr s' = Trans.tr s ∧ Trans.heap s' = Trans.heap s ∧
       Trans.uses s' = Trans.uses s ∧ inv walq_id (Trans.vol s') q C D ∧
       view_ok (Trans.vol s') C D W ∧ contents (Trans.vol s') Logs = contents (Trans.vol s) Logs ∧
       (steady (Trans.vol s) → steady (Trans.vol s')) ∧
       match r.2 with
       | Ok _ => finished x r.1 ∧
           (∀ c i, x = Entity.ECow c → Cow.staged c = Some i →
              contents (Trans.vol s') Ents !! to_eid (Cow.target c) id ≫= decode = Some i) ∧
           (∀ key, (∀ c, x = Entity.ECow c → is_Some (Cow.staged c) → key ≠ to_eid (Cow.target c) id) →
              contents (Trans.vol s') Ents !! key = contents (Trans.vol s) Ents !! key)
       | Err _ => ¬ steady (Trans.vol s) ∧
           contents (Trans.vol s') Ents = contents (Trans.vol s) Ents
              | Panic => False
       end)
    (λ _ _, False)
    (λ s', inv walq_id (Trans.vol s') q C D ∧ view_ok (Trans.vol s') C D W ∧
       (¬ steady (Trans.vol s) ∨ ∃ c, x = Entity.ECow c ∧ U64 ≤ Cow.seq c + 1)).
Proof.
  intros (Hn & Hid & Hx) Hi Hv. apply on_vol_tx_spec.
  destruct x as [c|d]; simpl in Hid; subst id.
  - destruct Hx as (Ha & Hc & Hu & Hst). unfold Entity.commit. apply spec_bind.
    assert (Hput : ∀ i y v', Cow.staged c = Some i →
      changed Ents (<[to_eid (Cow.target c) (Cow.id c) := y]> (contents (Trans.vol s) Ents)) (Trans.vol s) v' →
      inv walq_id v' q C D ∧ view_ok v' C D W).
    { intros i y v' Hsi Hch. rewrite Hsi in Hst. destruct (Hst ltac:(done)) as [HD HC].
      split; [by eapply inv_put|by eapply view_ok_put]. }
    eapply spec_mono; [by apply cow_commit_spec| |done|].
    + intros [c' r] v' [Hp Hr]. cbn [fst snd] in Hp, Hr. apply spec_ret.
      cbn [fst snd Trans.tr Trans.heap Trans.uses Trans.vol].
      assert (Hsame : same (Trans.vol s) v' → inv walq_id v' q C D ∧ view_ok v' C D W ∧
        contents v' Logs = contents (Trans.vol s) Logs).
      { intros Hs. split; [by eapply inv_same|]. split; [|apply Hs]. eapply view_ok_ents; [apply Hs|done]. }
      destruct r as [[]|e|]; [|destruct Hr as [Hs Hns]|done].
      * destruct (Cow.staged c) as [i|] eqn:Hsi.
        -- destruct Hr as (y & Hy & Hch & Hsq & Hup & Hnw). destruct (Hput i y v' eq_refl Hch) as [Hi' Hv'].
           pose proof Hch as (Hce & Hcl & Hcs).
           split; [done|]. split; [done|]. split; [done|]. split; [done|].
           split; [done|]. split; [done|]. split; [by apply Hcl|].
           split; [done|]. split; [intros i' Hii; assert (i' = i) as -> by congruence; done|]. split.
           ++ intros c0 i0 [= <-] Hi0. rewrite Hce, lookup_insert_eq. simpl. congruence.
           ++ intros key Hk. rewrite Hce. apply lookup_insert_ne. intros <-. by eapply (Hk c).
        -- destruct (Hsame Hr) as (H1' & H2' & H3'). split_and!; try done; [apply Hr|..].
           ++ intros i Hi'. congruence.
           ++ intros c0 i0 [= <-] Hi0. congruence.
           ++ intros key _. by rewrite (proj1 Hr).
      * destruct (Hsame Hs) as (H1' & H2' & H3'). split_and!; try done; apply Hs.
    + intros v' [Hs Htr]. cbn [Trans.vol].
      assert (Hiv : inv walq_id v' q C D ∧ view_ok v' C D W).
      { destruct Hs as [Hs|(i & y & Hsi & _ & Hch)]; [|by eapply Hput].
        split; [by eapply inv_same|]. eapply view_ok_ents; [apply Hs|done]. }
      split; [apply Hiv|]. split; [apply Hiv|]. destruct Htr as [|Hov]; [by left|right]. by exists c.
  - unfold Entity.commit, SegStub.commit. apply spec_bind.
    destruct Hx as [-> | ->]; apply spec_lift_ok, spec_ret; cbn [fst snd Trans.vol Trans.tr Trans.heap Trans.uses];
      split_and!; done.
Qed.

(** The items that committing the entities of [ls] leaves on the volume. *)
Definition written (h : gmap Loc Entity) (ls : list (Eid * Loc)) (m m' : gmap Eid (X Ents)) : Prop :=
  (∀ id l c i, (id, l) ∈ ls → h !! l = Some (Entity.ECow c) → Cow.staged c = Some i →
     m' !! to_eid (Cow.target c) id ≫= decode = Some i) ∧
  ∀ key, ¬ target_key h ls key → m' !! key = m !! key.

Lemma commit_loop_spec C D W q ls in_use s :
  NoDup ls.*1 → NoDup ls.*2 →
  (∀ id l, (id, l) ∈ ls → ∃ x, Trans.heap s !! l = Some x ∧ cell_ok C D id x) →
  inv walq_id (Trans.vol s) q C D → view_ok (Trans.vol s) C D W →
  spec (Trans.commit_loop ls in_use) s
    (λ r s', logged C D W q s s' ∧ heap_settled ls (Trans.heap s) (Trans.heap s') ∧
       written (Trans.heap s) ls (contents (Trans.vol s) Ents) (contents (Trans.vol s') Ents) ∧
       (∀ l x, l ∈ ls.*2 → Trans.heap s !! l = Some x →
          ∃ x', Trans.heap s' !! l = Some x' ∧ finished x x') ∧
       (∀ i, i ∈ r → i ∈ in_use ∨ i ∈ ls.*1) ∧ (Trans.uses s = [] → r = in_use))
    (λ _ s', logged C D W q s s' ∧ heap_settled ls (Trans.heap s) (Trans.heap s') ∧
       ¬ steady (Trans.vol s) ∧
       ∀ key, ¬ target_key (Trans.heap s) ls key →
         contents (Trans.vol s') Ents !! key = contents (Trans.vol s) Ents !! key)
    (λ s', inv walq_id (Trans.vol s') q C D ∧ view_ok (Trans.vol s') C D W ∧
       (¬ steady (Trans.vol s) ∨ crowded (Trans.heap s) ls)).
Proof.
  revert in_use s. induction ls as [|[id l] ls IH]; intros in_use s Hnd1 Hnd2 Hcells Hi Hv;
    cbn [Trans.commit_loop].
  { apply spec_ret. split; [split_and!; done|]. split; [apply heap_settled_refl|].
    split; [split; [by intros ???? ?%elem_of_nil|done]|]. split; [by intros ?? ?%elem_of_nil|].
    split; [by left|done]. }
  apply NoDup_cons in Hnd1 as [Hn1 Hnd1]. apply NoDup_cons in Hnd2 as [Hn2 Hnd2].
  cbn [fst snd] in Hn1, Hn2.
  destruct (Hcells id l ltac:(left)) as (x & Hx & Hcell).
  assert (Hact : ∃ a, Entity.action x = Ok a).
  { destruct Hcell as (_ & _ & Hx'). destruct x as [c|d]; unfold Entity.action.
    - destruct Hx' as ([a ->] & _). by exists a.
    - destruct Hx' as [-> | ->]; by eexists. }
  destruct Hact as [a Ha].
  apply spec_bind. unfold Trans.entity. apply spec_bind, spec_ask. rewrite Hx. apply spec_lift_ok.
  apply spec_bind. rewrite Ha. apply spec_lift_ok, spec_bind.
  (* the count of users *)
  assert (Hcount : spec (if decide (a = Delete) then n ← Trans.strong_count;
      mret (if 1 <? n then in_use ++ [Entity.id x] else in_use) else mret in_use) s
    (λ r s', Trans.tr s' = Trans.tr s ∧ Trans.heap s' = Trans.heap s ∧ Trans.vol s' = Trans.vol s ∧
       (Trans.uses s = [] → Trans.uses s' = [] ∧ r = in_use) ∧
       (∀ i, i ∈ r → i ∈ in_use ∨ i = id)) (λ _ _, False) (λ _, False)).
  { destruct (decide (a = Delete)).
    2: { apply spec_ret. do 3 (split; [done|]). split; [done|by left]. }
    apply spec_bind. unfold Trans.strong_count. apply spec_bind, spec_ask, spec_bind, spec_modify, spec_ret, spec_ret.
    split; [done|]. split; [done|]. split; [done|]. split; [intros Hu; cbn [Trans.uses]; by rewrite Hu|].
    destruct Hcell as (_ & Hid & _). rewrite Hid.
    destruct (1 <? hd 1 (Trans.uses s)); [|by left].
    intros i [|Hi']%elem_of_app; [by left|right]. by apply list_elem_of_singleton in Hi'. }
  eapply spec_mono; [exact Hcount| |done|done]. clear Hcount.
  intros iu [tr1 h1 u1 v1] (Ht1 & Hh1 & Hv1 & Hu1 & Hin1). cbn [Trans.tr Trans.heap Trans.vol Trans.uses] in *.
  subst tr1 h1 v1. apply spec_bind.
  eapply spec_mono; [by apply (entity_commit_spec C D W q _ id x)| |done|]; cbn [Trans.tr Trans.heap Trans.vol Trans.uses].
  - intros [x' r] s2 (Hset & Ht2 & Hh2 & Hu2 & Hi2 & Hv2 & Hl2 & Hs2 & Hr). cbn [fst snd] in *.
    cbn [Trans.tr Trans.heap Trans.vol Trans.uses] in Ht2, Hh2, Hu2.
    apply spec_bind. unfold Trans.set_entity. apply spec_modify. rewrite Hh2.
    apply spec_bind.
    assert (Hlog : logged C D W q s (Trans.mkSt (Trans.tr s2) (<[l:=x']> (Trans.heap s)) (Trans.uses s2) (Trans.vol s2))).
    { split_and!; try done. cbn [Trans.uses]. intros Hu. rewrite Hu2. by apply Hu1. }
    destruct r as [[]|e|]; [|apply spec_fail|done].
    + apply spec_lift_ok. destruct Hr as (Hfin & Hw & Hfr).
      assert (Hrest : ∀ id' l', (id', l') ∈ ls → l' ≠ l ∧ id' ≠ id).
      { intros id' l' Hin. split; intros ->;
          [apply Hn2; exact (list_elem_of_fmap_2 snd _ _ Hin)|apply Hn1; exact (list_elem_of_fmap_2 fst _ _ Hin)]. }
      assert (Hnt : ∀ key, ¬ target_key (Trans.heap s) ((id, l) :: ls) key →
        (∀ c, x = Entity.ECow c → is_Some (Cow.staged c) → key ≠ to_eid (Cow.target c) id) ∧
        ¬ target_key (<[l:=x']> (Trans.heap s)) ls key).
      { intros key Hk. split.
        - intros c -> Hsc ->. apply Hk. exists id, l, c. by split; [left|].
        - intros (id2 & l2 & c2 & Hin2 & Hc2 & Hs2' & ->). destruct (Hrest _ _ Hin2) as [Hne _].
          rewrite lookup_insert_ne in Hc2 by done. apply Hk. exists id2, l2, c2. by split; [right|]. }
      eapply spec_mono; [apply IH; [done|done| |done|done]| | |]; cbn [Trans.tr Trans.heap Trans.vol Trans.uses].
      * intros id' l' Hin. destruct (Hrest _ _ Hin) as [Hne _].
        rewrite lookup_insert_ne by done. apply Hcells. by right.
      * intros r s3 (Hlog3 & Hhs & [Hwr Hframe] & Hfn & Hr3 & Hu3).
        split; [by eapply logged_trans|]. split; [by eapply heap_settled_cons|]. split.
        { split.
          - intros id' l' c i [[= -> ->]|Hin]%elem_of_cons Hc Hsi.
            + rewrite Hx in Hc. injection Hc as ->. rewrite Hframe; [by eapply Hw|].
              intros (id2 & l2 & c2 & Hin2 & _ & _ & Heq). destruct (Hrest _ _ Hin2) as [_ Hne].
              destruct (Hcells id2 l2 ltac:(by right)) as (y & _ & Hn & _).
              destruct Hcell as (Hnid & _). by destruct (to_eid_inj _ _ _ _ Hnid Hn Heq).
            + destruct (Hrest _ _ Hin) as [Hne _]. eapply Hwr; [exact Hin| |done].
              by rewrite lookup_insert_ne.
          - intros key Hk. destruct (Hnt key Hk) as [Hk1 Hk2]. rewrite Hframe by done. by apply Hfr. }
        split.
        { intros l' y [->|Hin]%elem_of_cons Hy.
          - cbn [snd] in Hy. rewrite Hx in Hy. injection Hy as <-. destruct Hhs as [Hf _]. exists x'.
            cbn [snd]. rewrite Hf, lookup_insert_eq by done. done.
          - apply Hfn; [done|]. rewrite lookup_insert_ne; [done|]. by intros ->. }
        split.
        { intros i Hi'. destruct (Hr3 i Hi') as [Hiu|Hin]; [|right; by right].
          destruct (Hin1 i Hiu) as [| ->]; [by left|right; by left]. }
        intros Hu. rewrite Hu3; [by apply Hu1|]. rewrite Hu2. by apply Hu1.
      * intros e s3 (Hlog3 & Hhs & Hns & Hframe). split; [by eapply logged_trans|].
        split; [by eapply heap_settled_cons|]. split; [intros Hs; by apply Hns, Hs2|].
        intros key Hk. destruct (Hnt key Hk) as [Hk1 Hk2]. rewrite Hframe by done. by apply Hfr.
      * intros s3 (Hi3 & Hv3 & Htr). split; [done|]. split; [done|].
        destruct Htr as [Hns|(id2 & l2 & c2 & Hin2 & Hc2 & Hov)]; [left; intros Hs; by apply Hns, Hs2|right].
        destruct (Hrest _ _ Hin2) as [Hne _]. rewrite lookup_insert_ne in Hc2 by done.
        exists id2, l2, c2. by split; [right|].
    + destruct Hr as [Hns He]. split; [done|]. split; [|split; [done|intros key _; cbn [Trans.vol]; by rewrite He]].
      cbn [Trans.heap]. eapply heap_settled_cons; [done|done|done|apply heap_settled_refl].
  - intros s2 (Hi2 & Hv2 & Htr). split; [done|]. split; [done|].
    destruct Htr as [|(c & -> & Hov)]; [by left|right]. exists id, l, c. by split; [left|].
Qed.

(** ** Saving the log *)

(** The log with another number and arm: the same entries. *)
Definition same_entries w w' : Prop :=
  Wal.id w' = Wal.id w ∧ Wal.txid w' = Wal.txid w ∧ Wal.entries w' = Wal.entries w.

Lemma same_entries_cleans w w' key : same_entries w w' → cleans w' key ↔ cleans w key.
Proof. intros (_ & _ & He). unfold cleans, Wal.values. by rewrite He. Qed.
Lemma same_entries_recycles w w' k key : same_entries w w' → recycles w' k key ↔ recycles w k key.
Proof. intros (_ & _ & He). unfold recycles, Wal.values. by rewrite He. Qed.

Definition with_wal w (x : Trans.Trans M N) : Trans.Trans M N :=
  Trans.mkTrans (Trans.txid x) (Trans.cohorts x) w (Trans.wal_saved x).
Definition grown_dirt D w key : Prop := D key ∨ cleans w key.

(** Logs of the other transactions are untouched. *)
Definition other_logs t v v' : Prop := ∀ t' a, t' ≠ t →
  contents v' Logs !! to_eid a (derive_id t') = contents v Logs !! to_eid a (derive_id t').

Lemma save_wal_spec s q C D t :
  let w := Trans.wal (Trans.tr s) in
  inv walq_id (Trans.vol s) q C D → t ∈ WalQueue.doing q →
  Wal.txid w = t → Wal.id w = derive_id t →
  older (I:=Wal.Wal M) Logs (contents (Trans.vol s) Logs) (derive_id t) (Wal.arm w) (Wal.seq w + 1) →
  (∀ key, cleans w key → C !! key = None) → (∀ e, e ∈ Wal.values w → named (Wal.eid e)) →
  (∀ w' key, stored Logs (contents (Trans.vol s) Logs) (derive_id t) w' → cleans w' key → D key →
     cleans w key) →
  spec Trans.save_wal s
    (λ _ s', Trans.tr s' = with_wal (next_item w) (Trans.tr s) ∧ Trans.heap s' = Trans.heap s ∧
       Trans.uses s' = Trans.uses s ∧ inv walq_id (Trans.vol s') q C (grown_dirt D w) ∧
       stored Logs (contents (Trans.vol s') Logs) (derive_id t) (next_item w) ∧
       contents (Trans.vol s') Ents = contents (Trans.vol s) Ents ∧
       other_logs t (Trans.vol s) (Trans.vol s') ∧
       (∀ a w', log (contents (Trans.vol s') Logs) t a w' →
          w' = next_item w ∨ log (contents (Trans.vol s) Logs) t a w') ∧
       (steady (Trans.vol s) → steady (Trans.vol s')))
    (λ _ s', Trans.tr s' = with_wal (set_item (Wal.seq w + 1) (Wal.arm w) w) (Trans.tr s) ∧
       Trans.heap s' = Trans.heap s ∧ Trans.uses s' = Trans.uses s ∧ failed (Trans.vol s) (Trans.vol s'))
    (λ s', (same (Trans.vol s) (Trans.vol s') ∨ inv walq_id (Trans.vol s') q C (grown_dirt D w) ∧
         contents (Trans.vol s') Ents = contents (Trans.vol s) Ents) ∧
       (¬ steady (Trans.vol s) ∨ U64 ≤ Wal.seq w + 1)).
Proof.
  cbn zeta. destruct s as [x h u v]. cbn [Trans.tr Trans.heap Trans.uses Trans.vol].
  set (w := Trans.wal x). intros Hi Ht Hwt Hwi Hold HC Hnm Hcov.
  unfold Trans.save_wal. apply spec_bind. unfold Trans.the_wal. apply spec_ask, spec_bind, on_vol_tx_spec.
  cbn [Trans.tr Trans.heap Trans.uses Trans.vol]. fold w.
  assert (Hsaved : ∀ v', changed Logs (<[to_eid (other (item_arm w)) (item_id w) := encode (next_item w)]>
      (contents v Logs)) v v' →
    inv walq_id v' q C (grown_dirt D w) ∧ stored Logs (contents v' Logs) (derive_id t) (next_item w)).
  { intros v' Hch. change (item_arm w) with (Wal.arm w) in Hch.
    change (item_id w) with (Wal.id w) in Hch. rewrite Hwi in Hch.
    apply (inv_log walq_id v v' q C D (grown_dirt D w) t (next_item w) (encode (next_item w)));
      [done|done|done|done|exact Hch| | | |exact Hnm|].
    - by rewrite decode_encode, wal_form.
    - simpl. rewrite other_other. exact Hold.
    - intros key. apply HC.
    - intros key [Hk|Hk]; [|by left]. pose proof Hi as [_ Hl].
      destruct (lo_dirty _ _ _ _ _ Hl key Hk) as (t' & w' & Ht' & Hw' & Hcl).
      destruct (decide (t' = t)) as [->|Hne]; [left; by eapply Hcov|]. right. by exists t', w'. }
  eapply spec_mono; [apply (save_spec Logs)| |done|].
  2: { cbn [Trans.vol]. intros v' [[Hs|Hch] Hn]; (split; [|exact Hn]); [by left|right].
       split; [by apply Hsaved|]. by apply Hch. }
  intros [w' [[]|e|]] v' Hr; cbn [fst snd] in Hr; [|destruct Hr as [-> Hf]|done];
    apply spec_bind, spec_modify; cbn [Trans.tr Trans.heap Trans.uses Trans.vol].
  - destruct Hr as [-> Hch]. destruct (Hsaved v' Hch) as [Hi' Hs'].
    change (item_arm w) with (Wal.arm w) in Hch. change (item_id w) with (Wal.id w) in Hch. rewrite Hwi in Hch.
    assert (Hnx : decode (encode (X:=X Logs) (next_item w)) = Some (next_item w)).
    { by rewrite decode_encode, wal_form. }
    pose proof Hch as (Hc & Hne & Hst).
    assert (Hlk : ∀ t' b, (t', b) ≠ (t, other (Wal.arm w)) →
      contents v' Logs !! to_eid b (derive_id t') = contents v Logs !! to_eid b (derive_id t')).
    { intros t' b Hn. rewrite Hc. by apply log_put_ne. }
    apply spec_lift_ok. cbn [Trans.tr Trans.heap Trans.uses Trans.vol].
    split; [done|]. split; [done|]. split; [done|]. split; [done|]. split; [done|].
    split; [by apply Hne|]. split; [intros t' a Hn; apply Hlk; congruence|]. split; [|done].
    intros a w' Hw'. destruct (decide (a = other (Wal.arm w))) as [->|Hn].
    * left. unfold log, arm_item in Hw'. rewrite Hc, lookup_insert_eq in Hw'.
      change (decode (encode (X:=X Logs) (next_item w)) = Some w') in Hw'. congruence.
    * right. unfold log, arm_item in *. rewrite Hlk in Hw' by congruence. done.
  - apply spec_fail. done.
Qed.

(** ** Before the queue is told *)

Lemma NoDup_snd {A B} (ls : list (A * B)) :
  NoDup ls.*1 → (∀ i j l, (i, l) ∈ ls → (j, l) ∈ ls → i = j) → NoDup ls.*2.
Proof.
  induction ls as [|[i l] ls IH]; [by constructor|]. simpl. intros [Hn Hnd]%NoDup_cons Hinj.
  apply NoDup_cons. split.
  - intros ([j l'] & Hl & Hin)%list_elem_of_fmap. simpl in Hl. subst l'. apply Hn.
    assert (i = j) as -> by (apply (Hinj i j l); [left|by right]).
    exact (list_elem_of_fmap_2 fst _ _ Hin).
  - apply IH; [done|]. intros i' j' l' Hi Hj. apply (Hinj i' j' l'); by right.
Qed.

(** What an abort needs of the transaction. *)
Record abortable v q C D (h : gmap Loc Entity) t (x : Trans.Trans M N) : Prop := {
  ab_doing : t ∈ WalQueue.doing q;
  ab_txid : Wal.txid (Trans.wal x) = t;
  ab_id : Wal.id (Trans.wal x) = derive_id t;
  ab_safe key : cleans (Trans.wal x) key → C !! key = None;
  ab_cover w' key : stored Logs (contents v Logs) (derive_id t) w' → cleans w' key → D key →
    cleans (Trans.wal x) key;
  ab_locs : NoDup (lm_entries (Trans.cohorts x)).*2;
  ab_cohorts i l : (i, l) ∈ lm_entries (Trans.cohorts x) → ∃ y, h !! l = Some y ∧
    match y with Entity.ECow c => is_Some (Cow.action c) | Entity.EData _ => True end
}.

Lemma tx_abortable v q C D W h t (x : Trans.Trans M N) : tx_ok walq_id v q C D W h t x → abortable v q C D h t x.
Proof.
  intros []. split; try done.
  - apply NoDup_snd; [apply lm_entries_nodup|]. intros i j l Hi Hj.
    destruct (tx_cohorts i l Hi) as (y & Hy & _ & <- & _), (tx_cohorts j l Hj) as (z & Hz & _ & <- & _). congruence.
  - intros i l Hin. destruct (tx_cohorts i l Hin) as (y & Hy & _ & _ & Hy').
    exists y. split; [done|]. destruct y as [c|d]; [|done]. destruct Hy' as (_ & _ & a & -> & _). by eexists.
Qed.

Lemma entry_elem w id e : entry w id = Some e → e ∈ Wal.values w.
Proof.
  unfold entry, lm_get, Wal.values. intros Hin%assoc_Some_elem.
  exact (list_elem_of_fmap_2 snd _ _ Hin).
Qed.

(** What the commit writes, the log names. *)
Lemma staged_cleans w id c a :
  Cow.action c = Some a →
  entry w id = Some (Wal.mkEntry id a EntityType.Cow (if decide (a = New) then Cow.arm c else other (Cow.arm c))) →
  is_Some (Cow.staged c) → cleans w (to_eid (Cow.target c) id).
Proof.
  intros Ha He [z Hz]. eexists. split; [by eapply entry_elem|]. unfold clean_key, Cow.target.
  cbn [Wal.action Wal.ent_type Wal.eid Wal.earm]. rewrite Ha. unfold Cow.staged in Hz. rewrite Ha in Hz.
  destruct a; [by eexists|by rewrite !decide_False by done|done].
Qed.

Lemma target_cleans v q C D W h t (x : Trans.Trans M N) key :
  tx_ok walq_id v q C D W h t x → target_key h (lm_entries (Trans.cohorts x)) key →
  cleans (Trans.wal x) key.
Proof.
  intros Htx (id & l & c & Hin & Hc & Hst & ->).
  destruct (tx_cohorts _ _ _ _ _ _ _ _ _ Htx id l Hin) as (y & Hy & Hn & Hid & Hco).
  assert (y = Entity.ECow c) as -> by congruence. destruct Hco as (_ & _ & a & Ha & He & _).
  by eapply staged_cleans.
Qed.

Lemma cells_ok v q C D D' W h t (x : Trans.Trans M N) :
  tx_ok walq_id v q C D W h t x → (∀ key, cleans (Trans.wal x) key → D' key) →
  let ls := lm_entries (Trans.cohorts x) in
  NoDup ls.*1 ∧ NoDup ls.*2 ∧ ∀ i l, (i, l) ∈ ls → ∃ y, h !! l = Some y ∧ cell_ok C D' i y.
Proof.
  intros Htx HD. set (ls := lm_entries (Trans.cohorts x)). cbn zeta.
  assert (Hall : ∀ i l, (i, l) ∈ ls → ∃ y, h !! l = Some y ∧ cell_ok C D' i y).
  { intros i l Hin. destruct (tx_cohorts _ _ _ _ _ _ _ _ _ Htx i l Hin) as (y & Hy & Hn & Hid & Hc).
    exists y. split; [done|]. split; [done|]. split; [done|]. destruct y as [c|d]; [|apply Hc].
    destruct Hc as (_ & Hcur & a & Ha & He & Hact). rewrite Ha.
    split; [by eexists|]. split; [done|]. split; [intros [= ->]; apply Hact|].
    intros Hst. assert (Hcl : cleans (Trans.wal x) (to_eid (Cow.target c) i)) by by eapply staged_cleans.
    split; [by apply HD|]. by eapply tx_safe. }
  split; [apply lm_entries_nodup|]. split; [|done]. apply NoDup_snd; [apply lm_entries_nodup|].
  intros i j l Hi Hj. destruct (Hall i l Hi) as (y & Hy & _ & <- & _).
  destruct (Hall j l Hj) as (z & Hz & _ & <- & _). congruence.
Qed.

Lemma abortable_settled v q C D h h' ls t (x : Trans.Trans M N) :
  abortable v q C D h t x → heap_settled ls h h' → abortable v q C D h' t x.
Proof.
  intros [] [_ Hs]. split; try done. intros i l Hin. destruct (ab_cohorts0 i l Hin) as (y & Hy & Hact).
  destruct (Hs l y Hy) as (y' & Hy' & Hset). exists y'. split; [done|].
  destruct y as [c|], y' as [c'|]; try done. destruct Hset as (_ & _ & _ & _ & -> & _). done.
Qed.

(** The outcome of a commit that is to be undone. *)
Definition undone q C D W t s s' : Prop :=
  ∃ D', abortable (Trans.vol s') q C D' (Trans.heap s') t (Trans.tr s') ∧
    inv walq_id (Trans.vol s') q C D' ∧ view_ok (Trans.vol s') C D' W ∧
    (∀ key, D' key → grown_dirt D (Trans.wal (Trans.tr s)) key) ∧
    other_logs t (Trans.vol s) (Trans.vol s') ∧
    (steady (Trans.vol s) → steady (Trans.vol s')) ∧
    (∀ key, ¬ cleans (Trans.wal (Trans.tr s)) key →
       contents (Trans.vol s') Ents !! key = contents (Trans.vol s) Ents !! key) ∧
    Trans.cohorts (Trans.tr s') = Trans.cohorts (Trans.tr s) ∧
    same_entries (Trans.wal (Trans.tr s)) (Trans.wal (Trans.tr s')) ∧
    heap_settled (lm_entries (Trans.cohorts (Trans.tr s))) (Trans.heap s) (Trans.heap s').
Definition old_safe q C D W v : Prop :=
  ∃ D', inv walq_id v q C D' ∧ view_ok v C D' W ∧ ∀ key, D key → D' key.

Definition all_written q C D W t s w' s' : Prop :=
  let w := Trans.wal (Trans.tr s) in let D1 := grown_dirt D w in
  w' = Trans.wal (Trans.tr s') ∧ same_entries w w' ∧
  Trans.cohorts (Trans.tr s') = Trans.cohorts (Trans.tr s) ∧
  inv walq_id (Trans.vol s') q C D1 ∧ view_ok (Trans.vol s') C D1 W ∧
  stored Logs (contents (Trans.vol s') Logs) (derive_id t) w' ∧
  heap_settled (lm_entries (Trans.cohorts (Trans.tr s))) (Trans.heap s) (Trans.heap s') ∧
  written (Trans.heap s) (lm_entries (Trans.cohorts (Trans.tr s)))
    (contents (Trans.vol s) Ents) (contents (Trans.vol s') Ents) ∧
  (∀ l x, l ∈ (lm_entries (Trans.cohorts (Trans.tr s))).*2 → Trans.heap s !! l = Some x →
     ∃ x', Trans.heap s' !! l = Some x' ∧ finished x x') ∧
  other_logs t (Trans.vol s) (Trans.vol s') ∧
  (∀ a w2, log (contents (Trans.vol s') Logs) t a w2 →
     w2 = w' ∨ log (contents (Trans.vol s) Logs) t a w2) ∧
  (steady (Trans.vol s) → steady (Trans.vol s')).

Definition in_trouble s : Prop :=
  ¬ steady (Trans.vol s) ∨ U64 ≤ Wal.seq (Trans.wal (Trans.tr s)) + 1 ∨
  crowded (Trans.heap s) (lm_entries (Trans.cohorts (Trans.tr s))).

(** The second half: the entities, once the log is saved. *)
Lemma tx_write_spec s0 s q C D W t :
  let w := Trans.wal (Trans.tr s0) in let w' := Trans.wal (Trans.tr s) in
  let D1 := grown_dirt D w in
  tx_ok walq_id (Trans.vol s0) q C D W (Trans.heap s0) t (Trans.tr s0) →
  same_entries w w' → Trans.cohorts (Trans.tr s) = Trans.cohorts (Trans.tr s0) →
  Trans.heap s = Trans.heap s0 → Trans.uses s = Trans.uses s0 →
  contents (Trans.vol s) Ents = contents (Trans.vol s0) Ents →
  inv walq_id (Trans.vol s) q C D1 → view_ok (Trans.vol s) C D1 W →
  stored Logs (contents (Trans.vol s) Logs) (derive_id t) w' →
  other_logs t (Trans.vol s0) (Trans.vol s) →
  (∀ a w2, log (contents (Trans.vol s) Logs) t a w2 →
     w2 = w' ∨ log (contents (Trans.vol s0) Logs) t a w2) →
  (steady (Trans.vol s0) → steady (Trans.vol s)) →
  spec (ls ← Trans.the_cohorts; in_use ← Trans.commit_loop ls [];
        _ ← for_each Trans.check_unused in_use; Trans.the_wal) s
    (all_written q C D W t s0)
    (λ _ s', undone q C D W t s0 s' ∧ (¬ steady (Trans.vol s0) ∨ Trans.uses s0 ≠ []))
    (λ s', old_safe q C D W (Trans.vol s') ∧ in_trouble s0).
Proof.
  cbn zeta. intros Htx Hsame Hco Hh Hu Hents Hi Hv Hst Hol Hlg Hsteady.
  set (w := Trans.wal (Trans.tr s0)) in *. set (D1 := grown_dirt D w) in *.
  set (ls := lm_entries (Trans.cohorts (Trans.tr s0))).
  assert (HD1 : ∀ key, D key → D1 key) by by left.
  assert (Hab : abortable (Trans.vol s) q C D1 (Trans.heap s) t (Trans.tr s)).
  { destruct (tx_abortable _ _ _ _ _ _ _ _ Htx). destruct Hsame as (Hid & Htid & He).
    split; rewrite ?Hco, ?Hh; [done|by rewrite Htid|by rewrite Hid| | |done|done].
    - intros key Hk. apply ab_safe0. by apply (same_entries_cleans w (Trans.wal (Trans.tr s))).
    - intros w2 key Hw2 Hk _. by rewrite <- (stored_inj _ _ _ _ _ Hst Hw2) in Hk. }
  destruct (cells_ok _ _ _ _ D1 _ _ _ _ Htx ltac:(by right)) as (Hnd1 & Hnd2 & Hcells).
  fold ls in Hnd1, Hnd2, Hcells.
  apply spec_bind. unfold Trans.the_cohorts. apply spec_ask. rewrite Hco. fold ls.
  apply spec_bind. eapply spec_mono.
  - apply (commit_loop_spec C D1 W q ls [] s Hnd1 Hnd2); [by rewrite Hh|done|done].
  - rewrite Hh, Hents, Hu. intros in_use s1 (Hlog & Hhs & Hwr & Hfin & Hin & Huse).
    pose proof Hlog as (Ht1 & Hi1 & Hv1 & Hl1 & Hst1 & _).
    assert (Hall : ∀ s2, Trans.tr s2 = Trans.tr s1 → Trans.heap s2 = Trans.heap s1 →
      Trans.vol s2 = Trans.vol s1 → all_written q C D W t s0 (Trans.wal (Trans.tr s2)) s2).
    { intros s2 Ht2 Hh2 Hv2. unfold all_written. cbn zeta. rewrite Ht2, Ht1, Hh2, Hv2, Hl1. fold w ls.
      split_and!; try done.
      - intros t' a Hne. rewrite Hl1. by apply Hol.
      - by auto. }
    assert (Hund : ∀ s2, Trans.tr s2 = Trans.tr s1 → Trans.heap s2 = Trans.heap s1 →
      Trans.vol s2 = Trans.vol s1 → undone q C D W t s0 s2).
    { intros s2 Ht2 Hh2 Hv2. exists D1. rewrite Ht2, Hh2, Hv2, Ht1. fold ls w.
      assert (Hol1 : other_logs t (Trans.vol s0) (Trans.vol s1)) by (intros t' a Hne; rewrite Hl1; by apply Hol).
      assert (Hfr1 : ∀ key, ¬ cleans w key →
        contents (Trans.vol s1) Ents !! key = contents (Trans.vol s0) Ents !! key).
      { intros key Hk. destruct Hwr as [_ Hfr]. apply Hfr. intros Htk. apply Hk. by eapply target_cleans. }
      assert (Hsd : steady (Trans.vol s0) → steady (Trans.vol s1)) by auto.
      split_and!; try done.
      rewrite Hh in Hab. eapply abortable_settled; [|exact Hhs].
      destruct Hab. split; rewrite ?Hl1; done. }
    assert (Hchk : spec (for_each Trans.check_unused in_use) s1
      (λ _ s2, Trans.tr s2 = Trans.tr s1 ∧ Trans.heap s2 = Trans.heap s1 ∧ Trans.vol s2 = Trans.vol s1)
      (λ _ s2, Trans.tr s2 = Trans.tr s1 ∧ Trans.heap s2 = Trans.heap s1 ∧ Trans.vol s2 = Trans.vol s1 ∧
         Trans.uses s0 ≠ []) (λ _, False)).
    { apply (spec_for_each _ _ (λ _ s2, Trans.tr s2 = Trans.tr s1 ∧ Trans.heap s2 = Trans.heap s1 ∧
        Trans.vol s2 = Trans.vol s1)); [done|].
      intros pre i rest s2 Hiu (Ht2 & Hh2 & Hv2). unfold Trans.check_unused.
      assert (Hii : i ∈ in_use) by (rewrite Hiu; apply elem_of_app; right; left).
      assert (Hne : Trans.uses s0 ≠ []).
      { intros Hn. rewrite (Huse Hn) in Hii. by apply not_elem_of_nil in Hii. }
      apply spec_bind, spec_ask. destruct (Hin i Hii) as [Hni|Hil]; [by apply not_elem_of_nil in Hni|].
      apply spec_bind. rewrite Ht2, Ht1, Hco. unfold lm_get. fold ls.
      destruct (assoc i ls) as [l|] eqn:Hl; [|by apply assoc_None in Hl].
      apply spec_lift_ok, spec_bind. unfold Trans.strong_count.
      apply spec_bind, spec_ask, spec_bind, spec_modify, spec_ret.
      rewrite <- Ht1. destruct (1 <? _); [by apply spec_fail|by apply spec_ret]. }
    apply spec_bind. eapply spec_mono; [exact Hchk| | |done].
    + intros [] s2 (Ht2 & Hh2 & Hv2). unfold Trans.the_wal. apply spec_ask. by apply Hall.
    + intros e s2 (Ht2 & Hh2 & Hv2 & Hne). split; [by apply Hund|by right].
  - rewrite Hh, Hents. intros e s1 (Hlog & Hhs & Hns & Hfr). destruct Hlog as (Ht1 & Hi1 & Hv1 & Hl1 & Hst1 & _).
    split; [|left; intros Hs; by apply Hns, Hsteady]. exists D1. rewrite Ht1. fold ls w.
    assert (Hol1 : other_logs t (Trans.vol s0) (Trans.vol s1)) by (intros t' a Hne; rewrite Hl1; by apply Hol).
    assert (Hfr1 : ∀ key, ¬ cleans w key →
      contents (Trans.vol s1) Ents !! key = contents (Trans.vol s0) Ents !! key).
    { intros key Hk. apply Hfr. intros Htk. apply Hk. by eapply target_cleans. }
    assert (Hsd : steady (Trans.vol s0) → steady (Trans.vol s1)) by auto.
    split_and!; try done.
    rewrite Hh in Hab. eapply abortable_settled; [|exact Hhs]. destruct Hab. split; rewrite ?Hl1; done.
  - rewrite Hh. intros s1 (Hi1 & Hv1 & Htr). split; [by exists D1|].
    destruct Htr as [Hns|Hcr]; [left; intros Hs; by apply Hns, Hsteady|right; by right].
Qed.

Lemma inv_grown v q C D w t :
  inv walq_id v q C D → t ∈ WalQueue.doing q → stored Logs (contents v Logs) (derive_id t) w →
  inv walq_id v q C (grown_dirt D w).
Proof.
  intros [Hq []] Ht Hw. split; [done|]. split; try done.
  intros key [Hk|Hk]; [by apply lo_dirty|]. by exists t, w.
Qed.

(** [Trans::commit]: everything is on the volume and in the log, or what is committed is as it
    was and the transaction can be undone. *)
Lemma tx_commit_spec s q C D W t :
  tx_ok walq_id (Trans.vol s) q C D W (Trans.heap s) t (Trans.tr s) →
  inv walq_id (Trans.vol s) q C D → view_ok (Trans.vol s) C D W →
  spec Trans.commit s (all_written q C D W t s)
    (λ _ s', undone q C D W t s s' ∧ (¬ steady (Trans.vol s) ∨ Trans.uses s ≠ []))
    (λ s', old_safe q C D W (Trans.vol s') ∧ in_trouble s).
Proof.
  intros Htx Hi Hv. set (w := Trans.wal (Trans.tr s)). set (D1 := grown_dirt D w).
  assert (Hv1 : view_ok (Trans.vol s) C D1 W) by (eapply view_ok_mono; [exact Hv|by left]).
  unfold Trans.commit. apply spec_bind, spec_ask, spec_bind.
  destruct (Trans.wal_saved (Trans.tr s)) eqn:Hsv.
  - apply spec_ret. pose proof (tx_saved _ _ _ _ _ _ _ _ _ Htx Hsv) as Hst.
    apply (tx_write_spec s s q C D W t Htx); try done.
    + eapply inv_grown; [exact Hi|apply Htx|exact Hst].
    + by right.
  - apply spec_bind. eapply spec_mono.
    + apply (save_wal_spec s q C D t Hi); try apply Htx.
      intros e He. by apply (entry_named _ _ _ _ _ _ _ _ _ _ Htx).
    + intros [] s1 (Ht1 & Hh1 & Hu1 & Hi1 & Hs1 & He1 & Ho1 & Hl1 & Hst1). unfold Trans.set_saved, Trans.set_tr.
      apply spec_modify.
      apply (tx_write_spec s); cbn [Trans.tr Trans.heap Trans.uses Trans.vol Trans.wal Trans.cohorts Trans.txid];
        rewrite ?Ht1; try done.
      eapply view_ok_ents; [exact He1|exact Hv1].
    + intros e s1 (Ht1 & Hh1 & Hu1 & [Hs1 Hns]). split; [|by left]. exists D. rewrite Ht1, Hh1.
      split_and!; try done.
      * destruct (tx_abortable _ _ _ _ _ _ _ _ Htx). split; rewrite ?(proj1 Hs1); done.
      * by eapply inv_same.
      * eapply view_ok_ents; [apply Hs1|done].
      * by left.
      * intros t' a _. by rewrite (proj1 Hs1).
      * intros key _. by rewrite (proj1 Hs1).
      * apply heap_settled_refl.
    + intros s1 [Hs1 Htr]. split.
      * destruct Hs1 as [Hs1|[Hi1 He1]].
        -- exists D. split; [by eapply inv_same|]. split; [|done]. eapply view_ok_ents; [apply Hs1|done].
        -- exists D1. split; [exact Hi1|]. split; [eapply view_ok_ents; [exact He1|exact Hv1]|by left].
      * destruct Htr as [|Hov]; [by left|right; by left].
Qed.
End commit.
