(* ===== verification/TxView.v ===== *)
(** * What a commit makes of the committed part: the new entities, all of them or none. *)
From S2P Require Import Prelude Run Base Segment Armor Wal WalProofs WalMgr Cow Trans TxState TxCommit.
Import Arm.

Section view.
Context `{!ArmHash, !ArmHashLaws, !TxidHash, !TxidHashLaws}.
Context {T V M N : Type} {X : Kind → Type} `{!Volume V X, !VolumeLaws V X, !Cowable T, !CowableLaws T}.
Context `{!LinkedMapOps Eid Wal.Entry M, !LinkedMap Eid Wal.Entry M}.
Context `{!LinkedMapOps Eid Loc N, !LinkedMap Eid Loc N}.
Context `{!Serde (X Logs) (Wal.Wal M), !SerdeLaws (X Logs) (Wal.Wal M)}.
Context `{!Serde (X Logs) (WalQueue.WalQueue M), !SerdeLaws (X Logs) (WalQueue.WalQueue M)}.
Context `{!Serde (X Ents) (Cow.Cow T), !SerdeLaws (X Ents) (Cow.Cow T), !CowSerde T X}.
Context (walq_id : Eid) `{!WalLaws X M walq_id}.
#[local] Existing Instances wal_arm_laws.
Abbreviation Cow := (Cow.Cow T).
Abbreviation Entity := (Entity.Entity T).
Abbreviation St := (Trans.St T V M N).
Implicit Types (v : V) (q : WalQueue.WalQueue M) (w : Wal.Wal M) (key id : Eid) (t : Txid).
Implicit Types (C : gmap Eid (X Ents)) (D : Eid → Prop) (W : gmap Eid Cow) (c : Cow) (s : St).

(** ** The entities after a commit *)

Definition after_one (h : gmap Loc Entity) (il : Eid * Loc) W : gmap Eid Cow :=
  match h !! il.2 with
  | Some (Entity.ECow c) =>
      match Cow.staged c with
      | Some i => <[il.1 := i]> W
      | None => delete il.1 W
      end
  | _ => W
  end.
Definition after (h : gmap Loc Entity) (ls : list (Eid * Loc)) W : gmap Eid Cow :=
  foldr (after_one h) W ls.

Lemma after_other h ls W id : id ∉ ls.*1 → after h ls W !! id = W !! id.
Proof.
  induction ls as [|[i l] ls IH]; [done|]. intros [Hne Hn]%not_elem_of_cons. simpl in Hne.
  simpl. unfold after_one at 1. simpl. destruct (h !! l) as [[c|d]|]; [|by apply IH..].
  destruct (Cow.staged c); [rewrite lookup_insert_ne by done|rewrite lookup_delete_ne by done]; by apply IH.
Qed.

Lemma after_elem h ls W id l :
  NoDup ls.*1 → (id, l) ∈ ls →
  after h ls W !! id =
    match h !! l with Some (Entity.ECow c) => Cow.staged c | _ => W !! id end.
Proof.
  induction ls as [|[i l'] ls IH]; [intros _ Hin; by apply not_elem_of_nil in Hin|].
  intros [Hni Hnd]%NoDup_cons Hin. simpl in Hni. apply elem_of_cons in Hin as [[= <- <-]|Hin].
  - simpl. unfold after_one. simpl. pose proof (after_other h ls W id Hni) as Ho.
    destruct (h !! l) as [[c|d]|]; [|done..].
    destruct (Cow.staged c); [apply lookup_insert_eq|apply lookup_delete_eq].
  - simpl. unfold after_one. simpl. assert (Hne : i ≠ id).
    { intros ->. apply Hni. exact (list_elem_of_fmap_2 fst _ _ Hin). }
    rewrite <- (IH Hnd Hin). destruct (h !! l') as [[c|d]|]; [|done..].
    destruct (Cow.staged c); [by apply lookup_insert_ne|by apply lookup_delete_ne].
Qed.

(** ** The queue that has the transaction done *)

(** What is committed once the log [w] is. *)
Definition grown w v C : gmap Eid (X Ents) := commits (Wal.values w) (contents v Ents) C.
Definition left_dirt D w key : Prop := D key ∧ ¬ cleans w key.

Lemma entries_same_id q C D W h t (x : Trans.Trans M N) v e e' :
  tx_ok walq_id v q C D W h t x → e ∈ Wal.values (Trans.wal x) → e' ∈ Wal.values (Trans.wal x) →
  Wal.eid e = Wal.eid e' → e = e'.
Proof.
  intros Htx ([i e0] & Heq & He)%list_elem_of_fmap ([i' e0'] & Heq' & He')%list_elem_of_fmap Hid.
  simpl in Heq, Heq'. subst e0 e0'.
  rewrite (tx_keys _ _ _ _ _ _ _ _ _ Htx i e He), (tx_keys _ _ _ _ _ _ _ _ _ Htx i' e' He') in Hid. subst i'.
  pose proof (lm_entries_nodup (Wal.entries (Trans.wal x))) as Hnd.
  eapply assoc_elem in He; [|done]. eapply assoc_elem in He'; [|done]. congruence.
Qed.

Lemma elem_new e es key : e ∈ es → new_key e key = true → existsb (λ e, new_key e key) es = true.
Proof. intros Hin Hk. apply existsb_elem. by exists e. Qed.

(** Recycling the log, once it is done, spares what it committed. *)
Lemma recycles_spare q C C' D W h t (x : Trans.Trans M N) v m k key :
  tx_ok walq_id v q C D W h t x → recycles (Trans.wal x) k key →
  C' = commits (Wal.values (Trans.wal x)) m C → spare walq_id C' k key.
Proof.
  intros Htx (e & He & Ha & Hk) ->. destruct (entry_named _ _ _ _ _ _ _ _ _ _ Htx He) as (Hn & _).
  destruct (Wal.ent_type e) eqn:Hty; destruct Hk as [-> Hk].
  - destruct Hk as [a ->]. intros b i Hr Heq. apply (tx_retire _ _ _ _ _ _ _ _ _ Htx e He Ha Hty).
    assert (named i) by (destruct Hr as [->|[t' ->]]; [apply walq_named|apply derive_named]).
    by destruct (to_eid_inj _ _ _ _ Hn ltac:(done) Heq) as [_ ->].
  - subst key. unfold spare. apply eq_None_not_Some. intros [y [[Hnew _]|(_ & Hold & _)]%commits_Some].
    + apply existsb_elem in Hnew as (e' & He' & Hk). destruct (entry_named _ _ _ _ _ _ _ _ _ _ Htx He') as (Hn' & _).
      unfold new_key in Hk. destruct (Wal.action e') eqn:Ha', (Wal.ent_type e') eqn:Hty'; try done;
        apply bool_decide_eq_true in Hk.
      * symmetry in Hk. by apply to_eid_apart in Hk.
      * pose proof (entries_same_id _ _ _ _ _ _ _ _ _ _ Htx He He' Hk). congruence.
      * symmetry in Hk. by apply to_eid_apart in Hk.
    + eapply existsb_none in Hold; [|exact He]. unfold old_key in Hold. rewrite Ha, Hty in Hold.
      by rewrite bool_decide_true in Hold.
Qed.

Lemma enqueue_doing t t' q :
  t' ∈ WalQueue.doing (WalQueue.enqueue t q) ↔ t' ∈ WalQueue.doing q ∧ t' ≠ t.
Proof. simpl. by rewrite elem_of_difference, elem_of_singleton. Qed.
Lemma enqueue_done t t' q :
  t' ∈ WalQueue.done (WalQueue.enqueue t q) ↔ t' ∈ WalQueue.done q ∨ t' = t.
Proof. simpl. by rewrite elem_of_app, list_elem_of_singleton. Qed.

Lemma commit_target v0 v q C D W h t (x : Trans.Trans M N) w' :
  tx_ok walq_id v0 q C D W h t x → same_entries (Trans.wal x) w' →
  inv walq_id v0 q C D → inv walq_id v q C (grown_dirt D (Trans.wal x)) →
  stored Logs (contents v Logs) (derive_id t) w' → other_logs t v0 v →
  (∀ a w2, log (contents v Logs) t a w2 → w2 = w' ∨ log (contents v0 Logs) t a w2) →
  logs_ok walq_id v (WalQueue.enqueue t q) (grown (Trans.wal x) v C)
    (left_dirt (grown_dirt D (Trans.wal x)) (Trans.wal x)).
Proof.
  intros Htx Hsame [_ Hl0] [_ Hl] Hst Hol Hlg. set (w := Trans.wal x) in *.
  assert (Hlog : ∀ t' a w2, t' ≠ t → log (contents v Logs) t' a w2 → log (contents v0 Logs) t' a w2).
  { intros t' a w2 Hne. unfold log, arm_item. by rewrite Hol. }
  pose proof Hl as Hl'. destruct Hl'. split.
  - done.
  - done.
  - done.
  - done.
  - apply map_subseteq_spec. intros key y [[_ Hy]|(_ & _ & Hy)]%commits_Some; [done|].
    rewrite map_subseteq_spec in lo_kept. by apply lo_kept.
  - intros t' a w2 key [Ht' Hne]%enqueue_doing Hw2 Hcl.
    apply eq_None_not_Some. intros [y [[Hnew _]|(_ & _ & Hy)]%commits_Some].
    + apply existsb_elem in Hnew as (e & He & Hk%new_key_cleans).
      eapply (tx_apart _ _ _ _ _ _ _ _ _ Htx t' a w2 key); eauto. by exists e.
    + by rewrite (lo_doing t' a w2 key Ht' Hw2 Hcl) in Hy.
  - intros t' a w2 k key Ht' Hw2 Hr. apply enqueue_done in Ht' as [Ht'| ->].
    + pose proof (lo_done t' a w2 k key Ht' Hw2 Hr) as Hsp. destruct k; [exact Hsp|].
      unfold spare in *. apply eq_None_not_Some. intros [y [[Hnew _]|(_ & _ & Hy)]%commits_Some]; [|congruence].
      apply existsb_elem in Hnew as (e & He & Hk).
      rewrite (tx_done _ _ _ _ _ _ _ _ _ Htx t' a w2 key e Ht') in Hk; [done| |done|done].
      apply Hlog; [|done]. intros ->. apply (lo_apart t Ht'). by apply (tx_doing _ _ _ _ _ _ _ _ _ Htx).
    + eapply recycles_spare; [exact Htx| |done]. destruct (Hlg _ _ Hw2) as [->|Hold].
      * by apply (same_entries_recycles w w').
      * by eapply (tx_past _ _ _ _ _ _ _ _ _ Htx).
  - intros t' [Ht'| ->]%enqueue_done [Hd Hne]%enqueue_doing; [by apply (lo_apart t')|done].
  - intros t' [[Ht'| ->]%enqueue_done|[Ht' _]%enqueue_doing].
    + apply lo_known. by left.
    + apply lo_known. right. apply (tx_doing _ _ _ _ _ _ _ _ _ Htx).
    + apply lo_known. by right.
  - intros key [Hk Hncl]. destruct (lo_dirty key Hk) as (t' & w2 & Ht' & Hw2 & Hcl).
    exists t', w2. split; [|done]. apply enqueue_doing. split; [done|].
    intros ->. rewrite <- (stored_inj _ _ _ _ _ Hst Hw2) in Hcl.
    apply Hncl. by apply (same_entries_cleans w w').
Qed.

(** ** The committed entities afterwards *)

Section target.
Context (v0 v : V) q C D W (h : gmap Loc Entity) t (x : Trans.Trans M N).
Abbreviation w := (Trans.wal x).
Abbreviation ls := (lm_entries (Trans.cohorts x)).
Hypothesis Htx : tx_ok walq_id v0 q C D W h t x.

Lemma cohort_of id l : (id, l) ∈ ls → ∃ y, h !! l = Some y ∧ cohort_ok W t w id y.
Proof. apply (tx_cohorts _ _ _ _ _ _ _ _ _ Htx). Qed.

Lemma ls_inj id l l' : (id, l) ∈ ls → (id, l') ∈ ls → l = l'.
Proof.
  intros Hin Hin'. pose proof (lm_entries_nodup (Trans.cohorts x)) as Hnd.
  eapply assoc_elem in Hin; [|done]. eapply assoc_elem in Hin'; [|done]. congruence.
Qed.

(** The arm that the commit does not write. *)
Lemma not_target id l c :
  (id, l) ∈ ls → h !! l = Some (Entity.ECow c) → ¬ target_key h ls (to_eid (other (Cow.target c)) id).
Proof.
  intros Hin Hc (id' & l' & c' & Hin' & Hc' & _ & Heq).
  destruct (cohort_of id l Hin) as (y & _ & Hn & _). destruct (cohort_of id' l' Hin') as (y' & _ & Hn' & _).
  destruct (to_eid_inj _ _ _ _ Hn Hn' Heq) as [Ha <-]. pose proof (ls_inj _ _ _ Hin Hin') as <-.
  assert (c' = c) as -> by congruence. by apply other_ne in Ha.
Qed.

(** What the log says of an arm, it says of an entity of the transaction. *)
Lemma names_cohort e a id :
  e ∈ Wal.values w → named id →
  (clean_key e (to_eid a id) ∨ old_key e (to_eid a id) = true) →
  ∃ l c, (id, l) ∈ ls ∧ h !! l = Some (Entity.ECow c).
Proof.
  intros He Hn Hk. destruct (entry_named _ _ _ _ _ _ _ _ _ _ Htx He) as (Hne & l & y & Hin & Hy & Hc & Hen).
  assert (Hid : Wal.ent_type e = EntityType.Cow ∧ Wal.eid e = id).
  { unfold clean_key, old_key in Hk.
    assert (Hco : ∀ b, to_eid a id = to_eid b (Wal.eid e) → EntityType.Cow = EntityType.Cow ∧ Wal.eid e = id).
    { intros b Heq. by destruct (to_eid_inj _ _ _ _ Hn Hne Heq) as [_ ->]. }
    assert (Hdi : to_eid a id ≠ Wal.eid e) by by apply to_eid_apart.
    destruct (Wal.action e), (Wal.ent_type e); destruct Hk as [Hk|Hk]; try done;
      rewrite ?orb_true_iff, ?bool_decide_eq_true in Hk; try done; naive_solver. }
  destruct Hid as [Hty <-]. exists l. destruct y as [c|d]; [by exists c|].
  destruct Hc as (_ & _ & _ & Hd). destruct (Hd e Hen) as [Hd' _]. congruence.
Qed.

(** An arm committed before, of an entity that the transaction leaves alone. *)
Lemma commits_keep id a y :
  named id → C !! to_eid a id = Some y → (∀ l c, (id, l) ∈ ls → h !! l = Some (Entity.ECow c) → False) →
  grown w v C !! to_eid a id = Some y.
Proof.
  intros Hn Hy Hno. apply commits_Some. right. split; [left|split; [|done]].
  - apply existsb_none. intros e He. destruct (new_key e _) eqn:Hk; [|done]. apply new_key_cleans in Hk.
    destruct (names_cohort e a id He Hn (or_introl Hk)) as (l & c & Hin & Hc). by destruct (Hno l c).
  - apply existsb_none. intros e He. destruct (old_key e _) eqn:Hk; [|done].
    destruct (names_cohort e a id He Hn (or_intror Hk)) as (l & c & Hin & Hc). by destruct (Hno l c).
Qed.

Hypothesis Hi : inv walq_id v q C (grown_dirt D w).
Hypothesis Hv : view_ok v C (grown_dirt D w) W.
Hypothesis Hw : written h ls (contents v0 Ents) (contents v Ents).

Lemma staged_stored id l c i :
  (id, l) ∈ ls → h !! l = Some (Entity.ECow c) → Cow.staged c = Some i →
  placed (grown w v C) id i ∧
  older (I:=Cow) Ents (contents v Ents) id (other (Cow.arm i)) (Cow.seq i).
Proof.
  intros Hin Hc Hst. destruct (cohort_of id l Hin) as (y & Hy & Hco).
  assert (y = Entity.ECow c) as -> by congruence. destruct Hco as (Hn & Hid & Htid & Hcur & a & Ha & Hen & Hact).
  destruct (Cow.staged_fields _ _ Hst) as (_ & Hseq & Harm & _). rewrite Harm, Hseq.
  destruct Hw as [Hwr Hfr]. specialize (Hwr id l c i Hin Hc Hst). unfold placed. rewrite Harm. split; [split|].
  - assert (Hnew : new_key (Wal.mkEntry id a EntityType.Cow (if decide (a = New) then Cow.arm c else other (Cow.arm c)))
        (to_eid (Cow.target c) id) = true).
    { unfold new_key, Cow.target. simpl. rewrite Ha. unfold Cow.staged in Hst. rewrite Ha in Hst.
      destruct a; [..|done]; apply bool_decide_eq_true; f_equal; by repeat case_decide. }
    destruct (contents v Ents !! to_eid (Cow.target c) id) as [y|] eqn:Hy'; [|done].
    assert (grown w v C !! to_eid (Cow.target c) id = Some y) as ->; [|exact Hwr].
    apply commits_Some. left. split; [|done]. eapply elem_new; [|exact Hnew]. by eapply entry_elem.
  - apply eq_None_not_Some. intros [y [[Hnew _]|(_ & Hold & Hy')]%commits_Some].
    + apply existsb_elem in Hnew as (e & He & Hk).
      destruct (entry_named _ _ _ _ _ _ _ _ _ _ Htx He) as (Hne & _ & _ & _ & _ & _ & Hen').
      assert (Hcc : ∀ b, to_eid (other (Cow.target c)) id = to_eid b (Wal.eid e) →
        Wal.eid e = id ∧ b = other (Cow.target c)).
      { intros b Heq. by destruct (to_eid_inj _ _ _ _ Hn Hne Heq) as [-> ->]. }
      assert (Hcd : to_eid (other (Cow.target c)) id ≠ Wal.eid e) by by apply to_eid_apart.
      unfold new_key in Hk. destruct (Wal.action e), (Wal.ent_type e); try done;
        apply bool_decide_eq_true in Hk; try done; apply Hcc in Hk as [Heq Hb];
        rewrite Heq in Hen'; rewrite Hen in Hen'; injection Hen' as <-; simpl in Hb; unfold Cow.target in Hb;
        rewrite Ha in Hb; repeat case_decide; simplify_eq; by destruct (Cow.arm c).
    + apply entry_elem in Hen as Hel. eapply existsb_none in Hold; [|exact Hel].
      unfold old_key in Hold. simpl in Hold. unfold Cow.staged in Hst. unfold Cow.target in *. rewrite Ha in Hst, Hold, Hy'.
      destruct a; [..|done].
      * rewrite decide_True in Hy' by done. rewrite (tx_safe _ _ _ _ _ _ _ _ _ Htx) in Hy'; [done|].
        eexists. split; [exact Hel|]. by eexists.
      * rewrite decide_False in Hy', Hold by done. by rewrite bool_decide_true in Hold.
  - unfold older, arm_item. rewrite (Hfr _ (not_target id l c Hin Hc)).
    unfold Cow.target. rewrite Ha. destruct a.
    + rewrite decide_True by done. pose proof (tx_new _ _ _ _ _ _ _ _ _ Htx id l c Hin Hc Ha) as Hold. exact Hold.
    + rewrite decide_False by done. rewrite other_other. destruct Hact as (_ & c0 & Hc0 & Harm0 & Hseq0).
      destruct (Hv id c0 Hc0) as (_ & _ & [HC _] & _). rewrite Harm0 in HC.
      destruct (C !! to_eid (Cow.arm c) id) as [y0|] eqn:Hy0; [|done].
      pose proof (lo_kept _ _ _ _ _ (proj2 Hi)) as Hk. rewrite map_subseteq_spec in Hk. apply Hk in Hy0.
      assert (Hf := Hfr (to_eid (Cow.arm c) id)). rewrite Hy0 in Hf.
      assert (Hnt : ¬ target_key h ls (to_eid (Cow.arm c) id)).
      { pose proof (not_target id l c Hin Hc) as Hnt. unfold Cow.target in Hnt.
        rewrite Ha, decide_False, other_other in Hnt by done. exact Hnt. }
      rewrite <- (Hf Hnt). right. exists c0. split; [exact HC|]. change (item_seq c0) with (Cow.seq c0). lia.
    + unfold Cow.staged in Hst. by rewrite Ha in Hst.
Qed.

Lemma cohort_cases id :
  (∃ l c, (id, l) ∈ ls ∧ h !! l = Some (Entity.ECow c)) ∨
  (∀ l c, (id, l) ∈ ls → h !! l = Some (Entity.ECow c) → False) ∧ after h ls W !! id = W !! id.
Proof.
  pose proof (lm_entries_nodup (Trans.cohorts x)) as Hnd.
  destruct (assoc id ls) as [l|] eqn:Hl; cycle 1.
  - apply assoc_None in Hl. right. split; [|by apply after_other]. intros l c Hin.
    destruct Hl. exact (list_elem_of_fmap_2 fst _ _ Hin).
  - apply assoc_Some_elem in Hl as Hin. destruct (cohort_of id l Hin) as ([c|d] & Hy & _); [left; by exists l, c|].
    right. split; [|by rewrite (after_elem _ _ _ _ _ Hnd Hin), Hy].
    intros l' c Hin' Hc. pose proof (ls_inj _ _ _ Hin Hin') as <-. congruence.
Qed.

Lemma staged_whole c i : Cow.staged c = Some i → whole (Cow.id c) i.
Proof.
  intros Hc. destruct (Cow.staged_fields _ _ Hc) as (Hid & _ & _ & Ht & Ha). split; [done|]. split; [|done].
  rewrite (Cow.staged_value _ _ Hc). unfold Cow.staged in Hc. unfold Cow.target.
  destruct (Cow.action c) as [[]|] eqn:Hac; try done.
  - rewrite decide_True by done. unfold Cow.curr in Hc. by destruct (Cow.get_by (Cow.arm c) c).
  - rewrite decide_False by done. by destruct (Cow.get_by (other (Cow.arm c)) c).
Qed.

Lemma view_target : view_ok v (grown w v C) (left_dirt (grown_dirt D w) w) (after h ls W).
Proof.
  pose proof (lm_entries_nodup (Trans.cohorts x)) as Hnd. intros id c Hc.
  destruct (cohort_cases id) as [(l & c0 & Hin & Hc0)|[Hno Haf]].
  - rewrite (after_elem _ _ _ _ _ Hnd Hin), Hc0 in Hc. destruct (cohort_of id l Hin) as (y & Hy & Hco).
    assert (y = Entity.ECow c0) as -> by congruence. destruct Hco as (Hn & Hid & _). split; [done|].
    simpl in Hid. split; [rewrite <- Hid; by eapply staged_whole|].
    destruct (staged_stored id l c0 c Hin Hc0 Hc). by auto.
  - rewrite Haf in Hc. destruct (Hv id c Hc) as (Hn & Hid & [HC HCo] & Ho). split; [done|]. split; [done|]. split; [split|].
    + destruct (C !! to_eid (Cow.arm c) id) as [y|] eqn:Hy; [|done].
      by rewrite (commits_keep id _ y Hn Hy).
    + apply eq_None_not_Some. intros [y [[Hnew _]|(_ & _ & Hy)]%commits_Some]; [|congruence].
      apply existsb_elem in Hnew as (e & He & Hk%new_key_cleans).
      destruct (names_cohort e _ id He Hn (or_introl Hk)) as (l & c0 & Hin & Hc0). by apply (Hno l c0).
    + destruct Ho as [Hd|]; [left|by right]. split; [done|]. intros (e & He & Hk).
      destruct (names_cohort e _ id He Hn (or_introl Hk)) as (l & c0 & Hin & Hc0). by apply (Hno l c0).
Qed.
End target.
End view.
