(* ===== verification/TxWorld.v ===== *)
(** * The state of the transaction manager between calls.

    [world_ok] describes all transactions under way with the entities in memory, the logs and
    the committed entities [W]. Every call of the manager keeps it (TxOps.v, TxEnd.v) unless
    it leaves an aborted transaction that could not be wiped. *)
From S2P Require Import Prelude Run Base Segment Armor Wal WalProofs WalMgr Cow Trans TxMgr TxState TxCommit TxView.
Import Arm.

(** ** [Trans::abort] and [Trans::complete_commit]: the end of a transaction's entities. *)

Section abort.
Context `{!ArmHash, !ArmHashLaws, !TxidHash, !TxidHashLaws}.
Context {T V M N : Type} {X : Kind → Type} `{!Volume V X, !VolumeLaws V X, !Cowable T, !CowableLaws T}.
Context `{!LinkedMapOps Eid Wal.Entry M, !LinkedMap Eid Wal.Entry M}.
Context `{!LinkedMapOps Eid Loc N, !LinkedMap Eid Loc N}.
Context `{!Serde (X Logs) (Wal.Wal M), !SerdeLaws (X Logs) (Wal.Wal M)}.
Context `{!Serde (X Logs) (WalQueue.WalQueue M), !SerdeLaws (X Logs) (WalQueue.WalQueue M)}.
Context `{!Serde (X Ents) (Cow.Cow T), !SerdeLaws (X Ents) (Cow.Cow T), !CowSerde T X}.
Context (walq_id : Eid) `{!WalLaws X M walq_id}.
#[local] Existing Instances wal_arm_laws.
Abbreviation Cow := (Cow.Cow T).
Abbreviation Entity := (Entity.Entity T).
Abbreviation St := (Trans.St T V M N).
Implicit Types (v : V) (q : WalQueue.WalQueue M) (w : Wal.Wal M) (key id : Eid) (t : Txid).
Implicit Types (C : gmap Eid (X Ents)) (D : Eid → Prop) (W : gmap Eid Cow) (c : Cow) (s : St).

(** ** Each entity in turn *)

(** [f] was applied to the entities of [ls]. *)
Definition mapped (f : Entity → res Entity) (ls : list (Eid * Loc)) (h h' : gmap Loc Entity) : Prop :=
  (∀ l, l ∉ ls.*2 → h' !! l = h !! l) ∧
  ∀ l x, l ∈ ls.*2 → h !! l = Some x → ∃ y, f x = Ok y ∧ h' !! l = Some y.

Definition each (f : Entity → res Entity) (il : Eid * Loc) : run St unit :=
  e ← Trans.entity il.2; e ← lift (f e); Trans.set_entity il.2 e.

Lemma each_spec f ls s :
  NoDup ls.*2 → (∀ l, l ∈ ls.*2 → ∃ x y, Trans.heap s !! l = Some x ∧ f x = Ok y) →
  spec (for_each (each f) ls) s
    (λ _ s', ∃ h', s' = Trans.mkSt (Trans.tr s) h' (Trans.uses s) (Trans.vol s) ∧ mapped f ls (Trans.heap s) h')
    (λ _ _, False) (λ _, False).
Proof.
  revert s. induction ls as [|[i l] ls IH]; intros s Hnd Hall.
  { apply spec_ret. exists (Trans.heap s). split; [by destruct s|]. split; [done|].
    intros l x Hin. by apply not_elem_of_nil in Hin. }
  apply NoDup_cons in Hnd as [Hn Hnd]. simpl in Hn.
  destruct (Hall l ltac:(left)) as (x & y & Hx & Hy).
  cbn [for_each]. apply spec_bind. unfold each at 1. cbn [snd]. apply spec_bind. unfold Trans.entity.
  apply spec_bind, spec_ask. rewrite Hx. apply spec_lift_ok, spec_bind. rewrite Hy.
  apply spec_lift_ok. unfold Trans.set_entity. apply spec_modify.
  eapply spec_mono; [apply IH; [done|]| |done|done]; cbn [Trans.heap Trans.tr Trans.uses Trans.vol].
  - intros l' Hin. assert (l' ≠ l) by (by intros ->). rewrite lookup_insert_ne by done. apply Hall. by right.
  - intros [] s' (h' & -> & Hf & Hm). exists h'. split; [done|]. split.
    + intros l' [Hne Hni]%not_elem_of_cons. simpl in Hne. rewrite Hf by done. by apply lookup_insert_ne.
    + intros l' z [->|Hin]%elem_of_cons Hz.
      * simpl in *. rewrite Hx in Hz. injection Hz as <-. exists y. split; [done|].
        rewrite Hf by done. apply lookup_insert_eq.
      * apply Hm; [done|]. rewrite lookup_insert_ne; [done|]. by intros ->.
Qed.

Lemma complete_commit_spec s :
  NoDup (lm_entries (Trans.cohorts (Trans.tr s))).*2 →
  (∀ i l, (i, l) ∈ lm_entries (Trans.cohorts (Trans.tr s)) → ∃ y, Trans.heap s !! l = Some y ∧
     match y with Entity.ECow c => is_Some (Cow.action c) | Entity.EData _ => True end) →
  spec Trans.complete_commit s
    (λ _ s', Trans.vol s' = Trans.vol s ∧
       mapped Entity.complete_commit (lm_entries (Trans.cohorts (Trans.tr s))) (Trans.heap s) (Trans.heap s'))
    (λ _ _, False) (λ _, False).
Proof.
  intros Hnd Hall. unfold Trans.complete_commit. apply spec_bind. unfold Trans.the_cohorts. apply spec_ask.
  apply spec_bind. eapply spec_mono; [apply (each_spec Entity.complete_commit); [done|]| |done|done].
  - intros l ([i l'] & Hl & Hin)%list_elem_of_fmap. simpl in Hl. subst l'.
    destruct (Hall i l Hin) as (y & Hy & Ha). exists y. destruct y as [c|d]; [|by eexists].
    destruct Ha as [a Ha]. unfold Entity.complete_commit, Cow.complete_commit. rewrite Ha.
    destruct a; by eexists.
  - intros [] s' (h' & -> & Hm). unfold Trans.set_cohorts, Trans.set_tr. apply spec_modify. by split.
Qed.

(** ** Undoing *)

Definition nodirt : Eid → Prop := λ _, False.

(** What cannot be wiped stays dirty; nothing committed is lost. *)
Definition kept_view q C D W v : Prop :=
  ∃ D', inv walq_id v q C D' ∧ view_ok v C D' W ∧ ∀ key, D' key → D key.

Lemma inv_nodirt v q C D : inv walq_id v q C D → inv walq_id v q C nodirt.
Proof. intros [Hq []]. split; [done|]. by split. Qed.

(** Wiped arms are as good as older ones. *)
Lemma view_ok_wiped v C D W :
  view_ok v C D W → (∀ key, D key → contents v Ents !! key = None) → view_ok v C nodirt W.
Proof.
  intros Hv HD id c Hc. destruct (Hv id c Hc) as (Hn & Hid & HC & Ho). split_and!; try done.
  right. destruct Ho as [Hd|]; [|done]. left. by apply HD.
Qed.

Lemma tx_abort_spec s q C D W t :
  abortable (Trans.vol s) q C D (Trans.heap s) t (Trans.tr s) →
  inv walq_id (Trans.vol s) q C D → view_ok (Trans.vol s) C D W →
  let w := Trans.wal (Trans.tr s) in
  (∀ key, D key → cleans w key) →
  spec Trans.abort s
    (λ _ s', inv walq_id (Trans.vol s') q C nodirt ∧ view_ok (Trans.vol s') C nodirt W ∧
       mapped Entity.abort (lm_entries (Trans.cohorts (Trans.tr s))) (Trans.heap s) (Trans.heap s') ∧
       absent Logs (contents (Trans.vol s') Logs) (derive_id t) ∧
       other_logs t (Trans.vol s) (Trans.vol s') ∧
       (∀ key, contents (Trans.vol s') Ents !! key = contents (Trans.vol s) Ents !! key ∨
          (cleans w key ∧ contents (Trans.vol s') Ents !! key = None)) ∧
       (steady (Trans.vol s) → steady (Trans.vol s')))
    (λ _ s', kept_view q C D W (Trans.vol s') ∧ ¬ steady (Trans.vol s))
    (λ s', kept_view q C D W (Trans.vol s') ∧ ¬ steady (Trans.vol s)).
Proof.
  intros Hab Hi Hv w HD. destruct Hab as [Hdo Htid Hid HC _ Hnd Hco]. fold w in Htid, Hid, HC.
  unfold Trans.abort. apply spec_bind. unfold Trans.the_cohorts. apply spec_ask, spec_bind.
  eapply spec_mono; [apply (each_spec Entity.abort); [done|]| |done|done].
  { intros l ([i l'] & Hl & Hin)%list_elem_of_fmap. simpl in Hl. subst l'.
    destruct (Hco i l Hin) as (y & Hy & Ha). exists y. destruct y as [c|d]; [|by eexists].
    destruct Ha as [a Ha]. unfold Entity.abort, Cow.abort. rewrite Ha. destruct a; by eexists. }
  intros [] s' (h' & -> & Hm). apply spec_bind. unfold Trans.set_cohorts, Trans.set_tr. apply spec_modify.
  cbn [Trans.tr Trans.heap Trans.uses Trans.vol Trans.wal Trans.txid Trans.wal_saved].
  apply spec_bind. unfold Trans.the_wal. apply spec_ask. cbn [Trans.tr Trans.wal]. fold w.
  apply spec_bind, on_vol_tx_spec. cbn [Trans.tr Trans.heap Trans.uses Trans.vol].
  set (v := Trans.vol s) in *.
  (* entities wiped *)
  assert (Hkeep : ∀ v', pruned (ents_of (cleans w)) v v' → inv walq_id v' q C D ∧ view_ok v' C D W).
  { intros v' Hp. split; [|by eapply view_ok_pruned]. eapply inv_uncommitted; [exact Hi|].
    eapply pruned_mono; [exact Hp|]. intros k key [-> Hk]. split; [done|by apply HC]. }
  eapply spec_mono; [apply clean_aborted_spec| | |].
  - intros [] v1 [Hp1 Hn1]. destruct (Hkeep v1 Hp1) as [Hi1 Hv1].
    apply (view_ok_wiped _ _ D) in Hv1; [|by auto]. apply inv_nodirt in Hi1.
    apply on_vol_tx_spec. cbn [Trans.tr Trans.heap Trans.uses Trans.vol]. rewrite Hid.
    assert (Hst1 : steady v → steady v1) by apply Hp1.
    assert (Hkeep2 : ∀ v2, pruned (arms_of Logs (derive_id t)) v1 v2 →
      inv walq_id v2 q C nodirt ∧ view_ok v2 C nodirt W).
    { intros v2 Hp2. split; [|by eapply view_ok_pruned]. destruct Hi1 as [Hq1 Hl1]. split.
      - eapply stored_pruned; [exact Hp2| |exact Hq1]. intros a [_ [b Heq]]. by apply (walq_key walq_id) in Heq.
      - eapply (logs_ok_pruned walq_id); [exact Hl1|exact Hp2| |done]. by intros key [? _]. }
    eapply spec_mono; [apply (remove_both_spec Logs)| | |]; cbn [Trans.vol Trans.heap].
    + intros [] v2 [Hp2 Hab2]. destruct (Hkeep2 v2 Hp2) as [Hi2 Hv2].
      split; [done|]. split; [done|]. split; [done|]. split; [done|]. split; [|split].
      * intros t' a Hne. rewrite (pruned_keep _ _ _ _ _ Hp2); cycle 1.
        { intros [_ [b Heq]]. by destruct (log_key _ _ _ _ Heq). }
        apply (pruned_keep _ _ _ _ _ Hp1). by intros [? _].
      * intros key. rewrite (pruned_keep _ _ _ _ _ Hp2) by (by intros [? _]).
        destruct (proj1 Hp1 Ents key) as [->|[[_ ?] ?]]; auto.
      * intros Hs. by apply Hp2, Hst1.
    + intros _ v2 [Hp2 Hn2]. destruct (Hkeep2 v2 Hp2). split; [by exists nodirt|]. intros Hs. by apply Hn2, Hst1.
    + intros v2 [Hp2 Hn2]. destruct (Hkeep2 v2 Hp2). split; [by exists nodirt|]. intros Hs. by apply Hn2, Hst1.
  - intros _ v1 [Hp1 Hn1]. destruct (Hkeep v1 Hp1). split; [by exists D|done].
  - intros v1 [Hp1 Hn1]. destruct (Hkeep v1 Hp1). split; [by exists D|done].
Qed.
End abort.

Section world.
Context `{!ArmHash, !ArmHashLaws, !TxidHash, !TxidHashLaws, !HashOrder, !HashOrderLaws}.
Context {T V M N : Type} {X : Kind → Type} `{!Volume V X, !VolumeLaws V X, !Cowable T, !CowableLaws T}.
Context `{!LinkedMapOps Eid Wal.Entry M, !LinkedMap Eid Wal.Entry M}.
Context `{!LinkedMapOps Eid Loc N, !LinkedMap Eid Loc N}.
Context `{!Serde (X Logs) (Wal.Wal M), !SerdeLaws (X Logs) (Wal.Wal M)}.
Context `{!Serde (X Logs) (WalQueue.WalQueue M), !SerdeLaws (X Logs) (WalQueue.WalQueue M)}.
Context `{!Serde (X Ents) (Cow.Cow T), !SerdeLaws (X Ents) (Cow.Cow T), !CowSerde T X}.
Context (walq_id : Eid) `{!WalLaws X M walq_id}.
#[local] Existing Instances wal_arm_laws.
Abbreviation Cow := (Cow.Cow T).
Abbreviation Entity := (Entity.Entity T).
Abbreviation World := (TxMgr.World T V M N).
Abbreviation Trans := (Trans.Trans M N).
Implicit Types (v : V) (q : WalQueue.WalQueue M) (key id : Eid) (t : Txid) (x : Trans).
Implicit Types (C : gmap Eid (X Ents)) (D : Eid → Prop) (W : gmap Eid Cow) (c : Cow) (w : World) (u : Wal.Wal M).
Implicit Types (h : gmap Loc Entity) (en : gmap Eid Txid).

(** ** Entities in memory and the committed ones *)

(** The value up to what is not serialised. *)
Definition tidied (o o' : option T) : Prop := ∃ n, o' = Nat.iter n (fmap (M:=option) tidy) o.

Lemma tidied_refl o : tidied o o.
Proof. by exists O. Qed.
Lemma tidied_step o o' : tidied o o' → tidied o (tidy <$> o').
Proof. intros [n ->]. by exists (S n). Qed.
Lemma tidied_Some o o' : tidied o o' → is_Some o → is_Some o'.
Proof. intros [n ->] Ho. induction n as [|n IH]; [done|]. simpl. by apply fmap_is_Some. Qed.

(** The entity in memory for the committed one: the same arm and value. *)
Definition matches c0 c : Prop :=
  Cow.arm c = Cow.arm c0 ∧ Cow.seq c0 ≤ Cow.seq c ∧ tidied (Cow.curr c0) (Cow.curr c).

Lemma matches_pending c0 c c' : matches c0 c → Cow.pending c c' → matches c0 c'.
Proof.
  intros (Ha & Hs & Hc) (_ & Ha' & Hs' & _ & _ & Hc'). split; [congruence|]. split; [lia|].
  destruct (Cow.action c) as [[]|]; try (by rewrite Hc').
  all: destruct Hc' as [-> | ->]; [done|by apply tidied_step].
Qed.

(** An entity of a transaction under way or of none. *)
Definition cow_ok W (txs : gmap Txid Trans) l c : Prop :=
  named (Cow.id c) ∧ ¬ reserved walq_id (Cow.id c) ∧
  (∀ c0, W !! Cow.id c = Some c0 → matches c0 c) ∧
  match Cow.txid c with
  | None => Cow.action c = None
  | Some t => ∃ x a, txs !! t = Some x ∧ (Cow.id c, l) ∈ lm_entries (Trans.cohorts x) ∧ Cow.action c = Some a
  end.

(** ** One transaction *)

Record tx_in v q C W h en t x : Prop := {
  ti_txid : Wal.txid (Trans.wal x) = t;
  ti_id : Wal.id (Trans.wal x) = derive_id t;
  ti_older : older (I:=Wal.Wal M) Logs (contents v Logs) (derive_id t) (Wal.arm (Trans.wal x))
    (Wal.seq (Trans.wal x) + 1);
  ti_saved : Trans.wal_saved x = true → stored Logs (contents v Logs) (derive_id t) (Trans.wal x);
  ti_keys i e : (i, e) ∈ lm_entries (Wal.entries (Trans.wal x)) → Wal.eid e = i;
  ti_cohorts i l : (i, l) ∈ lm_entries (Trans.cohorts x) →
    en !! i = Some t ∧ ∃ y, h !! l = Some y ∧ cohort_ok W t (Trans.wal x) i y;
  ti_entries i e : entry (Trans.wal x) i = Some e → i ∈ (lm_entries (Trans.cohorts x)).*1;
  ti_safe key : cleans (Trans.wal x) key → C !! key = None;
  ti_past a u k key : log (contents v Logs) t a u → recycles u k key → recycles (Trans.wal x) k key;
  ti_logged a u e : log (contents v Logs) t a u → e ∈ Wal.values u →
    named (Wal.eid e) ∧ en !! Wal.eid e = Some t;
  ti_new i l c : (i, l) ∈ lm_entries (Trans.cohorts x) → h !! l = Some (Entity.ECow c) →
    Cow.action c = Some New →
    older (I:=Cow) Ents (contents v Ents) i (other (Cow.arm c)) (Cow.seq c + 1);
  ti_fresh t' a u e' e : t' ∈ WalQueue.done q → log (contents v Logs) t' a u → e' ∈ Wal.values u →
    e ∈ Wal.values (Trans.wal x) → Wal.action e = New → Wal.eid e ≠ Wal.eid e';
  ti_retire e : e ∈ Wal.values (Trans.wal x) → Wal.action e = Delete →
    Wal.ent_type e = EntityType.Cow → ¬ reserved walq_id (Wal.eid e)
}.

(** Nothing that belongs to the transaction has changed. *)
Record tx_frame v q C W h en t x v' q' C' W' h' en' : Prop := {
  fr_logs a : contents v' Logs !! to_eid a (derive_id t) = contents v Logs !! to_eid a (derive_id t);
  fr_done t' a u : t' ∈ WalQueue.done q' → log (contents v' Logs) t' a u →
    (t' ∈ WalQueue.done q ∧ log (contents v Logs) t' a u) ∨
    ∀ e, e ∈ Wal.values u → en !! Wal.eid e ≠ Some t;
  fr_ents i a : named i → en !! i = Some t →
    contents v' Ents !! to_eid a i = contents v Ents !! to_eid a i ∨ contents v' Ents !! to_eid a i = None;
  fr_safe e key : e ∈ Wal.values (Trans.wal x) → named (Wal.eid e) → en !! Wal.eid e = Some t →
    clean_key e key → C !! key = None → C' !! key = None;
  fr_view i : en !! i = Some t → W' !! i = W !! i;
  fr_heap i l : (i, l) ∈ lm_entries (Trans.cohorts x) → h' !! l = h !! l;
  fr_own i : en !! i = Some t → en' !! i = Some t
}.

Lemma tx_in_entry v q C W h en t x e :
  tx_in v q C W h en t x → e ∈ Wal.values (Trans.wal x) → named (Wal.eid e) ∧ en !! Wal.eid e = Some t.
Proof.
  intros [] ([i e0] & Heq & He)%list_elem_of_fmap. simpl in Heq. subst e0.
  rewrite (ti_keys0 i e He).
  assert (Hen : entry (Trans.wal x) i = Some e) by (apply assoc_elem; [apply lm_entries_nodup|done]).
  apply ti_entries0 in Hen as ([i' l] & Hi & Hin)%list_elem_of_fmap. simpl in Hi. subst i'.
  destruct (ti_cohorts0 i l Hin) as (Hen' & y & _ & Hn & _). done.
Qed.

Lemma tx_in_frame v q C W h en t x v' q' C' W' h' en' :
  tx_in v q C W h en t x → tx_frame v q C W h en t x v' q' C' W' h' en' → tx_in v' q' C' W' h' en' t x.
Proof.
  intros Htx [Flog Fdone Fent Fsafe Fview Fheap Fown].
  pose proof (λ e, tx_in_entry v q C W h en t x e Htx) as Hte. pose proof Htx as Htx'. destruct Htx'.
  assert (Hitem : ∀ a, arm_item (I:=Wal.Wal M) Logs (contents v' Logs) (derive_id t) a
    = arm_item Logs (contents v Logs) (derive_id t) a) by (intros a; unfold arm_item; by rewrite Flog).
  split; try done.
  - unfold older. rewrite Hitem, Flog. done.
  - intros Hs. destruct (ti_saved0 Hs) as (H1' & H2' & H3'). unfold stored, older. rewrite !Hitem, Flog. done.
  - intros i l Hin. destruct (ti_cohorts0 i l Hin) as (Hen & y & Hy & Hn & Hid & Hco). split; [by apply Fown|].
    exists y. rewrite (Fheap i l Hin). split; [done|]. split; [done|]. split; [done|].
    destruct y as [c|d]; [|done]. by rewrite (Fview i Hen).
  - intros key Hk. destruct Hk as (e & He & Hk). destruct (Hte e He) as [Hn Hen].
    eapply Fsafe; try done. apply ti_safe0. by exists e.
  - intros a u k key. unfold log. rewrite Hitem. apply ti_past0.
  - intros a u e. unfold log. rewrite Hitem. intros Hw He. destruct (ti_logged0 a u e Hw He). auto.
  - intros i l c Hin Hc Ha. rewrite (Fheap i l Hin) in Hc.
    destruct (ti_cohorts0 i l Hin) as (Hen & y & _ & Hn & _). specialize (ti_new0 i l c Hin Hc Ha).
    unfold older, arm_item in *. destruct (Fent i (other (Cow.arm c)) Hn Hen) as [->|]; [done|by left].
  - intros t' a u e' e Ht' Hw' He' He Ha. destruct (Fdone t' a u Ht' Hw') as [[Hd Hw]|Hne]; [by eapply ti_fresh0|].
    intros Heq. apply (Hne e' He'). rewrite <- Heq. by apply (Hte e).
Qed.

(** ** All of them *)

(** Transactions in [skip] are in the middle of ending. *)
Record world_with (skip : Txid → Prop) w q C D W : Prop := {
  wo_inv : inv walq_id (TxMgr.vol w) q C D;
  wo_mem : mem_of walq_id (TxMgr.walq_mgr w) q;
  wo_view : view_ok (TxMgr.vol w) C D W;
  wo_doing t : t ∈ WalQueue.doing q ↔ is_Some (TxMgr.txs w !! t);
  wo_abort : WalQueue.aborting (WalQueueMgr.walq (TxMgr.walq_mgr w)) = ∅;
  wo_txs t x : TxMgr.txs w !! t = Some x → ¬ skip t →
    tx_in (TxMgr.vol w) q C W (TxMgr.heap w) (TxMgr.ents w) t x;
  wo_ents i t : TxMgr.ents w !! i = Some t → is_Some (TxMgr.txs w !! t);
  wo_heap l c : TxMgr.heap w !! l = Some (Entity.ECow c) → cow_ok W (TxMgr.txs w) l c;
  wo_uniq l l' c c' : TxMgr.heap w !! l = Some (Entity.ECow c) → TxMgr.heap w !! l' = Some (Entity.ECow c') →
    Cow.id c = Cow.id c' → l = l';
  wo_wmark : 0 ≤ WalQueueMgr.txid_wmark (TxMgr.walq_mgr w);
  wo_threads th t : TxMgr.current_or_empty w th = t → t ≠ 0 → is_Some (TxMgr.txs w !! t);
  wo_alone th th' t : TxMgr.current_or_empty w th = t → TxMgr.current_or_empty w th' = t → t ≠ 0 → th = th'
}.
Definition nobody (t : Txid) : Prop := False.

(** The invariant: between calls nothing is dirty. *)
Definition world_ok w W : Prop := ∃ q C, world_with nobody w q C nodirt W.

(** What the volume holds, whatever became of the memory. *)
Definition holds v W : Prop := ∃ q C D, inv walq_id v q C D ∧ view_ok v C D W.

Lemma world_holds w W : world_ok w W → holds (TxMgr.vol w) W.
Proof. intros (q & C & Hw). exists q, C, nodirt. by split; [apply (wo_inv _ _ _ _ _ _ Hw)|apply (wo_view _ _ _ _ _ _ Hw)]. Qed.

(** Logs of different transactions name different entities. *)
Lemma clean_key_apart e e' key :
  named (Wal.eid e) → named (Wal.eid e') → clean_key e key → clean_key e' key → Wal.eid e = Wal.eid e'.
Proof.
  intros Hn Hn'. unfold clean_key.
  assert (Hcc : ∀ a b, to_eid a (Wal.eid e) = to_eid b (Wal.eid e') → Wal.eid e = Wal.eid e').
  { intros a b Heq. by destruct (to_eid_inj _ _ _ _ Hn Hn' Heq). }
  assert (Hcd : ∀ a, to_eid a (Wal.eid e) ≠ Wal.eid e') by (intros a; by apply to_eid_apart).
  assert (Hdc : ∀ a, to_eid a (Wal.eid e') ≠ Wal.eid e) by (intros a; by apply to_eid_apart).
  destruct (Wal.action e), (Wal.ent_type e), (Wal.action e'), (Wal.ent_type e'); try done; naive_solver.
Qed.

Lemma world_tx_ok w q C W t x :
  world_with nobody w q C nodirt W → TxMgr.txs w !! t = Some x →
  tx_ok walq_id (TxMgr.vol w) q C nodirt W (TxMgr.heap w) t x.
Proof.
  intros Hw Hx. pose proof (wo_txs _ _ _ _ _ _ Hw t x Hx (λ f, f)) as Htx.
  assert (Hte : ∀ e, e ∈ Wal.values (Trans.wal x) → named (Wal.eid e) ∧ TxMgr.ents w !! Wal.eid e = Some t)
    by (intros e; by apply (tx_in_entry _ _ _ _ _ _ _ _ e Htx)).
  pose proof Htx as Htx'. destruct Htx'. split; try done.
  - apply (wo_doing _ _ _ _ _ _ Hw). by exists x.
  - intros i l Hin. by destruct (ti_cohorts0 i l Hin).
  - intros t' a u key Ht' Hne Hw' (e & He & Hk) (e' & He' & Hk').
    apply (wo_doing _ _ _ _ _ _ Hw) in Ht' as [x' Hx'].
    destruct (ti_logged _ _ _ _ _ _ _ _ (wo_txs _ _ _ _ _ _ Hw t' x' Hx' (λ f, f)) a u e Hw' He) as [Hn Hen]. destruct (Hte e' He') as [Hn' Hen'].
    pose proof (clean_key_apart _ _ _ Hn Hn' Hk Hk') as Heq. rewrite Heq in Hen. congruence.
  - intros t' a u key e Ht' Hw' (e' & He' & Ha' & Hk') He.
    destruct (Wal.ent_type e') eqn:Hty'; destruct Hk' as [Hk'' Hk']; [done|]. subst key.
    pose proof (lo_named _ _ _ _ _ (proj2 (wo_inv _ _ _ _ _ _ Hw)) t' a u e' Hw' He') as Hn'. destruct (Hte e He) as [Hn Hen].
    destruct (new_key e _) eqn:Hk; [|done]. unfold new_key in Hk.
    assert (Hap : ∀ b, to_eid b (Wal.eid e) ≠ Wal.eid e') by (intros b; by apply to_eid_apart).
    destruct (Wal.action e) eqn:Ha, (Wal.ent_type e); try done; apply bool_decide_eq_true in Hk.
    + symmetry in Hk. by apply Hap in Hk.
    + symmetry in Hk. by apply (ti_fresh0 t' a u e' e Ht' Hw' He' He Ha) in Hk.
    + symmetry in Hk. by apply Hap in Hk.
Qed.
End world.
