(* ===== verification/TxEnd.v ===== *)
(** * The end of a transaction, in the world of all: [TxMgr::abort_trans] and
    [TxMgr::commit_trans]. *)
From S2P Require Import Prelude Run Base Segment Armor Wal WalProofs WalMgr Cow Trans TxMgr TxState TxCommit TxView TxWorld.
Import Arm.

Section ending.
Context `{!ArmHash, !ArmHashLaws, !TxidHash, !TxidHashLaws, !HashOrder, !HashOrderLaws}.
Context {T V M N : Type} {X : Kind → Type} `{!Volume V X, !VolumeLaws V X, !Cowable T, !CowableLaws T}.
Context `{!LinkedMapOps Eid Wal.Entry M, !LinkedMap Eid Wal.Entry M}.
Context `{!LinkedMapOps Eid Loc N, !LinkedMap Eid Loc N}.
Context `{!Serde (X Logs) (Wal.Wal M), !SerdeLaws (X Logs) (Wal.Wal M)}.
Context `{!Serde (X Logs) (WalQueue.WalQueue M), !SerdeLaws (X Logs) (WalQueue.WalQueue M)}.
Context `{!Serde (X Ents) (Cow.Cow T), !SerdeLaws (X Ents) (Cow.Cow T), !CowSerde T X}.
Context (walq_id : Eid) `{!WalLaws X M walq_id}.
#[local] Existing Instances wal_arm_laws.
Abbreviation Cow := (Cow.Cow T).
Abbreviation Entity := (Entity.Entity T).
Abbreviation World := (TxMgr.World T V M N).
Abbreviation Trans := (Trans.Trans M N).
Abbreviation world_with := (world_with walq_id).
Implicit Types (v : V) (q : WalQueue.WalQueue M) (key id : Eid) (t : Txid) (x : Trans).
Implicit Types (C : gmap Eid (X Ents)) (D : Eid → Prop) (W : gmap Eid Cow) (c : Cow) (w : World) (u : Wal.Wal M).
Implicit Types (h : gmap Loc Entity) (en : gmap Eid Txid).

(** ** Calls on the parts of the world *)

Definition put_tx t (s : Trans.St T V M N) w : World :=
  TxMgr.mkWorld (<[t := Trans.tr s]> (TxMgr.txs w)) (TxMgr.ents w) (TxMgr.walq_mgr w) (Trans.vol s)
    (Trans.heap s) (Trans.uses s) (TxMgr.thread_txid w).
Definition put_walq (s : WalQueueMgr.St V M) w : World :=
  TxMgr.mkWorld (TxMgr.txs w) (TxMgr.ents w) (WalQueueMgr.mgr s) (WalQueueMgr.vol s) (TxMgr.heap w)
    (TxMgr.uses w) (TxMgr.thread_txid w).

Lemma on_tx_spec {A} t (m : run (Trans.St T V M N) A) w x (Q : A → World → Prop) E (H' : World → Prop) :
  TxMgr.txs w !! t = Some x →
  spec m (Trans.mkSt x (TxMgr.heap w) (TxMgr.uses w) (TxMgr.vol w)) (λ a s, Q a (put_tx t s w))
    (λ e s, E e (put_tx t s w)) (λ s, H' (put_tx t s w)) →
  spec (TxMgr.on_tx t m) w Q E H'.
Proof. intros Hx. unfold spec, TxMgr.on_tx, put_tx. rewrite Hx. by destruct (m _) as [[[]|] ?]. Qed.

Lemma on_walq_spec {A} (m : run (WalQueueMgr.St V M) A) w (Q : A → World → Prop) E (H' : World → Prop) :
  spec m (WalQueueMgr.mkSt (TxMgr.walq_mgr w) (TxMgr.vol w)) (λ a s, Q a (put_walq s w))
    (λ e s, E e (put_walq s w)) (λ s, H' (put_walq s w)) →
  spec (TxMgr.on_walq m) w Q E H'.
Proof. unfold spec, TxMgr.on_walq, put_walq, zoom. by destruct (m _) as [[[]|] ?]. Qed.

(** ** Leaving the list of transactions *)

(** The entities of an ended transaction are in none, and agree with what is committed. *)
Definition ended (ls : list (Eid * Loc)) W h h' : Prop :=
  (∀ l, l ∉ ls.*2 → h' !! l = h !! l) ∧
  ∀ l c', l ∈ ls.*2 → h' !! l = Some (Entity.ECow c') →
    (∃ c, h !! l = Some (Entity.ECow c) ∧ Cow.id c = Cow.id c') ∧ Cow.txid c' = None ∧
    Cow.action c' = None ∧ ∀ c0, W !! Cow.id c' = Some c0 → matches c0 c'.

Section leave.
Context (w w' : World) (q q' : WalQueue.WalQueue M) (C C' : gmap Eid (X Ents)) (W W' : gmap Eid Cow).
Context (th : Thread) (t : Txid) (x : Trans).
Hypothesis Hw : world_with nobody w q C nodirt W.
Hypothesis Hx : TxMgr.txs w !! t = Some x.
Hypothesis Hth : TxMgr.current_or_empty w th = t.
Hypothesis Htxs : TxMgr.txs w' = delete t (TxMgr.txs w).
Hypothesis Hents : TxMgr.ents w' = filter (λ it, it.2 ≠ t) (TxMgr.ents w).
Hypothesis Hthr : TxMgr.thread_txid w' = <[th := 0]> (TxMgr.thread_txid w).
Hypothesis Hheap : ended (lm_entries (Trans.cohorts x)) W' (TxMgr.heap w) (TxMgr.heap w').
Hypothesis Hview : ∀ i, W' !! i = W !! i ∨
  ∃ l c, (i, l) ∈ lm_entries (Trans.cohorts x) ∧ TxMgr.heap w !! l = Some (Entity.ECow c) ∧ Cow.id c = i.
Hypothesis Hdoing : ∀ t', t' ∈ WalQueue.doing q' ↔ t' ∈ WalQueue.doing q ∧ t' ≠ t.
Hypothesis Hdone : ∀ t' a u, t' ∈ WalQueue.done q' → log (contents (TxMgr.vol w') Logs) t' a u →
  (t' ∈ WalQueue.done q ∧ log (contents (TxMgr.vol w) Logs) t' a u) ∨
  ∀ e, e ∈ Wal.values u → named (Wal.eid e) ∧ TxMgr.ents w !! Wal.eid e = Some t.
Hypothesis Hlogs : ∀ t' a, t' ≠ t → t' ∈ WalQueue.doing q →
  contents (TxMgr.vol w') Logs !! to_eid a (derive_id t') = contents (TxMgr.vol w) Logs !! to_eid a (derive_id t').
Hypothesis Hclean : ∀ key, ¬ cleans (Trans.wal x) key →
  contents (TxMgr.vol w') Ents !! key = contents (TxMgr.vol w) Ents !! key ∨
  contents (TxMgr.vol w') Ents !! key = None.
Hypothesis HC : ∀ key, ¬ cleans (Trans.wal x) key → C !! key = None → C' !! key = None.

Lemma no_owner i : TxMgr.ents w !! i = Some t → ∀ t', t' ≠ t → TxMgr.ents w !! i ≠ Some t'.
Proof. intros -> t' Hne [= ->]. done. Qed.

(** An entity of another transaction, or of none. *)
Lemma other_view l c :
  TxMgr.heap w !! l = Some (Entity.ECow c) → l ∉ (lm_entries (Trans.cohorts x)).*2 →
  W' !! Cow.id c = W !! Cow.id c.
Proof.
  intros Hc Hl. destruct (Hview (Cow.id c)) as [|(l' & c' & Hin & Hc' & Hid)]; [done|].
  rewrite (wo_uniq _ _ _ _ _ _ _ Hw l' l c' c Hc' Hc Hid) in Hin. destruct Hl.
  exact (list_elem_of_fmap_2 snd _ _ Hin).
Qed.
Lemma own_view i t' : TxMgr.ents w !! i = Some t' → t' ≠ t → W' !! i = W !! i.
Proof.
  intros Hi Hne. destruct (Hview i) as [|(l & c & Hin & _)]; [done|].
  destruct (ti_cohorts _ _ _ _ _ _ _ _ _ (wo_txs _ _ _ _ _ _ _ Hw t x Hx (λ f, f)) i l Hin) as [Hi' _]. congruence.
Qed.

Lemma leave_frame t' x' :
  TxMgr.txs w !! t' = Some x' → t' ≠ t →
  tx_frame (TxMgr.vol w) q C W (TxMgr.heap w) (TxMgr.ents w) t' x'
    (TxMgr.vol w') q' C' W' (TxMgr.heap w') (TxMgr.ents w').
Proof.
  intros Hx' Hne. pose proof (wo_txs _ _ _ _ _ _ _ Hw t x Hx (λ f, f)) as Htx.
  pose proof (wo_txs _ _ _ _ _ _ _ Hw t' x' Hx' (λ f, f)) as Htx'.
  assert (Hte : ∀ e, e ∈ Wal.values (Trans.wal x) → named (Wal.eid e) ∧ TxMgr.ents w !! Wal.eid e = Some t)
    by (intros e; by apply (tx_in_entry _ _ _ _ _ _ _ _ _ _ Htx)).
  split.
  - intros a. apply Hlogs; [done|]. apply (wo_doing _ _ _ _ _ _ _ Hw). by exists x'.
  - intros t1 a u Ht1 Hu. destruct (Hdone t1 a u Ht1 Hu) as [|Hn]; [by left|right].
    intros e He. destruct (Hn e He) as [_ ->]. congruence.
  - intros i a Hn Hi. apply Hclean. intros (e & He & Hk). destruct (Hte e He) as [Hne' Hen].
    assert (Heq : Wal.eid e = i).
    { assert (Hcc : ∀ b, to_eid a i = to_eid b (Wal.eid e) → Wal.eid e = i).
      { intros b Heq. by destruct (to_eid_inj _ _ _ _ Hn Hne' Heq). }
      assert (Hcd : to_eid a i ≠ Wal.eid e) by by apply to_eid_apart.
      unfold clean_key in Hk. destruct (Wal.action e), (Wal.ent_type e); try done; naive_solver. }
    subst i. congruence.
  - intros e key He Hn Hen Hk Hnone. apply HC; [|done]. intros (e' & He' & Hk').
    destruct (Hte e' He') as [Hn' Hen']. pose proof (clean_key_apart _ _ _ Hn Hn' Hk Hk') as Heq. congruence.
  - intros i Hi. by eapply own_view.
  - intros i l Hin. apply Hheap. intros ([i' l'] & Hl & Hin')%list_elem_of_fmap. simpl in Hl. subst l'.
    destruct (ti_cohorts _ _ _ _ _ _ _ _ _ Htx i' l Hin') as (Hi' & y & Hy & _ & Hid & _).
    destruct (ti_cohorts _ _ _ _ _ _ _ _ _ Htx' i l Hin) as (Hi & y' & Hy' & _ & Hid' & _).
    assert (y' = y) as -> by congruence. rewrite Hid in Hid'. subst i'. congruence.
  - intros i Hi. rewrite Hents. apply map_lookup_filter_Some. done.
Qed.

Lemma world_leave :
  inv walq_id (TxMgr.vol w') q' C' nodirt → mem_of walq_id (TxMgr.walq_mgr w') q' →
  view_ok (TxMgr.vol w') C' nodirt W' →
  WalQueue.aborting (WalQueueMgr.walq (TxMgr.walq_mgr w')) = ∅ →
  0 ≤ WalQueueMgr.txid_wmark (TxMgr.walq_mgr w') →
  world_with nobody w' q' C' nodirt W'.
Proof.
  intros Hi Hm Hv Hab Hwm. pose proof (wo_txs _ _ _ _ _ _ _ Hw t x Hx (λ f, f)) as Htx.
  destruct Hheap as [Hout Hin].
  assert (Hback : ∀ l c', TxMgr.heap w' !! l = Some (Entity.ECow c') →
    ∃ c, TxMgr.heap w !! l = Some (Entity.ECow c) ∧ Cow.id c = Cow.id c').
  { intros l c' Hc'. destruct (decide (l ∈ (lm_entries (Trans.cohorts x)).*2)) as [Hl|Hl].
    - by destruct (Hin l c' Hl Hc').
    - rewrite Hout in Hc' by done. by exists c'. }
  split; try done.
  - intros t'. rewrite Hdoing, Htxs, lookup_delete_is_Some, (wo_doing _ _ _ _ _ _ _ Hw). naive_solver.
  - intros t' x' Hx' _. rewrite Htxs in Hx'. apply lookup_delete_Some in Hx' as [Hne Hx'].
    eapply tx_in_frame; [exact (wo_txs _ _ _ _ _ _ _ Hw t' x' Hx' (λ f, f))|].
    apply leave_frame; [done|by apply not_eq_sym].
  - intros i t'. rewrite Hents, Htxs. intros [Hi' Hne]%map_lookup_filter_Some. simpl in Hne.
    apply lookup_delete_is_Some. split; [done|]. by eapply (wo_ents _ _ _ _ _ _ _ Hw).
  - intros l c' Hc'. destruct (decide (l ∈ (lm_entries (Trans.cohorts x)).*2)) as [Hl|Hl].
    + destruct (Hin l c' Hl Hc') as ((c & Hc & Hid) & Hn & Ha & Hmt). unfold cow_ok. rewrite Hn.
      destruct (wo_heap _ _ _ _ _ _ _ Hw l c Hc) as (Hnm & Hr & _). by rewrite Hid in Hnm, Hr.
    + rewrite Hout in Hc' by done. destruct (wo_heap _ _ _ _ _ _ _ Hw l c' Hc') as (Hnm & Hr & Hmt & Hok).
      pose proof (other_view l c' Hc' Hl) as HW. unfold cow_ok. rewrite HW.
      split; [done|]. split; [done|]. split; [done|].
      destruct (Cow.txid c') as [t'|]; [|done]. destruct Hok as (x' & a & Hx' & Hin' & Hrest).
      exists x', a. split; [|done]. rewrite Htxs. rewrite lookup_delete_ne; [done|]. intros Heq. subst t'.
      assert (x' = x) as -> by congruence. destruct Hl. exact (list_elem_of_fmap_2 snd _ _ Hin').
  - intros l l' c c' Hc Hc' Hid. destruct (Hback l c Hc) as (c1 & Hc1 & Hid1), (Hback l' c' Hc') as (c2 & Hc2 & Hid2).
    apply (wo_uniq _ _ _ _ _ _ _ Hw l l' c1 c2 Hc1 Hc2). congruence.
  - intros th' t'. unfold TxMgr.current_or_empty. rewrite Hthr, Htxs.
    destruct (decide (th' = th)) as [->|Hne]; [rewrite lookup_insert_eq; by intros <-|].
    rewrite lookup_insert_ne by done. intros Hc Ht'. apply lookup_delete_is_Some. split.
    + intros <-. apply Hne. by eapply (wo_alone _ _ _ _ _ _ _ Hw th' th t).
    + by eapply (wo_threads _ _ _ _ _ _ _ Hw th').
  - intros th1 th2 t'. unfold TxMgr.current_or_empty. rewrite Hthr.
    destruct (decide (th1 = th)) as [->|Hne1]; [rewrite lookup_insert_eq; by intros <-|].
    destruct (decide (th2 = th)) as [->|Hne2]; [rewrite lookup_insert_eq; by intros _ <-|].
    rewrite !lookup_insert_ne by done. by apply (wo_alone _ _ _ _ _ _ _ Hw).
Qed.
End leave.

(** ** Aborting *)

(** Transaction [t] is to be aborted: [w] is the world before what failed, [w1] is now. *)
Record midway w q C W t x D w1 x1 : Prop := {
  mw_txs : TxMgr.txs w1 = <[t := x1]> (TxMgr.txs w);
  mw_ents : TxMgr.ents w1 = TxMgr.ents w;
  mw_thread : TxMgr.thread_txid w1 = TxMgr.thread_txid w;
  mw_abortable : abortable (TxMgr.vol w1) q C D (TxMgr.heap w1) t x1;
  mw_inv : inv walq_id (TxMgr.vol w1) q C D;
  mw_view : view_ok (TxMgr.vol w1) C D W;
  mw_dirt key : D key → cleans (Trans.wal x) key;
  mw_same : same_entries (Trans.wal x) (Trans.wal x1);
  mw_cohorts : Trans.cohorts x1 = Trans.cohorts x;
  mw_settled : heap_settled (lm_entries (Trans.cohorts x)) (TxMgr.heap w) (TxMgr.heap w1);
  mw_mem : mem_of walq_id (TxMgr.walq_mgr w1) q;
  mw_aborting : WalQueue.aborting (WalQueueMgr.walq (TxMgr.walq_mgr w1)) = ∅;
  mw_wmark : 0 ≤ WalQueueMgr.txid_wmark (TxMgr.walq_mgr w1);
  mw_logs t' a : t' ≠ t → t' ∈ WalQueue.doing q →
    contents (TxMgr.vol w1) Logs !! to_eid a (derive_id t') = contents (TxMgr.vol w) Logs !! to_eid a (derive_id t');
  mw_done t' a u : t' ∈ WalQueue.done q → log (contents (TxMgr.vol w1) Logs) t' a u →
    log (contents (TxMgr.vol w) Logs) t' a u;
  mw_kept key : ¬ cleans (Trans.wal x) key →
    contents (TxMgr.vol w1) Ents !! key = contents (TxMgr.vol w) Ents !! key ∨
    contents (TxMgr.vol w1) Ents !! key = None
}.

Lemma cow_abort_fields c c' :
  Cow.abort c = Ok c' → Cow.id c' = Cow.id c ∧ Cow.arm c' = Cow.arm c ∧ Cow.seq c' = Cow.seq c ∧
    Cow.txid c' = None ∧ Cow.action c' = None ∧ Cow.curr c' = Cow.curr c.
Proof.
  unfold Cow.abort. destruct (Cow.action c) as [[]|]; [| | |done]; intros [= <-]; try done.
  destruct c as [? ? [] ? ? ? ?]; done.
Qed.

(** An aborted transaction leaves its entities as they were. *)
Lemma abort_ended w q C W t x h1 h' :
  world_with nobody w q C nodirt W → TxMgr.txs w !! t = Some x →
  heap_settled (lm_entries (Trans.cohorts x)) (TxMgr.heap w) h1 →
  mapped Entity.abort (lm_entries (Trans.cohorts x)) h1 h' →
  ended (lm_entries (Trans.cohorts x)) W (TxMgr.heap w) h'.
Proof.
  intros Hw Hx [Hso Hs] [Hmo Hm]. split; [intros l Hl; by rewrite Hmo, Hso|].
  intros l c' Hl Hc'. apply list_elem_of_fmap in Hl as Hl'. destruct Hl' as ([i l'] & -> & Hin). simpl in *.
  destruct (ti_cohorts _ _ _ _ _ _ _ _ _ (wo_txs _ _ _ _ _ _ _ Hw t x Hx (λ f, f)) i l' Hin)
    as (_ & y & Hy & _ & Hid & Hco).
  destruct (Hs l' y Hy) as (y1 & Hy1 & Hset). destruct (Hm l' y1 Hl Hy1) as (y' & Hab & Hy').
  assert (y' = Entity.ECow c') as -> by congruence. destruct y as [c|d], y1 as [c1|d1]; try done.
  simpl in Hab. destruct (Cow.abort c1) as [c2| |] eqn:Hab'; try done. injection Hab as <-.
  destruct (cow_abort_fields _ _ Hab') as (Hid2 & Harm2 & Hseq2 & Htx2 & Ha2 & Hcur2).
  pose proof Hset as (Hid1 & _). split; [exists c; by rewrite Hid2, Hid1|]. split; [done|]. split; [done|].
  intros c0 Hc0. assert (Hm0 : matches c0 c1 → matches c0 c2).
  { intros (? & ? & ?). unfold matches. by rewrite Harm2, Hseq2, Hcur2. }
  apply Hm0. destruct (wo_heap _ _ _ _ _ _ _ Hw l' c Hy) as (_ & _ & Hmt & _).
  rewrite Hid2, Hid1 in Hc0. by eapply matches_pending; [apply Hmt|].
Qed.

Lemma abort_trans_spec w q C W th t x D w1 x1 :
  world_with nobody w q C nodirt W → TxMgr.txs w !! t = Some x → TxMgr.current_or_empty w th = t →
  midway w q C W t x D w1 x1 →
  spec (TxMgr.abort_trans th t) w1
    (λ _ w', (world_ok walq_id w' W ∧ TxMgr.txs w' = delete t (TxMgr.txs w)) ∨
       (holds walq_id (TxMgr.vol w') W ∧ ¬ steady (TxMgr.vol w1)))
    (λ _ _, False)
    (λ w', holds walq_id (TxMgr.vol w') W ∧ (¬ steady (TxMgr.vol w1) ∨
       U64 ≤ WalQueue.seq (WalQueueMgr.walq (TxMgr.walq_mgr w1)) + 1)).
Proof.
  intros Hw Hx Hth Hmw. pose proof (mw_same _ _ _ _ _ _ _ _ _ Hmw) as Hsame.
  unfold TxMgr.abort_trans. apply spec_bind, spec_ask. rewrite (mw_txs _ _ _ _ _ _ _ _ _ Hmw), lookup_insert_eq.
  apply spec_bind, spec_lift_ok, spec_bind, on_walq_spec.
  unfold WalQueueMgr.begin_abort, WalQueueMgr.upd_walq. apply spec_bind, spec_ask, spec_modify.
  unfold put_walq. cbn [WalQueueMgr.mgr WalQueueMgr.vol WalQueueMgr.walq WalQueueMgr.txid_wmark WalQueueMgr.walq_backup].
  set (g1 := WalQueueMgr.mkMgr _ (WalQueue.begin_abort _ _) _).
  assert (Hg1 : mem_of walq_id g1 q) by apply (mw_mem _ _ _ _ _ _ _ _ _ Hmw).
  set (w2 := TxMgr.mkWorld _ _ g1 _ _ _ _).
  (* leaving, whatever happened *)
  assert (Hrm : ∀ w3 (P : World → Prop), P (TxMgr.mkWorld (delete t (TxMgr.txs w3))
      (filter (λ it, it.2 ≠ t) (TxMgr.ents w3)) (TxMgr.walq_mgr w3) (TxMgr.vol w3) (TxMgr.heap w3)
      (TxMgr.uses w3) (<[th := 0]> (TxMgr.thread_txid w3))) →
    spec (TxMgr.remove_trans th t) w3 (λ _ w', P w') (λ _ _, False)
      (λ w', holds walq_id (TxMgr.vol w') W ∧ (¬ steady (TxMgr.vol w1) ∨
         U64 ≤ WalQueue.seq (WalQueueMgr.walq (TxMgr.walq_mgr w1)) + 1))).
  { intros w3 P HP. unfold TxMgr.remove_trans, TxMgr.set_txs, TxMgr.set_ents, TxMgr.reset_current, TxMgr.set_thread.
    apply spec_bind, spec_modify, spec_bind, spec_modify, spec_modify. exact HP. }
  apply spec_bind, spec_attempt, spec_bind.
  eapply on_tx_spec; [unfold w2; cbn [TxMgr.txs]; rewrite (mw_txs _ _ _ _ _ _ _ _ _ Hmw); apply lookup_insert_eq|].
  change (TxMgr.heap w2) with (TxMgr.heap w1). change (TxMgr.vol w2) with (TxMgr.vol w1).
  eapply spec_mono.
  - apply (tx_abort_spec walq_id _ q C D W t); cbn [Trans.vol Trans.heap Trans.tr]; try apply Hmw.
    intros key Hk. apply (same_entries_cleans _ _ _ Hsame). by apply (mw_dirt _ _ _ _ _ _ _ _ _ Hmw).
  - cbn [Trans.vol Trans.heap Trans.tr]. rewrite (mw_cohorts _ _ _ _ _ _ _ _ _ Hmw).
    intros [] s3 (Hi3 & Hv3 & Hm3 & Hab3 & Hol3 & Hk3 & Hst3).
    apply on_walq_spec. unfold put_tx, w2. cbn [TxMgr.walq_mgr TxMgr.vol].
    eapply spec_mono.
    + apply (end_abort_spec walq_id _ q t C nodirt); cbn [WalQueueMgr.vol WalQueueMgr.mgr]; [exact Hi3|exact Hg1|].
      by intros key [].
    + intros [] s4 ((q4 & Hi4 & Hm4) & Hso & (Hd4 & Hg4 & Ha4) & Htw4). cbn [WalQueueMgr.vol WalQueueMgr.mgr] in Hd4, Hg4, Ha4, Htw4, Hso.
      apply Hrm. left. unfold put_walq, put_tx, w2.
      cbn [TxMgr.txs TxMgr.ents TxMgr.walq_mgr TxMgr.vol TxMgr.heap TxMgr.uses TxMgr.thread_txid].
      rewrite (mw_txs _ _ _ _ _ _ _ _ _ Hmw), (mw_ents _ _ _ _ _ _ _ _ _ Hmw), (mw_thread _ _ _ _ _ _ _ _ _ Hmw).
      rewrite insert_insert_eq, delete_insert_eq. split; [|done].
      assert (Hdoing4 : WalQueue.doing q4 = WalQueue.doing q ∖ {[t]}).
      { destruct Hm4 as (_ & _ & _ & _ & <- & _). rewrite Hg4. simpl. by destruct Hg1 as (_ & _ & _ & _ & <- & _). }
      assert (Hdone4 : WalQueue.done q4 = WalQueue.done q).
      { destruct Hm4 as (_ & _ & _ & <- & _). rewrite Hd4. simpl. by destruct Hg1 as (_ & _ & _ & <- & _). }
      exists q4, C. eapply (world_leave w _ q q4 C C W W th t x Hw Hx Hth); try reflexivity;
        cbn [TxMgr.txs TxMgr.ents TxMgr.walq_mgr TxMgr.vol TxMgr.heap TxMgr.uses TxMgr.thread_txid].
      * eapply abort_ended; [exact Hw|exact Hx| |exact Hm3]. apply Hmw.
      * by left.
      * intros t'. by rewrite Hdoing4, elem_of_difference, elem_of_singleton.
      * intros t' a u Ht' Hu. rewrite Hdone4 in Ht'. left. split; [done|].
        apply (mw_done _ _ _ _ _ _ _ _ _ Hmw); [done|]. unfold log, arm_item in *.
        rewrite (proj1 (proj2 Hso)), Hol3 in Hu; [done|]. intros ->.
        apply (lo_apart _ _ _ _ _ (proj2 (mw_inv _ _ _ _ _ _ _ _ _ Hmw)) t Ht'). apply (mw_abortable _ _ _ _ _ _ _ _ _ Hmw).
      * intros t' a Hne Ht'. rewrite (proj1 (proj2 Hso)), Hol3 by done. by apply (mw_logs _ _ _ _ _ _ _ _ _ Hmw).
      * intros key Hk. rewrite (proj1 Hso). destruct (Hk3 key) as [->|[_ ->]]; [|by right].
        by apply (mw_kept _ _ _ _ _ _ _ _ _ Hmw).
      * done.
      * exact Hi4.
      * exact Hm4.
      * eapply view_ok_ents; [apply Hso|exact Hv3].
      * rewrite Ha4. simpl. rewrite (mw_aborting _ _ _ _ _ _ _ _ _ Hmw).
        destruct (mw_abortable _ _ _ _ _ _ _ _ _ Hmw) as [_ -> _ _ _ _ _]. by rewrite delete_insert_eq, delete_empty.
      * rewrite Htw4. apply (mw_wmark _ _ _ _ _ _ _ _ _ Hmw).
    + intros e s4 (Hi4 & _ & Hp & _ & _ & Hn). cbn [WalQueueMgr.vol WalQueueMgr.mgr] in Hp, Hn.
      apply Hrm. right. split; [exists q, C, nodirt; split; [exact Hi4|]|intros Hst; by apply Hn, Hst3].
      eapply view_ok_pruned; [exact Hv3|exact Hp].
    + intros s4 (Hsf & (v5 & Hp & He) & Htr). cbn [WalQueueMgr.vol WalQueueMgr.mgr] in Hp, Htr.
      assert (safe walq_id (WalQueueMgr.vol s4) C nodirt) as (q4 & Hi4) by by destruct Hsf.
      split; [exists q4, C, nodirt; split; [exact Hi4|]|].
      { eapply view_ok_ents; [exact He|]. eapply view_ok_pruned; [exact Hv3|exact Hp]. }
      destruct Htr as [Hn|]; [left; intros Hst; by apply Hn, Hst3|by right].
  - intros e s3 [(D' & Hi3 & Hv3 & _) Hn]. apply Hrm. right. split; [by exists q, C, D'|exact Hn].
  - intros s3 [(D' & Hi3 & Hv3 & _) Hn]. split; [by exists q, C, D'|by left].
Qed.
End ending.
