(* ===== verification/TxAtomic.v ===== *)
(** * [TxMgr::commit_trans] is atomic: all entities of the transaction become committed, or none. *)
From S2P Require Import Prelude Run Base Segment Armor Wal WalProofs WalMgr Cow Trans TxMgr TxState TxCommit TxView TxWorld TxEnd.
Import Arm.

Section atomic.
Context `{!ArmHash, !ArmHashLaws, !TxidHash, !TxidHashLaws, !HashOrder, !HashOrderLaws}.
Context {T V M N : Type} {X : Kind → Type} `{!Volume V X, !VolumeLaws V X, !Cowable T, !CowableLaws T}.
Context `{!LinkedMapOps Eid Wal.Entry M, !LinkedMap Eid Wal.Entry M}.
Context `{!LinkedMapOps Eid Loc N, !LinkedMap Eid Loc N}.
Context `{!Serde (X Logs) (Wal.Wal M), !SerdeLaws (X Logs) (Wal.Wal M)}.
Context `{!Serde (X Logs) (WalQueue.WalQueue M), !SerdeLaws (X Logs) (WalQueue.WalQueue M)}.
Context `{!Serde (X Ents) (Cow.Cow T), !SerdeLaws (X Ents) (Cow.Cow T), !CowSerde T X}.
Context (walq_id : Eid) `{!WalLaws X M walq_id}.
#[local] Existing Instances wal_arm_laws.
Abbreviation Cow := (Cow.Cow T).
Abbreviation Entity := (Entity.Entity T).
Abbreviation World := (TxMgr.World T V M N).
Abbreviation Trans := (Trans.Trans M N).
Abbreviation world_with := (world_with walq_id).
Implicit Types (v : V) (q : WalQueue.WalQueue M) (key id : Eid) (t : Txid) (x : Trans).
Implicit Types (C : gmap Eid (X Ents)) (D : Eid → Prop) (W : gmap Eid Cow) (c : Cow) (w : World) (u : Wal.Wal M).
Implicit Types (h : gmap Loc Entity) (en : gmap Eid Txid).

(** ** The entities in memory *)

Lemma cow_complete_fields c c' :
  Cow.complete_commit c = Ok c' →
  Cow.id c' = Cow.id c ∧ Cow.seq c' = Cow.seq c ∧ Cow.txid c' = None ∧ Cow.action c' = None ∧
  Cow.arm c' = (if decide (Cow.action c = Some Update) then other (Cow.arm c) else Cow.arm c) ∧
  Cow.curr c' = (if decide (Cow.action c = Some Update) then Cow.get_by (other (Cow.arm c)) c else Cow.curr c).
Proof.
  unfold Cow.complete_commit. destruct (Cow.action c) as [[]|] eqn:Ha; [| | |done]; intros [= <-].
  1,3: rewrite !decide_False by done; split_and!; try done; by destruct c as [? ? [] ? ? ? ?].
  rewrite !decide_True by done. destruct c as [? ? [] ? ? ? ?]; done.
Qed.

(** After a commit the entities in memory are the committed ones. *)
Lemma complete_ended w q C W t x h1 h' :
  world_with nobody w q C nodirt W → TxMgr.txs w !! t = Some x →
  let ls := lm_entries (Trans.cohorts x) in
  heap_settled ls (TxMgr.heap w) h1 →
  (∀ l y, l ∈ ls.*2 → TxMgr.heap w !! l = Some y → ∃ y', h1 !! l = Some y' ∧ finished y y') →
  mapped Entity.complete_commit ls h1 h' →
  ended ls (after (TxMgr.heap w) ls W) (TxMgr.heap w) h'.
Proof.
  intros Hw Hx ls [Hso Hs] Hfin [Hmo Hm]. split; [intros l Hl; by rewrite Hmo, Hso|].
  intros l c' Hl Hc'. apply list_elem_of_fmap in Hl as Hl'. destruct Hl' as ([i l'] & -> & Hin). simpl in *.
  destruct (ti_cohorts _ _ _ _ _ _ _ _ _ (wo_txs _ _ _ _ _ _ _ Hw t x Hx (λ f, f)) i l' Hin)
    as (_ & y & Hy & _ & Hid & Hco).
  destruct (Hs l' y Hy) as (y1 & Hy1 & Hset). destruct (Hfin l' y Hl Hy) as (y1' & Hy1' & Hf).
  assert (y1' = y1) as -> by congruence. destruct (Hm l' y1 Hl Hy1) as (y' & Hab & Hy').
  assert (y' = Entity.ECow c') as -> by congruence. destruct y as [c|d], y1 as [c1|d1]; try done.
  simpl in Hab. destruct (Cow.complete_commit c1) as [c2| |] eqn:Hcc; try done. injection Hab as <-.
  destruct (cow_complete_fields _ _ Hcc) as (Hid2 & Hseq2 & Htx2 & Ha2 & Harm2 & Hcur2).
  destruct Hset as (Hid1 & Harm1 & Hseq1 & _ & Ha1 & _). simpl in Hid.
  split; [exists c; by rewrite Hid2, Hid1|]. split; [done|]. split; [done|].
  rewrite Hid2, Hid1, Hid. intros c0 Hc0.
  rewrite (after_elem _ _ _ _ _ (lm_entries_nodup _) Hin), Hy in Hc0.
  destruct (Hf c0 Hc0) as (Hsq & Hup & Hnw). destruct (Cow.staged_fields _ _ Hc0) as (_ & _ & Harm0 & _).
  unfold matches. rewrite Harm2, Hseq2, Hcur2, Harm0, Ha1, Harm1, Hsq. unfold Cow.target in *.
  unfold Cow.staged in Hc0. destruct (Cow.action c) as [[]|] eqn:Ha; try done.
  all: repeat (case_decide; try done); (split_and!; [done|lia|]).
  all: first [rewrite Hnw by done|rewrite Hup by done]; apply tidied_refl.
Qed.

(** ** What becomes committed *)

Lemma after_view w q C W t x i :
  world_with nobody w q C nodirt W → TxMgr.txs w !! t = Some x →
  after (TxMgr.heap w) (lm_entries (Trans.cohorts x)) W !! i = W !! i ∨
  ∃ l c, (i, l) ∈ lm_entries (Trans.cohorts x) ∧ TxMgr.heap w !! l = Some (Entity.ECow c) ∧ Cow.id c = i.
Proof.
  intros Hw Hx. pose proof (world_tx_ok _ _ _ _ _ _ _ Hw Hx) as Htx.
  destruct (cohort_cases _ _ _ _ _ _ _ _ _ Htx i) as [(l & c & Hin & Hc)|[_ Heq]]; [right|by left].
  exists l, c. split; [done|]. split; [done|].
  destruct (tx_cohorts _ _ _ _ _ _ _ _ _ Htx i l Hin) as (y & Hy & _ & Hid & _).
  assert (y = Entity.ECow c) as -> by congruence. done.
Qed.

(** ** A commit that fails is undone *)

Lemma undone_midway w q C W t x s' :
  world_with nobody w q C nodirt W → TxMgr.txs w !! t = Some x →
  undone walq_id q C nodirt W t (Trans.mkSt x (TxMgr.heap w) (TxMgr.uses w) (TxMgr.vol w)) s' →
  ∃ D, midway walq_id w q C W t x D (put_tx t s' w) (Trans.tr s').
Proof.
  intros Hw Hx (D & Hab & Hi & Hv & HD & Hol & _ & Hk & Hco & Hsame & Hhs). cbn [Trans.vol Trans.tr Trans.heap] in *.
  exists D. split; try done; unfold put_tx; cbn [TxMgr.txs TxMgr.vol TxMgr.heap TxMgr.walq_mgr].
  - intros key Hd. by destruct (HD key Hd).
  - apply (wo_mem _ _ _ _ _ _ _ Hw).
  - apply (wo_abort _ _ _ _ _ _ _ Hw).
  - apply (wo_wmark _ _ _ _ _ _ _ Hw).
  - intros t' a Hne _. by apply Hol.
  - intros t' a u Ht'. unfold log, arm_item. rewrite Hol; [done|]. intros ->.
    apply (lo_apart _ _ _ _ _ (proj2 Hi) t Ht'). apply (wo_doing _ _ _ _ _ _ _ Hw). by exists x.
  - intros key Hn. left. by apply Hk.
Qed.

Lemma commit_midway w q C W t x u' (s' : Trans.St T V M N) (s4 : WalQueueMgr.St V M) C' :
  world_with nobody w q C nodirt W → TxMgr.txs w !! t = Some x →
  let s := Trans.mkSt x (TxMgr.heap w) (TxMgr.uses w) (TxMgr.vol w) in
  all_written walq_id q C nodirt W t s u' s' →
  kept_queue walq_id (retired walq_id q C C') (WalQueueMgr.mkSt (TxMgr.walq_mgr w) (Trans.vol s')) q C
    (grown_dirt nodirt (Trans.wal x)) s4 →
  midway walq_id w q C W t x (grown_dirt nodirt (Trans.wal x)) (put_walq s4 (put_tx t s' w)) (Trans.tr s').
Proof.
  intros Hw Hx s (-> & Hsame & Hco & Hi & Hv & Hst & Hhs & Hwr & _ & Hol & Hlg & _) (Hi4 & Hm4 & Hp4 & Hq4 & Htw4 & _).
  cbn [Trans.vol Trans.tr Trans.heap WalQueueMgr.vol WalQueueMgr.mgr s] in *.
  pose proof (world_tx_ok _ _ _ _ _ _ _ Hw Hx) as Htx.
  assert (Htd : t ∈ WalQueue.doing q) by apply Htx.
  assert (Hkeep : ∀ t' a, t' ∈ WalQueue.doing q → contents (WalQueueMgr.vol s4) Logs !! to_eid a (derive_id t')
    = contents (Trans.vol s') Logs !! to_eid a (derive_id t')).
  { intros t' a Ht'. apply (pruned_keep _ _ _ _ _ Hp4). intros Hr%retired_log.
    by apply (lo_apart _ _ _ _ _ (proj2 Hi) t'). }
  pose proof Hsame as (Hwid & Hwtx & _).
  split; unfold put_walq, put_tx; cbn [TxMgr.txs TxMgr.ents TxMgr.vol TxMgr.heap TxMgr.walq_mgr TxMgr.thread_txid]; try done.
  - destruct (tx_abortable _ _ _ _ _ _ _ _ _ Htx). split; rewrite ?Hco; try done.
    + by rewrite Hwtx.
    + by rewrite Hwid.
    + intros key Hk. apply ab_safe. by apply (same_entries_cleans _ _ _ Hsame).
    + intros u key Hu Hk _. assert (Hst4 : stored Logs (contents (WalQueueMgr.vol s4) Logs) (derive_id t) (Trans.wal (Trans.tr s'))).
      { unfold stored, older, arm_item in *. by rewrite !Hkeep. }
      by rewrite <- (stored_inj _ _ _ _ _ Hst4 Hu) in Hk.
    + intros i l Hin. destruct (ab_cohorts i l Hin) as (y & Hy & Ha). destruct (proj2 Hhs l y Hy) as (y' & Hy' & Hset).
      exists y'. split; [done|]. destruct y as [c|], y' as [c'|]; try done. by destruct Hset as (_ & _ & _ & _ & -> & _).
  - by eapply view_ok_pruned.
  - by intros key [[]|Hk].
  - rewrite Hq4. apply (wo_abort _ _ _ _ _ _ _ Hw).
  - rewrite Htw4. apply (wo_wmark _ _ _ _ _ _ _ Hw).
  - intros t' a Hne Ht'. rewrite Hkeep by done. by apply Hol.
  - intros t' a u Ht' Hu. eapply log_pruned in Hu; [|exact Hp4]. unfold log, arm_item in *. rewrite Hol in Hu; [done|].
    intros ->. by apply (lo_apart _ _ _ _ _ (proj2 Hi) t).
  - intros key Hn. destruct (proj1 Hp4 Ents key) as [->|[_ ->]]; [|by right]. left. apply (proj2 Hwr).
    intros Htk. apply Hn. by eapply target_cleans.
Qed.

(** ** Commit *)

Definition committed_view w x W : gmap Eid Cow := after (TxMgr.heap w) (lm_entries (Trans.cohorts x)) W.

(** What a commit needs not to fail: a volume that works, no deleted entity in use, and
    sequence numbers that have not run out. *)
Definition smooth w x : Prop :=
  steady (TxMgr.vol w) ∧ TxMgr.uses w = [] ∧ Wal.seq (Trans.wal x) + 1 < U64 ∧
  (∀ i l c, (i, l) ∈ lm_entries (Trans.cohorts x) → TxMgr.heap w !! l = Some (Entity.ECow c) →
     Cow.seq c + 1 < U64) ∧
  WalQueue.seq (WalQueueMgr.walq (TxMgr.walq_mgr w)) + 1 < U64.

(** The transaction is done and what it wrote is committed. *)
Lemma done_world w q C W th t x (s' : Trans.St T V M N) (s4 : WalQueueMgr.St V M) h' :
  world_with nobody w q C nodirt W → TxMgr.txs w !! t = Some x → TxMgr.current_or_empty w th = t →
  let s := Trans.mkSt x (TxMgr.heap w) (TxMgr.uses w) (TxMgr.vol w) in
  let C' := grown (Trans.wal x) (Trans.vol s') C in
  let D' := left_dirt (grown_dirt nodirt (Trans.wal x)) (Trans.wal x) in
  all_written walq_id q C nodirt W t s (Trans.wal (Trans.tr s')) s' →
  live walq_id s4 C' D' →
  (∃ v1, pruned (retired walq_id q C C') (Trans.vol s') v1 ∧ saved_only v1 (WalQueueMgr.vol s4)) →
  WalQueue.doing (WalQueueMgr.walq (WalQueueMgr.mgr s4)) = WalQueue.doing q ∖ {[t]} →
  WalQueue.aborting (WalQueueMgr.walq (WalQueueMgr.mgr s4)) = ∅ →
  (∀ t', t' ∈ WalQueue.done (WalQueueMgr.walq (WalQueueMgr.mgr s4)) → t' = t ∨ t' ∈ WalQueue.done q) →
  WalQueueMgr.txid_wmark (WalQueueMgr.mgr s4) = WalQueueMgr.txid_wmark (TxMgr.walq_mgr w) →
  mapped Entity.complete_commit (lm_entries (Trans.cohorts x)) (Trans.heap s') h' →
  ∀ us, world_ok walq_id (TxMgr.mkWorld (delete t (TxMgr.txs w)) (filter (λ it, it.2 ≠ t) (TxMgr.ents w))
    (WalQueueMgr.mgr s4) (WalQueueMgr.vol s4) h' us (<[th := 0]> (TxMgr.thread_txid w)))
    (committed_view w x W).
Proof.
  intros Hw Hx Hth s C' D' Haw (q4 & Hi4 & Hm4) (v1 & Hp1 & Hso) Hg4 Ha4 Hd4 Htw4 Hmp us.
  pose proof Haw as (_ & Hsame & Hco & Hi & Hv & Hst & Hhs & Hwr & Hfin & Hol & Hlg & _).
  cbn [Trans.vol Trans.tr Trans.heap s] in *.
  pose proof (world_tx_ok _ _ _ _ _ _ _ Hw Hx) as Htx.
  pose proof Hm4 as (_ & _ & _ & Hdn4 & Hdo4 & _).
  assert (Hlog4 : ∀ t' a u, log (contents (WalQueueMgr.vol s4) Logs) t' a u → log (contents (Trans.vol s') Logs) t' a u).
  { intros t' a u Hu. eapply log_pruned; [exact Hp1|]. unfold log, arm_item in *. by rewrite (proj1 (proj2 Hso)) in Hu. }
  assert (Hlt : ∀ t' a u, t' ≠ t → log (contents (Trans.vol s') Logs) t' a u → log (contents (TxMgr.vol w) Logs) t' a u).
  { intros t' a u Hne. unfold log, arm_item. by rewrite Hol. }
  assert (HD : ∀ key, ¬ D' key) by (intros key [[[]|Hk] Hn]; done).
  exists q4, C'. eapply (world_leave walq_id w _ q q4 C C' W (committed_view w x W) th t x Hw Hx Hth); try reflexivity;
    cbn [TxMgr.txs TxMgr.ents TxMgr.walq_mgr TxMgr.vol TxMgr.heap TxMgr.uses TxMgr.thread_txid].
  - by eapply complete_ended.
  - intros i. by eapply after_view.
  - intros t'. rewrite <- Hdo4, Hg4, elem_of_difference, elem_of_singleton. done.
  - intros t' a u Ht' Hu%Hlog4. rewrite <- Hdn4 in Ht'.
    assert (Hte : ∀ e, e ∈ Wal.values (Trans.wal x) → named (Wal.eid e) ∧ TxMgr.ents w !! Wal.eid e = Some t)
      by (intros e; by apply (tx_in_entry _ _ _ _ _ _ _ _ _ _ (wo_txs _ _ _ _ _ _ _ Hw t x Hx (λ f, f)))).
    destruct (Hd4 t' Ht') as [->|Hd]; cycle 1.
    + left. split; [done|]. apply Hlt; [|done]. intros ->. apply (lo_apart _ _ _ _ _ (proj2 Hi) t Hd). apply Htx.
    + right. intros e He. destruct (Hlg a u Hu) as [->|Hu'].
      * apply Hte. destruct Hsame as (_ & _ & Hen). unfold Wal.values in *. by rewrite Hen in He.
      * by eapply (ti_logged _ _ _ _ _ _ _ _ _ (wo_txs _ _ _ _ _ _ _ Hw t x Hx (λ f, f))).
  - intros t' a Hne Ht'. rewrite (proj1 (proj2 Hso)). rewrite (pruned_keep _ _ _ _ _ Hp1); [by apply Hol|].
    intros Hr%retired_log. by apply (lo_apart _ _ _ _ _ (proj2 Hi) t').
  - intros key Hk. rewrite (proj1 Hso). destruct (proj1 Hp1 Ents key) as [->|[_ ->]]; [|by right].
    left. apply (proj2 Hwr). intros Htk. apply Hk. by eapply target_cleans.
  - intros key Hk HC. apply eq_None_not_Some. intros [y [[Hn _]|(_ & _ & Hy)]%commits_Some]; [|congruence].
    apply existsb_elem in Hn as (e & He & Hn%new_key_cleans). apply Hk. by exists e.
  - by apply inv_nodirt in Hi4.
  - exact Hm4.
  - eapply view_ok_ents; [apply Hso|]. eapply view_ok_pruned; [|exact Hp1].
    eapply view_ok_mono; [|intros key Hk; by destruct (HD key)].
    apply (view_target walq_id _ _ _ _ _ _ _ _ _ Htx Hi Hv Hwr).
  - done.
  - rewrite Htw4. apply (wo_wmark _ _ _ _ _ _ _ Hw).
Qed.

Lemma remove_trans_spec w th t (P : World → Prop) E (H' : World → Prop) :
  P (TxMgr.mkWorld (delete t (TxMgr.txs w)) (filter (λ it, it.2 ≠ t) (TxMgr.ents w)) (TxMgr.walq_mgr w)
       (TxMgr.vol w) (TxMgr.heap w) (TxMgr.uses w) (<[th := 0]> (TxMgr.thread_txid w))) →
  spec (TxMgr.remove_trans th t) w (λ _, P) E H'.
Proof. done. Qed.

Lemma abort_after_spec w q C W th t x D w1 x1 (P : Prop) e :
  world_with nobody w q C nodirt W → TxMgr.txs w !! t = Some x → TxMgr.current_or_empty w th = t →
  midway walq_id w q C W t x D w1 x1 → P → (P → steady (TxMgr.vol w) → steady (TxMgr.vol w1)) →
  spec (_ ← TxMgr.abort_trans th t; fail (A:=unit) e) w1 (λ _ _, False)
    (λ _ w', P ∧ ((world_ok walq_id w' W ∧ TxMgr.txs w' = delete t (TxMgr.txs w)) ∨
       (holds walq_id (TxMgr.vol w') W ∧ ¬ steady (TxMgr.vol w))))
    (λ w', P ∧ holds walq_id (TxMgr.vol w') W).
Proof.
  intros Hw Hx Hth Hmw HP Hst. apply spec_bind.
  eapply spec_mono; [by eapply (abort_trans_spec walq_id w)| |done|].
  - intros [] w' Hd. apply spec_fail. split; [done|]. destruct Hd as [|[? Hn]]; [by left|right].
    split; [done|]. intros Hs. by apply Hn, Hst.
  - intros w' [Hh _]. done.
Qed.

(** [TxMgr::commit_trans] on a transaction under way. *)
Lemma commit_world_spec w W th t x :
  world_ok walq_id w W → TxMgr.txs w !! t = Some x → TxMgr.current_or_empty w th = t →
  let W' := committed_view w x W in
  spec (TxMgr.commit_trans th t) w
    (λ _ w', world_ok walq_id w' W' ∧ TxMgr.txs w' = delete t (TxMgr.txs w))
    (λ _ w', ¬ smooth w x ∧ ((world_ok walq_id w' W ∧ TxMgr.txs w' = delete t (TxMgr.txs w)) ∨
         (holds walq_id (TxMgr.vol w') W ∧ ¬ steady (TxMgr.vol w))))
    (λ w', ¬ smooth w x ∧ (holds walq_id (TxMgr.vol w') W ∨ holds walq_id (TxMgr.vol w') W')).
Proof.
  intros (q & C & Hw) Hx Hth W'. pose proof (world_tx_ok _ _ _ _ _ _ _ Hw Hx) as Htx.
  unfold TxMgr.commit_trans. apply spec_bind, spec_attempt, spec_bind.
  eapply on_tx_spec; [exact Hx|]. eapply spec_mono.
  - apply (tx_commit_spec walq_id (Trans.mkSt x (TxMgr.heap w) (TxMgr.uses w) (TxMgr.vol w)) q C nodirt W t Htx);
      [apply (wo_inv _ _ _ _ _ _ _ Hw)|apply (wo_view _ _ _ _ _ _ _ Hw)].
  - intros u s' Haw. pose proof Haw as (-> & Hsame & Hco & Hi & Hv & Hst & Hhs & Hwr & Hfin & Hol & Hlg & Hsd).
    cbn [Trans.vol Trans.tr Trans.heap] in Hsame, Hco, Hi, Hv, Hhs, Hwr, Hfin, Hol, Hlg, Hsd.
    pose proof (commit_target walq_id _ _ _ _ _ _ _ _ _ _ Htx Hsame (wo_inv _ _ _ _ _ _ _ Hw) Hi Hst Hol Hlg) as Htg.
    assert (Hut : Wal.txid (Trans.wal (Trans.tr s')) = t).
    { destruct Hsame as (_ & -> & _). apply (tx_txid _ _ _ _ _ _ _ _ _ Htx). }
    rewrite <- Hut in Htg at 1. apply on_walq_spec. eapply spec_mono.
    + eapply (commit_trans_spec walq_id (WalQueueMgr.mkSt _ _) q (Trans.wal (Trans.tr s')) C
        (grown_dirt nodirt (Trans.wal x))); [exact Hi|apply (wo_mem _ _ _ _ _ _ _ Hw)| |exact Htg].
      rewrite Hut. apply Htx.
    + rewrite Hut. intros [] s4 (Hlv & Hpr & Hg4 & Ha4 & Hd4 & Htw4). cbn [WalQueueMgr.vol WalQueueMgr.mgr] in *.
      cbv iota beta. apply spec_bind. eapply on_tx_spec; [apply lookup_insert_eq|].
      cbn [TxMgr.heap TxMgr.uses TxMgr.vol put_walq put_tx].
      pose proof (tx_abortable _ _ _ _ _ _ _ _ _ Htx) as Hab. eapply spec_mono.
      * apply complete_commit_spec; cbn [Trans.tr Trans.heap]; rewrite Hco; [apply Hab|].
        intros i l Hin. destruct (ab_cohorts _ _ _ _ _ _ _ Hab i l Hin) as (y & Hy & Ha).
        destruct (proj2 Hhs l y Hy) as (y' & Hy' & Hset). exists y'. split; [done|].
        destruct y as [c|], y' as [c'|]; try done. by destruct Hset as (_ & _ & _ & _ & -> & _).
      * intros [] s5 [Hv5 Hm5]. cbn [Trans.vol Trans.tr Trans.heap] in Hv5, Hm5. rewrite Hco in Hm5.
        apply remove_trans_spec. unfold put_tx, put_walq.
        cbn [TxMgr.txs TxMgr.ents TxMgr.walq_mgr TxMgr.vol TxMgr.heap TxMgr.uses TxMgr.thread_txid].
        rewrite !delete_insert_eq, Hv5. split; [|done].
        eapply (done_world w q C W th t x s' s4); try done.
        -- destruct (wo_mem _ _ _ _ _ _ _ Hw) as (_ & _ & _ & _ & Hdo & _). rewrite Hg4, <- Hdo. done.
        -- rewrite Ha4. apply (wo_abort _ _ _ _ _ _ _ Hw).
      * done.
      * done.
    + intros e s4 Hkq. cbv iota beta. eapply spec_mono.
      * eapply (abort_after_spec w q C W th t x _ _ _ (¬ steady (Trans.vol s'))); [done..|exact (commit_midway w q C W t x _ s' s4 _ Hw Hx Haw Hkq)| |by intros Hn Hs; destruct (Hn (Hsd Hs))].
        apply Hkq.
      * done.
      * intros _ w' [Hn Hd]. split; [|done]. intros (Hs & _). by apply Hn, Hsd.
      * intros w' [Hn Hd]. split; [|by left]. intros (Hs & _). by apply Hn, Hsd.
    + intros s4 (Hsf & (v1 & Hp1 & He1) & Htr). cbn [WalQueueMgr.vol WalQueueMgr.mgr] in *. split.
      * intros (Hs & _ & _ & _ & Hq). destruct Htr as [Hn|Hn]; [by apply Hn, Hsd|exact (Zlt_not_le _ _ Hq Hn)].
      * unfold put_walq, put_tx. cbn [TxMgr.vol]. destruct Hsf as [[q4 Hi4]|[q4 Hi4]]; [left|right].
        -- exists q4, C, (grown_dirt nodirt (Trans.wal x)). split; [exact Hi4|].
           eapply view_ok_ents; [exact He1|]. eapply view_ok_pruned; [exact Hv|exact Hp1].
        -- eexists q4, _, _. split; [exact Hi4|]. eapply view_ok_ents; [exact He1|].
           eapply view_ok_pruned; [|exact Hp1]. apply (view_target walq_id _ _ _ _ _ _ _ _ _ Htx Hi Hv Hwr).
  - intros e s' [Hun Htr]. cbv iota beta. destruct (undone_midway _ _ _ _ _ _ _ Hw Hx Hun) as [D Hmw].
    eapply spec_mono.
    + eapply (abort_after_spec w q C W th t x _ _ _ (¬ steady (TxMgr.vol w) ∨ TxMgr.uses w ≠ [])); [done..|exact Hmw|exact Htr|].
      intros _. destruct Hun as (? & _ & _ & _ & _ & _ & Hsd & _). exact Hsd.
    + done.
    + intros _ w' [Hn Hd]. split; [|done]. intros (Hs & Hu & _). by destruct Hn.
    + intros w' [Hn Hd]. split; [|by left]. intros (Hs & Hu & _). by destruct Hn.
  - intros s' [(D' & Hi & Hv & _) Htr]. cbn [Trans.vol Trans.tr Trans.heap in_trouble] in Htr. split.
    + intros (Hs & _ & Hws & Hcs & _). destruct Htr as [Hn|[Hn|(i & l & c & Hin & Hc & Hn)]]; [done|cbn in Hn; lia|].
      specialize (Hcs i l c Hin Hc). lia.
    + left. by exists q, C, D'.
Qed.

(** ** Abort *)

Lemma midway_self w q C W t x :
  world_with nobody w q C nodirt W → TxMgr.txs w !! t = Some x → midway walq_id w q C W t x nodirt w x.
Proof.
  intros Hw Hx. pose proof (tx_abortable _ _ _ _ _ _ _ _ _ (world_tx_ok _ _ _ _ _ _ _ Hw Hx)) as [].
  split; try done; try apply Hw; [by rewrite insert_id|apply heap_settled_refl|by left].
Qed.

(** [TxHandle::abort] on a transaction under way. *)
Lemma abort_world_spec w W th t x :
  world_ok walq_id w W → TxMgr.txs w !! t = Some x → TxMgr.current_or_empty w th = t →
  spec (TxMgr.abort_trans th t) w
    (λ _ w', (world_ok walq_id w' W ∧ TxMgr.txs w' = delete t (TxMgr.txs w)) ∨
       (holds walq_id (TxMgr.vol w') W ∧ ¬ steady (TxMgr.vol w)))
    (λ _ _, False)
    (λ w', holds walq_id (TxMgr.vol w') W ∧ (¬ steady (TxMgr.vol w) ∨
       U64 ≤ WalQueue.seq (WalQueueMgr.walq (TxMgr.walq_mgr w)) + 1)).
Proof.
  intros (q & C & Hw) Hx Hth. eapply (abort_trans_spec walq_id w); [done..|by apply midway_self].
Qed.
End atomic.
