(* ===== verification/TxBegin.v ===== *)
(** * Beginning: [TxMgr::open], [TxMgr::begin_trans] and saving the log of a transaction. *)
From S2P Require Import Prelude Run Base Segment Armor Wal WalProofs WalMgr Cow Trans TxMgr TxState TxCommit TxWorld TxEnd TxAtomic.
Import Arm.

Section begin.
Context `{!ArmHash, !ArmHashLaws, !TxidHash, !TxidHashLaws, !HashOrder, !HashOrderLaws}.
Context {T V M N : Type} {X : Kind → Type} `{!Volume V X, !VolumeLaws V X, !Cowable T, !CowableLaws T}.
Context `{!LinkedMapOps Eid Wal.Entry M, !LinkedMap Eid Wal.Entry M}.
Context `{!LinkedMapOps Eid Loc N, !LinkedMap Eid Loc N}.
Context `{!Serde (X Logs) (Wal.Wal M), !SerdeLaws (X Logs) (Wal.Wal M)}.
Context `{!Serde (X Logs) (WalQueue.WalQueue M), !SerdeLaws (X Logs) (WalQueue.WalQueue M)}.
Context `{!Serde (X Ents) (Cow.Cow T), !SerdeLaws (X Ents) (Cow.Cow T), !CowSerde T X}.
Context (walq_id : Eid) `{!WalLaws X M walq_id}.
#[local] Existing Instances wal_arm_laws.
Abbreviation Cow := (Cow.Cow T).
Abbreviation Entity := (Entity.Entity T).
Abbreviation World := (TxMgr.World T V M N).
Abbreviation Trans := (Trans.Trans M N).
Abbreviation world_with := (world_with walq_id).
Implicit Types (v : V) (q : WalQueue.WalQueue M) (key id : Eid) (t : Txid) (x : Trans).
Implicit Types (C : gmap Eid (X Ents)) (D : Eid → Prop) (W : gmap Eid Cow) (c : Cow) (w : World) (u : Wal.Wal M).
Implicit Types (h : gmap Loc Entity) (en : gmap Eid Txid).

(** ** Opening *)

Lemma wmark_u64 v q C D : inv walq_id v q C D → 0 ≤ WalQueue.txid_wmark q.
Proof. intros [_ []]. done. Qed.

(** What recovery leaves of the entities. *)
Lemma view_opened v v' q C D W : view_ok v C D W → opened q C D v v' → view_ok v' C nodirt W.
Proof.
  intros Hv [Hp Hd] id c Hc. destruct (Hv id c Hc) as (Hn & Hid & HC & Ho). split_and!; try done.
  right. destruct Ho as [Hk|Ho]; [left; by apply Hd|].
  unfold older, arm_item in *. destruct (Hp (to_eid (other (Cow.arm c)) id)) as [->|[_ ->]]; [done|by left].
Qed.
Lemma view_ents_pruned v v' C D W : view_ok v C D W → ents_pruned C v v' → view_ok v' C D W.
Proof.
  intros Hv Hp id c Hc. destruct (Hv id c Hc) as (Hn & Hid & HC & Ho). split_and!; try done.
  destruct Ho as [Hk|Ho]; [by left|right].
  unfold older, arm_item in *. destruct (Hp (to_eid (other (Cow.arm c)) id)) as [->|[_ ->]]; [done|by left].
Qed.

(** The number of the stored queue has run out. *)
Definition walq_full v : Prop :=
  ∃ q, stored Logs (contents v Logs) walq_id (frozen q) ∧ U64 ≤ WalQueue.seq q + 1.

Lemma open_world_spec v W :
  holds walq_id v W →
  spec (TxMgr.open walq_id) (TxMgr.new walq_id v : World)
    (λ _ w', world_ok walq_id w' W ∧ TxMgr.txs w' = ∅ ∧ TxMgr.heap w' = ∅ ∧ TxMgr.thread_txid w' = ∅ ∧
       (steady v → steady (TxMgr.vol w')))
    (λ _ w', holds walq_id (TxMgr.vol w') W ∧ ¬ steady v)
    (λ w', holds walq_id (TxMgr.vol w') W ∧ (¬ steady v ∨ walq_full v)).
Proof.
  intros (q & C & D & Hi & Hv). unfold TxMgr.open. apply on_walq_spec. eapply spec_mono.
  - apply (open_spec walq_id _ v q C D Hi).
  - cbn zeta. intros [] s' (Hi' & Hg & Ha & Hd & Hid & Hqw & Htw & Hop & Hst).
    split; [|split; [done|split; [done|split; [done|exact Hst]]]].
    exists (WalQueueMgr.walq (WalQueueMgr.mgr s')), C. unfold put_walq, TxMgr.new.
    split; cbn [TxMgr.txs TxMgr.ents TxMgr.walq_mgr TxMgr.vol TxMgr.heap TxMgr.uses TxMgr.thread_txid]; try done.
    + split; [exact Hid|]. split; [done|]. split; [lia|]. split; [done|]. split; [done|].
      by rewrite Hqw, Htw.
    + by eapply view_opened.
    + intros t. rewrite Hg, lookup_empty. split; [by intros ?%elem_of_empty|by intros []].
    + rewrite Htw. by eapply wmark_u64.
  - intros e s' [[Hi' Hp] Hn]. split; [|done]. exists q, C, D. split; [done|]. by eapply view_ents_pruned.
  - intros s' [Hd Htr]. split.
    + destruct Hd as [[Hi' Hp]|(q' & Hi' & Hop)].
      * exists q, C, D. split; [done|]. by eapply view_ents_pruned.
      * exists q', C, nodirt. split; [done|]. by eapply view_opened.
    + destruct Htr as [|Ho]; [by left|right]. exists q. split; [apply Hi|done].
Qed.

(** ** Saving the log *)

(** Nothing has changed but the log of [t]. *)
Lemma frame_logs v v' q C W h en t t' x' :
  other_logs t v v' → contents v' Ents = contents v Ents → t' ≠ t → t ∉ WalQueue.done q →
  tx_frame v q C W h en t' x' v' q C W h en.
Proof.
  intros Hol He Hne Hnd. split; try done.
  - intros a. by apply Hol.
  - intros t1 a u Ht1 Hu. left. split; [done|]. unfold log, arm_item in *. rewrite <- Hol; [done|]. by intros ->.
  - intros i a _ _. left. by rewrite He.
Qed.

Lemma not_done w q C D W t x :
  world_with nobody w q C D W → TxMgr.txs w !! t = Some x → t ∈ WalQueue.doing q ∧ t ∉ WalQueue.done q.
Proof.
  intros Hw Hx. assert (Hd : t ∈ WalQueue.doing q) by (apply (wo_doing _ _ _ _ _ _ _ Hw); by exists x).
  split; [done|]. intros Hdn. by apply (lo_apart _ _ _ _ _ (proj2 (wo_inv _ _ _ _ _ _ _ Hw)) t).
Qed.

(** The log of [t] under another number, saved or not: its entries are the same. *)
Lemma relog_world w q C W t x x' v' us :
  world_with nobody w q C nodirt W → TxMgr.txs w !! t = Some x →
  Trans.cohorts x' = Trans.cohorts x → Wal.txid (Trans.wal x') = t → Wal.id (Trans.wal x') = derive_id t →
  lm_entries (Wal.entries (Trans.wal x')) = lm_entries (Wal.entries (Trans.wal x)) →
  inv walq_id v' q C nodirt → contents v' Ents = contents (TxMgr.vol w) Ents → other_logs t (TxMgr.vol w) v' →
  older (I:=Wal.Wal M) Logs (contents v' Logs) (derive_id t) (Wal.arm (Trans.wal x')) (Wal.seq (Trans.wal x') + 1) →
  (Trans.wal_saved x' = true → stored Logs (contents v' Logs) (derive_id t) (Trans.wal x')) →
  (∀ a u', log (contents v' Logs) t a u' →
     lm_entries (Wal.entries u') = lm_entries (Wal.entries (Trans.wal x)) ∨ log (contents (TxMgr.vol w) Logs) t a u') →
  world_with nobody (put_tx t (Trans.mkSt x' (TxMgr.heap w) us v') w) q C nodirt W.
Proof.
  intros Hw Hx Hco Htid Hid Hen Hi He Hol Hold Hsv Hlg. destruct (not_done _ _ _ _ _ _ _ Hw Hx) as [Hdo Hnd].
  pose proof (wo_txs _ _ _ _ _ _ _ Hw t x Hx (λ f, f)) as Htx.
  assert (Hval : Wal.values (Trans.wal x') = Wal.values (Trans.wal x)) by (unfold Wal.values; by rewrite Hen).
  assert (Hentry : ∀ i, entry (Trans.wal x') i = entry (Trans.wal x) i) by (intros i; unfold entry, lm_get; by rewrite Hen).
  split; unfold put_tx; cbn [TxMgr.txs TxMgr.ents TxMgr.walq_mgr TxMgr.vol TxMgr.heap TxMgr.uses TxMgr.thread_txid
    Trans.tr Trans.heap Trans.uses Trans.vol].
  - done.
  - apply (wo_mem _ _ _ _ _ _ _ Hw).
  - eapply view_ok_ents; [exact He|apply (wo_view _ _ _ _ _ _ _ Hw)].
  - intros t'. rewrite (wo_doing _ _ _ _ _ _ _ Hw t'), lookup_insert_is_Some'. naive_solver.
  - apply (wo_abort _ _ _ _ _ _ _ Hw).
  - intros t' x1 Hx1 _. destruct (decide (t' = t)) as [->|Hne].
    + rewrite lookup_insert_eq in Hx1. injection Hx1 as <-. pose proof Htx as Htx'. destruct Htx'.
      split; rewrite ?Hco; try done.
      * intros i e. rewrite Hen. apply ti_keys.
      * intros i l Hin. destruct (ti_cohorts i l Hin) as (Hown & y & Hy & Hn & Hyi & Hok). split; [done|].
        exists y. split; [done|]. split; [done|]. split; [done|]. by rewrite Hentry.
      * intros i e. rewrite Hentry. apply ti_entries.
      * intros key (e & Hin & Hk). apply ti_safe. exists e. by rewrite <- Hval.
      * intros a u' k key Hu' Hr. unfold recycles. rewrite Hval. destruct (Hlg a u' Hu') as [Heq|Hold'].
        -- unfold recycles, Wal.values in Hr |- *. by rewrite Heq in Hr.
        -- exact (ti_past a u' k key Hold' Hr).
      * intros a u' e Hu' Hin. destruct (Hlg a u' Hu') as [Heq|Hold']; [|by eapply ti_logged].
        apply (tx_in_entry _ _ _ _ _ _ _ _ _ e Htx). unfold Wal.values in *. by rewrite <- Heq.
      * intros i l c Hin Hc Ha. rewrite He. exact (ti_new i l c Hin Hc Ha).
      * intros t1 a u' e' e Ht1 Hu' He'. rewrite Hval. apply (ti_fresh t1 a u'); [done| |done].
        unfold log, arm_item in *. rewrite <- Hol; [done|]. by intros ->.
      * intros e. rewrite Hval. apply ti_retire.
    + rewrite lookup_insert_ne in Hx1 by done.
      eapply tx_in_frame; [exact (wo_txs _ _ _ _ _ _ _ Hw t' x1 Hx1 (λ f, f))|]. by eapply frame_logs.
  - intros i t' Hown. apply lookup_insert_is_Some'. right. by eapply (wo_ents _ _ _ _ _ _ _ Hw).
  - intros l c Hc. destruct (wo_heap _ _ _ _ _ _ _ Hw l c Hc) as (Hn & Hr & Hm & Hok).
    split; [done|]. split; [done|]. split; [done|]. destruct (Cow.txid c) as [t'|]; [|done].
    destruct Hok as (x1 & a & Hx1 & Hin & Ha). destruct (decide (t' = t)) as [->|Hne].
    + exists x', a. rewrite lookup_insert_eq, Hco. assert (x1 = x) as -> by congruence. done.
    + exists x1, a. by rewrite lookup_insert_ne.
  - apply (wo_uniq _ _ _ _ _ _ _ Hw).
  - apply (wo_wmark _ _ _ _ _ _ _ Hw).
  - intros th t' Hc Ht'. apply lookup_insert_is_Some'. right. by eapply (wo_threads _ _ _ _ _ _ _ Hw th).
  - apply (wo_alone _ _ _ _ _ _ _ Hw).
Qed.

Lemma save_world w q C W t x v' b us :
  let u := Trans.wal x in
  let x' := Trans.mkTrans (Trans.txid x) (Trans.cohorts x) (next_item u) b in
  world_with nobody w q C nodirt W → TxMgr.txs w !! t = Some x →
  inv walq_id v' q C (grown_dirt nodirt u) → stored Logs (contents v' Logs) (derive_id t) (next_item u) →
  contents v' Ents = contents (TxMgr.vol w) Ents → other_logs t (TxMgr.vol w) v' →
  (∀ a u', log (contents v' Logs) t a u' → u' = next_item u ∨ log (contents (TxMgr.vol w) Logs) t a u') →
  world_with nobody (put_tx t (Trans.mkSt x' (TxMgr.heap w) us v') w) q C nodirt W.
Proof.
  intros u x' Hw Hx Hi Hst He Hol Hlg. pose proof (wo_txs _ _ _ _ _ _ _ Hw t x Hx (λ f, f)) as [].
  eapply (relog_world w q C W t x x'); try done.
  - by eapply inv_nodirt.
  - right. exists (next_item u). destruct Hst as (_ & Hin & _). split; [exact Hin|]. simpl. lia.
  - intros a u' Hu'. destruct (Hlg a u' Hu') as [->|]; [by left|by right].
Qed.

(** ** A new transaction *)

(** The log of the queue was saved, the rest is as it was. *)
Lemma frame_walq v v' q q' C W h en t' x' :
  saved_only v v' → WalQueue.done q' = WalQueue.done q → tx_frame v q C W h en t' x' v' q' C W h en.
Proof.
  intros (He & Hl & _) Hd. split; try done.
  - intros t1 a u. rewrite Hd. unfold log, arm_item. rewrite Hl. by left.
  - intros i a _ _. left. by rewrite He.
Qed.

(** The world with another volume, queue and thread table, and perhaps a new transaction. *)
Lemma walq_world w q C W q' g' v' :
  world_with nobody w q C nodirt W → inv walq_id v' q' C nodirt → mem_of walq_id g' q' →
  saved_only (TxMgr.vol w) v' → WalQueue.done q' = WalQueue.done q → WalQueue.doing q' = WalQueue.doing q →
  WalQueue.aborting (WalQueueMgr.walq g') = ∅ → 0 ≤ WalQueueMgr.txid_wmark g' →
  ∀ th, TxMgr.current_or_empty w th = 0 →
  world_with nobody (TxMgr.mkWorld (TxMgr.txs w) (TxMgr.ents w) g' v' (TxMgr.heap w) (TxMgr.uses w)
    (<[th := 0]> (TxMgr.thread_txid w))) q' C nodirt W.
Proof.
  intros Hw Hi Hm Hso Hd Hg Ha Hwm th Hth.
  assert (Hcur : ∀ th', TxMgr.current_or_empty (TxMgr.mkWorld (TxMgr.txs w) (TxMgr.ents w) g' v' (TxMgr.heap w)
    (TxMgr.uses w) (<[th := 0]> (TxMgr.thread_txid w))) th' = TxMgr.current_or_empty w th').
  { intros th'. unfold TxMgr.current_or_empty. cbn [TxMgr.thread_txid]. destruct (decide (th' = th)) as [->|Hne].
    - rewrite lookup_insert_eq. exact (eq_sym Hth).
    - by rewrite lookup_insert_ne. }
  split; cbn [TxMgr.txs TxMgr.ents TxMgr.walq_mgr TxMgr.vol TxMgr.heap TxMgr.uses]; try done; try apply Hw.
  - eapply view_ok_ents; [apply Hso|apply (wo_view _ _ _ _ _ _ _ Hw)].
  - intros t. rewrite Hg. apply (wo_doing _ _ _ _ _ _ _ Hw).
  - intros t x Hx _. eapply tx_in_frame; [exact (wo_txs _ _ _ _ _ _ _ Hw t x Hx (λ f, f))|by apply frame_walq].
  - intros th' t'. rewrite Hcur. apply (wo_threads _ _ _ _ _ _ _ Hw).
  - intros th1 th2 t'. rewrite !Hcur. apply (wo_alone _ _ _ _ _ _ _ Hw).
Qed.

Lemma new_world w q C W q' g' v' th t :
  world_with nobody w q C nodirt W → inv walq_id v' q' C nodirt → mem_of walq_id g' q' →
  saved_only (TxMgr.vol w) v' → WalQueue.done q' = WalQueue.done q →
  WalQueue.doing q' = {[t]} ∪ WalQueue.doing q →
  WalQueue.aborting (WalQueueMgr.walq g') = ∅ → WalQueueMgr.txid_wmark g' = t → 0 < t →
  absent Logs (contents v' Logs) (derive_id t) → TxMgr.txs w !! t = None →
  TxMgr.current_or_empty w th = 0 →
  world_with nobody (TxMgr.mkWorld (<[t := Trans.new t]> (TxMgr.txs w)) (TxMgr.ents w) g' v' (TxMgr.heap w)
    (TxMgr.uses w) (<[th := t]> (TxMgr.thread_txid w))) q' C nodirt W.
Proof.
  intros Hw Hi Hm Hso Hd Hg Ha Hwm Ht Hab Hnone Hth.
  assert (Hcur : ∀ th', TxMgr.current_or_empty (TxMgr.mkWorld (<[t := Trans.new t]> (TxMgr.txs w)) (TxMgr.ents w) g' v'
    (TxMgr.heap w) (TxMgr.uses w) (<[th := t]> (TxMgr.thread_txid w))) th'
    = if decide (th' = th) then t else TxMgr.current_or_empty w th').
  { intros th'. unfold TxMgr.current_or_empty. cbn [TxMgr.thread_txid]. case_decide as Hd'; [subst th'|].
    - by rewrite lookup_insert_eq.
    - by rewrite lookup_insert_ne. }
  assert (Hnocur : ∀ th', TxMgr.current_or_empty w th' ≠ t).
  { intros th' Hc. destruct (wo_threads _ _ _ _ _ _ _ Hw th' t Hc ltac:(lia)) as [x Hx]. congruence. }
  split; cbn [TxMgr.txs TxMgr.ents TxMgr.walq_mgr TxMgr.vol TxMgr.heap TxMgr.uses]; try done; try apply Hw.
  - eapply view_ok_ents; [apply Hso|apply (wo_view _ _ _ _ _ _ _ Hw)].
  - intros t'. rewrite Hg, elem_of_union, elem_of_singleton, (wo_doing _ _ _ _ _ _ _ Hw), lookup_insert_is_Some'.
    naive_solver.
  - intros t' x' Hx' _. destruct (decide (t' = t)) as [->|Hne]; cycle 1.
    { rewrite lookup_insert_ne in Hx' by done.
      eapply tx_in_frame; [exact (wo_txs _ _ _ _ _ _ _ Hw t' x' Hx' (λ f, f))|by apply frame_walq]. }
    rewrite lookup_insert_eq in Hx'. injection Hx' as <-.
    assert (Hnolog : ∀ a u, ¬ log (contents v' Logs) t a u).
    { intros a u. unfold log, arm_item. by rewrite Hab. }
    assert (Hnoval : ∀ e, e ∉ Wal.values (Trans.wal (Trans.new t : Trans))).
    { intros e. unfold Wal.values, Trans.new, Wal.new. simpl. rewrite lm_entries_new. apply not_elem_of_nil. }
    assert (Hnoco : ∀ i l, (i, l) ∉ lm_entries (Trans.cohorts (Trans.new t : Trans))).
    { intros i l. simpl. rewrite lm_entries_new. apply not_elem_of_nil. }
    split; try done.
    + left. apply Hab.
    + intros i e. simpl. rewrite lm_entries_new. by intros ?%not_elem_of_nil.
    + intros i l Hin. by apply Hnoco in Hin.
    + intros i e He. apply entry_elem in He. by apply Hnoval in He.
    + intros key (e & He & _). by apply Hnoval in He.
    + intros a u k key Hu. by apply Hnolog in Hu.
    + intros a u e Hu. by apply Hnolog in Hu.
    + intros i l c Hin. by apply Hnoco in Hin.
    + intros t' a u e' e _ _ _ He. by apply Hnoval in He.
    + intros e He. by apply Hnoval in He.
  - intros i t' Hen. apply lookup_insert_is_Some'. right. by eapply (wo_ents _ _ _ _ _ _ _ Hw).
  - intros l c Hc. destruct (wo_heap _ _ _ _ _ _ _ Hw l c Hc) as (Hn & Hr & Hmt & Hok).
    split; [done|]. split; [done|]. split; [done|]. destruct (Cow.txid c) as [t'|]; [|done].
    destruct Hok as (x1 & a & Hx1 & Hrest). exists x1, a. rewrite lookup_insert_ne; [done|]. intros ->. congruence.
  - lia.
  - intros th' t'. rewrite Hcur. case_decide.
    + intros <- _. apply lookup_insert_is_Some'. by left.
    + intros Hc Ht'. apply lookup_insert_is_Some'. right. by eapply (wo_threads _ _ _ _ _ _ _ Hw th').
  - intros th1 th2 t'. rewrite !Hcur. repeat case_decide; subst; try done.
    + intros <- Hc. by apply Hnocur in Hc.
    + intros Hc <-. by apply Hnocur in Hc.
    + apply (wo_alone _ _ _ _ _ _ _ Hw).
Qed.

Lemma unsaved_midway w q C W t x s1 :
  world_with nobody w q C nodirt W → TxMgr.txs w !! t = Some x →
  Trans.tr s1 = with_wal (set_item (Wal.seq (Trans.wal x) + 1) (Wal.arm (Trans.wal x)) (Trans.wal x)) x →
  Trans.heap s1 = TxMgr.heap w → same (TxMgr.vol w) (Trans.vol s1) →
  midway walq_id w q C W t x nodirt (put_tx t s1 w) (Trans.tr s1).
Proof.
  intros Hw Hx Ht Hh Hs. pose proof (tx_abortable _ _ _ _ _ _ _ _ _ (world_tx_ok _ _ _ _ _ _ _ Hw Hx)) as [].
  split; unfold put_tx; cbn [TxMgr.txs TxMgr.ents TxMgr.walq_mgr TxMgr.vol TxMgr.heap TxMgr.uses TxMgr.thread_txid];
    rewrite ?Ht, ?Hh; try done; try apply Hw.
  - eapply inv_same; [|exact Hs]. apply (wo_inv _ _ _ _ _ _ _ Hw).
  - eapply view_ok_ents; [apply Hs|apply (wo_view _ _ _ _ _ _ _ Hw)].
  - apply heap_settled_refl.
  - intros t' a _ _. by rewrite (proj1 Hs).
  - intros t' a u _. by rewrite (proj1 Hs).
  - intros key _. left. by rewrite (proj1 Hs).
Qed.

(** The transaction that [begin_trans] makes: a number of its own, no entities yet. *)
Definition begun th w t w' : Prop :=
  WalQueueMgr.txid_wmark (TxMgr.walq_mgr w) < t ∧ TxMgr.txs w !! t = None ∧
  TxMgr.current_or_empty w' th = t ∧ TxMgr.heap w' = TxMgr.heap w ∧
  ∃ x, TxMgr.txs w' = <[t := x]> (TxMgr.txs w) ∧ lm_entries (Trans.cohorts x) = [].

Lemma begin_world_spec w W th :
  world_ok walq_id w W → TxMgr.current_or_empty w th = 0 →
  spec (TxMgr.begin_trans th) w
    (λ t w', world_ok walq_id w' W ∧ begun th w t w')
    (λ _ w', ¬ steady (TxMgr.vol w) ∧ (world_ok walq_id w' W ∨ holds walq_id (TxMgr.vol w') W))
    (λ w', (¬ steady (TxMgr.vol w) ∨ U64 ≤ WalQueue.seq (WalQueueMgr.walq (TxMgr.walq_mgr w)) + 1 ∨
         U64 ≤ WalQueueMgr.txid_wmark (TxMgr.walq_mgr w) + 1) ∧ holds walq_id (TxMgr.vol w') W).
Proof.
  intros (q & C & Hw) Hth. pose proof (world_holds walq_id w W (ex_intro _ q (ex_intro _ C Hw))) as Hh.
  set (wm := WalQueueMgr.txid_wmark (TxMgr.walq_mgr w)).
  unfold TxMgr.begin_trans. apply spec_bind, spec_ask.
  assert (TxMgr.is_in_trans w th = false) as -> by (unfold TxMgr.is_in_trans; by rewrite Hth).
  (* no abort has failed *)
  apply spec_bind, on_walq_spec. unfold WalQueueMgr.hot_redo_abort. apply spec_bind, spec_ask.
  cbn [WalQueueMgr.mgr]. unfold WalQueue.has_abort. rewrite (wo_abort _ _ _ _ _ _ _ Hw), bool_decide_true by done.
  cbn [negb]. apply spec_ret.
  (* the next number *)
  apply spec_bind. unfold TxMgr.next_txid. apply spec_bind, on_walq_spec. unfold WalQueueMgr.next_txid.
  apply spec_bind, spec_ask, spec_bind. cbn [WalQueueMgr.mgr put_walq TxMgr.walq_mgr WalQueueMgr.vol]. fold wm.
  destruct (wm + 1 <? U64) eqn:Hlt; [|apply Z.ltb_ge in Hlt; split; [right; by right|exact Hh]].
  apply spec_lift_ok, spec_bind, spec_modify, spec_ret.
  unfold TxMgr.set_thread. apply spec_bind, spec_modify, spec_ret.
  cbn [WalQueueMgr.mgr WalQueueMgr.vol put_walq TxMgr.txs TxMgr.ents TxMgr.walq_mgr TxMgr.vol TxMgr.heap TxMgr.uses TxMgr.thread_txid].
  set (t := wm + 1).
  assert (Hnone : TxMgr.txs w !! t = None).
  { apply eq_None_not_Some. intros Hs%(wo_doing _ _ _ _ _ _ _ Hw).
    pose proof (lo_known _ _ _ _ _ (proj2 (wo_inv _ _ _ _ _ _ _ Hw)) t (or_intror Hs)) as Hk.
    destruct (wo_mem _ _ _ _ _ _ _ Hw) as (_ & _ & _ & _ & _ & Hwm). unfold t, wm in *. lia. }
  pose proof (wo_wmark _ _ _ _ _ _ _ Hw) as Hpos. fold wm in Hpos.
  apply spec_bind, spec_or_else, on_walq_spec. cbn [TxMgr.walq_mgr TxMgr.vol]. eapply spec_mono.
  - apply (begin_trans_spec walq_id _ q C nodirt t); cbn [WalQueueMgr.mgr WalQueueMgr.vol WalQueueMgr.txid_wmark].
    + apply (wo_inv _ _ _ _ _ _ _ Hw).
    + destruct (wo_mem _ _ _ _ _ _ _ Hw) as (H1' & H2' & H3' & H4' & H5' & H6').
      split_and!; try done. cbn [WalQueueMgr.txid_wmark]. fold wm in H6'. lia.
    + done.
    + destruct (wo_mem _ _ _ _ _ _ _ Hw) as (_ & _ & _ & _ & _ & Hwm). fold wm in Hwm. unfold t. lia.
  - cbn [WalQueueMgr.mgr WalQueueMgr.vol WalQueueMgr.walq]. intros [] s1 ((q1 & Hi1 & Hm1) & Hg1 & Hd1 & Ha1 & Htw1 & Hso1 & Hab1).
    unfold TxMgr.set_txs. apply spec_bind, spec_modify.
    cbn [put_walq TxMgr.txs TxMgr.ents TxMgr.walq_mgr TxMgr.vol TxMgr.heap TxMgr.uses TxMgr.thread_txid].
    set (w3 := TxMgr.mkWorld _ _ _ _ _ _ _).
    pose proof (wo_mem _ _ _ _ _ _ _ Hw) as (_ & _ & _ & Hdn & Hdo & _). pose proof Hm1 as (_ & _ & _ & Hdn1 & Hdo1 & _).
    assert (Hw3 : world_with nobody w3 q1 C nodirt W).
    { apply (new_world w q C W q1 _ _ th t); try done.
      - by rewrite <- Hdn1, Hd1.
      - by rewrite <- Hdo1, Hg1, Hdo.
      - rewrite Ha1. apply (wo_abort _ _ _ _ _ _ _ Hw).
      - unfold t. lia. }
    assert (Hx3 : TxMgr.txs w3 !! t = Some (Trans.new t)) by apply lookup_insert_eq.
    assert (Hc3 : TxMgr.current_or_empty w3 th = t).
    { unfold TxMgr.current_or_empty, w3. cbn [TxMgr.thread_txid]. by rewrite lookup_insert_eq. }
    assert (Hst3 : steady (TxMgr.vol w) → steady (TxMgr.vol w3)) by apply Hso1.
    pose proof (world_tx_ok _ _ _ _ _ _ _ Hw3 Hx3) as Htx.
    apply spec_bind, spec_or_else. eapply on_tx_spec; [exact Hx3|]. unfold Trans.begin_trans. eapply spec_mono.
    + apply (save_wal_spec walq_id (Trans.mkSt (Trans.new t) (TxMgr.heap w3) (TxMgr.uses w3) (TxMgr.vol w3)) q1 C nodirt t);
        try apply Htx; [apply (wo_inv _ _ _ _ _ _ _ Hw3)|]. intros e He. by apply (entry_named _ _ _ _ _ _ _ _ _ _ Htx).
    + intros [] s5 (Ht5 & Hh5 & Hu5 & Hi5 & Hs5 & He5 & Ho5 & Hl5 & _). cbn [Trans.tr Trans.heap Trans.uses Trans.vol] in *.
      apply spec_ret. split; [|split_and!; try done].
      * exists q1, C. pose proof (save_world w3 q1 C W t _ (Trans.vol s5) false (Trans.uses s5) Hw3 Hx3 Hi5 Hs5 He5 Ho5 Hl5) as Hw5.
        unfold put_tx in *. cbn [Trans.tr Trans.heap Trans.uses Trans.vol] in Hw5. by rewrite Ht5, Hh5.
      * fold wm. unfold t. lia.
      * eexists. unfold put_tx, w3. cbn [TxMgr.txs]. rewrite insert_insert_eq. split; [done|]. rewrite Ht5. simpl. apply lm_entries_new.
    + intros e s5 (Ht5 & Hh5 & Hu5 & [Hs5 Hn5]). cbn [Trans.tr Trans.heap Trans.uses Trans.vol] in *.
      eapply spec_mono.
      * eapply (abort_after_spec walq_id w3 q1 C W th t _ nodirt _ _ (¬ steady (TxMgr.vol w)) e Hw3 Hx3 Hc3);
          [by apply unsaved_midway|by auto|done].
      * done.
      * intros e' w' [Hn Hd]. split; [done|]. destruct Hd as [[Hd _]|[Hd _]]; [by left|by right].
      * intros w' [Hn Hd]. split; [by left|done].
    + intros s5 [Hd Htr]. cbn [Trans.tr Trans.heap Trans.uses Trans.vol] in *. split.
      * destruct Htr as [Hn|Hov]; [left; by auto|]. simpl in Hov. done.
      * unfold put_tx. cbn [TxMgr.vol]. destruct Hd as [Hs|[Hi5 He5]].
        -- exists q1, C, nodirt. split; [eapply inv_same; [|exact Hs]; apply (wo_inv _ _ _ _ _ _ _ Hw3)|].
           eapply view_ok_ents; [apply Hs|apply (wo_view _ _ _ _ _ _ _ Hw3)].
        -- exists q1, C, nodirt. split; [by apply inv_nodirt in Hi5|].
           eapply view_ok_ents; [exact He5|apply (wo_view _ _ _ _ _ _ _ Hw3)].
  - intros e s1 (Hi1 & Hm1 & Hp1 & Hq1 & Htw1 & Hn1). cbn [WalQueueMgr.mgr WalQueueMgr.vol WalQueueMgr.walq WalQueueMgr.txid_wmark] in *.
    unfold TxMgr.reset_current, TxMgr.set_thread. apply spec_bind, spec_modify, spec_fail. split; [exact Hn1|left].
    cbn [put_walq TxMgr.txs TxMgr.ents TxMgr.walq_mgr TxMgr.vol TxMgr.heap TxMgr.uses TxMgr.thread_txid].
    rewrite insert_insert_eq. exists q, C. apply (walq_world w q C W q); try done.
    + split; [|split; [|apply Hp1]]; [apply map_eq; intros key|intros a t'];
        by rewrite (pruned_keep _ _ _ _ _ Hp1) by (by intros []).
    + rewrite Hq1. apply (wo_abort _ _ _ _ _ _ _ Hw).
    + rewrite Htw1. unfold t. lia.
  - intros s1 (Hsf & (v1 & Hp1 & He1) & Htr). cbn [WalQueueMgr.mgr WalQueueMgr.vol WalQueueMgr.walq] in *.
    split; [destruct Htr as [|Hov]; [by left|right; by left]|].
    assert (safe walq_id (WalQueueMgr.vol s1) C nodirt) as (q1 & Hi1) by by destruct Hsf.
    exists q1, C, nodirt. split; [exact Hi1|]. eapply view_ok_ents; [exact He1|].
    eapply view_ok_pruned; [apply (wo_view _ _ _ _ _ _ _ Hw)|exact Hp1].
Qed.
End begin.
