(* ===== verification/TxOps.v ===== *)
(** * The calls of src/trans/cow.rs on entities, in the world of all transactions. *)
From S2P Require Import Prelude Run Base Segment Armor Wal WalProofs WalMgr Cow Trans TxMgr TxState TxCommit TxView TxWorld TxEnd TxAtomic TxBegin.
Import Arm.

(** ** Adding entities to a transaction. *)

Section add.
Context `{!ArmHash, !ArmHashLaws, !TxidHash, !TxidHashLaws, !HashOrder, !HashOrderLaws}.
Context {T V M N : Type} {X : Kind → Type} `{!Volume V X, !VolumeLaws V X, !Cowable T, !CowableLaws T}.
Context `{!LinkedMapOps Eid Wal.Entry M, !LinkedMap Eid Wal.Entry M}.
Context `{!LinkedMapOps Eid Loc N, !LinkedMap Eid Loc N}.
Context `{!Serde (X Logs) (Wal.Wal M), !SerdeLaws (X Logs) (Wal.Wal M)}.
Context `{!Serde (X Logs) (WalQueue.WalQueue M), !SerdeLaws (X Logs) (WalQueue.WalQueue M)}.
Context `{!Serde (X Ents) (Cow.Cow T), !SerdeLaws (X Ents) (Cow.Cow T), !CowSerde T X}.
Context (walq_id : Eid) `{!WalLaws X M walq_id}.
#[local] Existing Instances wal_arm_laws.
Abbreviation Cow := (Cow.Cow T).
Abbreviation Entity := (Entity.Entity T).
Abbreviation World := (TxMgr.World T V M N).
Abbreviation Trans := (Trans.Trans M N).
Abbreviation world_with := (world_with walq_id).
Implicit Types (v : V) (q : WalQueue.WalQueue M) (key id : Eid) (t : Txid) (x : Trans).
Implicit Types (C : gmap Eid (X Ents)) (D : Eid → Prop) (W : gmap Eid Cow) (c : Cow) (w : World) (u : Wal.Wal M).
Implicit Types (h : gmap Loc Entity) (en : gmap Eid Txid).

(** ** The log with one more entry *)

Lemma add_entry_entry u i a ty ar j :
  entry (Wal.add_entry u i a ty ar) j = if decide (j = i) then Some (Wal.mkEntry i a ty ar) else entry u j.
Proof.
  unfold entry, lm_get, Wal.add_entry. simpl. rewrite lm_entries_insert, assoc_app.
  destruct (decide (j = i)) as [->|Hne].
  - rewrite assoc_del_eq. simpl. by rewrite decide_True.
  - rewrite assoc_del_ne by done. simpl. rewrite decide_False by done. by destruct (assoc j _).
Qed.
Lemma add_entry_values u i a ty ar e :
  e ∈ Wal.values (Wal.add_entry u i a ty ar) →
  e = Wal.mkEntry i a ty ar ∨ ∃ j, j ≠ i ∧ (j, e) ∈ lm_entries (Wal.entries u).
Proof.
  unfold Wal.values, Wal.add_entry. simpl. rewrite lm_entries_insert, fmap_app.
  intros [([j e'] & -> & [Hne Hin]%list_elem_of_filter)%list_elem_of_fmap|Hin]%elem_of_app.
  - right. simpl in *. by exists j.
  - left. simpl in Hin. by apply list_elem_of_singleton in Hin.
Qed.
Lemma add_entry_keep u i a ty ar e j :
  (j, e) ∈ lm_entries (Wal.entries u) → j ≠ i → e ∈ Wal.values (Wal.add_entry u i a ty ar).
Proof.
  intros Hin Hne. unfold Wal.values, Wal.add_entry. simpl. rewrite lm_entries_insert, fmap_app.
  apply elem_of_app. left. apply (list_elem_of_fmap_2 snd _ (j, e)). by apply list_elem_of_filter.
Qed.
Lemma add_entry_new u i a ty ar : Wal.mkEntry i a ty ar ∈ Wal.values (Wal.add_entry u i a ty ar).
Proof.
  unfold Wal.values, Wal.add_entry. simpl. rewrite lm_entries_insert, fmap_app.
  apply elem_of_app. right. by apply list_elem_of_singleton.
Qed.

Lemma or_insert_elem (m : N) i l j l' :
  (j, l') ∈ lm_entries (lm_or_insert i l m) ↔
  (j, l') ∈ lm_entries m ∨ (j = i ∧ l' = l ∧ i ∉ (lm_entries m).*1).
Proof.
  rewrite lm_entries_or_insert. destruct (assoc i (lm_entries m)) eqn:Hi.
  - split; [by left|]. intros [|(-> & -> & Hn)]; [done|]. apply assoc_None in Hn. congruence.
  - apply assoc_None in Hi. rewrite elem_of_app, list_elem_of_singleton. naive_solver.
Qed.
Lemma or_insert_keys (m : N) i l j :
  j ∈ (lm_entries (lm_or_insert i l m)).*1 ↔ j = i ∨ j ∈ (lm_entries m).*1.
Proof.
  split.
  - intros ([j' l'] & -> & [Hin|(-> & _)]%or_insert_elem)%list_elem_of_fmap; [right|by left].
    exact (list_elem_of_fmap_2 fst _ _ Hin).
  - destruct (decide (i ∈ (lm_entries m).*1)) as [Hin|Hni].
    + intros Hj. assert (Hj' : j ∈ (lm_entries m).*1) by (destruct Hj as [->|]; done).
      apply list_elem_of_fmap in Hj' as ([j' l'] & -> & Hin').
      apply (list_elem_of_fmap_2 fst _ (j', l')). apply or_insert_elem. by left.
    + intros [->|([j' l'] & -> & Hin')%list_elem_of_fmap].
      * apply (list_elem_of_fmap_2 fst _ (i, l)). apply or_insert_elem. by right.
      * apply (list_elem_of_fmap_2 fst _ (j', l')). apply or_insert_elem. by left.
Qed.

(** ** One more entity *)

Section one.
Context (w : World) q C W t x (i : Eid) (l : Loc) (y : Entity) (a : Action) (ty : EntityType.EntityType) (ar : Arm).
Hypothesis Hw : world_with nobody w q C nodirt W.
Hypothesis Hx : TxMgr.txs w !! t = Some x.
Abbreviation u1 := (Wal.add_entry (Trans.wal x) i a ty ar).
Definition added : Trans := Trans.mkTrans (Trans.txid x) (lm_or_insert i l (Trans.cohorts x)) u1 false.
Definition added_world : World :=
  TxMgr.mkWorld (<[t := added]> (TxMgr.txs w)) (<[i := t]> (TxMgr.ents w)) (TxMgr.walq_mgr w)
    (TxMgr.vol w) (<[l := y]> (TxMgr.heap w)) (TxMgr.uses w) (TxMgr.thread_txid w).

Hypothesis Hown : TxMgr.ents w !! i = None ∨ TxMgr.ents w !! i = Some t.
Hypothesis Hloc : (i, l) ∈ lm_entries (Trans.cohorts x) ∨ i ∉ (lm_entries (Trans.cohorts x)).*1.
Hypothesis Hold : TxMgr.heap w !! l = None ∨
  ∃ c, TxMgr.heap w !! l = Some (Entity.ECow c) ∧ Cow.id c = i ∧ (Cow.txid c = None ∨ Cow.txid c = Some t).
Hypothesis Hy : cohort_ok W t u1 i y.
Hypothesis Hsafe : ∀ key, clean_key (Wal.mkEntry i a ty ar) key → C !! key = None.
Hypothesis Hfresh : a = New → ∀ t' b u' e', t' ∈ WalQueue.done q → log (contents (TxMgr.vol w) Logs) t' b u' →
  e' ∈ Wal.values u' → i ≠ Wal.eid e'.
Hypothesis Hmore : ∀ e0, entry (Trans.wal x) i = Some e0 → Wal.action e0 = Delete → a = Delete ∧ ty = Wal.ent_type e0.
Hypothesis Hnew : ∀ c, y = Entity.ECow c → Cow.action c = Some New →
  older (I:=Cow) Ents (contents (TxMgr.vol w) Ents) i (other (Cow.arm c)) (Cow.seq c + 1).
Hypothesis Hretire : a = Delete → ty = EntityType.Cow → ¬ reserved walq_id i.
Hypothesis Hcow : ∀ c, y = Entity.ECow c →
  ¬ reserved walq_id i ∧ (∀ c0, W !! i = Some c0 → matches c0 c) ∧
  ∀ l' c', TxMgr.heap w !! l' = Some (Entity.ECow c') → Cow.id c' = i → l' = l.

(** Other cohorts are elsewhere. *)
Lemma other_loc t' x' j l' :
  TxMgr.txs w !! t' = Some x' → (j, l') ∈ lm_entries (Trans.cohorts x') → j ≠ i ∨ t' ≠ t → l' ≠ l.
Proof.
  intros Hx' Hin Hne ->. pose proof (wo_txs _ _ _ _ _ _ _ Hw t' x' Hx' (λ f, f)) as Htx'.
  destruct (ti_cohorts _ _ _ _ _ _ _ _ _ Htx' j l Hin) as (Hen & z & Hz & _ & Hid & Hco).
  destruct Hold as [Hn|(c & Hc & Hci & _)]; [congruence|]. assert (z = Entity.ECow c) as -> by congruence.
  simpl in Hid. assert (j = i) as -> by congruence. destruct Hne as [|Hne]; [done|].
  destruct Hown as [Ho|Ho]; congruence.
Qed.

Lemma added_frame t' x' :
  TxMgr.txs w !! t' = Some x' → t' ≠ t →
  tx_frame (TxMgr.vol w) q C W (TxMgr.heap w) (TxMgr.ents w) t' x'
    (TxMgr.vol w) q C W (<[l := y]> (TxMgr.heap w)) (<[i := t]> (TxMgr.ents w)).
Proof.
  intros Hx' Hne. split; try done.
  - by left.
  - by left.
  - intros j l' Hin. apply lookup_insert_ne, not_eq_sym. eapply other_loc; [exact Hx'|exact Hin|by right].
  - intros j Hj. rewrite lookup_insert_ne; [done|]. intros ->. destruct Hown; congruence.
Qed.

Lemma added_tx_in :
  tx_in walq_id (TxMgr.vol w) q C W (<[l := y]> (TxMgr.heap w)) (<[i := t]> (TxMgr.ents w)) t added.
Proof.
  pose proof (wo_txs _ _ _ _ _ _ _ Hw t x Hx (λ f, f)) as Htx.
  assert (Hval : ∀ e, e ∈ Wal.values u1 → e = Wal.mkEntry i a ty ar ∨ e ∈ Wal.values (Trans.wal x)).
  { intros e [|(j & Hne & Hin)]%add_entry_values; [by left|right]. exact (list_elem_of_fmap_2 snd _ _ Hin). }
  assert (Hkey : ∀ e, e ∈ Wal.values (Trans.wal x) → Wal.eid e = i → entry (Trans.wal x) i = Some e).
  { intros e ([j e'] & -> & Hin)%list_elem_of_fmap Heq. simpl in Heq.
    rewrite (ti_keys _ _ _ _ _ _ _ _ _ Htx j e' Hin) in Heq. subst j.
    apply assoc_elem; [apply lm_entries_nodup|done]. }
  assert (Hgrow : ∀ e, e ∈ Wal.values (Trans.wal x) → Wal.action e = Delete →
    ∃ e1, e1 ∈ Wal.values u1 ∧ Wal.action e1 = Delete ∧ Wal.ent_type e1 = Wal.ent_type e ∧ Wal.eid e1 = Wal.eid e).
  { intros e He Ha. destruct (decide (Wal.eid e = i)) as [Heq|Hne].
    - destruct (Hmore e (Hkey e He Heq) Ha) as [-> ->]. eexists. split; [apply add_entry_new|done].
    - exists e. split; [|done]. apply list_elem_of_fmap in He as ([j e'] & -> & Hin). simpl in *.
      rewrite (ti_keys _ _ _ _ _ _ _ _ _ Htx j e' Hin) in Hne. by eapply add_entry_keep. }
  pose proof Htx as Htx'. destruct Htx'. split; cbn [Trans.wal Trans.cohorts Trans.wal_saved added]; try done.
  - intros j e Hin. unfold Wal.add_entry in Hin. simpl in Hin. rewrite lm_entries_insert in Hin.
    apply elem_of_app in Hin as [[_ Hin]%list_elem_of_filter|Hin%list_elem_of_singleton]; [by eapply ti_keys|].
    by injection Hin as -> ->.
  - intros j l' Hin. destruct (decide (j = i)) as [->|Hne].
    + rewrite lookup_insert_eq. split; [done|].
      assert (l' = l) as ->.
      { apply or_insert_elem in Hin as [Hin|(_ & -> & _)]; [|done]. destruct Hloc as [Hin'|Hn].
        - pose proof (lm_entries_nodup (Trans.cohorts x)) as Hnd.
          eapply assoc_elem in Hin; [|done]. eapply assoc_elem in Hin'; [|done]. congruence.
        - destruct Hn. exact (list_elem_of_fmap_2 fst _ _ Hin). }
      exists y. by rewrite lookup_insert_eq.
    + apply or_insert_elem in Hin as [Hin|(? & _)]; [|done].
      destruct (ti_cohorts j l' Hin) as (Hen & z & Hz & Hn & Hid & Hco).
      rewrite lookup_insert_ne by done. split; [done|]. exists z.
      rewrite lookup_insert_ne by (apply not_eq_sym; eapply other_loc; [exact Hx|exact Hin|by left]).
      split; [done|]. split; [done|]. split; [done|]. rewrite add_entry_entry, decide_False by done. done.
  - intros j e. rewrite add_entry_entry, or_insert_keys. case_decide; [by left|]. intros He. right. by eapply ti_entries.
  - intros key (e & He & Hk). destruct (Hval e He) as [->|He']; [by apply Hsafe|]. apply ti_safe. by exists e.
  - intros b u' k key Hu' Hr. destruct (ti_past b u' k key Hu' Hr) as (e & He & Ha & Hk).
    destruct (Hgrow e He Ha) as (e1 & He1 & Ha1 & Hty1 & Hid1). exists e1. by rewrite Hty1, Hid1.
  - intros b u' e Hu' He. destruct (ti_logged b u' e Hu' He) as [Hn Hen]. split; [done|].
    destruct (decide (Wal.eid e = i)) as [->|Hne]; [apply lookup_insert_eq|by rewrite lookup_insert_ne].
  - intros j l' c Hin Hc Ha. destruct (decide (l' = l)) as [->|Hne].
    + rewrite lookup_insert_eq in Hc. injection Hc as ->. destruct Hy as (_ & Hid & _). simpl in Hid.
      assert (j = i) as ->.
      { destruct (decide (j = i)) as [|Hne]; [done|]. apply or_insert_elem in Hin as [Hin|(? & _)]; [|done].
        exfalso. by apply (other_loc t x j l Hx Hin (or_introl Hne)). }
      by apply Hnew.
    + rewrite lookup_insert_ne in Hc by done. apply or_insert_elem in Hin as [Hin|(_ & ? & _)]; [|done].
      exact (ti_new j l' c Hin Hc Ha).
  - intros t' b u' e' e Ht' Hu' He' He Ha. destruct (Hval e He) as [->|He0]; [|by eapply ti_fresh].
    simpl in *. by eapply Hfresh.
  - intros e He Ha Hty. destruct (Hval e He) as [->|He0]; [|by apply ti_retire]. simpl in *. by apply Hretire.
Qed.

Lemma add_world : world_with nobody added_world q C nodirt W.
Proof.
  split; unfold added_world; cbn [TxMgr.txs TxMgr.ents TxMgr.walq_mgr TxMgr.vol TxMgr.heap TxMgr.uses TxMgr.thread_txid];
    try apply Hw.
  - intros t'. rewrite (wo_doing _ _ _ _ _ _ _ Hw t'), lookup_insert_is_Some'. naive_solver.
  - intros t' x' Hx' _. destruct (decide (t' = t)) as [->|Hne].
    + rewrite lookup_insert_eq in Hx'. injection Hx' as <-. apply added_tx_in.
    + rewrite lookup_insert_ne in Hx' by done.
      eapply tx_in_frame; [exact (wo_txs _ _ _ _ _ _ _ Hw t' x' Hx' (λ f, f))|by apply added_frame].
  - intros j t'. destruct (decide (j = i)) as [->|Hne].
    + rewrite lookup_insert_eq. intros [= <-]. apply lookup_insert_is_Some'. by left.
    + rewrite lookup_insert_ne by done. intros Hj. apply lookup_insert_is_Some'. right. by eapply (wo_ents _ _ _ _ _ _ _ Hw).
  - intros l' c Hc. destruct (decide (l' = l)) as [->|Hne].
    + rewrite lookup_insert_eq in Hc. injection Hc as ->. destruct Hy as (Hn & Hid & Ht & _ & a' & Ha & _).
      simpl in Hid. destruct (Hcow c eq_refl) as (Hr & Hm & _). unfold cow_ok. rewrite Hid, Ht.
      split; [done|]. split; [done|]. split; [done|]. exists added, a'. rewrite lookup_insert_eq.
      split; [done|]. split; [|done]. cbn [Trans.cohorts added]. apply or_insert_elem. destruct Hloc; auto.
    + rewrite lookup_insert_ne in Hc by done. destruct (wo_heap _ _ _ _ _ _ _ Hw l' c Hc) as (Hn & Hr & Hm & Hok).
      split; [done|]. split; [done|]. split; [done|]. destruct (Cow.txid c) as [t'|]; [|done].
      destruct Hok as (x' & a' & Hx' & Hin & Ha). destruct (decide (t' = t)) as [->|Hne'].
      * assert (x' = x) as -> by congruence. exists added, a'. rewrite lookup_insert_eq. split; [done|].
        split; [|done]. cbn [Trans.cohorts added]. apply or_insert_elem. by left.
      * exists x', a'. by rewrite lookup_insert_ne.
  - intros l1 l2 c1 c2. destruct (decide (l1 = l)) as [->|Hne1], (decide (l2 = l)) as [->|Hne2]; [done|..];
      rewrite ?lookup_insert_eq, ?lookup_insert_ne by done.
    + intros [= Heq] Hc2 Hid. destruct Hy as (_ & Hyi & _). rewrite Heq in Hyi. simpl in Hyi.
      destruct (Hcow c1 Heq) as (_ & _ & Hu). symmetry. apply (Hu l2 c2 Hc2). congruence.
    + intros Hc1 [= Heq] Hid. destruct Hy as (_ & Hyi & _). rewrite Heq in Hyi. simpl in Hyi.
      destruct (Hcow c2 Heq) as (_ & _ & Hu). apply (Hu l1 c1 Hc1). congruence.
    + apply (wo_uniq _ _ _ _ _ _ _ Hw).
  - intros th t' Hc Ht'. apply lookup_insert_is_Some'. right. by eapply (wo_threads _ _ _ _ _ _ _ Hw th).
Qed.
End one.
End add.

Section ops.
Context `{!ArmHash, !ArmHashLaws, !TxidHash, !TxidHashLaws, !HashOrder, !HashOrderLaws}.
Context {T V M N : Type} {X : Kind → Type} `{!Volume V X, !VolumeLaws V X, !Cowable T, !CowableLaws T}.
Context `{!LinkedMapOps Eid Wal.Entry M, !LinkedMap Eid Wal.Entry M}.
Context `{!LinkedMapOps Eid Loc N, !LinkedMap Eid Loc N}.
Context `{!Serde (X Logs) (Wal.Wal M), !SerdeLaws (X Logs) (Wal.Wal M)}.
Context `{!Serde (X Logs) (WalQueue.WalQueue M), !SerdeLaws (X Logs) (WalQueue.WalQueue M)}.
Context `{!Serde (X Ents) (Cow.Cow T), !SerdeLaws (X Ents) (Cow.Cow T), !CowSerde T X}.
Context (walq_id : Eid) `{!WalLaws X M walq_id}.
#[local] Existing Instances wal_arm_laws.
Abbreviation Cow := (Cow.Cow T).
Abbreviation Entity := (Entity.Entity T).
Abbreviation World := (TxMgr.World T V M N).
Abbreviation Trans := (Trans.Trans M N).
Abbreviation world_with := (world_with walq_id).
Implicit Types (v : V) (q : WalQueue.WalQueue M) (key id : Eid) (t : Txid) (x : Trans).
Implicit Types (C : gmap Eid (X Ents)) (D : Eid → Prop) (W : gmap Eid Cow) (c : Cow) (w : World) (u : Wal.Wal M).
Implicit Types (h : gmap Loc Entity) (en : gmap Eid Txid).

(** ** Changing an entity in memory *)

Definition with_heap h w : World :=
  TxMgr.mkWorld (TxMgr.txs w) (TxMgr.ents w) (TxMgr.walq_mgr w) (TxMgr.vol w) h (TxMgr.uses w) (TxMgr.thread_txid w).

(** A change of a value that is not committed. *)
Definition tweaked W c c' : Prop :=
  Cow.id c' = Cow.id c ∧ Cow.arm c' = Cow.arm c ∧ Cow.seq c' = Cow.seq c ∧ Cow.txid c' = Cow.txid c ∧
  Cow.action c' = Cow.action c ∧ (is_Some (Cow.curr c) → is_Some (Cow.curr c')) ∧
  (Cow.curr c' = Cow.curr c ∨ W !! Cow.id c = None) ∧ (Cow.has_other c = true → Cow.has_other c' = true).

Lemma tweak_world w q C W l c c' :
  world_with nobody w q C nodirt W → TxMgr.heap w !! l = Some (Entity.ECow c) → tweaked W c c' →
  world_with nobody (with_heap (<[l := Entity.ECow c']> (TxMgr.heap w)) w) q C nodirt W.
Proof.
  intros Hw Hc (Hid & Harm & Hseq & Htx & Ha & Hcur & Hcw & Ho).
  assert (Hback : ∀ l1 c1, (<[l := Entity.ECow c']> (TxMgr.heap w)) !! l1 = Some (Entity.ECow c1) →
    ∃ c2, TxMgr.heap w !! l1 = Some (Entity.ECow c2) ∧ Cow.id c2 = Cow.id c1).
  { intros l1 c1. destruct (decide (l1 = l)) as [->|Hne].
    - rewrite lookup_insert_eq. intros [= <-]. by exists c.
    - rewrite lookup_insert_ne by done. by exists c1. }
  split; unfold with_heap; cbn [TxMgr.txs TxMgr.ents TxMgr.walq_mgr TxMgr.vol TxMgr.heap TxMgr.uses TxMgr.thread_txid];
    try apply Hw.
  - intros t x Hx _. pose proof (wo_txs _ _ _ _ _ _ _ Hw t x Hx (λ f, f)) as Htxx. pose proof Htxx as Htx'.
    destruct Htx'. split; try done.
    + intros i l1 Hin. destruct (ti_cohorts i l1 Hin) as (Hen & y & Hy & Hn & Hyi & Hco). split; [done|].
      destruct (decide (l1 = l)) as [->|Hne]; [|exists y; by rewrite lookup_insert_ne].
      exists (Entity.ECow c'). rewrite lookup_insert_eq. assert (y = Entity.ECow c) as -> by congruence. simpl in Hyi.
      split; [done|]. split; [done|]. split; [simpl; congruence|]. destruct Hco as (Htc & Hcc & a & Hac & Hent & Hact).
      split; [congruence|]. split; [by apply Hcur|]. exists a. split; [congruence|]. rewrite Harm. split; [done|].
      destruct a; [done| |done]. destruct Hact as (Hoth & c0 & Hc0 & Har & Hsq). split; [by apply Ho|].
      exists c0. rewrite Hseq. done.
    + intros i l1 c1 Hin Hc1 Hac. destruct (decide (l1 = l)) as [->|Hne].
      * rewrite lookup_insert_eq in Hc1. injection Hc1 as <-. rewrite Harm, Hseq. apply (ti_new i l c Hin Hc). congruence.
      * rewrite lookup_insert_ne in Hc1 by done. exact (ti_new i l1 c1 Hin Hc1 Hac).
  - intros l1 c1 Hc1. destruct (decide (l1 = l)) as [->|Hne].
    + rewrite lookup_insert_eq in Hc1. injection Hc1 as <-. destruct (wo_heap _ _ _ _ _ _ _ Hw l c Hc) as (Hn & Hr & Hm & Hok).
      unfold cow_ok. rewrite Hid, Htx, Ha. split; [done|]. split; [done|]. split; [|done].
      intros c0 Hc0. destruct (Hm c0 Hc0) as (H1' & H2' & H3'). unfold matches. rewrite Harm, Hseq.
      destruct Hcw as [->|]; [done|congruence].
    + rewrite lookup_insert_ne in Hc1 by done. by apply (wo_heap _ _ _ _ _ _ _ Hw).
  - intros l1 l2 c1 c2 Hc1 Hc2 Hidd. destruct (Hback l1 c1 Hc1) as (d1 & Hd1 & Hi1), (Hback l2 c2 Hc2) as (d2 & Hd2 & Hi2).
    apply (wo_uniq _ _ _ _ _ _ _ Hw l1 l2 d1 d2 Hd1 Hd2). congruence.
Qed.

(** A new entity in memory that is in no transaction. *)
Lemma alloc_world w q C W l c :
  world_with nobody w q C nodirt W → TxMgr.heap w !! l = None → named (Cow.id c) → ¬ reserved walq_id (Cow.id c) →
  (∀ c0, W !! Cow.id c = Some c0 → matches c0 c) → Cow.txid c = None → Cow.action c = None →
  (∀ l' c', TxMgr.heap w !! l' = Some (Entity.ECow c') → Cow.id c' ≠ Cow.id c) →
  world_with nobody (with_heap (<[l := Entity.ECow c]> (TxMgr.heap w)) w) q C nodirt W.
Proof.
  intros Hw Hl Hn Hr Hm Ht Ha Hu.
  split; unfold with_heap; cbn [TxMgr.txs TxMgr.ents TxMgr.walq_mgr TxMgr.vol TxMgr.heap TxMgr.uses TxMgr.thread_txid];
    try apply Hw.
  - intros t x Hx _. eapply tx_in_frame; [exact (wo_txs _ _ _ _ _ _ _ Hw t x Hx (λ f, f))|].
    split; try done; [by left|by left|]. intros i l' Hin. apply lookup_insert_ne. intros <-.
    destruct (ti_cohorts _ _ _ _ _ _ _ _ _ (wo_txs _ _ _ _ _ _ _ Hw t x Hx (λ f, f)) i l Hin) as (_ & y & Hy & _). congruence.
  - intros l1 c1 Hc1. destruct (decide (l1 = l)) as [->|Hne].
    + rewrite lookup_insert_eq in Hc1. injection Hc1 as <-. unfold cow_ok. by rewrite Ht.
    + rewrite lookup_insert_ne in Hc1 by done. by apply (wo_heap _ _ _ _ _ _ _ Hw).
  - intros l1 l2 c1 c2. destruct (decide (l1 = l)) as [->|Hne1], (decide (l2 = l)) as [->|Hne2]; [done|..];
      rewrite ?lookup_insert_eq, ?lookup_insert_ne by done.
    + intros [= <-] Hc2 Hid. symmetry in Hid. by apply Hu in Hc2.
    + intros Hc1 [= <-] Hid. by apply Hu in Hc1.
    + apply (wo_uniq _ _ _ _ _ _ _ Hw).
Qed.

(** ** [Cow::add_to_trans] *)

(** The transaction of a thread. *)
Definition in_tx w th t x : Prop :=
  TxMgr.current_or_empty w th = t ∧ t ≠ 0 ∧ TxMgr.txs w !! t = Some x.

(** An id that nothing knows. *)
Definition unused w W id : Prop :=
  named id ∧ ¬ reserved walq_id id ∧ W !! id = None ∧ TxMgr.ents w !! id = None ∧
  (∀ b, contents (TxMgr.vol w) Ents !! to_eid b id = None) ∧
  ∀ t b u e, log (contents (TxMgr.vol w) Logs) t b u → e ∈ Wal.values u → Wal.eid e ≠ id.

(** Only the transaction, and the entity at [l], are changed. *)
Definition only_tx w w' t l : Prop :=
  (∀ l', l' ≠ l → TxMgr.heap w' !! l' = TxMgr.heap w !! l') ∧
  (∀ t', t' ≠ t → TxMgr.txs w' !! t' = TxMgr.txs w !! t') ∧
  TxMgr.vol w' = TxMgr.vol w ∧ TxMgr.walq_mgr w' = TxMgr.walq_mgr w ∧
  TxMgr.thread_txid w' = TxMgr.thread_txid w ∧ TxMgr.uses w' = TxMgr.uses w.

Lemma only_tx_refl w t l : only_tx w w t l.
Proof. by split_and!. Qed.
Lemma only_tx_trans w1 w2 w3 t l : only_tx w1 w2 t l → only_tx w2 w3 t l → only_tx w1 w3 t l.
Proof.
  intros (H1' & H2' & H3' & H4' & H5' & H6') (K1 & K2 & K3 & K4 & K5 & K6).
  split_and!; try congruence; [intros l' Hl; rewrite K1, H1'; done|intros t' Ht; rewrite K2, H2'; done].
Qed.

(** What adding the action needs of the entity. *)
Definition addable w W (a : Action) c : Prop :=
  (∀ l d, TxMgr.heap w !! l = Some (Entity.EData d) → SegStub.id d ≠ Cow.id c) ∧
  match a with
  | New => Cow.txid c = None ∧ unused w W (Cow.id c) ∧ is_Some (Cow.curr c)
  | Update => is_Some (W !! Cow.id c) ∧ Cow.has_other c = true
  | Delete => is_Some (W !! Cow.id c) ∨ Cow.action c = Some New
  end.

(** The call cannot be made in this order. *)
Definition wrong_order c (a : Action) : Prop :=
  ∃ b, Cow.action c = Some b ∧ TxMgr.action_order b a = Panic.

(** The entity once its action is in the transaction. *)
Definition acted (a : Action) t c : Cow :=
  match Cow.action c with
  | None => Cow.set_trans (Some t) (Some a) c
  | Some b => match TxMgr.action_order b a with Ok true => Cow.set_trans (Some t) (Some a) c | _ => c end
  end.

Definition joined w w' t x l c c' : Prop :=
  only_tx w w' t l ∧ TxMgr.heap w' !! l = Some (Entity.ECow c') ∧
  ∃ x', TxMgr.txs w' !! t = Some x' ∧
    lm_entries (Trans.cohorts x') = lm_entries (lm_or_insert (Cow.id c) l (Trans.cohorts x)).

Lemma curr_live w q C W l c :
  world_with nobody w q C nodirt W → TxMgr.heap w !! l = Some (Entity.ECow c) →
  is_Some (W !! Cow.id c) → is_Some (Cow.curr c).
Proof.
  intros Hw Hc [c0 Hc0]. destruct (wo_heap _ _ _ _ _ _ _ Hw l c Hc) as (_ & _ & Hm & _).
  destruct (Hm c0 Hc0) as (_ & _ & Ht). eapply tidied_Some; [exact Ht|].
  by destruct (wo_view _ _ _ _ _ _ _ Hw _ c0 Hc0) as (_ & (_ & ? & _) & _).
Qed.

(** The cohort of the entity's id is the entity. *)
Lemma cohort_entity w q C W t x i l0 l c :
  world_with nobody w q C nodirt W → TxMgr.txs w !! t = Some x →
  TxMgr.heap w !! l = Some (Entity.ECow c) → (i, l0) ∈ lm_entries (Trans.cohorts x) → Cow.id c = i →
  (∀ l d, TxMgr.heap w !! l = Some (Entity.EData d) → SegStub.id d ≠ i) →
  l0 = l ∧ cohort_ok W t (Trans.wal x) i (Entity.ECow c).
Proof.
  intros Hw Hx Hc Hin Hid Hkind.
  destruct (ti_cohorts _ _ _ _ _ _ _ _ _ (wo_txs _ _ _ _ _ _ _ Hw t x Hx (λ f, f)) i l0 Hin) as (_ & y & Hy & Hco).
  destruct y as [c1|d]; cycle 1.
  { destruct Hco as (_ & Hd & _). by apply Hkind in Hy. }
  assert (l0 = l) as ->.
  { apply (wo_uniq _ _ _ _ _ _ _ Hw l0 l c1 c Hy Hc). destruct Hco as (_ & Hd & _). simpl in Hd. congruence. }
  split; [done|]. by assert (c1 = c) as -> by congruence.
Qed.

(** Whether the action is added is decided by the entity's transaction and its action there. *)
Definition adds c (a : Action) t : Prop :=
  (Cow.txid c = None ∧ Cow.action c = None) ∨
  (Cow.txid c = Some t ∧ ∃ b, Cow.action c = Some b ∧ TxMgr.action_order b a = Ok true).

Lemma cow_added w q C W t x l c a :
  world_with nobody w q C nodirt W → TxMgr.txs w !! t = Some x →
  TxMgr.heap w !! l = Some (Entity.ECow c) → addable w W a c → adds c a t →
  (TxMgr.ents w !! Cow.id c = None ∨ TxMgr.ents w !! Cow.id c = Some t) →
  world_with nobody (added_world w t x (Cow.id c) l (Entity.ECow (Cow.set_trans (Some t) (Some a) c)) a EntityType.Cow
    (if decide (a = New) then Cow.arm c else other (Cow.arm c))) q C nodirt W.
Proof.
  intros Hw Hx Hc [Hkind Hadd] Hgo Hown. destruct (wo_heap _ _ _ _ _ _ _ Hw l c Hc) as (Hn & Hr & Hm & Hok).
  pose proof (wo_txs _ _ _ _ _ _ _ Hw t x Hx (λ f, f)) as Htx.
  assert (Hkept : ∀ key, contents (TxMgr.vol w) Ents !! key = None → C !! key = None).
  { intros key Hk. pose proof (lo_kept _ _ _ _ _ (proj2 (wo_inv _ _ _ _ _ _ _ Hw))) as Hs.
    rewrite map_subseteq_spec in Hs. apply eq_None_not_Some. intros [z Hz%Hs]. congruence. }
  assert (Hself : ∀ l0, (Cow.id c, l0) ∈ lm_entries (Trans.cohorts x) →
    l0 = l ∧ cohort_ok W t (Trans.wal x) (Cow.id c) (Entity.ECow c)).
  { intros l0 Hin. by eapply cohort_entity. }
  apply add_world; try done.
  - destruct Hgo as [[Ht Ha]|[Ht _]].
    + right. intros ([i0 l0] & Heq & Hin)%list_elem_of_fmap. simpl in Heq. subst i0.
      destruct (Hself l0 Hin) as (_ & _ & _ & Ht' & _). congruence.
    + left. rewrite Ht in Hok. destruct Hok as (x' & b & Hx' & Hin & _). by assert (x' = x) as -> by congruence.
  - right. exists c. split; [done|]. split; [done|]. destruct Hgo as [[-> _]|[-> _]]; auto.
  - split; [done|]. split; [done|]. split; [done|]. split.
    + change (is_Some (Cow.curr c)). destruct a; [by destruct Hadd as (_ & _ & ?)|by eapply curr_live; [..|apply Hadd]|].
      destruct Hadd as [Hl|Hnw]; [by eapply curr_live|].
      destruct Hgo as [[_ Ha]|[Ht _]]; [congruence|]. rewrite Ht in Hok. destruct Hok as (x' & b & Hx' & Hin & _).
      assert (x' = x) as -> by congruence. by destruct (Hself l Hin) as (_ & _ & _ & _ & ? & _).
    + exists a. split; [done|]. rewrite add_entry_entry, decide_True by done. split; [done|].
      destruct a; [by destruct Hadd as (_ & (_ & _ & ? & _) & _)| |done].
      destruct Hadd as [[c0 Hc0] Ho]. split; [exact Ho|]. exists c0. split; [done|].
      destruct (Hm c0 Hc0) as (Harm & Hseq & _). by split.
  - intros key Hk. unfold clean_key in Hk. simpl in Hk. destruct a; [| |done].
    + destruct Hk as [b ->]. apply Hkept. destruct Hadd as (_ & (_ & _ & _ & _ & Hne & _) & _). apply Hne.
    + rewrite decide_False in Hk by done. subst key. destruct Hadd as [[c0 Hc0] _].
      destruct (Hm c0 Hc0) as (-> & _). by destruct (wo_view _ _ _ _ _ _ _ Hw _ c0 Hc0) as (_ & _ & [_ ?] & _).
  - intros -> t' b u' e' _ Hu' He' Heq. destruct Hadd as (_ & (_ & _ & _ & _ & _ & Hno) & _).
    by apply (Hno t' b u' e' Hu' He').
  - intros e0 He0 Ha0. exfalso. pose proof (ti_entries _ _ _ _ _ _ _ _ _ Htx _ e0 He0) as Hin.
    apply list_elem_of_fmap in Hin as ([i0 l0] & Heq & Hin). simpl in Heq. subst i0.
    destruct (Hself l0 Hin) as (_ & _ & _ & Ht & _ & b & Hb & Heb & _). rewrite He0 in Heb. injection Heb as ->.
    simpl in Ha0. subst b. destruct Hgo as [[Ht' _]|(_ & b & Hb' & Ho)]; [congruence|].
    assert (b = Delete) as -> by congruence. by destruct a.
  - intros c1 [= <-] [= ->]. left. destruct Hadd as (_ & (_ & _ & _ & _ & Hne & _) & _). apply Hne.
  - intros c1 [= <-]. split; [done|]. split; [exact Hm|]. intros l' c' Hc' Hid.
    by apply (wo_uniq _ _ _ _ _ _ _ Hw l' l c' c Hc' Hc).
Qed.

Lemma cow_add_world w W th t x l c a :
  world_ok walq_id w W → in_tx w th t x → TxMgr.heap w !! l = Some (Entity.ECow c) → addable w W a c →
  spec (TxMgr.cow_add_to_trans th l a) w
    (λ _ w', world_ok walq_id w' W ∧ joined w w' t x l c (acted a t c))
    (λ e w', w' = w ∧
       ((e = InUse ∧ ∃ t', Cow.txid c = Some t' ∧ t' ≠ t) ∨
        (e = InTrans ∧ ∃ t', TxMgr.ents w !! Cow.id c = Some t' ∧ t' ≠ t)))
    (λ w', w' = w ∧ wrong_order c a).
Proof.
  intros (q & C & Hw) (Hcur & Ht0 & Hx) Hc Hadd. unfold TxMgr.cow_add_to_trans, TxMgr.current.
  apply spec_bind, spec_bind, spec_ask. rewrite Hcur. rewrite (proj2 (Z.eqb_neq t 0)) by done. apply spec_ret.
  apply spec_bind. unfold TxMgr.cow_of at 1. apply spec_bind, spec_ask. rewrite Hc. apply spec_lift_ok.
  destruct (wo_heap _ _ _ _ _ _ _ Hw l c Hc) as (Hn & Hr & Hm & Hok).
  (* adding *)
  assert (Hadding : adds c a t → spec (_ ← TxMgr.add_to_trans (Cow.id c) t l a EntityType.Cow
        (if decide (a = New) then Cow.arm c else other (Cow.arm c));
      TxMgr.set_cow l (Cow.set_trans (Some t) (Some a) c)) w
    (λ _ w', world_ok walq_id w' W ∧ joined w w' t x l c (Cow.set_trans (Some t) (Some a) c))
    (λ e w', w' = w ∧
       ((e = InUse ∧ ∃ t', Cow.txid c = Some t' ∧ t' ≠ t) ∨
        (e = InTrans ∧ ∃ t', TxMgr.ents w !! Cow.id c = Some t' ∧ t' ≠ t)))
    (λ w', w' = w ∧ wrong_order c a)).
  { intros Hgo. unfold TxMgr.add_to_trans. apply spec_bind, spec_bind, spec_ask.
    set (Q := λ (_ : unit) w', world_ok walq_id w' W ∧ joined w w' t x l c (Cow.set_trans (Some t) (Some a) c)).
    assert (Hend : ∀ w1, (TxMgr.ents w !! Cow.id c = None ∨ TxMgr.ents w !! Cow.id c = Some t) →
      TxMgr.txs w1 = TxMgr.txs w → TxMgr.ents w1 = <[Cow.id c := t]> (TxMgr.ents w) →
      TxMgr.walq_mgr w1 = TxMgr.walq_mgr w → TxMgr.vol w1 = TxMgr.vol w → TxMgr.heap w1 = TxMgr.heap w →
      TxMgr.uses w1 = TxMgr.uses w → TxMgr.thread_txid w1 = TxMgr.thread_txid w →
      spec (if decide (t ≠ t) then fail InTrans else
        x ← ask (λ w, TxMgr.txs w !! t); _ ← lift (ok_or NoTrans x);
        TxMgr.on_tx t (Trans.add_entity (Cow.id c) l a EntityType.Cow
          (if decide (a = New) then Cow.arm c else other (Cow.arm c)))) w1
        (λ a0 s', spec (TxMgr.set_cow l (Cow.set_trans (Some t) (Some a) c)) s' Q
          (λ e w', w' = w ∧
             ((e = InUse ∧ ∃ t', Cow.txid c = Some t' ∧ t' ≠ t) ∨
              (e = InTrans ∧ ∃ t', TxMgr.ents w !! Cow.id c = Some t' ∧ t' ≠ t)))
          (λ w', w' = w ∧ wrong_order c a))
        (λ e w', w' = w ∧
           ((e = InUse ∧ ∃ t', Cow.txid c = Some t' ∧ t' ≠ t) ∨
            (e = InTrans ∧ ∃ t', TxMgr.ents w !! Cow.id c = Some t' ∧ t' ≠ t)))
        (λ w', w' = w ∧ wrong_order c a)).
    { intros w1 Hown Htxs Hents Hwq Hvol Hheap Huses Hthr. rewrite decide_False by (intros Hf; by apply Hf).
      apply spec_bind, spec_ask. rewrite Htxs, Hx. apply spec_bind, spec_lift_ok.
      eapply on_tx_spec; [by rewrite Htxs|]. unfold Trans.add_entity.
      apply spec_bind, spec_ask, spec_bind, spec_modify, spec_bind, spec_modify, spec_bind.
      rewrite decide_False by done. apply spec_ret, spec_bind, spec_ask, spec_modify.
      unfold TxMgr.set_cow, TxMgr.set_heap. apply spec_modify.
      unfold put_tx. cbn [TxMgr.txs TxMgr.ents TxMgr.walq_mgr TxMgr.vol TxMgr.heap TxMgr.uses TxMgr.thread_txid
        Trans.tr Trans.heap Trans.uses Trans.vol Trans.txid Trans.cohorts Trans.wal Trans.wal_saved].
      rewrite Htxs, Hents, Hwq, Hvol, Hheap, Huses, Hthr.
      pose proof (cow_added w q C W t x l c a Hw Hx Hc Hadd Hgo Hown) as Hw'. split; [by exists q, C|].
      split; [split_and!; try done|].
      - intros l' Hl. cbn [TxMgr.heap]. by rewrite lookup_insert_ne.
      - intros t' Ht. cbn [TxMgr.txs]. by rewrite lookup_insert_ne.
      - cbn [TxMgr.heap TxMgr.txs]. split; [apply lookup_insert_eq|]. eexists. split; [apply lookup_insert_eq|done]. }
    destruct (TxMgr.ents w !! Cow.id c) as [t'|] eqn:Hen.
    - apply spec_bind, spec_ret. destruct (decide (t' = t)) as [->|Hne].
      + apply Hend; try done; [by right|]. by rewrite insert_id.
      + rewrite decide_True by done. apply spec_fail. split; [done|]. right. split; [done|]. by exists t'.
    - apply spec_bind, spec_bind, spec_modify, spec_ret. apply Hend; try done. by left. }
  destruct (Cow.txid c) as [t'|] eqn:Ht; cycle 1.
  - apply spec_bind, spec_ret. unfold acted. rewrite Hok. apply Hadding. by left.
  - destruct (decide (t' ≠ t)) as [Hne|Heq].
    { apply spec_bind, spec_fail. split; [done|]. left. split; [done|]. by exists t'. }
    apply dec_stable in Heq. subst t'. destruct Hok as (x' & b & Hx' & Hin & Hb).
    assert (x' = x) as -> by congruence. rewrite Hb. unfold acted. rewrite Hb.
    destruct (TxMgr.action_order b a) as [[]|e|] eqn:Ho.
    + apply spec_bind, spec_lift_ok. apply Hadding. right. split; [done|]. by exists b.
    + apply spec_bind, spec_lift_ok, spec_ret. split; [by exists q, C|]. split; [apply only_tx_refl|].
      split; [done|]. exists x. split; [done|]. rewrite lm_entries_or_insert.
      by rewrite (assoc_elem _ _ _ (lm_entries_nodup _) Hin).
    + by destruct b, a.
    + apply spec_bind. split; [done|]. by exists b.
Qed.

(** ** [Cow::make_mut] *)

(** The entity with a copy of its own for a transaction. *)
Definition private c : Cow := if Cow.has_other c then c else Cow.set_other (Cow.curr c) c.

(** The entity changed by [f] in transaction [t]: a new one in place, another in its copy. *)
Definition mutated t (f : T → T) c : Cow :=
  if decide (Cow.action c = Some New) then Cow.set_by (Cow.arm c) (f <$> Cow.curr c) c
  else let c2 := acted Update t (private c) in
       Cow.set_by (other (Cow.arm c2)) (f <$> Cow.get_by (other (Cow.arm c2)) c2) c2.

Definition usable w W t c : Prop :=
  (∀ l d, TxMgr.heap w !! l = Some (Entity.EData d) → SegStub.id d ≠ Cow.id c) ∧
  (is_Some (W !! Cow.id c) ∨ (Cow.action c = Some New ∧ Cow.txid c = Some t)).

Lemma private_fields c :
  Cow.id (private c) = Cow.id c ∧ Cow.arm (private c) = Cow.arm c ∧ Cow.seq (private c) = Cow.seq c ∧
  Cow.txid (private c) = Cow.txid c ∧ Cow.action (private c) = Cow.action c ∧ Cow.curr (private c) = Cow.curr c ∧
  (is_Some (Cow.curr c) → Cow.has_other (private c) = true).
Proof.
  unfold private. destruct (Cow.has_other c) eqn:Ho; [done|]. destruct c as [? ? [] ? ? ? ?]; simpl;
    (split_and!; [done..|]); intros [z Hz]; unfold Cow.curr, Cow.has_other in *; simpl in *; by rewrite Hz.
Qed.

Lemma acted_fields a t c :
  Cow.id (acted a t c) = Cow.id c ∧ Cow.arm (acted a t c) = Cow.arm c ∧ Cow.seq (acted a t c) = Cow.seq c ∧
  ∀ b, Cow.get_by b (acted a t c) = Cow.get_by b c.
Proof.
  unfold acted. destruct (Cow.action c) as [b|]; [destruct (TxMgr.action_order b a) as [[]| |]|];
    by destruct c as [? ? [] ? ? ? ?].
Qed.

Lemma set_by_tweaked W c b (g : T → T) :
  b = other (Cow.arm c) ∨ W !! Cow.id c = None → is_Some (Cow.get_by b c) →
  tweaked W c (Cow.set_by b (g <$> Cow.get_by b c) c).
Proof.
  intros Hb [z Hz]. rewrite Hz. unfold tweaked, Cow.curr, Cow.has_other in *.
  destruct c as [i s ar le ri tx ac], b, ar; simpl in *; subst; (split_and!; try done); auto;
    destruct Hb as [Hb|Hb]; try done; by right.
Qed.

Lemma private_tweaked W c : is_Some (Cow.curr c) → tweaked W c (private c).
Proof.
  intros Hc. destruct (private_fields c) as (H1' & H2' & H3' & H4' & H5' & H6' & H7').
  split_and!; try done; [by rewrite H6'|by left|]. intros _. by apply H7'.
Qed.

Lemma in_tx_only w w' th t x l :
  in_tx w th t x → only_tx w w' t l → TxMgr.txs w' !! t = Some x → in_tx w' th t x.
Proof.
  intros (Hc & Ht & _) (_ & _ & _ & _ & Hthr & _) Hx. split; [|by split].
  unfold TxMgr.current_or_empty in *. by rewrite Hthr.
Qed.

Lemma set_cow_world w W t l c c' :
  world_ok walq_id w W → TxMgr.heap w !! l = Some (Entity.ECow c) → tweaked W c c' →
  spec (TxMgr.set_cow l c') w
    (λ _ w', world_ok walq_id w' W ∧ only_tx w w' t l ∧ TxMgr.txs w' = TxMgr.txs w ∧ TxMgr.ents w' = TxMgr.ents w ∧
       TxMgr.heap w' = <[l := Entity.ECow c']> (TxMgr.heap w))
    (λ _ _, False) (λ _, False).
Proof.
  intros (q & C & Hw) Hc Ht. unfold TxMgr.set_cow, TxMgr.set_heap. apply spec_modify.
  split; [exists q, C; exact (tweak_world w q C W l c c' Hw Hc Ht)|].
  split; [|done]. split_and!; try done. intros l' Hl. cbn [TxMgr.heap]. by rewrite lookup_insert_ne.
Qed.

(** What is refused: the entity, or its id, is another transaction's. *)
Definition refused w t c (e : Error) : Prop :=
  (e = InUse ∧ ∃ t', Cow.txid c = Some t' ∧ t' ≠ t) ∨
  (e = InTrans ∧ ∃ t', TxMgr.ents w !! Cow.id c = Some t' ∧ t' ≠ t).

Lemma make_mut_world w W th t x l c :
  world_ok walq_id w W → in_tx w th t x → TxMgr.heap w !! l = Some (Entity.ECow c) → usable w W t c →
  spec (TxMgr.make_mut th l) w
    (λ b w', world_ok walq_id w' W ∧ ∃ c2, joined w w' t x l c c2 ∧ is_Some (Cow.get_by b c2) ∧
       if decide (Cow.action c = Some New) then c2 = c ∧ b = Cow.arm c
       else c2 = acted Update t (private c) ∧ b = other (Cow.arm c))
    (λ e w', world_ok walq_id w' W ∧ only_tx w w' t l ∧ refused w t c e)
    (λ w', holds walq_id (TxMgr.vol w') W ∧ Cow.action c = Some Delete).
Proof.
  intros Hok Hin Hc [Hkind Hus]. pose proof Hok as (q & C & Hw). pose proof Hin as (Hcur & Ht0 & Hx).
  destruct (wo_heap _ _ _ _ _ _ _ Hw l c Hc) as (Hn & Hr & Hm & Htx).
  unfold TxMgr.make_mut. apply spec_bind. unfold TxMgr.cow_of at 1. apply spec_bind, spec_ask. rewrite Hc. apply spec_lift_ok.
  destruct (decide (Cow.action c = Some New)) as [Ha|Ha].
  - destruct (Cow.txid c) as [t'|] eqn:Ht'; [|congruence]. destruct Htx as (x' & b & Hx' & Hco & _).
    destruct (cohort_entity w q C W t' x' (Cow.id c) l l c Hw Hx' Hc Hco eq_refl Hkind)
      as (_ & _ & _ & _ & Hcu & b' & Hb' & _ & Hnew).
    assert (b' = New) as -> by congruence.
    destruct Hus as [[c0 Hc0]|[_ Ht]]; [congruence|]. injection Ht as ->.
    assert (x' = x) as -> by congruence. destruct Hcu as [z Hz].
    apply spec_bind. unfold Cow.inner, Cow.inner_by. unfold Cow.curr in Hz. rewrite Hz. apply spec_lift_ok, spec_ret.
    split; [done|]. exists c. split; [|split; [by rewrite Hz|done]]. split; [apply only_tx_refl|]. split; [done|].
    exists x. split; [done|]. rewrite lm_entries_or_insert. by rewrite (assoc_elem _ _ _ (lm_entries_nodup _) Hco).
  - destruct Hus as [Hlive|[? _]]; [|done]. pose proof (curr_live _ _ _ _ _ _ Hw Hc Hlive) as Hcu.
    destruct (private_fields c) as (Hid1 & Harm1 & Hseq1 & Htx1 & Ha1 & Hcu1 & Ho1).
    (* the copy *)
    apply spec_bind. eapply (spec_mono _ _ (λ _ w1, world_ok walq_id w1 W ∧ only_tx w w1 t l ∧
      TxMgr.txs w1 = TxMgr.txs w ∧ TxMgr.ents w1 = TxMgr.ents w ∧ TxMgr.heap w1 = <[l := Entity.ECow (private c)]> (TxMgr.heap w))
      (λ _ _, False) (λ _, False)); [|  |done|done].
    + unfold private. destruct (Cow.has_other c) eqn:Ho.
      * apply spec_ret. split; [done|]. split; [apply only_tx_refl|]. split; [done|]. split; [done|]. by rewrite insert_id.
      * apply spec_bind. unfold Cow.inner, Cow.inner_by. pose proof Hcu as [z Hz]. unfold Cow.curr in *. rewrite Hz.
        apply spec_lift_ok. apply (set_cow_world w W t l c); [done|done|].
        pose proof (private_tweaked W c Hcu) as Htw. unfold private in Htw. rewrite Ho in Htw. unfold Cow.curr in Htw.
        by rewrite Hz in Htw.
    + intros [] w1 (Hok1 & Hon1 & Htxs1 & Hen1 & Hh1).
      assert (Hc1 : TxMgr.heap w1 !! l = Some (Entity.ECow (private c))) by (rewrite Hh1; apply lookup_insert_eq).
      assert (Hin1 : in_tx w1 th t x) by (eapply in_tx_only; [exact Hin|exact Hon1|by rewrite Htxs1]).
      apply spec_bind. eapply spec_mono.
      * apply (cow_add_world w1 W th t x l (private c) Update Hok1 Hin1 Hc1). split.
        -- intros l' d Hd. rewrite Hid1. apply (Hkind l' d). rewrite Hh1 in Hd.
           destruct (decide (l' = l)) as [->|Hne]; [by rewrite lookup_insert_eq in Hd|by rewrite lookup_insert_ne in Hd].
        -- rewrite Hid1. split; [done|by apply Ho1].
      * intros [] w2 (Hok2 & Hon2 & Hh2 & x2 & Hx2 & Hco2). rewrite Hid1 in Hco2.
        apply spec_bind. unfold TxMgr.cow_of. apply spec_bind, spec_ask. rewrite Hh2. apply spec_lift_ok.
        destruct (acted_fields Update t (private c)) as (Hid2 & Harm2 & Hseq2 & Hget2).
        assert (Hoth : is_Some (Cow.get_by (other (Cow.arm c)) (acted Update t (private c)))).
        { rewrite Hget2. specialize (Ho1 Hcu). unfold Cow.has_other in Ho1. rewrite Harm1 in Ho1.
          by destruct (Cow.get_by (other (Cow.arm c)) (private c)). }
        apply spec_bind. unfold Cow.other_inner, Cow.inner_by. rewrite Harm2, Harm1. destruct Hoth as [z Hz]. rewrite Hz.
        apply spec_lift_ok, spec_ret. split; [done|]. eexists. split; [|split; [by rewrite Hz|done]].
        split; [by eapply only_tx_trans|]. split; [done|]. by exists x2.
      * intros e w2 [-> He]. split; [done|]. split; [done|]. by rewrite Htx1, Hid1, Hen1 in He.
      * intros w2 [-> Hwr]. split; [by apply world_holds|]. destruct Hwr as (b & Hb & Ho). rewrite Ha1 in Hb.
        destruct b; [done|done|done].
Qed.

Lemma update_world w W th t x l c f :
  world_ok walq_id w W → in_tx w th t x → TxMgr.heap w !! l = Some (Entity.ECow c) → usable w W t c →
  spec (TxMgr.update th l f) w
    (λ _ w', world_ok walq_id w' W ∧ joined w w' t x l c (mutated t f c))
    (λ e w', world_ok walq_id w' W ∧ only_tx w w' t l ∧ refused w t c e)
    (λ w', holds walq_id (TxMgr.vol w') W ∧ Cow.action c = Some Delete).
Proof.
  intros Hok Hin Hc Hus. unfold TxMgr.update. apply spec_bind.
  eapply spec_mono; [by apply (make_mut_world w W th t x l c)| |done|done].
  intros b w1 (Hok1 & c2 & (Hon1 & Hc2 & x2 & Hx2 & Hco2) & Hb & Hcase).
  apply spec_bind. unfold TxMgr.cow_of. apply spec_bind, spec_ask. rewrite Hc2. apply spec_lift_ok.
  eapply spec_mono; [apply (set_cow_world w1 W t l c2); [done|done|]| |done|done].
  - apply set_by_tweaked; [|done]. destruct (decide (Cow.action c = Some New)) as [Ha|Ha].
    + destruct Hcase as [-> _]. right. pose proof Hok as (q & C & Hw). destruct Hus as [Hkind Hus].
      destruct (wo_heap _ _ _ _ _ _ _ Hw l c Hc) as (Hn & Hr & Hm & Htx).
      destruct (Cow.txid c) as [t'|]; [|congruence]. destruct Htx as (x' & a & Hx' & Hco & _).
      destruct (cohort_entity w q C W t' x' (Cow.id c) l l c Hw Hx' Hc Hco eq_refl Hkind)
        as (_ & _ & _ & _ & _ & b' & Hb' & _ & Hnew). by assert (b' = New) as -> by congruence.
    + destruct Hcase as [-> ->]. left. destruct (acted_fields Update t (private c)) as (_ & -> & _).
      by destruct (private_fields c) as (_ & -> & _).
  - intros [] w2 (Hok2 & Hon2 & Htxs2 & Hen2 & Hh2). split; [done|]. split; [by eapply only_tx_trans|].
    split; [|exists x2; by rewrite Htxs2].
    rewrite Hh2, lookup_insert_eq. f_equal. f_equal. unfold mutated. destruct (decide (Cow.action c = Some New)) as [Ha|Ha].
    + by destruct Hcase as [-> ->].
    + destruct Hcase as [-> ->]. destruct (acted_fields Update t (private c)) as (_ & Harm2 & _).
      destruct (private_fields c) as (_ & Harm1 & _). cbv zeta. by rewrite Harm2, Harm1.
Qed.
End ops.
