(* ===== verification/TxRefine.v ===== *)
(** * The transaction manager refines a map of committed entities with atomic commits.

    The calls of threads on the manager, in any order and interleaving, are steps of a
    machine. The abstract state is the map of committed entities: a commit that succeeds
    replaces the entities of its transaction at once, and no other call changes it. *)
From stdpp Require Import relations.
From S2P Require Import Prelude Run Base Segment Armor Wal WalProofs WalMgr Cow Trans TxMgr TxState TxCommit TxWorld TxEnd TxAtomic TxBegin TxOps.
Import Arm.

(** ** Entities that come and go: made, loaded, deleted, and segment data. *)

Section entities.
Context `{!ArmHash, !ArmHashLaws, !TxidHash, !TxidHashLaws, !HashOrder, !HashOrderLaws}.
Context {T V M N : Type} {X : Kind → Type} `{!Volume V X, !VolumeLaws V X, !Cowable T, !CowableLaws T}.
Context `{!LinkedMapOps Eid Wal.Entry M, !LinkedMap Eid Wal.Entry M}.
Context `{!LinkedMapOps Eid Loc N, !LinkedMap Eid Loc N}.
Context `{!Serde (X Logs) (Wal.Wal M), !SerdeLaws (X Logs) (Wal.Wal M)}.
Context `{!Serde (X Logs) (WalQueue.WalQueue M), !SerdeLaws (X Logs) (WalQueue.WalQueue M)}.
Context `{!Serde (X Ents) (Cow.Cow T), !SerdeLaws (X Ents) (Cow.Cow T), !CowSerde T X}.
Context (walq_id : Eid) `{!WalLaws X M walq_id}.
#[local] Existing Instances wal_arm_laws.
Abbreviation Cow := (Cow.Cow T).
Abbreviation Entity := (Entity.Entity T).
Abbreviation World := (TxMgr.World T V M N).
Abbreviation Trans := (Trans.Trans M N).
Abbreviation world_with := (world_with walq_id).
Implicit Types (v : V) (q : WalQueue.WalQueue M) (key id : Eid) (t : Txid) (x : Trans).
Implicit Types (C : gmap Eid (X Ents)) (D : Eid → Prop) (W : gmap Eid Cow) (c : Cow) (w : World) (u : Wal.Wal M).
Implicit Types (h : gmap Loc Entity) (en : gmap Eid Txid).

(** [Cow::make_del]. *)
Lemma make_del_world w W th t x l c :
  world_ok walq_id w W → in_tx w th t x → TxMgr.heap w !! l = Some (Entity.ECow c) → usable w W t c →
  spec (TxMgr.make_del th l) w
    (λ _ w', world_ok walq_id w' W ∧ joined w w' t x l c (acted Delete t c))
    (λ e w', w' = w ∧ refused w t c e) (λ _, False).
Proof.
  intros Hok Hin Hc [Hkind Hus]. unfold TxMgr.make_del.
  eapply spec_mono; [apply (cow_add_world walq_id w W th t x l c Delete Hok Hin Hc)|done|done|].
  - split; [done|]. destruct Hus as [|[? _]]; [by left|by right].
  - intros w' [_ (b & _ & Hb)]. by destruct b.
Qed.

(** *** New entities *)

Lemma fresh_loc w : TxMgr.heap w !! fresh (dom (TxMgr.heap w)) = None.
Proof. apply not_elem_of_dom, is_fresh. Qed.

(** No entity in memory has the id. *)
Definition unheld w id : Prop := ∀ l y, TxMgr.heap w !! l = Some y → Entity.id y ≠ id.

Definition born t (x0 : T) id : Cow := Cow.set_trans (Some t) (Some New) (Cow.new id x0).

(** [Cow::into_cow_with_id]. *)
Lemma into_cow_world w W th t x (x0 : T) id :
  world_ok walq_id w W → in_tx w th t x → unused walq_id w W id → unheld w id →
  spec (TxMgr.into_cow_with_id th x0 id) w
    (λ l w', world_ok walq_id w' W ∧ TxMgr.heap w !! l = None ∧ joined w w' t x l (Cow.new id x0) (born t x0 id))
    (λ _ _, False) (λ _, False).
Proof.
  intros (q & C & Hw) Hin (Hn & Hr & HW & He & Hco & Hlg) Hun. unfold TxMgr.into_cow_with_id, TxMgr.alloc, TxMgr.set_heap.
  apply spec_bind, spec_bind, spec_ask, spec_bind, spec_modify, spec_ret.
  set (l := fresh (dom (TxMgr.heap w))). pose proof (fresh_loc w : TxMgr.heap w !! l = None) as Hl.
  assert (Hw1 : world_with nobody (with_heap (<[l := Entity.ECow (Cow.new id x0)]> (TxMgr.heap w)) w) q C nodirt W).
  { apply alloc_world; try done.
    - intros c0 Hc0. simpl in Hc0. congruence.
    - intros l' c' Hc' Hid. by apply (Hun l' _ Hc'). }
  set (w1 := with_heap _ _) in Hw1. unfold with_heap in w1. fold w1.
  assert (Hc1 : TxMgr.heap w1 !! l = Some (Entity.ECow (Cow.new id x0))) by apply lookup_insert_eq.
  apply spec_bind. eapply spec_mono.
  - apply (cow_add_world walq_id w1 W th t x l (Cow.new id x0) New); [by exists q, C|exact Hin|done|]. split.
    + intros l' d Hd Hid. unfold w1 in Hd. cbn [TxMgr.heap] in Hd. destruct (decide (l' = l)) as [->|Hne].
      * by rewrite lookup_insert_eq in Hd.
      * rewrite lookup_insert_ne in Hd by done. by apply (Hun l' _ Hd).
    + split; [done|]. split; [|by eexists]. by split_and!.
  - intros [] w2 (Hok2 & (Hh & Ht & Hv & Hg & Hth & Hu) & Hc2 & Hx2). apply spec_ret. split; [done|]. split; [done|].
    split; [split_and!; try done|].
    + intros l' Hne. rewrite Hh by done. unfold w1. cbn [TxMgr.heap]. by rewrite lookup_insert_ne.
    + by split.
  - intros e w2 [_ [(_ & t' & Ht' & _)|(_ & t' & Ht' & _)]]; [done|]. change (TxMgr.ents w !! id = Some t') in Ht'. congruence.
  - intros w2 [_ (b & Hb & _)]. done.
Qed.

(** *** Loading *)

(** The volume has been read. *)
Lemma read_world w q C W v' :
  world_with nobody w q C nodirt W → same (TxMgr.vol w) v' →
  world_with nobody (TxMgr.mkWorld (TxMgr.txs w) (TxMgr.ents w) (TxMgr.walq_mgr w) v' (TxMgr.heap w) (TxMgr.uses w)
    (TxMgr.thread_txid w)) q C nodirt W.
Proof.
  intros Hw Hs. split; cbn [TxMgr.txs TxMgr.ents TxMgr.walq_mgr TxMgr.vol TxMgr.heap TxMgr.uses]; try apply Hw.
  - eapply inv_same; [|exact Hs]. apply (wo_inv _ _ _ _ _ _ _ Hw).
  - eapply view_ok_ents; [apply Hs|apply (wo_view _ _ _ _ _ _ _ Hw)].
  - intros t x Hx _. eapply tx_in_frame; [exact (wo_txs _ _ _ _ _ _ _ Hw t x Hx (λ f, f))|].
    split; try done.
    + intros a. by rewrite (proj1 Hs).
    + intros t' a u. rewrite (proj1 Hs). by left.
    + intros i a _ _. left. by rewrite (proj1 Hs).
Qed.

#[local] Instance cow_arm_laws' : ArmAccessLaws (X Ents) (Cow.Cow T).
Proof. split; [intros i; by rewrite cow_form|done|by intros []|done]. Qed.

Lemma load_world w W id c0 :
  world_ok walq_id w W → W !! id = Some c0 → ¬ reserved walq_id id → unheld w id →
  spec (TxMgr.load id) w
    (λ l w', world_ok walq_id w' W ∧ TxMgr.heap w !! l = None ∧ TxMgr.heap w' = <[l := Entity.ECow c0]> (TxMgr.heap w) ∧
       TxMgr.txs w' = TxMgr.txs w ∧ TxMgr.ents w' = TxMgr.ents w)
    (λ _ w', world_ok walq_id w' W ∧ ¬ steady (TxMgr.vol w))
    (λ w', world_ok walq_id w' W ∧ ¬ steady (TxMgr.vol w)).
Proof.
  intros (q & C & Hw) Hc0 Hr Hun. pose proof (wo_view _ _ _ _ _ _ _ Hw) as Hv.
  assert (Hst : stored Ents (contents (TxMgr.vol w) Ents) id c0).
  { apply (view_stored _ C nodirt W Hv); [|done|done]. apply (wo_inv _ _ _ _ _ _ _ Hw). }
  destruct (Hv id c0 Hc0) as (Hn & (Hid & Hcur & Htx & Ha) & _).
  unfold TxMgr.load. apply spec_bind, spec_zoom. eapply spec_mono; [by apply (load_stored Ents)| | |].
  - intros c v' [-> Hs]. unfold TxMgr.alloc, TxMgr.set_heap. apply spec_bind, spec_ask, spec_bind, spec_modify, spec_ret.
    cbn [TxMgr.txs TxMgr.ents TxMgr.walq_mgr TxMgr.vol TxMgr.heap TxMgr.uses TxMgr.thread_txid].
    split; [|split; [apply fresh_loc|done]]. exists q, C.
    apply (alloc_world walq_id _ q C W (fresh (dom (TxMgr.heap w))) c0 (read_world w q C W v' Hw Hs)); try done.
    + exact (fresh_loc w).
    + by rewrite Hid.
    + by rewrite Hid.
    + intros c1 Hc1. rewrite Hid in Hc1. assert (c1 = c0) as -> by congruence. split; [done|]. split; [lia|apply tidied_refl].
    + intros l' c' Hc' Heq. apply (Hun l' _ Hc'). simpl. congruence.
  - intros e v' [_ [Hs Hns]]. split; [|done]. exists q, C. by apply read_world.
  - intros v' [Hs Hns]. split; [|done]. exists q, C. by apply read_world.
Qed.

(** *** Segment data *)

(** A stub in memory, of an id that becomes the transaction's. *)
Lemma stub_world w q C W t x l d :
  world_with nobody w q C nodirt W → TxMgr.txs w !! t = Some x → TxMgr.heap w !! l = None →
  TxMgr.ents w !! SegStub.id d = None →
  world_with nobody (TxMgr.mkWorld (TxMgr.txs w) (<[SegStub.id d := t]> (TxMgr.ents w)) (TxMgr.walq_mgr w)
    (TxMgr.vol w) (<[l := Entity.EData d]> (TxMgr.heap w)) (TxMgr.uses w) (TxMgr.thread_txid w)) q C nodirt W.
Proof.
  intros Hw Hx Hl He.
  assert (Hc' : ∀ l' c, (<[l := Entity.EData d]> (TxMgr.heap w)) !! l' = Some (Entity.ECow c) →
    TxMgr.heap w !! l' = Some (Entity.ECow c)).
  { intros l' c. destruct (decide (l' = l)) as [->|Hne]; [by rewrite lookup_insert_eq|by rewrite lookup_insert_ne]. }
  split; cbn [TxMgr.txs TxMgr.ents TxMgr.walq_mgr TxMgr.vol TxMgr.heap TxMgr.uses]; try apply Hw.
  - intros t' x' Hx' _. eapply tx_in_frame; [exact (wo_txs _ _ _ _ _ _ _ Hw t' x' Hx' (λ f, f))|].
    split; try done; [by left|by left| |].
    + intros i l' Hin. apply lookup_insert_ne. intros <-.
      destruct (ti_cohorts _ _ _ _ _ _ _ _ _ (wo_txs _ _ _ _ _ _ _ Hw t' x' Hx' (λ f, f)) i l Hin) as (_ & y & Hy & _). congruence.
    + intros i Hi. rewrite lookup_insert_ne; [done|]. intros <-. congruence.
  - intros i t'. destruct (decide (i = SegStub.id d)) as [->|Hne].
    + rewrite lookup_insert_eq. intros [= <-]. by exists x.
    + rewrite lookup_insert_ne by done. apply (wo_ents _ _ _ _ _ _ _ Hw).
  - intros l' c Hc%Hc'. by apply (wo_heap _ _ _ _ _ _ _ Hw).
  - intros l1 l2 c1 c2 Hc1%Hc' Hc2%Hc'. by apply (wo_uniq _ _ _ _ _ _ _ Hw).
Qed.

(** Data that can be added: new data of an unused id, or data of an earlier transaction. *)
Definition data_addable w x id (a : Action) : Prop :=
  named id ∧ TxMgr.ents w !! id = None ∧ id ∉ (lm_entries (Trans.cohorts x)).*1 ∧
  (∀ l c, TxMgr.heap w !! l = Some (Entity.ECow c) → Cow.id c ≠ id) ∧
  match a with
  | New => contents (TxMgr.vol w) Ents !! id = None ∧
      ∀ t b u e, log (contents (TxMgr.vol w) Logs) t b u → e ∈ Wal.values u → Wal.eid e ≠ id
  | Update => False
  | Delete => True
  end.

Lemma data_added w q C W t x l id a :
  world_with nobody w q C nodirt W → TxMgr.txs w !! t = Some x → TxMgr.heap w !! l = None → data_addable w x id a →
  world_with nobody (added_world w t x id l (Entity.EData (SegStub.new id a)) a EntityType.Direct Arm.default) q C nodirt W.
Proof.
  intros Hw Hx Hl (Hn & He & Hni & Hno & Ha). apply add_world; try done.
  - by left.
  - by right.
  - by left.
  - split; [done|]. split; [done|]. split; [destruct a; auto; done|].
    intros e. rewrite add_entry_entry, decide_True by done. intros [= <-]. by destruct a.
  - intros key Hk. unfold clean_key in Hk. simpl in Hk. destruct a; try done. subst key.
    destruct Ha as [Hne _]. pose proof (lo_kept _ _ _ _ _ (proj2 (wo_inv _ _ _ _ _ _ _ Hw))) as Hs.
    rewrite map_subseteq_spec in Hs. apply eq_None_not_Some. intros [z Hz%Hs]. congruence.
  - intros -> t' b u' e' _ Hu' He' Heq. destruct Ha as [_ Ha]. by apply (Ha t' b u' e' Hu' He').
  - intros e0 He0. destruct Hni. exact (ti_entries _ _ _ _ _ _ _ _ _ (wo_txs _ _ _ _ _ _ _ Hw t x Hx (λ f, f)) id e0 He0).
Qed.

(** [SegData::add_to_trans]: the log is saved before the data is written. *)
Lemma data_add_world w W t x id a :
  world_ok walq_id w W → TxMgr.txs w !! t = Some x → data_addable w x id a →
  spec (TxMgr.data_add_to_trans id a t) w
    (λ _ w', world_ok walq_id w' W ∧ contents (TxMgr.vol w') Ents = contents (TxMgr.vol w) Ents ∧
       ∃ x', TxMgr.txs w' = <[t := x']> (TxMgr.txs w) ∧ id ∈ (lm_entries (Trans.cohorts x')).*1 ∧
         stored Logs (contents (TxMgr.vol w') Logs) (derive_id t) (Trans.wal x') ∧
         entry (Trans.wal x') id = Some (Wal.mkEntry id a EntityType.Direct Arm.default))
    (λ _ w', world_ok walq_id w' W ∧ ¬ steady (TxMgr.vol w))
    (λ w', holds walq_id (TxMgr.vol w') W ∧ (¬ steady (TxMgr.vol w) ∨ U64 ≤ Wal.seq (Trans.wal x) + 1)).
Proof.
  intros (q & C & Hw) Hx Hadd. pose proof Hadd as (Hn & He & Hni & Hno & Ha).
  unfold TxMgr.data_add_to_trans, TxMgr.alloc, TxMgr.set_heap.
  apply spec_bind, spec_bind, spec_ask, spec_bind, spec_modify, spec_ret.
  set (l := fresh (dom (TxMgr.heap w))). pose proof (fresh_loc w : TxMgr.heap w !! l = None) as Hl.
  set (d := SegStub.new id a). pose proof (data_added w q C W t x l id a Hw Hx Hl Hadd) as Hwa.
  assert (Hxa : TxMgr.txs (added_world w t x id l (Entity.EData d) a EntityType.Direct Arm.default) !! t
    = Some (added x id l a EntityType.Direct Arm.default)) by apply lookup_insert_eq.
  pose proof (world_tx_ok _ _ _ _ _ _ _ Hwa Hxa) as Htx.
  unfold TxMgr.add_to_trans. apply spec_bind, spec_ask. cbn [TxMgr.ents]. rewrite He.
  apply spec_bind, spec_bind, spec_modify, spec_ret. rewrite decide_False by (intros Hf; by apply Hf).
  apply spec_bind, spec_ask. cbn [TxMgr.txs]. rewrite Hx. apply spec_bind, spec_lift_ok.
  eapply on_tx_spec; [exact Hx|]. cbn [TxMgr.heap TxMgr.uses TxMgr.vol]. unfold Trans.add_entity.
  apply spec_bind, spec_ask, spec_bind, spec_modify, spec_bind, spec_modify, spec_bind.
  rewrite decide_True by done. apply spec_bind, spec_or_else.
  cbn [Trans.tr Trans.heap Trans.uses Trans.vol Trans.txid Trans.cohorts Trans.wal Trans.wal_saved].
  set (u1 := Wal.add_entry (Trans.wal x) id a EntityType.Direct Arm.default).
  set (s1 := Trans.mkSt _ _ _ _).
  pose proof (stub_world w q C W t x l d Hw Hx Hl He) as Hws.
  eapply spec_mono.
  - apply (save_wal_spec walq_id s1 q C nodirt t); unfold s1; cbn [Trans.tr Trans.vol Trans.wal];
      [apply (wo_inv _ _ _ _ _ _ _ Hw)|apply Htx..| |by intros].
    intros e Hin. by apply (entry_named _ _ _ _ _ _ _ _ _ _ Htx).
  - unfold s1. cbn [Trans.tr Trans.heap Trans.uses Trans.vol Trans.wal].
    intros [] s2 (Ht2 & Hh2 & Hu2 & Hi2 & Hs2 & He2 & Ho2 & Hl2 & _).
    apply spec_modify, spec_bind, spec_ask, spec_modify.
    cbn [Trans.tr Trans.heap Trans.uses Trans.vol Trans.txid Trans.cohorts Trans.wal Trans.wal_saved].
    rewrite Ht2, Hh2. unfold put_tx, with_wal.
    cbn [TxMgr.txs TxMgr.ents TxMgr.walq_mgr TxMgr.vol TxMgr.heap TxMgr.uses TxMgr.thread_txid
      Trans.tr Trans.heap Trans.uses Trans.vol Trans.txid Trans.cohorts Trans.wal Trans.wal_saved].
    split; [|split; [done|]].
    + exists q, C. pose proof (save_world walq_id _ q C W t _ (Trans.vol s2) true (Trans.uses s2) Hwa Hxa Hi2 Hs2 He2 Ho2 Hl2) as Hw2.
      unfold put_tx, added_world, added in Hw2.
      cbn [TxMgr.txs TxMgr.ents TxMgr.walq_mgr TxMgr.vol TxMgr.heap TxMgr.uses TxMgr.thread_txid
        Trans.tr Trans.heap Trans.uses Trans.vol Trans.txid Trans.cohorts Trans.wal Trans.wal_saved] in Hw2.
      by rewrite insert_insert_eq in Hw2.
    + eexists. split; [done|]. cbn [Trans.cohorts Trans.wal]. split; [apply or_insert_keys; by left|]. split; [done|].
      change (entry u1 id = Some (Wal.mkEntry id a EntityType.Direct Arm.default)). unfold u1.
      by rewrite add_entry_entry, decide_True.
  - unfold s1. cbn [Trans.tr Trans.heap Trans.uses Trans.vol Trans.wal].
    intros e s2 (Ht2 & Hh2 & Hu2 & [Hs2 Hns2]).
    apply spec_bind, spec_ask, spec_bind, spec_modify, spec_fail. split; [|done]. exists q, C.
    rewrite Ht2, Hh2. unfold put_tx, with_wal.
    cbn [TxMgr.txs TxMgr.ents TxMgr.walq_mgr TxMgr.vol TxMgr.heap TxMgr.uses TxMgr.thread_txid
      Trans.tr Trans.heap Trans.uses Trans.vol Trans.txid Trans.cohorts Trans.wal Trans.wal_saved].
    pose proof (wo_txs _ _ _ _ _ _ _ Hw t x Hx (λ f, f)) as [].
    assert (Hdel : lm_entries (lm_remove id (Wal.entries u1)).2 = lm_entries (Wal.entries (Trans.wal x))).
    { rewrite lm_entries_remove. unfold u1, Wal.add_entry. simpl. rewrite lm_entries_insert.
      unfold assoc_del. rewrite filter_app, filter_cons_False by (simpl; naive_solver). rewrite app_nil_r.
      assert (Hnone : assoc id (lm_entries (Wal.entries (Trans.wal x))) = None).
      { apply eq_None_not_Some. intros [e0 He0]. apply Hni. exact (ti_entries id e0 He0). }
      fold (assoc_del id (lm_entries (Wal.entries (Trans.wal x)))). rewrite (assoc_del_id id _ Hnone).
      exact (assoc_del_id id _ Hnone). }
    eapply (relog_world walq_id _ q C W t x _ (Trans.vol s2) (Trans.uses s2) Hws Hx);
      cbn [TxMgr.vol Trans.cohorts Trans.wal Trans.wal_saved]; try done.
    + eapply inv_same; [|exact Hs2]. apply (wo_inv _ _ _ _ _ _ _ Hw).
    + apply Hs2.
    + intros t' b _. by rewrite (proj1 Hs2).
    + rewrite (proj1 Hs2). destruct ti_older as [|(j & Hj & Hlt)]; [by left|right]. exists j. split; [done|]. simpl in *. lia.
    + intros b u'. rewrite (proj1 Hs2). by right.
  - unfold s1. cbn [Trans.tr Trans.heap Trans.uses Trans.vol Trans.wal]. intros s2 [Hd Htr]. split; [|done].
    unfold put_tx. cbn [TxMgr.vol]. destruct Hd as [Hs|[Hi2 He2]].
    + exists q, C, nodirt. split; [eapply inv_same; [|exact Hs]; apply (wo_inv _ _ _ _ _ _ _ Hw)|].
      eapply view_ok_ents; [apply Hs|apply (wo_view _ _ _ _ _ _ _ Hw)].
    + exists q, C, nodirt. split; [by apply inv_nodirt in Hi2|]. eapply view_ok_ents; [exact He2|apply (wo_view _ _ _ _ _ _ _ Hw)].
Qed.
End entities.

Section refine.
Context `{!ArmHash, !ArmHashLaws, !TxidHash, !TxidHashLaws, !HashOrder, !HashOrderLaws}.
Context {T V M N : Type} {X : Kind → Type} `{!Volume V X, !VolumeLaws V X, !Cowable T, !CowableLaws T}.
Context `{!LinkedMapOps Eid Wal.Entry M, !LinkedMap Eid Wal.Entry M}.
Context `{!LinkedMapOps Eid Loc N, !LinkedMap Eid Loc N}.
Context `{!Serde (X Logs) (Wal.Wal M), !SerdeLaws (X Logs) (Wal.Wal M)}.
Context `{!Serde (X Logs) (WalQueue.WalQueue M), !SerdeLaws (X Logs) (WalQueue.WalQueue M)}.
Context `{!Serde (X Ents) (Cow.Cow T), !SerdeLaws (X Ents) (Cow.Cow T), !CowSerde T X}.
Context (walq_id : Eid) `{!WalLaws X M walq_id}.
Abbreviation Cow := (Cow.Cow T).
Abbreviation Entity := (Entity.Entity T).
Abbreviation World := (TxMgr.World T V M N).
Abbreviation Trans := (Trans.Trans M N).
Abbreviation world_ok := (world_ok walq_id).
Implicit Types (id : Eid) (t : Txid) (x : Trans) (W : gmap Eid Cow) (c : Cow) (w : World) (th : Thread).

(** The calls of a thread. *)
Inductive Call :=
| CBegin th
| CLoad id
| CUpdate th (l : Loc) (f : T → T)
| CDelete th (l : Loc)
| CCreate th (i : T) id
| CAddData th id (a : Action)
| CCommit th
| CAbort th (e : Error).
Implicit Types (k : Call).

Definition exec k : run World unit :=
  match k with
  | CBegin th => _ ← TxMgr.begin_trans th; mret ()
  | CLoad id => _ ← TxMgr.load id; mret ()
  | CUpdate th l f => TxMgr.update th l f
  | CDelete th l => TxMgr.make_del th l
  | CCreate th i id => _ ← TxMgr.into_cow_with_id th i id; mret ()
  | CAddData th id a => t ← TxMgr.current th; TxMgr.data_add_to_trans id a t
  | CCommit th => t ← TxMgr.current th; TxMgr.commit_trans th t
  | CAbort th e => t ← TxMgr.current th; TxMgr.handle_abort th t e
  end.

(** What the caller of a call has to see to: the entity exists and is not deleted already,
    and a new one has an id that nothing uses. *)
Definition legal w W k : Prop :=
  match k with
  | CBegin th => TxMgr.current_or_empty w th = 0
  | CLoad id => is_Some (W !! id) ∧ ¬ reserved walq_id id ∧ unheld w id
  | CUpdate th l _ => ∃ t x c, in_tx w th t x ∧ TxMgr.heap w !! l = Some (Entity.ECow c) ∧
      usable w W t c ∧ Cow.action c ≠ Some Delete
  | CDelete th l => ∃ t x c, in_tx w th t x ∧ TxMgr.heap w !! l = Some (Entity.ECow c) ∧ usable w W t c
  | CCreate th _ id => ∃ t x, in_tx w th t x ∧ unused walq_id w W id ∧ unheld w id
  | CAddData th id a => ∃ t x, in_tx w th t x ∧ data_addable w x id a
  | CCommit th | CAbort th _ => ∃ t x, in_tx w th t x
  end.

(** The numbers a call counts up have not run out; a commit needs no deleted entity in use. *)
Definition room w k : Prop :=
  match k with
  | CBegin _ => WalQueue.seq (WalQueueMgr.walq (TxMgr.walq_mgr w)) + 1 < U64 ∧
      WalQueueMgr.txid_wmark (TxMgr.walq_mgr w) + 1 < U64
  | CAddData th _ _ => ∀ x, TxMgr.txs w !! TxMgr.current_or_empty w th = Some x → Wal.seq (Trans.wal x) + 1 < U64
  | CCommit th => ∀ x, TxMgr.txs w !! TxMgr.current_or_empty w th = Some x → smooth w x
  | CAbort _ _ => WalQueue.seq (WalQueueMgr.walq (TxMgr.walq_mgr w)) + 1 < U64
  | _ => True
  end.

(** The abstract machine. *)
Definition abstract w W k (r : res unit) : gmap Eid Cow :=
  match k, r with
  | CCommit th, Ok _ =>
      match TxMgr.txs w !! TxMgr.current_or_empty w th with Some x => committed_view w x W | None => W end
  | _, _ => W
  end.

Lemma current_in w th t x :
  in_tx w th t x → TxMgr.current th w = (Some (Ok t), w).
Proof.
  intros (Hc & Hn & _). unfold TxMgr.current, mbind, run_bind, ask. rewrite Hc.
  by rewrite (proj2 (Z.eqb_neq t 0)).
Qed.
Lemma bind_current {A} w th t x (m : Txid → run World A) :
  in_tx w th t x → (TxMgr.current th ≫= m) w = m t w.
Proof. intros Hin. unfold mbind, run_bind. by rewrite (current_in w th t x Hin). Qed.

(** What a call on a steady volume comes to: it returns, but for numbers that have run out. *)
Definition follows w W k : Prop :=
  match exec k w with
  | (Some Panic, _) | (None, _) => ¬ room w k
  | (Some r, w') => world_ok w' (abstract w W k r) ∧
      (∀ th e, k = CCommit th → r = Err e → ¬ room w k)
  end.

Lemma spec_follows w W k :
  spec (exec k) w (λ _ w', world_ok w' (abstract w W k (Ok ())))
    (λ _ w', world_ok w' W ∧ ∀ th, k = CCommit th → ¬ room w k) (λ _, ¬ room w k) → follows w W k.
Proof.
  unfold spec, follows. destruct (exec k w) as [[[[]|e|]|] w']; [by split|..]; [|done..].
  intros [Hw He]. split; [by destruct k|]. intros th e' Hk _. by eapply He.
Qed.

Lemma call_follows w W k : world_ok w W → legal w W k → steady (TxMgr.vol w) → follows w W k.
Proof.
  intros Hw Hk Hst. apply spec_follows.
  destruct k as [th|id|th l f|th l|th i id|th id a|th|th e]; cbn [legal] in Hk; cbn [exec abstract].
  - step_by (begin_world_spec walq_id w W th Hw Hk).
    + intros t w' [Hw' _]. by apply spec_ret.
    + by intros e w' [? _].
    + intros w' [Hn _]. cbn [room]. lia || (intros []; destruct Hn as [|[]]; [done|lia|lia]).
  - destruct Hk as ([c0 Hc] & Hr & Hu). step_by (load_world walq_id w W id c0 Hw Hc Hr Hu).
    + intros l w' [Hw' _]. by apply spec_ret.
    + by intros e w' [_ ?].
    + by intros w' [_ ?].
  - destruct Hk as (t & x & c & Hin & Hl & Hu & Hd).
    eapply spec_mono; [apply (update_world walq_id w W th t x l c f Hw Hin Hl Hu)| | |].
    + by intros [] w' [? _].
    + by intros e w' [? _].
    + by intros w' [_ ?].
  - destruct Hk as (t & x & c & Hin & Hl & Hu).
    eapply spec_mono; [apply (make_del_world walq_id w W th t x l c Hw Hin Hl Hu)| | |done].
    + by intros [] w' [? _].
    + by intros e w' [-> _].
  - destruct Hk as (t & x & Hin & Hu & Hh). step_by (into_cow_world walq_id w W th t x i id Hw Hin Hu Hh); [|done|done].
    intros l w' [Hw' _]. by apply spec_ret.
  - destruct Hk as (t & x & Hin & Ha). unfold spec. rewrite (bind_current _ _ _ _ _ Hin).
    destruct Hin as (Hth & _ & Hx).
    eapply spec_mono; [apply (data_add_world walq_id w W t x id a Hw Hx Ha)| | |].
    + by intros [] w' [? _].
    + by intros e w' [_ ?].
    + intros w' [_ [?|Hf]]; [done|]. cbn [room]. intros Hr. rewrite Hth in Hr. specialize (Hr x Hx). lia.
  - destruct Hk as (t & x & Hin). unfold spec. rewrite (bind_current _ _ _ _ _ Hin).
    destruct Hin as (Hth & _ & Hx). rewrite Hth, Hx.
    assert (Hr : ¬ smooth w x → ¬ room w (CCommit th)).
    { intros Hn Hr. cbn [room] in Hr. rewrite Hth in Hr. by apply Hn, Hr. }
    eapply spec_mono; [apply (commit_world_spec walq_id w W th t x Hw Hx Hth)| | |].
    + by intros [] w' [? _].
    + intros e w' [Hn [[? _]|[_ ?]]]; [|done]. by auto.
    + intros w' [Hn _]. by auto.
  - destruct Hk as (t & x & Hin). unfold spec. rewrite (bind_current _ _ _ _ _ Hin).
    destruct Hin as (Hth & _ & Hx). unfold TxMgr.handle_abort.
    step_by (abort_world_spec walq_id w W th t x Hw Hx Hth); [|done|].
    + intros [] w' [[? _]|[_ ?]]; [|done]. by apply spec_fail.
    + intros w' [_ [?|Hf]]; [done|]. cbn [room]. lia.
Qed.

(** A step of the machine: a legal call that returns, on a volume that works meanwhile. *)
Inductive step : World * gmap Eid Cow → World * gmap Eid Cow → Prop :=
| step_call w W k r w' :
    legal w W k → steady (TxMgr.vol w) → exec k w = (Some r, w') → r ≠ Panic →
    step (w, W) (w', abstract w W k r).

Lemma steps_keep s s' : rtc step s s' → world_ok s.1 s.2 → world_ok s'.1 s'.2.
Proof.
  induction 1 as [|s1 s2 s3 Hstep _ IH]; [done|]. intros Hw. apply IH.
  destruct Hstep as [w W k r w' Hk Hst He Hr]. pose proof (call_follows w W k Hw Hk Hst) as Hf.
  unfold follows in Hf. rewrite He in Hf. by destruct r; first [apply Hf | done].
Qed.
End refine.
