(* ===== verification/TxSpec.v ===== *)
(** * Properties of transactions.

    The manager of src/trans/txmgr.rs, over any volume that keeps the contract of Armor.v:
    commits are atomic and survive a stop of the machine at any point, what aborts leaves no
    trace, transactions are isolated and refused calls change nothing. The witnesses are
    in TxDemo.v. *)
From stdpp Require Import relations.
From S2P Require Import Prelude Run Base Segment Armor Wal WalProofs WalMgr Cow Trans TxMgr TxState TxCommit TxView TxWorld TxEnd TxAtomic TxBegin TxOps TxRefine.
Import Arm.

Section spec.
Context `{!ArmHash, !ArmHashLaws, !TxidHash, !TxidHashLaws, !HashOrder, !HashOrderLaws}.
Context {T V M N : Type} {X : Kind → Type} `{!Volume V X, !VolumeLaws V X, !Cowable T, !CowableLaws T}.
Context `{!LinkedMapOps Eid Wal.Entry M, !LinkedMap Eid Wal.Entry M}.
Context `{!LinkedMapOps Eid Loc N, !LinkedMap Eid Loc N}.
Context `{!Serde (X Logs) (Wal.Wal M), !SerdeLaws (X Logs) (Wal.Wal M)}.
Context `{!Serde (X Logs) (WalQueue.WalQueue M), !SerdeLaws (X Logs) (WalQueue.WalQueue M)}.
Context `{!Serde (X Ents) (Cow.Cow T), !SerdeLaws (X Ents) (Cow.Cow T), !CowSerde T X}.
Context (walq_id : Eid) `{!WalLaws X M walq_id}.
Abbreviation Cow := (Cow.Cow T).
Abbreviation Entity := (Entity.Entity T).
Abbreviation World := (TxMgr.World T V M N).
Abbreviation Trans := (Trans.Trans M N).
Abbreviation world_ok := (world_ok walq_id).
Abbreviation holds := (holds walq_id).
Implicit Types (v : V) (id : Eid) (t : Txid) (x : Trans) (W : gmap Eid Cow) (c : Cow) (w : World).

(** ** Commit, abort and recovery *)


(** Opening the volume and reading an entity. *)
Definition recovered id : run World Loc := _ ← TxMgr.open walq_id; TxMgr.load id.

Lemma recovered_spec v W id c0 :
  holds v W → W !! id = Some c0 → ¬ reserved walq_id id →
  spec (recovered id) (TxMgr.new walq_id v)
    (λ l w', TxMgr.heap w' !! l = Some (Entity.ECow c0)) (λ _ _, ¬ steady v)
    (λ _, ¬ steady v ∨ walq_full walq_id v).
Proof.
  intros Hv Hc Hr. unfold recovered. step_by (open_world_spec walq_id v W); [done| |by intros ?? []|by intros ? []].
  intros [] w' (Hw & _ & Hh & _ & Hst). cbn beta.
  eapply spec_mono; [apply (load_world walq_id w' W id c0); try done| | |].
  - intros l y. by rewrite Hh, lookup_empty.
  - intros l w2 (_ & _ & -> & _). by rewrite lookup_insert_eq.
  - intros _ w2 [_ Hn]. by auto.
  - intros w2 [_ Hn]. by auto.
Qed.




(** ** Entities in a transaction *)

(** Readers of a transaction's copy and readers of the committed value. *)
Lemma deref_own t c : Cow.txid c = Some t → Cow.action c ≠ Some New → Cow.deref t c = Cow.other_inner c.
Proof.
  intros Ht Ha. unfold Cow.deref. rewrite Ht. rewrite bool_decide_eq_false_2 by done.
  rewrite bool_decide_eq_true_2 by done. by rewrite bool_decide_eq_false_2.
Qed.
Lemma deref_inner t c : (Cow.txid c = Some t → Cow.action c = Some New) → Cow.deref t c = Cow.inner c.
Proof.
  intros Ha. unfold Cow.deref. destruct (decide (Cow.txid c = Some t)) as [Ht|Ht].
  - rewrite (bool_decide_eq_true_2 (Cow.action c = _)) by auto. by rewrite orb_true_r.
  - rewrite (bool_decide_eq_false_2 (_ = Some t)) by done. simpl. by rewrite orb_true_r.
Qed.

Lemma mutated_fields t f c :
  Cow.id (mutated t f c) = Cow.id c ∧
  (is_Some (Cow.txid c) → is_Some (Cow.action c) → Cow.action c ≠ Some Delete →
     Cow.txid (mutated t f c) = Cow.txid c).
Proof.
  unfold mutated. case_decide as Hn; [by destruct c as [? ? [] ? ? ? ?]|].
  destruct (acted_fields Update t (private c)) as (Hi & _ & _ & _).
  destruct (private_fields c) as (Hi' & _ & _ & Ht & Ha & _).
  assert (Hs : ∀ b o (d : Cow), Cow.id (Cow.set_by b o d) = Cow.id d ∧ Cow.txid (Cow.set_by b o d) = Cow.txid d)
    by by intros [] ? [].
  cbn zeta. rewrite !(proj1 (Hs _ _ _)), !(proj2 (Hs _ _ _)). split; [congruence|].
  intros _ [b Hb] Hd. unfold acted. rewrite Ha, Hb. destruct b; cbn [TxMgr.action_order]; congruence.
Qed.

(** What a thread reads of an entity it changes is the changed value, and what the threads of
    other transactions read stays. *)
Lemma mutated_reads t f c :
  (Cow.txid c = None ∧ Cow.action c = None ∧ Cow.has_other c = false) ∨
    (Cow.txid c = Some t ∧ (Cow.action c = Some New ∨ Cow.action c = Some Update ∧ Cow.has_other c = true)) →
  is_Some (Cow.curr c) →
  (∀ y, Cow.deref t c = Ok y → Cow.deref t (mutated t f c) = Ok (f y)) ∧
  (∀ t', t' ≠ t → Cow.action c ≠ Some New → Cow.deref t' (mutated t f c) = Cow.deref t' c).
Proof.
  intros Hc [y Hy]. unfold mutated. case_decide as Hnew.
  - destruct Hc as [(_ & Ha & _)|(Ht & _)]; [congruence|].
    rewrite !deref_inner by by destruct c as [? ? [] ? ? ? ?].
    split; [|done]. destruct c as [? ? [] l r ? ?]; cbn in *; subst; by intros ? [= <-].
  - assert (Hm : let c2 := acted Update t (private c) in Cow.txid c2 = Some t ∧ Cow.action c2 = Some Update ∧
      Cow.curr c2 = Cow.curr c ∧ Cow.get_by (other (Cow.arm c2)) c2 =
        if Cow.has_other c then Cow.get_by (other (Cow.arm c)) c else Cow.curr c).
    { destruct Hc as [(Ht & Ha & Ho)|(Ht & [Ha|[Ha Ho]])]; [| |].
      - unfold private. rewrite Ho. destruct c as [? ? [] ? ? ? ?]; cbn in *; by subst.
      - congruence.
      - unfold private, acted. rewrite Ho, Ha. cbn. by rewrite Ha. }
    cbn zeta in *. set (c2 := acted Update t (private c)) in *. destruct Hm as (Ht2 & Ha2 & Hc2 & Ho2).
    split.
    + intros z Hz. rewrite deref_own by by destruct c2 as [? ? [] ? ? ? ?]; cbn in *; congruence.
      assert (Hg : Cow.get_by (other (Cow.arm c2)) c2 = Some z).
      { rewrite Ho2. destruct Hc as [(Ht & Ha & Ho)|(Ht & [Ha|[Ha Ho]])]; [| |].
        - rewrite Ho. rewrite deref_inner in Hz by congruence. revert Hz. unfold Cow.inner, Cow.inner_by.
          fold (Cow.curr c). rewrite Hy. by intros [= ->].
        - congruence.
        - rewrite Ho. rewrite deref_own in Hz by congruence. revert Hz. unfold Cow.other_inner, Cow.inner_by.
          destruct (Cow.get_by _ c); [by intros [= ->]|done]. }
      rewrite Hg. by destruct c2 as [? ? [] ? ? ? ?].
    + intros t' Hn _. rewrite (deref_inner t' c) by (destruct Hc as [(-> & _)|(-> & _)]; congruence).
      rewrite deref_inner by (destruct c2 as [? ? [] ? ? ? ?]; cbn in *; congruence).
      revert Hc2. unfold Cow.inner, Cow.inner_by, Cow.curr.
      by destruct c2 as [? ? [] ? ? ? ?], c as [? ? [] ? ? ? ?]; cbn; intros ->.
Qed.

(** An entity that a call has put in the transaction is in it. *)
Lemma joined_own w w' W t x l c c' :
  world_ok w' W → joined w w' t x l c c' → Cow.id c' = Cow.id c →
  (∀ l d, TxMgr.heap w !! l = Some (Entity.EData d) → SegStub.id d ≠ Cow.id c) → Cow.txid c' = Some t.
Proof.
  intros (q & C & Hq) ((Hh & _) & Hl & x' & Hx' & Hco) Hid Hk.
  assert (Hin : Cow.id c' ∈ (lm_entries (Trans.cohorts x')).*1).
  { rewrite Hco, Hid. apply or_insert_keys. by left. }
  apply list_elem_of_fmap in Hin as ([i l0] & Hi & Hin). simpl in Hi. subst i.
  destruct (cohort_entity walq_id w' q C W t x' (Cow.id c') l0 l c') as (_ & _ & _ & ? & _); try done.
  intros l' d Hd. rewrite Hid. apply (Hk l'). rewrite <- Hh; [done|]. intros ->. by rewrite Hl in Hd.
Qed.

(** C22: [Cow::make_mut] and [Deref]. Changing an entity in a transaction, the first time or
    again, where an entity that is in no transaction has no copy left (one that [Cow::abort] leaves after an update
    and a deletion, cow.rs:420, would be what the change starts from): the thread of the transaction then reads the changed value; the threads of other
    transactions read what they read before, unless the entity is new; nothing else in memory
    or on the volume is touched. The call is refused, with no entity changed but for a copy
    made, only when the entity or its id is another transaction's. *)
Theorem update_isolated w W th t x l c f :
  world_ok w W → in_tx w th t x → TxMgr.heap w !! l = Some (Entity.ECow c) → usable w W t c →
  Cow.action c ≠ Some Delete → (Cow.txid c = None → Cow.has_other c = false) →
  spec (TxMgr.update th l f) w
    (λ _ w', world_ok w' W ∧ only_tx w w' t l ∧
       ∃ c', TxMgr.heap w' !! l = Some (Entity.ECow c') ∧
         (∀ y, Cow.deref t c = Ok y → Cow.deref t c' = Ok (f y)) ∧
         (∀ t', t' ≠ t → Cow.action c ≠ Some New → Cow.deref t' c' = Cow.deref t' c))
    (λ e w', world_ok w' W ∧ only_tx w w' t l ∧ refused w t c e)
    (λ _, False).
Proof.
  intros Hw Htx Hl Hu Hd Ho. pose proof Hw as (q & C & Hq).
  pose proof (wo_heap _ _ _ _ _ _ _ Hq l c Hl) as (_ & _ & Hm & Hown).
  eapply spec_mono; [by apply (update_world walq_id w W th t x l c f)| |done|by intros w' []].
  intros [] w' [Hw' Hj]. split; [done|]. split; [apply Hj|]. eexists. split; [apply Hj|].
  assert (Hf : Cow.id (mutated t f c) = Cow.id c ∧ (is_Some (Cow.txid c) → is_Some (Cow.action c) →
    Cow.txid (mutated t f c) = Cow.txid c)) by (split; [|intros; by apply mutated_fields]; apply mutated_fields).
  pose proof (joined_own w w' W t x l c _ Hw' Hj (proj1 Hf) (proj1 Hu)) as Hown'.
  apply mutated_reads.
  - destruct (Cow.txid c) as [t'|] eqn:Ht'; [right|left; by auto].
    destruct Hown as (x' & a & Hx' & Hin & Ha). rewrite (proj2 Hf) in Hown' by (rewrite ?Ha; done).
    split; [done|]. assert (x' = x) as -> by (destruct Htx as (_ & _ & ?); congruence).
    destruct (cohort_entity walq_id w q C W t x (Cow.id c) l l c Hq) as (_ & _ & _ & _ & _ & b & Hb & _ & Hkind);
      try apply Htx; try apply Hu; try done; try congruence.
    rewrite Hb in *. destruct b; [by left|right; by split; [|apply Hkind]|congruence].
  - destruct Hu as [Hk [Hlive|[Ha Ht]]]; [by apply (curr_live walq_id w q C W l c)|].
    rewrite Ht in Hown. destruct Hown as (x' & a & Hx' & Hin & _).
    assert (x' = x) as -> by (destruct Htx as (_ & _ & ?); congruence).
    destruct (cohort_entity walq_id w q C W t x (Cow.id c) l l c Hq) as (_ & _ & _ & _ & Hcu & _); try done.
Qed.
(** [Cow::into_cow_with_id] and [Cow::make_del]. A new entity with an unused id joins the
    transaction, without fail: its thread reads the value given, and it is not committed. A
    deleted entity joins likewise, is marked and stays committed until the commit; the call is
    refused, with nothing changed, only when the entity or its id is another transaction's. *)
Theorem create_delete w W th t x :
  world_ok w W → in_tx w th t x →
  (∀ (i : T) id, unused walq_id w W id → unheld w id →
     spec (TxMgr.into_cow_with_id th i id) w
       (λ l w', world_ok w' W ∧ only_tx w w' t l ∧ ∃ c, TxMgr.heap w' !! l = Some (Entity.ECow c) ∧
          Cow.id c = id ∧ Cow.action c = Some New ∧ Cow.deref t c = Ok i)
       (λ _ _, False) (λ _, False)) ∧
  (∀ l c, TxMgr.heap w !! l = Some (Entity.ECow c) → usable w W t c →
     spec (TxMgr.make_del th l) w
       (λ _ w', world_ok w' W ∧ only_tx w w' t l ∧ ∃ c', TxMgr.heap w' !! l = Some (Entity.ECow c') ∧
          Cow.txid c' = Some t ∧ Cow.action c' = Some Delete)
       (λ e w', w' = w ∧ refused w t c e) (λ _, False)).
Proof.
  intros Hw Hin. split.
  - intros i id Hu Hh. eapply spec_mono; [by apply (into_cow_world walq_id w W th t x i id)| |done|done].
    intros l w' (Hw' & _ & Ho & Hl & _). split; [done|]. split; [done|]. eexists. split; [exact Hl|].
    unfold born, Cow.new. cbn. split; [done|]. split; [done|].
    unfold Cow.deref. cbn. rewrite (bool_decide_eq_true_2 (Some New = Some New)) by done. by rewrite orb_true_r.
  - intros l c Hl Hu. eapply spec_mono; [by apply (make_del_world walq_id w W th t x l c)| |done|done].
    intros [] w' [Hw' Hj]. split; [done|]. split; [apply Hj|]. eexists. split; [apply Hj|].
    split; [|unfold acted; by destruct (Cow.action c) as [[]|] eqn:Ha].
    eapply (joined_own w w' W t x l c); try done; [|apply Hu]. apply (acted_fields Delete t c).
Qed.

(** [Cow::load]. Loading an entity that is not in memory gives exactly the committed one,
    at a place of its own, and changes nothing else; it fails only with the volume. *)
Theorem load_committed w W id c :
  world_ok w W → W !! id = Some c → ¬ reserved walq_id id → unheld w id →
  spec (TxMgr.load id) w
    (λ l w', world_ok w' W ∧ TxMgr.heap w !! l = None ∧ TxMgr.heap w' = <[l := Entity.ECow c]> (TxMgr.heap w) ∧
       TxMgr.txs w' = TxMgr.txs w ∧ TxMgr.ents w' = TxMgr.ents w)
    (λ _ w', world_ok w' W ∧ ¬ steady (TxMgr.vol w))
    (λ w', world_ok w' W ∧ ¬ steady (TxMgr.vol w)).
Proof. apply load_world. Qed.

(** [SegData::add_to_trans]. Segment data, which is written to the volume without a copy,
    is named by the stored log of its transaction before the call returns; the entities on the
    volume are untouched. When the log cannot be saved the call fails and the invariant holds. *)
Theorem data_logged_first w W t x id a :
  world_ok w W → TxMgr.txs w !! t = Some x → data_addable w x id a →
  spec (TxMgr.data_add_to_trans id a t) w
    (λ _ w', world_ok w' W ∧ contents (TxMgr.vol w') Ents = contents (TxMgr.vol w) Ents ∧
       ∃ x', TxMgr.txs w' = <[t := x']> (TxMgr.txs w) ∧ id ∈ (lm_entries (Trans.cohorts x')).*1 ∧
         stored Logs (contents (TxMgr.vol w') Logs) (derive_id t) (Trans.wal x') ∧
         entry (Trans.wal x') id = Some (Wal.mkEntry id a EntityType.Direct Arm.default))
    (λ _ w', world_ok w' W ∧ ¬ steady (TxMgr.vol w))
    (λ w', holds (TxMgr.vol w') W ∧ (¬ steady (TxMgr.vol w) ∨ U64 ≤ Wal.seq (Trans.wal x) + 1)).
Proof. apply (data_add_world walq_id w W t x id a). Qed.

(** C30: The refusals. Outside a transaction entities cannot be added to one ([NotInTrans]); a
    thread in a transaction cannot begin another ([InTrans]); an entity of another transaction
    is refused ([InUse]), and so is an id another transaction has taken ([InTrans]). In all
    four cases nothing is changed. Adding to a transaction that is gone is refused ([NoTrans]),
    but leaves the id to it. *)
Theorem refusals w th l c a t id ty ar :
  (TxMgr.current_or_empty w th = 0 → TxMgr.cow_add_to_trans th l a w = (Some (Err NotInTrans), w)) ∧
  (TxMgr.current_or_empty w th ≠ 0 → TxMgr.begin_trans th w = (Some (Err InTrans), w)) ∧
  (TxMgr.current_or_empty w th = t → t ≠ 0 → TxMgr.heap w !! l = Some (Entity.ECow c) →
     (∃ t', Cow.txid c = Some t' ∧ t' ≠ t) → TxMgr.cow_add_to_trans th l a w = (Some (Err InUse), w)) ∧
  ((∃ t', TxMgr.ents w !! id = Some t' ∧ t' ≠ t) → TxMgr.add_to_trans id t l a ty ar w = (Some (Err InTrans), w)) ∧
  (TxMgr.ents w !! id = None → TxMgr.txs w !! t = None →
     ∃ w', TxMgr.add_to_trans id t l a ty ar w = (Some (Err NoTrans), w') ∧
       TxMgr.ents w' = <[id := t]> (TxMgr.ents w) ∧ TxMgr.vol w' = TxMgr.vol w).
Proof.
  split; [|split; [|split; [|split]]].
  - intros Hc. unfold TxMgr.cow_add_to_trans, TxMgr.current, mbind, run_bind, ask. by rewrite Hc.
  - intros Hc. unfold TxMgr.begin_trans, TxMgr.is_in_trans, mbind, run_bind, ask.
    by rewrite (proj2 (Z.eqb_neq _ _) Hc).
  - intros Hc Hn Hl (t' & Ht & Hne). unfold TxMgr.cow_add_to_trans, TxMgr.current, TxMgr.cow_of, mbind, run_bind, ask, lift.
    rewrite Hc, (proj2 (Z.eqb_neq _ _) Hn). unfold mret, run_ret. rewrite Hl. cbn [unwrap]. by rewrite Ht, decide_True.
  - intros (t' & Ht & Hne). unfold TxMgr.add_to_trans, mbind, run_bind, ask. rewrite Ht. unfold mret, run_ret.
    by rewrite decide_True.
  - intros He Ht. eexists. split; [|split].
    + unfold TxMgr.add_to_trans, TxMgr.set_ents, mbind, run_bind, ask, modify, mret, run_ret. rewrite He.
      rewrite decide_False by (intros Hf; by apply Hf). unfold lift. cbn [TxMgr.txs]. rewrite Ht. cbn [ok_or]. done.
    + done.
    + done.
Qed.

(** ** The queue of the logs *)

(** C31: the loop of [WalQueue::commit_trans] ends. On a volume that works, with logs that are
    well formed, it returns within as many rounds as there are transactions done, and leaves
    the most recent of them, fewer than the queue's bound, with the rest of the queue as it
    was. *)
Theorem recycle_terminates (s : WalQueueMgr.St V M) :
  let q := WalQueueMgr.walq (WalQueueMgr.mgr s) in
  steady (WalQueueMgr.vol s) → (∀ t, t ∈ WalQueue.done q → log_ok (contents (WalQueueMgr.vol s) Logs) t) →
  ∃ s', WalQueueMgr.recycle_loop (length (WalQueue.done q)) s = (Some (Ok ()), s') ∧
    let q' := WalQueueMgr.walq (WalQueueMgr.mgr s') in
    zlen (WalQueue.done q') < WalQueue.COMMITTED_QUEUE_SIZE ∧ popped q q'.
Proof.
  intros q Hst Hlog.
  pose proof (recycle_loop_spec (λ _ _, True) (length (WalQueue.done q)) s (Nat.le_refl _)) as Hs.
  unfold spec in Hs.
  destruct (WalQueueMgr.recycle_loop (length (WalQueue.done q)) s) as [[[[]|e|]|] s'] eqn:He.
  - exists s'. split; [done|]. split; [by eapply recycle_loop_short|]. apply Hs. intros t Ht. by split; [apply Hlog|].
  - destruct Hs as (_ & _ & []); [|done]. intros t Ht. by split; [apply Hlog|].
  - destruct Hs as (_ & []); [|done]. intros t Ht. by split; [apply Hlog|].
  - destruct Hs as (_ & []); [|done]. intros t Ht. by split; [apply Hlog|].
Qed.

(** ** All calls *)

(** C6: the transaction manager refines a map of committed entities with atomic commits. From
    a state with the invariant, any interleaving of legal calls of any threads, on a volume
    that works, keeps the invariant for the abstract map, which only a commit that succeeds
    changes; and in every state so reached each legal call returns, while the numbers last,
    and a commit without deleted entities in use succeeds. *)
Theorem manager_refines w0 W0 w W :
  world_ok w0 W0 → rtc (step walq_id) (w0, W0) (w, W) →
  world_ok w W ∧
  ∀ k, legal walq_id w W k → steady (TxMgr.vol w) → room w k →
    ∃ r w', exec k w = (Some r, w') ∧ r ≠ Panic ∧ world_ok w' (abstract w W k r) ∧
      (∀ th, k = CCommit th → r = Ok ()).
Proof.
  intros Hw0 Hst. pose proof (steps_keep walq_id _ _ Hst Hw0) as Hw. cbn [fst snd] in Hw. split; [done|].
  intros k Hk Hs Hr. pose proof (call_follows walq_id w W k Hw Hk Hs) as Hf. unfold follows in Hf.
  destruct (exec k w) as [[[[]|e|]|] w']; [|..|done|done].
  - exists (Ok ()), w'. split; [done|]. split; [done|]. by split; [apply Hf|].
  - exists (Err e), w'. split; [done|]. split; [done|]. split; [apply Hf|].
    intros th ->. destruct Hf as [_ Hf]. by destruct (Hf th e).
Qed.
End spec.

(** ** The armor *)

Section armor.
Context `{!ArmHash, !ArmHashLaws} {V : Type} {X : Kind → Type} `{!Volume V X, !VolumeLaws V X}.
Context (k : Kind) {I : Type} `{!ArmAccess I, !Serde (X k) I}.
Context `{!SerdeLaws (X k) I, !ArmAccessLaws (X k) I}.
Implicit Types (s : V) (i j : I).

End armor.
