(* ===== verification/TxDemo.v ===== *)
(** * Transactions on a volume in memory: witnesses, and what goes wrong.

    Runs of the model on a volume in memory whose calls fail by plan. They show that
    the hypotheses of the theorems of TxSpec.v hold of real states, and that some
    sequences of calls lose or resurrect data. *)
From stdpp Require Import relations.
From S2P Require Import Prelude Run Base Segment Armor Wal WalProofs WalMgr Cow Trans TxMgr TxState TxCommit TxView TxWorld TxEnd TxAtomic TxBegin TxOps TxRefine TxSpec.
Import Arm.

(** ** A volume in memory whose calls fail by plan: the contracts of the volume are satisfiable.

    Two maps of items and a list of fates, one for each call to come: the call works, fails,
    or stops the machine. Ids are numbers: those divisible by four name items, and the two
    that follow are its arms. *)

Abbreviation log_map := (AssocMap.amap Eid Wal.Entry).
Abbreviation loc_map := (AssocMap.amap Eid Loc).

(** The items of the logs and of the entities; the value of an entity is a number. *)
Definition mem_item (k : Kind) : Type :=
  match k with Logs => Wal.Wal log_map + WalQueue.WalQueue log_map | Ents => Cow.Cow Z end.

(** What becomes of a call; a write that stops the machine may have been made. *)
Inductive Fate : Set := Fine | Bad | Halt (made : bool).

Record mem_vol := mkVol {
  mv_logs : gmap Eid (mem_item Logs); mv_ents : gmap Eid (mem_item Ents);
  mv_fates : list Fate; mv_blocks : Z
}.

Definition mv_get (v : mem_vol) (k : Kind) : gmap Eid (mem_item k) :=
  match k with Logs => mv_logs v | Ents => mv_ents v end.
Definition mv_set (k : Kind) : gmap Eid (mem_item k) → mem_vol → mem_vol :=
  match k with
  | Logs => λ m v, mkVol m (mv_ents v) (mv_fates v) (mv_blocks v)
  | Ents => λ m v, mkVol (mv_logs v) m (mv_fates v) (mv_blocks v)
  end.
Definition mv_tick (v : mem_vol) : mem_vol :=
  mkVol (mv_logs v) (mv_ents v) (tail (mv_fates v)) (mv_blocks v).

(** A call that would change the volume by [f] and give [r]. *)
Definition mv_call {A} (r : mem_vol → res A) (f : mem_vol → mem_vol) : run mem_vol A := λ v,
  match hd Fine (mv_fates v) with
  | Fine => (Some (r v), f (mv_tick v))
  | Bad => (Some (Err Io), mv_tick v)
  | Halt made => (None, if made then f (mv_tick v) else mv_tick v)
  end.

#[export] Instance mem_volume : Volume mem_vol mem_item := {|
  vol_get k i := mv_call (λ v, ok_or NotFound (mv_get v k !! i)) id;
  vol_put k i x := mv_call (λ _, Ok ()) (λ v, mv_set k (<[i := x]> (mv_get v k)) v);
  vol_del k i := mv_call (λ _, Ok ()) (λ v, mv_set k (delete i (mv_get v k)) v);
  vol_flush := mv_call (λ _, Ok ()) id;
  vol_block_wmark := ask mv_blocks;
  vol_set_block_wmark n := modify (λ v, mkVol (mv_logs v) (mv_ents v) (mv_fates v) n)
|}.

Definition mv_steady (v : mem_vol) : Prop := Forall (eq Fine) (mv_fates v).

Lemma mv_tick_steady v : mv_steady v → mv_steady (mv_tick v).
Proof. unfold mv_steady. destruct v as [? ? [|f fs] ?]; [done|]. by intros [_ ?]%Forall_cons. Qed.
Lemma mv_unsteady v : hd Fine (mv_fates v) ≠ Fine → ¬ mv_steady v.
Proof. unfold mv_steady. destruct (mv_fates v) as [|f fs]; [done|]. by intros Hf [<- _]%Forall_cons. Qed.
Lemma mv_get_set v k m k' :
  mv_get (mv_set k m v) k = m ∧ (k' ≠ k → mv_get (mv_set k m v) k' = mv_get v k').
Proof. by destruct k, k'. Qed.
Lemma mv_get_tick v k : mv_get (mv_tick v) k = mv_get v k.
Proof. by destruct k. Qed.
Lemma mv_set_fates v k m : mv_fates (mv_set k m v) = mv_fates v.
Proof. by destruct k. Qed.

Lemma mv_tick_same v :
  (∀ k, mv_get (mv_tick v) k = mv_get v k) ∧ (mv_steady v → mv_steady (mv_tick v)).
Proof. split; [by intros []|apply mv_tick_steady]. Qed.
Lemma mv_set_changed k m v :
  mv_get (mv_set k m (mv_tick v)) k = m ∧
  (∀ k', k' ≠ k → mv_get (mv_set k m (mv_tick v)) k' = mv_get v k') ∧
  (mv_steady v → mv_steady (mv_set k m (mv_tick v))).
Proof.
  split; [by destruct k|]. split; [by destruct k; intros []|].
  intros Hs%mv_tick_steady. by destruct k.
Qed.

#[export] Program Instance mem_volume_laws : VolumeLaws mem_vol mem_item := {|
  contents := mv_get; steady := mv_steady
|}.
Next Obligation.
  intros k i v. unfold spec. simpl. unfold mv_call. pose proof (mv_tick_same v) as Hs.
  pose proof (mv_unsteady v) as Hn. destruct (hd Fine (mv_fates v)) as [| |[]]; try by auto.
  destruct (mv_get v k !! i) eqn:Hi; simpl; by auto.
Qed.
Next Obligation.
  intros k i x v. unfold spec. simpl. unfold mv_call. pose proof (mv_tick_same v) as Hs.
  pose proof (mv_set_changed k (<[i:=x]> (mv_get v k)) v) as Hc.
  pose proof (mv_unsteady v) as Hn. destruct (hd Fine (mv_fates v)) as [| |[]]; rewrite ?(proj1 Hs); by auto.
Qed.
Next Obligation.
  intros k i v. unfold spec. simpl. unfold mv_call. pose proof (mv_tick_same v) as Hs.
  pose proof (mv_set_changed k (delete i (mv_get v k)) v) as Hc.
  pose proof (mv_unsteady v) as Hn. destruct (hd Fine (mv_fates v)) as [| |[]]; rewrite ?(proj1 Hs); by auto.
Qed.
Next Obligation.
  intros v. unfold spec. simpl. unfold mv_call. pose proof (mv_tick_same v) as Hs.
  pose proof (mv_unsteady v) as Hn. destruct (hd Fine (mv_fates v)) as [| |[]]; rewrite ?(proj1 Hs); by auto.
Qed.
Next Obligation. intros v. by unfold spec. Qed.
Next Obligation. intros n v. unfold spec. simpl. split; [by intros []|done]. Qed.

(** ** Ids and items *)

#[export] Instance mem_arm_hash : ArmHash := {|
  to_eid a i := match a with Left => i + 1 | Right => i + 2 end
|}.
#[export] Program Instance mem_arm_hash_laws : ArmHashLaws := {| named i := i mod 4 = 0 |}.
Next Obligation. intros [] [] i j; cbn; intros; split; try done; lia || (exfalso; Z.div_mod_to_equations; lia). Qed.
Next Obligation. intros [] i j; cbn; intros; Z.div_mod_to_equations; lia. Qed.

#[export] Instance mem_txid_hash : TxidHash := {| derive_id t := 8 * t + 4 |}.
#[export] Instance mem_txid_laws : TxidHashLaws.
Proof. split; [intros t|intros t t']; cbn; [|lia]. Z.div_mod_to_equations; lia. Qed.

#[export] Instance mem_order : HashOrder := {| set_iter := elements; map_iter A := map_to_list |}.
#[export] Instance mem_order_laws : HashOrderLaws.
Proof. split; [intros; apply elem_of_elements|intros; apply elem_of_map_to_list]. Qed.

#[export] Instance wal_serde : Serde (mem_item Logs) (Wal.Wal log_map) := {|
  encode := inl; decode x := match x with inl w => Some w | _ => None end; stored_form := λ w, w
|}.
#[export] Instance walq_serde : Serde (mem_item Logs) (WalQueue.WalQueue log_map) := {|
  encode q := inr (frozen q); decode x := match x with inr q => Some q | _ => None end; stored_form := frozen
|}.
#[export] Instance cow_serde : Serde (mem_item Ents) (Cow.Cow Z) := {|
  encode := Cow.set_trans None None; decode := Some; stored_form := Cow.set_trans None None
|}.
#[export] Instance wal_serde_laws : SerdeLaws (mem_item Logs) (Wal.Wal log_map).
Proof. done. Qed.
#[export] Instance walq_serde_laws : SerdeLaws (mem_item Logs) (WalQueue.WalQueue log_map).
Proof. done. Qed.
#[export] Instance cow_serde_laws : SerdeLaws (mem_item Ents) (Cow.Cow Z).
Proof. done. Qed.
#[export] Instance cow_serde_form : CowSerde Z mem_item.
Proof. done. Qed.

#[export] Instance num_cowable : Cowable Z := Ok.
#[export] Program Instance num_cowable_laws : CowableLaws Z := {| tidy x := x |}.
Next Obligation. done. Qed.

(** The queue has id 0. *)
#[export] Instance mem_wal_laws : WalLaws mem_item log_map 0.
Proof. split; try done. intros t. cbn. lia. Qed.

Abbreviation mem_world := (TxMgr.World Z mem_vol log_map loc_map).
Abbreviation mem_ok := (world_ok (T:=Z) (V:=mem_vol) (M:=log_map) (N:=loc_map) 0).

(** A volume with one committed entity, number 16, whose value is 7. *)
Definition seven : Cow.Cow Z := Cow.mkCow 16 1 Left (Some 7) None None None.
Definition queue0 : WalQueue.WalQueue log_map := WalQueue.mkWalQueue 0 1 Right 0 0 [] ∅ ∅.
Definition volume0 (fates : list Fate) : mem_vol :=
  mkVol {[2 := inr queue0]} {[17 := seven]} fates 0.
Definition view0 : gmap Eid (Cow.Cow Z) := {[16 := seven]}.

Lemma log0 fates t a w : ¬ log (contents (volume0 fates) Logs) t a w.
Proof.
  unfold log, arm_item. simpl. rewrite lookup_singleton_ne; [done|]. cbn. destruct a; lia.
Qed.

Lemma demo_holds fates : holds (T:=Z) 0 (volume0 fates) view0.
Proof.
  exists queue0, {[17 := seven]}, nodirt. split; [split|].
  - split; [done|]. split; [done|]. left. by vm_compute.
  - assert (Habs : ∀ t, absent Logs (contents (volume0 fates) Logs) (derive_id t)).
    { intros t a. simpl. rewrite lookup_singleton_ne; [done|]. cbn. destruct a; lia. }
    split; try done; try (intros; exfalso; by eapply log0); try (by intros ? ?%not_elem_of_nil);
      try (by intros ? [?%not_elem_of_nil|?%not_elem_of_empty]).
    intros t. split; [left; apply Habs|]. intros l r Hl. exfalso. by eapply log0.
  - unfold view0. intros id c [<- <-]%lookup_singleton_Some. split; [done|]. split; [by repeat split; eexists|].
    split; [by split; vm_compute|]. right. left. by vm_compute.
Qed.

(** The world after opening the volume, and after calls by thread 0. *)
Definition opened fates : mem_world := (TxMgr.open (T:=Z) (N:=loc_map) 0 (TxMgr.new 0 (volume0 fates))).2.
Definition after_call {A} (m : run mem_world A) (w : mem_world) : mem_world := (m w).2.

(** Volumes that work for sixty calls, and for all of them. *)
Definition sixty : list Fate := repeat Fine 60 ++ [Bad].
Lemma opened_ok : mem_ok (opened sixty) view0 ∧ mem_ok (opened []) view0.
Proof.
  split.
  - by destruct (spec_value _ _ () _ _ _ (open_world_spec (N:=loc_map) 0 _ _ (demo_holds sixty)));
      [vm_compute|].
  - by destruct (spec_value _ _ () _ _ _ (open_world_spec (N:=loc_map) 0 _ _ (demo_holds [])));
      [vm_compute|].
Qed.

(** The calls to come on the volume. *)
Definition plan (fates : list Fate) : run mem_world unit := modify (λ w,
  let v := TxMgr.vol w in
  TxMgr.mkWorld (TxMgr.txs w) (TxMgr.ents w) (TxMgr.walq_mgr w)
    (mkVol (mv_logs v) (mv_ents v) fates (mv_blocks v)) (TxMgr.heap w) (TxMgr.uses w) (TxMgr.thread_txid w)).

Lemma mv_bad v : last (mv_fates v) = Some Bad → ¬ mv_steady v.
Proof. rewrite last_lookup. intros Hl Hs. by pose proof (Forall_lookup_1 _ _ _ _ Hs Hl). Qed.
Lemma plan_ok f (w : mem_world) W :
  mem_ok w W → ¬ mv_steady (TxMgr.vol w) → mem_ok (after_call (plan f) w) W.
Proof.
  intros (q & C & Hw) Hs. exists q, C. apply (read_world 0 w q C W _ Hw). by split; [intros []|].
Qed.

(** *** A thread begins, loads entity 16 and changes it *)

Definition begun1 : mem_world := after_call (TxMgr.begin_trans 0%nat) (opened sixty).
Definition loaded1 : mem_world := after_call (TxMgr.load 16) begun1.
Definition updated1 : mem_world := after_call (TxMgr.update 0%nat 0%nat (Z.add 1)) loaded1.

Definition the_tx (w : mem_world) (t : Txid) : Trans.Trans log_map loc_map :=
  match TxMgr.txs w !! t with Some x => x | None => Trans.new t end.
Lemma the_tx_in w th t :
  TxMgr.current_or_empty w th = t → t ≠ 0 → match TxMgr.txs w !! t with Some _ => True | None => False end →
  in_tx w th t (the_tx w t).
Proof. unfold in_tx, the_tx. intros -> Ht Hm. by destruct (TxMgr.txs w !! t). Qed.

Lemma begun1_ok : mem_ok begun1 view0.
Proof.
  by destruct (spec_value _ _ 1 _ _ _ (begin_world_spec 0 _ _ 0%nat (proj1 opened_ok) eq_refl)); [vm_compute|].
Qed.
Lemma begun1_in : in_tx begun1 0%nat 1 (the_tx begun1 1).
Proof. by apply the_tx_in; [vm_compute| |vm_compute]. Qed.

Lemma unheld_empty (w : mem_world) id : TxMgr.heap w = ∅ → unheld w id.
Proof. intros Hh l y. by rewrite Hh, lookup_empty. Qed.
Lemma unreserved16 : ¬ reserved 0 16.
Proof. intros [|[t Ht]]; [done|]. cbn in Ht. lia. Qed.

Lemma loaded1_ok : mem_ok loaded1 view0 ∧ TxMgr.heap loaded1 = {[0%nat := Entity.ECow seven]}.
Proof.
  split; [|by vm_compute]. eapply (spec_value _ _ 0%nat _ _ _ (load_world 0 begun1 view0 16 seven begun1_ok eq_refl
    unreserved16 (unheld_empty _ _ _))). by vm_compute.
  Unshelve. by vm_compute.
Qed.
Lemma loaded1_in : in_tx loaded1 0%nat 1 (the_tx loaded1 1).
Proof. by apply the_tx_in; [vm_compute| |vm_compute]. Qed.

Lemma only_cows (w : mem_world) l c :
  TxMgr.heap w = {[l := Entity.ECow c]} →
  ∀ l' d, TxMgr.heap w !! l' = Some (Entity.EData d) → SegStub.id d ≠ Cow.id c.
Proof. by intros -> l' d [_ ?]%lookup_singleton_Some. Qed.
Lemma loaded1_usable : usable loaded1 view0 1 seven.
Proof. split; [by eapply only_cows, loaded1_ok|left]. by eexists. Qed.

Lemma updated1_ok : mem_ok updated1 view0.
Proof.
  eapply (spec_value _ _ () _ _ _ (update_world 0 loaded1 view0 0%nat 1 _ 0%nat seven (Z.add 1)
    (proj1 loaded1_ok) loaded1_in eq_refl loaded1_usable)). by vm_compute.
Qed.
Lemma updated1_in : in_tx updated1 0%nat 1 (the_tx updated1 1).
Proof. by apply the_tx_in; [vm_compute| |vm_compute]. Qed.

(** The entity as the commit stores it. *)
Definition eight : Cow.Cow Z := Cow.mkCow 16 2 Right None (Some 8) None None.


(** The machine stops while the commit writes the entity. *)
Definition stopping : mem_world := after_call (plan [Fine; Halt true]) updated1.
Lemma stopping_ok : mem_ok stopping view0 ∧ in_tx stopping 0%nat 1 (the_tx updated1 1).
Proof.
  split; [|exact updated1_in]. by apply plan_ok; [exact updated1_ok|apply mv_bad; vm_compute].
Qed.



Lemma update_isolated_witness :
  ∃ c', TxMgr.heap updated1 !! 0%nat = Some (Entity.ECow c') ∧
    Cow.deref 1 c' = Ok 8 ∧ Cow.deref 2 c' = Ok 7.
Proof.
  assert (Hs := update_isolated 0 loaded1 view0 0%nat 1 _ 0%nat seven (Z.add 1) (proj1 loaded1_ok) loaded1_in
    eq_refl loaded1_usable ltac:(done) ltac:(by vm_compute)).
  destruct (spec_value _ _ () _ _ _ Hs ltac:(by vm_compute)) as (_ & _ & c' & Hc & Hown & Hoth).
  exists c'. split; [exact Hc|]. split.
  - rewrite (Hown 7); [reflexivity|by vm_compute].
  - rewrite (Hoth 2); [by vm_compute|done|done].
Defined.

Lemma load_committed_witness :
  mem_ok loaded1 view0 ∧ TxMgr.heap loaded1 = <[0%nat := Entity.ECow seven]> (TxMgr.heap begun1).
Proof.
  pose proof (load_committed 0 begun1 view0 16 seven begun1_ok eq_refl unreserved16
    (unheld_empty begun1 16 ltac:(by vm_compute))) as Hs.
  destruct (spec_value _ _ 0%nat _ _ _ Hs ltac:(by vm_compute)) as (Hw & _ & Hh & _). split; [exact Hw|exact Hh].
Defined.
(** No log of the volume has an entry. *)
Definition blank (v : mem_vol) : bool :=
  forallb (λ kx : Eid * mem_item Logs, match kx.2 with inl u => match Wal.values u with [] => true | _ => false end | _ => true end)
    (map_to_list (mv_logs v)).
Lemma blank_logs v t b u e :
  blank v = true → log (contents v Logs) t b u → e ∈ Wal.values u → False.
Proof.
  unfold blank, log, arm_item. rewrite forallb_forall. intros Hb Hl He.
  destruct (contents v Logs !! to_eid b (derive_id t)) as [x|] eqn:Hx; [|done]. cbn in Hl. change (contents v Logs) with (mv_logs v) in Hx.
  apply elem_of_map_to_list in Hx. apply list_elem_of_In in Hx. specialize (Hb _ Hx). simpl in Hb.
  destruct x; [|done]. simplify_eq. destruct (Wal.values u); [by apply not_elem_of_nil in He|done].
Qed.

Lemma begun1_unused : unused 0 begun1 view0 24.
Proof.
  split; [done|]. split; [intros [|[t Ht]]; [done|cbn in Ht; lia]|]. split; [by vm_compute|]. split; [by vm_compute|].
  split; [by intros []; vm_compute|]. intros t b u e Hl He. exfalso. by eapply (blank_logs (TxMgr.vol begun1)).
Qed.

Lemma create_delete_witness :
  let w := after_call (TxMgr.into_cow_with_id 0%nat 5 24) begun1 in
  mem_ok w view0 ∧ mem_ok (after_call (TxMgr.make_del 0%nat 0%nat) loaded1) view0.
Proof.
  destruct (create_delete 0 begun1 view0 0%nat 1 _ begun1_ok begun1_in) as [Hnew _].
  destruct (create_delete 0 loaded1 view0 0%nat 1 _ (proj1 loaded1_ok) loaded1_in) as [_ Hdel]. split.
  - specialize (Hnew 5 24 begun1_unused (unheld_empty begun1 24 ltac:(by vm_compute))).
    by destruct (spec_value _ _ 0%nat _ _ _ Hnew ltac:(by vm_compute)).
  - specialize (Hdel 0%nat seven eq_refl loaded1_usable).
    by destruct (spec_value _ _ () _ _ _ Hdel ltac:(by vm_compute)).
Defined.

Lemma begun1_addable : data_addable begun1 (the_tx begun1 1) 32 New.
Proof.
  split; [done|]. split; [by vm_compute|]. split; [by vm_compute; intros ?%not_elem_of_nil|].
  split; [intros l c Hl Hi; by apply (unheld_empty begun1 32 eq_refl l _ Hl)|]. split; [by vm_compute|].
  intros t b u e Hl He. exfalso. by eapply (blank_logs (TxMgr.vol begun1)).
Qed.

Lemma data_logged_first_witness :
  let w := after_call (TxMgr.data_add_to_trans 32 New 1) begun1 in
  mem_ok w view0 ∧ contents (TxMgr.vol w) Ents = contents (TxMgr.vol begun1) Ents ∧
  ∃ u, stored (I:=Wal.Wal log_map) Logs (contents (TxMgr.vol w) Logs) 12 u ∧ is_Some (entry u 32).
Proof.
  pose proof (data_logged_first 0 begun1 view0 1 _ 32 New begun1_ok (proj2 (proj2 begun1_in)) begun1_addable) as Hs.
  destruct (spec_value _ _ () _ _ _ Hs ltac:(by vm_compute)) as (Hw & Hc & x' & _ & _ & Hst & Hen).
  split; [exact Hw|]. split; [exact Hc|]. exists (Trans.wal x'). split; [exact Hst|]. rewrite Hen. by eexists.
Defined.

Lemma refusals_witness :
  TxMgr.cow_add_to_trans 0%nat 0%nat Update (opened []) = (Some (Err NotInTrans), opened []) ∧
  TxMgr.begin_trans 0%nat begun1 = (Some (Err InTrans), begun1).
Proof.
  split.
  - apply (refusals (opened []) 0%nat 0%nat seven Update 0 16 EntityType.Cow Left). by vm_compute.
  - apply (refusals begun1 0%nat 0%nat seven Update 0 16 EntityType.Cow Left). by vm_compute.
Defined.

Definition busy_queue : WalQueueMgr.St mem_vol log_map :=
  WalQueueMgr.mkSt (WalQueueMgr.mkMgr 3 (WalQueue.mkWalQueue 0 1 Right 3 0 [1; 2; 3] ∅ ∅) None) (volume0 []).
Lemma recycle_terminates_witness :
  ∃ s', WalQueueMgr.recycle_loop 3 busy_queue = (Some (Ok ()), s') ∧
    zlen (WalQueue.done (WalQueueMgr.walq (WalQueueMgr.mgr s'))) < 2.
Proof.
  destruct (recycle_terminates busy_queue) as (s' & Hs & Hl & _).
  - by constructor.
  - intros t _. split; [|intros l r Hl; exfalso; exact (log0 [] t Left l Hl)].
    intros b. left. simpl. rewrite lookup_singleton_ne; [done|]. cbn. destruct b; lia.
  - exists s'. split; [exact Hs|exact Hl].
Defined.

Definition machine_begun : mem_world := (exec (CBegin 0%nat) (opened [])).2.
Lemma manager_refines_witness :
  ∃ w', exec (T:=Z) (CLoad 16) machine_begun = (Some (Ok ()), w') ∧ mem_ok w' view0.
Proof.
  assert (Hst : rtc (step 0) (opened [], view0) (machine_begun, view0)).
  { apply rtc_once, (step_call 0 (opened []) view0 (CBegin 0%nat) (Ok ())); [by vm_compute|by constructor| |done].
    by vm_compute. }
  destruct (manager_refines 0 (opened []) view0 machine_begun view0 (proj2 opened_ok) Hst) as [_ Hall].
  destruct (Hall (CLoad 16)) as (r & w' & He & _ & Hw & _).
  - split; [by eexists|]. split; [exact unreserved16|]. by apply unheld_empty.
  - by constructor.
  - done.
  - exists w'. split; [|exact Hw]. assert (Ho : (exec (T:=Z) (CLoad 16) machine_begun).1 = Some (Ok ())) by by vm_compute.
    rewrite He in Ho |- *. cbn [fst] in Ho. by rewrite Ho.
Defined.

#[local] Instance cow_laws : ArmAccessLaws (mem_item Ents) (Cow.Cow Z).
Proof. by split; [|intros ? ? []|intros []|]. Qed.
Definition nine : Cow.Cow Z := Cow.mkCow 16 1 Left (Some 9) None None None.

(** ** What goes wrong *)

(** The value that opening the volume and loading the entity gives. *)
Definition reread (v : mem_vol) (id : Eid) : option (res Z) :=
  match recovered (T:=Z) (M:=log_map) (N:=loc_map) 0 id (TxMgr.new 0 v) with
  | (Some (Ok l), w) =>
      match TxMgr.heap w !! l with Some (Entity.ECow c) => Some (Cow.inner c) | _ => None end
  | (Some (Err e), _) => Some (Err e)
  | _ => None
  end.
(** An update, a deletion and an abort; the next update. *)
Definition resurrect : run mem_world (list (res unit)) :=
  t ← TxMgr.begin_trans 0%nat; l ← TxMgr.load 16;
  _ ← TxMgr.update 0%nat l (Z.add 1);
  _ ← TxMgr.make_del 0%nat l;
  r1 ← attempt (TxMgr.handle_abort 0%nat t NotEmpty);
  t ← TxMgr.begin_trans 0%nat;
  _ ← TxMgr.update 0%nat l (Z.mul 10);
  r2 ← attempt (TxMgr.commit_trans 0%nat t);
  mret [r1; r2].

(** [Cow::abort] drops the copy of an entity only when its last action is an update: after an
    update and a deletion that are aborted, the next update starts from the aborted value 8
    instead of the committed 7, and commits 80. *)
Theorem aborted_update_returns :
  (resurrect (opened [])).1 = Some (Ok [Err NotEmpty; Ok ()]) ∧
  reread (TxMgr.vol (resurrect (opened [])).2) 16 = Some (Ok 80).
Proof. split; by vm_compute. Qed.

(** Two transactions: the commit of the first fails, and so does its abort; the second changes
    the same entity and commits; a third begins. *)
Definition redo : run mem_world (list (res unit) * mem_vol) :=
  t1 ← TxMgr.begin_trans 0%nat; l ← TxMgr.load 16;
  t2 ← TxMgr.begin_trans 1%nat;
  _ ← TxMgr.update 0%nat l (Z.add 1);
  _ ← plan [Fine; Fine; Bad; Bad];
  r1 ← attempt (TxMgr.commit_trans 0%nat t1);
  _ ← TxMgr.update 1%nat l (Z.mul 10);
  r2 ← attempt (TxMgr.commit_trans 1%nat t2);
  v ← ask TxMgr.vol;
  r3 ← attempt (_ ← TxMgr.begin_trans 0%nat; mret ());
  mret ([r1; r2; r3], v).

(** A run: redoing a failed abort, in [WalQueue::hot_redo_abort] and [cold_redo_abort], deletes what the second transaction has committed since, 70, and
    the entity is back at 7: at the next begin ([hot_redo_abort]), and also when the volume is
    opened right after the commit ([cold_redo_abort]). *)
Lemma hot_redo_loses_commit :
  match redo (opened []) with
  | (Some (Ok (rs, v)), w) =>
      rs = [Err Io; Ok (); Ok ()] ∧ reread v 16 = Some (Ok 7) ∧ reread (TxMgr.vol w) 16 = Some (Ok 7)
  | _ => False
  end.
Proof. vm_compute. by split_and!. Qed.

(** A transaction deletes the entity; four more follow. *)
Definition leak : run mem_world unit :=
  t ← TxMgr.begin_trans 0%nat; l ← TxMgr.load 16;
  _ ← TxMgr.make_del 0%nat l;
  _ ← TxMgr.commit_trans 0%nat t;
  for_each (λ _, t ← TxMgr.begin_trans 0%nat; TxMgr.commit_trans 0%nat t) [0; 0; 0; 0].

(** [Wal::recycle] looks for the arms of a deleted entity among the logs: the entity stays on
    the volume and can be loaded. *)
Theorem deleted_entity_stays :
  (leak (opened [])).1 = Some (Ok ()) ∧ reread (TxMgr.vol (leak (opened [])).2) 16 = Some (Ok 7).
Proof. split; by vm_compute. Qed.
