(* ===== verification/Entry.v ===== *)
(** * src/content/span.rs and src/content/entry.rs: spans, entries and entry lists.

    A content is an entry list: per segment an entry, per contiguous run of chunks a span.
    Overwriting and truncating a file are cuts of these lists. *)
From S2P Require Import Prelude Base Segment.

(** Sizes and offsets stay below this bound, so no [usize] sum of two of them overflows. *)
Definition BOUND : Z := 2 ^ 62.
Lemma BOUND_lt : 0 < BOUND ∧ 4 * BOUND = U64.
Proof. done. Qed.

(** ** The traits [Extent], [Cutable] and [CutableList] *)

Class Extent (T : Type) := {
  offset : T → Z;
  set_offset : T → Z → T;
  len : T → Z;
  set_len : T → Z → T
}.
#[export] Hint Mode Extent ! : typeclass_instances.

Definition end_offset `{Extent T} (t : T) : res Z := u_add (offset t) (len t).
Definition is_empty `{Extent T} (t : T) : bool := len t =? 0.

Lemma end_offset_ok `{Extent T} (t : T) :
  offset t + len t < U64 → end_offset t = Ok (offset t + len t).
Proof. apply u_add_ok. Qed.

(** Both cuts return the cut-down receiver and the piece cut away. *)
Class Cutable (T : Type) := {
  cut_off : T → Z → Segment.Segment → res (T * T);
  cut_to : T → Z → Segment.Segment → res (T * T)
}.
#[export] Hint Mode Cutable ! : typeclass_instances.

Class CutableList (T I : Type) := {
  items : T → list I;
  set_items : T → list I → T
}.
#[export] Hint Mode CutableList ! - : typeclass_instances.

Section cutable_list.
Context {T I : Type} `{!Extent T, !Extent I, !Cutable I, !CutableList T I}.

Definition in_extent (at_ : Z) (i : I) : res bool :=
  e ← end_offset i; Ok ((offset i <=? at_) && (at_ <=? e)).

Definition check_at (t : T) (at_ : Z) : res unit :=
  e ← end_offset t; rassert ((offset t <=? at_) && (at_ <=? e)).

Definition locate (t : T) (at_ : Z) : res Z :=
  _ ← check_at t at_;
  o ← positionM (in_extent at_) (items t);
  Ok (default 0 o).

Definition sum_len (l : list I) : res Z := foldM (λ s i, u_add s (len i)) 0 l.

Definition split_off (t : T) (at_ : Z) (seg : Segment.Segment) : res (T * T) :=
  _ ← check_at t at_;
  pos ← locate t at_;
  item ← vindex (items t) pos;
  '(item, split) ← cut_off item at_ seg;
  its ← vset (items t) pos item;
  '(its, pos) ← (if is_empty item then its ← vremove its pos; Ok (its, pos)
                 else Ok (its, pos + 1));
  let t := set_items t its in
  let ret := set_offset t (offset split) in
  '(hd, tail) ← vsplit_off (items t) pos;
  let t := set_items t hd in
  let tail := if is_empty split then tail else split :: tail in
  n ← sum_len tail;
  let ret := set_items (set_len ret n) tail in
  new_len ← u_sub at_ (offset t);
  let t := set_len t new_len in
  let t := if is_empty t then set_items t [] else t in
  Ok (t, ret).

Definition split_to (t : T) (at_ : Z) (seg : Segment.Segment) : res (T * T) :=
  _ ← check_at t at_;
  pos ← locate t at_;
  item ← vindex (items t) pos;
  '(item, split) ← cut_to item at_ seg;
  its ← vset (items t) pos item;
  its ← (if is_empty item then vremove its pos else Ok its);
  let t := set_items t its in
  '(hd, tail) ← vsplit_off (items t) pos;
  let hd := if is_empty split then hd else hd ++ [split] in
  let t := set_items t hd in
  let ret := set_items t (items t) in
  head_len ← sum_len (items ret);
  let ret := set_len ret head_len in
  let t := set_items t tail in
  e ← end_offset t;
  new_len ← u_sub e at_;
  let t := set_offset (set_len t new_len) at_ in
  let t := if is_empty t then set_items t [] else t in
  Ok (t, ret).
End cutable_list.

(** ** Laws of cut lists

    The list code is generic in its items, and so are its proofs: [W] says that an item is
    well formed, [B] is the bytes it denotes and [Sg] relates an item to the segment a cut
    reads. *)

Class ExtentLaws (T : Type) `{Extent T} := {
  offset_set_offset (t : T) o : offset (set_offset t o) = o;
  len_set_offset (t : T) o : len (set_offset t o) = len t;
  offset_set_len (t : T) n : offset (set_len t n) = offset t;
  len_set_len (t : T) n : len (set_len t n) = n
}.
Class CutableListLaws (T I : Type) `{Extent T, CutableList T I} := {
  items_set_items (t : T) (l : list I) : items (set_items t l) = l;
  offset_set_items (t : T) (l : list I) : offset (set_items t l) = offset t;
  len_set_items (t : T) (l : list I) : len (set_items t l) = len t;
  items_set_offset (t : T) o : items (set_offset t o) = items t;
  items_set_len (t : T) n : items (set_len t n) = items t
}.

(** Read back what was just written to an extent or a cutable list. *)
Ltac zext :=
  repeat first
    [ rewrite items_set_items | rewrite items_set_offset | rewrite items_set_len
    | rewrite offset_set_offset | rewrite offset_set_len | rewrite offset_set_items
    | rewrite len_set_len | rewrite len_set_offset | rewrite len_set_items ].

Section chain.
Context {I : Type} `{!Extent I} (W : I → Prop).

(** Items laid out one after the other from offset [o]. *)
Fixpoint chain (o : Z) (l : list I) : Prop :=
  match l with
  | [] => True
  | i :: l => offset i = o ∧ W i ∧ chain (o + len i) l
  end.

Definition total (l : list I) : Z := zsum len l.

#[local] Arguments total _ : simpl never.

Lemma total_cons i l : total (i :: l) = len i + total l.
Proof. done. Qed.
Lemma total_nil : total [] = 0.
Proof. done. Qed.
Lemma total_app l1 l2 : total (l1 ++ l2) = total l1 + total l2.
Proof. apply zsum_app. Qed.
Lemma chain_app o l1 l2 : chain o (l1 ++ l2) ↔ chain o l1 ∧ chain (o + total l1) l2.
Proof.
  revert o. induction l1 as [|i l1 IH]; intros o; simpl.
  { rewrite total_nil, Z.add_0_r. tauto. }
  rewrite IH, total_cons, Z.add_assoc. tauto.
Qed.

Context (W_len : ∀ i, W i → 0 < len i).

Lemma chain_nonneg o l : chain o l → 0 ≤ total l.
Proof.
  revert o. induction l as [|i l IH]; intros o; [done|]. intros (_ & HW%W_len & H%IH).
  rewrite total_cons. lia.
Qed.
Lemma chain_nil_iff o l : chain o l → total l = 0 → l = [].
Proof.
  destruct l as [|i l]; [done|]. intros (_ & HW%W_len & H%chain_nonneg).
  rewrite total_cons. lia.
Qed.
Lemma sum_len_ok o l s :
  chain o l → 0 ≤ s → s + total l < U64 →
  foldM (λ s i, u_add s (len i)) s l = Ok (s + total l).
Proof.
  revert o s. induction l as [|i l IH]; intros o s Hc Hs Hlt.
  { simpl. by rewrite total_nil, Z.add_0_r. }
  destruct Hc as (_ & HW%W_len & Hc). rewrite total_cons in *. cbn [foldM].
  pose proof (chain_nonneg _ _ Hc). res_run.
  rewrite (IH _ _ Hc) by lia. f_equal. lia.
Qed.

Lemma in_extent_ok a (i : I) :
  0 ≤ offset i + len i < U64 →
  in_extent a i = Ok ((offset i <=? a) && (a <=? offset i + len i)).
Proof. intros. unfold in_extent, end_offset. by res_run. Qed.

(** The first item whose extent holds a position. *)
Lemma find_item o l a :
  chain o l → l ≠ [] → 0 ≤ o → o ≤ a ≤ o + total l → o + total l < U64 →
  ∃ l1 i l2, l = l1 ++ i :: l2 ∧
    positionM (in_extent a) l = Ok (Some (zlen l1)) ∧
    offset i = o + total l1 ∧ offset i ≤ a ≤ offset i + len i ∧
    (a = offset i → l1 = []).
Proof.
  revert o. induction l as [|i l IH]; intros o Hct Hne Hp Ha Hlt; [done|].
  destruct Hct as (Hpc & HW & Hct). pose proof (chain_nonneg _ _ Hct).
  pose proof (W_len _ HW). rewrite total_cons in *. cbn [positionM].
  rewrite in_extent_ok by lia. res_run.
  rewrite (proj2 (Z.leb_le (offset i) a)) by lia. cbn [andb].
  destruct (a <=? offset i + len i) eqn:Hca; zify_b.
  - exists [], i, l. rewrite total_nil. repeat split; try done; lia.
  - destruct (IH (o + len i)) as (l1 & c' & l2 & -> & Hps & Hpos & Hin & Hfst);
      [done| |lia|lia|lia|].
    { intros ->. rewrite total_nil in *. lia. }
    rewrite Hps. exists (i :: l1), c', l2. split; [done|]. simpl.
    rewrite zlen_cons. split; [done|]. rewrite total_cons.
    split; [lia|]. split; [lia|]. intros Heq. specialize (Hfst Heq). subst l1.
    rewrite total_nil in *. lia.
Qed.

Context (B : I → list byte).
Definition list_bytes (l : list I) : list byte := concat (B <$> l).

Lemma list_bytes_app l1 l2 : list_bytes (l1 ++ l2) = list_bytes l1 ++ list_bytes l2.
Proof. unfold list_bytes. by rewrite fmap_app, concat_app. Qed.
Lemma list_bytes_cons i l : list_bytes (i :: l) = B i ++ list_bytes l.
Proof. done. Qed.

Context (B_len : ∀ i, W i → zlen (B i) = len i).

Lemma list_bytes_len o l : chain o l → zlen (list_bytes l) = total l.
Proof.
  revert o. induction l as [|i l IH]; intros o; [done|]. intros (_ & HW & Hc).
  by rewrite list_bytes_cons, zlen_app, total_cons, (IH _ Hc), B_len.
Qed.

End chain.

Section cut_laws.
Context {T I : Type} `{!Extent T, !Extent I, !Cutable I, !CutableList T I}.
Context `{!ExtentLaws T, !CutableListLaws T I}.
Context (W : I → Prop) (B : I → list byte) (Sg : Segment.Segment → I → Prop).
Context (W_len : ∀ i, W i → 0 < len i).
Context (B_len : ∀ i, W i → zlen (B i) = len i).
Context (cut_off_spec : ∀ seg i a, W i → Sg seg i → offset i ≤ a ≤ offset i + len i →
  0 ≤ offset i → offset i + len i < BOUND →
  ∃ i' r, cut_off i a seg = Ok (i', r) ∧ offset i' = offset i ∧ len i' = a - offset i ∧
    (0 < len i' → W i' ∧ B i' = ztake (a - offset i) (B i)) ∧ 0 ≤ len r ≤ len i).
Context (cut_to_spec : ∀ seg i a, W i → Sg seg i → offset i ≤ a ≤ offset i + len i →
  0 ≤ offset i → offset i + len i < BOUND →
  ∃ i' r, cut_to i a seg = Ok (i', r) ∧ offset i' = a ∧ len i' = offset i + len i - a ∧
    (0 < len i' → W i' ∧ B i' = zdrop (a - offset i) (B i)) ∧ 0 ≤ len r ≤ len i).

Definition list_ok (t : T) : Prop :=
  chain W (offset t) (items t) ∧ len t = total (items t) ∧
  0 ≤ offset t ∧ offset t + len t < BOUND.

(** The cut falls in the item a segment is at hand for. *)
Definition located (a : Z) (t : T) (i : I) : Prop :=
  ∃ n, locate t a = Ok n ∧ zget (items t) n = Some i.

#[local] Arguments total {_ _} _ : simpl never.

Lemma check_at_ok t a :
  list_ok t → offset t ≤ a ≤ offset t + len t → check_at t a = Ok ().
Proof.
  intros (Hc & Hl & Ho & Hb) Ha. pose proof (chain_nonneg _ W_len _ _ Hc).
  pose proof BOUND_lt. unfold check_at, end_offset. by res_run.
Qed.

Lemma locate_ok t a :
  list_ok t → items t ≠ [] → offset t ≤ a ≤ offset t + len t →
  ∃ l1 i l2, items t = l1 ++ i :: l2 ∧ locate t a = Ok (zlen l1) ∧
    offset i = offset t + total l1 ∧ offset i ≤ a ≤ offset i + len i ∧
    (a = offset i → l1 = []).
Proof.
  intros Hok Hne Ha. pose proof Hok as (Hc & Hl & Ho & Hb).
  destruct (find_item W W_len (offset t) (items t) a)
    as (l1 & i & l2 & Hit & Hp & Hrest); [done..|lia|pose proof BOUND_lt; lia|].
  exists l1, i, l2. split; [done|]. split; [|done].
  unfold locate. rewrite check_at_ok by done. by rewrite bind_ok, Hp.
Qed.

Lemma sum_len_opt o l r :
  chain W o l → 0 ≤ len r → len r + total l < U64 →
  sum_len (if is_empty r then l else r :: l) = Ok (len r + total l).
Proof.
  intros Hc Hr Hlt. pose proof (chain_nonneg _ W_len _ _ Hc). unfold sum_len, is_empty.
  destruct (len r =? 0) eqn:He; zify_b.
  - rewrite (sum_len_ok _ W_len _ _ _ Hc) by lia. f_equal. lia.
  - cbn [foldM]. res_run. by rewrite (sum_len_ok _ W_len _ _ _ Hc) by lia.
Qed.

Lemma split_off_ok seg t a :
  list_ok t → items t ≠ [] → offset t ≤ a ≤ offset t + len t →
  (∀ i, located a t i → Sg seg i) →
  ∃ t' r, split_off t a seg = Ok (t', r) ∧ list_ok t' ∧
    offset t' = offset t ∧ len t' = a - offset t ∧
    list_bytes B (items t') = ztake (a - offset t) (list_bytes B (items t)) ∧
    0 ≤ len r ≤ len t.
Proof.
  intros Hok Hne Ha HS. destruct (locate_ok t a Hok Hne Ha)
    as (l1 & i & l2 & Hit & Hloc & Hoff & Hin & Hfst).
  pose proof Hok as (Hc & Hl & Ho & Hb).
  assert (HSi : Sg seg i). { apply HS. exists (zlen l1). by rewrite Hit, zget_middle. }
  rewrite Hit in Hc. apply chain_app in Hc as (Hc1 & Hioff & HWi & Hc2).
  pose proof (chain_nonneg _ W_len _ _ Hc1). pose proof (chain_nonneg _ W_len _ _ Hc2).
  rewrite Hit, total_app, total_cons in Hl. pose proof (W_len _ HWi).
  destruct (cut_off_spec seg i a) as (i' & r & Hcut & Hi'o & Hi'l & Hi' & Hr);
    [done..|lia|lia|].
  unfold split_off. rewrite check_at_ok by done. rewrite bind_ok, Hloc, bind_ok, Hit.
  rewrite vindex_middle, bind_ok, Hcut, bind_ok. cbn [fst snd].
  rewrite vset_middle, bind_ok. pose proof BOUND_lt.
  assert (Ha' : a - offset t = total l1 + len i') by lia.
  assert (Hby : 0 < len i' →
    ztake (a - offset t) (list_bytes B (l1 ++ i :: l2)) = list_bytes B (l1 ++ [i'])).
  { intros [HWi' HBi']%Hi'. rewrite list_bytes_app, list_bytes_cons.
    pose proof (list_bytes_len W B B_len _ _ Hc1). pose proof (B_len _ HWi).
    rewrite ztake_app_ge, ztake_app_le by lia. rewrite list_bytes_app, list_bytes_cons.
    rewrite HBi', app_nil_r. do 2 f_equal. lia. }
  destruct (is_empty i') eqn:He; unfold is_empty in He; zify_b.
  - rewrite Hfst in * by lia. rewrite total_nil in *.
    rewrite vremove_middle, !bind_ok. zext.
    rewrite vsplit_off_app, bind_ok, (sum_len_opt _ _ _ Hc2), bind_ok by lia.
    zext. rewrite u_sub_ok, bind_ok by lia. unfold is_empty.
    zext. rewrite (proj2 (Z.eqb_eq (a - offset t) 0)) by lia.
    eexists _, _. split; [done|]. unfold list_ok. zext.
    rewrite total_nil, ztake_0 by lia. repeat split; try done; lia.
  - specialize (Hby ltac:(lia)). destruct (Hi' ltac:(lia)) as [HWi' HBi'].
    rewrite bind_ok. zext.
    replace (l1 ++ i' :: l2) with ((l1 ++ [i']) ++ l2) by by rewrite <- app_assoc.
    replace (zlen l1 + 1) with (zlen (l1 ++ [i'])) by by rewrite zlen_app.
    rewrite vsplit_off_app, bind_ok, (sum_len_opt _ _ _ Hc2), bind_ok by lia.
    zext. rewrite u_sub_ok, bind_ok by lia. unfold is_empty.
    zext. rewrite (proj2 (Z.eqb_neq (a - offset t) 0)) by lia.
    eexists _, _. split; [done|]. unfold list_ok. zext.
    rewrite total_app, total_cons, total_nil, chain_app.
    rewrite <- Hby. repeat split; try done; lia.
Qed.

Lemma sum_len_opt_r o l r :
  chain W o l → 0 ≤ len r → total l + len r < U64 →
  sum_len (if is_empty r then l else l ++ [r]) = Ok (total l + len r).
Proof.
  intros Hc Hr Hlt. pose proof (chain_nonneg _ W_len _ _ Hc). unfold sum_len, is_empty.
  destruct (len r =? 0) eqn:He; zify_b.
  - rewrite (sum_len_ok _ W_len _ _ _ Hc) by lia. f_equal. lia.
  - rewrite foldM_app, (sum_len_ok _ W_len _ _ _ Hc), bind_ok by lia. cbn [foldM].
    by res_run.
Qed.

Lemma split_to_ok seg t a :
  list_ok t → items t ≠ [] → offset t ≤ a ≤ offset t + len t →
  (∀ i, located a t i → Sg seg i) →
  ∃ t' r, split_to t a seg = Ok (t', r) ∧ list_ok t' ∧
    offset t' = a ∧ len t' = offset t + len t - a ∧
    list_bytes B (items t') = zdrop (a - offset t) (list_bytes B (items t)) ∧
    0 ≤ len r ≤ len t.
Proof.
  intros Hok Hne Ha HS. destruct (locate_ok t a Hok Hne Ha)
    as (l1 & i & l2 & Hit & Hloc & Hoff & Hin & Hfst).
  pose proof Hok as (Hc & Hl & Ho & Hb).
  assert (HSi : Sg seg i). { apply HS. exists (zlen l1). by rewrite Hit, zget_middle. }
  rewrite Hit in Hc. apply chain_app in Hc as (Hc1 & Hioff & HWi & Hc2).
  pose proof (chain_nonneg _ W_len _ _ Hc1). pose proof (chain_nonneg _ W_len _ _ Hc2).
  rewrite Hit, total_app, total_cons in Hl. pose proof (W_len _ HWi).
  destruct (cut_to_spec seg i a) as (i' & r & Hcut & Hi'o & Hi'l & Hi' & Hr);
    [done..|lia|lia|].
  unfold split_to. rewrite check_at_ok by done. rewrite bind_ok, Hloc, bind_ok, Hit.
  rewrite vindex_middle, bind_ok, Hcut, bind_ok. cbn [fst snd].
  rewrite vset_middle, bind_ok. pose proof BOUND_lt.
  set (tl := if is_empty i' then l2 else i' :: l2).
  assert (Htl : (if is_empty i' then vremove (l1 ++ i' :: l2) (zlen l1)
                 else Ok (l1 ++ i' :: l2)) = Ok (l1 ++ tl)).
  { unfold tl. destruct (is_empty i'); [apply vremove_middle|done]. }
  rewrite Htl, bind_ok. zext. rewrite vsplit_off_app, bind_ok. zext.
  rewrite (sum_len_opt_r _ _ _ Hc1), bind_ok by lia. unfold end_offset. zext.
  rewrite u_add_ok, bind_ok, u_sub_ok, bind_ok by lia.
  assert (Ht : chain W a tl ∧ total tl = offset t + len t - a ∧
    list_bytes B tl = zdrop (a - offset t) (list_bytes B (l1 ++ i :: l2))).
  { rewrite list_bytes_app, list_bytes_cons.
    pose proof (list_bytes_len W B B_len _ _ Hc1). pose proof (B_len _ HWi).
    rewrite zdrop_app_ge, zdrop_app_le by lia.
    replace (a - offset t - zlen (list_bytes B l1)) with (a - offset i) by lia.
    unfold tl, is_empty. destruct (len i' =? 0) eqn:He; zify_b.
    - rewrite zdrop_ge by lia. replace a with (offset t + total l1 + len i) by lia.
      split; [done|]. split; [lia|done].
    - destruct (Hi' ltac:(lia)) as [HWi' HBi']. rewrite list_bytes_cons, HBi', total_cons.
      split; [|split; [lia|done]]. split; [done|]. split; [done|].
      by replace (a + len i') with (offset t + total l1 + len i) by lia. }
  destruct Ht as (Htc & Htt & Htb). rewrite <- Htb. clearbody tl.
  assert (Hem : ∀ (x : T) n, is_empty (set_offset (set_len x n) a) = (n =? 0)).
  { intros. unfold is_empty. by zext. }
  rewrite Hem. eexists _, _. split; [done|].
  destruct (offset t + len t - a =? 0) eqn:He; zify_b; unfold list_ok; zext.
  - pose proof (chain_nil_iff _ W_len _ _ Htc ltac:(lia)). subst tl.
    rewrite total_nil. repeat split; try done; lia.
  - repeat split; try done; lia.
Qed.
End cut_laws.

(** ** Spans *)

Module Span.
Import Chunk.
Record Span := mkSpan { begin : Z; end_ : Z; seg_offset : Z; slen : Z; soffset : Z }.

#[global] Instance Span_extent : Extent Span := {|
  offset := soffset;
  set_offset s o := mkSpan (begin s) (end_ s) (seg_offset s) (slen s) o;
  len := slen;
  set_len s n := mkSpan (begin s) (end_ s) (seg_offset s) n (soffset s)
|}.

Definition offset_in_seg (s : Span) (seg : Segment.Segment) : res Z :=
  c ← Segment.index seg (begin s); u_add (pos c) (seg_offset s).

Definition chunk_holds (seg_at : Z) (c : Chunk) : res bool :=
  e ← end_pos c; Ok ((pos c <=? seg_at) && (seg_at <=? e)).

Definition locate (s : Span) (at_ : Z) (seg : Segment.Segment) : res (Z * Z) :=
  e ← end_offset s;
  _ ← rassert ((soffset s <=? at_) && (at_ <=? e));
  chunks ← Segment.index_range seg (begin s) (end_ s);
  o ← offset_in_seg s seg;
  a ← u_add o at_;
  seg_at ← u_sub a (soffset s);
  idx ← positionM (chunk_holds seg_at) chunks;
  idx ← unwrap idx;
  Ok (begin s + idx, seg_at).

Definition align_up (s : Span) (at_ : Z) (seg : Segment.Segment) : res (Z * Z) :=
  '(idx, seg_at) ← locate s at_ seg;
  c ← Segment.index seg idx;
  if seg_at =? pos c then Ok (idx, at_)
  else
    e ← end_pos c;
    a ← u_add at_ e;
    a ← u_sub a seg_at;
    Ok (idx + 1, a).

Definition align_down (s : Span) (at_ : Z) (seg : Segment.Segment) : res (Z * Z) :=
  '(idx, seg_at) ← locate s at_ seg;
  c ← Segment.index seg idx;
  e ← end_pos c;
  if seg_at =? e then Ok (idx + 1, at_)
  else
    a ← u_add at_ (pos c);
    a ← u_sub a seg_at;
    Ok (idx, a).

Definition merge_up (s up : Span) : res Span :=
  _ ← rassert ((end_ s =? begin up) && (seg_offset up =? 0));
  n ← u_add (slen s) (slen up);
  Ok (mkSpan (begin s) (end_ up) (seg_offset s) n (soffset s)).

Definition cut_off_span (s : Span) (at_ : Z) (seg : Segment.Segment) : res (Span * Span) :=
  '(align_idx, align_at) ← align_up s at_ seg;
  e ← end_offset s;
  rlen ← (if align_at <? e then u_sub e align_at else Ok 0);
  let ret := mkSpan align_idx (end_ s) 0 rlen align_at in
  n ← u_sub at_ (soffset s);
  Ok (mkSpan (begin s) (begin ret) (seg_offset s) n (soffset s), ret).

Definition cut_to_span (s : Span) (at_ : Z) (seg : Segment.Segment) : res (Span * Span) :=
  '(align_idx, align_at) ← align_down s at_ seg;
  delta ← u_sub at_ (soffset s);
  so ← u_sub at_ align_at;
  n ← u_sub (slen s) delta;
  let s' := mkSpan align_idx (end_ s) so n at_ in
  rlen ← (if soffset s <? align_at then u_sub align_at (soffset s) else Ok 0);
  Ok (s', mkSpan (begin s) (begin s') (seg_offset s) rlen (soffset s)).

#[global] Instance Span_cutable : Cutable Span := {|
  cut_off := cut_off_span;
  cut_to := cut_to_span
|}.

(** [Seek for Span], the case the list code uses: [SeekFrom::Current(delta)]. *)
Definition seek_current (s : Span) (delta : Z) : Span :=
  mkSpan (begin s) (end_ s) (seg_offset s) (slen s) ((soffset s + delta) mod U64).

(** *** Meaning and well-formedness *)

(** Chunks laid out one after the other from position [p]. *)
Fixpoint contig (p : Z) (cs : list Chunk) : Prop :=
  match cs with
  | [] => True
  | c :: cs => pos c = p ∧ 0 < clen c ∧ contig (p + clen c) cs
  end.

Definition span_chunks (seg : Segment.Segment) (s : Span) : list Chunk :=
  ztake (end_ s - begin s) (zdrop (begin s) (Segment.chunks seg)).

(** The position of the span's first byte in the segment data. *)
Definition start_pos (seg : Segment.Segment) (s : Span) : Z :=
  from_option pos 0 (zget (Segment.chunks seg) (begin s)) + seg_offset s.

(** The bytes a span denotes. *)
Definition span_bytes (seg : Segment.Segment) (data : list byte) (s : Span) : list byte :=
  ztake (slen s) (zdrop (start_pos seg s) data).

Definition span_ok (seg : Segment.Segment) (data : list byte) (s : Span) : Prop :=
  ∃ c cs, span_chunks seg s = c :: cs ∧
    0 ≤ begin s ∧ begin s < end_ s ≤ zlen (Segment.chunks seg) ∧
    0 ≤ pos c ∧ contig (pos c) (c :: cs) ∧
    0 ≤ seg_offset s < clen c ∧ 0 < slen s ∧
    seg_offset s + slen s ≤ Segment.total_len (c :: cs) ∧
    seg_offset s ≤ soffset s ∧ soffset s + slen s < BOUND ∧
    pos c + Segment.total_len (c :: cs) ≤ zlen data ∧ zlen data < BOUND.

Lemma contig_app p cs1 cs2 :
  contig p (cs1 ++ cs2) ↔ contig p cs1 ∧ contig (p + Segment.total_len cs1) cs2.
Proof.
  revert p. induction cs1 as [|c cs1 IH]; intros p; simpl.
  { rewrite Z.add_0_r. tauto. }
  rewrite IH. unfold Segment.total_len. simpl. rewrite Z.add_assoc. tauto.
Qed.
Lemma contig_total_nonneg p cs : contig p cs → 0 ≤ Segment.total_len cs.
Proof.
  revert p. induction cs as [|c cs IH]; intros p; [done|]. intros (_ & ? & H%IH).
  unfold Segment.total_len in *. simpl. lia.
Qed.
Lemma contig_total_pos p c cs : contig p (c :: cs) → 0 < Segment.total_len (c :: cs).
Proof.
  intros (_ & ? & H%contig_total_nonneg). unfold Segment.total_len in *. simpl. lia.
Qed.

Lemma chunk_holds_ok a c :
  0 ≤ pos c + clen c < U64 → chunk_holds a c = Ok ((pos c <=? a) && (a <=? pos c + clen c)).
Proof. intros. unfold chunk_holds, end_pos. by res_run. Qed.

(** The first chunk that holds a position of a contiguous run. *)
Lemma find_chunk p cs a :
  contig p cs → cs ≠ [] → 0 ≤ p → p ≤ a ≤ p + Segment.total_len cs →
  p + Segment.total_len cs < U64 →
  ∃ l1 c l2, cs = l1 ++ c :: l2 ∧
    positionM (chunk_holds a) cs = Ok (Some (zlen l1)) ∧
    pos c = p + Segment.total_len l1 ∧ pos c ≤ a ≤ pos c + clen c ∧
    (a = pos c → l1 = []).
Proof.
  revert p. induction cs as [|c cs IH]; intros p Hct Hne Hp Ha Hlt; [done|].
  destruct Hct as (Hpc & Hcl & Hct). pose proof (contig_total_nonneg _ _ Hct).
  assert (Ht : Segment.total_len (c :: cs) = clen c + Segment.total_len cs) by done.
  rewrite Ht in *. cbn [positionM]. rewrite chunk_holds_ok by lia. res_run.
  rewrite (proj2 (Z.leb_le (pos c) a)) by lia. cbn [andb].
  destruct (a <=? pos c + clen c) eqn:Hca; zify_b.
  - exists [], c, cs. split; [done|]. split; [done|]. split; [|split; [lia|done]].
    unfold Segment.total_len. simpl. lia.
  - destruct (IH (p + clen c)) as (l1 & c' & l2 & -> & Hps & Hpos & Hin & Hfst);
      [done| |lia|lia|lia|].
    { intros ->. unfold Segment.total_len in Ha. simpl in Ha. lia. }
    rewrite Hps. exists (c :: l1), c', l2. split; [done|]. simpl.
    rewrite zlen_cons. split; [done|]. unfold Segment.total_len in *. simpl.
    split; [lia|]. split; [lia|]. intros Heq. specialize (Hfst Heq). subst l1.
    simpl in Hpos. lia.
Qed.

Lemma zslice_index {A} (l : list A) b e l1 x l2 :
  0 ≤ b → ztake (e - b) (zdrop b l) = l1 ++ x :: l2 → zget l (b + zlen l1) = Some x.
Proof.
  intros Hb Hs. pose proof (zlen_nonneg l1). apply zget_Some. split; [lia|].
  assert (Hx : (zdrop b l) !! length l1 = Some x).
  { rewrite <- (ztake_zdrop (e - b) (zdrop b l)), Hs, <- app_assoc.
    by rewrite lookup_app_r, Nat.sub_diag by lia. }
  unfold zdrop in Hx. rewrite lookup_drop in Hx. rewrite <- Hx. f_equal. unfold zlen. lia.
Qed.
Lemma zslice_prefix {A} (l : list A) b e l1 x l2 :
  0 ≤ b → b ≤ e → e ≤ zlen l → ztake (e - b) (zdrop b l) = l1 ++ x :: l2 →
  ztake (b + zlen l1 + 1 - b) (zdrop b l) = l1 ++ [x] ∧
  b + zlen l1 + 1 ≤ e.
Proof.
  intros Hb Hbe He Hs. pose proof (zlen_nonneg l1). pose proof (zlen_nonneg l2).
  assert (Hz : zlen (ztake (e - b) (zdrop b l)) = e - b).
  { rewrite zlen_ztake, zlen_zdrop by lia. lia. }
  rewrite Hs, zlen_app, zlen_cons in Hz. split; [|lia].
  replace (b + zlen l1 + 1 - b) with (Z.min (zlen l1 + 1) (e - b)) by lia.
  rewrite <- ztake_ztake, Hs. rewrite ztake_app_ge by lia.
  replace (zlen l1 + 1 - zlen l1) with 1 by lia. done.
Qed.
Lemma zslice_suffix {A} (l : list A) b e l1 l2 :
  0 ≤ b → ztake (e - b) (zdrop b l) = l1 ++ l2 →
  ztake (e - (b + zlen l1)) (zdrop (b + zlen l1) l) = l2.
Proof.
  intros Hb Hs. pose proof (zlen_nonneg l1).
  replace (b + zlen l1) with (zlen l1 + b) at 2 by lia.
  rewrite <- zdrop_zdrop by lia.
  replace (e - (b + zlen l1)) with (e - b - zlen l1) by lia.
  rewrite <- zdrop_ztake, Hs, zdrop_app_ge, Z.sub_diag, zdrop_0 by lia. done.
Qed.

Lemma total_len_app cs1 cs2 :
  Segment.total_len (cs1 ++ cs2) = Segment.total_len cs1 + Segment.total_len cs2.
Proof. apply zsum_app. Qed.
Lemma total_len_cons c cs : Segment.total_len (c :: cs) = clen c + Segment.total_len cs.
Proof. done. Qed.

Lemma start_pos_eq seg s c cs :
  0 ≤ begin s → span_chunks seg s = c :: cs → start_pos seg s = pos c + seg_offset s.
Proof.
  intros Hb Hc. unfold start_pos. apply (zslice_index _ _ _ []) in Hc; [|done].
  rewrite zlen_nil, Z.add_0_r in Hc. by rewrite Hc.
Qed.

Lemma span_ok_len seg data s : span_ok seg data s → 0 < len s.
Proof. intros (c & cs & H). tauto. Qed.
Lemma span_ok_bytes_len seg data s :
  span_ok seg data s → zlen (span_bytes seg data s) = len s.
Proof.
  intros (c & cs & Hcs & Hb & He & Hp & Hct & Hso & Hl & Hle & Hoff & Hbd & Hd & Hdb).
  unfold span_bytes. rewrite (start_pos_eq _ _ _ _ Hb Hcs).
  rewrite zlen_ztake, zlen_zdrop by lia. simpl. lia.
Qed.

Lemma span_locate_ok seg data s a :
  span_ok seg data s → soffset s ≤ a ≤ soffset s + slen s →
  ∃ c0 l1 c l2, span_chunks seg s = l1 ++ c :: l2 ∧
    span_chunks seg s = c0 :: tail (span_chunks seg s) ∧
    locate s a seg = Ok (begin s + zlen l1, pos c0 + seg_offset s + (a - soffset s)) ∧
    Segment.index seg (begin s + zlen l1) = Ok c ∧
    pos c = pos c0 + Segment.total_len l1 ∧
    pos c ≤ pos c0 + seg_offset s + (a - soffset s) ≤ pos c + clen c ∧
    (pos c0 + seg_offset s + (a - soffset s) = pos c → l1 = []).
Proof.
  intros (c0 & cs & Hcs & Hb & He & Hp & Hct & Hso & Hl & Hle & Hoff & Hbd & Hd & Hdb) Ha.
  pose proof BOUND_lt. pose proof (contig_total_pos _ _ _ Hct).
  destruct (find_chunk (pos c0) (c0 :: cs) (pos c0 + seg_offset s + (a - soffset s)))
    as (l1 & c & l2 & Hl1 & Hps & Hpos & Hin & Hfst); [done..|lia|lia|].
  exists c0, l1, c, l2. rewrite Hcs, Hl1. split; [done|].
  split; [by rewrite <- Hl1|]. rewrite Hl1 in Hcs.
  assert (Hidx : Segment.index seg (begin s + zlen l1) = Ok c).
  { apply vindex_ok. by eapply zslice_index. }
  split; [|done]. unfold locate, end_offset. cbn [offset len Span_extent].
  res_run. unfold Segment.index_range, vslice.
  rewrite (proj2 (Z.leb_le _ _)), (proj2 (Z.leb_le _ _)) by lia. cbn [andb].
  rewrite bind_ok. unfold offset_in_seg.
  assert (Hi0 : Segment.index seg (begin s) = Ok c0).
  { apply vindex_ok. rewrite <- Hl1 in Hcs. apply (zslice_index _ _ _ []) in Hcs; [|done].
    by rewrite zlen_nil, Z.add_0_r in Hcs. }
  rewrite Hi0. res_run. fold (span_chunks seg s).
  replace (pos c0 + seg_offset s + a - soffset s)
    with (pos c0 + seg_offset s + (a - soffset s)) by lia.
  by rewrite Hcs, <- Hl1, Hps.
Qed.

(** The span of the first [n] bytes, up to the chunk [c] that holds the last of them. *)
Lemma span_ok_prefix seg data s n l1 c l2 :
  span_ok seg data s → span_chunks seg s = l1 ++ c :: l2 → 0 < n ≤ slen s →
  seg_offset s + n ≤ Segment.total_len l1 + clen c →
  let s' := mkSpan (begin s) (begin s + zlen l1 + 1) (seg_offset s) n (soffset s) in
  span_ok seg data s' ∧ span_bytes seg data s' = ztake n (span_bytes seg data s).
Proof.
  intros (c0 & cs & Hcs & Hb & He & Hp & Hct & Hso & Hl & Hle & Hoff & Hbd & Hd & Hdb)
    Hs Hn Hle' s'. rewrite Hcs in Hs.
  destruct (zslice_prefix (Segment.chunks seg) (begin s) (end_ s) l1 c l2)
    as [Hs' He']; [done|lia|lia|by rewrite <- Hs|]. pose proof (zlen_nonneg l1).
  assert (∃ cs', l1 ++ [c] = c0 :: cs' ) as [cs' Hcs'].
  { destruct l1; simplify_eq/=; eauto. }
  replace (c0 :: cs) with ((c0 :: cs') ++ l2) in *
    by (by rewrite <- Hcs', <- app_assoc, Hs).
  apply contig_app in Hct as [Hct Hct2]. pose proof (contig_total_nonneg _ _ Hct2).
  rewrite total_len_app in *.
  assert (Ht : Segment.total_len (c0 :: cs') = Segment.total_len l1 + clen c).
  { rewrite <- Hcs', total_len_app, total_len_cons. unfold Segment.total_len at 2. simpl. lia. }
  assert (Hcs1 : span_chunks seg s' = c0 :: cs') by (by rewrite <- Hcs').
  split.
  - exists c0, cs'. cbn [begin end_ seg_offset slen soffset s'].
    split; [done|]. split_and!; try done; try lia.
  - unfold span_bytes. rewrite (start_pos_eq seg s' _ _ Hb Hcs1), (start_pos_eq seg s _ _ Hb Hcs).
    simpl. rewrite ztake_ztake. f_equal. lia.
Qed.

(** The span from byte [n] on, which the chunk [c] holds. *)
Lemma span_ok_suffix seg data s s' n so c0 l1 c l2 :
  span_ok seg data s → span_chunks seg s = l1 ++ c :: l2 →
  span_chunks seg s = c0 :: tail (span_chunks seg s) →
  0 ≤ n < slen s → 0 ≤ so < clen c →
  seg_offset s + n = Segment.total_len l1 + so →
  begin s' = begin s + zlen l1 → end_ s' = end_ s → seg_offset s' = so →
  slen s' = slen s - n → soffset s' = soffset s + n →
  span_ok seg data s' ∧ span_bytes seg data s' = zdrop n (span_bytes seg data s).
Proof.
  intros (c0' & cs & Hcs & Hb & He & Hp & Hct & Hso & Hl & Hle & Hoff & Hbd & Hd & Hdb)
    Hs Hs0 Hn Hso' Heq Hsb Hse Hsso Hsl Hsf. rewrite Hcs in Hs0. injection Hs0 as ->. rewrite Hcs in Hs.
  rewrite Hs in Hct, Hle, Hd.
  apply contig_app in Hct as [Hct1 Hct]. pose proof (contig_total_nonneg _ _ Hct1).
  rewrite total_len_app in *. pose proof (zlen_nonneg l1).
  assert (Hcs1 : span_chunks seg s' = c :: l2).
  { unfold span_chunks. rewrite Hsb, Hse. apply zslice_suffix; [done|].
    by rewrite <- Hs. }
  pose proof Hct as (Hpc & Hcl & _). assert (Hb' : 0 ≤ begin s') by lia.
  assert (begin s + zlen l1 < end_ s).
  { assert (Hz : zlen (span_chunks seg s) = end_ s - begin s).
    { unfold span_chunks. rewrite zlen_ztake, zlen_zdrop by lia. lia. }
    rewrite Hcs, Hs, zlen_app, zlen_cons in Hz. pose proof (zlen_nonneg l2). lia. }
  split.
  - exists c, l2. rewrite Hpc.
    split; [done|]. split_and!; try done; try lia.
  - unfold span_bytes. rewrite (start_pos_eq seg s' _ _ Hb' Hcs1), (start_pos_eq seg s _ _ Hb Hcs).
    rewrite zdrop_ztake, zdrop_zdrop by lia. do 2 f_equal; lia.
Qed.

Lemma cut_off_span_ok seg data s a :
  span_ok seg data s → soffset s ≤ a ≤ soffset s + slen s →
  ∃ s' r, cut_off_span s a seg = Ok (s', r) ∧
    soffset s' = soffset s ∧ slen s' = a - soffset s ∧
    (0 < slen s' → span_ok seg data s' ∧
      span_bytes seg data s' = ztake (a - soffset s) (span_bytes seg data s)) ∧
    0 ≤ slen r ≤ slen s.
Proof.
  intros Hok Ha. destruct (span_locate_ok _ _ _ _ Hok Ha)
    as (c0 & l1 & c & l2 & Hs & Hs0 & Hloc & Hidx & Hpos & Hin & Hfst).
  pose proof Hok
    as (c0' & cs & Hcs & Hb & He & Hp & Hct & Hso & Hl & Hle & Hoff & Hbd & Hd & Hdb).
  rewrite Hcs in Hs0. injection Hs0 as ->. rewrite Hcs in Hs. rewrite Hs in Hct, Hle, Hd.
  pose proof BOUND_lt. unfold cut_off_span, align_up. rewrite Hloc. res_run.
  rewrite Hidx. res_run. rewrite total_len_app, total_len_cons in *.
  pose proof Hct as Hct'. apply contig_app in Hct' as (Hct1 & Hcp & Hcl & Hct2).
  pose proof (contig_total_nonneg _ _ Hct1). pose proof (contig_total_nonneg _ _ Hct2).
  destruct (_ =? pos c) eqn:Heq; zify_b.
  - rewrite Hfst in * by done. unfold end_offset. cbn [offset len Span_extent].
    assert (a = soffset s) by (simpl in *; lia).
    rewrite bind_ok, u_add_ok, bind_ok, sat_sub by lia. res_run. eexists _, _. split; [done|]. cbn [slen soffset].
    repeat split; lia.
  - unfold end_pos, end_offset. cbn [offset len Span_extent].
    rewrite (u_add_ok (pos c)), bind_ok, (u_add_ok a), bind_ok, u_sub_ok, !bind_ok by lia.
    rewrite u_add_ok, bind_ok, sat_sub by lia. res_run. eexists _, _. split; [done|]. cbn [slen soffset].
    split; [done|]. split; [done|].
    split; [|lia]. intros Hpl.
    apply (span_ok_prefix _ _ _ _ l1 c l2); [done|by rewrite Hcs|lia..].
Qed.

Lemma cut_to_span_ok seg data s a :
  span_ok seg data s → soffset s ≤ a ≤ soffset s + slen s →
  ∃ s' r, cut_to_span s a seg = Ok (s', r) ∧
    soffset s' = a ∧ slen s' = soffset s + slen s - a ∧
    (0 < slen s' → span_ok seg data s' ∧
      span_bytes seg data s' = zdrop (a - soffset s) (span_bytes seg data s)) ∧
    0 ≤ slen r ≤ slen s.
Proof.
  intros Hok Ha. destruct (span_locate_ok _ _ _ _ Hok Ha)
    as (c0 & l1 & c & l2 & Hs & Hs0 & Hloc & Hidx & Hpos & Hin & Hfst).
  pose proof Hok as (c0' & cs & Hcs & Hb & He & Hp & Hct & Hso & Hl & Hle & Hoff & Hbd & Hd & Hdb).
  rewrite Hcs in Hs0. injection Hs0 as ->. pose proof Hs as Hs'.
  rewrite Hcs in Hs. rewrite Hs in Hct, Hle, Hd.
  pose proof BOUND_lt. unfold cut_to_span, align_down. rewrite Hloc. res_run.
  rewrite Hidx. res_run. rewrite total_len_app, total_len_cons in *.
  pose proof Hct as Hct'. apply contig_app in Hct' as (Hct1 & Hcp & Hcl & Hct2).
  pose proof (contig_total_nonneg _ _ Hct1). pose proof (contig_total_nonneg _ _ Hct2).
  unfold end_pos. rewrite u_add_ok, bind_ok by lia.
  destruct (_ =? pos c + clen c) eqn:Heq; zify_b.
  - rewrite !bind_ok, (u_sub_ok a a), bind_ok, (u_sub_ok (slen s)), bind_ok by lia.
    rewrite sat_sub, bind_ok. eexists _, _. split; [done|]. cbn [slen soffset].
    split; [done|]. split; [lia|]. split; [|lia]. intros Hpl.
    destruct l2 as [|c2 l2].
    { unfold Segment.total_len in *. simpl in *. lia. }
    apply (span_ok_suffix _ _ s _ (a - soffset s) 0 c0 (l1 ++ [c]) c2 l2);
      cbn [begin end_ seg_offset slen soffset]; rewrite ?zlen_app, ?total_len_app, ?zlen_cons,
      ?zlen_nil; try done; try lia; [by rewrite <- app_assoc|by rewrite Hcs| |].
    + destruct Hct2 as (_ & ? & _). lia.
    + rewrite total_len_cons. unfold Segment.total_len at 2. simpl. lia.
  - rewrite (u_sub_ok (a + pos c)), !bind_ok by lia.
    rewrite (u_sub_ok a), bind_ok, (u_sub_ok (slen s)), bind_ok by lia.
    rewrite sat_sub, bind_ok. eexists _, _. split; [done|]. cbn [slen soffset].
    split; [done|]. split; [lia|]. split; [|lia]. intros Hpl.
    apply (span_ok_suffix _ _ s _ (a - soffset s)
      (pos c0 + seg_offset s + (a - soffset s) - pos c) c0 l1 c l2);
      cbn [begin end_ seg_offset slen soffset]; try done; try lia. by rewrite Hcs.
Qed.
End Span.

(** [seek] moves an extent; [std::io::SeekFrom]. *)
Inductive SeekFrom := Start (pos : Z) | SeekEnd (pos : Z) | Current (pos : Z).

(** Sums of an offset and a delta are done in [i64] and cast back to [usize]. *)
Definition wrap (x : Z) : Z := x mod U64.

(** ** Entries: the spans of one segment *)

Module Entry.
Import Span.
Record Entry := mkEntry { seg_id : Eid; elen : Z; eoffset : Z; spans : list Span }.

Definition new (id : Eid) (offset : Z) : Entry := mkEntry id 0 offset [].

Definition append (e : Entry) (span : Span) : res Entry :=
  match last (spans e) with
  | Some l =>
      if (end_ l =? begin span) && (seg_offset span =? 0) then
        l ← merge_up l span;
        n ← u_add (elen e) (slen span);
        Ok (mkEntry (seg_id e) n (eoffset e) (removelast (spans e) ++ [l]))
      else
        n ← u_add (elen e) (slen span);
        Ok (mkEntry (seg_id e) n (eoffset e) (spans e ++ [span]))
  | None =>
      n ← u_add (elen e) (slen span);
      Ok (mkEntry (seg_id e) n (eoffset e) (spans e ++ [span]))
  end.

#[global] Instance Entry_extent : Extent Entry := {|
  offset := eoffset;
  set_offset e o := mkEntry (seg_id e) (elen e) o (spans e);
  len := elen;
  set_len e n := mkEntry (seg_id e) n (eoffset e) (spans e)
|}.
#[global] Instance Entry_list : CutableList Entry Span := {|
  items := spans;
  set_items e l := mkEntry (seg_id e) (elen e) (eoffset e) l
|}.
#[global] Instance Entry_cutable : Cutable Entry := {|
  cut_off := split_off;
  cut_to := split_to
|}.

#[global] Instance Entry_extent_laws : ExtentLaws Entry.
Proof. by split. Qed.
#[global] Instance Entry_list_laws : CutableListLaws Entry Span.
Proof. by split. Qed.

(** [Seek for Entry]: the delta the spans move by is a wrapped [i64]. *)
Definition seek (e : Entry) (p : SeekFrom) : res Entry :=
  '(delta, o) ←
    match p with
    | Start pos => Ok (pos - eoffset e, pos)
    | SeekEnd pos => x ← end_offset e; let o := wrap (x + pos) in Ok (eoffset e - o, o)
    | Current pos => Ok (pos, wrap (eoffset e + pos))
    end;
  Ok (mkEntry (seg_id e) (elen e) o ((λ s, seek_current s delta) <$> spans e)).

Lemma split_off_seg_id e a seg e' r : split_off e a seg = Ok (e', r) → seg_id e' = seg_id e.
Proof.
  unfold split_off. intros H. repeat (res_inv_one H; repeat case_match); by simplify_eq.
Qed.
Lemma split_to_seg_id e a seg e' r : split_to e a seg = Ok (e', r) → seg_id e' = seg_id e.
Proof.
  unfold split_to. intros H. repeat (res_inv_one H; repeat case_match); by simplify_eq.
Qed.
End Entry.

(** What the entry list asks of the content store (src/content/store.rs): the segment of an
    id ([get_seg]) and the data of a segment ([get_segdata]). *)
Class SegStore (S : Type) := {
  get_seg : S → Eid → res Segment.Segment;
  get_segdata : S → Eid → res (list byte)
}.
#[export] Hint Mode SegStore ! : typeclass_instances.

(** ** Entry lists: the body of a content *)

Module EntryList.
Import Entry.
Record EntryList := mkEntryList { llen : Z; loffset : Z; ents : list Entry }.

Definition new : EntryList := mkEntryList 0 0 [].

#[global] Instance EntryList_extent : Extent EntryList := {|
  offset := loffset;
  set_offset l o := mkEntryList (llen l) o (ents l);
  len := llen;
  set_len l n := mkEntryList n (loffset l) (ents l)
|}.
#[global] Instance EntryList_list : CutableList EntryList Entry := {|
  items := ents;
  set_items l es := mkEntryList (llen l) (loffset l) es
|}.
#[global] Instance EntryList_extent_laws : ExtentLaws EntryList.
Proof. by split. Qed.
#[global] Instance EntryList_list_laws : CutableListLaws EntryList Entry.
Proof. by split. Qed.

Definition append (l : EntryList) (id : Eid) (span : Span.Span) : res EntryList :=
  match last (ents l) with
  | Some le =>
      if id =? seg_id le then
        le ← Entry.append le span;
        n ← u_add (llen l) (Span.slen span);
        Ok (mkEntryList n (loffset l) (removelast (ents l) ++ [le]))
      else
        o ← end_offset l;
        e ← Entry.append (Entry.new id o) span;
        n ← u_add (llen l) (Span.slen span);
        Ok (mkEntryList n (loffset l) (ents l ++ [e]))
  | None =>
      o ← end_offset l;
      e ← Entry.append (Entry.new id o) span;
      n ← u_add (llen l) (Span.slen span);
      Ok (mkEntryList n (loffset l) (ents l ++ [e]))
  end.

Definition join (l other : EntryList) : res EntryList :=
  e ← end_offset l;
  _ ← rassert (e =? loffset other);
  n ← u_add (llen l) (llen other);
  Ok (mkEntryList n (loffset l) (ents l ++ ents other)).

Definition seek (l : EntryList) (p : SeekFrom) : res EntryList :=
  '(delta, o) ←
    match p with
    | Start pos => Ok (pos - loffset l, pos)
    | SeekEnd pos => x ← end_offset l; let o := wrap (x + pos) in Ok (loffset l - o, o)
    | Current pos => Ok (pos, wrap (loffset l + pos))
    end;
  es ← foldM (λ es e, e ← Entry.seek e (Current delta); Ok (es ++ [e])) [] (ents l);
  Ok (mkEntryList (llen l) o es).

(** The consistency the unit tests assert. *)
Definition check_spans (o : Z) (ss : list Span.Span) : res (Z * Z) :=
  foldM (λ '(n, o) s,
    _ ← rassert (negb (is_empty s));
    n ← u_add n (Span.slen s);
    _ ← rassert (Span.soffset s =? o);
    o ← u_add o (Span.slen s); Ok (n, o)) (0, o) ss.
Definition check (l : EntryList) : res unit :=
  '(n, _) ← foldM (λ '(n, o) e,
    _ ← rassert (negb (is_empty e));
    n ← u_add n (elen e);
    _ ← rassert (eoffset e =? o);
    o ← u_add o (elen e);
    '(sn, _) ← check_spans (eoffset e) (spans e);
    _ ← rassert (sn =? elen e);
    Ok (n, o)) (0, loffset l) (ents l);
  rassert (n =? llen l).

Section store.
Context {S : Type} `{!SegStore S}.
Implicit Types (st : S) (l : EntryList).

(** Returns the list, and the head and tail [other] left. *)
Definition write_with (l other : EntryList) (st : S)
    : res (EntryList * (EntryList * EntryList)) :=
  let at_ := loffset other in
  end_at ← end_offset other;
  e ← end_offset l;
  _ ← rassert ((loffset l <=? at_) && (at_ <=? e));
  let tail := if end_at <? e then l else new in
  l ← (if at_ <? e then
         pos ← locate l at_;
         ent ← vindex (ents l) pos;
         seg ← get_seg st (seg_id ent);
         '(l, _) ← split_off l at_ seg; Ok l
       else Ok l);
  let head := l in
  l ← join l other;
  te ← end_offset tail;
  if end_at <? te then
    pos ← locate tail end_at;
    ent ← vindex (ents tail) pos;
    seg ← get_seg st (seg_id ent);
    '(tail, _) ← split_to tail end_at seg;
    l ← join l tail;
    Ok (l, (head, tail))
  else Ok (l, (head, tail)).

(** *** Meaning and well-formedness *)

Definition entry_ok st (e : Entry) : Prop :=
  ∃ seg data, get_seg st (seg_id e) = Ok seg ∧
    get_segdata st (Segment.data_id seg) = Ok data ∧
    list_ok (Span.span_ok seg data) e ∧ 0 < elen e.

Definition entry_bytes st (e : Entry) : list byte :=
  match get_seg st (seg_id e) with
  | Ok seg =>
      match get_segdata st (Segment.data_id seg) with
      | Ok data => list_bytes (Span.span_bytes seg data) (spans e)
      | _ => []
      end
  | _ => []
  end.

Definition ok st l : Prop := list_ok (entry_ok st) l.
(** The bytes of the content. *)
Definition bytes st l : list byte := list_bytes (entry_bytes st) (ents l).

Lemma entry_bytes_eq st e seg data :
  get_seg st (seg_id e) = Ok seg → get_segdata st (Segment.data_id seg) = Ok data →
  entry_bytes st e = list_bytes (Span.span_bytes seg data) (spans e).
Proof. unfold entry_bytes. by intros -> ->. Qed.

Lemma entry_ok_len st e : entry_ok st e → 0 < len e.
Proof. by intros (? & ? & _ & _ & _ & ?). Qed.
Lemma entry_bytes_len st e : entry_ok st e → zlen (entry_bytes st e) = len e.
Proof.
  intros (seg & data & Hs & Hd & (Hc & Hl & _) & _).
  rewrite (entry_bytes_eq _ _ _ _ Hs Hd), Hl.
  by apply (list_bytes_len (Span.span_ok seg data) (Span.span_bytes seg data)
    (Span.span_ok_bytes_len seg data) _ _ Hc).
Qed.

Lemma spans_nonempty st e : entry_ok st e → items e ≠ [].
Proof.
  intros (seg & data & _ & _ & (_ & Hl & _) & Hn) Hnil. rewrite Hnil in Hl.
  simpl in Hl. lia.
Qed.

Lemma entry_cut_off_ok st seg e a :
  entry_ok st e → get_seg st (seg_id e) = Ok seg → offset e ≤ a ≤ offset e + len e →
  0 ≤ offset e → offset e + len e < BOUND →
  ∃ e' r, cut_off e a seg = Ok (e', r) ∧ offset e' = offset e ∧ len e' = a - offset e ∧
    (0 < len e' → entry_ok st e' ∧
      entry_bytes st e' = ztake (a - offset e) (entry_bytes st e)) ∧ 0 ≤ len r ≤ len e.
Proof.
  intros Hok Hs Ha _ _. pose proof (spans_nonempty _ _ Hok) as Hne.
  destruct Hok as (seg' & data & Hs' & Hd & Hl & Hn).
  rewrite Hs in Hs'. injection Hs' as <-.
  destruct (split_off_ok (Span.span_ok seg data) (Span.span_bytes seg data) (λ seg' _, seg' = seg)
    (Span.span_ok_len seg data) (Span.span_ok_bytes_len seg data)
    ltac:(by intros ? s b ? -> ? _ _; apply Span.cut_off_span_ok) seg e a Hl Hne Ha)
    as (e' & r & Hcut & Hl' & Ho' & Hn' & Hb' & Hr); [done|].
  pose proof (split_off_seg_id _ _ _ _ _ Hcut) as Hid.
  exists e', r. split_and!; try done; try lia. intros Hpos.
  assert (Hs2 : get_seg st (seg_id e') = Ok seg) by by rewrite Hid.
  split; [by exists seg, data|].
  by rewrite !(entry_bytes_eq _ _ seg data).
Qed.

Lemma entry_cut_to_ok st seg e a :
  entry_ok st e → get_seg st (seg_id e) = Ok seg → offset e ≤ a ≤ offset e + len e →
  0 ≤ offset e → offset e + len e < BOUND →
  ∃ e' r, cut_to e a seg = Ok (e', r) ∧ offset e' = a ∧ len e' = offset e + len e - a ∧
    (0 < len e' → entry_ok st e' ∧
      entry_bytes st e' = zdrop (a - offset e) (entry_bytes st e)) ∧ 0 ≤ len r ≤ len e.
Proof.
  intros Hok Hs Ha _ _. pose proof (spans_nonempty _ _ Hok) as Hne.
  destruct Hok as (seg' & data & Hs' & Hd & Hl & Hn).
  rewrite Hs in Hs'. injection Hs' as <-.
  destruct (split_to_ok (Span.span_ok seg data) (Span.span_bytes seg data) (λ seg' _, seg' = seg)
    (Span.span_ok_len seg data) (Span.span_ok_bytes_len seg data)
    ltac:(by intros ? s b ? -> ? _ _; apply Span.cut_to_span_ok) seg e a Hl Hne Ha)
    as (e' & r & Hcut & Hl' & Ho' & Hn' & Hb' & Hr); [done|].
  pose proof (split_to_seg_id _ _ _ _ _ Hcut) as Hid.
  exists e', r. split_and!; try done; try lia. intros Hpos.
  assert (Hs2 : get_seg st (seg_id e') = Ok seg) by by rewrite Hid.
  split; [by exists seg, data|].
  by rewrite !(entry_bytes_eq _ _ seg data).
Qed.

Lemma locate_seg st l a :
  ok st l → 0 < llen l → loffset l ≤ a ≤ loffset l + llen l →
  ∃ n e seg, locate l a = Ok n ∧ vindex (ents l) n = Ok e ∧
    get_seg st (seg_id e) = Ok seg ∧
    (∀ i, located a l i → get_seg st (seg_id i) = Ok seg).
Proof.
  intros Hok Hn Ha. assert (Hne : items l ≠ []).
  { intros Hnil. destruct Hok as (_ & Hl & _). rewrite Hnil in Hl. simpl in Hl. lia. }
  destruct (locate_ok (entry_ok st) (entry_ok_len st) l a Hok Hne Ha)
    as (l1 & e & l2 & Hit & Hloc & _).
  destruct Hok as (Hc & _). rewrite Hit in Hc.
  apply chain_app in Hc as (_ & _ & (seg & data & Hs & _) & _).
  change (ents l) with (items l). exists (zlen l1), e, seg.
  rewrite Hit, vindex_middle. split_and!; try done.
  intros i (n & Hloc' & Hi). rewrite Hloc in Hloc'. injection Hloc' as <-.
  rewrite Hit, zget_middle in Hi. by injection Hi as <-.
Qed.

Lemma join_ok st l o :
  ok st l → ok st o → loffset o = loffset l + llen l →
  ∃ l', join l o = Ok l' ∧ ok st l' ∧ loffset l' = loffset l ∧
    llen l' = llen l + llen o ∧ bytes st l' = bytes st l ++ bytes st o.
Proof.
  intros (Hc & Hl & Ho & Hb) (Hc' & Hl' & Ho' & Hb') Heq. simpl in *.
  pose proof (chain_nonneg _ (entry_ok_len st) _ _ Hc).
  pose proof (chain_nonneg _ (entry_ok_len st) _ _ Hc').
  pose proof BOUND_lt. unfold join, end_offset. simpl. res_run.
  eexists. split; [done|]. simpl. split; [|split; [done|split; [done|]]].
  - unfold ok, list_ok. simpl. rewrite chain_app, total_app. split_and!; try done; try lia.
    by replace (loffset l + total (ents l)) with (loffset o) by lia.
  - apply list_bytes_app.
Qed.

Lemma bytes_len st l : ok st l → zlen (bytes st l) = llen l.
Proof.
  intros (Hc & Hl & _). simpl in Hl. rewrite Hl.
  by apply (list_bytes_len (entry_ok st) (entry_bytes st) (entry_bytes_len st) _ _ Hc).
Qed.

Lemma split_off_at st l a :
  ok st l → 0 < llen l → loffset l ≤ a ≤ loffset l + llen l →
  ∃ n e seg l' r, locate l a = Ok n ∧ vindex (ents l) n = Ok e ∧
    get_seg st (seg_id e) = Ok seg ∧ split_off l a seg = Ok (l', r) ∧ ok st l' ∧
    loffset l' = loffset l ∧ llen l' = a - loffset l ∧
    bytes st l' = ztake (a - loffset l) (bytes st l).
Proof.
  intros Hok Hn Ha. destruct (locate_seg _ _ _ Hok Hn Ha) as (n & e & seg & Hl & Hv & Hs & Hloc).
  destruct (split_off_ok (entry_ok st) (entry_bytes st)
    (λ seg e, get_seg st (seg_id e) = Ok seg) (entry_ok_len st) (entry_bytes_len st)
    (entry_cut_off_ok st) seg l a Hok) as (l' & r & Hcut & Hl' & Ho' & Hn' & Hb' & Hr);
    [|done..|].
  { intros Hnil. destruct Hok as (_ & Hl' & _). rewrite Hnil in Hl'. simpl in Hl'. lia. }
  by exists n, e, seg, l', r.
Qed.

Lemma split_to_at st l a :
  ok st l → 0 < llen l → loffset l ≤ a ≤ loffset l + llen l →
  ∃ n e seg l' r, locate l a = Ok n ∧ vindex (ents l) n = Ok e ∧
    get_seg st (seg_id e) = Ok seg ∧ split_to l a seg = Ok (l', r) ∧ ok st l' ∧
    loffset l' = a ∧ llen l' = loffset l + llen l - a ∧
    bytes st l' = zdrop (a - loffset l) (bytes st l).
Proof.
  intros Hok Hn Ha. destruct (locate_seg _ _ _ Hok Hn Ha) as (n & e & seg & Hl & Hv & Hs & Hloc).
  destruct (split_to_ok (entry_ok st) (entry_bytes st)
    (λ seg e, get_seg st (seg_id e) = Ok seg) (entry_ok_len st) (entry_bytes_len st)
    (entry_cut_to_ok st) seg l a Hok) as (l' & r & Hcut & Hl' & Ho' & Hn' & Hb' & Hr);
    [|done..|].
  { intros Hnil. destruct Hok as (_ & Hl' & _). rewrite Hnil in Hl'. simpl in Hl'. lia. }
  by exists n, e, seg, l', r.
Qed.

Lemma write_with_ok st l o :
  ok st l → ok st o → loffset l ≤ loffset o ≤ loffset l + llen l →
  ∃ l' hd tl, write_with l o st = Ok (l', (hd, tl)) ∧ ok st l' ∧
    loffset l' = loffset l ∧
    llen l' = Z.max (llen l) (loffset o - loffset l + llen o) ∧
    bytes st l' = overwrite (bytes st l) (loffset o - loffset l) (bytes st o).
Proof.
  intros Hok Hoko Ha. pose proof (bytes_len _ _ Hok) as Hbl.
  pose proof (bytes_len _ _ Hoko) as Hbo. pose proof (zlen_nonneg (bytes st o)).
  pose proof (zlen_nonneg (bytes st l)). pose proof BOUND_lt.
  pose proof Hok as (_ & _ & Hlo & Hlb). pose proof Hoko as (_ & _ & Hoo & Hob).
  simpl in Hlo, Hlb, Hoo, Hob. unfold write_with.
  rewrite (end_offset_ok o), (end_offset_ok l), !bind_ok by (simpl; lia).
  cbv zeta. simpl offset; simpl len.
  rewrite rassert_ok, bind_ok by (rewrite andb_true_iff, !Z.leb_le; lia).
  unfold overwrite. rewrite Hbo. set (at_ := loffset o) in *.
  set (end_at := at_ + llen o) in *.
  (* the cut in front of [other] *)
  assert (∃ l1, (if at_ <? loffset l + llen l then
         pos ← locate l at_; ent ← vindex (ents l) pos; seg ← get_seg st (seg_id ent);
         '(l, _) ← split_off l at_ seg; Ok l else Ok l) = Ok l1 ∧ ok st l1 ∧
         loffset l1 = loffset l ∧ llen l1 = at_ - loffset l ∧
         bytes st l1 = ztake (at_ - loffset l) (bytes st l))
    as (l1 & -> & Hok1 & Ho1 & Hl1 & Hb1).
  { destruct (at_ <? loffset l + llen l) eqn:Hlt; zify_b.
    - destruct (split_off_at st l at_ Hok) as (n & e & seg & l1 & r & -> & He & Hs & Hc & ?);
        [lia|lia|]. rewrite bind_ok, He, bind_ok, Hs, bind_ok, Hc, bind_ok. by exists l1.
    - exists l. rewrite ztake_ge by lia. split_and!; done || lia. }
  rewrite bind_ok. destruct (join_ok st l1 o Hok1 Hoko) as (l2 & -> & Hok2 & Ho2 & Hl2 & Hb2);
    [unfold at_ in *; lia|].
  rewrite bind_ok. destruct (end_at <? loffset l + llen l) eqn:Hlt; zify_b.
  - rewrite end_offset_ok, bind_ok by (simpl; lia). simpl offset; simpl len.
    rewrite (proj2 (Z.ltb_lt _ _)) by lia.
    destruct (split_to_at st l end_at Hok) as (n & e & seg & t & r & -> & He & Hs & Hc &
      Hokt & Hot & Hlt' & Hbt); [lia|lia|].
    rewrite bind_ok, He, bind_ok, Hs, bind_ok, Hc, bind_ok.
    destruct (join_ok st l2 t Hok2 Hokt) as (l3 & -> & Hok3 & Ho3 & Hl3 & Hb3);
      [unfold end_at in *; lia|].
    rewrite bind_ok. eexists _, _, _. split; [done|]. split_and!; try done; try lia.
    rewrite Hb3, Hb2, Hb1, Hbt, <- app_assoc. do 3 f_equal. unfold end_at. lia.
  - change (end_offset new) with (Ok 0). rewrite bind_ok.
    rewrite (proj2 (Z.ltb_ge _ _)) by lia.
    eexists _, _, _. split; [done|]. split_and!; try done; try lia.
    rewrite Hb2, Hb1, zdrop_ge by lia. by rewrite app_nil_r.
Qed.
End store.
End EntryList.
