(* ===== verification/ChunkMap.v ===== *)
(** * src/content/chunk.rs, second half: the chunk map of a file.

    The map finds, by its hash, a chunk the file has already stored. Segment ids are kept in a
    side vector and entries hold an index in it. *)
From S2P Require Import Prelude Base Segment.

Module ChunkMap.
Record ChunkLoc := mkChunkLoc { seg_id : Eid; idx : Z }.
Record ChunkIdx := mkChunkIdx { seg_idx : Z; chk_idx : Z }.

Section chunk_map.
(** [M] is the crate's map from hashes to [ChunkIdx]. *)
Context {Hash M : Type} `{!EqDecision Hash, !LinkedMapOps Hash ChunkIdx M}.

Record ChunkMap := mkChunkMap { seg_ids : list Eid; map : M; is_enabled : bool }.

Definition INDEX_MAP_CAPACITY : Z := 256.

Definition new (enabled : bool) : ChunkMap := mkChunkMap [] lm_new enabled.

Definition get_refresh (c : ChunkMap) (hash : Hash) : res (option ChunkLoc * ChunkMap) :=
  if negb (is_enabled c) then Ok (None, c)
  else
    let '(o, m) := lm_get_refresh hash (map c) in
    let c' := mkChunkMap (seg_ids c) m (is_enabled c) in
    match o with
    | Some ci =>
        id ← vindex (seg_ids c) (seg_idx ci);
        Ok (Some (mkChunkLoc id (chk_idx ci)), c')
    | None => Ok (None, c')
    end.

Definition insert (c : ChunkMap) (hash : Hash) (id : Eid) (chk : Z) : ChunkMap :=
  if negb (is_enabled c) then c
  else
    let '(i, ids) :=
      match position (λ s, s =? id) (seg_ids c) with
      | Some i => (i, seg_ids c)
      | None => (zlen (seg_ids c ++ [id]) - 1, seg_ids c ++ [id])
      end in
    let '(_, m) := lm_insert hash (mkChunkIdx i chk) (map c) in
    let m := if INDEX_MAP_CAPACITY <=? zlen (lm_entries m) then lm_pop_front m else m in
    mkChunkMap ids m (is_enabled c).

Definition retain (c : ChunkMap) (f : Hash → ChunkIdx → bool) : ChunkMap :=
  mkChunkMap (seg_ids c) (lm_retain f (map c)) (is_enabled c).

Definition remove_chunks (c : ChunkMap) (id : Eid) (chk_indices : list Z) : ChunkMap :=
  if negb (is_enabled c) then c
  else
    match position (λ s, s =? id) (seg_ids c) with
    | Some i =>
        retain c (λ _ v, negb (seg_idx v =? i) || negb (existsb (Z.eqb (chk_idx v)) chk_indices))
    | None => c
    end.

Definition remove_segment (c : ChunkMap) (id : Eid) : ChunkMap :=
  if negb (is_enabled c) then c
  else
    match position (λ s, s =? id) (seg_ids c) with
    | Some i => retain c (λ _ v, negb (seg_idx v =? i))
    | None => c
    end.

(** *** The map it stands for *)

Context `{!LinkedMap Hash ChunkIdx M}.

(** Where a chunk with this hash is found. *)
Definition lookup (c : ChunkMap) (hash : Hash) : option (Eid * Z) :=
  if is_enabled c then
    ci ← lm_get hash (map c); id ← zget (seg_ids c) (seg_idx ci); Some (id, chk_idx ci)
  else None.

Definition ok (c : ChunkMap) : Prop :=
  NoDup (seg_ids c) ∧ zlen (lm_entries (map c)) < INDEX_MAP_CAPACITY ∧
  ∀ h ci, lm_get h (map c) = Some ci → 0 ≤ seg_idx ci < zlen (seg_ids c).

Lemma lookup_on c h :
  is_enabled c = true →
  lookup c h = (ci ← lm_get h (map c); id ← zget (seg_ids c) (seg_idx ci); Some (id, chk_idx ci)).
Proof. unfold lookup. by intros ->. Qed.

Lemma position_id ids (id : Eid) i :
  position (λ s, s =? id) ids = Some i → zget ids i = Some id.
Proof. intros (x & Hx & Heq & _)%position_Some. zify_b. by subst. Qed.
Lemma position_None ids (id : Eid) : position (λ s, s =? id) ids = None → id ∉ ids.
Proof.
  intros Hp Hin. destruct (position_exists (λ s, s =? id) ids) as [i Hi]; [|congruence].
  exists id. by rewrite Z.eqb_refl.
Qed.
Lemma zget_nodup_eq (ids : list Eid) i j id :
  NoDup ids → zget ids i = Some id → zget ids j = Some id → i = j.
Proof.
  intros Hnd [? Hi]%zget_Some [? Hj]%zget_Some.
  pose proof (NoDup_lookup _ _ _ _ Hnd Hi Hj). lia.
Qed.

Lemma cm_new_ok b : ok (new b).
Proof.
  split; [constructor|]. unfold new; simpl. rewrite lm_entries_new.
  split; [done|]. intros h ci. by rewrite lm_get_new.
Qed.

Lemma cm_get_refresh_ok c h :
  ok c → ∃ c', get_refresh c h = Ok ((λ '(id, i), mkChunkLoc id i) <$> lookup c h, c') ∧
    ok c' ∧ ∀ h', lookup c' h' = lookup c h'.
Proof.
  intros (Hnd & Hsz & Hix). unfold get_refresh, lookup.
  destruct (is_enabled c) eqn:He; simpl; [|exists c; by rewrite He].
  destruct (lm_get_refresh h (map c)) as [o m] eqn:Hr.
  pose proof (lm_get_refresh_val h (map c)) as Hv. rewrite Hr in Hv. simpl in Hv.
  pose proof (λ h', lm_get_get_refresh h' h (map c)) as Hg. rewrite Hr in Hg. simpl in Hg.
  pose proof (lm_entries_get_refresh h (map c)) as Hm. rewrite Hr in Hm. simpl in Hm.
  assert (Hok : ok (mkChunkMap (seg_ids c) m true)).
  { split; [done|]. simpl. split; [|intros h' ci; rewrite Hg; apply Hix].
    rewrite Hm. destruct (assoc h (lm_entries (map c))) as [v|] eqn:Ha; [|done].
    rewrite zlen_app, length_assoc_del, Ha by apply lm_entries_nodup.
    change (zlen [(h, v)]) with 1. lia. }
  unfold lm_get at 1. rewrite <- Hv. destruct o as [ci|]; simpl.
  - destruct (zget_is_Some (seg_ids c) (seg_idx ci)) as [id Hid]; [by eapply Hix|].
    rewrite (vindex_ok _ _ _ Hid), bind_ok, Hid. eexists. split; [done|].
    split; [done|]. intros h'. simpl. by rewrite Hg.
  - eexists. split; [done|]. split; [done|]. intros h'. simpl. by rewrite Hg.
Qed.

Lemma lm_get_pop_front (h : Hash) (m : M) :
  lm_get h (lm_pop_front m) = match lm_entries m with
    | (k, _) :: _ => if decide (h = k) then None else lm_get h m
    | [] => None end.
Proof.
  unfold lm_get. rewrite lm_entries_pop_front. pose proof (lm_entries_nodup m) as Hnd.
  destruct (lm_entries m) as [|[k v] l]; [done|]. simpl in *.
  apply list.NoDup_cons in Hnd as [Hni _]. destruct (decide (h = k)) as [->|]; [|done].
  by apply assoc_None.
Qed.

Lemma cm_insert_ok c h id i :
  ok c → is_enabled c = true →
  ok (insert c h id i) ∧ lookup (insert c h id i) h = Some (id, i) ∧
  ∀ h', h' ≠ h → lookup (insert c h id i) h' = lookup c h' ∨
    lookup (insert c h id i) h' = None ∧
    INDEX_MAP_CAPACITY - 1 ≤ zlen (lm_entries (map c)) ∧
    ∃ v l, lm_entries (map c) = (h', v) :: l.
Proof.
  intros (Hnd & Hsz & Hix) He. unfold insert. rewrite He. cbn [negb].
  set (p := match position _ _ with Some _ => _ | None => _ end).
  assert (Hp : zget p.2 p.1 = Some id ∧ NoDup p.2 ∧ zlen (seg_ids c) ≤ zlen p.2 ∧
    ∀ j, 0 ≤ j < zlen (seg_ids c) → zget p.2 j = zget (seg_ids c) j).
  { unfold p. destruct (position _ _) as [j|] eqn:Hpos; simpl.
    - apply position_id in Hpos. split_and!; try done; lia.
    - apply position_None in Hpos. rewrite zlen_app. change (zlen [id]) with 1.
      split; [replace (zlen (seg_ids c) + 1 - 1) with (zlen (seg_ids c)) by lia;
        apply zget_middle|].
      split; [|split; [lia|intros j Hj; apply zget_app_l; lia]].
      apply NoDup_app. split; [done|]. split; [|apply NoDup_singleton].
      intros x Hx ->%list_elem_of_singleton. done. }
  destruct p as [n ids]; simpl in Hp. destruct Hp as (Hn & Hnd' & Hle & Hids).
  pose proof (zget_lt _ _ _ Hn) as Hn'.
  destruct (lm_insert h (mkChunkIdx n i) (map c)) as [o m] eqn:Hm.
  pose proof (λ h', lm_get_insert h' h (mkChunkIdx n i) (map c)) as Hg. rewrite Hm in Hg.
  pose proof (lm_entries_insert h (mkChunkIdx n i) (map c)) as Hen. rewrite Hm in Hen.
  simpl in Hg, Hen.
  assert (Hlen : zlen (lm_entries m) = zlen (lm_entries (map c)) + 1 -
    match assoc h (lm_entries (map c)) with Some _ => 1 | None => 0 end).
  { rewrite Hen, zlen_app, length_assoc_del by apply lm_entries_nodup.
    change (zlen [(h, mkChunkIdx n i)]) with 1. lia. }
  set (m' := if INDEX_MAP_CAPACITY <=? _ then _ else m).
  assert (Hm' : zlen (lm_entries m') < INDEX_MAP_CAPACITY ∧
    lm_get h m' = Some (mkChunkIdx n i) ∧
    ∀ h', h' ≠ h → lm_get h' m' = lm_get h' (map c) ∨
      lm_get h' m' = None ∧ INDEX_MAP_CAPACITY - 1 ≤ zlen (lm_entries (map c)) ∧
      ∃ v l, lm_entries (map c) = (h', v) :: l).
  { unfold m'. destruct (INDEX_MAP_CAPACITY <=? zlen (lm_entries m)) eqn:Hc; zify_b.
    - unfold INDEX_MAP_CAPACITY in *.
      destruct (assoc h (lm_entries (map c))) as [v|] eqn:Ha; [lia|].
      rewrite assoc_del_id in Hen by done.
      rewrite lm_entries_pop_front, Hen.
      destruct (lm_entries (map c)) as [|[k v] l] eqn:Hl.
      { change (zlen (@nil (Hash * ChunkIdx))) with 0 in *. lia. }
      simpl. rewrite zlen_cons in Hlen, Hsz. rewrite Hen in Hlen, Hc. simpl in Hlen, Hc.
      rewrite zlen_cons in Hlen, Hc.
      split; [lia|].
      split.
      + rewrite lm_get_pop_front, Hen. simpl. rewrite decide_False, Hg by
          (intros ->; simpl in Ha; by rewrite decide_True in Ha).
        by rewrite decide_True.
      + intros h' Hh'. rewrite lm_get_pop_front, Hen. simpl.
        destruct (decide (h' = k)) as [->|]; [right; split; [done|]; split; [rewrite zlen_cons; lia|by eauto]|].
        left. rewrite Hg. by rewrite decide_False.
    - split; [done|]. split; [by rewrite Hg, decide_True|].
      intros h' Hh'. left. by rewrite Hg, decide_False. }
  clearbody m'. destruct Hm' as (Hsz' & Hgh & Hgo).
  split; [split; [done|]; split; [done|]|].
  - simpl. intros h' ci Hci. destruct (decide (h' = h)) as [->|Hne].
    { rewrite Hgh in Hci. injection Hci as <-. done. }
    destruct (Hgo h' Hne) as [Heq|[Heq _]]; rewrite Heq in Hci; [|done].
    apply Hix in Hci. lia.
  - rewrite lookup_on by done. simpl. rewrite Hgh. simpl. rewrite Hn. split; [done|].
    intros h' Hne. rewrite !lookup_on by done. simpl.
    destruct (Hgo h' Hne) as [Heq|(Heq & ?)]; rewrite Heq; [left|right; done].
    destruct (lm_get h' (map c)) as [ci|] eqn:Hci; [|done]. simpl.
    by rewrite Hids by by eapply Hix.
Qed.

Lemma lm_get_retain f (h : Hash) (m : M) :
  lm_get h (lm_retain f m) = (v ← lm_get h m; if f h v then Some v else None).
Proof.
  destruct (lm_get h (lm_retain f m)) as [v|] eqn:H1.
  - apply lm_get_elem in H1. rewrite lm_entries_retain in H1.
    apply list_elem_of_filter in H1 as [Hf H1%lm_get_elem]. simpl in Hf. rewrite H1. simpl.
    by rewrite Hf.
  - destruct (lm_get h m) as [v|] eqn:H2; [|done]. simpl. destruct (f h v) eqn:Hf; [|done].
    exfalso. apply lm_get_elem in H2.
    assert (Hin : (h, v) ∈ lm_entries (lm_retain f m)).
    { rewrite lm_entries_retain. by apply list_elem_of_filter. }
    apply lm_get_elem in Hin. congruence.
Qed.

Lemma retain_ok c f : ok c → ok (retain c f).
Proof.
  intros (Hnd & Hsz & Hix). split; [done|]. split.
  - simpl. rewrite lm_entries_retain. eapply Z.le_lt_trans; [|done].
    unfold zlen. pose proof (length_filter (λ kv, f kv.1 kv.2 = true) (lm_entries (map c))). lia.
  - simpl. intros h ci. rewrite lm_get_retain. destruct (lm_get h (map c)) eqn:Hg; [|done].
    simpl. case_match; [|done]. intros [= <-]. by eapply Hix.
Qed.

(** Both removals keep the entries that do not name a removed chunk. *)
Lemma remove_chunks_ok c id ixs :
  ok c → ok (remove_chunks c id ixs) ∧ ∀ h,
  lookup (remove_chunks c id ixs) h =
    (l ← lookup c h; if decide (l.1 = id ∧ l.2 ∈ ixs) then None else Some l).
Proof.
  intros Hok. pose proof Hok as (Hnd & Hsz & Hix). unfold remove_chunks.
  destruct (is_enabled c) eqn:He; cbn [negb];
    [|split; [done|]; intros h; unfold lookup; by rewrite He].
  assert (Hmem : ∀ x, existsb (Z.eqb x) ixs = bool_decide (x ∈ ixs)).
  { intros x. apply eq_true_iff_eq. rewrite existsb_exists, bool_decide_eq_true.
    split; [intros (y & Hy & Heq); zify_b; subst; by apply list_elem_of_In|].
    intros Hx%list_elem_of_In. exists x. by rewrite Z.eqb_refl. }
  destruct (position _ _) as [n|] eqn:Hpos.
  - apply position_id in Hpos. split; [by apply retain_ok|]. intros h.
    rewrite !lookup_on by done. simpl. rewrite lm_get_retain.
    destruct (lm_get h (map c)) as [[si ci]|] eqn:Hg; [|done]. simpl.
    destruct (zget_is_Some (seg_ids c) si) as [x Hx]; [by apply (Hix _ _ Hg)|].
    rewrite Hx. simpl. rewrite Hmem.
    destruct (si =? n) eqn:Hsn; zify_b; simpl.
    + subst si. rewrite Hpos in Hx. injection Hx as ->.
      case_bool_decide; simpl; [by rewrite decide_True|].
      rewrite Hpos. simpl. rewrite decide_False; [done|naive_solver].
    + rewrite Hx. simpl. rewrite decide_False; [done|].
      simpl. intros [-> _]. apply Hsn. by eapply zget_nodup_eq.
  - apply position_None in Hpos. split; [done|]. intros h.
    rewrite !lookup_on by done. destruct (lm_get h (map c)) as [[si ci]|]; [|done]. simpl.
    destruct (zget (seg_ids c) si) as [x|] eqn:Hx; [|done]. simpl.
    rewrite decide_False; [done|]. intros [-> _]. apply Hpos.
    apply zget_Some in Hx as [_ Hx]. by eapply list_elem_of_lookup_2.
Qed.
Lemma remove_segment_ok c id :
  ok c → ok (remove_segment c id) ∧ ∀ h,
  lookup (remove_segment c id) h =
    (l ← lookup c h; if decide (l.1 = id) then None else Some l).
Proof.
  intros Hok. pose proof Hok as (Hnd & Hsz & Hix). unfold remove_segment.
  destruct (is_enabled c) eqn:He; cbn [negb];
    [|split; [done|]; intros h; unfold lookup; by rewrite He].
  destruct (position _ _) as [n|] eqn:Hpos.
  - apply position_id in Hpos. split; [by apply retain_ok|]. intros h.
    rewrite !lookup_on by done. simpl. rewrite lm_get_retain.
    destruct (lm_get h (map c)) as [[si ci]|] eqn:Hg; [|done]. simpl.
    destruct (zget_is_Some (seg_ids c) si) as [x Hx]; [by apply (Hix _ _ Hg)|].
    rewrite Hx. simpl. destruct (si =? n) eqn:Hsn; zify_b; simpl.
    + subst si. rewrite Hpos in Hx. injection Hx as ->. by rewrite decide_True.
    + rewrite Hx. simpl. rewrite decide_False; [done|].
      intros ->. apply Hsn. by eapply zget_nodup_eq.
  - apply position_None in Hpos. split; [done|]. intros h.
    rewrite !lookup_on by done. destruct (lm_get h (map c)) as [[si ci]|]; [|done]. simpl.
    destruct (zget (seg_ids c) si) as [x|] eqn:Hx; [|done]. simpl.
    rewrite decide_False; [done|]. intros ->. apply Hpos.
    apply zget_Some in Hx as [_ Hx]. by eapply list_elem_of_lookup_2.
Qed.
End chunk_map.
Arguments ChunkMap M : clear implicits.
End ChunkMap.
