(* ===== verification/Append.v ===== *)
(** * Appending whole chunks to an entry list.

    A staged content is built chunk by chunk, from chunks just written and from chunks found
    in the chunk map, while the segment being written grows. *)
From S2P Require Import Prelude Base Segment Entry.
Import Chunk.

(** ** Chunks that may be referenced *)

(** A set of chunk locations. *)
Abbreviation Locs := (Eid → Z → Prop).

Section known.
Context {St : Type} `{!SegStore St}.
Implicit Types (st : St) (K : Locs) (l : EntryList.EntryList) (e : Entry.Entry) (sp : Span.Span).

Definition seg_with_data st (id : Eid) (seg : Segment.Segment) (data : list byte) : Prop :=
  get_seg st id = Ok seg ∧ get_segdata st (Segment.data_id seg) = Ok data.

(** The chunk at a location, with the bytes it holds. *)
Definition chunk_at st (id : Eid) (i : Z) (c : Chunk) (b : list byte) : Prop :=
  ∃ seg data, seg_with_data st id seg data ∧ zget (Segment.chunks seg) i = Some c ∧
    0 ≤ pos c ∧ 0 < clen c ∧ pos c + clen c ≤ zlen data ∧ zlen data < BOUND ∧
    b = Segment.chunk_bytes data c.

(** Known chunks hold data, and neighbours are adjacent in it. *)
Definition known_ok st K : Prop :=
  (∀ id i, K id i → ∃ c b, chunk_at st id i c b) ∧
  (∀ id i c b c' b', K id i → K id (i + 1) → chunk_at st id i c b → chunk_at st id (i + 1) c' b' →
    pos c' = pos c + clen c).

(** A span of whole known chunks. *)
Definition whole_span st K (id : Eid) sp : Prop :=
  Span.seg_offset sp = 0 ∧ (∀ i, Span.begin sp ≤ i < Span.end_ sp → K id i) ∧
  ∃ seg, get_seg st id = Ok seg ∧ Span.slen sp = Segment.total_len (Span.span_chunks seg sp).
Definition whole_entry st K e : Prop := Forall (whole_span st K (Entry.seg_id e)) (Entry.spans e).
Definition whole st K l : Prop := Forall (whole_entry st K) (EntryList.ents l).

Lemma chunk_at_fun st id i c b c' b' :
  chunk_at st id i c b → chunk_at st id i c' b' → c' = c ∧ b' = b.
Proof.
  intros (seg & data & [Hs Hd] & Hc & _ & _ & _ & _ & ->) (seg' & data' & [Hs' Hd'] & Hc' & _ & _ & _ & _ & ->).
  rewrite Hs in Hs'. injection Hs' as <-. rewrite Hd in Hd'. injection Hd' as <-.
  rewrite Hc in Hc'. by injection Hc' as <-.
Qed.

Lemma chunk_at_len st id i c b : chunk_at st id i c b → zlen b = clen c ∧ 0 < clen c.
Proof.
  intros (seg & data & _ & _ & ? & ? & ? & _ & ->). unfold Segment.chunk_bytes.
  rewrite zlen_ztake, zlen_zdrop by lia. lia.
Qed.

(** *** One more chunk *)

Definition chunk_span (i n o : Z) : Span.Span := Span.mkSpan i (i + 1) 0 n o.

Lemma slice_one {A} (l : list A) i x : zget l i = Some x → ztake 1 (zdrop i l) = [x].
Proof.
  intros Hx. pose proof (zget_lt _ _ _ Hx). destruct (zget_split _ _ _ Hx) as [Hl Hz].
  rewrite Hl at 1. rewrite zdrop_app_ge, Hz, Z.sub_diag, zdrop_0 by lia. done.
Qed.

Lemma chunk_span_ok seg data i c o :
  zget (Segment.chunks seg) i = Some c → 0 ≤ pos c → 0 < clen c → pos c + clen c ≤ zlen data →
  zlen data < BOUND → 0 ≤ o → o + clen c < BOUND →
  Span.span_ok seg data (chunk_span i (clen c) o) ∧
  Span.span_bytes seg data (chunk_span i (clen c) o) = Segment.chunk_bytes data c ∧
  Span.span_chunks seg (chunk_span i (clen c) o) = [c].
Proof.
  intros Hc Hp Hl Hd Hdb Ho Hb. pose proof (zget_lt _ _ _ Hc).
  assert (Hsc : Span.span_chunks seg (chunk_span i (clen c) o) = [c]).
  { unfold Span.span_chunks. simpl. replace (i + 1 - i) with 1 by lia. by apply slice_one. }
  split; [|split; [|done]].
  - exists c, []. unfold Segment.total_len. simpl. split_and!; try done; lia.
  - unfold Span.span_bytes. rewrite (Span.start_pos_eq _ _ c []) by (done || (simpl; lia)).
    simpl. by rewrite Z.add_0_r.
Qed.

(** A whole span followed by its next chunk is one span. *)
Lemma merged_span_ok seg data sp c :
  Span.span_ok seg data sp → Span.seg_offset sp = 0 →
  Span.slen sp = Segment.total_len (Span.span_chunks seg sp) →
  zget (Segment.chunks seg) (Span.end_ sp) = Some c → 0 < clen c → pos c + clen c ≤ zlen data →
  (∀ c', zget (Segment.chunks seg) (Span.end_ sp - 1) = Some c' → pos c = pos c' + clen c') →
  Span.soffset sp + Span.slen sp + clen c < BOUND →
  let sp' := Span.mkSpan (Span.begin sp) (Span.end_ sp + 1) 0 (Span.slen sp + clen c) (Span.soffset sp) in
  Span.span_ok seg data sp' ∧
  Span.span_bytes seg data sp' = Span.span_bytes seg data sp ++ Segment.chunk_bytes data c ∧
  Span.slen sp' = Segment.total_len (Span.span_chunks seg sp').
Proof.
  intros (c0 & cs & Hcs & Hb & He & Hp & Hct & Hso & Hl & Hle & Hoff & Hbd & Hd & Hdb)
    Hz Hw Hc Hcl Hcd Hadj Hlt sp'.
  assert (Hsc : Span.span_chunks seg sp' = (c0 :: cs) ++ [c]).
  { rewrite <- Hcs. unfold Span.span_chunks, sp'. simpl. destruct (zget_split _ _ _ Hc) as [Hs Hzl].
    set (b := Span.begin sp) in *. set (e := Span.end_ sp) in *.
    rewrite Hs at 1. rewrite zdrop_app_le by lia. rewrite ztake_app_ge.
    - rewrite zlen_zdrop, Hzl by lia. replace (e + 1 - b - Z.max 0 (e - b)) with 1 by lia.
      f_equal. by rewrite zdrop_ztake by lia.
    - rewrite zlen_zdrop, Hzl by lia. lia. }
  rewrite Hcs in Hw.
  assert (Hlast : ∃ cl, zget (Segment.chunks seg) (Span.end_ sp - 1) = Some cl ∧
    pos cl + clen cl = pos c0 + Segment.total_len (c0 :: cs)).
  { destruct (exists_last (l:=c0 :: cs)) as (l1 & cl & Heq); [done|]. exists cl. rewrite Heq in *.
    assert (Hzl : zlen (l1 ++ [cl]) = Span.end_ sp - Span.begin sp).
    { rewrite <- Hcs. unfold Span.span_chunks. rewrite zlen_ztake, zlen_zdrop by lia. lia. }
    rewrite zlen_app, zlen_cons, zlen_nil in Hzl. split.
    - replace (Span.end_ sp - 1) with (Span.begin sp + zlen l1) by lia.
      eapply Span.zslice_index; [done|exact Hcs].
    - apply Span.contig_app in Hct as [_ [Hpc _]]. rewrite Span.total_len_app.
      unfold Segment.total_len at 2. simpl. lia. }
  destruct Hlast as (cl & Hcl' & Hpe). specialize (Hadj cl Hcl').
  assert (Ht : Segment.total_len ((c0 :: cs) ++ [c]) = Segment.total_len (c0 :: cs) + clen c).
  { rewrite Span.total_len_app. unfold Segment.total_len at 2. simpl. lia. }
  pose proof (Span.contig_total_pos _ _ _ Hct). pose proof (zget_lt _ _ _ Hc).
  split; [|split].
  - exists c0, (cs ++ [c]). rewrite <- app_comm_cons in Hsc. split; [done|].
    change (c0 :: cs ++ [c]) with ((c0 :: cs) ++ [c]). rewrite Ht.
    assert (Hct' : Span.contig (pos c0) ((c0 :: cs) ++ [c])).
    { apply Span.contig_app. split; [done|]. cbn [Span.contig]. split; [lia|done]. }
    unfold sp'. cbn [Span.begin Span.end_ Span.seg_offset Span.slen Span.soffset].
    split_and!; try lia; done.
  - unfold Span.span_bytes. rewrite (Span.start_pos_eq _ _ _ _ Hb Hcs).
    rewrite (Span.start_pos_eq seg sp' c0 (cs ++ [c])) by (done || by rewrite Hsc).
    unfold sp', Segment.chunk_bytes. simpl. rewrite Hz, Z.add_0_r.
    replace (pos c) with (Span.slen sp + pos c0) by lia. rewrite <- zdrop_zdrop by lia.
    rewrite <- (ztake_zdrop (Span.slen sp) (zdrop (pos c0) data)) at 1.
    assert (zlen (ztake (Span.slen sp) (zdrop (pos c0) data)) = Span.slen sp).
    { rewrite zlen_ztake, zlen_zdrop by lia. lia. }
    rewrite ztake_app_ge by lia. f_equal. f_equal. lia.
  - rewrite Hsc, Ht. unfold sp'. cbn [Span.slen]. lia.
Qed.

(** *** Appending to entries and to the list *)

Definition entry_whole st K (seg : Segment.Segment) (data : list byte) e : Prop :=
  list_ok (Span.span_ok seg data) e ∧ whole_entry st K e.

Lemma whole_span_slen st K id seg sp :
  get_seg st id = Ok seg → whole_span st K id sp →
  Span.slen sp = Segment.total_len (Span.span_chunks seg sp).
Proof. intros Hs (_ & _ & seg' & Hs' & Hl). rewrite Hs in Hs'. by injection Hs' as <-. Qed.

Lemma entry_append_ok st K e i c b seg data :
  known_ok st K → K (Entry.seg_id e) i → chunk_at st (Entry.seg_id e) i c b →
  seg_with_data st (Entry.seg_id e) seg data → entry_whole st K seg data e →
  0 ≤ Entry.eoffset e → 0 ≤ Entry.elen e → Entry.eoffset e + Entry.elen e + clen c < BOUND →
  ∃ e', Entry.append e (chunk_span i (clen c) (Entry.eoffset e + Entry.elen e)) = Ok e' ∧
    entry_whole st K seg data e' ∧ Entry.seg_id e' = Entry.seg_id e ∧
    Entry.eoffset e' = Entry.eoffset e ∧ Entry.elen e' = Entry.elen e + clen c ∧
    list_bytes (Span.span_bytes seg data) (Entry.spans e') =
      list_bytes (Span.span_bytes seg data) (Entry.spans e) ++ b.
Proof.
  intros [HK Hadj] Hki Hat [Hs Hd] [Hok Hwh] Ho Hn Hlt. pose proof Hok as (Hch & Hlen & _ & Hb).
  pose proof Hat as (seg' & data' & [Hs' Hd'] & Hc & Hp & Hcl & Hcd & Hdb & ->).
  rewrite Hs in Hs'. injection Hs' as <-. rewrite Hd in Hd'. injection Hd' as <-.
  set (sp := chunk_span i (clen c) (Entry.eoffset e + Entry.elen e)).
  destruct (chunk_span_ok seg data i c (Entry.eoffset e + Entry.elen e)) as (Hspok & Hspb & Hspc);
    [done..|lia|lia|]. fold sp in Hspok, Hspb, Hspc.
  pose proof BOUND_lt. simpl in Hlen, Hb. change (items e) with (Entry.spans e) in *.
  assert (Hspw : whole_span st K (Entry.seg_id e) sp).
  { split; [done|]. split.
    - simpl. intros j Hj. by replace j with i by lia.
    - exists seg. split; [done|]. rewrite Hspc. unfold Segment.total_len. simpl. lia. }
  assert (Hnew : ∃ e', (n ← u_add (Entry.elen e) (Span.slen sp);
      Ok (Entry.mkEntry (Entry.seg_id e) n (Entry.eoffset e) (Entry.spans e ++ [sp]))) = Ok e' ∧
    entry_whole st K seg data e' ∧ Entry.seg_id e' = Entry.seg_id e ∧
    Entry.eoffset e' = Entry.eoffset e ∧ Entry.elen e' = Entry.elen e + clen c ∧
    list_bytes (Span.span_bytes seg data) (Entry.spans e') =
      list_bytes (Span.span_bytes seg data) (Entry.spans e) ++ Segment.chunk_bytes data c).
  { rewrite u_add_ok, bind_ok by (simpl; lia). eexists. split; [done|]. cbn [Entry.spans].
    split; [split|].
    - unfold list_ok. simpl. rewrite total_app. change (items e) with (Entry.spans e).
      change (zsum Span.slen (Entry.spans e)) with (total (Entry.spans e)).
      unfold total at 2. simpl. split; [|split_and!; lia].
      apply chain_app. split; [done|]. cbn [chain]. rewrite <- Hlen. done.
    - unfold whole_entry. simpl. apply Forall_app. split; [done|]. by apply Forall_singleton.
    - split_and!; try done. rewrite list_bytes_app. unfold list_bytes at 2. simpl.
      by rewrite Hspb, app_nil_r. }
  unfold Entry.append. destruct (last (Entry.spans e)) as [sl|] eqn:Hlast; [|done].
  destruct ((Span.end_ sl =? Span.begin sp) && (Span.seg_offset sp =? 0)) eqn:Hm; [|done].
  clear Hnew. zify_b. change (Span.begin sp) with i in *.
  apply last_Some in Hlast as [l1 Hl1]. rewrite Hl1 in *.
  unfold whole_entry in Hwh. rewrite Hl1 in Hwh. apply Forall_app in Hwh as [Hw1 [Hwl _]%Forall_cons].
  apply chain_app in Hch as [Hch1 (Hso & Hslok & _)]. simpl in Hso.
  rewrite total_app in Hlen. unfold total at 2 in Hlen. simpl in Hlen.
  pose proof Hwl as (Hz & Hwk & _).
  pose proof (whole_span_slen _ _ _ _ _ Hs Hwl) as Hsl.
  pose proof (chain_nonneg _ (Span.span_ok_len seg data) _ _ Hch1).
  assert (Hse : Span.soffset sl + Span.slen sl = Entry.eoffset e + Entry.elen e).
  { rewrite Hlen, Hso. lia. }
  pose proof Hslok as (c0 & cs & _ & Hb0 & He0 & _).
  destruct (merged_span_ok seg data sl c Hslok Hz Hsl) as (Hmok & Hmb & Hml);
    [congruence|done|done| |lia|].
  { intros c' Hc'. destruct (HK (Entry.seg_id e) (Span.end_ sl - 1)) as (c2 & b2 & Hat2);
      [apply Hwk; lia|].
    assert (c2 = c') as ->.
    { pose proof Hat2 as (seg2 & data2 & [Hs2 Hd2] & Hc2 & _). rewrite Hs in Hs2.
      injection Hs2 as <-. rewrite Hc' in Hc2. by injection Hc2 as ->. }
    eapply (Hadj (Entry.seg_id e) (Span.end_ sl - 1)); [apply Hwk; lia| |done|].
    - by replace (Span.end_ sl - 1 + 1) with i by lia.
    - by replace (Span.end_ sl - 1 + 1) with i by lia. }
  unfold Span.merge_up. rewrite rassert_ok, bind_ok by (by rewrite andb_true_iff, !Z.eqb_eq).
  rewrite (u_add_ok (Span.slen sl)), !bind_ok by (simpl; lia).
  rewrite u_add_ok, bind_ok by (simpl; lia). rewrite removelast_last.
  eexists. split; [done|]. cbn [Entry.spans Entry.seg_id Entry.eoffset Entry.elen].
  set (sm := Span.mkSpan _ _ _ _ _).
  assert (Hsm : sm = Span.mkSpan (Span.begin sl) (Span.end_ sl + 1) 0 (Span.slen sl + clen c) (Span.soffset sl)).
  { unfold sm. simpl. f_equal; [lia|done]. }
  rewrite Hsm. clear sm Hsm. set (sm := Span.mkSpan _ _ _ _ _) in *.
  split; [split|].
  - unfold list_ok. simpl. rewrite total_app. unfold total at 2. simpl.
    split; [|split_and!; lia]. apply chain_app. split; [done|]. cbn [chain]. simpl. done.
  - unfold whole_entry. simpl. apply Forall_app. split; [done|]. apply Forall_singleton.
    split; [done|]. split; [|by exists seg]. simpl. intros j Hj.
    destruct (decide (j = i)) as [->|]; [done|]. apply Hwk. lia.
  - split_and!; try done. rewrite !list_bytes_app. unfold list_bytes at 2 4. simpl.
    by rewrite !app_nil_r, Hmb, app_assoc.
Qed.

Lemma list_append_ok st K l id i c b :
  known_ok st K → K id i → chunk_at st id i c b → EntryList.ok st l → whole st K l →
  EntryList.loffset l + EntryList.llen l + clen c < BOUND →
  ∃ l', EntryList.append l id (chunk_span i (clen c) (EntryList.loffset l + EntryList.llen l)) = Ok l' ∧
    EntryList.ok st l' ∧ whole st K l' ∧ EntryList.loffset l' = EntryList.loffset l ∧
    EntryList.llen l' = EntryList.llen l + clen c ∧
    EntryList.bytes st l' = EntryList.bytes st l ++ b.
Proof.
  intros HK Hki Hat Hok Hwh Hlt. pose proof Hok as (Hch & Hlen & Ho & Hb). pose proof BOUND_lt.
  pose proof Hat as (seg & data & Hsd & _ & _ & Hcl & _ & _ & _). simpl in Hlen, Ho, Hb.
  change (items l) with (EntryList.ents l) in *. change (offset l) with (EntryList.loffset l) in *.
  pose proof (chain_nonneg _ (EntryList.entry_ok_len st) _ _ Hch).
  set (sp := chunk_span i (clen c) (EntryList.loffset l + EntryList.llen l)).
  unfold EntryList.append.
  assert (Hnew : ∃ l', (o ← end_offset l; e ← Entry.append (Entry.new id o) sp;
      n ← u_add (EntryList.llen l) (Span.slen sp);
      Ok (EntryList.mkEntryList n (EntryList.loffset l) (EntryList.ents l ++ [e]))) = Ok l' ∧
    EntryList.ok st l' ∧ whole st K l' ∧ EntryList.loffset l' = EntryList.loffset l ∧
    EntryList.llen l' = EntryList.llen l + clen c ∧
    EntryList.bytes st l' = EntryList.bytes st l ++ b).
  { rewrite end_offset_ok, bind_ok by (simpl; lia). simpl offset. simpl len.
    set (o := EntryList.loffset l + EntryList.llen l) in *.
    destruct (entry_append_ok st K (Entry.new id o) i c b seg data) as (e' & He & [Hel Hew] & Hid & Hoff & Hn & Hby);
      [done|done|done|done| |simpl; lia|simpl; lia|simpl; lia|].
    { split; [|constructor]. unfold list_ok. simpl. change (total []) with 0.
      split_and!; try done; lia. }
    simpl in Hid, Hoff, Hn, Hby. change (Entry.eoffset (Entry.new id o)) with o in He.
    change (Entry.elen (Entry.new id o)) with 0 in He. rewrite Z.add_0_r in He. fold sp in He.
    rewrite He, bind_ok, u_add_ok, bind_ok by (simpl; lia). eexists. split; [done|].
    assert (Heok : EntryList.entry_ok st e').
    { exists seg, data. rewrite Hid. destruct Hsd. split_and!; try done. rewrite Hn. lia. }
    unfold EntryList.ok, list_ok. simpl. change (items (EntryList.mkEntryList _ _ ?es)) with es.
    rewrite total_app. unfold total at 2. simpl.
    split; [split; [|split_and!; lia]|split; [|split; [done|split; [done|]]]].
    - apply chain_app. split; [done|]. cbn [chain]. split; [|split; [done|done]].
      rewrite <- Hlen. exact Hoff.
    - unfold whole. simpl. apply Forall_app. split; [done|]. by apply Forall_singleton.
    - unfold EntryList.bytes. simpl. rewrite list_bytes_app. f_equal. unfold list_bytes. simpl.
      rewrite app_nil_r. destruct Hsd. rewrite <- Hid in *.
      by rewrite (EntryList.entry_bytes_eq st e' seg data). }
  destruct (last (EntryList.ents l)) as [le|] eqn:Hlast; [|exact Hnew].
  destruct (id =? Entry.seg_id le) eqn:Hid; [|exact Hnew]. clear Hnew. zify_b. subst id.
  apply last_Some in Hlast as [es Hes]. rewrite Hes in *.
  unfold whole in Hwh. rewrite Hes in Hwh. apply Forall_app in Hwh as [Hw1 [Hwl _]%Forall_cons].
  apply chain_app in Hch as [Hch1 (Hlo & Hlok & _)]. simpl in Hlo.
  rewrite total_app in Hlen. unfold total at 2 in Hlen. simpl in Hlen.
  pose proof Hlok as (seg' & data' & Hs' & Hd' & Hlist & Hpos). destruct Hsd as [Hs Hd].
  rewrite Hs in Hs'. injection Hs' as <-. rewrite Hd in Hd'. injection Hd' as <-.
  pose proof (chain_nonneg _ (EntryList.entry_ok_len st) _ _ Hch1).
  assert (Hend : Entry.eoffset le + Entry.elen le = EntryList.loffset l + EntryList.llen l) by lia.
  destruct (entry_append_ok st K le i c b seg data) as (e' & He & [Hel Hew] & Hid & Hoff & Hn & Hby);
    [done|done|done|done|done|lia|lia|lia|].
  rewrite Hend in He. fold sp in He. rewrite He, bind_ok, u_add_ok, bind_ok by (simpl; lia).
  rewrite removelast_last. eexists. split; [done|].
  assert (Heok : EntryList.entry_ok st e').
  { exists seg, data. rewrite Hid. split_and!; try done. lia. }
  unfold EntryList.ok, list_ok. simpl. change (items (EntryList.mkEntryList _ _ ?es)) with es.
  rewrite total_app. unfold total at 2. simpl.
  split; [split; [|split_and!; lia]|split; [|split; [done|split; [done|]]]].
  - apply chain_app. split; [done|]. cbn [chain]. split; [|split; [done|done]].
    rewrite <- Hlo. exact Hoff.
  - unfold whole. simpl. apply Forall_app. split; [done|]. by apply Forall_singleton.
  - unfold EntryList.bytes. rewrite Hes. simpl. rewrite !list_bytes_app, <- app_assoc. f_equal.
    unfold list_bytes. simpl. rewrite !app_nil_r.
    rewrite (EntryList.entry_bytes_eq st le seg data) by done.
    rewrite (EntryList.entry_bytes_eq st e' seg data) by (rewrite ?Hid; done). exact Hby.
Qed.
End known.

(** ** Growing stores *)

(** Segments gain chunks and data at their end. *)
Definition grown (seg seg' : Segment.Segment) (data data' : list byte) : Prop :=
  (∃ cs, Segment.chunks seg' = Segment.chunks seg ++ cs) ∧ (∃ d, data' = data ++ d) ∧
  zlen data' < BOUND.
Definition grows {S1 S2 : Type} `{!SegStore S1, !SegStore S2} (st : S1) (st' : S2) : Prop :=
  ∀ id seg data, seg_with_data st id seg data → zlen data < BOUND →
    ∃ seg' data', seg_with_data st' id seg' data' ∧ grown seg seg' data data'.

Section grows.
Context {S1 S2 : Type} `{!SegStore S1, !SegStore S2}.

Lemma slice_prefix {A} (l l' : list A) b n :
  0 ≤ b → 0 ≤ n → b + n ≤ zlen l → ztake n (zdrop b (l ++ l')) = ztake n (zdrop b l).
Proof.
  intros. pose proof (zlen_nonneg l). rewrite zdrop_app_le by lia.
  rewrite ztake_app_le; [done|]. rewrite zlen_zdrop by lia. lia.
Qed.

Lemma span_grown seg seg' data data' sp :
  grown seg seg' data data' → Span.span_ok seg data sp →
  Span.span_ok seg' data' sp ∧ Span.span_bytes seg' data' sp = Span.span_bytes seg data sp ∧
  Span.span_chunks seg' sp = Span.span_chunks seg sp.
Proof.
  intros ([cs' Hcs'] & [d Hd'] & Hdb')
    (c & cs & Hcs & Hb & He & Hp & Hct & Hso & Hl & Hle & Hoff & Hbd & Hd & Hdb).
  pose proof (Span.contig_total_pos _ _ _ Hct).
  assert (Hsc : Span.span_chunks seg' sp = c :: cs).
  { unfold Span.span_chunks in *. by rewrite Hcs', slice_prefix by lia. }
  split; [|split; [|congruence]].
  - exists c, cs. rewrite Hcs', Hd', !zlen_app in *. pose proof (zlen_nonneg cs').
    pose proof (zlen_nonneg d). split_and!; try done; lia.
  - unfold Span.span_bytes. rewrite !(Span.start_pos_eq _ _ c cs) by done.
    rewrite Hd', slice_prefix by lia. done.
Qed.

Lemma spans_grown seg seg' data data' o l :
  grown seg seg' data data' → chain (Span.span_ok seg data) o l →
  chain (Span.span_ok seg' data') o l ∧
  list_bytes (Span.span_bytes seg' data') l = list_bytes (Span.span_bytes seg data) l.
Proof.
  intros Hg. revert o. induction l as [|sp l IH]; intros o; [done|]. intros (Ho & Hsp & Hch).
  destruct (span_grown _ _ _ _ _ Hg Hsp) as (Hsp' & Hb & _). destruct (IH _ Hch) as [Hch' Hb'].
  split; [done|]. by rewrite !list_bytes_cons, Hb, Hb'.
Qed.

Lemma span_ok_bound seg data sp : Span.span_ok seg data sp → zlen data < BOUND.
Proof. intros (c & cs & H). tauto. Qed.

Lemma entry_grows (st : S1) (st' : S2) e :
  grows st st' → EntryList.entry_ok st e →
  EntryList.entry_ok st' e ∧ EntryList.entry_bytes st' e = EntryList.entry_bytes st e.
Proof.
  intros Hg Hok. pose proof (EntryList.spans_nonempty st e Hok) as Hne.
  destruct Hok as (seg & data & Hs & Hd & (Hch & Hl & Ho) & Hn).
  assert (zlen data < BOUND) as Hdb.
  { destruct (items e) as [|sp sps]; [done|]. destruct Hch as (_ & Hsp & _). by eapply span_ok_bound. }
  destruct (Hg (Entry.seg_id e) seg data) as (seg' & data' & [Hs' Hd'] & Hgr); [by split|done|].
  destruct (spans_grown _ _ _ _ _ _ Hgr Hch) as [Hch' Hb]. split.
  - exists seg', data'. by split_and!.
  - by rewrite (EntryList.entry_bytes_eq st' e seg' data'), (EntryList.entry_bytes_eq st e seg data).
Qed.

Lemma entries_grow (st : S1) (st' : S2) o es :
  grows st st' → chain (EntryList.entry_ok st) o es →
  chain (EntryList.entry_ok st') o es ∧
  list_bytes (EntryList.entry_bytes st') es = list_bytes (EntryList.entry_bytes st) es.
Proof.
  intros Hg. revert o. induction es as [|e es IH]; intros o; [done|].
  intros (Ho & He & Hch). destruct (entry_grows st st' e Hg He) as [He' Hb].
  destruct (IH _ Hch) as [Hch' Hb']. split; [done|]. by rewrite !list_bytes_cons, Hb, Hb'.
Qed.
Lemma list_grows (st : S1) (st' : S2) l :
  grows st st' → EntryList.ok st l →
  EntryList.ok st' l ∧ EntryList.bytes st' l = EntryList.bytes st l.
Proof.
  intros Hg (Hch & Hrest). destruct (entries_grow st st' _ _ Hg Hch) as [Hch' Hb].
  by split; [split|].
Qed.

Lemma chunk_grows (st : S1) (st' : S2) id i c b :
  grows st st' → chunk_at st id i c b → chunk_at st' id i c b.
Proof.
  intros Hg (seg & data & Hsd & Hc & Hp & Hcl & Hcd & Hdb & ->).
  destruct (Hg id seg data Hsd Hdb) as (seg' & data' & Hsd' & [cs Hcs] & [d ->] & Hdb').
  exists seg', (data ++ d). rewrite Hcs. pose proof (zget_lt _ _ _ Hc). pose proof (zlen_nonneg d).
  split; [done|]. split; [by rewrite zget_app_l by lia|]. split; [done|]. split; [done|].
  split; [rewrite zlen_app; lia|]. split; [done|].
  unfold Segment.chunk_bytes. by rewrite slice_prefix by lia.
Qed.

Lemma whole_grows (st : S1) (st' : S2) K l :
  grows st st' → EntryList.ok st l → whole st K l → whole st' K l.
Proof.
  intros Hg (Hch & _) Hw. change (items l) with (EntryList.ents l) in Hch. revert Hch.
  generalize (offset l) as o. unfold whole in *. induction Hw as [|e es He _ IH]; intros o; [done|].
  intros (_ & Hok & Hch). constructor; [|by eapply IH].
  pose proof (EntryList.spans_nonempty st e Hok) as Hne.
  destruct Hok as (seg & data & Hs & Hd & (Hsp & _) & _).
  assert (zlen data < BOUND) as Hdb.
  { destruct (items e) as [|sp sps]; [done|]. destruct Hsp as (_ & Hsp & _). by eapply span_ok_bound. }
  destruct (Hg (Entry.seg_id e) seg data) as (seg' & data' & [Hs' Hd'] & Hgr); [by split|done|].
  unfold whole_entry in *. change (items e) with (Entry.spans e) in Hsp. clear Hne.
  revert Hsp. generalize (offset e) as o'. induction He as [|sp sps Hwsp _ IHs]; intros o'; [done|].
  intros (_ & Hspok & Hsps). constructor; [|by eapply IHs].
  destruct Hwsp as (Hz & Hk & seg0 & Hs0 & Hl). rewrite Hs in Hs0. injection Hs0 as <-.
  split; [done|]. split; [done|]. exists seg'. split; [done|].
  by destruct (span_grown _ _ _ _ _ Hgr Hspok) as (_ & _ & ->).
Qed.
End grows.
