(* ===== verification/Link.v ===== *)
(** * src/content/entry.rs, [link] and [unlink]: the references of a content to its chunks.

    The segments are mutated through the running transaction; [SegTrans] is what this file
    asks of it (src/trans/cow.rs and src/content/store.rs). *)
From S2P Require Import Prelude Base Segment Entry ChunkMap.
Import Chunk Segment.

(** What linking asks of the transaction and the volume. *)
Class SegTrans (S : Type) `{!SegStore S} := {
  seg_make_mut : S → Eid → res S;             (* [Cow::make_mut] of a segment *)
  seg_set : S → Eid → Segment → S;            (* writing through the mutable reference *)
  seg_make_del : S → Eid → res S;             (* [Cow::make_del] *)
  data_to_trans : S → Eid → Action → res S;   (* [SegData::add_to_trans] *)
  data_uncache : S → Eid → res S;             (* [Store::remove_segdata_from_cache] *)
  data_save : S → Eid → list byte → res S;    (* [SegData::save] *)
  fresh_id : S → Eid * S                      (* [Eid::new] *)
}.
#[export] Hint Mode SegTrans ! - : typeclass_instances.

Definition same_view {St : Type} `{!SegStore St} (s s' : St) : Prop :=
  (∀ i, get_seg s' i = get_seg s i) ∧ (∀ i, get_segdata s' i = get_segdata s i).

(** Its contract, while the transaction is open ([writable]). *)
Class SegTransLaws (S : Type) `{!SegStore S, !SegTrans S} := {
  writable : S → Prop;
  deleted : S → Eid → Prop;
  make_mut_law s id seg : writable s → get_seg s id = Ok seg → ¬ deleted s id →
    ∃ s', seg_make_mut s id = Ok s' ∧ writable s' ∧ same_view s s' ∧
      (∀ i, deleted s' i ↔ deleted s i);
  set_law s id seg : writable s →
    writable (seg_set s id seg) ∧ (∀ i, deleted (seg_set s id seg) i ↔ deleted s i) ∧
    (∀ i, get_seg (seg_set s id seg) i = if decide (i = id) then Ok seg else get_seg s i) ∧
    (∀ i, get_segdata (seg_set s id seg) i = get_segdata s i);
  make_del_law s id seg : writable s → get_seg s id = Ok seg → ¬ deleted s id →
    ∃ s', seg_make_del s id = Ok s' ∧ writable s' ∧ same_view s s' ∧
      (∀ i, deleted s' i ↔ deleted s i ∨ i = id);
  to_trans_law s id a : writable s →
    ∃ s', data_to_trans s id a = Ok s' ∧ writable s' ∧ same_view s s' ∧
      (∀ i, deleted s' i ↔ deleted s i);
  uncache_law s id data : writable s → get_segdata s id = Ok data →
    ∃ s', data_uncache s id = Ok s' ∧ writable s' ∧ same_view s s' ∧
      (∀ i, deleted s' i ↔ deleted s i);
  save_law s id data : writable s →
    ∃ s', data_save s id data = Ok s' ∧ writable s' ∧
      (∀ i, deleted s' i ↔ deleted s i) ∧ (∀ i, get_seg s' i = get_seg s i) ∧
      (∀ i, get_segdata s' i = if decide (i = id) then Ok data else get_segdata s i);
  fresh_law s : writable s →
    writable (fresh_id s).2 ∧ same_view s (fresh_id s).2 ∧
    (∀ i, deleted (fresh_id s).2 i ↔ deleted s i) ∧
    (∀ i seg, get_seg s i = Ok seg → data_id seg ≠ (fresh_id s).1)
}.
#[export] Hint Mode SegTransLaws ! - - : typeclass_instances.

Section link.
Context {S Hash M : Type} `{!SegStore S, !SegTrans S}.
Context `{!EqDecision Hash, !LinkedMapOps Hash ChunkMap.ChunkIdx M}.
Implicit Types (s : S) (l : EntryList.EntryList) (e : Entry.Entry).

(** [Segment::remove]. *)
Definition remove (s : S) (id : Eid) : res S :=
  seg ← get_seg s id;
  s ← data_to_trans s (data_id seg) Delete;
  seg_make_del s id.

(** Run what [Segment::shrink] does outside the segment. *)
Definition run_effect (s : S) (f : Effect) : res S :=
  match f with
  | AddToTrans id a => data_to_trans s id a
  | SaveData id d => data_save s id d
  end.

(** [Segment::shrink], the retired chunk indices returned. *)
Definition shrink_seg (s : S) (id : Eid) : res (S * list Z) :=
  s ← seg_make_mut s id;
  seg ← get_seg s id;
  data ← get_segdata s (data_id seg);
  s ← data_uncache s (data_id seg);
  let '(nid, s) := fresh_id s in
  '(seg', effects, retired) ← shrink seg data nid;
  s ← foldM run_effect s effects;
  Ok (seg_set s id seg', retired).

Definition ref_spans (seg : Segment) (sps : list Span.Span) : res Segment :=
  foldM (λ seg sp, ref_chunks seg (Span.begin sp) (Span.end_ sp)) seg sps.
Definition deref_spans (seg : Segment) (sps : list Span.Span) : res Segment :=
  foldM (λ seg sp, deref_chunks seg (Span.begin sp) (Span.end_ sp)) seg sps.

Definition link_entry (s : S) (e : Entry.Entry) : res S :=
  _ ← get_seg s (Entry.seg_id e);
  s ← seg_make_mut s (Entry.seg_id e);
  seg ← get_seg s (Entry.seg_id e);
  seg ← ref_spans seg (Entry.spans e);
  Ok (seg_set s (Entry.seg_id e) seg).

Definition link (l : EntryList.EntryList) (s : S) : res S :=
  foldM link_entry s (EntryList.ents l).

Definition unlink_entry '(cm, s) (e : Entry.Entry) : res (ChunkMap.ChunkMap M * S) :=
  let id := Entry.seg_id e in
  _ ← get_seg s id;
  s ← seg_make_mut s id;
  seg ← get_seg s id;
  seg ← deref_spans seg (Entry.spans e);
  let s := seg_set s id seg in
  if is_orphan seg then
    s ← remove s id;
    Ok (ChunkMap.remove_segment (Hash:=Hash) cm id, s)
  else if is_shrinkable seg then
    '(s, retired) ← shrink_seg s id;
    Ok (ChunkMap.remove_chunks (Hash:=Hash) cm id retired, s)
  else Ok (cm, s).

Definition unlink (l : EntryList.EntryList) (cm : ChunkMap.ChunkMap M) (s : S)
    : res (ChunkMap.ChunkMap M * S) :=
  foldM unlink_entry (cm, s) (EntryList.ents l).

Definition unlink_weak_entry '(cm, s) (e : Entry.Entry) : res (ChunkMap.ChunkMap M * S) :=
  let id := Entry.seg_id e in
  seg ← get_seg s id;
  if is_orphan seg then
    s ← remove s id;
    Ok (ChunkMap.remove_segment (Hash:=Hash) cm id, s)
  else Ok (cm, s).

Definition unlink_weak (l : EntryList.EntryList) (cm : ChunkMap.ChunkMap M) (s : S)
    : res (ChunkMap.ChunkMap M * S) :=
  foldM unlink_weak_entry (cm, s) (EntryList.ents l).
End link.

(** ** How often a content references a chunk *)

Definition span_refs (sps : list Span.Span) (i : Z) : Z :=
  zsum (λ sp, if bool_decide (Span.begin sp ≤ i < Span.end_ sp) then 1 else 0) sps.
Definition refs (es : list Entry.Entry) (id : Eid) (i : Z) : Z :=
  zsum (λ e, if Entry.seg_id e =? id then span_refs (Entry.spans e) i else 0) es.

Lemma span_refs_nonneg sps i : 0 ≤ span_refs sps i.
Proof. apply zsum_nonneg, Forall_true. intros. case_bool_decide; lia. Qed.
Lemma refs_nonneg es id i : 0 ≤ refs es id i.
Proof.
  apply zsum_nonneg, Forall_true. intros. case_match; [apply span_refs_nonneg|lia].
Qed.

(** Chunk counters moved by [f]. *)
Definition added (f : Z → Z) (cs cs' : list Chunk) : Prop :=
  ∀ i, zget cs' i = add_ref (f i) <$> zget cs i.

Lemma add_ref_0 c : add_ref 0 c = c.
Proof. destruct c. unfold add_ref. simpl. by rewrite Z.add_0_r. Qed.
Lemma added_refl f cs : (∀ i, f i = 0) → added f cs cs.
Proof. intros Hf i. rewrite Hf. destruct (zget cs i); [|done]. simpl. by rewrite add_ref_0. Qed.
Lemma added_trans f g h cs1 cs2 cs3 :
  added f cs1 cs2 → added g cs2 cs3 → (∀ i, h i = f i + g i) → added h cs1 cs3.
Proof.
  intros H1 H2 Hh i. rewrite H2, H1, Hh. destruct (zget cs1 i); [|done]. simpl.
  unfold add_ref. simpl. do 2 f_equal. lia.
Qed.
Lemma moved_added d b e cs cs' :
  moved d b e cs cs' → added (λ i, if bool_decide (b ≤ i < e) then d else 0) cs cs'.
Proof.
  intros Hm i. rewrite Hm. destruct (zget cs i); [|done]. simpl.
  case_bool_decide; [done|]. by rewrite add_ref_0.
Qed.
Lemma added_zlen f cs cs' : added f cs cs' → zlen cs' = zlen cs.
Proof.
  intros Ha. pose proof (zlen_nonneg cs). pose proof (zlen_nonneg cs').
  destruct (Z.lt_trichotomy (zlen cs) (zlen cs')) as [Hlt|[?|Hlt]]; [|lia|].
  - destruct (zget_is_Some cs' (zlen cs)) as [x Hx]; [lia|]. rewrite Ha in Hx.
    destruct (zget cs (zlen cs)) eqn:Hy; [|done]. apply zget_lt in Hy. lia.
  - destruct (zget_is_Some cs (zlen cs')) as [x Hx]; [lia|].
    pose proof (Ha (zlen cs')) as Hy. rewrite Hx in Hy. simpl in Hy. apply zget_lt in Hy. lia.
Qed.
Lemma added_total_len f cs cs' : added f cs cs' → total_len cs' = total_len cs.
Proof.
  revert f cs'. induction cs as [|c cs IH]; intros f cs' Ha; pose proof (added_zlen _ _ _ Ha) as Hz.
  - destruct cs'; [done|]. rewrite zlen_cons, zlen_nil in Hz. pose proof (zlen_nonneg cs'). lia.
  - destruct cs' as [|c' cs'].
    { rewrite zlen_cons, zlen_nil in Hz. pose proof (zlen_nonneg cs). lia. }
    unfold total_len in *. simpl. rewrite (IH (λ i, f (i + 1)) cs').
    + pose proof (Ha 0) as H0. simpl in H0. injection H0 as ->. done.
    + intros i. destruct (decide (0 ≤ i)) as [Hi|Hi].
      * specialize (Ha (i + 1)). by rewrite !zget_cons_S in Ha.
      * by rewrite !zget_neg by lia.
Qed.

(** The ranges of the spans fit the segment. *)
Definition spans_in (seg : Segment) (sps : list Span.Span) : Prop :=
  Forall (λ sp, 0 ≤ Span.begin sp < Span.end_ sp ∧ Span.end_ sp ≤ zlen (chunks seg)) sps.

Lemma ref_spans_ok seg sps :
  seg_ok seg → spans_in seg sps →
  Forall (λ sp, linkable seg (Span.begin sp) (Span.end_ sp)) sps →
  (∀ i c, zget (chunks seg) i = Some c → refcnt c + span_refs sps i < U32) →
  ∃ seg', ref_spans seg sps = Ok seg' ∧ seg_ok seg' ∧
    added (span_refs sps) (chunks seg) (chunks seg') ∧
    len seg' = len seg ∧ data_id seg' = data_id seg.
Proof.
  unfold ref_spans. revert seg. induction sps as [|sp sps IH]; intros seg Hok Hin Hlk Hr.
  { exists seg. split; [done|]. split; [done|]. split; [by apply added_refl|done]. }
  apply Forall_cons in Hin as [[Hb He] Hin]. apply Forall_cons in Hlk as [Hl1 Hlk].
  assert (Hs : ∀ i, span_refs (sp :: sps) i =
    (if bool_decide (Span.begin sp ≤ i < Span.end_ sp) then 1 else 0) + span_refs sps i) by done.
  cbn [foldM].
  destruct (ref_chunks_ok seg (Span.begin sp) (Span.end_ sp) Hok) as (s1 & -> & Hok1 & Hm & Hl & Hd);
    [lia|lia| |done|].
  { intros i c Hi Hc. specialize (Hr i c Hc). rewrite Hs, bool_decide_true in Hr by done.
    pose proof (span_refs_nonneg sps i). lia. }
  apply moved_added in Hm. rewrite bind_ok.
  destruct (IH s1 Hok1) as (s' & -> & Hok' & Ha & Hl' & Hd').
  - unfold spans_in. rewrite (added_zlen _ _ _ Hm). done.
  - eapply Forall_impl; [exact Hlk|]. intros sp' [Hal|Htot].
    + left. intros i c Hi Hc. rewrite Hm in Hc. destruct (zget (chunks seg) i) as [c0|] eqn:Hc0;
        [|done]. injection Hc as <-. specialize (Hal i c0 Hi Hc0). simpl.
      case_bool_decide; lia.
    + right. by rewrite (added_total_len _ _ _ Hm), Hl.
  - intros i c Hc. rewrite Hm in Hc. destruct (zget (chunks seg) i) as [c0|] eqn:Hc0; [|done].
    injection Hc as <-. specialize (Hr i c0 Hc0). rewrite Hs in Hr. simpl. lia.
  - exists s'. split; [done|]. split; [done|]. split; [|by rewrite Hl', Hd'].
    by eapply added_trans.
Qed.

Lemma deref_spans_ok seg sps :
  seg_ok seg → spans_in seg sps →
  (∀ i c, zget (chunks seg) i = Some c → span_refs sps i ≤ refcnt c) →
  ∃ seg', deref_spans seg sps = Ok seg' ∧ seg_ok seg' ∧
    added (λ i, - span_refs sps i) (chunks seg) (chunks seg') ∧
    len seg' = len seg ∧ data_id seg' = data_id seg.
Proof.
  unfold deref_spans. revert seg. induction sps as [|sp sps IH]; intros seg Hok Hin Hr.
  { exists seg. split; [done|]. split; [done|]. split; [by apply added_refl|done]. }
  apply Forall_cons in Hin as [[Hb He] Hin].
  assert (Hs : ∀ i, span_refs (sp :: sps) i =
    (if bool_decide (Span.begin sp ≤ i < Span.end_ sp) then 1 else 0) + span_refs sps i) by done.
  cbn [foldM].
  destruct (deref_chunks_ok seg (Span.begin sp) (Span.end_ sp) Hok) as (s1 & -> & Hok1 & Hm & Hl & Hd);
    [lia|lia| |].
  { intros i c Hi Hc. specialize (Hr i c Hc). rewrite Hs, bool_decide_true in Hr by done.
    pose proof (span_refs_nonneg sps i). lia. }
  apply moved_added in Hm. rewrite bind_ok.
  destruct (IH s1 Hok1) as (s' & -> & Hok' & Ha & Hl' & Hd').
  - unfold spans_in. rewrite (added_zlen _ _ _ Hm). done.
  - intros i c Hc. rewrite Hm in Hc. destruct (zget (chunks seg) i) as [c0|] eqn:Hc0; [|done].
    injection Hc as <-. specialize (Hr i c0 Hc0). rewrite Hs in Hr. simpl.
    case_bool_decide; lia.
  - exists s'. split; [done|]. split; [done|]. split; [|by rewrite Hl', Hd'].
    eapply added_trans; [done..|]. intros i. rewrite Hs. case_bool_decide; lia.
Qed.

Section link_laws.
Context {S : Type} `{!SegStore S, !SegTrans S, !SegTransLaws S}.
Implicit Types (s : S) (es : list Entry.Entry) (e : Entry.Entry).

Lemma refs_cons e es id i :
  refs (e :: es) id i =
    (if Entry.seg_id e =? id then span_refs (Entry.spans e) i else 0) + refs es id i.
Proof. done. Qed.

(** What [link] needs: the segments are there, the ranges fit, the counters have room. *)
Definition link_pre s es : Prop :=
  writable s ∧ ∀ e, e ∈ es → ¬ deleted s (Entry.seg_id e) ∧
    ∃ seg, get_seg s (Entry.seg_id e) = Ok seg ∧ seg_ok seg ∧ spans_in seg (Entry.spans e) ∧
      Forall (λ sp, linkable seg (Span.begin sp) (Span.end_ sp)) (Entry.spans e) ∧
      ∀ i c, zget (chunks seg) i = Some c → refcnt c + refs es (Entry.seg_id e) i < U32.

Lemma link_entry_ok s e seg :
  writable s → ¬ deleted s (Entry.seg_id e) → get_seg s (Entry.seg_id e) = Ok seg →
  seg_ok seg → spans_in seg (Entry.spans e) →
  Forall (λ sp, linkable seg (Span.begin sp) (Span.end_ sp)) (Entry.spans e) →
  (∀ i c, zget (chunks seg) i = Some c → refcnt c + span_refs (Entry.spans e) i < U32) →
  ∃ s' seg', link_entry s e = Ok s' ∧ writable s' ∧ (∀ i, deleted s' i ↔ deleted s i) ∧
    (∀ i, get_segdata s' i = get_segdata s i) ∧
    (∀ i, get_seg s' i = if decide (i = Entry.seg_id e) then Ok seg' else get_seg s i) ∧
    seg_ok seg' ∧ added (span_refs (Entry.spans e)) (chunks seg) (chunks seg') ∧
    len seg' = len seg ∧ data_id seg' = data_id seg.
Proof.
  intros Hw Hnd Hs Hok Hin Hlk Hr. unfold link_entry. rewrite Hs, bind_ok.
  destruct (make_mut_law s _ _ Hw Hs Hnd) as (s1 & -> & Hw1 & [Hv Hvd] & Hd1).
  rewrite bind_ok, Hv, Hs, bind_ok.
  destruct (ref_spans_ok seg _ Hok Hin Hlk Hr) as (seg' & -> & Hok' & Ha & Hl & Hd).
  rewrite bind_ok. destruct (set_law s1 (Entry.seg_id e) seg' Hw1) as (Hw2 & Hd2 & Hg & Hgd).
  eexists _, seg'. split; [done|]. split; [done|].
  split; [intros i; by rewrite Hd2, Hd1|]. split; [intros i; by rewrite Hgd, Hvd|].
  split; [intros i; by rewrite Hg, Hv|done].
Qed.

Lemma linkable_added f seg seg' (b e : Z) :
  added f (chunks seg) (chunks seg') → (∀ i, 0 ≤ f i) → len seg' = len seg →
  linkable seg b e → linkable seg' b e.
Proof.
  intros Ha Hf Hl [Hal|Ht].
  - left. intros i c Hi Hc. rewrite Ha in Hc.
    destruct (zget (chunks seg) i) as [c0|] eqn:Hc0; [|done]. injection Hc as <-.
    specialize (Hal i c0 Hi Hc0). specialize (Hf i). simpl. lia.
  - right. by rewrite (added_total_len _ _ _ Ha), Hl.
Qed.

Lemma link_entries_ok s es :
  link_pre s es →
  ∃ s', foldM link_entry s es = Ok s' ∧ writable s' ∧ (∀ i, deleted s' i ↔ deleted s i) ∧
    (∀ i, get_segdata s' i = get_segdata s i) ∧
    ∀ id seg, get_seg s id = Ok seg → ∃ seg', get_seg s' id = Ok seg' ∧
      added (refs es id) (chunks seg) (chunks seg') ∧
      len seg' = len seg ∧ data_id seg' = data_id seg ∧ (seg_ok seg → seg_ok seg').
Proof.
  revert s. induction es as [|e es IH]; intros s [Hw Hpre].
  { exists s. split; [done|]. split; [done|]. split; [done|]. split; [done|].
    intros id seg Hs. exists seg. split; [done|]. split; [by apply added_refl|done]. }
  destruct (Hpre e) as (Hnd & seg & Hs & Hok & Hin & Hlk & Hr); [left|].
  destruct (link_entry_ok s e seg) as (s1 & seg1 & Heq & Hw1 & Hd1 & Hgd1 & Hg1 & Hok1 & Ha1 & Hl1 & Hdi1);
    [done..| |].
  { intros i c Hc. specialize (Hr i c Hc). rewrite refs_cons, Z.eqb_refl in Hr.
    pose proof (refs_nonneg es (Entry.seg_id e) i). lia. }
  cbn [foldM]. rewrite Heq, bind_ok. destruct (IH s1) as (s' & -> & Hw' & Hd' & Hgd' & Hall).
  { split; [done|]. intros e' He'. destruct (Hpre e') as (Hnd' & seg' & Hs' & Hok' & Hin' & Hlk' & Hr');
      [by right|]. rewrite Hd1, Hg1. split; [done|].
    destruct (decide (Entry.seg_id e' = Entry.seg_id e)) as [Heq'|Hne].
    - rewrite Heq', Hs in Hs'. injection Hs' as <-. exists seg1. split; [done|]. split; [done|].
      split; [unfold spans_in; by rewrite (added_zlen _ _ _ Ha1)|]. split.
      + eapply Forall_impl; [exact Hlk'|]. intros sp. simpl.
        eapply linkable_added; [done|intros; apply span_refs_nonneg|done].
      + intros i c Hc. rewrite Ha1 in Hc. destruct (zget (chunks seg) i) as [c0|] eqn:Hc0; [|done].
        injection Hc as <-. specialize (Hr' i c0 Hc0).
        rewrite refs_cons, <- Heq', Z.eqb_refl in Hr'. simpl. lia.
    - exists seg'. split; [done|]. split; [done|]. split; [done|]. split; [done|].
      intros i c Hc. specialize (Hr' i c Hc). rewrite refs_cons in Hr'.
      rewrite (proj2 (Z.eqb_neq _ _)) in Hr' by done. lia. }
  exists s'. split; [done|]. split; [done|]. split; [intros i; by rewrite Hd', Hd1|].
  split; [intros i; by rewrite Hgd', Hgd1|]. intros id sg Hsg.
  destruct (decide (id = Entry.seg_id e)) as [->|Hne].
  - rewrite Hs in Hsg. injection Hsg as <-.
    destruct (Hall (Entry.seg_id e) seg1) as (seg' & Hs' & Ha' & Hl' & Hdi' & Hk');
      [by rewrite Hg1, decide_True|].
    exists seg'. split; [done|]. split; [|by rewrite Hl', Hdi'; auto].
    eapply added_trans; [done..|]. intros i. by rewrite refs_cons, Z.eqb_refl.
  - destruct (Hall id sg) as (seg' & Hs' & Ha' & Hl' & Hdi' & Hk');
      [by rewrite Hg1, decide_False|].
    exists seg'. split; [done|]. split; [|done]. intros i.
    rewrite Ha', refs_cons, (proj2 (Z.eqb_neq _ _)) by done. done.
Qed.
End link_laws.

(** A segment and its data after [f i] references to each chunk [i] were given up: live
    chunks keep their bytes, wherever they moved. *)
Definition unlinked (f : Z → Z) (seg : Segment) (data : list byte) (seg' : Segment)
    (data' : list byte) : Prop :=
  seg_ok seg' ∧ data_ok (chunks seg') data' ∧ zlen data' < U64 ∧
  zlen (chunks seg') = zlen (chunks seg) ∧
  ∀ i c, zget (chunks seg) i = Some c → ∃ c', zget (chunks seg') i = Some c' ∧
    clen c' = clen c ∧ refcnt c' = refcnt c - f i ∧
    (0 < refcnt c' → chunk_bytes data' c' = chunk_bytes data c).

Lemma unlinked_refl seg data :
  seg_ok seg → data_ok (chunks seg) data → zlen data < U64 → unlinked (λ _, 0) seg data seg data.
Proof.
  intros. do 4 (split; [done|]). intros i c Hc. exists c. split_and!; try done; lia.
Qed.
Lemma unlinked_trans f g h seg1 d1 seg2 d2 seg3 d3 :
  unlinked f seg1 d1 seg2 d2 → unlinked g seg2 d2 seg3 d3 →
  (∀ i, h i = f i + g i) → (∀ i, 0 ≤ g i) → unlinked h seg1 d1 seg3 d3.
Proof.
  intros (_ & _ & _ & Hz1 & H1) (Hok & Hd & Hdl & Hz2 & H2) Hh Hg.
  split; [done|]. split; [done|]. split; [done|]. split; [lia|]. intros i c Hc.
  destruct (H1 i c Hc) as (c2 & Hc2 & Hl2 & Hr2 & Hb2).
  destruct (H2 i c2 Hc2) as (c3 & Hc3 & Hl3 & Hr3 & Hb3). exists c3.
  split; [done|]. split; [lia|]. rewrite Hh. split; [lia|]. intros Hpos. specialize (Hg i).
  rewrite Hb3 by done. apply Hb2. lia.
Qed.
Lemma unlinked_ext f g seg d seg' d' :
  unlinked f seg d seg' d' → (∀ i, f i = g i) → unlinked g seg d seg' d'.
Proof.
  intros (? & ? & ? & ? & Hi) Hfg. do 4 (split; [done|]). intros i c Hc. rewrite <- Hfg. by apply Hi.
Qed.

Lemma zget_Forall_intro {A} (P : A → Prop) l :
  (∀ i x, zget l i = Some x → P x) → Forall P l.
Proof.
  intros H. apply Forall_lookup. intros i x Hx. apply (H (Z.of_nat i)). apply zget_Some.
  split; [lia|]. by rewrite Nat2Z.id.
Qed.

Lemma live_iff c : chunk_ok c → Chunk.is_orphan c = false ↔ 0 < refcnt c.
Proof.
  intros (_ & _ & [? _] & _). unfold Chunk.is_orphan, RefCnt.val. rewrite Z.eqb_neq. lia.
Qed.

Lemma deref_unlinked f seg data seg' :
  seg_ok seg → data_ok (chunks seg) data → zlen data < U64 → seg_ok seg' → (∀ i, 0 ≤ f i) →
  added (λ i, - f i) (chunks seg) (chunks seg') → unlinked f seg data seg' data.
Proof.
  intros Hok Hd Hdl Hok' Hf Ha. split; [done|]. split; [|split; [done|split]].
  - apply zget_Forall_intro. intros i c' Hc'. rewrite Ha in Hc'.
    destruct (zget (chunks seg) i) as [c|] eqn:Hc; [|done]. injection Hc' as <-.
    destruct Hok as (HF & _). pose proof (zget_Forall _ _ _ _ Hc HF) as Hck.
    intros Hlive. apply (zget_Forall _ _ _ _ Hc Hd). apply live_iff; [done|].
    destruct Hok' as (HF' & _).
    assert (Hck' : chunk_ok (add_ref (- f i) c)).
    { eapply zget_Forall; [|exact HF']. rewrite Ha, Hc. done. }
    apply live_iff in Hlive; [|done]. simpl in Hlive. specialize (Hf i). lia.
  - by eapply added_zlen.
  - intros i c Hc. exists (add_ref (- f i) c). rewrite Ha, Hc. simpl. split_and!; try done; lia.
Qed.

Lemma Forall2_zget {A B} (P : A → B → Prop) l l' i x :
  Forall2 P l l' → zget l i = Some x → ∃ y, zget l' i = Some y ∧ P x y.
Proof.
  intros HF [Hi Hx]%zget_Some. destruct (Forall2_lookup_l _ _ _ _ _ HF Hx) as (y & Hy & Hp).
  exists y. split; [|done]. by apply zget_Some.
Qed.

Lemma shrink_unlinked seg data nid seg' buf :
  seg_ok seg → data_ok (chunks seg) data → len seg' = used seg → used seg' = used seg →
  zlen buf = used seg → Forall2 (shrunk data buf) (chunks seg) (chunks seg') →
  live_sum (chunks seg') = used seg → data_id seg' = nid →
  unlinked (λ _, 0) seg data seg' buf.
Proof.
  intros (HF & Hu & Hle & Hlt) Hd Hl Hu' Hbl H2 Hls Hid.
  destruct (shrunk_ok _ _ _ _ H2 ltac:(lia) HF) as [HF' Hd'].
  split; [unfold seg_ok; split_and!; try done; lia|]. split; [done|]. split; [lia|].
  split; [unfold zlen; by rewrite (Forall2_length _ _ _ H2)|]. intros i c Hc.
  destruct (Forall2_zget _ _ _ _ _ H2 Hc) as (c' & Hc' & Hcl & Hr & Hlive & _).
  exists c'. split; [done|]. split; [done|]. split; [lia|]. intros Hpos. apply Hlive.
  apply live_iff; [by eapply zget_Forall|lia].
Qed.

Lemma live_sum_zero cs i c :
  Forall chunk_ok cs → live_sum cs = 0 → zget cs i = Some c → refcnt c = 0.
Proof.
  intros HF Hs Hc. destruct (zget_split _ _ _ Hc) as [Hl _]. rewrite Hl in Hs, HF.
  apply Forall_app in HF as [H1 [Hck H2]%Forall_cons].
  unfold live_sum in Hs. rewrite zsum_app, zsum_cons in Hs.
  pose proof (live_sum_nonneg _ H1) as Hn1. pose proof (live_sum_nonneg _ H2) as Hn2.
  unfold live_sum in Hn1, Hn2. pose proof Hck as (_ & ? & [? _] & _).
  destruct (Chunk.is_orphan c) eqn:Ho.
  - unfold Chunk.is_orphan, RefCnt.val in Ho. by zify_b.
  - assert (live_len c = clen c) by (unfold live_len; by rewrite Ho). lia.
Qed.

Section unlink_laws.
Context {S Hash M : Type} `{!SegStore S, !SegTrans S, !SegTransLaws S}.
Context `{!EqDecision Hash, !LinkedMapOps Hash ChunkMap.ChunkIdx M,
  !LinkedMap Hash ChunkMap.ChunkIdx M}.
Implicit Types (s : S) (es : list Entry.Entry) (e : Entry.Entry) (cm : ChunkMap.ChunkMap M).

(** Nothing but the segment [id] (and the data it owns) differs. *)
Definition frame (id : Eid) s s' : Prop :=
  ∀ i, i ≠ id → get_seg s' i = get_seg s i ∧ (deleted s' i ↔ deleted s i) ∧
    ∀ seg, get_seg s i = Ok seg → get_segdata s' (data_id seg) = get_segdata s (data_id seg).

Lemma seg_remove_ok s id seg :
  writable s → ¬ deleted s id → get_seg s id = Ok seg →
  ∃ s', remove s id = Ok s' ∧ writable s' ∧ frame id s s' ∧ deleted s' id.
Proof.
  intros Hw Hnd Hs. unfold remove. rewrite Hs, bind_ok.
  destruct (to_trans_law s (data_id seg) Delete Hw) as (s1 & -> & Hw1 & [Hv1 Hvd1] & Hd1).
  rewrite bind_ok. destruct (make_del_law s1 id seg Hw1) as (s2 & -> & Hw2 & [Hv2 Hvd2] & Hd2);
    [by rewrite Hv1|by rewrite Hd1|].
  exists s2. split; [done|]. split; [done|]. split; [|apply Hd2; by right].
  intros i Hi. rewrite Hv2, Hv1, Hd2, Hd1. split; [done|]. split; [naive_solver|].
  intros sg _. by rewrite Hvd2, Hvd1.
Qed.

Lemma shrink_seg_ok s id seg data :
  writable s → ¬ deleted s id → get_seg s id = Ok seg →
  get_segdata s (data_id seg) = Ok data →
  seg_ok seg → data_ok (chunks seg) data → zlen data < U64 →
  ∃ s' seg' data', shrink_seg s id = Ok (s', orphans 0 (chunks seg)) ∧ writable s' ∧
    frame id s s' ∧ ¬ deleted s' id ∧ get_seg s' id = Ok seg' ∧
    get_segdata s' (data_id seg') = Ok data' ∧ unlinked (λ _, 0) seg data seg' data'.
Proof.
  intros Hw Hnd Hs Hsd Hok Hd Hdl. unfold shrink_seg.
  destruct (make_mut_law s _ _ Hw Hs Hnd) as (s1 & -> & Hw1 & [Hv1 Hvd1] & Hd1).
  rewrite bind_ok, Hv1, Hs, bind_ok, Hvd1, Hsd, bind_ok.
  destruct (uncache_law s1 (data_id seg) data Hw1) as (s2 & -> & Hw2 & [Hv2 Hvd2] & Hd2);
    [by rewrite Hvd1|]. rewrite bind_ok.
  destruct (fresh_law s2 Hw2) as (Hw3 & [Hv3 Hvd3] & Hd3 & Hfr).
  destruct (fresh_id s2) as [nid s3]. simpl in Hw3, Hv3, Hvd3, Hd3, Hfr.
  destruct (shrink_ok seg data nid Hok Hd Hdl)
    as (seg' & buf & -> & Hid & Hl & Hu & Hbl & H2 & _ & Hls). rewrite bind_ok.
  cbn [foldM run_effect].
  destruct (to_trans_law s3 (data_id seg) Delete Hw3) as (s4 & -> & Hw4 & [Hv4 Hvd4] & Hd4).
  rewrite bind_ok. destruct (save_law s4 nid buf Hw4) as (s5 & -> & Hw5 & Hd5 & Hv5 & Hvd5).
  rewrite bind_ok.
  destruct (to_trans_law s5 nid New Hw5) as (s6 & -> & Hw6 & [Hv6 Hvd6] & Hd6).
  rewrite !bind_ok. destruct (set_law s6 id seg' Hw6) as (Hw7 & Hd7 & Hv7 & Hvd7).
  assert (Hv : ∀ i, get_seg s6 i = get_seg s i) by
    (intros i; by rewrite Hv6, Hv5, Hv4, Hv3, Hv2, Hv1).
  eexists _, seg', buf. split; [done|]. split; [done|]. split.
  { intros i Hi. rewrite Hv7, decide_False, Hv by done. split; [done|].
    split; [by rewrite Hd7, Hd6, Hd5, Hd4, Hd3, Hd2, Hd1|].
    intros sg Hsg. rewrite Hvd7, Hvd6, Hvd5, decide_False, Hvd4, Hvd3, Hvd2, Hvd1; [done|].
    eapply Hfr. by rewrite Hv2, Hv1. }
  split; [by rewrite Hd7, Hd6, Hd5, Hd4, Hd3, Hd2, Hd1|].
  split; [by rewrite Hv7, decide_True|]. split; [by rewrite Hvd7, Hvd6, Hvd5, Hid, decide_True|].
  by eapply shrink_unlinked.
Qed.

Lemma frame_trans id s1 s2 s3 : frame id s1 s2 → frame id s2 s3 → frame id s1 s3.
Proof.
  intros H1 H2 i Hi. destruct (H1 i Hi) as (Hg1 & Hd1 & Hsd1).
  destruct (H2 i Hi) as (Hg2 & Hd2 & Hsd2). rewrite Hg2, Hg1, Hd2, Hd1. split; [done|].
  split; [done|]. intros sg Hsg. rewrite Hsd2, Hsd1; [done..|]. by rewrite Hg1.
Qed.

(** The outcome for one segment that gives up [f]. *)
Definition gone_or_unlinked (f : Z → Z) s s' (id : Eid) (seg : Segment) (data : list byte) : Prop :=
  (deleted s' id ∧ ∀ i c, zget (chunks seg) i = Some c → refcnt c = f i) ∨
  (¬ deleted s' id ∧ ∃ seg' data', get_seg s' id = Ok seg' ∧
    get_segdata s' (data_id seg') = Ok data' ∧ unlinked f seg data seg' data').

(** The chunk map only loses entries, and all those of deleted segments. *)
Definition map_shrunk cm s cm' s' : Prop :=
  ChunkMap.ok (Hash:=Hash) cm' ∧ ∀ h l, ChunkMap.lookup cm' h = Some l →
    ChunkMap.lookup cm h = Some l ∧ (deleted s' l.1 → deleted s l.1).

Lemma unlink_entry_ok cm s e seg data :
  ChunkMap.ok (Hash:=Hash) cm →
  writable s → ¬ deleted s (Entry.seg_id e) → get_seg s (Entry.seg_id e) = Ok seg →
  get_segdata s (data_id seg) = Ok data → seg_ok seg → data_ok (chunks seg) data →
  zlen data < U64 → spans_in seg (Entry.spans e) →
  (∀ i c, zget (chunks seg) i = Some c → span_refs (Entry.spans e) i ≤ refcnt c) →
  ∃ cm' s', unlink_entry (Hash:=Hash) (cm, s) e = Ok (cm', s') ∧ writable s' ∧
    frame (Entry.seg_id e) s s' ∧ map_shrunk cm s cm' s' ∧
    gone_or_unlinked (span_refs (Entry.spans e)) s s' (Entry.seg_id e) seg data.
Proof.
  intros Hcm Hw Hnd Hs Hsd Hok Hd Hdl Hin Hr. unfold unlink_entry. rewrite Hs, bind_ok.
  set (id := Entry.seg_id e) in *.
  destruct (make_mut_law s _ _ Hw Hs Hnd) as (s1 & -> & Hw1 & [Hv1 Hvd1] & Hd1).
  rewrite bind_ok, Hv1, Hs, bind_ok.
  destruct (deref_spans_ok seg _ Hok Hin Hr) as (seg1 & -> & Hok1 & Ha & Hl & Hdi).
  rewrite bind_ok. destruct (set_law s1 id seg1 Hw1) as (Hw2 & Hd2 & Hg2 & Hgd2).
  set (s2 := seg_set s1 id seg1) in *. clearbody s2.
  assert (Hun : unlinked (span_refs (Entry.spans e)) seg data seg1 data).
  { apply deref_unlinked; try done. intros. apply span_refs_nonneg. }
  assert (Hfr2 : frame id s s2).
  { intros i Hi. rewrite Hg2, decide_False, Hv1 by done. split; [done|].
    split; [by rewrite Hd2, Hd1|]. intros sg _. by rewrite Hgd2, Hvd1. }
  assert (Hnd2 : ¬ deleted s2 id) by by rewrite Hd2, Hd1.
  assert (Hgs2 : get_seg s2 id = Ok seg1) by by rewrite Hg2, decide_True.
  assert (Hsd2 : get_segdata s2 (data_id seg1) = Ok data) by by rewrite Hdi, Hgd2, Hvd1.
  destruct (is_orphan seg1) eqn:Ho.
  - unfold is_orphan in Ho. zify_b.
    destruct (seg_remove_ok s2 id seg1 Hw2 Hnd2 Hgs2) as (s3 & -> & Hw3 & Hfr3 & Hd3).
    rewrite bind_ok. eexists _, s3. split; [done|]. split; [done|].
    split; [by eapply frame_trans|]. split; [split|].
    + by apply ChunkMap.remove_segment_ok.
    + intros h l. destruct (ChunkMap.remove_segment_ok cm id Hcm) as [_ Hlk]. rewrite Hlk.
      destruct (ChunkMap.lookup cm h) as [l'|]; [|done]. simpl.
      case_decide as Hl'; [done|]. intros [= <-]. split; [done|].
      by rewrite (proj1 (proj2 (Hfr3 _ Hl'))), Hd2, Hd1.
    + left. split; [done|]. intros i c Hc.
      destruct Hun as (_ & _ & _ & _ & Hi). destruct (Hi i c Hc) as (c' & Hc' & _ & Hrc & _).
      destruct Hok1 as (HF1 & Hu1 & _). rewrite Hu1 in Ho.
      pose proof (live_sum_zero _ _ _ HF1 Ho Hc'). lia.
  - destruct (is_shrinkable seg1).
    + pose proof Hun as (_ & Hd1' & _).
      destruct (shrink_seg_ok s2 id seg1 data Hw2 Hnd2 Hgs2 Hsd2 Hok1 Hd1' Hdl)
        as (s3 & seg3 & data3 & -> & Hw3 & Hfr3 & Hnd3 & Hgs3 & Hsd3 & Hun3).
      rewrite bind_ok. eexists _, s3. split; [done|]. split; [done|].
      split; [by eapply frame_trans|]. split; [split|].
      * by apply ChunkMap.remove_chunks_ok.
      * intros h l. destruct (ChunkMap.remove_chunks_ok cm id (orphans 0 (chunks seg1)) Hcm)
          as [_ Hlk]. rewrite Hlk.
        destruct (ChunkMap.lookup cm h) as [l'|]; [|done]. simpl.
        case_decide; [done|]. intros [= <-]. split; [done|].
        destruct (decide (l'.1 = id)) as [->|Hne]; [done|].
        by rewrite (proj1 (proj2 (Hfr3 _ Hne))), Hd2, Hd1.
      * right. split; [done|]. exists seg3, data3. split; [done|]. split; [done|].
        eapply unlinked_trans; [exact Hun|exact Hun3|intros; simpl; lia|done].
    + eexists _, s2. split; [done|]. split; [done|]. split; [done|]. split; [split; [done|]|].
      * intros h l Hl'. split; [done|]. by rewrite Hd2, Hd1.
      * right. split; [done|]. by exists seg1, data.
Qed.

(** What [unlink] needs: the segments and their data are there and every counter covers
    the references given up. *)
Definition unlink_pre s es : Prop :=
  writable s ∧ ∀ e, e ∈ es → ¬ deleted s (Entry.seg_id e) ∧ Entry.spans e ≠ [] ∧
    ∃ seg data, get_seg s (Entry.seg_id e) = Ok seg ∧
      get_segdata s (data_id seg) = Ok data ∧ seg_ok seg ∧ data_ok (chunks seg) data ∧
      zlen data < U64 ∧ spans_in seg (Entry.spans e) ∧
      ∀ i c, zget (chunks seg) i = Some c → refs es (Entry.seg_id e) i ≤ refcnt c.

(** An entry still to come references a chunk of its segment. *)
Lemma refs_pos es e seg :
  e ∈ es → Entry.spans e ≠ [] → spans_in seg (Entry.spans e) →
  ∃ i c, zget (chunks seg) i = Some c ∧ 0 < refs es (Entry.seg_id e) i.
Proof.
  intros He Hne Hin. destruct (Entry.spans e) as [|sp sps] eqn:Hsp; [done|].
  apply Forall_cons in Hin as [[Hb Hz] _].
  destruct (zget_is_Some (chunks seg) (Span.begin sp)) as [c Hc]; [lia|].
  exists (Span.begin sp), c. split; [done|].
  apply list_elem_of_split in He as (es1 & es2 & ->).
  unfold refs. rewrite zsum_app, zsum_cons, Z.eqb_refl, Hsp.
  fold (refs es1 (Entry.seg_id e) (Span.begin sp)) (refs es2 (Entry.seg_id e) (Span.begin sp)).
  pose proof (refs_nonneg es1 (Entry.seg_id e) (Span.begin sp)).
  pose proof (refs_nonneg es2 (Entry.seg_id e) (Span.begin sp)).
  pose proof (span_refs_nonneg sps (Span.begin sp)).
  unfold span_refs at 1. rewrite zsum_cons, bool_decide_true by lia.
  fold (span_refs sps (Span.begin sp)). lia.
Qed.

Lemma unlink_pre_tail s s1 e es seg data :
  unlink_pre s (e :: es) → writable s1 → frame (Entry.seg_id e) s s1 →
  get_seg s (Entry.seg_id e) = Ok seg →
  gone_or_unlinked (span_refs (Entry.spans e)) s s1 (Entry.seg_id e) seg data →
  unlink_pre s1 es.
Proof.
  intros [_ Hpre] Hw1 Hfr Hs Hout. split; [done|]. intros e' He'.
  destruct (Hpre e') as (Hnd' & Hne' & seg' & data' & Hs' & Hsd' & Hok' & Hd' & Hdl' & Hin' & Hr');
    [by right|].
  destruct (decide (Entry.seg_id e' = Entry.seg_id e)) as [Heq|Hne].
  - rewrite Heq in *. rewrite Hs in Hs'. injection Hs' as <-.
    assert (Hle : ∀ i c, zget (chunks seg) i = Some c →
      refs es (Entry.seg_id e) i ≤ refcnt c - span_refs (Entry.spans e) i).
    { intros i c Hc. specialize (Hr' i c Hc). rewrite refs_cons, Z.eqb_refl in Hr'. lia. }
    destruct Hout as [[_ Hgone]|(Hnd1 & seg1 & data1 & Hs1 & Hsd1 & Hun)].
    + exfalso. destruct (refs_pos es e' seg) as (i & c & Hc & Hpos); [done..|].
      specialize (Hle i c Hc). rewrite (Hgone i c Hc) in Hle. rewrite Heq in Hpos. lia.
    + split; [done|]. split; [done|]. exists seg1, data1.
      destruct Hun as (Hok1 & Hd1 & Hdl1 & Hz1 & Hi). unfold spans_in in *. rewrite Hz1.
      do 6 (split; [done|]). intros i c' Hc'.
      destruct (zget_is_Some (chunks seg) i) as [c Hc].
      { apply zget_lt in Hc'. lia. }
      destruct (Hi i c Hc) as (c2 & Hc2 & _ & Hrc & _). rewrite Hc' in Hc2. injection Hc2 as <-.
      specialize (Hle i c Hc). lia.
  - destruct (Hfr _ Hne) as (Hg & Hdel & Hsd). rewrite Hdel, Hg. split; [done|].
    split; [done|]. exists seg', data'. rewrite (Hsd _ Hs'). do 6 (split; [done|]).
    intros i c Hc. specialize (Hr' i c Hc). rewrite refs_cons in Hr'.
    rewrite (proj2 (Z.eqb_neq _ _)) in Hr' by done. lia.
Qed.

Lemma unlink_entries_ok cm s es :
  ChunkMap.ok (Hash:=Hash) cm → unlink_pre s es →
  ∃ cm' s', foldM (unlink_entry (Hash:=Hash)) (cm, s) es = Ok (cm', s') ∧ writable s' ∧
    map_shrunk cm s cm' s' ∧ (∀ i, deleted s i → deleted s' i) ∧
    ∀ id seg data, ¬ deleted s id → get_seg s id = Ok seg →
      get_segdata s (data_id seg) = Ok data → seg_ok seg → data_ok (chunks seg) data →
      zlen data < U64 → gone_or_unlinked (refs es id) s s' id seg data.
Proof.
  revert cm s. induction es as [|e es IH]; intros cm s Hcm Hpre.
  { exists cm, s. destruct Hpre as [Hw _]. split; [done|]. split; [done|]. split; [done|].
    split; [done|]. intros id seg data Hnd Hs Hsd Hok Hd Hdl. right. split; [done|].
    exists seg, data. do 2 (split; [done|]). by apply unlinked_refl. }
  pose proof Hpre as [Hw Hpre']. destruct (Hpre' e)
    as (Hnd & Hne & seg & data & Hs & Hsd & Hok & Hd & Hdl & Hin & Hr); [left|].
  assert (Hr1 : ∀ i c, zget (chunks seg) i = Some c →
    span_refs (Entry.spans e) i + refs es (Entry.seg_id e) i ≤ refcnt c).
  { intros i c Hc. specialize (Hr i c Hc). by rewrite refs_cons, Z.eqb_refl in Hr. }
  destruct (unlink_entry_ok cm s e seg data)
    as (cm1 & s1 & Heq & Hw1 & Hfr & [Hcm1 Hmap] & Hout); try done.
  { intros i c Hc. specialize (Hr1 i c Hc). pose proof (refs_nonneg es (Entry.seg_id e) i). lia. }
  assert (Hmono : ∀ i, deleted s i → deleted s1 i).
  { intros i Hi. destruct (decide (i = Entry.seg_id e)) as [->|Hne']; [done|].
    by apply (Hfr i Hne'). }
  destruct (IH cm1 s1 Hcm1) as (cm' & s' & Heq' & Hw' & [Hcm' Hmap'] & Hmono' & Hall).
  { by eapply unlink_pre_tail. }
  cbn [foldM]. rewrite Heq, bind_ok, Heq'. exists cm', s'. split; [done|]. split; [done|].
  split; [split; [done|]|split; [by auto|]].
  - intros h l Hl. destruct (Hmap' h l Hl) as [Hl1 Hdl1]. destruct (Hmap h l Hl1). by auto.
  - intros id sg dt Hnd' Hs' Hsd' Hok' Hd' Hdl'.
    destruct (decide (id = Entry.seg_id e)) as [->|Hne'].
    + rewrite Hs in Hs'. injection Hs' as <-. rewrite Hsd in Hsd'. injection Hsd' as <-.
      assert (Hrf : ∀ i, refs (e :: es) (Entry.seg_id e) i =
        span_refs (Entry.spans e) i + refs es (Entry.seg_id e) i)
        by (intros; by rewrite refs_cons, Z.eqb_refl).
      destruct Hout as [[Hdel Hgone]|(Hnd1 & seg1 & data1 & Hs1 & Hsd1 & Hun)].
      * left. split; [by auto|]. intros i c Hc. specialize (Hr1 i c Hc).
        rewrite Hrf. pose proof (refs_nonneg es (Entry.seg_id e) i).
        specialize (Hgone i c Hc). lia.
      * pose proof Hun as (Hok1 & Hd1 & Hdl1 & _ & Hi).
        destruct (Hall _ _ _ Hnd1 Hs1 Hsd1 Hok1 Hd1 Hdl1)
          as [[Hdel Hgone]|(Hnd2 & seg2 & data2 & Hs2 & Hsd2 & Hun2)].
        { left. split; [done|]. intros i c Hc. destruct (Hi i c Hc) as (c' & Hc' & _ & Hrc & _).
          rewrite Hrf. specialize (Hgone i c' Hc'). lia. }
        right. split; [done|]. exists seg2, data2. do 2 (split; [done|]).
        eapply unlinked_trans; [exact Hun|exact Hun2|exact Hrf|]. intros. apply refs_nonneg.
    + destruct (Hfr _ Hne') as (Hg & Hdel & Hsdf).
      assert (Hrf : ∀ i, refs es id i = refs (e :: es) id i).
      { intros i. by rewrite refs_cons, (proj2 (Z.eqb_neq _ _)). }
      destruct (Hall id sg dt) as [[Hdl1 Hgone]|(Hnd2 & seg2 & data2 & Hs2 & Hsd2 & Hun2)];
        try done; [by rewrite Hdel|by rewrite Hg|by rewrite (Hsdf _ Hs')| |].
      * left. split; [done|]. intros i c Hc. rewrite <- Hrf. by eapply Hgone.
      * right. split; [done|]. exists seg2, data2. do 2 (split; [done|]).
        by eapply unlinked_ext.
Qed.
End unlink_laws.
