(* ===== verification/Merkle.v ===== *)
(** * src/content/merkle_tree.rs: the Merkle tree that names a content.

    The node vector holds the levels root first, leaves last. [merge] and [truncate] update a
    tree in place and re-use what they can; the reference is the tree built afresh. *)
From S2P Require Import Prelude Base.

Abbreviation byte := Z.

Definition PIECE_SIZE : Z := 256 * 1024.

Definition align_piece_offset (n : Z) : res Z := Utils.align_offset n PIECE_SIZE.
Definition align_piece_floor (n : Z) : res Z := Utils.align_floor n PIECE_SIZE.
Definition align_piece_floor_chunk (n : Z) : res Z := Utils.align_floor_chunk n PIECE_SIZE.
Definition align_piece_ceil_chunk (n : Z) : res Z := Utils.align_ceil_chunk n PIECE_SIZE.

Definition parent (n lvl_begin lvl_node_cnt : Z) : res Z :=
  if lvl_node_cnt =? 0 then Ok 0
  else
    let upper_lvl_node_cnt := (lvl_node_cnt + 1) / 2 in
    upper_lvl_begin ← u_sub lvl_begin upper_lvl_node_cnt;
    d ← u_sub n lvl_begin;
    u_add upper_lvl_begin (d / 2).

(** A [while] loop over levels halves a [usize]: 64 rounds are enough. *)
Definition LEVELS : nat := 64.

Fixpoint tree_node_cnt_loop (fuel : nat) (s n : Z) : res Z :=
  if n <=? 1 then Ok s
  else match fuel with
       | O => Panic
       | S fuel => s ← u_add s n; tree_node_cnt_loop fuel s ((n + 1) / 2)
       end.
Definition tree_node_cnt (leaf_cnt : Z) : res Z := tree_node_cnt_loop LEVELS 1 leaf_cnt.

(** [indices.chunks(2)]. *)
Fixpoint chunks2 {A} (l : list A) : list (list A) :=
  match l with
  | a :: b :: l => [a; b] :: chunks2 l
  | [a] => [[a]]
  | [] => []
  end.

(** [v.resize(n, x)]. *)
Definition vresize {A} (l : list A) (n : Z) (x : A) : list A :=
  ztake n l ++ replicate (Z.to_nat (n - zlen l)) x.
(** The result of reading [n] bytes at a position. *)
Abbreviation Reader := (Z → Z → res (list byte)).

Section merkle.
(** [Crypto::hash] (libsodium's generic hash) of a byte string; hashing in parts is hashing
    the concatenation. A hash is its bytes. *)
Context (crypto_hash : list byte → list byte).
Abbreviation Hash := (list byte).

Definition new_empty : Hash := replicate 32 0.

Record Leaves := mkLeaves { loffset : Z; llen : Z; lnodes : list Hash }.
Record MerkleTree := mkTree { mlen : Z; nodes : list Hash }.

Definition lend_offset (l : Leaves) : res Z := u_add (loffset l) (llen l).
Definition leaf_cnt (t : MerkleTree) : res Z := align_piece_ceil_chunk (mlen t).
Definition inner_cnt (t : MerkleTree) : res Z := n ← leaf_cnt t; u_sub (zlen (nodes t)) n.
Definition root_hash (t : MerkleTree) : res Hash := vindex (nodes t) 0.

(** Reads stop at a short read of zero bytes; every other read advances. *)
Fixpoint piece_hash_loop (fuel : nat) (rdr : Reader) (base pos : Z) (state : list byte)
    : res Hash :=
  match fuel with
  | O => Panic
  | S fuel =>
      d ← rdr (base + pos) (PIECE_SIZE - pos);
      if zlen d =? 0 then Ok (crypto_hash state)
      else piece_hash_loop fuel rdr base (pos + zlen d) (state ++ d)
  end.
Definition piece_hash (offset : Z) (rdr : Reader) : res Hash :=
  base ← align_piece_floor offset;
  piece_hash_loop (S (Z.to_nat PIECE_SIZE)) rdr base 0 [].

Definition hash_up (ns : list Hash) (indices : list Z) (lvl_begin lvl_node_cnt : Z)
    : res (list Hash) :=
  match indices with
  | [m; _] =>
      p ← parent m lvl_begin lvl_node_cnt;
      a ← vindex ns m;
      b ← vindex ns (m + 1);
      vset ns p (crypto_hash (a ++ b))
  | [m] =>
      p ← parent m lvl_begin lvl_node_cnt;
      a ← vindex ns m;
      vset ns p a
  | _ => Panic
  end.

Fixpoint build_loop (fuel : nat) (begin end_ lvl_node_cnt : Z) (ns : list Hash)
    : res (list Hash) :=
  if begin <? 1 then Ok ns
  else match fuel with
       | O => Panic
       | S fuel =>
           ns ← foldM (λ ns pair, hash_up ns pair begin lvl_node_cnt) ns
                  (chunks2 (range begin end_));
           begin' ← parent begin begin lvl_node_cnt;
           build_loop fuel begin' begin ((lvl_node_cnt + 1) / 2) ns
       end.

Definition build (leaves : Leaves) : res MerkleTree :=
  _ ← rassert (loffset leaves =? 0);
  let leaf_cnt := zlen (lnodes leaves) in
  total_node_cnt ← tree_node_cnt leaf_cnt;
  inner_node_cnt ← u_sub total_node_cnt leaf_cnt;
  let ns := replicate (Z.to_nat inner_node_cnt) new_empty ++ lnodes leaves in
  ns ← build_loop LEVELS inner_node_cnt total_node_cnt leaf_cnt ns;
  Ok (mkTree (llen leaves) ns).

(** One pair of a level of [merge]: copied from the old tree or hashed again. *)
Definition merge_pair (begin lvl_node_cnt old_begin old_lvl_node_cnt overlap_begin : Z)
    (ns : list Hash) (pair : list Z) : res (list Hash) :=
  match pair with
  | [p0; p1] =>
      if p1 <? overlap_begin then
        parent_node ← parent p0 begin lvl_node_cnt;
        t ← u_add old_begin p0;
        t ← u_sub t begin;
        old ← parent t old_begin old_lvl_node_cnt;
        _ ← rassert (old <=? parent_node);
        if negb (old =? parent_node) then x ← vindex ns old; vset ns parent_node x else Ok ns
      else hash_up ns pair begin lvl_node_cnt
  | _ => hash_up ns pair begin lvl_node_cnt
  end.

Fixpoint merge_loop (fuel : nat) (begin end_ lvl_node_cnt old_begin old_lvl_node_cnt
    overlap_begin overlap_end : Z) (ns : list Hash) : res (list Hash) :=
  if begin <? 1 then Ok ns
  else match fuel with
       | O => Panic
       | S fuel =>
           ns ← foldM (merge_pair begin lvl_node_cnt old_begin old_lvl_node_cnt overlap_begin)
                  ns (rev (chunks2 (range begin end_)));
           overlap_begin ← parent overlap_begin begin lvl_node_cnt;
           overlap_end ← parent overlap_end begin lvl_node_cnt;
           begin' ← parent begin begin lvl_node_cnt;
           '(old_begin, old_lvl_node_cnt) ←
             (if 0 <? old_begin then
                o ← parent old_begin old_begin old_lvl_node_cnt;
                Ok (o, (old_lvl_node_cnt + 1) / 2)
              else Ok (old_begin, old_lvl_node_cnt));
           merge_loop fuel begin' begin ((lvl_node_cnt + 1) / 2) old_begin old_lvl_node_cnt
             overlap_begin overlap_end ns
       end.

Definition merge (t : MerkleTree) (leaves : Leaves) (rdr : Reader) : res MerkleTree :=
  _ ← rassert (loffset leaves <=? mlen t);
  lend ← lend_offset leaves;
  let end_offset := Z.max (mlen t) lend in
  lcnt ← align_piece_ceil_chunk end_offset;
  node_cnt ← tree_node_cnt lcnt;
  leaves_begin ← u_sub node_cnt lcnt;
  old_begin ← inner_cnt t;
  old_leaf_cnt ← leaf_cnt t;
  fl ← align_piece_floor_chunk (loffset leaves);
  let overlap_begin := leaves_begin + fl in
  let overlap_end_offset := Z.min (mlen t) lend in
  cl ← align_piece_ceil_chunk overlap_end_offset;
  let overlap_end := leaves_begin + cl in
  old_leaves ← vslice (nodes t) old_begin (zlen (nodes t));
  let ns := vresize (nodes t) node_cnt new_empty in
  ns ← vcopy ns leaves_begin old_leaves;
  ns ← vcopy ns overlap_begin (lnodes leaves);
  off ← align_piece_offset (loffset leaves);
  '(ns, head_is_rehashed) ←
    (if negb (off =? 0) then
       h ← piece_hash (loffset leaves) rdr;
       ns ← vset ns overlap_begin h;
       Ok (ns, true)
     else Ok (ns, false));
  off ← align_piece_offset overlap_end_offset;
  ns ← (if negb (off =? 0) && negb ((overlap_begin =? overlap_end - 1) && head_is_rehashed)
        then h ← piece_hash overlap_end_offset rdr; vset ns (overlap_end - 1) h
        else Ok ns);
  ns ← merge_loop LEVELS leaves_begin node_cnt lcnt old_begin old_leaf_cnt overlap_begin
         overlap_end ns;
  Ok (mkTree end_offset ns).

Fixpoint truncate_loop (fuel : nat) (old : list Hash) (begin end_ lvl_node_cnt old_begin
    old_end old_lvl_node_cnt : Z) (ns : list Hash) : res (list Hash) :=
  if begin <? 1 then Ok ns
  else match fuel with
       | O => Panic
       | S fuel =>
           dst_begin ← parent begin begin lvl_node_cnt;
           e ← u_sub end_ 1;
           dst_last ← parent e begin lvl_node_cnt;
           let dst_end := dst_last + 1 in
           src_begin ← parent old_begin old_begin old_lvl_node_cnt;
           oe ← u_sub old_end 1;
           src_last ← parent oe old_begin old_lvl_node_cnt;
           let src_end := src_last + 1 in
           _ ← rassert (dst_end - dst_begin =? src_end - src_begin);
           src ← vslice old src_begin src_end;
           ns ← vcopy ns dst_begin src;
           ns ← (if Z.land (end_ - begin) 1 =? 0
                 then hash_up ns [end_ - 2; end_ - 1] begin lvl_node_cnt
                 else hash_up ns [end_ - 1] begin lvl_node_cnt);
           truncate_loop fuel old dst_begin begin ((lvl_node_cnt + 1) / 2) src_begin src_end
             ((old_lvl_node_cnt + 1) / 2) ns
       end.

Definition truncate (t : MerkleTree) (at_ : Z) (rdr : Reader) : res MerkleTree :=
  _ ← rassert (at_ <=? mlen t);
  if at_ =? mlen t then Ok t
  else
    lcnt ← align_piece_ceil_chunk at_;
    node_cnt ← tree_node_cnt lcnt;
    leaves_begin ← u_sub node_cnt lcnt;
    let ns := replicate (Z.to_nat node_cnt) new_empty in
    src ← inner_cnt t;
    ls ← vslice (nodes t) src (src + lcnt);
    ns ← vcopy ns leaves_begin ls;
    off ← align_piece_offset at_;
    ns ← (if negb (off =? 0) || (at_ =? 0)
          then h ← piece_hash at_ rdr; i ← u_sub node_cnt 1; vset ns i h
          else Ok ns);
    old_lcnt ← leaf_cnt t;
    ns ← truncate_loop LEVELS (nodes t) leaves_begin node_cnt lcnt src (src + lcnt) old_lcnt ns;
    Ok (mkTree at_ ns).

(** The writer hashes the pieces of what is written. *)
Record Writer := mkWriter { hash_offset : Z; state : list byte; leaves : Leaves }.

Definition wtr_new : Writer := mkWriter 0 [] (mkLeaves 0 0 []).

Definition finish_with_leaves (w : Writer) : res Leaves :=
  let l := leaves w in
  off ← align_piece_offset (hash_offset w);
  Ok (if (llen l =? 0) || negb (off =? 0)
      then mkLeaves (loffset l) (llen l) (lnodes l ++ [crypto_hash (state w)])
      else l).

(** Every round consumes at least one byte. *)
Fixpoint write_loop (fuel : nat) (data : list byte) (ho : Z) (st : list byte)
    (ns : list Hash) : res (Z * list byte * list Hash) :=
  if zlen data =? 0 then Ok (ho, st, ns)
  else match fuel with
       | O => Panic
       | S fuel =>
           pos ← align_piece_offset ho;
           let hash_len := Z.min (PIECE_SIZE - pos) (zlen data) in
           let st := st ++ ztake hash_len data in
           ho' ← u_add ho hash_len;
           off ← align_piece_offset ho';
           let '(st, ns) := if off <=? pos then ([], ns ++ [crypto_hash st]) else (st, ns) in
           write_loop fuel (zdrop hash_len data) ho' st ns
       end.
Definition write (w : Writer) (data : list byte) : res Writer :=
  let l := leaves w in
  '(ho, st, ns) ← write_loop (length data) data (hash_offset w) (state w) (lnodes l);
  n ← u_add (llen l) (zlen data);
  Ok (mkWriter ho st (mkLeaves (loffset l) n ns)).

(** [SeekFrom::Start]; any other seek is unreachable. *)
Definition wtr_seek (w : Writer) (offset : Z) : res Writer :=
  let l := leaves w in
  _ ← rassert (loffset l =? 0);
  Ok (mkWriter offset (state w) (mkLeaves offset (llen l) (lnodes l))).

(** [MerkleTree::default]: the tree of nothing. *)
Definition new : res MerkleTree := l ← finish_with_leaves wtr_new; build l.
End merkle.
