(* ===== verification/MerkleProofs.v ===== *)
(** * The Merkle tree: the reference tree, and that build, merge and truncate produce it. *)
From S2P Require Import Prelude Base Merkle.

Section zupd.
Context {A : Type}.
Implicit Types (l : list A).


Lemma vresize_ok l n x :
  0 ≤ n → zlen (vresize l n x) = n ∧
    ∀ i, 0 ≤ i < Z.min n (zlen l) → zget (vresize l n x) i = zget l i.
Proof.
  intros Hn. pose proof (zlen_nonneg l). unfold vresize. split.
  - rewrite zlen_app, zlen_ztake by lia. destruct (decide (zlen l ≤ n)).
    + rewrite zlen_replicate by lia. lia.
    + replace (Z.to_nat (n - zlen l)) with O by lia. simpl. rewrite zlen_nil. lia.
  - intros i Hi. rewrite zget_app_l by (rewrite zlen_ztake by lia; lia).
    rewrite zget_ztake, decide_True by lia. done.
Qed.
End zupd.

(** The pairs of a range. *)

Definition pair_at (b n k : Z) : list Z :=
  if 2 * k + 1 <? n then [b + 2 * k; b + 2 * k + 1] else [b + 2 * k].

Lemma chunks2_range b n :
  0 ≤ n → chunks2 (range b (b + n)) = pair_at b n <$> range 0 ((n + 1) / 2).
Proof.
  intros Hn. remember (Z.to_nat n) as m eqn:Hm. revert b n Hn Hm.
  induction (lt_wf m) as [m _ IH]. intros b n Hn Hm.
  destruct (decide (n = 0)) as [->|]; [by rewrite range_nil by lia|].
  destruct (decide (n = 1)) as [->|].
  { rewrite range_cons, range_nil by lia. simpl. unfold pair_at. simpl. do 2 f_equal. lia. }
  rewrite range_cons, range_cons by lia. cbn [chunks2].
  replace (range (b + 1 + 1) (b + n)) with (range (b + 2) ((b + 2) + (n - 2)))
    by (f_equal; lia).
  rewrite (IH (Z.to_nat (n - 2))) by lia.
  assert (Hd : (n + 1) / 2 = (n - 2 + 1) / 2 + 1).
  { replace (n + 1) with (n - 2 + 1 + 1 * 2) by lia. rewrite Z.div_add by lia. lia. }
  assert (0 ≤ (n - 2 + 1) / 2) by (apply Z.div_pos; lia).
  rewrite Hd. rewrite (range_cons 0 (_ + 1)) by lia.
  rewrite fmap_cons. f_equal.
  - unfold pair_at. rewrite (proj2 (Z.ltb_lt _ _)) by lia. f_equal; [lia|]. f_equal. lia.
  - apply zget_ext. intros i. unfold zget. destruct (0 <=? i) eqn:Hi; zify_b; [|done].
    rewrite !list_lookup_fmap. unfold range.
    destruct (decide (i < (n - 2 + 1) / 2)).
    + rewrite !lookup_seqZ_lt by lia. simpl. unfold pair_at.
      destruct (_ <? _) eqn:H1; destruct (_ <? n) eqn:H2 in |- *; zify_b; try lia;
        repeat (f_equal; try lia).
    + rewrite !lookup_ge_None_2 by (rewrite length_seqZ; lia). done.
Qed.



(** A level is filled in, left to right or right to left. *)
Section fill.
Context {A : Type} (step : list A → Z → res (list A)) (ns : list A) (base u : Z) (upl : list A).
Context (Hbase : 0 ≤ base) (Hu : base + u ≤ zlen ns).

Lemma fill_fwd m :
  (∀ ns' k, 0 ≤ k < u → zlen ns' = zlen ns →
     (∀ j, j < base ∨ base + k ≤ j → zget ns' j = zget ns j) →
     ∃ x, zget upl k = Some x ∧ step ns' k = Ok (zset ns' (base + k) x)) →
  0 ≤ m ≤ u →
  ∃ ns', foldM step ns (range 0 m) = Ok ns' ∧ zlen ns' = zlen ns ∧
    ∀ j, zget ns' j = if decide (base ≤ j < base + m) then zget upl (j - base) else zget ns j.
Proof.
  intros Hstep. remember (Z.to_nat m) as n eqn:Hn. revert m Hn.
  induction n as [|n IH]; intros m Hn Hm.
  { rewrite range_nil by lia. exists ns. split; [done|]. split; [done|]. intros j.
    by rewrite decide_False by lia. }
  replace m with ((m - 1) + 1) by lia. rewrite range_snoc, foldM_app by lia.
  destruct (IH (m - 1)) as (ns' & -> & Hl & Hz); [lia|lia|]. rewrite bind_ok. cbn [foldM].
  destruct (Hstep ns' (m - 1)) as (x & Hx & ->); [lia|done| |].
  { intros j Hj. rewrite Hz, decide_False by lia. done. }
  rewrite bind_ok. eexists. split; [done|]. rewrite zlen_zset. split; [done|]. intros j.
  rewrite zget_zset, Hz by lia. repeat case_decide; try lia; try done.
  subst j. rewrite <- Hx. f_equal. lia.
Qed.

Lemma fill_rev a :
  (∀ ns' k, 0 ≤ k < u → zlen ns' = zlen ns →
     (∀ j, j < base + k + 1 ∨ base + u ≤ j → zget ns' j = zget ns j) →
     ∃ x, zget upl k = Some x ∧ step ns' k = Ok (zset ns' (base + k) x)) →
  0 ≤ a ≤ u →
  ∃ ns', foldM step ns (rev (range a u)) = Ok ns' ∧ zlen ns' = zlen ns ∧
    ∀ j, zget ns' j = if decide (base + a ≤ j < base + u) then zget upl (j - base) else zget ns j.
Proof.
  intros Hstep. remember (Z.to_nat (u - a)) as n eqn:Hn. revert a Hn.
  induction n as [|n IH]; intros a Hn Ha.
  { rewrite range_nil by lia. exists ns. split; [done|]. split; [done|]. intros j.
    by rewrite decide_False by lia. }
  rewrite range_cons by lia. cbn [rev]. rewrite foldM_app.
  destruct (IH (a + 1)) as (ns' & -> & Hl & Hz); [lia|lia|]. rewrite bind_ok. cbn [foldM].
  destruct (Hstep ns' a) as (x & Hx & ->); [lia|done| |].
  { intros j Hj. rewrite Hz, decide_False by lia. done. }
  rewrite bind_ok. eexists. split; [done|]. rewrite zlen_zset. split; [done|]. intros j.
  rewrite zget_zset, Hz by lia. repeat case_decide; try lia; try done.
  subst j. rewrite <- Hx. f_equal. lia.
Qed.
End fill.

Section tree.
Context (crypto_hash : list byte → list byte).
Abbreviation Hash := (list byte).
Implicit Types (l : list Hash) (ns : list Hash).

(** ** The reference: pair up, level by level *)

Fixpoint up l : list Hash :=
  match l with
  | a :: b :: l => crypto_hash (a ++ b) :: up l
  | [a] => [a]
  | [] => []
  end.
Fixpoint tree_fuel (fuel : nat) l : list Hash :=
  match fuel with
  | O => l
  | S fuel => if zlen l <=? 1 then l else tree_fuel fuel (up l) ++ l
  end.
(** All nodes, root first. *)
Definition tree l : list Hash := tree_fuel (length l) l.

Lemma zlen_up l : zlen (up l) = (zlen l + 1) / 2.
Proof.
  remember (length l) as n eqn:Hn. revert l Hn. induction (lt_wf n) as [n _ IH]. intros l Hn.
  destruct l as [|a [|b l]]; [done..|]. cbn [up]. simpl in Hn.
  rewrite !zlen_cons, (IH (length l)) by (done || lia).
  replace (zlen l + 1 + 1 + 1) with (zlen l + 1 + 1 * 2) by lia. rewrite Z.div_add by lia. lia.
Qed.
Lemma zget_up l k :
  0 ≤ k →
  zget (up l) k =
    match zget l (2 * k), zget l (2 * k + 1) with
    | Some a, Some b => Some (crypto_hash (a ++ b))
    | Some a, None => Some a
    | _, _ => None
    end.
Proof.
  remember (length l) as n eqn:Hn. revert l k Hn. induction (lt_wf n) as [n _ IH].
  intros l k Hn Hk. destruct l as [|a [|b l]].
  - cbn [up]. rewrite !zget_ge by (unfold zlen; simpl; lia). done.
  - cbn [up]. rewrite (zget_ge [a] (2 * k + 1)) by (change (zlen [a]) with 1; lia).
    destruct (decide (k = 0)) as [->|]; [done|].
    rewrite !zget_ge by (change (zlen [a]) with 1; lia). done.
  - cbn [up]. simpl in Hn. destruct (decide (k = 0)) as [->|]; [done|].
    replace k with ((k - 1) + 1) at 1 by lia. rewrite zget_cons_S by lia.
    rewrite (IH (length l)) by (done || lia).
    replace (2 * k) with (2 * (k - 1) + 1 + 1) by lia. by rewrite !zget_cons_S by lia.
Qed.

Lemma tree_fuel_enough f1 f2 l :
  (length l ≤ f1)%nat → (length l ≤ f2)%nat → tree_fuel f1 l = tree_fuel f2 l.
Proof.
  revert f2 l. induction f1 as [|f1 IH]; intros f2 l H1 H2.
  { destruct l; [|simpl in H1; lia]. by destruct f2. }
  destruct f2 as [|f2]; [destruct l; [done|simpl in H2; lia]|]. cbn [tree_fuel].
  destruct (zlen l <=? 1) eqn:Hl; [done|]. zify_b. f_equal.
  pose proof (zlen_up l) as Hu. unfold zlen in *.
  pose proof (Z.div_lt_upper_bound (Z.of_nat (length l) + 1) 2 (Z.of_nat (length l))).
  apply IH; lia.
Qed.
Lemma tree_unfold l : tree l = if zlen l <=? 1 then l else tree (up l) ++ l.
Proof.
  unfold tree at 1. destruct l as [|a l]; [done|]. cbn [length tree_fuel].
  destruct (zlen (a :: l) <=? 1) eqn:Hl; [done|]. zify_b. f_equal.
  apply tree_fuel_enough; [|done]. pose proof (zlen_up (a :: l)) as Hu. unfold zlen in *.
  cbn [length] in *.
  pose proof (Z.div_lt_upper_bound (Z.of_nat (S (length l)) + 1) 2 (Z.of_nat (S (length l)))).
  lia.
Qed.
Lemma tree_small l : zlen l ≤ 1 → tree l = l.
Proof. intros. rewrite tree_unfold. by rewrite (proj2 (Z.leb_le _ _)). Qed.
Lemma tree_big l : 1 < zlen l → tree l = tree (up l) ++ l.
Proof. intros. rewrite tree_unfold. by rewrite (proj2 (Z.leb_gt _ _)). Qed.

(** The number of nodes above a level. *)
Definition inner l : Z := zlen (tree l) - zlen l.

Lemma half_lt n : 1 < n → 1 ≤ (n + 1) / 2 < n.
Proof. intros. split; [apply Z.div_le_lower_bound; lia|apply Z.div_lt_upper_bound; lia]. Qed.
Lemma inner_small l : zlen l ≤ 1 → inner l = 0.
Proof. intros. unfold inner. rewrite tree_small by done. lia. Qed.
Lemma inner_big l : 1 < zlen l → inner l = inner (up l) + zlen (up l).
Proof. intros. unfold inner. rewrite tree_big, zlen_app by done. lia. Qed.

Lemma inner_mono l1 l2 : zlen l1 ≤ zlen l2 → 0 ≤ inner l1 ≤ inner l2.
Proof.
  remember (length l2) as n eqn:Hn. revert l1 l2 Hn. induction (lt_wf n) as [n _ IH].
  intros l1 l2 Hn Hle. destruct (decide (zlen l2 ≤ 1)); [rewrite !inner_small by lia; lia|].
  pose proof (zlen_up l2) as Hu2. pose proof (half_lt (zlen l2) ltac:(lia)).
  assert (Hlt : (length (up l2) < n)%nat) by (unfold zlen in *; lia).
  rewrite (inner_big l2) by lia. destruct (decide (zlen l1 ≤ 1)).
  - rewrite inner_small by lia. destruct (IH _ Hlt (up l2) (up l2)); [done|lia|].
    pose proof (zlen_nonneg (up l2)). lia.
  - rewrite (inner_big l1) by lia. pose proof (zlen_up l1).
    assert (zlen (up l1) ≤ zlen (up l2)).
    { rewrite Hu2, H0. apply Z.div_le_mono; lia. }
    destruct (IH _ Hlt (up l1) (up l2)); [done|lia|]. pose proof (zlen_nonneg (up l1)). lia.
Qed.
Lemma inner_nonneg l : 0 ≤ inner l.
Proof. apply (inner_mono l l). lia. Qed.
Lemma inner_pos l : 1 < zlen l → zlen (up l) ≤ inner l.
Proof. intros. rewrite inner_big by done. pose proof (inner_nonneg (up l)). lia. Qed.
Lemma inner_zero_iff l : 0 < inner l ↔ 1 < zlen l.
Proof.
  destruct (decide (zlen l ≤ 1)); [rewrite inner_small by done; lia|].
  pose proof (inner_pos l ltac:(lia)). pose proof (zlen_up l).
  pose proof (half_lt (zlen l) ltac:(lia)). lia.
Qed.

Lemma zget_tree_leaf l j : 0 ≤ j → zget (tree l) (inner l + j) = zget l j.
Proof.
  intros. destruct (decide (zlen l ≤ 1)).
  - by rewrite inner_small, tree_small by done.
  - rewrite tree_big by lia. unfold inner. rewrite (tree_big l), zlen_app by lia.
    rewrite zget_app_r by lia. f_equal. lia.
Qed.
Lemma zget_tree_inner l j : 1 < zlen l → j < inner l → zget (tree l) j = zget (tree (up l)) j.
Proof.
  intros Hl Hj. rewrite tree_big by done. apply zget_app_l.
  rewrite inner_big in Hj by done. unfold inner in Hj. lia.
Qed.

(** [parent] of the [k]-th pair of a level. *)
Lemma parent_ok begin n j :
  1 ≤ n → (n + 1) / 2 ≤ begin → 0 ≤ j → begin + j < U64 →
  parent (begin + j) begin n = Ok (begin - (n + 1) / 2 + j / 2).
Proof.
  intros Hn Hb Hj Hlt. unfold parent. rewrite (proj2 (Z.eqb_neq _ _)) by lia.
  pose proof (Z.div_le_upper_bound j 2 j ltac:(lia) ltac:(lia)).
  assert (0 ≤ (n + 1) / 2) by (apply Z.div_pos; lia).
  res_run. rewrite u_add_ok by (replace (begin + j - begin) with j by lia; lia).
  do 3 f_equal. lia.
Qed.

Lemma parent_inner l :
  1 < zlen l → inner l < U64 → parent (inner l) (inner l) (zlen l) = Ok (inner (up l)).
Proof.
  intros Hl Hlt. pose proof (parent_ok (inner l) (zlen l) 0) as Hp.
  rewrite Z.add_0_r, <- zlen_up in Hp. pose proof (inner_pos l Hl). pose proof (inner_big l Hl).
  rewrite Hp by lia. f_equal. change (0 / 2) with 0. lia.
Qed.

(** One pair is hashed into its parent. *)
Lemma hash_up_ok ns begin l k :
  (∀ j, 0 ≤ j < zlen l → zget ns (begin + j) = zget l j) →
  zlen (up l) ≤ begin → 0 ≤ k < zlen (up l) → begin + zlen l < U64 → begin + zlen l ≤ zlen ns →
  ∃ x, zget (up l) k = Some x ∧
    hash_up crypto_hash ns (pair_at begin (zlen l) k) begin (zlen l) =
      Ok (zset ns (begin - zlen (up l) + k) x).
Proof.
  intros Hl Hu Hk Hlt Hns. pose proof (zlen_up l) as Hup.
  assert (Hn : 2 * k < zlen l).
  { rewrite Hup in Hk. pose proof (Z.mul_div_le (zlen l + 1) 2 ltac:(lia)).
    assert (zlen l + 1 = 2 * ((zlen l + 1) / 2) + (zlen l + 1) mod 2) by (apply Z.div_mod; lia).
    pose proof (Z.mod_pos_bound (zlen l + 1) 2). lia. }
  destruct (zget_is_Some l (2 * k)) as [a Ha]; [lia|].
  assert (Hp : parent (begin + 2 * k) begin (zlen l) = Ok (begin - zlen (up l) + k)).
  { rewrite parent_ok by lia. rewrite Hup. do 2 f_equal. rewrite Z.mul_comm, Z.div_mul; lia. }
  assert (Hva : vindex ns (begin + 2 * k) = Ok a).
  { apply vindex_ok. by rewrite Hl by lia. }
  rewrite zget_up by lia. rewrite Ha. unfold pair_at, hash_up.
  destruct (2 * k + 1 <? zlen l) eqn:H2; zify_b.
  - destruct (zget_is_Some l (2 * k + 1)) as [b Hb]; [lia|]. rewrite Hb.
    exists (crypto_hash (a ++ b)). split; [done|]. rewrite Hp, bind_ok, Hva, bind_ok.
    assert (Hvb : vindex ns (begin + 2 * k + 1) = Ok b).
    { apply vindex_ok. rewrite <- Z.add_assoc. by rewrite Hl by lia. }
    rewrite Hvb, bind_ok. apply vset_ok. lia.
  - rewrite (zget_ge l (2 * k + 1)) by lia. exists a. split; [done|].
    rewrite Hp, bind_ok, Hva, bind_ok. apply vset_ok. lia.
Qed.

(** [l] is the level of [ns] that starts at [begin]. *)
Definition level_at ns (begin : Z) l : Prop :=
  begin + zlen l ≤ zlen ns ∧ ∀ j, 0 ≤ j < zlen l → zget ns (begin + j) = zget l j.

Lemma chunks2_level begin l :
  chunks2 (range begin (begin + zlen l)) = pair_at begin (zlen l) <$> range 0 (zlen (up l)).
Proof. rewrite zlen_up. apply chunks2_range, zlen_nonneg. Qed.

Lemma level_up ns ns' begin l :
  level_at ns begin l → 0 ≤ begin - zlen (up l) → zlen ns' = zlen ns →
  (∀ j, zget ns' j = if decide (begin - zlen (up l) ≤ j < begin)
                     then zget (up l) (j - (begin - zlen (up l))) else zget ns j) →
  level_at ns' (begin - zlen (up l)) (up l).
Proof.
  intros [Hn Hl] Hb Hz Hi. pose proof (zlen_nonneg l). split; [lia|]. intros j Hj.
  rewrite Hi, decide_True by lia. f_equal. lia.
Qed.

Lemma zlen_up_pos l : 1 ≤ zlen l → 1 ≤ zlen (up l) ≤ zlen l.
Proof.
  intros. rewrite zlen_up. split; [apply Z.div_le_lower_bound; lia|].
  apply Z.lt_succ_r, Z.div_lt_upper_bound; lia.
Qed.
Lemma zlen_up_le_pow l k : zlen l ≤ 2 ^ Z.of_nat (S k) → zlen (up l) ≤ 2 ^ Z.of_nat k.
Proof.
  rewrite Nat2Z.inj_succ, Z.pow_succ_r by lia. intros. rewrite zlen_up.
  apply Z.lt_succ_r, Z.div_lt_upper_bound; lia.
Qed.
Lemma zlen_le_pow0 l : zlen l ≤ 2 ^ Z.of_nat 0 → zlen l ≤ 1.
Proof. done. Qed.

(** Nodes that hold the whole tree over [l] below index [inner l + zlen l]. *)
Definition treed ns l ns' : Prop :=
  zlen ns' = zlen ns ∧
  (∀ j, 0 ≤ j < inner l + zlen l → zget ns' j = zget (tree l) j) ∧
  (∀ j, inner l + zlen l ≤ j → zget ns' j = zget ns j).

Lemma treed_small ns l : level_at ns 0 l → inner l = 0 → treed ns l ns.
Proof.
  intros [Hn Hl] Hi. split; [done|]. split; [|done]. intros j Hj.
  pose proof (zget_tree_leaf l j ltac:(lia)) as Ht. rewrite Hi in Ht, Hj.
  specialize (Hl j ltac:(lia)). rewrite Z.add_0_l in Ht, Hl. congruence.
Qed.
(** One level further down. *)
Lemma treed_step ns ns1 ns' l :
  1 < zlen l → level_at ns (inner l) l → zlen ns1 = zlen ns →
  (∀ j, inner l ≤ j → zget ns1 j = zget ns j) → treed ns1 (up l) ns' → treed ns l ns'.
Proof.
  intros Hl1 [Hn Hl] Hz Hi (Hz' & Ht & Ho). pose proof (inner_big l Hl1) as Hib.
  pose proof (zlen_nonneg l). split; [lia|]. split.
  - intros j Hj. destruct (decide (j < inner l)).
    + rewrite zget_tree_inner by done. apply Ht. lia.
    + rewrite Ho, Hi by lia. replace j with (inner l + (j - inner l)) by lia.
      rewrite Hl by lia. by rewrite zget_tree_leaf by lia.
  - intros j Hj. by rewrite Ho, Hi by lia.
Qed.

Lemma build_loop_ok fuel ns l :
  1 ≤ zlen l ≤ 2 ^ Z.of_nat fuel → level_at ns (inner l) l → inner l + zlen l < U64 →
  ∃ ns', build_loop crypto_hash fuel (inner l) (inner l + zlen l) (zlen l) ns = Ok ns' ∧
    treed ns l ns'.
Proof.
  revert ns l. induction fuel as [|fuel IH]; intros ns l Hf Hl Hlt.
  { assert (Hi : inner l = 0) by (apply inner_small; cbn in Hf; lia).
    exists ns. rewrite Hi in *. split; [done|]. by apply treed_small. }
  destruct (decide (zlen l ≤ 1)) as [Hs|Hs].
  { assert (Hi : inner l = 0) by (by apply inner_small). rewrite Hi in *. exists ns.
    split; [done|]. by apply treed_small. }
  pose proof (inner_big l ltac:(lia)) as Hib. pose proof (inner_nonneg (up l)).
  pose proof (zlen_up_pos l ltac:(lia)) as Hu. destruct Hf as [_ Hf].
  pose proof (zlen_up_le_pow _ _ Hf) as Huf.
  cbn [build_loop]. rewrite (proj2 (Z.ltb_ge _ _)) by lia.
  rewrite chunks2_level, foldM_fmap.
  destruct (fill_fwd (λ ns k, hash_up crypto_hash ns (pair_at (inner l) (zlen l) k) (inner l) (zlen l))
    ns (inner l - zlen (up l)) (zlen (up l)) (up l) ltac:(lia) ltac:(destruct Hl; lia) (zlen (up l)))
    as (ns1 & -> & Hz1 & Hi1); [|lia|].
  { intros ns0 k Hk Hz Hj. apply hash_up_ok; try lia; [|destruct Hl; lia].
    intros j Hj'. rewrite Hj by lia. by apply Hl. }
  rewrite bind_ok, parent_inner, bind_ok, <- zlen_up by lia.
  assert (Hi1' : ∀ j, zget ns1 j = if decide (inner l - zlen (up l) ≤ j < inner l)
    then zget (up l) (j - (inner l - zlen (up l))) else zget ns j).
  { intros j. rewrite Hi1. by replace (inner l - zlen (up l) + zlen (up l)) with (inner l) by lia. }
  pose proof (level_up _ _ _ _ Hl ltac:(lia) Hz1 Hi1') as Hl1.
  replace (inner l - zlen (up l)) with (inner (up l)) in Hl1 by lia.
  destruct (IH ns1 (up l)) as (ns' & Heq & Ht); [lia|done|lia|].
  rewrite <- Hib in Heq. rewrite Heq. exists ns'. split; [done|].
  apply (treed_step ns ns1); try done; [lia|]. intros j Hj.
  rewrite Hi1', decide_False by lia. done.
Qed.

Lemma zset_id ns i x : zget ns i = Some x → zset ns i x = ns.
Proof. intros [_ H]%zget_Some. unfold zset. by apply list_insert_id. Qed.

(** Levels that agree below [ov] have parents that agree below [ov / 2]. *)
Lemma up_agree l lo ov :
  (∀ j, 0 ≤ j < ov → zget l j = zget lo j) → 0 ≤ ov ≤ zlen lo → zlen lo ≤ zlen l →
  ∀ k, 0 ≤ k → 2 * k + 1 < ov → zget (up l) k = zget (up lo) k.
Proof. intros Ha Hov Hle k Hk H2. rewrite !zget_up by done. by rewrite !Ha by lia. Qed.

(** The old tree's inner nodes are still in place. *)
Definition old_at ns lo : Prop := ∀ j, 0 ≤ j < inner lo → zget ns j = zget (tree lo) j.

Lemma old_at_up ns lo k :
  old_at ns lo → 1 < zlen lo → 0 ≤ k < zlen (up lo) →
  zget ns (inner (up lo) + k) = zget (up lo) k.
Proof.
  intros Ho Hl Hk. pose proof (inner_big lo Hl). pose proof (inner_nonneg (up lo)).
  rewrite Ho, zget_tree_inner by lia. apply zget_tree_leaf. lia.
Qed.

Lemma merge_pair_ok ns ns' l lo ov k :
  let begin := inner l in let base := begin - zlen (up l) in
  level_at ns begin l → old_at ns lo → 1 < zlen l → zlen lo ≤ zlen l →
  2 * (inner l + zlen l) < U64 →
  0 ≤ ov ≤ zlen lo → (∀ j, 0 ≤ j < ov → zget l j = zget lo j) →
  0 ≤ k < zlen (up l) → zlen ns' = zlen ns →
  (∀ j, j < base + k + 1 ∨ base + zlen (up l) ≤ j → zget ns' j = zget ns j) →
  ∃ x, zget (up l) k = Some x ∧
    merge_pair crypto_hash begin (zlen l) (inner lo) (zlen lo) (begin + ov) ns'
      (pair_at begin (zlen l) k) = Ok (zset ns' (base + k) x).
Proof.
  intros begin base [Hn Hl] Ho Hl1 Hle Hlt Hov Hag Hk Hz Hj.
  pose proof (inner_big l Hl1) as Hib. pose proof (inner_nonneg (up l)).
  pose proof (zlen_nonneg l).
  assert (Hhu : ∃ x, zget (up l) k = Some x ∧
    hash_up crypto_hash ns' (pair_at begin (zlen l) k) begin (zlen l) = Ok (zset ns' (base + k) x)).
  { apply hash_up_ok; unfold begin in *; try lia. intros j Hj'. rewrite Hj by (unfold base; lia).
    by apply Hl. }
  unfold merge_pair. unfold pair_at in *. destruct (2 * k + 1 <? zlen l) eqn:H2; [|done].
  destruct (begin + 2 * k + 1 <? begin + ov) eqn:Hc; [|done]. zify_b.
  destruct Hhu as (x & Hx & _). exists x. split; [done|].
  pose proof (inner_mono lo l Hle). pose proof (inner_big lo ltac:(lia)) as Hibo.
  assert (Hul : zlen (up lo) ≤ zlen (up l)) by (rewrite !zlen_up; apply Z.div_le_mono; lia).
  pose proof (inner_mono _ _ Hul).
  assert (Hko : k < zlen (up lo)).
  { rewrite zlen_up. assert (k + 1 ≤ (zlen lo + 1) / 2); [apply Z.div_le_lower_bound|]; lia. }
  unfold begin in *. rewrite parent_ok by (rewrite <- ?zlen_up; lia). rewrite bind_ok.
  rewrite u_add_ok, bind_ok, u_sub_ok, bind_ok by lia.
  replace (inner lo + (inner l + 2 * k) - inner l) with (inner lo + 2 * k) by lia.
  rewrite parent_ok by (rewrite <- ?zlen_up; lia). rewrite bind_ok, <- !zlen_up.
  replace (2 * k / 2) with k by (rewrite Z.mul_comm, Z.div_mul; lia).
  replace (inner lo - zlen (up lo) + k) with (inner (up lo) + k) by lia.
  fold base. rewrite rassert_ok, bind_ok by (apply Z.leb_le; unfold base; lia).
  assert (Hox : zget ns' (inner (up lo) + k) = Some x).
  { rewrite Hj by (unfold base; lia). rewrite (old_at_up _ _ _ Ho) by lia.
    rewrite <- Hx. symmetry. eapply up_agree; [exact Hag|lia|lia|lia|lia]. }
  destruct (inner (up lo) + k =? base + k) eqn:He; zify_b; cbn [negb].
  - rewrite <- He. by rewrite zset_id.
  - rewrite (vindex_ok _ _ _ Hox), bind_ok. apply vset_ok. unfold base. lia.
Qed.

Lemma merge_loop_ok fuel ns l lo ov oe :
  1 ≤ zlen l ≤ 2 ^ Z.of_nat fuel → level_at ns (inner l) l → 2 * (inner l + zlen l) < U64 →
  1 ≤ zlen lo ≤ zlen l → 0 ≤ ov ≤ zlen lo → 0 ≤ oe ≤ zlen l → old_at ns lo →
  (∀ j, 0 ≤ j < ov → zget l j = zget lo j) →
  ∃ ns', merge_loop crypto_hash fuel (inner l) (inner l + zlen l) (zlen l) (inner lo) (zlen lo)
      (inner l + ov) (inner l + oe) ns = Ok ns' ∧ treed ns l ns'.
Proof.
  revert ns l lo ov oe. induction fuel as [|fuel IH];
    intros ns l lo ov oe Hf Hl Hlt Hlo Hov Hoe Ho Hag.
  { assert (Hi : inner l = 0) by (apply inner_small; cbn in Hf; lia).
    exists ns. rewrite Hi in *. split; [done|]. by apply treed_small. }
  destruct (decide (zlen l ≤ 1)) as [Hs|Hs].
  { assert (Hi : inner l = 0) by (by apply inner_small). rewrite Hi in *. exists ns.
    split; [done|]. by apply treed_small. }
  pose proof (inner_big l ltac:(lia)) as Hib. pose proof (inner_nonneg (up l)).
  pose proof (zlen_up_pos l ltac:(lia)) as Hu. destruct Hf as [_ Hf].
  pose proof (zlen_up_le_pow _ _ Hf) as Huf.
  cbn [merge_loop]. rewrite (proj2 (Z.ltb_ge _ _)) by lia.
  rewrite chunks2_level, foldM_rev_fmap.
  destruct (fill_rev (λ ns k, merge_pair crypto_hash (inner l) (zlen l) (inner lo) (zlen lo)
      (inner l + ov) ns (pair_at (inner l) (zlen l) k))
    ns (inner l - zlen (up l)) (zlen (up l)) (up l) ltac:(lia) ltac:(destruct Hl; lia) 0)
    as (ns1 & -> & Hz1 & Hi1); [|lia|].
  { intros ns0 k Hk Hz Hj. eapply merge_pair_ok; try done; lia. }
  rewrite bind_ok. rewrite !parent_ok by (rewrite <- ?zlen_up; lia).
  rewrite !bind_ok, (parent_inner l), bind_ok, <- !zlen_up by lia.
  replace (inner l - zlen (up l)) with (inner (up l)) in * by lia.
  assert (Hi1' : ∀ j, zget ns1 j = if decide (inner (up l) ≤ j < inner l)
    then zget (up l) (j - inner (up l)) else zget ns j).
  { intros j. rewrite Hi1, Z.add_0_r, <- Hib. done. }
  assert (Hl1 : level_at ns1 (inner (up l)) (up l)).
  { pose proof (level_up ns ns1 _ _ Hl) as Hl1.
    replace (inner l - zlen (up l)) with (inner (up l)) in Hl1 by lia. by apply Hl1. }
  assert (Hd2 : ov / 2 ≤ zlen (up lo) ∧ 0 ≤ ov / 2 ∧ oe / 2 ≤ zlen (up l) ∧ 0 ≤ oe / 2).
  { rewrite !zlen_up. split_and!; try (apply Z.div_pos; lia); apply Z.div_le_mono; lia. }
  assert (Hag' : ∀ j, 0 ≤ j < ov / 2 → zget (up l) j = zget (up lo) j).
  { intros j Hj. eapply up_agree; [exact Hag|lia|lia|lia|].
    pose proof (Z.mul_div_le ov 2 ltac:(lia)). lia. }
  assert (Hstep : ∀ lo', 1 ≤ zlen lo' ≤ zlen (up l) → ov / 2 ≤ zlen lo' → old_at ns1 lo' →
    (∀ j, 0 ≤ j < ov / 2 → zget (up l) j = zget lo' j) →
    ∃ ns', merge_loop crypto_hash fuel (inner (up l)) (inner l) (zlen (up l)) (inner lo')
      (zlen lo') (inner (up l) + ov / 2) (inner (up l) + oe / 2) ns1 = Ok ns' ∧ treed ns l ns').
  { intros lo' Hlo' Hov' Ho' Hag1.
    destruct (IH ns1 (up l) lo' (ov / 2) (oe / 2)) as (ns' & Heq & Ht); try done; try lia.
    rewrite <- Hib in Heq. exists ns'. split; [done|].
    apply (treed_step ns ns1); try done; [lia|]. intros j Hj.
    rewrite Hi1', decide_False by lia. done. }
  destruct (0 <? inner lo) eqn:Hp; zify_b.
  - pose proof (proj1 (inner_zero_iff lo) Hp) as Hlo1. pose proof (inner_big lo Hlo1).
    pose proof (inner_mono lo l ltac:(lia)).
    rewrite (parent_inner lo), !bind_ok by lia.
    assert (Hul : zlen (up lo) ≤ zlen (up l)) by (rewrite !zlen_up; apply Z.div_le_mono; lia).
    pose proof (inner_mono _ _ Hul).
    apply Hstep; [|lia| |done].
    + split; [|done]. apply zlen_up_pos. lia.
    + intros j Hj. rewrite Hi1', decide_False by lia.
      rewrite Ho by lia. apply zget_tree_inner; lia.
  - rewrite bind_ok. assert (Hlo1 : zlen lo ≤ 1).
    { destruct (decide (zlen lo ≤ 1)); [done|].
      pose proof (proj2 (inner_zero_iff lo) ltac:(lia)). lia. }
    assert (ov / 2 < 1) by (apply Z.div_lt_upper_bound; lia).
    apply Hstep; [lia|lia| |intros; lia].
    intros j Hj. rewrite inner_small in Hj by done. lia.
Qed.

Lemma inner_le l : inner l ≤ 2 * zlen l.
Proof.
  remember (length l) as n eqn:Hn. revert l Hn. induction (lt_wf n) as [n _ IH]. intros l Hn.
  pose proof (zlen_nonneg l).
  destruct (decide (zlen l ≤ 1)); [rewrite inner_small by done; lia|].
  pose proof (zlen_up l) as Hu. pose proof (half_lt (zlen l) ltac:(lia)) as Hh.
  rewrite inner_big by lia. destruct (decide (zlen l = 2)) as [H2|].
  { rewrite H2 in Hu. change ((2 + 1) / 2) with 1 in Hu. rewrite inner_small by lia. lia. }
  assert (Hi : inner (up l) ≤ 2 * zlen (up l)) by (apply (IH (length (up l))); unfold zlen in *; lia).
  pose proof (Z.mul_div_le (zlen l + 1) 2 ltac:(lia)). lia.
Qed.

Lemma tree_node_cnt_loop_ok fuel s l :
  1 ≤ zlen l ≤ 2 ^ Z.of_nat fuel → s + inner l + zlen l < U64 →
  tree_node_cnt_loop fuel s (zlen l) = Ok (s - 1 + inner l + zlen l).
Proof.
  revert s l. induction fuel as [|fuel IH]; intros s l Hf Hlt.
  { cbn in Hf. rewrite inner_small by lia. assert (zlen l = 1) as -> by lia. simpl. f_equal. lia. }
  destruct (decide (zlen l = 1)) as [H1|].
  { rewrite inner_small by lia. rewrite H1. simpl. f_equal. lia. }
  pose proof (inner_big l ltac:(lia)). pose proof (inner_nonneg (up l)).
  pose proof (zlen_up_pos l ltac:(lia)) as Hu. destruct Hf as [_ Hf].
  pose proof (zlen_up_le_pow _ _ Hf) as Huf.
  cbn [tree_node_cnt_loop]. rewrite (proj2 (Z.leb_gt _ _)) by lia.
  rewrite u_add_ok, bind_ok, <- zlen_up by lia. rewrite IH by lia. f_equal. lia.
Qed.
Lemma tree_node_cnt_ok l :
  1 ≤ zlen l < 2 ^ 60 → tree_node_cnt (zlen l) = Ok (inner l + zlen l).
Proof.
  intros Hl. pose proof (inner_le l). pose proof (inner_nonneg l).
  unfold tree_node_cnt. rewrite tree_node_cnt_loop_ok; [f_equal; lia| |].
  - change (2 ^ Z.of_nat LEVELS) with (2 ^ 64). lia.
  - unfold U64. lia.
Qed.

(** The old tree, untouched. *)
Definition holds_tree (old : list Hash) lo : Prop :=
  inner lo + zlen lo ≤ zlen old ∧
  ∀ j, 0 ≤ j < inner lo + zlen lo → zget old j = zget (tree lo) j.

Lemma holds_tree_up old lo : 1 < zlen lo → holds_tree old lo → holds_tree old (up lo).
Proof.
  intros Hl [Hz Hi]. pose proof (inner_big lo Hl). pose proof (zlen_nonneg lo).
  split; [lia|]. intros j Hj. rewrite Hi by lia. apply zget_tree_inner; lia.
Qed.

Lemma last_pair begin n :
  1 ≤ n → (if Z.land n 1 =? 0 then [begin + n - 2; begin + n - 1] else [begin + n - 1])
    = pair_at begin n ((n + 1) / 2 - 1).
Proof.
  intros Hn. change 1 with (Z.ones 1) at 1. rewrite Z.land_ones by lia. change (2 ^ 1) with 2.
  pose proof (Z.div_mod n 2 ltac:(lia)) as Hd. pose proof (Z.mod_pos_bound n 2 ltac:(lia)).
  unfold pair_at. destruct (n mod 2 =? 0) eqn:He; zify_b.
  - assert (Hq : (n + 1) / 2 = n / 2).
    { symmetry. apply (Z.div_unique _ _ _ 1); lia. }
    rewrite Hq, (proj2 (Z.ltb_lt _ _)) by lia. f_equal; [lia|f_equal; lia].
  - assert (Hq : (n + 1) / 2 = n / 2 + 1).
    { symmetry. apply (Z.div_unique _ _ _ 0); lia. }
    rewrite Hq, (proj2 (Z.ltb_ge _ _)) by lia. f_equal; lia.
Qed.

Lemma zget_vslice {A} (v : list A) b e :
  0 ≤ b ≤ e → e ≤ zlen v →
  ∃ w, vslice v b e = Ok w ∧ zlen w = e - b ∧
    ∀ i, 0 ≤ i < e - b → zget w i = zget v (b + i).
Proof.
  intros Hb He. unfold vslice. rewrite !(proj2 (Z.leb_le _ _)) by lia. eexists. split; [done|].
  split; [rewrite zlen_ztake, zlen_zdrop by lia; lia|]. intros i Hi.
  rewrite zget_ztake, decide_True, zget_zdrop, decide_True by lia. done.
Qed.

Lemma half_pred n : 1 ≤ n → (n - 1) / 2 = (n + 1) / 2 - 1.
Proof.
  intros. replace (n + 1) with (n - 1 + 1 * 2) by lia. rewrite Z.div_add by lia. lia.
Qed.

Lemma truncate_loop_ok fuel old ns l lo :
  1 ≤ zlen l ≤ 2 ^ Z.of_nat fuel → level_at ns (inner l) l → holds_tree old lo →
  inner lo + zlen lo < U64 → zlen l ≤ zlen lo →
  (∀ j, 0 ≤ j < zlen l - 1 → zget l j = zget lo j) →
  ∃ ns', truncate_loop crypto_hash fuel old (inner l) (inner l + zlen l) (zlen l) (inner lo)
      (inner lo + zlen l) (zlen lo) ns = Ok ns' ∧ treed ns l ns'.
Proof.
  revert ns l lo. induction fuel as [|fuel IH]; intros ns l lo Hf Hl Ho Hlt Hle Hag.
  { assert (Hi : inner l = 0) by (apply inner_small; cbn in Hf; lia).
    exists ns. rewrite Hi in *. split; [done|]. by apply treed_small. }
  destruct (decide (zlen l ≤ 1)) as [Hs|Hs].
  { assert (Hi : inner l = 0) by (by apply inner_small). rewrite Hi in *. exists ns.
    split; [done|]. by apply treed_small. }
  pose proof (inner_big l ltac:(lia)) as Hib. pose proof (inner_nonneg (up l)).
  pose proof (inner_big lo ltac:(lia)) as Hibo. pose proof (inner_nonneg (up lo)).
  pose proof (inner_mono l lo Hle). destruct Hf as [_ Hf].
  pose proof (zlen_up_pos l ltac:(lia)) as Hu. pose proof (zlen_up_le_pow _ _ Hf) as Huf.
  assert (Hul : zlen (up l) ≤ zlen (up lo)) by (rewrite !zlen_up; apply Z.div_le_mono; lia).
  cbn [truncate_loop]. rewrite (proj2 (Z.ltb_ge _ _)) by lia.
  rewrite (parent_inner l), bind_ok, (u_sub_ok (inner l + zlen l) 1), bind_ok by lia.
  replace (inner l + zlen l - 1) with (inner l + (zlen l - 1)) by lia.
  rewrite (parent_ok (inner l)), bind_ok by (rewrite <- ?zlen_up; lia).
  rewrite (parent_inner lo), bind_ok, (u_sub_ok (inner lo + zlen l) 1), bind_ok by lia.
  replace (inner lo + zlen l - 1) with (inner lo + (zlen l - 1)) by lia.
  rewrite (parent_ok (inner lo)), bind_ok by (rewrite <- ?zlen_up; lia).
  rewrite !half_pred, <- !zlen_up by lia.
  replace (inner l - zlen (up l) + (zlen (up l) - 1) + 1) with (inner l) by lia.
  replace (inner lo - zlen (up lo) + (zlen (up l) - 1) + 1) with (inner (up lo) + zlen (up l)) by lia.
  rewrite rassert_ok, bind_ok by (apply Z.eqb_eq; lia).
  destruct (zget_vslice old (inner (up lo)) (inner (up lo) + zlen (up l)))
    as (src & -> & Hsz & Hsi); [lia|destruct Ho; lia|]. rewrite bind_ok.
  destruct Hl as [Hn Hl].
  destruct (vcopy_ok ns (inner (up l)) src) as (ns1 & -> & Hz1 & Hi1); [lia|lia|].
  rewrite bind_ok.
  assert (Hlp : (if Z.land (inner l + zlen l - inner l) 1 =? 0
      then hash_up crypto_hash ns1 [inner l + zlen l - 2; inner l + (zlen l - 1)] (inner l) (zlen l)
      else hash_up crypto_hash ns1 [inner l + (zlen l - 1)] (inner l) (zlen l))
    = hash_up crypto_hash ns1 (pair_at (inner l) (zlen l) (zlen (up l) - 1)) (inner l) (zlen l)).
  { rewrite zlen_up, <- last_pair by lia.
    replace (inner l + zlen l - inner l) with (zlen l) by lia.
    replace (inner l + zlen l - 1) with (inner l + (zlen l - 1)) by lia.
    by destruct (Z.land (zlen l) 1 =? 0). }
  rewrite Hlp. destruct (hash_up_ok ns1 (inner l) l (zlen (up l) - 1)) as (x & Hx & ->);
    [|lia|lia|lia|lia|].
  { intros j Hj. rewrite Hi1, decide_False by lia. by apply Hl. }
  rewrite bind_ok.
  set (ns2 := zset ns1 (inner l - zlen (up l) + (zlen (up l) - 1)) x).
  assert (Hz2 : zlen ns2 = zlen ns) by (unfold ns2; by rewrite zlen_zset).
  assert (Hi2 : ∀ j, zget ns2 j = if decide (inner l - zlen (up l) ≤ j < inner l)
    then zget (up l) (j - (inner l - zlen (up l))) else zget ns j).
  { intros j. unfold ns2. rewrite zget_zset, Hi1, Hsz by lia.
    repeat case_decide; try lia; try done.
    - rewrite <- Hx. f_equal. lia.
    - rewrite Hsi by lia. destruct (holds_tree_up old lo ltac:(lia) Ho) as [_ Hi].
      replace (inner (up lo) + (j - inner (up l))) with (inner (up lo) + (j - inner (up l))) by lia.
      rewrite Hi by lia. rewrite zget_tree_leaf by lia.
      replace (j - (inner l - zlen (up l))) with (j - inner (up l)) by lia.
      rewrite !zget_up by lia. pose proof (zlen_up l) as Hzu.
      pose proof (Z.mul_div_le (zlen l + 1) 2 ltac:(lia)).
      by rewrite !Hag by lia. }
  pose proof (level_up ns ns2 _ _ (conj Hn Hl) ltac:(lia) Hz2 Hi2) as Hl2.
  replace (inner l - zlen (up l)) with (inner (up l)) in * by lia.
  destruct (IH ns2 (up l) (up lo)) as (ns' & Heq & Ht); [lia|done| |lia|lia| |].
  { apply holds_tree_up; [lia|done]. }
  { intros j Hj. pose proof (zlen_up l). pose proof (Z.mul_div_le (zlen l + 1) 2 ltac:(lia)).
    rewrite !zget_up by lia. by rewrite !Hag by lia. }
  rewrite <- Hib in Heq. rewrite Heq. exists ns'. split; [done|].
  apply (treed_step ns ns2); try done; [lia|]. intros j Hj.
  rewrite Hi2, decide_False by lia. done.
Qed.
End tree.

Section pieces.
Context (crypto_hash : list byte → list byte).
Abbreviation Hash := (list byte).
Abbreviation P := PIECE_SIZE.
Implicit Types (data : list byte).

Lemma P_pow : P = 2 ^ 18.
Proof. done. Qed.
Lemma P_pos : 0 < P.
Proof. done. Qed.

(** ** The pieces of a content and the tree that names it *)

Definition piece data (i : Z) : list byte := ztake P (zdrop (i * P) data).
Definition nleaf (n : Z) : Z := Z.max 1 ((n + P - 1) / P).
Definition leaf_hashes data : list Hash :=
  (λ i, crypto_hash (piece data i)) <$> range 0 (nleaf (zlen data)).
Definition mtree_of data : MerkleTree := mkTree (zlen data) (tree crypto_hash (leaf_hashes data)).

Lemma align_offset_ok n : align_piece_offset n = Ok (n mod P).
Proof. apply (Utils.align_offset_spec 18). lia. Qed.
Lemma align_floor_ok n : 0 ≤ n → align_piece_floor n = Ok (P * (n / P)).
Proof. apply (Utils.align_floor_spec 18). lia. Qed.
Lemma align_floor_chunk_ok n : 0 ≤ n → align_piece_floor_chunk n = Ok (n / P).
Proof. apply (Utils.align_floor_chunk_spec 18). lia. Qed.
Lemma align_ceil_chunk_ok n : 0 ≤ n < 2 ^ 62 → align_piece_ceil_chunk n = Ok (nleaf n).
Proof. apply (Utils.align_ceil_chunk_spec 18). lia. Qed.

(** Division by the piece size, for [lia]. *)
Lemma div_P n : 0 ≤ n → 0 ≤ n / P ∧ n = P * (n / P) + n mod P ∧ 0 ≤ n mod P < P.
Proof.
  intros. pose proof P_pos. split; [by apply Z.div_pos|]. split; [by apply Z.div_mod|].
  by apply Z.mod_pos_bound.
Qed.
Lemma ceil_P n :
  0 ≤ n → (n + P - 1) / P = if n mod P =? 0 then n / P else n / P + 1.
Proof.
  intros Hn. destruct (div_P n Hn) as (Hq & Hd & Hm). pose proof P_pos. symmetry.
  destruct (n mod P =? 0) eqn:He; zify_b.
  - apply (Z.div_unique _ _ _ (P - 1)); lia.
  - apply (Z.div_unique _ _ _ (n mod P - 1)); lia.
Qed.


Lemma nleaf_pos n : 1 ≤ nleaf n.
Proof. unfold nleaf. lia. Qed.
Lemma zlen_leaf_hashes data : zlen (leaf_hashes data) = nleaf (zlen data).
Proof.
  unfold leaf_hashes. pose proof (nleaf_pos (zlen data)).
  rewrite zlen_fmap, zlen_range by lia. lia.
Qed.
Lemma zget_leaf_hashes data i :
  0 ≤ i < nleaf (zlen data) → zget (leaf_hashes data) i = Some (crypto_hash (piece data i)).
Proof.
  intros. unfold leaf_hashes. rewrite zget_fmap, zget_range, decide_True by lia. done.
Qed.

(** *** Reading one piece *)

(** A reader of [data]: reads are short at will but empty at the end only. *)
Definition reads (rdr : Reader) data : Prop :=
  ∀ p n, 0 ≤ p → 0 ≤ n → ∃ k, 0 ≤ k ≤ n ∧ rdr p n = Ok (ztake k (zdrop p data)) ∧
    (k = 0 → n = 0 ∨ zlen data ≤ p).

Lemma piece_hash_loop_ok fuel rdr data base pos :
  reads rdr data → 0 ≤ base → 0 ≤ pos ≤ P → P - pos < Z.of_nat fuel →
  piece_hash_loop crypto_hash fuel rdr base pos (ztake pos (zdrop base data)) =
    Ok (crypto_hash (ztake P (zdrop base data))).
Proof.
  intros Hr Hb. revert pos. induction fuel as [|fuel IH]; intros pos Hp Hf; [lia|].
  cbn [piece_hash_loop]. destruct (Hr (base + pos) (P - pos)) as (k & Hk & -> & Hz); [lia..|].
  rewrite bind_ok. set (d := ztake k (zdrop (base + pos) data)).
  assert (Hd : zlen d = Z.min k (Z.max 0 (zlen data - (base + pos)))).
  { unfold d. rewrite zlen_ztake, zlen_zdrop by lia. done. }
  assert (Hcat : ztake pos (zdrop base data) ++ d = ztake (pos + zlen d) (zdrop base data)).
  { clear Hz. unfold d in *. set (n := zlen _) in *. clearbody n.
    pose proof (zlen_nonneg data). destruct (decide (pos ≤ zlen data - base)); slice. }
  destruct (zlen d =? 0) eqn:He; zify_b.
  - do 2 f_equal. destruct (decide (pos = P)) as [->|]; [done|].
    pose proof (zlen_nonneg data). rewrite !ztake_ge; [done|rewrite zlen_zdrop by lia..]; lia.
  - rewrite Hcat. apply IH; lia.
Qed.

Lemma piece_hash_ok rdr data off :
  reads rdr data → 0 ≤ off → piece_hash crypto_hash off rdr = Ok (crypto_hash (piece data (off / P))).
Proof.
  intros Hr Ho. destruct (div_P off Ho) as (Hq & _). unfold piece_hash. pose proof P_pos.
  assert (0 ≤ P * (off / P)) by nia.
  rewrite align_floor_ok, bind_ok by done. change (@nil byte) with (ztake 0 (zdrop (P * (off / P)) data)).
  rewrite (piece_hash_loop_ok _ _ data); [|done|lia|unfold P; lia|].
  - unfold piece. by rewrite Z.mul_comm.
  - rewrite Nat2Z.inj_succ, Z2Nat.id by (unfold P; lia). lia.
Qed.

(** *** Writing *)

(** What the writer hashes for piece [i] when [D] is written at [o]. *)
Definition wpiece (o : Z) (D : list byte) (i : Z) : list byte :=
  ztake ((i + 1) * P - Z.max o (i * P)) (zdrop (Z.max o (i * P) - o) D).
Definition wcount (o n : Z) : Z := if n =? 0 then 1 else (o + n + P - 1) / P - o / P.
Definition wleaves (o : Z) (D : list byte) : Leaves :=
  mkLeaves o (zlen D)
    ((λ i, crypto_hash (wpiece o D i)) <$> range (o / P) (o / P + wcount o (zlen D))).

Definition wstate (o : Z) (D : list byte) : list byte :=
  zdrop (Z.max o (P * ((o + zlen D) / P)) - o) D.
Definition wnodes (o : Z) (D : list byte) : list Hash :=
  (λ i, crypto_hash (wpiece o D i)) <$> range (o / P) ((o + zlen D) / P).

Lemma wpiece_app o D D' i :
  0 ≤ o → (i + 1) * P ≤ o + zlen D → o / P ≤ i → wpiece o (D ++ D') i = wpiece o D i.
Proof.
  intros Ho Hi Hoi. pose proof P_pos. unfold wpiece. pose proof (zlen_nonneg D).
  destruct (div_P o Ho) as (? & ? & ?).
  rewrite zdrop_app_le by lia. apply ztake_app_le. rewrite zlen_zdrop by lia. lia.
Qed.
Lemma wnodes_app o D D' :
  0 ≤ o → (λ i, crypto_hash (wpiece o (D ++ D') i)) <$> range (o / P) ((o + zlen D) / P) = wnodes o D.
Proof.
  intros Ho. unfold wnodes. pose proof (zlen_nonneg D). apply zget_ext. intros i.
  rewrite !zget_fmap, zget_range. case_decide as Hi; [|done]. simpl. do 2 f_equal.
  destruct (div_P (o + zlen D)) as (? & ? & ?); [lia|]. apply wpiece_app; nia.
Qed.

Lemma write_loop_ok fuel o D data :
  0 ≤ o → o + zlen D + zlen data < 2 ^ 62 → zlen data ≤ Z.of_nat fuel →
  write_loop crypto_hash fuel data (o + zlen D) (wstate o D) (wnodes o D) =
    Ok (o + zlen (D ++ data), wstate o (D ++ data), wnodes o (D ++ data)).
Proof.
  intros Ho. revert D data. induction fuel as [|fuel IH]; intros D data Hlt Hf.
  { pose proof (zlen_nonneg data). destruct data; [|rewrite zlen_cons in *; pose proof (zlen_nonneg data); lia].
    by rewrite app_nil_r. }
  cbn [write_loop]. pose proof (zlen_nonneg data). pose proof (zlen_nonneg D). pose proof P_pos.
  destruct (zlen data =? 0) eqn:Hz; zify_b.
  { destruct data; [by rewrite app_nil_r|]. rewrite zlen_cons in Hz. pose proof (zlen_nonneg data). lia. }
  set (e := o + zlen D) in *. destruct (div_P e) as (He & Hed & Hem); [lia|].
  rewrite align_offset_ok, bind_ok. set (hl := Z.min (P - e mod P) (zlen data)).
  assert (Hu : e + hl < U64) by (unfold U64, hl; lia). rewrite u_add_ok, bind_ok by done.
  rewrite align_offset_ok, bind_ok.
  assert (Hd1 : zlen (ztake hl data) = hl) by (rewrite zlen_ztake by lia; lia).
  assert (HD1 : D ++ data = (D ++ ztake hl data) ++ zdrop hl data)
    by (by rewrite <- app_assoc, ztake_zdrop).
  assert (Hrest : zlen (zdrop hl data) = zlen data - hl) by (rewrite zlen_zdrop by lia; lia).
  assert (HzD1 : o + zlen (D ++ ztake hl data) = e + hl) by (rewrite zlen_app; lia).
  assert (Hmo : Z.max o (P * (e / P)) - o ≤ zlen D) by lia.
  assert (Hst : wstate o D ++ ztake hl data = zdrop (Z.max o (P * (e / P)) - o) (D ++ ztake hl data)).
  { unfold wstate. fold e. by rewrite zdrop_app_le by lia. }
  assert (Hgo : ∀ st ns, st = wstate o (D ++ ztake hl data) → ns = wnodes o (D ++ ztake hl data) →
    write_loop crypto_hash fuel (zdrop hl data) (e + hl) st ns =
      Ok (o + zlen (D ++ data), wstate o (D ++ data), wnodes o (D ++ data))).
  { intros ? ? -> ->. rewrite <- HzD1, IH; [by rewrite HD1| |]; lia. }
  destruct (decide (e mod P + hl = P)) as [Hb|Hb].
  - assert (Hdiv : (e + hl) / P = e / P + 1) by (symmetry; apply (Z.div_unique _ _ _ 0); lia).
    assert (Hmod : (e + hl) mod P = 0) by (rewrite Z.mod_eq by lia; lia).
    rewrite Hmod, (proj2 (Z.leb_le _ _)) by lia. apply Hgo.
    + unfold wstate. rewrite HzD1, Hdiv. symmetry. apply zdrop_ge. rewrite zlen_app. lia.
    + unfold wnodes at 2. rewrite HzD1, Hdiv, range_snoc by (apply Z.div_le_mono; lia).
      rewrite fmap_app. f_equal; [symmetry; by apply wnodes_app|]. simpl. do 2 f_equal.
      rewrite Hst. unfold wpiece. rewrite (Z.mul_comm (e / P)), (ztake_ge ((e / P + 1) * P - _)); [done|].
      rewrite zlen_zdrop, zlen_app by lia. lia.
  - assert (Hhl : hl = zlen data) by lia.
    assert (Hdiv : (e + hl) / P = e / P) by (symmetry; apply (Z.div_unique _ _ _ (e mod P + hl)); lia).
    assert (Hmod : (e + hl) mod P = e mod P + hl) by (rewrite Z.mod_eq by lia; lia).
    rewrite Hmod, (proj2 (Z.leb_gt _ _)) by lia. apply Hgo.
    + rewrite Hst. unfold wstate. by rewrite HzD1, Hdiv.
    + unfold wnodes at 2. rewrite HzD1, Hdiv. symmetry. by apply wnodes_app.
Qed.

(** The writer after [D] was written at [o], in any number of writes. *)
Definition written (o : Z) (D : list byte) (w : Writer) : Prop :=
  w = mkWriter (o + zlen D) (wstate o D) (mkLeaves o (zlen D) (wnodes o D)).

Lemma wtr_seek_ok o :
  0 ≤ o → ∃ w, wtr_seek wtr_new o = Ok w ∧ written o [] w.
Proof.
  intros Ho. eexists. split; [done|]. unfold written, wstate, wnodes.
  rewrite (zlen_nil (A:=byte)), Z.add_0_r, range_nil by lia. f_equal.
  unfold zdrop. by rewrite drop_nil.
Qed.
Lemma write_ok o D w data :
  0 ≤ o → o + zlen D + zlen data < 2 ^ 62 → written o D w →
  ∃ w', write crypto_hash w data = Ok w' ∧ written o (D ++ data) w'.
Proof.
  intros Ho Hlt ->. unfold write. cbn [hash_offset state leaves lnodes llen loffset].
  rewrite write_loop_ok by (done || lia || (unfold zlen; lia)). rewrite bind_ok.
  rewrite u_add_ok, bind_ok by (unfold U64; lia). eexists. split; [done|].
  unfold written. by rewrite !zlen_app.
Qed.
Lemma finish_ok o D w :
  0 ≤ o → o + zlen D < 2 ^ 62 → written o D w → finish_with_leaves crypto_hash w = Ok (wleaves o D).
Proof.
  intros Ho Hlt ->. pose proof (zlen_nonneg D). pose proof P_pos.
  unfold finish_with_leaves. cbn [hash_offset state leaves lnodes llen loffset].
  rewrite align_offset_ok, bind_ok. f_equal. unfold wleaves, wcount.
  set (e := o + zlen D). destruct (div_P e) as (He & Hed & Hem); [lia|].
  assert (Hpush : wnodes o D ++ [crypto_hash (wstate o D)] =
    (λ i, crypto_hash (wpiece o D i)) <$> range (o / P) (e / P + 1)).
  { rewrite range_snoc, fmap_app by (apply Z.div_le_mono; lia). f_equal. simpl. do 2 f_equal.
    unfold wstate, wpiece. fold e. rewrite (Z.mul_comm (e / P)), ztake_ge; [done|].
    rewrite zlen_zdrop by lia. lia. }
  destruct (zlen D =? 0) eqn:Hz; zify_b; cbn [orb].
  - f_equal. rewrite Hpush. unfold e. by rewrite Hz, Z.add_0_r.
  - rewrite ceil_P by lia. destruct (e mod P =? 0) eqn:Hm; cbn [negb]; f_equal; [|rewrite Hpush];
      unfold wnodes; fold e; do 2 f_equal; lia.
Qed.

(** *** The whole operations *)

(** Trees in use are far below the limits of [usize]. *)
Definition LIMIT : Z := 2 ^ 60.

Lemma zget_eq_list {A} (l1 l2 : list A) :
  zlen l1 = zlen l2 → (∀ i, 0 ≤ i < zlen l2 → zget l1 i = zget l2 i) → l1 = l2.
Proof.
  intros Hz Hi. apply zget_ext. intros i. destruct (decide (0 ≤ i < zlen l2)); [by apply Hi|].
  destruct (decide (i < 0)); [by rewrite !zget_neg by done|by rewrite !zget_ge by lia].
Qed.

(** Nodes of the right number that hold a tree are the tree. *)
Lemma treed_eq ns l ns' :
  treed crypto_hash ns l ns' → zlen ns = inner crypto_hash l + zlen l → ns' = tree crypto_hash l.
Proof.
  intros (Hz & Ht & _) Hn. assert (zlen (tree crypto_hash l) = inner crypto_hash l + zlen l).
  { unfold inner. lia. }
  apply zget_eq_list; [lia|]. intros i Hi. apply Ht. lia.
Qed.

Lemma build_ok o n l :
  o = 0 → 1 ≤ zlen l < LIMIT →
  build crypto_hash (mkLeaves o n l) = Ok (mkTree n (tree crypto_hash l)).
Proof.
  intros -> Hl. unfold LIMIT in Hl. pose proof (inner_le crypto_hash l).
  pose proof (inner_nonneg crypto_hash l). unfold build. cbn [loffset lnodes llen].
  rewrite rassert_ok, bind_ok by done.
  rewrite (tree_node_cnt_ok crypto_hash), bind_ok by lia.
  rewrite u_sub_ok, bind_ok by lia.
  replace (inner crypto_hash l + zlen l - zlen l) with (inner crypto_hash l) by lia.
  set (ns := replicate _ _ ++ l).
  assert (Hz : zlen ns = inner crypto_hash l + zlen l).
  { unfold ns. rewrite zlen_app, zlen_replicate by done. done. }
  destruct (build_loop_ok crypto_hash LEVELS ns l) as (ns' & -> & Ht).
  - change (2 ^ Z.of_nat LEVELS) with (2 ^ 64). lia.
  - split; [lia|]. intros j Hj. unfold ns. rewrite zget_app_r by (rewrite zlen_replicate by done; lia).
    rewrite zlen_replicate by done. f_equal. lia.
  - unfold U64. lia.
  - rewrite bind_ok. by rewrite (treed_eq _ _ _ Ht Hz).
Qed.

Lemma nleaf_lt n : 0 ≤ n < 2 ^ 62 → nleaf n < LIMIT.
Proof.
  intros Hn. unfold nleaf, LIMIT. pose proof P_pos.
  assert ((n + P - 1) / P < 2 ^ 60); [|lia]. apply Z.div_lt_upper_bound; [done|].
  unfold P. lia.
Qed.
Lemma nleaf_mono n m : n ≤ m → nleaf n ≤ nleaf m.
Proof.
  intros. unfold nleaf. pose proof P_pos.
  pose proof (Z.div_le_mono (n + P - 1) (m + P - 1) P). lia.
Qed.

Lemma mtree_new_ok : new crypto_hash = Ok (mtree_of []).
Proof.
  unfold new, finish_with_leaves. cbn [wtr_new hash_offset leaves llen lnodes loffset state].
  rewrite align_offset_ok, bind_ok. cbn [Z.eqb orb app]. rewrite bind_ok.
  apply build_ok; [done|]. unfold zlen, LIMIT. simpl. lia.
Qed.

Lemma mulP_le a b : a ≤ b → a * P ≤ b * P.
Proof. intros. pose proof P_pos. apply Z.mul_le_mono_nonneg_r; lia. Qed.

(** What is written from the start is hashed as the pieces of the whole. *)
Lemma wleaves_0 D : wleaves 0 D = mkLeaves 0 (zlen D) (leaf_hashes D).
Proof.
  unfold wleaves, leaf_hashes, wcount, nleaf. pose proof (zlen_nonneg D). pose proof P_pos.
  rewrite Z.div_0_l, !Z.add_0_l, Z.sub_0_r by lia.
  replace (if zlen D =? 0 then 1 else (zlen D + P - 1) / P) with (Z.max 1 ((zlen D + P - 1) / P)).
  - f_equal. apply list_fmap_ext. intros _ i [? _]%list_elem_of_lookup_2%elem_of_seqZ.
    unfold wpiece, piece. pose proof (mulP_le 0 i).
    rewrite Z.max_r, Z.sub_0_r by lia. do 2 f_equal. lia.
  - rewrite ceil_P by done. destruct (div_P (zlen D)) as (Hq & Hd & Hm); [done|].
    destruct (zlen D =? 0) eqn:Hz; zify_b.
    + rewrite Hz. by rewrite Z.mod_0_l, Z.div_0_l by lia.
    + destruct (zlen D mod P =? 0) eqn:Hr; zify_b; [|lia].
      rewrite Hr in Hd. nia.
Qed.
Lemma build_wleaves D :
  zlen D < 2 ^ 61 → build crypto_hash (wleaves 0 D) = Ok (mtree_of D).
Proof.
  intros HD. rewrite wleaves_0. pose proof (zlen_nonneg D). pose proof (nleaf_pos (zlen D)).
  apply build_ok; [done|]. rewrite zlen_leaf_hashes. split; [done|]. apply nleaf_lt. lia.
Qed.


(** Pieces of an overwritten content. *)
Lemma piece_before old o D i : 0 ≤ i → (i + 1) * P ≤ o ≤ zlen old → piece (overwrite old o D) i = piece old i.
Proof.
  intros Hi Ho. pose proof P_pos. unfold piece, overwrite. pose proof (zlen_nonneg D).
  assert (0 ≤ i * P) by nia. slice.
Qed.
Lemma piece_after old o D i :
  0 ≤ o ≤ zlen old → o + zlen D ≤ i * P → piece (overwrite old o D) i = piece old i.
Proof.
  intros Ho Hi. pose proof P_pos. unfold piece, overwrite. pose proof (zlen_nonneg D). slice.
Qed.
Lemma piece_inside old o D i :
  0 ≤ o ≤ zlen old → o ≤ i * P ≤ o + zlen D →
  (i + 1) * P ≤ o + zlen D ∨ zlen old ≤ o + zlen D →
  piece (overwrite old o D) i = wpiece o D i.
Proof.
  intros Ho Hi Hor. pose proof P_pos. unfold piece, wpiece, overwrite. pose proof (zlen_nonneg D).
  rewrite Z.max_r by lia. replace ((i + 1) * P - i * P) with P by lia. slice.
Qed.

Section merge.
Context (old : list byte) (o : Z) (D : list byte) (rdr : Reader).
Context (Ho : 0 ≤ o ≤ zlen old) (HD : 0 < zlen D).
Context (Hold : zlen old < 2 ^ 61) (HoD : o + zlen D < 2 ^ 61).
Context (Hrdr : reads rdr (overwrite old o D)).
Abbreviation lo := (leaf_hashes old).
Abbreviation ln := (leaf_hashes (overwrite old o D)).
Abbreviation lb := (inner crypto_hash ln).
Abbreviation ov := (o / P).
(** Where the overlap ends, and its last piece. *)
Definition ve : Z := Z.min (zlen old) (o + zlen D).
Abbreviation tl := (ve / P).

Lemma merge_bounds :
  zlen ln = nleaf (Z.max (zlen old) (o + zlen D)) ∧ zlen lo = nleaf (zlen old) ∧
  1 ≤ zlen lo ≤ zlen ln ∧ zlen ln < LIMIT ∧ 0 ≤ ov ≤ zlen lo ∧
  1 ≤ wcount o (zlen D) ∧ ov + wcount o (zlen D) ≤ zlen ln ∧
  (ve mod P ≠ 0 → 0 ≤ tl < zlen lo ∧ nleaf ve = tl + 1) ∧ 1 ≤ nleaf ve ≤ zlen ln.
Proof.
  rewrite !zlen_leaf_hashes, zlen_overwrite by done.
  pose proof (nleaf_mono (zlen old) (Z.max (zlen old) (o + zlen D)) ltac:(lia)).
  pose proof (nleaf_mono ve (zlen old) ltac:(unfold ve; lia)) as Hve.
  pose proof (nleaf_mono (o + zlen D) (Z.max (zlen old) (o + zlen D)) ltac:(lia)) as Hm.
  pose proof (nleaf_pos (zlen old)). pose proof (nleaf_pos ve).
  pose proof (nleaf_lt (Z.max (zlen old) (o + zlen D)) ltac:(lia)). pose proof P_pos.
  assert (Hov : 0 ≤ ov ≤ nleaf (zlen old)).
  { unfold nleaf. split; [apply Z.div_pos; lia|].
    pose proof (Z.div_le_mono o (zlen old + P - 1) P). lia. }
  assert (Hw : 1 ≤ wcount o (zlen D) ∧ ov + wcount o (zlen D) ≤ nleaf (o + zlen D)).
  { unfold wcount, nleaf. rewrite (proj2 (Z.eqb_neq _ _)) by lia. split; [|lia].
    assert (ov + 1 ≤ (o + zlen D + P - 1) / P); [|lia]. apply Z.div_le_lower_bound; [done|].
    pose proof (div_P o). lia. }
  split_and!; try done; try lia. intros Hv. split.
  - assert (0 ≤ ve) by (unfold ve; lia). pose proof (div_P ve).
    split; [lia|]. eapply Z.lt_le_trans; [|exact Hve]. unfold nleaf. rewrite ceil_P by lia.
    rewrite (proj2 (Z.eqb_neq _ _)) by done. lia.
  - assert (0 ≤ ve) by (unfold ve; lia). pose proof (div_P ve).
    unfold nleaf. rewrite ceil_P by lia. rewrite (proj2 (Z.eqb_neq _ _)) by done. lia.
Qed.

(** The leaves are those of the new content, but for the stale ones. *)
Definition fresh (ns : list Hash) (stale : Z → Prop) : Prop :=
  zlen ns = lb + zlen ln ∧ old_at crypto_hash ns lo ∧
  ∀ i, 0 ≤ i < zlen ln → ¬ stale i → zget ns (lb + i) = zget ln i.

Lemma zget_ln i : 0 ≤ i < zlen ln → zget ln i = Some (crypto_hash (piece (overwrite old o D) i)).
Proof. intros Hi. apply zget_leaf_hashes. by rewrite <- zlen_leaf_hashes. Qed.

Lemma fresh_set ns stale stale' i h :
  fresh ns stale → 0 ≤ i < zlen ln → h = crypto_hash (piece (overwrite old o D) i) →
  (∀ j, stale j → j ≠ i → stale' j) →
  ∃ ns', vset ns (lb + i) h = Ok ns' ∧ fresh ns' stale'.
Proof.
  intros (Hz & Hoa & Hf) Hi -> Hs. pose proof merge_bounds as (_ & _ & Hl & _).
  pose proof (inner_mono crypto_hash lo ln ltac:(lia)).
  eexists. split; [apply vset_ok; lia|]. split; [by rewrite zlen_zset|]. split.
  - intros j Hj. rewrite zget_zset, decide_False by lia. by apply Hoa.
  - intros j Hj Hns. rewrite zget_zset by lia. case_decide.
    + replace j with i by lia. by rewrite zget_ln.
    + apply Hf; [done|]. intros Hst. apply Hns, Hs; [done|lia].
Qed.

(** The leaves right after both copies. *)
Definition stale0 (i : Z) : Prop := (i = ov ∧ o mod P ≠ 0) ∨ (i = tl ∧ ve mod P ≠ 0).
Lemma copied_fresh :
  ∃ ns1 ns2,
    vcopy (vresize (tree crypto_hash lo) (lb + zlen ln) new_empty) lb lo = Ok ns1 ∧
    vcopy ns1 (lb + ov) (lnodes (wleaves o D)) = Ok ns2 ∧ fresh ns2 stale0.
Proof.
  pose proof merge_bounds as (Hzn & Hzo & Hl & _ & Hov & Hw & Hwn & _).
  pose proof (inner_mono crypto_hash lo ln ltac:(lia)) as Hin. pose proof P_pos.
  set (t := tree crypto_hash lo).
  assert (Ht : zlen t = inner crypto_hash lo + zlen lo) by (unfold t, inner; lia).
  destruct (vresize_ok t (lb + zlen ln) new_empty ltac:(lia)) as [Hz0 Hi0].
  destruct (vcopy_ok (vresize t (lb + zlen ln) new_empty) lb lo) as (ns1 & Hc1 & Hz1 & Hi1);
    [lia|lia|].
  assert (Hwz : zlen (lnodes (wleaves o D)) = wcount o (zlen D)).
  { unfold wleaves. cbn [lnodes]. rewrite zlen_fmap, zlen_range by lia. lia. }
  destruct (vcopy_ok ns1 (lb + ov) (lnodes (wleaves o D))) as (ns2 & Hc2 & Hz2 & Hi2); [lia|lia|].
  exists ns1, ns2. split; [done|]. split; [done|]. split; [lia|]. split.
  - intros j Hj. rewrite Hi2, decide_False, Hi1, decide_False by lia. apply Hi0. lia.
  - intros i Hi Hns. rewrite Hi2, Hwz, zget_ln by done. case_decide as Hc.
    + unfold wleaves. cbn [lnodes]. rewrite zget_fmap, zget_range, decide_True by lia.
      replace (lb + i - (lb + ov)) with (i - ov) by lia. replace (ov + (i - ov)) with i by lia.
      simpl. do 2 f_equal. symmetry. unfold stale0, ve, wcount in *.
      rewrite (proj2 (Z.eqb_neq (zlen D) 0)), ceil_P in Hc by lia.
      destruct (div_P o) as (? & ? & ?); [lia|].
      destruct (div_P (o + zlen D)) as (? & He & ?); [lia|].
      assert (Hst : o ≤ i * P).
      { destruct (decide (i = ov)) as [->|Hne].
        - destruct (decide (o mod P = 0)); [lia|]. exfalso. apply Hns. by left.
        - pose proof (mulP_le (ov + 1) i ltac:(lia)). lia. }
      destruct ((o + zlen D) mod P =? 0) eqn:Hm; zify_b.
      * pose proof (mulP_le (i + 1) ((o + zlen D) / P) ltac:(lia)).
        apply piece_inside; [done|lia|left; lia].
      * pose proof (mulP_le i ((o + zlen D) / P) ltac:(lia)).
        apply piece_inside; [done|lia|].
        destruct (decide (i = (o + zlen D) / P)) as [->|].
        { destruct (decide (zlen old ≤ o + zlen D)); [by right|]. exfalso. apply Hns. right.
          rewrite Z.min_r by lia. done. }
        pose proof (mulP_le (i + 1) ((o + zlen D) / P) ltac:(lia)). left. lia.
    + rewrite Hi1. destruct (decide (i < ov)).
      * rewrite decide_True by lia. replace (lb + i - lb) with i by lia.
        rewrite zget_leaf_hashes by lia. rewrite piece_before; [done|lia|].
        destruct (div_P o) as (? & ? & ?); [lia|].
        pose proof (mulP_le (i + 1) ov ltac:(lia)). lia.
      * assert (Haf : o + zlen D ≤ i * P).
        { unfold wcount in Hc. rewrite (proj2 (Z.eqb_neq _ _)), ceil_P in Hc by lia.
          destruct (div_P (o + zlen D)) as (? & ? & ?); [lia|].
          destruct ((o + zlen D) mod P =? 0) eqn:Hm; zify_b.
          - pose proof (mulP_le ((o + zlen D) / P) i ltac:(lia)). lia.
          - pose proof (mulP_le ((o + zlen D) / P + 1) i ltac:(lia)). lia. }
        assert (i < zlen lo).
        { rewrite Hzo. rewrite Hzn in Hi. destruct (decide (zlen old ≤ o + zlen D)).
          - exfalso. rewrite Z.max_r in Hi by lia. unfold nleaf in Hi.
            rewrite ceil_P in Hi by lia. destruct (div_P (o + zlen D)) as (? & ? & ?); [lia|].
            destruct ((o + zlen D) mod P =? 0) eqn:Hm; zify_b.
            + destruct (decide (i = 0)); [subst; lia|].
              pose proof (mulP_le (i + 1) ((o + zlen D) / P) ltac:(lia)). lia.
            + pose proof (mulP_le i ((o + zlen D) / P) ltac:(lia)). lia.
          - rewrite Z.max_l in Hi by lia. lia. }
        rewrite decide_True by lia. replace (lb + i - lb) with i by lia.
        rewrite zget_leaf_hashes by lia. by rewrite piece_after.
Qed.

Lemma vslice_leaves l :
  vslice (tree crypto_hash l) (inner crypto_hash l) (zlen (tree crypto_hash l)) = Ok l.
Proof.
  pose proof (inner_nonneg crypto_hash l). pose proof (zlen_nonneg l).
  assert (Ht : zlen (tree crypto_hash l) = inner crypto_hash l + zlen l) by (unfold inner; lia).
  destruct (zget_vslice (tree crypto_hash l) (inner crypto_hash l) (zlen (tree crypto_hash l)))
    as (w & -> & Hz & Hi); [lia|lia|]. f_equal. apply zget_eq_list; [lia|]. intros i Hi'.
  rewrite Hi by lia. apply zget_tree_leaf. lia.
Qed.

(** Both re-hashing steps leave fresh leaves only. *)
Lemma rehash_fresh ns2 :
  fresh ns2 stale0 →
  ∃ ns3 b ns4,
    (if negb (o mod P =? 0) then
       h ← piece_hash crypto_hash o rdr; ns ← vset ns2 (lb + ov) h; Ok (ns, true)
     else Ok (ns2, false)) = Ok (ns3, b) ∧
    (if negb (ve mod P =? 0) && negb ((lb + ov =? lb + nleaf ve - 1) && b)
     then h ← piece_hash crypto_hash ve rdr; vset ns3 (lb + nleaf ve - 1) h
     else Ok ns3) = Ok ns4 ∧ fresh ns4 (λ _, False).
Proof.
  intros Hf. pose proof merge_bounds as (_ & _ & Hl & _ & Hov & Hw & Hwn & Hv & _).
  set (stale1 := λ i : Z, i = tl ∧ ve mod P ≠ 0 ∧ (i = ov → o mod P = 0)).
  assert (H3 : ∃ ns3, (if negb (o mod P =? 0) then
       h ← piece_hash crypto_hash o rdr; ns ← vset ns2 (lb + ov) h; Ok (ns, true)
     else Ok (ns2, false)) = Ok (ns3, negb (o mod P =? 0)) ∧ fresh ns3 stale1).
  { destruct (o mod P =? 0) eqn:Hm; zify_b; cbn [negb].
    - exists ns2. split; [done|]. destruct Hf as (? & ? & Hf). split; [done|]. split; [done|].
      intros i Hi Hs. apply Hf; [done|]. intros [[_ ?]|[-> ?]]; [done|]. by apply Hs.
    - rewrite (piece_hash_ok _ _ _ Hrdr), bind_ok by lia.
      destruct (fresh_set ns2 stale0 stale1 ov (crypto_hash (piece (overwrite old o D) ov)))
        as (ns3 & -> & Hf3); [done|lia|done| |].
      { intros j [[-> _]|[-> ?]] Hne; [done|]. by split. }
      by exists ns3. }
  destruct H3 as (ns3 & -> & Hf3). eexists ns3, _. 
  destruct (ve mod P =? 0) eqn:Hm; zify_b; cbn [negb andb].
  { exists ns3. split; [done|]. split; [done|]. destruct Hf3 as (? & ? & Hf3).
    split; [done|]. split; [done|]. intros i Hi _. apply Hf3; [done|]. by intros (_ & ? & _). }
  destruct (Hv Hm) as [Htl Hnv]. rewrite Hnv.
  replace (lb + (tl + 1) - 1) with (lb + tl) by lia.
  destruct ((lb + ov =? lb + tl) && negb (o mod P =? 0)) eqn:Hx; cbn [negb].
  - apply andb_true_iff in Hx as [Hx1 Hx2]. zify_b. exists ns3. split; [done|].
    split; [done|]. destruct Hf3 as (? & ? & Hf3). split; [done|]. split; [done|].
    intros i Hi _. apply Hf3; [done|]. intros (-> & _ & Himp). apply Hx2, Himp. lia.
  - rewrite (piece_hash_ok _ _ _ Hrdr), bind_ok by (unfold ve; lia).
    destruct (fresh_set ns3 stale1 (λ _, False) tl (crypto_hash (piece (overwrite old o D) tl)))
      as (ns4 & -> & Hf4); [done|lia|done| |by exists ns4].
    intros j (-> & _) Hne. done.
Qed.

Lemma merge_ok :
  merge crypto_hash (mtree_of old) (wleaves o D) rdr = Ok (mtree_of (overwrite old o D)).
Proof.
  pose proof merge_bounds as (Hzn & Hzo & Hl & Hlim & Hov & Hw & Hwn & Hv & Hnv).
  pose proof (inner_mono crypto_hash lo ln ltac:(lia)) as Hin.
  pose proof (inner_le crypto_hash ln). unfold LIMIT in Hlim.
  unfold merge. change (loffset (wleaves o D)) with o.
  change (lend_offset (wleaves o D)) with (u_add o (zlen D)).
  change (mlen (mtree_of old)) with (zlen old).
  change (nodes (mtree_of old)) with (tree crypto_hash lo).
  assert (Hlc : leaf_cnt (mtree_of old) = Ok (zlen lo)).
  { unfold leaf_cnt. simpl. rewrite align_ceil_chunk_ok by lia. by rewrite Hzo. }
  assert (Hic : inner_cnt (mtree_of old) = Ok (inner crypto_hash lo)).
  { unfold inner_cnt. rewrite Hlc, bind_ok. simpl. unfold inner.
    apply u_sub_ok. unfold inner in Hin. lia. }
  rewrite rassert_ok, bind_ok by (apply Z.leb_le; lia).
  rewrite (u_add_ok o), bind_ok by (unfold U64; lia). cbv zeta.
  rewrite (align_ceil_chunk_ok (Z.max (zlen old) (o + zlen D))), bind_ok, <- Hzn by lia.
  rewrite (tree_node_cnt_ok crypto_hash), bind_ok by lia.
  rewrite u_sub_ok, bind_ok, Hic, bind_ok, Hlc, bind_ok by lia.
  rewrite align_floor_chunk_ok, bind_ok by lia. fold ve.
  rewrite align_ceil_chunk_ok, bind_ok by (unfold ve; lia).
  rewrite vslice_leaves, bind_ok.
  replace (lb + zlen ln - zlen ln) with lb by lia.
  destruct copied_fresh as (ns1 & ns2 & Hc1 & Hc2 & Hf2).
  rewrite Hc1, bind_ok, Hc2, bind_ok. rewrite !align_offset_ok, bind_ok.
  destruct (rehash_fresh ns2 Hf2) as (ns3 & b & ns4 & H3 & H4 & Hz4 & Ho4 & Hf4).
  rewrite H3, !bind_ok, H4, bind_ok.
  assert (Hag : ∀ j, 0 ≤ j < ov → zget ln j = zget lo j).
  { intros j Hj. rewrite zget_ln, zget_leaf_hashes by lia. rewrite piece_before; [done|lia|].
    destruct (div_P o) as (? & ? & ?); [lia|]. pose proof (mulP_le (j + 1) ov ltac:(lia)). lia. }
  destruct (merge_loop_ok crypto_hash LEVELS ns4 ln lo ov (nleaf ve)) as (ns5 & Heq & Ht5); try done.
  - change (2 ^ Z.of_nat LEVELS) with (2 ^ 64). lia.
  - split; [lia|]. intros j Hj. apply Hf4; [lia|by intros []].
  - unfold U64. lia.
  - lia.
  - rewrite Heq, bind_ok. rewrite (treed_eq _ _ _ Ht5 Hz4). unfold mtree_of.
    by rewrite zlen_overwrite.
Qed.
End merge.

Lemma piece_ztake data at_ i :
  0 ≤ i → (i + 1) * P ≤ at_ → piece (ztake at_ data) i = piece data i.
Proof.
  intros Hi Ha. pose proof P_pos. unfold piece. assert (0 ≤ i * P) by nia.
  pose proof (zlen_nonneg data). slice.
Qed.

Section truncate.
Context (data : list byte) (at_ : Z) (rdr : Reader).
Context (Hat : 0 ≤ at_ < zlen data) (Hlen : zlen data < 2 ^ 61).
Context (Hrdr : reads rdr (ztake at_ data)).
Abbreviation lo := (leaf_hashes data).
Abbreviation ln := (leaf_hashes (ztake at_ data)).
Abbreviation lb := (inner crypto_hash ln).

Lemma zlen_cut : zlen (ztake at_ data) = at_.
Proof. rewrite zlen_ztake by lia. lia. Qed.

Lemma cut_bounds :
  zlen ln = nleaf at_ ∧ zlen lo = nleaf (zlen data) ∧ 1 ≤ zlen ln ≤ zlen lo ∧
  zlen lo < LIMIT ∧ inner crypto_hash ln ≤ inner crypto_hash lo ∧ 0 ≤ inner crypto_hash ln ∧
  (∀ i, 0 ≤ i < zlen ln → (at_ mod P = 0 ∧ at_ ≠ 0) ∨ i < zlen ln - 1 → (i + 1) * P ≤ at_) ∧
  (at_ mod P ≠ 0 ∨ at_ = 0 → zlen ln = at_ / P + 1).
Proof.
  rewrite !zlen_leaf_hashes, zlen_cut. pose proof P_pos.
  pose proof (nleaf_mono at_ (zlen data) ltac:(lia)). pose proof (nleaf_pos at_).
  pose proof (nleaf_lt (zlen data) ltac:(lia)).
  assert (Hle : zlen ln ≤ zlen lo) by (rewrite !zlen_leaf_hashes, zlen_cut; lia).
  pose proof (inner_mono crypto_hash _ _ Hle).
  destruct (div_P at_) as (? & ? & ?); [lia|].
  assert (Hn : nleaf at_ = if (at_ mod P =? 0) && negb (at_ =? 0) then at_ / P else at_ / P + 1).
  { unfold nleaf. rewrite ceil_P by lia. destruct (at_ mod P =? 0) eqn:Hm; zify_b; cbn [andb].
    - destruct (at_ =? 0) eqn:Ha0; zify_b; cbn [negb]; [subst at_; rewrite Z.div_0_l by lia; lia|].
      assert (1 ≤ at_ / P); [|lia]. destruct (decide (at_ / P = 0)); [|lia]. lia.
    - lia. }
  split_and!; try done; try lia.
  - intros i Hi Hor. rewrite Hn in Hi, Hor.
    assert (i + 1 ≤ at_ / P).
    { destruct Hor as [[Hm Hn0]|Hlt].
      - by rewrite Hm, (proj2 (Z.eqb_neq _ _) Hn0) in Hi; cbn in Hi; lia.
      - destruct ((at_ mod P =? 0) && negb (at_ =? 0)); lia. }
    pose proof (mulP_le (i + 1) (at_ / P) ltac:(lia)). lia.
  - intros Hor. rewrite Hn. destruct (at_ mod P =? 0) eqn:Hm; zify_b; [|done].
    destruct Hor as [?| ->]; [done|]. done.
Qed.

Lemma truncate_ok :
  truncate crypto_hash (mtree_of data) at_ rdr = Ok (mtree_of (ztake at_ data)).
Proof.
  pose proof cut_bounds as (Hzn & Hzo & Hl & Hlim & Hin & Hin0 & Hfull & Hlast).
  pose proof (inner_le crypto_hash lo). unfold LIMIT in Hlim.
  unfold truncate. change (mlen (mtree_of data)) with (zlen data).
  change (nodes (mtree_of data)) with (tree crypto_hash lo).
  assert (Hlc : leaf_cnt (mtree_of data) = Ok (zlen lo)).
  { unfold leaf_cnt. simpl. rewrite align_ceil_chunk_ok by lia. by rewrite Hzo. }
  assert (Ht : zlen (tree crypto_hash lo) = inner crypto_hash lo + zlen lo) by (unfold inner; lia).
  assert (Hic : inner_cnt (mtree_of data) = Ok (inner crypto_hash lo)).
  { unfold inner_cnt. rewrite Hlc, bind_ok. simpl. rewrite u_sub_ok by lia. f_equal. }
  rewrite rassert_ok, bind_ok by (apply Z.leb_le; lia).
  rewrite (proj2 (Z.eqb_neq at_ _)) by lia.
  rewrite align_ceil_chunk_ok, bind_ok, <- Hzn by lia.
  rewrite (tree_node_cnt_ok crypto_hash), bind_ok by lia.
  rewrite (u_sub_ok (lb + zlen ln) (zlen ln)), bind_ok, Hic, bind_ok by lia. cbv zeta.
  replace (lb + zlen ln - zlen ln) with lb by lia.
  destruct (zget_vslice (tree crypto_hash lo) (inner crypto_hash lo) (inner crypto_hash lo + zlen ln))
    as (w & -> & Hzw & Hiw); [lia|lia|]. rewrite bind_ok.
  destruct (vcopy_ok (replicate (Z.to_nat (lb + zlen ln)) new_empty) lb w) as (ns1 & -> & Hz1 & Hi1);
    [lia|rewrite zlen_replicate by lia; lia|].
  rewrite zlen_replicate in Hz1 by lia. rewrite bind_ok, align_offset_ok, bind_ok.
  assert (Hns1 : ∀ i, 0 ≤ i < zlen ln → zget ns1 (lb + i) = zget lo i).
  { intros i Hi. rewrite Hi1, decide_True by lia. replace (lb + i - lb) with i by lia.
    rewrite Hiw by lia. rewrite zget_tree_leaf by lia. done. }
  assert (Hsame : ∀ i, 0 ≤ i < zlen ln → (i + 1) * P ≤ at_ → zget ln i = zget lo i).
  { intros i Hi Hle. rewrite !zget_leaf_hashes by (rewrite ?zlen_cut; lia).
    by rewrite piece_ztake by lia. }
  assert (Hns2 : ∃ ns2, (if negb (at_ mod P =? 0) || (at_ =? 0)
      then h ← piece_hash crypto_hash at_ rdr; i ← u_sub (lb + zlen ln) 1; vset ns1 i h
      else Ok ns1) = Ok ns2 ∧ level_at ns2 lb ln ∧ zlen ns2 = lb + zlen ln).
  { destruct (negb (at_ mod P =? 0) || (at_ =? 0)) eqn:Hc.
    - assert (Hor : at_ mod P ≠ 0 ∨ at_ = 0).
      { apply orb_true_iff in Hc as [Hc|Hc]; zify_b; auto. }
      specialize (Hlast Hor). rewrite (piece_hash_ok _ _ _ Hrdr), bind_ok by lia.
      rewrite u_sub_ok, bind_ok, vset_ok by lia. eexists. split; [done|].
      rewrite zlen_zset. split; [|lia]. split; [rewrite zlen_zset; lia|]. intros j Hj.
      rewrite zget_zset by lia. case_decide as Hjl.
      + replace j with (at_ / P) by lia. rewrite zget_leaf_hashes by (rewrite zlen_cut; lia). done.
      + rewrite Hns1, Hsame by (try apply Hfull; lia). done.
    - apply orb_false_iff in Hc as [Hc1 Hc2]. zify_b. exists ns1. split; [done|].
      split; [|lia]. split; [lia|]. intros j Hj. rewrite Hns1 by lia.
      symmetry. apply Hsame; [done|]. apply Hfull; [done|by left]. }
  destruct Hns2 as (ns2 & -> & Hlv & Hz2). rewrite bind_ok, Hlc, bind_ok.
  destruct (truncate_loop_ok crypto_hash LEVELS (tree crypto_hash lo) ns2 ln lo)
    as (ns3 & -> & Ht3); [|done| |unfold U64; lia|lia| |].
  - change (2 ^ Z.of_nat LEVELS) with (2 ^ 64). lia.
  - split; [lia|done].
  - intros j Hj. apply Hsame; [lia|]. apply Hfull; [lia|right; lia].
  - rewrite bind_ok, (treed_eq _ _ _ Ht3 Hz2). unfold mtree_of. by rewrite zlen_cut.
Qed.
End truncate.
End pieces.
