(* ===== verification/Content.v ===== *)
(** * src/content/content.rs: contents, their reader, overwriting and truncation. *)
From S2P Require Import Prelude Base Segment Entry ChunkMap Link Merkle MerkleProofs.

(** ** Reading a cutable list

    The reader walks entries and, in each, spans, skipping what ends before the start; the
    state is the bytes read so far and the reader's position, the flag a full buffer. *)

Fixpoint skip_whileM {A} (f : A → res bool) (l : list A) : res (list A) :=
  match l with
  | [] => Ok []
  | x :: l' => b ← f x; if b : bool then skip_whileM f l' else Ok l
  end.

Abbreviation RState := (list byte * Z)%type.

Fixpoint read_items {I} (f : I → RState → res (bool * RState)) (l : list I) (s : RState)
    : res (bool * RState) :=
  match l with
  | [] => Ok (false, s)
  | i :: l => '(full, s) ← f i s; if full : bool then Ok (true, s) else read_items f l s
  end.

(** The [while] loop over one span: a read exhausts the span or the buffer, so the third
    test of its condition ends it. *)
Fixpoint read_span_loop (fuel : nat) (data : list byte) (n seg_offset span_left : Z)
    (s : RState) : res (bool * RState) :=
  if span_left <=? 0 then Ok (false, s)
  else match fuel with
       | O => Panic
       | S fuel =>
           let dst := n - zlen s.1 in
           if dst =? 0 then Ok (true, s)
           else
             let read_len := Z.min span_left dst in
             d ← SegData.read data read_len seg_offset;
             seg_offset ← u_add seg_offset (zlen d);
             span_left ← u_sub span_left (zlen d);
             pos ← u_add s.2 (zlen d);
             read_span_loop fuel data n seg_offset span_left (s.1 ++ d, pos)
       end.

Definition read_span (seg : Segment.Segment) (data : list byte) (n : Z) (sp : Span.Span)
    (s : RState) : res (bool * RState) :=
  over_span ← u_sub s.2 (Span.soffset sp);
  o ← Span.offset_in_seg sp seg;
  seg_offset ← u_add o over_span;
  span_left ← u_sub (Span.slen sp) over_span;
  read_span_loop 3 data n seg_offset span_left s.

Section read.
Context {St : Type} `{!SegStore St}.

Definition ends_before {T} `{!Extent T} (start : Z) (t : T) : res bool :=
  e ← end_offset t; Ok (e <=? start).

Definition read_entry (st : St) (start n : Z) (e : Entry.Entry) (s : RState)
    : res (bool * RState) :=
  seg ← get_seg st (Entry.seg_id e);
  data ← get_segdata st (Segment.data_id seg);
  sps ← skip_whileM (ends_before start) (Entry.spans e);
  read_items (read_span seg data n) sps s.

(** [Reader::read] into a buffer of [n] bytes at position [pos]. *)
Definition read (st : St) (l : EntryList.EntryList) (pos n : Z) : res RState :=
  if n =? 0 then Ok ([], pos)
  else
    es ← skip_whileM (ends_before pos) (EntryList.ents l);
    '(_, s) ← read_items (read_entry st pos n) es ([], pos);
    Ok s.

(** [Seek for Reader]; sums are done in [i64]. *)
Definition reader_seek (l : EntryList.EntryList) (cur : Z) (p : SeekFrom) : Z :=
  match p with
  | Start pos => pos
  | SeekEnd pos => wrap (EntryList.llen l + pos)
  | Current pos => wrap (cur + pos)
  end.
End read.

(** ** Contents *)

Section content.
Context (crypto_hash : list byte → list byte).
Context {St : Type} `{!SegStore St}.

Record Content := mkContent {
  ents : EntryList.EntryList; mtree : MerkleTree; leaves : Leaves
}.

Definition content_new : res Content :=
  t ← Merkle.new crypto_hash; Ok (mkContent EntryList.new t (mkLeaves 0 0 [])).
Definition content_len (c : Content) : Z := EntryList.llen (ents c).
Definition content_hash (c : Content) : res (list byte) := root_hash (mtree c).

Definition append (c : Content) (id : Eid) (span : Span.Span) : res Content :=
  l ← EntryList.append (ents c) id span; Ok (mkContent l (mtree c) (leaves c)).

(** The bytes a fresh [Reader] of the list returns. *)
Definition reader_of (st : St) (l : EntryList.EntryList) : Merkle.Reader :=
  λ pos n, '(d, _) ← read st l pos n; Ok d.

Definition merge_from (c other : Content) (st : St) : res Content :=
  '(l, _) ← EntryList.write_with (ents c) (ents other) st;
  t ← Merkle.merge crypto_hash (mtree c) (leaves other) (reader_of st l);
  Ok (mkContent l t (leaves c)).

Definition truncate (c : Content) (at_ : Z) (st : St) : res Content :=
  _ ← rassert (at_ <=? content_len c);
  pos ← locate (ents c) at_;
  ent ← vindex (EntryList.ents (ents c)) pos;
  seg ← get_seg st (Entry.seg_id ent);
  '(l, _) ← split_off (ents c) at_ seg;
  t ← Merkle.truncate crypto_hash (mtree c) at_ (reader_of st l);
  Ok (mkContent l t (leaves c)).

(** [c] is a well-formed content of these bytes. *)
Definition content_ok (st : St) (c : Content) (data : list byte) : Prop :=
  EntryList.ok st (ents c) ∧ EntryList.loffset (ents c) = 0 ∧
  EntryList.bytes st (ents c) = data ∧ mtree c = mtree_of crypto_hash data.

(** [c] is a staged write of [D] at [o]. *)
Definition staged_ok (st : St) (c : Content) (o : Z) (D : list byte) : Prop :=
  EntryList.ok st (ents c) ∧ EntryList.loffset (ents c) = o ∧
  EntryList.bytes st (ents c) = D ∧ leaves c = wleaves crypto_hash o D.
End content.

(** ** The reader returns the bytes *)

Section read_items_ok.
Context {I : Type} `{!Extent I} (W : I → Prop) (B : I → list byte).
Context (W_len : ∀ i, W i → 0 < len i) (B_len : ∀ i, W i → zlen (B i) = len i).
Context (f : I → RState → res (bool * RState)) (start n : Z).

(** What one step of a walk leaves of [bs]: the buffer filled as far as possible. *)
Definition reads_to (bs : list byte) (s : RState) (full : bool) (s' : RState) : Prop :=
  let d := ztake (n - zlen s.1) bs in
  s' = (s.1 ++ d, s.2 + zlen d) ∧
  if full then n ≤ zlen s.1 + zlen bs else zlen s.1 + zlen bs ≤ n.

(** The walk is at its start, or at the front of an item after it. *)
Definition resumes (o : Z) (s : RState) : Prop :=
  s.2 = start ∨ (start < s.2 ∧ s.2 = o).

Context (f_ok : ∀ i s, W i → 0 ≤ offset i → offset i + len i < BOUND →
  offset i ≤ s.2 < offset i + len i → zlen s.1 ≤ n → resumes (offset i) s →
  ∃ full s', f i s = Ok (full, s') ∧ reads_to (zdrop (s.2 - offset i) (B i)) s full s').

Lemma reads_to_app bs1 bs2 s s1 full s2 :
  zlen s.1 ≤ n → reads_to bs1 s false s1 → reads_to bs2 s1 full s2 →
  reads_to (bs1 ++ bs2) s full s2.
Proof.
  intros Hs [-> Hf1] [-> Hf2]. cbn [fst snd] in *.
  pose proof (zlen_nonneg bs1). pose proof (zlen_nonneg bs2).
  rewrite (ztake_ge _ bs1) in * by lia. rewrite zlen_app in *.
  replace (n - (zlen s.1 + zlen bs1)) with (n - zlen s.1 - zlen bs1) by lia.
  split.
  - rewrite ztake_app_ge, zlen_app by lia. rewrite app_assoc. f_equal. lia.
  - rewrite zlen_app. destruct full; lia.
Qed.
Lemma reads_to_full bs1 bs2 s s' :
  zlen s.1 ≤ n → reads_to bs1 s true s' → reads_to (bs1 ++ bs2) s true s'.
Proof.
  intros Hs [-> Hf]. pose proof (zlen_nonneg bs2). split.
  - by rewrite ztake_app_le by lia.
  - rewrite zlen_app. lia.
Qed.
Lemma reads_to_len bs s full s' : zlen s.1 ≤ n → reads_to bs s full s' → zlen s'.1 ≤ n.
Proof.
  intros Hs [-> Hf]. simpl. rewrite zlen_app, zlen_ztake by lia. lia.
Qed.

(** Contiguous items from the walk's position on. *)
Lemma read_items_at o l s :
  chain W o l → 0 ≤ o → o + total l < BOUND → s.2 = o → start < o → zlen s.1 ≤ n →
  ∃ full s', read_items f l s = Ok (full, s') ∧ reads_to (list_bytes B l) s full s'.
Proof.
  revert o s. induction l as [|i l IH]; intros o s Hc Ho Hb Hs Hst Hn.
  { exists false, s. split; [done|]. unfold list_bytes. simpl. split.
    - rewrite ztake_nil, app_nil_r. destruct s. simpl. by rewrite Z.add_0_r.
    - unfold zlen at 2. simpl. lia. }
  destruct Hc as (Hio & HW & Hc). pose proof (W_len _ HW).
  rewrite total_cons in Hb. pose proof (chain_nonneg _ W_len _ _ Hc).
  cbn [read_items]. destruct (f_ok i s) as (full & s1 & -> & Hr); [done|lia|lia|lia|done| |].
  { right. lia. }
  rewrite bind_ok. replace (s.2 - offset i) with 0 in Hr by lia. rewrite zdrop_0 in Hr by lia.
  rewrite list_bytes_cons. destruct full.
  - exists true, s1. split; [done|]. by apply reads_to_full.
  - pose proof (reads_to_len _ _ _ _ Hn Hr) as Hn1.
    destruct (IH (o + len i) s1) as (full & s2 & -> & Hr2); [done|lia|lia| |lia|done|].
    { destruct Hr as [-> Hf]. simpl. rewrite ztake_ge by lia. rewrite B_len by done. lia. }
    exists full, s2. split; [done|]. by eapply reads_to_app.
Qed.

Lemma ends_before_ok p (i : I) :
  offset i + len i < U64 → ends_before p i = Ok (offset i + len i <=? p).
Proof. intros. unfold ends_before. by rewrite end_offset_ok, bind_ok. Qed.

(** The whole walk, with the items before the start skipped. *)
Lemma skip_ok o l p :
  chain W o l → 0 ≤ o ≤ p → p < o + total l → o + total l < BOUND →
  ∃ l1 i l2, l = l1 ++ i :: l2 ∧ skip_whileM (ends_before p) l = Ok (i :: l2) ∧
    chain W (offset i) (i :: l2) ∧ offset i = o + total l1 ∧ offset i ≤ p < offset i + len i.
Proof.
  revert o. induction l as [|i l IH]; intros o Hc Ho Hp Hb; [rewrite total_nil in Hp; lia|].
  destruct Hc as (Hio & HW & Hc). pose proof (W_len _ HW). pose proof BOUND_lt.
  rewrite total_cons in *. pose proof (chain_nonneg _ W_len _ _ Hc).
  cbn [skip_whileM]. rewrite ends_before_ok, bind_ok by lia.
  destruct (offset i + len i <=? p) eqn:He; zify_b.
  - destruct (IH (o + len i)) as (l1 & i' & l2 & -> & Hsk & Hc' & Hoff & Hin); [done|lia|lia|lia|].
    exists (i :: l1), i', l2. rewrite total_cons. split; [done|]. split; [done|].
    split; [done|]. lia.
  - exists [], i, l. rewrite total_nil. split; [done|]. split; [done|].
    split; [split; [done|]; split; [done|]; by rewrite Hio|]. lia.
Qed.

Lemma no_skip o l p : chain W o l → 0 ≤ o → o + total l < BOUND → p < o →
  skip_whileM (ends_before p) l = Ok l.
Proof.
  destruct l as [|i l]; [done|]. intros (Hio & HW & Hc) Ho Hb Hp. pose proof (W_len _ HW).
  rewrite total_cons in Hb. pose proof (chain_nonneg _ W_len _ _ Hc). pose proof BOUND_lt.
  cbn [skip_whileM]. rewrite ends_before_ok, bind_ok by lia.
  by rewrite (proj2 (Z.leb_gt _ _)) by lia.
Qed.

Lemma read_list_ok o l s :
  chain W o l → 0 ≤ o → o + total l < BOUND → o ≤ s.2 < o + total l → zlen s.1 ≤ n →
  resumes o s →
  ∃ l' full s', skip_whileM (ends_before start) l = Ok l' ∧
    read_items f l' s = Ok (full, s') ∧ reads_to (zdrop (s.2 - o) (list_bytes B l)) s full s'.
Proof.
  intros Hc Ho Hb Hp Hn [Hst|[Hst Hso]].
  - destruct (skip_ok o l start Hc) as (l1 & i & l2 & -> & -> & Hc2 & Hoff & Hin);
      [lia|lia|done|].
    apply chain_app in Hc as [Hc1 _]. destruct Hc2 as (_ & HW & Hc2).
    pose proof (W_len _ HW). pose proof (chain_nonneg _ W_len _ _ Hc1).
    pose proof (chain_nonneg _ W_len _ _ Hc2). rewrite total_app, total_cons in *.
    exists (i :: l2). cbn [read_items].
    destruct (f_ok i s) as (full & s1 & -> & Hr); [done|lia|lia|lia|done|by left|].
    rewrite bind_ok, list_bytes_app, list_bytes_cons.
    pose proof (list_bytes_len W B B_len _ _ Hc1). pose proof (B_len _ HW) as HBi.
    rewrite zdrop_app_ge, zdrop_app_le by lia.
    replace (s.2 - o - zlen (list_bytes B l1)) with (s.2 - offset i) by lia.
    destruct full.
    + exists true, s1. split; [done|]. split; [done|]. by apply reads_to_full.
    + pose proof (reads_to_len _ _ _ _ Hn Hr) as Hn1.
      destruct (read_items_at (offset i + len i) l2 s1) as (full & s2 & -> & Hr2);
        [done|lia|lia| |lia|done|].
      { destruct Hr as [-> Hf]. simpl. rewrite ztake_ge by lia.
        rewrite zlen_zdrop by lia. lia. }
      exists full, s2. split; [done|]. split; [done|]. by eapply reads_to_app.
  - rewrite (no_skip o) by (done || lia). exists l.
    destruct (read_items_at o l s) as (full & s' & -> & Hr); [done|lia|lia|lia|lia|done|].
    exists full, s'. split; [done|]. split; [done|].
    by rewrite Hso, Z.sub_diag, zdrop_0 by lia.
Qed.
End read_items_ok.

Section read_ok.
Context {St : Type} `{!SegStore St}.
Implicit Types (st : St).

Lemma zlen_zero {A} (l : list A) : zlen l = 0 → l = [].
Proof. destruct l; [done|]. rewrite zlen_cons. pose proof (zlen_nonneg l). lia. Qed.

(** One read empties the span or fills the buffer. *)
Lemma read_span_loop_ok data n so left s :
  0 ≤ so → 0 ≤ left → so + left ≤ zlen data → zlen data < BOUND →
  zlen s.1 ≤ n → 0 ≤ s.2 → s.2 + left < BOUND →
  ∃ full s', read_span_loop 3 data n so left s = Ok (full, s') ∧
    reads_to n (ztake left (zdrop so data)) s full s'.
Proof.
  intros Hso Hl Hd Hdb Hn Hp Hpb. pose proof BOUND_lt.
  assert (Hbs : zlen (ztake left (zdrop so data)) = left).
  { rewrite zlen_ztake, zlen_zdrop by lia. lia. }
  unfold reads_to. rewrite Hbs. cbn [read_span_loop].
  destruct (left <=? 0) eqn:Hz; zify_b.
  { exists false, s. split; [done|]. replace left with 0 by lia.
    rewrite (ztake_0 0), ztake_nil, app_nil_r, zlen_nil, Z.add_0_r by lia.
    destruct s. split; [done|simpl in *; lia]. }
  destruct (n - zlen s.1 =? 0) eqn:Hf; zify_b.
  { exists true, s. split; [done|].
    rewrite Hf, (ztake_0 0), app_nil_r, zlen_nil, Z.add_0_r by lia.
    destruct s. split; [done|simpl in *; lia]. }
  set (rl := Z.min left (n - zlen s.1)).
  rewrite SegData.segdata_read_ok by lia. rewrite bind_ok.
  assert (Hdl : zlen (ztake rl (zdrop so data)) = rl).
  { rewrite zlen_ztake, zlen_zdrop by lia. lia. }
  rewrite Hdl, !u_add_ok, !u_sub_ok, !bind_ok by lia. cbn [fst snd].
  rewrite zlen_app, Hdl. rewrite ztake_ztake.
  replace (Z.min (n - zlen s.1) left) with rl by (unfold rl; lia).
  destruct (left - rl <=? 0) eqn:Hz2; zify_b.
  { eexists false, _. split; [done|]. rewrite Hdl. split; [done|lia]. }
  rewrite (proj2 (Z.eqb_eq (n - (zlen s.1 + rl)) 0)) by lia.
  eexists true, _. split; [done|]. rewrite Hdl. split; [done|lia].
Qed.

Lemma read_span_ok seg data start n sp s :
  Span.span_ok seg data sp → offset sp ≤ s.2 < offset sp + len sp → zlen s.1 ≤ n →
  0 ≤ offset sp → resumes start (offset sp) s →
  ∃ full s', read_span seg data n sp s = Ok (full, s') ∧
    reads_to n (zdrop (s.2 - offset sp) (Span.span_bytes seg data sp)) s full s'.
Proof.
  intros (c & cs & Hcs & Hb & He & Hp & Hct & Hso & Hl & Hle & Hoff & Hbd & Hd & Hdb) Hs Hn Ho _.
  simpl in Hs, Ho. pose proof BOUND_lt. unfold read_span.
  rewrite u_sub_ok, bind_ok by lia. unfold Span.offset_in_seg.
  assert (Hi0 : Segment.index seg (Span.begin sp) = Ok c).
  { apply vindex_ok. apply (Span.zslice_index _ _ _ []) in Hcs; [|done].
    by rewrite zlen_nil, Z.add_0_r in Hcs. }
  pose proof (Span.contig_total_pos _ _ _ Hct).
  rewrite Hi0, !bind_ok, !u_add_ok, !bind_ok, !u_add_ok, !bind_ok, !u_sub_ok, !bind_ok by lia.
  destruct (read_span_loop_ok data n (Chunk.pos c + Span.seg_offset sp + (s.2 - Span.soffset sp))
    (Span.slen sp - (s.2 - Span.soffset sp)) s) as (full & s' & -> & Hr); try lia.
  exists full, s'. split; [done|].
  unfold Span.span_bytes. rewrite (Span.start_pos_eq _ _ _ _ Hb Hcs).
  cbn [offset Span.Span_extent]. rewrite zdrop_ztake, zdrop_zdrop by lia.
  by replace (s.2 - Span.soffset sp + (Chunk.pos c + Span.seg_offset sp))
    with (Chunk.pos c + Span.seg_offset sp + (s.2 - Span.soffset sp)) by lia.
Qed.

Lemma read_entry_ok st start n e s :
  EntryList.entry_ok st e → 0 ≤ offset e → offset e + len e < BOUND →
  offset e ≤ s.2 < offset e + len e → zlen s.1 ≤ n → resumes start (offset e) s →
  ∃ full s', read_entry st start n e s = Ok (full, s') ∧
    reads_to n (zdrop (s.2 - offset e) (EntryList.entry_bytes st e)) s full s'.
Proof.
  intros (seg & data & Hs & Hd & (Hc & Hl & _) & _) Ho Hb Hp Hn Hres.
  unfold read_entry. rewrite Hs, bind_ok, Hd, bind_ok.
  rewrite (EntryList.entry_bytes_eq _ _ _ _ Hs Hd). change (Entry.spans e) with (items e).
  rewrite Hl in Hb, Hp.
  destruct (read_list_ok (Span.span_ok seg data) (Span.span_bytes seg data)
    (Span.span_ok_len seg data) (Span.span_ok_bytes_len seg data) (read_span seg data n) start n)
    with (o := offset e) (l := items e) (s := s) as (l' & full & s' & Hsk & Hr & Hto); try done.
  { intros i s0 HW Hi _ Hp0 Hn0 Hr0. by apply (read_span_ok seg data start). }
  rewrite Hsk, bind_ok. by exists full, s'.
Qed.

(** A read fills the buffer from the bytes at the position. *)
Lemma read_ok st l pos n :
  EntryList.ok st l → EntryList.loffset l = 0 → 0 ≤ pos → 0 ≤ n →
  read st l pos n = Ok (ztake n (zdrop pos (EntryList.bytes st l)),
                        pos + zlen (ztake n (zdrop pos (EntryList.bytes st l)))).
Proof.
  intros Hok Hlo Hpos Hn. pose proof (EntryList.bytes_len _ _ Hok) as Hbl.
  destruct Hok as (Hc & Hl & _ & Hb). simpl in Hl, Hb. rewrite Hlo in Hb.
  unfold read. destruct (n =? 0) eqn:Hn0; zify_b.
  { subst n. rewrite ztake_0 by lia. by rewrite zlen_nil, Z.add_0_r. }
  change (offset l) with (EntryList.loffset l) in Hc. rewrite Hlo in Hc.
  change (items l) with (EntryList.ents l) in *.
  destruct (decide (pos < EntryList.llen l)) as [Hlt|Hge].
  - destruct (read_list_ok (EntryList.entry_ok st) (EntryList.entry_bytes st)
      (EntryList.entry_ok_len st) (EntryList.entry_bytes_len st) (read_entry st pos n) pos n)
      with (o := 0) (l := EntryList.ents l) (s := ([] : list byte, pos))
      as (l' & full & s' & Hsk & Hr & Hto & _); try done; try (simpl; lia).
    { intros. by apply read_entry_ok. }
    { by left. }
    rewrite Hsk, bind_ok, Hr, bind_ok, Hto. cbn [fst snd].
    rewrite zlen_nil, !Z.sub_0_r. done.
  - assert (Hsk : skip_whileM (ends_before pos) (EntryList.ents l) = Ok []).
    { assert (Hall : ∀ o es, chain (EntryList.entry_ok st) o es → 0 ≤ o →
        o + total es ≤ pos → o + total es < BOUND → skip_whileM (ends_before pos) es = Ok []).
      { intros o es. revert o. induction es as [|e es IH]; intros o Hce Ho Hle Hbe; [done|].
        destruct Hce as (Hoe & HW & Hce). pose proof (EntryList.entry_ok_len _ _ HW).
        rewrite total_cons in *. pose proof BOUND_lt.
        pose proof (chain_nonneg _ (EntryList.entry_ok_len st) _ _ Hce).
        cbn [skip_whileM]. rewrite ends_before_ok, bind_ok by lia.
        rewrite (proj2 (Z.leb_le _ _)) by lia. apply (IH (o + len e)); done || lia. }
      apply (Hall 0); done || lia. }
    rewrite Hsk, bind_ok. cbn [read_items]. rewrite bind_ok.
    rewrite zdrop_ge by lia. by rewrite ztake_nil, zlen_nil, Z.add_0_r.
Qed.

Lemma reader_reads st l :
  EntryList.ok st l → EntryList.loffset l = 0 → reads (reader_of st l) (EntryList.bytes st l).
Proof.
  intros Hok Hlo p n Hp Hn. exists n. split; [lia|]. unfold reader_of.
  rewrite (read_ok _ _ _ _ Hok Hlo Hp Hn), bind_ok. split; [done|]. by left.
Qed.

Section content_ok.
Context (crypto_hash : list byte → list byte).

Lemma merge_from_ok st c other data o D :
  content_ok crypto_hash st c data → staged_ok crypto_hash st other o D →
  o ≤ zlen data → 0 < zlen D → zlen data < 2 ^ 61 → o + zlen D < 2 ^ 61 →
  ∃ c', merge_from crypto_hash c other st = Ok c' ∧
    content_ok crypto_hash st c' (overwrite data o D).
Proof.
  intros (Hok & Hlo & Hby & Hmt) (Hok' & Hlo' & Hby' & Hlv) Ho HD Hd HoD.
  pose proof Hok' as (_ & _ & Ho0 & _). simpl in Ho0.
  pose proof (EntryList.bytes_len _ _ Hok) as Hbl.
  destruct (EntryList.write_with_ok st (ents c) (ents other) Hok Hok')
    as (l' & hd & tl & Hww & Hokl & Hll & Hlen & Hbl').
  { rewrite Hlo, Hlo'. rewrite <- Hbl, Hby. lia. }
  unfold merge_from. rewrite Hww, bind_ok. rewrite Hlo, Hlo', Z.sub_0_r, Hby, Hby' in Hbl'.
  rewrite Hmt, Hlv, (merge_ok crypto_hash data o D); try lia.
  - rewrite bind_ok. eexists. split; [done|]. unfold content_ok. simpl.
    rewrite Hll, Hlo. done.
  - rewrite <- Hbl'. apply reader_reads; [done|by rewrite Hll].
Qed.

Lemma truncate_content_ok st c data at_ :
  content_ok crypto_hash st c data → 0 ≤ at_ < zlen data → zlen data < 2 ^ 61 →
  ∃ c', truncate crypto_hash c at_ st = Ok c' ∧ content_ok crypto_hash st c' (ztake at_ data).
Proof.
  intros (Hok & Hlo & Hby & Hmt) Hat Hd.
  pose proof (EntryList.bytes_len _ _ Hok) as Hbl. rewrite Hby in Hbl.
  destruct (EntryList.split_off_at st (ents c) at_ Hok)
    as (n & e & seg & l' & r & Hloc & He & Hs & Hcut & Hok' & Ho' & Hl' & Hb'); [lia|lia|].
  unfold truncate, content_len. rewrite rassert_ok, bind_ok by (apply Z.leb_le; lia).
  rewrite Hloc, bind_ok, He, bind_ok, Hs, bind_ok, Hcut, bind_ok.
  rewrite Hlo, Z.sub_0_r, Hby in Hb'.
  rewrite Hmt, (truncate_ok crypto_hash data at_); [|done|done|].
  - rewrite bind_ok. eexists. split; [done|]. unfold content_ok. simpl. by rewrite Ho', Hlo.
  - rewrite <- Hb'. apply reader_reads; [done|by rewrite Ho'].
Qed.

Lemma content_new_ok st : ∃ c, content_new crypto_hash = Ok c ∧ content_ok crypto_hash st c [].
Proof.
  unfold content_new. rewrite mtree_new_ok, bind_ok. eexists. split; [done|].
  split; [split; [done|]; split; [done|]; split; done|]. done.
Qed.
End content_ok.
End read_ok.
