(* ===== verification/Chunker.v ===== *)
(** * src/content/chunker.rs: content-defined chunking.

    The chunker slides a rolling hash over a byte stream, buffered in a fixed vector, and writes
    the stream to its destination chunk by chunk. The reference [split] cuts a whole stream. *)
From S2P Require Import Prelude.

Abbreviation byte := Z.

(** The [Write] trait of the standard library, as a destination of chunks. *)
Class Write (D : Type) := {
  write_to : D → list byte → res (Z * D);
  flush_to : D → res D
}.
#[export] Hint Mode Write ! : typeclass_instances.

Module Chunker.

Definition PRIME : Z := 153191.
Definition MASK : Z := 0xffffffffff.
Definition MIN_SIZE : Z := 16 * 1024.
Definition AVG_SIZE : Z := 32 * 1024.
Definition MAX_SIZE : Z := 64 * 1024.
Definition FP_POLY : Z := 0xbfe6b8a5bf378d83.
Definition CUT_MASK : Z := AVG_SIZE - MIN_SIZE - 1.
Definition WIN_SIZE : Z := 16.
Definition WIN_MASK : Z := WIN_SIZE - 1.
Definition WIN_SLIDE_OFFSET : Z := 64.
Definition WIN_SLIDE_POS : Z := MIN_SIZE - WIN_SLIDE_OFFSET.
Definition WTR_BUF_LEN : Z := 8 * MAX_SIZE.

(** ** Parameters *)

Record ChunkerParams := mkParams { poly_pow : Z; out_map : list Z; ir : list Z }.

Definition default_params : ChunkerParams := mkParams 1 (replicate 256 0) (replicate 256 0).

(** The loop over the window for byte [i]; the sum is [val]. *)
Fixpoint ir_loop (n : nat) (i term pow val : Z) : res Z :=
  match n with
  | O => Ok val
  | S n =>
      val ← (if negb (Z.land term FP_POLY =? 0)
             then t ← u_mul pow i; u_add val (Z.land t MASK) else Ok val);
      p ← u_mul pow PRIME;
      term ← u_mul term 2;
      ir_loop n i term (Z.land p MASK) val
  end.

Definition params_step (cp : ChunkerParams) (i : Z) : res ChunkerParams :=
  t ← u_mul i (poly_pow cp);
  om ← vset (out_map cp) i (Z.land t MASK);
  val ← ir_loop (Z.to_nat WIN_SIZE) i 1 1 1;
  irs ← vset (ir cp) i val;
  Ok (mkParams (poly_pow cp) om irs).

Definition params_new : res ChunkerParams :=
  pp ← foldM (λ p _, t ← u_mul p PRIME; Ok (Z.land t MASK)) (poly_pow default_params)
         (range 0 WIN_SIZE);
  foldM params_step (mkParams pp (out_map default_params) (ir default_params)) (range 0 256).

(** ** The chunker *)

Section chunker.
Context {D : Type} `{!Write D}.

Record Chunker := mkChunker {
  dst : D; params : ChunkerParams; pos : Z; chunk_len : Z; buf_clen : Z; win_idx : Z;
  roll_hash : Z; win : list byte; buf : list byte
}.

Definition new (ps : ChunkerParams) (d : D) : Chunker :=
  mkChunker d ps WIN_SLIDE_POS WIN_SLIDE_POS 0 0 0 (replicate (Z.to_nat WIN_SIZE) 0)
    (replicate (Z.to_nat WTR_BUF_LEN) 0).

(** Writing out the chunk that ends at [pos] and jumping to the next one. *)
Definition produce (c : Chunker) : res Chunker :=
  p ← u_sub (pos c) (chunk_len c);
  chunk ← vslice (buf c) p (pos c);
  '(written, d) ← write_to (dst c) chunk;
  _ ← rassert (written =? chunk_len c);
  room ← u_add (pos c) MAX_SIZE;
  '(b, clen, ps) ←
    (if WTR_BUF_LEN <=? room then
       left_len ← u_sub (buf_clen c) (pos c);
       src ← vslice (buf c) (pos c) (pos c + left_len);
       b ← vcopy (buf c) 0 src;
       Ok (b, left_len, 0)
     else Ok (buf c, buf_clen c, pos c));
  ps ← u_add ps WIN_SLIDE_POS;
  Ok (mkChunker d (params c) ps WIN_SLIDE_POS clen (win_idx c) (roll_hash c)
        (win c) b).

(** One round of the [while] loop. *)
Definition slide (c : Chunker) : res Chunker :=
  ch ← vindex (buf c) (pos c);
  out ← vindex (win c) (win_idx c);
  pushed_out ← vindex (out_map (params c)) out;
  t ← u_mul (roll_hash c) PRIME;
  h ← u_add (Z.land t MASK) ch;
  let h := Z.land ((h - pushed_out) mod U64) MASK in
  w ← vset (win c) (win_idx c) ch;
  i ← u_add (win_idx c) 1;
  len ← u_add (chunk_len c) 1;
  ps ← u_add (pos c) 1;
  let c := mkChunker (dst c) (params c) ps len (buf_clen c) (Z.land i WIN_MASK) h w (buf c) in
  if MIN_SIZE <=? chunk_len c then
    x ← vindex (ir (params c)) out;
    let chksum := Z.lxor (roll_hash c) x in
    if (Z.land chksum CUT_MASK =? 0) || (MAX_SIZE <=? chunk_len c) then produce c else Ok c
  else Ok c.

(** Every round consumes one byte of the buffer. *)
Fixpoint slide_loop (fuel : nat) (c : Chunker) : res Chunker :=
  if pos c <? buf_clen c then
    match fuel with
    | O => Panic
    | S fuel => c ← slide c; slide_loop fuel c
    end
  else Ok c.

(** [Write::write]: the number of bytes taken and the chunker. *)
Definition write (c : Chunker) (src : list byte) : res (Z * Chunker) :=
  if zlen src =? 0 then Ok (0, c)
  else
    free ← u_sub WTR_BUF_LEN (buf_clen c);
    let in_len := Z.min free (zlen src) in
    _ ← rassert (0 <? in_len);
    b ← vcopy (buf c) (buf_clen c) (ztake in_len src);
    clen ← u_add (buf_clen c) in_len;
    let c := mkChunker (dst c) (params c) (pos c) (chunk_len c) clen (win_idx c) (roll_hash c)
               (win c) b in
    c ← slide_loop (Z.to_nat (clen - pos c)) c;
    Ok (in_len, c).

Definition flush (c : Chunker) : res Chunker :=
  p ← u_sub (pos c) (chunk_len c);
  d ← (if p <? buf_clen c then
         len ← u_sub (buf_clen c) p;
         chunk ← vslice (buf c) p (p + len);
         '(_, d) ← write_to (dst c) chunk;
         Ok d
       else Ok (dst c));
  d ← flush_to d;
  Ok (mkChunker d (params c) WIN_SLIDE_POS WIN_SLIDE_POS 0 0 0
        (replicate (Z.to_nat WIN_SIZE) 0) (buf c)).

Definition into_inner (c : Chunker) : res D := c ← flush c; Ok (dst c).

(** [Write::write_all]: write until every byte is taken. *)
Fixpoint write_all_loop (fuel : nat) (c : Chunker) (src : list byte) : res Chunker :=
  if zlen src =? 0 then Ok c
  else match fuel with
       | O => Panic
       | S fuel => '(n, c) ← write c src; write_all_loop fuel c (zdrop n src)
       end.
Definition write_all (c : Chunker) (src : list byte) : res Chunker :=
  write_all_loop (length src) c src.
End chunker.
Arguments Chunker : clear implicits.

Ltac size_lia :=
  unfold WTR_BUF_LEN, WIN_SLIDE_POS, MIN_SIZE, MAX_SIZE, WIN_SLIDE_OFFSET, WIN_SIZE, AVG_SIZE in *; lia.

(** ** The reference: cutting a whole stream *)

Section reference.
Context (ps : ChunkerParams).

Record Roll := mkRoll { r_win : list byte; r_idx : Z; r_hash : Z }.
Definition roll0 : Roll := mkRoll (replicate (Z.to_nat WIN_SIZE) 0) 0 0.

Definition roll (r : Roll) (ch : byte) : Roll :=
  let out := default 0 (zget (r_win r) (r_idx r)) in
  let h := Z.land (r_hash r * PRIME) MASK + ch in
  mkRoll (zset (r_win r) (r_idx r) ch) (Z.land (r_idx r + 1) WIN_MASK)
    (Z.land ((h - default 0 (zget (out_map ps) out)) mod U64) MASK).

(** The chunk may end after this byte: [n] bytes long, hash as of [r'], [out] pushed out. *)
Definition cut_here (r r' : Roll) (n : Z) : bool :=
  let out := default 0 (zget (r_win r) (r_idx r)) in
  (MIN_SIZE <=? n) &&
  ((Z.land (Z.lxor (r_hash r') (default 0 (zget (ir ps) out))) CUT_MASK =? 0) || (MAX_SIZE <=? n)).

(** Slide over [bs] with [n] bytes of the chunk behind: the length of the chunk. *)
Fixpoint scan (r : Roll) (n : Z) (bs : list byte) : option (Z * Roll) :=
  match bs with
  | [] => None
  | ch :: bs =>
      let r' := roll r ch in
      if cut_here r r' (n + 1) then Some (n + 1, r') else scan r' (n + 1) bs
  end.

Fixpoint split (fuel : nat) (r : Roll) (data : list byte) : list (list byte) :=
  match fuel with
  | O => []
  | S fuel =>
      match data with
      | [] => []
      | _ => match scan r WIN_SLIDE_POS (zdrop WIN_SLIDE_POS data) with
             | Some (n, r') => ztake n data :: split fuel r' (zdrop n data)
             | None => [data]
             end
      end
  end.

(** The chunks of a stream. *)
Definition chunks_of (data : list byte) : list (list byte) := split (length data) roll0 data.

(** *** The reference cuts the stream into chunks of the promised sizes *)

Lemma mask_bound x : 0 ≤ Z.land x MASK < 2 ^ 40.
Proof.
  change MASK with (Z.ones 40). rewrite Z.land_ones by lia. apply Z.mod_pos_bound. lia.
Qed.
Lemma win_mask_bound x : 0 ≤ Z.land x WIN_MASK < WIN_SIZE.
Proof.
  change WIN_MASK with (Z.ones 4). rewrite Z.land_ones by lia. by apply Z.mod_pos_bound.
Qed.

Lemma scan_bound r n bs m r' :
  scan r n bs = Some (m, r') → 0 ≤ n < MAX_SIZE → n < m ≤ n + zlen bs ∧ MIN_SIZE ≤ m ≤ MAX_SIZE.
Proof.
  revert r n. induction bs as [|ch bs IH]; intros r n; [done|]. cbn [scan]. rewrite zlen_cons.
  pose proof (zlen_nonneg bs). destruct (cut_here r (roll r ch) (n + 1)) eqn:Hc.
  - intros [= <- <-] Hn. unfold cut_here in Hc. zify_b. lia.
  - intros Hs Hn. unfold cut_here in Hc. destruct (decide (n + 1 < MAX_SIZE)).
    + apply IH in Hs; lia.
    + exfalso. assert (n + 1 = MAX_SIZE) as Hm by lia. rewrite Hm in Hc.
      change (MIN_SIZE <=? MAX_SIZE) with true in Hc. rewrite Z.leb_refl, orb_true_r in Hc. done.
Qed.

(** The chunks that remain, [n] bytes into the first one. *)
Definition cont (r : Roll) (n : Z) (data : list byte) : list (list byte) :=
  match data with
  | [] => []
  | _ => match scan r n (zdrop n data) with
         | Some (m, r') => ztake m data :: split (length data) r' (zdrop m data)
         | None => [data]
         end
  end.

Lemma length_zdrop_lt (data : list byte) m :
  data ≠ [] → 0 < m → (length (zdrop m data) < length data)%nat.
Proof.
  intros Hd Hm. unfold zdrop. rewrite length_drop. destruct data; [done|]. simpl. lia.
Qed.

Lemma split_fuel f1 f2 r data :
  (length data ≤ f1)%nat → (length data ≤ f2)%nat → split f1 r data = split f2 r data.
Proof.
  revert f2 r data. induction f1 as [|f1 IH]; intros f2 r data H1 H2.
  { destruct data; [by destruct f2|simpl in H1; lia]. }
  destruct f2 as [|f2]; [destruct data; [done|simpl in H2; lia]|].
  destruct data as [|x data]; [done|]. cbn [split].
  destruct (scan r WIN_SLIDE_POS _) as [[m r']|] eqn:Hs; [|done].
  apply scan_bound in Hs as [Hm _]; [|done]. assert (0 < m) by size_lia.
  pose proof (length_zdrop_lt (x :: data) m ltac:(done) ltac:(done)). f_equal. apply IH; lia.
Qed.
Lemma split_cont fuel r data :
  (length data ≤ fuel)%nat → split fuel r data = cont r WIN_SLIDE_POS data.
Proof.
  intros Hf. destruct data as [|x data]; [by destruct fuel|].
  rewrite (split_fuel _ (S (length (x :: data)))) by lia. done.
Qed.

(** One byte further. *)
Lemma cont_step r n data ch :
  0 ≤ n < MAX_SIZE → zget data n = Some ch →
  cont r n data =
    if cut_here r (roll r ch) (n + 1)
    then ztake (n + 1) data :: cont (roll r ch) WIN_SLIDE_POS (zdrop (n + 1) data)
    else cont (roll r ch) (n + 1) data.
Proof.
  intros Hn Hch. unfold cont at 1 3.
  destruct data as [|x data]; [by rewrite zget_nil in Hch|].
  destruct (zget_split _ _ _ Hch) as [Hd Hz].
  assert (Hzd : zdrop n (x :: data) = ch :: zdrop (n + 1) (x :: data)).
  { rewrite Hd at 1. rewrite zdrop_app_ge by lia. by rewrite Hz, Z.sub_diag. }
  rewrite Hzd. cbn [scan]. destruct (cut_here r (roll r ch) (n + 1)); [|done].
  rewrite split_cont; [done|].
  pose proof (length_zdrop_lt (x :: data) (n + 1) ltac:(done) ltac:(lia)). lia.
Qed.
Lemma cont_end r n data :
  zlen data ≤ n → cont r n data = if decide (data = []) then [] else [data].
Proof.
  intros Hn. unfold cont. destruct data as [|x data]; [done|].
  rewrite zdrop_ge by done. simpl. done.
Qed.

(** Chunks of the promised sizes: all but the last at least the minimum. *)
Fixpoint sized (cs : list (list byte)) : Prop :=
  match cs with
  | [] => True
  | c :: cs => 0 < zlen c ≤ MAX_SIZE ∧ (cs ≠ [] → MIN_SIZE ≤ zlen c) ∧ sized cs
  end.

Lemma scan_None r n bs : scan r n bs = None → 0 ≤ n < MAX_SIZE → n + zlen bs < MAX_SIZE.
Proof.
  revert r n. induction bs as [|ch bs IH]; intros r n; [unfold zlen; simpl; lia|].
  cbn [scan]. rewrite zlen_cons. destruct (cut_here r (roll r ch) (n + 1)) eqn:Hc; [done|].
  intros Hs Hn. destruct (decide (n + 1 < MAX_SIZE)); [specialize (IH _ _ Hs ltac:(lia)); lia|].
  exfalso. unfold cut_here in Hc. assert (n + 1 = MAX_SIZE) as Hm by lia. rewrite Hm in Hc.
  change (MIN_SIZE <=? MAX_SIZE) with true in Hc. rewrite Z.leb_refl, orb_true_r in Hc. done.
Qed.

Lemma split_ok fuel r data :
  (length data ≤ fuel)%nat → concat (split fuel r data) = data ∧ sized (split fuel r data).
Proof.
  revert r data. induction fuel as [|fuel IH]; intros r data Hf.
  { destruct data; [done|simpl in Hf; lia]. }
  destruct data as [|x data]; [done|]. cbn [split].
  destruct (scan r WIN_SLIDE_POS _) as [[m r']|] eqn:Hs.
  - apply scan_bound in Hs as [Hm Hb]; [|done]. assert (0 < m) by size_lia.
    pose proof (length_zdrop_lt (x :: data) m ltac:(done) ltac:(done)).
    destruct (IH r' (zdrop m (x :: data))) as [Hc Hz]; [lia|]. cbn [concat sized].
    rewrite Hc, ztake_zdrop. split; [done|].
    assert (m ≤ zlen (x :: data)).
    { rewrite zlen_zdrop in Hm by done. pose proof (zlen_nonneg (x :: data)). size_lia. }
    rewrite zlen_ztake by lia. split_and!; [lia|lia|lia|done].
  - split; [cbn [concat]; by rewrite app_nil_r|]. cbn [sized].
    apply scan_None in Hs; [|done]. rewrite zlen_zdrop in Hs by done.
    split_and!; [rewrite zlen_cons; pose proof (zlen_nonneg data); lia|size_lia|done|done].
Qed.
End reference.

(** ** The chunker writes the chunks of the reference *)

Definition is_byte (b : Z) : Prop := 0 ≤ b < 256.

Definition params_ok (ps : ChunkerParams) : Prop :=
  zlen (out_map ps) = 256 ∧ zlen (ir ps) = 256.

Lemma params_new_ok : ∃ ps, params_new = Ok ps ∧ params_ok ps.
Proof.
  destruct params_new as [ps|e|] eqn:Hp; [|by vm_compute in Hp..].
  exists ps. split; [done|]. revert Hp. vm_compute. by intros [= <-].
Qed.

Section simulation.
Context {D : Type} `{!Write D} (ps : ChunkerParams) (ps_ok : params_ok ps).

(** [R d cs]: the destination has received the chunks [cs], a part of the chunks [F] of the
    whole stream. *)
Context (R : D → list (list byte) → Prop) (F : list (list byte)).
Context (write_ok : ∀ d cs c, R d cs → cs ++ [c] `prefix_of` F → 0 < zlen c ≤ MAX_SIZE →
  ∃ d', write_to d c = Ok (zlen c, d') ∧ R d' (cs ++ [c])).
Context (flush_ok : ∀ d cs, R d cs → ∃ d', flush_to d = Ok d' ∧ R d' cs).
Implicit Types (c : Chunker D) (cs : list (list byte)) (pend : list byte).

Definition roll_of c : Roll := mkRoll (win c) (win_idx c) (roll_hash c).
Definition roll_ok c : Prop :=
  zlen (win c) = WIN_SIZE ∧ Forall is_byte (win c) ∧ 0 ≤ win_idx c < WIN_SIZE ∧
  0 ≤ roll_hash c < 2 ^ 40.

(** The buffer holds the bytes [pend] of the chunk in the making and those after it. *)
Definition held c pend : Prop :=
  ∃ A B, buf c = A ++ pend ++ B ∧ zlen A = pos c - chunk_len c ∧ zlen (buf c) = WTR_BUF_LEN ∧
    buf_clen c = zlen A + zlen pend ∧ zlen A + MAX_SIZE < WTR_BUF_LEN.

Definition inv c cs pend : Prop :=
  params c = ps ∧ R (dst c) cs ∧ held c pend ∧ WIN_SLIDE_POS ≤ chunk_len c < MAX_SIZE ∧
  roll_ok c ∧ Forall is_byte pend.

Lemma win_byte {A} (P : A → Prop) (l : list A) i x : zget l i = Some x → Forall P l → P x.
Proof. intros [_ Hx]%zget_Some HF. by eapply Forall_lookup_1. Qed.

Lemma produce_ok c cs pend :
  params c = ps → R (dst c) cs → held c pend → 0 < chunk_len c ≤ MAX_SIZE →
  chunk_len c ≤ zlen pend → roll_ok c → Forall is_byte pend →
  cs ++ [ztake (chunk_len c) pend] `prefix_of` F →
  ∃ c', produce c = Ok c' ∧ inv c' (cs ++ [ztake (chunk_len c) pend]) (zdrop (chunk_len c) pend) ∧
    roll_of c' = roll_of c ∧ chunk_len c' = WIN_SLIDE_POS ∧
    buf_clen c' - pos c' = buf_clen c - pos c - WIN_SLIDE_POS.
Proof.
  intros Hps HR (A & B & Hbuf & HA & Hz & Hcl & Hroom) Hn Hp Hr Hby Hpre.
  pose proof (zlen_nonneg A). pose proof (zlen_nonneg B).
  assert (HzB : zlen A + zlen pend + zlen B = WTR_BUF_LEN).
  { rewrite <- Hz, Hbuf, !zlen_app. lia. }
  set (k := chunk_len c) in *. unfold produce. fold k.
  assert (2 * WTR_BUF_LEN < U64) by done. assert (0 < MAX_SIZE) by done.
  rewrite (u_sub_ok (pos c) k), bind_ok by lia.
  assert (Hck : vslice (buf c) (pos c - k) (pos c) = Ok (ztake k pend)).
  { unfold vslice. rewrite (proj2 (Z.leb_le _ _)), (proj2 (Z.leb_le _ _)) by lia. cbn [andb].
    rewrite Hbuf, <- HA, zdrop_zlen. f_equal. rewrite HA.
    replace (pos c - (pos c - k)) with k by lia. by rewrite ztake_app_le. }
  rewrite Hck, bind_ok.
  assert (Hkz : zlen (ztake k pend) = k) by (rewrite zlen_ztake; lia).
  destruct (write_ok (dst c) cs (ztake k pend) HR Hpre) as (d & -> & HR'); [lia|].
  rewrite bind_ok, rassert_ok, bind_ok by (rewrite Hkz; apply Z.eqb_refl).
  rewrite (u_add_ok (pos c) MAX_SIZE), bind_ok by size_lia.
  destruct (WTR_BUF_LEN <=? pos c + MAX_SIZE) eqn:Hw; zify_b.
  - rewrite (u_sub_ok (buf_clen c)), bind_ok by lia.
    assert (Hrest : vslice (buf c) (pos c) (pos c + (buf_clen c - pos c)) = Ok (zdrop k pend)).
    { unfold vslice. rewrite (proj2 (Z.leb_le _ _)), (proj2 (Z.leb_le _ _)) by lia. cbn [andb].
      rewrite Hbuf, zdrop_app_ge, zdrop_app_le by lia.
      replace (pos c - zlen A) with k by lia.
      replace (pos c + (buf_clen c - pos c) - pos c) with (zlen (zdrop k pend)).
      - by rewrite ztake_zlen.
      - rewrite zlen_zdrop by lia. lia. }
    rewrite Hrest, bind_ok. pose proof (zlen_zdrop k pend ltac:(lia)) as Hzd.
    pose proof (vcopy_app [] (buf c) (zdrop k pend) ltac:(lia)) as Hv.
    change (zlen []) with 0 in Hv. cbn [app] in Hv. rewrite Hv, !bind_ok.
    rewrite u_add_ok, bind_ok by size_lia. eexists. split; [done|]. cbn.
    split; [|split_and!; [done|done|lia]].
    unfold inv, held, roll_ok in *. cbn. split; [done|]. split; [done|].
    split; [|split; [size_lia|split; [done|by apply Forall_drop]]].
    exists [], (zdrop (zlen (zdrop k pend)) (buf c)). split; [done|]. split; [done|].
    rewrite zlen_app. pose proof (zlen_zdrop (zlen (zdrop k pend)) (buf c) ltac:(lia)).
    change (zlen []) with 0. split_and!; [lia|lia|size_lia].
  - rewrite bind_ok, u_add_ok, bind_ok by size_lia. eexists. split; [done|]. cbn.
    split; [|split_and!; [done|done|lia]].
    unfold inv, held, roll_ok in *. cbn. split; [done|]. split; [done|].
    split; [|split; [size_lia|split; [done|by apply Forall_drop]]].
    pose proof (zlen_zdrop k pend ltac:(lia)) as Hzd.
    exists (A ++ ztake k pend), B. rewrite zlen_app, Hkz. split.
    { rewrite Hbuf, <- (ztake_zdrop k pend) at 1. by rewrite <- !app_assoc. }
    split_and!; [lia|lia|lia|size_lia].
Qed.

(** Whatever bytes follow, the chunks written and to come are the same. *)
Definition same_stream c cs pend c' cs' pend' : Prop :=
  ∀ f, cs ++ cont ps (roll_of c) (chunk_len c) (pend ++ f) =
       cs' ++ cont ps (roll_of c') (chunk_len c') (pend' ++ f).

(** The bytes [f] to come make the stream whole. *)
Definition leads c cs pend (f : list byte) : Prop :=
  cs ++ cont ps (roll_of c) (chunk_len c) (pend ++ f) = F.

Lemma slide_ok c cs pend f0 :
  inv c cs pend → pos c < buf_clen c → leads c cs pend f0 →
  ∃ c' cs' pend', slide c = Ok c' ∧ inv c' cs' pend' ∧
    (Z.to_nat (buf_clen c' - pos c') < Z.to_nat (buf_clen c - pos c))%nat ∧
    same_stream c cs pend c' cs' pend'.
Proof.
  intros (Hps & HR & Hh & Hn & (Hwz & Hwb & Hwi & Hrh) & Hby) Hlt Hld.
  pose proof Hh as (A & B & Hbuf & HA & Hz & Hcl & Hroom).
  set (k := chunk_len c) in *. pose proof (zlen_nonneg A). pose proof (zlen_nonneg pend).
  assert (0 < k) by size_lia.
  destruct (zget_is_Some pend k) as [ch Hch]; [lia|].
  pose proof (win_byte _ _ _ _ Hch Hby) as Hchb.
  assert (Hbch : zget (buf c) (pos c) = Some ch).
  { rewrite Hbuf, zget_app_r, zget_app_l by lia. by replace (pos c - zlen A) with k by lia. }
  destruct (zget_is_Some (win c) (win_idx c)) as [out Hout]; [lia|].
  pose proof (win_byte _ _ _ _ Hout Hwb) as Houtb. unfold is_byte in Hchb, Houtb.
  destruct ps_ok as [Hom Hir].
  destruct (zget_is_Some (out_map ps) out) as [po Hpo]; [lia|].
  destruct (zget_is_Some (ir ps) out) as [ix Hix]; [lia|].
  unfold slide. rewrite (vindex_ok _ _ _ Hbch), bind_ok, (vindex_ok _ _ _ Hout), bind_ok, Hps,
    (vindex_ok _ _ _ Hpo), bind_ok.
  assert (2 ^ 41 * PRIME < U64) by done. assert (2 ^ 40 * 4 < U64) by done.
  assert (2 * WTR_BUF_LEN < U64) by done. unfold PRIME in *.
  rewrite (u_mul_ok (roll_hash c)), bind_ok by lia.
  pose proof (mask_bound (roll_hash c * 153191)).
  rewrite (u_add_ok (Z.land _ MASK)), bind_ok by lia.
  set (h := Z.land (_ mod U64) MASK).
  rewrite (vset_ok (win c)), bind_ok by lia.
  rewrite (u_add_ok (win_idx c)), bind_ok by size_lia. fold k.
  rewrite (u_add_ok k), bind_ok by size_lia. rewrite (u_add_ok (pos c)), bind_ok by size_lia.
  set (c1 := mkChunker (dst c) ps (pos c + 1) (k + 1) _ _ h _ (buf c)).
  assert (Hroll : roll_of c1 = roll ps (roll_of c) ch).
  { unfold roll, roll_of, c1, h. cbn. by rewrite Hout; cbn; rewrite Hpo. }
  assert (Hr1 : roll_ok c1).
  { split; [unfold c1; cbn; by rewrite zlen_zset|]. split.
    - unfold c1, zset. cbn. by apply Forall_insert.
    - split; [apply win_mask_bound|apply mask_bound]. }
  assert (Hh1 : held c1 pend).
  { exists A, B. unfold c1. cbn. split_and!; try done; lia. }
  assert (Hcont : ∀ f, cont ps (roll_of c) k (pend ++ f) =
    if cut_here ps (roll_of c) (roll_of c1) (k + 1)
    then ztake (k + 1) pend :: cont ps (roll_of c1) WIN_SLIDE_POS (zdrop (k + 1) pend ++ f)
    else cont ps (roll_of c1) (k + 1) (pend ++ f)).
  { intros f. rewrite (cont_step ps (roll_of c) k (pend ++ f) ch); [|size_lia|].
    - rewrite Hroll. by rewrite ztake_app_le, zdrop_app_le by lia.
    - by rewrite zget_app_l by lia. }
  assert (Hcut : cut_here ps (roll_of c) (roll_of c1) (k + 1) =
    (MIN_SIZE <=? k + 1) && ((Z.land (Z.lxor h ix) CUT_MASK =? 0) || (MAX_SIZE <=? k + 1))).
  { unfold cut_here, roll_of, c1. cbn. by rewrite Hout; cbn; rewrite Hix. }
  assert (Hstay : cut_here ps (roll_of c) (roll_of c1) (k + 1) = false →
    ∃ c' cs' pend', Ok c1 = Ok c' ∧ inv c' cs' pend' ∧
      (Z.to_nat (buf_clen c' - pos c') < Z.to_nat (buf_clen c - pos c))%nat ∧
      same_stream c cs pend c' cs' pend').
  { intros Hf. exists c1, cs, pend. split; [done|]. split.
    - split; [done|]. split; [done|]. split; [done|]. split; [|done].
      change (chunk_len c1) with (k + 1). rewrite Hcut in Hf.
      destruct (decide (k + 1 < MAX_SIZE)); [size_lia|]. exfalso.
      rewrite (proj2 (Z.leb_le MAX_SIZE _)), (proj2 (Z.leb_le MIN_SIZE _)), orb_true_r in Hf by size_lia.
      done.
    - split; [unfold c1; cbn; lia|]. intros f. fold k. change (chunk_len c1) with (k + 1).
      by rewrite Hcont, Hf. }
  change (chunk_len c1) with (k + 1). change (params c1) with ps. change (roll_hash c1) with h.
  destruct (MIN_SIZE <=? k + 1) eqn:Hmin; [|by apply Hstay; rewrite Hcut].
  rewrite (vindex_ok _ _ _ Hix), bind_ok.
  destruct (_ || _) eqn:Hc; [|by apply Hstay; rewrite Hcut].
  destruct (produce_ok c1 cs pend) as (c2 & -> & Hinv & Hro & Hcl2 & Hdist);
    [done|done|done|change (chunk_len c1) with (k + 1); size_lia|
     change (chunk_len c1) with (k + 1); lia|done|done| |].
  { change (chunk_len c1) with (k + 1). unfold leads in Hld. fold k in Hld.
    rewrite Hcont, Hcut in Hld. cbn [andb] in Hld. rewrite <- Hld. eexists. by rewrite <- app_assoc. }
  change (chunk_len c1) with (k + 1) in *. change (pos c1) with (pos c + 1) in *.
  change (buf_clen c1) with (buf_clen c) in *.
  eexists c2, _, _. split; [done|]. split; [exact Hinv|]. split; [size_lia|].
  intros f. rewrite Hcl2, Hro. fold k. rewrite Hcont, Hcut. cbn [andb]. by rewrite <- app_assoc.
Qed.

Lemma slide_loop_ok fuel c cs pend f0 :
  inv c cs pend → leads c cs pend f0 → (Z.to_nat (buf_clen c - pos c) ≤ fuel)%nat →
  ∃ c' cs' pend', slide_loop fuel c = Ok c' ∧ inv c' cs' pend' ∧ buf_clen c' ≤ pos c' ∧
    same_stream c cs pend c' cs' pend'.
Proof.
  revert c cs pend. induction fuel as [|fuel IH]; intros c cs pend Hinv Hld Hf; cbn [slide_loop].
  - rewrite (proj2 (Z.ltb_ge _ _)) by lia. exists c, cs, pend. split_and!; [done|done|lia|done].
  - destruct (pos c <? buf_clen c) eqn:Hlt; zify_b.
    + destruct (slide_ok c cs pend f0 Hinv Hlt Hld) as (c1 & cs1 & p1 & -> & Hinv1 & Hm & Hs1).
      rewrite bind_ok. destruct (IH c1 cs1 p1 Hinv1) as (c2 & cs2 & p2 & -> & Hinv2 & Hle & Hs2);
        [unfold leads; by rewrite <- Hs1|lia|]. exists c2, cs2, p2. split_and!; [done|done|done|].
      intros f. by rewrite Hs1, Hs2.
    + exists c, cs, pend. split_and!; [done|done|lia|done].
Qed.

(** Between two writes: everything buffered has been slid over. *)
Definition resting c cs pend : Prop := inv c cs pend ∧ buf_clen c ≤ pos c.

Lemma write_resting c cs pend src f0 :
  resting c cs pend → Forall is_byte src → src ≠ [] → leads c cs pend (src ++ f0) →
  ∃ n c' cs' pend', write c src = Ok (n, c') ∧ 0 < n ≤ zlen src ∧ resting c' cs' pend' ∧
    ∀ f, cs ++ cont ps (roll_of c) (chunk_len c) (pend ++ ztake n src ++ f) =
         cs' ++ cont ps (roll_of c') (chunk_len c') (pend' ++ f).
Proof.
  intros [(Hps & HR & (A & B & Hbuf & HA & Hz & Hcl & Hroom) & Hn & Hr & Hby) Hrest] Hsrc Hne Hld.
  assert (0 < zlen src) by (destruct src; [done|rewrite zlen_cons; pose proof (zlen_nonneg src); lia]).
  pose proof (zlen_nonneg A). pose proof (zlen_nonneg pend). pose proof (zlen_nonneg B).
  unfold write. rewrite (proj2 (Z.eqb_neq _ _)) by lia.
  rewrite u_sub_ok, bind_ok by lia.
  set (n := Z.min (WTR_BUF_LEN - buf_clen c) (zlen src)).
  rewrite rassert_ok, bind_ok by (apply Z.ltb_lt; lia).
  assert (Htk : zlen (ztake n src) = n) by (rewrite zlen_ztake; lia).
  assert (HzB : zlen A + zlen pend + zlen B = WTR_BUF_LEN) by (rewrite <- Hz, Hbuf, !zlen_app; lia).
  pose proof (vcopy_app (A ++ pend) B (ztake n src) ltac:(lia)) as Hv.
  rewrite zlen_app, <- Hcl, <- app_assoc, <- Hbuf in Hv. rewrite Hv, bind_ok.
  assert (2 * WTR_BUF_LEN < U64) by done. rewrite u_add_ok, bind_ok by lia.
  set (b := (A ++ pend) ++ _). set (c1 := mkChunker _ _ _ _ _ _ _ _ b). cbv zeta.
  change (pos c1) with (pos c).
  assert (Hinv : inv c1 cs (pend ++ ztake n src)).
  { split; [done|]. split; [done|]. split; [|split; [done|split; [done|]]].
    - exists A, (zdrop (zlen (ztake n src)) B). unfold c1, b. cbn.
      split; [by rewrite <- !app_assoc|]. split; [done|]. rewrite !zlen_app, zlen_zdrop, Htk by lia.
      split_and!; lia.
    - apply Forall_app. split; [done|]. by apply Forall_take. }
  assert (Hld1 : leads c1 cs (pend ++ ztake n src) (zdrop n src ++ f0)).
  { unfold leads. rewrite <- app_assoc, (app_assoc (ztake n src)), ztake_zdrop. exact Hld. }
  destruct (slide_loop_ok (Z.to_nat (buf_clen c + n - pos c)) c1 cs (pend ++ ztake n src) _ Hinv Hld1)
    as (c2 & cs2 & p2 & -> & Hinv2 & Hle & Hs); [unfold c1; cbn; lia|].
  rewrite bind_ok. exists n, c2, cs2, p2. split; [done|]. split; [lia|]. split; [done|].
  intros f. rewrite <- Hs. by rewrite <- app_assoc.
Qed.

Lemma write_all_resting c cs pend src f0 :
  resting c cs pend → Forall is_byte src → leads c cs pend (src ++ f0) →
  ∃ c' cs' pend', write_all c src = Ok c' ∧ resting c' cs' pend' ∧
    ∀ f, cs ++ cont ps (roll_of c) (chunk_len c) (pend ++ src ++ f) =
         cs' ++ cont ps (roll_of c') (chunk_len c') (pend' ++ f).
Proof.
  unfold write_all. remember (length src) as fuel eqn:Hf. assert (Hle : (length src ≤ fuel)%nat) by lia.
  clear Hf. revert c cs pend src Hle. induction fuel as [|fuel IH]; intros c cs pend src Hf Hc Hsrc Hld.
  { destruct src; [|simpl in Hf; lia]. exists c, cs, pend. split; [done|]. split; [done|]. done. }
  cbn [write_all_loop]. destruct src as [|x src].
  { exists c, cs, pend. split; [done|]. split; [done|]. done. }
  rewrite (proj2 (Z.eqb_neq _ _)) by (rewrite zlen_cons; pose proof (zlen_nonneg src); lia).
  destruct (write_resting c cs pend (x :: src) f0 Hc Hsrc ltac:(done) Hld)
    as (n & c1 & cs1 & p1 & -> & Hn & Hc1 & Hs1). rewrite bind_ok.
  destruct (IH c1 cs1 p1 (zdrop n (x :: src))) as (c2 & cs2 & p2 & -> & Hc2 & Hs2);
    [|done|by apply Forall_drop| |].
  { pose proof (length_zdrop_lt (x :: src) n ltac:(done) ltac:(lia)). lia. }
  { unfold leads in *. rewrite <- Hs1, <- Hld, (app_assoc (ztake n _)). by rewrite ztake_zdrop. }
  exists c2, cs2, p2. split; [done|]. split; [done|]. intros f.
  rewrite <- Hs2, <- Hs1. by rewrite (app_assoc (ztake n _)), ztake_zdrop.
Qed.

Lemma into_inner_ok c cs pend :
  resting c cs pend → leads c cs pend [] →
  ∃ d, into_inner c = Ok d ∧ R d F.
Proof.
  intros [(Hps & HR & (A & B & Hbuf & HA & Hz & Hcl & Hroom) & Hn & Hr & Hby) Hrest] Hld.
  unfold leads in Hld. rewrite app_nil_r in Hld.
  pose proof (zlen_nonneg A). pose proof (zlen_nonneg pend). pose proof (zlen_nonneg B).
  assert (HzB : zlen A + zlen pend + zlen B = WTR_BUF_LEN) by (rewrite <- Hz, Hbuf, !zlen_app; lia).
  unfold into_inner, flush. rewrite u_sub_ok, !bind_ok by lia. rewrite cont_end in Hld by lia.
  destruct (decide (pend = [])) as [->|Hne].
  - change (zlen []) with 0 in Hcl. rewrite (proj2 (Z.ltb_ge _ _)), bind_ok by lia.
    destruct (flush_ok (dst c) cs HR) as (d & -> & HR'). rewrite !bind_ok. exists d.
    by rewrite <- Hld, app_nil_r.
  - assert (0 < zlen pend).
    { destruct pend as [|x l]; [done|]. rewrite zlen_cons. pose proof (zlen_nonneg l). lia. }
    rewrite (proj2 (Z.ltb_lt _ _)), u_sub_ok, bind_ok by lia.
    assert (Hck : vslice (buf c) (pos c - chunk_len c)
      (pos c - chunk_len c + (buf_clen c - (pos c - chunk_len c))) = Ok pend).
    { unfold vslice. rewrite (proj2 (Z.leb_le _ _)), (proj2 (Z.leb_le _ _)) by lia. cbn [andb].
      rewrite Hbuf, <- HA, zdrop_zlen. f_equal.
      replace (zlen A + (buf_clen c - zlen A) - zlen A) with (zlen pend) by lia.
      by rewrite ztake_zlen. }
    rewrite Hck, bind_ok.
    destruct (write_ok (dst c) cs pend HR) as (d & -> & HR'); [by rewrite Hld|lia|]. rewrite !bind_ok.
    destruct (flush_ok d _ HR') as (d' & -> & HR2). rewrite !bind_ok. exists d'. by rewrite <- Hld.
Qed.

Lemma new_resting d : R d [] → resting (new ps d) [] [].
Proof.
  intros HR. unfold new.
  assert (HF : Forall is_byte (replicate (Z.to_nat WIN_SIZE) 0)) by by apply Forall_replicate.
  pose proof (zlen_replicate WIN_SIZE (0 : byte) ltac:(done)) as HzW.
  pose proof (zlen_replicate WTR_BUF_LEN (0 : byte) ltac:(done)) as HzB.
  revert HzB HzW HF. generalize (replicate (Z.to_nat WTR_BUF_LEN) (0 : byte)) as B.
  generalize (replicate (Z.to_nat WIN_SIZE) (0 : byte)) as W. intros W B HzB HzW HF.
  split; [|done]. split; [done|]. split; [done|].
  split; [|split; [done|split; [done|done]]]. exists [], B. by split_and!.
Qed.

(** The whole life of a chunker, fed [srcs]. *)
Lemma chunker_ok d srcs :
  R d [] → Forall (Forall is_byte) srcs → F = chunks_of ps (concat srcs) →
  ∃ c d', foldM write_all (new ps d) srcs = Ok c ∧ into_inner c = Ok d' ∧ R d' F.
Proof.
  intros HR Hb HF. enough (∀ c cs pend, resting c cs pend → leads c cs pend (concat srcs) →
    ∃ c' d', foldM write_all c srcs = Ok c' ∧ into_inner c' = Ok d' ∧ R d' F) as Hall.
  { apply (Hall _ [] [] (new_resting d HR)). unfold leads. rewrite HF. unfold chunks_of.
    by rewrite split_cont. }
  clear HF HR. induction Hb as [|src srcs Hsrc _ IH]; intros c cs pend Hc Hld.
  - destruct (into_inner_ok c cs pend Hc Hld) as (d' & Hd & HR'). by exists c, d'.
  - destruct (write_all_resting c cs pend src (concat srcs) Hc Hsrc Hld) as (c1 & cs1 & p1 & Hw & Hc1 & Hs).
    destruct (IH c1 cs1 p1 Hc1) as (c2 & d2 & H1 & H2); [unfold leads; by rewrite <- Hs|].
    exists c2, d2. cbn [foldM]. rewrite Hw, bind_ok. by split.
Qed.
End simulation.
End Chunker.
