(* ===== verification/Stage.v ===== *)
(** * The writers of src/content/segment.rs and src/content/content.rs.

    Chunks are deduplicated against the chunk map and otherwise appended to a segment whose
    data goes to the volume through a volume writer; the result is a staged content. *)
From S2P Require Import Prelude Base Segment Entry ChunkMap Append Link Merkle MerkleProofs Content Chunker.
Import Segment.

(** ** What the writers ask of the volume and the transaction *)

(** The volume writer ([VW]) and [Segment::into_cow] with the segment cache. *)
Class SegCreate (S VW : Type) := {
  vw_new : S → Eid → res (VW * S);                     (* [VolWriter::new] *)
  vw_write_all : S → VW → list byte → res (VW * S);    (* [VolWriter::write_all] *)
  vw_finish : S → VW → res S;                          (* [VolWriter::finish] *)
  seg_into_cow : S → Segment → res (Eid * S);          (* [Segment::into_cow] *)
  seg_inject : S → Eid → res S                         (* [Store::inject_seg_to_cache] *)
}.
#[export] Hint Mode SegCreate ! - : typeclass_instances.

(** What is written to a volume writer becomes the data of its id when it is finished. *)
Class SegCreateLaws (S VW : Type) `{!SegStore S, !SegTrans S, !SegTransLaws S, !SegCreate S VW} := {
  vw_holds : VW → Eid → list byte → Prop;
  vw_new_law (s : S) id : writable s → ∃ (vw : VW) (s' : S), vw_new s id = Ok (vw, s') ∧
    vw_holds vw id [] ∧ writable s' ∧ same_view s s' ∧ (∀ i, deleted s' i ↔ deleted s i);
  vw_write_law (s : S) (vw : VW) id d b : writable s → vw_holds vw id d →
    ∃ (vw' : VW) (s' : S), vw_write_all s vw b = Ok (vw', s') ∧ vw_holds vw' id (d ++ b) ∧
    writable s' ∧ same_view s s' ∧ (∀ i, deleted s' i ↔ deleted s i);
  vw_finish_law (s : S) (vw : VW) id d : writable s → vw_holds vw id d →
    ∃ s' : S, vw_finish s vw = Ok s' ∧ writable s' ∧ (∀ i, deleted s' i ↔ deleted s i) ∧
    (∀ i, get_seg s' i = get_seg s i) ∧
    (∀ i, get_segdata s' i = if decide (i = id) then Ok d else get_segdata s i);
  into_cow_law (s : S) seg : writable s → ∃ id (s' : S), seg_into_cow s seg = Ok (id, s') ∧
    writable s' ∧ (∀ i, deleted s' i ↔ deleted s i) ∧ ¬ deleted s id ∧
    (∀ sg, get_seg s id ≠ Ok sg) ∧
    (∀ i, get_seg s' i = if decide (i = id) then Ok seg else get_seg s i) ∧
    (∀ i, get_segdata s' i = get_segdata s i);
  inject_law (s : S) id : writable s → ∃ s' : S, seg_inject s id = Ok s' ∧ writable s' ∧
    same_view s s' ∧ (∀ i, deleted s' i ↔ deleted s i)
}.

(** ** The segment writer *)

Module SegWriter.
Section writer.
Context {St VW : Type} `{!SegStore St, !SegTrans St, !SegCreate St VW}.

(** The writer starts with the default segment, which is in no store. *)
Definition EMPTY : Eid := 0.
Record Writer := mkWriter { seg : Eid; data_wtr : option VW }.
Definition new : Writer := mkWriter EMPTY None.

Definition renew (w : Writer) (s : St) : res (Writer * St) :=
  let '(did, s) := fresh_id s in
  let sg := Segment.new did in
  s ← data_to_trans s (data_id sg) New;
  s ← match data_wtr w with Some vw => vw_finish s vw | None => Ok s end;
  '(vw, s) ← vw_new s (data_id sg);
  '(id, s) ← seg_into_cow s sg;
  s ← seg_inject s id;
  Ok (mkWriter id (Some vw), s).

(** [Write::write]: zero bytes are taken when the segment is full. *)
Definition write (w : Writer) (s : St) (chunk : list byte) : res (Z * Writer * St) :=
  '(w, s) ← match data_wtr w with None => renew w s | Some _ => Ok (w, s) end;
  sg ← get_seg s (seg w);
  if is_full sg then Ok (0, w, s)
  else
    vw ← unwrap (data_wtr w);
    '(vw, s) ← vw_write_all s vw chunk;
    s ← seg_make_mut s (seg w);
    sg ← get_seg s (seg w);
    sg ← append_chunk sg (zlen chunk);
    Ok (zlen chunk, mkWriter (seg w) (Some vw), seg_set s (seg w) sg).

Definition finish (w : Writer) (s : St) : res St :=
  match data_wtr w with Some vw => vw_finish s vw | None => Ok s end.
End writer.
Arguments Writer : clear implicits.
End SegWriter.

(** ** The content writer *)

Module Writer.
Section writer.
Context (crypto_hash : list byte → list byte).
Context {St VW M : Type} `{!SegStore St, !SegTrans St, !SegCreate St VW}.
Context `{!LinkedMapOps (list byte) ChunkMap.ChunkIdx M}.

Record Writer := mkWriter {
  ctn : Content; chk_map : ChunkMap.ChunkMap M; seg_wtr : SegWriter.Writer VW;
  mtree_wtr : Merkle.Writer
}.

Definition new (chk_map : ChunkMap.ChunkMap M) : res Writer :=
  c ← content_new crypto_hash; Ok (mkWriter c chk_map SegWriter.new wtr_new).

Definition append_chunk (w : Writer) (s : St) (chunk hash : list byte) : res (Writer * St) :=
  let chunk_len := zlen chunk in
  '(written, sw, s) ← SegWriter.write (seg_wtr w) s chunk;
  '(written, sw, s) ←
    (if written =? 0 then
       '(sw, s) ← SegWriter.renew sw s; SegWriter.write sw s chunk
     else Ok (written, sw, s));
  _ ← rassert (written =? chunk_len);
  sg ← get_seg s (SegWriter.seg sw);
  begin ← u_sub (chunk_cnt sg) 1;
  e ← end_offset (ents (ctn w));
  c ← append (ctn w) (SegWriter.seg sw) (Span.mkSpan begin (begin + 1) 0 chunk_len e);
  Ok (mkWriter c (ChunkMap.insert (chk_map w) hash (SegWriter.seg sw) begin) sw (mtree_wtr w), s).

Definition write (w : Writer) (s : St) (chunk : list byte) : res (Z * Writer * St) :=
  let chunk_len := zlen chunk in
  let hash := crypto_hash chunk in
  mt ← Merkle.write crypto_hash (mtree_wtr w) chunk;
  '(found, cm) ← ChunkMap.get_refresh (chk_map w) hash;
  match found with
  | Some loc =>
      rseg ← get_seg s (ChunkMap.seg_id loc);
      ck ← index rseg (ChunkMap.idx loc);
      e ← end_offset (ents (ctn w));
      c ← append (ctn w) (ChunkMap.seg_id loc)
            (Span.mkSpan (ChunkMap.idx loc) (ChunkMap.idx loc + 1) 0 (Chunk.clen ck) e);
      _ ← rassert (chunk_len =? Chunk.clen ck);
      Ok (chunk_len, mkWriter c cm (seg_wtr w) mt, s)
  | None =>
      '(w, s) ← append_chunk (mkWriter (ctn w) cm (seg_wtr w) mt) s chunk hash;
      Ok (chunk_len, w, s)
  end.

Definition seek (w : Writer) (p : SeekFrom) : res Writer :=
  l ← EntryList.seek (ents (ctn w)) p;
  mt ← match p with Start o => wtr_seek (mtree_wtr w) o | _ => Panic end;
  Ok (mkWriter (mkContent l (mtree (ctn w)) (leaves (ctn w))) (chk_map w) (seg_wtr w) mt).

Definition finish (w : Writer) (s : St) : res (Content * ChunkMap.ChunkMap M * St) :=
  s ← SegWriter.finish (seg_wtr w) s;
  l ← finish_with_leaves crypto_hash (mtree_wtr w);
  Ok (mkContent (ents (ctn w)) (mtree (ctn w)) l, chk_map w, s).
End writer.
Arguments Writer : clear implicits.
End Writer.

(** ** The writer of a file's content: src/content/store.rs, [Writer] *)

Module StoreWriter.
Section writer.
Context (crypto_hash : list byte → list byte).
Context {St VW M : Type} `{!SegStore St, !SegTrans St, !SegCreate St VW}.
Context `{!LinkedMapOps (list byte) ChunkMap.ChunkIdx M}.

(** The content writer, with the store it works on, as the destination of the chunker. *)
Abbreviation Dst := (Writer.Writer VW M * St)%type.
#[local] Instance content_write : Write Dst := {|
  write_to '(w, s) chunk := '(n, w, s) ← Writer.write crypto_hash w s chunk; Ok (n, (w, s));
  flush_to d := Ok d
|}.

Definition new (params : Chunker.ChunkerParams) (chk_map : ChunkMap.ChunkMap M) (s : St)
    : res (Chunker.Chunker Dst) :=
  w ← Writer.new crypto_hash chk_map; Ok (Chunker.new params (w, s)).

Definition write_all (c : Chunker.Chunker Dst) (buf : list byte) : res (Chunker.Chunker Dst) :=
  Chunker.write_all c buf.

Definition seek (c : Chunker.Chunker Dst) (p : SeekFrom) : res (Chunker.Chunker Dst) :=
  w ← Writer.seek (Chunker.dst c).1 p;
  Ok (Chunker.mkChunker (w, (Chunker.dst c).2) (Chunker.params c) (Chunker.pos c)
        (Chunker.chunk_len c) (Chunker.buf_clen c) (Chunker.win_idx c) (Chunker.roll_hash c)
        (Chunker.win c) (Chunker.buf c)).

Definition finish (c : Chunker.Chunker Dst) : res (Content * ChunkMap.ChunkMap M * St) :=
  '(w, s) ← Chunker.into_inner c; Writer.finish crypto_hash w s.
End writer.
End StoreWriter.
