(* ===== verification/StageProofs.v ===== *)
(** * The staged content holds the bytes written.

    While a segment is being written its data is in the volume writer; the proofs read it
    through a view of the store in which that data is already there. *)
From S2P Require Import Prelude Base Segment Entry ChunkMap Append Link Merkle MerkleProofs Content Chunker Stage.
Import Chunk Segment.

(** ** The store with the data being written *)

Abbreviation Pending := (option (Eid * list byte)).

#[export] Instance pend_store {St : Type} `{!SegStore St} : SegStore (St * Pending) := {|
  get_seg v id := get_seg v.1 id;
  get_segdata v i :=
    match v.2 with
    | Some (id, d) => if decide (i = id) then Ok d else get_segdata v.1 i
    | None => get_segdata v.1 i
    end
|}.

Definition CHUNK_MAX : Z := 64 * 1024.

Section stage.
Context (crypto_hash : list byte → list byte).
Context {St VW M : Type} `{!SegStore St, !SegTrans St, !SegTransLaws St}.
Context `{!SegCreate St VW, !SegCreateLaws St VW}.
Context `{!LinkedMapOps (list byte) ChunkMap.ChunkIdx M, !LinkedMap (list byte) ChunkMap.ChunkIdx M}.
Implicit Types (s : St) (p : Pending).

(** The segment being written, as the segment writer knows it. *)
Definition current s (id : Eid) (vw : VW) (did : Eid) (d : list byte) : Prop :=
  ∃ sg, get_seg s id = Ok sg ∧ ¬ deleted s id ∧ data_id sg = did ∧ vw_holds vw did d ∧
    len sg = zlen d ∧ Span.contig 0 (chunks sg) ∧ total_len (chunks sg) = len sg ∧
    zlen (chunks sg) ≤ MAX_CHUNKS ∧ zlen d ≤ CHUNK_MAX * zlen (chunks sg) ∧
    ∀ i sg', i ≠ id → get_seg s i = Ok sg' → data_id sg' ≠ did.

Definition writing s (w : SegWriter.Writer VW) p : Prop :=
  match SegWriter.data_wtr w, p with
  | None, None => True
  | Some vw, Some (did, d) => current s (SegWriter.seg w) vw did d
  | _, _ => False
  end.

Lemma grows_refl (v : St * Pending) : grows v v.
Proof.
  intros id sg d Hsd Hb. exists sg, d. split; [done|]. split; [by exists []; rewrite app_nil_r|].
  split; [by exists []; rewrite app_nil_r|done].
Qed.
Lemma grows_trans {S1 S2 S3 : Type} `{!SegStore S1, !SegStore S2, !SegStore S3}
    (v1 : S1) (v2 : S2) (v3 : S3) : grows v1 v2 → grows v2 v3 → grows v1 v3.
Proof.
  intros H1 H2 id sg d Hsd Hb.
  destruct (H1 id sg d Hsd Hb) as (sg2 & d2 & Hsd2 & [cs2 Hc2] & [e2 ->] & Hb2).
  destruct (H2 id sg2 _ Hsd2 Hb2) as (sg3 & d3 & Hsd3 & [cs3 Hc3] & [e3 ->] & Hb3).
  exists sg3, ((d ++ e2) ++ e3). split; [done|].
  split; [exists (cs2 ++ cs3); by rewrite Hc3, Hc2, app_assoc|].
  split; [exists (e2 ++ e3); by rewrite app_assoc|done].
Qed.

(** The same segments with the same data. *)
Lemma grows_same {S1 S2 : Type} `{!SegStore S1, !SegStore S2} (v1 : S1) (v2 : S2) :
  (∀ id sg d, seg_with_data v1 id sg d → seg_with_data v2 id sg d) → grows v1 v2.
Proof.
  intros H id sg d Hsd Hb. exists sg, d. split; [by apply H|].
  split; [by exists []; rewrite app_nil_r|]. split; [by exists []; rewrite app_nil_r|done].
Qed.

(** *** Finishing the segment in progress *)

Lemma sw_finish_ok s w p :
  writable s → writing s w p →
  ∃ s', SegWriter.finish w s = Ok s' ∧ writable s' ∧ (∀ i, deleted s' i ↔ deleted s i) ∧
    (∀ i, get_seg s' i = get_seg s i) ∧ (∀ i, get_segdata s' i = get_segdata (s, p) i).
Proof.
  intros Hw Hwr. unfold SegWriter.finish, writing in *.
  destruct (SegWriter.data_wtr w) as [vw|], p as [[did d]|]; try done.
  - destruct Hwr as (sg & _ & _ & _ & Hvw & _).
    destruct (vw_finish_law s vw did d Hw Hvw) as (s' & -> & Hw' & Hd' & Hg' & Hgd').
    exists s'. split; [done|]. split; [done|]. split; [done|]. split; [done|].
    intros i. simpl. by rewrite Hgd'.
  - by exists s.
Qed.

(** *** A new segment *)

Lemma renew_ok s w p :
  writable s → writing s w p →
  ∃ w' s' did, SegWriter.renew w s = Ok (w', s') ∧ writable s' ∧
    writing s' w' (Some (did, [])) ∧ (∀ i, deleted s' i ↔ deleted s i) ∧
    (∃ sg, get_seg s' (SegWriter.seg w') = Ok sg ∧ chunks sg = []) ∧
    (∀ id sg d, seg_with_data (s, p) id sg d → seg_with_data (s', Some (did, [] : list byte)) id sg d).
Proof.
  intros Hw Hwr. unfold SegWriter.renew.
  destruct (fresh_law s Hw) as (Hw1 & [Hv1 Hvd1] & Hd1 & Hfr).
  destruct (fresh_id s) as [did s1]. cbn [fst snd] in *.
  destruct (to_trans_law s1 did New Hw1) as (s2 & Heq2 & Hw2 & [Hv2 Hvd2] & Hd2).
  change (data_id (Segment.new did)) with did. rewrite Heq2, bind_ok.
  assert (Hwr2 : writing s2 w p).
  { unfold writing in *. destruct (SegWriter.data_wtr w) as [vw|], p as [[did0 d]|]; try done.
    destruct Hwr as (sg & Hs & Hnd & Hdi & Hvw & Hln & Hct & Ht & Hz & Hzd & Hoth). exists sg.
    rewrite Hv2, Hv1, Hd2, Hd1. do 9 (split; [done|]). intros i sg' Hi. rewrite Hv2, Hv1. by apply Hoth. }
  destruct (sw_finish_ok s2 w p Hw2 Hwr2) as (s3 & Heq3 & Hw3 & Hd3 & Hv3 & Hvd3).
  unfold SegWriter.finish in Heq3. rewrite Heq3, bind_ok.
  destruct (vw_new_law s3 did Hw3) as (vw & s4 & -> & Hvw & Hw4 & [Hv4 Hvd4] & Hd4). rewrite bind_ok.
  destruct (into_cow_law s4 (Segment.new did) Hw4)
    as (id & s5 & -> & Hw5 & Hd5 & Hnd & Hnew & Hv5 & Hvd5). rewrite bind_ok.
  destruct (inject_law s5 id Hw5) as (s6 & -> & Hw6 & [Hv6 Hvd6] & Hd6). rewrite bind_ok.
  assert (Hg : ∀ i sg, get_seg s i = Ok sg → get_seg s6 i = Ok sg).
  { intros i sg Hi. rewrite Hv6, Hv5. case_decide as Hid; [|by rewrite Hv4, Hv3, Hv2, Hv1].
    subst i. exfalso. apply (Hnew sg). by rewrite Hv4, Hv3, Hv2, Hv1. }
  exists (SegWriter.mkWriter id (Some vw)), s6, did. split; [done|]. split; [done|]. split.
  - exists (Segment.new did). cbn [SegWriter.seg]. rewrite Hv6, Hv5, decide_True by done.
    split; [done|]. split; [by rewrite Hd6, Hd5|]. split; [done|]. split; [done|].
    do 5 (split; [done|]). intros i sg' Hi Hs'.
    rewrite Hv6, Hv5, decide_False, Hv4, Hv3, Hv2, Hv1 in Hs' by done. by eapply Hfr.
  - split; [intros i; by rewrite Hd6, Hd5, Hd4, Hd3, Hd2, Hd1|]. split.
    { exists (Segment.new did). cbn [SegWriter.seg]. by rewrite Hv6, Hv5, decide_True by done. }
    intros i sg d [Hs Hsd]. split; [by apply Hg|]. simpl. rewrite decide_False.
    + rewrite Hvd6, Hvd5, Hvd4, Hvd3. simpl in Hsd. rewrite <- Hsd. simpl.
      destruct p as [[did0 d0]|]; repeat case_decide; try done; by rewrite Hvd2, Hvd1.
    + exact (Hfr i sg Hs).
Qed.

(** *** One chunk appended to the segment in progress *)

Lemma append_chunk_ok (sg : Segment) n :
  len sg + n < U64 →
  append_chunk sg n = Ok (mkSegment (len sg + n) (used sg) (data_id sg)
    (chunks sg ++ [Chunk.new (len sg) n])).
Proof. intros. unfold append_chunk. by rewrite u_add_ok, bind_ok. Qed.

(** A write to a writer whose segment has room. *)
Lemma sw_write_room s w did d vw sg chunk :
  writable s → SegWriter.data_wtr w = Some vw → current s (SegWriter.seg w) vw did d →
  get_seg s (SegWriter.seg w) = Ok sg → zlen (chunks sg) < MAX_CHUNKS →
  0 < zlen chunk ≤ CHUNK_MAX →
  ∃ w' s', SegWriter.write w s chunk = Ok (zlen chunk, w', s') ∧ writable s' ∧
    SegWriter.seg w' = SegWriter.seg w ∧ writing s' w' (Some (did, d ++ chunk)) ∧
    (∀ i, deleted s' i ↔ deleted s i) ∧
    (∀ i, get_seg s' i = if decide (i = SegWriter.seg w)
       then Ok (mkSegment (len sg + zlen chunk) (used sg) did (chunks sg ++ [Chunk.new (len sg) (zlen chunk)]))
       else get_seg s i) ∧
    (∀ i, get_segdata s' i = get_segdata s i).
Proof.
  intros Hw Hvw (sg' & Hs' & Hnd & Hdi & Hh & Hln & Hct & Ht & Hz & Hzd & Hoth) Hs Hroom Hck.
  rewrite Hs in Hs'. injection Hs' as <-. unfold SegWriter.write. rewrite Hvw, bind_ok, Hs, bind_ok.
  unfold is_full. rewrite (proj2 (Z.leb_gt _ _)) by lia. rewrite Hvw. cbn [unwrap]. rewrite bind_ok.
  destruct (vw_write_law s vw did d chunk Hw Hh) as (vw' & s1 & -> & Hh' & Hw1 & [Hv1 Hvd1] & Hd1).
  rewrite bind_ok.
  destruct (make_mut_law s1 (SegWriter.seg w) sg Hw1) as (s2 & -> & Hw2 & [Hv2 Hvd2] & Hd2);
    [by rewrite Hv1|by rewrite Hd1|]. rewrite bind_ok, Hv2, Hv1, Hs, bind_ok.
  assert (CHUNK_MAX * MAX_CHUNKS < U64) by done. unfold CHUNK_MAX, MAX_CHUNKS in *.
  rewrite append_chunk_ok, bind_ok by lia. rewrite Hdi.
  set (sg2 := mkSegment _ _ _ _). destruct (set_law s2 (SegWriter.seg w) sg2 Hw2) as (Hw3 & Hd3 & Hv3 & Hvd3).
  eexists _, _. split; [done|]. split; [done|]. split; [done|].
  assert (Hgs : ∀ i, get_seg (seg_set s2 (SegWriter.seg w) sg2) i =
    if decide (i = SegWriter.seg w) then Ok sg2 else get_seg s i).
  { intros i. rewrite Hv3. case_decide; [done|]. by rewrite Hv2, Hv1. }
  split; [|split; [intros i; by rewrite Hd3, Hd2, Hd1|split; [done|intros i; by rewrite Hvd3, Hvd2, Hvd1]]].
  exists sg2. cbn [SegWriter.seg]. rewrite Hgs, decide_True by done. split; [done|].
  split; [by rewrite Hd3, Hd2, Hd1|]. split; [done|]. split; [done|].
  unfold sg2. cbn [len chunks data_id]. rewrite zlen_snoc, zlen_app, Span.total_len_app.
  unfold total_len at 2. simpl. split; [lia|]. split.
  { apply Span.contig_app. split; [done|]. cbn [Span.contig]. simpl. split; [lia|]. split; [lia|done]. }
  split; [lia|]. split; [unfold MAX_CHUNKS; lia|]. split; [unfold CHUNK_MAX; lia|].
  intros i sg' Hi. rewrite Hgs, decide_False by done. by apply Hoth.
Qed.

(** [append_chunk] of the content writer leaves the chunk at the end of the current segment. *)
Lemma sw_append_ok s w p chunk :
  writable s → writing s w p → 0 < zlen chunk ≤ CHUNK_MAX →
  ∃ w' s' p' sg, ('(written, sw, s) ← SegWriter.write w s chunk;
      if written =? 0 then '(sw, s) ← SegWriter.renew sw s; SegWriter.write sw s chunk
      else Ok (written, sw, s)) = Ok (zlen chunk, w', s') ∧
    writable s' ∧ writing s' w' p' ∧ (∀ i, deleted s' i ↔ deleted s i) ∧
    get_seg s' (SegWriter.seg w') = Ok sg ∧ 0 < zlen (chunks sg) ∧
    chunk_at (s', p') (SegWriter.seg w') (zlen (chunks sg) - 1)
      (Chunk.new (len sg - zlen chunk) (zlen chunk)) chunk ∧
    (∀ c, zget (chunks sg) (zlen (chunks sg) - 2) = Some c → pos c + clen c = len sg - zlen chunk) ∧
    grows (s, p) (s', p').
Proof.
  intros Hw Hwr Hck. pose proof BOUND_lt.
  (* after the renewals, the write finds a segment with room *)
  assert (Hgo : ∀ s1 w1 did d vw sg, writable s1 → SegWriter.data_wtr w1 = Some vw →
    current s1 (SegWriter.seg w1) vw did d → get_seg s1 (SegWriter.seg w1) = Ok sg →
    zlen (chunks sg) < MAX_CHUNKS → (∀ i, deleted s1 i ↔ deleted s i) →
    grows (s, p) (s1, Some (did, d)) →
    ∃ w' s' p' sg, SegWriter.write w1 s1 chunk = Ok (zlen chunk, w', s') ∧
      writable s' ∧ writing s' w' p' ∧ (∀ i, deleted s' i ↔ deleted s i) ∧
      get_seg s' (SegWriter.seg w') = Ok sg ∧ 0 < zlen (chunks sg) ∧
      chunk_at (s', p') (SegWriter.seg w') (zlen (chunks sg) - 1)
        (Chunk.new (len sg - zlen chunk) (zlen chunk)) chunk ∧
      (∀ c, zget (chunks sg) (zlen (chunks sg) - 2) = Some c → pos c + clen c = len sg - zlen chunk) ∧
      grows (s, p) (s', p')).
  { intros s1 w1 did d vw sg Hw1 Hvw Hcur Hs1 Hroom Hdel Hgr.
    destruct (sw_write_room s1 w1 did d vw sg chunk) as (w2 & s2 & Heq & Hw2 & Hid & Hwr2 & Hd2 & Hg2 & Hgd2);
      [done..|].
    destruct Hcur as (sg' & Hs' & Hnd & Hdi & Hh & Hln & Hct & Ht & Hz & Hzd & Hoth).
    rewrite Hs1 in Hs'. injection Hs' as <-.
    set (sg2 := mkSegment _ _ _ _) in Hg2. pose proof (zlen_nonneg (chunks sg)).
    pose proof (zlen_nonneg d).
    assert (CHUNK_MAX * MAX_CHUNKS < BOUND) by done. unfold CHUNK_MAX, MAX_CHUNKS in *.
    exists w2, s2, (Some (did, d ++ chunk)), sg2. split; [done|]. split; [done|]. split; [done|].
    split; [intros i; by rewrite Hd2|]. rewrite Hid, Hg2, decide_True by done. split; [done|].
    assert (Hzc : zlen (chunks sg2) = zlen (chunks sg) + 1).
    { unfold sg2. cbn [chunks]. by rewrite zlen_snoc. }
    assert (Hl2 : len sg2 - zlen chunk = len sg) by (unfold sg2; simpl; lia).
    rewrite Hzc, Hl2. split; [lia|].
    assert (Hsd2 : seg_with_data (s2, Some (did, d ++ chunk)) (SegWriter.seg w1) sg2 (d ++ chunk)).
    { split; simpl; [by rewrite Hg2, decide_True|by rewrite decide_True]. }
    split; [|split].
    - exists sg2, (d ++ chunk). split; [done|]. unfold Chunk.new. simpl. rewrite zlen_app.
      split; [rewrite zget_app_r by lia; by replace (zlen (chunks sg) + 1 - 1 - zlen (chunks sg)) with 0 by lia|].
      split; [lia|]. split; [lia|]. split; [lia|]. split; [lia|].
      unfold chunk_bytes. simpl. rewrite Hln, zdrop_zlen. by rewrite ztake_ge by lia.
    - intros c. replace (zlen (chunks sg) + 1 - 2) with (zlen (chunks sg) - 1) by lia.
      unfold sg2. cbn [chunks]. destruct (chunks sg) as [|c0 cs] eqn:Hcs using rev_ind.
      + simpl. by rewrite zget_neg.
      + rewrite zlen_snoc. replace (zlen cs + 1 - 1) with (zlen cs) by lia.
        rewrite zget_app_l by (rewrite zlen_snoc; lia).
        rewrite zget_middle. intros [= <-]. apply Span.contig_app in Hct as [_ [Hp _]].
        rewrite Span.total_len_app in Ht. unfold total_len at 2 in Ht. simpl in Ht. lia.
    - eapply (grows_trans _ _ _ Hgr). intros id sg0 d0 [Hsg0 Hsd0] Hb0. simpl in Hsg0, Hsd0.
      destruct (decide (id = SegWriter.seg w1)) as [->|Hne].
      + rewrite Hs1 in Hsg0. injection Hsg0 as <-. rewrite Hdi, decide_True in Hsd0 by done.
        injection Hsd0 as <-. exists sg2, (d ++ chunk). split; [done|].
        split; [by eexists|]. split; [by eexists|]. rewrite zlen_app. lia.
      + exists sg0, d0. split.
        * split; simpl; [by rewrite Hg2, decide_False|]. pose proof (Hoth _ _ Hne Hsg0).
          rewrite decide_False in Hsd0 |- * by done. by rewrite Hgd2.
        * split; [by exists []; rewrite app_nil_r|]. split; [by exists []; rewrite app_nil_r|done]. }
  assert (Hnew : ∀ s1 w1 p1, writable s1 → writing s1 w1 p1 → (∀ i, deleted s1 i ↔ deleted s i) →
    grows (s, p) (s1, p1) →
    ∃ w' s' p' sg, ('(sw, s) ← SegWriter.renew w1 s1; SegWriter.write sw s chunk)
        = Ok (zlen chunk, w', s') ∧ writable s' ∧ writing s' w' p' ∧
      (∀ i, deleted s' i ↔ deleted s i) ∧ get_seg s' (SegWriter.seg w') = Ok sg ∧
      0 < zlen (chunks sg) ∧
      chunk_at (s', p') (SegWriter.seg w') (zlen (chunks sg) - 1)
        (Chunk.new (len sg - zlen chunk) (zlen chunk)) chunk ∧
      (∀ c, zget (chunks sg) (zlen (chunks sg) - 2) = Some c → pos c + clen c = len sg - zlen chunk) ∧
      grows (s, p) (s', p')).
  { intros s1 w1 p1 Hw1 Hwr1 Hdel Hgr.
    destruct (renew_ok s1 w1 p1 Hw1 Hwr1) as (w2 & s2 & did & -> & Hw2 & Hwr2 & Hd2 & (sg2 & Hs2 & Hnil) & Hsame).
    rewrite bind_ok. unfold writing in Hwr2. destruct (SegWriter.data_wtr w2) as [vw|] eqn:Hvw; [|done].
    eapply Hgo; [done..| | |].
    - by rewrite Hnil.
    - intros i. by rewrite Hd2.
    - eapply grows_trans; [exact Hgr|]. by apply grows_same. }
  assert (Hz0 : (zlen chunk =? 0) = false) by (apply Z.eqb_neq; lia).
  unfold writing in Hwr. destruct (SegWriter.data_wtr w) as [vw|] eqn:Hvw, p as [[did d]|]; try done.
  - pose proof Hwr as (sg & Hs & _ & _ & _ & _ & _ & _ & Hz & _).
    destruct (decide (zlen (chunks sg) < MAX_CHUNKS)) as [Hroom|Hfull].
    + destruct (Hgo s w did d vw sg) as (w' & s' & p' & sg' & Heq & Hrest);
        [done..|apply grows_refl|].
      exists w', s', p', sg'. split; [|exact Hrest]. by rewrite Heq, bind_ok, Hz0.
    + destruct (Hnew s w (Some (did, d))) as (w' & s' & p' & sg' & Heq & Hrest);
        [done| |done|apply grows_refl|]; [by unfold writing; rewrite Hvw|].
      exists w', s', p', sg'. split; [|exact Hrest].
      assert (Hfull0 : SegWriter.write w s chunk = Ok (0, w, s)).
      { unfold SegWriter.write. rewrite Hvw, bind_ok, Hs, bind_ok. unfold is_full.
        by rewrite (proj2 (Z.leb_le _ _)) by lia. }
      by rewrite Hfull0, bind_ok.
  - destruct (Hnew s w None) as (w' & s' & p' & sg' & Heq & Hrest);
      [done| |done|apply grows_refl|]; [by unfold writing; rewrite Hvw|].
    exists w', s', p', sg'. split; [|exact Hrest].
    assert (Hfirst : SegWriter.write w s chunk = Ok (zlen chunk, w', s')).
    { destruct (renew_ok s w None) as (w1 & s1 & did & Hr & _ & Hwr1 & _);
        [done|by unfold writing; rewrite Hvw|].
      rewrite Hr, bind_ok in Heq. rewrite <- Heq. unfold SegWriter.write at 1.
      rewrite Hvw, Hr, bind_ok. unfold writing in Hwr1.
      unfold SegWriter.write. destruct (SegWriter.data_wtr w1) as [vw1|] eqn:Hvw1; [|done].
      by rewrite bind_ok, Hvw1. }
    by rewrite Hfirst, bind_ok, Hz0.
Qed.

(** *** The content writer *)

(** The byte strings in play do not collide. *)
Context (C : list byte → Prop) (C_inj : ∀ a b, C a → C b → crypto_hash a = crypto_hash b → a = b).

(** The chunk map names known chunks by their hash. *)
Definition map_known {S1 : Type} `{!SegStore S1} (v : S1) (K : Locs) (cm : ChunkMap.ChunkMap M) : Prop :=
  ∀ h id i, ChunkMap.lookup cm h = Some (id, i) →
    K id i ∧ ∃ c b, chunk_at v id i c b ∧ crypto_hash b = h ∧ C b.

(** The writer has been handed the bytes [D] for offset [o], the store having been [s0]. *)
Definition staging (s0 s : St) p (w : Writer.Writer VW M) (K : Locs) (o : Z) (D : list byte) : Prop :=
  writable s ∧ writing s (Writer.seg_wtr w) p ∧ known_ok (s, p) K ∧
  (ChunkMap.ok (Hash:=list byte) (Writer.chk_map w) ∧ map_known (s, p) K (Writer.chk_map w)) ∧
  (EntryList.ok (s, p) (ents (Writer.ctn w)) ∧ whole (s, p) K (ents (Writer.ctn w)) ∧
   EntryList.loffset (ents (Writer.ctn w)) = o ∧ EntryList.bytes (s, p) (ents (Writer.ctn w)) = D) ∧
  written crypto_hash o D (Writer.mtree_wtr w) ∧
  grows s0 (s, p) ∧ ∀ i, deleted s i ↔ deleted s0 i.

Lemma map_known_grows {S1 S2 : Type} `{!SegStore S1, !SegStore S2} (v1 : S1) (v2 : S2)
    (K K' : Locs) (cm : ChunkMap.ChunkMap M) :
  grows v1 v2 → (∀ id i, K id i → K' id i) → map_known v1 K cm → map_known v2 K' cm.
Proof.
  intros Hg HK Hm h id i Hl. destruct (Hm h id i Hl) as (Hk & c & b & Hat & Hh & Hc).
  split; [by apply HK|]. exists c, b. split; [by eapply chunk_grows|done].
Qed.

(** A fresh chunk becomes known. *)
Definition learn (K : Locs) (id : Eid) (i : Z) : Locs := λ id' i', K id' i' ∨ (id' = id ∧ i' = i).

Lemma known_learn (v1 v2 : St * Pending) K id sg c b :
  known_ok v1 K → grows v1 v2 → get_seg v2 id = Ok sg → chunk_at v2 id (zlen (chunks sg) - 1) c b →
  (∀ c', zget (chunks sg) (zlen (chunks sg) - 2) = Some c' → pos c' + clen c' = pos c) →
  known_ok v2 (learn K id (zlen (chunks sg) - 1)).
Proof.
  intros [HK Hadj] Hg Hs Hat Hprev. split.
  - intros id' i [Hk|[-> ->]]; [|by eauto].
    destruct (HK id' i Hk) as (c' & b' & Hat'). exists c', b'. by eapply chunk_grows.
  - intros id' i c1 b1 c2 b2 Hk1 Hk2 Hat1 Hat2.
    assert (Hin : ∀ j c0 b0, chunk_at v2 id j c0 b0 → zget (chunks sg) j = Some c0).
    { intros j c0 b0 (sg' & d & [Hs' _] & Hj & _). rewrite Hs in Hs'. by injection Hs' as <-. }
    destruct Hk2 as [Hk2|[-> Hi]].
    + destruct Hk1 as [Hk1|[-> ->]].
      * destruct (HK _ _ Hk1) as (c1' & b1' & Hat1'). destruct (HK _ _ Hk2) as (c2' & b2' & Hat2').
        pose proof (chunk_grows _ _ _ _ _ _ Hg Hat1') as Hn1.
        pose proof (chunk_grows _ _ _ _ _ _ Hg Hat2') as Hn2.
        destruct (chunk_at_fun _ _ _ _ _ _ _ Hn1 Hat1) as [-> _].
        destruct (chunk_at_fun _ _ _ _ _ _ _ Hn2 Hat2) as [-> _]. 
        exact (Hadj _ _ _ _ _ _ Hk1 Hk2 Hat1' Hat2').
      * apply Hin, zget_lt in Hat2. lia.
    + assert (i = zlen (chunks sg) - 2) as -> by lia.
      replace (zlen (chunks sg) - 2 + 1) with (zlen (chunks sg) - 1) in Hat2 by lia.
      destruct (chunk_at_fun _ _ _ _ _ _ _ Hat Hat2) as [-> _]. apply Hin in Hat1.
      specialize (Hprev _ Hat1). lia.
Qed.

Lemma writer_write_ok s0 s p w K o D chunk :
  staging s0 s p w K o D → C chunk → 0 < zlen chunk ≤ CHUNK_MAX → 0 ≤ o →
  o + zlen D + zlen chunk < 2 ^ 61 →
  ∃ w' s' p' K', Writer.write crypto_hash w s chunk = Ok (zlen chunk, w', s') ∧
    staging s0 s' p' w' K' o (D ++ chunk).
Proof.
  intros (Hw & Hwr & HK & [Hcm Hmk] & (Hok & Hwh & Hlo & Hby) & Hmt & Hg & Hdel) HC Hck Ho Hlt.
  pose proof (EntryList.bytes_len _ _ Hok) as Hbl. rewrite Hby in Hbl.
  pose proof (zlen_nonneg D). assert (2 ^ 61 < BOUND) by done. pose proof BOUND_lt.
  unfold Writer.write. destruct (write_ok crypto_hash o D (Writer.mtree_wtr w) chunk) as (mt & -> & Hmt');
    [done|lia|done|]. rewrite bind_ok.
  destruct (ChunkMap.cm_get_refresh_ok (Writer.chk_map w) (crypto_hash chunk) Hcm) as (cm & -> & Hcm' & Hlk).
  rewrite bind_ok.
  destruct (ChunkMap.lookup (Writer.chk_map w) (crypto_hash chunk)) as [[id i]|] eqn:Hl; cbn [fmap option_fmap option_map].
  - destruct (Hmk _ _ _ Hl) as (Hki & c & b & Hat & Hh & HCb).
    assert (b = chunk) as -> by by apply C_inj.
    destruct (chunk_at_len _ _ _ _ _ Hat) as [Hcz Hcl].
    pose proof Hat as (sg & d & [Hs _] & Hi & _). simpl in Hs.
    cbn [ChunkMap.seg_id ChunkMap.idx]. rewrite Hs, bind_ok. unfold index.
    rewrite (vindex_ok _ _ _ Hi), bind_ok, end_offset_ok, bind_ok by (simpl; lia).
    destruct (list_append_ok (s, p) K (ents (Writer.ctn w)) id i c chunk) as (l & Ha & Hok' & Hwh' & Hlo' & Hn' & Hby');
      [done..|lia|].
    unfold append. simpl offset. simpl EntryList.llen. simpl len in *.
    unfold chunk_span in Ha. change (Entry.len (ents (Writer.ctn w))) with (EntryList.llen (ents (Writer.ctn w))).
    rewrite Ha, !bind_ok, rassert_ok, bind_ok by (apply Z.eqb_eq; lia).
    eexists _, s, p, K. split; [done|]. unfold staging. cbn [Writer.seg_wtr Writer.chk_map Writer.ctn Writer.mtree_wtr ents].
    split; [done|]. split; [done|]. split; [done|]. split.
    { split; [done|]. intros h id' i'. rewrite Hlk. apply Hmk. }
    split; [|done]. split; [done|]. split; [done|]. split; [lia|]. by rewrite Hby', Hby.
  - unfold Writer.append_chunk. cbn [Writer.seg_wtr Writer.chk_map Writer.ctn Writer.mtree_wtr].
    destruct (sw_append_ok s (Writer.seg_wtr w) p chunk Hw Hwr Hck)
      as (sw & s2 & p2 & sg & Heq & Hw2 & Hwr2 & Hd2 & Hs2 & Hzc & Hat & Hprev & Hg2).
    destruct (SegWriter.write (Writer.seg_wtr w) s chunk) as [[[n w1] s1]|e|]; [|done|done].
    change ((if n =? 0 then '(sw0, s0) ← SegWriter.renew w1 s1; SegWriter.write sw0 s0 chunk
      else Ok (n, w1, s1)) = Ok (zlen chunk, sw, s2)) in Heq.
    rewrite bind_ok, Heq, bind_ok, rassert_ok, bind_ok by apply Z.eqb_refl.
    rewrite Hs2, bind_ok. unfold chunk_cnt. rewrite u_sub_ok, bind_ok by lia.
    destruct (list_grows _ (s2, p2) _ Hg2 Hok) as [Hok2 Hby2].
    pose proof (whole_grows _ (s2, p2) _ _ Hg2 Hok Hwh) as Hwh2.
    assert (HK2 : known_ok (s2, p2) (learn K (SegWriter.seg sw) (zlen (chunks sg) - 1))).
    { eapply known_learn; [exact HK|exact Hg2|exact Hs2|exact Hat|]. intros c' Hc'. by apply Hprev. }
    assert (Hwh2' : whole (s2, p2) (learn K (SegWriter.seg sw) (zlen (chunks sg) - 1)) (ents (Writer.ctn w))).
    { eapply Forall_impl; [exact Hwh2|]. intros e He. eapply Forall_impl; [exact He|].
      intros sp (Hz & Hk & Hl'). split; [done|]. split; [|done]. intros j Hj. left. by apply Hk. }
    rewrite end_offset_ok, bind_ok by (simpl; lia).
    destruct (list_append_ok (s2, p2) _ (ents (Writer.ctn w)) (SegWriter.seg sw) (zlen (chunks sg) - 1) _ chunk HK2
      ltac:(by right) Hat Hok2 Hwh2') as (l & Ha & Hok' & Hwh' & Hlo' & Hn' & Hby').
    { simpl. lia. }
    unfold append. unfold chunk_span in Ha. simpl Chunk.clen in *.
    change (Entry.len (ents (Writer.ctn w))) with (EntryList.llen (ents (Writer.ctn w))).
    change (Entry.offset (ents (Writer.ctn w))) with (EntryList.loffset (ents (Writer.ctn w))).
    rewrite Ha, !bind_ok.
    eexists _, s2, p2, _. split; [done|]. unfold staging. cbn [Writer.seg_wtr Writer.chk_map Writer.ctn Writer.mtree_wtr ents].
    split; [done|]. split; [done|]. split; [exact HK2|]. split.
    { assert (Hmk2 : map_known (s2, p2) (learn K (SegWriter.seg sw) (zlen (chunks sg) - 1)) cm).
      { eapply (map_known_grows (s, p)); [done|by left|]. intros h id i. rewrite Hlk. apply Hmk. }
      destruct (ChunkMap.is_enabled cm) eqn:Hen.
      - destruct (ChunkMap.cm_insert_ok cm (crypto_hash chunk) (SegWriter.seg sw) (zlen (chunks sg) - 1) Hcm' Hen)
          as (Hcm2 & Hnew & Hold). split; [done|]. intros h id i Hli.
        destruct (decide (h = crypto_hash chunk)) as [->|Hne].
        + rewrite Hnew in Hli. injection Hli as <- <-. split; [by right|]. by eexists _, chunk.
        + destruct (Hold h Hne) as [Heqh|[Hnone _]]; [|congruence]. rewrite Heqh in Hli. by apply Hmk2.
      - unfold ChunkMap.insert. by rewrite Hen. }
    split; [|split; [done|split; [by eapply grows_trans|intros i; by rewrite Hd2]]].
    split; [done|]. split; [done|]. split; [lia|]. by rewrite Hby', Hby2, Hby.
Qed.

(** *** From the first byte to the staged content *)

(** What a write needs of the store it starts from. *)
Definition ready s (cm : ChunkMap.ChunkMap M) (K : Locs) : Prop :=
  writable s ∧ known_ok s K ∧ ChunkMap.ok (Hash:=list byte) cm ∧ map_known s K cm.

Lemma view_none s : (∀ id sg d, seg_with_data s id sg d ↔ seg_with_data (s, None : Pending) id sg d).
Proof. done. Qed.

Lemma writer_new_ok s cm K o :
  ready s cm K → 0 ≤ o < 2 ^ 61 →
  ∃ w w', Writer.new crypto_hash cm = Ok w ∧ Writer.seek (VW:=VW) w (Start o) = Ok w' ∧
    staging s s None w' K o [].
Proof.
  intros (Hw & HK & Hcm & Hmk) Ho. unfold Writer.new.
  destruct (content_new_ok crypto_hash s) as (c & Hc & _). pose proof Hc as Hc'.
  destruct (wtr_seek_ok crypto_hash o) as (mt & Hmt & Hwr); [lia|].
  rewrite Hc, bind_ok. eexists _, _. split; [done|].
  unfold content_new in Hc'. rewrite mtree_new_ok, bind_ok in Hc'. injection Hc' as <-.
  unfold Writer.seek. cbn [Writer.ctn Writer.mtree_wtr ents].
  assert (Hsk : EntryList.seek EntryList.new (Start o) = Ok (EntryList.mkEntryList 0 o [])) by done.
  rewrite Hsk, bind_ok, Hmt, bind_ok. split; [done|].
  unfold staging. cbn [Writer.seg_wtr Writer.chk_map Writer.ctn Writer.mtree_wtr ents].
  split; [done|]. split; [done|]. split; [done|]. split; [done|]. split; [|split; [done|split; [|done]]].
  - split; [|split; [constructor|done]]. split; [done|]. split; [done|].
    assert (2 ^ 61 < BOUND) by done. simpl. lia.
  - apply grows_same. done.
Qed.

Lemma writer_finish_ok s0 s p w K o D :
  staging s0 s p w K o D → 0 ≤ o → o + zlen D < 2 ^ 61 →
  ∃ c s', Writer.finish crypto_hash w s = Ok (c, Writer.chk_map w, s') ∧
    staged_ok crypto_hash s' c o D ∧ grows s0 s' ∧ ready s' (Writer.chk_map w) K ∧
    ∀ i, deleted s' i ↔ deleted s0 i.
Proof.
  intros (Hw & Hwr & HK & [Hcm Hmk] & (Hok & Hwh & Hlo & Hby) & Hmt & Hg & Hdel) Ho Hlt.
  unfold Writer.finish.
  destruct (sw_finish_ok s _ p Hw Hwr) as (s' & -> & Hw' & Hd' & Hv' & Hvd'). rewrite bind_ok.
  pose proof (zlen_nonneg D).
  rewrite (MerkleProofs.finish_ok crypto_hash o D _ Ho), bind_ok by (done || lia).
  assert (Hsame : grows (s, p) s').
  { apply grows_same. intros id sg d [Hs Hd]. split; [by rewrite Hv'|by rewrite Hvd']. }
  assert (Hback : ∀ id i c b, chunk_at s' id i c b → chunk_at (s, p) id i c b).
  { intros id i c b (sg & d & [Hs Hd] & Hrest). exists sg, d. split; [|done].
    split; [specialize (Hv' id)|specialize (Hvd' (data_id sg))]; simpl in *; congruence. }
  eexists _, s'. split; [done|]. destruct (list_grows _ s' _ Hsame Hok) as [Hok' Hby'].
  split; [|split; [by eapply grows_trans|split; [|intros i; by rewrite Hd']]].
  - unfold staged_ok. cbn [ents leaves]. split; [done|]. split; [done|]. split; [by rewrite Hby'|done].
  - split; [done|]. split; [|split; [done|by eapply map_known_grows]].
    destruct HK as [HK Hadj]. split.
    + intros id i Hk. destruct (HK id i Hk) as (c & b & Hat). exists c, b. by eapply chunk_grows.
    + intros id i c b c' b' Hk Hk' Hat Hat'. eapply (Hadj id i); try done; by eapply Hback.
Qed.

Lemma content_grows {S1 S2 : Type} `{!SegStore S1, !SegStore S2} (v1 : S1) (v2 : S2) c data :
  grows v1 v2 → content_ok crypto_hash v1 c data → content_ok crypto_hash v2 c data.
Proof.
  intros Hg (Hok & Hlo & Hby & Hmt). destruct (list_grows v1 v2 _ Hg Hok) as [Hok' Hby'].
  split; [done|]. split; [done|]. split; [congruence|done].
Qed.

Lemma store_write_ok s cm K o ps (srcs : list (list byte)) :
  Chunker.params_ok ps → ready s cm K → 0 ≤ o → o + zlen (concat srcs) < 2 ^ 61 →
  Forall (Forall Chunker.is_byte) srcs → Forall C (Chunker.chunks_of ps (concat srcs)) →
  ∃ c0 c1 c2 ctn cm' s' K', StoreWriter.new crypto_hash ps cm s = Ok c0 ∧
    StoreWriter.seek c0 (Start o) = Ok c1 ∧
    foldM (StoreWriter.write_all crypto_hash) c1 srcs = Ok c2 ∧
    StoreWriter.finish crypto_hash c2 = Ok (ctn, cm', s') ∧
    staged_ok crypto_hash s' ctn o (concat srcs) ∧ grows s s' ∧ ready s' cm' K' ∧
    ∀ i, deleted s' i ↔ deleted s i.
Proof.
  intros Hps Hr Ho Hlt Hsrc HC. set (F := Chunker.chunks_of ps (concat srcs)) in *.
  destruct (Chunker.split_ok ps (length (concat srcs)) Chunker.roll0 (concat srcs)) as [HF _];
    [done|]. fold (Chunker.chunks_of ps (concat srcs)) in HF. fold F in HF.
  pose proof (zlen_nonneg (concat srcs)).
  destruct (writer_new_ok s cm K o Hr) as (w & w1 & Hnew & Hseek & Hst); [lia|].
  set (R := λ (d : Writer.Writer VW M * St) cs, cs `prefix_of` F ∧
    ∃ p K, staging s d.2 p d.1 K o (concat cs)).
  pose (Wr := StoreWriter.content_write (St:=St) (VW:=VW) (M:=M) crypto_hash).
  assert (Hwrite : ∀ d cs c, R d cs → cs ++ [c] `prefix_of` F → 0 < zlen c ≤ Chunker.MAX_SIZE →
    ∃ d', @write_to _ Wr d c = Ok (zlen c, d') ∧ R d' (cs ++ [c])).
  { intros [wr st] cs c (_ & p & K0 & Hst0) Hpre Hc. pose proof Hpre as [l Hl].
    assert (Hlen : zlen (concat srcs) = zlen (concat cs) + zlen c + zlen (concat l)).
    { rewrite <- HF, Hl, !concat_app. simpl. rewrite app_nil_r, !zlen_app. lia. }
    rewrite Hl in HC. apply Forall_app in HC as [[_ HCc]%Forall_app _].
    apply Forall_cons in HCc as [HCc _]. pose proof (zlen_nonneg (concat l)).
    destruct (writer_write_ok s st p wr K0 o (concat cs) c Hst0 HCc Hc Ho) as (w' & s' & p' & K' & Heq & Hst');
      [lia|]. exists (w', s'). split; [simpl; by rewrite Heq, bind_ok|]. split; [done|].
    exists p', K'. rewrite concat_app. simpl. by rewrite app_nil_r. }
  destruct (@Chunker.chunker_ok _ Wr ps Hps R F Hwrite ltac:(by intros d cs Hd; exists d)
    (w1, s) srcs) as (c2 & [w2 s2] & Hall & Hinto & _ & p2 & K2 & Hst2); [|done|done|].
  { split; [by apply prefix_nil|]. by exists None, K. }
  rewrite HF in Hst2.
  destruct (writer_finish_ok _ _ _ _ _ _ _ Hst2 Ho Hlt) as (ctn & s' & Hfin & Hstg & Hg & Hrdy & Hdel).
  exists (Chunker.new ps (w, s)), (Chunker.new ps (w1, s)), c2, ctn, (Writer.chk_map w2), s', K2.
  split; [unfold StoreWriter.new; by rewrite Hnew, bind_ok|].
  split; [unfold StoreWriter.seek; cbn [Chunker.dst Chunker.new fst]; by rewrite Hseek, bind_ok|]. split; [exact Hall|].
  split; [|done]. subst Wr. unfold StoreWriter.finish. by rewrite Hinto, bind_ok.
Qed.
End stage.
