(* ===== verification/MemStore.v ===== *)
(** * A store of segments in memory: the contracts of the content layer are satisfiable.

    Maps from ids to segments and to segment data, a set of deleted segments and a bound above
    every id in use. *)
From S2P Require Import Prelude Base Segment Entry ChunkMap Append Link Merkle Content Chunker Stage StageProofs.
Import Segment.

Record mem_store := mkStore {
  ms_segs : gmap Eid Segment; ms_datas : gmap Eid (list byte); ms_del : gset Eid; ms_next : Z
}.

#[export] Instance mem_seg_store : SegStore mem_store := {|
  get_seg s id := ok_or NotFound (ms_segs s !! id);
  get_segdata s id := ok_or NotFound (ms_datas s !! id)
|}.

Definition live (s : mem_store) (id : Eid) : res mem_store :=
  if decide (is_Some (ms_segs s !! id)) then
    if decide (id ∈ ms_del s) then Err InUse else Ok s
  else Err NotFound.

#[export] Instance mem_seg_trans : SegTrans mem_store := {|
  seg_make_mut := live;
  seg_set s id seg :=
    mkStore (<[id := seg]> (ms_segs s)) (ms_datas s) (ms_del s) (Z.max (ms_next s) (Z.max (id + 1) (data_id seg + 1)));
  seg_make_del s id :=
    s ← live s id; Ok (mkStore (ms_segs s) (ms_datas s) ({[id]} ∪ ms_del s) (ms_next s));
  data_to_trans s _ _ := Ok s;
  data_uncache s _ := Ok s;
  data_save s id d := Ok (mkStore (ms_segs s) (<[id := d]> (ms_datas s)) (ms_del s) (ms_next s));
  fresh_id s := (ms_next s, s)
|}.

(** The volume writer holds the id and the bytes written so far. *)
Abbreviation mem_writer := (Eid * list byte)%type.
#[export] Instance mem_seg_create : SegCreate mem_store mem_writer := {|
  vw_new s id := Ok ((id, []), s);
  vw_write_all s vw b := Ok ((vw.1, vw.2 ++ b), s);
  vw_finish s vw :=
    Ok (mkStore (ms_segs s) (<[vw.1 := vw.2]> (ms_datas s)) (ms_del s) (ms_next s));
  seg_into_cow s seg :=
    let id := Z.max (ms_next s) (data_id seg + 1) in
    Ok (id, mkStore (<[id := seg]> (ms_segs s)) (ms_datas s) (ms_del s) (id + 1));
  seg_inject s _ := Ok s
|}.

(** Every id in use is below the bound. *)
Definition bounded (s : mem_store) : Prop :=
  (∀ id seg, ms_segs s !! id = Some seg → id < ms_next s ∧ data_id seg < ms_next s) ∧
  ∀ id, id ∈ ms_del s → id < ms_next s.

Lemma get_seg_Ok (s : mem_store) id seg : get_seg s id = Ok seg ↔ ms_segs s !! id = Some seg.
Proof. simpl. unfold ok_or. destruct (ms_segs s !! id); split; congruence. Qed.

Lemma live_ok s id seg :
  ms_segs s !! id = Some seg → id ∉ ms_del s → live s id = Ok s.
Proof. intros Hs Hd. unfold live. rewrite Hs, decide_True by done. by rewrite decide_False. Qed.

Lemma ok_or_insert {A} (m : gmap Eid A) (i id : Eid) (a : A) :
  ok_or NotFound (<[id := a]> m !! i) = if decide (i = id) then Ok a else ok_or NotFound (m !! i).
Proof.
  destruct (decide (i = id)) as [->|]; [by rewrite lookup_insert_eq|by rewrite lookup_insert_ne].
Qed.

Lemma bounded_set (s : mem_store) id seg n :
  bounded s → ms_next s ≤ n → id < n → data_id seg < n →
  bounded (mkStore (<[id := seg]> (ms_segs s)) (ms_datas s) (ms_del s) n).
Proof.
  intros [Hw Hd] Hn Hi Hdi. split; simpl.
  - intros i sg. rewrite lookup_insert. case_decide; [intros [= <-]; lia|].
    intros Hs. apply Hw in Hs. lia.
  - intros i Hdel. apply Hd in Hdel. lia.
Qed.

#[export] Instance mem_seg_trans_laws : SegTransLaws mem_store.
Proof.
  refine {| writable := bounded; deleted s id := id ∈ ms_del s |}.
  - intros s id seg Hw Hs%get_seg_Ok Hd. exists s. simpl. by rewrite (live_ok _ _ _ Hs Hd).
  - intros s id seg Hw. split; [|split; [done|split; [|done]]].
    + apply bounded_set; [done|lia|lia|lia].
    + intros i. apply ok_or_insert.
  - intros s id seg [Hw Hwd] Hs%get_seg_Ok Hd. simpl. rewrite (live_ok _ _ _ Hs Hd), bind_ok.
    eexists. split; [done|]. split; [|split; [done|intros i; simpl; set_solver]].
    split; [done|]. simpl. intros i [->%elem_of_singleton|Hi%Hwd]%elem_of_union; [by destruct (Hw _ _ Hs)|done].
  - intros s id a Hw. by exists s.
  - intros s id d Hw _. by exists s.
  - intros s id d Hw. eexists. split; [done|]. split; [done|]. split; [done|]. split; [done|].
    intros i. apply ok_or_insert.
  - intros s Hw. split; [done|]. split; [done|]. split; [done|]. simpl.
    intros i seg Hs%get_seg_Ok. apply Hw in Hs. lia.
Defined.

#[export] Instance mem_seg_create_laws : SegCreateLaws mem_store mem_writer.
Proof.
  refine {| vw_holds vw id d := vw = (id, d) |}.
  - intros s id Hw. eexists _, _. by split.
  - intros s vw id d b Hw ->. eexists _, _. by split.
  - intros s vw id d Hw ->. eexists. split; [done|]. split; [done|]. split; [done|]. split; [done|].
    intros i. apply ok_or_insert.
  - intros s seg Hw. eexists _, _. split; [done|]. pose proof Hw as [Hw1 Hw2].
    split; [apply bounded_set; [done|lia|lia|lia]|]. split; [done|].
    split; [intros Hd%Hw2; lia|]. split; [intros sg Hs%get_seg_Ok; apply Hw1 in Hs; lia|].
    split; [intros i; apply ok_or_insert|done].
  - intros s id Hw. by exists s.
Defined.

(** ** A small content: two chunks of three and two bytes, and a staged chunk [9 9] *)

Definition demo_seg : Segment :=
  mkSegment 5 5 11 [Chunk.mkChunk 0 3 1; Chunk.mkChunk 3 2 1].
Definition demo_stage : Segment := mkSegment 2 0 12 [Chunk.mkChunk 0 2 0].
Definition demo_store : mem_store :=
  mkStore {[1 := demo_seg; 2 := demo_stage]} {[11 := [1; 2; 3; 4; 5]; 12 := [9; 9]]} ∅ 20.
Definition demo_list : EntryList.EntryList :=
  EntryList.mkEntryList 5 0 [Entry.mkEntry 1 5 0 [Span.mkSpan 0 2 0 5 0]].
Definition demo_staged : EntryList.EntryList :=
  EntryList.mkEntryList 2 2 [Entry.mkEntry 2 2 2 [Span.mkSpan 0 1 0 2 2]].

Lemma demo_bounded : bounded demo_store.
Proof.
  split; [|by intros id Hd%elem_of_empty]. intros id seg. simpl. rewrite lookup_insert.
  case_decide; [by intros [= <-]; subst|]. rewrite lookup_singleton.
  case_decide; intros [= <-]; by subst.
Qed.

Lemma demo_list_ok : EntryList.ok demo_store demo_list ∧
  EntryList.bytes demo_store demo_list = [1; 2; 3; 4; 5].
Proof.
  split; [|done]. split; [|done]. split; [done|]. split; [|done].
  exists demo_seg, [1; 2; 3; 4; 5]. split; [done|]. split; [done|]. split; [|done].
  split; [|done]. split; [done|]. split; [|done].
  exists (Chunk.mkChunk 0 3 1), [Chunk.mkChunk 3 2 1]. by repeat split.
Qed.
Lemma demo_staged_ok : EntryList.ok demo_store demo_staged ∧
  EntryList.bytes demo_store demo_staged = [9; 9].
Proof.
  split; [|done]. split; [|done]. split; [done|]. split; [|done].
  exists demo_stage, [9; 9]. split; [done|]. split; [done|]. split; [|done].
  split; [|done]. split; [done|]. split; [|done].
  exists (Chunk.mkChunk 0 2 0), []. by repeat split.
Qed.
