(* ===== verification/ContentSpec.v ===== *)
(** * The content layer: what it guarantees.

    The theorems of the components of src/content/ and src/base/, with their instances on a
    small store in memory; at the end the whole pipeline: the bytes go through the chunker, the
    content writer with its chunk map and the segment writer into the store, and the staged
    content is merged into the file's content. *)
From S2P Require Import Prelude Base Address Segment Entry ChunkMap Append Link Merkle MerkleProofs Content Chunker Stage StageProofs MemStore.

(** ** Contents *)

Section contents.
Context {St : Type} `{!SegStore St} (crypto_hash : list byte → list byte).

(** C12: [Content::merge_from]. Merging a staged write of the non-empty bytes [D] at offset
    [o] into a content of bytes [data] succeeds and gives the content of [data] overwritten
    at [o] by [D] (extended when [D] runs past the end); its Merkle tree is the tree built
    afresh from the new bytes, although the code re-hashes only what changed. *)
Theorem merge_from_overwrites (st : St) (c other : Content) (data : list byte) (o : Z) (D : list byte) :
  content_ok crypto_hash st c data → staged_ok crypto_hash st other o D →
  o ≤ zlen data → 0 < zlen D → zlen data < 2 ^ 61 → o + zlen D < 2 ^ 61 →
  ∃ c', merge_from crypto_hash c other st = Ok c' ∧
    content_ok crypto_hash st c' (overwrite data o D).
Proof. apply merge_from_ok. Qed.

(** C13: [Content::truncate]. Cutting a content at an offset before its end succeeds and gives
    the content of the bytes before the cut, with the Merkle tree of those bytes. *)
Theorem truncate_takes (st : St) (c : Content) (data : list byte) (at_ : Z) :
  content_ok crypto_hash st c data → 0 ≤ at_ < zlen data → zlen data < 2 ^ 61 →
  ∃ c', truncate crypto_hash c at_ st = Ok c' ∧ content_ok crypto_hash st c' (ztake at_ data).
Proof. apply truncate_content_ok. Qed.

(** C14: [Reader::read]. Reading [n] bytes at any position of a well-formed content returns
    exactly the bytes there, as many as the content has, and moves the position past them;
    at or beyond the end it returns none. *)
Theorem read_returns_bytes (st : St) (c : Content) (data : list byte) (pos n : Z) :
  content_ok crypto_hash st c data → 0 ≤ pos → 0 ≤ n →
  ∃ d, read st (ents c) pos n = Ok (d, pos + zlen d) ∧ d = ztake n (zdrop pos data) ∧
    zlen d = Z.max 0 (Z.min n (zlen data - pos)).
Proof.
  intros (Hok & Hlo & <- & _) Hp Hn. eexists. split; [by apply read_ok|]. split; [done|].
  set (b := EntryList.bytes st (ents c)). rewrite zlen_ztake by lia. pose proof (zlen_nonneg b).
  destruct (decide (pos ≤ zlen b)); [rewrite zlen_zdrop by lia; lia|].
  rewrite zdrop_ge, zlen_nil by lia. lia.
Qed.
End contents.

Definition demo_hash (l : list byte) : list byte := ztake 32 (l ++ replicate 32 0).
Definition demo_content : Content :=
  mkContent demo_list (mtree_of demo_hash [1; 2; 3; 4; 5]) (mkLeaves 0 0 []).
Definition demo_write : Content :=
  mkContent demo_staged (mkTree 0 []) (wleaves demo_hash 2 [9; 9]).
Lemma demo_content_ok : content_ok demo_hash demo_store demo_content [1; 2; 3; 4; 5].
Proof. by destruct demo_list_ok. Qed.
Lemma demo_write_ok : staged_ok demo_hash demo_store demo_write 2 [9; 9].
Proof. by destruct demo_staged_ok. Qed.

Lemma merge_from_overwrites_witness :
  ∃ c', merge_from demo_hash demo_content demo_write demo_store = Ok c' ∧
    content_ok demo_hash demo_store c' [1; 2; 9; 9; 5].
Proof.
  apply (merge_from_overwrites demo_hash demo_store demo_content demo_write [1; 2; 3; 4; 5] 2 [9; 9]
    demo_content_ok demo_write_ok); unfold zlen; simpl; lia.
Defined.
Lemma truncate_takes_witness :
  ∃ c', truncate demo_hash demo_content 3 demo_store = Ok c' ∧
    content_ok demo_hash demo_store c' [1; 2; 3].
Proof.
  apply (truncate_takes demo_hash demo_store demo_content [1; 2; 3; 4; 5] 3 demo_content_ok);
    unfold zlen; simpl; lia.
Defined.
Lemma read_returns_bytes_witness :
  ∃ d, read demo_store demo_list 1 3 = Ok (d, 1 + zlen d) ∧ d = [2; 3; 4] ∧ zlen d = 3.
Proof.
  apply (read_returns_bytes demo_hash demo_store demo_content [1; 2; 3; 4; 5] 1 3 demo_content_ok);
    lia.
Defined.

(** ** References *)

Section references.
Context {St Hash M : Type} `{!SegStore St, !SegTrans St, !SegTransLaws St}.
Context `{!EqDecision Hash, !LinkedMapOps Hash ChunkMap.ChunkIdx M,
  !LinkedMap Hash ChunkMap.ChunkIdx M}.

(** C25: [EntryList::link]. When the segments of a list are alive, its spans in range and the
    counters have room, linking succeeds, deletes nothing, leaves all data alone and adds to
    the counter of each chunk exactly the number of spans of the list that cover it. *)
Theorem link_counts (s : St) (l : EntryList.EntryList) :
  link_pre s (EntryList.ents l) →
  ∃ s', link l s = Ok s' ∧ writable s' ∧ (∀ i, deleted s' i ↔ deleted s i) ∧
    (∀ i, get_segdata s' i = get_segdata s i) ∧
    ∀ id seg, get_seg s id = Ok seg → ∃ seg', get_seg s' id = Ok seg' ∧
      added (refs (EntryList.ents l) id) (Segment.chunks seg) (Segment.chunks seg') ∧
      Segment.len seg' = Segment.len seg ∧ Segment.data_id seg' = Segment.data_id seg ∧
      (Segment.seg_ok seg → Segment.seg_ok seg').
Proof. apply link_entries_ok. Qed.

(** C24: [EntryList::unlink]. When every chunk holds at least the references the list gives
    up, unlinking succeeds. A segment afterwards is either deleted, and then the list held
    every reference to it, or it is alive: every counter is lower by exactly the references
    given up and every chunk still referenced reads the same bytes, even when the segment
    was compacted. The chunk map only loses entries, and names no segment deleted here. *)
Theorem unlink_safe (s : St) (cm : ChunkMap.ChunkMap M) (l : EntryList.EntryList) :
  ChunkMap.ok (Hash:=Hash) cm → unlink_pre s (EntryList.ents l) →
  ∃ cm' s', unlink (Hash:=Hash) l cm s = Ok (cm', s') ∧ writable s' ∧
    map_shrunk (Hash:=Hash) cm s cm' s' ∧ (∀ i, deleted s i → deleted s' i) ∧
    ∀ id seg data, ¬ deleted s id → get_seg s id = Ok seg →
      get_segdata s (Segment.data_id seg) = Ok data → Segment.seg_ok seg →
      Segment.data_ok (Segment.chunks seg) data → zlen data < U64 →
      gone_or_unlinked (refs (EntryList.ents l) id) s s' id seg data.
Proof. apply unlink_entries_ok. Qed.
End references.

Abbreviation demo_map := (ChunkMap.ChunkMap (AssocMap.amap Z ChunkMap.ChunkIdx)).
Definition demo_cm : demo_map := ChunkMap.insert (Hash:=Z) (ChunkMap.new true) 77 1 0.
Lemma demo_cm_ok : ChunkMap.ok (Hash:=Z) demo_cm.
Proof. apply (ChunkMap.cm_insert_ok (Hash:=Z)); [apply ChunkMap.cm_new_ok|done]. Qed.

Lemma demo_chunks (P : Chunk.Chunk → Z → Prop) :
  P (Chunk.mkChunk 0 3 1) 0 → P (Chunk.mkChunk 3 2 1) 1 →
  ∀ i c, zget (Segment.chunks demo_seg) i = Some c → P c i.
Proof.
  intros H0 H1 i c [Hi Hc]%zget_Some. simpl in Hc. rewrite <- (Z2Nat.id i) by done.
  destruct (Z.to_nat i) as [|[|n]]; by simplify_eq/=.
Qed.
Lemma demo_seg_ok : Segment.seg_ok demo_seg.
Proof. split; [by repeat constructor|]. by repeat split. Qed.
Lemma demo_link_pre : link_pre demo_store (EntryList.ents demo_list).
Proof.
  split; [apply demo_bounded|]. intros e ->%list_elem_of_singleton. split; [set_solver|].
  exists demo_seg. split; [done|]. split; [apply demo_seg_ok|]. split; [by repeat constructor|].
  split; [|by apply demo_chunks]. apply Forall_singleton. left. intros i c _. revert i c.
  by apply demo_chunks.
Qed.
Lemma demo_unlink_pre : unlink_pre demo_store (EntryList.ents demo_list).
Proof.
  split; [apply demo_bounded|]. intros e ->%list_elem_of_singleton. split; [set_solver|].
  split; [done|]. exists demo_seg, [1; 2; 3; 4; 5]. split; [done|]. split; [done|].
  split; [apply demo_seg_ok|]. split; [by repeat constructor|]. split; [done|].
  split; [by repeat constructor|]. by apply demo_chunks.
Qed.

Lemma link_counts_witness :
  ∃ s', link demo_list demo_store = Ok s' ∧ ∃ seg', get_seg s' 1 = Ok seg' ∧
    added (refs (EntryList.ents demo_list) 1) (Segment.chunks demo_seg) (Segment.chunks seg').
Proof.
  destruct (link_counts demo_store demo_list demo_link_pre) as (s' & Hl & _ & _ & _ & Hs).
  exists s'. split; [exact Hl|]. destruct (Hs 1 demo_seg eq_refl) as (seg' & ? & ? & _). by exists seg'.
Defined.
Lemma unlink_safe_witness :
  ∃ cm' s', unlink (Hash:=Z) demo_list demo_cm demo_store = Ok (cm', s') ∧
    map_shrunk (Hash:=Z) demo_cm demo_store cm' s' ∧
    gone_or_unlinked (refs (EntryList.ents demo_list) 1) demo_store s' 1 demo_seg [1; 2; 3; 4; 5].
Proof.
  destruct (unlink_safe demo_store demo_cm demo_list demo_cm_ok demo_unlink_pre)
    as (cm' & s' & Hu & _ & Hm & _ & Hs).
  exists cm', s'. split; [exact Hu|]. split; [exact Hm|].
  apply Hs; first [done|apply demo_seg_ok|by repeat constructor|set_solver].
Defined.

(** ** The Merkle tree of a fresh content *)

Section merkle.
Context (crypto_hash : list byte → list byte).

(** [Writer::write] over a sequence of slices. *)
Definition write_all (w : Writer) (ds : list (list byte)) : res Writer :=
  foldM (write crypto_hash) w ds.

Lemma write_all_ok o D w ds :
  0 ≤ o → o + zlen D + zlen (concat ds) < 2 ^ 62 → written crypto_hash o D w →
  ∃ w', write_all w ds = Ok w' ∧ written crypto_hash o (D ++ concat ds) w'.
Proof.
  revert D w. induction ds as [|d ds IH]; intros D w Ho Hlt Hw.
  { exists w. rewrite app_nil_r. done. }
  simpl in Hlt. rewrite zlen_app in Hlt. pose proof (zlen_nonneg (concat ds)).
  destruct (write_ok crypto_hash o D w d) as (w1 & Heq & Hw1); [done|lia|done|].
  destruct (IH (D ++ d) w1) as (w2 & Heq2 & Hw2); [done|rewrite zlen_app; lia|done|].
  exists w2. unfold write_all in *. simpl. rewrite Heq, bind_ok. split; [done|].
  by rewrite app_assoc.
Qed.

(** C27: [merkle_tree::Writer]. However a byte string is cut into the slices handed to the
    writer, and wherever the write starts, the leaves it finishes with are the hashes of the
    256 KiB-aligned pieces of the written range; written from offset 0 they build the tree of
    the byte string. *)
Theorem writer_leaves (o : Z) (ds : list (list byte)) :
  0 ≤ o → o + zlen (concat ds) < 2 ^ 61 →
  ∃ w w', wtr_seek wtr_new o = Ok w ∧ write_all w ds = Ok w' ∧
    finish_with_leaves crypto_hash w' = Ok (wleaves crypto_hash o (concat ds)) ∧
    (o = 0 → build crypto_hash (wleaves crypto_hash 0 (concat ds)) = Ok (mtree_of crypto_hash (concat ds))).
Proof.
  intros Ho Hlt. destruct (wtr_seek_ok crypto_hash o Ho) as (w & Hs & Hw).
  pose proof (zlen_nonneg (concat ds)).
  destruct (write_all_ok o [] w ds) as (w' & Hw' & Hwr);
    [done|rewrite (zlen_nil (A:=byte)); lia|done|].
  exists w, w'. split; [done|]. split; [done|].
  split; [apply finish_ok; [done|lia|done]|]. intros ->. by apply build_wleaves.
Qed.
End merkle.
Lemma writer_leaves_witness :
  ∃ w w', wtr_seek wtr_new 3 = Ok w ∧ write_all demo_hash w [[1; 2]; []; [7]] = Ok w' ∧
    finish_with_leaves demo_hash w' = Ok (wleaves demo_hash 3 [1; 2; 7]).
Proof.
  destruct (writer_leaves demo_hash 3 [[1; 2]; []; [7]]) as (w & w' & H1 & H2 & H3 & _);
    [lia|by vm_compute|]. exists w, w'. split; [exact H1|]. split; [exact H2|exact H3].
Defined.

(** ** The chunk map *)

Section chunk_map.
Context {Hash M : Type} `{!EqDecision Hash, !LinkedMapOps Hash ChunkMap.ChunkIdx M,
  !LinkedMap Hash ChunkMap.ChunkIdx M}.
Implicit Types (c : ChunkMap.ChunkMap M) (h : Hash).

(** A map that has seen the operations of the list. *)
Inductive map_op := Ins (h : Hash) (id : Eid) (i : Z) | Get (h : Hash)
  | DelChunks (id : Eid) (ixs : list Z) | DelSeg (id : Eid).
Definition map_step c (o : map_op) : res (ChunkMap.ChunkMap M) :=
  match o with
  | Ins h id i => Ok (ChunkMap.insert (Hash:=Hash) c h id i)
  | Get h => '(_, c) ← ChunkMap.get_refresh c h; Ok c
  | DelChunks id ixs => Ok (ChunkMap.remove_chunks (Hash:=Hash) c id ixs)
  | DelSeg id => Ok (ChunkMap.remove_segment (Hash:=Hash) c id)
  end.

(** The locations inserted for [h] and not removed since; older than a later insert. *)
Definition stands (o : map_op) (h : Hash) (l : Eid * Z) : bool :=
  match o with
  | Ins h' id i => bool_decide (h ≠ h')
  | Get _ => true
  | DelChunks id ixs => negb (bool_decide (l.1 = id ∧ l.2 ∈ ixs))
  | DelSeg id => negb (bool_decide (l.1 = id))
  end.

Lemma lookup_map_step c o c' h l :
  ChunkMap.ok (Hash:=Hash) c → map_step c o = Ok c' → ChunkMap.lookup c' h = Some l →
  ChunkMap.ok (Hash:=Hash) c' ∧
  (o = Ins h l.1 l.2 ∨ (ChunkMap.lookup c h = Some l ∧ stands o h l = true)).
Proof.
  intros Hok. destruct o as [h' id i|h'|id ixs|id]; simpl.
  - intros [= <-]. destruct (ChunkMap.is_enabled c) eqn:He.
    + destruct (ChunkMap.cm_insert_ok c h' id i Hok He) as (Hok' & Hnew & Hold).
      intros Hl. split; [done|]. destruct (decide (h = h')) as [->|Hne].
      * left. rewrite Hnew in Hl. by injection Hl as <-.
      * right. rewrite bool_decide_true by done.
        destruct (Hold h Hne) as [Heq|[Heq _]]; [by rewrite <- Heq|congruence].
    + unfold ChunkMap.insert, ChunkMap.lookup. rewrite He. simpl. by rewrite He.
  - intros Hs Hl. destruct (ChunkMap.cm_get_refresh_ok c h' Hok) as (c1 & Hr & Hok1 & Hlk).
    rewrite Hr, bind_ok in Hs. injection Hs as <-. split; [done|]. right. by rewrite <- Hlk.
  - intros [= <-]. destruct (ChunkMap.remove_chunks_ok c id ixs Hok) as [Hok' Hlk].
    rewrite Hlk. destruct (ChunkMap.lookup c h) as [l'|]; [|done]. simpl.
    case_decide; [done|]. intros [= ->]. split; [done|]. right. by rewrite bool_decide_false.
  - intros [= <-]. destruct (ChunkMap.remove_segment_ok c id Hok) as [Hok' Hlk].
    rewrite Hlk. destruct (ChunkMap.lookup c h) as [l'|]; [|done]. simpl.
    case_decide; [done|]. intros [= ->]. split; [done|]. right. by rewrite bool_decide_false.
Qed.

Lemma map_step_total c o : ChunkMap.ok (Hash:=Hash) c → ∃ c', map_step c o = Ok c' ∧ ChunkMap.ok (Hash:=Hash) c'.
Proof.
  intros Hok. destruct o as [h' id i|h'|id ixs|id]; simpl.
  - eexists. split; [done|]. destruct (ChunkMap.is_enabled c) eqn:He; [by apply ChunkMap.cm_insert_ok|].
    unfold ChunkMap.insert. by rewrite He.
  - destruct (ChunkMap.cm_get_refresh_ok c h' Hok) as (c1 & -> & Hok1 & _). by exists c1.
  - eexists. split; [done|]. by apply ChunkMap.remove_chunks_ok.
  - eexists. split; [done|]. by apply ChunkMap.remove_segment_ok.
Qed.

(** C26: [ChunkMap]. Over any sequence of inserts, lookups and removals the chunk map of a file
    never fails and never holds 256 entries, and a location it gives for a hash is the one
    last inserted for that hash, with no removal of that chunk or of its segment since: a
    deduplicated write never refers to a retired chunk. *)
Theorem lookup_sound (ops : list map_op) (enabled : bool) :
  ∃ c, foldM map_step (ChunkMap.new enabled) ops = Ok c ∧
    zlen (lm_entries (ChunkMap.map c)) < ChunkMap.INDEX_MAP_CAPACITY ∧
    ∀ h l, ChunkMap.lookup c h = Some l → ∃ before after,
      ops = before ++ Ins h l.1 l.2 :: after ∧ forallb (λ o, stands o h l) after = true.
Proof.
  induction ops as [|o ops IH] using rev_ind.
  { exists (ChunkMap.new enabled). pose proof (ChunkMap.cm_new_ok (Hash:=Hash) (M:=M) enabled) as Hok.
    split; [done|]. split; [apply Hok|]. intros h l. unfold ChunkMap.lookup. simpl.
    rewrite lm_get_new. by destruct enabled. }
  destruct IH as (c & Hc & _ & Hl).
  assert (Hok : ChunkMap.ok (Hash:=Hash) c).
  { clear Hl. revert c Hc. induction ops as [|o' ops IH] using rev_ind; intros c.
    - intros [= <-]. apply ChunkMap.cm_new_ok.
    - rewrite foldM_app. intros (c1 & H1 & H2)%bind_Ok_inv. simpl in H2.
      apply bind_Ok_inv in H2 as (c2 & H2 & [= <-]). apply IH in H1.
      destruct (map_step_total c1 o' H1) as (c3 & H3 & ?). congruence. }
  destruct (map_step_total c o Hok) as (c' & Hs & Hok'). exists c'.
  split; [by rewrite foldM_app, Hc, bind_ok; simpl; rewrite Hs|]. split; [apply Hok'|].
  intros h l Hl'. destruct (lookup_map_step c o c' h l Hok Hs Hl') as [_ [->|[Hl1 Hst]]].
  - by exists ops, [].
  - destruct (Hl h l Hl1) as (b & a & -> & Ha). exists b, (a ++ [o]).
    rewrite <- app_assoc. split; [done|]. rewrite forallb_app, Ha. simpl. by rewrite Hst.
Qed.
End chunk_map.

Abbreviation demo_amap := (AssocMap.amap Z ChunkMap.ChunkIdx).
Lemma lookup_sound_witness :
  ∃ c : ChunkMap.ChunkMap demo_amap,
    foldM (map_step (Hash:=Z)) (ChunkMap.new (Hash:=Z) true)
      [Ins 7 1 0; Ins 8 1 1; Get 7; DelChunks 1 [1]] = Ok c ∧
    ChunkMap.lookup c 7 = Some (1, 0) ∧ ChunkMap.lookup c 8 = None ∧
    ∃ before after, [Ins 7 1 0; Ins 8 1 1; Get 7; DelChunks 1 [1]] = before ++ Ins 7 1 0 :: after.
Proof.
  destruct (lookup_sound (Hash:=Z) (M:=demo_amap)
    [Ins 7 1 0; Ins 8 1 1; Get 7; DelChunks 1 [1]] true) as (c & Hc & _ & Hl).
  assert (H7 : ChunkMap.lookup c 7 = Some (1, 0) ∧ ChunkMap.lookup c 8 = None).
  { revert Hc. vm_compute. by intros [= <-]. }
  exists c. split; [exact Hc|]. destruct H7 as [H7 H8]. split; [exact H7|]. split; [exact H8|].
  destruct (Hl 7 (1, 0) H7) as (b & a & Heq & _). by exists b, a.
Defined.

(** ** Segments *)

(** [Segment::ref_chunks] and [deref_chunks]. Referencing a range of chunks of a well-formed
    segment and giving the references up again succeeds and restores the segment exactly, its
    [used] byte count included. *)
Theorem ref_deref_restores (s : Segment.Segment) (b e : Z) :
  Segment.seg_ok s → 0 ≤ b → e ≤ zlen (Segment.chunks s) →
  (∀ i c, b ≤ i < e → zget (Segment.chunks s) i = Some c → Chunk.refcnt c + 1 < U32) →
  Segment.linkable s b e →
  ∃ s', Segment.ref_chunks s b e = Ok s' ∧ Segment.seg_ok s' ∧
    Segment.moved 1 b e (Segment.chunks s) (Segment.chunks s') ∧
    Segment.deref_chunks s' b e = Ok s.
Proof.
  intros Hok Hb He Hr Hlk.
  destruct (Segment.ref_chunks_ok s b e Hok Hb He Hr Hlk) as (s1 & Heq & Hok1 & Hm & Hl & Hd).
  exists s1. split; [done|]. split; [done|]. split; [done|].
  assert (Hz : zlen (Segment.chunks s1) = zlen (Segment.chunks s)).
  { eapply added_zlen, moved_added, Hm. }
  destruct (Segment.deref_chunks_ok s1 b e Hok1 Hb) as (s2 & -> & Hok2 & Hm2 & Hl2 & Hd2); [lia| |].
  { intros i c Hi Hc. rewrite Hm in Hc. destruct (zget (Segment.chunks s) i) as [c0|] eqn:Hc0; [|done].
    injection Hc as <-. rewrite bool_decide_true by done. simpl.
    destruct Hok as (HF & _). pose proof (Segment.zget_Forall _ _ _ _ Hc0 HF) as (_ & _ & [? _] & _). lia. }
  f_equal. apply Segment.seg_ext; try done; [|lia|congruence]. by eapply Segment.moved_inv.
Qed.

Lemma ref_deref_restores_witness :
  ∃ s', Segment.ref_chunks demo_seg 0 2 = Ok s' ∧ Segment.deref_chunks s' 0 2 = Ok demo_seg.
Proof.
  destruct (ref_deref_restores demo_seg 0 2 demo_seg_ok) as (s' & H1 & _ & _ & H2).
  - lia.
  - by vm_compute.
  - intros i c _. revert i c. by apply demo_chunks.
  - left. intros i c _. revert i c. by apply demo_chunks.
  - exists s'. split; [exact H1|exact H2].
Defined.

(** [Segment::shrink]. Shrinking a well-formed segment succeeds; the new data holds exactly
    the chunks still referenced, in order and without gaps, each reading the same bytes as
    before; retired chunks keep their slot, so chunk indices stay valid, and are the indices
    returned; the old data is deleted and the new saved under a fresh id. *)
Theorem shrink_compacts (s : Segment.Segment) (data : list byte) (nid : Eid) :
  Segment.seg_ok s → Segment.data_ok (Segment.chunks s) data → zlen data < U64 →
  ∃ s' buf, Segment.shrink s data nid
      = Ok (s', [Segment.AddToTrans (Segment.data_id s) Delete; Segment.SaveData nid buf;
                 Segment.AddToTrans nid New], Segment.orphans 0 (Segment.chunks s)) ∧
    Segment.seg_ok s' ∧ Segment.data_id s' = nid ∧ Segment.len s' = Segment.used s ∧
    Segment.used s' = Segment.used s ∧ zlen buf = Segment.used s ∧
    Segment.packed 0 (Segment.chunks s') ∧
    Forall2 (Segment.shrunk data buf) (Segment.chunks s) (Segment.chunks s').
Proof.
  intros Hok Hd Hdl.
  destruct (Segment.shrink_ok s data nid Hok Hd Hdl) as (s' & buf & Heq & Hid & Hl & Hu & Hb & H2 & Hp & Hls).
  exists s', buf. split; [done|]. split; [|done]. destruct Hok as (HF & Hu0 & Hle & Hlt).
  destruct (Segment.shrunk_ok _ _ _ _ H2) as [HF' _]; [lia|done|].
  split; [done|]. split; [congruence|]. lia.
Qed.

Lemma shrink_compacts_witness :
  ∃ s' buf, Segment.shrink (Segment.mkSegment 5 2 11 [Chunk.mkChunk 0 3 0; Chunk.mkChunk 3 2 1])
      [1; 2; 3; 4; 5] 12
    = Ok (s', [Segment.AddToTrans 11 Delete; Segment.SaveData 12 buf; Segment.AddToTrans 12 New], [0]) ∧
    zlen buf = 2.
Proof.
  destruct (shrink_compacts (Segment.mkSegment 5 2 11 [Chunk.mkChunk 0 3 0; Chunk.mkChunk 3 2 1])
    [1; 2; 3; 4; 5] 12) as (s' & buf & H1 & _ & _ & _ & _ & H2 & _).
  - split; [by repeat constructor|]. by repeat split.
  - by repeat constructor.
  - done.
  - exists s', buf. split; [exact H1|exact H2].
Defined.

(** ** The chunker *)

(** C11: [Chunker::write], [flush] and [into_inner]. However the stream is sliced into writes,
    a destination that takes every chunk whole receives the same chunks, those the rolling
    hash cuts; their bytes are the stream's, and every chunk is between the least and the
    greatest chunk size, only the last may be shorter. No write fails or loops. *)
Theorem chunker_cuts_stream {D : Type} `{!Write D} (ps : Chunker.ChunkerParams)
    (R : D → list (list byte) → Prop) (d : D) (srcs : list (list byte)) :
  let F := Chunker.chunks_of ps (concat srcs) in
  Chunker.params_ok ps →
  (∀ d cs c, R d cs → cs ++ [c] `prefix_of` F → 0 < zlen c ≤ Chunker.MAX_SIZE →
    ∃ d', write_to d c = Ok (zlen c, d') ∧ R d' (cs ++ [c])) →
  (∀ d cs, R d cs → ∃ d', flush_to d = Ok d' ∧ R d' cs) →
  R d [] → Forall (Forall Chunker.is_byte) srcs →
  (∃ c d', foldM Chunker.write_all (Chunker.new ps d) srcs = Ok c ∧
     Chunker.into_inner c = Ok d' ∧ R d' F) ∧
  concat F = concat srcs ∧ Chunker.sized F.
Proof.
  intros F Hps Hw Hf Hd Hb. split; [by apply (Chunker.chunker_ok ps Hps R F Hw Hf)|].
  by apply Chunker.split_ok.
Qed.

(** A destination that keeps the chunks. *)
#[local] Instance recorder : Write (list (list byte)) := {|
  write_to cs c := Ok (zlen c, cs ++ [c]); flush_to cs := Ok cs
|}.

Lemma chunker_cuts_stream_witness :
  ∃ ps c, Chunker.params_new = Ok ps ∧
    foldM Chunker.write_all (Chunker.new ps ([] : list (list byte))) [[1; 2]; []; [3]] = Ok c ∧
    Chunker.into_inner c = Ok [[1; 2; 3]].
Proof.
  destruct Chunker.params_new_ok as (ps & Hn & Hps). exists ps.
  destruct (chunker_cuts_stream ps (@eq (list (list byte))) [] [[1; 2]; []; [3]] Hps)
    as ((c & d & Hc & Hd & Hr) & _).
  - clear Hn. intros d cs c -> _ _. by eexists.
  - clear Hn. intros d cs ->. by eexists.
  - clear Hn. done.
  - clear Hn. by repeat constructor.
  - exists c. split; [exact Hn|]. split; [exact Hc|]. rewrite Hd, Hr. clear. vm_compute. reflexivity.
Defined.

(** ** The pipeline *)

Section pipeline.
Context (crypto_hash : list byte → list byte).
Context {St VW M : Type} `{!SegStore St, !SegTrans St, !SegTransLaws St}.
Context `{!SegCreate St VW, !SegCreateLaws St VW}.
Context `{!LinkedMapOps (list byte) ChunkMap.ChunkIdx M, !LinkedMap (list byte) ChunkMap.ChunkIdx M}.
Context (C : list byte → Prop) (C_inj : ∀ a b, C a → C b → crypto_hash a = crypto_hash b → a = b).

(** C4: the write path of a file. From a store whose chunk map names chunks by their hashes,
    writing any byte slices at an offset within a content through the store's [Writer] and
    merging the result gives the content overwritten by those bytes, whatever chunks were
    found in the chunk map and whatever segments were filled on the way, provided the chunks
    in play do not collide under the hash. No other content of the store changes, nothing is
    deleted, and the chunk map again names chunks by their hashes. *)
Theorem write_overwrites (s : St) (cm : ChunkMap.ChunkMap M) (K : Locs) (ps : Chunker.ChunkerParams)
    (c : Content) (data : list byte) (o : Z) (srcs : list (list byte)) :
  Chunker.params_ok ps → ready crypto_hash C s cm K → content_ok crypto_hash s c data →
  0 ≤ o ≤ zlen data → 0 < zlen (concat srcs) → zlen data < 2 ^ 61 → o + zlen (concat srcs) < 2 ^ 61 →
  Forall (Forall Chunker.is_byte) srcs → Forall C (Chunker.chunks_of ps (concat srcs)) →
  ∃ w0 w1 w2 staged cm' s' c' K', StoreWriter.new crypto_hash ps cm s = Ok w0 ∧
    StoreWriter.seek w0 (Start o) = Ok w1 ∧
    foldM (StoreWriter.write_all crypto_hash) w1 srcs = Ok w2 ∧
    StoreWriter.finish crypto_hash w2 = Ok (staged, cm', s') ∧
    merge_from crypto_hash c staged s' = Ok c' ∧
    content_ok crypto_hash s' c' (overwrite data o (concat srcs)) ∧
    (∀ c0 data0, content_ok crypto_hash s c0 data0 → content_ok crypto_hash s' c0 data0) ∧
    (∀ i, deleted s' i ↔ deleted s i) ∧ ready crypto_hash C s' cm' K'.
Proof.
  intros Hps Hr Hc Ho Hpos Hlt Hlt' Hb HC.
  destruct (store_write_ok crypto_hash C C_inj s cm K o ps srcs Hps Hr)
    as (w0 & w1 & w2 & staged & cm' & s' & K' & H0 & H1 & H2 & H3 & Hst & Hg & Hr' & Hdel);
    [lia|done..|].
  assert (Hgc : ∀ c0 data0, content_ok crypto_hash s c0 data0 → content_ok crypto_hash s' c0 data0).
  { intros c0 data0. by apply content_grows. }
  destruct (merge_from_ok crypto_hash s' c staged data o (concat srcs) (Hgc _ _ Hc) Hst)
    as (c' & H4 & Hc'); [lia..|].
  by exists w0, w1, w2, staged, cm', s', c', K'.
Qed.
End pipeline.

(** The identity as the hash: no two byte strings collide. *)
Abbreviation byte_map := (ChunkMap.ChunkMap (AssocMap.amap (list byte) ChunkMap.ChunkIdx)).
Definition plain_content : Content :=
  mkContent demo_list (mtree_of id [1; 2; 3; 4; 5]) (mkLeaves 0 0 []).

Lemma demo_ready : ready id (λ _, True) demo_store (ChunkMap.new true : byte_map) (λ _ _, False).
Proof.
  split; [apply demo_bounded|]. split; [done|].
  split; [apply ChunkMap.cm_new_ok|]. intros h i j. unfold ChunkMap.lookup, ChunkMap.new. simpl. done.
Qed.

Lemma write_overwrites_witness :
  ∃ ps, Chunker.params_new = Ok ps ∧
  ∃ w0 w1 w2 staged cm' s' c',
    StoreWriter.new id ps (ChunkMap.new true : byte_map) demo_store = Ok w0 ∧
    StoreWriter.seek w0 (Start 4) = Ok w1 ∧
    foldM (StoreWriter.write_all id) w1 [[7]; [8; 9]] = Ok w2 ∧
    StoreWriter.finish id w2 = Ok (staged, cm', s') ∧
    merge_from id plain_content staged s' = Ok c' ∧
    content_ok id s' c' [1; 2; 3; 4; 7; 8; 9].
Proof.
  destruct Chunker.params_new_ok as (ps & Hn & Hps). exists ps. split; [exact Hn|].
  destruct (write_overwrites id (λ _, True) ltac:(done) demo_store (ChunkMap.new true : byte_map)
    (λ _ _, False) ps plain_content [1; 2; 3; 4; 5] 4 [[7]; [8; 9]] Hps demo_ready)
    as (w0 & w1 & w2 & staged & cm' & s' & c' & K' & H0 & H1 & H2 & H3 & H4 & H5 & _).
  - clear Hn. by destruct demo_list_ok.
  - clear Hn. unfold zlen; simpl; lia.
  - clear Hn. done.
  - clear Hn. done.
  - clear Hn. done.
  - clear Hn. by repeat constructor.
  - clear Hn. by apply Forall_true.
  - exists w0, w1, w2, staged, cm', s', c'.
    split; [exact H0|]. split; [exact H1|]. split; [exact H2|]. split; [exact H3|]. by split.
Defined.
