(* ===== verification/BaseSpec.v ===== *)
(** * The base layer and the volume's addresses: what they guarantee. *)
From S2P Require Import Prelude Base Address.

(** ** The LRU cache *)

Section lru.
Context {K V M : Type} `{EqDecision K, !LinkedMapOps K V M, !LinkedMap K V M,
  !Meter V, !Pinnable V}.
Implicit Types (l : Lru.Lru M) (k : K) (v : V).

Inductive lru_op := LruInsert k v | LruGet k | LruRemove k.
Definition lru_step l (o : lru_op) : res (Lru.Lru M) :=
  match o with
  | LruInsert k v => '(_, l) ← Lru.insert k v l; Ok l
  | LruGet k => Ok (Lru.get_refresh (V:=V) k l).2
  | LruRemove k => Ok (Lru.remove (V:=V) k l).2
  end.

Definition countable : Prop := ∀ v : V, measure v = 1 ∧ is_pinned v = false.

(** What holds between the operations, [n] of them so far. *)
Definition lru_inv (B cap n : Z) l : Prop :=
  Lru.lru_ok l ∧ Lru.capacity l = cap ∧ Lru.total (Lru.map l) ≤ B * n ∧
  (countable → Lru.total (Lru.map l) ≤ cap).

Context (B cap : Z) (measure_bound : ∀ v : V, 0 ≤ measure v ≤ B) (B_nonneg : 0 ≤ B)
  (cap_pos : 0 < cap).

Lemma measure_nonneg (v : V) : 0 ≤ measure v.
Proof. apply measure_bound. Qed.
Lemma total_remove_lru_le l : Lru.lru_ok l →
  Lru.total (Lru.map (Lru.remove_lru l).2) ≤ Lru.total (Lru.map l).
Proof.
  intros _. unfold Lru.remove_lru. destruct (Lru.first_unpinned _) as [[k v]|] eqn:Hf; [|done].
  simpl. rewrite Lru.total_remove. case_match; [|lia].
  pose proof (measure_nonneg v0). lia.
Qed.
Lemma remove_lru_capacity l : Lru.capacity (Lru.remove_lru l).2 = Lru.capacity l.
Proof. unfold Lru.remove_lru. by repeat case_match. Qed.
Lemma total_remove_lru_lt l : countable → 0 < Lru.total (Lru.map l) →
  Lru.total (Lru.map (Lru.remove_lru l).2) = Lru.total (Lru.map l) - 1.
Proof.
  intros Hc Ht. unfold Lru.remove_lru. destruct (Lru.first_unpinned _) as [[k v]|] eqn:Hf.
  - apply Lru.first_unpinned_get in Hf as [Hk _]. simpl.
    rewrite Lru.total_remove, Hk. by destruct (Hc v) as [-> _].
  - exfalso. unfold Lru.first_unpinned, Lru.total in *.
    destruct (lm_entries (Lru.map l)) as [|[k v] es]; [done|].
    rewrite filter_cons_True in Hf by (simpl; apply Hc). done.
Qed.

Lemma lru_step_inv l o n :
  lru_inv B cap n l → 0 ≤ n → B * (n + 1) < 2 ^ 62 →
  ∃ l', lru_step l o = Ok l' ∧ lru_inv B cap (n + 1) l'.
Proof.
  intros (Hok & Hcap & Ht & Hc) Hn Hlt. destruct o as [k v|k|k]; simpl.
  - pose proof (measure_bound v).
    destruct (Lru.insert_unfold measure_nonneg k v l) as [Hok1 ->]; [lia|done|lia|].
    set (l1 := Lru.mkLru _ _ _) in *. simpl. rewrite Hcap. eexists. split; [done|].
    assert (Ht1 : Lru.total (Lru.map l1) ≤ B * (n + 1) ∧
      (countable → Lru.total (Lru.map l1) ≤ cap + 1)).
    { unfold l1. simpl. rewrite Lru.total_insert. split.
      - case_match; [pose proof (measure_nonneg v0); lia|lia].
      - intros Hcc. destruct (Hcc v) as [-> _].
        case_match; [pose proof (measure_nonneg v0)|]; specialize (Hc Hcc); lia. }
    destruct Ht1 as [Ht1 Hc1]. destruct (cap <? _) eqn:Hlt1; zify_b.
    + split; [by apply Lru.remove_lru_ok; [apply measure_nonneg|]|].
      rewrite remove_lru_capacity. split; [done|].
      pose proof (total_remove_lru_le l1 Hok1). split; [lia|]. intros Hcc.
      destruct Hok1 as [Hu1 _]. rewrite total_remove_lru_lt; [|done|].
      * specialize (Hc1 Hcc). lia.
      * simpl in Hlt1. unfold l1. simpl. lia.
    + split; [done|]. split; [done|]. split; [done|]. intros _. done.
  - eexists. split; [done|]. unfold lru_inv.
    pose proof (Lru.total_refresh (V:=V) k (Lru.map l)) as Hr.
    pose proof (Lru.get_refresh_ok (V:=V) k l Hok) as Hok'. revert Hr Hok'.
    unfold Lru.get_refresh. destruct (lm_get_refresh k (Lru.map l)) as [o m]. simpl.
    intros -> Hok'. split; [done|]. split; [done|]. split; [lia|done].
  - eexists. split; [done|]. unfold lru_inv.
    pose proof (Lru.total_remove (V:=V) k (Lru.map l)) as Hr.
    pose proof (Lru.remove_ok measure_nonneg k l Hok) as Hok'. revert Hr Hok'.
    intros Hr Hok'. assert (Hle : Lru.total (Lru.map (Lru.remove (V:=V) k l).2) ≤ Lru.total (Lru.map l)
      ∧ Lru.capacity (Lru.remove (V:=V) k l).2 = Lru.capacity l).
    { split; [|unfold Lru.remove; by destruct (lm_remove k (Lru.map l)) as [[v|] m]].
      replace (Lru.map (Lru.remove (V:=V) k l).2) with (lm_remove (V:=V) k (Lru.map l)).2
        by (unfold Lru.remove; by destruct (lm_remove k (Lru.map l)) as [[v|] m]).
      rewrite Hr. destruct (lm_get k (Lru.map l)) as [v|]; [pose proof (measure_nonneg v)|]; lia. }
    split; [done|]. split; [lia|]. split; [lia|]. intros Hcc. specialize (Hc Hcc). lia.
Qed.

(** C28: [Lru]. Over any sequence of inserts, lookups and removals no operation fails and the
    [used] account is the sum of the measures of the cached values; with the count meter and
    nothing pinned the cache never holds more values than its capacity. *)
Theorem lru_accounts (ops : list lru_op) :
  B * zlen ops < 2 ^ 62 →
  ∃ l, foldM lru_step (Lru.new (V:=V) cap) ops = Ok l ∧
    Lru.used l = Lru.total (Lru.map l) ∧ Lru.capacity l = cap ∧
    (countable → zlen (lm_entries (Lru.map l)) ≤ cap).
Proof.
  intros Hlt. enough (∃ l, foldM lru_step (Lru.new (V:=V) cap) ops = Ok l ∧
    lru_inv B cap (zlen ops) l) as (l & Hl & [Hu _] & Hcap & _ & Hc).
  { exists l. split; [done|]. split; [done|]. split; [done|]. intros Hcc.
    specialize (Hc Hcc). unfold Lru.total in Hc. etrans; [|exact Hc]. clear Hc.
    induction (lm_entries (Lru.map l)) as [|[k v] es IHes]; [done|].
    rewrite zlen_cons, zsum_cons. pose proof (proj1 (Hcc v)) as H1. cbn [snd]. rewrite H1. lia. }
  induction ops as [|o ops IH] using rev_ind.
  { eexists. split; [done|]. unfold lru_inv, Lru.lru_ok, Lru.total. simpl.
    rewrite lm_entries_new. unfold zlen. simpl. repeat split; lia. }
  rewrite zlen_app, zlen_cons, zlen_nil in *. pose proof (zlen_nonneg ops).
  destruct IH as (l & Hl & Hinv); [lia|].
  destruct (lru_step_inv l o (zlen ops) Hinv) as (l' & Hs & Hinv'); [done|lia|].
  exists l'. rewrite foldM_app, Hl, bind_ok. simpl. rewrite Hs, bind_ok. split; [done|].
  by replace (zlen ops + (0 + 1)) with (zlen ops + 1) by lia.
Qed.
End lru.

#[local] Instance demo_meter : Meter Z := λ _, 1.
#[local] Instance demo_pin : Pinnable Z := λ _, false.
Lemma lru_accounts_witness :
  ∃ l : Lru.Lru (AssocMap.amap Z Z),
    foldM lru_step (Lru.new (K:=Z) (V:=Z) 2) [LruInsert 1 10; LruInsert 2 20; LruGet 1; LruInsert 3 30] = Ok l ∧
    Lru.used l = 2 ∧ lm_entries (Lru.map l) = [(1, 10); (3, 30)] ∧ zlen (lm_entries (Lru.map l)) ≤ 2.
Proof.
  destruct (lru_accounts (M:=AssocMap.amap Z Z) 1 2 (λ _, conj Z.le_0_1 (Z.le_refl 1))
    Z.le_0_1 Z.lt_0_2 [LruInsert 1 10; LruInsert 2 20; LruGet 1; LruInsert 3 30])
    as (l & Hl & Hu & _ & Hc); [by vm_compute|].
  exists l. split; [exact Hl|].
  assert (Hv : Lru.used l = 2 ∧ lm_entries (Lru.map l) = [(1, 10); (3, 30)]).
  { revert Hl. vm_compute. by intros [= <-]. }
  destruct Hv as [Hv1 Hv2]. split; [exact Hv1|]. split; [exact Hv2|]. apply Hc. intros v. by split.
Defined.

(** ** Block addresses *)

(** [Addr::divide_to_frames]. Dividing a well-formed address succeeds; every frame but the
    last has exactly sixteen blocks and 128 KiB, the last is not empty and holds the remaining
    bytes, the lengths add up to the address's, the blocks of the frames are those of the
    address in order and every piece carries its byte offset in the address. *)
Theorem divide_to_frames_partitions (a : Addr.Addr) :
  Addr.addr_ok a → Addr.list_ a ≠ [] →
  ∃ frames, Addr.divide_to_frames a = Ok frames ∧ AddrProofs.frames_ok a frames.
Proof. apply AddrProofs.divide_to_frames_ok. Qed.

Definition demo_addr : Addr.Addr :=
  Addr.mkAddr (20 * 8192 - 5) [LocSpan.new 100 7 0; LocSpan.new 300 13 (7 * 8192)].
Lemma divide_to_frames_partitions_witness :
  ∃ frames, Addr.divide_to_frames demo_addr = Ok frames ∧ AddrProofs.frames_ok demo_addr frames.
Proof.
  apply (divide_to_frames_partitions demo_addr); [|done].
  split; [split; [by repeat constructor|done]|by vm_compute].
Defined.

(** [Span::divide_by]. Cutting a block span into [size]-aligned units succeeds and gives
    non-empty pieces, each inside one unit, whose blocks are those of the span in order. *)
Theorem divide_by_units (s : Span.Span) (size : Z) :
  0 < size → Span.span_ok s → Span.begin s + Span.cnt s + size < U64 →
  ∃ l, Span.divide_by s size = Ok l ∧
    concat (Span.blocks <$> l) = Span.blocks s ∧ Forall (Span.in_unit size) l.
Proof. apply Span.divide_by_ok. Qed.
Lemma divide_by_units_witness :
  ∃ l, Span.divide_by (Span.mkSpan 250 20) 256 = Ok l ∧ Forall (Span.in_unit 256) l.
Proof.
  destruct (divide_by_units (Span.mkSpan 250 20) 256) as (l & H1 & _ & H2); [lia|by repeat split|done|].
  exists l. split; [exact H1|exact H2].
Defined.
