(* ===== verification/Fnode.v ===== *)
(** * src/fs/fnode.rs and the content map of src/content/store.rs: files, directories and their versions.

    Fnodes are shared objects: the state maps an id to what its cow shows, together with the
    caches by which a directory finds its children. The contents themselves are below an
    interface; ids, the clock, and which calls of the transaction manager or the volume fail
    are drawn from an environment. *)
From stdpp Require Import strings.
From S2P Require Import Prelude Run Base Segment.

(** ** The world around *)

(** [env_fault]: the error of the next call that stores or loads; [env_alive]: whether a weak
    reference to the fnode can still be upgraded. *)
Class Env (E : Type) := {
  env_eid : E → Eid * E;
  env_now : E → Z * E;
  env_fault : E → option Error * E;
  env_alive : Eid → E → bool * E
}.
#[export] Hint Mode Env ! : typeclass_instances.

(** What fnodes need of contents: [C] is a content, [K] a chunk map, [S] the segments. *)
Class ContentLayer (C K S Hash : Type) := {
  ct_new : C;
  ct_len : C → Z;
  ct_hash : C → Hash;
  ct_end_offset : C → Z;
  ct_link : C → S → res S;
  ct_unlink : C → K → S → res (K * S);
  ct_unlink_weak : C → K → S → res (K * S);
  ct_merge_from : C → C → S → res (C * S);
  ct_truncate : C → Z → S → res (C * S);
  chk_new : bool → K
}.
#[export] Hint Mode ContentLayer - - - - : typeclass_instances.

(** ** Data *)

Module FileType.
Inductive FileType : Set := File | Dir.
#[global] Instance FileType_eq_dec : EqDecision FileType.
Proof. solve_decision. Defined.
Definition is_file (t : FileType) : bool := bool_decide (t = File).
Definition is_dir (t : FileType) : bool := bool_decide (t = Dir).
Definition default : FileType := File.
Definition into_i32 (t : FileType) : Z := match t with File => 0 | Dir => 1 end.
End FileType.
Import FileType(FileType, File, Dir).
Export (hints) FileType.

Definition DEFAULT_VERSION_LIMIT : Z := 1.
Record Options := mkOptions { version_limit : Z; dedup_chunk : bool; dedup_file : bool }.
Definition default_options : Options := mkOptions DEFAULT_VERSION_LIMIT false false.

Module ChildEntry.
Record ChildEntry := mkChild { id : Eid; ftype : FileType; name : string }.
Definition new (i : Eid) (t : FileType) (n : string) : ChildEntry := mkChild i t n.
End ChildEntry.

Module Version.
Record Version := mkVersion { num : Z; content_id : Eid; content_len : Z; ctime : Z }.
End Version.

Module Metadata.
Record Metadata := mkMetadata { ftype : FileType; content_len : Z; curr_version : Z; ctime : Z; mtime : Z }.
Definition is_dir (m : Metadata) : bool := FileType.is_dir (ftype m).
Definition is_file (m : Metadata) : bool := FileType.is_file (ftype m).
End Metadata.

Module DirEntry.
Record DirEntry (P : Type) := mkEntry { path : P; name : string; metadata : Metadata.Metadata }.
Arguments mkEntry {P}. Arguments path {P}. Arguments name {P}. Arguments metadata {P}.
End DirEntry.

(** [PinChecker] pins nothing; outside a transaction [CowPinChecker] pins nothing either, and
    fnodes are loaded only there. *)
#[export] Instance weak_meter : Meter Eid := λ _, 1.
#[export] Instance weak_pin : Pinnable Eid := λ _, false.

Module Fnode.
Record Fnode (K SN : Type) := mkFnode {
  ftype : FileType; opts : Options; ctime : Z; mtime : Z;
  kids : list ChildEntry.ChildEntry; vers : list Version.Version; chk_map : K;
  parent : option Eid; sub_nodes : Lru.Lru SN
}.
Arguments mkFnode {K SN}. Arguments ftype {K SN}. Arguments opts {K SN}. Arguments ctime {K SN}. Arguments mtime {K SN}.
Arguments kids {K SN}. Arguments vers {K SN}. Arguments chk_map {K SN}. Arguments parent {K SN}. Arguments sub_nodes {K SN}.

Definition SUB_NODES_CNT : Z := 8.

Section data.
Context {K SN : Type} `{!LinkedMapOps string Eid SN}.
Implicit Types (f : Fnode K SN).

Definition default_sub_nodes : Lru.Lru SN := Lru.new (K:=string) (V:=Eid) SUB_NODES_CNT.

Definition set_kids (l : list ChildEntry.ChildEntry) f : Fnode K SN :=
  mkFnode (ftype f) (opts f) (ctime f) (mtime f) l (vers f) (chk_map f) (parent f) (sub_nodes f).
Definition set_vers (l : list Version.Version) f : Fnode K SN :=
  mkFnode (ftype f) (opts f) (ctime f) (mtime f) (kids f) l (chk_map f) (parent f) (sub_nodes f).
Definition set_mtime (t : Z) f : Fnode K SN :=
  mkFnode (ftype f) (opts f) (ctime f) t (kids f) (vers f) (chk_map f) (parent f) (sub_nodes f).
Definition set_chk_map (k : K) f : Fnode K SN :=
  mkFnode (ftype f) (opts f) (ctime f) (mtime f) (kids f) (vers f) k (parent f) (sub_nodes f).
Definition set_parent (p : option Eid) f : Fnode K SN :=
  mkFnode (ftype f) (opts f) (ctime f) (mtime f) (kids f) (vers f) (chk_map f) p (sub_nodes f).
Definition set_sub_nodes (l : Lru.Lru SN) f : Fnode K SN :=
  mkFnode (ftype f) (opts f) (ctime f) (mtime f) (kids f) (vers f) (chk_map f) (parent f) l.

Definition is_file f : bool := bool_decide (ftype f = File).
Definition is_dir f : bool := bool_decide (ftype f = Dir).
Definition is_root f : bool := bool_decide (parent f = None).
Definition has_child (n : string) f : bool := existsb (λ c, bool_decide (ChildEntry.name c = n)) (kids f).
Definition children_cnt f : Z := zlen (kids f).
Definition children_names f : list string := ChildEntry.name <$> kids f.
Definition get_opts f : Options := opts f.
Definition history f : list Version.Version := vers f.

Definition ver (n : Z) f : option Version.Version := find (λ v, Version.num v =? n) (vers f).
(** [unwrap] of the last version. *)
Definition curr_ver f : res Version.Version := unwrap (last (vers f)).
Definition curr_ver_num f : res Z :=
  match vers f with [] => Ok 0 | _ => v ← curr_ver f; Ok (Version.num v) end.
Definition curr_len f : res Z :=
  match ftype f with
  | File => v ← curr_ver f; Ok (Version.content_len v)
  | Dir => Ok 0
  end.
Definition metadata f : res Metadata.Metadata :=
  n ← curr_len f; v ← curr_ver_num f; Ok (Metadata.mkMetadata (ftype f) n v (ctime f) (mtime f)).

(** An object just loaded: what is not serialised has its default. *)
Definition fresh f : Fnode K SN := set_parent None (set_sub_nodes default_sub_nodes f).
(** [on_commit]: the children deleted in the transaction leave the sub node list. *)
Definition on_commit (deleted : gset Eid) f : Fnode K SN :=
  set_sub_nodes (Lru.entries_remove (K:=string) (V:=Eid) (λ _ i, bool_decide (i ∈ deleted)) (sub_nodes f)) f.
End data.
End Fnode.
Export Fnode(Fnode, mkFnode).

(** ** The state *)

Module Mem.
Section mem.
Context (C K S Hash E SN FC : Type) `{!EqDecision Hash, !Countable Hash}.

Record Mem := mkMem {
  fnodes : gmap Eid (Fnode K SN);
  contents : gmap Eid C;
  segs : S;
  (* [Store] *)
  dedup : bool; content_map : gmap Hash (Eid * Z);
  (* [fcache] *)
  fcache : Lru.Lru FC;
  env : E;
  (* of the transaction under way: the entities in it, and those to be deleted *)
  touched : gset Eid; deleted : gset Eid
}.
End mem.
Arguments mkMem {C K S Hash E SN FC _ _}. Arguments fnodes {C K S Hash E SN FC _ _}. Arguments contents {C K S Hash E SN FC _ _}.
Arguments segs {C K S Hash E SN FC _ _}. Arguments dedup {C K S Hash E SN FC _ _}. Arguments content_map {C K S Hash E SN FC _ _}.
Arguments fcache {C K S Hash E SN FC _ _}. Arguments env {C K S Hash E SN FC _ _}. Arguments touched {C K S Hash E SN FC _ _}.
Arguments deleted {C K S Hash E SN FC _ _}.
End Mem.

Section ops.
Context {C K S Hash E SN FC : Type} `{!EqDecision Hash, !Countable Hash, !Env E, !ContentLayer C K S Hash}.
Context `{!LinkedMapOps string Eid SN, !LinkedMapOps Eid Eid FC}.
Import Mem Fnode.
Abbreviation Fn := (Fnode.Fnode K SN).
Abbreviation Mem := (Mem.Mem C K S Hash E SN FC).
Abbreviation act := (run Mem).

Definition set_fnodes (h : gmap Eid Fn) (m : Mem) : Mem :=
  mkMem h (contents m) (segs m) (dedup m) (content_map m) (fcache m) (env m) (touched m) (deleted m).
Definition set_contents (h : gmap Eid C) (m : Mem) : Mem :=
  mkMem (fnodes m) h (segs m) (dedup m) (content_map m) (fcache m) (env m) (touched m) (deleted m).
Definition set_segs (s : S) (m : Mem) : Mem :=
  mkMem (fnodes m) (contents m) s (dedup m) (content_map m) (fcache m) (env m) (touched m) (deleted m).
Definition set_content_map (h : gmap Hash (Eid * Z)) (m : Mem) : Mem :=
  mkMem (fnodes m) (contents m) (segs m) (dedup m) h (fcache m) (env m) (touched m) (deleted m).
Definition set_fcache (c : Lru.Lru FC) (m : Mem) : Mem :=
  mkMem (fnodes m) (contents m) (segs m) (dedup m) (content_map m) c (env m) (touched m) (deleted m).
Definition set_env (e : E) (m : Mem) : Mem :=
  mkMem (fnodes m) (contents m) (segs m) (dedup m) (content_map m) (fcache m) e (touched m) (deleted m).
Definition set_trans (t d : gset Eid) (m : Mem) : Mem :=
  mkMem (fnodes m) (contents m) (segs m) (dedup m) (content_map m) (fcache m) (env m) t d.

(** Drawing from the environment. *)
Definition draw {A} (f : E → A * E) : act A := λ m,
  let '(a, e) := f (env m) in (Some (Ok a), set_env e m).
(** A call that stores or loads. *)
Definition io : act unit := o ← draw env_fault; match o with Some e => fail e | None => mret () end.

(** An fnode that is referred to. *)
Definition fnode (i : Eid) : act Fn := λ m, (Some (unwrap (fnodes m !! i)), m).
(** A change of the object in place. *)
Definition put_fnode (i : Eid) (f : Fn) : act unit := modify (λ m, set_fnodes (<[i := f]> (fnodes m)) m).

(** [Cow::make_mut]: the entity is added to the transaction. *)
Definition touch (i : Eid) : act unit := _ ← io; modify (λ m, set_trans ({[i]} ∪ touched m) (deleted m) m).
Definition make_mut (i : Eid) : act Fn := _ ← touch i; fnode i.
Definition make_del (i : Eid) : act unit :=
  _ ← io; modify (λ m, set_trans ({[i]} ∪ touched m) ({[i]} ∪ deleted m) m).

(** [TxHandle::run_all]: when the operations or the commit fail, all is as before but for
    what the environment has given and the fnode cache. This is an abstraction where the transaction had updated an
    entity and then deleted it: [Cow::abort] (cow.rs:420) leaves the copy, from which a later change starts. *)
Definition restore (m0 : Mem) : act unit := modify (λ m, set_fcache (fcache m) (set_env (env m) m0)).
Definition commit : act unit := modify (λ m,
  let h := map_imap (λ i f, Some (if bool_decide (i ∈ touched m) then on_commit (deleted m) f else f)) (fnodes m) in
  let gone := λ (A : Type) (x : gmap Eid A), filter (λ kv : Eid * A, kv.1 ∉ deleted m) x in
  set_trans ∅ ∅ (set_fnodes (gone _ h) (set_contents (gone _ (contents m)) m))).
Definition run_all_ret {A} (oper : act A) : act A :=
  _ ← io;
  m0 ← ask id;
  r ← attempt (a ← oper; _ ← io; _ ← commit; mret a);
  match r with
  | Ok a => mret a
  | Err e => _ ← restore m0; fail e
  | Panic => lift Panic
  end.
Definition run_all (oper : act unit) : act unit := run_all_ret oper.

(** ** src/content/store.rs: one content for equal files *)

Definition get_content (i : Eid) : act C :=
  _ ← io; m ← ask contents; lift (ok_or NotFound (m !! i)).
(** [content.into_cow]. *)
Definition content_into_cow (c : C) : act Eid :=
  i ← draw env_eid; _ ← touch i; _ ← modify (λ m, set_contents (<[i := c]> (contents m)) m); mret i.

(** The empty id marks an entry just made. [store] is the id of the store itself. *)
Definition dedup_content (store : Eid) (content : C) : act (bool * Eid) :=
  d ← ask dedup;
  if negb d then i ← content_into_cow content; mret (true, i)
  else
    _ ← touch store;
    cm ← ask content_map;
    let h := ct_hash (C:=C) (K:=K) (S:=S) content in
    let '(cid, refcnt) := default (0, RefCnt.new) (cm !! h) in
    '(refcnt, _) ← lift (RefCnt.inc_ref refcnt);
    _ ← modify (λ m, set_content_map (<[h := (cid, refcnt)]> (content_map m)) m);
    if cid =? 0 then
      i ← content_into_cow content;
      _ ← modify (λ m, set_content_map (<[h := (i, refcnt)]> (content_map m)) m);
      mret (true, i)
    else mret (false, cid).

Definition deref_content (store : Eid) (content_id : Eid) : act (option C) :=
  d ← ask dedup;
  if negb d then mret None
  else
    _ ← touch store;
    ctn ← get_content content_id;
    cm ← ask content_map;
    let h := ct_hash (C:=C) (K:=K) (S:=S) ctn in
    '(cid, refcnt) ← lift (ok_or NoContent (cm !! h));
    '(refcnt, n) ← lift (RefCnt.dec_ref refcnt);
    _ ← modify (λ m, set_content_map (<[h := (cid, refcnt)]> (content_map m)) m);
    if 0 <? n then mret None
    else
      _ ← modify (λ m, set_content_map (delete h (content_map m)) m);
      mret (Some ctn).

(** A change of the segments. *)
Definition on_segs {A} (f : S → res (A * S)) : act A := λ m,
  match f (segs m) with
  | Ok (a, s) => (Some (Ok a), set_segs s m)
  | Err e => (Some (Err e), m)
  | Panic => (Some Panic, m)
  end.
Definition link (c : C) : act unit := on_segs (λ s, s ← ct_link (K:=K) (Hash:=Hash) c s; Ok ((), s)).
Definition unlink (c : C) (k : K) : act K := on_segs (ct_unlink (Hash:=Hash) c k).

(** ** src/fs/fnode.rs *)

Definition new (t : FileType) (o : Options) : act Fn :=
  c ← draw env_now; m ← draw env_now;
  mret (mkFnode t o c m [] [] (chk_new (C:=C) (S:=S) (Hash:=Hash) (dedup_chunk o)) None default_sub_nodes).

(** [self] is given and returned: the object, mutable, is the caller's. *)
Definition remove_version (store : Eid) (ver_num : Z) (f : Fn) : act Fn :=
  idx ← lift (ok_or NoVersion (position (λ v, Version.num v =? ver_num) (vers f)));
  v ← lift (vindex (vers f) idx);
  vs ← lift (vremove (vers f) idx);
  let f := set_vers vs f in
  o ← deref_content store (Version.content_id v);
  match o with
  | Some ctn =>
      k ← unlink ctn (chk_map f);
      _ ← make_del (Version.content_id v);
      mret (set_chk_map k f)
  | None => mret f
  end.

Fixpoint remove_versions (store : Eid) (l : list Z) (f : Fn) : act Fn :=
  match l with [] => mret f | n :: l => f ← remove_version store n f; remove_versions store l f end.
Definition clear_versions (store : Eid) (f : Fn) : act Fn :=
  remove_versions store (Version.num <$> vers f) f.

Definition add_version (store : Eid) (content : C) (f : Fn) : act (bool * Fn) :=
  _ ← lift (rassert (is_file f));
  '(no_dup, deduped_id) ← dedup_content store content;
  n ← lift (curr_ver_num f); n ← lift (u_add n 1);
  t ← draw env_now;
  let v := Version.mkVersion n deduped_id (ct_len (K:=K) (S:=S) (Hash:=Hash) content) t in
  let f := set_vers (vers f ++ [v]) (set_mtime t f) in
  _ ← (if no_dup : bool then link content else mret ());
  if version_limit (opts f) <? zlen (vers f) then
    retire ← lift (unwrap (head (vers f)));
    f ← remove_version store (Version.num retire) f;
    mret (no_dup, f)
  else mret (no_dup, f).

(** [kid.into_cow]. *)
Definition fnode_into_cow (f : Fn) : act Eid :=
  i ← draw env_eid; _ ← touch i; _ ← put_fnode i f; mret i.

Definition into_cow_with_id (i : Eid) (f : Fn) : act unit := _ ← touch i; put_fnode i f.

Definition add_child (parent child : Eid) (name : string) : act unit :=
  par ← make_mut parent;
  kid ← fnode child;
  let par := set_kids (kids par ++ [ChildEntry.new child (ftype kid) name]) par in
  _ ← put_fnode parent par;
  kid ← make_mut child;
  _ ← put_fnode child (set_parent (Some parent) kid);
  par ← fnode parent;
  '(_, sn) ← lift (Lru.insert (K:=string) (V:=Eid) name child (sub_nodes par));
  t ← draw env_now;
  put_fnode parent (set_mtime t (set_sub_nodes sn par)).

Definition new_under (store parent : Eid) (name : string) (t : FileType) (o : Options) : act Eid :=
  par ← make_mut parent;
  if negb (is_dir par) then fail NotDir
  else
    kid ← new t o;
    kid ← (if is_file kid
           then '(_, kid) ← add_version store (ct_new (K:=K) (S:=S) (Hash:=Hash)) kid; mret kid else mret kid);
    kid ← fnode_into_cow kid;
    _ ← add_child parent kid name;
    mret kid.

Definition remove_from_parent (i : Eid) : act unit :=
  child ← fnode i;
  match Fnode.parent child with
  | Some p =>
      par ← make_mut p;
      child_idx ← lift (ok_or NotFound (position (λ c, ChildEntry.id c =? i) (kids par)));
      k ← lift (vindex (kids par) child_idx);
      let sn := (Lru.remove (K:=string) (V:=Eid) (ChildEntry.name k) (sub_nodes par)).2 in
      l ← lift (vremove (kids par) child_idx);
      put_fnode p (set_kids l (set_sub_nodes sn par))
  | None => fail IsRoot
  end.

(** [CowCache::get]: what is not cached is loaded. *)
Definition cache_get (i : Eid) : act Eid :=
  cache ← ask fcache;
  let '(o, cache) := Lru.get_refresh (K:=Eid) (V:=Eid) i cache in
  _ ← modify (set_fcache cache);
  match o with
  | Some j => mret j
  | None =>
      _ ← io;
      h ← ask fnodes;
      f ← lift (ok_or NotFound (h !! i));
      _ ← put_fnode i (fresh f);
      '(_, cache) ← lift (Lru.insert (K:=Eid) (V:=Eid) i i cache);
      _ ← modify (set_fcache cache);
      mret i
  end.

Definition load_child (p : Eid) (name : string) : act Eid :=
  par ← fnode p;
  let '(o, sn) := Lru.get_refresh (K:=string) (V:=Eid) name (sub_nodes par) in
  _ ← put_fnode p (set_sub_nodes sn par);
  alive ← (match o with Some i => draw (env_alive i) | None => mret false end);
  match o, alive : bool with
  | Some i, true => mret i
  | _, _ =>
      k ← lift (ok_or NotFound (find (λ c, bool_decide (ChildEntry.name c = name)) (kids par)));
      i ← cache_get (ChildEntry.id k);
      child ← fnode i;
      _ ← put_fnode i (set_parent (Some p) child);
      par ← fnode p;
      '(_, sn) ← lift (Lru.insert (K:=string) (V:=Eid) name i (sub_nodes par));
      _ ← put_fnode p (set_sub_nodes sn par);
      mret i
  end.

(** [Fnode::read_dir], for the names with their metadata. *)
Fixpoint load_children (p : Eid) (names : list string) : act (list (string * Metadata.Metadata)) :=
  match names with
  | [] => mret []
  | n :: names =>
      i ← load_child p n;
      child ← fnode i;
      md ← lift (metadata child);
      rest ← load_children p names;
      mret ((n, md) :: rest)
  end.
Definition read_dir (p : Eid) : act (list (string * Metadata.Metadata)) :=
  par ← fnode p;
  if negb (is_dir par) then fail NotDir else load_children p (children_names par).

(** The content of a version, and of the current one. *)
Definition version_content (ver_num : Z) (f : Fn) : act C :=
  v ← lift (ok_or NoVersion (ver ver_num f)); get_content (Version.content_id v).
Definition clone_current_content (f : Fn) : act C :=
  v ← lift (curr_ver f); get_content (Version.content_id v).

(** [Writer::finish], with what the store writer gives: the staged content and the chunk map. *)
Definition writer_finish (store i : Eid) (stg_ctn : C) (chk_map : K) : act Z :=
  f ← fnode i;
  ctn ← clone_current_content f;
  merged_ctn ← on_segs (ct_merge_from (K:=K) (Hash:=Hash) ctn stg_ctn);
  f ← make_mut i;
  '(no_dup, f) ← add_version store merged_ctn f;
  f ← (if no_dup : bool then mret f
       else k ← on_segs (ct_unlink_weak (Hash:=Hash) stg_ctn (Fnode.chk_map f)); mret (set_chk_map k f));
  _ ← put_fnode i (set_chk_map chk_map f);
  mret (ct_end_offset (K:=K) (S:=S) (Hash:=Hash) stg_ctn).

(** [set_len] to a smaller length. *)
Definition truncate (store i : Eid) (len : Z) : act unit :=
  f ← fnode i;
  ctn ← clone_current_content f;
  new_ctn ← on_segs (ct_truncate (K:=K) (Hash:=Hash) ctn len);
  f ← make_mut i;
  '(_, f) ← add_version store new_ctn f;
  put_fnode i f.
End ops.
