(* ===== verification/Fs.v ===== *)
(** * src/fs/fs.rs: the file system, by paths. *)
From stdpp Require Import strings.
From S2P Require Import Prelude Run Base Segment Fnode.
Import Mem FileType(FileType, File, Dir).

(** ** [std::path::Path]: its components *)

Module Path.
Record Path := mkPath { has_root : bool; comps : list string }.
#[global] Instance Path_eq_dec : EqDecision Path.
Proof. solve_decision. Defined.

Fixpoint init (l : list string) : list string :=
  match l with [] => [] | [_] => [] | x :: l => x :: init l end.
(** The components "." and ".." are no names. *)
Definition is_normal (n : string) : bool := negb (bool_decide (n = ".") || bool_decide (n = "..")).
Definition parent (p : Path) : option Path :=
  match comps p with [] => None | l => Some (mkPath (has_root p) (init l)) end.
Definition file_name (p : Path) : option string :=
  match last (comps p) with Some n => if is_normal n then Some n else None | None => None end.
Definition join (p : Path) (n : string) : Path := mkPath (has_root p) (comps p ++ [n]).
Fixpoint prefix_of (l l' : list string) : bool :=
  match l, l' with
  | [], _ => true
  | x :: l, y :: l' => bool_decide (x = y) && prefix_of l l'
  | _, [] => false
  end.
Definition starts_with (p base : Path) : bool :=
  bool_decide (has_root p = has_root base) && prefix_of (comps base) (comps p).
End Path.
Export (hints) Path.
Abbreviation Path := Path.Path.

Module Fs.
(** What never changes of a file system: the ids of the root and the store, and its options. *)
Record Fs := mkFs { root : Eid; store : Eid; opts : Options; read_only : bool }.
Definition FNODE_CACHE_SIZE : Z := 16.

Section fs.
Context {C K G Hash E SN FC : Type} `{!EqDecision Hash, !Countable Hash, !Env E, !ContentLayer C K G Hash}.
Context `{!LinkedMapOps string Eid SN, !LinkedMapOps Eid Eid FC}.
Abbreviation Fn := (Fnode K SN).
Abbreviation Mem := (Mem.Mem C K G Hash E SN FC).
Abbreviation act := (run Mem).
Context (fs : Fs).

(** The initial transaction of [Fs::create]. *)
Definition create_root : act unit :=
  run_all (_ ← touch (store fs); f ← new (S:=G) Dir (opts fs); into_cow_with_id (root fs) f).

(** A path component is looked up at a time, from the root. *)
Fixpoint walk (i : Eid) (l : list string) : act Eid :=
  match l with [] => mret i | n :: l => i ← load_child i n; walk i l end.
Definition resolve (p : Path) : act Eid :=
  if negb (Path.has_root p) then fail InvalidPath else walk (root fs) (Path.comps p).

Definition resolve_parent (p : Path) : act (Eid * string) :=
  parent_path ← lift (ok_or IsRoot (Path.parent p));
  file_name ← lift (ok_or InvalidPath (Path.file_name p));
  parent ← resolve parent_path;
  mret (parent, file_name).

Definition open_fnode (p : Path) : act Eid := resolve p.

Definition guard_rw : act unit := if read_only fs then fail ReadOnly else mret ().

Definition create_fnode (p : Path) (t : FileType) (o : Options) : act Eid :=
  _ ← guard_rw;
  '(parent, name) ← resolve_parent p;
  par ← fnode parent;
  if negb (Fnode.is_dir par) then fail NotDir
  else if Fnode.has_child name par then fail AlreadyExists
  else run_all_ret (new_under (store fs) parent name t o).

(** [fuel] is the number of components and one. *)
Fixpoint create_dir_all (fuel : nat) (p : Path) : act unit :=
  match fuel with
  | O => lift Panic
  | S fuel =>
      r ← attempt (create_fnode p Dir default_options);
      match r with
      | Ok _ => mret ()
      | Err NotFound =>
          match Path.parent p with
          | Some q => _ ← create_dir_all fuel q; _ ← create_fnode p Dir default_options; mret ()
          | None => fail IsRoot
          end
      | Err e => fail e
      | Panic => lift Panic
      end
  end.

(** Each entry is given by its name; its path is the directory's with the name. *)
Definition read_dir (p : Path) : act (list (DirEntry.DirEntry Path)) :=
  parent ← resolve p;
  l ← Fnode.read_dir parent;
  mret ((λ nm, DirEntry.mkEntry (Path.join p nm.1) nm.1 nm.2) <$> l).

Definition metadata (p : Path) : act Metadata.Metadata :=
  i ← resolve p; f ← fnode i; lift (Fnode.metadata f).

Definition history (p : Path) : act (list Version.Version) :=
  i ← resolve p; f ← fnode i; if Fnode.is_dir f then fail IsDir else mret (Fnode.history f).

Definition copy (from to : Path) : act unit :=
  _ ← guard_rw;
  src ← resolve from;
  f ← fnode src;
  if negb (Fnode.is_file f) then fail NotFile
  else
    let o := Fnode.get_opts f in
    r ← attempt (open_fnode to);
    tgt ← (match r with
           | Ok tgt =>
               if bool_decide (tgt = src) then mret None
               else g ← fnode tgt; if negb (Fnode.is_file g) then fail NotFile else mret (Some tgt)
           | Err NotFound => _ ← create_fnode to File o; tgt ← open_fnode to; mret (Some tgt)
           | Err e => fail e
           | Panic => lift Panic
           end);
    match tgt with
    | None => mret ()
    | Some tgt =>
        run_all
          (f ← fnode src;
           ctn ← clone_current_content f;
           g ← make_mut tgt;
           '(result, g) ← add_version (store fs) ctn g;
           _ ← put_fnode tgt g;
           lift (rassert (negb (dedup_file (opts fs) && result))))
    end.

Definition remove_file (p : Path) : act unit :=
  _ ← guard_rw;
  i ← resolve p;
  f ← fnode i;
  if negb (Fnode.is_file f) then fail NotFile
  else
    run_all
      (_ ← remove_from_parent i;
       _ ← (f ← make_mut i; f ← clear_versions (store fs) f; put_fnode i f);
       _ ← make_del i;
       modify (λ m, set_fcache (Lru.remove (K:=Eid) (V:=Eid) i (fcache m)).2 m)).

Definition remove_dir (p : Path) : act unit :=
  _ ← guard_rw;
  i ← resolve p;
  f ← fnode i;
  if negb (Fnode.is_dir f) then fail NotDir
  else if Fnode.is_root f then fail IsRoot
  else if 0 <? Fnode.children_cnt f then fail NotEmpty
  else
    run_all
      (_ ← remove_from_parent i;
       _ ← make_del i;
       modify (λ m, set_fcache (Lru.remove (K:=Eid) (V:=Eid) i (fcache m)).2 m)).

(** [fuel] bounds the depth of the tree. *)
Fixpoint remove_dir_all (fuel : nat) (p : Path) : act unit :=
  match fuel with
  | O => lift Panic
  | S fuel =>
      l ← read_dir p;
      _ ← for_each (λ child,
            match Metadata.ftype (DirEntry.metadata child) with
            | File => remove_file (DirEntry.path child)
            | Dir => remove_dir_all fuel (DirEntry.path child)
            end) l;
      r ← attempt (remove_dir p);
      match r with
      | Ok _ => mret ()
      | Err IsRoot => mret ()
      | Err e => fail e
      | Panic => lift Panic
      end
  end.

Fixpoint copy_dir_all (fuel : nat) (from to : Path) : act unit :=
  match fuel with
  | O => lift Panic
  | S fuel =>
      _ ← guard_rw;
      if bool_decide (from = to) then mret ()
      else if Path.starts_with to from then fail InvalidArgument
      else
        src ← resolve from;
        f ← fnode src;
        if negb (Fnode.is_dir f) then fail NotDir
        else
          r ← attempt (resolve to);
          _ ← (match r with
               | Ok tgt =>
                   _ ← lift (rassert (negb (bool_decide (tgt = src))));
                   g ← fnode tgt; if negb (Fnode.is_dir g) then fail NotDir else mret ()
               | Err NotFound => _ ← create_fnode to Dir default_options; mret ()
               | Err e => fail e
               | Panic => lift Panic
               end);
          l ← read_dir from;
          for_each (λ child,
            let child_to := Path.join to (DirEntry.name child) in
            match Metadata.ftype (DirEntry.metadata child) with
            | File => copy (DirEntry.path child) child_to
            | Dir => copy_dir_all fuel (DirEntry.path child) child_to
            end) l
  end.

(** What a rename asks of a target that exists. *)
Definition check_target (src tgt : Fn) : act unit :=
  if Fnode.is_root tgt then fail IsRoot
  else if Fnode.is_file src && Fnode.is_dir tgt then fail IsDir
  else if Fnode.is_dir src then
    if Fnode.is_file tgt then fail NotDir
    else if 0 <? Fnode.children_cnt tgt then fail NotEmpty else mret ()
  else mret ().

Definition rename (from to : Path) : act unit :=
  _ ← guard_rw;
  if bool_decide (from = to) then mret ()
  else if Path.starts_with to from then fail InvalidArgument
  else
    src ← resolve from;
    r ← attempt (resolve to);
    tgt ← (match r with
           | Ok tgt => mret (Some tgt)
           | Err NotFound => mret None
           | Err e => fail e
           | Panic => lift Panic
           end);
    src_fnode ← fnode src;
    _ ← (if Fnode.is_root src_fnode then fail IsRoot
         else match tgt with
              | Some tgt => tgt_fnode ← fnode tgt; check_target src_fnode tgt_fnode
              | None => mret ()
              end);
    '(tgt_parent, name) ← resolve_parent to;
    run_all
      (_ ← remove_from_parent src;
       _ ← (match tgt with
            | Some tgt =>
                _ ← remove_from_parent tgt;
                g ← fnode tgt;
                _ ← (if Fnode.is_file g
                     then g ← make_mut tgt; g ← clear_versions (store fs) g; put_fnode tgt g
                     else mret ());
                _ ← make_del tgt;
                modify (λ m, set_fcache (Lru.remove (K:=Eid) (V:=Eid) tgt (fcache m)).2 m)
            | None => mret ()
            end);
       add_child tgt_parent src name).
End fs.
End Fs.
