(* ===== verification/FsTree.v ===== *)
(** * Directory trees: paths through the kids of fnodes, and what attaching and detaching do to them. *)
From stdpp Require Import strings.
From S2P Require Import Prelude Run Base Segment Fnode.
Import FileType(FileType, File, Dir).

(** ** Paths in a graph of named edges *)

Section paths.
Implicit Types (k : Eid → string → option Eid) (i p r c : Eid) (l : list string) (n : string) (X : gset Eid).

Fixpoint path_to k i l : option Eid :=
  match l with [] => Some i | n :: l => j ← k i n; path_to k j l end.

Lemma path_app k i l l' : path_to k i (l ++ l') = (j ← path_to k i l; path_to k j l').
Proof. revert i. induction l as [|n l IH]; intros i; [done|]. cbn. destruct (k i n); [apply IH|done]. Qed.
Lemma path_snoc k i l n : path_to k i (l ++ [n]) = (j ← path_to k i l; k j n).
Proof. rewrite path_app. destruct (path_to k i l) as [j|]; [|done]. cbn. by destruct (k j n). Qed.
Lemma path_ext k k' i l : (∀ i n, k' i n = k i n) → path_to k' i l = path_to k i l.
Proof. intros Hk. revert i. induction l as [|n l IH]; intros i; [done|]. cbn. rewrite Hk. destruct (k i n); [apply IH|done]. Qed.

(** Every node has one edge into it at most, and the roots have none. *)
Definition edges_inj k : Prop := ∀ p n q m i, k p n = Some i → k q m = Some i → p = q ∧ n = m.
Definition top k r : Prop := ∀ p n, k p n ≠ Some r.

Lemma path_unique k r r' l l' i :
  edges_inj k → top k r → top k r' → path_to k r l = Some i → path_to k r' l' = Some i → r = r' ∧ l = l'.
Proof.
  intros Hinj Hr Hr'. revert l' i. induction l as [|n l IH] using rev_ind; intros l' i Hl Hl'.
  - injection Hl as <-. destruct l' as [|m l' _] using rev_ind; [by injection Hl'|].
    rewrite path_snoc in Hl'. destruct (path_to k r' l') as [j|]; [|done]. by apply Hr in Hl'.
  - destruct l' as [|m l' _] using rev_ind.
    + injection Hl' as <-. rewrite path_snoc in Hl. destruct (path_to k r l) as [j|]; [|done]. by apply Hr' in Hl.
    + rewrite path_snoc in Hl, Hl'. destruct (path_to k r l) as [j|] eqn:Hj; [|done].
      destruct (path_to k r' l') as [j'|] eqn:Hj'; [|done].
      destruct (Hinj _ _ _ _ _ Hl Hl') as [-> ->]. destruct (IH l' j' eq_refl Hj') as [-> ->]. done.
Qed.
(** A path does not come back to where it was. *)
Lemma path_no_cycle k r l l' i :
  edges_inj k → top k r → path_to k r l = Some i → path_to k i l' = Some i → l' = [].
Proof.
  intros Hinj Hr Hl Hl'. assert (H2 : path_to k r (l ++ l') = Some i) by (by rewrite path_app, Hl).
  destruct (path_unique _ _ _ _ _ _ Hinj Hr Hr Hl H2) as [_ Hll].
  rewrite <- (app_nil_r l) in Hll at 1. by apply app_inv_head in Hll.
Qed.

(** [k'] is [k] with one more edge. *)
Definition one_more k k' p n c : Prop :=
  k p n = None ∧ ∀ q m, k' q m = if decide (q = p ∧ m = n) then Some c else k q m.

Section one_more.
Context (k k' : Eid → string → option Eid) (p c : Eid) (n : string) (Hmore : one_more k k' p n c).

Lemma more_new : k' p n = Some c.
Proof. destruct Hmore as [_ ->]. by rewrite decide_True. Qed.
Lemma more_old q m i : k q m = Some i → k' q m = Some i.
Proof. destruct Hmore as [Hn Hk]. rewrite Hk. case_decide as Hd; [destruct Hd as [-> ->]; congruence|done]. Qed.
Lemma more_inv q m i : k' q m = Some i → (q = p ∧ m = n ∧ i = c) ∨ k q m = Some i.
Proof. destruct Hmore as [_ Hk]. rewrite Hk. case_decide as Hd; [destruct Hd; intros [= <-]; auto|auto]. Qed.
Lemma more_path i l j : path_to k i l = Some j → path_to k' i l = Some j.
Proof.
  revert i. induction l as [|m l IH]; intros i; [done|]. cbn. destruct (k i m) as [i'|] eqn:Hi; [|done].
  rewrite (more_old _ _ _ Hi). apply IH.
Qed.
Lemma more_path_inv i l j : path_to k' i l = Some j →
  path_to k i l = Some j ∨ ∃ l1 l2, l = l1 ++ n :: l2 ∧ path_to k i l1 = Some p ∧ path_to k' c l2 = Some j.
Proof.
  revert i. induction l as [|m l IH]; intros i Hl; [by left|]. cbn in Hl.
  destruct (k' i m) as [i'|] eqn:Hi; [|done]. cbn in Hl.
  destruct (more_inv _ _ _ Hi) as [(-> & -> & ->)|Hk]; [right; by exists [], l|].
  destruct (IH _ Hl) as [Hp|(l1 & l2 & -> & Hp & Hc)].
  - left. cbn. by rewrite Hk.
  - right. exists (m :: l1), l2. split; [done|]. split; [|done]. cbn. by rewrite Hk.
Qed.

(** When [p] is not below [c], nothing below [c] changes, and below [r] only what is behind the edge. *)
Context (Hinj : edges_inj k) (Hc : top k c).

Lemma more_elsewhere s r l0 l : top k s → top k r → r ≠ s → path_to k r l0 = Some p → path_to k' s l = path_to k s l.
Proof.
  intros Hs Hr Hne Hp. destruct (path_to k s l) as [j|] eqn:Hl; [by apply more_path|].
  destruct (path_to k' s l) as [j|] eqn:Hl'; [|done]. destruct (more_path_inv _ _ _ Hl') as [?|(l1 & l2 & _ & Hp' & _)]; [congruence|].
  by destruct (path_unique _ _ _ _ _ _ Hinj Hr Hs Hp Hp') as [-> _].
Qed.
Lemma more_below r l0 l : top k r → r ≠ c → path_to k r l0 = Some p → path_to k' c l = path_to k c l.
Proof. intros Hr Hne Hp. by eapply more_elsewhere. Qed.
Lemma more_spec r l0 l : top k r → r ≠ c → path_to k r l0 = Some p → path_to k' r l =
  if decide ((l0 ++ [n]) `prefix_of` l) then path_to k c (drop (S (length l0)) l) else path_to k r l.
Proof.
  intros Hr Hne Hp. case_decide as Hd.
  - destruct Hd as [l2 ->]. rewrite <- app_assoc, path_app, (more_path _ _ _ Hp). cbn. rewrite more_new. cbn.
    rewrite drop_app_ge by lia. replace (S (length l0) - length l0)%nat with 1%nat by lia. cbn. rewrite drop_0. by eapply more_below.
  - destruct (path_to k r l) as [j|] eqn:Hl; [by apply more_path|].
    destruct (path_to k' r l) as [j|] eqn:Hl'; [|done]. destruct (more_path_inv _ _ _ Hl') as [?|(l1 & l2 & -> & Hp' & _)]; [congruence|].
    destruct (path_unique _ _ _ _ _ _ Hinj Hr Hr Hp Hp') as [_ <-]. destruct Hd. exists l2. by rewrite <- app_assoc.
Qed.
Lemma more_inj : edges_inj k'.
Proof.
  intros q m q' m' i Hi Hi'. destruct (more_inv _ _ _ Hi) as [(-> & -> & ->)|Hk], (more_inv _ _ _ Hi') as [(-> & -> & ?)|Hk']; subst.
  - done.
  - by apply Hc in Hk'.
  - by apply Hc in Hk.
  - by eapply Hinj.
Qed.
Lemma more_root r : top k r → r ≠ c → top k' r.
Proof. intros Hr Hne q m Hq. destruct (more_inv _ _ _ Hq) as [(_ & _ & ->)|Hk]; [done|by apply Hr in Hk]. Qed.
End one_more.

(** Taking an edge away. *)
Lemma less_inj k k' p n c : one_more k k' p n c → edges_inj k' → edges_inj k.
Proof. intros Hm Hi q m q' m' i H1 H2. eapply Hi; by eapply more_old. Qed.
Lemma less_root k k' p n c : one_more k k' p n c → edges_inj k' → top k c.
Proof.
  intros Hm Hi q m Hq. pose proof (more_old _ _ _ _ _ Hm _ _ _ Hq) as Hq'.
  destruct (Hi _ _ _ _ _ Hq' (more_new _ _ _ _ _ Hm)) as [-> ->]. destruct Hm as [? _]. congruence.
Qed.
Lemma less_old_root k k' p n c r : one_more k k' p n c → top k' r → top k r.
Proof. intros Hm Hr q m Hq. by apply (Hr q m), (more_old _ _ _ _ _ Hm). Qed.
(** The way to [p] does not lead through the edge. *)
Lemma less_path k k' p n c r l0 : one_more k k' p n c → edges_inj k' → top k' r →
  path_to k' r l0 = Some p → path_to k r l0 = Some p.
Proof.
  intros Hm Hi Hr Hp. destruct (more_path_inv _ _ _ _ _ Hm _ _ _ Hp) as [?|(l1 & l2 & -> & Hp' & Hc)]; [done|].
  pose proof (more_path _ _ _ _ _ Hm _ _ _ Hp') as Hp2.
  assert (Hcyc : path_to k' p (n :: l2) = Some p) by (cbn; rewrite (more_new _ _ _ _ _ Hm); done).
  by pose proof (path_no_cycle _ _ _ _ _ Hi Hr Hp2 Hcyc).
Qed.
End paths.
