(* ===== verification/FsInv.v ===== *)
(** * What a file system keeps true: its tree of fnodes, and finding fnodes by path. *)
From stdpp Require Import strings.
From S2P Require Import Prelude Run Base Segment Fnode Fs FsTree.
Import Mem Fnode FileType(FileType, File, Dir).

(** The errors of the layers below: never those on which the file system decides how to go on. *)
Definition outside (e : Error) : Prop := e ≠ NotFound ∧ e ≠ IsRoot.

(** Ids drawn are new; nothing fails in a steady environment, and what fails does so with an error from outside. *)
Class EnvLaws (E : Type) `{!Env E} := {
  env_used : E → gset Eid;
  env_steady : E → Prop;
  env_keeps (e e' : E) := (env_used e' = env_used e ∧ (env_steady e → env_steady e'));
  env_zero e : 0 ∈ env_used e;
  env_eid_law e : ((env_eid e).1 ∉ env_used e) ∧ env_used (env_eid e).2 = {[(env_eid e).1]} ∪ env_used e ∧
    (env_steady e → env_steady (env_eid e).2);
  env_now_law e : env_keeps e (env_now e).2;
  env_fault_law e : env_keeps e (env_fault e).2 ∧ (env_steady e → (env_fault e).1 = None) ∧ (∀ x, (env_fault e).1 = Some x → outside x);
  env_alive_law i e : env_keeps e (env_alive i e).2
}.
#[export] Hint Mode EnvLaws ! - : typeclass_instances.

(** Inserting into a cache, whatever its account says. *)
Lemma lru_insert_any {A V M} `{EqDecision A, !LinkedMapOps A V M, !LinkedMap A V M, !Meter V, !Pinnable V} (k : A) (v : V) (c : Lru.Lru M) :
  0 < Lru.capacity c → ∃ o c', Lru.insert k v c = Ok (o, c') ∧ Lru.capacity c' = Lru.capacity c ∧
    ∀ k' v', lm_get k' (Lru.map c') = Some v' → (k' = k ∧ v' = v) ∨ lm_get k' (Lru.map c) = Some v'.
Proof.
  intros Hc. unfold Lru.insert. rewrite rassert_ok by by apply Z.ltb_lt. rewrite bind_ok.
  destruct (lm_insert k v (Lru.map c)) as [old m] eqn:Hm.
  assert (Hin : ∀ k' v', lm_get k' m = Some v' → (k' = k ∧ v' = v) ∨ lm_get k' (Lru.map c) = Some v').
  { intros k' v'. replace m with (lm_insert k v (Lru.map c)).2 by by rewrite Hm. rewrite lm_get_insert.
    case_decide as Hk; [intros [= <-]; auto|auto]. }
  eexists _, _. split; [done|]. case_match; [|done]. unfold Lru.remove_lru. cbn [Lru.map].
  destruct (Lru.first_unpinned m) as [[k1 v1]|]; [|done]. cbn. split; [done|]. intros k' v'. rewrite lm_get_remove.
  case_decide; [done|]. apply Hin.
Qed.

Section inv.
Context {C K G Hash E SN FC : Type} `{!EqDecision Hash, !Countable Hash, !Env E, !EnvLaws E, !ContentLayer C K G Hash}.
Context `{!LinkedMapOps string Eid SN, !LinkedMap string Eid SN, !LinkedMapOps Eid Eid FC, !LinkedMap Eid Eid FC}.
Abbreviation Fn := (Fnode.Fnode K SN).
Abbreviation heap := (gmap Eid Fn).
Abbreviation Mem := (Mem.Mem C K G Hash E SN FC).
Implicit Types (f g : Fn) (H : heap) (m : Mem) (p i r : Eid) (n : string) (X : gset Eid).

(** ** Forests of fnodes *)

Definition named n (c : ChildEntry.ChildEntry) : bool := bool_decide (ChildEntry.name c = n).
Definition kid_named n f : option ChildEntry.ChildEntry := find (named n) (kids f).
Definition edges H p n : option Eid := f ← H !! p; ChildEntry.id <$> kid_named n f.
Definition parent_of H i : option Eid := f ← H !! i; Fnode.parent f.
Definition sub f n : option Eid := lm_get n (Lru.map (sub_nodes f)).

(** A directory's own part, and what the caches say of it. *)
Record forest H X : Prop := {
  f_names p f : H !! p = Some f → NoDup (ChildEntry.name <$> kids f);
  f_kids p f c : H !! p = Some f → c ∈ kids f → ∃ g, H !! ChildEntry.id c = Some g ∧ ftype g = ChildEntry.ftype c;
  f_inj : edges_inj (edges H);
  f_roots r : r ∈ X → is_Some (H !! r) ∧ top (edges H) r;
  f_reach i : is_Some (H !! i) → ∃ r l, r ∈ X ∧ path_to (edges H) r l = Some i;
  f_file p f : H !! p = Some f → ftype f = File → kids f = [];
  f_dir p f : H !! p = Some f → ftype f = Dir → vers f = [];
  f_sub p f n i : H !! p = Some f → sub f n = Some i → edges H p n = Some i ∧ parent_of H i = Some p;
  f_parent i p : parent_of H i = Some p → i ∉ X → ∃ n, edges H p n = Some i;
  f_cap p f : H !! p = Some f → Lru.capacity (sub_nodes f) = SUB_NODES_CNT
}.

Lemma kid_named_Some n f c : kid_named n f = Some c → c ∈ kids f ∧ ChildEntry.name c = n.
Proof.
  unfold kid_named. intros Hf. apply find_some in Hf as [Hin Hn]. split; [by apply list_elem_of_In|].
  unfold named in Hn. by apply bool_decide_eq_true_1 in Hn.
Qed.
Lemma kid_named_In n f c : NoDup (ChildEntry.name <$> kids f) → c ∈ kids f → ChildEntry.name c = n → kid_named n f = Some c.
Proof.
  unfold kid_named. intros Hnd Hin <-. induction (kids f) as [|d l IH]; [by apply not_elem_of_nil in Hin|].
  cbn. apply NoDup_cons in Hnd as [Hni Hnd]. apply elem_of_cons in Hin as [->|Hin].
  - unfold named. by rewrite bool_decide_eq_true_2.
  - unfold named at 1. rewrite bool_decide_eq_false_2; [by apply IH|]. intros Heq. apply Hni. rewrite Heq. by apply list_elem_of_fmap_2.
Qed.
Lemma has_child_named n f : has_child n f = bool_decide (is_Some (kid_named n f)).
Proof.
  unfold has_child, kid_named, named. induction (kids f) as [|d l IH]; [done|]. cbn. rewrite IH.
  by destruct (bool_decide (ChildEntry.name d = n)).
Qed.

Lemma edges_kid H p n i : edges H p n = Some i → ∃ f c, H !! p = Some f ∧ c ∈ kids f ∧ ChildEntry.name c = n ∧ ChildEntry.id c = i.
Proof.
  unfold edges. destruct (H !! p) as [f|]; [|done]. cbn. intros (c & Hc & ->)%fmap_Some.
  apply kid_named_Some in Hc as [? ?]. by exists f, c.
Qed.
Lemma edges_dom H X p n i : forest H X → edges H p n = Some i → is_Some (H !! i).
Proof. intros Hf (f & c & Hp & Hin & _ & <-)%edges_kid. destruct (f_kids _ _ Hf _ _ _ Hp Hin) as (g & -> & _). by eexists. Qed.

(** ** Fnodes that differ in their caches only *)

Definition core f := (ftype f, opts f, ctime f, mtime f, kids f, vers f, chk_map f).
Definition same_cores H H' : Prop := ∀ i, core <$> H' !! i = core <$> H !! i.

Lemma core_kids f g : core f = core g → kids f = kids g ∧ ftype f = ftype g ∧ vers f = vers g ∧ opts f = opts g.
Proof. unfold core. intros. by simplify_eq. Qed.
Lemma same_cores_lookup H H' i f' : same_cores H H' → H' !! i = Some f' → ∃ f, H !! i = Some f ∧ core f = core f'.
Proof. intros Hs Hi. specialize (Hs i). rewrite Hi in Hs. destruct (H !! i) as [f|]; [|done]. exists f. split; [done|]. by apply (inj Some) in Hs. Qed.
Lemma same_cores_sym H H' : same_cores H H' → same_cores H' H.
Proof. intros Hs i. by rewrite Hs. Qed.
Lemma same_cores_edges H H' p n : same_cores H H' → edges H' p n = edges H p n.
Proof.
  intros Hs. unfold edges. specialize (Hs p). destruct (H' !! p) as [f'|], (H !! p) as [f|]; try done.
  apply (inj Some) in Hs. destruct (core_kids _ _ Hs) as [Hk _]. unfold kid_named. cbn. by rewrite Hk.
Qed.
Lemma same_cores_insert H i f f' : H !! i = Some f → core f' = core f → same_cores H (<[i := f']> H).
Proof. intros Hi Hc j. destruct (decide (j = i)) as [->|]; [rewrite lookup_insert_eq, Hi; exact (f_equal Some Hc)|by rewrite lookup_insert_ne]. Qed.
Lemma same_cores_trans H1 H2 H3 : same_cores H1 H2 → same_cores H2 H3 → same_cores H1 H3.
Proof. intros H12 H23 i. by rewrite H23. Qed.

Lemma forest_recache H H' X : forest H X → same_cores H H' →
  (∀ j f', H' !! j = Some f' → Lru.capacity (sub_nodes f') = SUB_NODES_CNT ∧
     (∀ n i, sub f' n = Some i → edges H j n = Some i ∧ parent_of H' i = Some j) ∧
     ∀ q, Fnode.parent f' = Some q → j ∉ X → ∃ n, edges H q n = Some j) →
  forest H' X.
Proof.
  intros Hf Hs Hc. assert (He : ∀ q n, edges H' q n = edges H q n) by (intros; by apply same_cores_edges).
  assert (Hd : ∀ j, is_Some (H' !! j) ↔ is_Some (H !! j)).
  { intros j. specialize (Hs j). destruct (H' !! j), (H !! j); try done; split; by eexists. }
  assert (Hl : ∀ j f', H' !! j = Some f' → ∃ f, H !! j = Some f ∧ kids f = kids f' ∧ ftype f = ftype f' ∧ vers f = vers f').
  { intros j f' Hj. destruct (same_cores_lookup _ _ _ _ Hs Hj) as (f & ? & (? & ? & ? & _)%core_kids). by exists f. }
  assert (Hinj : edges_inj (edges H')) by (intros p n q n' i; rewrite !He; apply (f_inj _ _ Hf)).
  split; [..|exact Hinj| | | | | | |].
  - intros p f' Hp. destruct (Hl _ _ Hp) as (f & ? & <- & _). by eapply f_names.
  - intros p f' c Hp Hin. destruct (Hl _ _ Hp) as (f & Hp' & Hk & _). rewrite <- Hk in Hin.
    destruct (f_kids _ _ Hf _ _ _ Hp' Hin) as (g & Hg & Ht). apply same_cores_sym in Hs.
    destruct (same_cores_lookup _ _ _ _ Hs Hg) as (g' & ? & (_ & Ht' & _)%core_kids). exists g'. split; [done|congruence].
  - intros r Hr. destruct (f_roots _ _ Hf _ Hr) as [? Hroot]. split; [by apply Hd|]. intros q n. rewrite He. apply Hroot.
  - intros i Hi. destruct (f_reach _ _ Hf i) as (r & l & ? & Hp); [by apply Hd|]. exists r, l. split; [done|]. by rewrite (path_ext (edges H)).
  - intros p f' Hp. destruct (Hl _ _ Hp) as (f & ? & <- & <- & _). by eapply f_file.
  - intros p f' Hp. destruct (Hl _ _ Hp) as (f & ? & _ & <- & <-). by eapply f_dir.
  - intros p f' n i Hp Hsub. rewrite He. by apply (Hc p f' Hp).
  - intros i p Hpar Hx. unfold parent_of in Hpar. destruct (H' !! i) as [f'|] eqn:Hi; [|done]. cbn in Hpar.
    destruct (Hc _ _ Hi) as (_ & _ & Hq). destruct (Hq p Hpar Hx) as [n Hn]. exists n. by rewrite He.
  - intros p f' Hp. by apply (Hc p f' Hp).
Qed.

(** ** The state *)

Record caches_ok m : Prop := {
  c_cap : Lru.capacity (fcache m) = Fs.FNODE_CACHE_SIZE;
  c_id i j : lm_get i (Lru.map (fcache m)) = Some j → j = i
}.
(** The state outside of a transaction. *)
Record shape_ok m X : Prop := {
  s_forest : forest (fnodes m) X;
  s_caches : caches_ok m
}.

(** Only caches, weak references and the environment have changed. *)
Record quiet m m' : Prop := {
  q_cores : same_cores (fnodes m) (fnodes m');
  q_parents i p : parent_of (fnodes m) i = Some p → parent_of (fnodes m') i = Some p;
  q_tops i : top (edges (fnodes m)) i → parent_of (fnodes m') i = parent_of (fnodes m) i;
  q_contents : contents m' = contents m;
  q_segs : segs m' = segs m;
  q_dedup : dedup m' = dedup m;
  q_map : content_map m' = content_map m;
  q_touched : touched m' = touched m;
  q_deleted : deleted m' = deleted m;
  q_env : env_keeps (env m) (env m')
}.

Lemma env_keeps_refl (e : E) : env_keeps e e.
Proof. by split. Qed.
Lemma env_keeps_trans (e1 e2 e3 : E) : env_keeps e1 e2 → env_keeps e2 e3 → env_keeps e1 e3.
Proof. intros [Ha ?] [Hb ?]. split; [congruence|auto]. Qed.
Lemma quiet_refl m : quiet m m.
Proof. by split. Qed.
Lemma quiet_trans m1 m2 m3 : quiet m1 m2 → quiet m2 m3 → quiet m1 m3.
Proof.
  intros [Hs1 ? Ht1] [Hs2 ? Ht2]. split; [by eapply same_cores_trans|auto| |congruence..|by eapply env_keeps_trans].
  intros i Hi. rewrite Ht2, Ht1; [done|done|]. intros p n. rewrite (same_cores_edges (fnodes m1)) by done. apply Hi.
Qed.
(** The error of a call of the environment. *)
Definition faulty m (e : Error) : Prop := ¬ env_steady (env m) ∧ outside e.
Lemma quiet_steady m m' (e : Error) : quiet m m' → faulty m' e → faulty m e.
Proof. intros Hq [Hn ?]. split; [|done]. intros Hs. apply Hn. by apply (q_env _ _ Hq). Qed.
Lemma quiet_edges m m' p n : quiet m m' → edges (fnodes m') p n = edges (fnodes m) p n.
Proof. intros Hq. by apply same_cores_edges, q_cores. Qed.
Lemma quiet_path m m' i l : quiet m m' → path_to (edges (fnodes m')) i l = path_to (edges (fnodes m)) i l.
Proof. intros Hq. apply path_ext. intros j n. by apply quiet_edges. Qed.

(** Drawing and storing. *)
Lemma draw_spec_fs {A} (d : E → A * E) m (Q : A → Mem → Prop) F D :
  Q (d (env m)).1 (set_env (d (env m)).2 m) → spec (draw d) m Q F D.
Proof. unfold spec, draw. by destruct (d (env m)). Qed.
Lemma io_spec m (Q : () → Mem → Prop) (F : Error → Mem → Prop) D :
  (∀ e', env_keeps (env m) e' → Q () (set_env e' m)) →
  (∀ e e', env_keeps (env m) e' → faulty m e → F e (set_env e' m)) → spec io m Q F D.
Proof.
  intros Hq Hf. unfold io. apply spec_bind, draw_spec_fs. destruct (env_fault_law (env m)) as (Hk & Hs & Hnf).
  destruct (env_fault (env m)).1 as [e|] eqn:He; [|by apply spec_ret, Hq].
  apply spec_fail, Hf; [done|]. split; [|naive_solver]. intros Hst. by specialize (Hs Hst).
Qed.
Lemma quiet_set_env m e : env_keeps (env m) e → quiet m (set_env e m).
Proof. by split. Qed.
Lemma shape_set_env m X e : shape_ok m X → shape_ok (set_env e m) X.
Proof. intros [? [? ?]]. by split; [|split]. Qed.
Lemma fnode_spec i f m (Q : Fn → Mem → Prop) F D : fnodes m !! i = Some f → Q f m → spec (fnode i) m Q F D.
Proof. intros Hi Hq. unfold spec, fnode. by rewrite Hi. Qed.

(** *** Finding a child *)

(** The fnode cache gives the fnode asked for; it may be a new object. *)
Lemma cache_get_spec i f m X : shape_ok m X → fnodes m !! i = Some f →
  spec (cache_get i) m
    (λ j m', j = i ∧ env_keeps (env m) (env m') ∧ caches_ok m' ∧ ∃ f', (f' = f ∨ f' = fresh f) ∧
       m' = set_env (env m') (set_fcache (fcache m') (set_fnodes (<[i := f']> (fnodes m)) m)))
    (λ e m', quiet m m' ∧ shape_ok m' X ∧ faulty m e) (λ _, False).
Proof.
  intros [Hf [Hcap Hid]] Hi. unfold cache_get. apply spec_bind, spec_ask.
  unfold Lru.get_refresh. destruct (lm_get_refresh i (Lru.map (fcache m))) as [o M] eqn:HM.
  assert (Ho : o = lm_get i (Lru.map (fcache m))) by (unfold lm_get; by rewrite <- (lm_get_refresh_val i), HM).
  assert (HMget : ∀ j, lm_get j M = lm_get j (Lru.map (fcache m)))
    by (intros j; replace M with (lm_get_refresh i (Lru.map (fcache m))).2 by (by rewrite HM); apply lm_get_get_refresh).
  apply spec_bind, spec_modify. destruct o as [j|].
  - apply spec_ret. symmetry in Ho. apply Hid in Ho as ->. split; [done|]. split; [apply env_keeps_refl|].
    split; [by split; [|intros i' j'; cbn; rewrite HMget; apply Hid]|]. exists f. split; [by left|].
    unfold set_env, set_fcache, set_fnodes. cbn. rewrite insert_id by done. by destruct m.
  - apply spec_bind, io_spec.
    2: { intros e e' He Hns. split; [by split|]. split; [|done]. split; [done|].
      split; [done|]. intros i' j'. cbn. rewrite HMget. apply Hid. }
    intros e' He'. apply spec_bind, spec_ask, spec_bind. cbn [fnodes set_env set_fcache]. rewrite Hi. cbn [ok_or].
    apply spec_lift_ok, spec_bind. unfold put_fnode. apply spec_modify, spec_bind.
    destruct (lru_insert_any (A:=Eid) (V:=Eid) i i (Lru.mkLru (Lru.capacity (fcache m)) (Lru.used (fcache m)) M)) as (o & c' & Hins & Hc' & Hget);
      [by rewrite Hcap|]. rewrite Hins. apply spec_lift_ok, spec_bind, spec_modify, spec_ret.
    split; [done|]. split; [done|]. split.
    + split; [cbn; by rewrite Hc'|]. intros i' j' Hg. apply Hget in Hg as [[-> ->]|Hg]; [done|]. cbn in Hg. rewrite HMget in Hg. by apply Hid.
    + exists (fresh f). split; [by right|]. done.
Qed.

(** An fnode whose sub node list has changed, for the better. *)
Lemma recache_put m X p f f1 : shape_ok m X → fnodes m !! p = Some f → core f1 = core f → Fnode.parent f1 = Fnode.parent f →
  Lru.capacity (sub_nodes f1) = SUB_NODES_CNT →
  (∀ n i, sub f1 n = Some i → edges (fnodes m) p n = Some i ∧ parent_of (fnodes m) i = Some p) →
  let m1 := set_fnodes (<[p := f1]> (fnodes m)) m in quiet m m1 ∧ shape_ok m1 X.
Proof.
  intros [Hf Hc] Hp Hcore Hpar Hcap Hsub m1. pose proof (same_cores_insert _ _ _ _ Hp Hcore) as Hs.
  assert (Hparents : ∀ i, parent_of (<[p := f1]> (fnodes m)) i = parent_of (fnodes m) i).
  { intros i. unfold parent_of. destruct (decide (i = p)) as [->|]; [by rewrite lookup_insert_eq, Hp|by rewrite lookup_insert_ne]. }
  split.
  { split; [done|intros i q; cbn; by rewrite Hparents|intros i _; apply Hparents|done..]. }
  split; [|by destruct Hc].
  apply (forest_recache (fnodes m)); [done|done|]. intros j f' Hj. cbn in Hj.
  destruct (decide (j = p)) as [->|Hne].
  - rewrite lookup_insert_eq in Hj. injection Hj as <-. split; [done|]. split; [intros n i; rewrite Hparents; apply Hsub|].
    intros q Hq. apply (f_parent _ _ Hf). unfold parent_of. rewrite Hp. cbn. congruence.
  - rewrite lookup_insert_ne in Hj by done. split; [by eapply f_cap|].
    split; [intros n i; rewrite Hparents; by eapply f_sub|]. intros q Hq. apply (f_parent _ _ Hf). unfold parent_of. by rewrite Hj.
Qed.

Lemma edges_neq H X p n i : forest H X → edges H p n = Some i → p ≠ i.
Proof.
  intros Hf He ->. destruct (edges_kid _ _ _ _ He) as (f & _ & Hi & _).
  destruct (f_reach _ _ Hf i) as (r & l & Hr & Hl); [by eexists|].
  assert (Hc : path_to (edges H) i [n] = Some i) by (cbn; by rewrite He).
  by pose proof (path_no_cycle _ _ _ _ _ (f_inj _ _ Hf) (proj2 (f_roots _ _ Hf r Hr)) Hl Hc).
Qed.

(** A child, perhaps a new object, told its parent. *)
Lemma reparent m X p n i g f' : shape_ok m X → edges (fnodes m) p n = Some i → fnodes m !! i = Some g → f' = g ∨ f' = fresh g →
  let m1 := set_fnodes (<[i := set_parent (Some p) f']> (fnodes m)) m in
  quiet m m1 ∧ shape_ok m1 X ∧ parent_of (fnodes m1) i = Some p.
Proof.
  intros [Hf Hc] He Hi Hor m1.
  assert (Hcore : core (set_parent (Some p) f') = core g) by (by destruct Hor as [-> | ->]).
  pose proof (same_cores_insert _ _ _ _ Hi Hcore) as Hs.
  assert (Hold : ∀ q, parent_of (fnodes m) i = Some q → q = p).
  { intros q Hq. destruct (f_parent _ _ Hf _ _ Hq) as [n' Hn'].
    - intros Hx. by apply (proj2 (f_roots _ _ Hf _ Hx)) in He.
    - by destruct (f_inj _ _ Hf _ _ _ _ _ He Hn'). }
  assert (Hpar : parent_of (fnodes m1) i = Some p) by (unfold parent_of; cbn; by rewrite lookup_insert_eq).
  assert (Hother : ∀ j, j ≠ i → parent_of (fnodes m1) j = parent_of (fnodes m) j)
    by (intros j Hj; unfold parent_of; cbn; by rewrite lookup_insert_ne).
  assert (Hkeep : ∀ j q, parent_of (fnodes m) j = Some q → parent_of (fnodes m1) j = Some q).
  { intros j q Hq. destruct (decide (j = i)) as [->|Hne]; [by rewrite Hpar, (Hold q Hq)|by rewrite Hother]. }
  split; [split; [done|done|intros j Hj; apply Hother; intros ->; by apply Hj in He|done..]|]. split; [|done]. split; [|by destruct Hc].
  apply (forest_recache (fnodes m)); [done|done|]. intros j fj Hj. cbn in Hj.
  destruct (decide (j = i)) as [->|Hne].
  - rewrite lookup_insert_eq in Hj. injection Hj as <-. split; [|split].
    + destruct Hor as [-> | ->]; [exact (f_cap _ _ Hf _ _ Hi)|done].
    + intros n' i' Hs'. assert (Hg : sub g n' = Some i').
      { destruct Hor as [-> | ->]; [done|]. unfold sub in Hs'. cbn in Hs'. by rewrite lm_get_new in Hs'. }
      destruct (f_sub _ _ Hf _ _ _ _ Hi Hg) as [? ?]. split; [done|by apply Hkeep].
    + intros q [= <-] _. by exists n.
  - rewrite lookup_insert_ne in Hj by done. split; [by eapply (f_cap _ _ Hf)|]. split.
    + intros n' i' Hs'. destruct (f_sub _ _ Hf _ _ _ _ Hj Hs') as [? ?]. split; [done|by apply Hkeep].
    + intros q Hq. apply (f_parent _ _ Hf). unfold parent_of. by rewrite Hj.
Qed.

Lemma load_child_spec p n f m X : shape_ok m X → fnodes m !! p = Some f →
  spec (load_child p n) m
    (λ i m', edges (fnodes m) p n = Some i ∧ quiet m m' ∧ shape_ok m' X ∧ parent_of (fnodes m') i = Some p)
    (λ e m', quiet m m' ∧ shape_ok m' X ∧ ((e = NotFound ∧ edges (fnodes m) p n = None) ∨ faulty m e))
    (λ _, False).
Proof.
  intros Hok Hp. pose proof (s_forest _ _ Hok) as Hf. unfold load_child. apply spec_bind. eapply fnode_spec; [done|].
  unfold Lru.get_refresh. destruct (lm_get_refresh n (Lru.map (sub_nodes f))) as [o M] eqn:HM.
  assert (Ho : o = sub f n) by (unfold sub, lm_get; by rewrite <- (lm_get_refresh_val n), HM).
  set (f1 := set_sub_nodes _ f).
  assert (Hf1 : ∀ k, sub f1 k = sub f k).
  { intros k. unfold sub, f1. cbn. replace M with (lm_get_refresh n (Lru.map (sub_nodes f))).2 by by rewrite HM. apply lm_get_get_refresh. }
  destruct (recache_put m X p f f1) as [Hq1 Hok1]; try done; [exact (f_cap _ _ Hf _ _ Hp)|intros k i; rewrite Hf1; by apply (f_sub _ _ Hf)|].
  set (m1 := set_fnodes (<[p := f1]> (fnodes m)) m) in *. apply spec_bind. unfold put_fnode at 1. apply spec_modify. fold m1.
  assert (Hp1 : fnodes m1 !! p = Some f1) by apply lookup_insert_eq.
  assert (He : ∀ k, edges (fnodes m1) p k = edges (fnodes m) p k) by (intros k; by apply quiet_edges).
  assert (Hslow : ∀ m2, quiet m m2 → shape_ok m2 X → fnodes m2 !! p = Some f1 → spec
    (k ← lift (ok_or NotFound (find (λ c, bool_decide (ChildEntry.name c = n)) (kids f)));
     i ← cache_get (ChildEntry.id k); child ← fnode i; _ ← put_fnode i (set_parent (Some p) child); par ← fnode p;
     '(_, sn) ← lift (Lru.insert (K:=string) (V:=Eid) n i (sub_nodes par)); _ ← put_fnode p (set_sub_nodes sn par); mret i) m2
    (λ i m', edges (fnodes m) p n = Some i ∧ quiet m m' ∧ shape_ok m' X ∧ parent_of (fnodes m') i = Some p)
    (λ e m', quiet m m' ∧ shape_ok m' X ∧ ((e = NotFound ∧ edges (fnodes m) p n = None) ∨ faulty m e))
    (λ _, False)); [|].
  2: { apply spec_bind. destruct o as [i|]; [|by apply spec_ret, Hslow].
    apply draw_spec_fs. pose proof (env_alive_law i (env m1)) as Ha. destruct (env_alive i (env m1)).1.
    - apply spec_ret. symmetry in Ho. destruct (f_sub _ _ Hf _ _ _ _ Hp Ho) as [? Hpar]. split; [done|].
      split; [eapply quiet_trans; [done|by apply quiet_set_env]|]. split; [by apply shape_set_env|]. by apply (q_parents _ _ Hq1).
    - apply Hslow; [eapply quiet_trans; [done|by apply quiet_set_env]|by apply shape_set_env|done]. }
  intros m2 Hq2 Hok2 Hp2. apply spec_bind. change (find _ (kids f)) with (kid_named n f).
  destruct (kid_named n f) as [k|] eqn:Hk; cbn [ok_or].
  2: { apply spec_fail. split; [done|]. split; [done|]. left. split; [done|]. unfold edges. rewrite Hp. cbn. by rewrite Hk. }
  apply spec_lift_ok. assert (Hedge : edges (fnodes m) p n = Some (ChildEntry.id k)) by (unfold edges; rewrite Hp; cbn; by rewrite Hk).
  set (i := ChildEntry.id k) in *. assert (Hedge2 : edges (fnodes m2) p n = Some i) by (by rewrite (quiet_edges m)).
  destruct (edges_dom _ _ _ _ _ (s_forest _ _ Hok2) Hedge2) as [g Hg]. pose proof (edges_neq _ _ _ _ _ (s_forest _ _ Hok2) Hedge2) as Hne.
  apply spec_bind. eapply spec_mono; [by apply (cache_get_spec i g m2 X)| | |done].
  2: { intros e m3 (Hq3 & Hok3 & Hns). split; [by eapply quiet_trans|]. split; [done|]. right. by apply (quiet_steady m m2). }
  intros ? m3 (-> & Henv & Hc3 & f' & Hor & ->). cbn [env fcache fnodes set_env set_fcache set_fnodes].
  apply spec_bind. eapply fnode_spec; [cbn; apply lookup_insert_eq|]. apply spec_bind. unfold put_fnode at 1. apply spec_modify.
  cbn [fnodes set_env set_fcache set_fnodes]. rewrite insert_insert_eq.
  destruct (reparent m2 X p n i g f' Hok2 Hedge2 Hg Hor) as (Hq4 & Hok4 & Hpar4).
  set (m4 := set_fnodes (<[i := set_parent (Some p) f']> (fnodes m2)) m2) in *.
  match goal with |- spec _ ?m5 _ _ _ => assert (Hq5 : quiet m4 m5) by (by split); assert (Hok5 : shape_ok m5 X) by (split; [apply Hok4|by destruct Hc3]);
    assert (Hp5 : fnodes m5 !! p = Some f1) by (cbn; by rewrite lookup_insert_ne); assert (Hpar5 : parent_of (fnodes m5) i = Some p) by exact Hpar4;
    set (m6 := m5) in * end.
  assert (Hcap1 : Lru.capacity (sub_nodes f1) = SUB_NODES_CNT) by exact (f_cap _ _ (s_forest _ _ Hok5) _ _ Hp5).
  apply spec_bind. eapply fnode_spec; [exact Hp5|].
  destruct (lru_insert_any (A:=string) (V:=Eid) n i (sub_nodes f1)) as (o' & sn & Hins & Hcap & Hget); [by rewrite Hcap1|].
  apply spec_bind. rewrite Hins. apply spec_lift_ok, spec_bind. unfold put_fnode. apply spec_modify, spec_ret. fold m6.
  assert (Hq6 : quiet m m6) by exact (quiet_trans _ _ _ Hq2 (quiet_trans _ _ _ Hq4 Hq5)).
  destruct (recache_put m6 X p f1 (set_sub_nodes sn f1)) as [Hq7 Hok7]; try done; [cbn; congruence| |].
  { intros n' i' Hs. apply Hget in Hs as [[-> ->]|Hs].
    - split; [|done]. by rewrite (quiet_edges m).
    - by apply (f_sub _ _ (s_forest _ _ Hok5) _ _ _ _ Hp5). }
  split; [done|]. split; [by eapply quiet_trans|]. split; [done|]. by apply (q_parents _ _ Hq7).
Qed.

(** *** Finding an fnode by path *)

(** What is found knows its parent. *)
Definition knows_parent m i l j : Prop :=
  ∀ l0 n, l = l0 ++ [n] → ∃ q, path_to (edges (fnodes m)) i l0 = Some q ∧ parent_of (fnodes m) j = Some q.

Lemma knows_parent_quiet m m' i l j : quiet m m' → knows_parent m i l j → knows_parent m' i l j.
Proof.
  intros Hq Hk l0 n Hl. destruct (Hk l0 n Hl) as (q & Hp & Hpar). exists q. rewrite (quiet_path m) by done.
  split; [done|by apply (q_parents _ _ Hq)].
Qed.

Lemma walk_spec l i m X : shape_ok m X → is_Some (fnodes m !! i) →
  spec (Fs.walk i l) m
    (λ j m', path_to (edges (fnodes m)) i l = Some j ∧ quiet m m' ∧ shape_ok m' X ∧ knows_parent m' i l j)
    (λ e m', quiet m m' ∧ shape_ok m' X ∧ ((e = NotFound ∧ path_to (edges (fnodes m)) i l = None) ∨ faulty m e))
    (λ _, False).
Proof.
  revert i m. induction l as [|n l IH]; intros i m Hok [f Hi]; cbn [Fs.walk].
  { apply spec_ret. split; [done|]. split; [apply quiet_refl|]. split; [done|]. intros l0 n Hl. by destruct l0. }
  apply spec_bind. eapply spec_mono; [by apply (load_child_spec i n f m X)| | |done].
  - intros j m1 (He & Hq & Hok1 & Hpar). pose proof (edges_dom _ _ _ _ _ (s_forest _ _ Hok) He) as Hj.
    assert (Hj1 : is_Some (fnodes m1 !! j)).
    { destruct Hj as [g Hg]. destruct (same_cores_lookup _ _ _ _ (same_cores_sym _ _ (q_cores _ _ Hq)) Hg) as (g' & ? & _). by exists g'. }
    eapply spec_mono; [by apply (IH j m1)| | |done].
    + intros k m2 (Hp & Hq2 & Hok2 & Hk). pose proof (quiet_trans _ _ _ Hq Hq2) as Hq12. cbn. rewrite He. cbn.
      rewrite (quiet_path m) in Hp by done. split; [done|]. split; [done|]. split; [done|].
      intros l0 n' Hl. destruct l0 as [|n0 l0]; [|cbn in Hl; injection Hl as -> ->].
      * destruct l as [|n1 l]; [|done]. injection Hp as <-. exists i. split; [done|]. by apply (q_parents _ _ Hq2).
      * destruct (Hk l0 n' eq_refl) as (q & Hq0 & Hpq). exists q. split; [|done]. cbn.
        rewrite (quiet_edges m), He by done. cbn. done.
    + intros e m2 (Hq2 & Hok2 & Hor). split; [by eapply quiet_trans|]. split; [done|].
      destruct Hor as [[-> Hn]|Hns]; [|right; by apply (quiet_steady m m1)]. left. split; [done|]. cbn. rewrite He. cbn.
      by rewrite <- (quiet_path m m1).
  - intros e m1 (Hq & Hok1 & Hor). split; [done|]. split; [done|]. destruct Hor as [[-> Hn]|Hns]; [|by right].
    left. split; [done|]. cbn. by rewrite Hn.
Qed.

Context (fs : Fs.Fs).
Abbreviation rt := (Fs.root fs).

(** The fnode at a path. *)
Definition at_path m (p : Path) : option Eid := if Path.has_root p then path_to (edges (fnodes m)) rt (Path.comps p) else None.

Lemma at_path_quiet m m' (p : Path) : quiet m m' → at_path m' p = at_path m p.
Proof. intros Hq. unfold at_path. case_match; [by apply quiet_path|done]. Qed.

Lemma resolve_spec (p : Path) m X : shape_ok m X → rt ∈ X →
  spec (Fs.resolve fs p) m
    (λ j m', at_path m p = Some j ∧ Path.has_root p = true ∧ quiet m m' ∧ shape_ok m' X ∧ knows_parent m' rt (Path.comps p) j)
    (λ e m', quiet m m' ∧ shape_ok m' X ∧ ((e = (if Path.has_root p then NotFound else InvalidPath) ∧ at_path m p = None) ∨ faulty m e))
    (λ _, False).
Proof.
  intros Hok Hr. unfold Fs.resolve, at_path. destruct (Path.has_root p); cbn [negb].
  - eapply spec_mono; [apply (walk_spec _ _ _ _ Hok); by apply (f_roots _ _ (s_forest _ _ Hok))| | |done].
    + intros j m' (? & ? & ? & ?). done.
    + done.
  - apply spec_fail. split; [apply quiet_refl|]. split; [done|]. by left.
Qed.
End inv.
