(* ===== verification/FsForest.v ===== *)
(** * Changing the forest of fnodes: detaching, attaching, adding and dropping. *)
From stdpp Require Import strings.
From S2P Require Import Prelude Run Base Segment Fnode Fs FsTree FsInv.
Import Mem Fnode FileType(FileType, File, Dir).

Section forest.
Context {K SN : Type} `{!LinkedMapOps string Eid SN, !LinkedMap string Eid SN}.
Abbreviation Fn := (Fnode.Fnode K SN).
Abbreviation heap := (gmap Eid Fn).
Implicit Types (f g : Fn) (H : heap) (p i r : Eid) (n : string) (X Y : gset Eid) (k : ChildEntry.ChildEntry).

Lemma edges_at H p n f : H !! p = Some f → edges H p n = ChildEntry.id <$> kid_named n f.
Proof. unfold edges. by intros ->. Qed.
Lemma edges_other H H' p n : H' !! p = H !! p → edges H' p n = edges H p n.
Proof. unfold edges. by intros ->. Qed.
Lemma edges_none H p n : H !! p = None → edges H p n = None.
Proof. unfold edges. by intros ->. Qed.
Lemma edges_leaf H p n f : H !! p = Some f → kids f = [] → edges H p n = None.
Proof. intros Hp Hk. rewrite (edges_at _ _ _ _ Hp). unfold kid_named. by rewrite Hk. Qed.
Lemma parent_at H i f : H !! i = Some f → parent_of H i = Fnode.parent f.
Proof. unfold parent_of. by intros ->. Qed.

(** One entry more among others. *)
Lemma find_named_more n l1 k l2 : NoDup (ChildEntry.name <$> l1 ++ k :: l2) →
  find (named n) (l1 ++ k :: l2) = if decide (n = ChildEntry.name k) then Some k else find (named n) (l1 ++ l2).
Proof.
  induction l1 as [|d l1 IH]; cbn; intros Hnd.
  - unfold named at 1. rewrite bool_decide_decide. case_decide as Hd; case_decide; congruence.
  - apply NoDup_cons in Hnd as [Hni Hnd]. rewrite (IH Hnd). unfold named at 1 3. case_decide as Hd; [|done].
    rewrite bool_decide_eq_false_2; [done|]. intros Heq. apply Hni. rewrite Heq, Hd, fmap_app. set_solver.
Qed.
Lemma find_named_gone l1 k l2 : NoDup (ChildEntry.name <$> l1 ++ k :: l2) → find (named (ChildEntry.name k)) (l1 ++ l2) = None.
Proof.
  intros Hnd. destruct (find _ (l1 ++ l2)) as [d|] eqn:Hf; [|done]. apply find_some in Hf as [Hin Hd].
  apply list_elem_of_In in Hin. unfold named in Hd. apply bool_decide_eq_true_1 in Hd.
  rewrite fmap_app, fmap_cons in Hnd. apply NoDup_app in Hnd as (_ & Hdis & [Hni _]%NoDup_cons).
  apply elem_of_app in Hin as [Hin|Hin]; apply (list_elem_of_fmap_2 ChildEntry.name) in Hin; rewrite Hd in Hin; [|done].
  destruct (Hdis _ Hin). by left.
Qed.

(** ** Detaching *)

Lemma one_more_kids H H' p f f' l1 k l2 :
  H !! p = Some f → H' !! p = Some f' → kids f = l1 ++ k :: l2 → kids f' = l1 ++ l2 → NoDup (ChildEntry.name <$> kids f) →
  (∀ q m, q ≠ p → edges H' q m = edges H q m) →
  one_more (edges H') (edges H) p (ChildEntry.name k) (ChildEntry.id k).
Proof.
  intros Hp Hp' Hk Hk' Hnd Hother. rewrite Hk in Hnd. split.
  - rewrite (edges_at _ _ _ _ Hp'). unfold kid_named. by rewrite Hk', find_named_gone.
  - intros q m. destruct (decide (q = p)) as [->|Hne]; [|rewrite decide_False by tauto; by rewrite Hother].
    rewrite (edges_at _ _ _ _ Hp), (edges_at _ _ _ _ Hp'). unfold kid_named. rewrite Hk, Hk', find_named_more by done.
    destruct (decide (m = ChildEntry.name k)); [by rewrite decide_True|by rewrite decide_False by tauto].
Qed.

Record detached f f' k : Prop := {
  d_kids : ∃ l1 l2, kids f = l1 ++ k :: l2 ∧ kids f' = l1 ++ l2;
  d_type : ftype f' = ftype f;
  d_vers : vers f' = vers f;
  d_parent : Fnode.parent f' = Fnode.parent f;
  d_cap : Lru.capacity (sub_nodes f') = Lru.capacity (sub_nodes f);
  d_sub n i : sub f' n = Some i → sub f n = Some i ∧ n ≠ ChildEntry.name k
}.

Lemma forest_detach H X p f f' k : forest H X → H !! p = Some f → detached f f' k →
  forest (<[p := f']> H) ({[ChildEntry.id k]} ∪ X) ∧
  one_more (edges (<[p := f']> H)) (edges H) p (ChildEntry.name k) (ChildEntry.id k).
Proof.
  intros Hf Hp [(l1 & l2 & Hk & Hk') Ht Hv Hpar Hcap Hsub]. set (H' := <[p := f']> H).
  assert (Hp' : H' !! p = Some f') by apply lookup_insert_eq.
  assert (Hne : ∀ q, q ≠ p → H' !! q = H !! q) by (intros; by apply lookup_insert_ne).
  assert (Hm : one_more (edges H') (edges H) p (ChildEntry.name k) (ChildEntry.id k)).
  { eapply (one_more_kids H H' p f f'); [done..|by eapply f_names|]. intros q m Hq. by apply edges_other, Hne. }
  split; [|done]. set (i := ChildEntry.id k) in *. pose proof (f_inj _ _ Hf) as Hinj. pose proof (less_root _ _ _ _ _ Hm Hinj) as Htop.
  assert (Hparents : ∀ j, parent_of H' j = parent_of H j).
  { intros j. destruct (decide (j = p)) as [->|Hj]; [by rewrite (parent_at _ _ _ Hp), (parent_at _ _ _ Hp')|unfold parent_of; by rewrite Hne]. }
  assert (Hlook : ∀ q g', H' !! q = Some g' → ∃ g, H !! q = Some g ∧ ftype g' = ftype g ∧ vers g' = vers g ∧ (∀ c, c ∈ kids g' → c ∈ kids g) ∧
    Lru.capacity (sub_nodes g') = Lru.capacity (sub_nodes g)).
  { intros q g' Hq. destruct (decide (q = p)) as [->|Hqp]; [|rewrite Hne in Hq by done; by exists g'].
    rewrite Hp' in Hq. injection Hq as <-. exists f. do 3 (split; [done|]). split; [|done]. rewrite Hk, Hk'. intros c. set_solver. }
  assert (Hdom : ∀ q g, H !! q = Some g → ∃ g', H' !! q = Some g' ∧ ftype g' = ftype g).
  { intros q g Hq. destruct (decide (q = p)) as [->|Hqp]; [|rewrite <- Hne in Hq by done; by exists g]. exists f'. split; [done|]. congruence. }
  split; [..|by eapply less_inj| | | | | | |].
  - intros q g' Hq. destruct (decide (q = p)) as [->|Hqp]; [|rewrite Hne in Hq by done; by eapply f_names].
    rewrite Hp' in Hq. injection Hq as <-. pose proof (f_names _ _ Hf _ _ Hp) as Hnd. rewrite Hk in Hnd. rewrite Hk'.
    rewrite fmap_app, fmap_cons in Hnd. rewrite fmap_app. apply NoDup_app in Hnd as (? & Hdis & [_ ?]%NoDup_cons).
    apply NoDup_app. split; [done|]. split; [|done]. intros x Hx Hx'. apply (Hdis x Hx). by right.
  - intros q g' c Hq Hc. destruct (Hlook _ _ Hq) as (g & Hg & _ & _ & Hin & _).
    destruct (f_kids _ _ Hf _ _ _ Hg (Hin _ Hc)) as (h & Hh & Hth). destruct (Hdom _ _ Hh) as (h' & ? & ?). exists h'. split; [done|congruence].
  - intros r [->%elem_of_singleton|Hr]%elem_of_union.
    + split; [|done]. destruct (f_kids _ _ Hf p f k Hp) as (h & Hh & _); [rewrite Hk; set_solver|].
      destruct (Hdom _ _ Hh) as (h' & ? & _). by exists h'.
    + destruct (f_roots _ _ Hf _ Hr) as [[g Hg] Htr]. split; [destruct (Hdom _ _ Hg) as (g' & ? & _); by exists g'|]. by eapply less_old_root.
  - intros j [g' Hj]. destruct (Hlook _ _ Hj) as (g & Hg & _). destruct (f_reach _ _ Hf j) as (r & l & Hr & Hl); [by exists g|].
    destruct (more_path_inv _ _ _ _ _ Hm _ _ _ Hl) as [Hl'|(l1' & l2' & _ & _ & Hl')]; [exists r, l; split; [set_solver|done]|].
    destruct (more_path_inv _ _ _ _ _ Hm _ _ _ Hl') as [Hl2|(la & lb & -> & Hla & Hlb)]; [exists i, l2'; split; [set_solver|done]|].
    (* a path from the detached one cannot use the edge again *)
    pose proof (more_path _ _ _ _ _ Hm _ _ _ Hla) as Hla'.
    assert (Hcyc : path_to (edges H) i (la ++ [ChildEntry.name k]) = Some i).
    { rewrite path_app, Hla'. cbn. by rewrite (more_new _ _ _ _ _ Hm). }
    destruct (f_reach _ _ Hf i) as (r' & lr & Hr' & Hlr); [destruct (f_kids _ _ Hf p f k Hp) as (h & Hh & _); [rewrite Hk; set_solver|by exists h]|].
    pose proof (path_no_cycle _ _ _ _ _ Hinj (proj2 (f_roots _ _ Hf _ Hr')) Hlr Hcyc). by destruct la.
  - intros q g' Hq Hty. destruct (Hlook _ _ Hq) as (g & Hg & Htg & _ & Hin & _). destruct (kids g') as [|c l] eqn:Hkg; [done|].
    rewrite (f_file _ _ Hf _ _ Hg) in Hin by congruence. exfalso. eapply not_elem_of_nil, (Hin c). by left.
  - intros q g' Hq Hty. destruct (Hlook _ _ Hq) as (g & Hg & Htg & -> & _). eapply f_dir; [done..|congruence].
  - intros q g' n j Hq Hs. rewrite Hparents. destruct (decide (q = p)) as [->|Hqp].
    + rewrite Hp' in Hq. injection Hq as <-. destruct (Hsub _ _ Hs) as [Hs' Hn]. destruct (f_sub _ _ Hf _ _ _ _ Hp Hs') as [He ?]. split; [|done].
      destruct Hm as [_ Hm]. rewrite Hm, decide_False in He by tauto. done.
    + rewrite Hne in Hq by done. destruct (f_sub _ _ Hf _ _ _ _ Hq Hs) as [He ?]. split; [|done]. by rewrite (edges_other H) by (by apply Hne).
  - intros j q Hj Hx. rewrite Hparents in Hj. destruct (f_parent _ _ Hf _ _ Hj) as [n Hn]; [set_solver|]. exists n.
    destruct (more_inv _ _ _ _ _ Hm _ _ _ Hn) as [(_ & _ & ->)|?]; [|done]. destruct Hx. set_solver.
  - intros q g' Hq. destruct (Hlook _ _ Hq) as (g & Hg & _ & _ & _ & ->). by eapply f_cap.
Qed.

(** ** Attaching *)

Record attached f f' k : Prop := {
  a_kids : kids f' = kids f ++ [k];
  a_type : ftype f' = ftype f;
  a_vers : vers f' = vers f;
  a_parent : Fnode.parent f' = Fnode.parent f;
  a_cap : Lru.capacity (sub_nodes f') = Lru.capacity (sub_nodes f);
  a_sub n i : sub f' n = Some i → (n = ChildEntry.name k ∧ i = ChildEntry.id k) ∨ sub f n = Some i
}.

Lemma edges_none_not_in H p n f : H !! p = Some f → edges H p n = None → n ∉ ChildEntry.name <$> kids f.
Proof.
  intros Hp He Hin. apply list_elem_of_fmap in Hin as (k & -> & Hk). rewrite (edges_at _ _ _ _ Hp) in He.
  apply fmap_None in He. pose proof (find_none _ _ He k (proj1 (list_elem_of_In _ _) Hk)) as Hn.
  unfold named in Hn. by rewrite bool_decide_eq_true_2 in Hn.
Qed.

Lemma forest_attach H X r l0 p f f' g n c :
  forest H X → H !! p = Some f → H !! c = Some g → c ∈ X → r ∈ X → r ≠ c → path_to (edges H) r l0 = Some p →
  ftype f = Dir → edges H p n = None → attached f f' (ChildEntry.mkChild c (ftype g) n) →
  let H' := <[p := f']> (<[c := set_parent (Some p) g]> H) in
  forest H' (X ∖ {[c]}) ∧ one_more (edges H) (edges H') p n c ∧ p ≠ c.
Proof.
  intros Hf Hp Hc HcX HrX Hrc Hl0 Hdir Hnone [Hk Ht Hv Hpar Hcap Hsub] H'. cbn in Hsub. pose proof (f_inj _ _ Hf) as Hinj.
  destruct (f_roots _ _ Hf _ HcX) as [_ Hctop]. destruct (f_roots _ _ Hf _ HrX) as [_ Hrtop].
  assert (Hpc : p ≠ c). { intros ->. by destruct (path_unique _ r c l0 [] c Hinj Hrtop Hctop Hl0 eq_refl). }
  set (g' := set_parent (Some p) g). set (k := ChildEntry.mkChild c (ftype g) n) in *.
  assert (Hp' : H' !! p = Some f') by apply lookup_insert_eq.
  assert (Hc' : H' !! c = Some g') by (unfold H'; rewrite lookup_insert_ne by done; apply lookup_insert_eq).
  assert (Hne : ∀ q, q ≠ p → q ≠ c → H' !! q = H !! q) by (intros; unfold H'; by rewrite !lookup_insert_ne).
  assert (Hec : ∀ q m, q ≠ p → edges H' q m = edges H q m).
  { intros q m Hq. destruct (decide (q = c)) as [->|]; [by rewrite (edges_at _ _ _ _ Hc), (edges_at _ _ _ _ Hc')|by apply edges_other, Hne]. }
  assert (Hnd' : NoDup (ChildEntry.name <$> kids f')).
  { rewrite Hk, fmap_app. apply NoDup_app. split; [by eapply f_names|]. split; [|apply NoDup_singleton].
    intros x Hx ->%list_elem_of_singleton. by apply (edges_none_not_in _ _ _ _ Hp Hnone). }
  assert (Hm : one_more (edges H) (edges H') p n c).
  { apply (one_more_kids H' H p f' f (kids f) k []); [done..|by rewrite app_nil_r|done|]. intros q m Hq. symmetry. by apply Hec. }
  split; [|by split].
  assert (Hparents : ∀ j, parent_of H' j = if decide (j = c) then Some p else parent_of H j).
  { intros j. case_decide as Hj; [subst; by rewrite (parent_at _ _ _ Hc')|].
    destruct (decide (j = p)) as [->|]; [by rewrite (parent_at _ _ _ Hp), (parent_at _ _ _ Hp')|unfold parent_of; by rewrite Hne]. }
  assert (Hlook : ∀ q h', H' !! q = Some h' → q = p ∧ h' = f' ∨ q ≠ p ∧ ∃ h, H !! q = Some h ∧ ftype h' = ftype h ∧ vers h' = vers h ∧ kids h' = kids h ∧ sub_nodes h' = sub_nodes h).
  { intros q h' Hq. destruct (decide (q = p)) as [->|]; [left; split; congruence|right; split; [done|]].
    destruct (decide (q = c)) as [->|]; [|rewrite Hne in Hq by done; by exists h']. rewrite Hc' in Hq. injection Hq as <-. by exists g. }
  assert (Hdom : ∀ q h, H !! q = Some h → ∃ h', H' !! q = Some h' ∧ ftype h' = ftype h).
  { intros q h Hq. destruct (decide (q = p)) as [->|]; [exists f'; split; [done|congruence]|].
    destruct (decide (q = c)) as [->|]; [rewrite Hc in Hq; injection Hq as <-; by exists g'|exists h; by rewrite Hne]. }
  split; [..|by eapply more_inj| | | | | | |].
  - intros q h' Hq. destruct (Hlook _ _ Hq) as [[-> ->]|(_ & h & Hh & _ & _ & -> & _)]; [done|by eapply f_names].
  - intros q h' d Hq Hd. assert (Hd' : d = k ∨ ∃ x h, H !! x = Some h ∧ d ∈ kids h).
    { destruct (Hlook _ _ Hq) as [[-> ->]|(_ & h & Hh & _ & _ & Hkh & _)]; [|right; exists q, h; by rewrite <- Hkh].
      rewrite Hk in Hd. apply elem_of_app in Hd as [?| ->%list_elem_of_singleton]; [right; by exists p, f|by left]. }
    destruct Hd' as [->|(x & h & Hh & Hd')]; [by exists g'|]. destruct (f_kids _ _ Hf _ _ _ Hh Hd') as (y & Hy & Hty).
    destruct (Hdom _ _ Hy) as (y' & ? & ?). exists y'. split; [done|congruence].
  - intros s [Hs Hsc]%elem_of_difference. destruct (f_roots _ _ Hf _ Hs) as [[h Hh] Hst].
    split; [destruct (Hdom _ _ Hh) as (h' & ? & _); by exists h'|]. eapply more_root; [done..|set_solver].
  - intros j [h' Hj]. assert (Hjd : is_Some (H !! j)) by (destruct (Hlook _ _ Hj) as [[-> _]|(_ & h & ? & _)]; eauto).
    destruct (f_reach _ _ Hf j Hjd) as (s & l & Hs & Hl). destruct (decide (s = c)) as [->|].
    + exists r, (l0 ++ n :: l). split; [set_solver|]. rewrite path_app, (more_path _ _ _ _ _ Hm _ _ _ Hl0). cbn.
      rewrite (more_new _ _ _ _ _ Hm). cbn. by apply (more_path _ _ _ _ _ Hm).
    + exists s, l. split; [set_solver|]. by apply (more_path _ _ _ _ _ Hm).
  - intros q h' Hq Hty. destruct (Hlook _ _ Hq) as [[-> ->]|(_ & h & Hh & Ht' & _ & -> & _)]; [congruence|]. eapply f_file; [done..|congruence].
  - intros q h' Hq Hty. destruct (Hlook _ _ Hq) as [[-> ->]|(_ & h & Hh & Ht' & -> & _)]; [rewrite Hv; by eapply f_dir|]. eapply f_dir; [done..|congruence].
  - intros q h' m j Hq Hs. rewrite Hparents.
    assert (Hold : ∀ h, H !! q = Some h → sub h m = Some j → edges H' q m = Some j ∧ (if decide (j = c) then Some p else parent_of H j) = Some q).
    { intros h Hh Hs'. destruct (f_sub _ _ Hf _ _ _ _ Hh Hs') as [He ?]. split; [by apply (more_old _ _ _ _ _ Hm)|].
      rewrite decide_False; [done|]. intros ->. by apply Hctop in He. }
    destruct (Hlook _ _ Hq) as [[-> ->]|(_ & h & Hh & _ & _ & _ & Hsn)].
    + destruct (Hsub _ _ Hs) as [[-> ->]|Hs']; [|by eapply Hold]. split; [by apply (more_new _ _ _ _ _ Hm)|by rewrite decide_True].
    + eapply Hold; [done|]. unfold sub in *. by rewrite <- Hsn.
  - intros j q Hj Hx. rewrite Hparents in Hj. case_decide as Hjc.
    + injection Hj as <-. subst. exists n. by apply (more_new _ _ _ _ _ Hm).
    + destruct (f_parent _ _ Hf _ _ Hj) as [m Hm']; [set_solver|]. exists m. by apply (more_old _ _ _ _ _ Hm).
  - intros q h' Hq. destruct (Hlook _ _ Hq) as [[-> ->]|(_ & h & Hh & _ & _ & _ & ->)]; [rewrite Hcap; by eapply f_cap|by eapply f_cap].
Qed.

(** ** An fnode of its own *)

Lemma forest_new H X c g : forest H X → H !! c = None → kids g = [] → Fnode.parent g = None → (∀ n, sub g n = None) →
  Lru.capacity (sub_nodes g) = SUB_NODES_CNT → (ftype g = Dir → vers g = []) →
  forest (<[c := g]> H) ({[c]} ∪ X) ∧ (∀ p n, edges (<[c := g]> H) p n = edges H p n) ∧ top (edges H) c.
Proof.
  intros Hf Hc Hk Hpar Hsub Hcap Hv. set (H' := <[c := g]> H).
  assert (Hc' : H' !! c = Some g) by apply lookup_insert_eq.
  assert (Hne : ∀ q, q ≠ c → H' !! q = H !! q) by (intros; by apply lookup_insert_ne).
  assert (He : ∀ p n, edges H' p n = edges H p n).
  { intros p n. destruct (decide (p = c)) as [->|]; [rewrite (edges_leaf _ _ _ _ Hc' Hk); by rewrite edges_none|by apply edges_other, Hne]. }
  assert (Htop : top (edges H) c) by (intros p n Hp; destruct (edges_dom _ _ _ _ _ Hf Hp); congruence).
  assert (Hparents : ∀ j, parent_of H' j = parent_of H j).
  { intros j. destruct (decide (j = c)) as [->|]; [rewrite (parent_at _ _ _ Hc'), Hpar; unfold parent_of; by rewrite Hc|unfold parent_of; by rewrite Hne]. }
  assert (Hlook : ∀ q h, H' !! q = Some h → q = c ∧ h = g ∨ H !! q = Some h).
  { intros q h Hq. destruct (decide (q = c)) as [->|]; [left; split; congruence|right; by rewrite <- Hne]. }
  assert (Hold : ∀ q h, H !! q = Some h → H' !! q = Some h) by (intros q h Hq; rewrite Hne; [done|congruence]).
  split; [|by split]. split.
  - intros p f Hp. destruct (Hlook _ _ Hp) as [[-> ->]|Hp']; [rewrite Hk; apply NoDup_nil_2|by eapply f_names].
  - intros p f d Hp Hd. destruct (Hlook _ _ Hp) as [[-> ->]|Hp']; [rewrite Hk in Hd; by apply not_elem_of_nil in Hd|].
    destruct (f_kids _ _ Hf _ _ _ Hp' Hd) as (h & Hh & ?). exists h. split; [by apply Hold|done].
  - intros p n q m i. rewrite !He. apply (f_inj _ _ Hf).
  - intros r Hr. destruct (decide (r = c)) as [->|]; [split; [by exists g|]; intros p n; rewrite He; apply Htop|].
    destruct (f_roots _ _ Hf r) as [[h Hh] Hrt]; [set_solver|]. split; [exists h; by apply Hold|]. intros q m. rewrite He. apply Hrt.
  - intros j [h Hj]. destruct (Hlook _ _ Hj) as [[-> ->]|Hj']; [exists c, []; set_solver|].
    destruct (f_reach _ _ Hf j) as (r & l & Hr & Hl); [by exists h|]. exists r, l. split; [set_solver|]. by rewrite (path_ext (edges H)).
  - intros p f Hp. destruct (Hlook _ _ Hp) as [[-> ->]|Hp']; [done|by eapply f_file].
  - intros p f Hp. destruct (Hlook _ _ Hp) as [[-> ->]|Hp']; [done|by eapply f_dir].
  - intros p f n i Hp Hs. destruct (Hlook _ _ Hp) as [[-> ->]|Hp']; [by rewrite Hsub in Hs|]. rewrite He, Hparents. by eapply f_sub.
  - intros i p. rewrite Hparents. intros Hi Hx. setoid_rewrite He. apply (f_parent _ _ Hf); [done|set_solver].
  - intros p f Hp. destruct (Hlook _ _ Hp) as [[-> ->]|Hp']; [done|by eapply f_cap].
Qed.

(** ** Leaves that go *)

Lemma forest_drop H X Y : forest H X → Y ⊆ X → (∀ y g, y ∈ Y → H !! y = Some g → kids g = []) →
  let H' := filter (λ kv : Eid * Fn, kv.1 ∉ Y) H in
  forest H' (X ∖ Y) ∧ (∀ p n, edges H' p n = edges H p n).
Proof.
  intros Hf HY Hleaf H'.
  assert (Hlook : ∀ q h, H' !! q = Some h ↔ H !! q = Some h ∧ (q ∉ Y)) by (intros; apply map_lookup_filter_Some).
  assert (He : ∀ p n, edges H' p n = edges H p n).
  { intros p n. destruct (H' !! p) as [f|] eqn:Hp.
    - apply Hlook in Hp as Hp'. apply edges_other. rewrite Hp. symmetry. apply Hp'.
    - rewrite edges_none by done. destruct (H !! p) as [f|] eqn:Hp'; [|by rewrite edges_none].
      destruct (decide (p ∈ Y)); [by rewrite (edges_leaf _ _ _ _ Hp') by by eapply Hleaf|]. by rewrite (proj2 (Hlook p f)) in Hp. }
  assert (Hin : ∀ p n i, edges H p n = Some i → i ∉ Y) by (intros p n i Hp Hi; by apply (proj2 (f_roots _ _ Hf _ (HY _ Hi))) in Hp).
  assert (Hpar : ∀ i p, parent_of H' i = Some p ↔ parent_of H i = Some p ∧ (i ∉ Y)).
  { intros i p. destruct (H' !! i) as [h|] eqn:Hi.
    - apply Hlook in Hi as Hi'. destruct Hi' as [Hi' Hy]. rewrite (parent_at _ _ _ Hi), (parent_at _ _ _ Hi'). split; [by split|by intros [? _]].
    - unfold parent_of at 1. rewrite Hi. split; [done|]. intros [Hp Hy]. unfold parent_of in Hp. destruct (H !! i) as [h|] eqn:Hi'; [|done].
      by rewrite (proj2 (Hlook i h)) in Hi. }
  split; [|done]. split.
  - intros p f [Hp _]%Hlook. by eapply f_names.
  - intros p f d [Hp _]%Hlook Hd. destruct (f_kids _ _ Hf _ _ _ Hp Hd) as (h & Hh & ?). exists h. split; [|done]. apply Hlook. split; [done|].
    apply (Hin p (ChildEntry.name d)). rewrite (edges_at _ _ _ _ Hp), (kid_named_In _ _ d); [done|by eapply f_names|done|done].
  - intros p n q m i. rewrite !He. apply (f_inj _ _ Hf).
  - intros r [Hr Hy]%elem_of_difference. destruct (f_roots _ _ Hf _ Hr) as [[h Hh] Hrt]. split; [exists h; by apply Hlook|].
    intros p n. rewrite He. apply Hrt.
  - intros j [h [Hj Hy]%Hlook]. destruct (f_reach _ _ Hf j) as (r & l & Hr & Hl); [by exists h|].
    exists r, l. rewrite (path_ext (edges H)) by done. split; [|done]. apply elem_of_difference. split; [done|]. intros Hry.
    destruct (f_roots _ _ Hf _ Hr) as [[g Hg] _]. destruct l as [|n l]; [injection Hl as ->; done|]. cbn in Hl.
    by rewrite (edges_leaf _ _ _ _ Hg) in Hl by by eapply Hleaf.
  - intros p f [Hp _]%Hlook. by eapply f_file.
  - intros p f [Hp _]%Hlook. by eapply f_dir.
  - intros p f n i [Hp _]%Hlook Hs. destruct (f_sub _ _ Hf _ _ _ _ Hp Hs) as [He' ?]. rewrite He, Hpar. split; [done|]. split; [done|by eapply Hin].
  - intros i p [Hi Hy]%Hpar Hx. setoid_rewrite He. apply (f_parent _ _ Hf); [done|set_solver].
  - intros p f [Hp _]%Hlook. by eapply f_cap.
Qed.

(** ** Changes of what is in the fnodes *)

Record same_place f f' : Prop := {
  e_kids : kids f' = kids f;
  e_type : ftype f' = ftype f;
  e_parent : Fnode.parent f' = Fnode.parent f;
  e_cap : Lru.capacity (sub_nodes f') = Lru.capacity (sub_nodes f);
  e_sub n i : sub f' n = Some i → sub f n = Some i;
  e_vers : ftype f = Dir → vers f' = vers f
}.
Lemma same_place_refl f : same_place f f.
Proof. by split. Qed.

Lemma forest_data H H' X : forest H X →
  (∀ j, match H !! j, H' !! j with Some f, Some f' => same_place f f' | None, None => True | _, _ => False end) →
  forest H' X ∧ (∀ p n, edges H' p n = edges H p n).
Proof.
  intros Hf Hs.
  assert (Hlook : ∀ q h', H' !! q = Some h' → ∃ h, H !! q = Some h ∧ same_place h h').
  { intros q h' Hq. specialize (Hs q). rewrite Hq in Hs. destruct (H !! q) as [h|]; [by exists h|done]. }
  assert (Hdom : ∀ q h, H !! q = Some h → ∃ h', H' !! q = Some h' ∧ same_place h h').
  { intros q h Hq. specialize (Hs q). rewrite Hq in Hs. destruct (H' !! q) as [h'|]; [by exists h'|done]. }
  assert (He : ∀ p n, edges H' p n = edges H p n).
  { intros p n. destruct (H' !! p) as [h'|] eqn:Hp.
    - destruct (Hlook _ _ Hp) as (h & Hh & Hsp). rewrite (edges_at _ _ _ _ Hp), (edges_at _ _ _ _ Hh). unfold kid_named. by rewrite (e_kids _ _ Hsp).
    - rewrite edges_none by done. specialize (Hs p). rewrite Hp in Hs. destruct (H !! p) eqn:Hp'; [done|by rewrite edges_none]. }
  assert (Hpar : ∀ j, parent_of H' j = parent_of H j).
  { intros j. unfold parent_of. specialize (Hs j). destruct (H !! j), (H' !! j); try done. apply (e_parent _ _ Hs). }
  split; [|done]. split.
  - intros p f' Hp. destruct (Hlook _ _ Hp) as (f & Hp' & Hsp). rewrite (e_kids _ _ Hsp). by eapply f_names.
  - intros p f' d Hp Hd. destruct (Hlook _ _ Hp) as (f & Hp' & Hsp). rewrite (e_kids _ _ Hsp) in Hd.
    destruct (f_kids _ _ Hf _ _ _ Hp' Hd) as (h & Hh & Hth). destruct (Hdom _ _ Hh) as (h' & ? & Hsp'). exists h'. split; [done|]. rewrite (e_type _ _ Hsp'). done.
  - intros p n q m i. rewrite !He. apply (f_inj _ _ Hf).
  - intros r Hr. destruct (f_roots _ _ Hf _ Hr) as [[h Hh] Hrt]. split; [destruct (Hdom _ _ Hh) as (h' & ? & _); by exists h'|].
    intros p n. rewrite He. apply Hrt.
  - intros j [h' Hj]. destruct (Hlook _ _ Hj) as (h & Hh & _). destruct (f_reach _ _ Hf j) as (r & l & Hr & Hl); [by exists h|].
    exists r, l. by rewrite (path_ext (edges H)).
  - intros p f' Hp Hty. destruct (Hlook _ _ Hp) as (f & Hp' & Hsp). rewrite (e_kids _ _ Hsp). eapply f_file; [done..|]. by rewrite <- (e_type _ _ Hsp).
  - intros p f' Hp Hty. destruct (Hlook _ _ Hp) as (f & Hp' & Hsp). rewrite (e_type _ _ Hsp) in Hty. rewrite (e_vers _ _ Hsp Hty). by eapply f_dir.
  - intros p f' n i Hp Hsub. destruct (Hlook _ _ Hp) as (f & Hp' & Hsp). rewrite He, Hpar. eapply f_sub; [done..|]. by apply (e_sub _ _ Hsp).
  - intros i p. rewrite Hpar. setoid_rewrite He. apply (f_parent _ _ Hf).
  - intros p f' Hp. destruct (Hlook _ _ Hp) as (f & Hp' & Hsp). rewrite (e_cap _ _ Hsp). by eapply f_cap.
Qed.
Lemma forest_put H X i f f' : forest H X → H !! i = Some f → same_place f f' →
  forest (<[i := f']> H) X ∧ (∀ p n, edges (<[i := f']> H) p n = edges H p n).
Proof.
  intros Hf Hi Hs. apply forest_data; [done|]. intros j. destruct (decide (j = i)) as [->|]; [by rewrite Hi, lookup_insert_eq|].
  rewrite lookup_insert_ne by done. destruct (H !! j); [apply same_place_refl|done].
Qed.
End forest.
