(* ===== verification/FsCont.v ===== *)
(** * Versions and the contents they share: adding and removing versions keeps the content map true. *)
From stdpp Require Import strings.
From S2P Require Import Prelude Run Base Segment Fnode Fs FsTree FsInv.
Import Mem Fnode FileType(FileType, File, Dir).

(** What fnodes rely on of contents: [linked cs s]: the references the segments count are those
    of the contents [cs]; [fits c s]: the segments have all [c] refers to. Calls on contents
    that are linked or fit do not panic, find all segments, and keep it so. *)
Class ContentLaws (C K G Hash : Type) `{!ContentLayer C K G Hash} := {
  linked : list C → G → Prop;
  fits : C → G → Prop;
  linked_perm cs cs' s : cs ≡ₚ cs' → linked cs s → linked cs' s;
  new_fits cs s : linked cs s → fits ct_new s;
  linked_fits cs s c : linked cs s → c ∈ cs → fits c s;
  link_law cs c s : linked cs s → fits c s →
    match ct_link (K:=K) (Hash:=Hash) c s with Ok s' => linked (c :: cs) s' | Err e => outside e | Panic => False end;
  unlink_law cs c k s : linked (c :: cs) s →
    match ct_unlink (Hash:=Hash) c k s with Ok (_, s') => linked cs s' | Err e => outside e | Panic => False end;
  unlink_weak_law cs c k s : linked cs s → fits c s →
    match ct_unlink_weak (Hash:=Hash) c k s with Ok (_, s') => linked cs s' | Err e => outside e | Panic => False end;
  merge_law cs c c' s : linked cs s → c ∈ cs → fits c' s →
    match ct_merge_from (K:=K) (Hash:=Hash) c c' s with Ok (d, s') => linked cs s' ∧ fits d s' ∧ fits c' s' | Err e => outside e | Panic => False end;
  truncate_law cs c n s : linked cs s → c ∈ cs →
    match ct_truncate (K:=K) (Hash:=Hash) c n s with Ok (d, s') => linked cs s' ∧ fits d s' | Err e => outside e | Panic => False end
}.
#[export] Hint Mode ContentLaws - - - - - : typeclass_instances.

Section cont.
Context {C K G Hash E SN FC : Type} `{!EqDecision Hash, !Countable Hash, !Env E, !EnvLaws E, !ContentLayer C K G Hash, !ContentLaws C K G Hash}.
Context `{!LinkedMapOps string Eid SN, !LinkedMap string Eid SN, !LinkedMapOps Eid Eid FC, !LinkedMap Eid Eid FC}.
Abbreviation Fn := (Fnode.Fnode K SN).
Abbreviation Mem := (Mem.Mem C K G Hash E SN FC).
Abbreviation V := Version.Version.
Abbreviation hash := (ct_hash (C:=C) (K:=K) (S:=G) (Hash:=Hash)).
Abbreviation clen := (ct_len (C:=C) (K:=K) (S:=G) (Hash:=Hash)).
Implicit Types (f : Fn) (m : Mem) (v : V) (vs : list V) (i : Eid) (c : C) (h : Hash).

(** A call below that does not succeed. *)
Definition ct_fails : Prop :=
  (∃ c s, ∀ s', ct_link (C:=C) (K:=K) (S:=G) (Hash:=Hash) c s ≠ Ok s') ∨
  (∃ c k s, ∀ x, ct_unlink (C:=C) (K:=K) (S:=G) (Hash:=Hash) c k s ≠ Ok x) ∨
  (∃ c k s, ∀ x, ct_unlink_weak (C:=C) (K:=K) (S:=G) (Hash:=Hash) c k s ≠ Ok x) ∨
  (∃ c c' s, ∀ x, ct_merge_from (C:=C) (K:=K) (S:=G) (Hash:=Hash) c c' s ≠ Ok x) ∨
  (∃ c n s, ∀ x, ct_truncate (C:=C) (K:=K) (S:=G) (Hash:=Hash) c n s ≠ Ok x).
(** Why a call may return an error that its arguments do not explain. *)
Definition excused m (e : Error) : Prop := faulty m e ∨ (ct_fails ∧ outside e) ∨ e = RefOverflow.
Lemma excused_outside m (e : Error) : excused m e → outside e.
Proof. by intros [[_ ?]|[[_ ?]| ->]]. Qed.
Lemma excused_found m (e : Error) : excused m e → e ≠ NotFound.
Proof. by intros [??]%excused_outside. Qed.

(** ** What the content map promises of the versions in use *)

Definition uses i vs : Z := zlen (filter (λ v, Version.content_id v = i) vs).

Record cont_ok m vs : Prop := {
  k_has v : v ∈ vs → is_Some (contents m !! Version.content_id v);
  k_live v : v ∈ vs → Version.content_id v ∉ deleted m;
  k_zero : contents m !! 0 = None;
  k_ids i : is_Some (contents m !! i) ∨ i ∈ deleted m → i ∈ env_used (env m);
  k_map h i n : dedup m = true → content_map m !! h = Some (i, n) →
    n = uses i vs ∧ 1 ≤ n ∧ ∃ c, contents m !! i = Some c ∧ hash c = h;
  k_all v c : dedup m = true → v ∈ vs → contents m !! Version.content_id v = Some c →
    ∃ n, content_map m !! hash c = Some (Version.content_id v, n)
}.

Lemma uses_cons i v vs : uses i (v :: vs) = (if decide (Version.content_id v = i) then 1 else 0) + uses i vs.
Proof. unfold uses. rewrite filter_cons. case_decide; [rewrite zlen_cons; lia|lia]. Qed.
Lemma uses_perm i vs vs' : vs ≡ₚ vs' → uses i vs = uses i vs'.
Proof. intros Hp. unfold uses, zlen. by rewrite Hp. Qed.
Lemma uses_nonneg i vs : 0 ≤ uses i vs.
Proof. apply zlen_nonneg. Qed.
Lemma uses_pos i vs : 1 ≤ uses i vs ↔ ∃ v, v ∈ vs ∧ Version.content_id v = i.
Proof.
  induction vs as [|v vs IH].
  - split; [unfold uses; cbn; change (zlen (@nil V)) with 0; lia|]. by intros (v & ?%not_elem_of_nil & _).
  - rewrite uses_cons. pose proof (uses_nonneg i vs). case_decide as Hd.
    + split; [|lia]. intros _. exists v. by split; [left|].
    + rewrite Z.add_0_l, IH. split; intros (w & Hw & Hi); exists w; (split; [|done]); [by right|].
      apply elem_of_cons in Hw as [->|]; done.
Qed.
Lemma uses_zero i vs v : uses i vs = 0 → v ∈ vs → Version.content_id v ≠ i.
Proof. intros H0 Hv Hi. assert (1 ≤ uses i vs) by (apply uses_pos; eauto). lia. Qed.

Lemma cont_ok_perm m vs vs' : vs ≡ₚ vs' → cont_ok m vs → cont_ok m vs'.
Proof.
  intros Hp [H1 H2 H3 H4 H5 H6]. split; try done.
  - intros v. rewrite <- Hp. apply H1.
  - intros v. rewrite <- Hp. apply H2.
  - intros h i n Hd Hm. rewrite <- (uses_perm i _ _ Hp). by apply (H5 h).
  - intros v c. rewrite <- Hp. apply H6.
Qed.

(** ** What such calls change *)

Definition env_grows (e e' : E) : Prop := env_used e ⊆ env_used e' ∧ (env_steady e → env_steady e').
Record cont_step m m' : Prop := {
  p_fnodes : fnodes m' = fnodes m;
  p_fcache : fcache m' = fcache m;
  p_dedup : dedup m' = dedup m;
  p_env : env_grows (env m) (env m');
  p_contents i c : contents m !! i = Some c → contents m' !! i = Some c;
  p_new i : is_Some (contents m' !! i) → is_Some (contents m !! i) ∨ ((i ∉ env_used (env m)) ∧ i ∈ env_used (env m'));
  p_deleted i : i ∈ deleted m' → i ∈ deleted m ∨ is_Some (contents m !! i) ∨ ((i ∉ env_used (env m)) ∧ i ∈ env_used (env m'))
}.

Lemma env_grows_refl (e : E) : env_grows e e.
Proof. by split. Qed.
Lemma env_grows_trans (e1 e2 e3 : E) : env_grows e1 e2 → env_grows e2 e3 → env_grows e1 e3.
Proof. intros [? ?] [? ?]. split; [set_solver|auto]. Qed.
Lemma env_keeps_grows (e e' : E) : env_keeps e e' → env_grows e e'.
Proof. intros [He ?]. split; [by rewrite He|done]. Qed.
Lemma cont_step_refl m : cont_step m m.
Proof. split; auto using env_grows_refl. Qed.
Lemma cont_step_trans m1 m2 m3 : cont_step m1 m2 → cont_step m2 m3 → cont_step m1 m3.
Proof.
  intros [A1 A2 A3 A4 A5 A6 A7] [B1 B2 B3 B4 B5 B6 B7]. pose proof A4 as [Hu _]. pose proof B4 as [Hu' _].
  split; [congruence..|by eapply env_grows_trans|auto| |].
  - intros i [Hi|[Hi Hi']]%B6; [|right; set_solver]. apply A6 in Hi as [?|[? ?]]; [by left|right; set_solver].
  - intros i [Hi|[Hi|[Hi Hi']]]%B7; [| |right; right; set_solver].
    + apply A7 in Hi as [?|[?|[? ?]]]; [by left|by right; left|right; right; set_solver].
    + apply A6 in Hi as [?|[? ?]]; [by right; left|right; right; set_solver].
Qed.
Lemma excused_step m m' e : cont_step m m' → excused m' e → excused m e.
Proof. intros Hs [[Hn ?]|?]; [left; split; [|done]|by right]. intros Hst. apply Hn. by apply (p_env _ _ Hs). Qed.

Lemma cont_step_touch e t m : env_keeps (env m) e → cont_step m (set_trans t (deleted m) (set_env e m)).
Proof. intros Hk. split; try done; try (by apply env_keeps_grows); by left. Qed.
Lemma cont_ok_touch e t m vs : env_keeps (env m) e → cont_ok m vs → cont_ok (set_trans t (deleted m) (set_env e m)) vs.
Proof. intros [Hu _] [H1 H2 H3 H4 H5 H6]. split; try done. intros i Hi. cbn. rewrite Hu. by apply H4. Qed.

Lemma io_step m (Q : () → Mem → Prop) F D :
  (∀ e, env_keeps (env m) e → Q () (set_env e m)) →
  (∀ x e, env_keeps (env m) e → excused m x → F x (set_env e m)) → spec io m Q F D.
Proof. intros Hq Hf. apply io_spec; [done|]. intros x e He Hns. apply Hf; [done|by left]. Qed.
Lemma cont_step_env e m : env_keeps (env m) e → cont_step m (set_env e m).
Proof. intros Hk. split; try done; try (by apply env_keeps_grows); by left. Qed.
Lemma touch_spec i m (Q : () → Mem → Prop) F D :
  (∀ e, env_keeps (env m) e → Q () (set_trans ({[i]} ∪ touched m) (deleted m) (set_env e m))) →
  (∀ x e, env_keeps (env m) e → excused m x → F x (set_env e m)) → spec (touch i) m Q F D.
Proof. intros Hq Hf. unfold touch. apply spec_bind, io_step; [|done]. intros e He. apply spec_modify. by apply Hq. Qed.

(** ** The content map *)

Definition set_cm (cm : gmap Hash (Eid * Z)) m : Mem := set_content_map cm m.

Lemma cont_step_map cm m : cont_step m (set_content_map cm m).
Proof. split; try done; by left. Qed.

Lemma content_into_cow_spec c m (F : Error → Mem → Prop) D (Q : Eid → Mem → Prop) :
  (∀ i, is_Some (contents m !! i) → i ∈ env_used (env m)) →
  (∀ i m', cont_step m m' → (i ∉ env_used (env m)) → contents m' = <[i := c]> (contents m) → content_map m' = content_map m →
     deleted m' = deleted m → segs m' = segs m → env_used (env m') = {[i]} ∪ env_used (env m) → Q i m') →
  (∀ x m', cont_step m m' → excused m x → F x m') →
  spec (content_into_cow c) m Q F D.
Proof.
  intros Hids Hq Hf. unfold content_into_cow. apply spec_bind, draw_spec_fs. destruct (env_eid_law (env m)) as (Hni & Hu & Hst).
  destruct (env_eid (env m)) as [i e1]. cbn [fst snd] in *.
  assert (Hs1 : cont_step m (set_env e1 m)) by (split; try done; [split; [set_solver|done]|by left|by left]).
  apply spec_bind, touch_spec.
  - intros e2 He2. apply spec_bind, spec_modify, spec_ret. pose proof He2 as [Hu2 Hst2]. cbn [env set_env] in *.
    apply Hq; try done; cbn [env set_env set_trans set_contents contents deleted]; [|congruence].
    split; try done; cbn.
    + split; [set_solver|auto].
    + intros j d Hj. rewrite lookup_insert_ne; [done|]. intros ->. apply Hni, Hids. by eexists.
    + intros j. destruct (decide (j = i)) as [->|]; [intros _; right; set_solver|]. rewrite lookup_insert_ne by done. by left.
    + by left.
  - intros x e2 He2 Hx. apply Hf; [|by eapply excused_step]. eapply cont_step_trans; [done|by apply cont_step_env].
Qed.

(** What becomes of the contents: a new one, or an old one again. *)
Definition dedup_effect c m vs (r : bool * Eid) m' : Prop :=
  segs m' = segs m ∧ deleted m' = deleted m ∧
  contents m' = (if r.1 then <[r.2 := c]> (contents m) else contents m) ∧
  (r.1 = true → contents m !! r.2 = None ∧ r.2 ∉ deleted m) ∧
  (dedup m = true → (∃ v c', v ∈ vs ∧ contents m !! Version.content_id v = Some c' ∧ hash c' = hash c) → r.1 = false).

Lemma dedup_content_spec store c m vs : cont_ok m vs →
  spec (dedup_content store c) m
    (λ r m', cont_step m m' ∧ dedup_effect c m vs r m' ∧
       ∀ v, Version.content_id v = r.2 → cont_ok m' (v :: vs) ∧ ∃ c', contents m' !! r.2 = Some c' ∧ hash c' = hash c)
    (λ e m', cont_step m m' ∧ excused m e) (λ _, False).
Proof.
  intros Hok. unfold dedup_content. apply spec_bind, spec_ask. destruct (dedup m) eqn:Hd; cbn [negb].
  - apply spec_bind, touch_spec; [|intros x e He Hx; split; [by apply cont_step_env|done]].
    intros e He. set (m1 := set_trans _ _ _). assert (Hs1 : cont_step m m1) by by apply cont_step_touch.
    assert (Hok1 : cont_ok m1 vs) by by apply cont_ok_touch.
    apply spec_bind, spec_ask. change (content_map m1) with (content_map m).
    destruct (content_map m !! hash c) as [[cid n]|] eqn:Hm; cbn [default].
    + destruct (k_map _ _ Hok _ _ _ Hd Hm) as (Hn & Hpos & c0 & Hc0 & Hh).
      assert (Hcid : cid ≠ 0) by (intros ->; by rewrite (k_zero _ _ Hok) in Hc0).
      apply spec_bind. unfold RefCnt.inc_ref. case_match; [|apply spec_fail; split; [done|right; by right]].
      apply spec_lift_ok, spec_bind, spec_modify. rewrite (proj2 (Z.eqb_neq _ _)) by done. apply spec_ret.
      split; [eapply cont_step_trans; [done|apply cont_step_map]|]. split; [by repeat split|]. cbn [snd]. intros v Hv.
      split; [|by exists c0]. destruct Hok1 as [H1 H2 H3 H4 H5 H6]. split; cbn; try done.
      * intros w [->|Hw]%elem_of_cons; [rewrite Hv; by eexists|by apply H1].
      * intros w [->|Hw]%elem_of_cons; [|by apply H2]. rewrite Hv.
        destruct (proj1 (uses_pos cid vs)) as (w & Hw & <-); [lia|]. by apply H2.
      * intros h' i n' _ Hl. rewrite uses_cons, Hv. destruct (decide (h' = hash c)) as [->|Hne].
        -- rewrite lookup_insert_eq in Hl. injection Hl as <- <-. rewrite decide_True by done. split; [lia|]. split; [lia|by exists c0].
        -- rewrite lookup_insert_ne in Hl by done. destruct (H5 _ _ _ Hd Hl) as (-> & ? & c' & Hc' & Hh').
           rewrite decide_False by (intros ->; cbn in Hc'; congruence). split; [lia|]. split; [lia|by exists c'].
      * intros w c' _ Hw Hc'. destruct (decide (hash c' = hash c)) as [Heq|Hne].
        -- rewrite Heq, lookup_insert_eq. exists (n + 1). apply elem_of_cons in Hw as [->|Hw]; [by rewrite Hv|].
           destruct (H6 _ _ Hd Hw Hc') as [n' Hn']. cbn in Hn'. rewrite Heq, Hm in Hn'. by injection Hn' as ->.
        -- rewrite lookup_insert_ne by done. apply elem_of_cons in Hw as [->|Hw]; [rewrite Hv in Hc'; congruence|]. by eapply H6.
    + cbn. apply spec_bind, spec_lift_ok, spec_bind, spec_modify.
      set (m2 := set_content_map _ _). assert (Hs2 : cont_step m m2) by (eapply cont_step_trans; [done|apply cont_step_map]).
      change (0 =? 0) with true. cbn [fst]. apply spec_bind, content_into_cow_spec.
      { intros i Hi. apply (k_ids _ _ Hok1). by left. }
      2: { intros x m3 Hs3 Hx. split; [by eapply cont_step_trans|by eapply excused_step]. }
      intros i m3 Hs3 Hni Hc3 Hm3 Hd3 Hg3 Hu3. apply spec_bind, spec_modify, spec_ret. cbn [snd].
      assert (Hfresh : contents m !! i = None ∧ i ∉ deleted m).
      { split; [destruct (contents m !! i) eqn:Hi; [|done]; destruct Hni; apply (k_ids _ _ Hok1); left; by eexists|].
        intros Hi. apply Hni, (k_ids _ _ Hok1). by right. }
      split; [eapply cont_step_trans; [by eapply cont_step_trans|apply cont_step_map]|]. split.
      { split; [done|]. split; [done|]. split; [done|]. split; [by intros _; apply Hfresh|].
        intros _ (v & c' & Hv & Hc' & Hh). destruct (k_all _ _ Hok v c' Hd Hv Hc') as [n Hn]. congruence. }
      intros v Hv.
      change (contents m2) with (contents m) in *. change (deleted m2) with (deleted m) in *. change (env m2) with (env m1) in *.
      assert (Hdd : dedup m3 = true) by (by rewrite (p_dedup _ _ Hs3)).
      assert (Hold : ∀ j d, contents m !! j = Some d → j ≠ i).
      { intros j d Hj ->. apply Hni, (k_ids _ _ Hok1). left. by eexists. }
      assert (Hu0 : uses i vs = 0).
      { destruct (decide (1 ≤ uses i vs)) as [Hp|]; [|pose proof (uses_nonneg i vs); lia].
        apply uses_pos in Hp as (w & Hw & Hwi). destruct (k_has _ _ Hok _ Hw) as [d Hd']. by destruct (Hold _ _ Hd'). }
      split; [|exists c; by rewrite (p_contents _ _ (cont_step_map _ m3) i c); [|rewrite Hc3, lookup_insert_eq]].
      destruct Hok1 as [H1 H2 H3 H4 H5 H6]. split; cbn [contents deleted content_map dedup env set_content_map]; rewrite ?Hc3, ?Hd3, ?Hm3.
      * intros w [->|Hw]%elem_of_cons; [rewrite Hv, lookup_insert_eq; by eexists|].
        destruct (H1 _ Hw) as [d Hd']. cbn in Hd'. rewrite lookup_insert_ne; [by eexists|]. intros Heq. by destruct (Hold _ _ Hd' (eq_sym Heq)).
      * intros w [->|Hw]%elem_of_cons; [rewrite Hv|by apply H2]. intros Hin. apply Hni, H4. by right.
      * rewrite lookup_insert_ne; [done|]. intros ->. apply Hni, env_zero.
      * intros j [Hj|Hj]; rewrite Hu3; [|apply elem_of_union_r, H4; by right]. destruct (decide (j = i)) as [->|]; [set_solver|].
        rewrite lookup_insert_ne in Hj by done. apply elem_of_union_r, H4. by left.
      * intros h' j n' _ Hl. rewrite uses_cons, Hv. destruct (decide (h' = hash c)) as [->|Hne].
        -- rewrite lookup_insert_eq in Hl. injection Hl as <- <-. rewrite decide_True, Hu0 by done. split; [done|]. split; [done|].
           exists c. by rewrite lookup_insert_eq.
        -- unfold m2 in Hl. cbn in Hl. rewrite !lookup_insert_ne in Hl by done. destruct (H5 _ _ _ Hd Hl) as (-> & ? & c' & Hc' & Hh'). cbn in Hc'.
           pose proof (Hold _ _ Hc') as Hji. rewrite decide_False by done. split; [lia|]. split; [lia|]. exists c'. by rewrite lookup_insert_ne.
      * intros w c' _ Hw Hc'. destruct (decide (hash c' = hash c)) as [Heq|Hne].
        -- rewrite Heq, lookup_insert_eq. apply elem_of_cons in Hw as [->|Hw]; [rewrite Hv; by eexists|].
           destruct (H1 _ Hw) as [d Hd']. cbn in Hd'. pose proof (Hold _ _ Hd'). rewrite lookup_insert_ne in Hc' by done.
           destruct (H6 _ _ Hd Hw Hc') as [n' Hn']. cbn in Hn'. congruence.
        -- unfold m2. cbn. rewrite !lookup_insert_ne by done. apply elem_of_cons in Hw as [->|Hw].
           { rewrite Hv, lookup_insert_eq in Hc'. congruence. }
           destruct (H1 _ Hw) as [d Hd']. cbn in Hd'. pose proof (Hold _ _ Hd'). rewrite lookup_insert_ne in Hc' by done. by eapply H6.
  - apply spec_bind, content_into_cow_spec; [intros i Hi; apply (k_ids _ _ Hok); by left| |done].
    intros i m3 Hs3 Hni Hc3 Hm3 Hd3 Hg3 Hu3. apply spec_ret. cbn [snd]. split; [done|]. split.
    { split; [done|]. split; [done|]. split; [done|]. split; [|by rewrite Hd]. intros _. split.
      - destruct (contents m !! i) eqn:Hi; [|done]. destruct Hni. apply (k_ids _ _ Hok). left. by eexists.
      - intros Hi. apply Hni, (k_ids _ _ Hok). by right. }
    intros v Hv.
    assert (Hdd : dedup m3 = false) by (by rewrite (p_dedup _ _ Hs3)).
    split; [|exists c; by rewrite Hc3, lookup_insert_eq].
    destruct Hok as [H1 H2 H3 H4 _ _]. split; rewrite ?Hc3, ?Hd3; try congruence.
    + intros w [->|Hw]%elem_of_cons; [rewrite Hv, lookup_insert_eq; by eexists|]. destruct (H1 _ Hw) as [d Hd'].
      destruct (decide (Version.content_id w = i)) as [->|]; [rewrite lookup_insert_eq; by eexists|rewrite lookup_insert_ne by done; by eexists].
    + intros w [->|Hw]%elem_of_cons; [rewrite Hv|by apply H2]. intros Hin. apply Hni, H4. by right.
    + rewrite lookup_insert_ne; [done|]. intros ->. apply Hni, env_zero.
    + intros j [Hj|Hj]; rewrite Hu3; [|apply elem_of_union_r, H4; by right]. destruct (decide (j = i)) as [->|]; [set_solver|].
      rewrite lookup_insert_ne in Hj by done. apply elem_of_union_r, H4. by left.
Qed.

(** [None] keeps the content: with the map off always, else because another version uses it. *)
Lemma deref_content_spec store v m vs : cont_ok m (v :: vs) →
  spec (deref_content store (Version.content_id v)) m
    (λ o m', cont_step m m' ∧ segs m' = segs m ∧ deleted m' = deleted m ∧ contents m' = contents m ∧ cont_ok m' vs ∧
       ∀ c, o = Some c → contents m !! Version.content_id v = Some c ∧ uses (Version.content_id v) vs = 0)
    (λ e m', cont_step m m' ∧ excused m e) (λ _, False).
Proof.
  intros Hok. unfold deref_content. apply spec_bind, spec_ask. destruct (dedup m) eqn:Hd; cbn [negb].
  2: { apply spec_ret. split; [apply cont_step_refl|]. do 3 (split; [done|]). split; [|done].
    destruct Hok as [H1 H2 H3 H4 H5 H6]. split; try done; [intros w Hw; apply H1; by right|intros w Hw; apply H2; by right|congruence|congruence]. }
  apply spec_bind, touch_spec; [|intros x e He Hx; split; [by apply cont_step_env|done]].
  intros e He. set (m1 := set_trans _ _ _). assert (Hs1 : cont_step m m1) by by apply cont_step_touch.
  assert (Hok1 : cont_ok m1 (v :: vs)) by by apply cont_ok_touch.
  destruct (k_has _ _ Hok v) as [c Hc]; [by left|].
  apply spec_bind. unfold get_content. apply spec_bind, io_step.
  2: { intros x e2 He2 Hx. split; [eapply cont_step_trans; [done|by apply cont_step_env]|by eapply excused_step]. }
  intros e2 He2. set (m2 := set_env e2 m1). assert (Hs2 : cont_step m m2) by (eapply cont_step_trans; [done|by apply cont_step_env]).
  apply spec_bind, spec_ask. change (contents m2) with (contents m). rewrite Hc. cbn [ok_or]. apply spec_lift_ok.
  apply spec_bind, spec_ask. change (content_map m2) with (content_map m).
  destruct (k_all _ _ Hok v c Hd) as [n Hm]; [by left|done|]. rewrite Hm. cbn [ok_or]. apply spec_bind, spec_lift_ok.
  destruct (k_map _ _ Hok _ _ _ Hd Hm) as (Hn & Hpos & _). rewrite uses_cons, decide_True in Hn by done.
  apply spec_bind. rewrite RefCnt.dec_ref_ok by done. apply spec_lift_ok, spec_bind, spec_modify.
  destruct Hok1 as [H1 H2 H3 H4 H5 H6]. destruct He2 as [Hu2 _].
  assert (Hids : ∀ i, is_Some (contents m !! i) ∨ i ∈ deleted m → i ∈ env_used e2) by (intros i Hi; rewrite Hu2; by apply H4).
  destruct (0 <? n - 1) eqn:Hlt; zify_b.
  - apply spec_ret. split; [eapply cont_step_trans; [done|apply cont_step_map]|]. do 3 (split; [done|]). split; [|done].
    split; cbn; try done; [intros w Hw; apply H1; by right|intros w Hw; apply H2; by right| |].
    + intros h' i n' _ Hl. destruct (decide (h' = hash c)) as [->|Hne].
      * rewrite lookup_insert_eq in Hl. injection Hl as <- <-. split; [lia|]. split; [lia|]. by exists c.
      * rewrite lookup_insert_ne in Hl by done. destruct (H5 _ _ _ Hd Hl) as (-> & ? & c' & Hc' & Hh'). cbn in Hc'.
        assert (Hvi : Version.content_id v ≠ i) by congruence. pose proof (uses_cons i v vs) as Hu. rewrite decide_False in Hu by done. split; [lia|]. split; [lia|by exists c'].
    + intros w c' _ Hw Hc'. destruct (H6 w c' Hd) as [n' Hn']; [by right|done|]. cbn in Hn'.
      destruct (decide (hash c' = hash c)) as [Heq|Hne]; [|rewrite lookup_insert_ne by done; by exists n'].
      rewrite Heq in *. rewrite Hm in Hn'. injection Hn' as <- <-. rewrite lookup_insert_eq. by eexists.
  - apply spec_bind, spec_modify, spec_ret. cbn [content_map set_content_map].
    split; [eapply cont_step_trans; [done|]; eapply cont_step_trans; apply cont_step_map|]. do 3 (split; [done|]).
    assert (Hu0 : uses (Version.content_id v) vs = 0) by (pose proof (uses_nonneg (Version.content_id v) vs); lia).
    split; [|intros d [= <-]; by split].
    split; cbn; try done; [intros w Hw; apply H1; by right|intros w Hw; apply H2; by right| |].
    + intros h' i n' _ Hl. rewrite delete_insert_eq in Hl. apply lookup_delete_Some in Hl as [Hne Hl].
      destruct (H5 _ _ _ Hd Hl) as (-> & ? & c' & Hc' & Hh'). cbn in Hc'.
      assert (Hvi : Version.content_id v ≠ i) by congruence. pose proof (uses_cons i v vs) as Hu. rewrite decide_False in Hu by done. split; [lia|]. split; [lia|by exists c'].
    + intros w c' _ Hw Hc'. destruct (H6 w c' Hd) as [n' Hn']; [by right|done|]. cbn in Hn'. exists n'.
      rewrite delete_insert_eq, lookup_delete_ne; [done|]. intros Heq. rewrite <- Heq, Hm in Hn'. injection Hn' as Hid _.
      by apply (uses_zero _ _ _ Hu0 Hw).
Qed.
End cont.
