(* ===== verification/FsTx.v ===== *)
(** * Transactions on the file system: what is true within one, and what a commit makes of it. *)
From stdpp Require Import strings.
From S2P Require Import Prelude Run Base Segment Fnode Fs FsTree FsInv FsForest FsCont.
Import Mem Fnode FileType(FileType, File, Dir).

(** ** The versions of a file: src/fs/fnode.rs, [remove_version], [clear_versions] and [add_version]. *)

(** Version numbers follow each other. *)
Fixpoint nums_from (n : Z) (vs : list Version.Version) : Prop :=
  match vs with [] => True | v :: vs => Version.num v = n ∧ nums_from (n + 1) vs end.

Lemma nums_from_snoc n vs v : nums_from n (vs ++ [v]) ↔ nums_from n vs ∧ Version.num v = n + zlen vs.
Proof.
  revert n. induction vs as [|w vs IH]; intros n; cbn.
  - rewrite zlen_nil, Z.add_0_r. tauto.
  - rewrite IH, zlen_cons. replace (n + (zlen vs + 1)) with (n + 1 + zlen vs) by lia. tauto.
Qed.
Lemma nums_from_last n vs v : nums_from n vs → last vs = Some v → Version.num v = n + zlen vs - 1.
Proof.
  intros Hn Hl. apply last_Some in Hl as [vs' ->]. apply nums_from_snoc in Hn as [_ ->]. unfold zlen. rewrite length_app. cbn. lia.
Qed.

Section vers.
Context {C K G Hash E SN FC : Type} `{!EqDecision Hash, !Countable Hash, !Env E, !EnvLaws E, !ContentLayer C K G Hash, !ContentLaws C K G Hash}.
Context `{!LinkedMapOps string Eid SN, !LinkedMap string Eid SN, !LinkedMapOps Eid Eid FC, !LinkedMap Eid Eid FC}.
Abbreviation Fn := (Fnode.Fnode K SN).
Abbreviation Mem := (Mem.Mem C K G Hash E SN FC).
Abbreviation V := Version.Version.
Abbreviation hash := (ct_hash (C:=C) (K:=K) (S:=G) (Hash:=Hash)).
Abbreviation clen := (ct_len (C:=C) (K:=K) (S:=G) (Hash:=Hash)).
Implicit Types (f : Fn) (m : Mem) (v : V) (vs : list V) (i : Eid) (c : C) (h : Hash).

(** ** Contents in use are linked *)

Definition live m : list C := (map_to_list (filter (λ kv : Eid * C, kv.1 ∉ deleted m) (contents m))).*2.
Record conts_ok m vs : Prop := {
  co_map : cont_ok m vs;
  co_linked : linked (live m) (segs m)
}.

Lemma live_in m i c : contents m !! i = Some c → (i ∉ deleted m) → c ∈ live m.
Proof.
  intros Hc Hi. unfold live. apply list_elem_of_fmap. exists (i, c). split; [done|].
  apply elem_of_map_to_list, map_lookup_filter_Some. done.
Qed.
Lemma live_insert m m' i c : contents m' = <[i := c]> (contents m) → deleted m' = deleted m →
  contents m !! i = None → (i ∉ deleted m) → live m' ≡ₚ c :: live m.
Proof.
  intros Hc Hd Hi Hni. unfold live. rewrite Hc, Hd, map_filter_insert_True by done.
  rewrite map_to_list_insert; [done|]. apply map_lookup_filter_None. by left.
Qed.
Lemma live_delete m m' i c : contents m' = contents m → deleted m' = {[i]} ∪ deleted m →
  contents m !! i = Some c → (i ∉ deleted m) → live m ≡ₚ c :: live m'.
Proof.
  intros Hc Hd Hi Hni. unfold live. rewrite Hc, Hd.
  assert (Hfl : filter (λ kv : Eid * C, kv.1 ∉ {[i]} ∪ deleted m) (contents m)
    = delete i (filter (λ kv : Eid * C, kv.1 ∉ deleted m) (contents m))).
  { apply map_eq. intros j. rewrite lookup_delete. case_decide as Hj.
    - subst. apply map_lookup_filter_None. right. set_solver.
    - apply option_eq. intros d. rewrite !map_lookup_filter_Some. set_solver. }
  rewrite Hfl. change (c :: (map_to_list ?M).*2) with (((i, c) :: map_to_list M).*2).
  rewrite <- (map_to_list_delete _ i c); [done|]. by apply map_lookup_filter_Some.
Qed.
Lemma live_same m m' : contents m' = contents m → deleted m' = deleted m → live m' = live m.
Proof. unfold live. by intros -> ->. Qed.

Lemma on_segs_spec {A} (u : G → res (A * G)) m (Q : A → Mem → Prop) F D :
  match u (segs m) with Ok (a, s) => Q a (set_segs s m) | Err e => F e m | Panic => False end → spec (on_segs u) m Q F D.
Proof. unfold spec, on_segs. by destruct (u (segs m)) as [[a s]| |]. Qed.
Lemma cont_step_segs s m : cont_step m (set_segs s m).
Proof. split; try done; by left. Qed.
Lemma cont_ok_segs s m vs : cont_ok m vs → cont_ok (set_segs s m) vs.
Proof. by intros []. Qed.
Lemma make_del_spec_fs i m (Q : () → Mem → Prop) F D :
  (∀ e, env_keeps (env m) e → Q () (set_trans ({[i]} ∪ touched m) ({[i]} ∪ deleted m) (set_env e m))) →
  (∀ x e, env_keeps (env m) e → excused m x → F x (set_env e m)) → spec (make_del i) m Q F D.
Proof. intros Hq Hf. unfold make_del. apply spec_bind, io_step; [|done]. intros e He. apply spec_modify. by apply Hq. Qed.

(** ** Removing versions *)

Lemma remove_version_spec store v vs rest f m : vers f = v :: vs → conts_ok m ((v :: vs) ++ rest) →
  spec (remove_version store (Version.num v) f) m
    (λ f' m', cont_step m m' ∧ conts_ok m' (vs ++ rest) ∧ ∃ k, f' = set_chk_map k (set_vers vs f))
    (λ e m', cont_step m m' ∧ excused m e) (λ _, False).
Proof.
  intros Hv [Hok Hl]. unfold remove_version. rewrite Hv. cbn [position]. rewrite Z.eqb_refl. apply spec_bind, spec_lift_ok.
  apply spec_bind, spec_lift_ok, spec_bind, spec_lift_ok, spec_bind. cbn in Hok.
  eapply spec_mono; [apply (deref_content_spec store v m (vs ++ rest) Hok)| | |done].
  2: { intros e m' [? ?]. done. }
  intros o m1 (Hs1 & Hg1 & Hd1 & Hc1 & Hok1 & Ho). destruct o as [c|].
  2: { apply spec_ret. split; [done|]. split; [split; [done|]|exists (chk_map f); by destruct f]. by rewrite Hg1, (live_same m). }
  destruct (Ho c eq_refl) as [Hc Hu0]. set (i := Version.content_id v) in *.
  assert (Hlive : i ∉ deleted m) by (apply (k_live _ _ Hok); by left).
  assert (Hc' : contents m1 !! i = Some c) by by rewrite Hc1.
  apply spec_bind. unfold unlink. apply on_segs_spec. cbn [chk_map set_vers].
  set (mz := set_trans (touched m1) ({[i]} ∪ deleted m1) m1).
  assert (Hperm : live m1 ≡ₚ c :: live mz) by (apply (live_delete m1 mz i); try done; by rewrite Hd1).
  pose proof (unlink_law (live mz) c (chk_map f) (segs m1)) as Hlaw. rewrite Hg1 in *. specialize (Hlaw (linked_perm _ _ _ Hperm (eq_ind_r (λ l, linked l _) Hl (live_same m m1 Hc1 Hd1)))).
  destruct (ct_unlink c (chk_map f) (segs m)) as [[k s]|e|] eqn:Hun; [|split; [done|]|done].
  2: { right. left. split; [|done]. right. left. exists c, (chk_map f), (segs m). intros x. by rewrite Hun. }
  assert (Hs2 : cont_step m (set_segs s m1)) by (eapply cont_step_trans; [done|apply cont_step_segs]).
  apply spec_bind, make_del_spec_fs.
  2: { intros x e He Hx. split; [eapply cont_step_trans; [done|by apply cont_step_env]|by eapply excused_step]. }
  intros e He. apply spec_ret. set (m2 := set_trans _ _ _).
  assert (Hdel : ∀ j, j ∈ deleted m2 → j = i ∨ j ∈ deleted m1) by (intros j; unfold m2; cbn; set_solver).
  split; [|split; [|by exists k]].
  - eapply cont_step_trans; [exact Hs2|]. split; try done; [by apply env_keeps_grows|by left|].
    intros j [->|Hj]%Hdel; [right; left; by exists c|by left].
  - split; [|by apply Hlaw]. destruct Hok1 as [H1 H2 H3 H4 H5 H6]. destruct He as [Hu _]. split; try done.
    + intros w Hw [Heq|Hj]%Hdel; [by apply (uses_zero _ _ _ Hu0 Hw)|by apply (H2 w)].
    + intros j Hj. cbn. rewrite Hu. apply H4. destruct Hj as [?|[->|?]%Hdel]; [by left|left; by exists c|by right].
Qed.

Lemma remove_versions_spec store rest vs f m : vers f = vs → conts_ok m (vs ++ rest) →
  spec (remove_versions store (Version.num <$> vs) f) m
    (λ f' m', cont_step m m' ∧ conts_ok m' rest ∧ ∃ k, f' = set_chk_map k (set_vers [] f))
    (λ e m', cont_step m m' ∧ excused m e) (λ _, False).
Proof.
  revert f m. induction vs as [|v vs IH]; intros f m Hv Hok; cbn [fmap list_fmap remove_versions].
  { apply spec_ret. split; [apply cont_step_refl|]. split; [done|]. exists (chk_map f). destruct f. cbn in *. by subst. }
  apply spec_bind. eapply spec_mono; [by apply (remove_version_spec store v vs rest)| | |done]; [|done].
  intros f1 m1 (Hs1 & Hok1 & k & ->). eapply spec_mono; [by apply IH| | |done].
  - intros f2 m2 (Hs2 & Hok2 & k' & ->). split; [by eapply cont_step_trans|]. split; [done|]. by exists k'.
  - intros e m2 [Hs2 He]. split; [by eapply cont_step_trans|by eapply excused_step].
Qed.
Lemma clear_versions_spec store rest f m : conts_ok m (vers f ++ rest) →
  spec (clear_versions store f) m
    (λ f' m', cont_step m m' ∧ conts_ok m' rest ∧ ∃ k, f' = set_chk_map k (set_vers [] f))
    (λ e m', cont_step m m' ∧ excused m e) (λ _, False).
Proof. intros Hok. by apply remove_versions_spec. Qed.

(** ** Adding a version *)

(** What is true of the versions of a file, and of one just made. *)
Record vers_ok f : Prop := {
  v_limit : 1 ≤ version_limit (Fnode.opts f);
  v_len : zlen (vers f) ≤ version_limit (Fnode.opts f);
  v_nums : ∃ n, 1 ≤ n ∧ (vers f = [] → n = 1) ∧ nums_from n (vers f)
}.
Definition next_num f : Z := match last (vers f) with Some v => Version.num v + 1 | None => 1 end.
Definition retired f : nat := if version_limit (Fnode.opts f) <? zlen (vers f) + 1 then 1 else 0.

Lemma conts_ok_env e t m vs : env_keeps (env m) e → conts_ok m vs → conts_ok (set_trans t (deleted m) (set_env e m)) vs.
Proof. intros He [? ?]. split; [by apply cont_ok_touch|done]. Qed.

(** The dedup map and the link, as one. *)
Lemma store_content_spec store c m vs : conts_ok m vs → fits c (segs m) →
  spec (dedup_content store c) m
    (λ r m', cont_step m m' ∧ dedup_effect c m vs r m' ∧
       (∀ v, Version.content_id v = r.2 → cont_ok m' (v :: vs) ∧ ∃ c', contents m' !! r.2 = Some c' ∧ hash c' = hash c) ∧
       (r.1 = true → live m' ≡ₚ c :: live m) ∧ (r.1 = false → live m' = live m))
    (λ e m', cont_step m m' ∧ excused m e) (λ _, False).
Proof.
  intros [Hok Hl] Hfit. eapply spec_mono; [by apply (dedup_content_spec store c m vs)| |done|done].
  intros [b i] m' (Hs & Heff & Hv). destruct Heff as (Hg & Hd & Hc & Hnew & Hdup). cbn [fst snd] in *.
  split; [done|]. split; [by repeat split; try apply Hnew|]. split; [done|]. split; intros ->.
  - destruct (Hnew eq_refl). by apply (live_insert m m' i).
  - by apply live_same.
Qed.

Lemma add_version_spec store c f m rest : ftype f = File → vers_ok f → next_num f < U64 → conts_ok m (vers f ++ rest) → fits c (segs m) →
  spec (add_version store c f) m
    (λ r m', cont_step m m' ∧ conts_ok m' (vers r.2 ++ rest) ∧
       (dedup m = true → (∃ v c', v ∈ vers f ++ rest ∧ contents m !! Version.content_id v = Some c' ∧ hash c' = hash c) → r.1 = false) ∧
       ∃ v k t, r.2 = set_chk_map k (set_vers (drop (retired f) (vers f ++ [v])) (set_mtime t f)) ∧
         Version.num v = next_num f ∧ Version.content_len v = clen c ∧
         (∃ c', contents m' !! Version.content_id v = Some c' ∧ hash c' = hash c))
    (λ e m', cont_step m m' ∧ excused m e) (λ _, False).
Proof.
  intros Hfile [Hlim Hlen (n & Hn1 & Hn & Hnums)] Hroom Hok Hfit. unfold add_version. apply spec_bind. unfold is_file. rewrite bool_decide_eq_true_2 by done.
  apply spec_lift_ok, spec_bind. eapply spec_mono; [by apply (store_content_spec store c m (vers f ++ rest))| |done|done].
  intros [b i] m1 (Hs1 & Heff & Hv & Hnew & Hold). destruct Heff as (Hg1 & Hd1 & Hc1 & _ & Hdup). cbn [fst snd] in *.
  assert (Hcurr : lift (curr_ver_num f) m1 = (Some (Ok (next_num f - 1)), m1)).
  { unfold curr_ver_num, curr_ver, next_num, lift. destruct (vers f) as [|w vs] eqn:Hvs; [done|].
    destruct (last (w :: vs)) as [x|] eqn:Hx; [|by apply last_None in Hx]. cbn. do 3 f_equal. lia. }
  apply spec_bind. unfold spec at 1. rewrite Hcurr. apply spec_bind. unfold u_add. rewrite Z.sub_add.
  destruct (next_num f <? U64) eqn:Hlt; zify_b; [|lia]. apply spec_lift_ok.
  apply spec_bind, draw_spec_fs. set (t := (env_now (env m1)).1). pose proof (env_now_law (env m1)) as He1.
  set (m2 := set_env _ m1). assert (Hs2 : cont_step m m2) by (eapply cont_step_trans; [done|by apply cont_step_env]).
  set (v := Version.mkVersion _ _ _ _). set (f1 := set_vers _ _).
  destruct (Hv v eq_refl) as [Hok1 Hhash]. clear Hv.
  assert (Hvers1 : vers f1 = vers f ++ [v]) by done.
  assert (Hok2 : cont_ok m2 (vers f1 ++ rest)).
  { apply (cont_ok_perm _ (v :: vers f ++ rest)); [rewrite Hvers1, <- app_assoc; apply Permutation_middle|].
    destruct Hok1, He1 as [Hu _]. split; try done. intros j Hj. cbn. rewrite Hu. auto. }
  apply spec_bind. destruct Hok as [Hcok Hl].
  assert (Hlink : spec (if b then link c else mret ()) m2
    (λ _ m', cont_step m m' ∧ conts_ok m' (vers f1 ++ rest) ∧ contents m' = contents m1 ∧ deleted m' = deleted m1)
    (λ e m', cont_step m m' ∧ excused m e) (λ _, False)).
  { destruct b.
    - unfold link. apply on_segs_spec. change (segs m2) with (segs m1). rewrite Hg1.
      pose proof (link_law (live m) c (segs m) Hl Hfit) as Hlaw. destruct (ct_link c (segs m)) as [s|e|] eqn:Hct; [|split; [done|]|done].
      + cbn. split; [eapply cont_step_trans; [done|apply cont_step_segs]|]. split; [|done]. split; [by apply cont_ok_segs|].
        eapply linked_perm; [|exact Hlaw]. symmetry. by apply Hnew.
      + right. left. split; [|done]. left. exists c, (segs m). intros s'. by rewrite Hct.
    - apply spec_ret. split; [done|]. split; [|done]. split; [done|]. change (live m2) with (live m1). rewrite Hold by done.
      change (segs m2) with (segs m1). by rewrite Hg1. }
  eapply spec_mono; [exact Hlink| |done|done]. cbn beta. intros _ m3 (Hs3 & Hok3 & Hc3 & Hd3).
  assert (Hhash3 : ∃ c', contents m3 !! Version.content_id v = Some c' ∧ hash c' = hash c) by by rewrite Hc3.
  assert (Hzl : zlen (vers f1) = zlen (vers f) + 1) by (rewrite Hvers1, zlen_app; done).
  change (Fnode.opts f1) with (Fnode.opts f). unfold retired. rewrite Hzl.
  destruct (version_limit (Fnode.opts f) <? zlen (vers f) + 1).
  2: { apply spec_ret. split; [done|]. split; [done|]. split; [done|]. exists v, (chk_map f), t. by destruct f. }
  destruct (vers f1) as [|w vs] eqn:Hvs; [by destruct (vers f)|]. cbn [head unwrap]. apply spec_bind, spec_lift_ok, spec_bind.
  eapply spec_mono; [by apply (remove_version_spec store w vs rest f1 m3)| | |done].
  2: { intros e m4 [Hs4 Hx]. split; [by eapply cont_step_trans|by eapply excused_step]. }
  intros f2 m4 (Hs4 & Hok4 & k & ->). apply spec_ret. split; [by eapply cont_step_trans|]. split; [done|]. split; [done|].
  exists v, k, t. split; [|split; [done|split; [done|]]].
  - cbn [snd]. rewrite <- Hvers1. done.
  - destruct Hhash3 as (c' & Hc' & ?). exists c'. split; [|done]. by apply (p_contents _ _ Hs4).
Qed.

(** The versions stay as they should. *)
Lemma add_version_ok f v k t : vers_ok f → Version.num v = next_num f →
  let f' := set_chk_map k (set_vers (drop (retired f) (vers f ++ [v])) (set_mtime t f)) in
  vers_ok f' ∧ vers f' ≠ [] ∧ last (vers f') = Some v.
Proof.
  intros [Hlim Hlen (n & Hn1 & Hn & Hnums)] Hv f'.
  assert (Hsn : nums_from n (vers f ++ [v])).
  { apply nums_from_snoc. split; [done|]. rewrite Hv. unfold next_num. destruct (last (vers f)) as [w|] eqn:Hl.
    - rewrite (nums_from_last _ _ _ Hnums Hl). lia.
    - apply last_None in Hl. rewrite Hl, zlen_nil, (Hn Hl). lia. }
  assert (Hzl : zlen (vers f ++ [v]) = zlen (vers f) + 1) by (rewrite zlen_app; done).
  assert (Hcons : ∀ w vs, vers f ++ [v] = w :: vs → zlen vs = zlen (vers f) ∧ nums_from (n + 1) vs).
  { intros w vs Heq. rewrite Heq in *. rewrite zlen_cons in Hzl. split; [lia|]. by destruct Hsn. }
  unfold f', retired. cbn. destruct (version_limit (Fnode.opts f) <? zlen (vers f) + 1) eqn:Hlt; zify_b.
  - destruct (vers f ++ [v]) as [|w vs] eqn:Heq; [by destruct (vers f)|]. destruct (Hcons _ _ eq_refl) as [Hz Hns]. change (drop 1 (w :: vs)) with vs.
    assert (Hne : vs ≠ []) by (intros ->; rewrite zlen_nil in Hz; lia).
    split; [|split; [done|]].
    + split; cbn; [done|rewrite Hz; lia|]. exists (n + 1). split; [lia|]. split; [done|done].
    + destruct (vers f) as [|x l]; [by injection Heq as <- <-|]. injection Heq as _ <-. apply last_snoc.
  - rewrite drop_0. split; [|split; [by destruct (vers f)|apply last_snoc]]. split; cbn; [done|lia|].
    exists n. split; [done|]. split; [by destruct (vers f)|done].
Qed.
End vers.

(** ** What a path shows *)

(** A directory, or a file with its options and the numbers and hashes of its versions. *)
Inductive Node (Hash : Type) := NDir | NFile (o : Options) (vs : list (Z * option Hash)).
Arguments NDir {Hash}. Arguments NFile {Hash}.

Section tx.
Context {C K G Hash E SN FC : Type} `{!EqDecision Hash, !Countable Hash, !Env E, !EnvLaws E, !ContentLayer C K G Hash, !ContentLaws C K G Hash}.
Context `{!LinkedMapOps string Eid SN, !LinkedMap string Eid SN, !LinkedMapOps Eid Eid FC, !LinkedMap Eid Eid FC}.
Abbreviation Fn := (Fnode.Fnode K SN).
Abbreviation heap := (gmap Eid Fn).
Abbreviation Mem := (Mem.Mem C K G Hash E SN FC).
Abbreviation V := Version.Version.
Abbreviation hash := (ct_hash (C:=C) (K:=K) (S:=G) (Hash:=Hash)).
Implicit Types (f : Fn) (H : heap) (m : Mem) (v : V) (vs : list V) (i p : Eid) (c : C) (h : Hash) (X Y : gset Eid).
Context (fs : Fs.Fs).
Abbreviation rt := (Fs.root fs).

Definition shown m v : Z * option Hash := (Version.num v, hash <$> contents m !! Version.content_id v).
Definition view m f : Node Hash :=
  match ftype f with Dir => NDir | File => NFile (Fnode.opts f) (shown m <$> vers f) end.
Definition sees m i : option (Node Hash) := view m <$> fnodes m !! i.
Definition tree m (l : list string) : option (Node Hash) := i ← path_to (edges (fnodes m)) rt l; sees m i.

(** The versions of all files. *)
Definition all_vers H : list V := concat (map_to_list (vers <$> H)).*2.

Lemma all_vers_insert H i f : H !! i = None → all_vers (<[i := f]> H) ≡ₚ vers f ++ all_vers H.
Proof.
  intros Hi. unfold all_vers. rewrite fmap_insert, map_to_list_insert by (by rewrite lookup_fmap, Hi). done.
Qed.
Lemma all_vers_lookup H i f : H !! i = Some f → all_vers H ≡ₚ vers f ++ all_vers (delete i H).
Proof. intros Hi. rewrite <- (insert_delete_id _ _ _ Hi) at 1. apply all_vers_insert, lookup_delete_eq. Qed.
Lemma all_vers_put H i f : all_vers (<[i := f]> H) ≡ₚ vers f ++ all_vers (delete i H).
Proof. rewrite <- insert_delete_eq. apply all_vers_insert, lookup_delete_eq. Qed.
Lemma all_vers_same H H' : vers <$> H' = vers <$> H → all_vers H' = all_vers H.
Proof. unfold all_vers. by intros ->. Qed.
Lemma all_vers_in H v : v ∈ all_vers H ↔ ∃ i f, H !! i = Some f ∧ v ∈ vers f.
Proof.
  unfold all_vers. rewrite list_elem_of_In, in_concat. setoid_rewrite <- list_elem_of_In. split.
  - intros (vs & Hvs & Hv). apply list_elem_of_fmap in Hvs as ([i vs'] & -> & Hi).
    apply elem_of_map_to_list, lookup_fmap_Some in Hi as (f & <- & Hi). by exists i, f.
  - intros (i & f & Hi & Hv). exists (vers f). split; [|done]. apply list_elem_of_fmap. exists (i, vers f). split; [done|].
    apply elem_of_map_to_list. by rewrite lookup_fmap, Hi.
Qed.
Lemma all_vers_drop H Y : (∀ i f, i ∈ Y → H !! i = Some f → vers f = []) →
  all_vers (filter (λ kv : Eid * Fn, kv.1 ∉ Y) H) ≡ₚ all_vers H.
Proof.
  induction H as [|i f H Hi IH] using map_ind; intros Hd; [by rewrite map_filter_empty|].
  assert (IH' : all_vers (filter (λ kv : Eid * Fn, kv.1 ∉ Y) H) ≡ₚ all_vers H).
  { apply IH. intros j g Hj Hg. apply (Hd j); [done|]. rewrite lookup_insert_ne; [done|congruence]. }
  rewrite (all_vers_insert H) by done. destruct (decide (i ∈ Y)) as [Hy|Hy].
  - rewrite (Hd i f Hy) by apply lookup_insert_eq. rewrite map_filter_insert_not; [done|]. intros j Hj. cbn. by destruct (Hj Hy).
  - rewrite map_filter_insert_True by done. rewrite all_vers_insert, IH'; [done|]. apply map_lookup_filter_None. by left.
Qed.

(** ** Within a transaction *)

(** [X] are the roots of the forest, [Y] those that are about to be deleted. *)
Record base_ok m X Y : Prop := {
  t_forest : forest (fnodes m) X;
  t_caches : caches_ok m;
  t_rt : rt ∈ X;
  t_top : parent_of (fnodes m) rt = None;
  t_dir : ∃ f, fnodes m !! rt = Some f ∧ ftype f = Dir;
  t_files i f : fnodes m !! i = Some f → ftype f = File → (i ∉ Y) → vers_ok f ∧ vers f ≠ [];
  t_dying i f : i ∈ Y → fnodes m !! i = Some f → kids f = [] ∧ vers f = [];
  t_sub : Y ⊆ X ∖ {[rt]};
  t_ids i : is_Some (fnodes m !! i) → i ∈ env_used (env m) ∧ contents m !! i = None;
  t_deleted i : i ∈ deleted m → is_Some (fnodes m !! i) → i ∈ Y;
  t_dedup : dedup m = dedup_file (Fs.opts fs)
}.
Definition tx_ok m X Y : Prop := base_ok m X Y ∧ conts_ok m (all_vers (fnodes m)).
(** Outside of transactions. *)
Definition fs_ok m : Prop := tx_ok m {[rt]} ∅ ∧ touched m = ∅ ∧ deleted m = ∅.

Lemma base_shape m X Y : base_ok m X Y → shape_ok m X.
Proof. intros Hb. split; apply Hb. Qed.
Lemma caches_same m m' : fcache m' = fcache m → caches_ok m → caches_ok m'.
Proof. intros Hc [H1 H2]. split; rewrite Hc; [apply H1|apply H2]. Qed.
Lemma base_step m m' X Y : base_ok m X Y → cont_step m m' → base_ok m' X Y.
Proof.
  intros [H1 H2 H3 H4 H5 H6 H7 H8 H9 H10 H11] [Hf Hfc Hd [Hu _] Hc Hnew Hdel].
  split; rewrite ?Hf; try done; [by eapply caches_same| | |congruence].
  - intros i Hi. destruct (H9 i Hi) as [Hui Hci]. split; [set_solver|]. destruct (contents m' !! i) eqn:Hi'; [|done].
    destruct (Hnew i) as [[d Hd']|[? _]]; [by eexists|congruence|done].
  - intros i Hi Hfi. destruct (H9 i Hfi) as [Hui Hci]. destruct (Hdel i Hi) as [?|[[d ?]|[? _]]]; [auto|congruence|done].
Qed.

Lemma view_step m m' f : (∀ v, v ∈ vers f → is_Some (contents m !! Version.content_id v)) → cont_step m m' → view m' f = view m f.
Proof.
  intros Hv Hs. unfold view. destruct (ftype f); [|done]. f_equal. apply list_fmap_ext. intros k v Hk. unfold shown. f_equal.
  destruct (Hv v) as [c Hc]; [by eapply list_elem_of_lookup_2|]. by rewrite Hc, (p_contents _ _ Hs _ _ Hc).
Qed.
Lemma has_contents m X Y i f v : tx_ok m X Y → fnodes m !! i = Some f → v ∈ vers f → is_Some (contents m !! Version.content_id v).
Proof. intros [_ [Hc _]] Hi Hv. apply (k_has _ _ Hc), all_vers_in. eauto. Qed.

(** An fnode replaced, with its versions; it may be about to be deleted from now on. *)
Lemma base_put m X Y Y' i f f' : base_ok m X Y → fnodes m !! i = Some f → same_place f f' →
  Y ⊆ Y' → Y' ⊆ {[i]} ∪ Y → Y' ⊆ X ∖ {[rt]} →
  (ftype f = File → (i ∉ Y') → vers_ok f' ∧ vers f' ≠ []) → (i ∈ Y' → kids f = [] ∧ vers f' = []) →
  base_ok (set_fnodes (<[i := f']> (fnodes m)) m) X Y' ∧ (∀ p n, edges (<[i := f']> (fnodes m)) p n = edges (fnodes m) p n).
Proof.
  intros [H1 H2 H3 H4 (r & Hr & Hrd) H6 H7 H8 H9 H10 H11] Hi Hs HY1 HY2 HY3 Hfile Hdying. destruct (forest_put _ _ _ _ _ H1 Hi Hs) as [Hf He].
  assert (Hold : ∀ j, j ∈ Y' → j ≠ i → j ∈ Y) by set_solver.
  split; [|done]. split; cbn; try done.
  - by apply (caches_same m).
  - destruct (decide (i = rt)) as [->|]; [|unfold parent_of; by rewrite lookup_insert_ne].
    rewrite (parent_at _ _ f') by apply lookup_insert_eq. rewrite (e_parent _ _ Hs). by rewrite (parent_at _ _ _ Hi) in H4.
  - destruct (decide (i = rt)) as [->|]; [|exists r; by rewrite lookup_insert_ne]. exists f'. split; [apply lookup_insert_eq|].
    rewrite (e_type _ _ Hs). congruence.
  - intros j g Hj Ht Hy. destruct (decide (j = i)) as [->|]; [|rewrite lookup_insert_ne in Hj by done; eapply H6; [done..|set_solver]].
    rewrite lookup_insert_eq in Hj. injection Hj as <-. rewrite (e_type _ _ Hs) in Ht. auto.
  - intros j g Hy Hj. destruct (decide (j = i)) as [->|]; [|rewrite lookup_insert_ne in Hj by done; eapply H7; [by apply Hold|done]].
    rewrite lookup_insert_eq in Hj. injection Hj as <-. rewrite (e_kids _ _ Hs). auto.
  - intros j Hj. apply H9. destruct (decide (j = i)) as [->|]; [by eexists|by rewrite lookup_insert_ne in Hj].
  - intros j Hj Hj'. apply HY1, H10; [done|]. destruct (decide (j = i)) as [->|]; [by eexists|by rewrite lookup_insert_ne in Hj'].
Qed.
Lemma conts_put m i f' : conts_ok m (vers f' ++ all_vers (delete i (fnodes m))) →
  conts_ok (set_fnodes (<[i := f']> (fnodes m)) m) (all_vers (<[i := f']> (fnodes m))).
Proof.
  intros [[H1 H2 H3 H4 H5 H6] Hl]. split; [|done]. eapply cont_ok_perm; [symmetry; apply all_vers_put|]. by split.
Qed.
Lemma conts_take m X Y i f : tx_ok m X Y → fnodes m !! i = Some f → conts_ok m (vers f ++ all_vers (delete i (fnodes m))).
Proof. intros [_ [Hc Hl]] Hi. split; [|done]. eapply cont_ok_perm; [by apply all_vers_lookup|done]. Qed.

(** ** Committing *)

Definition committed m : Mem := (commit m).2.

Lemma commit_spec m (Q : () → Mem → Prop) F D : Q () (committed m) → spec commit m Q F D.
Proof. intros Hq. unfold commit. by apply spec_modify. Qed.

Lemma on_commit_place (D : gset Eid) f : same_place f (on_commit D f).
Proof.
  split; try done. intros n i. unfold on_commit, sub. cbn. intros Hs. apply lm_get_elem in Hs. rewrite lm_entries_retain in Hs.
  apply list_elem_of_filter in Hs as [_ Hs]. by apply lm_get_elem.
Qed.

Lemma commit_ok m X Y : tx_ok m X Y → X ∖ Y = {[rt]} → Y ⊆ deleted m →
  fs_ok (committed m) ∧ env (committed m) = env m ∧ (∀ p n, edges (fnodes (committed m)) p n = edges (fnodes m) p n) ∧
  (∀ i, (i ∉ Y) → sees (committed m) i = sees m i).
Proof.
  intros [Hb [Hc Hl]] HX HY. pose proof Hb as [H1 H2 H3 H4 (r & Hr & Hrd) H6 H7 H8 H9 H10 H11].
  set (H0 := map_imap (λ i f, Some (if bool_decide (i ∈ touched m) then on_commit (deleted m) f else f)) (fnodes m)).
  set (m' := committed m).
  assert (Hlook0 : ∀ j, match fnodes m !! j, H0 !! j with Some f, Some f' => same_place f f' ∧ vers f' = vers f ∧ Fnode.opts f' = Fnode.opts f | None, None => True | _, _ => False end).
  { intros j. unfold H0. rewrite map_lookup_imap. destruct (fnodes m !! j) as [f|]; [|done]. cbn.
    case_match; (split; [apply on_commit_place || apply same_place_refl|done]). }
  destruct (forest_data (fnodes m) H0 X H1) as [Hf0 He0].
  { intros j. specialize (Hlook0 j). destruct (fnodes m !! j), (H0 !! j); try done. apply Hlook0. }
  assert (Hdel : filter (λ kv : Eid * Fn, kv.1 ∉ deleted m) H0 = filter (λ kv : Eid * Fn, kv.1 ∉ Y) H0).
  { apply map_filter_ext. intros j g Hj. cbn. split; [set_solver|]. intros Hy Hd. apply Hy, H10; [done|].
    specialize (Hlook0 j). rewrite Hj in Hlook0. destruct (fnodes m !! j); [by eexists|done]. }
  destruct (forest_drop H0 X Y Hf0) as [Hf1 He1]; [set_solver| |].
  { intros y g Hy Hg. specialize (Hlook0 y). rewrite Hg in Hlook0. destruct (fnodes m !! y) as [f|] eqn:Hyf; [|done].
    destruct Hlook0 as [Hs _]. rewrite (e_kids _ _ Hs). by apply (H7 y f). }
  assert (Hfn : fnodes m' = filter (λ kv : Eid * Fn, kv.1 ∉ Y) H0) by (unfold m', committed; cbn; exact Hdel).
  assert (Hct : contents m' = filter (λ kv : Eid * C, kv.1 ∉ deleted m) (contents m)) by done.
  assert (Hlook : ∀ j f', fnodes m' !! j = Some f' → (j ∉ Y) ∧ ∃ f, fnodes m !! j = Some f ∧ same_place f f' ∧ vers f' = vers f ∧ Fnode.opts f' = Fnode.opts f).
  { intros j f'. rewrite Hfn. intros [Hj Hy]%map_lookup_filter_Some. split; [done|]. specialize (Hlook0 j). rewrite Hj in Hlook0.
    destruct (fnodes m !! j) as [f|]; [|done]. by exists f. }
  assert (Hdom : ∀ j f, fnodes m !! j = Some f → (j ∉ Y) → ∃ f', fnodes m' !! j = Some f' ∧ same_place f f' ∧ vers f' = vers f ∧ Fnode.opts f' = Fnode.opts f).
  { intros j f Hj Hy. specialize (Hlook0 j). rewrite Hj in Hlook0. destruct (H0 !! j) as [f'|] eqn:Hj0; [|done]. exists f'. split; [|done].
    rewrite Hfn. by apply map_lookup_filter_Some. }
  assert (He : ∀ p n, edges (fnodes m') p n = edges (fnodes m) p n) by (intros p n; by rewrite Hfn, He1, He0).
  assert (Hrtv : vers <$> H0 = vers <$> fnodes m).
  { apply map_eq. intros j. rewrite !lookup_fmap. specialize (Hlook0 j). destruct (fnodes m !! j), (H0 !! j); try done. cbn. f_equal. apply Hlook0. }
  assert (Hav : all_vers (fnodes m) ≡ₚ all_vers (fnodes m')).
  { rewrite Hfn, all_vers_drop; [by rewrite (all_vers_same _ _ Hrtv)|]. intros j g Hy Hg. specialize (Hlook0 j). rewrite Hg in Hlook0.
    destruct (fnodes m !! j) as [f|] eqn:Hjf; [|done]. destruct Hlook0 as (_ & -> & _). by apply (H7 j f). }
  assert (Hkeep : ∀ v, v ∈ all_vers (fnodes m) → contents m' !! Version.content_id v = contents m !! Version.content_id v).
  { intros v Hv. rewrite Hct. destruct (k_has _ _ Hc v Hv) as [c Hcv]. rewrite Hcv. apply map_lookup_filter_Some. split; [done|].
    cbn. by apply (k_live _ _ Hc). }
  assert (HrY : rt ∉ Y) by set_solver.
  split; [|split; [done|split; [done|]]].
  - split; [|done]. split; [split|split].
    + rewrite Hfn, <- HX. done.
    + by apply (caches_same m).
    + set_solver.
    + destruct (Hdom _ _ Hr HrY) as (r' & Hr' & Hs & _). rewrite (parent_at _ _ _ Hr'), (e_parent _ _ Hs). by rewrite (parent_at _ _ _ Hr) in H4.
    + destruct (Hdom _ _ Hr HrY) as (r' & Hr' & Hs & _). exists r'. split; [done|]. by rewrite (e_type _ _ Hs).
    + intros j f' Hj Ht _. destruct (Hlook _ _ Hj) as (Hy & f & Hjf & Hs & Hv & Ho). destruct (H6 j f Hjf) as [[A1 A2 A3] ?]; [by rewrite <- (e_type _ _ Hs)|done|].
      split; [split; by rewrite ?Hv, ?Ho|by rewrite Hv].
    + set_solver.
    + set_solver.
    + intros j [f' Hj]. destruct (Hlook _ _ Hj) as (Hy & f & Hjf & _). destruct (H9 j) as [? Hn]; [by eexists|]. split; [done|].
      rewrite Hct. apply map_lookup_filter_None. by left.
    + set_solver.
    + done.
    + eapply cont_ok_perm; [exact Hav|]. destruct Hc as [A1 A2 A3 A4 A5 A6]. split; try done.
      * intros v Hv. rewrite Hkeep by done. by apply A1.
      * rewrite Hct. apply map_lookup_filter_None. by left.
      * intros j [Hj|Hj]; [|set_solver]. apply A4. left. rewrite Hct in Hj. destruct Hj as [c [Hj _]%map_lookup_filter_Some]. by eexists.
      * intros h i n Hd Hm. destruct (A5 h i n Hd Hm) as (-> & Hpos & c & Hci & Hh). split; [done|]. split; [done|]. exists c. split; [|done].
        apply uses_pos in Hpos as (v & Hv & <-). by rewrite Hkeep.
      * intros v c Hd Hv Hcv. rewrite Hkeep in Hcv by done. by apply A6.
    + unfold live in *. rewrite Hct. cbn. replace (filter (λ kv : Eid * C, kv.1 ∉ ∅) (filter (λ kv : Eid * C, kv.1 ∉ deleted m) (contents m)))
        with (filter (λ kv : Eid * C, kv.1 ∉ deleted m) (contents m)); [done|]. symmetry. apply map_filter_id. intros j d _. cbn. set_solver.
  - intros i Hi. unfold sees. destruct (fnodes m !! i) as [f|] eqn:Hif.
    + destruct (Hdom _ _ Hif Hi) as (f' & -> & Hs & Hv & Ho). cbn. f_equal. unfold view. rewrite (e_type _ _ Hs), Hv, Ho. destruct (ftype f); [|done].
      f_equal. apply list_fmap_ext. intros k v Hk. unfold shown. f_equal. rewrite Hkeep; [done|]. apply all_vers_in. exists i, f. split; [done|].
      by eapply list_elem_of_lookup_2.
    + destruct (fnodes m' !! i) as [f'|] eqn:Hi'; [|done]. destruct (Hlook _ _ Hi') as (_ & f & Hf & _). congruence.
Qed.

(** ** The transaction as a whole *)

Record tx_fail m (e : Error) m' : Prop := {
  x_env : env_grows (env m) (env m');
  x_caches : caches_ok m';
  x_why : excused m e
}.
Lemma tx_fail_step m X Y m' e : base_ok m X Y → cont_step m m' → excused m e → tx_fail m e m'.
Proof.
  intros Hb Hs He. split; [apply Hs| |done]. eapply caches_same; [apply (p_fcache _ _ Hs)|]. apply Hb.
Qed.

Lemma fs_ok_env m e : fs_ok m → env_keeps (env m) e → fs_ok (set_env e m).
Proof.
  intros [[Hb Hc] [Ht Hd]] He. split; [|done]. split; [eapply base_step; [done|by apply cont_step_env]|].
  destruct Hc as [[A1 A2 A3 A4 A5 A6] Hl]. split; [|done]. split; try done. intros i Hi. cbn. destruct He as [-> _]. by apply A4.
Qed.
Lemma fs_ok_restored m m1 : fs_ok m → env_grows (env m) (env m1) → caches_ok m1 → fs_ok (set_fcache (fcache m1) (set_env (env m1) m)).
Proof.
  intros [[[H1 H2 H3 H4 H5 H6 H7 H8 H9 H10 H11] [[A1 A2 A3 A4 A5 A6] Hl]] [Ht Hd]] [He _] Hc. split; [|done]. split; [split|split; [split|]]; try done.
  - by apply (caches_same m1).
  - intros i Hi. destruct (H9 i Hi). split; [cbn; set_solver|done].
  - intros i Hi. apply He. by apply A4.
Qed.

Lemma run_all_ret_spec {A} (oper : run Mem A) m (Q : A → Mem → Prop) (F : Error → Mem → Prop) : fs_ok m →
  (∀ e, env_keeps (env m) e → spec oper (set_env e m)
     (λ a m1, env_grows (env m) (env m1) ∧ ∃ X Y, tx_ok m1 X Y ∧ X ∖ Y = {[rt]} ∧ Y ⊆ deleted m1 ∧
        ∀ m2, fs_ok m2 → env_grows (env m) (env m2) → (∀ p n, edges (fnodes m2) p n = edges (fnodes m1) p n) →
          (∀ i, (i ∉ Y) → sees m2 i = sees m1 i) → Q a m2)
     (tx_fail m) (λ _, False)) →
  (∀ x m', fs_ok m' → env_grows (env m) (env m') → (∀ l, tree m' l = tree m l) → excused m x → F x m') →
  spec (run_all_ret oper) m Q F (λ _, False).
Proof.
  intros Hok Hoper Hf. unfold run_all_ret. apply spec_bind, io_spec.
  2: { intros x e He Hns. apply Hf; [by apply fs_ok_env|by apply env_keeps_grows|done|by left]. }
  intros e He. set (m0 := set_env e m). apply spec_bind, spec_ask. cbn [id]. apply spec_bind, spec_attempt.
  assert (Hrestore : ∀ x m1, tx_fail m x m1 → spec (_ ← restore m0; fail x) m1 Q F (λ _, False)).
  { intros x m1 [Hx1 Hx2 Hx3]. apply spec_bind. unfold restore. apply spec_modify, spec_fail. apply Hf; try done.
    apply (fs_ok_restored m m1); done. }
  apply spec_bind. eapply spec_mono; [by apply Hoper| | |done]; [|exact Hrestore].
  intros a m1 (Hg1 & X & Y & Htx & HX & HY & Hq). apply spec_bind, io_spec.
  2: { intros x e' He' Hns. apply Hrestore. split; [eapply env_grows_trans; [done|by apply env_keeps_grows]| |].
    - apply (caches_same m1); [done|]. apply Htx.
    - left. destruct Hns as [Hns ?]. split; [|done]. intros Hst. apply Hns. by apply Hg1. }
  intros e' He'. set (m2 := set_env e' m1).
  assert (Htx2 : tx_ok m2 X Y).
  { destruct Htx as [Hb [[A1 A2 A3 A4 A5 A6] Hl]]. split; [eapply base_step; [done|by apply cont_step_env]|]. split; [|done].
    split; try done. intros i Hi. cbn. destruct He' as [-> _]. by apply A4. }
  apply spec_bind, commit_spec, spec_ret, spec_ret. destruct (commit_ok m2 X Y Htx2 HX HY) as (Hok2 & Henv2 & He2 & Hs2).
  apply Hq; [done| |done|done]. rewrite Henv2. eapply env_grows_trans; [done|by apply env_keeps_grows].
Qed.
End tx.
