(* ===== verification/FsTreeSpec.v ===== *)
(** * The file system as a map from paths to nodes: what each operation should do. *)
From stdpp Require Import strings.
From S2P Require Import Prelude Run Base Segment Fnode Fs FsTree FsInv FsForest FsCont FsTx.
Import FileType(FileType, File, Dir).

Section tree.
Context {Hash : Type}.
Abbreviation Node := (Node Hash).
Abbreviation Tree := (gmap (list string) Node).
Implicit Types (T : Tree) (p from to : Path) (l : list string) (n : string).

Definition is_file_node (nd : Node) : bool := match nd with NFile _ _ => true | NDir => false end.

(** ** Lookup *)

Definition a_lookup T p : res Node :=
  if negb (Path.has_root p) then Err InvalidPath else ok_or NotFound (T !! Path.comps p).
(** The parent, which has to exist, and the name. *)
Definition a_parent T p : res (list string * string * Node) :=
  q ← ok_or IsRoot (Path.parent p);
  n ← ok_or InvalidPath (Path.file_name p);
  nd ← a_lookup T q;
  Ok (Path.comps q, n, nd).
Definition child_of l l' : bool := bool_decide (l' ≠ [] ∧ Path.init l' = l).
Definition a_empty T l : bool := bool_decide (map_Forall (λ l' _, child_of l l' = false) T).

(** ** Operations; [ro]: the file system is read-only *)

Definition a_create (ro : bool) T p (nd : Node) : res Tree :=
  if ro then Err ReadOnly
  else
    '(l, n, par) ← a_parent T p;
    if is_file_node par then Err NotDir
    else match T !! (l ++ [n]) with Some _ => Err AlreadyExists | None => Ok (<[l ++ [n] := nd]> T) end.

Definition a_remove_file (ro : bool) T p : res Tree :=
  if ro then Err ReadOnly
  else
    nd ← a_lookup T p;
    if is_file_node nd then Ok (delete (Path.comps p) T) else Err NotFile.

Definition a_remove_dir (ro : bool) T p : res Tree :=
  if ro then Err ReadOnly
  else
    nd ← a_lookup T p;
    if is_file_node nd then Err NotDir
    else if bool_decide (Path.comps p = []) then Err IsRoot
    else if a_empty T (Path.comps p) then Ok (delete (Path.comps p) T) else Err NotEmpty.

Definition prefixed l (l' : list string) : bool := bool_decide (l `prefix_of` l').
(** All that is at or below [l] moved to [l2]. *)
Definition a_move T l l2 : Tree :=
  let moved := filter (λ kv : list string * Node, prefixed l kv.1 = true) T in
  let rest := filter (λ kv : list string * Node, prefixed l kv.1 || prefixed l2 kv.1 = false) T in
  list_to_map ((λ kv : list string * Node, (l2 ++ drop (length l) kv.1, kv.2)) <$> map_to_list moved) ∪ rest.

(** A target may be missing; the one that is there has to go with the source, and be empty. *)
Definition a_target T to : res (option Node) :=
  match a_lookup T to with Ok nd => Ok (Some nd) | Err NotFound => Ok None | Err e => Err e | Panic => Panic end.
Definition a_check T (src tgt : Node) to : res () :=
  if bool_decide (Path.comps to = []) then Err IsRoot
  else if is_file_node src && negb (is_file_node tgt) then Err IsDir
  else if negb (is_file_node src) then
    if is_file_node tgt then Err NotDir else if a_empty T (Path.comps to) then Ok () else Err NotEmpty
  else Ok ().
Definition a_moved T from to : res Tree := '(l, n, _) ← a_parent T to; Ok (a_move T (Path.comps from) (l ++ [n])).

Definition a_rename (ro : bool) T from to : res Tree :=
  if ro then Err ReadOnly
  else if bool_decide (from = to) then Ok T
  else if Path.starts_with to from then Err InvalidArgument
  else
    src ← a_lookup T from;
    tgt ← a_target T to;
    if bool_decide (Path.comps from = []) then Err IsRoot
    else
      _ ← (match tgt with Some nd => a_check T src nd to | None => Ok () end);
      a_moved T from to.

(** A version more, the first one less when there are too many. *)
Definition a_next (vs : list (Z * option Hash)) : Z := match last vs with Some v => v.1 + 1 | None => 1 end.
Definition a_add (o : Options) (vs : list (Z * option Hash)) (h : option Hash) : list (Z * option Hash) :=
  drop (if version_limit o <? zlen vs + 1 then 1 else 0) (vs ++ [(a_next vs, h)]).
Definition a_current (vs : list (Z * option Hash)) : option Hash := v ← last vs; v.2.

Definition a_copy (ro : bool) (empty : Hash) T from to : res Tree :=
  if ro then Err ReadOnly
  else
    src ← a_lookup T from;
    match src with
    | NDir => Err NotFile
    | NFile o vs =>
        match a_lookup T to with
        | Ok NDir => Err NotFile
        | Ok (NFile o' vs') =>
            if bool_decide (Path.comps from = Path.comps to) then Ok T
            else Ok (<[Path.comps to := NFile o' (a_add o' vs' (a_current vs))]> T)
        | Err NotFound =>
            T' ← a_create ro T to (NFile o [(1, Some empty)]);
            Ok (<[Path.comps to := NFile o (a_add o [(1, Some empty)] (a_current vs))]> T')
        | Err e => Err e
        | Panic => Panic
        end
    end.

(** All missing directories on the way to [p]. *)
Fixpoint a_mkdirs (fuel : nat) (ro : bool) T p : res Tree :=
  match fuel with
  | O => Panic
  | S fuel =>
      match a_create ro T p NDir with
      | Err NotFound =>
          match Path.parent p with
          | Some q => T' ← a_mkdirs fuel ro T q; a_create ro T' p NDir
          | None => Err IsRoot
          end
      | r => r
      end
  end.
(** All that is at or below [l]; the root stays. *)
Definition removed_all T l : Tree := filter (λ kv : list string * Node, bool_decide (kv.1 = []) || negb (prefixed l kv.1) = true) T.
Definition a_remove_all (ro : bool) T p : res Tree :=
  nd ← a_lookup T p;
  if is_file_node nd then Err NotDir
  else if ro then Err ReadOnly
  else Ok (removed_all T (Path.comps p)).

(** ** Facts *)

Lemma init_snoc l n : Path.init (l ++ [n]) = l.
Proof. induction l as [|x l IH]; [done|]. destruct l; [done|]. cbn in *. by rewrite IH. Qed.
Lemma child_of_true l l' : child_of l l' = true ↔ ∃ n, l' = l ++ [n].
Proof.
  unfold child_of. rewrite bool_decide_eq_true. split.
  - intros [Hne <-]. induction l' as [|n l' _] using rev_ind; [done|]. exists n. by rewrite init_snoc.
  - intros [n ->]. rewrite init_snoc. split; [by destruct l|done].
Qed.
Lemma a_empty_true T l : a_empty T l = true ↔ ∀ n, T !! (l ++ [n]) = None.
Proof.
  unfold a_empty. rewrite bool_decide_eq_true. split.
  - intros Hf n. destruct (T !! (l ++ [n])) eqn:Hn; [|done]. specialize (Hf _ _ Hn). assert (child_of l (l ++ [n]) = true) by (apply child_of_true; eauto).
    congruence.
  - intros Hn l' nd Hl'. destruct (child_of l l') eqn:Hc; [|done]. apply child_of_true in Hc as [n ->]. congruence.
Qed.

Lemma a_move_lookup T l l2 l' : a_move T l l2 !! l' =
  if decide (l2 `prefix_of` l') then T !! (l ++ drop (length l2) l') else if decide (l `prefix_of` l') then None else T !! l'.
Proof.
  unfold a_move. set (moved := filter _ T). set (rest := filter _ T). set (kvs := _ <$> map_to_list moved).
  assert (Hnd : NoDup kvs.*1).
  { unfold kvs. rewrite <- list_fmap_compose. apply NoDup_fmap_2_strong; [|apply NoDup_map_to_list].
    intros [a x] [b y] Ha%elem_of_map_to_list Hb%elem_of_map_to_list Heq. cbn in Heq. apply app_inv_head in Heq.
    unfold moved in Ha, Hb. apply map_lookup_filter_Some in Ha as [Ha Hpa], Hb as [Hb Hpb]. cbn in Hpa, Hpb.
    apply bool_decide_eq_true_1 in Hpa as [la ->], Hpb as [lb ->].
    rewrite !drop_app_length in Heq. subst lb. congruence. }
  assert (Hin : ∀ k nd, (k, nd) ∈ kvs ↔ ∃ a, k = l2 ++ a ∧ T !! (l ++ a) = Some nd).
  { intros k nd. unfold kvs. rewrite list_elem_of_fmap. split.
    - intros ([b x] & [= -> ->] & Hb%elem_of_map_to_list). apply map_lookup_filter_Some in Hb as [Hb Hpb]. cbn in Hpb.
      apply bool_decide_eq_true_1 in Hpb as [a ->].
      exists a. cbn. by rewrite drop_app_length.
    - intros (a & -> & Ha). exists (l ++ a, nd). cbn. rewrite drop_app_length. split; [done|]. apply elem_of_map_to_list, map_lookup_filter_Some.
      split; [done|]. apply bool_decide_eq_true_2. by exists a. }
  destruct (decide (l2 `prefix_of` l')) as [[a ->]|Hn2].
  - rewrite drop_app_length. destruct (T !! (l ++ a)) as [nd|] eqn:Ha.
    + apply lookup_union_Some_l, elem_of_list_to_map; [done|]. apply Hin. by exists a.
    + apply lookup_union_None. split.
      * apply not_elem_of_list_to_map. intros ([k nd] & Hk & Hkin)%list_elem_of_fmap. cbn in Hk. subst k.
        apply Hin in Hkin as (b & Hb & Hnd'). apply app_inv_head in Hb. subst b. congruence.
      * apply map_lookup_filter_None. right. intros nd _. cbn. unfold prefixed. rewrite (bool_decide_eq_true_2 (l2 `prefix_of` _)); [by rewrite orb_true_r|by exists a].
  - assert (Hmn : (list_to_map kvs : Tree) !! l' = None).
    { apply not_elem_of_list_to_map. intros ([k nd] & Hk & Hkin)%list_elem_of_fmap. cbn in Hk. subst k. apply Hin in Hkin as (b & -> & _). by destruct Hn2; exists b. }
    rewrite lookup_union_r by done. destruct (decide (l `prefix_of` l')) as [Hl|Hl].
    + apply map_lookup_filter_None. right. intros nd _. cbn. unfold prefixed. by rewrite bool_decide_eq_true_2.
    + destruct (T !! l') as [nd|] eqn:Hnd'; [apply map_lookup_filter_Some; split; [done|]|apply map_lookup_filter_None; by left].
      cbn. unfold prefixed. by rewrite !bool_decide_eq_false_2.
Qed.

Lemma comps_parent p q n : Path.parent p = Some q → Path.file_name p = Some n → Path.comps p = Path.comps q ++ [n] ∧ Path.has_root q = Path.has_root p.
Proof.
  unfold Path.parent, Path.file_name. intros Hq Hn. destruct (Path.comps p) as [|x l] eqn:Hp; [done|]. injection Hq as <-. cbn [Path.comps Path.has_root].
  split; [|done]. destruct (last (x :: l)) as [y|] eqn:Hl; [|done]. case_match; [|done]. injection Hn as <-.
  apply last_Some in Hl as [l' Hl']. change (x :: l = Path.init (x :: l) ++ [y]). by rewrite Hl', init_snoc.
Qed.
Lemma comps_root p : Path.parent p = None ↔ Path.comps p = [].
Proof. unfold Path.parent. by destruct (Path.comps p). Qed.
Lemma prefix_of_spec l l' : Path.prefix_of l l' = true ↔ l `prefix_of` l'.
Proof.
  revert l'. induction l as [|x l IH]; intros l'; cbn.
  - split; [|done]. intros _. by exists l'.
  - destruct l' as [|y l']; [split; [done|intros [? ?]; done]|]. rewrite andb_true_iff, bool_decide_eq_true, IH. split.
    + intros [-> ?]. by apply prefix_cons.
    + intros Hp. split; [by eapply prefix_cons_inv_1|by eapply prefix_cons_inv_2].
Qed.

(** ** Trees *)

(** What has a parent has it as a directory. *)
Definition closed T : Prop := ∀ l n nd, T !! (l ++ [n]) = Some nd → T !! l = Some NDir.

Lemma closed_above T l l0 nd : closed T → T !! l = Some nd → l0 `prefix_of` l → l0 ≠ l → T !! l0 = Some NDir.
Proof.
  intros Hc Hl [b ->] Hne. induction b as [|n b IH] using rev_ind in nd, Hl, Hne |- *; [by rewrite app_nil_r in Hne|].
  rewrite app_assoc in Hl. pose proof (Hc _ _ _ Hl) as Hl'. destruct (decide (b = [])) as [->|Hb]; [by rewrite app_nil_r in Hl'|].
  apply (IH NDir Hl'). intros Heq. rewrite <- (app_nil_r l0) in Heq at 1. by apply app_inv_head in Heq.
Qed.
Lemma closed_below T l b : closed T → T !! l = None → T !! (l ++ b) = None.
Proof.
  intros Hc Hl. destruct (T !! (l ++ b)) as [nd|] eqn:Hb; [|done]. destruct (decide (b = [])) as [->|Hne]; [rewrite app_nil_r in Hb; congruence|].
  rewrite (closed_above T (l ++ b) l nd Hc Hb) in Hl; [done|by eexists|]. intros Heq. apply Hne. rewrite <- (app_nil_r l) in Heq at 1. by apply app_inv_head in Heq.
Qed.

Lemma create_ok ro T p nd T' : a_create ro T p nd = Ok T' → ∃ l n, Path.comps p = l ++ [n] ∧ ro = false ∧ T !! l = Some NDir ∧ T !! (l ++ [n]) = None ∧ T' = <[l ++ [n] := nd]> T ∧
  Path.file_name p = Some n ∧ Path.has_root p = true.
Proof.
  unfold a_create, a_parent. destruct ro; [done|]. destruct (Path.parent p) as [q|] eqn:Hq; [|done]. destruct (Path.file_name p) as [n|] eqn:Hn; [|done].
  destruct (comps_parent _ _ _ Hq Hn) as [Hc Hr]. cbn [ok_or mbind res_bind]. unfold a_lookup. rewrite Hr. destruct (Path.has_root p); [|done]. cbn. destruct (T !! Path.comps q) as [a|] eqn:Ha; [|done].
  cbn. destruct a as [|o vs]; [|done]. cbn. destruct (T !! (Path.comps q ++ [n])) eqn:Hx; [done|]. intros [= <-]. exists (Path.comps q), n. done.
Qed.
Lemma create_missing ro T p nd : a_create ro T p nd = Err NotFound → ∃ l n q, Path.parent p = Some q ∧ Path.comps q = l ∧ Path.comps p = l ++ [n] ∧ ro = false ∧ T !! l = None ∧
  Path.file_name p = Some n ∧ Path.has_root p = true ∧ Path.has_root q = true.
Proof.
  unfold a_create, a_parent. destruct ro; [done|]. destruct (Path.parent p) as [q|] eqn:Hq; [|done]. destruct (Path.file_name p) as [n|] eqn:Hn; [|done].
  destruct (comps_parent _ _ _ Hq Hn) as [Hc Hr]. cbn [ok_or mbind res_bind]. unfold a_lookup. rewrite Hr. destruct (Path.has_root p); [|done]. cbn. destruct (T !! Path.comps q) as [a|] eqn:Ha.
  - cbn. destruct (is_file_node a); [done|]. by destruct (T !! (Path.comps q ++ [n])).
  - intros _. exists (Path.comps q), n, q. done.
Qed.

(** The directories on the way are there, and nothing else has changed. *)
Lemma mkdirs_ok fuel ro T p T' : closed T → a_mkdirs fuel ro T p = Ok T' →
  ∀ l, T' !! l = if decide (l `prefix_of` Path.comps p) then Some NDir else T !! l.
Proof.
  revert p T'. induction fuel as [|fuel IH]; intros p T' Hc; [done|]. cbn [a_mkdirs].
  assert (Hadd : ∀ T1 T2 l1 n, closed T → (∀ l, T1 !! l = if decide (l `prefix_of` l1) then Some NDir else T !! l) → T2 = <[l1 ++ [n] := NDir]> T1 →
    ∀ l, T2 !! l = if decide (l `prefix_of` (l1 ++ [n])) then Some NDir else T !! l).
  { intros T1 T2 l1 n _ H1 -> l. destruct (decide (l = l1 ++ [n])) as [->|Hne]; [by rewrite lookup_insert_eq, decide_True|]. rewrite lookup_insert_ne, H1 by done.
    destruct (decide (l `prefix_of` l1)) as [Hp|Hp]; [rewrite decide_True; [done|by apply prefix_app_r]|rewrite decide_False; [done|]].
    intros [b Hb]. destruct b as [|x b _] using rev_ind; [rewrite app_nil_r in Hb; congruence|]. rewrite app_assoc in Hb. apply app_inj_tail in Hb as [-> _]. apply Hp. by eexists. }
  destruct (a_create ro T p NDir) as [T1|e|] eqn:Hcr.
  - intros [= <-]. destruct (create_ok _ _ _ _ _ Hcr) as (l1 & n & Hcomps & _ & Hl1 & _ & HT1 & _). rewrite Hcomps. apply (Hadd T T1 l1 n); [done| |done].
    intros l. case_decide as Hp; [|done]. destruct (decide (l = l1)) as [->|]; [done|]. by apply (closed_above T l1 l NDir).
  - destruct (decide (e = NotFound)) as [->|]; [|by destruct e]. destruct (create_missing _ _ _ _ Hcr) as (l1 & n & q & Hq & Hcq & Hcp & _). rewrite Hq.
    destruct (a_mkdirs fuel ro T q) as [T1| |] eqn:Hmk; [|done..]. cbn. intros Hcr2. destruct (create_ok _ _ _ _ _ Hcr2) as (l2 & n2 & Hcomps & _ & _ & _ & HT2 & _).
    rewrite Hcomps. rewrite Hcp in Hcomps. apply app_inj_tail in Hcomps as [<- <-]. apply (Hadd T1 T' l1 n); [done| |done]. rewrite <- Hcq. by apply (IH q).
  - done.
Qed.

(** Making the last one cannot fail when the others have been made. *)
Lemma mkdirs_last fuel ro T p q T1 : closed T → a_create ro T p NDir = Err NotFound → Path.parent p = Some q → a_mkdirs fuel ro T q = Ok T1 →
  ∃ T2, a_create ro T1 p NDir = Ok T2.
Proof.
  intros Hc Hcr Hq Hmk. destruct (create_missing _ _ _ _ Hcr) as (l & n & q' & Hq' & Hcq & Hcp & -> & Hnone & Hn & Hr & Hrq). rewrite Hq in Hq'. injection Hq' as <-.
  pose proof (mkdirs_ok _ _ _ _ _ Hc Hmk) as Hl. unfold a_create, a_parent. rewrite Hq, Hn. cbn. unfold a_lookup. rewrite Hrq. cbn.
  rewrite (Hl (Path.comps q)), decide_True by done. cbn. rewrite (Hl (Path.comps q ++ [n])), decide_False.
  - rewrite Hcq, (closed_below T l [n]) by done. by eexists.
  - intros [b Hb]. rewrite <- app_assoc in Hb. rewrite <- (app_nil_r (Path.comps q)) in Hb at 1. apply app_inv_head in Hb. done.
Qed.

(** Fuel for the components of the path is enough. *)
Lemma mkdirs_fuel fuel fuel' ro T p : (length (Path.comps p) < fuel)%nat → (length (Path.comps p) < fuel')%nat → a_mkdirs fuel ro T p = a_mkdirs fuel' ro T p.
Proof.
  revert fuel' p. induction fuel as [|fuel IH]; intros [|fuel'] p Hf Hf'; try lia. cbn [a_mkdirs]. destruct (a_create ro T p NDir) as [T1|e|] eqn:Hcr; [done| |done].
  destruct (decide (e = NotFound)) as [->|]; [|by destruct e]. destruct (create_missing _ _ _ _ Hcr) as (l & n & q & Hq & Hcq & Hcp & _). rewrite Hq.
  rewrite Hcp, length_app in Hf, Hf'. cbn in Hf, Hf'. rewrite (IH fuel'); [done|rewrite Hcq; lia..].
Qed.
End tree.
Abbreviation Tree Hash := (gmap (list string) (Node Hash)).
