(* ===== verification/FsEdit.v ===== *)
(** * Steps of a transaction that change versions, make fnodes and delete them. *)
From stdpp Require Import strings.
From S2P Require Import Prelude Run Base Segment Fnode Fs FsTree FsInv FsForest FsCont FsTx.
Import Mem Fnode FileType(FileType, File, Dir).

(** ** What the steps of a transaction on the file system do to its tree. *)

(** Removing from a cache. *)
Lemma lru_remove_any {A V M} `{EqDecision A, !LinkedMapOps A V M, !LinkedMap A V M, !Meter V, !Pinnable V} (k : A) (c : Lru.Lru M) :
  Lru.capacity (Lru.remove (K:=A) (V:=V) k c).2 = Lru.capacity c ∧
  ∀ k', lm_get k' (Lru.map (Lru.remove (K:=A) (V:=V) k c).2) = if decide (k' = k) then None else lm_get k' (Lru.map c).
Proof.
  unfold Lru.remove. destruct (lm_remove k (Lru.map c)) as [o M'] eqn:HM. split; [by destruct o|]. intros k'. rewrite <- lm_get_remove, HM. by destruct o.
Qed.

Section body.
Context {C K G Hash E SN FC : Type} `{!EqDecision Hash, !Countable Hash, !Env E, !EnvLaws E, !ContentLayer C K G Hash, !ContentLaws C K G Hash}.
Context `{!LinkedMapOps string Eid SN, !LinkedMap string Eid SN, !LinkedMapOps Eid Eid FC, !LinkedMap Eid Eid FC}.
Abbreviation Fn := (Fnode.Fnode K SN).
Abbreviation heap := (gmap Eid Fn).
Abbreviation Mem := (Mem.Mem C K G Hash E SN FC).
Abbreviation V := Version.Version.
Abbreviation hash := (ct_hash (C:=C) (K:=K) (S:=G) (Hash:=Hash)).
Implicit Types (f g : Fn) (H : heap) (m : Mem) (v : V) (vs : list V) (i p : Eid) (n : string) (c : C) (h : Hash) (X Y : gset Eid).
Context (fs : Fs.Fs).
Abbreviation rt := (Fs.root fs).
Abbreviation tx_ok := (FsTx.tx_ok fs).
Abbreviation base_ok := (FsTx.base_ok fs).

Lemma excused_grows m m' e : env_grows (env m) (env m') → excused m' e → excused m e.
Proof. intros Hg [[Hn ?]|?]; [left; split; [|done]|by right]. intros Hst. apply Hn. by apply Hg. Qed.
Lemma tx_fail_trans m m1 m2 e : env_grows (env m) (env m1) → tx_fail m1 e m2 → tx_fail m e m2.
Proof. intros Hg [H1 H2 H3]. split; [by eapply env_grows_trans|done|by eapply excused_grows]. Qed.

Lemma tx_ok_touch t e m X Y : tx_ok m X Y → env_keeps (env m) e → tx_ok (set_trans t (deleted m) (set_env e m)) X Y.
Proof. intros [Hb Hc] He. split; [eapply base_step; [done|by apply cont_step_touch]|by apply conts_ok_env]. Qed.
Lemma tx_ok_env e m X Y : tx_ok m X Y → env_keeps (env m) e → tx_ok (set_env e m) X Y.
Proof. intros Ht He. by apply (tx_ok_touch (touched m) e). Qed.

Lemma make_mut_spec_fs i f m X Y (Q : Fn → Mem → Prop) : tx_ok m X Y → fnodes m !! i = Some f →
  (∀ e t, env_keeps (env m) e → let m' := set_trans t (deleted m) (set_env e m) in tx_ok m' X Y → Q f m') →
  spec (make_mut i) m Q (tx_fail m) (λ _, False).
Proof.
  intros Hok Hi Hq. unfold make_mut. apply spec_bind, touch_spec.
  - intros e He. eapply fnode_spec; [exact Hi|]. apply Hq; [done|by apply tx_ok_touch].
  - intros x e He Hx. apply (tx_fail_step fs m X Y); [apply Hok|by apply cont_step_env|done].
Qed.

(** ** Detaching *)

(** Nothing else changes: the contents, what each fnode shows, and whose child it is. *)
Record calm m m' : Prop := {
  m_env : env_grows (env m) (env m');
  m_contents : contents m' = contents m;
  m_segs : segs m' = segs m;
  m_deleted : deleted m' = deleted m;
  m_sees i : sees m' i = sees m i
}.
Lemma calm_refl m : calm m m.
Proof. split; try done. Qed.
Lemma calm_trans m1 m2 m3 : calm m1 m2 → calm m2 m3 → calm m1 m3.
Proof.
  intros [A1 A2 A3 A4 A5] [B1 B2 B3 B4 B5]. split; [by eapply env_grows_trans|congruence..|]. intros i. by rewrite B5.
Qed.

Lemma sees_type m i f : fnodes m !! i = Some f → (ftype f = Dir ↔ sees m i = Some NDir).
Proof. intros Hi. unfold sees. rewrite Hi. cbn. unfold view. by destruct (ftype f). Qed.
Lemma sees_dom m m' i : sees m' i = sees m i → is_Some (fnodes m' !! i) ↔ is_Some (fnodes m !! i).
Proof. unfold sees. destruct (fnodes m' !! i), (fnodes m !! i); try done; split; try done; by eexists. Qed.
Lemma view_same m m' f f' : contents m' = contents m → ftype f' = ftype f → vers f' = vers f → Fnode.opts f' = Fnode.opts f → view m' f' = view m f.
Proof. intros Hc Ht Hv Ho. unfold view, shown. by rewrite Ht, Hv, Ho, Hc. Qed.

(** A forest that is rearranged, the versions being as they were. *)
Lemma base_moved m H' X Y X' : base_ok m X Y → forest H' X' → rt ∈ X' → Y ⊆ X' →
  (∀ j, match fnodes m !! j, H' !! j with
        | Some f, Some f' => ftype f' = ftype f ∧ vers f' = vers f ∧ Fnode.opts f' = Fnode.opts f ∧ (j ∈ Y → kids f' = kids f)
        | None, None => True | _, _ => False end) →
  parent_of H' rt = None → base_ok (set_fnodes H' m) X' Y.
Proof.
  intros [H1 H2 H3 H4 (r & Hr & Hrd) H6 H7 H8 H9 H10 H11] Hf Hrt HY Hs Hpar.
  assert (Hlook : ∀ j f', H' !! j = Some f' → ∃ f, fnodes m !! j = Some f ∧ ftype f' = ftype f ∧ vers f' = vers f ∧ Fnode.opts f' = Fnode.opts f ∧ (j ∈ Y → kids f' = kids f)).
  { intros j f' Hj. specialize (Hs j). rewrite Hj in Hs. destruct (fnodes m !! j) as [f|]; [by exists f|done]. }
  assert (Hdom : ∀ j, is_Some (H' !! j) → is_Some (fnodes m !! j)) by (intros j [f' Hj]; destruct (Hlook _ _ Hj) as (f & ? & _); by exists f).
  split; cbn; try done.
  - by apply (caches_same m).
  - specialize (Hs rt). rewrite Hr in Hs. destruct (H' !! rt) as [r'|]; [|done]. exists r'. split; [done|]. destruct Hs as (-> & _). done.
  - intros j f' Hj Ht Hy. destruct (Hlook _ _ Hj) as (f & Hjf & Htf & Hv & Ho & _).
    destruct (H6 _ _ Hjf) as [[A1 A2 A3] ?]; [congruence|done|]. split; [split; by rewrite ?Hv, ?Ho|by rewrite Hv].
  - intros j f' Hy Hj. destruct (Hlook _ _ Hj) as (f & Hjf & _ & -> & _ & Hk). rewrite (Hk Hy). by apply (H7 j f).
  - intros y Hy. apply elem_of_difference. split; [by apply HY|]. set_solver.
  - intros j Hj. apply H9. by apply Hdom.
  - intros j Hd Hj. apply H10; [done|by apply Hdom].
Qed.
Lemma conts_moved m H' : vers <$> H' = vers <$> fnodes m → conts_ok m (all_vers (fnodes m)) → conts_ok (set_fnodes H' m) (all_vers H').
Proof. intros Hv [[H1 H2 H3 H4 H5 H6] Hl]. rewrite (all_vers_same _ _ Hv). by split; [split|]. Qed.

Lemma position_kid f k i n : NoDup (ChildEntry.name <$> kids f) → kid_named n f = Some k → ChildEntry.id k = i →
  (∀ n' k', kid_named n' f = Some k' → ChildEntry.id k' = i → n' = n) →
  ∃ l1 l2, kids f = l1 ++ k :: l2 ∧ position (λ d, ChildEntry.id d =? i) (kids f) = Some (zlen l1).
Proof.
  intros Hnd Hk Hi Huniq. apply kid_named_Some in Hk as [Hin Hn].
  destruct (position_exists (λ d, ChildEntry.id d =? i) (kids f)) as [x Hx]; [exists k; split; [done|by apply Z.eqb_eq]|].
  pose proof Hx as Hpos. apply position_Some in Hx as (k' & [Hz Hl]%zget_Some & Hid & _). zify_b.
  set (l1 := take (Z.to_nat x) (kids f)). set (l2 := drop (S (Z.to_nat x)) (kids f)).
  assert (Heq : kids f = l1 ++ k' :: l2) by (symmetry; by apply take_drop_middle).
  assert (Hzl : zlen l1 = x) by (unfold zlen, l1; rewrite length_take_le; [lia|]; apply lookup_lt_Some in Hl; lia).
  assert (Hk' : kid_named (ChildEntry.name k') f = Some k') by (apply kid_named_In; [done|rewrite Heq; set_solver|done]).
  assert (Hkn : kid_named n f = Some k) by (by apply kid_named_In).
  pose proof (Huniq _ _ Hk' Hid) as Hn'. rewrite Hn', Hkn in Hk'. injection Hk' as <-. exists l1, l2. by rewrite Hpos, Hzl.
Qed.

Lemma parents_put H i f f' : H !! i = Some f → Fnode.parent f' = Fnode.parent f → ∀ j, parent_of (<[i := f']> H) j = parent_of H j.
Proof.
  intros Hi Hp j. destruct (decide (j = i)) as [->|]; [|unfold parent_of; by rewrite lookup_insert_ne].
  rewrite (parent_at _ _ f'), (parent_at _ _ _ Hi) by apply lookup_insert_eq. done.
Qed.
Lemma vers_put H i f f' : H !! i = Some f → vers f' = vers f → vers <$> <[i := f']> H = vers <$> H.
Proof. intros Hi Hv. rewrite fmap_insert, Hv. apply insert_id. by rewrite lookup_fmap, Hi. Qed.
Lemma sees_put m i f f' : fnodes m !! i = Some f → ftype f' = ftype f → vers f' = vers f → Fnode.opts f' = Fnode.opts f →
  ∀ j, sees (set_fnodes (<[i := f']> (fnodes m)) m) j = sees m j.
Proof.
  intros Hi Ht Hv Ho j. unfold sees. cbn. destruct (decide (j = i)) as [->|]; [|by rewrite lookup_insert_ne].
  rewrite lookup_insert_eq, Hi. cbn. f_equal. by apply view_same.
Qed.

Lemma remove_from_parent_spec i p n m X Y : tx_ok m X Y → edges (fnodes m) p n = Some i → parent_of (fnodes m) i = Some p →
  spec (remove_from_parent i) m
    (λ _ m', tx_ok m' ({[i]} ∪ X) Y ∧ calm m m' ∧ one_more (edges (fnodes m')) (edges (fnodes m)) p n i ∧
       (∀ j, parent_of (fnodes m') j = parent_of (fnodes m) j) ∧ (∀ j, j ≠ p → fnodes m' !! j = fnodes m !! j))
    (tx_fail m) (λ _, False).
Proof.
  intros Hok He Hpar. pose proof (t_forest _ _ _ _ (proj1 Hok)) as Hf.
  destruct (edges_dom _ _ _ _ _ Hf He) as [g Hg]. rewrite (parent_at _ _ _ Hg) in Hpar.
  unfold remove_from_parent. apply spec_bind. eapply fnode_spec; [exact Hg|]. rewrite Hpar.
  destruct (fnodes m !! p) as [f|] eqn:Hp; [|by rewrite edges_none in He].
  apply spec_bind. eapply make_mut_spec_fs; [done..|]. intros e t Hke m1 Hok1. rewrite (edges_at _ _ _ _ Hp) in He.
  apply fmap_Some in He as (k & Hk & Hi). symmetry in Hi. apply kid_named_Some in Hk as Hkn. destruct Hkn as [_ Hkn].
  destruct (position_kid f k i n) as (l1 & l2 & Heq & Hpos); [by eapply f_names|done..| |].
  { intros n' k' Hk' Hi'. assert (Hn : edges (fnodes m) p n = Some i) by (rewrite (edges_at _ _ _ _ Hp), Hk; cbn; by rewrite Hi).
    assert (Hn' : edges (fnodes m) p n' = Some i) by (rewrite (edges_at _ _ _ _ Hp), Hk'; cbn; by rewrite Hi').
    by destruct (f_inj _ _ Hf _ _ _ _ _ Hn Hn') as [_ ->]. }
  rewrite Hpos. cbn [ok_or]. apply spec_bind, spec_lift_ok, spec_bind. rewrite Heq, vindex_middle. apply spec_lift_ok.
  apply spec_bind. rewrite vremove_middle. apply spec_lift_ok. unfold put_fnode. apply spec_modify.
  set (f' := set_kids (l1 ++ l2) _).
  assert (Hd : detached f f' k).
  { destruct (lru_remove_any (A:=string) (V:=Eid) (ChildEntry.name k) (sub_nodes f)) as [Hcap Hget].
    split; try done; [by exists l1, l2|]. intros m' j Hs. unfold sub, f' in Hs. cbn in Hs. rewrite Hget in Hs. by case_decide. }
  destruct (forest_detach _ _ _ _ _ _ Hf Hp Hd) as [Hf' Hm]. rewrite Hi, Hkn in Hm. rewrite Hi in Hf'.
  change (fnodes m1) with (fnodes m). set (H' := <[p := f']> (fnodes m)) in *.
  assert (Hparents : ∀ j, parent_of H' j = parent_of (fnodes m) j) by by apply (parents_put _ _ f).
  pose proof Hok1 as [Hb1 Hc1]. split; [|split; [|split; [done|split; [done|]]]].
  - split; [|apply conts_moved; [by apply (vers_put _ _ f)|done]]. pose proof (t_sub _ _ _ _ Hb1). pose proof (t_rt _ _ _ _ Hb1).
    apply (base_moved m1 H' X); [done|done|set_solver|set_solver| |rewrite Hparents; apply Hok].
    intros j. change (fnodes m1) with (fnodes m). destruct (decide (j = p)) as [->|]; [|unfold H'; rewrite lookup_insert_ne by done; by destruct (fnodes m !! j)].
    rewrite Hp. unfold H'. rewrite lookup_insert_eq. split; [done|]. split; [done|]. split; [done|]. intros Hy.
    destruct (t_dying _ _ _ _ Hb1 p f Hy Hp) as [Hkf _]. rewrite Hkf in Heq. by destruct l1.
  - split; try done; [by apply env_keeps_grows|]. intros j. by apply (sees_put m1 p f).
  - intros j Hj. unfold H'. cbn. by rewrite lookup_insert_ne.
Qed.

(** ** Attaching *)

Lemma add_child_spec p (c : Eid) n l0 m X Y : tx_ok m X Y → path_to (edges (fnodes m)) rt l0 = Some p → sees m p = Some NDir →
  edges (fnodes m) p n = None → c ∈ X → c ≠ rt → (c ∉ Y) →
  spec (add_child p c n) m
    (λ _ m', tx_ok m' (X ∖ {[c]}) Y ∧ calm m m' ∧ one_more (edges (fnodes m)) (edges (fnodes m')) p n c)
    (tx_fail m) (λ _, False).
Proof.
  intros Hok Hl0 Hdir Hnone HcX Hcrt HcY. pose proof (t_forest _ _ _ _ (proj1 Hok)) as Hf.
  assert (Hps : ∃ f, fnodes m !! p = Some f ∧ ftype f = Dir).
  { unfold sees in Hdir. destruct (fnodes m !! p) as [f|] eqn:Hp; [|done]. exists f. split; [done|].
    apply (sees_type _ _ _ Hp). unfold sees. by rewrite Hp. }
  destruct Hps as (f & Hp & Ht). destruct (f_roots _ _ Hf _ HcX) as [[g Hg] Hctop].
  unfold add_child. apply spec_bind. eapply make_mut_spec_fs; [done..|]. intros e t He m1 Hok1.
  apply spec_bind. eapply fnode_spec; [exact Hg|]. apply spec_bind. unfold put_fnode at 1. apply spec_modify.
  change (fnodes m1) with (fnodes m). set (k := ChildEntry.new c (ftype g) n). set (f1 := set_kids _ f). set (m2 := set_fnodes _ m1).
  assert (Hpc : p ≠ c).
  { intros ->. destruct (f_roots _ _ Hf rt (t_rt _ _ _ _ (proj1 Hok))) as [_ Hrt].
    by destruct (path_unique _ rt c l0 [] c (f_inj _ _ Hf) Hrt Hctop Hl0 eq_refl). }
  (* the second entity joins the transaction *)
  apply spec_bind. unfold make_mut. apply spec_bind, touch_spec.
  2: { intros x e2 He2 Hx. split; [cbn; apply env_keeps_grows; by eapply env_keeps_trans|apply (caches_same m); [done|apply Hok]|].
    apply (excused_grows m m2); [cbn; by apply env_keeps_grows|exact Hx]. }
  intros e2 He2. eapply fnode_spec; [unfold m2; cbn; by rewrite lookup_insert_ne|]. apply spec_bind. unfold put_fnode at 1. apply spec_modify.
  apply spec_bind. eapply fnode_spec; [cbn; rewrite lookup_insert_ne by congruence; apply lookup_insert_eq|].
  pose proof (f_cap _ _ Hf _ _ Hp) as Hcap.
  destruct (lru_insert_any (A:=string) (V:=Eid) n c (sub_nodes f1)) as (o & sn & Hins & Hcap' & Hget); [unfold f1; cbn; by rewrite Hcap|].
  apply spec_bind. rewrite Hins. apply spec_lift_ok, spec_bind, draw_spec_fs. set (tm := (env_now _).1).
  unfold put_fnode. apply spec_modify. set (m3 := set_fnodes _ _).
  set (f' := set_mtime tm (set_sub_nodes sn f1)). set (g' := set_parent (Some p) g).
  assert (HH : fnodes m3 = <[p := f']> (<[c := g']> (fnodes m))).
  { unfold m3. cbn. fold f' g'. rewrite (insert_insert_ne _ c p) by done. by rewrite insert_insert_eq. }
  destruct (forest_attach (fnodes m) X rt l0 p f f' g n c) as (Hf' & Hm & _); try done; [apply (t_rt _ _ _ _ (proj1 Hok))|].
  fold g' in Hf', Hm. rewrite <- HH in Hf', Hm. set (H' := fnodes m3) in *.
  assert (Hke : env_keeps (env m) (env m3)).
  { unfold m3. cbn. eapply env_keeps_trans; [exact He|]. eapply env_keeps_trans; [exact He2|apply env_now_law]. }
  set (m4 := set_trans (touched m3) (deleted m) (set_env (env m3) m)).
  assert (Hok4 : tx_ok m4 X Y) by by apply tx_ok_touch.
  assert (Hm3 : m3 = set_fnodes H' m4) by done.
  assert (Hpt : H' !! p = Some f') by (rewrite HH; apply lookup_insert_eq).
  assert (Hct : H' !! c = Some g') by (rewrite HH; rewrite lookup_insert_ne by done; apply lookup_insert_eq).
  assert (Hot : ∀ j, j ≠ p → j ≠ c → H' !! j = fnodes m !! j) by (intros; rewrite HH; by rewrite !lookup_insert_ne).
  assert (Hs : ∀ j, match fnodes m !! j, H' !! j with
      | Some f, Some f' => ftype f' = ftype f ∧ vers f' = vers f ∧ Fnode.opts f' = Fnode.opts f ∧ (j ∈ Y → kids f' = kids f)
      | None, None => True | _, _ => False end).
  { intros j. destruct (decide (j = p)) as [->|]; [|destruct (decide (j = c)) as [->|]; [|rewrite Hot by done; by destruct (fnodes m !! j)]].
    - rewrite Hp, Hpt. do 3 (split; [done|]). intros Hy. pose proof (t_sub _ _ _ _ (proj1 Hok) _ Hy) as [Hpx Hpr]%elem_of_difference.
      destruct (f_roots _ _ Hf _ Hpx) as [_ Hptop]. destruct (f_roots _ _ Hf rt (t_rt _ _ _ _ (proj1 Hok))) as [_ Hrt].
      destruct (path_unique _ rt p l0 [] p (f_inj _ _ Hf) Hrt Hptop Hl0 eq_refl) as [Heq _]. set_solver.
    - by rewrite Hg, Hct. }
  assert (Hprt : parent_of H' rt = None).
  { pose proof (t_top _ _ _ _ (proj1 Hok)) as Htop. destruct (decide (rt = p)) as [<-|]; [rewrite (parent_at _ _ _ Hpt)|unfold parent_of in *; by rewrite Hot by done].
    by rewrite (parent_at _ _ _ Hp) in Htop. }
  assert (Hvers : vers <$> H' = vers <$> fnodes m).
  { apply map_eq. intros j. rewrite !lookup_fmap. specialize (Hs j). destruct (fnodes m !! j), (H' !! j); try done. cbn. f_equal. apply Hs. }
  rewrite Hm3. destruct Hok4 as [Hb4 Hc4]. split; [|split; [|done]].
  - split; [|by apply conts_moved]. pose proof (t_sub _ _ _ _ Hb4). pose proof (t_rt _ _ _ _ Hb4).
    apply (base_moved m4 H' X); [done|done|set_solver|set_solver|done|done].
  - split; try done; [by apply env_keeps_grows|]. intros j. unfold sees. specialize (Hs j). change (view (set_fnodes H' m4) <$> H' !! j = view m <$> fnodes m !! j).
    destruct (fnodes m !! j), (H' !! j); [|done|done|done]. cbn. f_equal. destruct Hs as (? & ? & ? & _). by apply view_same.
Qed.
End body.

(** Two steps taken as one. *)
Lemma spec_group {St A B D} (m : run St A) (k : A → run St B) (l : B → run St D) s Q (F : Error → St → Prop) (P : St → Prop) :
  spec (m ≫= k) s (λ b s', spec (l b) s' Q F P) F P → spec (m ≫= λ a, k a ≫= l) s Q F P.
Proof. unfold spec, mbind, run_bind. destruct (m s) as [[[a|e|]|] s']; [|done..]. by destruct (k a s') as [[[b|e|]|] s'']. Qed.

Section edit.
Context {C K G Hash E SN FC : Type} `{!EqDecision Hash, !Countable Hash, !Env E, !EnvLaws E, !ContentLayer C K G Hash, !ContentLaws C K G Hash}.
Context `{!LinkedMapOps string Eid SN, !LinkedMap string Eid SN, !LinkedMapOps Eid Eid FC, !LinkedMap Eid Eid FC}.
Abbreviation Fn := (Fnode.Fnode K SN).
Abbreviation Mem := (Mem.Mem C K G Hash E SN FC).
Abbreviation V := Version.Version.
Abbreviation hash := (ct_hash (C:=C) (K:=K) (S:=G) (Hash:=Hash)).
Implicit Types (f g : Fn) (m : Mem) (v : V) (vs : list V) (i p : Eid) (n : string) (c : C) (X Y : gset Eid).
Context (fs : Fs.Fs).
Abbreviation rt := (Fs.root fs).
Abbreviation tx_ok := (FsTx.tx_ok fs).
Abbreviation base_ok := (FsTx.base_ok fs).

(** What a step leaves as it was, [i] apart. *)
Record around m m' i : Prop := {
  r_env : env_grows (env m) (env m');
  r_edges p n : edges (fnodes m') p n = edges (fnodes m) p n;
  r_parents j : parent_of (fnodes m') j = parent_of (fnodes m) j;
  r_others j : j ≠ i → fnodes m' !! j = fnodes m !! j;
  r_sees j : j ≠ i → sees m' j = sees m j
}.

Lemma sees_step m m' X Y H' i : tx_ok m X Y → cont_step m m' → (∀ j, j ≠ i → H' !! j = fnodes m !! j) →
  ∀ j, j ≠ i → sees (set_fnodes H' m') j = sees m j.
Proof.
  intros Hok Hs Hh j Hj. unfold sees. cbn. rewrite (Hh j Hj). destruct (fnodes m !! j) as [f|] eqn:Hf; [|done]. cbn. f_equal.
  change (view m' f = view m f). apply view_step; [|done]. intros v Hv. by apply (has_contents fs m X Y j f).
Qed.

(** Putting back a file with other versions. *)
Lemma put_versions m m1 X Y Y' i f f' : tx_ok m X Y → cont_step m m1 → fnodes m !! i = Some f → same_place f f' →
  conts_ok m1 (vers f' ++ all_vers (delete i (fnodes m))) → Y ⊆ Y' → Y' ⊆ {[i]} ∪ Y → Y' ⊆ X ∖ {[rt]} →
  (ftype f = File → (i ∉ Y') → vers_ok f' ∧ vers f' ≠ []) → (i ∈ Y' → kids f = [] ∧ vers f' = []) →
  let m2 := set_fnodes (<[i := f']> (fnodes m1)) m1 in
  tx_ok m2 X Y' ∧ around m m2 i ∧ sees m2 i = Some (view m1 f').
Proof.
  intros Hok Hs Hi Hsp Hc HY1 HY2 HY3 Hfile Hdy m2. pose proof (p_fnodes _ _ Hs) as Hfn.
  destruct (base_put fs m1 X Y Y' i f f') as [Hb He]; try done; [by eapply base_step; [apply Hok|]|by rewrite Hfn|].
  split; [split; [done|]; apply conts_put; by rewrite Hfn|]. rewrite Hfn in He. split.
  - split; unfold m2; rewrite ?Hfn; cbn; try done.
    + apply Hs.
    + apply (parents_put _ _ f); [done|]. apply Hsp.
    + intros j Hj. by apply lookup_insert_ne.
    + eapply sees_step; [done..|]. intros j Hj. by apply lookup_insert_ne.
  - unfold sees, m2. cbn. by rewrite lookup_insert_eq.
Qed.

Lemma file_leaf m X Y i f : tx_ok m X Y → fnodes m !! i = Some f → ftype f = File → kids f = [].
Proof. intros Hok. apply (f_file _ _ (t_forest _ _ _ _ (proj1 Hok))). Qed.

Lemma clear_file_spec i f m X Y : tx_ok m X Y → fnodes m !! i = Some f → ftype f = File → i ∈ X → i ≠ rt →
  spec (f ← make_mut i; f ← clear_versions (Fs.store fs) f; put_fnode i f) m
    (λ _ m', tx_ok m' X ({[i]} ∪ Y) ∧ around m m' i) (tx_fail m) (λ _, False).
Proof.
  intros Hok Hi Ht HX Hrt. apply spec_bind. eapply make_mut_spec_fs; [done..|]. intros e t He m1 Hok1. cbn zeta in Hok1.
  assert (Hs1 : cont_step m m1) by by apply cont_step_touch.
  apply spec_bind. eapply spec_mono; [apply (clear_versions_spec (Fs.store fs) (all_vers (delete i (fnodes m))) f m1)| | |done].
  - eapply (conts_take fs m1); [done|exact Hi].
  - intros f' m2 (Hs2 & Hc2 & k & ->). unfold put_fnode. apply spec_modify.
    pose proof (t_sub _ _ _ _ (proj1 Hok)) as Hsub. assert (Hs12 : cont_step m m2) by by eapply cont_step_trans.
    destruct (put_versions m m2 X Y ({[i]} ∪ Y) i f (set_chk_map k (set_vers [] f))) as (? & ? & _); try done; try set_solver.
    + split; try done. congruence.
    + intros _. split; [by eapply file_leaf|done].
  - intros x m2 [Hs2 Hx]. apply (tx_fail_step fs m X Y); [apply Hok|by eapply cont_step_trans|by eapply excused_step].
Qed.

(** The fnode goes when the transaction commits, and leaves the fnode cache at once. *)
Lemma del_fnode_spec i m X Y : tx_ok m X Y → i ∈ Y →
  spec (_ ← make_del i; modify (λ m, set_fcache (Lru.remove (K:=Eid) (V:=Eid) i (fcache m)).2 m)) m
    (λ _ m', tx_ok m' X Y ∧ env_grows (env m) (env m') ∧ fnodes m' = fnodes m ∧ contents m' = contents m ∧ deleted m' = {[i]} ∪ deleted m)
    (tx_fail m) (λ _, False).
Proof.
  intros [Hb [Hc Hl]] Hi. apply spec_bind, make_del_spec_fs.
  2: { intros x e He Hx. apply (tx_fail_step fs m X Y); [done|by apply cont_step_env|done]. }
  intros e He. apply spec_modify. cbn [fcache set_trans set_env]. set (m' := set_fcache _ _).
  destruct (lru_remove_any (A:=Eid) (V:=Eid) i (fcache m)) as [Hcap Hget].
  destruct Hb as [H1 H2 H3 H4 H5 H6 H7 H8 H9 H10 H11]. pose proof He as [Hu _].
  assert (HiX : is_Some (fnodes m !! i)) by (apply (f_roots _ _ H1 i); set_solver). destruct (H9 i HiX) as [Hiu Hic].
  assert (Hlive : live m' = live m).
  { unfold live, m'. cbn. f_equal. f_equal. apply map_filter_ext. intros j c Hj. cbn. assert (j ≠ i) by congruence. set_solver. }
  split; [split; [split|split; [split|]]|]; try done.
  - destruct H2 as [A1 A2]. split; [unfold m'; cbn; by rewrite Hcap|]. intros a b. unfold m'. cbn. rewrite Hget. case_decide; [done|apply A2].
  - intros j Hj. unfold m'. cbn. rewrite Hu. by apply H9.
  - intros j Hj Hj'. unfold m' in Hj. cbn in Hj. apply elem_of_union in Hj as [->%elem_of_singleton|Hj]; [done|by apply H10].
  - apply Hc.
  - intros v Hv Hd. unfold m' in Hd. cbn in Hd. apply elem_of_union in Hd as [Heq%elem_of_singleton|Hd]; [|by apply (k_live _ _ Hc v)].
    destruct (k_has _ _ Hc v Hv) as [c Hcv]. rewrite Heq in Hcv. congruence.
  - apply Hc.
  - intros j Hj. unfold m'. cbn. rewrite Hu. destruct Hj as [Hj|Hj]; [by apply (k_ids _ _ Hc); left|].
    unfold m' in Hj. cbn in Hj. apply elem_of_union in Hj as [->%elem_of_singleton|Hj]; [done|by apply (k_ids _ _ Hc); right].
  - apply Hc.
  - apply Hc.
  - by rewrite Hlive.
  - split; [by apply env_keeps_grows|done].
Qed.
Lemma dying_leaf m X Y i f : tx_ok m X Y → fnodes m !! i = Some f → ftype f = Dir → kids f = [] → i ∈ X → i ≠ rt → tx_ok m X ({[i]} ∪ Y).
Proof.
  intros [[H1 H2 H3 H4 H5 H6 H7 H8 H9 H10 H11] Hc] Hi Ht Hk HX Hrt. split; [|done]. split; try done.
  - intros j g Hj Htg Hy. eapply H6; [done|done|set_solver].
  - intros j g [->%elem_of_singleton|Hy]%elem_of_union Hj; [|by eapply H7]. rewrite Hi in Hj. injection Hj as <-. split; [done|].
    by apply (f_dir _ _ H1 i).
  - set_solver.
  - intros j Hj Hj'. apply elem_of_union_r. by apply H10.
Qed.

(** ** A new fnode *)

Definition leaf (t : FileType) (o : Options) : Node Hash :=
  match t with Dir => NDir | File => NFile o [(1, Some (hash ct_new))] end.

(** What is true of an fnode just made. *)
Record made m t o g : Prop := {
  n_type : ftype g = t;
  n_kids : kids g = [];
  n_parent : Fnode.parent g = None;
  n_sub n : sub g n = None;
  n_cap : Lru.capacity (sub_nodes g) = SUB_NODES_CNT;
  n_dir : t = Dir → vers g = [];
  n_file : t = File → vers_ok g ∧ vers g ≠ [];
  n_view : view m g = leaf t o
}.

Lemma tx_new m X Y (c : Eid) t o g : base_ok m X Y → conts_ok m (vers g ++ all_vers (fnodes m)) → made m t o g →
  fnodes m !! c = None → contents m !! c = None → (c ∉ deleted m) → c ∈ env_used (env m) →
  let m' := set_fnodes (<[c := g]> (fnodes m)) m in
  tx_ok m' ({[c]} ∪ X) Y ∧ (∀ p n, edges (fnodes m') p n = edges (fnodes m) p n) ∧ sees m' c = Some (leaf t o) ∧ (∀ j, j ≠ c → sees m' j = sees m j).
Proof.
  intros [H1 H2 H3 H4 (r & Hr & Hrd) H6 H7 H8 H9 H10 H11] [Hc Hl] [N1 N2 N3 N4 N5 N6 N7 N8] Hf Hct Hd Hu m'.
  destruct (forest_new _ _ _ _ H1 Hf N2 N3 N4 N5) as (Hf' & He & _); [rewrite N1; exact N6|].
  assert (Hlook : ∀ j h, fnodes m' !! j = Some h → j = c ∧ h = g ∨ j ≠ c ∧ fnodes m !! j = Some h).
  { intros j h Hj. unfold m' in Hj. cbn in Hj. apply lookup_insert_Some in Hj as [[<- <-]|[? ?]]; [by left|right; by split]. }
  assert (HYc : c ∉ Y). { intros Hy. destruct (f_roots _ _ H1 c) as [[h Hh] _]; [set_solver|congruence]. }
  assert (Hrc : rt ≠ c) by congruence.
  split; [split; [split|split; [|exact Hl]]|split; [done|split]]; try done.
  - by apply (caches_same m).
  - set_solver.
  - unfold parent_of, m'. cbn. rewrite lookup_insert_ne by congruence. exact H4.
  - exists r. unfold m'. cbn. by rewrite lookup_insert_ne by congruence.
  - intros j h Hj Ht Hy. destruct (Hlook _ _ Hj) as [[-> ->]|[_ Hj']]; [apply N7; congruence|by eapply H6].
  - intros j h Hy Hj. destruct (Hlook _ _ Hj) as [[-> ->]|[_ Hj']]; [done|by eapply H7].
  - set_solver.
  - intros j [h Hj]. destruct (Hlook _ _ Hj) as [[-> ->]|[_ Hj']]; [done|apply H9; by eexists].
  - intros j Hdj [h Hj]. destruct (Hlook _ _ Hj) as [[-> ->]|[_ Hj']]; [done|apply H10; [done|by eexists]].
  - destruct Hc as [A1 A2 A3 A4 A5 A6]. eapply cont_ok_perm; [symmetry; by apply all_vers_insert|]. by split.
  - unfold sees, m'. cbn. rewrite lookup_insert_eq. cbn. f_equal. exact N8.
  - intros j Hj. unfold sees, m'. cbn. by rewrite lookup_insert_ne by congruence.
Qed.

(** Making it, with its first version when it is a file. *)
Lemma make_kid_spec t o m X Y : tx_ok m X Y → 1 ≤ version_limit o →
  spec (kid ← new t o;
        (if is_file kid then '(_, kid) ← add_version (Fs.store fs) (ct_new (K:=K) (S:=G) (Hash:=Hash)) kid; mret kid else mret kid)) m
    (λ g m', cont_step m m' ∧ made m' t o g ∧ conts_ok m' (vers g ++ all_vers (fnodes m))) (tx_fail m) (λ _, False).
Proof.
  intros Hok Ho. apply spec_bind. unfold new. apply spec_bind, draw_spec_fs, spec_bind, draw_spec_fs, spec_ret.
  set (m1 := set_env _ (set_env _ m)).
  assert (He : env_keeps (env m) (env m1)) by (eapply env_keeps_trans; [apply env_now_law|apply (env_now_law (env_now (env m)).2)]).
  assert (Hs : cont_step m m1) by exact (cont_step_env (env m1) m He).
  assert (Hok1 : tx_ok m1 X Y) by exact (tx_ok_env fs (env m1) m X Y Hok He). destruct Hok1 as [Hb1 Hc1].
  set (g := mkFnode _ _ _ _ _ _ _ _ _). unfold is_file. change (ftype g) with t.
  assert (Hsub : ∀ n, sub g n = None) by (intros n; unfold sub; cbn; apply lm_get_new).
  destruct t; [rewrite bool_decide_eq_true_2 by done|rewrite bool_decide_eq_false_2 by done; apply spec_ret].
  2: { split; [done|]. split; [by split|done]. }
  apply spec_bind. assert (Hv : vers_ok g) by (split; [done|cbn; change (zlen (@nil V)) with 0; lia|exists 1; by split]).
  eapply spec_mono; [apply (add_version_spec (Fs.store fs) ct_new g m1 (all_vers (fnodes m)))| | |done]; try done.
  - eapply new_fits. apply Hc1.
  - intros [b g'] m2 (Hs2 & Hc2 & _ & v & k & tm & Hg' & Hnum & Hlen & c' & Hc' & Hh). cbn [snd] in *. apply spec_ret.
    split; [by eapply cont_step_trans|]. split; [|done]. destruct (add_version_ok g v k tm Hv Hnum) as (Hv' & Hne & _).
    assert (Hret : retired g = 0%nat).
    { unfold retired. cbn. change (zlen (@nil V)) with 0. destruct (version_limit o <? 0 + 1) eqn:Hlt; [zify_b; lia|done]. }
    rewrite Hret, drop_0 in *. subst g'. split; try done. unfold view, shown. cbn. rewrite Hc', Hnum. cbn. by rewrite Hh.
  - intros e m2 [Hs2 Hx]. apply (tx_fail_step fs m X Y); [apply Hok|by eapply cont_step_trans|by eapply excused_step].
Qed.

Lemma new_under_spec p n t o l0 m X Y : tx_ok m X Y → path_to (edges (fnodes m)) rt l0 = Some p → sees m p = Some NDir →
  edges (fnodes m) p n = None → 1 ≤ version_limit o →
  spec (new_under (Fs.store fs) p n t o) m
    (λ (c : Eid) m', tx_ok m' X Y ∧ env_grows (env m) (env m') ∧ one_more (edges (fnodes m)) (edges (fnodes m')) p n c ∧ top (edges (fnodes m)) c ∧ c ≠ rt ∧
       fnodes m !! c = None ∧ sees m' c = Some (leaf t o) ∧ (∀ j, j ≠ c → sees m' j = sees m j))
    (tx_fail m) (λ _, False).
Proof.
  intros Hok Hl0 Hdir Hnone Ho.
  assert (Hps : ∃ f, fnodes m !! p = Some f ∧ ftype f = Dir).
  { unfold sees in Hdir. destruct (fnodes m !! p) as [f|] eqn:Hp; [|done]. exists f. split; [done|].
    apply (sees_type _ _ _ Hp). unfold sees. by rewrite Hp. }
  destruct Hps as (f & Hp & Ht). unfold new_under. apply spec_bind. eapply make_mut_spec_fs; [done..|]. intros e tt He m1 Hok1.
  assert (Hs1 : cont_step m m1) by by apply cont_step_touch.
  unfold is_dir. rewrite bool_decide_eq_true_2 by done. cbn [negb]. cbn beta in Hok1.
  apply spec_group. eapply spec_mono; [by apply (make_kid_spec t o m1 X Y)| | |done].
  2: { intros x m2 Hx. apply (tx_fail_trans m m1); [by apply Hs1|done]. }
  intros g m2 (Hs2 & Hmade & Hc2). assert (Hs12 : cont_step m m2) by by eapply cont_step_trans.
  change (fnodes m1) with (fnodes m) in Hc2. pose proof (base_step _ _ _ _ _ (proj1 Hok) Hs12) as Hb2.
  apply spec_bind. unfold fnode_into_cow. apply spec_bind, draw_spec_fs. destruct (env_eid_law (env m2)) as (Hni & Hu & Hst).
  destruct (env_eid (env m2)) as [c e2]. cbn [fst snd] in *.
  assert (Hs3 : cont_step m2 (set_env e2 m2)) by (split; try done; [split; [set_solver|done]|by left|by left]).
  apply spec_bind, touch_spec.
  2: { intros x e3 He3 Hx. apply (tx_fail_step fs m X Y); [apply Hok| |].
    - eapply cont_step_trans; [exact Hs12|]. eapply cont_step_trans; [exact Hs3|by apply cont_step_env].
    - apply (excused_step _ _ _ Hs12). by apply (excused_step _ _ _ Hs3). }
  intros e3 He3. set (m3 := set_trans _ _ _).
  assert (Hs23 : cont_step m2 m3) by (eapply cont_step_trans; [exact Hs3|by apply cont_step_touch]).
  assert (Hs13 : cont_step m m3) by by eapply cont_step_trans.
  pose proof (base_step _ _ _ _ _ (proj1 Hok) Hs13) as Hb3. pose proof (p_fnodes _ _ Hs13) as Hf3.
  assert (Hu3 : env_used (env m3) = {[c]} ∪ env_used (env m2)) by (destruct He3 as [He3 _]; etrans; [exact He3|exact Hu]).
  assert (Hfresh : fnodes m !! c = None).
  { destruct (fnodes m !! c) as [h|] eqn:Hh; [|done]. destruct Hni. apply (t_ids _ _ _ _ Hb2). rewrite (p_fnodes _ _ Hs12). by exists h. }
  assert (Hk : ∀ j, is_Some (contents m2 !! j) ∨ j ∈ deleted m2 → j ∈ env_used (env m2)) by (apply Hc2).
  apply spec_bind. unfold put_fnode. apply spec_modify, spec_ret.
  destruct (tx_new m3 X Y c t o g) as (Hok4 & He4 & Hsc & Hso); [done| | |by rewrite Hf3| | | |].
  { destruct Hc2 as [[A1 A2 A3 A4 A5 A6] Hl]. rewrite Hf3. split; [|exact Hl]. split; try done. intros j Hj. rewrite Hu3. set_solver. }
  { by destruct Hmade. }
  { destruct (contents m3 !! c) eqn:Hcc; [|done]. destruct Hni. apply Hk. left. by eexists. }
  { intros Hd. apply Hni, Hk. by right. }
  { rewrite Hu3. set_solver. }
  set (m4 := set_fnodes _ m3) in *. rewrite Hf3 in He4.
  assert (Hcrt : c ≠ rt). { intros ->. destruct (f_roots _ _ (t_forest _ _ _ _ (proj1 Hok)) rt) as [[h Hh] _]; [apply Hok|congruence]. }
  assert (HcX : c ∉ X). { intros HX. destruct (f_roots _ _ (t_forest _ _ _ _ (proj1 Hok)) c HX) as [[h Hh] _]. congruence. }
  assert (Hso' : ∀ j, j ≠ c → sees m4 j = sees m j).
  { intros j Hj. rewrite (Hso j Hj). transitivity (sees (set_fnodes (fnodes m) m3) j); [|by eapply sees_step].
    unfold sees. change (fnodes (set_fnodes (fnodes m) m3)) with (fnodes m). by rewrite Hf3. }
  assert (Hpc : p ≠ c) by congruence.
  assert (Hg4 : env_grows (env m) (env m4)) by apply Hs13.
  apply spec_bind. eapply spec_mono; [apply (add_child_spec fs p c n l0 m4 ({[c]} ∪ X) Y Hok4)| | |done]; try done.
  - by rewrite (path_ext (edges (fnodes m))).
  - by rewrite Hso'.
  - by rewrite He4.
  - set_solver.
  - intros Hy. apply HcX. pose proof (t_sub _ _ _ _ (proj1 Hok) _ Hy). set_solver.
  - intros _ m5 (Hok5 & Hcalm & Hm). apply spec_ret. replace (({[c]} ∪ X) ∖ {[c]}) with X in Hok5 by set_solver.
    split; [done|]. split; [eapply env_grows_trans; [exact Hg4|apply Hcalm]|].
    assert (Hm' : one_more (edges (fnodes m)) (edges (fnodes m5)) p n c).
    { destruct Hm as [Hm1 Hm2]. split; [by rewrite <- He4|]. intros q k. by rewrite Hm2, He4. }
    split; [done|]. split; [|split; [done|split; [done|split]]].
    + intros q k Hq. apply (edges_dom _ _ _ _ _ (t_forest _ _ _ _ (proj1 Hok))) in Hq as [h Hh]. congruence.
    + by rewrite (m_sees _ _ Hcalm).
    + intros j Hj. rewrite (m_sees _ _ Hcalm). by apply Hso'.
  - intros x m5 Hx. by apply (tx_fail_trans m m4).
Qed.
End edit.
