(* ===== verification/FsOps.v ===== *)
(** * The operations of src/fs/fs.rs do what they should to the tree, or leave it. *)
From stdpp Require Import strings.
From S2P Require Import Prelude Run Base Segment Fnode Fs FsTree FsInv FsForest FsCont FsTx FsTreeSpec FsEdit.
Import Mem Fnode FileType(FileType, File, Dir).

Section ops.
Context {C K G Hash E SN FC : Type} `{!EqDecision Hash, !Countable Hash, !Env E, !EnvLaws E, !ContentLayer C K G Hash, !ContentLaws C K G Hash}.
Context `{!LinkedMapOps string Eid SN, !LinkedMap string Eid SN, !LinkedMapOps Eid Eid FC, !LinkedMap Eid Eid FC}.
Abbreviation Fn := (Fnode.Fnode K SN).
Abbreviation Mem := (Mem.Mem C K G Hash E SN FC).
Abbreviation hash := (ct_hash (C:=C) (K:=K) (S:=G) (Hash:=Hash)).
Implicit Types (f g : Fn) (m : Mem) (i j : Eid) (n : string) (l : list string) (T : FsTreeSpec.Tree Hash).
Context (fs : Fs.Fs).
Abbreviation rt := (Fs.root fs).
Abbreviation ro := (Fs.read_only fs).
Abbreviation fs_ok := (FsTx.fs_ok fs).
Abbreviation leaf := (FsEdit.leaf (C:=C) (K:=K) (G:=G) (Hash:=Hash)).

Definition represents m T : Prop := ∀ l, tree fs m l = T !! l.

(** The operation does to the tree what [r] says; if it fails for a cause of its own it leaves the tree. *)
Definition does {A} (op : run Mem A) m T (r : res (FsTreeSpec.Tree Hash)) : Prop :=
  spec op m
    (λ _ m', fs_ok m' ∧ env_grows (env m) (env m') ∧ ∃ T', r = Ok T' ∧ represents m' T')
    (λ e m', fs_ok m' ∧ env_grows (env m) (env m') ∧ represents m' T ∧ (r = Err e ∨ excused m e))
    (λ _, False).

(** ** Looking up *)

Lemma fs_forest m : fs_ok m → forest (fnodes m) {[rt]}.
Proof. intros [[Hb _] _]. apply Hb. Qed.
Lemma fs_shape m : fs_ok m → shape_ok m {[rt]}.
Proof. intros [[Hb _] _]. by eapply base_shape. Qed.
Lemma fs_top m : fs_ok m → top (edges (fnodes m)) rt.
Proof. intros Hok. apply (f_roots _ _ (fs_forest _ Hok) rt). set_solver. Qed.
Lemma quiet_sees m m' i : quiet m m' → sees m' i = sees m i.
Proof.
  intros Hq. unfold sees. pose proof (q_cores _ _ Hq i) as Hs. destruct (fnodes m !! i) as [f|], (fnodes m' !! i) as [f'|]; try done.
  cbn in *. apply (inj Some) in Hs. f_equal. unfold core in Hs. injection Hs as H1 H2 _ _ _ H3 _. apply view_same; [apply Hq|done..].
Qed.
Lemma quiet_tree m m' l : quiet m m' → tree fs m' l = tree fs m l.
Proof.
  intros Hq. unfold tree. rewrite (quiet_path m) by done. destruct (path_to _ rt l); [|done]. cbn. by apply quiet_sees.
Qed.
Lemma quiet_represents m m' T : quiet m m' → represents m T → represents m' T.
Proof. intros Hq HT l. rewrite (quiet_tree m) by done. apply HT. Qed.
Lemma quiet_grows m m' : quiet m m' → env_grows (env m) (env m').
Proof. intros Hq. apply env_keeps_grows, Hq. Qed.

Lemma fs_ok_quiet m m' : fs_ok m → quiet m m' → shape_ok m' {[rt]} → fs_ok m'.
Proof.
  intros Hok Hq [Hf Hc]. pose proof (fs_top _ Hok) as Htop. destruct Hok as [[[H1 H2 H3 H4 (r & Hr & Hrd) H6 H7 H8 H9 H10 H11] [[A1 A2 A3 A4 A5 A6] Hl]] [Ht Hd]].
  pose proof Hq as [Q1 Q2 Q3 Q4 Q5 Q6 Q7 Q8 Q9 [Hu Q10]]. clear Hq.
  assert (Hlook : ∀ j f', fnodes m' !! j = Some f' → ∃ f, fnodes m !! j = Some f ∧ kids f' = kids f ∧ ftype f' = ftype f ∧ vers f' = vers f ∧ Fnode.opts f' = Fnode.opts f).
  { intros j f' Hj. destruct (same_cores_lookup _ _ _ _ Q1 Hj) as (f & Hf' & Hcore). apply core_kids in Hcore as (? & ? & ? & ?). by exists f. }
  assert (Hvers : all_vers (fnodes m') = all_vers (fnodes m)).
  { apply all_vers_same, map_eq. intros j. rewrite !lookup_fmap. pose proof (Q1 j) as Hs. destruct (fnodes m !! j) as [f|], (fnodes m' !! j) as [f'|]; try done.
    cbn in *. apply (inj Some) in Hs. f_equal. by apply core_kids in Hs as (_ & _ & ? & _). }
  split; [|split; congruence]. split; [split|split; [split|]]; rewrite ?Q4, ?Q6, ?Q7, ?Q9, ?Hvers; try done.
  - by rewrite Q3.
  - destruct (same_cores_lookup _ _ _ _ (same_cores_sym _ _ Q1) Hr) as (r' & Hr' & Hcore). exists r'. split; [done|]. apply core_kids in Hcore as (_ & Hrt' & _). congruence.
  - intros j f' Hj Htf Hy. destruct (Hlook _ _ Hj) as (f & Hjf & _ & Ht' & Hv & Ho). destruct (H6 j f Hjf) as [[B1 B2 B3] ?]; [congruence|done|].
    split; [split; by rewrite ?Hv, ?Ho|by rewrite Hv].
  - intros j [f' Hj]. rewrite Hu. destruct (Hlook _ _ Hj) as (f & Hjf & _). apply H9. by eexists.
  - intros j Hj [f' Hj']. destruct (Hlook _ _ Hj') as (f & Hjf & _). apply H10; [done|by eexists].
  - intros j Hj. rewrite Hu. by apply A4.
  - unfold live. rewrite Q4, Q9, Q5. exact Hl.
Qed.

Lemma sees_some m i : is_Some (fnodes m !! i) ↔ is_Some (sees m i).
Proof. unfold sees. by rewrite fmap_is_Some. Qed.
Lemma path_dom m l i : fs_ok m → path_to (edges (fnodes m)) rt l = Some i → is_Some (fnodes m !! i).
Proof.
  intros Hok Hl. induction l as [|n l _] using rev_ind; [injection Hl as <-|].
  - apply (f_roots _ _ (fs_forest _ Hok) rt). set_solver.
  - rewrite path_snoc in Hl. destruct (path_to _ rt l) as [q|]; [|done]. by eapply edges_dom; [apply fs_forest|].
Qed.
Lemma tree_at m T l i : represents m T → path_to (edges (fnodes m)) rt l = Some i → sees m i = T !! l.
Proof. intros HT Hl. rewrite <- HT. unfold tree. by rewrite Hl. Qed.
Lemma tree_none m T l : fs_ok m → represents m T → path_to (edges (fnodes m)) rt l = None ↔ T !! l = None.
Proof.
  intros Hok HT. rewrite <- HT. unfold tree. destruct (path_to _ rt l) as [i|] eqn:Hl; [|done]. cbn.
  apply path_dom in Hl; [|done]. apply sees_some in Hl as [nd ->]. done.
Qed.

(** What is known of an fnode that was found. *)
Record found m T (p : Path) i nd m' : Prop := {
  o_quiet : quiet m m';
  o_ok : fs_ok m';
  o_tree : represents m' T;
  o_lookup : a_lookup T p = Ok nd;
  o_root : Path.has_root p = true;
  o_path : path_to (edges (fnodes m')) rt (Path.comps p) = Some i;
  o_sees : sees m' i = Some nd;
  o_knows : knows_parent m' rt (Path.comps p) i
}.
Definition missed m T (r : res (Node Hash)) (e : Error) m' : Prop :=
  quiet m m' ∧ fs_ok m' ∧ represents m' T ∧ (r = Err e ∨ faulty m e).

Lemma resolve_does (p : Path) m T : fs_ok m → represents m T →
  spec (Fs.resolve fs p) m (λ i m', ∃ nd, found m T p i nd m') (missed m T (a_lookup T p)) (λ _, False).
Proof.
  intros Hok HT. eapply spec_mono; [apply (resolve_spec fs p m {[rt]}); [by apply fs_shape|set_solver]| | |done].
  - intros i m' (Hat & Hroot & Hq & Hsh & Hk). unfold at_path in Hat. rewrite Hroot in Hat.
    pose proof (path_dom _ _ _ Hok Hat) as Hi. apply sees_some in Hi as [nd Hnd]. exists nd.
    split; try done; [by apply (fs_ok_quiet m)|by apply (quiet_represents m)| |by rewrite (quiet_path m)|by rewrite (quiet_sees m)].
    unfold a_lookup. rewrite Hroot. cbn [negb]. by rewrite <- (tree_at _ _ _ _ HT Hat), Hnd.
  - intros e m' (Hq & Hsh & Hor). split; [done|]. split; [by apply (fs_ok_quiet m)|]. split; [by apply (quiet_represents m)|].
    destruct Hor as [[-> Hat]|Hns]; [left|by right]. unfold a_lookup, at_path in *. destruct (Path.has_root p); [|done]. cbn [negb].
    by rewrite (proj1 (tree_none m T _ Hok HT) Hat).
Qed.

Lemma resolve_parent_does (p : Path) m T : fs_ok m → represents m T →
  spec (Fs.resolve_parent fs p) m
    (λ r m', quiet m m' ∧ fs_ok m' ∧ represents m' T ∧ Path.has_root p = true ∧ ∃ l nd, a_parent T p = Ok (l, r.2, nd) ∧ Path.comps p = l ++ [r.2] ∧
       path_to (edges (fnodes m')) rt l = Some r.1 ∧ sees m' r.1 = Some nd ∧ T !! l = Some nd)
    (λ e m', quiet m m' ∧ fs_ok m' ∧ represents m' T ∧ (a_parent T p = Err e ∨ faulty m e)) (λ _, False).
Proof.
  intros Hok HT. unfold Fs.resolve_parent, a_parent.
  assert (Hsame : quiet m m ∧ fs_ok m ∧ represents m T) by (split; [apply quiet_refl|done]).
  destruct (Path.parent p) as [q|] eqn:Hq; cbn [ok_or].
  2: { apply spec_bind, spec_fail. destruct Hsame as (? & ? & ?). do 3 (split; [done|]). by left. }
  apply spec_bind, spec_lift_ok. destruct (Path.file_name p) as [n|] eqn:Hn; cbn [ok_or].
  2: { apply spec_bind, spec_fail. destruct Hsame as (? & ? & ?). do 3 (split; [done|]). by left. }
  apply spec_bind, spec_lift_ok, spec_bind. destruct (comps_parent p q n Hq Hn) as [Hcomps Hroot].
  eapply spec_mono; [by apply (resolve_does q m T)| | |done].
  - intros i m' (nd & [O1 O2 O3 O4 O5 O6 O7 O8]). apply spec_ret. do 3 (split; [done|]). split; [congruence|]. exists (Path.comps q), nd. cbn. rewrite O4. cbn.
    do 4 (split; [done|]). by rewrite <- (tree_at _ _ _ _ O3 O6).
  - intros e m' (Q1 & Q2 & Q3 & Hor). do 3 (split; [done|]). destruct Hor as [He|?]; [left|by right]. cbn. by rewrite He.
Qed.

(** ** Growing and shrinking the tree *)

Lemma sees_dir m i nd : sees m i = Some nd → ∃ f, fnodes m !! i = Some f ∧ Fnode.is_dir f = negb (is_file_node nd) ∧ Fnode.is_file f = is_file_node nd.
Proof.
  unfold sees. intros (f & -> & Hf)%fmap_Some. exists f. split; [done|]. subst nd. unfold is_dir, is_file, view. by destruct (ftype f).
Qed.

Lemma tree_grown m m' T l p n c nd : fs_ok m → represents m T → path_to (edges (fnodes m)) rt l = Some p →
  one_more (edges (fnodes m)) (edges (fnodes m')) p n c → top (edges (fnodes m)) c → c ≠ rt → fnodes m !! c = None →
  sees m' c = Some nd → (∀ j, j ≠ c → sees m' j = sees m j) →
  T !! (l ++ [n]) = None ∧ represents m' (<[l ++ [n] := nd]> T) ∧ path_to (edges (fnodes m')) rt (l ++ [n]) = Some c.
Proof.
  intros Hok HT Hl Hm Hc Hcrt Hnone Hsc Hso. pose proof (f_inj _ _ (fs_forest _ Hok)) as Hinj. pose proof (fs_top _ Hok) as Hrt.
  assert (Hcl : ∀ x l2, path_to (edges (fnodes m)) c (x :: l2) = None) by (intros x l2; cbn; by rewrite edges_none).
  assert (Hold : path_to (edges (fnodes m)) rt (l ++ [n]) = None) by (rewrite path_snoc, Hl; apply Hm).
  split; [by apply (tree_none m)|]. split; [|rewrite path_snoc, (more_path _ _ _ _ _ Hm _ _ _ Hl); by apply (more_new _ _ _ _ _ Hm)].
  intros l'. unfold tree. rewrite (more_spec _ _ _ _ _ Hm Hinj Hc rt l l' Hrt) by (try done; congruence).
  case_decide as Hd.
  - destruct Hd as [l2 ->]. rewrite <- app_assoc, drop_app_ge by lia. replace (S (length l) - length l)%nat with 1%nat by lia. cbn. rewrite drop_0.
    destruct l2 as [|x l2]; [cbn; by rewrite Hsc, lookup_insert_eq|]. rewrite Hcl. cbn. rewrite lookup_insert_ne.
    + symmetry. apply (tree_none m _ _ Hok HT). rewrite path_app, Hl. cbn. destruct Hm as [-> _]. done.
    + intros Heq. apply app_inv_head in Heq. done.
  - rewrite lookup_insert_ne by (intros <-; by destruct Hd). rewrite <- HT. unfold tree. destruct (path_to _ rt l') as [j|] eqn:Hj; [|done]. cbn. apply Hso.
    intros ->. apply path_dom in Hj as [? ?]; [congruence|done].
Qed.

Lemma tree_shrunk m m' T l p n i : fs_ok m → represents m T → path_to (edges (fnodes m)) rt l = Some p → edges (fnodes m) p n = Some i →
  one_more (edges (fnodes m')) (edges (fnodes m)) p n i → (∀ x, edges (fnodes m) i x = None) → (∀ j, j ≠ i → sees m' j = sees m j) →
  represents m' (delete (l ++ [n]) T).
Proof.
  intros Hok HT Hl He Hm Hleaf Hso l'. pose proof (f_inj _ _ (fs_forest _ Hok)) as Hinj. pose proof (fs_top _ Hok) as Hrt.
  assert (Hri : rt ≠ i) by (intros Hri; subst; by apply Hrt in He).
  pose proof (less_path _ _ _ _ _ _ _ Hm Hinj Hrt Hl) as Hl'. pose proof (less_root _ _ _ _ _ Hm Hinj) as Hi'.
  pose proof (less_old_root _ _ _ _ _ _ Hm Hrt) as Hrt'. pose proof (less_inj _ _ _ _ _ Hm Hinj) as Hinj'.
  unfold tree. pose proof (more_spec _ _ _ _ _ Hm Hinj' Hi' rt l l' Hrt' Hri Hl') as Hsp. case_decide as Hd.
  - destruct Hd as [l2 ->]. rewrite <- app_assoc, path_app, Hl'. cbn. destruct Hm as [-> _]. cbn. destruct l2 as [|x l2].
    + by rewrite lookup_delete_eq.
    + rewrite lookup_delete_ne by (intros Heq; apply app_inv_head in Heq; done). symmetry. apply (tree_none m _ _ Hok HT).
      rewrite path_app, Hl. cbn. rewrite He. cbn. by rewrite Hleaf.
  - rewrite lookup_delete_ne by (intros <-; by destruct Hd). rewrite <- HT. unfold tree. rewrite Hsp. destruct (path_to (edges (fnodes m')) rt l') as [j|] eqn:Hj; [|done]. cbn.
    apply Hso. intros ->. pose proof Hsp as Hj'. assert (Hp2 : path_to (edges (fnodes m)) rt (l ++ [n]) = Some i) by (by rewrite path_snoc, Hl).
    destruct (path_unique _ _ _ _ _ _ Hinj Hrt Hrt Hj' Hp2) as [_ ->]. by destruct Hd.
Qed.

(** ** Creating *)

(** What was there stays where it was. *)
Definition kept m m' : Prop := ∀ l j, path_to (edges (fnodes m)) rt l = Some j → path_to (edges (fnodes m')) rt l = Some j ∧ sees m' j = sees m j.

Lemma create_fnode_does (p : Path) t o m T : fs_ok m → represents m T → 1 ≤ version_limit o →
  spec (Fs.create_fnode fs p t o) m
    (λ (c : Eid) m', fs_ok m' ∧ env_grows (env m) (env m') ∧ kept m m' ∧ path_to (edges (fnodes m')) rt (Path.comps p) = Some c ∧
       ∃ T', a_create ro T p (leaf t o) = Ok T' ∧ represents m' T')
    (λ e m', fs_ok m' ∧ env_grows (env m) (env m') ∧ represents m' T ∧ (a_create ro T p (leaf t o) = Err e ∨ excused m e)) (λ _, False).
Proof.
  intros Hok HT Ho. unfold Fs.create_fnode, Fs.guard_rw, a_create. apply spec_bind. destruct ro.
  { apply spec_fail. split; [done|]. split; [apply env_grows_refl|]. split; [done|]. by left. }
  apply spec_ret, spec_bind. eapply spec_mono; [by apply (resolve_parent_does p m T)| | |done].
  2: { intros e m1 (Hq & Hok1 & HT1 & Hor). do 3 (split; [done || by apply quiet_grows|]). destruct Hor as [->|Hns]; [by left|right; by left]. }
  intros [i n] m1 (Hq & Hok1 & HT1 & Hroot & l & nd & Hpar & Hcomps & Hl & Hs & HTl). cbn [fst snd] in *. rewrite Hpar. cbn [mbind res_bind].
  destruct (sees_dir _ _ _ Hs) as (f & Hf & Hfd & _). apply spec_bind. eapply fnode_spec; [done|]. rewrite Hfd, negb_involutive.
  assert (Hsame : fs_ok m1 ∧ env_grows (env m) (env m1) ∧ represents m1 T) by (split; [done|]; split; [by apply quiet_grows|done]).
  destruct (is_file_node nd) eqn:Hnd.
  { apply spec_fail. destruct Hsame as (? & ? & ?). do 3 (split; [done|]). by left. }
  assert (Hedge : edges (fnodes m1) i n = None ↔ T !! (l ++ [n]) = None).
  { rewrite <- (tree_none m1 T) by done. by rewrite path_snoc, Hl. }
  rewrite has_child_named.
  destruct (kid_named n f) as [k|] eqn:Hk.
  { rewrite bool_decide_eq_true_2 by by eexists. apply spec_fail. destruct Hsame as (? & ? & ?). do 3 (split; [done|]). left.
    destruct (T !! (l ++ [n])); [done|]. rewrite (edges_at _ _ _ _ Hf), Hk in Hedge. by pose proof (proj2 Hedge eq_refl). }
  rewrite bool_decide_eq_false_2 by by intros [? ?]. assert (He : edges (fnodes m1) i n = None) by (by rewrite (edges_at _ _ _ _ Hf), Hk).
  rewrite (proj1 Hedge He). destruct nd; [|done].
  apply (run_all_ret_spec fs); [done| |].
  - intros e Hke. set (m2 := set_env e m1). pose proof (fs_ok_env _ _ _ Hok1 Hke) as [Hok2 [_ Hd2]]. fold m2 in Hok2, Hd2.
    eapply spec_mono; [apply (new_under_spec fs i n t o l m2 {[rt]} ∅ Hok2); done| | |done].
    2: { intros x m3 Hx. apply (tx_fail_trans m1 m2); [by apply env_keeps_grows|done]. }
    intros c m3 (Hok3 & Hg3 & Hm & Hct & Hcr & Hcn & Hsc & Hso).
    split; [eapply env_grows_trans; [by apply env_keeps_grows|exact Hg3]|].
    exists {[rt]}, ∅. split; [done|]. split; [by rewrite difference_empty_L|]. split; [apply empty_subseteq|].
    intros m4 Hok4 Hg4 He4 Hs4.
    assert (Hm4 : one_more (edges (fnodes m1)) (edges (fnodes m4)) i n c).
    { destruct Hm as [Hm1 Hm2]. split; [done|]. intros q k. rewrite He4. apply Hm2. }
    assert (Hsc4 : sees m4 c = Some (leaf t o)) by (by rewrite Hs4 by apply not_elem_of_empty).
    assert (Hso4 : ∀ j, j ≠ c → sees m4 j = sees m1 j) by (intros j Hj; rewrite Hs4 by apply not_elem_of_empty; by apply Hso).
    destruct (tree_grown m1 m4 T l i n c (leaf t o) Hok1 HT1 Hl Hm4 Hct Hcr Hcn Hsc4 Hso4) as (_ & HT4 & Hp4).
    split; [done|]. split; [eapply env_grows_trans; [by apply quiet_grows|done]|]. split; [|split; [by rewrite Hcomps|by eexists]].
    intros l' j Hj. rewrite <- (quiet_path m m1) in Hj by done. split; [by apply (more_path _ _ _ _ _ Hm4)|].
    rewrite <- (quiet_sees m m1) by done. apply Hso4. intros ->. apply path_dom in Hj as [? Hj]; [|done]. change (fnodes m2) with (fnodes m1) in Hcn. congruence.
  - intros x m2 Hok2 Hg2 Ht2 Hx. split; [done|]. split; [eapply env_grows_trans; [by apply quiet_grows|done]|].
    split; [intros l'; rewrite Ht2; apply HT1|]. right. eapply excused_grows; [by apply quiet_grows|done].
Qed.

(** ** Removing *)

Lemma root_dir m : fs_ok m → sees m rt = Some NDir.
Proof. intros [[Hb _] _]. destruct (t_dir _ _ _ _ Hb) as (f & Hf & Ht). by apply (sees_type m rt f). Qed.

(** An fnode found below the root: its parent, and the edge to it. *)
Lemma found_edge m T (p : Path) i nd m' : found m T p i nd m' → Path.comps p ≠ [] →
  ∃ l n q, Path.comps p = l ++ [n] ∧ path_to (edges (fnodes m')) rt l = Some q ∧ edges (fnodes m') q n = Some i ∧ parent_of (fnodes m') i = Some q ∧ i ≠ rt.
Proof.
  intros [O1 O2 O3 O4 O5 O6 O7 O8] Hne. destruct (Path.comps p) as [|n l _] eqn:Hc using rev_ind; [done|].
  destruct (O8 l n) as (q & Hq & Hpar); [done|]. exists l, n, q. rewrite path_snoc, Hq in O6. do 4 (split; [done|]).
  intros ->. by apply fs_top in O6.
Qed.
Lemma found_leaf m i f : fs_ok m → fnodes m !! i = Some f → kids f = [] → ∀ x, edges (fnodes m) i x = None.
Proof. intros _ Hf Hk x. by eapply edges_leaf. Qed.

(** What the last steps of a removal leave to the commit. *)
Lemma removed_commit m T m1 m2 l q n i : fs_ok m → represents m T → path_to (edges (fnodes m)) rt l = Some q → edges (fnodes m) q n = Some i →
  one_more (edges (fnodes m1)) (edges (fnodes m)) q n i → (∀ x, edges (fnodes m) i x = None) → (∀ j, j ≠ i → sees m1 j = sees m j) →
  (∀ p k, edges (fnodes m2) p k = edges (fnodes m1) p k) → (∀ j, (j ∉ ({[i]} : gset Eid)) → sees m2 j = sees m1 j) →
  represents m2 (delete (l ++ [n]) T).
Proof.
  intros Hok HT Hl He Hm Hleaf Hs1 He2 Hs2. apply (tree_shrunk m m2 T l q n i); try done.
  - destruct Hm as [Hm1 Hm2]. split; [by rewrite He2|]. intros p k. by rewrite Hm2, He2.
  - intros j Hj. rewrite Hs2 by set_solver. by apply Hs1.
Qed.

Lemma fail_does m m1 T (e : Error) (r : res (FsTreeSpec.Tree Hash)) : quiet m m1 → fs_ok m1 → represents m1 T → r = Err e →
  fs_ok m1 ∧ env_grows (env m) (env m1) ∧ represents m1 T ∧ (r = Err e ∨ excused m e).
Proof. intros Hq Hok HT Hr. split; [done|]. split; [by apply quiet_grows|]. split; [done|by left]. Qed.
Lemma missed_does {A} m T (r : res (Node Hash)) (k : Node Hash → res A) (e : Error) m' : missed m T r e m' →
  fs_ok m' ∧ env_grows (env m) (env m') ∧ represents m' T ∧ ((r ≫= k) = Err e ∨ excused m e).
Proof.
  intros (Hq & Hok & HT & Hor). split; [done|]. split; [by apply quiet_grows|]. split; [done|]. destruct Hor as [->|Hns]; [by left|right; by left].
Qed.
Lemma tx_does m m1 T (e : Error) m2 (r : res (FsTreeSpec.Tree Hash)) : quiet m m1 → represents m1 T → fs_ok m2 → env_grows (env m1) (env m2) →
  (∀ l, tree fs m2 l = tree fs m1 l) → excused m1 e →
  fs_ok m2 ∧ env_grows (env m) (env m2) ∧ represents m2 T ∧ (r = Err e ∨ excused m e).
Proof.
  intros Hq HT Hok Hg Ht Hx. split; [done|]. split; [eapply env_grows_trans; [by apply quiet_grows|done]|].
  split; [intros l; rewrite Ht; apply HT|]. right. eapply excused_grows; [by apply quiet_grows|done].
Qed.

(** A leaf that goes: detached, cleared of versions by [body], and deleted. *)
Lemma detach_leaf_spec q n i f m X Y (body : run Mem ()) :
  FsTx.tx_ok fs m X Y → edges (fnodes m) q n = Some i → parent_of (fnodes m) i = Some q → i ≠ rt → fnodes m !! i = Some f →
  (∀ m1, FsTx.tx_ok fs m1 ({[i]} ∪ X) Y → fnodes m1 !! i = Some f →
     spec body m1 (λ _ m2, FsTx.tx_ok fs m2 ({[i]} ∪ X) ({[i]} ∪ Y) ∧ around m1 m2 i) (tx_fail m1) (λ _, False)) →
  spec (_ ← remove_from_parent i; _ ← body; _ ← make_del i; modify (λ m, set_fcache (Lru.remove (K:=Eid) (V:=Eid) i (fcache m)).2 m)) m
    (λ _ m', FsTx.tx_ok fs m' ({[i]} ∪ X) ({[i]} ∪ Y) ∧ env_grows (env m) (env m') ∧ one_more (edges (fnodes m')) (edges (fnodes m)) q n i ∧
       (∀ j, j ≠ i → sees m' j = sees m j) ∧ i ∈ deleted m')
    (tx_fail m) (λ _, False).
Proof.
  intros Hok He Hpar Hirt Hf Hbody.
  assert (Hiq : i ≠ q) by (intros ->; eapply (edges_neq (fnodes m)); [apply Hok|done|done]).
  apply spec_bind. eapply spec_mono; [by apply (remove_from_parent_spec fs i q n m X Y)| | |done]; [|done].
  intros _ m1 (Htx1 & Hcalm & Hm & Hpars & Hoth).
  apply spec_bind. eapply spec_mono; [apply Hbody; [done|by rewrite Hoth]| | |done].
  2: { intros x m2 Hx. apply (tx_fail_trans m m1); [apply Hcalm|done]. }
  intros _ m2 (Htx2 & [R1 R2 R3 R4 R5]). assert (Hg2 : env_grows (env m) (env m2)) by (eapply env_grows_trans; [apply Hcalm|done]).
  eapply spec_mono; [apply (del_fnode_spec fs i m2 _ _ Htx2); set_solver| | |done].
  2: { intros x m3 Hx. by apply (tx_fail_trans m m2). }
  intros _ m3 (Htx3 & Hg3 & Hf3 & Hc3 & Hd3). split; [done|]. split; [by eapply env_grows_trans|].
  split; [|split; [|rewrite Hd3; set_solver]].
  - destruct Hm as [Hm1 Hm2]. rewrite Hf3. split; [by rewrite R2|]. intros p k. by rewrite R2, <- Hm2.
  - intros j Hj. transitivity (sees m2 j); [|rewrite R5 by done; apply Hcalm].
    unfold sees. rewrite Hf3. destruct (fnodes m2 !! j); [|done]. cbn. f_equal. by apply view_same.
Qed.

Lemma clear_body i f m : FsTx.tx_ok fs m ({[i]} ∪ {[rt]}) ∅ → fnodes m !! i = Some f → ftype f = File → i ≠ rt →
  spec (f ← make_mut i; f ← clear_versions (Fs.store fs) f; put_fnode i f) m
    (λ _ m2, FsTx.tx_ok fs m2 ({[i]} ∪ {[rt]}) ({[i]} ∪ ∅) ∧ around m m2 i) (tx_fail m) (λ _, False).
Proof. intros Htx Hf Ht Hi. apply (clear_file_spec fs i f); try done. set_solver. Qed.
Lemma dying_body i f m : FsTx.tx_ok fs m ({[i]} ∪ {[rt]}) ∅ → fnodes m !! i = Some f → ftype f = Dir → kids f = [] → i ≠ rt →
  spec (mret ()) m (λ _ m2, FsTx.tx_ok fs m2 ({[i]} ∪ {[rt]}) ({[i]} ∪ ∅) ∧ around m m2 i) (tx_fail m) (λ _, False).
Proof.
  intros Htx Hf Ht Hk Hi. apply spec_ret. split; [|split; try done; apply env_grows_refl].
  apply (dying_leaf fs m _ _ i f); try done. set_solver.
Qed.

Lemma remove_leaf_spec m0 T l q n i f m (body : run Mem ()) :
  fs_ok m0 → represents m0 T → path_to (edges (fnodes m0)) rt l = Some q → edges (fnodes m0) q n = Some i → parent_of (fnodes m0) i = Some q → i ≠ rt →
  fnodes m0 !! i = Some f → kids f = [] →
  (∀ m1, FsTx.tx_ok fs m1 ({[i]} ∪ {[rt]}) ∅ → fnodes m1 !! i = Some f →
     spec body m1 (λ _ m2, FsTx.tx_ok fs m2 ({[i]} ∪ {[rt]}) ({[i]} ∪ ∅) ∧ around m1 m2 i) (tx_fail m1) (λ _, False)) →
  (∃ e, env_keeps (env m0) e ∧ m = set_env e m0) →
  spec (_ ← remove_from_parent i; _ ← body; _ ← make_del i; modify (λ m, set_fcache (Lru.remove (K:=Eid) (V:=Eid) i (fcache m)).2 m)) m
    (λ _ m1, env_grows (env m0) (env m1) ∧ ∃ X Y, FsTx.tx_ok fs m1 X Y ∧ X ∖ Y = {[rt]} ∧ Y ⊆ deleted m1 ∧
        ∀ m2, fs_ok m2 → env_grows (env m0) (env m2) → (∀ p n, edges (fnodes m2) p n = edges (fnodes m1) p n) →
          (∀ i, (i ∉ Y) → sees m2 i = sees m1 i) → represents m2 (delete (l ++ [n]) T))
    (tx_fail m0) (λ _, False).
Proof.
  intros Hok HT Hl He Hpar Hirt Hf Hk Hbody (e & Hke & ->). set (m := set_env e m0).
  pose proof (fs_ok_env _ _ _ Hok Hke) as [Hok1 _]. fold m in Hok1.
  assert (Hg : env_grows (env m0) (env m)) by by apply env_keeps_grows.
  eapply spec_mono; [by apply (detach_leaf_spec q n i f m {[rt]} ∅ body Hok1)| | |done].
  2: { intros x m2 Hx. by apply (tx_fail_trans m0 m). }
  intros _ m1 (Htx1 & Hg1 & Hm & Hs1 & Hd). split; [by eapply env_grows_trans|].
  exists ({[i]} ∪ {[rt]}), ({[i]} ∪ ∅). split; [done|]. split; [set_solver|]. split; [set_solver|].
  intros m4 Hok4 Hg4 He4 Hs4. apply (removed_commit m0 T m1 m4 l q n i); try done.
  - by apply (found_leaf m0 i f).
  - intros j Hj. apply Hs4. set_solver.
Qed.

Lemma remove_file_does (p : Path) m T : fs_ok m → represents m T → does (Fs.remove_file fs p) m T (a_remove_file ro T p).
Proof.
  intros Hok HT. unfold Fs.remove_file, Fs.guard_rw, a_remove_file. apply spec_bind. destruct ro.
  { apply spec_fail. apply (fail_does m m); [apply quiet_refl|done..]. }
  apply spec_ret, spec_bind. eapply spec_mono; [by apply (resolve_does p m T)| | |done].
  2: { intros e m1 Hm. by eapply missed_does. }
  intros i m1 (nd & Hfound). pose proof Hfound as [O1 O2 O3 O4 O5 O6 O7 O8]. rewrite O4. cbn [mbind res_bind].
  destruct (sees_dir _ _ _ O7) as (f & Hf & _ & Hff). apply spec_bind. eapply fnode_spec; [done|]. rewrite Hff.
  destruct (is_file_node nd) eqn:Hnd; cbn [negb]; [|apply spec_fail; by apply (fail_does m m1)].
  assert (Hne : Path.comps p ≠ []).
  { intros Hc. rewrite Hc in O6. injection O6 as <-. rewrite root_dir in O7 by done. by injection O7 as <-. }
  destruct (found_edge _ _ _ _ _ _ Hfound Hne) as (l & n & q & Hc & Hq & He & Hpar & Hirt). rewrite Hc.
  assert (Hty : ftype f = File) by (unfold is_file in Hff; by apply bool_decide_eq_true_1 in Hff).
  unfold run_all. apply (run_all_ret_spec fs); [done| |].
  - intros e Hke.
    eapply spec_mono; [eapply (remove_leaf_spec m1 T l q n i f); try done; [by eapply (f_file _ _ (fs_forest _ O2))| |by exists e]| | |done].
    + intros m2 Htx Hf2. by apply (clear_body i f).
    + intros _ m2 (Hg & X & Y & Htx & HX & HY & Hfin). split; [done|]. exists X, Y. do 3 (split; [done|]). intros m3 Hok3 Hg3 He3 Hs3.
      split; [done|]. split; [eapply env_grows_trans; [by apply quiet_grows|done]|]. eexists. split; [done|by apply Hfin].
    + done.
  - intros x m2 Hok2 Hg2 Ht2 Hx. by apply (tx_does m m1).
Qed.

(** No children: as the code counts them, and on the tree. *)
Lemma children_empty m T l i f : fs_ok m → represents m T → path_to (edges (fnodes m)) rt l = Some i → fnodes m !! i = Some f →
  (0 <? children_cnt f) = negb (a_empty T l).
Proof.
  intros Hok HT Hl Hf. apply eq_true_iff_eq. rewrite negb_true_iff, <- not_true_iff_false, a_empty_true. unfold children_cnt.
  split; [intros Hlt Hall; zify_b|intros Hnall; apply Z.ltb_lt].
  - destruct (kids f) as [|k ks] eqn:Hk; [change (zlen (@nil ChildEntry.ChildEntry)) with 0 in Hlt; lia|].
    specialize (Hall (ChildEntry.name k)). apply (tree_none m _ _ Hok HT) in Hall. rewrite path_snoc, Hl in Hall. cbn in Hall.
    rewrite (edges_at _ _ _ _ Hf), (kid_named_In _ _ k) in Hall; [done|by eapply f_names; [apply fs_forest|]|rewrite Hk; by left|done].
  - destruct (kids f) as [|k ks] eqn:Hk; [|rewrite zlen_cons; pose proof (zlen_nonneg ks); lia]. destruct Hnall. intros x.
    apply (tree_none m _ _ Hok HT). rewrite path_snoc, Hl. cbn. by eapply edges_leaf.
Qed.
Lemma empty_leaf f : (0 <? children_cnt f) = false → kids f = [].
Proof. unfold children_cnt. destruct (kids f) as [|k ks]; [done|]. rewrite zlen_cons. pose proof (zlen_nonneg ks). intros ?. zify_b. lia. Qed.

Lemma remove_dir_does (p : Path) m T : fs_ok m → represents m T → does (Fs.remove_dir fs p) m T (a_remove_dir ro T p).
Proof.
  intros Hok HT. unfold Fs.remove_dir, Fs.guard_rw, a_remove_dir. apply spec_bind. destruct ro.
  { apply spec_fail. apply (fail_does m m); [apply quiet_refl|done..]. }
  apply spec_ret, spec_bind. eapply spec_mono; [by apply (resolve_does p m T)| | |done].
  2: { intros e m1 Hm. by eapply missed_does. }
  intros i m1 (nd & Hfound). pose proof Hfound as [O1 O2 O3 O4 O5 O6 O7 O8]. rewrite O4. cbn [mbind res_bind].
  destruct (sees_dir _ _ _ O7) as (f & Hf & Hfd & _). apply spec_bind. eapply fnode_spec; [done|]. rewrite Hfd, negb_involutive.
  destruct (is_file_node nd) eqn:Hnd; [apply spec_fail; by apply (fail_does m m1)|].
  destruct (decide (Path.comps p = [])) as [Hc|Hne].
  { rewrite bool_decide_eq_true_2 by done. rewrite Hc in O6. injection O6 as <-. unfold is_root.
    destruct O2 as [[Hb Hcn] Hidle]. pose proof (t_top _ _ _ _ Hb) as Htop. rewrite (parent_at _ _ _ Hf) in Htop.
    rewrite bool_decide_eq_true_2 by done. apply spec_fail. apply (fail_does m m1); try done. }
  rewrite (bool_decide_eq_false_2 (Path.comps p = [])) by done.
  destruct (found_edge _ _ _ _ _ _ Hfound Hne) as (l & n & q & Hc & Hq & He & Hpar & Hirt).
  unfold is_root. rewrite (parent_at _ _ _ Hf) in Hpar. rewrite Hpar, bool_decide_eq_false_2 by done. rewrite <- (parent_at _ _ _ Hf) in Hpar.
  pose proof (children_empty m1 T _ i f O2 O3 O6 Hf) as Hempty.
  rewrite Hempty. destruct (a_empty T (Path.comps p)) eqn:Hem; cbn [negb]; [|apply spec_fail; by apply (fail_does m m1)].
  pose proof (empty_leaf f Hempty) as Hk.
  assert (Hty : ftype f = Dir) by (unfold is_dir in Hfd; cbn in Hfd; by apply bool_decide_eq_true_1 in Hfd).
  rewrite Hc. unfold run_all. apply (run_all_ret_spec fs); [done| |].
  - intros e Hke. match goal with |- spec (?a ≫= (λ _, ?r)) ?s ?Q ?F ?D => change (spec (_ ← a; _ ← mret (); r) s Q F D) end.
    eapply spec_mono; [apply (remove_leaf_spec m1 T l q n i f (set_env e m1) (mret ())); try done; [|by exists e]| | |done].
    + intros m2 Htx Hf2. by apply (dying_body i f).
    + intros _ m2 (Hg & X & Y & Htx & HX & HY & Hfin). split; [done|]. exists X, Y. do 3 (split; [done|]). intros m3 Hok3 Hg3 He3 Hs3.
      split; [done|]. split; [eapply env_grows_trans; [by apply quiet_grows|done]|]. eexists. split; [done|by apply Hfin].
    + done.
  - intros x m2 Hok2 Hg2 Ht2 Hx. by apply (tx_does m m1).
Qed.
End ops.
