(* ===== verification/FsRename.v ===== *)
(** * src/fs/fs.rs, [rename]: moving a subtree, over a target that is there or not. *)
From stdpp Require Import strings.
From S2P Require Import Prelude Run Base Segment Fnode Fs FsTree FsInv FsForest FsCont FsTx FsTreeSpec FsEdit FsOps.
Import Mem Fnode FileType(FileType, File, Dir).

Section move.
Implicit Types (k : Eid → string → option Eid) (i p r c : Eid) (l : list string) (n : string).

(** Taking the node [i] from one place and the node [j], if there is one, from the other. *)
Definition without k k' p n (o : option Eid) : Prop := match o with Some j => one_more k k' p n j | None => k = k' ∧ k p n = None end.

Lemma path_moved k0 k1 k2 k3 r lf pf nf i lt pt nt (o : option Eid) :
  edges_inj k0 → top k0 r → path_to k0 r lf = Some pf → path_to k0 r lt = Some pt →
  one_more k1 k0 pf nf i → without k2 k1 pt nt o → one_more k2 k3 pt nt i →
  (∀ j, o = Some j → j ≠ r) →
  ¬ (lf ++ [nf]) `prefix_of` lt →
  ∀ l, path_to k3 r l = if decide ((lt ++ [nt]) `prefix_of` l) then path_to k0 r (lf ++ [nf] ++ drop (length (lt ++ [nt])) l)
                        else if decide ((lf ++ [nf]) `prefix_of` l) then None else path_to k0 r l.
Proof.
  intros Hinj Hr Hlf Hlt H1 H2 H3 Hor Hnp l.
  assert (He : k0 pf nf = Some i) by by apply (more_new _ _ _ _ _ H1).
  assert (Hri : r ≠ i) by (intros ->; by apply Hr in He).
  pose proof (less_inj _ _ _ _ _ H1 Hinj) as Hinj1. pose proof (less_root _ _ _ _ _ H1 Hinj) as Hi1. pose proof (less_old_root _ _ _ _ _ _ H1 Hr) as Hr1.
  pose proof (less_path _ _ _ _ _ _ _ H1 Hinj Hr Hlf) as Hlf1.
  assert (Hsp1 : ∀ l', path_to k0 r l' = if decide ((lf ++ [nf]) `prefix_of` l') then path_to k1 i (drop (S (length lf)) l') else path_to k1 r l')
    by (intros l'; by eapply more_spec).
  assert (Hlt1 : path_to k1 r lt = Some pt) by (rewrite <- Hlt, Hsp1; by rewrite decide_False).
  assert (H12 : edges_inj k2 ∧ top k2 r ∧ top k2 i ∧ path_to k2 r lt = Some pt ∧ (∀ l', path_to k2 i l' = path_to k1 i l') ∧
    (∀ l', ¬ (lt ++ [nt]) `prefix_of` l' → path_to k2 r l' = path_to k1 r l') ∧ ∀ l' j, path_to k2 r l' = Some j → path_to k1 r l' = Some j).
  { destruct o as [j|]; cbn in H2; [|destruct H2 as [-> H2]; by split_and!].
    pose proof (less_inj _ _ _ _ _ H2 Hinj1) as Hinj2. pose proof (less_old_root _ _ _ _ _ _ H2 Hr1) as Hr2. pose proof (less_old_root _ _ _ _ _ _ H2 Hi1) as Hi2.
    pose proof (less_path _ _ _ _ _ _ _ H2 Hinj1 Hr1 Hlt1) as Hlt2. pose proof (less_root _ _ _ _ _ H2 Hinj1) as Hj2.
    do 4 (split; [done|]). split; [|split].
    - intros l'. symmetry. by eapply (more_elsewhere _ _ _ _ _ H2 Hinj2 i r lt).
    - intros l' Hl'. pose proof (Hor j eq_refl) as Hjr. symmetry.
      rewrite (more_spec _ _ _ _ _ H2 Hinj2 Hj2 r lt l' Hr2) by done. by rewrite decide_False.
    - intros l' x Hx. by apply (more_path _ _ _ _ _ H2). }
  destruct H12 as (Hinj2 & Hr2 & Hi2 & Hlt2 & Hbelow & Haside & Hmono).
  rewrite (more_spec _ _ _ _ _ H3 Hinj2 Hi2 r lt l Hr2 Hri Hlt2).
  replace (S (length lt)) with (length (lt ++ [nt])) by (rewrite length_app; cbn; lia).
  case_decide as Hd.
  - rewrite Hbelow, Hsp1, decide_True by (rewrite app_assoc; by eexists). f_equal. rewrite app_assoc.
    replace (S (length lf)) with (length (lf ++ [nf])) by (rewrite length_app; cbn; lia). by rewrite drop_app_length.
  - case_decide as Hf; [|rewrite Hsp1, decide_False by done; by apply Haside].
    destruct (path_to k2 r l) as [j|] eqn:Hj; [|done]. apply Hmono in Hj. destruct Hf as [l2 ->].
    rewrite <- app_assoc, path_app, Hlf1 in Hj. cbn in Hj. by rewrite (proj1 H1) in Hj.
Qed.
End move.

(** Inner steps taken as one. *)
Lemma spec_group_in {St A B B' D} (m : run St A) (k : A → run St B) (k' : A → B → run St B') (l : A → B' → run St D) s Q (F : Error → St → Prop) (P : St → Prop) :
  spec (m ≫= λ a, (k a ≫= k' a) ≫= l a) s Q F P → spec (m ≫= λ a, k a ≫= λ b, k' a b ≫= l a) s Q F P.
Proof.
  unfold spec, mbind, run_bind. destruct (m s) as [[[a|e|]|] s']; [|done..]. destruct (k a s') as [[[b|e|]|] s'']; [|done..].
  by destruct (k' a b s'') as [[[c|e|]|] s3].
Qed.

Section rename.
Context {C K G Hash E SN FC : Type} `{!EqDecision Hash, !Countable Hash, !Env E, !EnvLaws E, !ContentLayer C K G Hash, !ContentLaws C K G Hash}.
Context `{!LinkedMapOps string Eid SN, !LinkedMap string Eid SN, !LinkedMapOps Eid Eid FC, !LinkedMap Eid Eid FC}.
Abbreviation Fn := (Fnode.Fnode K SN).
Abbreviation Mem := (Mem.Mem C K G Hash E SN FC).
Implicit Types (f g : Fn) (m : Mem) (i j p : Eid) (n : string) (l : list string) (T : FsTreeSpec.Tree Hash).
Context (fs : Fs.Fs).
Abbreviation rt := (Fs.root fs).
Abbreviation ro := (Fs.read_only fs).
Abbreviation fs_ok := (FsTx.fs_ok fs).
Abbreviation represents := (FsOps.represents fs).
Abbreviation does := (FsOps.does fs).

Lemma tree_moved m m' T lf pf nf i lt pt nt (o : option Eid) k1 k2 :
  fs_ok m → represents m T →
  path_to (edges (fnodes m)) rt lf = Some pf → path_to (edges (fnodes m)) rt lt = Some pt →
  one_more k1 (edges (fnodes m)) pf nf i → without k2 k1 pt nt o → one_more k2 (edges (fnodes m')) pt nt i →
  (∀ j, o = Some j → j ≠ rt ∧ path_to (edges (fnodes m)) rt (lt ++ [nt]) = Some j) →
  ¬ (lf ++ [nf]) `prefix_of` (lt ++ [nt]) → ¬ (lt ++ [nt]) `prefix_of` (lf ++ [nf]) ∨ o = None →
  (∀ j, o ≠ Some j → sees m' j = sees m j) →
  represents m' (a_move T (lf ++ [nf]) (lt ++ [nt])).
Proof.
  intros Hok HT Hlf Hlt H1 H2 H3 Ho Hnp Hnp2 Hs l. pose proof (f_inj _ _ (fs_forest _ _ Hok)) as Hinj. pose proof (fs_top _ _ Hok) as Hrt.
  unfold tree. rewrite (path_moved (edges (fnodes m)) k1 k2 _ rt lf pf nf i lt pt nt o Hinj Hrt Hlf Hlt H1 H2 H3); cycle 1.
  { intros j Hj. by apply Ho. }
  { intros [l2 ->]. apply Hnp. exists (l2 ++ [nt]). by rewrite <- !app_assoc. }
  rewrite a_move_lookup.
  assert (Hsees : ∀ l', (o = None ∨ ¬ (lt ++ [nt]) `prefix_of` l') → (i ← path_to (edges (fnodes m)) rt l'; sees m' i) = T !! l').
  { intros l' Hl'. rewrite <- HT. unfold tree. destruct (path_to (edges (fnodes m)) rt l') as [x|] eqn:Hx; [|done]. cbn. apply Hs. intros ->.
    destruct (Ho x eq_refl) as [_ Hp]. destruct (path_unique _ _ _ _ _ _ Hinj Hrt Hrt Hx Hp) as [_ ->]. by destruct Hl' as [?|[]]. }
  case_decide as Hd; [|case_decide as Hf; [done|apply Hsees; by right]].
  rewrite app_assoc. apply Hsees. destruct Hnp2 as [Hnp2|?]; [right|by left]. intros [b Hb].
  (* two prefixes of one path are comparable *)
  assert (Hcmp : (lf ++ [nf]) `prefix_of` (lt ++ [nt]) ∨ (lt ++ [nt]) `prefix_of` (lf ++ [nf])).
  { apply (prefix_weak_total _ _ ((lt ++ [nt]) ++ b)); [rewrite <- Hb; by eexists|by eexists]. }
  by destruct Hcmp.
Qed.

(** What is known of the target when the transaction begins. *)
Definition target m pt nt i (o : option Eid) : Prop :=
  match o with
  | Some j => edges (fnodes m) pt nt = Some j ∧ parent_of (fnodes m) j = Some pt ∧ j ≠ rt ∧ j ≠ i ∧ ∃ g, fnodes m !! j = Some g ∧ kids g = []
  | None => edges (fnodes m) pt nt = None
  end.

(** The part of [rename] that takes the target away. *)
Definition drop_target (tgt : option Eid) : run Mem () :=
  match tgt with
  | Some tgt =>
      _ ← remove_from_parent tgt;
      g ← fnode tgt;
      _ ← (if Fnode.is_file g
           then g ← make_mut tgt; g ← clear_versions (Fs.store fs) g; put_fnode tgt g
           else mret ());
      _ ← make_del tgt;
      modify (λ m, set_fcache (Lru.remove (K:=Eid) (V:=Eid) tgt (fcache m)).2 m)
  | None => mret ()
  end.

Lemma drop_target_spec pt nt i (o : option Eid) m X : FsTx.tx_ok fs m X ∅ → target m pt nt i o → X ⊆ {[i]} ∪ {[rt]} →
  spec (drop_target o) m
    (λ _ m', ∃ Y, Y = (match o with Some j => {[j]} | None => ∅ end : gset Eid) ∧ FsTx.tx_ok fs m' (Y ∪ X) Y ∧ env_grows (env m) (env m') ∧ Y ⊆ deleted m' ∧
       without (edges (fnodes m')) (edges (fnodes m)) pt nt o ∧ (∀ j, o ≠ Some j → sees m' j = sees m j))
    (tx_fail m) (λ _, False).
Proof.
  intros Htx Ht HX. destruct o as [j|]; cbn in Ht.
  2: { apply spec_ret. exists ∅. split; [done|]. rewrite union_empty_l_L. split; [done|]. split; [apply env_grows_refl|]. by split_and!. }
  destruct Ht as (He & Hpar & Hjrt & Hji & g & Hg & Hk). unfold drop_target. apply spec_group_in.
  eapply spec_mono; [apply (detach_leaf_spec fs pt nt j g m X ∅); [done..|]| |done|done].
  - intros m1 Htx1 Hg1. apply spec_bind. eapply fnode_spec; [done|].
    destruct (is_file g) eqn:Hfile.
    + apply (clear_file_spec fs j g); try done; [by apply bool_decide_eq_true_1 in Hfile|set_solver].
    + apply spec_ret. split; [|split; try done; apply env_grows_refl]. apply (dying_leaf fs m1 _ _ j g); try done; [|set_solver].
      unfold is_file in Hfile. apply bool_decide_eq_false_1 in Hfile. by destruct (ftype g).
  - intros _ m' (Htx' & Hg' & Hm & Hs & Hd). exists {[j]}. rewrite union_empty_r_L in Htx'. split_and!; try done; [set_solver|].
    intros x Hx. apply Hs. congruence.
Qed.

Lemma rename_tx_does m T lf pf nf i lt pt nt (o : option Eid) :
  fs_ok m → represents m T →
  path_to (edges (fnodes m)) rt lf = Some pf → edges (fnodes m) pf nf = Some i → parent_of (fnodes m) i = Some pf → i ≠ rt →
  path_to (edges (fnodes m)) rt lt = Some pt → sees m pt = Some NDir → target m pt nt i o →
  ¬ (lf ++ [nf]) `prefix_of` (lt ++ [nt]) →
  spec (run_all (_ ← remove_from_parent i; _ ← drop_target o; add_child pt i nt)) m
    (λ _ m', fs_ok m' ∧ env_grows (env m) (env m') ∧ represents m' (a_move T (lf ++ [nf]) (lt ++ [nt])))
    (λ e m', fs_ok m' ∧ env_grows (env m) (env m') ∧ (∀ l, tree fs m' l = tree fs m l) ∧ excused m e) (λ _, False).
Proof.
  intros Hok HT Hlf Hef Hpf Hirt Hlt Hdir Htg Hnp. unfold run_all. apply (run_all_ret_spec fs); [done| |].
  2: { intros x m1 Hok1 Hg1 Ht1 Hx. done. }
  pose proof (fs_forest _ _ Hok) as Hf. pose proof (f_inj _ _ Hf) as Hinj. pose proof (fs_top _ _ Hok) as Hrt.
  intros e Hke. set (m0 := set_env e m). pose proof (fs_ok_env _ _ _ Hok Hke) as [Hok0 [_ Hd0]]. fold m0 in Hok0, Hd0.
  assert (Hg0 : env_grows (env m) (env m0)) by by apply env_keeps_grows.
  apply spec_bind. eapply spec_mono; [by apply (remove_from_parent_spec fs i pf nf m0 {[rt]} ∅)| | |done].
  2: { intros x m1 Hx. by apply (tx_fail_trans m m0). }
  intros _ m1 (Htx1 & [Hg1 Hc1 Hsg1 Hd1 Hs1] & Hm1 & Hpars1 & Hoth1). change (fnodes m0) with (fnodes m) in *.
  assert (Hg01 : env_grows (env m) (env m1)) by by eapply env_grows_trans.
  assert (Hlt1 : path_to (edges (fnodes m1)) rt lt = Some pt).
  { pose proof (less_root _ _ _ _ _ Hm1 Hinj). pose proof (less_inj _ _ _ _ _ Hm1 Hinj). pose proof (less_old_root _ _ _ _ _ _ Hm1 Hrt).
    pose proof (less_path _ _ _ _ _ _ _ Hm1 Hinj Hrt Hlf). rewrite <- Hlt. symmetry.
    rewrite (more_spec _ _ _ _ _ Hm1) with (r := rt) (l0 := lf) by (done || congruence). apply decide_False.
    intros [b ->]. apply Hnp. exists (b ++ [nt]). by rewrite <- !app_assoc. }
  (* the target is what it was *)
  assert (Htg1 : target m1 pt nt i o).
  { destruct o as [j|]; cbn in *.
    - destruct Htg as (He & Hpar & Hjrt & Hji & g & Hg & Hk). split.
      + destruct (more_inv _ _ _ _ _ Hm1 _ _ _ He) as [(_ & _ & ->)|?]; done.
      + rewrite Hpars1. do 3 (split; [done|]). exists g. split; [|done]. rewrite Hoth1; [done|]. intros ->.
        by rewrite (edges_leaf _ _ _ _ Hg Hk) in Hef.
    - destruct (edges (fnodes m1) pt nt) as [j|] eqn:Hj; [|done]. by rewrite (more_old _ _ _ _ _ Hm1 _ _ _ Hj) in Htg. }
  apply spec_bind. eapply spec_mono; [by apply (drop_target_spec pt nt i o m1 _ Htx1 Htg1)| | |done].
  2: { intros x m2 Hx. by apply (tx_fail_trans m m1). }
  intros _ m2 (Y & HY & Htx2 & Hg2 & HYd & Hwo & Hs2). assert (Hg02 : env_grows (env m) (env m2)) by by eapply env_grows_trans.
  assert (HiY : i ∉ Y).
  { subst Y. destruct o as [j|]; [|set_solver]. destruct Htg as (_ & _ & _ & Hji & _). set_solver. }
  assert (Hpt2 : sees m2 pt = Some NDir).
  { rewrite Hs2, Hs1; [done|]. intros ->. destruct Htg as (He & _). by apply (edges_neq _ _ _ _ _ Hf) in He. }
  assert (H2 : path_to (edges (fnodes m2)) rt lt = Some pt ∧ edges (fnodes m2) pt nt = None).
  { destruct o as [j|]; cbn in Hwo; [|by destruct Hwo as [-> ?]]. split; [|apply Hwo].
    eapply less_path; [done| | |done]; [by eapply less_inj|by eapply less_old_root]. }
  destruct H2 as [Hlt2 Hnone2].
  eapply spec_mono; [apply (add_child_spec fs pt i nt lt m2 _ Y Htx2); try done; set_solver| | |done].
  2: { intros x m3 Hx. by apply (tx_fail_trans m m2). }
  intros _ m3 (Htx3 & [Hg3 Hc3 Hsg3 Hd3 Hs3] & Hm3). split; [by eapply env_grows_trans|].
  assert (HYrt : rt ∉ Y). { subst Y. destruct o as [j|]; [|set_solver]. destruct Htg as (_ & _ & Hjrt & _). set_solver. }
  exists ((Y ∪ ({[i]} ∪ {[rt]})) ∖ {[i]}), Y. split; [done|]. split; [|split; [by rewrite Hd3|]].
  { apply set_eq. intros x. rewrite !elem_of_difference, !elem_of_union, !elem_of_singleton. split; [tauto|]. intros ->. split; [|done].
    split; [by right; right|]. congruence. }
  intros m4 Hok4 Hg4 He4 Hs4. split; [done|]. split; [done|].
  eapply (tree_moved m m4 T lf pf nf i lt pt nt o (edges (fnodes m1)) (edges (fnodes m2))); try done.
  - destruct Hm3 as [Hn3 Hm3]. split; [done|]. intros q x. by rewrite He4, Hm3.
  - intros j ->. destruct Htg as (He & _ & Hjrt & _). split; [done|]. by rewrite path_snoc, Hlt.
  - destruct o as [j|]; [left|by right]. destruct Htg as (He & _ & _ & Hji & g & Hg & Hk). intros [b Hb].
    assert (Hpi : path_to (edges (fnodes m)) rt (lf ++ [nf]) = Some i) by (by rewrite path_snoc, Hlf).
    rewrite Hb, path_app, path_snoc, Hlt in Hpi. cbn in Hpi. rewrite He in Hpi. destruct b as [|x b]; [by injection Hpi|]. cbn in Hpi.
    by rewrite (edges_leaf _ _ _ _ Hg Hk) in Hpi.
  - intros j Hj. rewrite Hs4; [rewrite Hs3, Hs2 by done; apply Hs1|]. subst Y. destruct o as [k|]; [|set_solver]. intros ->%elem_of_singleton. done.
Qed.

(** The parent of a new name is a directory; [rename] does not look. *)
Definition parent_dir T (p : Path) : Prop := ∀ q o vs, Path.parent p = Some q → T !! Path.comps q ≠ Some (NFile o vs).

Lemma found_not_root m T (p : Path) i nd m' f : found fs m T p i nd m' → fnodes m' !! i = Some f → is_root f = bool_decide (Path.comps p = []).
Proof.
  intros Hfound Hf. unfold is_root. destruct (decide (Path.comps p = [])) as [Hc|Hne].
  - pose proof Hfound as [O1 O2 O3 O4 O5 O6 O7 O8]. rewrite Hc in O6. injection O6 as <-. rewrite (bool_decide_eq_true_2 (Path.comps p = [])) by done.
    apply bool_decide_eq_true_2. rewrite <- (parent_at _ _ _ Hf). apply O2.
  - destruct (found_edge _ _ _ _ _ _ _ Hfound Hne) as (l & n & q & _ & _ & _ & Hpar & _). rewrite (parent_at _ _ _ Hf) in Hpar.
    by rewrite Hpar, !bool_decide_eq_false_2.
Qed.

Lemma starts_with_prefix (p q : Path) : Path.has_root p = Path.has_root q → Path.starts_with p q = false → ¬ (Path.comps q `prefix_of` Path.comps p).
Proof.
  unfold Path.starts_with. intros Hr. rewrite bool_decide_eq_true_2 by done. cbn [andb]. intros Hs Hp. apply prefix_of_spec in Hp. congruence.
Qed.

(** A found fnode stays found when only caches change. *)
Lemma found_quiet m T (p : Path) i nd m1 m2 : found fs m T p i nd m1 → quiet m1 m2 → fs_ok m2 → found fs m T p i nd m2.
Proof.
  intros [O1 O2 O3 O4 O5 O6 O7 O8] Hq Hok. split; try done; [by eapply quiet_trans|by eapply quiet_represents|by rewrite (quiet_path m1)|by rewrite (quiet_sees m1)|by eapply knows_parent_quiet].
Qed.

(** What is known of the target when it has been looked for. *)
Definition looked m0 T (to : Path) m (o : option Eid) : Prop :=
  match o with
  | Some j => Path.comps to ≠ [] ∧ ∃ nd g, found fs m0 T to j nd m ∧ fnodes m !! j = Some g ∧ kids g = []
  | None => T !! Path.comps to = None
  end.
Lemma parent_is_dir T (to : Path) l n nd : parent_dir T to → a_parent T to = Ok (l, n, nd) → Path.comps to = l ++ [n] → T !! l = Some nd → nd = NDir.
Proof.
  intros Hpd Hap Hct Htl. destruct nd as [|o vs]; [done|]. unfold a_parent in Hap. destruct (Path.parent to) as [q|] eqn:Hpq; [|done].
  destruct (Path.file_name to) as [x|] eqn:Hfn; [|done]. destruct (comps_parent _ _ _ Hpq Hfn) as [Hcq _]. rewrite Hct in Hcq.
  apply app_inj_tail in Hcq as [Hcq _]. destruct (Hpd q o vs Hpq). by rewrite <- Hcq.
Qed.

Lemma looked_target m0 m0' T (from to : Path) i nd m o lt nt pt : fs_ok m → represents m T → found fs m0 T from i nd m → looked m0' T to m o → from ≠ to →
  Path.comps to = lt ++ [nt] → Path.has_root to = Path.has_root from → path_to (edges (fnodes m)) rt lt = Some pt → target m pt nt i o.
Proof.
  intros Hok HT Hsrc Hlk Hne Hct Hroot Hlt. destruct o as [j|]; cbn in *.
  - destruct Hlk as (Hnr & nd' & g & Htgt & Hg & Hk). destruct (found_edge _ _ _ _ _ _ _ Htgt Hnr) as (lt' & nt' & pt' & Hct' & Plt' & Et & Part & Hjrt).
    rewrite Hct in Hct'. apply app_inj_tail in Hct' as [<- <-]. rewrite Hlt in Plt'. injection Plt' as <-.
    do 3 (split; [done|]). split; [|by exists g]. intros ->.
    destruct (path_unique _ _ _ _ _ _ (f_inj _ _ (fs_forest _ _ Hok)) (fs_top _ _ Hok) (fs_top _ _ Hok) (o_path _ _ _ _ _ _ _ Hsrc) (o_path _ _ _ _ _ _ _ Htgt)) as [_ Heq].
    apply Hne. destruct from, to. cbn in *. congruence.
  - apply (tree_none fs m T _ Hok HT) in Hlk. by rewrite Hct, path_snoc, Hlt in Hlk.
Qed.

Lemma looked_quiet m0 T (to : Path) m m' o : looked m0 T to m o → quiet m m' → fs_ok m' → looked m0 T to m' o.
Proof.
  destruct o as [j|]; [|done]. intros (Hne & nd & g & Hf & Hg & Hk) Hq Hok. split; [done|].
  destruct (same_cores_lookup _ _ _ _ (same_cores_sym _ _ (q_cores _ _ Hq)) Hg) as (g' & Hg' & Hcore). exists nd, g'.
  split; [by eapply found_quiet|]. split; [done|]. apply core_kids in Hcore as (Hk' & _). congruence.
Qed.

(** The rest of [rename], when the checks have passed. *)
Lemma rename_rest m m0 m0' T (from to : Path) i nd o m2 : quiet m m2 → fs_ok m2 → represents m2 T → parent_dir T to →
  found fs m0 T from i nd m2 → Path.comps from ≠ [] → looked m0' T to m2 o → from ≠ to → Path.starts_with to from = false →
  spec ('(tgt_parent, name) ← Fs.resolve_parent fs to; run_all (_ ← remove_from_parent i; _ ← drop_target o; add_child tgt_parent i name)) m2
    (λ _ m', fs_ok m' ∧ env_grows (env m) (env m') ∧ ∃ T', a_moved T from to = Ok T' ∧ represents m' T')
    (λ e m', fs_ok m' ∧ env_grows (env m) (env m') ∧ represents m' T ∧ (a_moved T from to = Err e ∨ excused m e)) (λ _, False).
Proof.
  intros Hq Hok2 HT2 Hpd Hsrc Hr Hlk Hne Hsw. apply spec_bind. eapply spec_mono; [by apply (resolve_parent_does fs to m2 T)| | |done].
  2: { intros e m3 (Hq3 & Hok3 & HT3 & Hor). split; [done|]. split; [by apply (quiet_grows m), (quiet_trans _ m2)|]. split; [done|]. unfold a_moved.
    destruct Hor as [->|Hns]; [by left|right; left; by apply (quiet_steady m m2)]. }
  intros [pt nt] m3 (Q3 & Ok3 & T3 & Rt & lt & ndp & Hap & Hct & Plt & Slt & Tlt). cbn [fst snd] in *. unfold a_moved. rewrite Hap. cbn [mbind res_bind].
  pose proof (parent_is_dir _ _ _ _ _ Hpd Hap Hct Tlt) as ->.
  pose proof (found_quiet _ _ _ _ _ _ _ Hsrc Q3 Ok3) as Hsrc3. pose proof (looked_quiet _ _ _ _ _ _ Hlk Q3 Ok3) as Hlk3.
  destruct (found_edge _ _ _ _ _ _ _ Hsrc3 Hr) as (lf & nf & pf & Hcf & Plf & Ef & Parf & Hirt).
  assert (Hroot : Path.has_root to = Path.has_root from) by (rewrite Rt; symmetry; apply Hsrc).
  pose proof (looked_target _ _ _ _ _ _ _ _ _ _ _ _ Ok3 T3 Hsrc3 Hlk3 Hne Hct Hroot Plt) as Htg.
  assert (G3 : env_grows (env m) (env m3)) by (apply (quiet_grows m m3), (quiet_trans _ m2); done).
  eapply spec_mono; [apply (rename_tx_does m3 T lf pf nf i lt pt nt o); try done| | |done].
  - rewrite <- Hcf, <- Hct. by apply starts_with_prefix.
  - intros _ m4 (Ok4 & G4 & T4). split; [done|]. split; [by eapply env_grows_trans|]. eexists. split; [done|]. by rewrite Hcf.
  - intros e m4 (Ok4 & G4 & Tr4 & Hx). split; [done|]. split; [by eapply env_grows_trans|]. split; [intros l; rewrite Tr4; apply T3|]. right. by eapply excused_grows.
Qed.

Lemma check_target_spec m m0 T (to : Path) j nd nd' f g m2 (Q : () → Mem → Prop) (F : Error → Mem → Prop) :
  fs_ok m2 → represents m2 T → found fs m0 T to j nd' m2 → fnodes m2 !! j = Some g → Fnode.is_dir f = negb (is_file_node nd) → Fnode.is_file f = is_file_node nd → m = m2 →
  match a_check T nd nd' to with
  | Ok _ => Path.comps to ≠ [] → kids g = [] → Q () m2
  | Err e => F e m2
  | Panic => False
  end → spec (Fs.check_target f g) m Q F (λ _, False).
Proof.
  intros Hok HT Hfound Hg Hfd Hff ->. destruct (sees_dir _ _ _ (o_sees _ _ _ _ _ _ _ Hfound)) as (g' & Hg' & Hgd & Hgf).
  rewrite Hg in Hg'. injection Hg' as <-. pose proof (children_empty fs m2 T _ j g Hok HT (o_path _ _ _ _ _ _ _ Hfound) Hg) as Hem.
  unfold Fs.check_target, a_check. rewrite (found_not_root _ _ _ _ _ _ _ Hfound Hg), Hff, Hgf, Hgd, Hfd, Hem.
  case_bool_decide as Hr; [intros HF; by apply spec_fail|].
  destruct (is_file_node nd) eqn:Hnd, (is_file_node nd') eqn:Hnd'; cbn [negb andb]; [| |intros HF; by apply spec_fail|].
  - intros HQ. apply spec_ret, HQ; [done|]. apply (f_file _ _ (fs_forest _ _ Hok) _ _ Hg). unfold is_file in Hgf. by apply bool_decide_eq_true_1 in Hgf.
  - intros HF. by apply spec_fail.
  - destruct (a_empty T (Path.comps to)); cbn [negb] in *; [|intros HF; by apply spec_fail]. intros HQ. apply spec_ret, HQ; [done|]. by apply empty_leaf.
Qed.

Lemma rename_does (from to : Path) m T : fs_ok m → represents m T → parent_dir T to →
  does (Fs.rename fs from to) m T (a_rename ro T from to).
Proof.
  intros Hok HT Hpd. unfold Fs.rename, Fs.guard_rw, a_rename. apply spec_bind. destruct ro.
  { apply spec_fail. apply (fail_does fs m m); [apply quiet_refl|done..]. }
  apply spec_ret. case_bool_decide as Hft.
  { apply spec_ret. split; [done|]. split; [apply env_grows_refl|by exists T]. }
  destruct (Path.starts_with to from) eqn:Hsw.
  { apply spec_fail. apply (fail_does fs m m); [apply quiet_refl|done..]. }
  apply spec_bind. eapply spec_mono; [by apply (resolve_does fs from m T)| | |done].
  2: { intros e m1 Hm. by eapply missed_does. }
  intros i m1 (nd & Hsrc). pose proof Hsrc as [Q1 Ok1 T1 L1 R1 P1 S1 K1]. rewrite L1. cbn [mbind res_bind].
  apply spec_bind, spec_attempt. eapply spec_mono; [by apply (resolve_does fs to m1 T)| | |done].
  - (* the target is there *)
    intros j m2 (nd' & Htgt). pose proof Htgt as [Q2 Ok2 T2 L2 R2 P2 S2 K2]. unfold a_target. rewrite L2. apply spec_bind, spec_ret.
    pose proof (found_quiet _ _ _ _ _ _ _ Hsrc Q2 Ok2) as Hsrc2. clear Hsrc. pose proof Hsrc2 as [Q12 _ _ _ _ P1' S1' K1'].
    destruct (sees_dir _ _ _ S1') as (f & Hf & Hfd & Hff). destruct (sees_dir _ _ _ S2) as (g & Hg & Hgd & Hgf).
    apply spec_bind. eapply fnode_spec; [done|]. cbn [mbind res_bind]. rewrite (found_not_root _ _ _ _ _ _ _ Hsrc2 Hf).
    case_bool_decide as Hr; [apply spec_bind, spec_fail; by apply (fail_does fs m m2)|].
    apply spec_bind, spec_bind. eapply fnode_spec; [done|]. eapply (check_target_spec m2 m1 T to j nd nd' f g m2); try done.
    destruct (a_check T nd nd' to) eqn:Hchk; [|by apply (fail_does fs m m2)|unfold a_check in Hchk; by repeat case_match].
    intros Hrt Hk. apply (rename_rest m m m1 T from to i nd (Some j)); try done. split; [done|]. by exists nd', g.
  - (* the target is not there *)
    intros e m2 (Q2 & Ok2 & T2 & Hor). pose proof (found_quiet _ _ _ _ _ _ _ Hsrc Q2 Ok2) as Hsrc2. clear Hsrc. pose proof Hsrc2 as [Q12 _ _ _ _ P1' S1' K1'].
    assert (Hother : e ≠ NotFound → fs_ok m2 ∧ env_grows (env m) (env m2) ∧ represents m2 T ∧
      ((tgt ← a_target T to;
        if bool_decide (Path.comps from = []) then Err IsRoot else _ ← (match tgt with Some nd' => a_check T nd nd' to | None => Ok () end); a_moved T from to) = Err e ∨ excused m e)).
    { intros He. split; [done|]. split; [by apply (quiet_grows m)|]. split; [done|]. unfold a_target. destruct Hor as [->|Hns]; [left; by destruct e|right; left].
      by apply (quiet_steady m m1). }
    destruct (decide (e = NotFound)) as [->|He]; [|specialize (Hother He); destruct e; try done; by apply spec_bind, spec_fail].
    destruct Hor as [Hlk|[_ [? _]]]; [|done]. unfold a_target. rewrite Hlk. apply spec_bind, spec_ret. destruct (sees_dir _ _ _ S1') as (f & Hf & Hfd & Hff).
    apply spec_bind. eapply fnode_spec; [done|]. cbn [mbind res_bind]. rewrite (found_not_root _ _ _ _ _ _ _ Hsrc2 Hf).
    case_bool_decide as Hr; [apply spec_bind, spec_fail; by apply (fail_does fs m m2)|].
    apply spec_bind, spec_ret. apply (rename_rest m m m T from to i nd None); try done. cbn. unfold a_lookup in Hlk.
    destruct (negb (Path.has_root to)); [done|]. by destruct (T !! Path.comps to).
Qed.
End rename.
