(* ===== verification/FsFiles.v ===== *)
(** * Files: copying, and new contents as new versions. *)
From stdpp Require Import strings.
From S2P Require Import Prelude Run Base Segment Fnode Fs FsTree FsInv FsForest FsCont FsTx FsTreeSpec FsEdit FsOps.
Import Mem Fnode FileType(FileType, File, Dir).

Section files.
Context {C K G Hash E SN FC : Type} `{!EqDecision Hash, !Countable Hash, !Env E, !EnvLaws E, !ContentLayer C K G Hash, !ContentLaws C K G Hash}.
Context `{!LinkedMapOps string Eid SN, !LinkedMap string Eid SN, !LinkedMapOps Eid Eid FC, !LinkedMap Eid Eid FC}.
Abbreviation Fn := (Fnode.Fnode K SN).
Abbreviation Mem := (Mem.Mem C K G Hash E SN FC).
Abbreviation V := Version.Version.
Abbreviation hash := (ct_hash (C:=C) (K:=K) (S:=G) (Hash:=Hash)).
Implicit Types (f g : Fn) (m : Mem) (i j : Eid) (n : string) (l : list string) (v : V) (c : C) (T : FsTreeSpec.Tree Hash).
Context (fs : Fs.Fs).
Abbreviation rt := (Fs.root fs).
Abbreviation ro := (Fs.read_only fs).
Abbreviation fs_ok := (FsTx.fs_ok fs).
Abbreviation represents := (FsOps.represents fs).
Abbreviation does := (FsOps.does fs).
Abbreviation leaf := (FsEdit.leaf (C:=C) (K:=K) (G:=G) (Hash:=Hash)).

(** What a node shows of a file. *)
Lemma sees_file m i o sh : sees m i = Some (NFile o sh) → ∃ f, fnodes m !! i = Some f ∧ ftype f = File ∧ Fnode.opts f = o ∧ shown m <$> vers f = sh.
Proof.
  unfold sees. intros (f & Hf & Hv)%fmap_Some. exists f. split; [done|]. unfold view in Hv. destruct (ftype f); [|done]. by injection Hv as -> ->.
Qed.
Lemma shown_next m f : a_next (shown m <$> vers f) = next_num f.
Proof. unfold a_next, next_num. rewrite fmap_last. by destruct (last (vers f)). Qed.

(** A file whose content has been replaced: a version more. *)
Record grown m m1 f g c (r : bool) i : Prop := {
  w_step : cont_step m m1;
  w_conts : conts_ok m1 (vers g ++ all_vers (delete i (fnodes m)));
  w_dup : dedup m = true → (∃ v c', v ∈ all_vers (fnodes m) ∧ contents m !! Version.content_id v = Some c' ∧ hash c' = hash c) → r = false;
  w_place : same_place f g;
  w_opts : Fnode.opts g = Fnode.opts f;
  w_vers : vers_ok g ∧ vers g ≠ [];
  w_shown : shown m1 <$> vers g = a_add (Fnode.opts f) (shown m <$> vers f) (Some (hash c))
}.

Lemma tx_file m X Y i f : FsTx.tx_ok fs m X Y → fnodes m !! i = Some f → ftype f = File → (i ∉ Y) → vers_ok f ∧ vers f ≠ [].
Proof. intros [Hb _]. apply (t_files _ _ _ _ Hb). Qed.

Lemma add_to_file_spec {A} i f c m X Y (k : bool * Fn → run Mem A) (Q : A → Mem → Prop) (F : Error → Mem → Prop) :
  FsTx.tx_ok fs m X Y → (i ∉ Y) → fnodes m !! i = Some f → ftype f = File → next_num f < U64 → fits c (segs m) →
  (∀ r g m1, grown m m1 f g c r i → spec (k (r, g)) m1 Q F (λ _, False)) →
  (∀ e m', tx_fail m e m' → F e m') →
  spec (f ← make_mut i; rg ← add_version (Fs.store fs) c f; k rg) m Q F (λ _, False).
Proof.
  intros Htx HY Hf Ht Hroom Hfit Hk HF. apply spec_bind.
  eapply spec_mono; [apply (make_mut_spec_fs fs i f m X Y (λ f' m', f' = f ∧ cont_step m m' ∧ FsTx.tx_ok fs m' X Y ∧ segs m' = segs m ∧ contents m' = contents m ∧ dedup m' = dedup m)); try done| |done|done].
  { intros e t He m' Hok'. split_and!; try done. by apply cont_step_touch. }
  intros ? m1 (-> & Hs1 & Htx1 & Hg1 & Hc1 & Hd1). pose proof (p_fnodes _ _ Hs1) as Hfn1.
  destruct (tx_file _ _ _ _ _ Htx Hf Ht HY) as [Hv Hne]. apply spec_bind.
  pose proof (conts_take fs m1 X Y i f Htx1) as Hct. rewrite Hfn1 in Hct. specialize (Hct Hf).
  eapply spec_mono; [apply (add_version_spec (Fs.store fs) c f m1 (all_vers (delete i (fnodes m)))); try done; by rewrite Hg1| | |done].
  2: { intros e m2 [Hs2 Hx]. apply HF, (tx_fail_step fs m X Y); [apply Htx|by eapply cont_step_trans|by eapply excused_step]. }
  intros [r g] m2 (Hs2 & Hc2 & Hdup & v & kk & t & Hg & Hnum & _ & c' & Hc' & Hh). cbn [fst snd] in *. apply Hk.
  destruct (add_version_ok f v kk t Hv Hnum) as (Hv' & Hne' & _). rewrite <- Hg in Hv', Hne'.
  assert (Hs12 : cont_step m m2) by by eapply cont_step_trans.
  split; try done.
  - intros Hdd Hex. apply Hdup; [congruence|]. destruct Hex as (w & d & Hw & Hd & Hhd). exists w, d. rewrite Hc1. split; [|done].
    rewrite <- (all_vers_lookup (fnodes m) i f) by done. done.
  - subst g. split; try done. congruence.
  - by subst g.
  - subst g. cbn [vers set_chk_map set_vers set_mtime]. unfold a_add. rewrite fmap_drop, fmap_app. change (shown m2 <$> [v]) with [shown m2 v].
    unfold retired. unfold zlen. rewrite length_fmap. f_equal. f_equal.
    + apply list_fmap_ext. intros x w Hx. unfold shown. f_equal. destruct (has_contents fs m X Y i f w Htx Hf) as [d Hd]; [by eapply list_elem_of_lookup_2|].
      by rewrite Hd, (p_contents _ _ Hs12 _ _ Hd).
    + rewrite shown_next. unfold shown. rewrite Hc'. cbn. by rewrite Hnum, Hh.
Qed.

(** Putting it back. *)
Lemma put_grown m m1 m1' f g g' c r i X Y : FsTx.tx_ok fs m X Y → (i ∉ Y) → fnodes m !! i = Some f → ftype f = File → grown m m1 f g c r i →
  cont_step m1 m1' → conts_ok m1' (vers g ++ all_vers (delete i (fnodes m))) → (∃ k, g' = set_chk_map k g) →
  let m2 := set_fnodes (<[i := g']> (fnodes m1')) m1' in
  FsTx.tx_ok fs m2 X Y ∧ around m m2 i ∧ sees m2 i = Some (NFile (Fnode.opts f) (a_add (Fnode.opts f) (shown m <$> vers f) (Some (hash c)))).
Proof.
  intros Htx HY Hf Ht [W1 W2 W3 W4 W5 W6 W7] Hs Hc [k ->] m2. pose proof (t_sub _ _ _ _ (proj1 Htx)) as Hsub.
  destruct (put_versions fs m m1' X Y Y i f (set_chk_map k g)) as (A1 & A2 & A3); try done.
  - by eapply cont_step_trans.
  - by destruct W4.
  - set_solver.
  - intros _ _. destruct W6 as [[B1 B2 B3] B4]. by split.
  - split; [done|]. split; [done|]. etrans; [exact A3|]. f_equal. unfold view. change (ftype (set_chk_map k g)) with (ftype g). rewrite (e_type _ _ W4), Ht.
    cbn [Fnode.opts vers set_chk_map]. rewrite W5, <- W7. f_equal. apply list_fmap_ext. intros x w Hx. unfold shown. f_equal.
    destruct W2 as [W2 _]. destruct (k_has _ _ W2 w) as [d Hd]; [apply elem_of_app; left; by eapply list_elem_of_lookup_2|].
    by rewrite Hd, (p_contents _ _ Hs _ _ Hd).
Qed.

Lemma tree_edited m m' T l i nd : fs_ok m → represents m T → path_to (edges (fnodes m)) rt l = Some i →
  (∀ p n, edges (fnodes m') p n = edges (fnodes m) p n) → sees m' i = Some nd → (∀ j, j ≠ i → sees m' j = sees m j) → represents m' (<[l := nd]> T).
Proof.
  intros Hok HT Hl He Hi Hs l'. unfold tree. rewrite (path_ext (edges (fnodes m))) by done. destruct (decide (l' = l)) as [->|Hne].
  - rewrite Hl, lookup_insert_eq. exact Hi.
  - rewrite lookup_insert_ne by done. rewrite <- HT. unfold tree. destruct (path_to (edges (fnodes m)) rt l') as [j|] eqn:Hj; [|done]. cbn. apply Hs.
    intros ->. by destruct (path_unique _ _ _ _ _ _ (f_inj _ _ (fs_forest _ _ Hok)) (fs_top _ _ Hok) (fs_top _ _ Hok) Hl Hj) as [_ ->].
Qed.

(** ** Copying *)

(** As [does], but a failure for a cause of its own may come between two transactions. *)
Definition tries {A} (op : run Mem A) m T (r : res (FsTreeSpec.Tree Hash)) : Prop :=
  spec op m
    (λ _ m', fs_ok m' ∧ env_grows (env m) (env m') ∧ ∃ T', r = Ok T' ∧ represents m' T')
    (λ e m', fs_ok m' ∧ env_grows (env m) (env m') ∧ ((represents m' T ∧ r = Err e) ∨ excused m e))
    (λ _, False).
Lemma tries_missed {A} m T (r : res (Node Hash)) (k : Node Hash → res A) (e : Error) m' : missed fs m T r e m' →
  fs_ok m' ∧ env_grows (env m) (env m') ∧ ((represents m' T ∧ (r ≫= k) = Err e) ∨ excused m e).
Proof. intros (Hq & Hok & HT & Hor). split; [done|]. split; [by apply quiet_grows|]. destruct Hor as [->|Hns]; [by left|right; by left]. Qed.
Lemma tries_fail m m1 T (e : Error) (r : res (FsTreeSpec.Tree Hash)) : quiet m m1 → fs_ok m1 → represents m1 T → r = Err e →
  fs_ok m1 ∧ env_grows (env m) (env m1) ∧ ((represents m1 T ∧ r = Err e) ∨ excused m e).
Proof. intros Hq Hok HT Hr. split; [done|]. split; [by apply quiet_grows|]. by left. Qed.

(** The current content of a file, at hand. *)
Lemma clone_current_spec m X Y i f (Q : C → Mem → Prop) : FsTx.tx_ok fs m X Y → (i ∉ Y) → fnodes m !! i = Some f → ftype f = File →
  (∀ c e, env_keeps (env m) e → c ∈ live m → (∃ v, v ∈ vers f ∧ contents m !! Version.content_id v = Some c) →
     a_current (shown m <$> vers f) = Some (hash c) → Q c (set_env e m)) →
  spec (clone_current_content f) m Q (tx_fail m) (λ _, False).
Proof.
  intros Htx HY Hf Ht HQ. destruct (tx_file _ _ _ _ _ Htx Hf Ht HY) as [_ Hne]. unfold clone_current_content, curr_ver.
  destruct (last (vers f)) as [v|] eqn:Hl; [|by apply last_None in Hl].
  assert (Hv : v ∈ vers f) by (apply last_Some in Hl as [l ->]; set_solver).
  cbn [unwrap]. apply spec_bind, spec_lift_ok. destruct (has_contents fs m X Y i f v Htx Hf Hv) as [c Hc].
  unfold get_content. apply spec_bind, io_step.
  - intros e He. apply spec_bind, spec_ask. cbn [contents set_env]. rewrite Hc. cbn [ok_or]. apply spec_lift_ok. apply HQ; [done| |by exists v|].
    + eapply live_in; [done|]. destruct Htx as [_ [Hco _]]. apply (k_live _ _ Hco), all_vers_in. by exists i, f.
    + unfold a_current. rewrite fmap_last, Hl. cbn. by rewrite Hc.
  - intros x e He Hx. apply (tx_fail_step fs m X Y); [apply Htx|by apply cont_step_env|done].
Qed.

Lemma copy_tx_does m T i j l o vs o' vs' : fs_ok m → represents m T → sees m i = Some (NFile o vs) →
  path_to (edges (fnodes m)) rt l = Some j → sees m j = Some (NFile o' vs') → a_next vs' < U64 →
  spec (run_all
          (f ← fnode i;
           ctn ← clone_current_content f;
           g ← make_mut j;
           '(result, g) ← add_version (Fs.store fs) ctn g;
           _ ← put_fnode j g;
           lift (rassert (negb (dedup_file (Fs.opts fs) && result))))) m
    (λ _ m', fs_ok m' ∧ env_grows (env m) (env m') ∧ represents m' (<[l := NFile o' (a_add o' vs' (a_current vs))]> T))
    (λ e m', fs_ok m' ∧ env_grows (env m) (env m') ∧ (∀ l, tree fs m' l = tree fs m l) ∧ excused m e) (λ _, False).
Proof.
  intros Hok HT Hsi Hl Hsj Hroom. unfold run_all. apply (run_all_ret_spec fs); [done| |done].
  intros e Hke. set (m0 := set_env e m). pose proof (fs_ok_env _ _ _ Hok Hke) as [Htx0 _]. fold m0 in Htx0.
  assert (Hg0 : env_grows (env m) (env m0)) by by apply env_keeps_grows.
  destruct (sees_file _ _ _ _ Hsi) as (f & Hf & Htf & Hof & Hsf). destruct (sees_file _ _ _ _ Hsj) as (g & Hg & Htg & Hog & Hsg).
  assert (Hno : ∀ x, (x ∉ (∅ : gset Eid))) by (intros; apply not_elem_of_empty).
  apply spec_bind. eapply fnode_spec; [exact Hf|]. apply spec_bind.
  eapply spec_mono; [apply (clone_current_spec m0 {[rt]} ∅ i f (λ c m', ∃ e, m' = set_env e m0 ∧ env_keeps (env m0) e ∧ c ∈ live m0 ∧
    (∃ v, v ∈ vers f ∧ contents m0 !! Version.content_id v = Some c) ∧ a_current (shown m0 <$> vers f) = Some (hash c)) Htx0); try done| | |done].
  { intros c e' He' Hc Hv Hcur. by exists e'. }
  2: { intros x m1 Hx. by apply (tx_fail_trans m m0). }
  intros c m1 (e' & -> & He' & Hlive & Hvc & Hcur). set (m1 := set_env e' m0).
  assert (Htx1 : FsTx.tx_ok fs m1 {[rt]} ∅) by (by apply tx_ok_env).
  assert (Hg1 : env_grows (env m) (env m1)) by (eapply env_grows_trans; [done|by apply env_keeps_grows]).
  assert (Hshown : a_current vs = Some (hash c)) by (rewrite <- Hsf; exact Hcur).
  eapply (add_to_file_spec j g c m1 {[rt]} ∅); try done.
  - rewrite <- (shown_next m1 g). change (shown m1 <$> vers g) with (shown m <$> vers g). by rewrite Hsg.
  - eapply linked_fits; [apply Htx1|done].
  - intros r g' m2 Hgr. pose proof Hgr as [W1 W2 W3 W4 W5 W6 W7]. apply spec_bind. unfold put_fnode. apply spec_modify.
    destruct (put_grown m1 m2 m2 g g' g' c r j {[rt]} ∅) as (Htx3 & [R1 R2 R3 R4 R5] & Hs3); try done.
    { apply cont_step_refl. }
    { exists (chk_map g'). by destruct g'. }
    set (m3 := set_fnodes (<[j := g']> (fnodes m2)) m2) in *.
    assert (Hr : negb (dedup_file (Fs.opts fs) && r) = true).
    { destruct (dedup_file (Fs.opts fs)) eqn:Hd; [|done]. rewrite W3; [done| |].
      - rewrite <- Hd. apply (t_dedup _ _ _ _ (proj1 Htx1)).
      - destruct Hvc as (v & Hv & Hcv). exists v, c. split; [|done]. apply all_vers_in. by exists i, f. }
    rewrite Hr. apply spec_lift_ok. assert (Hg3 : env_grows (env m) (env m3)) by by eapply env_grows_trans.
    split; [done|]. exists {[rt]}, ∅. split; [done|]. split; [by rewrite difference_empty_L|]. split; [apply empty_subseteq|].
    intros m4 Hok4 Hg4 He4 Hs4. split; [done|]. split; [done|]. apply (tree_edited m m4 T l j); try done.
    + intros p n. rewrite He4. apply R2.
    + rewrite Hs4 by done. etrans; [exact Hs3|]. rewrite Hog, Hshown. do 2 f_equal. change (shown m1 <$> vers g) with (shown m <$> vers g). by rewrite Hsg.
    + intros x Hx. rewrite Hs4 by done. by apply R5.
  - intros x m2 Hx. by apply (tx_fail_trans m m1).
Qed.

(** No file runs out of version numbers. *)
Definition roomy T : Prop := ∀ l o vs, T !! l = Some (NFile o vs) → a_next vs < U64.

Lemma same_place_paths m0 m0' T (from to : Path) i j nd nd' m : fs_ok m → found fs m0 T from i nd m → found fs m0' T to j nd' m →
  bool_decide (j = i) = bool_decide (Path.comps from = Path.comps to).
Proof.
  intros Hok Hi Hj. apply bool_decide_ext. pose proof (o_path _ _ _ _ _ _ _ Hi) as Pi. pose proof (o_path _ _ _ _ _ _ _ Hj) as Pj. split.
  - intros ->. by destruct (path_unique _ _ _ _ _ _ (f_inj _ _ (fs_forest _ _ Hok)) (fs_top _ _ Hok) (fs_top _ _ Hok) Pi Pj) as [_ ->].
  - intros Heq. rewrite Heq in Pi. congruence.
Qed.

Lemma created_lookup T (p : Path) nd T' : a_create false T p nd = Ok T' → T' !! Path.comps p = Some nd.
Proof.
  unfold a_create, a_parent. destruct (Path.parent p) as [q|] eqn:Hq; [|done]. destruct (Path.file_name p) as [n|] eqn:Hn; [|done].
  destruct (comps_parent _ _ _ Hq Hn) as [-> _]. cbn. destruct (a_lookup T q) as [a| |]; [|done..]. cbn. destruct (is_file_node a); [done|].
  destruct (T !! (Path.comps q ++ [n])); [done|]. intros [= <-]. apply lookup_insert_eq.
Qed.
Lemma lookup_Ok T (p : Path) nd : a_lookup T p = Ok nd → T !! Path.comps p = Some nd.
Proof. unfold a_lookup. destruct (Path.has_root p); [|done]. cbn. destruct (T !! Path.comps p); [|done]. by intros [= ->]. Qed.

Abbreviation copy_body i j :=
  (run_all
     (f ← fnode i;
      ctn ← clone_current_content f;
      g ← make_mut j;
      '(result, g) ← add_version (Fs.store fs) ctn g;
      _ ← put_fnode j g;
      lift (rassert (negb (dedup_file (Fs.opts fs) && result))))).

(** Over a file that is there. *)
Lemma copy_onto m m2 T i j (to : Path) o vs o' vs' : env_grows (env m) (env m2) → fs_ok m2 → represents m2 T → roomy T →
  sees m2 i = Some (NFile o vs) → path_to (edges (fnodes m2)) rt (Path.comps to) = Some j → T !! Path.comps to = Some (NFile o' vs') →
  let T' := <[Path.comps to := NFile o' (a_add o' vs' (a_current vs))]> T in
  spec (copy_body i j) m2
    (λ _ m', fs_ok m' ∧ env_grows (env m) (env m') ∧ ∃ T0, Ok T' = Ok T0 ∧ represents m' T0)
    (λ e m', fs_ok m' ∧ env_grows (env m) (env m') ∧ ((represents m' T ∧ Ok T' = Err e) ∨ excused m e)) (λ _, False).
Proof.
  intros G2 Ok2 T2 Hroom Si Pj HTl T'.
  assert (Sj : sees m2 j = Some (NFile o' vs')) by (by rewrite (tree_at fs m2 T _ _ T2 Pj)).
  eapply spec_mono; [apply (copy_tx_does m2 T i j (Path.comps to) o vs o' vs'); try done; by eapply Hroom| | |done].
  - intros _ m3 (Ok3 & G3 & T3). split; [done|]. split; [by eapply env_grows_trans|by eexists].
  - intros e m3 (Ok3 & G3 & Tr3 & Hx). split; [done|]. split; [by eapply env_grows_trans|]. right. by eapply excused_grows.
Qed.

(** To a file that is made for it. *)
Lemma copy_anew m m2 T i (to : Path) l o vs : env_grows (env m) (env m2) → fs_ok m2 → represents m2 T → ro = false → 1 ≤ version_limit o → roomy T →
  path_to (edges (fnodes m2)) rt l = Some i → sees m2 i = Some (NFile o vs) →
  let r := T' ← a_create false T to (NFile o [(1, Some (hash ct_new))]); Ok (<[Path.comps to := NFile o (a_add o [(1, Some (hash ct_new))] (a_current vs))]> T') in
  spec (tgt ← (_ ← Fs.create_fnode fs to File o; tgt ← Fs.open_fnode fs to; mret (Some tgt)); match tgt with None => mret () | Some tgt => copy_body i tgt end) m2
    (λ _ m', fs_ok m' ∧ env_grows (env m) (env m') ∧ ∃ T0, r = Ok T0 ∧ represents m' T0)
    (λ e m', fs_ok m' ∧ env_grows (env m) (env m') ∧ ((represents m' T ∧ r = Err e) ∨ excused m e)) (λ _, False).
Proof.
  intros G2 Ok2 T2 Hro Hlim Hroom Pi Si r. apply spec_bind, spec_bind.
  eapply spec_mono; [by apply (create_fnode_does fs to File o m2 T)| | |done].
  2: { rewrite Hro. intros e m3 (Ok3 & G3 & T3 & Hor). split; [done|]. split; [by eapply env_grows_trans|]. destruct Hor as [He|Hx]; [left|right; by eapply excused_grows].
       split; [done|]. unfold r. unfold FsEdit.leaf in He. by rewrite He. }
  rewrite Hro. intros c m3 (Ok3 & G3 & Hkept & Hpc & T' & HT' & T3). unfold FsEdit.leaf in HT'. unfold r. rewrite HT'. cbn [mbind res_bind].
  pose proof (created_lookup _ _ _ _ HT') as HTl. assert (G23 : env_grows (env m) (env m3)) by by eapply env_grows_trans.
  apply spec_bind. eapply spec_mono; [by apply (resolve_does fs to m3 T')| | |done].
  2: { intros e m4 (Q4 & Ok4 & T4 & Hor). split; [done|]. split; [eapply env_grows_trans; [done|by apply quiet_grows]|]. right.
       destruct Hor as [He|Hns]; [|eapply excused_grows; [exact G23|by left]]. exfalso. unfold a_lookup in He. rewrite HTl in He.
       unfold a_create, a_parent in HT'. destruct (Path.parent to) as [q|] eqn:Hq; [|done]. destruct (Path.file_name to) as [n|] eqn:Hn; [|done].
       destruct (comps_parent _ _ _ Hq Hn) as [_ Hroot]. cbn in HT'. unfold a_lookup in HT'. rewrite Hroot in HT'. by destruct (Path.has_root to). }
  intros j m4 (nd' & [Q4 Ok4 T4 L4 R4 P4 S4 K4]). apply spec_ret. destruct (Hkept _ _ Pi) as [_ Si3].
  assert (G4 : env_grows (env m) (env m4)) by (eapply env_grows_trans; [done|by apply quiet_grows]).
  eapply spec_mono; [apply (copy_onto m m4 T' i j to o vs o [(1, Some (hash ct_new))]); try done| | |done].
  3: by intros ? ? Hq.
  3: { intros e m5 (? & ? & [[_ ?]|?]); [done|]. split; [done|]. split; [done|by right]. }
  - intros l' o' vs' Hl'. destruct (decide (l' = Path.comps to)) as [->|Hne]; [rewrite HTl in Hl'; injection Hl' as <- <-; done|].
    apply (Hroom l' o'). unfold a_create, a_parent in HT'. destruct (Path.parent to) as [q|] eqn:Hq; [|done]. destruct (Path.file_name to) as [n|] eqn:Hn; [|done].
    destruct (comps_parent _ _ _ Hq Hn) as [Hc _]. cbn in HT'. destruct (a_lookup T q) as [a| |]; [|done..]. cbn in HT'. destruct (is_file_node a); [done|].
    destruct (T !! (Path.comps q ++ [n])); [done|]. injection HT' as <-. rewrite lookup_insert_ne in Hl'; [done|congruence].
  - rewrite (quiet_sees m3) by done. by rewrite Si3.
Qed.

Lemma copy_does (from to : Path) m T : fs_ok m → represents m T → roomy T →
  tries (Fs.copy fs from to) m T (a_copy ro (hash ct_new) T from to).
Proof.
  intros Hok HT Hroom. unfold Fs.copy, Fs.guard_rw, a_copy. apply spec_bind. destruct ro eqn:Hro.
  { apply spec_fail. apply (tries_fail m m); [apply quiet_refl|done..]. }
  apply spec_ret, spec_bind. eapply spec_mono; [by apply (resolve_does fs from m T)| | |done].
  2: { intros e m1 Hm. by eapply tries_missed. }
  intros i m1 (nd & Hsrc). pose proof Hsrc as [Q1 Ok1 T1 L1 R1 P1 S1 K1]. rewrite L1. cbn [mbind res_bind].
  destruct (sees_dir _ _ _ S1) as (f & Hf & _ & Hff). apply spec_bind. eapply fnode_spec; [done|]. rewrite Hff.
  destruct nd as [|o vs]; cbn [is_file_node negb]; [apply spec_fail; by apply (tries_fail m m1)|].
  destruct (sees_file _ _ _ _ S1) as (f' & Hf' & Htf & Hof & _). rewrite Hf in Hf'. injection Hf' as <-.
  apply spec_bind, spec_attempt. unfold Fs.open_fnode at 1. eapply spec_mono; [by apply (resolve_does fs to m1 T)| | |done].
  - (* the target is there *)
    intros j m2 (nd' & Htgt). pose proof Htgt as [Q2 Ok2 T2 L2 R2 P2 S2 K2]. rewrite L2. pose proof (quiet_trans _ _ _ Q1 Q2) as Q12.
    assert (Hsrc2 : found fs m T from i (NFile o vs) m2).
    { split; try done; [by rewrite (quiet_path m1)|by rewrite (quiet_sees m1)|by apply (knows_parent_quiet m1)]. }
    rewrite (same_place_paths _ _ _ _ _ _ _ _ _ _ Ok2 Hsrc2 Htgt). destruct (sees_dir _ _ _ S2) as (g & Hg & _ & Hgf). destruct nd' as [|o' vs'].
    + rewrite bool_decide_eq_false_2; [|intros Heq; apply lookup_Ok in L1, L2; rewrite Heq in L1; congruence].
      apply spec_bind, spec_bind. eapply fnode_spec; [done|]. rewrite Hgf. apply spec_fail. by apply (tries_fail m m2).
    + case_bool_decide as Heq; apply spec_bind.
      { apply spec_ret, spec_ret. split; [done|]. split; [by apply quiet_grows|by exists T]. }
      apply spec_bind. eapply fnode_spec; [done|]. rewrite Hgf. apply spec_ret. apply (copy_onto m m2 T i j to o vs o' vs'); try done; [by apply quiet_grows|by apply Hsrc2|by apply lookup_Ok].
  - (* it is made *)
    intros e m2 (Q2 & Ok2 & T2 & Hor). pose proof (quiet_trans _ _ _ Q1 Q2) as Q12.
    destruct (decide (e = NotFound)) as [->|He].
    2: { assert (A3 : (represents m2 T ∧ a_lookup T to = Err e) ∨ excused m e) by (destruct Hor as [?|Hns]; [by left|right; left; by apply (quiet_steady m m1)]).
         destruct e; try done; apply spec_bind, spec_fail; (split; [done|]; split; [by apply quiet_grows|]; destruct A3 as [[? ->]|?]; [by left|by right]). }
    destruct Hor as [Hlk|[_ [? _]]]; [|done]. rewrite Hlk. unfold get_opts. rewrite Hof.
    assert (Hlim : 1 ≤ version_limit o) by (destruct (tx_file _ _ _ _ _ (proj1 Ok1) Hf Htf) as [Hv _]; [apply not_elem_of_empty|rewrite <- Hof; apply Hv]).
    apply (copy_anew m m2 T i to (Path.comps from) o vs); try done; [by apply quiet_grows|by rewrite (quiet_path m1)|by rewrite (quiet_sees m1)].
Qed.
End files.
