(* ===== verification/FsDirs.v ===== *)
(** * Whole trees of directories: [create_dir_all] and [remove_dir_all] of src/fs/fs.rs end, and do what they should. *)
From stdpp Require Import strings.
From S2P Require Import Prelude Run Base Segment Fnode Fs FsTree FsInv FsForest FsCont FsTx FsTreeSpec FsEdit FsOps FsFiles.
Import Mem Fnode FileType(FileType, File, Dir).

(** ** Reading the tree: [metadata], [history] and [read_dir] of src/fs/fs.rs. *)

Section read.
Context {C K G Hash E SN FC : Type} `{!EqDecision Hash, !Countable Hash, !Env E, !EnvLaws E, !ContentLayer C K G Hash, !ContentLaws C K G Hash}.
Context `{!LinkedMapOps string Eid SN, !LinkedMap string Eid SN, !LinkedMapOps Eid Eid FC, !LinkedMap Eid Eid FC}.
Abbreviation Fn := (Fnode.Fnode K SN).
Abbreviation Mem := (Mem.Mem C K G Hash E SN FC).
Implicit Types (f g : Fn) (m : Mem) (i j p : Eid) (n : string) (l : list string) (T : FsTreeSpec.Tree Hash).
Context (fs : Fs.Fs).
Abbreviation rt := (Fs.root fs).
Abbreviation fs_ok := (FsTx.fs_ok fs).
Abbreviation represents := (FsOps.represents fs).

(** What the metadata says of a node. *)
Definition describes (md : Metadata.Metadata) (nd : Node Hash) : Prop :=
  Metadata.ftype md = (if is_file_node nd then File else Dir) ∧
  Metadata.curr_version md = match nd with NDir => 0 | NFile _ vs => a_next vs - 1 end.

(** A call that only reads: what it returns is told by the tree. *)
Definition reads {A B} (op : run Mem A) m T (r : res B) (R : A → B → Prop) : Prop :=
  spec op m
    (λ a m', fs_ok m' ∧ quiet m m' ∧ represents m' T ∧ ∃ b, r = Ok b ∧ R a b)
    (λ e m', fs_ok m' ∧ quiet m m' ∧ represents m' T ∧ (r = Err e ∨ faulty m e))
    (λ _, False).

Lemma metadata_ok m i f nd : fs_ok m → fnodes m !! i = Some f → sees m i = Some nd → ∃ md, Fnode.metadata f = Ok md ∧ describes md nd.
Proof.
  intros [[Hb _] _] Hf Hs. unfold sees in Hs. rewrite Hf in Hs. injection Hs as <-. unfold Fnode.metadata, curr_len, view, describes.
  destruct (ftype f) eqn:Ht.
  - destruct (t_files _ _ _ _ Hb i f Hf Ht) as [Hv Hne]; [apply not_elem_of_empty|].
    unfold curr_ver_num, curr_ver. destruct (last (vers f)) as [v|] eqn:Hl; [|by apply last_None in Hl].
    destruct (vers f) as [|w vs] eqn:Hvs; [done|]. rewrite <- Hvs in *. cbn. eexists. split; [done|]. cbn. split; [done|].
    unfold a_next. rewrite fmap_last, Hl. cbn. lia.
  - pose proof (f_dir _ _ (t_forest _ _ _ _ Hb) i f Hf Ht) as Hv. unfold curr_ver_num. rewrite Hv. cbn. eexists. split; [done|]. done.
Qed.

Lemma missed_reads {B} m T (r : res (Node Hash)) (k : Node Hash → res B) (e : Error) m' : missed fs m T r e m' →
  fs_ok m' ∧ quiet m m' ∧ represents m' T ∧ ((r ≫= k) = Err e ∨ faulty m e).
Proof. intros (Hq & Hok & HT & Hor). do 3 (split; [done|]). destruct Hor as [->|?]; [by left|by right]. Qed.

Lemma metadata_reads (p : Path) m T : fs_ok m → represents m T → reads (Fs.metadata fs p) m T (a_lookup T p) describes.
Proof.
  intros Hok HT. unfold Fs.metadata. apply spec_bind. eapply spec_mono; [by apply (resolve_does fs p m T)| | |done].
  2: { intros e m1 (Hq & Hok1 & HT1 & Hor). done. }
  intros i m1 (nd & Hfound). pose proof Hfound as [O1 O2 O3 O4 O5 O6 O7 O8]. destruct (sees_dir _ _ _ O7) as (f & Hf & _ & _).
  apply spec_bind. eapply fnode_spec; [done|]. destruct (metadata_ok _ _ _ _ O2 Hf O7) as (md & Hmd & Hd). rewrite Hmd. apply spec_lift_ok.
  do 3 (split; [done|]). by exists nd.
Qed.

(** The history of a file: its versions. *)
Definition a_history T (p : Path) : res (list (Z * option Hash)) := nd ← a_lookup T p; match nd with NDir => Err IsDir | NFile _ vs => Ok vs end.
Lemma history_reads (p : Path) m T : fs_ok m → represents m T → reads (Fs.history fs p) m T (a_history T p) (λ vs sh, shown m <$> vs = sh).
Proof.
  intros Hok HT. unfold Fs.history, a_history. apply spec_bind. eapply spec_mono; [by apply (resolve_does fs p m T)| | |done].
  2: { intros e m1 Hm. by eapply missed_reads. }
  intros i m1 (nd & Hfound). pose proof Hfound as [O1 O2 O3 O4 O5 O6 O7 O8]. rewrite O4. cbn [mbind res_bind].
  destruct (sees_dir _ _ _ O7) as (f & Hf & Hfd & _). apply spec_bind. eapply fnode_spec; [done|]. rewrite Hfd.
  destruct nd as [|o vs]; cbn [is_file_node negb].
  - apply spec_fail. do 3 (split; [done|]). by left.
  - apply spec_ret. do 3 (split; [done|]). exists vs. split; [done|]. destruct (sees_file _ _ _ _ O7) as (f' & Hf' & _ & _ & Hsf). rewrite Hf in Hf'. injection Hf' as <-.
    rewrite <- Hsf. apply list_fmap_ext. intros k v _. unfold shown. by rewrite (q_contents _ _ O1).
Qed.

(** ** Directories *)

Lemma load_children_reads p l names f m T : fs_ok m → represents m T → path_to (edges (fnodes m)) rt l = Some p → fnodes m !! p = Some f →
  (∀ n, n ∈ names → n ∈ ChildEntry.name <$> kids f) →
  spec (load_children p names) m
    (λ r m', fs_ok m' ∧ quiet m m' ∧ represents m' T ∧ r.*1 = names ∧ Forall (λ nm, ∃ nd, T !! (l ++ [nm.1]) = Some nd ∧ describes nm.2 nd) r)
    (λ e m', fs_ok m' ∧ quiet m m' ∧ represents m' T ∧ faulty m e) (λ _, False).
Proof.
  revert f m. induction names as [|n names IH]; intros f m Hok HT Hl Hf Hn; cbn [load_children].
  { apply spec_ret. split; [done|]. split; [apply quiet_refl|]. by repeat split. }
  assert (Hin : n ∈ ChildEntry.name <$> kids f) by (apply Hn; by left).
  apply spec_bind. eapply spec_mono; [by apply (load_child_spec p n f m {[rt]}); [apply fs_shape|]| | |done].
  2: { intros e m1 (Hq & Hsh & [[-> He]|Hx]); [by apply (edges_none_not_in _ _ _ _ Hf) in He|].
       split; [by apply (fs_ok_quiet fs m)|]. split; [done|]. split; [by apply (quiet_represents fs m)|done]. }
  intros i m1 (He & Hq & Hsh & _). pose proof (fs_ok_quiet fs m m1 Hok Hq Hsh) as Hok1. pose proof (quiet_represents fs m m1 T Hq HT) as HT1.
  assert (Hp : path_to (edges (fnodes m1)) rt (l ++ [n]) = Some i) by (rewrite (quiet_path m), path_snoc, Hl by done; exact He).
  destruct (path_dom fs m1 _ _ Hok1 Hp) as [g Hg]. assert (Hsee : ∃ nd, sees m1 i = Some nd) by (unfold sees; rewrite Hg; by eexists). destruct Hsee as [nd Hsee].
  apply spec_bind. eapply fnode_spec; [done|]. destruct (metadata_ok _ _ _ _ Hok1 Hg Hsee) as (md & Hmd & Hd). rewrite Hmd.
  apply spec_bind, spec_lift_ok, spec_bind.
  destruct (same_cores_lookup _ _ _ _ (same_cores_sym _ _ (q_cores _ _ Hq)) Hf) as (f1 & Hf1 & Hcore). apply core_kids in Hcore as (Hk & _).
  eapply spec_mono; [apply (IH f1 m1 Hok1 HT1)| | |done].
  - by rewrite (quiet_path m).
  - done.
  - intros x Hx. rewrite Hk. apply Hn. by right.
  - intros r m2 (Hok2 & Hq2 & HT2 & Hr & Hall). apply spec_ret. split; [done|]. split; [by eapply quiet_trans|]. split; [done|].
    split; [by rewrite fmap_cons, Hr|]. constructor; [|done]. exists nd. split; [|done]. cbn [fst]. by rewrite <- (tree_at fs m1 T _ _ HT1 Hp).
  - intros e m2 (Hok2 & Hq2 & HT2 & Hx). split; [done|]. split; [by eapply quiet_trans|]. split; [done|]. by eapply quiet_steady.
Qed.

(** The entries: every child of the directory once, with its name, its path and its metadata. *)
Definition listed T (p : Path) (entries : list (DirEntry.DirEntry Path)) : Prop :=
  NoDup (DirEntry.name <$> entries) ∧ (∀ n, n ∈ (DirEntry.name <$> entries) ↔ is_Some (T !! (Path.comps p ++ [n]))) ∧
  Forall (λ d, DirEntry.path d = Path.join p (DirEntry.name d) ∧
    ∃ nd, T !! (Path.comps p ++ [DirEntry.name d]) = Some nd ∧ describes (DirEntry.metadata d) nd) entries.
Definition a_dir T (p : Path) : res () := nd ← a_lookup T p; if is_file_node nd then Err NotDir else Ok ().

Lemma read_dir_reads (p : Path) m T : fs_ok m → represents m T → reads (Fs.read_dir fs p) m T (a_dir T p) (λ entries _, listed T p entries).
Proof.
  intros Hok HT. unfold Fs.read_dir, a_dir. apply spec_bind. eapply spec_mono; [by apply (resolve_does fs p m T)| | |done].
  2: { intros e m1 Hm. by eapply missed_reads. }
  intros i m1 (nd & Hfound). pose proof Hfound as [O1 O2 O3 O4 O5 O6 O7 O8]. rewrite O4. cbn [mbind res_bind].
  destruct (sees_dir _ _ _ O7) as (f & Hf & Hfd & _). apply spec_bind. unfold Fnode.read_dir. apply spec_bind. eapply fnode_spec; [done|]. rewrite Hfd, negb_involutive.
  destruct (is_file_node nd); [apply spec_fail; do 3 (split; [done|]); by left|].
  eapply spec_mono; [apply (load_children_reads i (Path.comps p) (children_names f) f m1 T O2 O3 O6 Hf); by intros n Hn| | |done].
  2: { intros e m2 (Hok2 & Hq2 & HT2 & Hx). split; [done|]. split; [by eapply quiet_trans|]. split; [done|]. right. by eapply quiet_steady. }
  intros r m2 (Hok2 & Hq2 & HT2 & Hr & Hall). apply spec_ret. split; [done|]. split; [by eapply quiet_trans|]. split; [done|]. exists (). split; [done|].
  assert (Hnames : DirEntry.name <$> ((λ nm : string * Metadata.Metadata, DirEntry.mkEntry (Path.join p nm.1) nm.1 nm.2) <$> r) = ChildEntry.name <$> kids f).
  { rewrite <- list_fmap_compose. etrans; [|exact Hr]. apply list_fmap_ext. done. }
  split; [|split].
  - rewrite Hnames. eapply (f_names (fnodes m1)); [by apply (fs_forest fs)|done].
  - intros n. rewrite Hnames. split.
    + intros Hn. destruct (T !! (Path.comps p ++ [n])) eqn:HTn; [by eexists|]. apply (tree_none fs m1 T _ O2 O3) in HTn.
      rewrite path_snoc, O6 in HTn. by apply (edges_none_not_in _ _ _ _ Hf) in HTn.
    + intros [nd' Hnd']. destruct (edges (fnodes m1) i n) as [j|] eqn:He.
      * rewrite (edges_at _ _ _ _ Hf) in He. apply fmap_Some in He as (k & (Hk & <-)%kid_named_Some & _). by apply list_elem_of_fmap_2.
      * assert (HTn : T !! (Path.comps p ++ [n]) = None) by (apply (tree_none fs m1 T _ O2 O3); by rewrite path_snoc, O6). congruence.
  - apply Forall_fmap. eapply Forall_impl; [exact Hall|]. intros nm (nd' & ? & ?). split; [done|]. by exists nd'.
Qed.
End read.

(** ** Trees without what is at or below some children of a directory *)

Section prune.
Context {Hash : Type}.
Implicit Types (T : FsTreeSpec.Tree Hash) (l : list string) (n : string) (names : list string) (p : Path).

Definition cut l names l' : bool := existsb (λ n, prefixed (l ++ [n]) l') names.
Definition pruned T l names : FsTreeSpec.Tree Hash := filter (λ kv : list string * Node Hash, cut l names kv.1 = false) T.

Lemma prefixed_true l l' : prefixed l l' = true ↔ l `prefix_of` l'.
Proof. apply bool_decide_eq_true. Qed.
Lemma cut_true l names l' : cut l names l' = true ↔ ∃ n, n ∈ names ∧ (l ++ [n]) `prefix_of` l'.
Proof. unfold cut. rewrite existsb_exists. setoid_rewrite prefixed_true. by setoid_rewrite list_elem_of_In. Qed.
Lemma cut_snoc l names n l' : cut l (names ++ [n]) l' = cut l names l' || prefixed (l ++ [n]) l'.
Proof. unfold cut. rewrite existsb_app. cbn. by rewrite orb_false_r. Qed.
Lemma cut_child l names n : (n ∉ names) → cut l names (l ++ [n]) = false.
Proof.
  intros Hn. destruct (cut _ _ _) eqn:Hc; [|done]. apply cut_true in Hc as (n' & Hn' & [b Hb]). rewrite <- app_assoc in Hb. apply app_inv_head in Hb.
  injection Hb as <-. done.
Qed.
Lemma cut_self l names : cut l names l = false.
Proof.
  destruct (cut _ _ _) eqn:Hc; [|done]. apply cut_true in Hc as (n' & _ & [b Hb]). rewrite <- app_assoc, <- (app_nil_r l) in Hb at 1. by apply app_inv_head in Hb.
Qed.
Lemma pruned_lookup T l names l' : pruned T l names !! l' = if cut l names l' then None else T !! l'.
Proof.
  unfold pruned. destruct (cut l names l') eqn:Hc.
  - apply map_lookup_filter_None. right. intros nd _. cbn. by rewrite Hc.
  - destruct (T !! l') eqn:Hl; [by apply map_lookup_filter_Some|apply map_lookup_filter_None; by left].
Qed.
Lemma pruned_nil T l : pruned T l [] = T.
Proof. apply map_eq. intros l'. by rewrite pruned_lookup. Qed.

(** A file more, or a directory with all that is below it. *)
Lemma pruned_file T l names n o vs : closed T → T !! (l ++ [n]) = Some (NFile o vs) → delete (l ++ [n]) (pruned T l names) = pruned T l (names ++ [n]).
Proof.
  intros Hcl Hn. apply map_eq. intros l'. rewrite pruned_lookup, cut_snoc. destruct (decide (l' = l ++ [n])) as [->|Hne].
  - rewrite lookup_delete_eq. unfold prefixed. by rewrite bool_decide_eq_true_2, orb_true_r.
  - rewrite lookup_delete_ne, pruned_lookup by done. destruct (cut l names l'); [done|]. cbn. destruct (prefixed (l ++ [n]) l') eqn:Hp; [|done].
    apply prefixed_true in Hp. destruct (T !! l') eqn:Hl; [|done]. rewrite (closed_above _ _ _ _ Hcl Hl Hp) in Hn by done. done.
Qed.
Lemma removed_all_lookup T l l' : removed_all T l !! l' = if decide (l' = []) then T !! l' else if prefixed l l' then None else T !! l'.
Proof.
  unfold removed_all. destruct (decide (l' = [])) as [->|Hne]; [|destruct (prefixed l l') eqn:Hp].
  - destruct (T !! []) eqn:Hl; [by apply map_lookup_filter_Some|apply map_lookup_filter_None; by left].
  - apply map_lookup_filter_None. right. intros nd _. cbn. rewrite Hp, (bool_decide_eq_false_2 (l' = [])) by done. done.
  - destruct (T !! l') eqn:Hl; [apply map_lookup_filter_Some; split; [done|]; cbn; rewrite Hp; by rewrite orb_true_r|apply map_lookup_filter_None; by left].
Qed.
Lemma pruned_dir T l names n : removed_all (pruned T l names) (l ++ [n]) = pruned T l (names ++ [n]).
Proof.
  apply map_eq. intros l'. rewrite removed_all_lookup, !pruned_lookup, cut_snoc. destruct (cut l names l'); cbn; [by repeat case_match|].
  case_decide as Hl; [|done]. subst l'. destruct (prefixed (l ++ [n]) []) eqn:Hp; [|done]. apply prefixed_true in Hp as [b Hb]. by destruct l.
Qed.

(** When all children have gone, the directory goes or is the root. *)
Lemma pruned_all T l names : closed T → (∀ n, n ∈ names ↔ is_Some (T !! (l ++ [n]))) →
  (if decide (l = []) then pruned T l names else delete l (pruned T l names)) = removed_all T l.
Proof.
  intros Hcl Hn. apply map_eq. intros l'. rewrite removed_all_lookup.
  destruct (T !! l') as [nd|] eqn:Hl'.
  2: { transitivity (@None (Node Hash)); [|by repeat case_match]. case_decide; [|destruct (decide (l' = l)) as [->|]; [by rewrite lookup_delete_eq|rewrite lookup_delete_ne by done]];
       rewrite pruned_lookup, Hl'; by case_match. }
  destruct (decide (l' = l)) as [->|Hne].
  { unfold prefixed. rewrite (bool_decide_eq_true_2 (l `prefix_of` l)) by done. case_decide; [by rewrite pruned_lookup, cut_self|by rewrite lookup_delete_eq]. }
  assert (Hall : prefixed l l' = cut l names l').
  { destruct (cut l names l') eqn:Hc.
    - apply cut_true in Hc as (n & _ & Hp). apply prefixed_true. etrans; [|done]. by apply prefix_app_r.
    - apply not_true_is_false. intros [[|n b] Hb]%prefixed_true; [by rewrite app_nil_r in Hb|]. apply not_true_iff_false in Hc. apply Hc, cut_true.
      exists n. assert (Hp : (l ++ [n]) `prefix_of` l') by (exists b; by rewrite Hb, <- app_assoc). split; [|done]. apply Hn.
      destruct (decide (l ++ [n] = l')) as [->|Hx]; [by eexists|]. eexists. by apply (closed_above T l' _ nd). }
  rewrite Hall. transitivity (if cut l names l' then None else Some nd).
  - case_decide; [|rewrite lookup_delete_ne by done]; by rewrite pruned_lookup, Hl'.
  - case_decide as Hr; [|done]. subst l'. rewrite <- Hall. destruct (prefixed l []) eqn:Hp; [|done]. apply prefixed_true in Hp as [b Hb]. by destruct l.
Qed.
Lemma pruned_closed T l names : closed T → closed (pruned T l names).
Proof.
  intros Hcl l' n nd. rewrite !pruned_lookup. destruct (cut l names (l' ++ [n])) eqn:Hc; [done|]. intros Hl. rewrite (Hcl _ _ _ Hl).
  destruct (cut l names l') eqn:Hc'; [|done]. apply cut_true in Hc' as (x & Hx & Hp). apply not_true_iff_false in Hc. destruct Hc. apply cut_true. exists x.
  split; [done|]. by apply prefix_app_r.
Qed.
End prune.

Section dirs.
Context {C K G Hash E SN FC : Type} `{!EqDecision Hash, !Countable Hash, !Env E, !EnvLaws E, !ContentLayer C K G Hash, !ContentLaws C K G Hash}.
Context `{!LinkedMapOps string Eid SN, !LinkedMap string Eid SN, !LinkedMapOps Eid Eid FC, !LinkedMap Eid Eid FC}.
Abbreviation Fn := (Fnode.Fnode K SN).
Abbreviation Mem := (Mem.Mem C K G Hash E SN FC).
Implicit Types (f g : Fn) (m : Mem) (i j p : Eid) (n : string) (l : list string) (T : FsTreeSpec.Tree Hash).
Context (fs : Fs.Fs).
Abbreviation rt := (Fs.root fs).
Abbreviation ro := (Fs.read_only fs).
Abbreviation fs_ok := (FsTx.fs_ok fs).
Abbreviation represents := (FsOps.represents fs).
Abbreviation tries := (FsFiles.tries fs).

Lemma represents_closed m T : fs_ok m → represents m T → closed T ∧ T !! [] = Some NDir.
Proof.
  intros Hok Ht. split.
  - intros l n nd Hl. rewrite <- (Ht (l ++ [n])) in Hl. unfold tree in Hl. rewrite path_snoc in Hl.
    destruct (path_to (edges (fnodes m)) rt l) as [p|] eqn:Hp; [|done]. cbn in Hl. destruct (edges (fnodes m) p n) as [j|] eqn:He; [|done].
    rewrite <- (tree_at fs m T l p Ht Hp). destruct (edges_kid _ _ _ _ He) as (f & c & Hf & Hc & _). unfold sees. rewrite Hf. cbn. unfold view.
    destruct (ftype f) eqn:Hty; [|done]. rewrite (f_file _ _ (fs_forest fs m Hok) _ _ Hf Hty) in Hc. by apply not_elem_of_nil in Hc.
  - rewrite <- (Ht []). unfold tree. cbn. by apply (root_dir fs m).
Qed.

(** A failure for a cause of its own. *)
Lemma tries_excused m m1 T (e : Error) (r : res (FsTreeSpec.Tree Hash)) : fs_ok m1 → env_grows (env m) (env m1) → excused m e →
  fs_ok m1 ∧ env_grows (env m) (env m1) ∧ ((represents m1 T ∧ r = Err e) ∨ excused m e).
Proof. intros ? ? ?. split; [done|]. split; [done|by right]. Qed.

(** ** [create_dir_all] *)

Lemma create_dir_does (p : Path) m T : fs_ok m → represents m T →
  spec (Fs.create_fnode fs p Dir default_options) m
    (λ _ m', fs_ok m' ∧ env_grows (env m) (env m') ∧ ∃ T', a_create ro T p NDir = Ok T' ∧ represents m' T')
    (λ e m', fs_ok m' ∧ env_grows (env m) (env m') ∧ ((represents m' T ∧ a_create ro T p NDir = Err e) ∨ excused m e)) (λ _, False).
Proof.
  intros Hok Ht. eapply spec_mono; [by apply (create_fnode_does fs p Dir default_options m T)| | |done].
  - intros c m' (Hok' & Hg & _ & _ & HT'). done.
  - intros e m' (Hok' & Hg & Ht' & [He|He]); (split; [done|]; split; [done|]); [by left|by right].
Qed.

Lemma create_dir_all_does fuel (p : Path) m T : (length (Path.comps p) < fuel)%nat → fs_ok m → represents m T →
  tries (Fs.create_dir_all fs fuel p) m T (a_mkdirs fuel ro T p).
Proof.
  revert p m T. induction fuel as [|fuel IH]; intros p m T Hfuel Hok Ht; [lia|]. cbn [Fs.create_dir_all a_mkdirs].
  apply spec_bind, spec_attempt. eapply spec_mono; [by apply create_dir_does| | |done].
  - intros _ m1 (Hok1 & Hg1 & T1 & -> & Ht1). apply spec_ret. split; [done|]. split; [done|]. by exists T1.
  - intros e m1 (Hok1 & Hg1 & [[Ht1 Hcr]|Hx]).
    2: { pose proof (excused_found _ _ Hx). destruct e; try done; apply spec_fail; by apply tries_excused. }
    rewrite Hcr. destruct (decide (e = NotFound)) as [->|He]; [|destruct e; try done; apply spec_fail; (split; [done|]; split; [done|by left])].
    destruct (create_missing _ _ _ _ Hcr) as (l & n & q & Hq & Hcq & Hcp & _). rewrite Hq. apply spec_bind.
    eapply spec_mono; [apply (IH q m1 T); [rewrite Hcp, length_app in Hfuel; cbn in Hfuel; rewrite Hcq; lia|done..]| | |done].
    + intros _ m2 (Hok2 & Hg2 & T1 & Hmk & Ht2). rewrite Hmk. cbn [mbind res_bind]. pose proof (env_grows_trans _ _ _ Hg1 Hg2) as Hg.
      destruct (mkdirs_last fuel ro T p q T1 (proj1 (represents_closed m T Hok Ht)) Hcr Hq Hmk) as [T2 HT2]. rewrite HT2.
      apply spec_bind. eapply spec_mono; [by apply (create_dir_does p m2 T1)| | |done].
      * intros _ m3 (Hok3 & Hg3 & T3 & HT3 & Ht3). apply spec_ret. split; [done|]. split; [by eapply env_grows_trans|]. exists T3. split; [congruence|done].
      * intros e m3 (Hok3 & Hg3 & [[_ ?]|Hx]); [congruence|]. apply tries_excused; [done|by eapply env_grows_trans|by eapply excused_grows].
    + intros e m2 (Hok2 & Hg2 & [[Ht2 Hmk]|Hx]); (split; [done|]; split; [by eapply env_grows_trans|]); [left; by rewrite Hmk|right; by eapply excused_grows].
Qed.

(** ** [remove_dir_all] *)

(** How deep the tree goes below [l]. *)
Definition shallow T l (fuel : nat) : Prop := ∀ l', is_Some (T !! l') → l `prefix_of` l' → (length l' < length l + fuel)%nat.
Lemma shallow_down T l names n fuel : shallow T l (S fuel) → shallow (pruned T l names) (l ++ [n]) fuel.
Proof.
  intros Hs l' Hl' Hp. assert (H1 : (length l' < length l + S fuel)%nat).
  { apply Hs; [|etrans; [|done]; by apply prefix_app_r]. rewrite pruned_lookup in Hl'. by destruct (cut l names l'), Hl'. }
  rewrite length_app. cbn. lia.
Qed.

(** What the loop has done after the children [done]. *)
Definition emptied m T (p : Path) (done : list string) m' : Prop :=
  fs_ok m' ∧ env_grows (env m) (env m') ∧ represents m' (pruned T (Path.comps p) done) ∧ (done ≠ [] → ro = false).
Definition remove_child fuel (child : DirEntry.DirEntry Path) : run Mem () :=
  match Metadata.ftype (DirEntry.metadata child) with
  | File => Fs.remove_file fs (DirEntry.path child)
  | Dir => Fs.remove_dir_all fs fuel (DirEntry.path child)
  end.

Lemma emptied_ro m T (p : Path) pre m' : emptied m T p pre m' → ro = true → represents m' T.
Proof. intros (_ & _ & Ht & Hro) Hr. destruct pre; [by rewrite pruned_nil in Ht|]. rewrite Hro in Hr; done. Qed.

Lemma remove_child_does fuel (p : Path) m T child pre m1 :
  (∀ (p : Path) m T, is_Some (T !! Path.comps p) → shallow T (Path.comps p) fuel → fs_ok m → represents m T → tries (Fs.remove_dir_all fs fuel p) m T (a_remove_all ro T p)) →
  closed T → shallow T (Path.comps p) (S fuel) → Path.has_root p = true →
  (DirEntry.name child ∉ pre) → DirEntry.path child = Path.join p (DirEntry.name child) →
  (∃ nd, T !! (Path.comps p ++ [DirEntry.name child]) = Some nd ∧ describes (DirEntry.metadata child) nd) →
  emptied m T p pre m1 →
  spec (remove_child fuel child) m1 (λ _, emptied m T p (pre ++ [DirEntry.name child]))
    (λ e m', fs_ok m' ∧ env_grows (env m) (env m') ∧ ((represents m' T ∧ ro = true ∧ e = ReadOnly) ∨ excused m e)) (λ _, False).
Proof.
  intros IH Hcl Hsh Hr Hn Hpath (nd & Hnd & Hty & _) Hem. pose proof Hem as (Hok & Hg & Ht & Hro). unfold remove_child. rewrite Hty, Hpath.
  set (n := DirEntry.name child) in *. set (T1 := pruned T (Path.comps p) pre) in *.
  assert (Hlk : a_lookup T1 (Path.join p n) = Ok nd).
  { unfold a_lookup. cbn [Path.has_root Path.join Path.comps]. rewrite Hr. cbn. unfold T1. by rewrite pruned_lookup, cut_child, Hnd. }
  destruct nd as [|o vs]; cbn [is_file_node].
  - eapply spec_mono; [apply (IH (Path.join p n) m1 T1); [cbn [Path.join Path.comps]; unfold T1; rewrite pruned_lookup, cut_child, Hnd by done; by eexists|by apply shallow_down|done..]| | |done].
    + intros _ m2 (Hok2 & Hg2 & T2 & HT2 & Ht2). unfold a_remove_all in HT2. rewrite Hlk in HT2. cbn [mbind res_bind is_file_node] in HT2.
      destruct ro eqn:Er; [done|]. injection HT2 as <-. split; [done|]. split; [by eapply env_grows_trans|]. split; [|done]. by rewrite <- pruned_dir.
    + intros e m2 (Hok2 & Hg2 & Hor). split; [done|]. split; [by eapply env_grows_trans|]. destruct Hor as [[Ht2 He]|Hx]; [left|right; by eapply excused_grows].
      unfold a_remove_all in He. rewrite Hlk in He. cbn [mbind res_bind is_file_node] in He. destruct ro eqn:Er; [|done]. injection He as <-. split; [|done].
      unfold T1 in Ht2. destruct pre; [by rewrite pruned_nil in Ht2|by specialize (Hro ltac:(done))].
  - eapply spec_mono; [by apply (remove_file_does fs (Path.join p n) m1 T1)| | |done].
    + intros _ m2 (Hok2 & Hg2 & T2 & HT2 & Ht2). unfold a_remove_file in HT2. destruct ro eqn:Er; [done|]. rewrite Hlk in HT2. cbn [mbind res_bind is_file_node] in HT2.
      injection HT2 as <-. split; [done|]. split; [by eapply env_grows_trans|]. split; [|done]. by rewrite <- (pruned_file _ _ _ _ o vs).
    + intros e m2 (Hok2 & Hg2 & Ht2 & Hor). split; [done|]. split; [by eapply env_grows_trans|]. destruct Hor as [He|Hx]; [left|right; by eapply excused_grows].
      unfold a_remove_file in He. rewrite Hlk in He. cbn [mbind res_bind is_file_node] in He. destruct ro eqn:Er; [|done]. injection He as <-. split; [|done].
      unfold T1 in Ht2. destruct pre; [by rewrite pruned_nil in Ht2|by specialize (Hro ltac:(done))].
Qed.

(** The directory itself, once it is empty. *)
Lemma remove_emptied (p : Path) m T names m1 : closed T → a_lookup T p = Ok NDir → (∀ n, n ∈ names ↔ is_Some (T !! (Path.comps p ++ [n]))) →
  emptied m T p names m1 →
  spec (r ← attempt (Fs.remove_dir fs p); match r with Ok _ => mret () | Err IsRoot => mret () | Err e => fail e | Panic => lift Panic end) m1
    (λ _ m', fs_ok m' ∧ env_grows (env m) (env m') ∧ ∃ T', a_remove_all ro T p = Ok T' ∧ represents m' T')
    (λ e m', fs_ok m' ∧ env_grows (env m) (env m') ∧ ((represents m' T ∧ a_remove_all ro T p = Err e) ∨ excused m e)) (λ _, False).
Proof.
  intros Hcl Hlk Hn Hem. pose proof Hem as (Hok & Hg & Ht & Hro). pose proof (pruned_all T (Path.comps p) names Hcl Hn) as Hall.
  assert (Hlk1 : a_lookup (pruned T (Path.comps p) names) p = Ok NDir) by (revert Hlk; unfold a_lookup; by rewrite pruned_lookup, cut_self).
  assert (Hempty : a_empty (pruned T (Path.comps p) names) (Path.comps p) = true).
  { apply a_empty_true. intros n. rewrite pruned_lookup. destruct (cut _ _ _) eqn:Hc; [done|]. destruct (T !! (Path.comps p ++ [n])) eqn:Hx; [|done].
    apply not_true_iff_false in Hc. destruct Hc. apply cut_true. exists n. split; [|done]. apply Hn. by eexists. }
  unfold a_remove_all. rewrite Hlk. cbn [mbind res_bind is_file_node].
  apply spec_bind, spec_attempt. eapply spec_mono; [by apply (remove_dir_does fs p m1 (pruned T (Path.comps p) names))| | |done].
  - intros _ m2 (Hok2 & Hg2 & T2 & HT2 & Ht2). unfold a_remove_dir in HT2. destruct ro eqn:Er; [done|]. rewrite Hlk1 in HT2. cbn [mbind res_bind is_file_node] in HT2.
    apply spec_ret. split; [done|]. split; [by eapply env_grows_trans|]. eexists. split; [done|]. case_bool_decide as Hroot; [done|]. rewrite Hempty in HT2. injection HT2 as <-.
    by rewrite <- Hall, decide_False.
  - intros e m2 (Hok2 & Hg2 & Ht2 & Hor). pose proof (env_grows_trans _ _ _ Hg Hg2) as Hg12. destruct Hor as [He|Hx].
    + unfold a_remove_dir in He. destruct ro eqn:Er.
      * injection He as <-. apply spec_fail. split; [done|]. split; [done|]. left. split; [|done]. destruct names; [by rewrite pruned_nil in Ht2|by specialize (Hro ltac:(done))].
      * rewrite Hlk1 in He. cbn [mbind res_bind is_file_node] in He. case_bool_decide as Hroot; [|by rewrite Hempty in He]. injection He as <-. apply spec_ret.
        split; [done|]. split; [done|]. eexists. split; [done|]. by rewrite <- Hall, decide_True.
    + assert (Hx' : excused m e) by (apply (excused_grows m m1); done). destruct (excused_outside _ _ Hx') as [? ?]. destruct e; try done; apply spec_fail; by apply tries_excused.
Qed.

Lemma remove_dir_all_does fuel (p : Path) m T : (0 < fuel)%nat → shallow T (Path.comps p) fuel → fs_ok m → represents m T →
  tries (Fs.remove_dir_all fs fuel p) m T (a_remove_all ro T p).
Proof.
  revert p m T. induction fuel as [|fuel IH]; intros p m T Hpos Hsh Hok Ht; [lia|]. cbn [Fs.remove_dir_all].
  pose proof (represents_closed m T Hok Ht) as [Hcl _].
  apply spec_bind. eapply spec_mono; [by apply (read_dir_reads fs p m T)| | |done].
  2: { intros e m1 (Hok1 & Hq & Ht1 & Hor). split; [done|]. split; [by apply quiet_grows|]. destruct Hor as [He|Hf]; [left; split; [done|]|right; by left].
       revert He. unfold a_dir, a_remove_all. destruct (a_lookup T p) as [nd|e'|]; [|by intros [= ->]|done]. cbn [mbind res_bind]. destruct (is_file_node nd); [by intros [= ->]|done]. }
  intros entries m1 (Hok1 & Hq & Ht1 & b & Hdir & Hnd & Hin & Hall).
  assert (Hlk : a_lookup T p = Ok NDir). { revert Hdir. unfold a_dir. destruct (a_lookup T p) as [[]| |]; done. }
  assert (Hr : Path.has_root p = true). { revert Hlk. unfold a_lookup. by destruct (Path.has_root p). }
  apply spec_bind. eapply spec_mono.
  - apply (spec_for_each (remove_child fuel) entries (λ pre, emptied m T p (DirEntry.name <$> pre))
      (λ e m', fs_ok m' ∧ env_grows (env m) (env m') ∧ ((represents m' T ∧ ro = true ∧ e = ReadOnly) ∨ excused m e)) (λ _, False)).
    + split; [done|]. split; [by apply quiet_grows|]. cbn. by rewrite pruned_nil.
    + intros pre x rest m2 -> Hem. rewrite fmap_app. rewrite Forall_app, Forall_cons in Hall. destruct Hall as (_ & [Hpx Hdx] & _).
      apply remove_child_does; try done.
      * intros p' m' T' Hhere Hsh' Hok' Ht'. apply IH; [|done..]. specialize (Hsh' _ Hhere ltac:(done)). lia.
      * rewrite fmap_app, fmap_cons in Hnd. apply NoDup_app in Hnd as (_ & Hd & _). intros Hx. apply (Hd _ Hx). by left.
  - intros [] m2 Hem. cbn beta in Hem. by apply (remove_emptied p m T (DirEntry.name <$> entries)).
  - intros e m2 (Hok2 & Hg2 & [(Ht2 & Hro & ->)|Hx]); (split; [done|]; split; [done|]); [left|by right]. split; [done|].
    unfold a_remove_all. rewrite Hlk. cbn [mbind res_bind is_file_node]. by rewrite Hro.
  - done.
Qed.
End dirs.
