(* ===== verification/FsSpec.v ===== *)
(** * The file system as a whole: whatever is called, the tree does what it should. *)
From stdpp Require Import strings.
From S2P Require Import Prelude Run Base Segment Fnode Fs FsTree FsInv FsForest FsCont FsTx FsTreeSpec FsEdit FsOps FsRename FsFiles FsDirs.
Import Mem Fnode FileType(FileType, File, Dir).

(** ** Calls *)

Inductive Call :=
  | CreateFnode (p : Path) (t : FileType) (o : Options)
  | CreateDirAll (p : Path)
  | Copy (from to : Path)
  | RemoveFile (p : Path)
  | RemoveDir (p : Path)
  | RemoveDirAll (fuel : nat) (p : Path)
  | Rename (from to : Path).
(** Those of one transaction at most. *)
Definition one_tx (c : Call) : bool := match c with CreateDirAll _ | Copy _ _ | RemoveDirAll _ _ => false | _ => true end.

Section spec.
Context {C K G Hash E SN FC : Type} `{!EqDecision Hash, !Countable Hash, !Env E, !EnvLaws E, !ContentLayer C K G Hash, !ContentLaws C K G Hash}.
Context `{!LinkedMapOps string Eid SN, !LinkedMap string Eid SN, !LinkedMapOps Eid Eid FC, !LinkedMap Eid Eid FC}.
Abbreviation Fn := (Fnode.Fnode K SN).
Abbreviation Mem := (Mem.Mem C K G Hash E SN FC).
Abbreviation hash := (ct_hash (C:=C) (K:=K) (S:=G) (Hash:=Hash)).
Abbreviation leaf := (FsEdit.leaf (C:=C) (K:=K) (G:=G) (Hash:=Hash)).
Implicit Types (f g : Fn) (m : Mem) (i j : Eid) (n : string) (l : list string) (T : FsTreeSpec.Tree Hash) (c : Call) (cs : list Call) (outs : list (res ())).
Context (fs : Fs.Fs).
Abbreviation rt := (Fs.root fs).
Abbreviation ro := (Fs.read_only fs).
Abbreviation fs_ok := (FsTx.fs_ok fs).
Abbreviation represents := (FsOps.represents fs).

Definition run_call c : run Mem () :=
  match c with
  | CreateFnode p t o => _ ← Fs.create_fnode fs p t o; mret ()
  | CreateDirAll p => Fs.create_dir_all fs (S (length (Path.comps p))) p
  | Copy from to => Fs.copy fs from to
  | RemoveFile p => Fs.remove_file fs p
  | RemoveDir p => Fs.remove_dir fs p
  | RemoveDirAll fuel p => Fs.remove_dir_all fs fuel p
  | Rename from to => Fs.rename fs from to
  end.
Definition a_call c T : res (FsTreeSpec.Tree Hash) :=
  match c with
  | CreateFnode p t o => a_create ro T p (leaf t o)
  | CreateDirAll p => a_mkdirs (S (length (Path.comps p))) ro T p
  | Copy from to => a_copy ro (hash ct_new) T from to
  | RemoveFile p => a_remove_file ro T p
  | RemoveDir p => a_remove_dir ro T p
  | RemoveDirAll _ p => a_remove_all ro T p
  | Rename from to => a_rename ro T from to
  end.
(** Where a call may be made: a version limit is 1 or more; a rename is not to below a file, which [Fs::rename] does
    not look at (fs.rs:612); no number of a version or counter of a shared content is at its end when a file is
    copied. The fuel of the model is enough. *)
Definition a_pre c T : Prop :=
  match c with
  | CreateFnode _ _ o => 1 ≤ version_limit o
  | Copy _ _ => roomy T
  | RemoveDirAll fuel p => (0 < fuel)%nat ∧ shallow T (Path.comps p) fuel
  | Rename _ to => parent_dir T to
  | _ => True
  end.

(** One call after another, whatever they return. *)
Fixpoint attempt_all cs : run Mem (list (res ())) :=
  match cs with [] => mret [] | c :: cs => r ← attempt (run_call c); rs ← attempt_all cs; mret (r :: rs) end.

(** What the reference file system allows: each call has its effect or fails as it should; or it
    fails for another cause, and then has no effect if it is one transaction. *)
Inductive a_calls (fault : Error → Prop) : FsTreeSpec.Tree Hash → list Call → list (res ()) → FsTreeSpec.Tree Hash → Prop :=
  | calls_none T : a_calls fault T [] [] T
  | calls_ok T T1 T2 c cs outs : a_call c T = Ok T1 → a_calls fault T1 cs outs T2 → a_calls fault T (c :: cs) (Ok () :: outs) T2
  | calls_err T T2 e c cs outs : a_call c T = Err e → a_calls fault T cs outs T2 → a_calls fault T (c :: cs) (Err e :: outs) T2
  | calls_fault T T1 T2 e c cs outs : fault e → (one_tx c = true → T1 = T) → a_calls fault T1 cs outs T2 → a_calls fault T (c :: cs) (Err e :: outs) T2.

(** ** The tree of a state *)

Lemma represents_exists m : fs_ok m → ∃ T, represents m T.
Proof.
  intros Hok. pose proof (fs_forest fs m Hok) as Hf. pose proof (fs_top fs m Hok) as Htop.
  assert (Hids : ∀ ids : list Eid, ∃ T, ∀ l nd, T !! l = Some nd ↔ ∃ i, i ∈ ids ∧ path_to (edges (fnodes m)) rt l = Some i ∧ sees m i = Some nd).
  { induction ids as [|i ids [T IH]]. { exists ∅. intros l nd. rewrite lookup_empty. split; [done|]. by intros (i & ?%not_elem_of_nil & _). }
    destruct (fnodes m !! i) as [f|] eqn:Hi.
    2: { exists T. intros l nd. rewrite IH. split; intros (j & Hj & Hp & Hs); exists j; (split; [|done]); [by right|].
         apply elem_of_cons in Hj as [->|]; [|done]. unfold sees in Hs. by rewrite Hi in Hs. }
    destruct (f_reach _ _ Hf i) as (r & l0 & Hr & Hp); [by eexists|]. apply elem_of_singleton in Hr as ->.
    exists (<[l0 := view m f]> T). intros l nd. assert (Hs : sees m i = Some (view m f)) by (unfold sees; by rewrite Hi).
    destruct (decide (l = l0)) as [->|Hne].
    - rewrite lookup_insert_eq. split; [intros [= <-]; exists i; by split; [left|]|]. intros (j & _ & Hpj & Hsj). congruence.
    - rewrite lookup_insert_ne, IH by done. split; intros (j & Hj & Hpj & Hsj); exists j; (split; [|done]); [by right|].
      apply elem_of_cons in Hj as [->|]; [|done]. destruct Hne. by apply (path_unique _ rt rt l l0 i (f_inj _ _ Hf) Htop Htop). }
  destruct (Hids (elements (dom (fnodes m)))) as [T HT]. exists T. intros l. apply option_eq. intros nd. rewrite HT. unfold tree. split.
  - intros (i & Hp & Hs)%bind_Some. exists i. split; [|done]. apply elem_of_elements, elem_of_dom. unfold sees in Hs. destruct (fnodes m !! i); [by eexists|done].
  - intros (i & _ & Hp & Hs). by rewrite Hp.
Qed.

(** ** A call *)

(** Nothing but faults leaves a call without its effect. *)
Definition refines c m T (op : run Mem ()) : Prop :=
  spec op m
    (λ _ m', fs_ok m' ∧ env_grows (env m) (env m') ∧ ∃ T', a_call c T = Ok T' ∧ represents m' T')
    (λ e m', fs_ok m' ∧ env_grows (env m) (env m') ∧
       ((a_call c T = Err e ∧ represents m' T) ∨ (excused m e ∧ ∃ T', represents m' T' ∧ (one_tx c = true → T' = T)))) (λ _, False).
Lemma does_refines c m T (op : run Mem ()) : does fs op m T (a_call c T) → refines c m T op.
Proof.
  intros Hop. eapply spec_mono; [exact Hop|done| |done]. intros e m' (Hok' & Hg & Ht' & [He|Hx]); (split; [done|]; split; [done|]); [by left|right; split; [done|by exists T]].
Qed.
Lemma tries_refines c m T (op : run Mem ()) : one_tx c = false → tries fs op m T (a_call c T) → refines c m T op.
Proof.
  intros H1 Hop. eapply spec_mono; [exact Hop|done| |done]. intros e m' (Hok' & Hg & [[Ht' He]|Hx]); (split; [done|]; split; [done|]); [by left|right; split; [done|]].
  destruct (represents_exists m' Hok') as [T' ?]. exists T'. split; [done|]. by rewrite H1.
Qed.
Lemma call_refines c m T : fs_ok m → represents m T → a_pre c T → refines c m T (run_call c).
Proof.
  intros Hok Ht Hpre. destruct c; cbn [run_call a_pre] in *.
  - apply does_refines, spec_bind. eapply spec_mono; [by apply (create_fnode_does fs p t o m T)| | |done].
    + intros i m' (Hok' & Hg & _ & _ & HT). by apply spec_ret.
    + by intros e m' ?.
  - apply tries_refines; [done|]. apply create_dir_all_does; [lia|done..].
  - apply tries_refines; [done|]. by apply copy_does.
  - by apply does_refines, remove_file_does.
  - by apply does_refines, remove_dir_does.
  - apply tries_refines; [done|]. destruct Hpre. by apply remove_dir_all_does.
  - by apply does_refines, rename_does.
Qed.

(** Every call is made where it may be. *)
Definition a_safe m T cs : Prop := ∀ cs1 c cs2 outs T1, cs = cs1 ++ c :: cs2 → a_calls (excused m) T cs1 outs T1 → a_pre c T1.

Lemma a_calls_mono (P Q : Error → Prop) T cs outs T' : (∀ e, P e → Q e) → a_calls P T cs outs T' → a_calls Q T cs outs T'.
Proof. intros HPQ. induction 1; [constructor|by eapply calls_ok|by eapply calls_err|by eapply calls_fault; [apply HPQ| |]]. Qed.

(** What holds of the rest after a call. *)
Lemma attempt_all_spec cs m T : fs_ok m → represents m T → a_safe m T cs →
  spec (attempt_all cs) m (λ outs m', fs_ok m' ∧ ∃ T', represents m' T' ∧ a_calls (excused m) T cs outs T') (λ _ _, False) (λ _, False).
Proof.
  revert m T. induction cs as [|c cs IH]; intros m T Hok Ht Hsafe; cbn [attempt_all].
  { apply spec_ret. split; [done|]. exists T. split; [done|constructor]. }
  assert (Hrest : ∀ r m1 T1, fs_ok m1 → represents m1 T1 → env_grows (env m) (env m1) →
      (∀ cs' outs T2, a_calls (excused m) T1 cs' outs T2 → a_calls (excused m) T (c :: cs') (r :: outs) T2) →
      spec (rs ← attempt_all cs; mret (r :: rs)) m1 (λ outs m', fs_ok m' ∧ ∃ T', represents m' T' ∧ a_calls (excused m) T (c :: cs) outs T') (λ _ _, False) (λ _, False)).
  { intros r m1 T1 Hok1 Ht1 Hg Hcons. apply spec_bind. eapply spec_mono; [apply (IH m1 T1); try done| |done|done].
    - intros cs1 c1 cs2 outs T2 -> Hcalls. apply (Hsafe (c :: cs1) c1 cs2 (r :: outs)); [done|]. apply Hcons.
      eapply a_calls_mono; [|exact Hcalls]. intros e. by apply excused_grows.
    - intros outs m2 (Hok2 & T2 & Ht2 & Hcalls). apply spec_ret. split; [done|]. exists T2. split; [done|]. apply Hcons.
      eapply a_calls_mono; [|exact Hcalls]. intros e. by apply excused_grows. }
  apply spec_bind, spec_attempt. eapply spec_mono; [apply (call_refines c m T Hok Ht); apply (Hsafe [] c cs []); [done|constructor]| | |done].
  - intros [] m1 (Hok1 & Hg & T1 & HT1 & Ht1). apply (Hrest (Ok ()) m1 T1); try done. intros. by eapply calls_ok.
  - intros e m1 (Hok1 & Hg & [[He Ht1]|(Hx & T1 & Ht1 & H1)]); [apply (Hrest (Err e) m1 T)|apply (Hrest (Err e) m1 T1)]; try done; intros; [by eapply calls_err|by eapply calls_fault].
Qed.

(** ** What is true of every tree and its contents *)

Record tree_wf T : Prop := {
  wf_root : T !! [] = Some NDir;
  wf_closed : closed T;
  wf_files l o vs : T !! l = Some (NFile o vs) → vs ≠ [] ∧ zlen vs ≤ version_limit o ∧ (∃ k : Z, 1 ≤ k ∧ vs.*1 = seqZ k (zlen vs)) ∧ Forall is_Some vs.*2
}.
(** The store: the content of every version is there and, where contents are shared, known by its
    hash; it is counted as often as it is used. *)
Record store_wf m : Prop := {
  wf_known v : v ∈ all_vers (fnodes m) → ∃ d, contents m !! Version.content_id v = Some d ∧
    (dedup m = true → ∃ k : Z, content_map m !! hash d = Some (Version.content_id v, k));
  wf_counts h i (n : Z) : dedup m = true → content_map m !! h = Some (i, n) → n = uses i (all_vers (fnodes m)) ∧ 1 ≤ n ∧
    ∃ d, contents m !! i = Some d ∧ hash d = h
}.

Lemma nums_from_seqZ (n : Z) (vs : list Version.Version) : nums_from n vs → Version.num <$> vs = seqZ n (zlen vs).
Proof.
  revert n. induction vs as [|v vs IH]; intros n; [done|]. cbn. intros [<- Hn]. rewrite zlen_cons, seqZ_cons by (pose proof (zlen_nonneg vs); lia).
  f_equal. rewrite (IH _ Hn). f_equal; lia.
Qed.
Lemma represents_wf m T : fs_ok m → represents m T → tree_wf T.
Proof.
  intros Hok Ht. destruct (represents_closed fs m T Hok Ht) as [Hc Hr]. split; [done..|]. intros l o vs Hl. rewrite <- Ht in Hl. unfold tree in Hl.
  apply bind_Some in Hl as (i & Hp & Hs). destruct (sees_file _ _ _ _ Hs) as (f & Hf & Hty & <- & <-).
  destruct Hok as [[Hb Hco] _]. destruct (t_files _ _ _ _ Hb i f Hf Hty) as [[H1 H2 (n & Hn & _ & Hnums)] Hne]; [apply not_elem_of_empty|].
  unfold zlen. rewrite length_fmap. fold (zlen (vers f)). split_and!; [by destruct (vers f)|done| |].
  - exists n. split; [done|]. rewrite <- list_fmap_compose. by apply nums_from_seqZ.
  - rewrite <- list_fmap_compose. apply Forall_fmap, Forall_forall. intros v Hv. cbn.
    destruct (has_contents fs m {[rt]} ∅ i f v) as [c ->]; [done..|by eexists].
Qed.
Lemma fs_store_wf m : fs_ok m → store_wf m.
Proof.
  intros [[_ [[H1 _ _ _ H5 H6] _]] _]. split; [|done]. intros v Hv. destruct (H1 v Hv) as [c Hc]. exists c. split; [done|]. intros Hd. by apply (H6 v c).
Qed.

(** ** A new file system *)

(** What [Fs::create] begins with: nothing but the segments, of no content. *)
Definition start (e : E) (s : G) : Mem :=
  mkMem ∅ ∅ s (dedup_file (Fs.opts fs)) ∅ (Lru.new (K:=Eid) (V:=Eid) Fs.FNODE_CACHE_SIZE) e ∅ ∅.

Lemma lone_root_ok (e : E) (s : G) (t : gset Eid) f : rt ∈ env_used e → linked [] s → ftype f = Dir → kids f = [] → vers f = [] →
  Fnode.parent f = None → sub_nodes f = default_sub_nodes →
  let m := set_fnodes {[rt := f]} (set_trans t ∅ (start e s)) in FsTx.tx_ok fs m {[rt]} ∅ ∧ represents m {[[] := NDir]}.
Proof.
  intros Hrt Hl Hd Hk Hv Hp Hs m. assert (Hfm : fnodes m = {[rt := f]}) by done.
  assert (He : ∀ p n, edges (fnodes m) p n = None).
  { intros p n. unfold edges. cbn. destruct (decide (p = rt)) as [->|]; [rewrite lookup_singleton_eq|by rewrite lookup_singleton_ne]. cbn. unfold kid_named. by rewrite Hk. }
  assert (Hsub : ∀ n, sub f n = None) by (intros n; unfold sub; rewrite Hs; apply lm_get_new).
  assert (Hempty : forest (∅ : gmap Eid Fn) ∅) by (split; try done; intros i [f0 Hf0]; by rewrite lookup_empty in Hf0).
  destruct (forest_new ∅ ∅ rt f Hempty) as (Hf & _ & _); try done; [by rewrite Hs|]. rewrite union_empty_r_L in Hf.
  assert (Hall : all_vers (fnodes m) = []).
  { unfold all_vers. cbn. rewrite map_fmap_singleton, map_to_list_singleton. cbn. by rewrite Hv. }
  split; [split; [split|]|].
  - done.
  - split; [done|]. intros i j. cbn. by rewrite lm_get_new.
  - set_solver.
  - rewrite (parent_at _ _ f); [done|]. apply lookup_singleton_eq.
  - exists f. split; [apply lookup_singleton_eq|done].
  - intros i g. rewrite Hfm. intros [<- <-]%lookup_singleton_Some Ht. congruence.
  - by intros i g ?%not_elem_of_empty.
  - apply empty_subseteq.
  - intros i [g Hg]. rewrite Hfm in Hg. apply lookup_singleton_Some in Hg as [<- <-]. done.
  - by intros i ?%not_elem_of_empty.
  - done.
  - split; [|exact Hl]. rewrite Hall. split; try done.
    + by intros v ?%not_elem_of_nil.
    + intros i [[c Hc]|Hc]; [exact (False_ind _ (lookup_empty_Some _ _ Hc))|by apply not_elem_of_empty in Hc].
  - intros l. unfold tree. destruct l as [|n l].
    + cbn [path_to mbind option_bind]. rewrite lookup_singleton_eq. unfold sees. rewrite Hfm, lookup_singleton_eq. cbn. unfold view. by rewrite Hd.
    + rewrite lookup_singleton_ne by done. cbn [path_to]. by rewrite He.
Qed.

(** The state, written otherwise. *)
Local Ltac spec_state s := match goal with |- spec ?r _ ?Q ?F ?D => change (spec r s Q F D) end.

(** [Fs::create]: a tree of the root alone, or a fault. *)
Lemma create_root_spec (e : E) (s : G) : rt ∈ env_used e → linked [] s →
  spec (Fs.create_root fs) (start e s) (λ _ m', fs_ok m' ∧ represents m' {[[] := NDir]} ∧ env_grows e (env m')) (λ x _, faulty (start e s) x) (λ _, False).
Proof.
  intros Hrt Hl. set (m := start e s). unfold Fs.create_root, run_all, run_all_ret.
  assert (Hio : ∀ e1 (Q : () → Mem → Prop) h t, env_keeps e e1 → (∀ e2, env_keeps e e2 → Q () (set_trans t ∅ (set_fnodes h (set_env e2 m)))) →
    spec io (set_trans t ∅ (set_fnodes h (set_env e1 m))) Q (λ x _, faulty m x) (λ _, False)).
  { intros e1 Q h t He1 HQ. apply io_spec; cbn.
    - intros e2 He2. apply (HQ e2). by eapply env_keeps_trans.
    - intros x e2 He2 [Hns Ho]. split; [|done]. intros Hst. apply Hns. cbn. by apply He1. }
  apply spec_bind. change m with (set_trans ∅ ∅ (set_fnodes ∅ (set_env e m))) at 1. apply Hio; [apply env_keeps_refl|]. intros e1 He1.
  apply spec_bind, spec_ask, spec_bind, spec_attempt.
  assert (Hrestore : ∀ m0 x m1, faulty m x → spec ((_ ← restore m0; fail x) : run Mem ()) m1 (λ _ m', fs_ok m' ∧ represents m' {[[] := NDir]} ∧ env_grows e (env m')) (λ x _, faulty m x) (λ _, False)).
  { intros m0 x m1 Hx. apply spec_bind. unfold restore. by apply spec_modify, spec_fail. }
  eapply spec_mono with (Q := λ _ m', fs_ok m' ∧ represents m' {[[] := NDir]} ∧ env_grows e (env m')) (E := λ x _, faulty m x) (H := λ _, False); [|intros [] m1 ?; by apply spec_ret|by intros; apply Hrestore|done].
  apply spec_bind, spec_bind, spec_bind. apply Hio; [done|]. intros e2 He2. apply spec_modify.
  apply spec_bind. unfold new. apply spec_bind, draw_spec_fs, spec_bind, draw_spec_fs, spec_ret. unfold into_cow_with_id. apply spec_bind, spec_bind.
  set (e3 := (env_now (env_now e2).2).2).
  assert (He3 : env_keeps e e3) by (eapply env_keeps_trans; [done|]; eapply env_keeps_trans; apply env_now_law).
  set (f := mkFnode _ _ _ _ _ _ _ _ _). spec_state (set_trans ({[Fs.store fs]} ∪ ∅) ∅ (set_fnodes ∅ (set_env e3 m))). apply Hio; [done|]. intros e4 He4. apply spec_modify. unfold put_fnode. apply spec_modify.
  apply spec_bind. spec_state (set_trans ({[rt]} ∪ ({[Fs.store fs]} ∪ ∅)) ∅ (set_fnodes {[rt := f]} (set_env e4 m))). apply Hio; [done|]. intros e5 He5.
  destruct (lone_root_ok e5 s ({[rt]} ∪ ({[Fs.store fs]} ∪ ∅)) f) as [Htx Ht]; try done; [by destruct He5 as [-> _]|].
  apply spec_bind, commit_spec, spec_ret. set (m5 := set_trans _ _ _). change (FsTx.tx_ok fs m5 {[rt]} ∅) in Htx. change (represents m5 {[[] := NDir]}) in Ht.
  destruct (commit_ok fs m5 {[rt]} ∅ Htx) as (Hok & Henv & He & Hs); [by rewrite difference_empty_L|apply empty_subseteq|].
  split; [done|]. split; [|rewrite Henv; by apply env_keeps_grows]. intros l. rewrite <- Ht. unfold tree. rewrite (path_ext _ _ _ _ He).
  destruct (path_to (edges (fnodes m5)) rt l) as [i|]; [|done]. cbn. apply Hs, not_elem_of_empty.
Qed.

(** ** The properties *)

(** C3: calls on paths, in any sequence, each made where it may be ([a_pre]: no rename to below a file, version limits
    of 1 or more, copies while no counter is full), and whatever fails below: the calls return, never panic, and do to
    the tree what the reference file system does; a call fails as the reference does and then leaves the tree, or
    it fails for a cause from below (a fault of the environment or the content layer, a counter that is full), and
    leaves the tree then too when it is a single transaction. That a transaction which fails leaves no trace in
    memory is taken for granted ([restore] in Fnode.v). *)
Theorem calls_refine_tree m T cs : fs_ok m → represents m T → a_safe m T cs →
  spec (attempt_all cs) m (λ outs m', ∃ T', represents m' T' ∧ a_calls (excused m) T cs outs T') (λ _ _, False) (λ _, False).
Proof. intros Hok Ht Hs. eapply spec_mono; [by apply (attempt_all_spec cs m T)| |done|done]. by intros outs m' [_ ?]. Qed.

(** C8: the types of the tree: after any calls that are made where they may be ([a_pre]: a rename to below a file is
    not, though the code takes it), those that fail included, the root is a directory, what has a
    parent has it as a directory, every file has at least one version and at most as many as its limit, numbered in
    sequence from 1 or more, each with a content that is stored; contents that are shared are found by their
    hashes, and counted as often as versions use them. *)
Theorem calls_keep_types m T cs : fs_ok m → represents m T → a_safe m T cs →
  spec (attempt_all cs) m (λ _ m', ∃ T', represents m' T' ∧ tree_wf T' ∧ store_wf m') (λ _ _, False) (λ _, False).
Proof.
  intros Hok Ht Hs. eapply spec_mono; [by apply (attempt_all_spec cs m T)| |done|done]. intros outs m' (Hok' & T' & Ht' & _).
  exists T'. split; [done|]. split; [by apply (represents_wf m')|by apply fs_store_wf].
Qed.

(** C9: [Fs::rename], when it returns: what was at or below [from] is at or below [to], nothing is left at [from], what
    was at [to] is gone, and all else is where it was; when it fails the tree is as before. That the parent of
    [to] is no file is for the caller to see to. *)
Theorem rename_moves m (from to : Path) : fs_ok m → from ≠ to →
  (∀ q o vs, Path.parent to = Some q → tree fs m (Path.comps q) ≠ Some (NFile o vs)) →
  spec (Fs.rename fs from to) m
    (λ _ m', ∀ l, tree fs m' l =
       if decide (Path.comps to `prefix_of` l) then tree fs m (Path.comps from ++ drop (length (Path.comps to)) l)
       else if decide (Path.comps from `prefix_of` l) then None else tree fs m l)
    (λ _ m', ∀ l, tree fs m' l = tree fs m l) (λ _, False).
Proof.
  intros Hok Hne Hpar. destruct (represents_exists m Hok) as [T Ht]. eapply spec_mono; [apply (rename_does fs from to m T Hok Ht)| | |done].
  - intros q o vs Hq. rewrite <- Ht. by apply Hpar.
  - intros _ m' (_ & _ & T' & HT' & Ht') l. unfold a_rename in HT'. destruct ro; [done|]. rewrite bool_decide_eq_false_2 in HT' by done.
    destruct (Path.starts_with to from); [done|]. destruct (a_lookup T from) as [nd| |]; [|done..]. cbn [mbind res_bind] in HT'.
    destruct (a_target T to) as [tgt| |]; [|done..]. cbn [mbind res_bind] in HT'. case_bool_decide; [done|].
    destruct (match tgt with Some _ => _ | None => _ end); [|done..]. cbn [mbind res_bind] in HT'. unfold a_moved, a_parent in HT'.
    destruct (Path.parent to) as [q|] eqn:Hq; [|done]. destruct (Path.file_name to) as [n|] eqn:Hn; [|done]. destruct (comps_parent _ _ _ Hq Hn) as [Hc _].
    cbn [ok_or mbind res_bind] in HT'. destruct (a_lookup T q); [|done..]. cbn [mbind res_bind] in HT'. injection HT' as <-. rewrite <- Hc in Ht'.
    by rewrite Ht', a_move_lookup, <- !Ht.
  - intros e m' (_ & _ & Ht' & _) l. by rewrite Ht, Ht'.
Qed.

(** C18: [create_dir_all] and [remove_dir_all] end: with fuel for the components of the path, or for the depth of the
    tree, they do what the reference does (every missing directory made; everything at or below removed, the root
    apart), or fail as it does and leave the tree, unless a cause from below stops them in between. *)
Theorem dir_calls_end m T (p : Path) : fs_ok m → represents m T →
  ∃ bound, ∀ fuel, (bound ≤ fuel)%nat →
    tries fs (Fs.create_dir_all fs fuel p) m T (a_mkdirs bound ro T p) ∧
    tries fs (Fs.remove_dir_all fs fuel p) m T (a_remove_all ro T p).
Proof.
  intros Hok Ht. set (depth := foldr Nat.max 0%nat (length <$> (map_to_list T).*1)).
  assert (Hdepth : ∀ l, is_Some (T !! l) → (length l ≤ depth)%nat).
  { intros l [nd Hl]. assert (Hin : l ∈ (map_to_list T).*1) by (apply list_elem_of_fmap; exists (l, nd); split; [done|by apply elem_of_map_to_list]).
    unfold depth. clear -Hin. induction Hin as [l L|l x L _ IH]; cbn; lia. }
  exists (S (length (Path.comps p) + depth)). intros fuel Hfuel. split.
  - rewrite <- (mkdirs_fuel fuel) by lia. apply create_dir_all_does; [lia|done..].
  - apply remove_dir_all_does; [lia| |done..]. intros l Hl _. specialize (Hdepth l Hl). lia.
Qed.

(** C19: [Fs::read_dir] lists every child of a directory exactly once, under its name, with the path that leads to it and
    with what it is and its current version, and fails as a lookup does, or with NotDir, or by a fault; the tree stays. *)
Theorem read_dir_lists m T (p : Path) : fs_ok m → represents m T →
  spec (Fs.read_dir fs p) m
    (λ entries m', represents m' T ∧ a_lookup T p = Ok NDir ∧ listed T p entries)
    (λ e m', represents m' T ∧ (a_lookup T p = Err e ∨ (e = NotDir ∧ T !! Path.comps p ≠ None ∧ T !! Path.comps p ≠ Some NDir) ∨ faulty m e)) (λ _, False).
Proof.
  intros Hok Ht. eapply spec_mono; [by apply (read_dir_reads fs p m T)| | |done].
  - intros entries m' (_ & _ & Ht' & b & Hd & Hl). split; [done|]. split; [|done]. revert Hd. unfold a_dir. by destruct (a_lookup T p) as [[]| |].
  - intros e m' (_ & _ & Ht' & [Hd|Hf]); (split; [done|]); [|by right; right]. revert Hd. unfold a_dir. destruct (a_lookup T p) as [nd|e'|] eqn:Hl; [|intros [= ->]; by left|done].
    cbn [mbind res_bind]. destruct nd as [|o vs]; [done|]. intros [= <-]. right. left. by rewrite (lookup_Ok _ _ _ Hl).
Qed.
End spec.
