(* ===== verification/FsDemo.v ===== *)
(** * A small file system: witnesses, and what goes wrong.

    Contents are lists of bytes, the segments count the contents that are linked, ids are drawn in
    sequence and calls fail by plan. The runs show that the hypotheses of FsSpec.v hold of
    real states. *)
From stdpp Require Import strings.
From S2P Require Import Prelude Run Base Segment Fnode Fs FsTree FsInv FsForest FsCont FsTx FsTreeSpec FsEdit FsOps FsRename FsFiles FsDirs FsSpec.
Import Mem Fnode FileType(FileType, File, Dir).

(** ** The environment *)

(** The last id drawn, and which of the next calls fail. *)
Record Plan := mkPlan { drawn : nat; fates : list bool }.
#[export] Instance plan_env : Env Plan := {|
  env_eid e := (Z.of_nat (S (drawn e)), mkPlan (S (drawn e)) (fates e));
  env_now e := (0, e);
  env_fault e := (match fates e with true :: _ => Some Io | _ => None end, mkPlan (drawn e) (tail (fates e)));
  env_alive _ e := (true, e)
|}.
Definition ids_to (n : nat) : gset Eid := list_to_set (Z.of_nat <$> seq 0 (S n)).
Lemma ids_to_in n (i : Eid) : i ∈ ids_to n ↔ 0 ≤ i ≤ Z.of_nat n.
Proof.
  unfold ids_to. rewrite elem_of_list_to_set, list_elem_of_fmap. setoid_rewrite elem_of_seq. split; [intros (k & -> & ?); lia|].
  intros Hi. exists (Z.to_nat i). lia.
Qed.
#[export] Instance plan_laws : EnvLaws Plan.
Proof.
  unshelve econstructor; [exact (λ e, ids_to (drawn e))|exact (λ e, Forall (.= false) (fates e))|..].
  - intros e. apply ids_to_in. lia.
  - intros e. cbn [env_eid plan_env fst snd drawn fates]. split; [rewrite ids_to_in; lia|]. split; [|done].
    apply set_eq. intros i. rewrite elem_of_union, elem_of_singleton, !ids_to_in. lia.
  - intros e. split; done.
  - intros e. cbn. split; [|split].
    + split; [done|]. cbn. destruct (fates e); [done|]. by intros [_ ?]%Forall_cons.
    + destruct (fates e) as [|[] l]; [done| |done]. by intros [? _]%Forall_cons.
    + intros x. destruct (fates e) as [|[] l]; [done| |done]. by intros [= <-].
  - intros i e. split; done.
Defined.

(** ** The contents *)

Definition Bytes : Type := list Z.
Fixpoint drop_one (c : Bytes) (s : list Bytes) : list Bytes :=
  match s with [] => [] | d :: s => if bool_decide (d = c) then s else d :: drop_one c s end.
#[export] Instance bytes_layer : ContentLayer Bytes unit (list Bytes) Bytes := {|
  ct_new := []; ct_len := zlen; ct_hash c := c; ct_end_offset := zlen;
  ct_link c s := Ok (c :: s);
  ct_unlink c _ s := Ok ((), drop_one c s);
  ct_unlink_weak _ _ s := Ok ((), s);
  ct_merge_from c c' s := Ok (c' ++ drop (length c') c, s);
  ct_truncate c n s := Ok (take (Z.to_nat n) c, s);
  chk_new _ := ()
|}.
Lemma drop_one_perm c s : c ∈ s → s ≡ₚ c :: drop_one c s.
Proof.
  induction s as [|d s IH]; cbn; [by intros ?%not_elem_of_nil|]. case_bool_decide as Hd; [by subst|].
  intros [?|Hc]%elem_of_cons; [congruence|]. rewrite Permutation_swap. by constructor; apply IH.
Qed.
#[export] Instance bytes_laws : ContentLaws Bytes unit (list Bytes) Bytes.
Proof.
  unshelve econstructor; [exact (λ cs s, cs ≡ₚ s)|exact (λ _ _, True)|..]; cbn; try done.
  - by intros cs cs' s <-.
  - intros cs c s Hl _. by constructor.
  - intros cs c k s Hl. apply (Permutation_cons_inv (a:=c)). etrans; [exact Hl|]. apply drop_one_perm. rewrite <- Hl. by left.
Defined.

(** ** The file system *)

Abbreviation kid_map := (AssocMap.amap string Eid).
Abbreviation id_map := (AssocMap.amap Eid Eid).
Abbreviation World := (Mem.Mem Bytes unit (list Bytes) Bytes Plan kid_map id_map).

(** The root is 1 and the store 2; contents are shared. *)
Definition demo_fs : Fs.Fs := Fs.mkFs 1 2 (mkOptions 2 false true) false.
Definition blank (l : list bool) : World := start demo_fs (mkPlan 2 l) [].
Definition created (l : list bool) : World := (Fs.create_root (FC:=id_map) (SN:=kid_map) demo_fs (blank l)).2.

Definition path_of (l : list string) : Path := Path.mkPath true l.
Open Scope string_scope.

Lemma root_drawn : Fs.root demo_fs ∈ env_used (mkPlan 2 []).
Proof. change (1 ∈ ids_to 2). apply ids_to_in. lia. Qed.
Lemma nothing_linked : linked (C:=Bytes) (K:=unit) (Hash:=Bytes) [] [].
Proof. apply (Permutation_refl (A:=Bytes)). Qed.
Lemma created_ok : fs_ok demo_fs (created []) ∧ represents demo_fs (created []) {[[] := NDir]}.
Proof.
  assert (Hs : (Fs.create_root (FC:=id_map) (SN:=kid_map) demo_fs (blank [])).1 = Some (Ok ())) by (by vm_compute).
  destruct (spec_value _ _ () _ _ _ (create_root_spec demo_fs (mkPlan 2 []) [] root_drawn nothing_linked) Hs) as (Hok & Ht & _). done.
Qed.

(** Calls whose arguments are right whatever the tree. *)
Definition always (c : Call) : Prop := ∀ T : FsTreeSpec.Tree Bytes, a_pre c T.
Lemma safe_always (m : World) T cs : Forall always cs → a_safe demo_fs m T cs.
Proof. intros Hall cs1 c cs2 outs T1 -> _. apply Forall_app in Hall as [_ [Hc _]%Forall_cons]. apply Hc. Qed.

Definition opts2 : Options := mkOptions 2 false false.
Definition calls1 : list Call :=
  [CreateDirAll (path_of ["a"; "b"]); CreateFnode (path_of ["a"; "b"; "f"]) File opts2; CreateFnode (path_of ["a"; "b"; "f"]) Dir opts2;
   RemoveDir (path_of ["a"]); CreateFnode (path_of ["x"; "y"]) File opts2; RemoveFile (path_of ["a"; "b"; "f"]); RemoveDir (path_of ["a"; "b"])].
Lemma calls1_safe (m : World) T : a_safe demo_fs m T calls1.
Proof. apply safe_always. repeat constructor; intros T'; cbn; lia || done. Qed.

Lemma calls_refine_tree_witness :
  (attempt_all demo_fs calls1 (created [])).1 = Some (Ok [Ok (); Ok (); Err AlreadyExists; Err NotEmpty; Err NotFound; Ok (); Ok ()]) ∧
  spec (attempt_all demo_fs calls1) (created [])
    (λ outs m', ∃ T', represents demo_fs m' T' ∧ a_calls demo_fs (excused (created [])) {[[] := NDir]} calls1 outs T') (λ _ _, False) (λ _, False).
Proof. split; [by vm_compute|]. apply (calls_refine_tree demo_fs); [apply created_ok..|apply calls1_safe]. Defined.

Lemma calls_keep_types_witness :
  spec (attempt_all demo_fs calls1) (created []) (λ _ m', ∃ T', represents demo_fs m' T' ∧ tree_wf T' ∧ store_wf m') (λ _ _, False) (λ _, False).
Proof. apply (calls_keep_types demo_fs (created []) {[[] := NDir]}); [apply created_ok..|apply calls1_safe]. Defined.

(** A tree with a file in a directory and one in the root. *)
Definition calls2 : list Call :=
  [CreateDirAll (path_of ["a"; "b"]); CreateFnode (path_of ["a"; "b"; "f"]) File opts2; CreateFnode (path_of ["g"]) File opts2].
Definition grown2 : World := (attempt_all demo_fs calls2 (created [])).2.
Lemma grown2_ok : fs_ok demo_fs grown2 ∧ ∃ T, represents demo_fs grown2 T.
Proof.
  destruct created_ok as [Hok Ht].
  assert (Hsafe : a_safe demo_fs (created []) {[[] := NDir]} calls2) by (apply safe_always; repeat constructor; intros T'; cbn; lia || done).
  assert (Hv : (attempt_all demo_fs calls2 (created [])).1 = Some (Ok [Ok (); Ok (); Ok ()])) by (by vm_compute).
  destruct (spec_value _ _ _ _ _ _ (attempt_all_spec demo_fs calls2 (created []) _ Hok Ht Hsafe) Hv) as (Hok2 & T & HT & _). split; [done|by exists T].
Qed.

Lemma rename_moves_witness :
  (Fs.rename demo_fs (path_of ["a"; "b"]) (path_of ["c"]) grown2).1 = Some (Ok ()) ∧
  spec (Fs.rename demo_fs (path_of ["a"; "b"]) (path_of ["c"])) grown2
    (λ _ m', ∀ l, tree demo_fs m' l =
       if decide (["c"] `prefix_of` l) then tree demo_fs grown2 (["a"; "b"] ++ drop 1 l)
       else if decide (["a"; "b"] `prefix_of` l) then None else tree demo_fs grown2 l)
    (λ _ m', ∀ l, tree demo_fs m' l = tree demo_fs grown2 l) (λ _, False).
Proof.
  split; [by vm_compute|]. apply (rename_moves demo_fs grown2 (path_of ["a"; "b"]) (path_of ["c"])); [apply grown2_ok|done|].
  intros q o vs [= <-]. by vm_compute.
Defined.

Lemma dir_calls_end_witness :
  ∃ bound, ∀ fuel, (bound ≤ fuel)%nat →
    tries demo_fs (Fs.create_dir_all demo_fs fuel (path_of ["a"; "b"])) (created []) {[[] := NDir]} (a_mkdirs bound false {[[] := NDir]} (path_of ["a"; "b"])) ∧
    tries demo_fs (Fs.remove_dir_all demo_fs fuel (path_of ["a"; "b"])) (created []) {[[] := NDir]} (a_remove_all false {[[] := NDir]} (path_of ["a"; "b"])).
Proof. apply (dir_calls_end demo_fs (created []) {[[] := NDir]} (path_of ["a"; "b"])); apply created_ok. Defined.

Lemma read_dir_lists_witness :
  ((l ← Fs.read_dir demo_fs (path_of []); mret ((λ d, DirEntry.name d) <$> l) : run World (list string)) grown2).1 = Some (Ok ["a"; "g"]) ∧
  ∃ T, spec (Fs.read_dir demo_fs (path_of [])) grown2
    (λ entries m', represents demo_fs m' T ∧ a_lookup T (path_of []) = Ok NDir ∧ listed T (path_of []) entries)
    (λ e m', represents demo_fs m' T ∧ (a_lookup T (path_of []) = Err e ∨ (e = NotDir ∧ T !! [] ≠ None ∧ T !! [] ≠ Some NDir) ∨ faulty grown2 e)) (λ _, False).
Proof.
  split; [by vm_compute|]. destruct grown2_ok as [Hok [T HT]]. exists T. apply (read_dir_lists demo_fs grown2 T (path_of [])); [exact Hok|exact HT].
Defined.

(** ** A file with a child *)

(** A run: [Fs::rename] does not look whether the parent of the new path is a directory: /a/b is renamed to /g/x where /g is
    a file, the call returns, and the directory with all below it can be reached through the file only (a run of
    the model). *)
Lemma rename_below_file :
  let r := Fs.rename demo_fs (path_of ["a"; "b"]) (path_of ["g"; "x"]) grown2 in
  r.1 = Some (Ok ()) ∧ tree demo_fs r.2 ["g"] = Some (NFile opts2 [(1, Some [])]) ∧ tree demo_fs r.2 ["g"; "x"] = Some NDir ∧
  tree demo_fs r.2 ["a"; "b"] = None ∧ ∀ T, represents demo_fs r.2 T → ¬ closed T.
Proof.
  cbv zeta. repeat split; try by vm_compute. intros T HT Hc. specialize (Hc ["g"] "x" NDir). cbn in Hc. rewrite <- !HT in Hc.
  assert (H : tree demo_fs (Fs.rename demo_fs (path_of ["a"; "b"]) (path_of ["g"; "x"]) grown2).2 ["g"] = Some NDir) by (apply Hc; by vm_compute).
  vm_compute in H. done.
Qed.
