(* ===== verification/File.v ===== *)
(** * src/file.rs: an open file, its position, its reader and the write it has begun.

    What a file handle needs of fnodes, of the store's reader and writer and of transactions is an
    interface; the layers themselves are modelled in Fnode.v, Content.v, Stage.v and TxMgr.v.
    The errors of the [std::io] calls are [Io] when they come back through [Error::from]. *)
From S2P Require Import Prelude Run Base Segment Entry Fnode.

(** [W] is everything below, [Rd] a content reader, [Wr] a store writer of a file, [Tx] a transaction. *)
Class FileLayer (W Rd Wr Tx : Type) := {
  is_closed : W → bool;                          (* the shutter *)
  fn_metadata : W → res Metadata.Metadata;
  fn_history : W → res (list Version.Version);
  fn_curr_ver_num : W → res Z;
  fn_curr_len : W → res Z;
  version_reader : Z → run W Rd;
  rd_read : Z → run (Rd * W) (list byte);        (* into a buffer of so many bytes *)
  rd_seek : SeekFrom → run (Rd * W) Z;
  begin_trans : run W Tx;
  tx_commit : Tx → run W ();
  tx_abort : Tx → run W ();
  wr_new : Tx → run W Wr;
  wr_seek : SeekFrom → run (Wr * W) Z;
  wr_write : list byte → run (Wr * W) Z;
  wr_flush : run (Wr * W) ();
  wr_finish : Wr → run W Z;
  fn_truncate : Tx → Z → run W ()
}.
#[export] Hint Mode FileLayer ! - - - : typeclass_instances.

(** ** Machine integers *)

Definition I63 : Z := 2 ^ 63.
(** [as i64], [as u64], and a sum of two [i64]. *)
Definition as_i64 (x : Z) : Z := if x <? I63 then x else x - U64.
Definition as_u64 (x : Z) : Z := x mod U64.
Definition i64_add (x y : Z) : res Z := if (- I63 <=? x + y) && (x + y <? I63) then Ok (x + y) else Panic.

(** [?] on a [std::io::Result]. *)
Definition as_io {S A} (m : run S A) : run S A := or_else m (λ _, fail Io).
(** A call on a value of the caller's own. *)
Definition local {S W A} (x : S) (m : run (S * W) A) : run W (A * S) := λ w,
  match m (x, w) with
  | (Some (Ok a), (x, w)) => (Some (Ok (a, x)), w)
  | (Some (Err e), (_, w)) => (Some (Err e), w)
  | (Some Panic, (_, w)) => (Some Panic, w)
  | (None, (_, w)) => (None, w)
  end.

(** [Write::write_all]; every round writes a byte at least. *)
Fixpoint write_all {S} (write : list byte → run S Z) (fuel : nat) (buf : list byte) : run S () :=
  match fuel with
  | O => lift Panic
  | S fuel =>
      match buf with
      | [] => mret ()
      | _ =>
          n ← write buf;
          if n =? 0 then fail Io
          else if zlen buf <? n then lift Panic
          else write_all write fuel (drop (Z.to_nat n) buf)
      end
  end.

(** ** Readers of an fnode: [Reader] of src/fs/fnode.rs *)

Module FnodeReader.
Record Reader (Rd : Type) := mkReader { ver : Z; rdr : Rd }.
Arguments mkReader {Rd}. Arguments ver {Rd}. Arguments rdr {Rd}.

Section reader.
Context {W Rd Wr Tx : Type} `{!FileLayer W Rd Wr Tx}.

Definition new (v : Z) : run W (Reader Rd) := r ← version_reader v; mret (mkReader v r).
Definition new_current : run W (Reader Rd) := v ← (λ w, (Some (fn_curr_ver_num w), w)); r ← version_reader v; mret (mkReader v r).
Definition version_num (r : Reader Rd) : Z := ver r.
Definition inner {A} (m : run (Rd * W) A) : run (Reader Rd * W) A :=
  zoom (λ t, (rdr t.1, t.2)) (λ s t, (mkReader (ver t.1) s.1, s.2)) m.
Definition read (n : Z) : run (Reader Rd * W) (list byte) := inner (rd_read n).
Definition seek (p : SeekFrom) : run (Reader Rd * W) Z := inner (rd_seek p).
End reader.
End FnodeReader.

(** ** [Fnode::set_len] *)

Section set_len.
Context {W Rd Wr Tx : Type} `{!FileLayer W Rd Wr Tx}.

Definition ZERO_BUF : Z := 16 * 1024.
(** Every round writes a byte at least. *)
Fixpoint zero_fill (fuel : nat) (size buf : Z) : run (Wr * W) () :=
  match fuel with
  | O => lift Panic
  | S fuel =>
      if 0 <? size then
        let write_len := Z.min size buf in
        written ← as_io (wr_write (replicate (Z.to_nat write_len) 0));
        if size <? written then lift Panic else zero_fill fuel (size - written) buf
      else mret ()
  end.

Definition fn_set_len (len : Z) (tx : Tx) : run W () :=
  curr_len ← (λ w, (Some (fn_curr_len w), w));
  if curr_len <? len then
    let size := len - curr_len in
    let buf := Z.min size ZERO_BUF in
    wtr ← wr_new tx;
    '(_, wtr) ← local wtr (_ ← as_io (wr_seek (Start curr_len)); zero_fill (S (Z.to_nat size)) size buf);
    _ ← wr_finish wtr; mret ()
  else if len <? curr_len then fn_truncate tx len
  else mret ().
End set_len.

(** ** The file *)

Module File.
Record File (Rd Wr Tx : Type) := mkFile {
  pos : SeekFrom; rdr : option (FnodeReader.Reader Rd); wtr : option Wr; tx_handle : option Tx;
  can_read : bool; can_write : bool
}.
Arguments mkFile {Rd Wr Tx}. Arguments pos {Rd Wr Tx}. Arguments rdr {Rd Wr Tx}. Arguments wtr {Rd Wr Tx}.
Arguments tx_handle {Rd Wr Tx}. Arguments can_read {Rd Wr Tx}. Arguments can_write {Rd Wr Tx}.

Section file.
Context {W Rd Wr Tx : Type} `{!FileLayer W Rd Wr Tx}.
Abbreviation File := (File Rd Wr Tx).
Abbreviation act := (run (File * W)).
Implicit Types (f : File) (w : W).

Definition new (p : SeekFrom) (r wr : bool) : File := mkFile p None None None r wr.
Definition set_pos (p : SeekFrom) f : File := mkFile p (rdr f) (wtr f) (tx_handle f) (can_read f) (can_write f).
Definition set_rdr (r : option (FnodeReader.Reader Rd)) f : File := mkFile (pos f) r (wtr f) (tx_handle f) (can_read f) (can_write f).
Definition set_wtr (x : option Wr) f : File := mkFile (pos f) (rdr f) x (tx_handle f) (can_read f) (can_write f).
Definition set_tx (t : option Tx) f : File := mkFile (pos f) (rdr f) (wtr f) t (can_read f) (can_write f).

(** Calls of what is below; of a part of [self]. *)
Definition below {A} (m : run W A) : act A := zoom snd (λ w t, (t.1, w)) m.
Definition look {A} (g : W → res A) : act A := below (λ w, (Some (g w), w)).
Definition self {A} (g : File → A) : act A := ask (λ t, g t.1).
Definition update (g : File → File) : act () := modify (λ t, (g t.1, t.2)).
(** [Some] is there; anything else is unreachable. *)
Definition on_wtr {A} (m : run (Wr * W) A) : act A := λ t,
  match wtr t.1 with
  | Some x => zoom (λ t, (x, t.2)) (λ s t, (set_wtr (Some s.1) t.1, s.2)) m t
  | None => (Some Panic, t)
  end.
Definition on_rdr {A} (m : run (FnodeReader.Reader Rd * W) A) : act A := λ t,
  match rdr t.1 with
  | Some x => zoom (λ t, (x, t.2)) (λ s t, (set_rdr (Some s.1) t.1, s.2)) m t
  | None => (Some Panic, t)
  end.

(** [TxHandle::run], and [run_all_exclusive], which commits. *)
Definition abort {A} (tx : Tx) (e : Error) : act A := _ ← below (tx_abort tx); fail e.
Definition run_in {A} (tx : Tx) (oper : act A) : act A := or_else oper (abort tx).
Definition run_all {A} (tx : Tx) (oper : act A) : act A :=
  r ← attempt oper;
  match r with Ok a => _ ← below (tx_commit tx); mret a | Err e => abort tx e | Panic => lift Panic end.

Definition check_closed : act () := c ← look (λ w, Ok (is_closed w)); if c : bool then fail RepoClosed else mret ().

Definition metadata : act Metadata.Metadata := _ ← check_closed; look fn_metadata.
Definition history : act (list Version.Version) := _ ← check_closed; look fn_history.
Definition curr_version : act Z := _ ← check_closed; look fn_curr_ver_num.
Definition curr_len : act Z := look fn_curr_len.
(** The handle is cloned; a version reader is the reader alone. *)
Definition version_reader (ver_num : Z) : act (FnodeReader.Reader Rd) :=
  _ ← check_closed;
  r ← self can_read;
  if negb r then fail CannotRead else below (FnodeReader.new ver_num).

Definition seek_pos (p : SeekFrom) : act SeekFrom :=
  n ← curr_len;
  q ← self pos;
  x ← lift (match p with
            | Start p => Ok (as_i64 p)
            | SeekEnd p => i64_add (as_i64 n) p
            | Current p => match q with Start q => i64_add p (as_i64 q) | _ => Panic end
            end);
  mret (Start (as_u64 x)).

Definition renew_reader : act () :=
  r ← below FnodeReader.new_current;
  p ← self pos;
  '(_, r) ← below (local r (as_io (FnodeReader.seek p)));
  update (set_rdr (Some r)).

(** A reader that is there is made anew. *)
Definition renew_if_any : act () := r ← self rdr; match r with Some _ => renew_reader | None => mret () end.

Definition set_len (len : Z) : act () :=
  _ ← check_closed;
  x ← self wtr;
  if bool_decide (is_Some x) then fail NotFinish
  else
    c ← self can_write;
    if negb c then fail CannotWrite
    else
      tx ← below begin_trans;
      _ ← run_all tx (below (fn_set_len len tx));
      renew_if_any.

Definition begin_write : act () :=
  c ← self can_write;
  if negb c then fail CannotWrite
  else
    x ← self wtr;
    if bool_decide (is_Some x) then fail NotFinish
    else
      t ← self tx_handle;
      _ ← lift (rassert (bool_decide (t = None)));
      n ← curr_len;
      p ← self pos;
      _ ← (match p with
           | Start p => if n <? p then _ ← set_len p; q ← seek_pos (SeekEnd 0); update (set_pos q) else mret ()
           | _ => lift Panic
           end);
      tx ← below begin_trans;
      _ ← run_in tx
            (wtr ← below (wr_new tx);
             p ← self pos;
             q ← seek_pos p;
             '(_, wtr) ← below (local wtr (as_io (wr_seek q)));
             update (set_wtr (Some wtr)));
      update (set_tx (Some tx)).

Definition finish : act () :=
  _ ← check_closed;
  x ← self wtr;
  _ ← update (set_wtr None);
  match x with
  | Some wtr =>
      t ← self tx_handle;
      _ ← update (set_tx None);
      tx ← lift (unwrap t);
      end_pos ← run_all tx (below (wr_finish wtr));
      _ ← update (set_pos (Start end_pos));
      renew_if_any
  | None => fail NotWrite
  end.

Definition write_once (buf : list byte) : act () :=
  _ ← check_closed;
  x ← self wtr;
  match x with
  | Some _ => fail NotFinish
  | None =>
      _ ← begin_write;
      t ← self tx_handle;
      tx ← lift (unwrap t);
      _ ← run_in tx (on_wtr (as_io (write_all wr_write (S (length buf)) buf)));
      finish
  end.

Definition read (n : Z) : act (list byte) :=
  _ ← check_closed;
  c ← self can_read;
  if negb c then fail CannotRead
  else
    r ← self rdr;
    _ ← (match r with None => renew_reader | Some _ => mret () end);
    bs ← on_rdr (FnodeReader.read n);
    r ← attempt (on_rdr (FnodeReader.seek (Current 0)));
    new_pos ← lift (match r with Ok n => Ok n | _ => Panic end);
    _ ← update (set_pos (Start new_pos));
    mret bs.

Definition write (buf : list byte) : act Z :=
  _ ← check_closed;
  x ← self wtr;
  _ ← (match x with None => begin_write | Some _ => mret () end);
  t ← self tx_handle;
  tx ← lift (unwrap t);
  or_else (run_in tx (on_wtr (as_io (wr_write buf))))
    (λ e, _ ← update (λ f, set_tx None (set_wtr None f)); fail e).

Definition flush : act () :=
  _ ← check_closed;
  x ← self wtr;
  match x with
  | Some _ => t ← self tx_handle; tx ← lift (unwrap t); run_in tx (on_wtr (as_io wr_flush))
  | None => fail CannotWrite
  end.

Definition seek (p : SeekFrom) : act Z :=
  _ ← check_closed;
  x ← self wtr;
  if bool_decide (is_Some x) then fail NotFinish
  else
    r ← self rdr;
    q ← (match r with Some _ => n ← on_rdr (FnodeReader.seek p); mret (Start n) | None => seek_pos p end);
    _ ← update (set_pos q);
    match q with Start n => mret n | _ => lift Panic end.

(** [VersionReader::version]: what the file says of the version the reader reads, as long as it has it. *)
Definition version (r : FnodeReader.Reader Rd) : act Version.Version :=
  look (λ w, l ← fn_history w; ok_or NoVersion (find (λ v, Version.num v =? FnodeReader.version_num r) l)).
End file.
End File.
