(* ===== verification/FileProofs.v ===== *)
(** * Calls on an open file do what the reference file does. *)
From S2P Require Import Prelude Run Base Segment Entry Fnode File.

(** ** What an open file relies on, and what it should do: a file as a sequence of versions. *)

(** ** Versions *)

Module View.
(** The versions of a file with their numbers, the oldest first, and how many are kept. *)
Record View := mkView { vers : list (Z * list byte); limit : Z }.
Definition data (v : View) : list byte := default [] (snd <$> last (vers v)).
Definition num (v : View) : Z := default 0 (fst <$> last (vers v)).
Definition grow (v : View) (bs : list byte) : View :=
  mkView (drop (if limit v <? zlen (vers v) + 1 then 1 else 0) (vers v ++ [(num v + 1, bs)])) (limit v).
Definition resize (n : Z) (bs : list byte) : list byte := ztake n bs ++ replicate (Z.to_nat (n - zlen bs)) 0.
Definition set_len (v : View) (n : Z) : View := if n =? zlen (data v) then v else grow v (resize n (data v)).
End View.
Abbreviation View := View.View.

(** Where a seek leads. *)
Definition target (p : SeekFrom) (len cur : Z) : Z :=
  match p with Start p => p | SeekEnd p => len + p | Current p => cur + p end.
Definition delta (p : SeekFrom) : Z := match p with Start p => p | SeekEnd p => p | Current p => p end.
(** Lengths and positions that an [i64] holds, and their sums. *)
Definition MAX : Z := 2 ^ 62.

(** ** The laws *)

(** The transaction under way has made nothing of the file yet. *)
Definition clean {Tx} (p : option (Tx * option View)) : Prop := p = None ∨ ∃ t, p = Some (t, None).

(** [shows w v p]: [v] is committed; [p] is the transaction under way with what it has made of
    the file. [staged w x t o bs]: the writer [x] of transaction [t] has [bs] to be written at [o].
    [holds r bs o]: the reader reads [bs] and is at [o]. Nothing fails in a steady world. *)
Class FileLaws (W Rd Wr Tx : Type) `{!FileLayer W Rd Wr Tx} := {
  shows : W → View → option (Tx * option View) → Prop;
  staged : W → Wr → Tx → Z → list byte → Prop;
  holds : Rd → list byte → Z → Prop;
  steady : W → Prop;
  kept (w w' : W) := is_closed w' = is_closed w ∧ (steady w → steady w');
  untouched (w w' : W) := kept w w' ∧ (∀ v p, shows w v p → shows w' v p) ∧ (∀ x t o bs, staged w x t o bs → staged w' x t o bs);
  shows_ok w v p : shows w v p → NoDup (View.vers v).*1 ∧ View.vers v ≠ [];
  len_law w v p : shows w v p → clean p → fn_curr_len w = Ok (zlen (View.data v));
  num_law w v p : shows w v p → clean p → fn_curr_ver_num w = Ok (View.num v);
  begin_law w v : shows w v None →
    spec begin_trans w (λ t w', shows w' v (Some (t, None)) ∧ kept w w') (λ e w', shows w' v None ∧ kept w w' ∧ ¬ steady w) (λ _, False);
  commit_law w v t p : shows w v (Some (t, p)) →
    spec (tx_commit t) w (λ _ w', shows w' (default v p) None ∧ kept w w') (λ e w', shows w' v None ∧ kept w w' ∧ ¬ steady w) (λ _, False);
  abort_law w v t p : shows w v (Some (t, p)) →
    spec (tx_abort t) w (λ _ w', shows w' v None ∧ kept w w') (λ e w', shows w' v None ∧ kept w w') (λ _, False);
  reader_law w v p n bs : shows w v p → clean p → (n, bs) ∈ View.vers v →
    spec (version_reader n) w (λ r w', untouched w w' ∧ holds r bs 0) (λ e w', untouched w w' ∧ ¬ steady w) (λ _, False);
  read_law w v p r bs o k : shows w v p → clean p → holds r bs o → bs ∈ (View.vers v).*2 → 0 ≤ o < MAX → 0 ≤ k →
    spec (rd_read k) (r, w) (λ out t, untouched w t.2 ∧ out = ztake k (zdrop o bs) ∧ holds t.1 bs (o + zlen out))
      (λ e t, untouched w t.2 ∧ ¬ steady w) (λ _, False);
  rd_seek_law (w : W) r bs o q : holds r bs o → - MAX < delta q < MAX → 0 ≤ target q (zlen bs) o < MAX →
    spec (rd_seek q) (r, w) (λ n t, n = target q (zlen bs) o ∧ t.2 = w ∧ holds t.1 bs n) (λ _ _, False) (λ _, False);
  wr_new_law w v t : shows w v (Some (t, None)) →
    spec (wr_new t) w (λ x w', shows w' v (Some (t, None)) ∧ kept w w' ∧ staged w' x t 0 [])
      (λ e w', shows w' v (Some (t, None)) ∧ kept w w' ∧ ¬ steady w) (λ _, False);
  wr_seek_law w v t x o : shows w v (Some (t, None)) → staged w x t 0 [] → 0 ≤ o ≤ zlen (View.data v) → o < MAX →
    spec (wr_seek (Start o)) (x, w) (λ _ s, shows s.2 v (Some (t, None)) ∧ kept w s.2 ∧ staged s.2 s.1 t o [])
      (λ e s, shows s.2 v (Some (t, None)) ∧ kept w s.2 ∧ ¬ steady w) (λ _, False);
  wr_write_law w v t x o bs buf : shows w v (Some (t, None)) → staged w x t o bs → o + zlen bs + zlen buf < MAX →
    spec (wr_write buf) (x, w)
      (λ n s, 0 ≤ n ≤ zlen buf ∧ (buf ≠ [] → 0 < n) ∧ shows s.2 v (Some (t, None)) ∧ kept w s.2 ∧ staged s.2 s.1 t o (bs ++ ztake n buf))
      (λ e s, shows s.2 v (Some (t, None)) ∧ kept w s.2 ∧ ¬ steady w) (λ _, False);
  wr_flush_law w v t x o bs : shows w v (Some (t, None)) → staged w x t o bs →
    spec wr_flush (x, w) (λ _ s, shows s.2 v (Some (t, None)) ∧ kept w s.2 ∧ staged s.2 s.1 t o bs)
      (λ e s, shows s.2 v (Some (t, None)) ∧ kept w s.2 ∧ ¬ steady w) (λ _, False);
  wr_finish_law w v t x o bs : shows w v (Some (t, None)) → staged w x t o bs → 0 ≤ o ≤ zlen (View.data v) → zlen (View.data v) < MAX →
    o + zlen bs < MAX → View.num v < MAX →
    spec (wr_finish x) w (λ n w', n = o + zlen bs ∧ kept w w' ∧ shows w' v (Some (t, Some (View.grow v (overwrite (View.data v) o bs)))))
      (λ e w', kept w w' ∧ (∃ p, shows w' v (Some (t, p))) ∧ ¬ steady w) (λ _, False);
  truncate_law w v t n : shows w v (Some (t, None)) → 0 ≤ n < zlen (View.data v) → zlen (View.data v) < MAX → View.num v < MAX →
    spec (fn_truncate t n) w (λ _ w', kept w w' ∧ shows w' v (Some (t, Some (View.grow v (ztake n (View.data v))))))
      (λ e w', kept w w' ∧ (∃ p, shows w' v (Some (t, p))) ∧ ¬ steady w) (λ _, False)
}.
#[export] Hint Mode FileLaws ! - - - - : typeclass_instances.

(** ** The reference *)

Inductive Call :=
  | Seek (p : SeekFrom) | Read (n : Z) | Write (buf : list byte) | Flush | Finish | WriteOnce (buf : list byte) | SetLen (n : Z).
Inductive Out := ONone | ONum (n : Z) | OBytes (bs : list byte).

Module Ref.
(** An open file: its versions, its position, and the write begun: where, and what. *)
Record Ref := mkRef { view : View; at_ : Z; writing : option (Z * list byte); can_read : bool; can_write : bool }.
Definition len (a : Ref) : Z := zlen (View.data (view a)).
Definition set_view (v : View) (a : Ref) : Ref := mkRef v (at_ a) (writing a) (can_read a) (can_write a).
Definition set_at (n : Z) (a : Ref) : Ref := mkRef (view a) n (writing a) (can_read a) (can_write a).
Definition set_writing (x : option (Z * list byte)) (a : Ref) : Ref := mkRef (view a) (at_ a) x (can_read a) (can_write a).
(** A write beyond the end first appends zeros, as a version of its own. *)
Definition extended (a : Ref) : Ref := if len a <? at_ a then set_view (View.set_len (view a) (at_ a)) a else a.
(** What was written becomes a version. *)
Definition finished (a : Ref) (o : Z) (bs : list byte) : Ref :=
  set_at (o + zlen bs) (set_writing None (set_view (View.grow (view a) (overwrite (View.data (view a)) o bs)) a)).

(** A call out of order or without permission. *)
Definition refuses (a : Ref) (c : Call) : option Error :=
  match c, writing a with
  | Seek _, Some _ | WriteOnce _, Some _ | SetLen _, Some _ => Some NotFinish
  | Finish, None => Some NotWrite
  | Flush, None => Some CannotWrite
  | (WriteOnce _ | SetLen _ | Write _), None => if can_write a then None else Some CannotWrite
  | Read _, _ => if can_read a then None else Some CannotRead
  | _, _ => None
  end.
(** The effect of a call that is not refused; a write may take only a part. *)
Definition does (a : Ref) (c : Call) (out : Out) (a' : Ref) : Prop :=
  match c with
  | Seek p => out = ONum (target p (len a) (at_ a)) ∧ a' = set_at (target p (len a) (at_ a)) a
  | Read n => let bs := ztake n (zdrop (at_ a) (View.data (view a))) in out = OBytes bs ∧ a' = set_at (at_ a + zlen bs) a
  | Write buf => ∃ n, out = ONum n ∧ 0 ≤ n ≤ zlen buf ∧ (buf ≠ [] → 0 < n) ∧
      a' = match writing a with
           | Some (o, bs) => set_writing (Some (o, bs ++ ztake n buf)) a
           | None => set_writing (Some (at_ a, ztake n buf)) (extended a)
           end
  | Flush => out = ONone ∧ a' = a
  | Finish => out = ONone ∧ ∃ o bs, writing a = Some (o, bs) ∧ a' = finished a o bs
  | WriteOnce buf => out = ONone ∧ a' = finished (extended a) (at_ a) buf
  | SetLen n => out = ONone ∧ a' = set_view (View.set_len (view a) n) a
  end.
(** What may be committed when a call fails for a cause from below. *)
Definition stages (a : Ref) (c : Call) : list View :=
  view a :: match c with
            | Write _ => [view (extended a)]
            | WriteOnce buf => [view (extended a); view (finished (extended a) (at_ a) buf)]
            | Finish => match writing a with Some (o, bs) => [view (finished a o bs)] | None => [] end
            | SetLen n => [View.set_len (view a) n]
            | _ => []
            end.
(** Within the machine's numbers. *)
Definition fits (a : Ref) (c : Call) : Prop :=
  len a < MAX ∧ View.num (view a) + 2 < MAX ∧
  match c with
  | Seek p => - MAX < delta p < MAX ∧ 0 ≤ target p (len a) (at_ a) < MAX
  | Read n => 0 ≤ n
  | Write buf => match writing a with Some (o, bs) => o + zlen bs + zlen buf < MAX | None => at_ a + zlen buf < MAX end
  | WriteOnce buf => at_ a + zlen buf < MAX
  | SetLen n => 0 ≤ n < MAX
  | _ => True
  end.
End Ref.
Abbreviation Ref := Ref.Ref.
Import File.

(** ** Views *)

Lemma last_drop_snoc {A} (n : nat) (l : list A) x : (n ≤ length l)%nat → last (drop n (l ++ [x])) = Some x.
Proof. intros Hn. rewrite drop_app_le by done. apply last_snoc. Qed.
Lemma grow_last v bs : View.vers v ≠ [] → last (View.vers (View.grow v bs)) = Some (View.num v + 1, bs).
Proof.
  intros Hv. apply last_drop_snoc. assert (0 < length (View.vers v))%nat by (destruct (View.vers v); [done|cbn; lia]). case_match; lia.
Qed.
Lemma data_grow v bs : View.vers v ≠ [] → View.data (View.grow v bs) = bs.
Proof. intros Hv. unfold View.data at 1. by rewrite grow_last. Qed.
Lemma num_grow v bs : View.vers v ≠ [] → View.num (View.grow v bs) = View.num v + 1.
Proof. intros Hv. unfold View.num at 1. by rewrite grow_last. Qed.
Lemma last_in v : View.vers v ≠ [] → (View.num v, View.data v) ∈ View.vers v.
Proof.
  intros Hv. unfold View.num, View.data. destruct (last (View.vers v)) as [[n bs]|] eqn:Hl; [|by apply last_None in Hl].
  cbn. by apply last_Some_elem_of.
Qed.
Lemma resize_append bs n : zlen bs ≤ n → View.resize n bs = overwrite bs (zlen bs) (replicate (Z.to_nat (n - zlen bs)) 0).
Proof.
  intros Hn. unfold View.resize, overwrite. rewrite !ztake_ge by lia. f_equal. rewrite zdrop_ge; [by rewrite app_nil_r|].
  pose proof (zlen_nonneg (replicate (Z.to_nat (n - zlen bs)) 0)). lia.
Qed.
Lemma resize_take bs n : n ≤ zlen bs → View.resize n bs = ztake n bs.
Proof. intros Hn. unfold View.resize. replace (Z.to_nat (n - zlen bs)) with 0%nat by lia. apply app_nil_r. Qed.

(** ** Machine integers *)

Lemma as_i64_small x : 0 ≤ x < MAX → as_i64 x = x.
Proof. intros Hx. unfold as_i64, I63, MAX in *. rewrite (proj2 (Z.ltb_lt _ _)); lia. Qed.
Lemma as_u64_small x : 0 ≤ x < MAX → as_u64 x = x.
Proof. intros Hx. unfold as_u64, U64, MAX in *. apply Z.mod_small. lia. Qed.
Lemma i64_add_small x y : - MAX < x < MAX → - MAX < y < MAX → i64_add x y = Ok (x + y).
Proof.
  intros Hx Hy. unfold i64_add, I63, MAX in *. rewrite (proj2 (Z.leb_le _ _)), (proj2 (Z.ltb_lt _ _)) by lia. done.
Qed.

(** ** Steps *)

Section proofs.
Context {W Rd Wr Tx : Type} `{!FileLayer W Rd Wr Tx, !FileLaws W Rd Wr Tx}.
Abbreviation File := (File.File Rd Wr Tx).
Abbreviation holds := (FileProofs.holds (W:=W) (Rd:=Rd) (Wr:=Wr) (Tx:=Tx)).
Implicit Types (f : File) (w : W) (v : View) (t : Tx) (x : Wr) (r : Rd) (o n : Z) (bs buf : list byte).

Lemma kept_refl w : kept w w.
Proof. done. Qed.
Lemma kept_trans w1 w2 w3 : kept w1 w2 → kept w2 w3 → kept w1 w3.
Proof. intros [H1 H2] [H3 H4]. split; [congruence|auto]. Qed.
Lemma not_steady w w' : kept w w' → ¬ steady w' → ¬ steady w.
Proof. intros [_ H] Hn Hs. auto. Qed.
Lemma untouched_trans w1 w2 w3 : untouched w1 w2 → untouched w2 w3 → untouched w1 w3.
Proof. intros (K1 & S1 & T1) (K2 & S2 & T2). split; [by eapply kept_trans|]. split; auto. Qed.

Lemma below_spec {A} (m : run W A) f w (Q : A → File * W → Prop) E H :
  spec m w (λ a w, Q a (f, w)) (λ e w, E e (f, w)) (λ w, H (f, w)) → spec (below m) (f, w) Q E H.
Proof. intros Hm. by apply spec_zoom. Qed.
Lemma look_spec {A} (g : W → res A) (a : A) f w (Q : A → File * W → Prop) E H : g w = Ok a → Q a (f, w) → spec (look g) (f, w) Q E H.
Proof. intros Hg Hq. apply below_spec. unfold spec. by rewrite Hg. Qed.
Lemma at_w {A} (g : W → res A) (a : A) w (Q : A → W → Prop) E H : g w = Ok a → Q a w → spec (λ w, (Some (g w), w)) w Q E H.
Proof. intros Hg Hq. unfold spec. by rewrite Hg. Qed.
Lemma self_spec {A} (g : File → A) f w (Q : A → File * W → Prop) E H : Q (g f) (f, w) → spec (self g) (f, w) Q E H.
Proof. intros Hq. by apply spec_ask. Qed.
Lemma update_spec (g : File → File) f w (Q : () → File * W → Prop) E H : Q () (g f, w) → spec (update g) (f, w) Q E H.
Proof. intros Hq. by apply spec_modify. Qed.
Lemma local_spec {S A} (m : run (S * W) A) (s : S) w (Q : A * S → W → Prop) E H :
  spec m (s, w) (λ a s', Q (a, s'.1) s'.2) (λ e s', E e s'.2) (λ s', H s'.2) → spec (local s m) w Q E H.
Proof. unfold spec, local. destruct (m (s, w)) as [[[]|] [? ?]]; done. Qed.
Lemma as_io_spec {S A} (m : run S A) s (Q : A → S → Prop) (E : Error → S → Prop) H :
  spec m s Q (λ _, E Io) H → spec (as_io m) s Q E H.
Proof. intros Hm. apply spec_or_else. eapply spec_mono; [exact Hm|done| |done]. intros e s' He. by apply spec_fail. Qed.
Lemma on_wtr_spec {A} (m : run (Wr * W) A) f x w (Q : A → File * W → Prop) E H : wtr f = Some x →
  spec m (x, w) (λ a s, Q a (set_wtr (Some s.1) f, s.2)) (λ e s, E e (set_wtr (Some s.1) f, s.2)) (λ s, H (set_wtr (Some s.1) f, s.2)) →
  spec (on_wtr m) (f, w) Q E H.
Proof.
  intros Hx Hm. unfold spec, on_wtr in *. cbn [fst snd]. rewrite Hx. unfold zoom. cbn [fst snd].
  destruct (m (x, w)) as [[[]|] [? ?]]; done.
Qed.
Lemma on_rdr_spec {A} (m : run (Rd * W) A) f (k : Z) r w (Q : A → File * W → Prop) E H : rdr f = Some (FnodeReader.mkReader k r) →
  let put := λ s : Rd * W, (set_rdr (Some (FnodeReader.mkReader k s.1)) f, s.2) in
  spec m (r, w) (λ a s, Q a (put s)) (λ e s, E e (put s)) (λ s, H (put s)) →
  spec (on_rdr (FnodeReader.inner m)) (f, w) Q E H.
Proof.
  intros Hr put Hm. unfold spec, on_rdr, FnodeReader.inner in *. cbn [fst snd]. rewrite Hr. unfold zoom. cbn [fst snd FnodeReader.rdr FnodeReader.ver].
  destruct (m (r, w)) as [[[]|] [? ?]]; done.
Qed.
Lemma check_closed_spec f w (Q : () → File * W → Prop) E H : is_closed w = false → Q () (f, w) → spec check_closed (f, w) Q E H.
Proof. intros Hc Hq. apply spec_bind. apply (look_spec _ false); [by rewrite Hc|]. by apply spec_ret. Qed.

(** ** Extending and cutting *)

Lemma zero_fill_spec fuel (size buf : Z) w v t x o bs : (Z.to_nat size < fuel)%nat → 0 < buf → 0 ≤ size →
  shows w v (Some (t, None)) → staged w x t o bs → o + zlen bs + size < MAX →
  spec (zero_fill fuel size buf) (x, w)
    (λ _ s, shows s.2 v (Some (t, None)) ∧ kept w s.2 ∧ staged s.2 s.1 t o (bs ++ replicate (Z.to_nat size) 0))
    (λ e s, shows s.2 v (Some (t, None)) ∧ kept w s.2 ∧ ¬ steady w) (λ _, False).
Proof.
  revert size w x bs. induction fuel as [|fuel IH]; intros size w x bs Hfuel Hbuf Hsize Hw Hx Hmax; [lia|]. cbn [zero_fill].
  destruct (0 <? size) eqn:Hs; apply Z.ltb_lt in Hs || apply Z.ltb_ge in Hs.
  2: { replace (Z.to_nat size) with 0%nat by lia. rewrite app_nil_r. by apply spec_ret. }
  set (zeros := replicate (Z.to_nat (Z.min size buf)) 0).
  assert (Hlen : zlen zeros = Z.min size buf) by (unfold zeros; rewrite zlen_replicate; lia).
  apply spec_bind, as_io_spec. eapply spec_mono; [by apply (wr_write_law w v t x o bs zeros); [| |lia]| |done|done].
  intros n [x1 w1] (Hn & Hpos & Hw1 & Hk1 & Hx1). cbn [fst snd] in *.
  assert (0 < n) by (apply Hpos; intros Hz; rewrite Hz, zlen_nil in Hlen; lia).
  rewrite (proj2 (Z.ltb_ge size n)) by lia.
  assert (Htake : ztake n zeros = replicate (Z.to_nat n) 0) by (unfold zeros, ztake; rewrite take_replicate; f_equal; lia).
  rewrite Htake in Hx1. eapply spec_mono; [apply (IH (size - n) w1 x1 (bs ++ replicate (Z.to_nat n) 0)); try done; try lia; rewrite zlen_app, zlen_replicate by lia; lia| | |done].
  - intros _ s (A1 & A2 & A3). split; [done|]. split; [by eapply kept_trans|]. rewrite <- app_assoc, <- replicate_add in A3.
    by replace (Z.to_nat n + Z.to_nat (size - n))%nat with (Z.to_nat size) in A3 by lia.
  - intros e s (A1 & A2 & A3). split; [done|]. split; [by eapply kept_trans|]. by eapply not_steady.
Qed.

Lemma fn_set_len_spec n w v t : shows w v (Some (t, None)) → 0 ≤ n < MAX → zlen (View.data v) < MAX → View.num v < MAX →
  spec (fn_set_len n t) w
    (λ _ w', kept w w' ∧ ∃ p, shows w' v (Some (t, p)) ∧ default v p = View.set_len v n)
    (λ e w', kept w w' ∧ ¬ steady w ∧ ∃ p, shows w' v (Some (t, p))) (λ _, False).
Proof.
  intros Hw Hn Hlen Hnum. unfold fn_set_len. apply spec_bind. eapply at_w; [eapply len_law; [done|right; by eexists]|]. unfold View.set_len.
  set (l := zlen (View.data v)) in *. pose proof (zlen_nonneg (View.data v)). fold l in H.
  destruct (Z.ltb_spec l n) as [Hl|Hl]; [|destruct (Z.ltb_spec n l) as [Hl'|Hl']].
  - rewrite (proj2 (Z.eqb_neq n l)) by lia. apply spec_bind. eapply spec_mono; [by apply (wr_new_law w v t)| | |done].
    2: { intros e w1 (A1 & A2 & A3). split; [done|]. split; [done|]. by exists None. }
    intros x w1 (Hw1 & Hk1 & Hx1). apply spec_bind, local_spec, spec_bind, as_io_spec.
    eapply spec_mono; [by apply (wr_seek_law w1 v t x l); [| |lia..]| |intros e [? w2] (A1 & A2 & A3); (split; [by eapply kept_trans|]; split; [by eapply not_steady|by exists None])|done].
    intros _ [x2 w2] (Hw2 & Hk2 & Hx2). cbn [fst snd] in *.
    eapply spec_mono; [apply (zero_fill_spec (S (Z.to_nat (n - l))) (n - l) (Z.min (n - l) ZERO_BUF) w2 v t x2 l []); try done; unfold ZERO_BUF; try lia; rewrite zlen_nil; lia| | |done].
    2: { intros e [? w3] (A1 & A2 & A3). cbn [fst snd] in *. split; [eapply kept_trans; [done|by eapply kept_trans]|]. split; [by eapply not_steady, not_steady|by exists None]. }
    intros _ [x3 w3] (Hw3 & Hk3 & Hx3). cbn [fst snd app] in *. apply spec_bind.
    eapply spec_mono; [apply (wr_finish_law w3 v t x3 l); try done; rewrite ?zlen_replicate; fold l; lia| | |done].
    + intros _ w4 (_ & Hk4 & Hw4). apply spec_ret. split; [eapply kept_trans; [done|]; eapply kept_trans; [done|by eapply kept_trans]|]. eexists. split; [done|].
      cbn. by rewrite resize_append by (fold l; lia).
    + intros e w4 (Hk4 & Hp & Hns). split; [eapply kept_trans; [done|]; eapply kept_trans; [done|by eapply kept_trans]|]. split; [|done].
      by eapply not_steady, not_steady, not_steady.
  - rewrite (proj2 (Z.eqb_neq n l)) by lia. eapply spec_mono; [by apply (truncate_law w v t n); [|fold l; lia|..]| | |done].
    + intros _ w1 (Hk & Hw1). split; [done|]. eexists. split; [done|]. cbn. by rewrite resize_take by (fold l; lia).
    + by intros e w1 (Hk & Hp & Hns).
  - rewrite (proj2 (Z.eqb_eq n l)) by lia. apply spec_ret. split; [done|]. by exists None.
Qed.

(** The reader is on the last version, where the file is. *)
Lemma renew_spec f w v (p : option (Tx * option View)) (q : Z) : shows w v p → clean p → pos f = Start q → 0 ≤ q < MAX →
  spec renew_reader (f, w)
    (λ _ s, untouched w s.2 ∧ ∃ fr, s.1 = set_rdr (Some fr) f ∧ holds (FnodeReader.rdr fr) (View.data v) q)
    (λ e s, untouched w s.2 ∧ ¬ steady w) (λ _, False).
Proof.
  intros Hw Hp Hpos Hq. destruct (shows_ok w v p Hw) as [_ Hne]. unfold renew_reader. apply spec_bind, below_spec. unfold FnodeReader.new_current.
  apply spec_bind. eapply at_w; [by eapply num_law|]. apply spec_bind.
  eapply spec_mono; [by apply (reader_law w v p (View.num v) (View.data v)); [| |apply last_in]| |done|done].
  intros r w1 (Hk1 & Hr). apply spec_ret, spec_bind, self_spec. rewrite Hpos. apply spec_bind, below_spec, local_spec, as_io_spec.
  unfold FnodeReader.seek, FnodeReader.inner. apply spec_zoom. cbn [fst snd FnodeReader.rdr FnodeReader.ver].
  eapply spec_mono; [by apply (rd_seek_law w1 r (View.data v) 0 (Start q)); [|cbn; lia..]| |done|done].
  intros n [r2 w2] (-> & Heq & Hr2). cbn [fst snd] in *. subst w2. apply update_spec. split; [done|]. by eexists.
Qed.
End proofs.
