(* ===== verification/FileSpec.v ===== *)
(** * An open file refines the reference file, and what fails leaves whole versions. *)
From S2P Require Import Prelude Run Base Segment Entry Fnode File FileProofs.
Import File.

Section spec.
Context {W Rd Wr Tx : Type} `{!FileLayer W Rd Wr Tx, !FileLaws W Rd Wr Tx}.
Abbreviation File := (File.File Rd Wr Tx).
Abbreviation holds := (FileProofs.holds (W:=W) (Rd:=Rd) (Wr:=Wr) (Tx:=Tx)).
Implicit Types (f : File) (w : W) (v : View) (t : Tx) (x : Wr) (o n : Z) (bs buf : list byte).

Definition run_call (c : Call) : run (File * W) Out :=
  match c with
  | Seek p => n ← seek p; mret (ONum n)
  | Read n => bs ← read n; mret (OBytes bs)
  | Write buf => n ← write buf; mret (ONum n)
  | Flush => _ ← flush; mret ONone
  | Finish => _ ← finish; mret ONone
  | WriteOnce buf => _ ← write_once buf; mret ONone
  | SetLen n => _ ← set_len n; mret ONone
  end.

(** ** The invariant *)

(** The reader, if there is one, is on the last version, where the file is. *)
Definition reader_ok f v o : Prop := ∀ fr, rdr f = Some fr → holds (FnodeReader.rdr fr) (View.data v) o.
(** A writer is there with its transaction or not at all. *)
Definition writer_ok f w v (x : option (Z * list byte)) : Prop :=
  match x with
  | None => wtr f = None ∧ tx_handle f = None ∧ shows w v None
  | Some (o, bs) => ∃ x t, wtr f = Some x ∧ tx_handle f = Some t ∧ shows w v (Some (t, None)) ∧ staged w x t o bs ∧
      0 ≤ o ≤ zlen (View.data v) ∧ o + zlen bs < MAX
  end.
Record inv f w (a : Ref) : Prop := {
  i_pos : pos f = Start (Ref.at_ a);
  i_range : 0 ≤ Ref.at_ a < MAX;
  i_open : is_closed w = false;
  i_flags : can_read f = Ref.can_read a ∧ can_write f = Ref.can_write a;
  i_writer : writer_ok f w (Ref.view a) (Ref.writing a);
  i_reader : reader_ok f (Ref.view a) (Ref.at_ a)
}.

Lemma writer_shows f w v (y : option (Z * list byte)) : writer_ok f w v y → ∃ p, shows w v p ∧ clean p.
Proof. destruct y as [[o bs]|]; [intros (x & t & _ & _ & ? & _); eexists; split; [done|right; by eexists]|intros (_ & _ & ?); eexists; split; [done|by left]]. Qed.

(** The run of a transaction. *)
Lemma run_all_spec {A} (t : Tx) (oper : run (File * W) A) f w v (Q : A → File * W → Prop) (E : Error → File * W → Prop) :
  spec oper (f, w)
    (λ a s, s.1 = f ∧ kept w s.2 ∧ ∃ p, shows s.2 v (Some (t, p)) ∧
       (∀ w', shows w' (default v p) None → kept w w' → Q a (f, w')))
    (λ e s, s.1 = f ∧ kept w s.2 ∧ (∃ p, shows s.2 v (Some (t, p))) ∧ ¬ steady w) (λ _, False) →
  (∀ e w', shows w' v None → kept w w' → ¬ steady w → E e (f, w')) →
  spec (run_all t oper) (f, w) Q E (λ _, False).
Proof.
  intros Ho HE. unfold run_all. apply spec_bind, spec_attempt. eapply spec_mono; [exact Ho| | |done].
  - intros a [f1 w1] (Hf & Hk & p & Hw1 & HQ). cbn [fst snd] in *. subst f1. apply spec_bind, below_spec.
    eapply spec_mono; [by apply (commit_law w1 v t p)| | |done].
    + intros _ w2 (Hw2 & Hk2). apply spec_ret, HQ; [done|by eapply kept_trans].
    + intros e w2 (Hw2 & Hk2 & Hns). apply HE; [done|by eapply kept_trans|by eapply not_steady].
  - intros e [f1 w1] (Hf & Hk & [p Hw1] & Hns). cbn [fst snd] in *. subst f1. unfold abort. apply spec_bind, below_spec.
    eapply spec_mono; [by apply (abort_law w1 v t p)| | |done].
    + intros _ w2 (Hw2 & Hk2). apply spec_fail, HE; [done|by eapply kept_trans|done].
    + intros e2 w2 (Hw2 & Hk2). apply HE; [done|by eapply kept_trans|done].
Qed.

(** A call below within a transaction that goes on; when it fails the transaction is gone. *)
Lemma run_in_spec {A} (t : Tx) (oper : run (File * W) A) f w v (Q : A → File * W → Prop) (E : Error → File * W → Prop) :
  spec oper (f, w) Q (λ e s, kept w s.2 ∧ shows s.2 v (Some (t, None)) ∧ ¬ steady w) (λ _, False) →
  (∀ e f' w', shows w' v None → kept w w' → ¬ steady w → E e (f', w')) →
  spec (run_in t oper) (f, w) Q E (λ _, False).
Proof.
  intros Ho HE. apply spec_or_else. eapply spec_mono; [exact Ho|done| |done].
  intros e [f1 w1] (Hk & Hw1 & Hns). cbn [fst snd] in *. unfold abort. apply spec_bind, below_spec.
  eapply spec_mono; [by apply (abort_law w1 v t None)| | |done].
  + intros _ w2 (Hw2 & Hk2). apply spec_fail, HE; [done|by eapply kept_trans|done].
  + intros e2 w2 (Hw2 & Hk2). apply HE; [done|by eapply kept_trans|done].
Qed.

(** The reader made anew, if there is one. *)
Lemma renew_if_spec f w v o : shows w v None → pos f = Start o → 0 ≤ o < MAX →
  spec renew_if_any (f, w)
    (λ _ s, kept w s.2 ∧ shows s.2 v None ∧ ∃ fr, s.1 = set_rdr fr f ∧ reader_ok s.1 v o)
    (λ e s, kept w s.2 ∧ shows s.2 v None ∧ ¬ steady w) (λ _, False).
Proof.
  intros Hw Hpos Ho. unfold renew_if_any. apply spec_bind, self_spec. destruct (rdr f) as [fr|] eqn:Hr.
  - eapply spec_mono; [by apply (renew_spec f w v None o); [|left|..]| | |done].
    + intros _ [f1 w1] ((Hk & Hs & _) & fr' & Hf1 & Hh). cbn [fst snd] in *. split; [done|]. split; [by apply Hs|]. eexists. split; [done|].
      subst f1. by intros ? [= <-].
    + intros e [f1 w1] ((Hk & Hs & _) & Hns). split; [done|]. split; [by apply Hs|done].
  - apply spec_ret. split; [done|]. split; [done|]. exists None. cbn [fst]. split; [by destruct f; cbn in *; subst|]. intros fr. congruence.
Qed.

(** ** [set_len] *)

Lemma set_len_spec f w v o n : is_closed w = false → wtr f = None → can_write f = true → shows w v None → pos f = Start o → 0 ≤ o < MAX →
  0 ≤ n < MAX → zlen (View.data v) < MAX → View.num v < MAX →
  spec (set_len n) (f, w)
    (λ _ s, kept w s.2 ∧ shows s.2 (View.set_len v n) None ∧ ∃ fr, s.1 = set_rdr fr f ∧ reader_ok s.1 (View.set_len v n) o)
    (λ e s, kept w s.2 ∧ ¬ steady w ∧ ∃ v', v' ∈ [v; View.set_len v n] ∧ shows s.2 v' None) (λ _, False).
Proof.
  intros Hcl Hwtr Hcw Hw Hpos Ho Hn Hlen Hnum. unfold set_len. apply spec_bind, check_closed_spec; [done|]. apply spec_bind, self_spec. rewrite Hwtr. cbn [is_Some].
  rewrite bool_decide_eq_false_2 by by intros [? ?]. apply spec_bind, self_spec. rewrite Hcw. cbn [negb]. apply spec_bind, below_spec.
  eapply spec_mono; [by apply (begin_law w v)| | |done].
  2: { intros e w1 (A1 & A2 & A3). split; [done|]. split; [done|]. exists v. split; [by left|done]. }
  intros t w1 (Hw1 & Hk1). apply spec_bind. eapply (run_all_spec t _ f w1 v).
  - apply below_spec. eapply spec_mono; [by apply (fn_set_len_spec n w1 v t)| | |done].
    + intros _ w2 (Hk2 & p & Hw2 & Hdef). cbn [fst snd]. split; [done|]. split; [done|]. exists p. split; [done|]. rewrite Hdef. intros w3 Hw3 Hk3.
      eapply spec_mono; [by apply (renew_if_spec f w3 (View.set_len v n) o)| | |done].
      * intros _ s (A1 & A2 & A3). split; [eapply kept_trans; [done|by eapply kept_trans]|]. done.
      * intros e s (A1 & A2 & A3). split; [eapply kept_trans; [done|by eapply kept_trans]|]. split; [by eapply not_steady, not_steady|].
        exists (View.set_len v n). split; [right; by left|done].
    + by intros e w2 (Hk2 & Hns & Hp).
  - intros e w2 A1 A2 A3. split; [by eapply kept_trans|]. split; [by eapply not_steady|]. exists v. split; [by left|done].
Qed.

(** ** Beginning to write *)

Lemma seek_pos_spec f w v (p : option (Tx * option View)) q o (Q : SeekFrom → File * W → Prop) E H : shows w v p → clean p → pos f = Start o → 0 ≤ o < MAX →
  zlen (View.data v) < MAX → - MAX < delta q < MAX → 0 ≤ target q (zlen (View.data v)) o < MAX →
  Q (Start (target q (zlen (View.data v)) o)) (f, w) → spec (seek_pos q) (f, w) Q E H.
Proof.
  intros Hw Hp Hpos Ho Hlen Hd Ht HQ. pose proof (zlen_nonneg (View.data v)). unfold seek_pos. apply spec_bind. eapply look_spec; [by eapply len_law|].
  apply spec_bind, self_spec, spec_bind. set (l := zlen (View.data v)) in *.
  assert (Hx : match q with
               | Start p => Ok (as_i64 p)
               | SeekEnd p => i64_add (as_i64 l) p
               | Current p => match pos f with Start q => i64_add p (as_i64 q) | _ => Panic end
               end = Ok (target q l o)).
  { rewrite Hpos. destruct q as [p0|p0|p0]; cbn in *; rewrite as_i64_small by lia; [done|by apply i64_add_small; lia|rewrite Z.add_comm; by apply i64_add_small; lia]. }
  rewrite Hx. apply spec_lift_ok, spec_ret. rewrite as_u64_small by done. done.
Qed.

Lemma set_len_data v n : View.vers v ≠ [] → 0 ≤ n → zlen (View.data (View.set_len v n)) = n.
Proof.
  intros Hv Hn. unfold View.set_len. destruct (Z.eqb_spec n (zlen (View.data v))) as [->|Hne]; [done|]. rewrite data_grow by done.
  unfold View.resize. rewrite zlen_app, zlen_ztake by done. unfold zlen at 2. rewrite length_replicate. pose proof (zlen_nonneg (View.data v)). lia.
Qed.
Lemma set_len_num v n : View.vers v ≠ [] → View.num v ≤ View.num (View.set_len v n) ≤ View.num v + 1.
Proof. intros Hv. unfold View.set_len. case_match; [lia|]. rewrite num_grow by done. lia. Qed.
Lemma extended_facts (a : Ref) : View.vers (Ref.view a) ≠ [] → 0 ≤ Ref.at_ a →
  Ref.at_ a ≤ Ref.len (Ref.extended a) ∧ Ref.len (Ref.extended a) ≤ Z.max (Ref.len a) (Ref.at_ a) ∧ Ref.at_ (Ref.extended a) = Ref.at_ a ∧
  Ref.can_read (Ref.extended a) = Ref.can_read a ∧ Ref.can_write (Ref.extended a) = Ref.can_write a ∧
  View.num (Ref.view (Ref.extended a)) ≤ View.num (Ref.view a) + 1.
Proof.
  intros Hv Ha. unfold Ref.extended. destruct (Z.ltb_spec (Ref.len a) (Ref.at_ a)) as [Hl|Hl]; [|split_and!; try done; lia].
  unfold Ref.len in *. cbn. rewrite set_len_data by done. pose proof (set_len_num (Ref.view a) (Ref.at_ a) Hv). split_and!; try done; lia.
Qed.

(** The writer at the position, in a transaction of its own. *)
Lemma begin_at f w v o : shows w v None → wtr f = None → pos f = Start o → 0 ≤ o ≤ zlen (View.data v) → o < MAX → zlen (View.data v) < MAX → reader_ok f v o →
  spec (tx ← below begin_trans;
        _ ← run_in tx (wtr ← below (wr_new tx); p ← self pos; q ← seek_pos p; '(_, wtr) ← below (local wtr (as_io (wr_seek q))); update (set_wtr (Some wtr)));
        update (set_tx (Some tx))) (f, w)
    (λ _ s, kept w s.2 ∧ writer_ok s.1 s.2 v (Some (o, [])) ∧ pos s.1 = Start o ∧ rdr s.1 = rdr f ∧ can_read s.1 = can_read f ∧ can_write s.1 = can_write f)
    (λ e s, kept w s.2 ∧ ¬ steady w ∧ shows s.2 v None) (λ _, False).
Proof.
  intros Hw Hwtr Hpos Ho Hmax Hlen Hrd. apply spec_bind, below_spec. eapply spec_mono; [by apply (begin_law w v)| | |done].
  2: by intros e w1 (A1 & A2 & A3).
  intros t w1 (Hw1 & Hk1). apply spec_bind.
  eapply (run_in_spec t _ f w1 v); [|intros e f' w' A1 A2 A3; split; [by eapply kept_trans|]; split; [by eapply not_steady|done]].
  apply spec_bind, below_spec. eapply spec_mono; [by apply (wr_new_law w1 v t)| | |done].
  2: by intros e w2 (A1 & A2 & A3).
  intros x w2 (Hw2 & Hk2 & Hx2). apply spec_bind, self_spec, spec_bind. rewrite Hpos.
  eapply (seek_pos_spec f w2 v _ _ o); [done|right; by eexists|done|lia|done|cbn; lia|cbn; lia|]. cbn [target].
  apply spec_bind, below_spec, local_spec, as_io_spec. eapply spec_mono; [by apply (wr_seek_law w2 v t x o)| | |done].
  2: { intros e [? w3] (A1 & A2 & A3). cbn [fst snd] in *. split; [by eapply kept_trans|]. split; [done|by eapply not_steady]. }
  intros _ [x3 w3] (Hw3 & Hk3 & Hx3). cbn [fst snd] in *. apply update_spec, update_spec. split; [eapply kept_trans; [done|]; by eapply kept_trans|].
  split; [|done]. exists x3, t. cbn [fst snd]. assert (Hz : zlen (@nil byte) = 0) by done. split_and!; try done; lia.
Qed.

Lemma begin_write_spec f w (a : Ref) : inv f w a → Ref.writing a = None → Ref.can_write a = true → Ref.len a < MAX → View.num (Ref.view a) < MAX →
  spec begin_write (f, w)
    (λ _ s, kept w s.2 ∧ inv s.1 s.2 (Ref.set_writing (Some (Ref.at_ a, [])) (Ref.extended a)))
    (λ e s, kept w s.2 ∧ ¬ steady w ∧ ∃ v', v' ∈ [Ref.view a; Ref.view (Ref.extended a)] ∧ shows s.2 v' None) (λ _, False).
Proof.
  intros [Hpos Hrange Hopen [Hfr Hfw] Hwr Hrd] Hnone Hcw Hlen Hnum. rewrite Hnone in Hwr. destruct Hwr as (Hwtr & Htx & Hw). destruct (shows_ok w _ _ Hw) as [_ Hne].
  unfold begin_write. apply spec_bind, self_spec. rewrite Hfw, Hcw. cbn [negb]. apply spec_bind, self_spec. rewrite Hwtr, bool_decide_eq_false_2 by by intros [? ?].
  apply spec_bind, self_spec, spec_bind. rewrite Htx, bool_decide_eq_true_2 by done. apply spec_lift_ok, spec_bind. eapply look_spec; [eapply len_law; [done|by left]|].
  apply spec_bind, self_spec. rewrite Hpos. fold (Ref.len a).
  (* the rest, at the position of a view that is long enough *)
  assert (Hrest : ∀ f1 w1 (a1 : Ref), kept w w1 → shows w1 (Ref.view a1) None → wtr f1 = None → pos f1 = Start (Ref.at_ a) → Ref.at_ a ≤ Ref.len a1 → Ref.len a1 < MAX →
    reader_ok f1 (Ref.view a1) (Ref.at_ a) → can_read f1 = Ref.can_read a → can_write f1 = Ref.can_write a → a1 = Ref.extended a →
    spec (tx ← below begin_trans;
        _ ← run_in tx (wtr ← below (wr_new tx); p ← self pos; q ← seek_pos p; '(_, wtr) ← below (local wtr (as_io (wr_seek q))); update (set_wtr (Some wtr)));
        update (set_tx (Some tx))) (f1, w1)
    (λ _ s, kept w s.2 ∧ inv s.1 s.2 (Ref.set_writing (Some (Ref.at_ a, [])) (Ref.extended a)))
    (λ e s, kept w s.2 ∧ ¬ steady w ∧ ∃ v', v' ∈ [Ref.view a; Ref.view (Ref.extended a)] ∧ shows s.2 v' None) (λ _, False)).
  { intros f1 w1 a1 Hk1 Hw1 Hwtr1 Hpos1 Hat Hlen1 Hrd1 Hfr1 Hfw1 ->. destruct (extended_facts a Hne) as (_ & _ & E1 & E2 & E3 & _); [lia|].
    eapply spec_mono; [apply (begin_at f1 w1 (Ref.view (Ref.extended a)) (Ref.at_ a)); try done; unfold Ref.len in *; lia| | |done].
    - intros _ [f2 w2] (Hk2 & B1 & B2 & B3 & B4 & B5). cbn [fst snd] in *. split; [by eapply kept_trans|]. split; try done.
      + cbn. by rewrite E1.
      + cbn. by rewrite E1.
      + cbn. destruct (kept_trans _ _ _ Hk1 Hk2) as [-> _]. done.
      + cbn. rewrite E2, E3. split; congruence.
      + cbn [Ref.view Ref.at_ Ref.set_writing]. rewrite E1. intros fr. rewrite B3. apply Hrd1.
    - intros e s (A1 & A2 & A3). split; [by eapply kept_trans|]. split; [by eapply not_steady|]. eexists. split; [right; by left|done]. }
  assert (Hext : Ref.extended a = if Ref.len a <? Ref.at_ a then Ref.set_view (View.set_len (Ref.view a) (Ref.at_ a)) a else a) by done.
  destruct (Z.ltb_spec (Ref.len a) (Ref.at_ a)) as [Hl|Hl].
  - apply spec_bind, spec_bind. eapply spec_mono; [by apply (set_len_spec f w (Ref.view a) (Ref.at_ a) (Ref.at_ a)); try done; congruence| | |done].
    2: { intros e s (A1 & A2 & v' & Hv' & A3). split; [done|]. split; [done|]. exists v'. rewrite Hext. done. }
    intros _ [f1 w1] (Hk1 & Hw1 & fr & Hf1 & Hrd1). cbn [fst snd] in *. apply spec_bind. subst f1.
    eapply (seek_pos_spec _ w1 (View.set_len (Ref.view a) (Ref.at_ a)) None (SeekEnd 0) (Ref.at_ a)); try done; [by left|rewrite set_len_data by (done || lia); lia|cbn; rewrite set_len_data by (done || lia); lia|].
    cbn [target]. rewrite set_len_data, Z.add_0_r by (done || lia). apply update_spec.
    apply (Hrest _ _ (Ref.set_view (View.set_len (Ref.view a) (Ref.at_ a)) a)); try done.
    + unfold Ref.len. cbn. rewrite set_len_data by (done || lia). lia.
    + unfold Ref.len. cbn. rewrite set_len_data by (done || lia). lia.
  - apply spec_bind, spec_ret. by apply (Hrest _ _ a).
Qed.

(** ** Writing and finishing *)

(** The failure of a call for a cause from below. *)
Definition broken w (l : list View) (s : File * W) : Prop := kept w s.2 ∧ ¬ steady w ∧ ∃ v' p, v' ∈ l ∧ shows s.2 v' p.
Lemma broken_trans w1 w2 l l' s : kept w1 w2 → l ⊆ l' → broken w2 l s → broken w1 l' s.
Proof. intros Hk Hl (A1 & A2 & v & p & A3 & A4). split; [by eapply kept_trans|]. split; [by eapply not_steady|]. exists v, p. split; [by apply Hl|done]. Qed.

Lemma wr_write_all_spec fuel buf w v t x o bs : (length buf < fuel)%nat → shows w v (Some (t, None)) → staged w x t o bs → o + zlen bs + zlen buf < MAX →
  spec (write_all wr_write fuel buf) (x, w)
    (λ _ s, shows s.2 v (Some (t, None)) ∧ kept w s.2 ∧ staged s.2 s.1 t o (bs ++ buf))
    (λ e s, shows s.2 v (Some (t, None)) ∧ kept w s.2 ∧ ¬ steady w) (λ _, False).
Proof.
  revert buf w x bs. induction fuel as [|fuel IH]; intros buf w x bs Hfuel Hw Hx Hmax; [lia|]. cbn [write_all].
  destruct buf as [|b buf]; [apply spec_ret; by rewrite app_nil_r|]. set (data := b :: buf) in *.
  apply spec_bind. eapply spec_mono; [by apply (wr_write_law w v t x o bs data)| |done|done].
  intros n [x1 w1] (Hn & Hpos & Hw1 & Hk1 & Hx1). cbn [fst snd] in *. specialize (Hpos ltac:(done)).
  rewrite (proj2 (Z.eqb_neq n 0)), (proj2 (Z.ltb_ge (zlen data) n)) by lia.
  assert (Hl : zlen (ztake n data) + zlen (drop (Z.to_nat n) data) = zlen data) by (rewrite <- (ztake_zdrop n data) at 3; by rewrite zlen_app).
  eapply spec_mono; [apply (IH (drop (Z.to_nat n) data) w1 x1 (bs ++ ztake n data)); try done| | |done].
  - rewrite length_drop. unfold data in *. cbn [length] in *. lia.
  - rewrite zlen_app. lia.
  - intros _ s (A1 & A2 & A3). split; [done|]. split; [by eapply kept_trans|]. rewrite <- app_assoc in A3. change (drop (Z.to_nat n) data) with (zdrop n data) in A3.
    by rewrite ztake_zdrop in A3.
  - intros e s (A1 & A2 & A3). split; [done|]. split; [by eapply kept_trans|by eapply not_steady].
Qed.

(** What the writer has taken. *)
Lemma taken_inv f w w' (a : Ref) o bs bs' x' t : inv f w (Ref.set_writing (Some (o, bs)) a) → kept w w' → tx_handle f = Some t →
  shows w' (Ref.view a) (Some (t, None)) → staged w' x' t o bs' → 0 ≤ o ≤ Ref.len a → o + zlen bs' < MAX →
  inv (set_wtr (Some x') f) w' (Ref.set_writing (Some (o, bs')) a).
Proof.
  intros [I1 I2 I3 I4 I5 I6] [Hk _] Ht Hw Hx Ho Hmax. split; try done; [cbn; congruence|]. cbn [Ref.writing Ref.set_writing]. exists x', t. done.
Qed.

Lemma file_finish_spec f w (a : Ref) o bs : inv f w a → Ref.writing a = Some (o, bs) → Ref.len a < MAX → View.num (Ref.view a) < MAX →
  spec finish (f, w) (λ _ s, kept w s.2 ∧ inv s.1 s.2 (Ref.finished a o bs))
    (λ _, broken w [Ref.view a; Ref.view (Ref.finished a o bs)]) (λ _, False).
Proof.
  intros [Hpos Hrange Hopen [Hfr Hfw] Hwr Hrd] Hwriting Hlen Hnum. rewrite Hwriting in Hwr. destruct Hwr as (x & t & Hx & Ht & Hw & Hst & Ho & Hmax).
  destruct (shows_ok w _ _ Hw) as [_ Hne]. pose proof (zlen_nonneg bs). set (v' := View.grow (Ref.view a) (overwrite (View.data (Ref.view a)) o bs)).
  unfold finish. apply spec_bind, check_closed_spec; [done|]. apply spec_bind, self_spec. rewrite Hx. apply spec_bind, update_spec, spec_bind, self_spec.
  change (tx_handle (set_wtr None f)) with (tx_handle f). rewrite Ht. apply spec_bind, update_spec, spec_bind, spec_lift_ok.
  set (f1 := set_tx None (set_wtr None f)). apply spec_bind. eapply (run_all_spec t _ f1 w (Ref.view a)).
  - apply below_spec. eapply spec_mono; [by apply (wr_finish_law w (Ref.view a) t x o bs)| | |done].
    + intros n w1 (-> & Hk1 & Hw1). cbn [fst snd]. split; [done|]. split; [done|]. eexists. split; [done|]. cbn [default]. intros w2 Hw2 Hk2.
      apply spec_bind, update_spec. eapply spec_mono; [apply (renew_if_spec _ w2 v' (o + zlen bs)); [done|done|lia]| | |done].
      * intros _ [f3 w3] (Hk3 & Hw3 & fr & Hf3 & Hrd3). cbn [fst snd] in *. subst f3. pose proof (kept_trans _ _ _ Hk2 Hk3) as Hk23.
        split; [done|]. split; try done; [cbn; lia|destruct Hk23; congruence].
      * intros e [f3 w3] (Hk3 & Hw3 & Hns). split; [by eapply kept_trans|]. split; [by eapply not_steady|]. exists v', None. split; [right; by left|done].
    + by intros e w1 (Hk1 & Hp & Hns).
  - intros e w1 Hw1 Hk1 Hns. split; [done|]. split; [done|]. exists (Ref.view a), None. split; [by left|done].
Qed.

Lemma write_once_spec f w (a : Ref) buf : inv f w a → Ref.writing a = None → Ref.can_write a = true → Ref.fits a (WriteOnce buf) →
  spec (write_once buf) (f, w) (λ _ s, kept w s.2 ∧ inv s.1 s.2 (Ref.finished (Ref.extended a) (Ref.at_ a) buf))
    (λ _, broken w (Ref.stages a (WriteOnce buf))) (λ _, False).
Proof.
  intros Hinv Hnone Hcw (Hlen & Hnum & Hmax). pose proof Hinv as [Hpos Hrange Hopen _ Hwr _]. rewrite Hnone in Hwr. destruct Hwr as (Hwtr & _ & Hw).
  destruct (shows_ok w _ _ Hw) as [_ Hne]. destruct (extended_facts a Hne) as (E0 & E1 & E2 & _ & _ & E5); [lia|]. pose proof (zlen_nonneg buf).
  unfold write_once. apply spec_bind, check_closed_spec; [done|]. apply spec_bind, self_spec. rewrite Hwtr. apply spec_bind.
  eapply spec_mono; [by apply (begin_write_spec f w a); [| | | |lia]| | |done].
  2: { intros e s (A1 & A2 & v' & A3 & A4). split; [done|]. split; [done|]. exists v', None. split; [|done]. cbn [Ref.stages]. set_solver. }
  intros _ [f1 w1] (Hk1 & Hinv1). cbn [fst snd] in *. pose proof Hinv1 as [_ _ _ _ (x & t & Hx & Ht & Hw1 & Hst & Ho & _) _]. cbn [Ref.view Ref.set_writing] in *.
  apply spec_bind, self_spec. rewrite Ht. apply spec_bind, spec_lift_ok, spec_bind.
  eapply (run_in_spec t _ f1 w1 (Ref.view (Ref.extended a))).
  2: { intros e f' w' A1 A2 A3. split; [by eapply kept_trans|]. split; [by eapply not_steady|]. exists (Ref.view (Ref.extended a)), None. split; [right; by left|done]. }
  eapply on_wtr_spec; [done|]. apply as_io_spec.
  eapply spec_mono; [apply (wr_write_all_spec _ buf w1 (Ref.view (Ref.extended a)) t x (Ref.at_ a) []); [lia|done|done|rewrite zlen_nil; lia]| | |done].
  2: by intros e [x2 w2] (A1 & A2 & A3).
  intros _ [x2 w2] (Hw2 & Hk2 & Hx2). cbn [fst snd app] in *.
  pose proof (taken_inv f1 w1 w2 (Ref.extended a) (Ref.at_ a) [] buf x2 t Hinv1 Hk2 Ht Hw2 Hx2 Ho ltac:(lia)) as Hinv2.
  eapply spec_mono; [apply (file_finish_spec _ w2 _ (Ref.at_ a) buf Hinv2); [done|cbn; unfold Ref.len in *; cbn; lia|cbn; lia]| | |done].
  - intros _ s (Hk3 & Hinv3). split; [eapply kept_trans; [done|by eapply kept_trans]|done].
  - intros e s Hb. eapply broken_trans; [by eapply kept_trans| |exact Hb]. cbn. set_solver.
Qed.

(** A write when one has begun. *)
Lemma write_taken f w (a : Ref) o bs buf : inv f w (Ref.set_writing (Some (o, bs)) a) → o + zlen bs + zlen buf < MAX →
  spec (t ← self tx_handle; tx ← lift (unwrap t); or_else (run_in tx (on_wtr (as_io (wr_write buf)))) (λ e, _ ← update (λ f, set_tx None (set_wtr None f)); fail e)) (f, w)
    (λ n s, kept w s.2 ∧ 0 ≤ n ≤ zlen buf ∧ (buf ≠ [] → 0 < n) ∧ inv s.1 s.2 (Ref.set_writing (Some (o, bs ++ ztake n buf)) a))
    (λ _, broken w [Ref.view a]) (λ _, False).
Proof.
  intros Hinv Hmax. pose proof Hinv as [_ _ _ _ (x & t & Hx & Ht & Hw & Hst & Ho & _) _]. cbn [Ref.view Ref.set_writing] in *.
  apply spec_bind, self_spec. rewrite Ht. apply spec_bind, spec_lift_ok, spec_or_else. eapply (run_in_spec t _ f w (Ref.view a)).
  2: { intros e f' w' A1 A2 A3. apply spec_bind, update_spec, spec_fail. split; [done|]. split; [done|]. exists (Ref.view a), None. split; [by left|done]. }
  eapply on_wtr_spec; [done|]. apply as_io_spec. eapply spec_mono; [by apply (wr_write_law w (Ref.view a) t x o bs buf)| | |done].
  2: by intros e [x2 w2] (A1 & A2 & A3).
  intros n [x1 w1] (Hn & Hp & Hw1 & Hk1 & Hx1). cbn [fst snd] in *. split; [done|]. split; [done|]. split; [done|].
  eapply taken_inv; try done. rewrite zlen_app, zlen_ztake by lia. lia.
Qed.
End spec.
