(* ===== verification/FileCalls.v ===== *)
(** * Sequences of calls on an open file. *)
From S2P Require Import Prelude Run Base Segment Entry Fnode File FileProofs FileSpec.
Import File.

Section calls.
Context {W Rd Wr Tx : Type} `{!FileLayer W Rd Wr Tx, !FileLaws W Rd Wr Tx}.
Abbreviation File := (File.File Rd Wr Tx).
Implicit Types (f : File) (w : W) (v : View) (t : Tx) (o n : Z) (bs buf : list byte) (a : Ref) (c : Call) (cs : list Call) (outs : list (res Out)).

(** What a call does, and how it fails. *)
Definition obeys {A} (m : run (File * W) A) (g : A → Out) c f w a : Prop :=
  spec m (f, w)
    (λ x s, kept w s.2 ∧ Ref.refuses a c = None ∧ ∃ a', Ref.does a c (g x) a' ∧ inv s.1 s.2 a')
    (λ e s, (kept w s.2 ∧ Ref.refuses a c = Some e ∧ inv s.1 s.2 a) ∨ broken w (Ref.stages a c) s) (λ _, False).
Lemma inv_idle f w a : inv f w a → Ref.writing a = None → inv f w a ∧ wtr f = None ∧ tx_handle f = None ∧ shows w (Ref.view a) None.
Proof. intros Hi Hn. split; [done|]. destruct Hi as [_ _ _ _ Hw _]. by rewrite Hn in Hw. Qed.
Lemma writing_some f w a : inv f w a → is_Some (wtr f) ↔ is_Some (Ref.writing a).
Proof.
  intros [_ _ _ _ Hw _]. destruct (Ref.writing a) as [[o bs]|].
  - destruct Hw as (x & t & -> & _). split; intros _; by eexists.
  - destruct Hw as (-> & _). done.
Qed.
Lemma writing_same f w a o bs : inv f w a → Ref.writing a = Some (o, bs) → a = Ref.set_writing (Some (o, bs)) a.
Proof. destruct a. cbn. by intros _ ->. Qed.

Lemma seek_obeys f w a p : inv f w a → Ref.fits a (Seek p) → obeys (seek p) ONum (Seek p) f w a.
Proof.
  intros Hinv (Hlen & Hnum & Hd & Ht). pose proof Hinv as [Hpos Hrange Hopen Hfl Hwr Hrd]. pose proof (writing_some _ _ _ Hinv) as Hws.
  unfold obeys, seek. apply spec_bind, check_closed_spec; [done|]. apply spec_bind, self_spec. destruct (Ref.writing a) as [[o bs]|] eqn:Hwriting.
  { rewrite bool_decide_eq_true_2 by (apply Hws; by eexists). apply spec_fail. left. split; [done|]. split; [|done]. cbn. by rewrite Hwriting. }
  destruct Hwr as (Hwtr & Htx & Hw). rewrite Hwtr, bool_decide_eq_false_2 by by intros [? ?]. apply spec_bind, self_spec.
  set (q := target p (Ref.len a) (Ref.at_ a)) in *.
  assert (Hend : ∀ f', f' = set_pos (Start q) f ∨ (∃ fr, f' = set_pos (Start q) (set_rdr (Some fr) f)) → reader_ok (W:=W) f' (Ref.view a) q →
    kept w w ∧ Ref.refuses a (Seek p) = None ∧ ∃ a', Ref.does a (Seek p) (ONum q) a' ∧ inv f' w a').
  { intros f' Hf' Hr'. split; [done|]. split; [cbn; by rewrite Hwriting|]. exists (Ref.set_at q a). split; [done|].
    destruct Hf' as [->|[fr ->]]; split; try done; cbn [Ref.writing Ref.set_at]; by rewrite Hwriting. }
  apply spec_bind. destruct (rdr f) as [[k r]|] eqn:Hr.
  - specialize (Hrd _ Hr). cbn [FnodeReader.rdr] in Hrd. apply spec_bind. unfold FnodeReader.seek. eapply on_rdr_spec; [done|].
    eapply spec_mono; [by apply (rd_seek_law w r (View.data (Ref.view a)) (Ref.at_ a) p)| |done|done].
    intros n [r1 w1] (-> & Heq & Hh). cbn [fst snd] in *. subst w1. apply spec_ret, spec_bind, update_spec, spec_ret. cbn [fst snd]. apply Hend.
    + right. by eexists.
    + by intros fr [= <-].
  - eapply (seek_pos_spec f w (Ref.view a) None p (Ref.at_ a)); try done; [by left|]. apply spec_bind, update_spec, spec_ret. cbn [fst snd]. apply Hend; [by left|].
    intros fr. cbn. congruence.
Qed.

Lemma read_obeys f w a n : inv f w a → Ref.fits a (Read n) → obeys (read n) OBytes (Read n) f w a.
Proof.
  intros Hinv (Hlen & Hnum & Hn). pose proof Hinv as [Hpos Hrange Hopen [Hfr Hfw] Hwr Hrd]. destruct (writer_shows _ _ _ _ Hwr) as (pp & Hw & Hcl).
  destruct (shows_ok w _ _ Hw) as [_ Hne]. set (bs := View.data (Ref.view a)) in *. pose proof (zlen_nonneg bs).
  unfold obeys, read. apply spec_bind, check_closed_spec; [done|]. apply spec_bind, self_spec. rewrite Hfr. destruct (Ref.can_read a) eqn:Hcr; cbn [negb].
  2: { apply spec_fail. left. split; [done|]. split; [|done]. cbn. by rewrite Hcr. }
  apply spec_bind, self_spec.
  assert (Hrest : ∀ fr w1, untouched w w1 → holds (W:=W) (Wr:=Wr) (Tx:=Tx) (FnodeReader.rdr fr) bs (Ref.at_ a) →
    spec (bs ← on_rdr (FnodeReader.read n); r ← attempt (on_rdr (FnodeReader.seek (Current 0))); new_pos ← lift (match r with Ok n => Ok n | _ => Panic end);
          _ ← update (set_pos (Start new_pos)); mret bs) (set_rdr (Some fr) f, w1)
    (λ x s, kept w s.2 ∧ Ref.refuses a (Read n) = None ∧ ∃ a', Ref.does a (Read n) (OBytes x) a' ∧ inv s.1 s.2 a')
    (λ e s, (kept w s.2 ∧ Ref.refuses a (Read n) = Some e ∧ inv s.1 s.2 a) ∨ broken w (Ref.stages a (Read n)) s) (λ _, False)).
  { intros [k r] w1 Hu1 Hh. cbn [FnodeReader.rdr] in Hh. pose proof Hu1 as (Hk1 & Hs1 & Hst1). apply spec_bind. unfold FnodeReader.read. eapply on_rdr_spec; [done|].
    eapply spec_mono; [apply (read_law w1 (Ref.view a) pp r bs (Ref.at_ a) n); try done; [by apply Hs1|apply list_elem_of_fmap; eexists; split; [|by apply last_in]; done]| | |done].
    2: { intros e [r2 w2] ((Hk2 & Hs2 & _) & Hns). cbn [fst snd] in *. right. split; [by eapply kept_trans|]. split; [by eapply not_steady|].
         exists (Ref.view a), pp. split; [by left|]. by apply Hs2, Hs1. }
    intros out [r2 w2] (Hu2 & Hout & Hh2). cbn [fst snd] in *. apply spec_bind, spec_attempt. unfold FnodeReader.seek. eapply on_rdr_spec; [done|].
    assert (Hol : zlen out = Z.max 0 (Z.min n (zlen bs - Ref.at_ a))) by (rewrite Hout, zlen_ztake, zlen_zdrop; lia).
    assert (Hlb : zlen bs < MAX) by exact Hlen.
    eapply spec_mono; [apply (rd_seek_law w2 r2 bs (Ref.at_ a + zlen out) (Current 0)); [done|by cbn|cbn; lia]| |done|done].
    intros m [r3 w3] (-> & Heq & Hh3). cbn [fst snd target] in *. subst w3. apply spec_bind, spec_lift_ok, spec_bind, update_spec, spec_ret. cbn [fst snd].
    destruct (untouched_trans _ _ _ Hu1 Hu2) as (Hk & Hs & Hst). rewrite Z.add_0_r in *. split; [done|]. split; [cbn; by rewrite Hcr|].
    exists (Ref.set_at (Ref.at_ a + zlen out) a). split.
    { cbn. fold bs. by rewrite <- Hout. }
    split; try done; [cbn; lia|destruct Hk; congruence|cbn; split; congruence| |by intros fr [= <-]].
    cbn [Ref.writing Ref.set_at Ref.view]. destruct (Ref.writing a) as [[o b]|]; [destruct Hwr as (x & t & ? & ? & ? & ? & ?); exists x, t|destruct Hwr as (? & ? & ?)];
      split_and!; try done; eauto; lia. }
  apply spec_bind. destruct (rdr f) as [fr|] eqn:Hr.
  - apply spec_ret. assert (Hsame : f = set_rdr (Some fr) f) by (destruct f; cbn in *; by subst). rewrite Hsame. apply Hrest; [split; [done|done]|by apply Hrd].
  - eapply spec_mono; [by apply (renew_spec f w (Ref.view a) pp (Ref.at_ a))| | |done].
    + intros _ [f1 w1] (Hu & fr & Hf1 & Hh). cbn [fst snd] in *. subst f1. by apply Hrest.
    + intros e [f1 w1] ((Hk & Hs & _) & Hns). right. split; [done|]. split; [done|]. exists (Ref.view a), pp. split; [by left|]. by apply Hs.
Qed.

Lemma write_obeys f w a buf : inv f w a → Ref.fits a (Write buf) → obeys (write buf) ONum (Write buf) f w a.
Proof.
  intros Hinv (Hlen & Hnum & Hmax). pose proof (i_open _ _ _ Hinv) as Hopen. pose proof (i_range _ _ _ Hinv) as Hrange. destruct (i_flags _ _ _ Hinv) as [_ Hfw].
  unfold obeys, write. apply spec_bind, check_closed_spec; [done|]. apply spec_bind, self_spec. apply spec_bind.
  destruct (Ref.writing a) as [[o bs]|] eqn:Hwriting.
  - destruct (proj2 (writing_some _ _ _ Hinv)) as [x ->]; [by rewrite Hwriting; eexists|]. apply spec_ret.
    rewrite (writing_same _ _ _ _ _ Hinv Hwriting) in Hinv. eapply spec_mono; [by apply (write_taken f w a o bs buf)| | |done].
    + intros n s (Hk & Hn & Hp & Hi). split; [done|]. split; [cbn; by rewrite Hwriting|]. eexists. split; [|exact Hi]. exists n. by rewrite Hwriting.
    + intros e s Hb. right. eapply broken_trans; [done| |exact Hb]. cbn. set_solver.
  - destruct (inv_idle _ _ _ Hinv Hwriting) as (_ & -> & _ & Hw). destruct (Ref.can_write a) eqn:Hcw.
    2: { unfold begin_write. apply spec_bind, self_spec. rewrite Hfw. apply spec_fail. left. split; [done|]. split; [|done]. cbn. by rewrite Hwriting, Hcw. }
    eapply spec_mono; [apply (begin_write_spec f w a); try done; lia| | |done].
    2: { intros e s (A1 & A2 & v' & A3 & A4). right. split; [done|]. split; [done|]. exists v', None. split; [|done]. cbn. set_solver. }
    intros _ [f1 w1] (Hk1 & Hinv1). cbn [fst snd] in *.
    eapply spec_mono; [apply (write_taken f1 w1 (Ref.extended a) (Ref.at_ a) [] buf Hinv1); rewrite zlen_nil; lia| | |done].
    + intros n s (Hk & Hn & Hp & Hi). split; [by eapply kept_trans|]. split; [cbn; by rewrite Hwriting, Hcw|]. eexists. split; [|exact Hi]. exists n. by rewrite Hwriting.
    + intros e s Hb. right. eapply broken_trans; [done| |exact Hb]. cbn. set_solver.
Qed.

Lemma call_obeys f w a c : inv f w a → Ref.fits a c → obeys (run_call c) id c f w a.
Proof.
  intros Hinv Hfits. pose proof (i_open _ _ _ Hinv) as Hopen. pose proof (writing_some _ _ _ Hinv) as Hws. destruct (i_flags _ _ _ Hinv) as [_ Hfw].
  assert (Hmap : ∀ A (m : run (File * W) A) g, obeys m g c f w a → obeys (x ← m; mret (g x)) id c f w a).
  { intros A m g Hm. apply spec_bind. eapply spec_mono; [exact Hm| |done|done]. intros x s Hx. by apply spec_ret. }
  assert (Hunit : ∀ (m : run (File * W) ()), obeys m (λ _, ONone) c f w a → obeys (_ ← m; mret ONone) id c f w a) by (intros m Hm; by apply (Hmap _ m (λ _, ONone))).
  destruct c as [p|n|buf| | |buf|n]; cbn [run_call].
  - apply Hmap. by apply seek_obeys.
  - apply Hmap. by apply read_obeys.
  - apply Hmap. by apply write_obeys.
  - apply Hunit. unfold obeys, flush. apply spec_bind, check_closed_spec; [done|]. apply spec_bind, self_spec. destruct (Ref.writing a) as [[o bs]|] eqn:Hwriting.
    + pose proof (i_writer _ _ _ Hinv) as Hwr. rewrite Hwriting in Hwr. destruct Hwr as (x & t & Hx & Ht & Hw & Hst & Ho & Hm). rewrite Hx.
      apply spec_bind, self_spec. rewrite Ht. apply spec_bind, spec_lift_ok. eapply (run_in_spec t _ f w (Ref.view a)).
      2: { intros e f' w' A1 A2 A3. right. split; [done|]. split; [done|]. exists (Ref.view a), None. split; [by left|done]. }
      eapply on_wtr_spec; [done|]. apply as_io_spec. eapply spec_mono; [by apply (wr_flush_law w (Ref.view a) t x o bs)| | |done].
      2: by intros e [x2 w2] (A1 & A2 & A3).
      intros _ [x1 w1] (Hw1 & Hk1 & Hx1). cbn [fst snd] in *. split; [done|]. split; [cbn; by rewrite Hwriting|]. exists a. split; [done|].
      rewrite (writing_same _ _ _ _ _ Hinv Hwriting). rewrite (writing_same _ _ _ _ _ Hinv Hwriting) in Hinv. by eapply taken_inv.
    + destruct (inv_idle _ _ _ Hinv Hwriting) as (_ & -> & _). apply spec_fail. left. split; [done|]. split; [|done]. cbn. by rewrite Hwriting.
  - apply Hunit. destruct Hfits as (Hlen & Hnum & _). destruct (Ref.writing a) as [[o bs]|] eqn:Hwriting.
    + eapply spec_mono; [by apply (file_finish_spec f w a o bs); [| | |lia]| | |done].
      * intros _ s (Hk & Hi). split; [done|]. split; [cbn; by rewrite Hwriting|]. eexists. split; [|exact Hi]. split; [done|]. by eexists _, _.
      * intros e s Hb. right. unfold Ref.stages. by rewrite Hwriting.
    + unfold obeys, finish. apply spec_bind, check_closed_spec; [done|]. destruct (inv_idle _ _ _ Hinv Hwriting) as (_ & Hwtr & _). apply spec_bind, self_spec. rewrite Hwtr.
      apply spec_bind, update_spec, spec_fail. left. split; [done|]. split; [cbn; by rewrite Hwriting|]. cbn [fst snd].
      assert (Hsame : set_wtr None f = f) by (destruct f; cbn in *; by subst). by rewrite Hsame.
  - apply Hunit. destruct (Ref.writing a) as [[o bs]|] eqn:Hwriting; [|destruct (Ref.can_write a) eqn:Hcw].
    + unfold obeys, write_once. apply spec_bind, check_closed_spec; [done|]. apply spec_bind, self_spec.
      destruct (proj2 Hws) as [x ->]; [by eexists|]. apply spec_fail. left. split; [done|]. split; [|done]. cbn. by rewrite Hwriting.
    + eapply spec_mono; [by apply (write_once_spec f w a buf)| | |done].
      * intros _ s (Hk & Hi). split; [done|]. split; [cbn; by rewrite Hwriting, Hcw|]. by eexists.
      * intros e s Hb. by right.
    + unfold obeys, write_once. apply spec_bind, check_closed_spec; [done|]. apply spec_bind, self_spec. destruct (inv_idle _ _ _ Hinv Hwriting) as (_ & -> & _).
      apply spec_bind. unfold begin_write. apply spec_bind, self_spec. rewrite Hfw. apply spec_fail. left. split; [done|]. split; [|done]. cbn. by rewrite Hwriting, Hcw.
  - apply Hunit. destruct Hfits as (Hlen & Hnum & Hn). destruct (Ref.writing a) as [[o bs]|] eqn:Hwriting; [|destruct (Ref.can_write a) eqn:Hcw].
    + unfold obeys, set_len. apply spec_bind, check_closed_spec; [done|]. apply spec_bind, self_spec. rewrite bool_decide_eq_true_2 by (apply Hws; by eexists).
      apply spec_fail. left. split; [done|]. split; [|done]. cbn. by rewrite Hwriting.
    + destruct (inv_idle _ _ _ Hinv Hwriting) as (_ & Hwtr & Htx & Hw). pose proof Hinv as [Hpos Hrange _ [Hfr _] _ _].
      eapply spec_mono; [apply (set_len_spec f w (Ref.view a) (Ref.at_ a) n); try done; lia| | |done].
      * intros _ [f1 w1] (Hk & Hw1 & fr & Hf1 & Hrd1). cbn [fst snd] in *. subst f1. split; [done|]. split; [cbn; by rewrite Hwriting, Hcw|].
        exists (Ref.set_view (View.set_len (Ref.view a) n) a). split; [done|]. split; try done; [destruct Hk; congruence|cbn; split; congruence|]. cbn [Ref.writing Ref.set_view]. by rewrite Hwriting.
      * intros e s (A1 & A2 & v' & A3 & A4). right. split; [done|]. split; [done|]. exists v', None. by split.
    + unfold obeys, set_len. apply spec_bind, check_closed_spec; [done|]. apply spec_bind, self_spec. destruct (inv_idle _ _ _ Hinv Hwriting) as (_ & -> & _).
      rewrite bool_decide_eq_false_2 by by intros [? ?]. apply spec_bind, self_spec. rewrite Hfw. apply spec_fail. left. split; [done|]. split; [|done]. cbn. by rewrite Hwriting, Hcw.
Qed.

(** ** Sequences *)

Fixpoint attempt_calls cs : run (File * W) (list (res Out)) :=
  match cs with [] => mret [] | c :: cs => r ← attempt (run_call c); rs ← attempt_calls cs; mret (r :: rs) end.

(** What the reference file does: each call is refused, or has its effect. *)
Inductive ref_runs : Ref → list Call → list (res Out) → Ref → Prop :=
  | runs_none a : ref_runs a [] [] a
  | runs_refused a a' c e cs outs : Ref.refuses a c = Some e → ref_runs a cs outs a' → ref_runs a (c :: cs) (Err e :: outs) a'
  | runs_done a a1 a' c out cs outs : Ref.refuses a c = None → Ref.does a c out a1 → ref_runs a1 cs outs a' → ref_runs a (c :: cs) (Ok out :: outs) a'.
(** No number on the way is too large. *)
Definition within a cs : Prop := ∀ cs1 c cs2 outs a1, cs = cs1 ++ c :: cs2 → ref_runs a cs1 outs a1 → Ref.fits a1 c.

Lemma attempt_calls_spec cs f w a : inv f w a → steady w → within a cs →
  spec (attempt_calls cs) (f, w) (λ outs s, kept w s.2 ∧ ∃ a', ref_runs a cs outs a' ∧ inv s.1 s.2 a') (λ _ _, False) (λ _, False).
Proof.
  revert f w a. induction cs as [|c cs IH]; intros f w a Hinv Hst Hin; cbn [attempt_calls].
  { apply spec_ret. split; [done|]. exists a. split; [constructor|done]. }
  assert (Hrest : ∀ r f1 w1 a1, kept w w1 → inv f1 w1 a1 → (∀ cs outs a', ref_runs a1 cs outs a' → ref_runs a (c :: cs) (r :: outs) a') →
    spec (rs ← attempt_calls cs; mret (r :: rs)) (f1, w1) (λ outs s, kept w s.2 ∧ ∃ a', ref_runs a (c :: cs) outs a' ∧ inv s.1 s.2 a') (λ _ _, False) (λ _, False)).
  { intros r f1 w1 a1 Hk Hinv1 Hcons. apply spec_bind. eapply spec_mono; [apply (IH f1 w1 a1 Hinv1)| |done|done].
    - by apply Hk.
    - intros cs1 c1 cs2 outs a2 -> Hr. apply (Hin (c :: cs1) c1 cs2 (r :: outs)); [done|]. by apply Hcons.
    - intros outs s (Hk2 & a' & Hr & Hi). apply spec_ret. split; [by eapply kept_trans|]. exists a'. split; [by apply Hcons|done]. }
  apply spec_bind, spec_attempt. eapply spec_mono; [apply (call_obeys f w a c Hinv); apply (Hin [] c cs [] a); [done|constructor]| | |done].
  - intros out [f1 w1] (Hk & Hre & a1 & Hdo & Hi). cbn [fst snd id] in *. apply (Hrest _ _ _ a1); try done. intros. by eapply runs_done.
  - intros e [f1 w1] [(Hk & Hre & Hi)|(_ & Hns & _)]; [|done]. cbn [fst snd] in *. apply (Hrest _ _ _ a); try done. intros. by eapply runs_refused.
Qed.

(** C5: a file handle refines the reference file: over a steady world any sequence of seeks, reads, writes, flushes,
    finishes, single writes and changes of length returns what the reference returns (a write may take a part only, as
    [Write] allows): reads the bytes at the position, writes staged and made a version when finished, zeros up to a position
    beyond the end, calls out of order or without permission refused; what is committed at the end is what it says. *)
Theorem file_refines f w a cs : inv f w a → steady w → within a cs →
  spec (attempt_calls cs) (f, w)
    (λ outs s, ∃ a', ref_runs a cs outs a' ∧ ∃ p, shows s.2 (Ref.view a') p) (λ _ _, False) (λ _, False).
Proof.
  intros Hi Hst Hin. eapply spec_mono; [by apply attempt_calls_spec| |done|done]. intros outs s (_ & a' & Hr & Hi'). exists a'. split; [done|].
  destruct (writer_shows _ _ _ _ (i_writer _ _ _ Hi')) as (p & Hp & _). by exists p.
Qed.

(** C10: whatever fails below, a call on a consistent handle does not panic, and what is committed of the file is one of
    the whole versions of the call: what was there, what was there with zeros up to the position (for a write
    beyond the end), or what the call was to make; a call that is refused changes nothing. *)
Theorem file_call_atomic f w a c : inv f w a → Ref.fits a c →
  spec (run_call c) (f, w)
    (λ out s, Ref.refuses a c = None ∧ ∃ a', Ref.does a c out a' ∧ ∃ p, shows s.2 (Ref.view a') p)
    (λ e s, (Ref.refuses a c = Some e ∧ ∃ p, shows s.2 (Ref.view a) p) ∨ (¬ steady w ∧ ∃ v p, v ∈ Ref.stages a c ∧ shows s.2 v p)) (λ _, False).
Proof.
  intros Hi Hf. eapply spec_mono; [by apply (call_obeys f w a c)| | |done].
  - intros out s (_ & Hr & a' & Hd & Hi'). split; [done|]. exists a'. split; [done|]. destruct (writer_shows _ _ _ _ (i_writer _ _ _ Hi')) as (p & Hp & _). by exists p.
  - intros e s [(_ & Hr & Hi')|(_ & Hns & Hv)]; [left|by right]. split; [done|]. destruct (writer_shows _ _ _ _ (i_writer _ _ _ Hi')) as (p & Hp & _). by exists p.
Qed.
End calls.
