(* ===== verification/FileDemo.v ===== *)
(** * A file in memory: witnesses for the theorems on file handles, and what goes wrong.

    Versions are kept as they are, a transaction is the version it has made, calls fail by plan,
    and a writer takes four bytes at a time. A transaction that is not there cannot be committed or
    aborted: the manager unwraps it (TxMgr.v). *)
From S2P Require Import Prelude Run Base Segment Entry Fnode File FileProofs FileSpec FileCalls.

Record World := mkWorld { committed : View; under : option (nat * option View); next : nat; fates : list bool; shut : bool }.
Record MemWriter := mkMemWriter { wtx : nat; woff : Z; wbytes : list byte }.
Record MemReader := mkMemReader { rbytes : list byte; rpos : Z }.

Definition set_fates (l : list bool) (w : World) : World := mkWorld (committed w) (under w) (next w) l (shut w).
Definition set_under (u : option (nat * option View)) (w : World) : World := mkWorld (committed w) u (next w) (fates w) (shut w).
Definition set_committed (v : View) (w : World) : World := mkWorld v None (next w) (fates w) (shut w).
Definition fault : run World () := λ w,
  match fates w with
  | true :: l => (Some (Err Io), set_fates l w)
  | l => (Some (Ok ()), set_fates (tail l) w)
  end.
Definition current (w : World) : View := match under w with Some (_, Some v) => v | _ => committed w end.
(** The transaction has to be there. *)
Definition in_tx {A} (t : nat) (k : option View → run World A) : run World A := λ w,
  match under w with Some (t', p) => if Nat.eqb t t' then k p w else (Some Panic, w) | None => (Some Panic, w) end.
Definition end_at (x : MemWriter) : Z := woff x + zlen (wbytes x).
(** What a call on a writer or reader does to the world. *)
Definition world {S A} (m : run World A) : run (S * World) A := zoom snd (λ w t, (t.1, w)) m.

#[export] Instance mem_file : FileLayer World MemReader MemWriter nat := {|
  is_closed := shut;
  fn_metadata w := Ok (Metadata.mkMetadata FileType.File (zlen (View.data (current w))) (View.num (current w)) 0 0);
  fn_history w := Ok ((λ nb : Z * list byte, Version.mkVersion nb.1 0 (zlen nb.2) 0) <$> View.vers (current w));
  fn_curr_ver_num w := Ok (View.num (current w));
  fn_curr_len w := Ok (zlen (View.data (current w)));
  version_reader n :=
    _ ← fault; v ← ask current;
    match find (λ nb : Z * list byte, nb.1 =? n) (View.vers v) with Some nb => mret (mkMemReader nb.2 0) | None => fail NoVersion end;
  rd_read n :=
    _ ← world fault; r ← ask fst;
    let out := ztake n (zdrop (rpos r) (rbytes r)) in
    _ ← modify (λ t, (mkMemReader (rbytes r) (rpos r + zlen out), t.2)); mret out;
  rd_seek p :=
    r ← ask fst;
    let q := target p (zlen (rbytes r)) (rpos r) in
    _ ← modify (λ t, (mkMemReader (rbytes r) q, t.2)); mret q;
  begin_trans :=
    _ ← fault; u ← ask under;
    match u with
    | Some _ => fail InTrans
    | None => n ← ask next; _ ← modify (λ w, mkWorld (committed w) (Some (n, None)) (S n) (fates w) (shut w)); mret n
    end;
  tx_commit t := in_tx t (λ p,
    r ← attempt fault;
    match r with
    | Ok _ => modify (λ w, set_committed (default (committed w) p) w)
    | Err e => _ ← modify (set_under None); fail e
    | Panic => lift Panic
    end);
  tx_abort t := in_tx t (λ _, modify (set_under None));
  wr_new t := _ ← fault; mret (mkMemWriter t 0 []);
  wr_seek p :=
    _ ← world fault; x ← ask fst;
    match p with Start o => _ ← modify (λ s, (mkMemWriter (wtx x) o (wbytes x), s.2)); mret o | _ => lift Panic end;
  wr_write buf :=
    _ ← world fault; x ← ask fst;
    let n := Z.min 4 (zlen buf) in
    _ ← modify (λ s, (mkMemWriter (wtx x) (woff x) (wbytes x ++ ztake n buf), s.2)); mret n;
  wr_flush := world fault;
  wr_finish x :=
    _ ← fault; u ← ask under;
    match u with
    | Some (t, p) =>
        if Nat.eqb (wtx x) t then
          _ ← modify (λ w, set_under (Some (t, Some (View.grow (current w) (overwrite (View.data (current w)) (woff x) (wbytes x))))) w);
          mret (end_at x)
        else fail NoTrans
    | None => fail NoTrans
    end;
  fn_truncate t n := in_tx t (λ _, _ ← fault; modify (λ w, set_under (Some (t, Some (View.grow (current w) (ztake n (View.data (current w)))))) w))
|}.

(** ** The laws *)

(** Version numbers in sequence. *)
Definition view_ok (v : View) : Prop := View.vers v ≠ [] ∧ 1 ≤ View.limit v ∧ ∃ k : Z, ∀ i x, (View.vers v).*1 !! i = Some x → x = k + Z.of_nat i.

Lemma view_ok_nodup v : view_ok v → NoDup (View.vers v).*1.
Proof. intros (_ & _ & k & Hk). apply NoDup_alt. intros i j x Hi Hj. apply Hk in Hi, Hj. lia. Qed.
Lemma view_ok_grow v bs : view_ok v → view_ok (View.grow v bs).
Proof.
  intros (Hne & Hlim & k & Hk). split; [|split; [done|]].
  - intros Hnil. pose proof (grow_last v bs Hne) as Hl. by rewrite Hnil in Hl.
  - set (d := if View.limit v <? zlen (View.vers v) + 1 then 1%nat else 0%nat). exists (k + Z.of_nat d). intros i x. unfold View.grow. cbn [View.vers]. fold d.
    rewrite fmap_drop, lookup_drop, fmap_app. intros [Hl|[Hge Hl]]%lookup_app_Some; [apply Hk in Hl; lia|].
    rewrite length_fmap in Hge, Hl. destruct ((d + i) - length (View.vers v))%nat as [|j] eqn:Hj; [|by destruct j]. injection Hl as <-.
    assert (Hnum : View.num v = k + Z.of_nat (length (View.vers v)) - 1).
    { unfold View.num. destruct (last (View.vers v)) as [nb|] eqn:Hlast; [|by apply last_None in Hlast]. cbn. rewrite last_lookup in Hlast.
      assert (Hx : (View.vers v).*1 !! pred (length (View.vers v)) = Some nb.1) by (by rewrite list_lookup_fmap, Hlast). apply Hk in Hx.
      assert (0 < length (View.vers v))%nat by (destruct (View.vers v); [done|cbn; lia]). lia. }
    lia.
Qed.
Lemma find_version v n bs : view_ok v → (n, bs) ∈ View.vers v → find (λ nb : Z * list byte, nb.1 =? n) (View.vers v) = Some (n, bs).
Proof.
  intros Hok Hin. apply view_ok_nodup in Hok. induction (View.vers v) as [|[m ds] l IH]; [by apply not_elem_of_nil in Hin|]. cbn in *.
  apply NoDup_cons in Hok as [Hm Hnd]. apply elem_of_cons in Hin as [[= -> ->]|Hin]; [by rewrite Z.eqb_refl|].
  destruct (Z.eqb_spec m n) as [->|]; [|by apply IH]. destruct Hm. apply list_elem_of_fmap. by exists (n, bs).
Qed.

Definition all_well (w : World) : Prop := Forall (.= false) (fates w).
Lemma fault_spec w (Q : () → World → Prop) (E : Error → World → Prop) :
  (∀ l, (all_well w → all_well (set_fates l w)) → Q () (set_fates l w)) → (∀ e l, ¬ all_well w → E e (set_fates l w)) → spec fault w Q E (λ _, False).
Proof.
  intros HQ HE. unfold spec, fault. destruct (fates w) as [|b l] eqn:Hf; [apply HQ; unfold all_well; by rewrite Hf|]. destruct b.
  - apply HE. unfold all_well. rewrite Hf. by intros [? _]%Forall_cons.
  - apply HQ. unfold all_well. rewrite Hf. by intros [_ ?]%Forall_cons.
Qed.
Lemma world_spec {S A} (m : run World A) (s : S) w (Q : A → S * World → Prop) E H :
  spec m w (λ a w, Q a (s, w)) (λ e w, E e (s, w)) (λ w, H (s, w)) → spec (world m) (s, w) Q E H.
Proof. intros Hm. by apply spec_zoom. Qed.
Lemma in_tx_spec {A} t p (k : option View → run World A) w Q E H : under w = Some (t, p) → spec (k p) w Q E H → spec (in_tx t k) w Q E H.
Proof. intros Hu Hk. unfold spec, in_tx in *. rewrite Hu, Nat.eqb_refl. done. Qed.

Definition mem_shows (w : World) (v : View) (p : option (nat * option View)) : Prop :=
  committed w = v ∧ under w = p ∧ view_ok v ∧ (∀ t v', p = Some (t, Some v') → view_ok v').
(** What calls leave behind. *)
Lemma mem_shows_at (w w' : World) v p : mem_shows w v p → committed w' = committed w → under w' = under w → mem_shows w' v p.
Proof. intros (H1 & H2 & H3 & H4) Hc Hu. split; [congruence|]. split; [congruence|done]. Qed.
Lemma mem_kept (w w' : World) : shut w' = shut w → (all_well w → all_well w') → shut w' = shut w ∧ (all_well w → all_well w').
Proof. done. Qed.
(** A call that fails by plan leaves all but the plan. *)
Lemma fail_shows w v p l : mem_shows w v p → ¬ all_well w → mem_shows (set_fates l w) v p ∧ (shut (set_fates l w) = shut w ∧ (all_well w → all_well (set_fates l w))) ∧ ¬ all_well w.
Proof. intros Hw Hns. split; [by eapply mem_shows_at|]. split; [|done]. split; [done|]. intros Hx. by destruct Hns. Qed.
Lemma new_version w v t bs : mem_shows w v (Some (t, None)) → mem_shows (set_under (Some (t, Some (View.grow v bs))) w) v (Some (t, Some (View.grow v bs))).
Proof. intros (H1 & H2 & H3 & H4). split; [done|]. split; [done|]. split; [done|]. intros t' v' [= _ <-]. by apply view_ok_grow. Qed.
Lemma current_clean w v (p : option (nat * option View)) : mem_shows w v p → clean p → current w = v.
Proof. intros (<- & Hu & _) Hc. unfold current. rewrite Hu. by destruct Hc as [->|[t ->]]. Qed.

#[export] Instance mem_laws : FileLaws World MemReader MemWriter nat.
Proof.
  unshelve econstructor; [exact mem_shows|exact (λ _ x t o bs, x = mkMemWriter t o bs)|exact (λ r bs o, r = mkMemReader bs o)|exact all_well|..].
  - intros w v p (_ & _ & Hv & _). split; [by apply view_ok_nodup|apply Hv].
  - intros w v p Hw Hc. cbn. by rewrite (current_clean w v p Hw Hc).
  - intros w v p Hw Hc. cbn. by rewrite (current_clean w v p Hw Hc).
  - intros w v Hw. pose proof Hw as (_ & Hu & Hv & _). cbn [begin_trans mem_file]. apply spec_bind, fault_spec; [|intros e l Hl; by apply fail_shows].
    intros l Hl. apply spec_bind, spec_ask. change (under (set_fates l w)) with (under w). rewrite Hu. apply spec_bind, spec_ask, spec_bind, spec_modify, spec_ret.
    split; [|by apply mem_kept]. destruct Hw as (H1 & _). split; [done|]. split; [done|]. by split.
  - intros w v t p Hw. pose proof Hw as (Hc & Hu & Hv & Hp). cbn [tx_commit mem_file]. eapply in_tx_spec; [done|]. apply spec_bind, spec_attempt, fault_spec.
    + intros l Hl. apply spec_modify. split; [|by apply mem_kept]. split; [cbn; by rewrite Hc|]. split; [done|]. split; [|done]. destruct p as [v'|]; [by apply (Hp t)|done].
    + intros e l Hns. apply spec_bind, spec_modify, spec_fail. split; [by split|]. split; [|done]. split; [done|]. intros Hx. by destruct Hns.
  - intros w v t p Hw. pose proof Hw as (Hc & Hu & Hv & Hp). cbn [tx_abort mem_file]. eapply in_tx_spec; [done|]. apply spec_modify. split; [by split|]. by split.
  - intros w v p n bs Hw Hcl Hin. pose proof Hw as (_ & _ & Hv & _). cbn [File.version_reader mem_file]. apply spec_bind, fault_spec.
    + intros l Hl. apply spec_bind, spec_ask. rewrite (current_clean (set_fates l w) v p) by first [done | by eapply mem_shows_at]. rewrite (find_version v n bs) by done. apply spec_ret.
      split; [|done]. split; [by apply mem_kept|]. split; [|done]. intros v' p' Hw'. by eapply mem_shows_at.
    + intros e l Hns. split; [|done]. split; [split; [done|intros Hx; by destruct Hns]|]. split; [|done]. intros v' p' Hw'. by eapply mem_shows_at.
  - intros w v p r bs o k Hw Hcl -> Hin Ho Hk. cbn [rd_read mem_file]. apply spec_bind, world_spec, fault_spec.
    + intros l Hl. apply spec_bind, spec_ask. cbn [fst rpos rbytes]. apply spec_bind, spec_modify, spec_ret. cbn [fst snd].
      split; [|done]. split; [by apply mem_kept|]. split; [|done]. intros v' p' Hw'. by eapply mem_shows_at.
    + intros e l Hns. cbn [fst snd]. split; [|done]. split; [split; [done|intros Hx; by destruct Hns]|]. split; [|done]. intros v' p' Hw'. by eapply mem_shows_at.
  - intros w r bs o q -> Hd Ht. cbn [rd_seek mem_file]. apply spec_bind, spec_ask. cbn [fst rpos rbytes]. by apply spec_bind, spec_modify, spec_ret.
  - intros w v t Hw. cbn [wr_new mem_file]. apply spec_bind, fault_spec; [|intros e l Hl; by apply fail_shows]. intros l Hl. apply spec_ret.
    split; [by eapply mem_shows_at|]. split; [by apply mem_kept|done].
  - intros w v t x o Hw -> Ho Hmax. cbn [wr_seek mem_file]. apply spec_bind, world_spec, fault_spec; [|intros e l Hl; by apply fail_shows]. intros l Hl.
    apply spec_bind, spec_ask. cbn [fst wtx wbytes]. apply spec_bind, spec_modify, spec_ret. cbn [fst snd]. split; [by eapply mem_shows_at|]. split; [by apply mem_kept|done].
  - intros w v t x o bs buf Hw -> Hmax. cbn [wr_write mem_file]. apply spec_bind, world_spec, fault_spec; [|intros e l Hl; by apply fail_shows]. intros l Hl.
    apply spec_bind, spec_ask. cbn [fst wtx woff wbytes]. apply spec_bind, spec_modify, spec_ret. cbn [fst snd]. pose proof (zlen_nonneg buf). split; [lia|].
    split; [intros Hb; destruct buf as [|b buf]; [done|rewrite zlen_cons; pose proof (zlen_nonneg buf); lia]|]. split; [by eapply mem_shows_at|]. split; [by apply mem_kept|done].
  - intros w v t x o bs Hw ->. cbn [wr_flush mem_file]. apply world_spec, fault_spec; [|intros e l Hl; by apply fail_shows]. intros l Hl.
    split; [by eapply mem_shows_at|]. split; [by apply mem_kept|done].
  - intros w v t x o bs Hw -> Ho Hl1 Hl2 Hnum. cbn [wr_finish mem_file]. apply spec_bind, fault_spec.
    + intros l Hl. apply spec_bind, spec_ask. change (under (set_fates l w)) with (under w). pose proof Hw as (_ & Hu & _). rewrite Hu. cbn [wtx]. rewrite Nat.eqb_refl.
      apply spec_bind, spec_modify, spec_ret. cbn [woff wbytes]. split; [done|]. split; [by apply mem_kept|].
      rewrite (current_clean (set_fates l w) v (Some (t, None))) by first [by eapply mem_shows_at | right; by eexists]. apply new_version. by eapply mem_shows_at.
    + intros e l Hns. split; [split; [done|intros Hx; by destruct Hns]|]. split; [|done]. exists None. by eapply mem_shows_at.
  - intros w v t n Hw Hn Hl1 Hnum. pose proof Hw as (_ & Hu & _). cbn [fn_truncate mem_file]. eapply in_tx_spec; [done|]. apply spec_bind, fault_spec.
    + intros l Hl. apply spec_modify. split; [by apply mem_kept|].
      rewrite (current_clean (set_fates l w) v (Some (t, None))) by first [by eapply mem_shows_at | right; by eexists]. apply new_version. by eapply mem_shows_at.
    + intros e l Hns. split; [split; [done|intros Hx; by destruct Hns]|]. split; [|done]. exists None. by eapply mem_shows_at.
Defined.

(** ** Runs *)

(** An empty file of two versions at most, opened to read and write. *)
Definition empty_view : View := View.mkView [(1, [])] 2.
Definition file_world (l : list bool) : World := mkWorld empty_view None 1 l false.
Definition opened (o : Z) : File.File MemReader MemWriter nat := File.new (Start o) true true.
Definition opened_ref (o : Z) : Ref := Ref.mkRef empty_view o None true true.
Lemma opened_inv o l : 0 ≤ o < MAX → inv (opened o) (file_world l) (opened_ref o).
Proof.
  intros Ho. split; try done. split; [done|]. split; [done|]. split; [done|]. split; [done|]. split; [|done]. split; [done|]. split; [cbn; lia|].
  exists 1. intros [|i] x; cbn; [by intros [= <-]|by destruct i].
Qed.

Lemma within_nil a : within a [].
Proof. intros cs1 c cs2 outs a1 Hcs. by destruct cs1. Qed.
Lemma within_cons a c cs : Ref.fits a c → (∀ e, Ref.refuses a c = Some e → within a cs) → (∀ out a1, Ref.refuses a c = None → Ref.does a c out a1 → within a1 cs) → within a (c :: cs).
Proof.
  intros Hf He Hd cs1 c1 cs2 outs a1 Hcs Hr. destruct cs1 as [|c0 cs1]; [injection Hcs as <- <-; by inversion Hr; subst|]. injection Hcs as <- ->.
  inversion Hr; subst; [eapply He|eapply Hd]; done.
Qed.

(** The calls whose effect is certain, and whether their numbers fit. *)
#[local] Instance fits_dec a c : Decision (Ref.fits a c).
Proof. unfold Ref.fits. destruct c; [..|]; try destruct (Ref.writing a) as [[]|]; apply _. Defined.
Definition after (a : Ref) (c : Call) : option Ref :=
  match c with
  | Seek p => Some (Ref.set_at (target p (Ref.len a) (Ref.at_ a)) a)
  | Read n => Some (Ref.set_at (Ref.at_ a + zlen (ztake n (zdrop (Ref.at_ a) (View.data (Ref.view a))))) a)
  | Flush => Some a
  | Finish => '(o, bs) ← Ref.writing a; Some (Ref.finished a o bs)
  | WriteOnce buf => Some (Ref.finished (Ref.extended a) (Ref.at_ a) buf)
  | SetLen n => Some (Ref.set_view (View.set_len (Ref.view a) n) a)
  | Write _ => None
  end.
Fixpoint all_fit (a : Ref) (cs : list Call) : bool :=
  match cs with
  | [] => true
  | c :: cs => bool_decide (Ref.fits a c) &&
      match Ref.refuses a c with Some _ => all_fit a cs | None => match after a c with Some a1 => all_fit a1 cs | None => false end end
  end.
Lemma all_fit_within cs a : all_fit a cs = true → within a cs.
Proof.
  revert a. induction cs as [|c cs IH]; intros a; [intros _; apply within_nil|]. cbn [all_fit]. intros [Hf Hn]%andb_true_iff. apply bool_decide_eq_true_1 in Hf.
  apply within_cons; [done| |].
  - intros e He. rewrite He in Hn. by apply IH.
  - intros out a1 Hr Hd. rewrite Hr in Hn. destruct (after a c) as [a2|] eqn:Ha; [|done]. replace a1 with a2; [by apply IH|].
    destruct c; cbn in *; try (injection Ha as <-); try by destruct Hd. destruct Hd as (_ & o & bs & Hw & ->). rewrite Hw in Ha. by injection Ha as <-.
Qed.

Definition file_calls : list Call := [WriteOnce [1; 2; 3]; Finish; Seek (SeekEnd (-1)); Read 5; SetLen 1; Seek (Start 2); WriteOnce [9]].

Lemma file_refines_witness :
  (attempt_calls file_calls (opened 0, file_world [])).1 =
    Some (Ok [Ok ONone; Err NotWrite; Ok (ONum 2); Ok (OBytes [3]); Ok ONone; Ok (ONum 2); Ok ONone]) ∧
  spec (attempt_calls file_calls) (opened 0, file_world [])
    (λ outs s, ∃ a', ref_runs (opened_ref 0) file_calls outs a' ∧ ∃ p, shows s.2 (Ref.view a') p) (λ _ _, False) (λ _, False).
Proof.
  split; [by vm_compute|]. apply file_refines; [apply opened_inv; split; by vm_compute|change (all_well (file_world [])); constructor|apply all_fit_within; by vm_compute].
Defined.

(** The third call of the layers below fails. *)
Lemma file_call_atomic_witness :
  spec (run_call (WriteOnce [7])) (opened 4, file_world [false; false; true])
    (λ out s, Ref.refuses (opened_ref 4) (WriteOnce [7]) = None ∧ ∃ a', Ref.does (opened_ref 4) (WriteOnce [7]) out a' ∧ ∃ p, shows s.2 (Ref.view a') p)
    (λ e s, (Ref.refuses (opened_ref 4) (WriteOnce [7]) = Some e ∧ ∃ p, shows s.2 (Ref.view (opened_ref 4)) p) ∨
       (¬ steady (file_world [false; false; true]) ∧ ∃ v p, v ∈ Ref.stages (opened_ref 4) (WriteOnce [7]) ∧ shows s.2 v p)) (λ _, False).
Proof. apply file_call_atomic; [apply opened_inv; split; by vm_compute|]. apply (bool_decide_eq_true_1 (Ref.fits (opened_ref 4) (WriteOnce [7]))). by vm_compute. Defined.

(** ** What goes wrong *)

(** A run: [File::write_once] keeps its writer and the handle of the transaction when the write fails, though the transaction
    has been aborted ([write] lets them go): from then on [seek], [set_len] and [write_once] are refused as if the write
    could still be finished, and [finish] panics, since the manager has no such transaction (a run of the model). *)
Lemma failed_write_once_stuck :
  let s := (File.write_once [7] (opened 0, file_world [false; false; false; true])).2 in
  (File.write_once [7] (opened 0, file_world [false; false; false; true])).1 = Some (Err Io) ∧ under s.2 = None ∧
  (File.seek (Start 0) s).1 = Some (Err NotFinish) ∧ (File.set_len 1 s).1 = Some (Err NotFinish) ∧
  (File.write_once [7] s).1 = Some (Err NotFinish) ∧ (File.finish s).1 = Some Panic.
Proof. by vm_compute. Qed.

(** A write beyond the end that fails leaves the zeros it appended, though it is said to be atomic. *)
Lemma failed_write_once_extends :
  let s := File.write_once [7] (opened 3, file_world (replicate 8 false ++ [true])) in
  s.1 = Some (Err Io) ∧ View.vers (committed s.2.2) = [(1, []); (2, [0; 0; 0])].
Proof. by vm_compute. Qed.

(** What was written is committed, but the new reader cannot be made: [finish] fails. *)
Lemma failed_finish_commits :
  let s := File.write_once [7] (File.mkFile (Start 0) (Some (FnodeReader.mkReader 1 (mkMemReader [] 0))) None None true true, file_world (replicate 6 false ++ [true])) in
  s.1 = Some (Err Io) ∧ View.data (committed s.2.2) = [7].
Proof. by vm_compute. Qed.

(** A seek to before the start is taken as one far beyond the end. *)
Lemma negative_seek : (File.seek (SeekEnd (-1)) (opened 0, file_world [])).1 = Some (Ok (2 ^ 64 - 1)).
Proof. by vm_compute. Qed.
