(* ===== verification/Index.v ===== *)
(** * src/volume/storage/index_mgr.rs: addresses in a log structured merge tree.

    Addresses are kept by id, an empty one marking a deletion: the youngest in a table in memory
    ([MemTab]), the others in sorted tables ([Tab]) on levels ([Lsmt]). When the table in
    memory is full its oldest entries make a tab of level 0, and a level that is full is
    merged into the next. Tables are saved and loaded through armors. *)
From stdpp Require Import sorting.
From S2P Require Import Prelude Run Base Crypto Armor.

(** ** What the index needs from outside *)

(** [Eid::new]: random ids, drawn from a source. *)
Class EidSource (G : Type) := new_eid : G → Eid * G.
#[export] Hint Mode EidSource ! : typeclass_instances.

Inductive IKind : Set := KLsmt | KMemTab | KTab.
#[export] Instance IKind_eq_dec : EqDecision IKind.
Proof. solve_decision. Defined.

(** The trait [Accessor], one for each kind of item; [save] changes the item's number and arm,
    as the armor does, also when it fails. *)
Class Accessor (F : Type) (I : IKind → Type) := {
  acc_set_crypto_ctx (k : IKind) : Crypto.Crypto → bytes → run F unit;
  acc_load (k : IKind) : Eid → run F (I k);
  acc_save (k : IKind) : I k → run F (I k * res unit);
  acc_remove (k : IKind) : Eid → run F unit
}.
#[export] Hint Mode Accessor ! - : typeclass_instances.

(** ** Tables *)

(** [TabItem]: an id and its address. Items are compared by their ids. *)
Abbreviation TabItem := (Eid * bytes)%type.

(** The order of [Vec<u8>]. *)
Fixpoint bytes_le (a b : bytes) : bool :=
  match a, b with
  | [], _ => true
  | _ :: _, [] => false
  | x :: a, y :: b => if x <? y then true else if x =? y then bytes_le a b else false
  end.

Module Tab.
Record Tab := mkTab { id : Eid; seq : Z; arm : Arm.Arm; items : list TabItem }.
Definition new (i : Eid) : Tab := mkTab i 0 Arm.default [].
Definition with_items (l : list TabItem) (t : Tab) : Tab := mkTab (id t) (seq t) (arm t) l.
Definition len (t : Tab) : Z := zlen (items t).

(** [sort_unstable] compares the pairs, that is the ids and then the addresses. *)
Definition item_le (a b : TabItem) : Prop := a.1 < b.1 ∨ (a.1 = b.1 ∧ bytes_le a.2 b.2 = true).
#[global] Instance item_le_dec a b : Decision (item_le a b).
Proof. unfold item_le. apply _. Defined.
Definition sort_unstable (l : list TabItem) : list TabItem := merge_sort item_le l.

(** [binary_search_by] of the standard library: [base] moves up while the item in the middle is not
    above the id. What it does on items that are not sorted is its own. *)
Fixpoint search_loop (fuel : nat) (l : list TabItem) (i : Eid) (base size : Z) : Z :=
  match fuel with
  | O => base
  | S fuel =>
      if 1 <? size then
        let half := size / 2 in
        let mid := base + half in
        let base := match zget l mid with Some it => if i <? it.1 then base else mid | None => base end in
        search_loop fuel l i base (size - half)
      else base
  end.
Definition search_items (l : list TabItem) (i : Eid) : option bytes :=
  if zlen l =? 0 then None
  else match zget l (search_loop (length l) l i 0 (zlen l)) with
       | Some it => if it.1 =? i then Some it.2 else None
       | None => None
       end.
Definition search (t : Tab) (i : Eid) : option bytes := search_items (items t) i.

(** [chunks]. *)
Fixpoint chunks (fuel : nat) (n : Z) (l : list TabItem) : list (list TabItem) :=
  match fuel, l with
  | S fuel, _ :: _ => ztake n l :: chunks fuel n (zdrop n l)
  | _, _ => []
  end.

(** [merge], from the items that are left of each table: a deletion that meets an item of its id
    is dropped with it. *)
Fixpoint merge_items (low : list TabItem) : list TabItem → list TabItem :=
  match low with
  | [] => λ high, high
  | l :: low' =>
      fix go (high : list TabItem) : list TabItem :=
        match high with
        | [] => l :: low'
        | h :: high' =>
            match Z.compare l.1 h.1 with
            | Lt => l :: merge_items low' high
            | Eq => (if decide (l.2 = []) then [] else [l]) ++ merge_items low' high'
            | Gt => h :: go high'
            end
        end
  end.
End Tab.
Export Tab(Tab, mkTab).

#[export] Instance tab_meter : Meter Tab := λ _, 1.
#[export] Instance tab_pin : Pinnable Tab := λ _, false.
#[export] Instance tab_arm_access : ArmAccess Tab := {|
  item_id := Tab.id; item_seq := Tab.seq; item_arm := Tab.arm;
  set_item s a t := mkTab (Tab.id t) s a (Tab.items t)
|}.

Module TabInfo.
Record TabInfo := mkInfo { id : Eid; begin_ : Eid; end_ : Eid; cnt : Z }.
(** Panics on an empty tab. *)
Definition new (t : Tab) : res TabInfo :=
  b ← unwrap (head (Tab.items t)); e ← unwrap (last (Tab.items t));
  Ok (mkInfo (Tab.id t) b.1 e.1 (Tab.len t)).
Definition contains (t : TabInfo) (i : Eid) : bool := (begin_ t <=? i) && (i <=? end_ t).
Definition is_overlapping (t : TabInfo) (b e : Eid) : bool := negb ((e <? begin_ t) || (end_ t <? b)).
End TabInfo.
Export TabInfo(TabInfo).

(** ** Levels *)

Module Level.
Record Level := mkLevel { num : Z; tabs : list TabInfo }.
Definition ITEM_CAP_BASE : Z := 4096.

Definition new (n : Z) : Level := mkLevel n [].
(** [10_usize.pow] and the product overflow from level 16 on. *)
Definition item_cap (n : Z) : res Z := p ← u_mul (10 ^ n) 1; u_mul ITEM_CAP_BASE p.
Definition item_cnt (l : Level) : res Z :=
  foldl (λ acc t, n ← acc; u_add n (TabInfo.cnt t)) (Ok 0) (tabs l).
Definition is_full (l : Level) : res bool :=
  n ← item_cnt l; cap ← item_cap (num l); Ok (cap <=? n).
Definition find_tabs_contain (l : Level) (i : Eid) : list Eid :=
  TabInfo.id <$> filter (λ t, TabInfo.contains t i = true) (reverse (tabs l)).
Definition push (t : Tab) (l : Level) : res Level :=
  i ← TabInfo.new t; Ok (mkLevel (num l) (tabs l ++ [i])).
Definition remove (tab_id : Eid) (l : Level) : res Level :=
  pos ← unwrap (position (λ t, TabInfo.id t =? tab_id) (tabs l));
  ts ← vremove (tabs l) pos; Ok (mkLevel (num l) ts).
End Level.
Export Level(Level).

(** ** The state *)

Module Lsmt.
(** [tab_cache], which is not serialised, is kept beside it in [IndexMgr]. *)
Record Lsmt := mkLsmt { id : Eid; seq : Z; arm : Arm.Arm; lvls : list Level }.
Definition TAB_CNT_BASE : Z := 4.
Definition TAB_CACHE_SIZE : Z := 4.
Definition new : Lsmt := mkLsmt 0 0 Arm.default [Level.new 0].
Definition set_lvls (l : list Level) (t : Lsmt) : Lsmt := mkLsmt (id t) (seq t) (arm t) l.
End Lsmt.
Export Lsmt(Lsmt, mkLsmt).
#[export] Instance lsmt_arm_access : ArmAccess Lsmt := {|
  item_id := Lsmt.id; item_seq := Lsmt.seq; item_arm := Lsmt.arm;
  set_item s a t := mkLsmt (Lsmt.id t) s a (Lsmt.lvls t)
|}.

Module MemTab.
Record MemTab (MM : Type) := mkMemTab { id : Eid; seq : Z; arm : Arm.Arm; map : MM; is_changed : bool }.
Arguments mkMemTab {MM}. Arguments id {MM}. Arguments seq {MM}. Arguments arm {MM}. Arguments map {MM}.
Arguments is_changed {MM}.
Definition CAPACITY : Z := 4 * 1024.
Definition RESIDENCE_CAP : Z := 3 * 1024.

Section memtab.
Context {MM : Type} `{!LinkedMapOps Eid bytes MM}.
Implicit Types t : MemTab MM.

Definition new : MemTab MM := mkMemTab 0 0 Arm.default lm_new false.
Definition len t : Z := zlen (lm_entries (map t)).
Definition is_full t : bool := CAPACITY <=? len t.
Definition set_map (m : MM) (c : bool) t : MemTab MM := mkMemTab (id t) (seq t) (arm t) m c.
Definition get_address (i : Eid) t : option bytes * MemTab MM :=
  let '(o, m) := lm_get_refresh i (map t) in (o, set_map m (is_changed t) t).
Definition insert (i : Eid) (addr : bytes) t : MemTab MM := set_map (lm_insert i addr (map t)).2 true t.
(** The items of [extract_young]: the oldest, sorted. *)
Definition young_items t : res (list TabItem) :=
  n ← u_sub (len t) RESIDENCE_CAP; Ok (Tab.sort_unstable (ztake n (lm_entries (map t)))).
Definition evict_young (young : Tab) t : MemTab MM :=
  set_map (foldl (λ m it, (lm_remove it.1 m).2) (map t) (Tab.items young)) true t.
End memtab.
End MemTab.
Export MemTab(MemTab, mkMemTab).
#[export] Instance memtab_arm_access {MM} : ArmAccess (MemTab MM) := {|
  item_id := MemTab.id; item_seq := MemTab.seq; item_arm := MemTab.arm;
  set_item s a t := mkMemTab (MemTab.id t) s a (MemTab.map t) (MemTab.is_changed t)
|}.

(** The items of the three armors. *)
Definition IItem (MM : Type) (k : IKind) : Type :=
  match k with KLsmt => Lsmt | KMemTab => MemTab MM | KTab => Tab end.
#[export] Instance iitem_access MM k : ArmAccess (IItem MM k) :=
  match k with KLsmt => lsmt_arm_access | KMemTab => memtab_arm_access | KTab => tab_arm_access end.
(** What is loaded of a saved item: [is_changed] is not serialised. *)
Definition stored_of MM k : IItem MM k → IItem MM k :=
  match k with KMemTab => λ t, MemTab.set_map (MemTab.map t) false t | _ => λ t, t end.

(** ** The index manager *)

Module Index.
Record IndexMgr (MM TM : Type) := mkMgr { lsmt : Lsmt; tab_cache : Lru.Lru TM; memtab : MemTab MM }.
Arguments mkMgr {MM TM}. Arguments lsmt {MM TM}. Arguments tab_cache {MM TM}. Arguments memtab {MM TM}.

(** The manager with the files below its armors and the source of ids. *)
Record St (F G MM TM : Type) := mkSt { files : F; ids : G; mgr : IndexMgr MM TM }.
Arguments mkSt {F G MM TM}. Arguments files {F G MM TM}. Arguments ids {F G MM TM}. Arguments mgr {F G MM TM}.

Definition SUBKEY_ID_LSMT : Z := 17.
Definition SUBKEY_ID_MEMTAB : Z := 18.
Definition SUBKEY_ID_TAB : Z := 19.

Section index.
Context `{!Sodium} {F G MM TM : Type} `{!Accessor F (IItem MM), !EidSource G}.
Context `{!LinkedMapOps Eid bytes MM, !LinkedMapOps Eid Tab TM}.
Abbreviation act := (run (St F G MM TM)).

Definition on_files {A} (m : run F A) : act A := zoom files (λ f s, mkSt f (ids s) (mgr s)) m.
Definition the {A} (f : IndexMgr MM TM → A) : act A := ask (λ s, f (mgr s)).
Definition set_mgr (f : IndexMgr MM TM → IndexMgr MM TM) : act unit :=
  modify (λ s, mkSt (files s) (ids s) (f (mgr s))).
Definition set_lsmt (l : Lsmt) : act unit := set_mgr (λ m, mkMgr l (tab_cache m) (memtab m)).
Definition set_cache (c : Lru.Lru TM) : act unit := set_mgr (λ m, mkMgr (lsmt m) c (memtab m)).
Definition set_memtab (t : MemTab MM) : act unit := set_mgr (λ m, mkMgr (lsmt m) (tab_cache m) t).
Definition draw_id : act Eid := λ s,
  let '(i, g) := new_eid (ids s) in (Some (Ok i), mkSt (files s) g (mgr s)).

Definition lvls : act (list Level) := the (λ m, Lsmt.lvls (lsmt m)).
Definition set_level (n : Z) (l : Level) : act unit :=
  t ← the lsmt; ls ← lift (vset (Lsmt.lvls t) n l); set_lsmt (Lsmt.set_lvls ls t).
(** [&self.lvls[n]]. *)
Definition level (n : Z) : act Level := ls ← lvls; lift (vindex ls n).

Definition load_tab (i : Eid) : act Tab := on_files (acc_load KTab i).
Definition save_tab (t : Tab) : act Tab :=
  '(t, r) ← on_files (acc_save KTab t); _ ← lift r; mret t.
Definition remove_tab (i : Eid) : act unit := on_files (acc_remove KTab i).
Definition push (n : Z) (t : Tab) : act unit :=
  l ← level n; l ← lift (Level.push t l); set_level n l.

(** *** Looking up *)

(** The tab from the cache, loaded into it if it is not there. *)
Definition cached_tab (tab_id : Eid) : act Tab :=
  cache ← the tab_cache;
  _ ← (if Lru.contains_key (K:=Eid) (V:=Tab) tab_id cache then mret ()
       else
         t ← load_tab tab_id;
         cache ← the tab_cache;
         '(_, cache) ← lift (Lru.insert (K:=Eid) (V:=Tab) tab_id t cache);
         set_cache cache);
  cache ← the tab_cache;
  let '(o, cache) := Lru.get_refresh (K:=Eid) (V:=Tab) tab_id cache in
  _ ← set_cache cache;
  lift (unwrap o).

(** The tabs of a level that may have the id, the last pushed first. *)
Fixpoint find_in_tabs (i : Eid) (l : list Eid) : act (option bytes) :=
  match l with
  | [] => mret None
  | tab_id :: l =>
      t ← cached_tab tab_id;
      match Tab.search t i with
      | Some addr => mret (Some addr)
      | None => find_in_tabs i l
      end
  end.

Fixpoint find_in_levels (i : Eid) (ls : list Level) : act bytes :=
  match ls with
  | [] => fail NotFound
  | l :: ls =>
      r ← find_in_tabs i (Level.find_tabs_contain l i);
      match r with
      | Some [] => fail NotFound
      | Some addr => mret addr
      | None => find_in_levels i ls
      end
  end.
Definition lsmt_get_address (i : Eid) : act bytes := ls ← lvls; find_in_levels i ls.

(** *** Compaction *)

(** [Tab::append] of the tabs in order. *)
Fixpoint load_items (l : list TabInfo) (acc : list TabItem) : act (list TabItem) :=
  match l with
  | [] => mret acc
  | t :: l => tab ← load_tab (TabInfo.id t); load_items l (acc ++ Tab.items tab)
  end.

Definition read_all_tabs_in_level (n : Z) : act Tab :=
  l ← level n;
  _ ← lift (Level.item_cnt l);
  i ← draw_id;
  its ← load_items (Level.tabs l) [];
  mret (Tab.with_items (if n =? 0 then Tab.sort_unstable its else its) (Tab.new i)).

Definition combine_tabs (l : list TabInfo) : act Tab :=
  i ← draw_id; its ← load_items l []; mret (Tab.with_items its (Tab.new i)).

Definition find_overlapping (n : Z) (t : Tab) : act (list TabInfo) :=
  l ← level n;
  b ← lift (unwrap (head (Tab.items t)));
  e ← lift (unwrap (last (Tab.items t)));
  mret (filter (λ t, TabInfo.is_overlapping t b.1 e.1 = true) (Level.tabs l)).

(** [Level::clear]: the list of tabs is emptied when all have been removed. *)
Definition clear (n : Z) : act unit :=
  l ← level n;
  _ ← for_each (λ t, remove_tab (TabInfo.id t)) (Level.tabs l);
  set_level n (Level.mkLevel (Level.num l) []).

Definition merge (t o : Tab) : act Tab :=
  i ← draw_id; mret (Tab.with_items (Tab.merge_items (Tab.items t) (Tab.items o)) (Tab.new i)).

Fixpoint tabs_of (l : list (list TabItem)) : act (list Tab) :=
  match l with
  | [] => mret []
  | its :: l => i ← draw_id; ts ← tabs_of l; mret (Tab.with_items its (Tab.new i) :: ts)
  end.
(** Panics when the size is zero. *)
Definition divide (t : Tab) (chunk_size : Z) : act (list Tab) :=
  _ ← lift (rassert (negb (chunk_size =? 0)));
  tabs_of (Tab.chunks (length (Tab.items t)) chunk_size (Tab.items t)).

Definition drop_overlap (n : Z) (t : TabInfo) : act unit :=
  _ ← remove_tab (TabInfo.id t);
  l ← level n; l ← lift (Level.remove (TabInfo.id t) l); set_level n l.
Definition store_chunk (n : Z) (t : Tab) : act unit := t ← save_tab t; push n t.

Definition compact (curr : Z) : act unit :=
  tab ← read_all_tabs_in_level curr;
  next ← lift (u_add curr 1);
  ls ← lvls;
  if zlen ls <=? next then
    tab ← save_tab tab;
    _ ← clear curr;
    new_lvl ← lift (Level.push tab (Level.new next));
    t ← the lsmt;
    set_lsmt (Lsmt.set_lvls (Lsmt.lvls t ++ [new_lvl]) t)
  else
    overlap ← find_overlapping next tab;
    overlap_tab ← combine_tabs overlap;
    merged ← merge tab overlap_tab;
    _ ← for_each (drop_overlap next) overlap;
    cap ← lift (Level.item_cap next);
    parts ← lift (n ← u_add next 1; u_mul Lsmt.TAB_CNT_BASE n);
    ts ← divide merged (cap / parts);
    _ ← for_each (store_chunk next) ts;
    clear curr.

Definition compact_if_full (curr : Z) : act unit :=
  l ← level curr;
  full ← lift (Level.is_full l);
  if full : bool then compact curr else mret ().
(** [push_young]: the young tab with the number and arm it was saved with is added to level 0,
    then the levels there are compacted where they are full. *)
Definition add_young (young : Tab) : act Tab :=
  young ← save_tab young; _ ← push 0 young; mret young.
Definition compact_levels : act unit :=
  ls ← lvls; for_each compact_if_full (seqZ 0 (zlen ls)).
Definition push_young (young : Tab) : act Tab :=
  young ← add_young young; _ ← compact_levels; mret young.

(** *** The methods of [IndexMgr] *)

Definition new : IndexMgr MM TM :=
  mkMgr Lsmt.new (Lru.new (K:=Eid) (V:=Tab) Lsmt.TAB_CACHE_SIZE) MemTab.new.

(** [Eid::from_slice] of a key: the id it stands for. *)
Definition set_crypto_ctx (eid_of : bytes → Eid) (c : Crypto.Crypto) (key : bytes) : act unit :=
  sub ← lift (Crypto.derive key SUBKEY_ID_LSMT);
  i ← lift (Crypto.derive sub 0);
  l ← the lsmt;
  _ ← set_lsmt (mkLsmt (eid_of i) (Lsmt.seq l) (Lsmt.arm l) (Lsmt.lvls l));
  _ ← on_files (acc_set_crypto_ctx KLsmt c sub);
  sub ← lift (Crypto.derive key SUBKEY_ID_MEMTAB);
  i ← lift (Crypto.derive sub 0);
  t ← the memtab;
  _ ← set_memtab (mkMemTab (eid_of i) (MemTab.seq t) (MemTab.arm t) (MemTab.map t) (MemTab.is_changed t));
  _ ← on_files (acc_set_crypto_ctx KMemTab c sub);
  sub ← lift (Crypto.derive key SUBKEY_ID_TAB);
  on_files (acc_set_crypto_ctx KTab c sub).

Definition save_lsmt : act unit :=
  l ← the lsmt; '(l, r) ← on_files (acc_save KLsmt l); _ ← set_lsmt l; lift r.
Definition save_memtab : act unit :=
  t ← the memtab; '(t, r) ← on_files (acc_save KMemTab t); _ ← set_memtab t; lift r.

Definition init : act unit := _ ← save_lsmt; save_memtab.
Definition lsmt_open : act unit :=
  l ← the lsmt;
  saved ← on_files (acc_load KLsmt (Lsmt.id l));
  set_lsmt (mkLsmt (Lsmt.id l) (Lsmt.seq saved) (Lsmt.arm saved) (Lsmt.lvls saved)).
Definition open : act unit :=
  _ ← lsmt_open;
  t ← the memtab;
  t ← on_files (acc_load KMemTab (MemTab.id t));
  set_memtab t.

Definition get (i : Eid) : act bytes :=
  t ← the memtab;
  let '(o, t) := MemTab.get_address i t in
  _ ← set_memtab t;
  match o with
  | Some [] => fail NotFound
  | Some addr => mret addr
  | None => lsmt_get_address i
  end.

Definition extract_young : act Tab :=
  i ← draw_id; t ← the memtab; its ← lift (MemTab.young_items t); mret (Tab.with_items its (Tab.new i)).

Definition insert (i : Eid) (addr : bytes) : act unit :=
  t ← the memtab;
  let t := MemTab.insert i addr t in
  _ ← set_memtab t;
  if negb (MemTab.is_full t) then mret ()
  else
    young ← extract_young;
    young ← push_young young;
    _ ← save_lsmt;
    t ← the memtab;
    set_memtab (MemTab.evict_young young t).
Definition delete (i : Eid) : act unit := insert i [].

Definition flush : act unit :=
  t ← the memtab;
  if MemTab.is_changed t then
    _ ← save_memtab;
    t ← the memtab;
    set_memtab (MemTab.set_map (MemTab.map t) false t)
  else mret ().
End index.
End Index.
