(* ===== verification/IndexTree.v ===== *)
(** * The tabs on the levels of the index as one list of items, the youngest first. *)
From stdpp Require Import sorting.
From S2P Require Import Prelude Run Base Crypto Armor Index.

(** ** Tables of the index: searching, sorting, merging and cutting them. *)

(** Sorted by id, without an id twice. *)
Definition id_lt (x y : TabItem) : Prop := x.1 < y.1.
#[export] Instance id_lt_trans : Transitive id_lt.
Proof. intros x y z. unfold id_lt. lia. Qed.
Abbreviation sorted := (StronglySorted id_lt).

Section items.
Implicit Types (l low high : list TabItem) (i : Eid) (it : TabItem) (a : bytes).

Lemma sorted_cons it l : sorted (it :: l) ↔ sorted l ∧ Forall (id_lt it) l.
Proof. split; [by apply StronglySorted_inv|]. intros [??]. by constructor. Qed.
Lemma sorted_app l1 l2 :
  sorted (l1 ++ l2) ↔ sorted l1 ∧ sorted l2 ∧ ∀ x y, x ∈ l1 → y ∈ l2 → id_lt x y.
Proof. rewrite (StronglySorted_app id_lt). tauto. Qed.
Lemma sorted_nodup l : sorted l → NoDup l.*1.
Proof.
  induction 1 as [|it l _ IH Hall]; [constructor|]. cbn. constructor; [|done].
  intros (y & Hy & Hin)%list_elem_of_fmap. rewrite Forall_forall in Hall.
  specialize (Hall _ Hin). unfold id_lt in Hall. lia.
Qed.

Lemma sorted_concat (ls : list (list TabItem)) l : sorted (concat ls) → l ∈ ls → sorted l.
Proof.
  intros Hs (a & b & ->)%list_elem_of_split. rewrite concat_app in Hs. cbn in Hs.
  by apply sorted_app in Hs as (_ & (? & _ & _)%sorted_app & _).
Qed.

(** ** Searching *)

(** What a search finds is an item of the table, sorted or not. *)
Lemma search_sound l i a : Tab.search_items l i = Some a → (i, a) ∈ l.
Proof.
  unfold Tab.search_items. case_match; [done|]. destruct (zget l _) as [[j b]|] eqn:Hg; [|done].
  cbn. case_match; [|done]. intros [= ->]. zify_b. subst. apply zget_Some in Hg as [_ Hg].
  by apply list_elem_of_lookup_2 in Hg.
Qed.

Lemma sorted_zget l i j x y :
  sorted l → zget l i = Some x → zget l j = Some y → i < j → x.1 < y.1.
Proof.
  intros Hs Hx Hy Hij. apply zget_split in Hx as [Hl Hi]. rewrite Hl in Hs, Hy.
  apply sorted_app in Hs as (_ & [_ Hall]%sorted_cons & _). rewrite Forall_forall in Hall. apply Hall.
  rewrite zget_app_r in Hy by lia. rewrite Hi in Hy.
  replace (j - i) with ((j - i - 1) + 1) in Hy by lia. rewrite zget_cons_S in Hy by lia.
  apply zget_Some in Hy as [_ Hy]. by apply list_elem_of_lookup_2 in Hy.
Qed.

(** The loop narrows to the place of the id, if the table has it. *)
Lemma search_loop_sorted fuel l i base size p a :
  sorted l → zget l p = Some (i, a) → base ≤ p < base + size → 0 ≤ base → base + size ≤ zlen l →
  size ≤ 2 ^ Z.of_nat fuel → Tab.search_loop fuel l i base size = p.
Proof.
  intros Hs Hp. revert base size. induction fuel as [|fuel IH]; intros base size Hb H0 Hl Hf.
  { cbn in *. lia. }
  cbn [Tab.search_loop]. destruct (1 <? size) eqn:Hsz; zify_b; [|lia].
  assert (Hhalf : 0 < size / 2 < size) by (split; [apply Z.div_str_pos; lia|apply Z.div_lt; lia]).
  pose proof (Z.div_mod size 2). pose proof (Z.mod_pos_bound size 2).
  destruct (zget_is_Some l (base + size / 2)) as [it Hit]; [lia|]. rewrite Hit.
  assert (Hf' : size - size / 2 ≤ 2 ^ Z.of_nat fuel).
  { rewrite Nat2Z.inj_succ, Z.pow_succ_r in Hf by lia. lia. }
  destruct (i <? it.1) eqn:Hi; zify_b.
  - assert (p < base + size / 2).
    { destruct (Z.lt_total p (base + size / 2)) as [?|[->|Hgt]]; [done|simplify_eq; cbn in Hi; lia|].
      pose proof (sorted_zget _ _ _ _ _ Hs Hit Hp Hgt) as Hlt. cbn in Hlt. lia. }
    apply IH; [|lia|lia|done]. lia.
  - assert (base + size / 2 ≤ p).
    { destruct (Z.lt_total p (base + size / 2)) as [Hgt|[->|?]]; [|lia|lia].
      pose proof (sorted_zget _ _ _ _ _ Hs Hp Hit Hgt) as Hlt. cbn in Hlt. lia. }
    apply IH; [lia|lia|lia|done].
Qed.

Lemma search_sorted l i : sorted l → Tab.search_items l i = assoc i l.
Proof.
  intros Hs. destruct (assoc i l) as [a|] eqn:Ha.
  - apply assoc_Some_elem in Ha as Hin. apply list_elem_of_lookup_1 in Hin as [p Hp].
    assert (Hz : zget l (Z.of_nat p) = Some (i, a)) by (apply zget_Some; split; [lia|by rewrite Nat2Z.id]).
    pose proof (zget_lt _ _ _ Hz) as Hlt. unfold Tab.search_items.
    rewrite (proj2 (Z.eqb_neq _ _)) by lia.
    rewrite (search_loop_sorted _ l i 0 (zlen l) (Z.of_nat p) a Hs Hz); try lia.
    + by rewrite Hz, Z.eqb_refl.
    + unfold zlen. pose proof (Z.pow_gt_lin_r 2 (Z.of_nat (length l))). lia.
  - destruct (Tab.search_items l i) as [a|] eqn:Hf; [|done]. apply search_sound in Hf.
    apply assoc_None in Ha. destruct Ha. apply list_elem_of_fmap. by exists (i, a).
Qed.

(** ** Sorting *)

Lemma bytes_le_total a b : bytes_le a b = true ∨ bytes_le b a = true.
Proof.
  revert b. induction a as [|x a IH]; intros [|y b]; cbn; auto.
  destruct (x <? y) eqn:H1; [by left|]. destruct (y <? x) eqn:H2; [by right|]. zify_b.
  assert (x = y) as -> by lia. rewrite Z.eqb_refl. apply IH.
Qed.
Lemma bytes_le_trans a b c : bytes_le a b = true → bytes_le b c = true → bytes_le a c = true.
Proof.
  revert b c. induction a as [|x a IH]; intros [|y b] [|z c]; cbn; try done.
  repeat case_match; zify_b; subst; try done; try lia. apply IH.
Qed.
#[export] Instance item_le_total : Total Tab.item_le.
Proof.
  intros x y. unfold Tab.item_le. destruct (Z.lt_total x.1 y.1) as [?|[?|?]]; auto.
  destruct (bytes_le_total x.2 y.2); auto.
Qed.
#[export] Instance item_le_trans : Transitive Tab.item_le.
Proof.
  intros x y z [H1|[H1 Hb1]] [H2|[H2 Hb2]]; unfold Tab.item_le; [left; lia..|right].
  split; [lia|]. by eapply bytes_le_trans.
Qed.

Lemma sort_perm l : Tab.sort_unstable l ≡ₚ l.
Proof. apply merge_sort_Permutation. Qed.
Lemma sort_elem it l : it ∈ Tab.sort_unstable l ↔ it ∈ l.
Proof. by rewrite sort_perm. Qed.
Lemma sort_length l : zlen (Tab.sort_unstable l) = zlen l.
Proof. unfold zlen. by rewrite sort_perm. Qed.
(** A table in which no id is twice is sorted by id. *)
Lemma sort_sorted l : NoDup l.*1 → sorted (Tab.sort_unstable l).
Proof.
  intros Hnd. assert (Hnd' : NoDup (Tab.sort_unstable l).*1) by by rewrite sort_perm.
  pose proof (StronglySorted_merge_sort Tab.item_le l) as Hs. unfold Tab.sort_unstable in *.
  induction Hs as [|it s Hs IH Hall]; [constructor|]. cbn in Hnd'. apply NoDup_cons in Hnd' as [Hni Hnd'].
  constructor; [by apply IH|]. rewrite Forall_forall in *. intros y Hy. unfold id_lt.
  destruct (Hall y Hy) as [?|[Heq _]]; [done|]. destruct Hni. rewrite Heq. by apply list_elem_of_fmap_2.
Qed.

Lemma assoc_perm i l1 l2 : NoDup l1.*1 → l1 ≡ₚ l2 → assoc i l1 = assoc i l2.
Proof.
  intros Hnd Hp. destruct (assoc i l1) as [a|] eqn:Ha.
  - symmetry. apply assoc_elem; [by rewrite <- Hp|]. rewrite <- Hp. by apply assoc_Some_elem.
  - symmetry. apply assoc_None. rewrite <- Hp. by apply assoc_None.
Qed.

(** ** Merging *)

Lemma merge_nil_r low : Tab.merge_items low [] = low.
Proof. by destruct low. Qed.
Lemma merge_cons x low y high :
  Tab.merge_items (x :: low) (y :: high)
  = match Z.compare x.1 y.1 with
    | Lt => x :: Tab.merge_items low (y :: high)
    | Eq => (if decide (x.2 = []) then [] else [x]) ++ Tab.merge_items low high
    | Gt => y :: Tab.merge_items (x :: low) high
    end.
Proof. done. Qed.

(** Induction along the merge. *)
Lemma merge_ind (P : list TabItem → list TabItem → Prop) :
  (∀ high, P [] high) → (∀ low, P low []) →
  (∀ x low y high, x.1 < y.1 → P low (y :: high) → P (x :: low) (y :: high)) →
  (∀ x low y high, x.1 = y.1 → P low high → P (x :: low) (y :: high)) →
  (∀ x low y high, y.1 < x.1 → P (x :: low) high → P (x :: low) (y :: high)) →
  ∀ low high, P low high.
Proof.
  intros H1 H2 Hlt Heq Hgt. induction low as [|x low IH]; [done|].
  induction high as [|y high IHh]; [done|].
  destruct (Z.lt_total x.1 y.1) as [?|[?|?]]; [by apply Hlt|by apply Heq|by apply Hgt].
Qed.

Lemma merge_elem low high it : it ∈ Tab.merge_items low high → it ∈ low ∨ it ∈ high.
Proof.
  revert low high. apply (merge_ind (λ low high, it ∈ Tab.merge_items low high → it ∈ low ∨ it ∈ high)).
  1: by right.
  1: intros low; rewrite merge_nil_r; by left.
  all: intros x low y high Hc IH; rewrite merge_cons, !elem_of_cons in *.
  - rewrite (proj2 (Z.compare_lt_iff _ _)) by done. rewrite elem_of_cons. tauto.
  - rewrite (proj2 (Z.compare_eq_iff _ _)) by done. rewrite elem_of_app.
    case_decide; rewrite ?list_elem_of_singleton, ?elem_of_nil; tauto.
  - rewrite (proj2 (Z.compare_gt_iff _ _)) by done. rewrite elem_of_cons. tauto.
Qed.
Lemma merge_length low high : zlen (Tab.merge_items low high) ≤ zlen low + zlen high.
Proof.
  revert low high. apply (merge_ind (λ low high, zlen (Tab.merge_items low high) ≤ zlen low + zlen high)).
  1: intros high; cbn; pose proof (zlen_nonneg (A:=TabItem) []); lia.
  1: intros low; rewrite merge_nil_r; pose proof (zlen_nonneg (A:=TabItem) []); lia.
  all: intros x low y high Hc IH; rewrite merge_cons, ?(zlen_cons x), ?(zlen_cons y) in *.
  - rewrite (proj2 (Z.compare_lt_iff _ _)) by done. rewrite zlen_cons. lia.
  - rewrite (proj2 (Z.compare_eq_iff _ _)) by done. rewrite zlen_app. case_decide; rewrite ?zlen_cons, zlen_nil; lia.
  - rewrite (proj2 (Z.compare_gt_iff _ _)) by done. rewrite zlen_cons. lia.
Qed.

Lemma merge_sorted low high : sorted low → sorted high → sorted (Tab.merge_items low high).
Proof.
  revert low high. apply (merge_ind (λ low high, sorted low → sorted high → sorted (Tab.merge_items low high)));
    [done|intros low; by rewrite merge_nil_r|..]; intros x low y high Hc IH Hl Hh; rewrite merge_cons;
    apply sorted_cons in Hl as Hl'; apply sorted_cons in Hh as Hh'; destruct Hl' as [Hl1 Hx], Hh' as [Hh1 Hy];
    rewrite Forall_forall in Hx, Hy.
  - rewrite (proj2 (Z.compare_lt_iff _ _)) by done. constructor; [by apply IH|]. apply Forall_forall.
    intros it [Hin|Hin]%merge_elem; [by apply Hx|]. apply elem_of_cons in Hin as [->|Hin]; [done|].
    specialize (Hy _ Hin). unfold id_lt in *. lia.
  - rewrite (proj2 (Z.compare_eq_iff _ _)) by done. specialize (IH Hl1 Hh1). case_decide; [done|].
    constructor; [done|]. apply Forall_forall. intros it [Hin|Hin]%merge_elem; [by apply Hx|].
    specialize (Hy _ Hin). unfold id_lt in *. lia.
  - rewrite (proj2 (Z.compare_gt_iff _ _)) by done. constructor; [by apply IH|]. apply Forall_forall.
    intros it [Hin|Hin]%merge_elem; [|by apply Hy]. apply elem_of_cons in Hin as [->|Hin]; [done|].
    specialize (Hx _ Hin). unfold id_lt in *. lia.
Qed.

(** What a merged table says of an id: the item of the younger table, none if that is a deletion
    that met one, else the item of the older table. *)
Lemma merge_assoc low high i :
  sorted low → sorted high →
  assoc i (Tab.merge_items low high)
  = match assoc i low with
    | Some [] => match assoc i high with Some _ => None | None => Some [] end
    | Some a => Some a
    | None => assoc i high
    end.
Proof.
  revert low high. apply (merge_ind (λ low high, sorted low → sorted high → assoc i (Tab.merge_items low high)
    = match assoc i low with
      | Some [] => match assoc i high with Some _ => None | None => Some [] end
      | Some a => Some a | None => assoc i high end)).
  1: done.
  1: intros low _ _; rewrite merge_nil_r; cbn; by destruct (assoc i low) as [[|? ?]|].
  all: intros [xi xa] low [yi ya] high Hc IH Hl Hh; rewrite merge_cons; cbn [fst snd] in *;
    apply sorted_cons in Hl as Hl'; apply sorted_cons in Hh as Hh'; destruct Hl' as [Hl1 Hx], Hh' as [Hh1 Hy];
    rewrite Forall_forall in Hx, Hy.
  - rewrite (proj2 (Z.compare_lt_iff _ _)) by done. cbn [assoc]. destruct (decide (i = xi)) as [->|].
    + rewrite decide_False by lia. assert (Hn : assoc xi high = None).
      { apply assoc_None. intros ([zi za] & -> & Hin)%list_elem_of_fmap. specialize (Hy _ Hin).
        unfold id_lt in Hy. cbn in *. lia. }
      rewrite Hn. by destruct xa.
    + by rewrite (IH Hl1 Hh).
  - rewrite (proj2 (Z.compare_eq_iff _ _)) by done. subst yi. specialize (IH Hl1 Hh1).
    assert (Hn : ∀ z, sorted z → (∀ it, it ∈ z → id_lt (xi, xa) it) → assoc xi z = None).
    { intros z _ Hz. apply assoc_None. intros ([zi za] & -> & Hin)%list_elem_of_fmap. specialize (Hz _ Hin).
      unfold id_lt in Hz. cbn in *. lia. }
    cbn [assoc]. destruct (decide (i = xi)) as [->|Hne].
    + case_decide as Hd; cbn [app assoc]; rewrite ?decide_True by done.
      * subst xa. rewrite IH, (Hn low), (Hn high) by done. done.
      * by destruct xa.
    + case_decide as Hd; cbn [app assoc]; rewrite ?(decide_False (P:=i = xi)) by done; done.
  - rewrite (proj2 (Z.compare_gt_iff _ _)) by done. cbn [assoc] in *. specialize (IH Hl Hh1).
    destruct (decide (i = yi)) as [->|].
    + rewrite decide_False by lia. assert (Hn : assoc yi low = None).
      { apply assoc_None. intros ([zi za] & -> & Hin)%list_elem_of_fmap. specialize (Hx _ Hin).
        unfold id_lt in Hx. cbn in *. lia. }
      by rewrite Hn.
    + done.
Qed.

(** ** Cutting *)

Lemma chunks_spec fuel n l :
  0 < n → (length l ≤ fuel)%nat →
  concat (Tab.chunks fuel n l) = l ∧ Forall (λ c, c ≠ []) (Tab.chunks fuel n l).
Proof.
  intros Hn. revert l. induction fuel as [|fuel IH]; intros [|x l] Hl; cbn [Tab.chunks]; try done; cbn in Hl; try lia.
  destruct (IH (zdrop n (x :: l))) as [Hc Hall].
  { unfold zdrop. rewrite length_drop. cbn. lia. }
  cbn [concat]. rewrite Hc, ztake_zdrop. split; [done|]. constructor; [|done].
  unfold ztake. by destruct (Z.to_nat n) eqn:?; [lia|].
Qed.
End items.

Implicit Types (T : gmap Eid Tab) (i : Eid) (ti : TabInfo) (l : Level) (ls : list Level).

Lemma filter_keep {A} (P : A → Prop) `{∀ x, Decision (P x)} (xs : list A) : Forall P xs → filter P xs = xs.
Proof. induction 1 as [|x xs Hx _ IH]; [done|]. by rewrite filter_cons, decide_True, IH. Qed.
Lemma filter_iff_in {A} (P Q : A → Prop) `{∀ x, Decision (P x), ∀ x, Decision (Q x)} (xs : list A) :
  (∀ x, x ∈ xs → P x ↔ Q x) → filter P xs = filter Q xs.
Proof.
  induction xs as [|x xs IH]; [done|]. intros Hi. rewrite !filter_cons, IH by (intros; apply Hi; by constructor).
  assert (Hx : P x ↔ Q x) by (apply Hi; by constructor). by rewrite (decide_ext (P x) (Q x) _ _ Hx).
Qed.
Lemma nodup_fmap_eq {A B} (f : A → B) (xs : list A) x y :
  NoDup (f <$> xs) → x ∈ xs → y ∈ xs → f x = f y → x = y.
Proof.
  intros Hnd (a & b & ->)%list_elem_of_split Hy Heq. rewrite fmap_app in Hnd. cbn in Hnd.
  apply NoDup_app in Hnd as (_ & Hd & [Hb _]%NoDup_cons).
  apply elem_of_app in Hy as [Hy|[->|Hy]%elem_of_cons]; [|done|].
  - destruct (Hd (f y)); [by apply list_elem_of_fmap_2|]. rewrite Heq. by constructor.
  - destruct Hb. rewrite Heq. by apply list_elem_of_fmap_2.
Qed.

(** ** Items of tabs and levels *)

Definition items_of T ti : list TabItem :=
  match T !! TabInfo.id ti with Some t => Tab.items t | None => [] end.
Definition all_items T (tis : list TabInfo) : list TabItem := concat (items_of T <$> tis).
Definition level_items T l : list TabItem := all_items T (reverse (Level.tabs l)).
Definition tree_items T ls : list TabItem := concat (level_items T <$> ls).

(** What is looked up first counts, and an empty address is a deletion. *)
Definition live (o : option bytes) : option bytes := match o with Some [] => None | _ => o end.

Lemma all_items_app T xs ys : all_items T (xs ++ ys) = all_items T xs ++ all_items T ys.
Proof. unfold all_items. by rewrite fmap_app, concat_app. Qed.
Lemma all_items_cons T ti tis : all_items T (ti :: tis) = items_of T ti ++ all_items T tis.
Proof. done. Qed.
Lemma tree_items_app T ls1 ls2 : tree_items T (ls1 ++ ls2) = tree_items T ls1 ++ tree_items T ls2.
Proof. unfold tree_items. by rewrite fmap_app, concat_app. Qed.
Lemma tree_items_cons T l ls : tree_items T (l :: ls) = level_items T l ++ tree_items T ls.
Proof. done. Qed.
Lemma all_items_perm T xs ys : xs ≡ₚ ys → all_items T xs ≡ₚ all_items T ys.
Proof. intros Hp. unfold all_items. by rewrite Hp. Qed.
Lemma elem_all_items T it tis : it ∈ all_items T tis ↔ ∃ ti, ti ∈ tis ∧ it ∈ items_of T ti.
Proof.
  unfold all_items. rewrite list_elem_of_In, in_concat. split.
  - intros (x & Hx & Hin). apply list_elem_of_In, list_elem_of_fmap in Hx as (ti & -> & Hti).
    exists ti. split; [done|]. by apply list_elem_of_In.
  - intros (ti & Hti & Hin). exists (items_of T ti). rewrite <- !list_elem_of_In. split; [|done].
    by apply list_elem_of_fmap_2.
Qed.

(** Only the tabs that are named count. *)
Definition agree T T' (tis : list TabInfo) : Prop :=
  ∀ ti, ti ∈ tis → T' !! TabInfo.id ti = T !! TabInfo.id ti.
Lemma agree_items T T' tis : agree T T' tis → all_items T' tis = all_items T tis.
Proof.
  unfold all_items. intros Ha. f_equal. apply list_fmap_ext. intros j ti Hj.
  apply list_elem_of_lookup_2 in Hj. unfold items_of. by rewrite (Ha ti Hj).
Qed.
Lemma agree_level T T' l : agree T T' (Level.tabs l) → level_items T' l = level_items T l.
Proof. intros Ha. apply agree_items. intros ti Hti. rewrite elem_of_reverse in Hti. exact (Ha ti Hti). Qed.
Lemma agree_tree T T' ls :
  agree T T' (concat (Level.tabs <$> ls)) → tree_items T' ls = tree_items T ls.
Proof.
  induction ls as [|l ls IH]; [done|]. intros Ha. rewrite !tree_items_cons, IH, (agree_level T T'); [done|..];
    intros ti Hti; apply (Ha ti); cbn; apply elem_of_app; auto.
Qed.

(** ** Tabs that their descriptions fit *)

Definition info_ok T ti : Prop :=
  ∃ t, T !! TabInfo.id ti = Some t ∧ sorted (Tab.items t) ∧ TabInfo.new t = Ok ti.

Lemma info_new t ti :
  TabInfo.new t = Ok ti → TabInfo.id ti = Tab.id t ∧ TabInfo.cnt ti = Tab.len t ∧ 
  ∃ b e, head (Tab.items t) = Some b ∧ last (Tab.items t) = Some e ∧ TabInfo.begin_ ti = b.1 ∧ TabInfo.end_ ti = e.1.
Proof.
  unfold TabInfo.new, unwrap. destruct (head _) as [b|]; [|done]. destruct (last _) as [e|]; [|done].
  intros [= <-]. cbn. eauto 10.
Qed.
Lemma info_new_ok t : Tab.items t ≠ [] → ∃ ti, TabInfo.new t = Ok ti.
Proof.
  intros Hne. unfold TabInfo.new. destruct (Tab.items t) as [|b l] eqn:Hl; [done|]. cbn.
  assert (∃ e, last (b :: l) = Some e) as [e He].
  { destruct (last (b :: l)) eqn:He; [by eexists|]. by apply last_None in He. }
  rewrite He. cbn. by eexists.
Qed.

Lemma sorted_head_le (xs : list TabItem) b it : sorted xs → head xs = Some b → it ∈ xs → b.1 ≤ it.1.
Proof.
  destruct xs as [|x xs]; [done|]. intros [_ Hall]%sorted_cons [= ->] [->|Hin]%elem_of_cons; [lia|].
  rewrite Forall_forall in Hall. specialize (Hall _ Hin). unfold id_lt in Hall. lia.
Qed.
Lemma sorted_last_ge (xs : list TabItem) e it : sorted xs → last xs = Some e → it ∈ xs → it.1 ≤ e.1.
Proof.
  intros Hs (l' & ->)%last_Some Hin. apply sorted_app in Hs as (_ & _ & Hlt).
  apply elem_of_app in Hin as [Hin| ->%list_elem_of_singleton]; [|lia].
  specialize (Hlt it e Hin (list_elem_of_here _ _)). unfold id_lt in Hlt. lia.
Qed.

(** The range of a description holds the ids of the tab. *)
Lemma info_range T ti it :
  info_ok T ti → it ∈ items_of T ti → TabInfo.begin_ ti ≤ it.1 ≤ TabInfo.end_ ti.
Proof.
  intros (t & Ht & Hs & (_ & _ & b & e & Hb & He & -> & ->)%info_new) Hin.
  unfold items_of in Hin. rewrite Ht in Hin. split; [by eapply sorted_head_le|by eapply sorted_last_ge].
Qed.
Lemma info_contains T ti i a :
  info_ok T ti → assoc i (items_of T ti) = Some a → TabInfo.contains ti i = true.
Proof.
  intros Hok Ha%assoc_Some_elem. destruct (info_range _ _ _ Hok Ha). cbn in *.
  unfold TabInfo.contains. apply andb_true_iff. split; apply Z.leb_le; lia.
Qed.
Lemma info_sorted T ti : info_ok T ti → sorted (items_of T ti).
Proof. intros (t & Ht & Hs & _). unfold items_of. by rewrite Ht. Qed.
Lemma info_cnt T ti : info_ok T ti → TabInfo.cnt ti = zlen (items_of T ti).
Proof. intros (t & Ht & _ & (_ & -> & _)%info_new). unfold items_of. by rewrite Ht. Qed.
Lemma info_agree T T' ti : T' !! TabInfo.id ti = T !! TabInfo.id ti → info_ok T ti → info_ok T' ti.
Proof. intros Heq (t & Ht & ?). exists t. by rewrite Heq. Qed.

Lemma zsum_cnt T tis : Forall (info_ok T) tis → zsum TabInfo.cnt tis = zlen (all_items T tis).
Proof.
  induction 1 as [|ti tis Hok _ IH]; [done|].
  by rewrite zsum_cons, all_items_cons, zlen_app, IH, (info_cnt T).
Qed.

(** Looking only at the tabs whose range has the id. *)
Lemma look_contain T i tis :
  Forall (info_ok T) tis →
  assoc i (all_items T (filter (λ t, TabInfo.contains t i = true) tis)) = assoc i (all_items T tis).
Proof.
  induction 1 as [|ti tis Hok _ IH]; [done|]. rewrite all_items_cons, assoc_app, filter_cons.
  destruct (decide (TabInfo.contains ti i = true)) as [Hc|Hc].
  - by rewrite all_items_cons, assoc_app, IH.
  - destruct (assoc i (items_of T ti)) eqn:Ha; [|done]. destruct Hc. by eapply info_contains.
Qed.

(** ** Levels *)

Definition cnt_of l : Z := zsum TabInfo.cnt (Level.tabs l).
Definition total ls : Z := zsum cnt_of ls.
Definition names ls : list Eid := TabInfo.id <$> concat (Level.tabs <$> ls).

Lemma names_app ls1 ls2 : names (ls1 ++ ls2) = names ls1 ++ names ls2.
Proof. unfold names. by rewrite fmap_app, concat_app, fmap_app. Qed.
Lemma names_cons l ls : names (l :: ls) = (TabInfo.id <$> Level.tabs l) ++ names ls.
Proof. unfold names. cbn. by rewrite fmap_app. Qed.
Lemma elem_names i ls : i ∈ names ls ↔ ∃ l ti, l ∈ ls ∧ ti ∈ Level.tabs l ∧ TabInfo.id ti = i.
Proof.
  unfold names. rewrite list_elem_of_fmap. split.
  - intros (ti & -> & Hti). rewrite list_elem_of_In, in_concat in Hti. destruct Hti as (tis & Htis & Hti).
    apply list_elem_of_In, list_elem_of_fmap in Htis as (l & -> & Hl). exists l, ti. split; [done|]. split; [|done]. by apply list_elem_of_In.
  - intros (l & ti & Hl & Hti & <-). exists ti. split; [done|]. rewrite list_elem_of_In, in_concat.
    exists (Level.tabs l). rewrite <- !list_elem_of_In. split; [|done]. by apply list_elem_of_fmap_2.
Qed.

Record tree_ok T ls : Prop := {
  tree_num j l : ls !! j = Some l → Level.num l = Z.of_nat j;
  tree_infos l : l ∈ ls → Forall (info_ok T) (Level.tabs l);
  tree_names : NoDup (names ls);
  (* the tabs of a level from 1 on have no id in common *)
  tree_apart j l : ls !! S j = Some l → NoDup (all_items T (Level.tabs l)).*1;
  tree_height : 1 ≤ zlen ls ≤ 16;
  tree_total : total ls < 2 ^ 60
}.

Lemma tree_num_at T ls1 l ls2 : tree_ok T (ls1 ++ l :: ls2) → Level.num l = zlen ls1.
Proof. intros Hok. apply (tree_num _ _ Hok). unfold zlen. by apply list_lookup_middle. Qed.

(** A tab on a level says of an id what is looked up first in it. *)
Lemma level_assoc T l i :
  NoDup (all_items T (Level.tabs l)).*1 → assoc i (level_items T l) = assoc i (all_items T (Level.tabs l)).
Proof.
  intros Hnd. symmetry. apply assoc_perm; [done|]. apply all_items_perm. symmetry. apply reverse_Permutation.
Qed.

(** ** Compaction, as a change of the tree *)

(** What must hold for a level to be merged into the next: its items are without an id twice
    when they are put together, and in order unless they are sorted then; the tabs they
    overlap are in order; and a deletion that is dropped uncovers nothing. *)
Record mergeable (curr : Z) (young old : list TabItem) (deeper : list TabItem) : Prop := {
  young_sorted : sorted (if curr =? 0 then Tab.sort_unstable young else young);
  old_sorted : sorted old;
  no_uncover i : assoc i young = Some [] → is_Some (assoc i old) → live (assoc i deeper) = None
}.

Definition overlaps (young : list TabItem) ti : bool :=
  match head young, last young with
  | Some b, Some e => TabInfo.is_overlapping ti b.1 e.1
  | _, _ => false
  end.

Lemma overlaps_not T young ti it :
  sorted young → info_ok T ti → overlaps young ti = false → it ∈ young → it.1 ∉ (items_of T ti).*1.
Proof.
  unfold overlaps. intros Hs Hok Ho Hin (y & Hy & Hiny)%list_elem_of_fmap.
  destruct (head young) as [b|] eqn:Hb; [|destruct young; [by apply elem_of_nil in Hin|done]].
  destruct (last young) as [e|] eqn:He; [|apply last_None in He; subst; by apply elem_of_nil in Hin].
  pose proof (sorted_head_le _ _ _ Hs Hb Hin). pose proof (sorted_last_ge _ _ _ Hs He Hin).
  pose proof (info_range _ _ _ Hok Hiny). unfold TabInfo.is_overlapping in Ho. zify_b.
  destruct Ho as [Ho|Ho]; zify_b; lia.
Qed.

Lemma all_items_filter T (f : TabInfo → bool) tis :
  all_items T tis ≡ₚ all_items T (filter (λ t, f t = true) tis) ++ all_items T (filter (λ t, f t = false) tis).
Proof.
  rewrite <- all_items_app. apply all_items_perm. induction tis as [|ti tis IH]; [done|].
  rewrite !filter_cons. destruct (f ti); rewrite ?decide_True, ?decide_False by done; cbn.
  - by constructor.
  - rewrite IH at 1. by apply Permutation_middle.
Qed.

(** The items of a level as a compaction puts them together. *)
Definition gathered (curr : Z) T (tis : list TabInfo) : list TabItem :=
  if curr =? 0 then Tab.sort_unstable (all_items T tis) else all_items T tis.
Lemma gathered_perm curr T tis : gathered curr T tis ≡ₚ all_items T tis.
Proof. unfold gathered. case_match; [apply sort_perm|done]. Qed.
Lemma gathered_length curr T tis : zlen (gathered curr T tis) = zlen (all_items T tis).
Proof. unfold zlen. by rewrite gathered_perm. Qed.
Lemma gathered_level curr T l i :
  sorted (gathered curr T (Level.tabs l)) →
  assoc i (level_items T l) = assoc i (gathered curr T (Level.tabs l)).
Proof.
  intros Hs%sorted_nodup. symmetry. apply assoc_perm; [done|]. rewrite gathered_perm. symmetry.
  apply all_items_perm, reverse_Permutation.
Qed.

Definition emptied l : Level := Level.mkLevel (Level.num l) [].
Definition refilled l (tis : list TabInfo) : Level := Level.mkLevel (Level.num l) tis.

Lemma nodup_fst_app (l1 l2 : list TabItem) :
  NoDup (l1 ++ l2).*1 ↔ NoDup l1.*1 ∧ NoDup l2.*1 ∧ ∀ x, x ∈ l1 → x.1 ∉ l2.*1.
Proof.
  rewrite fmap_app, NoDup_app. split.
  - intros (H1 & Hd & H2). split; [done|]. split; [done|]. intros x Hx. by apply Hd, list_elem_of_fmap_2.
  - intros (H1 & H2 & Hd). split; [done|]. split; [|done]. intros j (x & -> & Hx)%list_elem_of_fmap. by apply Hd.
Qed.

Section compaction.
Context (T T' : gmap Eid Tab) (ls1 : list Level) (c n : Level) (ls2 : list Level) (news : list TabInfo).
Abbreviation ls := (ls1 ++ c :: n :: ls2).
Abbreviation Y := (gathered (zlen ls1) T (Level.tabs c)).
Abbreviation over := (filter (λ t, overlaps Y t = true) (Level.tabs n)).
Abbreviation rest := (filter (λ t, overlaps Y t = false) (Level.tabs n)).
Abbreviation old := (all_items T over).
Abbreviation ls' := (ls1 ++ emptied c :: refilled n (rest ++ news) :: ls2).
Context (Hok : tree_ok T ls).
Context (Hm : mergeable (zlen ls1) (all_items T (Level.tabs c)) old (tree_items T ls2)).
Context (Hinfos : Forall (info_ok T') news) (Hnews : all_items T' news = Tab.merge_items Y old).
Context (Hagree : agree T T' (concat (Level.tabs <$> ls1) ++ rest ++ concat (Level.tabs <$> ls2))).
Context (Hnames : NoDup (names ls')).

Lemma young_ok : sorted Y.
Proof. pose proof (young_sorted _ _ _ _ Hm) as Hs. unfold gathered. by destruct (zlen ls1 =? 0). Qed.
Lemma next_infos : Forall (info_ok T) (Level.tabs n).
Proof. apply (tree_infos _ _ Hok). rewrite elem_of_app, !elem_of_cons. auto. Qed.
Lemma next_apart : NoDup (old ++ all_items T rest).*1.
Proof.
  rewrite <- (all_items_filter T (overlaps Y)). apply (tree_apart _ _ Hok (length ls1)).
  by rewrite lookup_app_r, Nat.sub_succ_l, Nat.sub_diag by lia.
Qed.
Lemma rest_same : all_items T' rest = all_items T rest.
Proof. apply agree_items. intros ti Hti. apply Hagree. rewrite !elem_of_app. auto. Qed.
Lemma young_not_rest x : x ∈ Y → x.1 ∉ (all_items T rest).*1.
Proof.
  intros Hx (y & Hy & (ti & [Ho Hti]%list_elem_of_filter & Hin)%elem_all_items)%list_elem_of_fmap.
  apply (overlaps_not T Y ti x); [apply young_ok| |done|done|].
  - pose proof next_infos as Hall. rewrite Forall_forall in Hall. by apply Hall.
  - rewrite Hy. by apply list_elem_of_fmap_2.
Qed.
Lemma refilled_apart : NoDup (all_items T' (rest ++ news)).*1.
Proof.
  rewrite all_items_app, rest_same, Hnews. apply nodup_fst_app.
  pose proof next_apart as (Ho & Hr & Hd)%nodup_fst_app. split; [done|].
  pose proof (sorted_nodup _ (merge_sorted _ _ young_ok (old_sorted _ _ _ _ Hm))) as Hmn.
  split; [done|]. intros x Hx (y & Hy & Hin)%list_elem_of_fmap. apply merge_elem in Hin as [Hin|Hin].
  - apply (young_not_rest y); [done|]. rewrite <- Hy. by apply list_elem_of_fmap_2.
  - apply (Hd y); [done|]. rewrite <- Hy. by apply list_elem_of_fmap_2.
Qed.

(** Every id is found as before, or is a deletion as before. *)
Lemma compact_view i : live (assoc i (tree_items T' ls')) = live (assoc i (tree_items T ls)).
Proof.
  assert (H1 : tree_items T' ls1 = tree_items T ls1).
  { apply agree_tree. intros ti Hti. apply Hagree, elem_of_app. by left. }
  assert (H2 : tree_items T' ls2 = tree_items T ls2).
  { apply agree_tree. intros ti Hti. apply Hagree. rewrite !elem_of_app. auto. }
  rewrite !tree_items_app, !tree_items_cons, !assoc_app, H1, H2.
  destruct (assoc i (tree_items T ls1)); [done|].
  change (level_items T' (emptied c)) with (@nil TabItem). cbn [assoc].
  rewrite (gathered_level (zlen ls1) T c) by apply young_ok.
  rewrite (level_assoc T' (refilled n _)) by apply refilled_apart. cbn [refilled Level.tabs].
  rewrite all_items_app, rest_same, Hnews, assoc_app.
  rewrite merge_assoc by (apply young_ok || apply (old_sorted _ _ _ _ Hm)).
  assert (Hn : assoc i (level_items T n) = assoc i (old ++ all_items T rest)).
  { symmetry. apply assoc_perm; [apply next_apart|]. rewrite <- (all_items_filter T (overlaps Y)).
    apply all_items_perm. symmetry. apply reverse_Permutation. }
  rewrite Hn, assoc_app.
  assert (Hyr : is_Some (assoc i Y) → assoc i (all_items T rest) = None).
  { intros [a Ha%assoc_Some_elem]. apply assoc_None, (young_not_rest (i, a) Ha). }
  assert (Hor : is_Some (assoc i old) → assoc i (all_items T rest) = None).
  { intros [a Ha%assoc_Some_elem]. apply assoc_None. pose proof next_apart as (_ & _ & Hd)%nodup_fst_app.
    by apply (Hd (i, a)). }
  assert (Hu : assoc i Y = Some [] → is_Some (assoc i old) → live (assoc i (tree_items T ls2)) = None).
  { intros Hy. apply (no_uncover _ _ _ _ Hm). rewrite <- Hy. symmetry.
    apply assoc_perm; [apply sorted_nodup, young_ok|apply gathered_perm]. }
  destruct (assoc i Y) as [[|y ys]|]; [|by rewrite Hyr by done|].
  - rewrite Hyr by done. destruct (assoc i old); [by rewrite Hu|done].
  - destruct (assoc i old) as [o|]; [by rewrite Hor by done|]. by destruct (assoc i (all_items T rest)).
Qed.

Lemma compact_total : total ls' ≤ total ls.
Proof.
  unfold total. rewrite !zsum_app, !zsum_cons. unfold cnt_of, emptied, refilled. cbn [Level.tabs].
  rewrite zsum_nil, zsum_app. pose proof (merge_length Y old) as Hl.
  assert (Hn : zsum TabInfo.cnt (Level.tabs n) = zlen old + zlen (all_items T rest)).
  { rewrite (zsum_cnt T) by apply next_infos. rewrite <- zlen_app. unfold zlen. by rewrite (all_items_filter T (overlaps Y)). }
  assert (Hc : Forall (info_ok T) (Level.tabs c)).
  { apply (tree_infos _ _ Hok). rewrite elem_of_app, !elem_of_cons. auto. }
  assert (Hr : Forall (info_ok T) rest).
  { pose proof next_infos as Hall. rewrite Forall_forall in *. intros ti [_ Hti]%list_elem_of_filter. by apply Hall. }
  rewrite Hn, (zsum_cnt T' news), Hnews, (zsum_cnt T rest), (zsum_cnt T (Level.tabs c)) by done.
  rewrite (gathered_length _ T) in Hl. lia.
Qed.

Lemma compact_tree : tree_ok T' ls'.
Proof.
  split.
  - intros j l Hj. destruct (decide (j < length ls1)%nat).
    + rewrite lookup_app_l in Hj by done. apply (tree_num _ _ Hok). by rewrite lookup_app_l.
    + rewrite lookup_app_r in Hj by lia. pose proof (tree_num _ _ Hok j) as Hnum. rewrite lookup_app_r in Hnum by lia.
      destruct (j - length ls1)%nat as [|[|k]]; cbn in Hj, Hnum; simplify_eq; cbn; by apply Hnum.
  - intros l Hl. assert (Hsame : ∀ l, l ∈ ls1 ++ ls2 → Forall (info_ok T') (Level.tabs l)).
    { intros l' Hl'. assert (Hi : Forall (info_ok T) (Level.tabs l')).
      { apply (tree_infos _ _ Hok). rewrite elem_of_app, !elem_of_cons in *. tauto. }
      rewrite Forall_forall in *. intros ti Hti. apply (info_agree T); [|by apply Hi]. apply Hagree.
      rewrite !elem_of_app. apply elem_of_app in Hl' as [Hl'|Hl']; [left|right; right];
        apply list_elem_of_In, in_concat; exists (Level.tabs l'); rewrite <- !list_elem_of_In;
        (split; [by apply list_elem_of_fmap_2|done]). }
    rewrite elem_of_app, !elem_of_cons in Hl. destruct Hl as [Hl|[->|[->|Hl]]];
      [apply Hsame, elem_of_app; by left|by constructor| |apply Hsame, elem_of_app; by right].
    apply Forall_app. split; [|done]. rewrite Forall_forall. intros ti Hti.
    apply (info_agree T); [apply Hagree; rewrite !elem_of_app; auto|]. apply list_elem_of_filter in Hti as [_ Hti].
    pose proof next_infos as Hall. rewrite Forall_forall in Hall. by apply Hall.
  - apply Hnames.
  - intros j l Hj. destruct (decide (S j < length ls1)%nat).
    + rewrite lookup_app_l in Hj by done.
      rewrite (agree_items T T').
      * apply (tree_apart _ _ Hok j). by rewrite lookup_app_l.
      * intros ti Hti. apply Hagree, elem_of_app. left. apply list_elem_of_In, in_concat. exists (Level.tabs l).
        rewrite <- !list_elem_of_In. split; [|done]. by eapply list_elem_of_fmap_2, list_elem_of_lookup_2.
    + rewrite lookup_app_r in Hj by lia. pose proof (tree_apart _ _ Hok j) as Hap. rewrite lookup_app_r in Hap by lia.
      destruct (S j - length ls1)%nat as [|[|k]]; cbn in Hj; simplify_eq; [constructor|apply refilled_apart|].
      rewrite (agree_items T T'); [by apply Hap|]. intros ti Hti. apply Hagree. rewrite !elem_of_app. right. right.
      apply list_elem_of_In, in_concat. exists (Level.tabs l).
      rewrite <- !list_elem_of_In. split; [|done]. by eapply list_elem_of_fmap_2, list_elem_of_lookup_2.
  - pose proof (tree_height _ _ Hok) as Hh. rewrite !zlen_app, !zlen_cons in *. done.
  - pose proof (tree_total _ _ Hok). pose proof compact_total. lia.
Qed.
End compaction.

(** An empty level below changes nothing. *)
Lemma grow_tree T ls : tree_ok T ls → zlen ls < 16 → tree_ok T (ls ++ [Level.new (zlen ls)]).
Proof.
  intros Hok Hlt. assert (He : names (ls ++ [Level.new (zlen ls)]) = names ls).
  { rewrite names_app. apply app_nil_r. }
  split.
  - intros j l Hj. destruct (decide (j < length ls)%nat).
    + rewrite lookup_app_l in Hj by done. by apply (tree_num _ _ Hok).
    + rewrite lookup_app_r in Hj by lia. apply list_lookup_singleton_Some in Hj as [Hj <-]. cbn. unfold zlen. lia.
  - intros l [Hl| ->%list_elem_of_singleton]%elem_of_app; [by apply (tree_infos _ _ Hok)|constructor].
  - rewrite He. apply (tree_names _ _ Hok).
  - intros j l Hj. destruct (decide (S j < length ls)%nat).
    + rewrite lookup_app_l in Hj by done. by apply (tree_apart _ _ Hok j).
    + rewrite lookup_app_r in Hj by lia. apply list_lookup_singleton_Some in Hj as [_ <-]. constructor.
  - pose proof (tree_height _ _ Hok). rewrite zlen_snoc. lia.
  - pose proof (tree_total _ _ Hok) as Ht. unfold total in *. rewrite zsum_app, zsum_cons, zsum_nil.
    change (cnt_of (Level.new (zlen ls))) with 0. lia.
Qed.
Lemma grow_items T ls k : tree_items T (ls ++ [Level.new k]) = tree_items T ls.
Proof. rewrite tree_items_app. apply app_nil_r. Qed.

(** A tab pushed on level 0 is looked up first. *)
Lemma push_items T T' l ls t ti :
  agree T T' (concat (Level.tabs <$> (l :: ls))) → T' !! TabInfo.id ti = Some t →
  tree_items T' (refilled l (Level.tabs l ++ [ti]) :: ls) = Tab.items t ++ tree_items T (l :: ls).
Proof.
  intros Ha Ht. rewrite !tree_items_cons. unfold level_items, refilled. cbn [Level.tabs].
  rewrite reverse_snoc, all_items_cons. unfold items_of at 1. rewrite Ht.
  change (all_items T' (reverse (Level.tabs l))) with (level_items T' l).
  rewrite (agree_level T T'), (agree_tree T T'), <- app_assoc; [done|..]; intros x Hx; apply Ha; cbn;
    rewrite elem_of_app; auto.
Qed.
Lemma push_tree T T' l ls ti :
  tree_ok T (l :: ls) → agree T T' (concat (Level.tabs <$> (l :: ls))) → info_ok T' ti →
  TabInfo.id ti ∉ names (l :: ls) → total (l :: ls) + TabInfo.cnt ti < 2 ^ 60 →
  tree_ok T' (refilled l (Level.tabs l ++ [ti]) :: ls).
Proof.
  intros Hok Ha Hti Hnew Htot.
  assert (Hsame : ∀ l' ti', l' ∈ l :: ls → ti' ∈ Level.tabs l' → T' !! TabInfo.id ti' = T !! TabInfo.id ti').
  { intros l' ti' Hl' Hti'. apply Ha. apply list_elem_of_In, in_concat. exists (Level.tabs l').
    rewrite <- !list_elem_of_In. split; [by apply list_elem_of_fmap_2|done]. }
  assert (Hold : ∀ l', l' ∈ l :: ls → Forall (info_ok T') (Level.tabs l')).
  { intros l' Hl'. pose proof (tree_infos _ _ Hok _ Hl') as Hi. rewrite Forall_forall in *. intros ti' Hti'.
    apply (info_agree T); [by apply (Hsame l')|by apply Hi]. }
  split.
  - intros j l' Hj. destruct j as [|j]; cbn in Hj.
    + simplify_eq. by apply (tree_num _ _ Hok 0%nat l).
    + by apply (tree_num _ _ Hok (S j)).
  - intros l' [->|Hl']%elem_of_cons; [|apply Hold; by constructor]. apply Forall_app. split; [|by constructor].
    apply Hold. by constructor.
  - rewrite names_cons in Hnew |- *. cbn [refilled Level.tabs]. rewrite fmap_app, <- app_assoc. cbn.
    rewrite <- Permutation_middle. constructor; [done|]. pose proof (tree_names _ _ Hok) as Hnd. by rewrite names_cons in Hnd.
  - intros j l' Hj. cbn in Hj. rewrite (agree_items T T').
    + by apply (tree_apart _ _ Hok j).
    + intros ti' Hti'. apply (Hsame l'); [|done]. constructor. by eapply list_elem_of_lookup_2.
  - pose proof (tree_height _ _ Hok). by rewrite !zlen_cons in *.
  - unfold total in *. rewrite zsum_cons in *. unfold cnt_of at 1, refilled. cbn [Level.tabs].
    rewrite zsum_app, zsum_cons, zsum_nil. unfold cnt_of in Htot at 1. lia.
Qed.

(** ** Capacities *)

Lemma item_cap_ok k : 0 ≤ k ≤ 15 → Level.item_cap k = Ok (4096 * 10 ^ k).
Proof.
  intros Hk. assert (k ∈ seqZ 0 16) as Hin by (apply elem_of_seqZ; lia).
  assert (Hall : Forall (λ k, Level.item_cap k = Ok (4096 * 10 ^ k)) (seqZ 0 16)) by (repeat constructor).
  rewrite Forall_forall in Hall. by apply Hall.
Qed.
Lemma chunk_size_pos k : 0 ≤ k ≤ 15 → 0 < 4096 * 10 ^ k / (4 * (k + 1)).
Proof. intros Hk. apply Z.div_str_pos. pose proof (Z.pow_pos_nonneg 10 k). nia. Qed.

Lemma item_cnt_from (tis : list TabInfo) n :
  Forall (λ t, 0 ≤ TabInfo.cnt t) tis → n + zsum TabInfo.cnt tis < U64 →
  foldl (λ acc t, m ← acc; u_add m (TabInfo.cnt t)) (Ok n) tis = Ok (n + zsum TabInfo.cnt tis).
Proof.
  intros Hall. revert n. induction Hall as [|t tis Ht Hall IH]; intros n Hn; cbn [foldl]; rewrite ?zsum_nil, ?zsum_cons in *.
  - f_equal. lia.
  - pose proof (zsum_nonneg _ _ Hall). rewrite bind_ok, u_add_ok, IH by lia. f_equal. lia.
Qed.
Lemma item_cnt_ok T ls l : tree_ok T ls → l ∈ ls → Level.item_cnt l = Ok (cnt_of l) ∧ 0 ≤ cnt_of l < 2 ^ 60.
Proof.
  intros Hok Hl. assert (Hall : ∀ l, l ∈ ls → Forall (λ t, 0 ≤ TabInfo.cnt t) (Level.tabs l)).
  { intros l' Hl'. eapply Forall_impl; [by apply (tree_infos _ _ Hok)|]. intros ti Hti. cbn.
    rewrite (info_cnt _ _ Hti). apply zlen_nonneg. }
  assert (Hle : 0 ≤ cnt_of l ≤ total ls).
  { split; [by apply zsum_nonneg, Hall|]. apply list_elem_of_split in Hl as (l1 & l2 & ->). unfold total.
    rewrite zsum_app, zsum_cons.
    assert (Hp : ∀ xs, (∀ x, x ∈ xs → Forall (λ t, 0 ≤ TabInfo.cnt t) (Level.tabs x)) → 0 ≤ zsum cnt_of xs).
    { intros xs Hxs. apply zsum_nonneg, Forall_forall. intros x Hx. by apply zsum_nonneg, Hxs. }
    pose proof (Hp l1 ltac:(intros x Hx; apply Hall, elem_of_app; by left)).
    pose proof (Hp l2 ltac:(intros x Hx; apply Hall; rewrite elem_of_app, elem_of_cons; auto)). lia. }
  pose proof (tree_total _ _ Hok). split; [|lia]. unfold Level.item_cnt.
  rewrite item_cnt_from; [done|by apply Hall|]. unfold cnt_of in *. unfold U64. lia.
Qed.
Lemma is_full_ok T ls j l :
  tree_ok T ls → ls !! j = Some l →
  Level.is_full l = Ok (4096 * 10 ^ Z.of_nat j <=? cnt_of l).
Proof.
  intros Hok Hj. pose proof (list_elem_of_lookup_2 _ _ _ Hj) as Hl. unfold Level.is_full.
  destruct (item_cnt_ok _ _ _ Hok Hl) as [-> _]. rewrite bind_ok, (tree_num _ _ Hok _ _ Hj), item_cap_ok; [done|].
  apply lookup_lt_Some in Hj. pose proof (tree_height _ _ Hok). unfold zlen in *. lia.
Qed.
