(* ===== verification/IndexProofs.v ===== *)
(** * What each operation of the index does while the files below work. *)
From S2P Require Import Prelude Run Base Crypto Armor Storage StorageProofs Index IndexTree.

(** ** The contract of the armors of the index, and what the index keeps over them. *)

(** ** The contract *)

(** Ids that are drawn are new. *)
Class EidSourceLaws (G : Type) `{!EidSource G} := {
  spent : G → Eid → Prop;
  new_eid_fresh g : ¬ spent g (new_eid g).1;
  new_eid_spent g i : spent (new_eid g).2 i ↔ i = (new_eid g).1 ∨ spent g i
}.
#[export] Hint Mode EidSourceLaws ! - : typeclass_instances.

(** [held] is the newest item saved under an id, [copies] are all items that might still be
    read under it. A call fails or the machine stops in it only while the files are not
    [working]; a save that does not succeed may have been made, a removal may have been made in
    part. *)
Class AccessorLaws (F : Type) (I : IKind → Type) `{∀ k, ArmAccess (I k), !Accessor F I} (form : ∀ k, I k → I k) := {
  held : F → ∀ k, gmap Eid (I k);
  copies : F → ∀ k, Eid → I k → Prop;
  working : F → Prop;
  alike (f f' : F) := (∀ k, held f' k = held f k) ∧ (working f → working f');
  apart (k : IKind) (i : Eid) (f f' : F) :=
    (∀ k' i', k' ≠ k ∨ i' ≠ i → held f' k' !! i' = held f k' !! i') ∧ (working f → working f');
  no_new (f f' : F) := ∀ k i c, copies f' k i c → copies f k i c;
  load_law k i f : spec (acc_load k i) f
    (λ c f', (held f k !! i = Some c ∨ ¬ working f) ∧ copies f k i c ∧ alike f f')
    (λ _ f', (held f k !! i = None ∨ ¬ working f) ∧ alike f f')
    (λ f', ¬ working f ∧ alike f f');
  load_copies k i f : no_new f (acc_load k i f).2;
  (* of an item that is as new as what is stored *)
  save_law k (c : I k) f :
    (∀ d, held f k !! item_id c = Some d → item_seq d ≤ item_seq c ∧ item_arm d = item_arm c) →
    spec (acc_save k c) f
      (λ r f', apart k (item_id c) f f' ∧
         match r.2 with
         | Ok _ => r.1 = next_item c ∧ held f' k !! item_id c = Some (form k (next_item c))
         | Err _ => r.1 = set_item (item_seq c + 1) (item_arm c) c ∧ ¬ working f ∧
             (held f' k !! item_id c = held f k !! item_id c ∨
              held f' k !! item_id c = Some (form k (next_item c)))
         | Panic => False
         end)
      (λ _ _, False)
      (λ f', (¬ working f ∨ U64 ≤ item_seq c + 1) ∧ apart k (item_id c) f f' ∧
         (held f' k !! item_id c = held f k !! item_id c ∨
          held f' k !! item_id c = Some (form k (next_item c))));
  (* only the number and the arm of the item change *)
  save_item_law k (c d : I k) (f f' : F) r : acc_save k c f = (Some (Ok (d, r)), f') → ∃ n a, d = set_item n a c;
  save_copies k (c : I k) f (P : ∀ k, I k → Prop) :
    (∀ k i d, copies f k i d → P k d) → P k (form k (next_item c)) →
    ∀ k' i d, copies (acc_save k c f).2 k' i d → P k' d;
  remove_law k i f : spec (acc_remove k i) f
    (λ _ f', apart k i f f' ∧ held f' k !! i = None)
    (λ _ f', apart k i f f' ∧ ¬ working f) (λ f', apart k i f f' ∧ ¬ working f);
  remove_copies k i f : no_new f (acc_remove k i f).2
}.
#[export] Hint Mode AccessorLaws ! - - - - : typeclass_instances.

(** ** The state *)

Section state.
Context {F G MM TM : Type} `{!Accessor F (IItem MM), !AccessorLaws F (IItem MM) (stored_of MM)}.
Context `{!EidSource G, !EidSourceLaws G}.
Context `{!LinkedMapOps Eid bytes MM, !LinkedMap Eid bytes MM, !LinkedMapOps Eid Tab TM, !LinkedMap Eid Tab TM}.
Abbreviation St := (Index.St F G MM TM).
Implicit Types (s : St) (i : Eid) (t : Tab) (ti : TabInfo) (ls : list Level).

Definition tabs_at s : gmap Eid Tab := held (Index.files s) KTab.
Definition lvls_at s : list Level := Lsmt.lvls (Index.lsmt (Index.mgr s)).
Definition cache_at s : TM := Lru.map (Index.tab_cache (Index.mgr s)).
Definition running s : Prop := working (Index.files s).
Definition drawn s : Eid → Prop := spent (Index.ids s).
Definition curve s : Eid * Z * Arm.Arm := let l := Index.lsmt (Index.mgr s) in (Lsmt.id l, Lsmt.seq l, Lsmt.arm l).

(** What work on tabs leaves alone. *)
Record beside s s' : Prop := {
  bs_memtab : Index.memtab (Index.mgr s') = Index.memtab (Index.mgr s);
  bs_curve : curve s' = curve s;
  bs_held k : k ≠ KTab → held (Index.files s') k = held (Index.files s) k;
  bs_running : running s → running s';
  bs_drawn i : drawn s i → drawn s' i
}.
Lemma beside_refl s : beside s s.
Proof. done. Qed.
Lemma beside_trans s1 s2 s3 : beside s1 s2 → beside s2 s3 → beside s1 s3.
Proof. intros [] []. split; [congruence|congruence| |auto|auto]. intros k Hk. etrans; auto. Qed.

(** The cached tabs are the stored ones, unless those are removed. *)
Record store_ok s : Prop := {
  so_running : running s;
  so_cache : lru_fits 1 Lsmt.TAB_CACHE_SIZE (Index.tab_cache (Index.mgr s));
  so_cached i t : lm_get i (cache_at s) = Some t →
    drawn s i ∧ (tabs_at s !! i = Some t ∨ tabs_at s !! i = None);
  so_drawn i t : tabs_at s !! i = Some t → drawn s i
}.

(** An id under which there has been no tab. *)
Definition unborn s i : Prop := tabs_at s !! i = None ∧ lm_get i (cache_at s) = None ∧ drawn s i.

(** The levels have been changed, and nothing else of the state but for the cache. *)
Definition reshaped T' ls' s s' : Prop := tabs_at s' = T' ∧ lvls_at s' = ls' ∧ beside s s' ∧ store_ok s'.
Definition looked s s' : Prop := reshaped (tabs_at s) (lvls_at s) s s' ∧ cache_at s' = cache_at s.

Lemma looked_refl s : store_ok s → looked s s.
Proof. done. Qed.
End state.
#[export] Hint Resolve beside_refl : core.

(** ** Loops *)

Lemma for_each_snoc {S A} (f : A → run S unit) (l : list A) x s s1 s2 :
  for_each f l s = (Some (Ok ()), s1) → f x s1 = (Some (Ok ()), s2) → for_each f (l ++ [x]) s = (Some (Ok ()), s2).
Proof.
  revert s. induction l as [|y l IH]; intros s Hl Hx; cbn [for_each app] in *.
  - injection Hl as <-. unfold mbind, run_bind. by rewrite Hx.
  - unfold mbind, run_bind in *. destruct (f y s) as [[[[]|e|]|] s']; try done. by apply IH.
Qed.
Lemma spec_run {S A} (m : run S A) s Q E H :
  spec m s Q E H → spec m s (λ a s', Q a s' ∧ m s = (Some (Ok a), s')) E H.
Proof. unfold spec. by destruct (m s) as [[[]|] ?]. Qed.

Section ops.
Context {F G MM TM : Type} `{!Accessor F (IItem MM), !AccessorLaws F (IItem MM) (stored_of MM)}.
Context `{!EidSource G, !EidSourceLaws G}.
Context `{!LinkedMapOps Eid bytes MM, !LinkedMap Eid bytes MM, !LinkedMapOps Eid Tab TM, !LinkedMap Eid Tab TM}.
Abbreviation St := (Index.St F G MM TM).
Abbreviation never := (λ _ _, False).
Abbreviation nowhere := (λ _, False).
Implicit Types (s : St) (i : Eid) (t : Tab) (ti : TabInfo) (l : Level) (ls : list Level).

(** ** Relations between states *)

Lemma looked_trans s1 s2 s3 : looked s1 s2 → looked s2 s3 → looked s1 s3.
Proof.
  intros [(H1 & H2 & Hb & _) H3] [(H4 & H5 & Hb' & Hok) H6].
  split; [|congruence]. split; [congruence|]. split; [congruence|]. split; [by eapply beside_trans|done].
Qed.
Lemma reshaped_trans T1 ls1 T2 ls2 s1 s2 s3 :
  reshaped T1 ls1 s1 s2 → reshaped T2 ls2 s2 s3 → reshaped T2 ls2 s1 s3.
Proof. intros (_ & _ & Hb & _) (? & ? & Hb' & ?). split; [done|]. split; [done|]. split; [by eapply beside_trans|done]. Qed.
Lemma looked_reshaped T ls s1 s2 s3 : looked s1 s2 → reshaped T ls s2 s3 → reshaped T ls s1 s3.
Proof. intros [Hlk _]. by apply (reshaped_trans _ _ _ _ _ _ _ Hlk). Qed.
Lemma looked_unborn s s' i : looked s s' → unborn s i → unborn s' i.
Proof.
  intros [(HT & _ & Hb & _) Hc] (Hn & Hc' & Hd). unfold unborn. rewrite HT, Hc. split; [done|]. split; [done|].
  by apply Hb.
Qed.
Lemma looked_store s s' : looked s s' → store_ok s'.
Proof. intros [(_ & _ & _ & ?) _]. done. Qed.
Lemma looked_tabs s s' : looked s s' → tabs_at s' = tabs_at s.
Proof. intros [(? & _) _]. done. Qed.
Lemma looked_lvls s s' : looked s s' → lvls_at s' = lvls_at s.
Proof. intros [(_ & ? & _) _]. done. Qed.

(** ** Single calls *)

Lemma load_tab_spec s i t :
  store_ok s → tabs_at s !! i = Some t →
  spec (Index.load_tab i) s (λ t' s', t' = t ∧ looked s s' ∧ Index.mgr s' = Index.mgr s) never nowhere.
Proof.
  intros Hok Ht. apply spec_zoom. pose proof (so_running _ Hok) as Hr. eapply spec_mono; [exact (load_law (form:=stored_of MM) KTab i (Index.files s))|..].
  - intros c f' ([Hc|] & _ & Hal); [|done]. change (tabs_at s !! i = Some c) in Hc.
    split; [congruence|]. split; [|done].
    destruct Hal as [Hh Hw]. split; [|done]. assert (HT : tabs_at (Index.mkSt f' (Index.ids s) (Index.mgr s)) = tabs_at s)
      by exact (Hh KTab). split; [done|]. split; [done|]. split; [split; auto|].
    split; unfold cache_at; rewrite ?HT; [by apply Hw|apply Hok..].
  - intros e f' ([Hn|Hn] & _); [|done]. change (tabs_at s !! i = None) in Hn. congruence.
  - by intros f' [].
Qed.

Lemma save_tab_spec s t :
  store_ok s → unborn s (Tab.id t) → Tab.seq t = 0 →
  spec (Index.save_tab t) s
    (λ t' s', t' = next_item t ∧ reshaped (<[Tab.id t := t']> (tabs_at s)) (lvls_at s) s s' ∧
       cache_at s' = cache_at s) never nowhere.
Proof.
  intros Hok (Hn & Hc & Hd) Hseq. pose proof (so_running _ Hok) as Hr. unfold Index.save_tab.
  apply spec_bind, spec_zoom. eapply spec_mono; [apply (save_law (form:=stored_of MM) KTab t (Index.files s))|..].
  - intros d Hd'. change (tabs_at s !! Tab.id t = Some (d : Tab)) in Hd'. by rewrite Hn in Hd'.
  - intros [t' r] f' [Hap Hcase]. cbn [fst snd] in Hcase.
    destruct r as [[]|e|]; [|by destruct Hcase as (_ & ? & _)|done].
    destruct Hcase as [-> Hh]. cbn [item_id iitem_access tab_arm_access] in Hap, Hh. destruct Hap as [Hap Hw].
    apply spec_bind, spec_lift_ok, spec_ret. split; [done|]. split; [|done].
    set (s' := Index.mkSt f' (Index.ids s) (Index.mgr s)).
    assert (HT : tabs_at s' = <[Tab.id t := next_item t]> (tabs_at s)).
    { apply map_eq. intros j. destruct (decide (j = Tab.id t)) as [->|Hne].
      - rewrite lookup_insert_eq. exact Hh.
      - rewrite lookup_insert_ne by done. apply (Hap KTab). by right. }
    split; [exact HT|]. split; [done|]. split.
    + split; auto. intros k Hk. cbn. apply map_eq. intros j. apply Hap. by left.
    + split; unfold cache_at; rewrite ?HT; [by apply Hw|apply Hok|..]; cbn.
      * intros j t' Hj. rewrite lookup_insert_ne; [by apply (so_cached _ Hok)|]. intros <-. unfold cache_at in Hc. congruence.
      * intros j t' Hj. destruct (decide (j = Tab.id t)) as [->|Hne]; [done|].
        rewrite lookup_insert_ne in Hj by done. by eapply (so_drawn _ Hok).
  - by intros.
  - intros f' ([|Hu] & _); [done|]. cbn [item_seq iitem_access tab_arm_access] in Hu. rewrite Hseq in Hu. by vm_compute in Hu.
Qed.

Lemma remove_tab_spec s i :
  store_ok s →
  spec (Index.remove_tab i) s
    (λ _ s', reshaped (delete i (tabs_at s)) (lvls_at s) s s' ∧ cache_at s' = cache_at s) never nowhere.
Proof.
  intros Hok. pose proof (so_running _ Hok) as Hr. apply spec_zoom.
  eapply spec_mono; [exact (remove_law (form:=stored_of MM) KTab i (Index.files s))|..]; [|by intros e f' [_ ?]|by intros f' [_ ?]].
  intros _ f' [[Hap Hw] Hn]. split; [|done]. set (s' := Index.mkSt f' (Index.ids s) (Index.mgr s)).
  assert (HT : tabs_at s' = delete i (tabs_at s)).
  { apply map_eq. intros j. destruct (decide (j = i)) as [->|Hne].
    - rewrite lookup_delete_eq. exact Hn.
    - rewrite lookup_delete_ne by done. apply (Hap KTab). by right. }
  split; [exact HT|]. split; [done|]. split.
  - split; auto. intros k Hk. cbn. apply map_eq. intros j. apply Hap. by left.
  - split; unfold cache_at; rewrite ?HT; [by apply Hw|apply Hok|..]; cbn.
    + intros j t' Hj. destruct (so_cached _ Hok _ _ Hj) as [? Ht]. split; [done|].
      destruct (decide (j = i)) as [->|]; [right; apply lookup_delete_eq|]. by rewrite lookup_delete_ne.
    + intros j t' [_ Hj]%lookup_delete_Some. by eapply (so_drawn _ Hok).
Qed.

Lemma draw_id_spec s :
  store_ok s →
  spec Index.draw_id s (λ i s', ¬ drawn s i ∧ unborn s' i ∧ looked s s') never nowhere.
Proof.
  intros Hok. unfold Index.draw_id, spec. destruct (new_eid (Index.ids s)) as [i g] eqn:He.
  assert (Hfr : ¬ drawn s i) by (pose proof (new_eid_fresh (Index.ids s)) as Hf; by rewrite He in Hf).
  assert (Hsp : ∀ j, spent g j ↔ j = i ∨ drawn s j).
  { intros j. pose proof (new_eid_spent (Index.ids s) j) as Hs. by rewrite He in Hs. }
  set (s' := Index.mkSt (Index.files s) g (Index.mgr s)).
  assert (Hst : store_ok s').
  { split; [apply Hok|apply Hok|..]; cbn; unfold drawn; cbn; intros j t Hj; rewrite Hsp.
    - destruct (so_cached _ Hok _ _ Hj). split; [by right|done].
    - right. by eapply (so_drawn _ Hok). }
  split; [done|]. split; [|split; [|done]].
  - split; [|split]; [| |apply Hsp; by left].
    + destruct (tabs_at s' !! i) eqn:Ht; [|done]. destruct Hfr. by eapply (so_drawn s).
    + destruct (lm_get i (cache_at s')) eqn:Ht; [|done]. destruct Hfr. by eapply (so_cached s).
  - split; [done|]. split; [done|]. split; [|done]. split; auto. intros j Hj. apply Hsp. by right.
Qed.

(** Reading and writing the list of levels. *)
Lemma lvls_spec s (Q : list Level → St → Prop) E H : Q (lvls_at s) s → spec Index.lvls s Q E H.
Proof. done. Qed.
Lemma level_spec s k ls1 l ls2 (Q : Level → St → Prop) E H :
  lvls_at s = ls1 ++ l :: ls2 → zlen ls1 = k → Q l s → spec (Index.level k) s Q E H.
Proof.
  intros Hl Hk HQ. apply spec_bind, spec_ask.
  change (Lsmt.lvls (Index.lsmt (Index.mgr s))) with (lvls_at s). rewrite Hl, <- Hk, vindex_middle. done.
Qed.
Lemma set_levels_reshaped s ls :
  store_ok s → reshaped (tabs_at s) ls s
    (Index.mkSt (Index.files s) (Index.ids s)
       (Index.mkMgr (Lsmt.set_lvls ls (Index.lsmt (Index.mgr s))) (Index.tab_cache (Index.mgr s)) (Index.memtab (Index.mgr s)))).
Proof. intros Hok. split; [done|]. split; [done|]. split; [done|]. by destruct Hok. Qed.
Lemma set_level_spec s k ls1 l l' ls2 (Q : unit → St → Prop) E H :
  store_ok s → lvls_at s = ls1 ++ l :: ls2 → zlen ls1 = k →
  (∀ s', reshaped (tabs_at s) (ls1 ++ l' :: ls2) s s' → cache_at s' = cache_at s → Q () s') →
  spec (Index.set_level k l') s Q E H.
Proof.
  intros Hok Hl Hk HQ. apply spec_bind, spec_ask. apply spec_bind.
  change (Lsmt.lvls (Index.lsmt (Index.mgr s))) with (lvls_at s). rewrite Hl, <- Hk, vset_middle.
  apply spec_lift_ok, spec_modify. apply HQ; [|done]. by apply set_levels_reshaped.
Qed.

(** ** Looking up *)

Lemma set_cache_ok s c :
  store_ok s → lru_fits 1 Lsmt.TAB_CACHE_SIZE c →
  (∀ j t, lm_get j (Lru.map c) = Some t → lm_get j (cache_at s) = Some t ∨ tabs_at s !! j = Some t) →
  reshaped (tabs_at s) (lvls_at s) s
    (Index.mkSt (Index.files s) (Index.ids s)
       (Index.mkMgr (Index.lsmt (Index.mgr s)) c (Index.memtab (Index.mgr s)))).
Proof.
  intros Hok Hf Hc. split; [done|]. split; [done|]. split; [done|]. split; [apply Hok|done| |apply Hok].
  intros j t [Hj|Hj]%Hc; [by apply (so_cached _ Hok)|]. split; [by eapply (so_drawn _ Hok)|by left].
Qed.

Lemma tab_measure t : 0 ≤ measure t ∧ 1 ≤ measure t ≤ 1 ∧ measure t ≤ Lsmt.TAB_CACHE_SIZE.
Proof. unfold measure, tab_meter, Lsmt.TAB_CACHE_SIZE. lia. Qed.
Lemma tab_unpinned t : is_pinned t = false.
Proof. done. Qed.
Lemma cached_tab_spec s tid t :
  store_ok s → tabs_at s !! tid = Some t →
  spec (Index.cached_tab tid) s
    (λ t' s', t' = t ∧ reshaped (tabs_at s) (lvls_at s) s s') never nowhere.
Proof.
  intros Hok Ht. unfold Index.cached_tab. apply spec_bind, spec_ask, spec_bind.
  enough (spec (if Lru.contains_key (K:=Eid) (V:=Tab) tid (Index.tab_cache (Index.mgr s)) then mret ()
    else t ← Index.load_tab tid; cache ← Index.the Index.tab_cache;
         '(_, cache) ← lift (Lru.insert (K:=Eid) (V:=Tab) tid t cache); Index.set_cache cache) s
    (λ _ s', lm_get tid (cache_at s') = Some t ∧ reshaped (tabs_at s) (lvls_at s) s s') never nowhere) as Hin.
  { eapply spec_mono; [exact Hin| |done|done]. intros [] s1 [Hg Hre]. pose proof Hre as (HT & HL & _ & Hok1).
    apply spec_bind, spec_ask.
    pose proof (lru_refresh_val tid (Index.tab_cache (Index.mgr s1))) as Hv.
    pose proof (λ k', lru_get_refresh tid k' (Index.tab_cache (Index.mgr s1))) as Hg'.
    pose proof (lru_fits_refresh 1 Lsmt.TAB_CACHE_SIZE tid _ (so_cache _ Hok1)) as Hf.
    destruct (Lru.get_refresh tid (Index.tab_cache (Index.mgr s1))) as [o c]. cbn [fst snd] in *.
    unfold cache_at in Hg. rewrite Hg in Hv. subst o. apply spec_bind, spec_modify, spec_lift_ok. split; [done|].
    eapply reshaped_trans; [exact Hre|]. rewrite <- HT, <- HL. apply set_cache_ok; [done|done|].
    intros j t' Hj. left. by rewrite <- Hg'. }
  unfold Lru.contains_key. case_bool_decide as Hk.
  - destruct Hk as [t' Ht']. apply spec_ret. split; [|by apply looked_refl].
    destruct (so_cached _ Hok _ _ Ht') as [_ [Heq|Hn]]; [|congruence]. rewrite Ht in Heq. simplify_eq. exact Ht'.
  - apply spec_bind. eapply spec_mono; [by apply (load_tab_spec s tid t)| |done|done].
    intros t1 s1 (-> & Hlk & Hmgr). apply spec_bind, spec_ask. rewrite Hmgr.
    destruct (lru_fits_insert (V:=Tab) (λ v, proj1 (tab_measure v)) tab_unpinned 1 Lsmt.TAB_CACHE_SIZE tid t
      (Index.tab_cache (Index.mgr s)))
      as (c' & -> & Hf & Hg & Hold); [apply (so_cache _ Hok)|done|apply tab_measure|apply tab_measure|done|].
    apply spec_bind, spec_lift_ok, spec_modify. split; [exact Hg|]. eapply looked_reshaped; [exact Hlk|].
    rewrite <- (looked_tabs _ _ Hlk), <- (looked_lvls _ _ Hlk). apply set_cache_ok; [by eapply looked_store|done|].
    intros j t' [[-> ->]|Hj]%Hold; [right; by rewrite (looked_tabs _ _ Hlk)|left].
    destruct Hlk as [_ ->]. exact Hj.
Qed.

Lemma find_in_tabs_spec s i tis :
  store_ok s → Forall (info_ok (tabs_at s)) tis →
  spec (Index.find_in_tabs i (TabInfo.id <$> tis)) s
    (λ o s', o = assoc i (all_items (tabs_at s) tis) ∧ reshaped (tabs_at s) (lvls_at s) s s') never nowhere.
Proof.
  intros Hok Hall. revert s Hok Hall. induction tis as [|ti tis IH]; intros s Hok Hall.
  { apply spec_ret. split; [done|]. by apply looked_refl. }
  apply Forall_cons in Hall as [Hti Hall]. pose proof Hti as (t & Ht & Hs & _). cbn [fmap list_fmap Index.find_in_tabs].
  step_by cached_tab_spec; [done|exact Ht| |done|done]. intros t' s1 [-> Hre].
  rewrite all_items_cons, assoc_app. unfold items_of at 1. rewrite Ht. unfold Tab.search. rewrite search_sorted by done.
  destruct (assoc i (Tab.items t)) as [a|]; [by apply spec_ret|]. pose proof Hre as (HT & HL & _ & Hok1).
  eapply spec_mono; [apply (IH s1)| |done|done]; [done|by rewrite HT|].
  intros o s2 [-> Hre2]. rewrite HT in Hre2 |- *. rewrite HL in Hre2. split; [done|]. by eapply reshaped_trans.
Qed.

Lemma find_in_levels_spec s i ls :
  store_ok s → (∀ l, l ∈ ls → Forall (info_ok (tabs_at s)) (Level.tabs l)) →
  spec (Index.find_in_levels i ls) s
    (λ a s', live (assoc i (tree_items (tabs_at s) ls)) = Some a ∧ reshaped (tabs_at s) (lvls_at s) s s')
    (λ e s', e = NotFound ∧ live (assoc i (tree_items (tabs_at s) ls)) = None ∧
       reshaped (tabs_at s) (lvls_at s) s s') nowhere.
Proof.
  revert s. induction ls as [|l ls IH]; intros s Hok Hall; cbn [Index.find_in_levels].
  { apply spec_fail. split; [done|]. split; [done|]. by apply looked_refl. }
  rewrite tree_items_cons, assoc_app. assert (Hl : Forall (info_ok (tabs_at s)) (reverse (Level.tabs l))).
  { rewrite (reverse_Permutation (Level.tabs l)). apply Hall. by constructor. }
  unfold level_items. rewrite <- (look_contain (tabs_at s) i) by done. unfold Level.find_tabs_contain.
  step_by find_in_tabs_spec; [done| | |done|done].
  { rewrite Forall_forall in *. intros ti [_ Hti]%list_elem_of_filter. by apply Hl. }
  intros o s1 [-> Hre]. destruct (assoc i _) as [[|b a]|]; [by apply spec_fail|by apply spec_ret|].
  pose proof Hre as (HT & HL & _ & Hok1).
  eapply spec_mono; [apply (IH s1 Hok1)|..|done].
  - intros l' Hl'. rewrite HT. apply Hall. by constructor.
  - intros a s2 [Ha Hre2]. rewrite HT in Ha. rewrite HT, HL in Hre2. split; [done|]. by eapply reshaped_trans.
  - intros e s2 (-> & Ha & Hre2). rewrite HT in Ha. rewrite HT, HL in Hre2. split; [done|]. split; [done|]. by eapply reshaped_trans.
Qed.

(** ** Reading and making tabs *)

Lemma load_items_spec s tis acc :
  store_ok s → Forall (info_ok (tabs_at s)) tis →
  spec (Index.load_items tis acc) s
    (λ its s', its = acc ++ all_items (tabs_at s) tis ∧ looked s s') never nowhere.
Proof.
  intros Hok Hall. revert s acc Hok Hall. induction tis as [|ti tis IH]; intros s acc Hok Hall; cbn [Index.load_items].
  { apply spec_ret. unfold all_items. cbn. rewrite app_nil_r. split; [done|by apply looked_refl]. }
  apply Forall_cons in Hall as [(t & Ht & _) Hall].
  step_by load_tab_spec; [done|exact Ht| |done|done]. intros t' s1 (-> & Hlk & _).
  eapply spec_mono; [apply IH; [by eapply looked_store|by rewrite (looked_tabs _ _ Hlk)]| |done|done].
  intros its s2 [-> Hlk2]. rewrite (looked_tabs _ _ Hlk), all_items_cons, <- app_assoc. unfold items_of. rewrite Ht.
  split; [done|by eapply looked_trans].
Qed.

Lemma read_all_spec s ls1 l ls2 :
  store_ok s → tree_ok (tabs_at s) (lvls_at s) → lvls_at s = ls1 ++ l :: ls2 →
  spec (Index.read_all_tabs_in_level (zlen ls1)) s
    (λ t s', Tab.items t = gathered (zlen ls1) (tabs_at s) (Level.tabs l) ∧ Tab.seq t = 0 ∧
       unborn s' (Tab.id t) ∧ looked s s') never nowhere.
Proof.
  intros Hok Ht Hl. unfold Index.read_all_tabs_in_level.
  assert (Hin : l ∈ lvls_at s) by (rewrite Hl, elem_of_app, elem_of_cons; auto).
  apply spec_bind, (level_spec s _ ls1 l ls2); [done|done|].
  destruct (item_cnt_ok _ _ _ Ht Hin) as [-> _]. apply spec_bind, spec_lift_ok.
  step_by draw_id_spec; [done| |done|done]. intros i s1 (_ & Hi & Hlk).
  step_by load_items_spec; [by eapply looked_store| | |done|done].
  { rewrite (looked_tabs _ _ Hlk). by apply (tree_infos _ _ Ht). }
  intros its s2 [-> Hlk2]. apply spec_ret. cbn. rewrite (looked_tabs _ _ Hlk). split; [done|]. split; [done|].
  split; [by eapply looked_unborn|by eapply looked_trans].
Qed.

Lemma combine_tabs_spec s tis :
  store_ok s → Forall (info_ok (tabs_at s)) tis →
  spec (Index.combine_tabs tis) s
    (λ t s', Tab.items t = all_items (tabs_at s) tis ∧ looked s s') never nowhere.
Proof.
  intros Hok Hall. unfold Index.combine_tabs. step_by draw_id_spec; [done| |done|done]. intros i s1 (_ & _ & Hlk).
  step_by load_items_spec; [by eapply looked_store|by rewrite (looked_tabs _ _ Hlk)| |done|done].
  intros its s2 [-> Hlk2]. apply spec_ret. cbn. rewrite (looked_tabs _ _ Hlk). split; [done|by eapply looked_trans].
Qed.

Lemma merge_spec s t o :
  store_ok s →
  spec (Index.merge t o) s
    (λ m s', Tab.items m = Tab.merge_items (Tab.items t) (Tab.items o) ∧ looked s s') never nowhere.
Proof.
  intros Hok. unfold Index.merge. step_by draw_id_spec; [done| |done|done]. intros i s1 (_ & _ & Hlk). by apply spec_ret.
Qed.

Lemma find_overlapping_spec s ls1 l ls2 t :
  lvls_at s = ls1 ++ l :: ls2 → Tab.items t ≠ [] →
  spec (Index.find_overlapping (zlen ls1) t) s
    (λ tis s', tis = filter (λ ti, overlaps (Tab.items t) ti = true) (Level.tabs l) ∧ s' = s) never nowhere.
Proof.
  intros Hl Hne. unfold Index.find_overlapping. apply spec_bind, (level_spec s _ ls1 l ls2); [done|done|].
  destruct (info_new_ok t Hne) as [ti (_ & _ & b & e & Hb & He & _)%info_new].
  rewrite Hb, He. apply spec_bind, spec_lift_ok, spec_bind, spec_lift_ok, spec_ret. split; [|done].
  apply list_filter_iff. intros x. unfold overlaps. by rewrite Hb, He.
Qed.

(** Tabs not saved yet. *)
Definition fresh_tabs s0 s (ts : list Tab) : Prop :=
  NoDup (Tab.id <$> ts) ∧ (∀ t, t ∈ ts → unborn s (Tab.id t) ∧ ¬ drawn s0 (Tab.id t) ∧ Tab.seq t = 0).
Lemma tabs_of_spec s its :
  store_ok s →
  spec (Index.tabs_of its) s (λ ts s', Tab.items <$> ts = its ∧ fresh_tabs s s' ts ∧ looked s s') never nowhere.
Proof.
  intros Hok. revert s Hok. induction its as [|x its IH]; intros s Hok; cbn [Index.tabs_of].
  { apply spec_ret. split; [done|]. split; [|by apply looked_refl]. split; [constructor|]. by intros t Ht%elem_of_nil. }
  step_by draw_id_spec; [done| |done|done]. intros i s1 (Hi & Hu & Hlk).
  step_by IH; [by eapply looked_store| |done|done]. intros ts s2 (Hits & (Hnd & Hts) & Hlk2). apply spec_ret.
  split; [cbn; by rewrite Hits|]. split; [|by eapply looked_trans]. split.
  - cbn. constructor; [|done]. intros (t & Heq & Ht)%list_elem_of_fmap.
    destruct (Hts t Ht) as (_ & Hd & _). apply Hd. rewrite <- Heq. apply Hu.
  - intros t [->|Ht]%elem_of_cons; [split; [by eapply looked_unborn|done]|].
    destruct (Hts t Ht) as (? & Hd & ?). split; [done|]. split; [|done]. intros Hs. apply Hd.
    destruct Hlk as [(_ & _ & Hb & _) _]. by apply Hb.
Qed.
Lemma divide_spec s t n :
  store_ok s → 0 < n →
  spec (Index.divide t n) s
    (λ ts s', concat (Tab.items <$> ts) = Tab.items t ∧ Forall (λ t, Tab.items t ≠ []) ts ∧
       fresh_tabs s s' ts ∧ looked s s') never nowhere.
Proof.
  intros Hok Hn. unfold Index.divide. rewrite (proj2 (Z.eqb_neq _ _)) by lia. apply spec_bind, spec_lift_ok.
  destruct (chunks_spec (length (Tab.items t)) n (Tab.items t) Hn ltac:(lia)) as [Hc Hne].
  eapply spec_mono; [by apply tabs_of_spec| |done|done]. intros ts s' (Hts & Hf & Hlk).
  rewrite Hts. split; [done|]. split; [|done]. rewrite <- Hts in Hne. by rewrite Forall_fmap in Hne.
Qed.

(** ** Removing tabs *)

Definition removed (T : gmap Eid Tab) (ks : list Eid) (T' : gmap Eid Tab) : Prop :=
  ∀ j, T' !! j = if decide (j ∈ ks) then None else T !! j.
Lemma removed_snoc T ks T' i : removed T ks T' → removed T (ks ++ [i]) (delete i T').
Proof.
  intros Hr j. destruct (decide (j = i)) as [->|Hne].
  - rewrite lookup_delete_eq, decide_True; [done|]. apply elem_of_app. right. by constructor.
  - rewrite lookup_delete_ne, Hr by done. destruct (decide (j ∈ ks)) as [Hin|Hni].
    + rewrite decide_True; [done|]. apply elem_of_app. by left.
    + rewrite decide_False; [done|]. rewrite elem_of_app, list_elem_of_singleton. tauto.
Qed.

Lemma level_remove l ti :
  NoDup (TabInfo.id <$> Level.tabs l) → ti ∈ Level.tabs l →
  Level.remove (TabInfo.id ti) l = Ok (refilled l (filter (λ x, TabInfo.id x ≠ TabInfo.id ti) (Level.tabs l))).
Proof.
  intros Hnd (a & b & Hl)%list_elem_of_split. unfold Level.remove, refilled. rewrite Hl in Hnd |- *.
  rewrite fmap_app in Hnd. cbn in Hnd. apply NoDup_app in Hnd as (_ & Hd & Hnd). apply NoDup_cons in Hnd as [Hnb _].
  assert (Ha : Forall (λ x, TabInfo.id x ≠ TabInfo.id ti) a).
  { apply Forall_forall. intros t Ht Heq. apply (Hd (TabInfo.id t)); [by apply list_elem_of_fmap_2|].
    rewrite Heq. by constructor. }
  assert (Hb : Forall (λ x, TabInfo.id x ≠ TabInfo.id ti) b).
  { apply Forall_forall. intros t Ht Heq. apply Hnb. rewrite <- Heq. by apply list_elem_of_fmap_2. }
  rewrite (proj2 (position_Some _ _ (zlen a))).
  - cbn [unwrap]. rewrite bind_ok, vremove_middle. cbn. do 2 f_equal.
    rewrite filter_app, filter_cons, decide_False by naive_solver. by rewrite !filter_keep.
  - exists ti. rewrite zget_middle, Z.eqb_refl, ztake_zlen. split; [done|]. split; [done|].
    eapply Forall_impl; [exact Ha|]. intros t Ht. by apply Z.eqb_neq.
Qed.

Lemma drop_overlap_spec s ls1 l ls2 tis :
  store_ok s → lvls_at s = ls1 ++ l :: ls2 → NoDup (TabInfo.id <$> Level.tabs l) →
  NoDup tis → (∀ ti, ti ∈ tis → ti ∈ Level.tabs l) →
  spec (for_each (Index.drop_overlap (zlen ls1)) tis) s
    (λ _ s', ∃ T', removed (tabs_at s) (TabInfo.id <$> tis) T' ∧ cache_at s' = cache_at s ∧
       reshaped T' (ls1 ++ refilled l (filter (λ x, TabInfo.id x ∉ TabInfo.id <$> tis) (Level.tabs l)) :: ls2) s s')
    never nowhere.
Proof.
  intros Hok Hl Hnd Hndt Hsub.
  apply (spec_for_each _ _ (λ pre s', ∃ T', removed (tabs_at s) (TabInfo.id <$> pre) T' ∧ cache_at s' = cache_at s ∧
    reshaped T' (ls1 ++ refilled l (filter (λ x, TabInfo.id x ∉ TabInfo.id <$> pre) (Level.tabs l)) :: ls2) s s')).
  - exists (tabs_at s). split; [intros j; by rewrite decide_False by apply not_elem_of_nil|]. split; [done|].
    replace (refilled l _) with l; [rewrite <- Hl; by apply looked_refl|].
    unfold refilled. rewrite filter_keep; [by destruct l|]. apply Forall_forall. intros t _. apply not_elem_of_nil.
  - intros pre ti rest s1 Htis (T1 & Hr & Hc & Hre). unfold Index.drop_overlap. pose proof Hre as (HT & HL & _ & Hok1).
    step_by remove_tab_spec; [done| |done|done]. intros _ s2 [Hre2 Hc2]. rewrite HT, HL in Hre2.
    pose proof Hre2 as (HT2 & HL2 & _ & Hok2).
    apply spec_bind. eapply (level_spec s2); [exact HL2|done|].
    assert (Hti : ti ∈ filter (λ x, TabInfo.id x ∉ TabInfo.id <$> pre) (Level.tabs l)).
    { apply list_elem_of_filter. split; [|apply Hsub; rewrite Htis, elem_of_app, elem_of_cons; auto].
      intros (t & Heq & Ht)%list_elem_of_fmap. rewrite Htis in Hndt. apply NoDup_app in Hndt as (_ & Hd & _).
      apply (Hd t Ht). enough (ti = t) as -> by constructor.
      apply (nodup_fmap_eq TabInfo.id (Level.tabs l)); [done|..|done]; apply Hsub; rewrite Htis, elem_of_app, ?elem_of_cons; auto. }
    rewrite level_remove; [|eapply sublist_NoDup; [exact Hnd|]; apply fmap_sublist, sublist_filter|exact Hti].
    apply spec_bind, spec_lift_ok.
    eapply (set_level_spec s2); [done|exact HL2|done|]. intros s3 Hre3 Hc3.
    exists (delete (TabInfo.id ti) T1). split; [rewrite fmap_app; by apply removed_snoc|]. split; [congruence|].
    eapply reshaped_trans; [exact Hre|]. eapply reshaped_trans; [exact Hre2|]. rewrite HT2 in Hre3.
    replace (refilled l _) with (refilled (refilled l (filter (λ x, TabInfo.id x ∉ TabInfo.id <$> pre) (Level.tabs l)))
      (filter (λ x, TabInfo.id x ≠ TabInfo.id ti) (filter (λ x, TabInfo.id x ∉ TabInfo.id <$> pre) (Level.tabs l)))); [exact Hre3|].
    unfold refilled. cbn. f_equal. rewrite list_filter_filter. apply list_filter_iff. intros t.
    rewrite fmap_app, elem_of_app. cbn. rewrite list_elem_of_singleton. tauto.
Qed.

Lemma clear_spec s ls1 l ls2 :
  store_ok s → lvls_at s = ls1 ++ l :: ls2 →
  spec (Index.clear (zlen ls1)) s
    (λ _ s', ∃ T', removed (tabs_at s) (TabInfo.id <$> Level.tabs l) T' ∧ cache_at s' = cache_at s ∧
       reshaped T' (ls1 ++ emptied l :: ls2) s s') never nowhere.
Proof.
  intros Hok Hl. unfold Index.clear. apply spec_bind, (level_spec s _ ls1 l ls2); [done|done|]. apply spec_bind.
  eapply spec_mono; [apply (spec_for_each _ _ (λ pre s', ∃ T', removed (tabs_at s) (TabInfo.id <$> pre) T' ∧
    cache_at s' = cache_at s ∧ reshaped T' (lvls_at s) s s') never nowhere)| |done|done].
  - exists (tabs_at s). split; [intros j; by rewrite decide_False by apply not_elem_of_nil|]. split; [done|]. by apply looked_refl.
  - intros pre ti rest s1 _ (T1 & Hr & Hc & Hre). pose proof Hre as (HT & HL & _ & Hok1).
    eapply spec_mono; [by apply remove_tab_spec| |done|done]. intros _ s2 [Hre2 Hc2]. rewrite HT, HL in Hre2.
    exists (delete (TabInfo.id ti) T1). split; [rewrite fmap_app; by apply removed_snoc|]. split; [congruence|].
    by eapply reshaped_trans.
  - intros _ s1 (T1 & Hr & Hc & Hre). pose proof Hre as (HT & HL & _ & Hok1). rewrite Hl in HL.
    eapply (set_level_spec s1); [done|exact HL|done|]. intros s2 Hre2 Hc2. rewrite HT in Hre2.
    exists T1. split; [done|]. split; [congruence|]. by eapply reshaped_trans.
Qed.

(** ** Adding tabs *)

Definition added (T0 : gmap Eid Tab) (ts : list Tab) (T' : gmap Eid Tab) (infos : list TabInfo) : Prop :=
  (∀ j, j ∉ Tab.id <$> ts → T' !! j = T0 !! j) ∧ TabInfo.id <$> infos = Tab.id <$> ts ∧
  Forall (info_ok T') infos ∧ all_items T' infos = concat (Tab.items <$> ts).
Lemma added_nil T : added T [] T [].
Proof. split; [done|]. split; [done|]. split; [constructor|done]. Qed.
Lemma added_snoc T0 ts T' infos t ti :
  added T0 ts T' infos → Tab.id t ∉ Tab.id <$> ts → sorted (Tab.items t) → TabInfo.new (next_item t) = Ok ti →
  added T0 (ts ++ [t]) (<[Tab.id t := next_item t]> T') (infos ++ [ti]).
Proof.
  intros (Hsame & Hids & Hok & Hits) Hni Hs Hti. pose proof (info_new _ _ Hti) as (Hid & _ & _). cbn in Hid.
  assert (Ha : agree T' (<[Tab.id t := next_item t]> T') infos).
  { intros x Hx. rewrite lookup_insert_ne; [done|]. intros Heq. apply Hni. rewrite <- Hids, Heq. by apply list_elem_of_fmap_2. }
  split; [|split; [by rewrite !fmap_app, Hids; cbn; rewrite Hid|split]].
  - intros j Hj. rewrite fmap_app, elem_of_app in Hj. cbn in Hj. rewrite list_elem_of_singleton in Hj.
    rewrite lookup_insert_ne by naive_solver. apply Hsame. tauto.
  - apply Forall_app. split.
    + rewrite Forall_forall in *. intros x Hx. apply (info_agree T'); [by apply Ha|by apply Hok].
    + constructor; [|done]. exists (next_item t). rewrite Hid, lookup_insert_eq. done.
  - rewrite all_items_app, (agree_items T' _ infos Ha), Hits, fmap_app, concat_app. f_equal.
    unfold all_items. cbn. unfold items_of. by rewrite Hid, lookup_insert_eq.
Qed.

Lemma push_spec s ls1 l ls2 t ti (Q : unit → St → Prop) E H :
  store_ok s → lvls_at s = ls1 ++ l :: ls2 → TabInfo.new t = Ok ti →
  (∀ s', reshaped (tabs_at s) (ls1 ++ refilled l (Level.tabs l ++ [ti]) :: ls2) s s' → cache_at s' = cache_at s → Q () s') →
  spec (Index.push (zlen ls1) t) s Q E H.
Proof.
  intros Hok Hl Hti HQ. unfold Index.push. apply spec_bind, (level_spec s _ ls1 l ls2); [done|done|].
  unfold Level.push. rewrite Hti, bind_ok. apply spec_bind, spec_lift_ok. by eapply set_level_spec.
Qed.

Lemma store_chunks_spec s ls1 l ls2 ts :
  store_ok s → lvls_at s = ls1 ++ l :: ls2 → NoDup (Tab.id <$> ts) →
  (∀ t, t ∈ ts → unborn s (Tab.id t) ∧ Tab.seq t = 0 ∧ sorted (Tab.items t) ∧ Tab.items t ≠ []) →
  spec (for_each (Index.store_chunk (zlen ls1)) ts) s
    (λ _ s', ∃ T' infos, added (tabs_at s) ts T' infos ∧ cache_at s' = cache_at s ∧
       reshaped T' (ls1 ++ refilled l (Level.tabs l ++ infos) :: ls2) s s') never nowhere.
Proof.
  intros Hok Hl Hnd Hts.
  apply (spec_for_each _ _ (λ pre s', ∃ T' infos, added (tabs_at s) pre T' infos ∧ cache_at s' = cache_at s ∧
       reshaped T' (ls1 ++ refilled l (Level.tabs l ++ infos) :: ls2) s s')).
  { exists (tabs_at s), []. split; [apply added_nil|]. split; [done|].
    replace (refilled l _) with l by (unfold refilled; rewrite app_nil_r; by destruct l). rewrite <- Hl. by apply looked_refl. }
  intros pre t rest s1 Heq (T1 & infos & Had & Hc & Hre). pose proof Hre as (HT & HL & Hb & Hok1).
  destruct (Hts t) as ((Hn & Hnc & Hd) & Hseq & Hs & Hne); [rewrite Heq, elem_of_app, elem_of_cons; auto|].
  assert (Hni : Tab.id t ∉ Tab.id <$> pre).
  { rewrite Heq, fmap_app in Hnd. apply NoDup_app in Hnd as (_ & Hdis & _). intros Hin. apply (Hdis _ Hin). by constructor. }
  unfold Index.store_chunk. step_by save_tab_spec; [done| |done| |done|done].
  { split; [rewrite HT, (proj1 Had) by done; exact Hn|]. split; [by rewrite Hc|by apply Hb]. }
  intros t' s2 (-> & Hre2 & Hc2). rewrite HT, HL in Hre2. pose proof Hre2 as (HT2 & HL2 & _ & Hok2).
  destruct (info_new_ok (next_item t)) as [ti Hti]; [done|].
  eapply push_spec; [done|exact HL2|exact Hti|]. intros s3 Hre3 Hc3. rewrite HT2 in Hre3.
  exists (<[Tab.id t := next_item t]> T1), (infos ++ [ti]). split; [by apply added_snoc|]. split; [congruence|].
  cbn [refilled Level.tabs] in Hre3. rewrite <- app_assoc in Hre3.
  eapply reshaped_trans; [exact Hre|]. by eapply reshaped_trans.
Qed.

(** ** Compaction *)

(** The tree is as good as before, and finds what it found. *)
Definition same_view (T : gmap Eid Tab) ls (T' : gmap Eid Tab) ls' : Prop :=
  tree_ok T' ls' ∧ zlen ls ≤ zlen ls' ∧ total ls' ≤ total ls ∧
  ∀ i, live (assoc i (tree_items T' ls')) = live (assoc i (tree_items T ls)).
Lemma same_view_refl T ls : tree_ok T ls → same_view T ls T ls.
Proof. intros Hok. split; [done|]. split; [lia|]. by split; [lia|]. Qed.
Lemma same_view_trans T1 ls1 T2 ls2 T3 ls3 :
  same_view T1 ls1 T2 ls2 → same_view T2 ls2 T3 ls3 → same_view T1 ls1 T3 ls3.
Proof.
  intros (_ & H1 & H2 & H3) (Hok & H4 & H5 & H6). split; [done|]. split; [lia|]. split; [lia|].
  intros i. by rewrite H6.
Qed.

(** A level may be merged into the next one: see [mergeable]. *)
Definition compactable s (curr : Z) : Prop :=
  ∀ ls1 c ls2, lvls_at s = ls1 ++ c :: ls2 → zlen ls1 = curr →
    let young := all_items (tabs_at s) (Level.tabs c) in
    match ls2 with
    | [] => mergeable curr young [] []
    | n :: ls2 =>
        mergeable curr young
          (all_items (tabs_at s) (filter (λ x, overlaps (gathered curr (tabs_at s) (Level.tabs c)) x = true) (Level.tabs n)))
          (tree_items (tabs_at s) ls2)
    end.

Lemma full_level T ls1 c ls2 :
  tree_ok T (ls1 ++ c :: ls2) → 4096 * 10 ^ zlen ls1 ≤ cnt_of c →
  zlen ls1 ≤ 14 ∧ gathered (zlen ls1) T (Level.tabs c) ≠ [].
Proof.
  intros Hok Hfull. assert (Hc : c ∈ ls1 ++ c :: ls2) by (rewrite elem_of_app, elem_of_cons; auto).
  destruct (item_cnt_ok _ _ _ Hok Hc) as [_ Hr]. pose proof (zlen_nonneg ls1). split.
  - destruct (Z.le_gt_cases (zlen ls1) 14) as [|Hgt]; [done|].
    pose proof (Z.pow_le_mono_r 10 15 (zlen ls1)). change (10 ^ 15) with 1000000000000000 in *. lia.
  - intros Hn. apply (f_equal zlen) in Hn. rewrite gathered_length, zlen_nil in Hn.
    pose proof (zsum_cnt T (Level.tabs c) (tree_infos _ _ Hok _ Hc)) as Hz. unfold cnt_of in Hfull.
    pose proof (Z.pow_pos_nonneg 10 (zlen ls1)). lia.
Qed.

Lemma names_in_tabs T ls i : tree_ok T ls → i ∈ names ls → is_Some (T !! i).
Proof.
  intros Hok (l & ti & Hl & Hti & <-)%elem_names. pose proof (tree_infos _ _ Hok _ Hl) as Hall.
  rewrite Forall_forall in Hall. destruct (Hall ti Hti) as (t & -> & _). by eexists.
Qed.

Lemma looked_view s s1 ls1 c ls2 : looked s s1 → lvls_at s = ls1 ++ c :: ls2 → lvls_at s1 = ls1 ++ c :: ls2.
Proof. intros Hlk <-. by apply looked_lvls. Qed.

(** Into a level that is not there yet. *)
Lemma compact_new_spec s ls1 c t :
  store_ok s → tree_ok (tabs_at s) (lvls_at s) → lvls_at s = ls1 ++ [c] → zlen ls1 ≤ 14 →
  sorted (gathered (zlen ls1) (tabs_at s) (Level.tabs c)) →
  gathered (zlen ls1) (tabs_at s) (Level.tabs c) ≠ [] →
  Tab.items t = gathered (zlen ls1) (tabs_at s) (Level.tabs c) → Tab.seq t = 0 → unborn s (Tab.id t) →
  spec (tab ← Index.save_tab t; _ ← Index.clear (zlen ls1);
        new_lvl ← lift (Level.push tab (Level.new (zlen ls1 + 1)));
        t ← Index.the Index.lsmt; Index.set_lsmt (Lsmt.set_lvls (Lsmt.lvls t ++ [new_lvl]) t)) s
    (λ _ s', ∃ T' ls', reshaped T' ls' s s' ∧ same_view (tabs_at s) (lvls_at s) T' ls') never nowhere.
Proof.
  intros Hok Ht Hl Hh Hs Hne Hits Hseq Hu.
  step_by save_tab_spec; [done|done|done| |done|done]. intros t' s1 (-> & Hre1 & _).
  pose proof Hre1 as (HT1 & HL1 & _ & Hok1). rewrite Hl in HL1.
  step_by clear_spec; [done|exact HL1| |done|done]. intros _ s2 (T2 & Hr2 & _ & Hre2).
  pose proof Hre2 as (HT2 & HL2 & _ & Hok2).
  destruct (info_new_ok (next_item t)) as [ti Hti]; [cbn; by rewrite Hits|].
  pose proof (info_new _ _ Hti) as (Hid & _ & _). cbn in Hid.
  unfold Level.push. rewrite Hti, bind_ok. apply spec_bind, spec_lift_ok, spec_bind, spec_ask, spec_modify.
  change (Lsmt.lvls (Index.lsmt (Index.mgr s2))) with (lvls_at s2). rewrite HL2.
  exists T2, ((ls1 ++ [emptied c]) ++ [refilled (Level.new (zlen ls1 + 1)) [ti]]).
  split. { eapply reshaped_trans; [exact Hre1|]. eapply reshaped_trans; [exact Hre2|].
    rewrite <- HT2. by apply set_levels_reshaped. }
  assert (Hnn : Tab.id t ∉ names (lvls_at s)).
  { intros [x Hx]%(names_in_tabs _ _ _ Ht). destruct Hu as [Hn _]. congruence. }
  assert (Hcn : NoDup (names ls1 ++ (TabInfo.id <$> Level.tabs c))).
  { pose proof (tree_names _ _ Ht) as Hnd. rewrite Hl, names_app, names_cons in Hnd. unfold names in Hnd at 2. cbn in Hnd.
    by rewrite app_nil_r in Hnd. }
  assert (Hsub : ∀ j, j ∈ names ls1 ∨ j ∈ TabInfo.id <$> Level.tabs c → j ∈ names (lvls_at s)).
  { intros j Hj. rewrite Hl, names_app, names_cons, !elem_of_app. tauto. }
  assert (HtT : T2 !! Tab.id t = Some (next_item t)).
  { rewrite Hr2, decide_False, HT1; [by rewrite lookup_insert_eq|]. intros Hin. apply Hnn, Hsub. by right. }
  pose proof (grow_tree _ _ Ht ltac:(rewrite Hl, zlen_snoc; lia)) as Hgt. rewrite Hl, zlen_snoc, <- app_assoc in Hgt.
  assert (Hm : mergeable (zlen ls1) (all_items (tabs_at s) (Level.tabs c)) [] []).
  { split; [by unfold gathered in Hs; destruct (zlen ls1 =? 0)|constructor|]. intros i _ [x Hx]. done. }
  assert (Hinfos : Forall (info_ok T2) [ti]).
  { constructor; [|done]. exists (next_item t). rewrite Hid. split; [done|]. split; [cbn; by rewrite Hits|done]. }
  assert (Hag : agree (tabs_at s) T2 (concat (Level.tabs <$> ls1) ++ [] ++ [])).
  { rewrite app_nil_r. intros x Hx. assert (Hxn : TabInfo.id x ∈ names ls1) by by apply list_elem_of_fmap_2.
    apply NoDup_app in Hcn as (_ & Hd & _). rewrite Hr2, decide_False, HT1 by by apply Hd.
    rewrite lookup_insert_ne; [done|]. intros Heq. apply Hnn. rewrite Heq. apply Hsub. by left. }
  assert (Hnews : all_items T2 [ti] = Tab.merge_items (gathered (zlen ls1) (tabs_at s) (Level.tabs c)) []).
  { rewrite merge_nil_r. unfold all_items. cbn. unfold items_of. rewrite Hid, HtT. cbn. rewrite app_nil_r. exact Hits. }
  assert (Hnames : NoDup (names (ls1 ++ [emptied c; refilled (Level.new (zlen ls1 + 1)) [ti]]))).
  { rewrite names_app, !names_cons. cbn [emptied refilled Level.tabs fmap list_fmap app]. unfold names at 2. cbn. rewrite Hid.
    apply NoDup_app in Hcn as (Hn1 & _ & _). rewrite NoDup_app. split; [done|]. split; [|apply NoDup_singleton].
    intros j Hj ->%list_elem_of_singleton. apply Hnn, Hsub. by left. }
  rewrite <- app_assoc. cbn [app]. split; [|split; [|split]].
  - by apply (compact_tree (tabs_at s) T2 ls1 c (Level.new (zlen ls1 + 1)) [] [ti]).
  - rewrite Hl, !zlen_app, !zlen_cons, zlen_nil. lia.
  - rewrite Hl. pose proof (compact_total (tabs_at s) T2 ls1 c (Level.new (zlen ls1 + 1)) [] [ti] Hgt Hinfos Hnews) as Htot.
    etrans; [exact Htot|]. unfold total. rewrite !zsum_app, !zsum_cons, !zsum_nil.
    change (cnt_of (Level.new (zlen ls1 + 1))) with 0. lia.
  - intros i. rewrite Hl. etrans; [exact (compact_view (tabs_at s) T2 ls1 c (Level.new (zlen ls1 + 1)) [] [ti] Hgt Hm Hnews Hag i)|].
    change (ls1 ++ [c; Level.new (zlen ls1 + 1)]) with (ls1 ++ ([c] ++ [Level.new (zlen ls1 + 1)])).
    by rewrite app_assoc, grow_items.
Qed.

(** What a compaction into the next level has made of the tree. *)
Lemma compact_same (T T4 T6 T7 : gmap Eid Tab) ls1 c n ls2 infos :
  let Y := gathered (zlen ls1) T (Level.tabs c) in
  let over := filter (λ x, overlaps Y x = true) (Level.tabs n) in
  tree_ok T (ls1 ++ c :: n :: ls2) →
  mergeable (zlen ls1) (all_items T (Level.tabs c)) (all_items T over) (tree_items T ls2) →
  removed T (TabInfo.id <$> over) T4 → (∀ j, j ∉ TabInfo.id <$> infos → T6 !! j = T4 !! j) →
  removed T6 (TabInfo.id <$> Level.tabs c) T7 →
  NoDup (TabInfo.id <$> infos) → (∀ j, j ∈ names (ls1 ++ c :: n :: ls2) → j ∉ TabInfo.id <$> infos) →
  Forall (info_ok T6) infos → all_items T6 infos = Tab.merge_items Y (all_items T over) →
  same_view T (ls1 ++ c :: n :: ls2) T7
    (ls1 ++ emptied c :: refilled n (filter (λ x, TabInfo.id x ∉ TabInfo.id <$> over) (Level.tabs n) ++ infos) :: ls2).
Proof.
  intros Y over Ht Hm Hr4 Hs6 Hr7 Hnd Hnew Hinf Hit.
  pose proof (tree_names _ _ Ht) as Hn. rewrite names_app, !names_cons in Hn.
  assert (Hsub : ∀ j, (j ∈ names ls1 ∨ j ∈ TabInfo.id <$> Level.tabs c ∨ j ∈ TabInfo.id <$> Level.tabs n ∨ j ∈ names ls2) →
    j ∉ TabInfo.id <$> infos) by (intros j Hj; apply Hnew; rewrite names_app, !names_cons, !elem_of_app; tauto).
  pose proof Hn as (_ & Hd1 & (_ & Hdc & (Hndn & Hdn & _)%NoDup_app)%NoDup_app)%NoDup_app.
  assert (Hrest : filter (λ x, TabInfo.id x ∉ TabInfo.id <$> over) (Level.tabs n) = filter (λ x, overlaps Y x = false) (Level.tabs n)).
  { apply filter_iff_in. intros x Hx. split.
    - intros Hni. destruct (overlaps Y x) eqn:Ho; [|done]. destruct Hni. apply list_elem_of_fmap_2, list_elem_of_filter. done.
    - intros Ho (y & Heq & [Hy Hyn]%list_elem_of_filter)%list_elem_of_fmap.
      rewrite (nodup_fmap_eq TabInfo.id (Level.tabs n) x y) in Ho by done. congruence. }
  rewrite Hrest. set (rest := filter (λ x, overlaps Y x = false) (Level.tabs n)) in *.
  assert (Hrestn : ∀ x, x ∈ rest → TabInfo.id x ∈ TabInfo.id <$> Level.tabs n).
  { intros x [_ Hx]%list_elem_of_filter. by apply list_elem_of_fmap_2. }
  assert (Hkeep : ∀ x, TabInfo.id x ∉ TabInfo.id <$> Level.tabs c → TabInfo.id x ∉ TabInfo.id <$> infos →
    TabInfo.id x ∉ TabInfo.id <$> over → T7 !! TabInfo.id x = T !! TabInfo.id x).
  { intros x Hc Hi Ho. rewrite Hr7, decide_False by done. rewrite Hs6 by done. by rewrite Hr4, decide_False. }
  assert (Hovern : ∀ j, j ∈ TabInfo.id <$> over → j ∈ TabInfo.id <$> Level.tabs n).
  { intros j (x & -> & [_ Hx]%list_elem_of_filter)%list_elem_of_fmap. by apply list_elem_of_fmap_2. }
  assert (Hag : agree T T7 (concat (Level.tabs <$> ls1) ++ rest ++ concat (Level.tabs <$> ls2))).
  { intros x [Hx|[Hx|Hx]%elem_of_app]%elem_of_app.
    - assert (Hx' : TabInfo.id x ∈ names ls1) by by apply list_elem_of_fmap_2.
      specialize (Hd1 _ Hx'). rewrite !elem_of_app in Hd1. apply Hkeep; [tauto|by apply Hsub; left|].
      intros Ho%Hovern. tauto.
    - pose proof (Hrestn x Hx) as Hx'. apply Hkeep; [|by apply Hsub; auto|].
      + intros Hc. apply (Hdc _ Hc), elem_of_app. by left.
      + rewrite <- Hrest in Hx. by apply list_elem_of_filter in Hx as [? _].
    - assert (Hx' : TabInfo.id x ∈ names ls2) by by apply list_elem_of_fmap_2.
      apply Hkeep; [|by apply Hsub; auto|].
      + intros Hc. apply (Hdc _ Hc), elem_of_app. by right.
      + intros Ho%Hovern. by apply (Hdn _ Ho). }
  assert (Hai : agree T6 T7 infos).
  { intros x Hx. rewrite Hr7, decide_False; [done|]. intros Hc. apply (Hsub (TabInfo.id x)); [auto|]. by apply list_elem_of_fmap_2. }
  assert (Hinf7 : Forall (info_ok T7) infos).
  { rewrite Forall_forall in *. intros x Hx. apply (info_agree T6); [by apply Hai|by apply Hinf]. }
  assert (Hit7 : all_items T7 infos = Tab.merge_items Y (all_items T over)) by by rewrite (agree_items T6 T7).
  assert (Hnames : NoDup (names (ls1 ++ emptied c :: refilled n (rest ++ infos) :: ls2))).
  { rewrite names_app, !names_cons. cbn [emptied refilled Level.tabs fmap list_fmap app]. rewrite fmap_app.
    assert (Hp : names ls1 ++ ((TabInfo.id <$> rest) ++ (TabInfo.id <$> infos)) ++ names ls2 ≡ₚ
      (TabInfo.id <$> infos) ++ names ls1 ++ (TabInfo.id <$> rest) ++ names ls2) by solve_Permutation.
    rewrite Hp. apply NoDup_app. split; [done|]. split.
    - intros j Hj. rewrite !elem_of_app. intros Hin. apply (Hsub j); [|done].
      destruct Hin as [?|[(x & -> & Hx)%list_elem_of_fmap|?]]; auto.
    - eapply sublist_NoDup; [exact Hn|]. apply sublist_app; [done|]. apply sublist_inserts_l.
      apply sublist_app; [|done]. apply fmap_sublist, sublist_filter. }
  split; [by apply (compact_tree T T7)|]. split; [rewrite !zlen_app, !zlen_cons; lia|].
  split; [by apply (compact_total T T7)|]. intros i. by apply (compact_view T T7).
Qed.

(** Into the next level. *)
Lemma compact_next_spec s ls1 c n ls2 t :
  store_ok s → tree_ok (tabs_at s) (lvls_at s) → lvls_at s = ls1 ++ c :: n :: ls2 →
  compactable s (zlen ls1) → gathered (zlen ls1) (tabs_at s) (Level.tabs c) ≠ [] →
  Tab.items t = gathered (zlen ls1) (tabs_at s) (Level.tabs c) →
  spec (overlap ← Index.find_overlapping (zlen ls1 + 1) t;
        overlap_tab ← Index.combine_tabs overlap;
        merged ← Index.merge t overlap_tab;
        _ ← for_each (Index.drop_overlap (zlen ls1 + 1)) overlap;
        cap ← lift (Level.item_cap (zlen ls1 + 1));
        parts ← lift (n ← u_add (zlen ls1 + 1) 1; u_mul Lsmt.TAB_CNT_BASE n);
        ts ← Index.divide merged (cap / parts);
        _ ← for_each (Index.store_chunk (zlen ls1 + 1)) ts;
        Index.clear (zlen ls1)) s
    (λ _ s', ∃ T' ls', reshaped T' ls' s s' ∧ same_view (tabs_at s) (lvls_at s) T' ls') never nowhere.
Proof.
  intros Hok Ht Hl Hcm Hne Hits. pose proof (Hcm _ _ _ Hl eq_refl) as Hm. cbn in Hm.
  set (Y := gathered (zlen ls1) (tabs_at s) (Level.tabs c)) in *.
  set (over := filter (λ x, overlaps Y x = true) (Level.tabs n)) in *.
  assert (Hk : zlen ls1 + 1 = zlen (ls1 ++ [c])) by by rewrite zlen_snoc.
  assert (Hl' : lvls_at s = (ls1 ++ [c]) ++ n :: ls2) by by rewrite <- app_assoc.
  assert (Hh : zlen ls1 + 1 ≤ 15).
  { pose proof (tree_height _ _ Ht) as Hh. rewrite Hl, zlen_app, !zlen_cons in Hh. pose proof (zlen_nonneg ls2). lia. }
  assert (Hnl : n ∈ lvls_at s) by (rewrite Hl, elem_of_app, !elem_of_cons; auto).
  assert (Hnames : NoDup (names ls1 ++ (TabInfo.id <$> Level.tabs c) ++ (TabInfo.id <$> Level.tabs n) ++ names ls2)).
  { pose proof (tree_names _ _ Ht) as Hnd. by rewrite Hl, names_app, !names_cons in Hnd. }
  assert (Hndn : NoDup (TabInfo.id <$> Level.tabs n)).
  { apply NoDup_app in Hnames as (_ & _ & (_ & _ & (Hn & _)%NoDup_app)%NoDup_app). done. }
  rewrite Hk. step_by find_overlapping_spec; [exact Hl'|by rewrite Hits| |done|done].
  intros ov s1 [-> ->]. rewrite Hits. fold Y over.
  step_by combine_tabs_spec; [done| | |done|done].
  { pose proof (tree_infos _ _ Ht _ Hnl) as Hall. rewrite Forall_forall in *. intros x [_ Hx]%list_elem_of_filter. by apply Hall. }
  intros ot s2 [Hot Hlk2]. step_by merge_spec; [by eapply looked_store| |done|done]. intros m s3 [Hmi Hlk3].
  rewrite Hits, Hot in Hmi. pose proof (looked_trans _ _ _ Hlk2 Hlk3) as Hlk.
  step_by drop_overlap_spec; [by eapply looked_store|rewrite (looked_lvls _ _ Hlk); exact Hl'|exact Hndn| | | |done|done].
  { eapply NoDup_fmap_1, sublist_NoDup; [exact Hndn|]. apply fmap_sublist, sublist_filter. }
  { by intros x [_ Hx]%list_elem_of_filter. }
  intros _ s4 (T4 & Hr4 & Hc4 & Hre4). rewrite (looked_tabs _ _ Hlk) in Hr4. pose proof Hre4 as (HT4 & HL4 & Hb4 & Hok4).
  rewrite <- Hk, item_cap_ok by (pose proof (zlen_nonneg ls1); lia). apply spec_bind, spec_lift_ok.
  unfold Lsmt.TAB_CNT_BASE. pose proof (zlen_nonneg ls1). unfold U64.
  rewrite u_add_ok, bind_ok, u_mul_ok by (unfold U64; lia). apply spec_bind, spec_lift_ok.
  step_by divide_spec; [done|apply (chunk_size_pos (zlen ls1 + 1)); lia| |done|done].
  intros ts s5 (Hts & Hnets & (Hndt & Hfr) & Hlk5). rewrite Hmi in Hts.
  pose proof (looked_tabs _ _ Hlk5) as HT5. rewrite HT4 in HT5. pose proof (looked_lvls _ _ Hlk5) as HL5. rewrite HL4 in HL5.
  assert (Hms : sorted (concat (Tab.items <$> ts))).
  { rewrite Hts. apply merge_sorted; [|apply (old_sorted _ _ _ _ Hm)]. pose proof (young_sorted _ _ _ _ Hm) as Hys.
    unfold Y, gathered. by destruct (zlen ls1 =? 0). }
  rewrite Hk. step_by store_chunks_spec; [by eapply looked_store|exact HL5|exact Hndt| | |done|done].
  { intros x Hx. destruct (Hfr x Hx) as (? & _ & ?). split; [done|]. split; [done|]. rewrite Forall_forall in Hnets.
    split; [|by apply Hnets]. eapply sorted_concat; [exact Hms|]. by apply list_elem_of_fmap_2. }
  intros _ s6 (T6 & infos & (Hsame6 & Hids6 & Hok6i & Hit6) & _ & Hre6). rewrite HT5 in Hsame6.
  pose proof Hre6 as (HT6 & HL6 & _ & Hok6). rewrite <- app_assoc in HL6. cbn [app refilled Level.tabs Level.num] in HL6.
  eapply spec_mono; [eapply clear_spec; [done|exact HL6]| |done|done]. intros _ s7 (T7 & Hr7 & _ & Hre7). rewrite HT6 in Hr7.
  eexists T7, _. split.
  { eapply looked_reshaped; [exact Hlk|]. eapply reshaped_trans; [exact Hre4|]. eapply looked_reshaped; [exact Hlk5|].
    eapply reshaped_trans; [exact Hre6|exact Hre7]. }
  assert (Hold : ∀ j, j ∈ names (lvls_at s) → j ∉ Tab.id <$> ts).
  { intros j [x Hj]%(names_in_tabs _ _ _ Ht) (u & -> & Hu)%list_elem_of_fmap. destruct (Hfr u Hu) as (_ & Hd & _).
    apply Hd, Hb4. destruct Hlk as [(_ & _ & Hbl & _) _]. apply Hbl. by eapply (so_drawn s). }
  rewrite Hl in Ht, Hold |- *. rewrite <- Hids6 in Hold, Hsame6, Hndt.
  refine (compact_same (tabs_at s) T4 T6 T7 ls1 c n ls2 infos _ _ _ _ _ _ _ _ _); try done. by rewrite Hit6.
Qed.

Lemma compact_spec s ls1 c ls2 :
  store_ok s → tree_ok (tabs_at s) (lvls_at s) → lvls_at s = ls1 ++ c :: ls2 →
  4096 * 10 ^ zlen ls1 ≤ cnt_of c → compactable s (zlen ls1) →
  spec (Index.compact (zlen ls1)) s
    (λ _ s', ∃ T' ls', reshaped T' ls' s s' ∧ same_view (tabs_at s) (lvls_at s) T' ls') never nowhere.
Proof.
  intros Hok Ht Hl Hfull Hcm. assert (Hf : zlen ls1 ≤ 14 ∧ gathered (zlen ls1) (tabs_at s) (Level.tabs c) ≠ []).
  { rewrite Hl in Ht. by eapply full_level. }
  destruct Hf as [Hh Hne]. pose proof (zlen_nonneg ls1) as H0. unfold Index.compact.
  step_by read_all_spec; [done|done|exact Hl| |done|done]. intros t s1 (Hits & Hseq & Hu & Hlk).
  rewrite u_add_ok by (unfold U64; lia). apply spec_bind, spec_lift_ok, spec_bind, lvls_spec.
  pose proof (looked_tabs _ _ Hlk) as HT. pose proof (looked_lvls _ _ Hlk) as HL. pose proof (looked_store _ _ Hlk) as Hok1.
  rewrite <- HT in Hits, Hne. assert (Ht1 : tree_ok (tabs_at s1) (lvls_at s1)) by by rewrite HT, HL.
  assert (Hl1 : lvls_at s1 = ls1 ++ c :: ls2) by by rewrite HL.
  assert (Hend : ∀ s', (∃ T' ls', reshaped T' ls' s1 s' ∧ same_view (tabs_at s1) (lvls_at s1) T' ls') →
    ∃ T' ls', reshaped T' ls' s s' ∧ same_view (tabs_at s) (lvls_at s) T' ls').
  { intros s' (T' & ls' & Hre & Hv). exists T', ls'. split; [by eapply looked_reshaped|]. by rewrite <- HT, <- HL. }
  pose proof (Hcm _ _ _ Hl eq_refl) as Hm. cbn in Hm. destruct ls2 as [|n ls2].
  - rewrite Hl1 at 1. rewrite zlen_snoc, (proj2 (Z.leb_le _ _)) by lia. rewrite <- HT in Hm.
    eapply spec_mono; [eapply compact_new_spec; try done| |done|done]; [|by intros [] s' Hs'; apply Hend].
    pose proof (young_sorted _ _ _ _ Hm) as Hy. unfold gathered. by destruct (zlen ls1 =? 0).
  - rewrite Hl1 at 1. rewrite zlen_app, !zlen_cons, (proj2 (Z.leb_gt _ _)) by (pose proof (zlen_nonneg ls2); lia).
    eapply spec_mono; [eapply compact_next_spec; try done| |done|done]; [|by intros [] s' Hs'; apply Hend].
    unfold compactable. rewrite HT, HL. exact Hcm.
Qed.

(** ** All levels *)

Definition full_at s (k : Z) : Prop := ∃ l, lvls_at s !! Z.to_nat k = Some l ∧ 4096 * 10 ^ k ≤ cnt_of l.

Lemma compact_if_full_spec s k :
  store_ok s → tree_ok (tabs_at s) (lvls_at s) → 0 ≤ k < zlen (lvls_at s) →
  (full_at s k → compactable s k) →
  spec (Index.compact_if_full k) s
    (λ _ s', ∃ T' ls', reshaped T' ls' s s' ∧ same_view (tabs_at s) (lvls_at s) T' ls') never nowhere.
Proof.
  intros Hok Ht Hk Hcm. destruct (lookup_lt_is_Some_2 (lvls_at s) (Z.to_nat k)) as [c Hc]; [unfold zlen in Hk; lia|].
  pose proof (take_drop_middle _ _ _ Hc) as Hl. symmetry in Hl. set (ls1 := take (Z.to_nat k) (lvls_at s)) in Hl.
  assert (Hz : zlen ls1 = k) by (unfold ls1, zlen in *; rewrite length_take; lia).
  unfold Index.compact_if_full. apply spec_bind. eapply level_spec; [exact Hl|exact Hz|].
  rewrite (is_full_ok _ _ _ _ Ht Hc), Z2Nat.id by lia. apply spec_bind, spec_lift_ok.
  destruct (4096 * 10 ^ k <=? cnt_of c) eqn:Hf; zify_b.
  - rewrite <- Hz. eapply compact_spec; [done|done|exact Hl|by rewrite Hz|]. rewrite Hz. apply Hcm. by exists c.
  - apply spec_ret. exists (tabs_at s), (lvls_at s). split; [by apply looked_refl|by apply same_view_refl].
Qed.

(** Every level that is full when its turn comes may be merged into the next. *)
Definition tidy s : Prop :=
  ∀ k, 0 ≤ k < zlen (lvls_at s) →
    let s' := (for_each Index.compact_if_full (seqZ 0 k) s).2 in full_at s' k → compactable s' k.

Lemma compact_levels_spec s :
  store_ok s → tree_ok (tabs_at s) (lvls_at s) → tidy s →
  spec Index.compact_levels s
    (λ _ s', ∃ T' ls', reshaped T' ls' s s' ∧ same_view (tabs_at s) (lvls_at s) T' ls') never nowhere.
Proof.
  intros Hok Ht Htd. unfold Index.compact_levels. apply spec_bind, lvls_spec. set (n := zlen (lvls_at s)).
  eapply spec_mono; [apply (spec_for_each _ _ (λ pre s', for_each Index.compact_if_full pre s = (Some (Ok ()), s') ∧
    ∃ T' ls', reshaped T' ls' s s' ∧ same_view (tabs_at s) (lvls_at s) T' ls') never nowhere)| |done|done].
  - split; [done|]. exists (tabs_at s), (lvls_at s). split; [by apply looked_refl|by apply same_view_refl].
  - intros pre k rest s1 Heq (Hrun & T1 & ls1 & Hre & Hv). pose proof Hre as (HT & HL & _ & Hok1).
    assert (Hpre : pre = seqZ 0 k ∧ 0 ≤ k < n).
    { assert (Hlk : seqZ 0 n !! length pre = Some k) by by (rewrite Heq; apply list_lookup_middle).
      apply lookup_seqZ in Hlk as [Hk Hlt]. split; [|lia].
      assert (Hsp : seqZ 0 n = seqZ 0 k ++ seqZ (0 + k) (n - k)) by (rewrite <- seqZ_app by lia; f_equal; lia).
      rewrite Hsp in Heq. apply app_inj_1 in Heq as [<- _]; [done|]. rewrite length_seqZ. lia. }
    destruct Hpre as [-> Hk]. destruct Hv as (Htr & Hlen & Hv).
    eapply spec_mono; [apply spec_run, compact_if_full_spec| |done|done].
    + done.
    + by rewrite HT, HL.
    + rewrite HL. unfold n in Hk. lia.
    + pose proof (Htd k Hk) as Hc. cbn in Hc. by rewrite Hrun in Hc.
    + intros [] s2 [(T2 & ls2 & Hre2 & Hv2) Hrun2]. split; [by eapply for_each_snoc|]. rewrite HT, HL in Hv2.
      exists T2, ls2. split; [by eapply reshaped_trans|]. by eapply same_view_trans.
  - by intros [] s1 [_ ?].
Qed.
End ops.
