(* ===== verification/IndexSpec.v ===== *)
(** * The index as a map from ids to addresses. *)
From stdpp Require Import sorting.
From S2P Require Import Prelude Run Base Crypto Armor Storage StorageProofs Index IndexTree IndexProofs.

(** ** The table in memory *)

Section memtab.
Context {MM : Type} `{!LinkedMapOps Eid bytes MM, !LinkedMap Eid bytes MM}.
Implicit Types (t : MemTab MM) (m : MM) (i : Eid) (l : list TabItem).

Definition mem_get t i : option bytes := lm_get i (MemTab.map t).

Lemma mem_insert t i a j :
  mem_get (MemTab.insert i a t) j = if decide (j = i) then Some a else mem_get t j.
Proof. apply lm_get_insert. Qed.
Lemma mem_insert_len t i a : MemTab.len (MemTab.insert i a t) ≤ MemTab.len t + 1.
Proof.
  unfold MemTab.len, MemTab.insert. cbn. rewrite lm_entries_insert, zlen_snoc.
  pose proof (zlen_assoc_del (V:=bytes) (lm_entries (MemTab.map t)) i). lia.
Qed.
Lemma mem_refresh t i :
  (MemTab.get_address i t).1 = mem_get t i ∧ (∀ j, mem_get (MemTab.get_address i t).2 j = mem_get t j) ∧
  MemTab.len (MemTab.get_address i t).2 = MemTab.len t ∧
  (let t' := (MemTab.get_address i t).2 in MemTab.id t' = MemTab.id t ∧ MemTab.seq t' = MemTab.seq t ∧
     MemTab.arm t' = MemTab.arm t ∧ MemTab.is_changed t' = MemTab.is_changed t).
Proof.
  unfold MemTab.get_address, mem_get, MemTab.len. pose proof (lm_get_refresh_val i (MemTab.map t)) as Hv.
  pose proof (λ j, lm_get_get_refresh j i (MemTab.map t)) as Hg. pose proof (lm_entries_get_refresh i (MemTab.map t)) as He.
  destruct (lm_get_refresh i (MemTab.map t)) as [o m]. cbn in *. split; [done|]. split; [done|]. split; [|done].
  rewrite He. destruct (assoc i (lm_entries (MemTab.map t))) as [v|] eqn:Ha; [|done].
  rewrite zlen_snoc, length_assoc_del, Ha by apply lm_entries_nodup. lia.
Qed.

(** Removing entries that are there. *)
Lemma evict_map l m :
  NoDup l.*1 → (∀ it, it ∈ l → is_Some (lm_get it.1 m)) →
  let m' := foldl (λ m it, (lm_remove it.1 m).2) m l in
  (∀ j, lm_get j m' = if decide (j ∈ l.*1) then None else lm_get j m) ∧
  zlen (lm_entries m') = zlen (lm_entries m) - zlen l.
Proof.
  revert m. induction l as [|it l IH]; intros m Hnd Hall m'; cbn in m'.
  { split; [intros j; by rewrite decide_False by apply not_elem_of_nil|]. rewrite zlen_nil. unfold m'. lia. }
  cbn in Hnd. apply NoDup_cons in Hnd as [Hni Hnd].
  destruct (IH (lm_remove it.1 m).2) as [Hg Hz]; [done| |].
  { intros x Hx. rewrite lm_get_remove, decide_False; [apply Hall; by constructor|].
    intros Heq. apply Hni. rewrite <- Heq. by apply list_elem_of_fmap_2. }
  split.
  - intros j. unfold m'. rewrite Hg, lm_get_remove. cbn. destruct (decide (j = it.1)) as [->|Hne].
    + rewrite (decide_True (P:=it.1 ∈ it.1 :: l.*1)) by constructor. by case_decide.
    + destruct (decide (j ∈ l.*1)) as [Hin|Hn].
      * rewrite decide_True; [done|]. by constructor.
      * rewrite decide_False; [done|]. rewrite elem_of_cons. tauto.
  - unfold m'. rewrite Hz, lm_entries_remove, length_assoc_del by apply lm_entries_nodup. rewrite zlen_cons.
    destruct (Hall it) as [v Hv]; [constructor|]. unfold lm_get in Hv. rewrite Hv. lia.
Qed.

(** The young items of a full table: entries of it, sorted. *)
Lemma young_items_ok t :
  MemTab.len t = MemTab.CAPACITY →
  ∃ l, MemTab.young_items t = Ok l ∧ sorted l ∧ zlen l = 1024 ∧ ∀ i a, (i, a) ∈ l → mem_get t i = Some a.
Proof.
  intros Hlen. unfold MemTab.young_items. rewrite Hlen. unfold MemTab.CAPACITY, MemTab.RESIDENCE_CAP.
  rewrite u_sub_ok, bind_ok by lia. change (4 * 1024 - 3 * 1024) with 1024. eexists. split; [done|].
  assert (Hsub : ztake 1024 (lm_entries (MemTab.map t)) `sublist_of` lm_entries (MemTab.map t)) by apply sublist_take.
  split; [|split].
  - apply sort_sorted. eapply sublist_NoDup; [apply (lm_entries_nodup (MemTab.map t))|]. by apply fmap_sublist.
  - rewrite sort_length, zlen_ztake by lia. unfold MemTab.len, MemTab.CAPACITY in Hlen. lia.
  - intros i a Hin. apply lm_get_elem. rewrite sort_elem in Hin. by apply (elem_of_submseteq _ _ _ Hin), sublist_submseteq.
Qed.
End memtab.

(** ** The invariant and the view *)

Section spec.
Context {F G MM TM : Type} `{!Accessor F (IItem MM), !AccessorLaws F (IItem MM) (stored_of MM)}.
Context `{!EidSource G, !EidSourceLaws G}.
Context `{!LinkedMapOps Eid bytes MM, !LinkedMap Eid bytes MM, !LinkedMapOps Eid Tab TM, !LinkedMap Eid Tab TM}.
Abbreviation St := (Index.St F G MM TM).
Abbreviation never := (λ _ _, False).
Abbreviation nowhere := (λ _, False).
Implicit Types (s : St) (i : Eid) (t : Tab) (ti : TabInfo) (l : Level) (ls : list Level) (n : Z).

Definition memtab_at s : MemTab MM := Index.memtab (Index.mgr s).
Definition lsmt_at s : Lsmt := Index.lsmt (Index.mgr s).
Definition saved_lsmt s i : option Lsmt := held (Index.files s) KLsmt !! i.
Definition saved_memtab s i : option (MemTab MM) := held (Index.files s) KMemTab !! i.

Definition look s i : option bytes :=
  match mem_get (memtab_at s) i with Some a => Some a | None => assoc i (tree_items (tabs_at s) (lvls_at s)) end.
(** The address of an id. *)
Definition view s i : option bytes := live (look s i).

(** What was last flushed of the table in memory. *)
Definition flushed s (d : MemTab MM) : Prop :=
  let t := memtab_at s in
  MemTab.id d = MemTab.id t ∧ MemTab.seq d = MemTab.seq t ∧ MemTab.arm d = MemTab.arm t ∧
  MemTab.len d < MemTab.CAPACITY ∧ (MemTab.is_changed t = false → ∀ i, mem_get d i = mem_get t i).

(** After [n] calls at most. *)
Record index_ok n s : Prop := {
  io_store : store_ok s;
  io_tree : tree_ok (tabs_at s) (lvls_at s);
  io_len : MemTab.len (memtab_at s) < MemTab.CAPACITY;
  io_total : total (lvls_at s) ≤ 1024 * n;
  io_lsmt : saved_lsmt s (Lsmt.id (lsmt_at s)) = Some (lsmt_at s);
  io_memtab : ∃ d, saved_memtab s (MemTab.id (memtab_at s)) = Some d ∧ flushed s d;
  io_calls : n < 2 ^ 50 ∧ Lsmt.seq (lsmt_at s) ≤ n ∧ MemTab.seq (memtab_at s) ≤ n
}.

Lemma beside_saved s s' : beside s s' → (∀ i, saved_lsmt s' i = saved_lsmt s i) ∧ (∀ i, saved_memtab s' i = saved_memtab s i).
Proof. intros Hb. unfold saved_lsmt, saved_memtab. by rewrite !(bs_held _ _ Hb). Qed.

Lemma reshaped_lsmt T' ls' s s' : reshaped T' ls' s s' → lsmt_at s' = Lsmt.set_lvls ls' (lsmt_at s).
Proof.
  intros (_ & HL & Hb & _). pose proof (bs_curve _ _ Hb) as Hc. unfold curve in Hc. unfold lvls_at in HL. unfold lsmt_at.
  destruct (Index.lsmt (Index.mgr s')), (Index.lsmt (Index.mgr s)). cbn in *. by simplify_eq.
Qed.
(** Work on tabs that leaves the levels as they are. *)
Lemma quiet_ok n s s' :
  reshaped (tabs_at s) (lvls_at s) s s' → index_ok n s → index_ok n s' ∧ ∀ j, view s' j = view s j.
Proof.
  intros Hre Hok. pose proof (reshaped_lsmt _ _ _ _ Hre) as Hlsm. destruct Hre as (HT & HL & Hb & Hst).
  destruct (beside_saved _ _ Hb) as [Hsl Hsm]. assert (Hmem : memtab_at s' = memtab_at s) by apply Hb.
  replace (Lsmt.set_lvls (lvls_at s) (lsmt_at s)) with (lsmt_at s) in Hlsm by (unfold lvls_at, lsmt_at; by destruct (Index.lsmt _)).
  split; [|intros j; unfold view, look; by rewrite Hmem, HT, HL].
  destruct Hok as [_ Htr Hl Hto Hls Hmt Hca]. split; unfold flushed; rewrite ?HT, ?HL, ?Hmem, ?Hlsm, ?Hsl, ?Hsm; done.
Qed.

(** *** Getting *)

Lemma get_spec n s i :
  index_ok n s →
  spec (Index.get i) s
    (λ a s', view s i = Some a ∧ index_ok n s' ∧ ∀ j, view s' j = view s j)
    (λ e s', e = NotFound ∧ view s i = None ∧ index_ok n s' ∧ ∀ j, view s' j = view s j) nowhere.
Proof.
  intros Hok. unfold Index.get. apply spec_bind, spec_ask. change (Index.memtab (Index.mgr s)) with (memtab_at s).
  destruct (mem_refresh (memtab_at s) i) as (Hv & Hg & Hlen & Hid & Hseq & Harm & Hch).
  destruct (MemTab.get_address i (memtab_at s)) as [o t] eqn:He. cbn [fst snd] in *. apply spec_bind, spec_modify.
  match goal with |- spec _ ?x _ _ _ => set (s1 := x) end.
  assert (Hok1 : index_ok n s1 ∧ ∀ j, look s1 j = look s j).
  { split; [|intros j; unfold look; cbn [memtab_at s1 Index.mgr Index.memtab]; by rewrite Hg].
    destruct Hok as [Hst Htr Hl Hto Hls Hmt Hca]. split; try done.
    - by destruct Hst.
    - unfold memtab_at. cbn. by rewrite Hlen.
    - unfold memtab_at, flushed, saved_memtab. cbn. rewrite Hid, Hseq, Harm, Hch. destruct Hmt as (d & Hd & H1 & H2 & H3 & H4 & H5).
      exists d. split; [done|]. do 4 (split; [done|]). intros Hf j. rewrite H5 by done. symmetry. apply Hg.
    - unfold memtab_at. cbn. by rewrite Hseq. }
  destruct Hok1 as [Hok1 Hlk]. assert (Hview : ∀ j, view s1 j = view s j) by (intros j; unfold view; by rewrite Hlk).
  subst o. destruct (mem_get (memtab_at s) i) as [[|b a]|] eqn:Hm.
  - apply spec_fail. split; [done|]. split; [unfold view, look; by rewrite Hm|done].
  - apply spec_ret. split; [unfold view, look; by rewrite Hm|done].
  - unfold Index.lsmt_get_address. apply spec_bind, lvls_spec.
    assert (Hend : ∀ s2, reshaped (tabs_at s1) (lvls_at s1) s1 s2 → index_ok n s2 ∧ ∀ j, view s2 j = view s j).
    { intros s2 Hre. destruct (quiet_ok n _ _ Hre Hok1) as [? Hv]. split; [done|]. intros j. by rewrite Hv. }
    eapply spec_mono; [apply find_in_levels_spec; [apply Hok1|apply Hok1]|..|done].
    + intros a s2 [Ha Hre]. split; [|by apply Hend]. unfold view, look. rewrite Hm. exact Ha.
    + intros e s2 (-> & Ha & Hre). split; [done|]. split; [|by apply Hend]. unfold view, look. rewrite Hm. exact Ha.
Qed.

(** *** Saving *)

Lemma save_lsmt_spec s d :
  store_ok s → saved_lsmt s (Lsmt.id (lsmt_at s)) = Some d → Lsmt.seq d = Lsmt.seq (lsmt_at s) →
  Lsmt.arm d = Lsmt.arm (lsmt_at s) → Lsmt.seq (lsmt_at s) + 1 < U64 →
  spec Index.save_lsmt s
    (λ _ s', lsmt_at s' = next_item (lsmt_at s) ∧ saved_lsmt s' (Lsmt.id (lsmt_at s)) = Some (lsmt_at s') ∧
       tabs_at s' = tabs_at s ∧ memtab_at s' = memtab_at s ∧ (∀ j, saved_memtab s' j = saved_memtab s j) ∧
       store_ok s') never nowhere.
Proof.
  intros Hok Hd Hseq Harm Hn. unfold Index.save_lsmt. apply spec_bind, spec_ask, spec_bind, spec_zoom.
  change (Index.lsmt (Index.mgr s)) with (lsmt_at s).
  eapply spec_mono; [apply (save_law (form:=stored_of MM) KLsmt (lsmt_at s) (Index.files s))|..].
  - intros c Hc. change (saved_lsmt s (Lsmt.id (lsmt_at s)) = Some (c : Lsmt)) in Hc. rewrite Hd in Hc. injection Hc as <-.
    cbn. rewrite Hseq, Harm. split; [lia|done].
  - intros [l' r] f' [[Hap Hw] Hcase]. cbn [fst snd] in Hcase. pose proof (so_running _ Hok) as Hr.
    destruct r as [[]|e|]; [|by destruct Hcase as (_ & ? & _)|done]. destruct Hcase as [-> Hh].
    apply spec_bind, spec_modify, spec_lift_ok.
    match goal with |- context [lsmt_at ?x = _] => set (s' := x) end.
    assert (HT : tabs_at s' = tabs_at s).
    { apply map_eq. intros j. apply (Hap KTab). by left. }
    split; [done|]. split; [exact Hh|]. split; [exact HT|]. split; [done|].
    split; [intros j; apply (Hap KMemTab); by left|].
    split; unfold cache_at; rewrite ?HT; [by apply Hw|apply Hok..].
  - by intros.
  - intros f' ([|Hu] & _); [by destruct Hok|]. cbn [item_seq iitem_access lsmt_arm_access] in Hu. lia.
Qed.

Lemma save_memtab_spec s d :
  store_ok s → saved_memtab s (MemTab.id (memtab_at s)) = Some d → MemTab.seq d = MemTab.seq (memtab_at s) →
  MemTab.arm d = MemTab.arm (memtab_at s) → MemTab.seq (memtab_at s) + 1 < U64 →
  spec Index.save_memtab s
    (λ _ s', memtab_at s' = next_item (memtab_at s) ∧
       saved_memtab s' (MemTab.id (memtab_at s)) = Some (stored_of MM KMemTab (memtab_at s')) ∧
       tabs_at s' = tabs_at s ∧ lsmt_at s' = lsmt_at s ∧ (∀ j, saved_lsmt s' j = saved_lsmt s j) ∧
       store_ok s') never nowhere.
Proof.
  intros Hok Hd Hseq Harm Hn. unfold Index.save_memtab. apply spec_bind, spec_ask, spec_bind, spec_zoom.
  change (Index.memtab (Index.mgr s)) with (memtab_at s).
  eapply spec_mono; [apply (save_law (form:=stored_of MM) KMemTab (memtab_at s) (Index.files s))|..].
  - intros c Hc. change (saved_memtab s (MemTab.id (memtab_at s)) = Some (c : MemTab MM)) in Hc. rewrite Hd in Hc.
    injection Hc as <-. cbn. rewrite Hseq, Harm. split; [lia|done].
  - intros [l' r] f' [[Hap Hw] Hcase]. cbn [fst snd] in Hcase. pose proof (so_running _ Hok) as Hr.
    destruct r as [[]|e|]; [|by destruct Hcase as (_ & ? & _)|done]. destruct Hcase as [-> Hh].
    apply spec_bind, spec_modify, spec_lift_ok.
    match goal with |- context [memtab_at ?x = _] => set (s' := x) end.
    assert (HT : tabs_at s' = tabs_at s).
    { apply map_eq. intros j. apply (Hap KTab). by left. }
    split; [done|]. split; [exact Hh|]. split; [exact HT|]. split; [done|].
    split; [intros j; apply (Hap KLsmt); by left|].
    split; unfold cache_at; rewrite ?HT; [by apply Hw|apply Hok..].
  - by intros.
  - intros f' ([|Hu] & _); [by destruct Hok|]. cbn [item_seq iitem_access memtab_arm_access] in Hu. lia.
Qed.

(** *** Inserting *)

(** The state with the entry in the table in memory, and that with the young tab on level 0. *)
Definition entered i (a : bytes) s : St := (Index.set_memtab (MemTab.insert i a (memtab_at s)) s).2.
Definition pushed i (a : bytes) s : St := ((Index.extract_young ≫= Index.add_young) (entered i a s)).2.
Definition tidy_insert i (a : bytes) s : Prop :=
  MemTab.is_full (MemTab.insert i a (memtab_at s)) = true → tidy (pushed i a s).

(** A young tab comes to the top of the tree. *)
Lemma young_spec n s :
  store_ok s → tree_ok (tabs_at s) (lvls_at s) → MemTab.len (memtab_at s) = MemTab.CAPACITY →
  total (lvls_at s) ≤ 1024 * n → n + 1 < 2 ^ 50 →
  spec (Index.extract_young ≫= Index.add_young) s
    (λ t s', ∃ T' ls', reshaped T' ls' s s' ∧ tree_ok T' ls' ∧ total ls' ≤ total (lvls_at s) + 1024 ∧
       tree_items T' ls' = Tab.items t ++ tree_items (tabs_at s) (lvls_at s) ∧
       MemTab.young_items (memtab_at s) = Ok (Tab.items t)) never nowhere.
Proof.
  intros Hok Htr Hlen Htot Hn. destruct (young_items_ok _ Hlen) as (Y & HY & Hs & Hz & Hin).
  apply spec_bind. unfold Index.extract_young. step_by draw_id_spec; [done| |done|done]. intros i s1 (_ & Hu & Hlk).
  pose proof Hlk as [(HT & HL & Hb & Hok1) _].
  apply spec_bind, spec_ask, spec_bind. change (Index.memtab (Index.mgr s1)) with (memtab_at s1).
  replace (memtab_at s1) with (memtab_at s) by (symmetry; apply Hb). rewrite HY. apply spec_lift_ok, spec_ret.
  unfold Index.add_young. step_by save_tab_spec; [done|exact Hu|done| |done|done]. intros t s2 (-> & Hre2 & _).
  rewrite HT, HL in Hre2. cbn [Tab.id Tab.with_items Tab.new] in Hre2. pose proof Hre2 as (HT2 & HL2 & _ & Hok2).
  set (t := next_item (Tab.with_items Y (Tab.new i))) in *.
  destruct (info_new_ok t) as [ti Hti].
  { cbn. intros ->. rewrite zlen_nil in Hz. lia. }
  pose proof (info_new _ _ Hti) as (Hid & Hcnt & _). cbn in Hid. unfold Tab.len in Hcnt. cbn in Hcnt.
  pose proof (tree_height _ _ Htr) as Hh. destruct (lvls_at s) as [|l ls] eqn:HL0; [rewrite zlen_nil in Hh; lia|].
  assert (Hnew : tabs_at s !! i = None) by (rewrite <- HT; apply Hu).
  assert (Hni : i ∉ names (l :: ls)).
  { intros [x Hx]%(names_in_tabs _ _ _ Htr). congruence. }
  assert (Hag : agree (tabs_at s) (<[i:=t]> (tabs_at s)) (concat (Level.tabs <$> (l :: ls)))).
  { intros x Hx. rewrite lookup_insert_ne; [done|]. intros ->. apply Hni. by apply list_elem_of_fmap_2. }
  apply spec_bind. apply (push_spec s2 [] l ls t ti); [done|exact HL2|exact Hti|].
  intros s3 Hre3 _. rewrite HT2 in Hre3. cbn [app] in Hre3. apply spec_ret.
  eexists _, _. split; [eapply looked_reshaped; [exact Hlk|]; eapply reshaped_trans; [exact Hre2|exact Hre3]|].
  split; [|split; [|split]].
  - eapply push_tree; [done|exact Hag| |by rewrite Hid|rewrite Hcnt, Hz; lia].
    exists t. rewrite Hid, lookup_insert_eq. done.
  - unfold total. rewrite !zsum_cons. unfold cnt_of at 1, refilled. cbn [Level.tabs].
    rewrite zsum_app, zsum_cons, zsum_nil, Hcnt, Hz. unfold cnt_of at 2. lia.
  - apply push_items; [exact Hag|]. by rewrite Hid, lookup_insert_eq.
  - done.
Qed.

(** The last step of an insert that has filled the table: the young items leave it. *)
Lemma insert_end n s s1 s5 s6 i (a : bytes) (y : Tab) :
  index_ok n s → n + 1 < 2 ^ 50 → memtab_at s1 = MemTab.insert i a (memtab_at s) →
  MemTab.len (memtab_at s1) = MemTab.CAPACITY → MemTab.young_items (memtab_at s1) = Ok (Tab.items y) →
  tree_ok (tabs_at s6) (lvls_at s6) → total (lvls_at s6) ≤ total (lvls_at s) + 1024 →
  (∀ j, live (assoc j (tree_items (tabs_at s6) (lvls_at s6))) =
        live (assoc j (Tab.items y ++ tree_items (tabs_at s) (lvls_at s)))) →
  lsmt_at s6 = next_item (lsmt_at s5) → Lsmt.id (lsmt_at s5) = Lsmt.id (lsmt_at s) → Lsmt.seq (lsmt_at s5) = Lsmt.seq (lsmt_at s) →
  saved_lsmt s6 (Lsmt.id (lsmt_at s)) = Some (lsmt_at s6) → (∀ j, saved_memtab s6 j = saved_memtab s j) →
  store_ok s6 →
  let s' := (Index.set_memtab (MemTab.evict_young y (memtab_at s1)) s6).2 in
  index_ok (n + 1) s' ∧ ∀ j, view s' j = if decide (j = i) then live (Some a) else view s j.
Proof.
  intros Hok Hn Hm1 Hlen1 HY Htr Htot Hit Hl6 Hlid Hlseq Hs6 Hsm6 Hst6 s'.
  pose proof Hok as [_ _ Hl Hto _ (d & Hd & H1 & H2 & H3 & H4 & _) (_ & Hc1 & Hc2)].
  destruct (young_items_ok _ Hlen1) as (Y & HY' & Hs & Hz & Hin). rewrite HY in HY'. injection HY' as HY'. rewrite HY' in *.
  assert (Hlook : ∀ j, mem_get (memtab_at s1) j = if decide (j = i) then Some a else mem_get (memtab_at s) j).
  { intros j. rewrite Hm1. apply mem_insert. }
  destruct (evict_map Y (MemTab.map (memtab_at s1))) as [Hg Hlen]; [by apply sorted_nodup| |].
  { intros [j b] Hj. exists b. apply (Hin j b Hj). }
  rewrite <- HY' in Hg, Hlen. change (∀ j, mem_get (memtab_at s') j = if decide (j ∈ (Tab.items y).*1) then None else mem_get (memtab_at s1) j) in Hg.
  change (MemTab.len (memtab_at s') = MemTab.len (memtab_at s1) - zlen (Tab.items y)) in Hlen. rewrite HY' in Hg, Hlen.
  assert (Hfields : MemTab.id (memtab_at s') = MemTab.id (memtab_at s) ∧ MemTab.seq (memtab_at s') = MemTab.seq (memtab_at s) ∧
    MemTab.arm (memtab_at s') = MemTab.arm (memtab_at s)) by (cbn; by rewrite Hm1).
  destruct Hfields as (F1 & F2 & F3). split.
  - split; try done.
    + by destruct Hst6.
    + rewrite Hlen, Hlen1, Hz. done.
    + change (lvls_at s') with (lvls_at s6). lia.
    + change (lsmt_at s') with (lsmt_at s6). rewrite Hl6 at 1. cbn. by rewrite Hlid.
    + exists d. rewrite F1. split; [rewrite <- Hd; apply Hsm6|]. unfold flushed. rewrite F1, F2, F3. by split_and!.
    + rewrite F2. change (lsmt_at s') with (lsmt_at s6). rewrite Hl6. cbn. rewrite Hlseq. lia.
  - intros j. unfold view, look. rewrite Hg. change (tabs_at s') with (tabs_at s6). change (lvls_at s') with (lvls_at s6).
    destruct (decide (j ∈ Y.*1)) as [Hj|Hj].
    + apply list_elem_of_fmap in Hj as ([j' b] & -> & Hj). cbn [fst]. pose proof (Hin _ _ Hj) as Hb. rewrite Hlook in Hb.
      rewrite Hit, assoc_app, (assoc_elem j' b Y) by (done || by apply sorted_nodup). case_decide; by rewrite Hb.
    + rewrite Hlook. case_decide; [done|]. destruct (mem_get (memtab_at s) j); [done|].
      rewrite Hit, assoc_app. by rewrite (proj2 (assoc_None j Y) Hj).
Qed.

Lemma insert_spec n s i a :
  index_ok n s → n + 1 < 2 ^ 50 → tidy_insert i a s →
  spec (Index.insert i a) s
    (λ _ s', index_ok (n + 1) s' ∧ ∀ j, view s' j = if decide (j = i) then live (Some a) else view s j) never nowhere.
Proof.
  intros Hok Hn Htd. pose proof Hok as [Hst Htr Hl Hto Hls (d & Hd & Hfl) (_ & Hc1 & Hc2)].
  unfold Index.insert. apply spec_bind, spec_ask. change (Index.memtab (Index.mgr s)) with (memtab_at s).
  unfold tidy_insert, pushed in Htd. unfold entered in Htd. apply spec_bind, spec_modify. cbn [Index.set_memtab Index.set_mgr modify snd] in Htd.
  set (t1 := MemTab.insert i a (memtab_at s)) in *.
  match goal with |- spec _ ?x _ _ _ => set (s1 := x) in * end.
  assert (Hst1 : store_ok s1) by by destruct Hst.
  assert (Hlook : ∀ j, mem_get t1 j = if decide (j = i) then Some a else mem_get (memtab_at s) j) by (intros; apply mem_insert).
  pose proof (mem_insert_len (memtab_at s) i a) as Hlen. fold t1 in Hlen.
  destruct (MemTab.is_full t1) eqn:Hfull; cbn [negb]; unfold MemTab.is_full in Hfull; zify_b.
  2: { apply spec_ret. split.
    - split; try done; [change (lvls_at s1) with (lvls_at s); lia| |].
      + exists d. split; [done|]. destruct Hfl as (? & ? & ? & ? & _). by split_and!.
      + change (lsmt_at s1) with (lsmt_at s). split; [lia|]. split; [lia|]. change (MemTab.seq (memtab_at s1)) with (MemTab.seq (memtab_at s)). lia.
    - intros j. unfold view, look. change (memtab_at s1) with t1. rewrite Hlook. by case_decide. }
  assert (Hlen1 : MemTab.len (memtab_at s1) = MemTab.CAPACITY) by (change (memtab_at s1) with t1; lia).
  specialize (Htd eq_refl).
  pose proof (spec_run _ _ _ _ _ (young_spec n s1 Hst1 Htr Hlen1 Hto ltac:(lia))) as Hy.
  unfold Index.push_young.
  enough (spec (y ← (Index.extract_young ≫= Index.add_young); _ ← Index.compact_levels; _ ← Index.save_lsmt;
    t ← Index.the Index.memtab; Index.set_memtab (MemTab.evict_young y t)) s1
    (λ _ s', index_ok (n + 1) s' ∧ ∀ j, view s' j = if decide (j = i) then live (Some a) else view s j) never nowhere) as He.
  { clear -He. unfold spec, mbind, run_bind in *.
    destruct (Index.extract_young s1) as [[[y|e|]|] s2]; try done. 
    destruct (Index.add_young y s2) as [[[z|e|]|] s3]; try done.
    destruct (Index.compact_levels s3) as [[[u|e|]|] s4]; try done. }
  apply spec_bind. eapply spec_mono; [exact Hy| |done|done].
  intros y s4 [(T4 & ls4 & Hre4 & Htr4 & Htot4 & Hit4 & HY) Hrun]. rewrite Hrun in Htd. cbn [snd] in Htd.
  pose proof Hre4 as (HT4 & HL4 & Hb4 & Hok4).
  step_by compact_levels_spec; [done|by rewrite HT4, HL4|exact Htd| |done|done].
  intros _ s5 (T5 & ls5 & Hre5 & Hv5). rewrite HT4, HL4 in Hv5. pose proof (reshaped_trans _ _ _ _ _ _ _ Hre4 Hre5) as Hre.
  pose proof (reshaped_lsmt _ _ _ _ Hre) as Hlsm. pose proof Hre as (HT5 & HL5 & Hb5 & Hok5).
  destruct (beside_saved _ _ Hb5) as [Hsl Hsm]. assert (Hmem : memtab_at s5 = t1) by apply Hb5.
  step_by save_lsmt_spec; [done| | | | | |done|done].
  { rewrite Hsl, Hlsm. exact Hls. }
  { by rewrite Hlsm. }
  { by rewrite Hlsm. }
  { rewrite Hlsm. change (Lsmt.seq (lsmt_at s) + 1 < U64). unfold U64. lia. }
  intros _ s6 (Hl6 & Hs6 & HT6 & Hm6 & Hsm6 & Hok6).
  apply spec_bind, spec_ask, spec_modify. change (Index.memtab (Index.mgr s6)) with (memtab_at s6). rewrite Hm6, Hmem.
  destruct Hv5 as (Htr5 & _ & Htot5 & Hv5).
  assert (Hlv6 : lvls_at s6 = ls5).
  { unfold lvls_at. change (Index.lsmt (Index.mgr s6)) with (lsmt_at s6). rewrite Hl6. exact HL5. }
  apply (insert_end n s s1 s5 s6 i a y); try done; rewrite ?Hlv6, ?HT6, ?HT5; try done.
  - change (lvls_at s1) with (lvls_at s) in Htot4. lia.
  - intros j. by rewrite Hv5, Hit4.
  - by rewrite Hlsm.
  - by rewrite Hlsm.
  - rewrite Hlsm in Hs6. exact Hs6.
  - intros j. rewrite Hsm6, Hsm. done.
Qed.

(** *** Flushing and opening *)

Lemma index_ok_mono n n' s : index_ok n s → n ≤ n' < 2 ^ 50 → index_ok n' s.
Proof. intros [? ? ? ? ? ? (? & ? & ?)] Hn. split; try done; [lia|]. split_and!; lia. Qed.

Lemma flush_spec n s :
  index_ok n s → n + 1 < 2 ^ 50 →
  spec Index.flush s
    (λ _ s', index_ok (n + 1) s' ∧ (∀ j, view s' j = view s j) ∧ MemTab.is_changed (memtab_at s') = false)
    never nowhere.
Proof.
  intros Hok Hn. pose proof Hok as [Hst Htr Hl Hto Hls (d & Hd & H1 & H2 & H3 & H4 & H5) (_ & Hc1 & Hc2)].
  unfold Index.flush. apply spec_bind, spec_ask. change (Index.memtab (Index.mgr s)) with (memtab_at s).
  destruct (MemTab.is_changed (memtab_at s)) eqn:Hch; cycle 1.
  { apply spec_ret. split; [|done]. eapply index_ok_mono; [done|lia]. }
  step_by save_memtab_spec; [done|exact Hd|done|done|unfold U64; lia| |done|done].
  intros _ s1 (Hm & Hsv & HT & Hlsm & Hsl & Hst1). apply spec_bind, spec_ask, spec_modify.
  change (Index.memtab (Index.mgr s1)) with (memtab_at s1).
  match goal with |- index_ok _ ?x ∧ _ => set (s2 := x) end.
  assert (Hm2 : memtab_at s2 = MemTab.set_map (MemTab.map (memtab_at s1)) false (memtab_at s1)) by done.
  assert (HL : lvls_at s1 = lvls_at s) by (unfold lvls_at; change (Index.lsmt (Index.mgr s1)) with (lsmt_at s1); by rewrite Hlsm).
  split; [|split; [|done]].
  - split.
    + by destruct Hst1.
    + change (lvls_at s2) with (lvls_at s1). rewrite HL. change (tabs_at s2) with (tabs_at s1). by rewrite HT.
    + rewrite Hm2, Hm. exact Hl.
    + change (lvls_at s2) with (lvls_at s1). rewrite HL. lia.
    + change (lsmt_at s2) with (lsmt_at s1). change (saved_lsmt s2) with (saved_lsmt s1). by rewrite Hlsm, Hsl.
    + eexists. split; [rewrite Hm2, Hm; exact Hsv|]. unfold flushed. rewrite Hm2, Hm. cbn. by split_and!.
    + rewrite Hm2, Hm. change (lsmt_at s2) with (lsmt_at s1). rewrite Hlsm. cbn. lia.
  - intros j. unfold view, look. rewrite Hm2, Hm. change (lvls_at s2) with (lvls_at s1). rewrite HL.
    change (tabs_at s2) with (tabs_at s1). by rewrite HT.
Qed.

(** A new manager with the ids of the old one, as [set_crypto_ctx] derives them of the same key. *)
Definition restarted s : St :=
  Index.mkSt (Index.files s) (Index.ids s)
    (Index.mkMgr (mkLsmt (Lsmt.id (lsmt_at s)) 0 Arm.default [Level.new 0])
       (Lru.new (K:=Eid) (V:=Tab) Lsmt.TAB_CACHE_SIZE)
       (mkMemTab (MemTab.id (memtab_at s)) 0 Arm.default lm_new false)).

Lemma load_held k s i (c : IItem MM k) :
  running s → held (Index.files s) k !! i = Some c →
  spec (Index.on_files (acc_load k i)) s
    (λ c' s', c' = c ∧ alike (Index.files s) (Index.files s') ∧ Index.ids s' = Index.ids s ∧ Index.mgr s' = Index.mgr s)
    never nowhere.
Proof.
  intros Hr Hc. apply spec_zoom. eapply spec_mono; [exact (load_law (form:=stored_of MM) k i (Index.files s))|..].
  - intros c' f' ([Hc'|] & _ & Hal); [|done]. split; [congruence|done].
  - intros e f' ([Hn|] & _); [congruence|done].
  - by intros f' [].
Qed.

Lemma reopen_spec n s :
  index_ok n s → MemTab.is_changed (memtab_at s) = false →
  spec Index.open (restarted s) (λ _ s', index_ok n s' ∧ ∀ j, view s' j = view s j) never nowhere.
Proof.
  intros Hok Hch. pose proof Hok as [Hst Htr Hl Hto Hls (d & Hd & H1 & H2 & H3 & H4 & H5) (Hc0 & Hc1 & Hc2)].
  unfold Index.open, Index.lsmt_open. apply spec_bind, spec_bind, spec_ask, spec_bind.
  eapply spec_mono; [apply (load_held KLsmt); [apply Hst|exact Hls]| |done|done].
  intros l s1 (-> & [Hal Hw] & Hi1 & Hm1). apply spec_modify, spec_bind, spec_ask, spec_bind.
  match goal with |- spec _ ?x _ _ _ => set (s2 := x) end.
  assert (Hm2 : memtab_at s2 = memtab_at (restarted s)) by (unfold memtab_at; cbn; by rewrite Hm1).
  change (Index.memtab (Index.mgr s2)) with (memtab_at s2). rewrite Hm2.
  eapply spec_mono; [apply (load_held KMemTab _ _ d)| |done|done].
  { apply Hw, Hst. }
  { cbn. etrans; [|exact Hd]. unfold saved_memtab. cbn. by rewrite Hal. }
  intros t s3 (-> & [Hal3 Hw3] & Hi3 & Hm3). apply spec_modify.
  match goal with |- index_ok _ ?x ∧ _ => set (s4 := x) end.
  assert (Hh : ∀ k, held (Index.files s4) k = held (Index.files s) k) by (intros k; cbn; rewrite Hal3; cbn; apply Hal).
  assert (HT : tabs_at s4 = tabs_at s) by exact (Hh KTab).
  assert (Hm4 : memtab_at s4 = d) by done.
  assert (Hl4 : lsmt_at s4 = lsmt_at s).
  { unfold lsmt_at. cbn. rewrite Hm3. cbn. unfold lsmt_at. by destruct (Index.lsmt (Index.mgr s)). }
  assert (HL : lvls_at s4 = lvls_at s) by exact (f_equal Lsmt.lvls Hl4).
  assert (Hc4 : Index.tab_cache (Index.mgr s4) = Lru.new (K:=Eid) (V:=Tab) Lsmt.TAB_CACHE_SIZE).
  { cbn. rewrite Hm3. cbn. by rewrite Hm1. }
  assert (Hi4 : Index.ids s4 = Index.ids s) by (cbn; rewrite Hi3; exact Hi1).
  split.
  - split; rewrite ?HT, ?HL, ?Hl4, ?Hm4; try done.
    + split; unfold running, cache_at, drawn; rewrite ?Hc4, ?HT, ?Hi4.
      * apply Hw3, Hw, Hst.
      * by apply lru_fits_new.
      * intros i t. unfold Lru.new. cbn [Lru.map]. by rewrite lm_get_new.
      * apply Hst.
    + unfold saved_lsmt. by rewrite Hh.
    + exists d. unfold saved_memtab. rewrite Hh, H1. split; [exact Hd|]. unfold flushed. by rewrite Hm4.
    + rewrite H2. done.
  - intros j. unfold view, look. rewrite HT, HL, Hm4, H5 by done. done.
Qed.

(** ** Any sequence of calls *)

(** [Reopen]: the index is flushed and dropped, and a new manager opens it. *)
Inductive Call := Get (i : Eid) | Insert (i : Eid) (a : bytes) | Delete (i : Eid) | Reopen.

Definition reopen : run St unit := _ ← Index.flush; _ ← modify restarted; Index.open.
(** What [get] answers, [None] for [NotFound]. *)
Definition run_call (c : Call) : run St (option bytes) :=
  match c with
  | Get i =>
      r ← attempt (Index.get i);
      match r with Ok a => mret (Some a) | Err NotFound => mret None | Err e => fail e | Panic => lift Panic end
  | Insert i a => _ ← Index.insert i a; mret None
  | Delete i => _ ← Index.delete i; mret None
  | Reopen => _ ← reopen; mret None
  end.
Fixpoint run_calls (cs : list Call) : run St (list (option bytes)) :=
  match cs with [] => mret [] | c :: cs => o ← run_call c; os ← run_calls cs; mret (o :: os) end.

(** The map: an empty address deletes. *)
Definition ref_call (c : Call) (m : gmap Eid bytes) : option bytes * gmap Eid bytes :=
  match c with
  | Get i => (m !! i, m)
  | Insert i a => (None, match a with [] => delete i m | _ => <[i := a]> m end)
  | Delete i => (None, delete i m)
  | Reopen => (None, m)
  end.
Fixpoint ref_calls (cs : list Call) (m : gmap Eid bytes) : list (option bytes) * gmap Eid bytes :=
  match cs with
  | [] => ([], m)
  | c :: cs => let '(o, m) := ref_call c m in let '(os, m) := ref_calls cs m in (o :: os, m)
  end.

Definition represents s (m : gmap Eid bytes) : Prop := ∀ i, view s i = m !! i.

(** Every compaction of the run is of levels that may be merged. *)
Definition tidy_call (c : Call) s : Prop :=
  match c with Insert i a => tidy_insert i a s | Delete i => tidy_insert i [] s | _ => True end.
Fixpoint tidy_run (cs : list Call) s : Prop :=
  match cs with [] => True | c :: cs => tidy_call c s ∧ tidy_run cs (run_call c s).2 end.

Lemma represents_insert s s' m i (a : bytes) :
  represents s m → (∀ j, view s' j = if decide (j = i) then live (Some a) else view s j) →
  represents s' (ref_call (Insert i a) m).2.
Proof.
  intros Hm Hv j. rewrite Hv. cbn. destruct (decide (j = i)) as [->|Hne], a as [|b a]; cbn;
    rewrite ?lookup_delete_eq, ?lookup_insert_eq, ?lookup_delete_ne, ?lookup_insert_ne by done; done.
Qed.

Lemma call_spec n s m c :
  index_ok n s → represents s m → n + 1 < 2 ^ 50 → tidy_call c s →
  spec (run_call c) s
    (λ o s', index_ok (n + 1) s' ∧ o = (ref_call c m).1 ∧ represents s' (ref_call c m).2) never nowhere.
Proof.
  intros Hok Hm Hn Htd. destruct c as [i|i a|i|]; cbn [run_call tidy_call ref_call fst snd] in *.
  - apply spec_bind, spec_attempt. eapply spec_mono; [by eapply get_spec|..|done].
    + intros a s' (Ha & Hok' & Hv). apply spec_ret. split; [eapply index_ok_mono; [done|lia]|].
      split; [by rewrite <- Hm|]. intros j. by rewrite Hv.
    + intros e s' (-> & Ha & Hok' & Hv). apply spec_ret. split; [eapply index_ok_mono; [done|lia]|].
      split; [by rewrite <- Hm|]. intros j. by rewrite Hv.
  - step_by insert_spec; [done|done|done| |done|done]. intros _ s' [Hok' Hv]. apply spec_ret. split; [done|]. split; [done|].
    by eapply (represents_insert s s' m i a).
  - unfold Index.delete. step_by insert_spec; [done|done|done| |done|done]. intros _ s' [Hok' Hv]. apply spec_ret.
    split; [done|]. split; [done|]. by eapply (represents_insert s s' m i []).
  - unfold reopen. apply spec_bind. step_by flush_spec; [done|done| |done|done]. intros _ s1 (Hok1 & Hv1 & Hch).
    apply spec_bind, spec_modify. eapply spec_mono; [by apply reopen_spec| |done|done].
    intros [] s2 [Hok2 Hv2]. apply spec_ret. split; [done|]. split; [done|]. intros j. by rewrite Hv2, Hv1.
Qed.

(** C15: [IndexMgr]. The index refines a map: while the files work, any sequence of calls, closing and opening it
    included, gives the answers of a map from ids to addresses, as long as the levels it
    compacts may be merged ([mergeable]). *)
Theorem index_refines_map n s m cs :
  index_ok n s → represents s m → n + zlen cs < 2 ^ 50 → tidy_run cs s →
  spec (run_calls cs) s
    (λ os s', index_ok (n + zlen cs) s' ∧ os = (ref_calls cs m).1 ∧ represents s' (ref_calls cs m).2) never nowhere.
Proof.
  revert n s m. induction cs as [|c cs IH]; intros n s m Hok Hm Hn Htd.
  { apply spec_ret. rewrite zlen_nil, Z.add_0_r. done. }
  rewrite zlen_cons in Hn |- *. destruct Htd as [Hc Htd]. pose proof (zlen_nonneg cs). cbn [run_calls ref_calls].
  apply spec_bind. eapply spec_mono; [apply spec_run, call_spec; [exact Hok|exact Hm|lia|done]| |done|done].
  intros o s1 [(Hok1 & Ho & Hm1) Hrun]. rewrite Hrun in Htd. destruct (ref_call c m) as [o' m'] eqn:Hr. cbn in Ho, Hm1. subst o'.
  step_by IH; [exact Hok1|exact Hm1|lia|exact Htd| |done|done]. intros os s2 (Hok2 & -> & Hm2). apply spec_ret.
  destruct (ref_calls cs m') as [os m2]. replace (n + (zlen cs + 1)) with (n + 1 + zlen cs) by lia. done.
Qed.
End spec.
