(* ===== verification/IndexSafe.v ===== *)
(** * What holds of the index whatever fails below it: it gives only addresses put for the id. *)
From stdpp Require Import sorting.
From S2P Require Import Prelude Run Base Crypto Armor Storage StorageProofs Index IndexTree IndexProofs IndexSpec.

(** ** Caches, sorts and cuts make nothing up *)

Lemma lru_insert_sub {K V M} `{EqDecision K, !LinkedMapOps K V M, !LinkedMap K V M, !Meter V, !Pinnable V}
    (k : K) (v : V) (c c' : Lru.Lru M) o :
  Lru.insert k v c = Ok (o, c') →
  ∀ k' v', lm_get k' (Lru.map c') = Some v' → (k' = k ∧ v' = v) ∨ lm_get k' (Lru.map c) = Some v'.
Proof.
  unfold Lru.insert. destruct (rassert _) as [[]|e|]; [|done..]. cbn.
  pose proof (λ k', lm_get_insert k' k v (Lru.map c)) as Hg. destruct (lm_insert k v (Lru.map c)) as [old m]. cbn in Hg.
  assert (Hsub : ∀ k' v', lm_get k' m = Some v' → (k' = k ∧ v' = v) ∨ lm_get k' (Lru.map c) = Some v').
  { intros k' v'. rewrite Hg. case_decide; [|by right]. intros [= <-]. by left. }
  intros [= _ <-] k' v' Hk. apply Hsub. case_match; [|exact Hk]. unfold Lru.remove_lru in Hk.
  destruct (Lru.first_unpinned _) as [[j w]|]; [|exact Hk]. cbn [snd Lru.map] in Hk. rewrite lm_get_remove in Hk.
  by case_decide.
Qed.
Lemma chunks_elem fuel n (l c : list TabItem) it : c ∈ Tab.chunks fuel n l → it ∈ c → it ∈ l.
Proof.
  revert l. induction fuel as [|fuel IH]; intros [|x l]; cbn [Tab.chunks]; try by intros ?%elem_of_nil.
  intros [->|Hc]%elem_of_cons Hit.
  - rewrite <- (ztake_zdrop n (x :: l)). apply elem_of_app. by left.
  - rewrite <- (ztake_zdrop n (x :: l)). apply elem_of_app. right. by apply IH.
Qed.

Section safe.
Context {F G MM TM : Type} `{!Accessor F (IItem MM), !AccessorLaws F (IItem MM) (stored_of MM)}.
Context `{!EidSource G, !EidSourceLaws G}.
Context `{!LinkedMapOps Eid bytes MM, !LinkedMap Eid bytes MM, !LinkedMapOps Eid Tab TM, !LinkedMap Eid Tab TM}.
Abbreviation St := (Index.St F G MM TM).
Implicit Types (s : St) (i : Eid) (t : Tab).

(** ** The entries that have been put *)

Context (P : TabItem → Prop).

Definition tab_known t : Prop := Forall P (Tab.items t).
Definition memtab_known (t : MemTab MM) : Prop := ∀ i a, mem_get t i = Some a → P (i, a).
Definition known k : IItem MM k → Prop :=
  match k with KTab => tab_known | KMemTab => memtab_known | KLsmt => λ _, True end.

(** All that is in memory or stored has been put. *)
Record only_put s : Prop := {
  op_memtab : memtab_known (memtab_at s);
  op_copies k i c : copies (Index.files s) k i c → known k c;
  op_cache i t : lm_get i (cache_at s) = Some t → tab_known t
}.

(** A call keeps this however it ends, and what it returns is in [R]. *)
Definition sound {A} (m : run St A) (R : A → Prop) : Prop :=
  ∀ s, only_put s → spec m s (λ a s', R a ∧ only_put s') (λ _, only_put) only_put.
Abbreviation any := (λ _, True).

Lemma sound_ret {A} (a : A) (R : A → Prop) : R a → sound (mret a) R.
Proof. intros Hr s Hs. by apply spec_ret. Qed.
Lemma sound_fail {A} e (R : A → Prop) : sound (fail e) R.
Proof. intros s Hs. by apply spec_fail. Qed.
Lemma sound_lift {A} (r : res A) (R : A → Prop) : (∀ a, r = Ok a → R a) → sound (lift r) R.
Proof. intros Hr s Hs. unfold spec, lift. destruct r; auto. Qed.
Lemma sound_bind {A B} (m : run St A) (k : A → run St B) R R' :
  sound m R → (∀ a, R a → sound (k a) R') → sound (m ≫= k) R'.
Proof. intros Hm Hk s Hs. apply spec_bind. eapply spec_mono; [by apply Hm| |done|done]. intros a s' [Ha Hs']. by apply Hk. Qed.
Lemma sound_ask {A} (f : St → A) (R : A → Prop) : (∀ s, only_put s → R (f s)) → sound (ask f) R.
Proof. intros Hf s Hs. apply spec_ask. auto. Qed.
Lemma sound_modify f : (∀ s, only_put s → only_put (f s)) → sound (modify f) any.
Proof. intros Hf s Hs. apply spec_modify. auto. Qed.
Lemma sound_for_each {X} (f : X → run St unit) (l : list X) :
  (∀ x, x ∈ l → sound (f x) any) → sound (for_each f l) any.
Proof.
  induction l as [|x l IH]; intros Hf; cbn [for_each]; [by apply sound_ret|].
  eapply sound_bind; [apply Hf; by constructor|]. intros _ _. apply IH. intros y Hy. apply Hf. by constructor.
Qed.
Lemma sound_mono {A} (m : run St A) (R R' : A → Prop) : sound m R → (∀ a, R a → R' a) → sound m R'.
Proof. intros Hm Hr s Hs. eapply spec_mono; [by apply Hm| |done|done]. intros a s' []. auto. Qed.

(** *** Calls on the files *)

Lemma put_files s f :
  only_put s → (∀ k i c, copies f k i c → known k c) → only_put (Index.mkSt f (Index.ids s) (Index.mgr s)).
Proof. by intros [] Hf. Qed.

Lemma load_sound k i : sound (Index.on_files (acc_load k i)) (known k).
Proof.
  intros s Hs. apply spec_zoom.
  pose proof (spec_also _ _ _ _ _ _ (load_law (form:=stored_of MM) k i (Index.files s)) (load_copies k i (Index.files s))) as Hl.
  assert (Hp : ∀ f, no_new (Index.files s) f → only_put (Index.mkSt f (Index.ids s) (Index.mgr s))).
  { intros f Hf. apply put_files; [done|]. intros k' j c Hc%Hf. by eapply op_copies. }
  eapply spec_mono; [exact Hl|..].
  - intros c f [(_ & Hc & _) Hf]. split; [by eapply op_copies|by apply Hp].
  - intros e f [_ Hf]. by apply Hp.
  - intros f [_ Hf]. by apply Hp.
Qed.
Lemma remove_sound i : sound (Index.remove_tab i) any.
Proof.
  intros s Hs. apply spec_zoom.
  pose proof (spec_also _ _ _ _ _ _ (remove_law (form:=stored_of MM) KTab i (Index.files s)) (remove_copies KTab i (Index.files s))) as Hl.
  assert (Hp : ∀ f, no_new (Index.files s) f → only_put (Index.mkSt f (Index.ids s) (Index.mgr s))).
  { intros f Hf. apply put_files; [done|]. intros k' j c Hc%Hf. by eapply op_copies. }
  eapply spec_mono; [exact Hl|..].
  - intros u f [_ Hf]. split; [done|by apply Hp].
  - intros e f [_ Hf]. by apply Hp.
  - intros f [_ Hf]. by apply Hp.
Qed.

Lemma known_set k n a (c : IItem MM k) : known k (set_item n a c) ↔ known k c.
Proof. by destruct k. Qed.
Lemma known_form k (c : IItem MM k) : known k (stored_of MM k c) ↔ known k c.
Proof. by destruct k. Qed.
Lemma save_sound k (c : IItem MM k) : known k c → sound (Index.on_files (acc_save k c)) (λ r, known k r.1).
Proof.
  intros Hc s Hs. unfold spec, Index.on_files, zoom.
  pose proof (save_copies (form:=stored_of MM) k c (Index.files s) known (op_copies _ Hs)) as Hcp.
  destruct (acc_save k c (Index.files s)) as [r f] eqn:He. cbn [snd] in Hcp.
  assert (Hp : only_put (Index.mkSt f (Index.ids s) (Index.mgr s))).
  { apply put_files; [done|]. intros k' i d Hd. eapply Hcp; [|exact Hd]. apply known_form. unfold next_item. by apply known_set. }
  destruct r as [[[d r]|e|]|]; [|done..]. split; [|done]. cbn.
  destruct (save_item_law (form:=stored_of MM) k c _ _ _ _ He) as (n & a & ->). by apply known_set.
Qed.

Lemma draw_sound : sound Index.draw_id any.
Proof. intros s [? ? ?]. unfold spec, Index.draw_id. destruct (new_eid (Index.ids s)). split; [done|]. by split. Qed.
Lemma set_lsmt_sound (x : Lsmt) : sound (Index.set_lsmt x) any.
Proof. apply sound_modify. by intros s []. Qed.
Lemma set_memtab_sound (t : MemTab MM) : memtab_known t → sound (Index.set_memtab t) any.
Proof. intros Ht. apply sound_modify. by intros s []. Qed.
Lemma set_cache_sound c :
  (∀ i t, lm_get i (Lru.map c) = Some t → tab_known t) → sound (Index.set_cache c) any.
Proof. intros Hc. apply sound_modify. by intros s []. Qed.
Lemma the_any {A} (f : Index.IndexMgr MM TM → A) : sound (Index.the f) any.
Proof. by apply sound_ask. Qed.
Lemma lift_any {A} (r : res A) : sound (lift r) any.
Proof. by apply sound_lift. Qed.
Lemma lvls_sound : sound Index.lvls any.
Proof. apply the_any. Qed.
Lemma level_sound n : sound (Index.level n) any.
Proof. eapply sound_bind; [apply lvls_sound|]. intros ls _. apply lift_any. Qed.
Lemma set_level_sound n l : sound (Index.set_level n l) any.
Proof.
  eapply sound_bind; [apply the_any|]. intros t _. eapply sound_bind; [apply lift_any|]. intros x _. apply set_lsmt_sound.
Qed.

Create HintDb sound discriminated.
#[local] Hint Resolve draw_sound set_lsmt_sound the_any lift_any lvls_sound level_sound set_level_sound remove_sound : sound.
(** A step whose value does not matter. *)
Ltac quiet := eapply sound_bind; [solve [eauto with sound]|]; intros ? _.

(** ** The operations *)

Lemma load_tab_sound i : sound (Index.load_tab i) tab_known.
Proof. apply (load_sound KTab). Qed.
Lemma save_tab_sound t : tab_known t → sound (Index.save_tab t) tab_known.
Proof.
  intros Ht. eapply sound_bind; [by apply (save_sound KTab t)|]. intros [d r] Hd. quiet. by apply sound_ret.
Qed.
Lemma push_sound n t : sound (Index.push n t) any.
Proof. unfold Index.push. quiet. quiet. apply set_level_sound. Qed.

Lemma cached_tab_sound i : sound (Index.cached_tab i) tab_known.
Proof.
  unfold Index.cached_tab.
  assert (Hget : ∀ c : Lru.Lru TM, (∀ i t, lm_get i (Lru.map c) = Some t → tab_known t) →
    sound (let '(o, c) := Lru.get_refresh (K:=Eid) (V:=Tab) i c in _ ← Index.set_cache c; lift (unwrap o)) tab_known).
  { intros c Hc. pose proof (lru_refresh_val i c) as Hv. pose proof (λ j, lru_get_refresh i j c) as Hg.
    destruct (Lru.get_refresh i c) as [o c']. cbn [fst snd] in *. eapply sound_bind.
    - apply set_cache_sound. intros j t. rewrite Hg. apply Hc.
    - intros _ _. apply sound_lift. intros t Ht. destruct o; [|done]. injection Ht as ->. by apply (Hc i). }
  eapply sound_bind; [apply the_any|]. intros c0 _. eapply (sound_bind _ _ any).
  - case_match; [by apply sound_ret|]. eapply sound_bind; [apply load_tab_sound|]. intros t Ht.
    eapply (sound_bind _ _ (λ c, ∀ i t, lm_get i (Lru.map c) = Some t → tab_known t)).
    { apply sound_ask. intros s Hs. apply (op_cache _ Hs). }
    intros c Hc. eapply (sound_bind _ _ (λ oc, Lru.insert i t c = Ok oc)); [by apply sound_lift|].
    intros [o c'] Hi. apply set_cache_sound. intros j t' [[-> ->]|Hj]%(lru_insert_sub _ _ _ _ _ Hi); [done|by apply (Hc j)].
  - intros _ _. eapply (sound_bind _ _ (λ c, ∀ i t, lm_get i (Lru.map c) = Some t → tab_known t)); [|apply Hget].
    apply sound_ask. intros s Hs. apply (op_cache _ Hs).
Qed.

Lemma find_in_tabs_sound i l :
  sound (Index.find_in_tabs i l) (λ o, ∀ a, o = Some a → P (i, a)).
Proof.
  induction l as [|x l IH]; cbn [Index.find_in_tabs]; [by apply sound_ret|].
  eapply sound_bind; [apply cached_tab_sound|]. intros t Ht. destruct (Tab.search t i) as [a|] eqn:Hs; [|done].
  apply sound_ret. intros a' [= <-]. apply search_sound in Hs. unfold tab_known in Ht. rewrite Forall_forall in Ht. by apply Ht.
Qed.
Lemma find_in_levels_sound i ls : sound (Index.find_in_levels i ls) (λ a, P (i, a) ∧ a ≠ []).
Proof.
  induction ls as [|l ls IH]; cbn [Index.find_in_levels]; [apply sound_fail|].
  eapply sound_bind; [apply find_in_tabs_sound|]. intros [[|b a]|] Ho; [apply sound_fail| |done].
  apply sound_ret. split; [by apply Ho|done].
Qed.

Lemma load_items_sound l acc : Forall P acc → sound (Index.load_items l acc) (Forall P).
Proof.
  revert acc. induction l as [|x l IH]; intros acc Ha; cbn [Index.load_items]; [by apply sound_ret|].
  eapply sound_bind; [apply load_tab_sound|]. intros t Ht. apply IH, Forall_app. done.
Qed.
Lemma read_all_sound n : sound (Index.read_all_tabs_in_level n) tab_known.
Proof.
  unfold Index.read_all_tabs_in_level. do 3 quiet. eapply sound_bind; [by apply load_items_sound|]. intros its Hi.
  apply sound_ret. unfold tab_known. cbn. case_match; [|done]. by rewrite sort_perm.
Qed.
Lemma combine_sound l : sound (Index.combine_tabs l) tab_known.
Proof. unfold Index.combine_tabs. quiet. eapply sound_bind; [by apply load_items_sound|]. intros its Hi. by apply sound_ret. Qed.
Lemma merge_sound t o : tab_known t → tab_known o → sound (Index.merge t o) tab_known.
Proof.
  unfold Index.merge, tab_known. rewrite !Forall_forall. intros Ht Ho. quiet. apply sound_ret. cbn.
  apply Forall_forall. intros it [Hin|Hin]%merge_elem; auto.
Qed.
Lemma tabs_of_sound its : Forall (Forall P) its → sound (Index.tabs_of its) (Forall tab_known).
Proof.
  induction 1 as [|x its Hx Hall IH]; cbn [Index.tabs_of]; [by apply sound_ret|]. quiet.
  eapply sound_bind; [exact IH|]. intros ts Hts. apply sound_ret. by constructor.
Qed.
Lemma divide_sound t n : tab_known t → sound (Index.divide t n) (Forall tab_known).
Proof.
  intros Ht. unfold Index.divide. quiet. apply tabs_of_sound. apply Forall_forall. intros c Hc.
  unfold tab_known in Ht. rewrite Forall_forall in Ht |- *. intros it Hit. by eapply Ht, chunks_elem.
Qed.
Lemma clear_sound n : sound (Index.clear n) any.
Proof.
  unfold Index.clear. quiet. eapply sound_bind; [apply sound_for_each; intros x _; apply remove_sound|]. intros _ _.
  apply set_level_sound.
Qed.
Lemma find_overlapping_sound n t : sound (Index.find_overlapping n t) any.
Proof. unfold Index.find_overlapping. do 3 quiet. by apply sound_ret. Qed.
#[local] Hint Resolve clear_sound find_overlapping_sound push_sound : sound.

Lemma compact_sound n : sound (Index.compact n) any.
Proof.
  unfold Index.compact. eapply sound_bind; [apply read_all_sound|]. intros t Ht. do 2 quiet. case_match.
  - eapply sound_bind; [by apply save_tab_sound|]. intros t' _. do 3 quiet. apply set_lsmt_sound.
  - quiet. eapply sound_bind; [apply combine_sound|]. intros o Ho. eapply sound_bind; [by apply merge_sound|]. intros m Hm.
    eapply sound_bind.
    { apply sound_for_each. intros x _. unfold Index.drop_overlap. do 3 quiet. apply set_level_sound. }
    intros _ _. do 2 quiet. eapply sound_bind; [by apply divide_sound|]. intros ts Hts.
    eapply sound_bind; [|intros _ _; apply clear_sound]. apply sound_for_each. intros x Hx. unfold Index.store_chunk.
    eapply sound_bind; [apply save_tab_sound|intros y _; apply push_sound]. rewrite Forall_forall in Hts. by apply Hts.
Qed.

Lemma extract_young_sound : sound Index.extract_young tab_known.
Proof.
  unfold Index.extract_young. quiet. eapply (sound_bind _ _ memtab_known); [apply sound_ask; by intros s []|].
  intros t Ht. eapply (sound_bind _ _ (Forall P)); [|intros its Hi; by apply sound_ret]. apply sound_lift.
  unfold MemTab.young_items. intros its Hi. destruct (u_sub _ _) as [n| |]; [|done..]. injection Hi as <-.
  rewrite sort_perm. apply Forall_forall. intros [j b] Hin. apply Ht, lm_get_elem.
  by apply (elem_of_submseteq _ _ _ Hin), sublist_submseteq, sublist_take.
Qed.
Lemma push_young_sound t : tab_known t → sound (Index.push_young t) tab_known.
Proof.
  intros Ht. unfold Index.push_young. eapply (sound_bind _ _ tab_known).
  - unfold Index.add_young. eapply sound_bind; [by apply save_tab_sound|]. intros y Hy. quiet. by apply sound_ret.
  - intros y Hy. eapply (sound_bind _ _ any); [|intros _ _; by apply sound_ret]. unfold Index.compact_levels. quiet.
    apply sound_for_each. intros k _. unfold Index.compact_if_full. do 2 quiet.
    case_match; [apply compact_sound|by apply sound_ret].
Qed.
Lemma save_lsmt_sound : sound Index.save_lsmt any.
Proof.
  unfold Index.save_lsmt. quiet. eapply sound_bind; [by apply (save_sound KLsmt)|]. intros [x r] _. quiet. apply lift_any.
Qed.
Lemma save_memtab_sound : sound Index.save_memtab any.
Proof.
  unfold Index.save_memtab. eapply (sound_bind _ _ memtab_known); [apply sound_ask; by intros s []|]. intros t Ht.
  eapply sound_bind; [by apply (save_sound KMemTab t)|]. intros [x r] Hx.
  eapply sound_bind; [by apply set_memtab_sound|]. intros _ _. apply lift_any.
Qed.

(** Removing entries adds none. *)
Lemma evict_known t (m : MemTab MM) : memtab_known m → memtab_known (MemTab.evict_young t m).
Proof.
  intros Hm i a. unfold mem_get, MemTab.evict_young. cbn. assert (Hm' : ∀ i a, lm_get i (MemTab.map m) = Some a → P (i, a)) by exact Hm.
  clear Hm. revert Hm'. generalize (MemTab.map m). induction (Tab.items t) as [|it l IH]; intros mm Hmm; cbn; [apply Hmm|].
  apply IH. intros j b. rewrite lm_get_remove. case_decide; [done|]. apply Hmm.
Qed.

Lemma insert_sound i (a : bytes) : P (i, a) → sound (Index.insert i a) any.
Proof.
  intros Hp. unfold Index.insert. eapply (sound_bind _ _ memtab_known); [apply sound_ask; by intros s []|]. intros t Ht.
  eapply sound_bind.
  { apply set_memtab_sound. intros j b. rewrite mem_insert. case_decide; [intros [= <-]; by subst|apply Ht]. }
  intros _ _. case_match; [by apply sound_ret|]. eapply sound_bind; [apply extract_young_sound|]. intros y Hy.
  eapply sound_bind; [by apply push_young_sound|]. intros y' _. eapply sound_bind; [apply save_lsmt_sound|]. intros _ _.
  eapply (sound_bind _ _ memtab_known); [apply sound_ask; by intros s []|]. intros t' Ht'.
  by apply set_memtab_sound, evict_known.
Qed.
Lemma get_sound i : sound (Index.get i) (λ a, P (i, a) ∧ a ≠ []).
Proof.
  unfold Index.get. eapply (sound_bind _ _ memtab_known); [apply sound_ask; by intros s []|]. intros t Ht.
  destruct (mem_refresh t i) as (Hv & Hg & _). destruct (MemTab.get_address i t) as [o t']. cbn [fst snd] in *.
  eapply sound_bind; [apply set_memtab_sound; intros j b; rewrite Hg; apply Ht|]. intros _ _.
  destruct o as [[|b a]|]; [apply sound_fail|apply sound_ret; split; [by apply Ht|done]|].
  unfold Index.lsmt_get_address. quiet. apply find_in_levels_sound.
Qed.
Lemma flush_sound : sound Index.flush any.
Proof.
  unfold Index.flush. quiet. case_match; [|by apply sound_ret]. eapply sound_bind; [apply save_memtab_sound|]. intros _ _.
  eapply (sound_bind _ _ memtab_known); [apply sound_ask; by intros s []|]. intros t Ht. by apply set_memtab_sound.
Qed.
Lemma open_sound : sound Index.open any.
Proof.
  unfold Index.open. eapply (sound_bind _ _ any).
  { unfold Index.lsmt_open. quiet. eapply sound_bind; [apply (load_sound KLsmt)|]. intros x _. apply set_lsmt_sound. }
  intros _ _. quiet.
  eapply sound_bind; [apply (load_sound KMemTab)|]. intros t Ht. by apply set_memtab_sound.
Qed.
(** A new manager over the same files. *)
Lemma restarted_put s : only_put s → only_put (restarted s).
Proof.
  intros [_ Hc _]. split; [|exact Hc|]; unfold memtab_known, mem_get, cache_at, Lru.new; cbn; intros i a; by rewrite lm_get_new.
Qed.

(** ** Any calls, whatever fails *)

Definition call_put (c : Call) : Prop :=
  match c with Insert i a => P (i, a) | Delete i => P (i, []) | _ => True end.
(** The calls one after another, each with its result, an error included. *)
Fixpoint try_calls (cs : list Call) : run St (list (Call * res (option bytes))) :=
  match cs with
  | [] => mret []
  | c :: cs => r ← attempt (run_call c); rs ← try_calls cs; mret ((c, r) :: rs)
  end.
Definition honest (cr : Call * res (option bytes)) : Prop :=
  ∀ i a, cr = (Get i, Ok (Some a)) → a ≠ [] ∧ P (i, a).

Lemma attempt_sound {A} (m : run St A) (R : A → Prop) : sound m R → sound (attempt m) (λ r, ∀ a, r = Ok a → R a).
Proof.
  intros Hm s Hs. apply spec_attempt. eapply spec_mono; [by apply Hm|..|done].
  - intros a s' [Ha Hs']. split; [|done]. by intros ? [= <-].
  - intros e s' Hs'. done.
Qed.
Lemma call_sound c : call_put c → sound (run_call c) (λ o, honest (c, Ok o)).
Proof.
  destruct c as [i|i a|i|]; cbn [call_put run_call]; intros Hp.
  - eapply sound_bind; [apply attempt_sound, get_sound|]. intros [a|e|] Ha; [|destruct e; try apply sound_fail|by apply sound_lift].
    + apply sound_ret. intros j b [= <- <-]. destruct (Ha a eq_refl). done.
    + by apply sound_ret.
  - eapply sound_bind; [by apply insert_sound|]. intros _ _. by apply sound_ret.
  - eapply sound_bind; [by apply insert_sound|]. intros _ _. by apply sound_ret.
  - eapply (sound_bind _ _ any); [|intros _ _; by apply sound_ret]. unfold reopen.
    eapply sound_bind; [apply flush_sound|]. intros _ _. eapply sound_bind; [|intros _ _; apply open_sound].
    apply sound_modify, restarted_put.
Qed.

(** C16: [IndexMgr], whatever fails. Over any calls, closing and opening the index included, whose files
    may fail or lose what they were to save, an address that is got is one that was put
    for that very id, and not a deletion; when the machine stops this is so of what a new
    manager opens. *)
Theorem index_never_invents s cs :
  only_put s → Forall call_put cs →
  spec (try_calls cs) s (λ rs s', Forall honest rs ∧ only_put s') (λ _, only_put) (λ s', only_put (restarted s')).
Proof.
  intros Hs Hcs. enough (sound (try_calls cs) (Forall honest)) as Hsd.
  { eapply spec_mono; [by apply Hsd|done|done|]. intros s'. apply restarted_put. }
  clear Hs s. induction Hcs as [|c cs Hc Hcs IH]; cbn [try_calls]; [by apply sound_ret|].
  eapply sound_bind; [apply attempt_sound, call_sound, Hc|]. intros r Hr.
  eapply sound_bind; [exact IH|]. intros rs Hrs. apply sound_ret. constructor; [|done].
  intros i a [= -> ->]. by apply (Hr _ eq_refl).
Qed.
End safe.

(** ** A new index *)

Section init.
Context {F G MM TM : Type} `{!Accessor F (IItem MM), !AccessorLaws F (IItem MM) (stored_of MM)}.
Context `{!EidSource G, !EidSourceLaws G}.
Context `{!LinkedMapOps Eid bytes MM, !LinkedMap Eid bytes MM, !LinkedMapOps Eid Tab TM, !LinkedMap Eid Tab TM}.
Abbreviation St := (Index.St F G MM TM).
Implicit Types (s : St) (i : Eid).

Definition blank (i1 i2 : Eid) : Index.IndexMgr MM TM :=
  Index.mkMgr (mkLsmt i1 0 Arm.default [Level.new 0]) (Lru.new (K:=Eid) (V:=Tab) Lsmt.TAB_CACHE_SIZE)
    (mkMemTab i2 0 Arm.default lm_new false).

Lemma new_save k s (c : IItem MM k) :
  running s → held (Index.files s) k !! item_id c = None → item_seq c = 0 →
  spec (Index.on_files (acc_save k c)) s
    (λ r s', r = (next_item c, Ok ()) ∧ held (Index.files s') k !! item_id c = Some (stored_of MM k (next_item c)) ∧
       apart k (item_id c) (Index.files s) (Index.files s') ∧ Index.ids s' = Index.ids s ∧ Index.mgr s' = Index.mgr s)
    (λ _ _, False) (λ _, False).
Proof.
  intros Hr Hn Hseq. apply spec_zoom. eapply spec_mono; [apply (save_law (form:=stored_of MM) k c (Index.files s))|..].
  - intros d Hd. congruence.
  - intros [d r] f' [Hap Hcase]. cbn [fst snd] in Hcase. destruct r as [[]|e|]; [|by destruct Hcase as (_ & ? & _)|done].
    destruct Hcase as [-> Hh]. done.
  - by intros.
  - intros f' ([|Hu] & _); [done|]. rewrite Hseq in Hu. by vm_compute in Hu.
Qed.

(** Saving a new manager makes the index of the empty map. *)
Lemma init_empty s i1 i2 :
  running s → (∀ j, tabs_at s !! j = None) → saved_lsmt s i1 = None → saved_memtab s i2 = None →
  Index.mgr s = blank i1 i2 →
  spec Index.init s (λ _ s', index_ok 1 s' ∧ represents s' ∅) (λ _ _, False) (λ _, False).
Proof.
  intros Hr HT Hl Hm Hmgr. unfold Index.init, Index.save_lsmt, Index.save_memtab.
  apply spec_bind, spec_bind, spec_ask, spec_bind. rewrite Hmgr. cbn [blank Index.lsmt].
  eapply spec_mono; [apply (new_save KLsmt); [done|exact Hl|done]| |done|done].
  intros r s1 (-> & Hh1 & [Hap1 Hw1] & Hi1 & Hm1). apply spec_bind, spec_modify, spec_lift_ok, spec_bind, spec_ask, spec_bind.
  cbn [Index.memtab Index.mgr]. rewrite Hm1, Hmgr. cbn [blank Index.memtab].
  eapply spec_mono; [apply (new_save KMemTab); [by apply Hw1| |done]| |done|done].
  { etrans; [apply Hap1; by left|exact Hm]. }
  intros r s2 (-> & Hh2 & [Hap2 Hw2] & Hi2 & Hm2). apply spec_bind, spec_modify, spec_lift_ok.
  match goal with |- index_ok _ ?x ∧ _ => set (s3 := x) end.
  assert (Hm3 : Index.mgr s3 = Index.mkMgr (mkLsmt i1 1 Arm.Right [Level.new 0])
    (Lru.new (K:=Eid) (V:=Tab) Lsmt.TAB_CACHE_SIZE) (mkMemTab i2 1 Arm.Right lm_new false)).
  { unfold s3. cbn. by rewrite Hm2. }
  assert (HT3 : ∀ j, tabs_at s3 !! j = None).
  { intros j. etrans; [apply (Hap2 KTab); by left|]. etrans; [apply (Hap1 KTab); by left|apply HT]. }
  assert (Hg : ∀ j, mem_get (memtab_at s3) j = None) by (intros j; unfold memtab_at, mem_get; rewrite Hm3; apply lm_get_new).
  assert (Hlen : MemTab.len (memtab_at s3) = 0).
  { unfold memtab_at, MemTab.len. rewrite Hm3. cbn. by rewrite lm_entries_new. }
  assert (Hlv : lvls_at s3 = [Level.new 0]) by (unfold lvls_at; by rewrite Hm3).
  split.
  - split.
    + split; unfold cache_at; rewrite ?Hm3; [by apply Hw2, Hw1|by apply lru_fits_new|..].
      * intros i t. cbn. by rewrite lm_get_new.
      * intros i t. by rewrite HT3.
    + rewrite Hlv. split; try done.
      * intros [|j] l Hj; [by injection Hj as <-|done].
      * intros l ->%list_elem_of_singleton. constructor.
      * constructor.
    + by rewrite Hlen.
    + by rewrite Hlv.
    + unfold saved_lsmt, lsmt_at. rewrite Hm3. cbn. etrans; [apply (Hap2 KLsmt); by left|exact Hh1].
    + unfold saved_memtab, memtab_at. rewrite Hm3. eexists. split; [exact Hh2|]. unfold flushed, memtab_at. rewrite Hm3.
      split_and!; try done. unfold MemTab.len. cbn. by rewrite lm_entries_new.
    + unfold lsmt_at, memtab_at. rewrite Hm3. done.
  - intros i. unfold view, look. by rewrite Hg, Hlv.
Qed.
End init.
