(* ===== verification/IndexDemo.v ===== *)
(** * The index over files that fail by plan: witnesses, and runs in which compaction loses addresses. *)
From S2P Require Import Prelude Run Base Crypto Armor Storage StorageProofs Index IndexTree IndexProofs IndexSpec IndexSafe.

(** ** Files in memory *)

Abbreviation mem_map := (AssocMap.amap Eid bytes).
Abbreviation tab_map := (AssocMap.amap Eid Tab).

(** Of a list without an id twice the first match is the only one. *)
Fixpoint del_first (i : Eid) (l : list (Eid * bytes)) : list (Eid * bytes) :=
  match l with [] => [] | (j, a) :: l => if j =? i then l else (j, a) :: del_first i l end.
Lemma del_first_ok i l : NoDup l.*1 → del_first i l = assoc_del i l.
Proof.
  induction l as [|[j a] l IH]; [done|]. cbn [fmap list_fmap fst del_first]. intros [Hni Hnd]%NoDup_cons.
  unfold assoc_del in *. rewrite filter_cons. cbn [fst]. destruct (Z.eqb_spec j i) as [->|Hne].
  - rewrite decide_False by (intros H; by apply H). symmetry. apply filter_keep, Forall_forall. intros [k b] Hin Heq. cbn in Heq. subst k.
    apply Hni. apply list_elem_of_fmap. by exists (i, b).
  - rewrite decide_True by done. by rewrite IH.
Qed.
Lemma del_first_nodup i (m : mem_map) : NoDup (del_first i (AssocMap.am_list m)).*1.
Proof. rewrite del_first_ok by apply AssocMap.am_nodup. apply NoDup_assoc_filter, AssocMap.am_nodup. Qed.
#[export] Instance quick_ops : LinkedMapOps Eid bytes mem_map := {|
  lm_entries := AssocMap.am_list;
  lm_new := AssocMap.AMap _ _ [] (NoDup_nil_2);
  lm_insert k v m := lm_insert k v m;
  lm_or_insert k v m := lm_or_insert k v m;
  lm_get_refresh k m := lm_get_refresh k m;
  lm_remove k m := (assoc k (AssocMap.am_list m), AssocMap.AMap _ _ (del_first k (AssocMap.am_list m)) (del_first_nodup k m));
  lm_pop_front m := lm_pop_front m;
  lm_retain f m := lm_retain f m
|}.
#[export] Instance quick_laws : LinkedMap Eid bytes mem_map.
Proof. split; try done; [apply AssocMap.am_nodup|]. intros k m. apply del_first_ok, AssocMap.am_nodup. Qed.

(** What becomes of the next call: it works, fails with nothing done, or the machine stops. *)
Inductive Fate : Set := Works | Fails | Stops.
#[export] Instance Fate_eq_dec : EqDecision Fate.
Proof. solve_decision. Defined.

Record Files := mkFiles {
  f_lsmts : gmap Eid Lsmt; f_memtabs : gmap Eid (MemTab mem_map); f_tabs : gmap Eid Tab; plan : list Fate
}.
Definition store (f : Files) (k : IKind) : gmap Eid (IItem mem_map k) :=
  match k with KLsmt => f_lsmts f | KMemTab => f_memtabs f | KTab => f_tabs f end.
Definition set_store (k : IKind) : gmap Eid (IItem mem_map k) → Files → Files :=
  match k with
  | KLsmt => λ m f, mkFiles m (f_memtabs f) (f_tabs f) (plan f)
  | KMemTab => λ m f, mkFiles (f_lsmts f) m (f_tabs f) (plan f)
  | KTab => λ m f, mkFiles (f_lsmts f) (f_memtabs f) m (plan f)
  end.
Definition next_fate (f : Files) : Fate := default Works (head (plan f)).
Definition tick (f : Files) : Files := mkFiles (f_lsmts f) (f_memtabs f) (f_tabs f) (tail (plan f)).
Definition all_work (f : Files) : Prop := Forall (eq Works) (plan f).

(** A call with its fate. *)
Definition fated {A} (a : A) (g : Files → Files) (e : Error) : run Files A := λ f,
  match next_fate f with
  | Works => (Some (Ok a), g (tick f))
  | Fails => (Some (Err e), tick f)
  | Stops => (None, tick f)
  end.

#[export] Instance files_accessor : Accessor Files (IItem mem_map) := {|
  acc_set_crypto_ctx _ _ _ := mret ();
  acc_load k i := λ f,
    match next_fate f with
    | Works => (Some (ok_or NotFound (store f k !! i)), tick f)
    | Fails => (Some (Err Io), tick f)
    | Stops => (None, tick f)
    end;
  acc_save k c := λ f,
    if U64 <=? item_seq c + 1 then (Some Panic, f)
    else match next_fate f with
    | Works => (Some (Ok (next_item c, Ok ())), set_store k (<[item_id c := stored_of mem_map k (next_item c)]> (store f k)) (tick f))
    | Fails => (Some (Ok (set_item (item_seq c + 1) (item_arm c) c, Err Io)), tick f)
    | Stops => (None, tick f)
    end;
  acc_remove k i := fated () (λ f, set_store k (delete i (store f k)) f) Io
|}.

Lemma store_tick f k : store (tick f) k = store f k.
Proof. by destruct k. Qed.
Lemma store_set f k m : store (set_store k m f) k = m.
Proof. by destruct k. Qed.
Lemma store_set_ne f k k' m : k' ≠ k → store (set_store k m f) k' = store f k'.
Proof. by destruct k, k'. Qed.
Lemma plan_set f k m : plan (set_store k m f) = plan f.
Proof. by destruct k. Qed.
Lemma work_tick f : all_work f → all_work (tick f).
Proof. unfold all_work. cbn. destruct (plan f); [done|]. by intros [_ ?]%Forall_cons. Qed.
Lemma work_fate f : all_work f → next_fate f = Works.
Proof. unfold all_work, next_fate. destruct (plan f); [done|]. by intros [<- _]%Forall_cons. Qed.
Lemma work_set f k m : all_work f → all_work (set_store k m f).
Proof. unfold all_work. by rewrite plan_set. Qed.

#[export] Program Instance files_laws : AccessorLaws Files (IItem mem_map) (stored_of mem_map) := {|
  held := store; copies f k i c := store f k !! i = Some c; working := all_work
|}.
Next Obligation.
  intros k i f. unfold spec. cbn. destruct (next_fate f) eqn:Hf.
  - destruct (store f k !! i) eqn:Hs; cbn; [split; [by left|]; split; [done|]|split; [by left|]];
      (split; [intros; apply store_tick|apply work_tick]).
  - assert (¬ all_work f) by (intros Hw%work_fate; congruence).
    split; [by right|]. split; [intros; apply store_tick|apply work_tick].
  - assert (¬ all_work f) by (intros Hw%work_fate; congruence).
    split; [done|]. split; [intros; apply store_tick|apply work_tick].
Qed.
Next Obligation.
  intros k i f k' i' c. cbn. destruct (next_fate f); cbn; by rewrite store_tick.
Qed.
Next Obligation.
  intros k c f _. unfold spec. cbn. destruct (U64 <=? item_seq c + 1) eqn:Hu; zify_b.
  { split; [by right|]. split; [by split|]. by left. }
  destruct (next_fate f) eqn:Hf; cbn.
  - split; [split|split; [done|by rewrite store_set, lookup_insert_eq]].
    + intros k' i' Hne. destruct (decide (k' = k)) as [->|].
      * rewrite store_set, lookup_insert_ne; [done|]. by destruct Hne.
      * by rewrite store_set_ne, store_tick.
    + intros Hw. by apply work_set, work_tick.
  - assert (¬ all_work f) by (intros Hw%work_fate; congruence).
    split; [split; [intros; by rewrite store_tick|apply work_tick]|]. split; [done|]. split; [done|]. left. by rewrite store_tick.
  - assert (¬ all_work f) by (intros Hw%work_fate; congruence).
    split; [by left|]. split; [split; [intros; by rewrite store_tick|apply work_tick]|]. left. by rewrite store_tick.
Qed.
Next Obligation.
  intros k c d f f' r. cbn. destruct (U64 <=? item_seq c + 1); [done|].
  destruct (next_fate f); intros [= <- <- <-]; unfold next_item; eauto.
Qed.
Next Obligation.
  intros k c f P Hall Hc k' i d. cbn. destruct (U64 <=? item_seq c + 1); cbn; [apply Hall|].
  destruct (next_fate f); cbn; rewrite ?store_tick; [|apply Hall..].
  destruct (decide (k' = k)) as [->|Hne]; [|rewrite store_set_ne, store_tick by done; apply Hall].
  rewrite store_set. intros [[_ <-]|[_ Hd]]%lookup_insert_Some; [done|]. by eapply Hall.
Qed.
Next Obligation.
  intros k i f. unfold spec. cbn. unfold fated. destruct (next_fate f) eqn:Hf.
  - split; [split|by rewrite store_set, lookup_delete_eq].
    + intros k' i' Hne. destruct (decide (k' = k)) as [->|].
      * rewrite store_set, lookup_delete_ne, store_tick; [done|]. by destruct Hne.
      * by rewrite store_set_ne, store_tick.
    + intros Hw. by apply work_set, work_tick.
  - assert (¬ all_work f) by (intros Hw%work_fate; congruence).
    split; [|done]. split; [intros; by rewrite store_tick|apply work_tick].
  - assert (¬ all_work f) by (intros Hw%work_fate; congruence).
    split; [|done]. split; [intros; by rewrite store_tick|apply work_tick].
Qed.
Next Obligation.
  intros k i f k' i' c. cbn. unfold fated. destruct (next_fate f); cbn; rewrite ?store_tick; [|done..].
  destruct (decide (k' = k)) as [->|Hne].
  - rewrite store_set. by intros [_ ?]%lookup_delete_Some.
  - by rewrite store_set_ne, store_tick.
Qed.

(** Ids in sequence. *)
#[export] Instance count_ids : EidSource Z := λ g, (g, g + 1).
#[export] Program Instance count_ids_laws : EidSourceLaws Z := {| spent g i := i < g |}.
Next Obligation. intros g. cbn. lia. Qed.
Next Obligation. intros g i. cbn. lia. Qed.

(** ** Witnesses *)

Abbreviation Demo := (Index.St Files Z mem_map tab_map).
Definition manager : Index.IndexMgr mem_map tab_map := blank 1 2.
(** A new index over empty files; ids for tabs are from 10 on. *)
Definition started (p : list Fate) : Demo := Index.mkSt (mkFiles ∅ ∅ ∅ p) 10 manager.
Definition opened : Demo := (Index.init (started [])).2.

Lemma opened_index : index_ok 1 opened ∧ represents opened ∅.
Proof.
  pose proof (init_empty (started []) 1 2 (Forall_nil_2 _) (λ _, lookup_empty _) (lookup_empty _) (lookup_empty _) eq_refl) as Hi.
  eapply spec_value in Hi; [exact Hi|]. by vm_compute.
Qed.

(** *** An index that has grown *)

(** Ids from [b] on, [d] apart, with the address [f] gives each. *)
Definition row (b d n : Z) (f : Eid → bytes) : list TabItem := (λ k, let i := b + d * k in (i, f i)) <$> seqZ 0 n.
Definition tab (i : Eid) (l : list TabItem) : Tab := mkTab i 1 Arm.Right l.
Definition info (t : Tab) : TabInfo := match TabInfo.new t with Ok ti => ti | _ => TabInfo.mkInfo 0 0 0 0 end.

(** Three young tabs, two of level 1 whose ids they share in part, and one of level 2. One young tab
    changes the ids that 4 divides, and deletes those that 8 divides. *)
Definition tabs0 : list Tab :=
  [tab 23 (row 1 2 1024 (λ _, [2])); tab 24 (row 10000 1 1024 (λ _, [2]));
   tab 25 (row 0 4 1024 (λ i, if i mod 8 =? 0 then [] else [3]))].
Definition tabs1 : list Tab := [tab 20 (row 0 2 1024 (λ _, [1])); tab 21 (row 2048 2 1024 (λ _, [1]))].
Definition tabs2 : list Tab := [tab 22 (row 6000 1 1024 (λ _, [4]))].
Definition levels : list Level :=
  [Level.mkLevel 0 (info <$> tabs0); Level.mkLevel 1 (info <$> tabs1); Level.mkLevel 2 (info <$> tabs2)].
Definition tabs_of (ts : list Tab) : gmap Eid Tab := list_to_map ((λ t, (Tab.id t, t)) <$> ts).
Definition all_tabs : gmap Eid Tab := tabs_of (tabs0 ++ tabs1 ++ tabs2).
(** One entry less than the table in memory can have. *)
Definition entries : list TabItem := row 20000 1 1024 (λ _, [5]) ++ row 30000 1 3071 (λ _, [5]).
(** Whether neighbours are in order decides it for the whole list. *)
Fixpoint in_order (l : list TabItem) : bool :=
  match l with
  | x :: l' => match l' with y :: _ => (x.1 <? y.1) && in_order l' | [] => true end
  | [] => true
  end.
Lemma in_order_sorted l : in_order l = true → sorted l.
Proof.
  induction l as [|x [|y l] IH]; intros H; [constructor|repeat constructor|].
  cbn [in_order] in H. apply andb_true_iff in H as [Hlt Ho]. specialize (IH Ho). apply Z.ltb_lt in Hlt.
  apply sorted_cons. split; [done|]. apply sorted_cons in IH as [_ Hall]. constructor; [done|].
  eapply Forall_impl; [exact Hall|]. unfold id_lt. lia.
Qed.
Lemma entries_nodup : NoDup entries.*1.
Proof. apply sorted_nodup, in_order_sorted. by vm_compute. Qed.
Definition grown_memtab : MemTab mem_map := mkMemTab 2 1 Arm.Right (AssocMap.AMap _ _ entries entries_nodup) false.
Definition grown_lsmt : Lsmt := mkLsmt 1 1 Arm.Right levels.
Definition grown : Demo :=
  Index.mkSt (mkFiles {[1 := grown_lsmt]} {[2 := grown_memtab]} all_tabs []) 30
    (Index.mkMgr grown_lsmt (Lru.new (K:=Eid) (V:=Tab) Lsmt.TAB_CACHE_SIZE) grown_memtab).

(** What the theorem asks of a state, evaluated. *)
Definition described (T : gmap Eid Tab) (ti : TabInfo) : bool :=
  match T !! TabInfo.id ti with
  | Some t =>
      in_order (Tab.items t) &&
      match TabInfo.new t with
      | Ok x => (TabInfo.id x =? TabInfo.id ti) && (TabInfo.begin_ x =? TabInfo.begin_ ti) &&
                (TabInfo.end_ x =? TabInfo.end_ ti) && (TabInfo.cnt x =? TabInfo.cnt ti)
      | _ => false
      end
  | None => false
  end.
Lemma described_ok T ti : described T ti = true → info_ok T ti.
Proof.
  unfold described, info_ok. destruct (T !! TabInfo.id ti) as [t|]; [|done]. intros [Ho Hn]%andb_true_iff.
  exists t. split; [done|]. split; [by apply in_order_sorted|]. destruct (TabInfo.new t) as [x| |]; [|done..].
  rewrite !andb_true_iff, !Z.eqb_eq in Hn. destruct x, ti. cbn in Hn. destruct Hn as (((-> & ->) & ->) & ->). done.
Qed.

Definition may_merge (curr : Z) (young old deeper : list TabItem) : bool :=
  in_order (if curr =? 0 then Tab.sort_unstable young else young) && in_order old &&
  forallb (λ it, match it.2, assoc it.1 old, live (assoc it.1 deeper) with [], Some _, Some _ => false | _, _, _ => true end) young.
Lemma may_merge_ok curr young old deeper : may_merge curr young old deeper = true → mergeable curr young old deeper.
Proof.
  unfold may_merge. intros [[Hy Ho]%andb_true_iff Hd]%andb_true_iff. split; [by apply in_order_sorted..|].
  intros i Ha [a Hi]. apply assoc_Some_elem, list_elem_of_In in Ha. rewrite forallb_forall in Hd. specialize (Hd _ Ha).
  cbn [fst snd] in Hd. rewrite Hi in Hd. by destruct (live (assoc i deeper)).
Qed.
Definition may_compact (s : Demo) (k : Z) : bool :=
  match drop (Z.to_nat k) (lvls_at s) with
  | [] => true
  | c :: ls =>
      let young := all_items (tabs_at s) (Level.tabs c) in
      match ls with
      | [] => may_merge k young [] []
      | n :: ls =>
          may_merge k young
            (all_items (tabs_at s) (filter (λ x, overlaps (gathered k (tabs_at s) (Level.tabs c)) x = true) (Level.tabs n)))
            (tree_items (tabs_at s) ls)
      end
  end.
Lemma may_compact_ok s k : may_compact s k = true → compactable s k.
Proof.
  intros H ls1 c ls2 Hl Hk. unfold may_compact in H. rewrite Hl, <- Hk in H. unfold zlen in H.
  rewrite Nat2Z.id, drop_app_length in H. fold (zlen ls1) in H. rewrite Hk in H.
  cbv zeta in *. destruct ls2; by apply may_merge_ok.
Qed.
Definition full_now (s : Demo) (k : Z) : bool :=
  match lvls_at s !! Z.to_nat k with Some l => 4096 * 10 ^ k <=? cnt_of l | None => false end.
Definition tidy_now (s : Demo) : bool :=
  forallb (λ k, let s' := (for_each Index.compact_if_full (seqZ 0 k) s).2 in implb (full_now s' k) (may_compact s' k))
    (seqZ 0 (zlen (lvls_at s))).
Lemma tidy_now_ok s : tidy_now s = true → tidy s.
Proof.
  unfold tidy_now. rewrite forallb_forall. intros H k Hk s' (l & Hl & Hfull). apply may_compact_ok.
  assert (Hin : List.In k (seqZ 0 (zlen (lvls_at s)))) by (apply list_elem_of_In, elem_of_seqZ; lia).
  specialize (H _ Hin). fold s' in H. cbv zeta in H. fold s' in H. unfold full_now in H. rewrite Hl in H.
  by rewrite (proj2 (Z.leb_le _ _) Hfull) in H.
Qed.

(** A list of entries as a map: the first entry of an id counts. *)
Definition as_map (l : list TabItem) : gmap Eid bytes :=
  foldr (λ it m, match it.2 with [] => delete it.1 m | a => <[it.1 := a]> m end) ∅ l.
Lemma as_map_lookup l i : as_map l !! i = live (assoc i l).
Proof.
  induction l as [|[j a] l IH]; [apply lookup_empty|]. cbn [as_map foldr assoc fst snd]. fold (as_map l). case_decide as Hd.
  - subst j. destruct a; [apply lookup_delete_eq|apply lookup_insert_eq].
  - destruct a; [rewrite lookup_delete_ne by done|rewrite lookup_insert_ne by done]; exact IH.
Qed.
Definition grown_map : gmap Eid bytes := as_map (entries ++ tree_items all_tabs levels).

Lemma grown_index : index_ok 10 grown ∧ represents grown grown_map.
Proof.
  assert (Hinfos : Forall (info_ok all_tabs) (concat (Level.tabs <$> levels))).
  { apply Forall_forall. intros ti Hti. apply described_ok. apply list_elem_of_In in Hti. revert ti Hti.
    apply forallb_forall. by vm_compute. }
  split.
  - split.
    + split.
      * constructor.
      * by apply lru_fits_new.
      * intros i t Hi. change (lm_get i (lm_new : tab_map) = Some t) in Hi. by rewrite lm_get_new in Hi.
      * intros i t Hi. change (tabs_of (tabs0 ++ tabs1 ++ tabs2) !! i = Some t) in Hi. unfold tabs_of in Hi.
        apply elem_of_list_to_map_2 in Hi. cbn. unfold drawn; cbn.
        assert (Hall : forallb (λ x, x.1 <? 30) ((λ t, (Tab.id t, t)) <$> tabs0 ++ tabs1 ++ tabs2) = true) by by vm_compute.
        rewrite forallb_forall in Hall. apply list_elem_of_In, Hall in Hi. cbn in Hi. by apply Z.ltb_lt.
    + split.
      * intros [|[|[|j]]] l Hl; cbn in Hl; by simplify_eq.
      * intros l Hl. rewrite Forall_forall in Hinfos. apply Forall_forall. intros ti Hti. apply Hinfos.
        apply list_elem_of_In, in_concat. exists (Level.tabs l). rewrite <- !list_elem_of_In. split; [|done]. by apply list_elem_of_fmap_2.
      * apply (bool_decide_unpack _). by vm_compute.
      * intros j l Hl. apply sorted_nodup, in_order_sorted. destruct j as [|[|j]]; cbn in Hl; simplify_eq; by vm_compute.
      * by vm_compute.
      * by vm_compute.
    + by vm_compute.
    + by vm_compute.
    + by vm_compute.
    + exists grown_memtab. split; [done|]. unfold flushed. cbv zeta. split_and!; [done|done|done|by vm_compute|done].
    + by vm_compute.
  - intros i. unfold grown_map. rewrite as_map_lookup. unfold view, look, mem_get, lm_get. f_equal.
    cbn [memtab_at]. rewrite assoc_app. done.
Qed.

Definition script : list Call := [Insert 40000 [6]; Get 4; Get 8; Get 10; Get 4094; Get 20000; Reopen; Get 8; Get 6001; Insert 8 [7]; Get 8].
(** One more entry fills the table in memory: the oldest entries go to level 0 as a young tab, and level 0
    is merged into level 1. *)
Lemma index_refines_map_witness :
  tidy_run script grown ∧ full_now (pushed 40000 [6] grown) 0 = true ∧
  spec (run_calls script) grown
    (λ os s', os = [None; Some [3]; None; Some [1]; Some [1]; Some [5]; None; None; Some [4]; None; Some [7]])
    (λ _ _, False) (λ _, False).
Proof.
  assert (Htd : tidy_run script grown).
  { unfold script. cbn [tidy_run tidy_call]. split.
    - intros _. apply tidy_now_ok. by vm_compute.
    - repeat split. unfold tidy_insert. match goal with |- ?b = true → _ => assert (Hb : b = false) by by vm_compute end.
      by rewrite Hb. }
  split; [exact Htd|]. split; [by vm_compute|]. destruct grown_index as [Hok Hr].
  eapply spec_mono; [apply (index_refines_map 10 grown grown_map script Hok Hr); [done|exact Htd]| |done|done].
  intros os s' (_ & -> & _). by vm_compute.
Defined.

Definition script2 : list Call := [Insert 5 [7]; Get 5; Insert 6 [8]; Delete 5; Get 5; Reopen; Get 6; Get 5].
Lemma index_never_invents_witness :
  spec (try_calls script2) (started [Works; Fails; Works])
    (λ rs s', Forall (honest (λ it, it ∈ [(5, [7]); (6, [8]); (5, [])])) rs) (λ _ _, True) (λ _, True).
Proof.
  eapply spec_mono; [apply (index_never_invents (λ it, it ∈ [(5, [7]); (6, [8]); (5, [])]))| |done|done].
  - split.
    + intros i a H. by vm_compute in H.
    + intros k i c H. destruct k; by vm_compute in H.
    + intros i t H. by vm_compute in H.
  - repeat constructor; cbn; set_solver.
  - by intros rs s' [H _].
Defined.

(** ** Runs *)

Section runs.
Abbreviation act := (run Demo).

(** A young tab of these items, where the code has one of 1024. *)
Definition young (its : list TabItem) : act unit :=
  i ← Index.draw_id; _ ← Index.add_young (Tab.with_items its (Tab.new i)); mret ().
Definition got (i : Eid) : act (res bytes) := attempt (Index.get i).

(** An id put and deleted while level 0 had both: sorted by address, the deletion is in front. *)
Definition twice_young : act (res bytes * res bytes) :=
  _ ← young [(1, [7])]; _ ← young [(1, [])];
  before ← got 1; _ ← Index.compact 0; after ← got 1; mret (before, after).
(** A deletion is dropped with the item of level 1, and uncovers that of level 2. *)
Definition uncovered : act (res bytes * res bytes) :=
  _ ← young [(1, [7])]; _ ← Index.compact 0; _ ← Index.compact 1;
  _ ← young [(1, [8])]; _ ← Index.compact 0;
  _ ← young [(1, [])];
  before ← got 1; _ ← Index.compact 0; after ← got 1; mret (before, after).
(** A tab that was not overlapped is now in front of those merged anew, and the next merge takes
    the tabs of the level for sorted. *)
Definition unsorted : act (res bytes * res bytes) :=
  _ ← young [(1, [1])]; _ ← Index.compact 0;
  _ ← young [(9, [9])]; _ ← Index.compact 0;
  _ ← young [(1, [1]); (2, [2])]; _ ← Index.compact 0;
  _ ← young [(2, [2]); (9, [9])];
  before ← got 1; _ ← Index.compact 0; after ← got 1; mret (before, after).

(** A run: a run of [Lsmt::compact] on files that work. An address that was deleted is found again,
    when level 0 had the id twice or a deeper level still has it; and an address that was
    never deleted is lost, when the tabs of the next level were not in order. *)
Lemma compaction_errs :
  (twice_young opened).1 = Some (Ok (Err NotFound, Ok [7])) ∧
  (uncovered opened).1 = Some (Ok (Err NotFound, Ok [7])) ∧
  (unsorted opened).1 = Some (Ok (Ok [1], Err NotFound)).
Proof. by vm_compute. Qed.

(** The plan of the calls to come. *)
Definition set_plan (p : list Fate) : act unit :=
  modify (λ s, let f := Index.files s in
    Index.mkSt (mkFiles (f_lsmts f) (f_memtabs f) (f_tabs f) p) (Index.ids s) (Index.mgr s)).
(** The tabs of the compacted level are removed before the tree is saved: here the machine stops. *)
Definition saved : Demo := ((_ ← young [(1, [7])]; Index.save_lsmt) opened).2.
Definition stopped : Demo := ((_ ← Index.compact 0; _ ← set_plan [Stops]; Index.save_lsmt) saved).2.
(** The tabs that are merged are removed before the merged ones are saved: here a save fails. *)
Definition failed_save : act (res bytes * res unit * res bytes) :=
  _ ← young [(1, [7]); (9, [9])]; _ ← Index.compact 0; _ ← young [(1, [1]); (2, [2])];
  before ← got 9; _ ← set_plan [Works; Works; Works; Fails];
  r ← attempt (Index.compact 0); after ← got 9; mret (before, r, after).

(** A run: a run of [Lsmt::compact] that the machine stops after, or in which a call fails. An address
    that was stored and saved is lost: when the index is opened again, as the tree that was
    saved names tabs that have been removed; and after a save that fails, though the manager goes
    on. *)
Lemma interrupted_compaction_loses :
  ((_ ← Index.open; got 1) (restarted saved)).1 = Some (Ok (Ok [7])) ∧
  ((_ ← Index.open; got 1) (restarted stopped)).1 = Some (Ok (Err NotFound)) ∧
  (failed_save opened).1 = Some (Ok (Ok [9], Err Io, Err NotFound)).
Proof. by vm_compute. Qed.
End runs.
