(* ===== verification/Vio.v ===== *)
(** * src/base/vio.rs and src/base/utils.rs: files of the operating system.

    The file system is a tree of directories in which names stand for files; an open file
    stays the file it is when its name is moved or removed. Every call has a fate: it works,
    it fails, or the machine stops in it, and what a write has done until then remains. *)
From stdpp Require Import strings.
From S2P Require Import Prelude Run Crypto Armor SuperBlk.

(** A path, the innermost name first. *)
Abbreviation Path := (list string).
(** An open file. Positions are those of the caller: each use of a file begins with a seek, or
    goes on where the same owner has stopped. *)
Abbreviation Handle := Z.

(** How a call ends. Of a write or of directories made [n] bytes or levels are done before it
    fails or stops, any other change is made if [0 < n]. *)
Inductive Fate : Set := Works | Fails (n : Z) | Stops (n : Z).

Module Os.
Record Os := mkOs {
  dirs : gset Path; links : gmap Path Handle; data : gmap Handle bytes; next : Handle;
  reads : list Fate; writes : list Fate                 (* the fates of the calls to come *)
}.
Definition set_dirs (D : gset Path) s : Os := mkOs D (links s) (data s) (next s) (reads s) (writes s).
Definition set_links (m : gmap Path Handle) s : Os := mkOs (dirs s) m (data s) (next s) (reads s) (writes s).
Definition set_data (i : Handle) (x : bytes) s : Os :=
  mkOs (dirs s) (links s) (<[i := x]> (data s)) (next s) (reads s) (writes s).
Definition set_reads l s : Os := mkOs (dirs s) (links s) (data s) (next s) l (writes s).
Definition set_writes l s : Os := mkOs (dirs s) (links s) (data s) (next s) (reads s) l.
(** A new file. *)
Definition born (p : Path) s : Os :=
  mkOs (dirs s) (<[p := next s]> (links s)) (<[next s := []]> (data s)) (next s + 1) (reads s) (writes s).
End Os.
Abbreviation Os := Os.Os.

(** A call that only reads: one that stops has done nothing. *)
Definition rcall {A} (f : Os → res A) : run Os A := λ s,
  let s' := Os.set_reads (tail (Os.reads s)) s in
  match head (Os.reads s) with
  | None | Some Works => (Some (f s), s')
  | Some (Fails _) => (Some (Err Io), s')
  | Some (Stops _) => (None, s')
  end.
(** A call that changes files: [f] all of it, [part n] the first [n] bytes or levels. *)
Definition wcall {A} (f : Os → res A * Os) (part : Z → Os → Os) : run Os A := λ s,
  let s' := Os.set_writes (tail (Os.writes s)) s in
  match head (Os.writes s) with
  | None | Some Works => (Some (f s').1, (f s').2)
  | Some (Fails n) => (Some (Err Io), part n s')
  | Some (Stops n) => (None, part n s')
  end.
(** A change that is made or not. *)
Definition whole {A} (f : Os → res A * Os) : run Os A := wcall f (λ n s, if 0 <? n then (f s).2 else s).

(** The operator ? on an [IoError]: its kind is lost. [NotFound] is the kind of that name, and
    [Io] any other. *)
Definition io {A} (m : run Os A) : run Os A := or_else m (λ _, fail Io).

(** ** Calls *)

Module Vio.
Definition is_dir (p : Path) (s : Os) : bool := bool_decide (p ∈ Os.dirs s).
Definition is_file (p : Path) (s : Os) : bool := bool_decide (is_Some (Os.links s !! p)).
(** What is in a directory. *)
Definition entries (p : Path) (s : Os) : gset Path :=
  filter (λ q, q ≠ [] ∧ tail q = p) (Os.dirs s ∪ dom (Os.links s)).

Definition metadata (p : Path) : run Os unit := rcall (λ s, if is_dir p s || is_file p s then Ok () else Err NotFound).
(** [Path::exists]: an error counts as no. *)
Definition exists_ (p : Path) : run Os bool := or_else (_ ← metadata p; mret true) (λ _, mret false).

(** [OpenOptions], for reading; for writing with [create] and perhaps [truncate]. *)
Definition open_read (p : Path) : run Os Handle := rcall (λ s, ok_or NotFound (Os.links s !! p)).
Definition open_create (truncate : bool) (p : Path) : run Os Handle :=
  whole (λ s,
    match Os.links s !! p with
    | Some i => (Ok i, if truncate then Os.set_data i [] s else s)
    | None =>
        if is_dir p s then (Err Io, s)
        else if is_dir (tail p) s then (Ok (Os.next s), Os.born p s) else (Err NotFound, s)
    end).
Definition try_clone (i : Handle) : run Os Handle := rcall (λ _, Ok i).

(** [seek] and [read_exact]; [take] and [read_to_end]; [seek] and [write_all], where what is
    skipped is filled with zeros. *)
Definition contents (i : Handle) (s : Os) : bytes := default [] (Os.data s !! i).
Definition read_exact (i : Handle) (off n : Z) : run Os bytes :=
  rcall (λ s, if off + n <=? zlen (contents i s) then Ok (ztake n (zdrop off (contents i s))) else Err Io).
Definition read_up_to (i : Handle) (off n : Z) : run Os bytes := rcall (λ s, Ok (ztake n (zdrop off (contents i s)))).
Definition patch (x : bytes) (off : Z) (bs : bytes) : bytes :=
  match bs with
  | [] => x
  | _ => ztake off x ++ replicate (Z.to_nat (off - zlen x)) 0 ++ bs ++ zdrop (off + zlen bs) x
  end.
Definition write_all (i : Handle) (off : Z) (bs : bytes) : run Os unit :=
  wcall (λ s, (Ok (), Os.set_data i (patch (contents i s) off bs) s))
    (λ n s, Os.set_data i (patch (contents i s) off (ztake n bs)) s).

(** [rename] puts the file in the place of what had the name before. *)
Definition rename (p q : Path) : run Os unit :=
  whole (λ s,
    match Os.links s !! p with
    | Some i =>
        if is_dir q s then (Err Io, s)
        else if is_dir (tail q) s then (Ok (), Os.set_links (<[q := i]> (delete p (Os.links s))) s)
        else (Err NotFound, s)
    | None => (Err NotFound, s)
    end).
Definition remove_file (p : Path) : run Os unit :=
  whole (λ s, if is_file p s then (Ok (), Os.set_links (delete p (Os.links s)) s) else (Err NotFound, s)).

(** A directory with all above it; not if one of them is a file. *)
Fixpoint with_dirs (p : Path) (D : gset Path) : gset Path :=
  match p with [] => D | _ :: q => {[p]} ∪ with_dirs q D end.
Fixpoint blocked (p : Path) (s : Os) : bool := is_file p s || match p with [] => false | _ :: q => blocked q s end.
Definition make_dirs (p : Path) (s : Os) : Os := Os.set_dirs (with_dirs p (Os.dirs s)) s.
Definition create_dir_all (p : Path) : run Os unit :=
  wcall (λ s, if blocked p s then (Err Io, s) else (Ok (), make_dirs p s))
    (λ n s, if blocked p s then s else make_dirs (drop (length p - Z.to_nat n) p) s).

Definition read_dir (p : Path) : run Os Z :=
  rcall (λ s, if is_dir p s then Ok (Z.of_nat (size (entries p s))) else Err NotFound).
(** A directory that is empty, and not the root. *)
Definition remove_dir (p : Path) : run Os unit :=
  whole (λ s,
    if negb (is_dir p s) then (Err NotFound, s)
    else if bool_decide (p = []) || negb (bool_decide (entries p s = ∅)) then (Err Io, s)
    else (Ok (), Os.set_dirs (Os.dirs s ∖ {[p]}) s)).
(** Whole trees are removed at once or not at all. *)
Definition below (p q : Path) : bool := bool_decide (drop (length q - length p) q = p).
Definition remove_dir_all (p : Path) : run Os unit :=
  whole (λ s,
    if is_dir p s then
      (Ok (), Os.set_links (filter (λ kv, below p kv.1 = false) (Os.links s))
                (Os.set_dirs (filter (λ q, below p q = false) (Os.dirs s)) s))
    else (Err NotFound, s)).
End Vio.

(** ** src/base/utils.rs: the directories a file is in *)

Definition ensure_parents_dir (p : Path) : run Os unit :=
  b ← Vio.exists_ (tail p); if b : bool then mret () else io (Vio.create_dir_all (tail p)).

(** The directories above, the innermost first: those that are empty are removed, up to the first
    that is not. *)
Fixpoint ancestors (p : Path) : list Path := match p with [] => [] | _ :: q => q :: ancestors q end.
Fixpoint remove_empty (l : list Path) : run Os unit :=
  match l with
  | [] => mret ()
  | q :: l =>
      r ← attempt (Vio.read_dir q);
      match r with
      | Ok n => if 0 <? n then mret () else _ ← io (Vio.remove_dir q); remove_empty l
      | Err NotFound => mret ()
      | _ => fail Io
      end
  end.
Definition remove_empty_parent_dir (p : Path) : run Os unit := remove_empty (ancestors p).

(** ** src/trans/eid.rs: the path of an id *)

Module EidPath.
Definition digit (d : Z) : Ascii.ascii := Ascii.ascii_of_N (Z.to_N (if d <? 10 then 48 + d else 87 + d)).
(** [format!({:02x})] of each byte, joined. *)
Fixpoint hex (l : bytes) : string :=
  match l with [] => EmptyString | b :: l => String (digit (b / 16)) (String (digit (b mod 16)) (hex l)) end.
Definition EID_SIZE : nat := 32.
(** The number of an id is the one its bytes are in little-endian order. *)
Definition to_string (i : Eid) : string := hex (to_le EID_SIZE i).
Definition to_path_buf (i : Eid) (base : Path) : Path :=
  let s := to_string i in s :: String.substring 2 2 s :: String.substring 0 2 s :: base.
(** [set_extension], of a name that has no dot. *)
Definition set_extension (ext : string) (p : Path) : Path :=
  match p with [] => [] | n :: p => (n +:+ "." +:+ ext)%string :: p end.
End EidPath.

(** ** What calls do *)

(** The bytes of a file. *)
Definition file (s : Os) (p : Path) : option bytes := Os.links s !! p ≫= λ i, Os.data s !! i.

(** Directories and files have their parents, and names are of different files. *)
Record vio_ok (s : Os) : Prop := {
  vo_root : [] ∈ Os.dirs s;
  vo_up n p : n :: p ∈ Os.dirs s → p ∈ Os.dirs s;
  vo_link p i : Os.links s !! p = Some i →
    ∃ n q, p = n :: q ∧ q ∈ Os.dirs s ∧ p ∉ Os.dirs s ∧ i < Os.next s ∧ is_Some (Os.data s !! i);
  vo_inj p q i : Os.links s !! p = Some i → Os.links s !! q = Some i → p = q
}.
(** No call that only reads fails, though the machine may stop in one. *)
Definition sees (s : Os) : Prop := Forall (λ f, ∀ n, f ≠ Fails n) (Os.reads s).
(** All calls to come work. *)
Definition calm (s : Os) : Prop := Forall (eq Works) (Os.reads s) ∧ Forall (eq Works) (Os.writes s).

Section calls.
(** How deep the directories of the depot are. *)
Context (depth : nat).
Implicit Types (s : Os) (p q : Path) (i : Handle) (P : Path → Prop).

(** What is so of all calls to come stays so. *)
Definition settles (s s' : Os) : Prop := (calm s → calm s') ∧ (sees s → sees s').
Lemma settles_trans s1 s2 s3 : settles s1 s2 → settles s2 s3 → settles s1 s3.
Proof. intros [] []. split; auto. Qed.
Lemma settles_reads s : settles s (Os.set_reads (tail (Os.reads s)) s).
Proof.
  split; [intros [Hr Hw]; split; [|done]|intros Hr]; unfold sees in *; cbn; (destruct (Os.reads s); [done|]; by inv Hr).
Qed.
Lemma settles_writes s : settles s (Os.set_writes (tail (Os.writes s)) s).
Proof. split; [|done]. intros [Hr Hw]. split; [done|]. cbn. destruct (Os.writes s); [done|]. by inv Hw. Qed.
Lemma calm_sees s : calm s → sees s.
Proof. intros [Hr _]. eapply Forall_impl; [exact Hr|]. by intros f <- n. Qed.
Lemma vio_ok_reads s : vio_ok s → vio_ok (Os.set_reads (tail (Os.reads s)) s).
Proof. intros []. by split. Qed.
Lemma vio_ok_writes l s : vio_ok s → vio_ok (Os.set_writes l s).
Proof. intros []. by split. Qed.

(** The files are as they were; so are those but the ones of [P]. No deep directories are made. *)
Definition shallow (s s' : Os) : Prop := ∀ p, p ∈ Os.dirs s' → p ∈ Os.dirs s ∨ (length p ≤ depth)%nat.
Definition still (s s' : Os) : Prop :=
  vio_ok s' ∧ settles s s' ∧ shallow s s' ∧ Os.links s' = Os.links s ∧ Os.data s' = Os.data s ∧ Os.next s' = Os.next s.
Definition touches (P : Path → Prop) (s s' : Os) : Prop :=
  vio_ok s' ∧ settles s s' ∧ shallow s s' ∧ Os.next s ≤ Os.next s' ∧
  ∀ p, ¬ P p → Os.links s' !! p = Os.links s !! p ∧ ∀ i, Os.links s !! p = Some i → Os.data s' !! i = Os.data s !! i.

Lemma shallow_refl s s' : Os.dirs s' = Os.dirs s → shallow s s'.
Proof. intros Hd p. rewrite Hd. auto. Qed.
Lemma still_refl s : vio_ok s → still s s.
Proof. intros Hok. do 2 (split; [done|]). split; [by apply shallow_refl|done]. Qed.
Lemma still_trans s1 s2 s3 : still s1 s2 → still s2 s3 → still s1 s3.
Proof.
  intros (_ & ? & Hd & ? & ? & ?) (? & ? & Hd' & ? & ? & ?). split; [done|]. split; [by eapply settles_trans|]. split; [|repeat split; congruence].
  intros p [?|?]%Hd'; [by apply Hd|by right].
Qed.
Lemma still_file s s' p : still s s' → file s' p = file s p.
Proof. intros (_ & _ & _ & Hl & Hd & _). unfold file. by rewrite Hl, Hd. Qed.
Lemma still_touches P s s' : still s s' → touches P s s'.
Proof. intros (? & ? & ? & Hl & Hd & Hn). do 3 (split; [done|]). split; [lia|]. intros p _. by rewrite Hl, Hd. Qed.
Lemma touches_trans P s1 s2 s3 : touches P s1 s2 → touches P s2 s3 → touches P s1 s3.
Proof.
  intros (_ & Hc & Hd & Hn & Hf) (? & Hc' & Hd' & Hn' & Hf'). split; [done|]. split; [by eapply settles_trans|].
  split; [intros p [?|?]%Hd'; [by apply Hd|by right]|]. clear Hd Hd'. split; [lia|].
  intros p Hp. destruct (Hf p Hp) as [Hl Hd], (Hf' p Hp) as [Hl' Hd']. split; [congruence|].
  intros i Hi. rewrite Hd' by congruence. by apply Hd.
Qed.
Lemma touches_mono (P Q : Path → Prop) s s' : touches P s s' → (∀ p, P p → Q p) → touches Q s s'.
Proof. intros (? & ? & ? & ? & Hf) HPQ. repeat (split; [done|]). intros p Hp. apply Hf. naive_solver. Qed.
Lemma touches_file P s s' p : touches P s s' → ¬ P p → file s' p = file s p.
Proof.
  intros (_ & _ & _ & _ & Hf) Hp. destruct (Hf p Hp) as [Hl Hd]. unfold file. rewrite Hl.
  destruct (Os.links s !! p) as [i|] eqn:Hi; [|done]. cbn. by apply Hd.
Qed.
Lemma touches_ok P s s' : touches P s s' → vio_ok s'.
Proof. by intros []. Qed.
Lemma touches_calm P s s' : touches P s s' → calm s → calm s'.
Proof. intros (_ & [? _] & _); auto. Qed.
Lemma touches_sees P s s' : touches P s s' → sees s → sees s'.
Proof. intros (_ & [_ ?] & _); auto. Qed.

(** *** Reading *)

Lemma rcall_spec {A} (f : Os → res A) s : vio_ok s →
  spec (rcall f) s (λ a s', f s = Ok a ∧ still s s' ∧ Os.dirs s' = Os.dirs s)
    (λ e s', (f s = Err e ∨ (e = Io ∧ ¬ sees s)) ∧ still s s' ∧ Os.dirs s' = Os.dirs s)
    (λ s', still s s' ∧ Os.dirs s' = Os.dirs s ∧ (¬ calm s ∨ f s = Panic)).
Proof.
  intros Hok.
  assert (Hst : still s (Os.set_reads (tail (Os.reads s)) s))
    by (split; [by apply vio_ok_reads|]; split; [apply settles_reads|]; split; [by apply shallow_refl|done]).
  unfold rcall, spec. destruct (Os.reads s) as [|[|n|n] l] eqn:Hr; cbn [head tail] in *.
  - destruct (f s) eqn:Hf; auto.
  - destruct (f s) eqn:Hf; auto.
  - split; [|done]. right. split; [done|]. unfold sees. rewrite Hr. intros [Hn _]%Forall_cons. by destruct (Hn n).
  - split; [done|]. split; [done|]. left. intros [Hc _]. rewrite Hr in Hc. by inv Hc.
Qed.

(** When no file is seen there is none, or reading has failed. *)
Lemma exists_spec p s : vio_ok s →
  spec (Vio.exists_ p) s (λ b s', still s s' ∧ Os.dirs s' = Os.dirs s ∧ (b = Vio.is_dir p s || Vio.is_file p s ∨ (b = false ∧ ¬ sees s)))
    (λ _ _, False) (λ s', still s s' ∧ ¬ calm s).
Proof.
  intros Hok. unfold Vio.exists_, Vio.metadata. apply spec_or_else, spec_bind.
  eapply spec_mono; [by apply rcall_spec|..]; cbn beta.
  - intros [] s' (Hf & ? & ?). apply spec_ret. split; [done|]. split; [done|]. left. by destruct (Vio.is_dir p s || Vio.is_file p s).
  - intros e s' (Hf & ? & ?). apply spec_ret. split; [done|]. split; [done|].
    destruct Hf as [Hf|[_ Hf]]; [left; by destruct (Vio.is_dir p s || Vio.is_file p s)|by right].
  - intros s' (? & ? & [?|Hf]); [done|]. by destruct (Vio.is_dir p s || Vio.is_file p s).
Qed.

(** *** Writing *)

(** A write works, or it fails or stops when it has done a part. *)
Lemma wcall_spec {A} (f : Os → res A * Os) part s (Q : A → Os → Prop) (E : Error → Os → Prop) H :
  let t := Os.set_writes (tail (Os.writes s)) s in
  spec (λ _, (Some (f t).1, (f t).2)) t Q E H → (¬ calm s → ∀ n, E Io (part n t) ∧ H (part n t)) → spec (wcall f part) s Q E H.
Proof.
  intros t Hf HE. unfold wcall, spec in *. fold t.
  assert (Hnc : ∀ x, head (Os.writes s) = Some x → x ≠ Works → ¬ calm s).
  { intros x Hx Hne [_ Hc]. destruct (Os.writes s); [done|]. injection Hx as ->. by inv Hc. }
  destruct (head (Os.writes s)) as [[|n|n]|]; [done| | |done]; apply HE; by eapply Hnc.
Qed.
Lemma whole_spec {A} (f : Os → res A * Os) s (Q : A → Os → Prop) (E : Error → Os → Prop) H :
  let t := Os.set_writes (tail (Os.writes s)) s in
  spec (λ _, (Some (f t).1, (f t).2)) t Q E H →
  (¬ calm s → E Io t ∧ H t ∧ E Io (f t).2 ∧ H (f t).2) → spec (whole f) s Q E H.
Proof. intros t Hf HE. apply wcall_spec; [done|]. intros Hc n. destruct (HE Hc) as (? & ? & ? & ?). by destruct (0 <? n). Qed.

Lemma still_writes s : vio_ok s → still s (Os.set_writes (tail (Os.writes s)) s).
Proof. intros Hok. split; [by apply vio_ok_writes|]. split; [apply settles_writes|]. split; [by apply shallow_refl|done]. Qed.
Lemma calm_same s s' : Os.reads s' = Os.reads s → Os.writes s' = Os.writes s → settles s s'.
Proof. unfold settles, calm, sees. by intros -> ->. Qed.

Lemma set_data_touches p i x s : vio_ok s → Os.links s !! p = Some i → touches (eq p) s (Os.set_data i x s).
Proof.
  intros Hok Hi. split.
  { destruct Hok. split; try done. cbn. intros q j Hj. destruct (vo_link0 q j Hj) as (n & q' & ? & ? & ? & ? & ?).
    exists n, q'. repeat (split; [done|]). rewrite lookup_insert_is_Some'. auto. }
  split; [by apply calm_same|]. split; [by apply shallow_refl|]. split; [done|]. intros q Hq. split; [done|]. intros j Hj. cbn. rewrite lookup_insert_ne; [done|].
  intros ->. destruct Hq. by eapply vo_inj.
Qed.
Lemma born_touches n q s : vio_ok s → q ∈ Os.dirs s → n :: q ∉ Os.dirs s → Os.links s !! (n :: q) = None →
  touches (eq (n :: q)) s (Os.born (n :: q) s).
Proof.
  intros Hok Hq Hn Hl. split.
  { destruct Hok. split; try done; cbn.
    - intros p i [[<- <-]|[Hne Hi]]%lookup_insert_Some; [exists n, q|destruct (vo_link0 p i Hi) as (m & r & ? & ? & ? & ? & ?); exists m, r].
      + repeat (split; [done|]). split; [lia|]. by rewrite lookup_insert_eq.
      + repeat (split; [done|]). split; [lia|]. rewrite lookup_insert_is_Some'. auto.
    - intros p p' i [[<- <-]|[Hne Hi]]%lookup_insert_Some [[<- Hi']|[Hne' Hi']]%lookup_insert_Some; try done.
      + destruct (vo_link0 _ _ Hi') as (? & ? & _ & _ & _ & ? & _). lia.
      + subst. destruct (vo_link0 _ _ Hi) as (? & ? & _ & _ & _ & ? & _). lia.
      + by eapply vo_inj0. }
  split; [by apply calm_same|]. split; [by apply shallow_refl|]. split; [cbn; lia|]. intros p Hp. cbn. rewrite lookup_insert_ne by done. split; [done|].
  intros i Hi. rewrite lookup_insert_ne; [done|]. destruct (vo_link _ Hok _ _ Hi) as (? & ? & _ & _ & _ & ? & _). lia.
Qed.
Lemma set_links_touches P m s : vio_ok s →
  (∀ p i, m !! p = Some i → ∃ n q, p = n :: q ∧ q ∈ Os.dirs s ∧ p ∉ Os.dirs s ∧ i < Os.next s ∧ is_Some (Os.data s !! i)) →
  (∀ p q i, m !! p = Some i → m !! q = Some i → p = q) →
  (∀ p, ¬ P p → m !! p = Os.links s !! p) → touches P s (Os.set_links m s).
Proof. intros [] Hl Hi Hm. split; [by split|]. split; [by apply calm_same|]. split; [by apply shallow_refl|]. split; [done|]. intros p Hp. cbn. by rewrite Hm. Qed.

(** *** The calls on files *)

(** A file that is opened for writing: it is there, empty if it is new or cut. *)
Definition opened (tr : bool) s p s' : Prop :=
  touches (eq p) s s' ∧ (∀ j, Os.links s !! p = Some j → Os.links s' !! p = Some j) ∧
  file s' p = Some (if tr then [] else default [] (file s p)).
Lemma open_create_spec tr n q s : let p := n :: q in vio_ok s →
  spec (Vio.open_create tr p) s
    (λ i s', opened tr s p s' ∧ Os.links s' !! p = Some i ∧ Os.dirs s' = Os.dirs s)
    (λ e s', (still s s' ∨ opened tr s p s') ∧ (¬ calm s ∨ p ∈ Os.dirs s ∨ q ∉ Os.dirs s))
    (λ s', (still s s' ∨ opened tr s p s') ∧ ¬ calm s).
Proof.
  intros p Hok. pose proof (still_writes s Hok) as Ht. set (t := Os.set_writes (tail (Os.writes s)) s) in *.
  assert (Hokt : vio_ok t) by apply Ht.
  assert (Hopen : ∀ t', touches (eq p) t t' → touches (eq p) s t')
    by (intros t' Hto; eapply touches_trans; [by apply still_touches|done]).
  assert (Hold : ∀ i, Os.links s !! p = Some i → opened tr s p (if tr then Os.set_data i [] t else t)).
  { intros i Hi. destruct (vo_link _ Hok _ _ Hi) as (? & ? & _ & _ & _ & _ & [x Hx]). split; [|split].
    - destruct tr; [by apply Hopen, set_data_touches|by apply still_touches].
    - intros j Hj. by destruct tr.
    - unfold file. destruct tr; cbn; rewrite Hi; cbn; [by rewrite lookup_insert_eq|by rewrite Hx]. }
  assert (Hnew : Os.links s !! p = None → p ∉ Os.dirs s → q ∈ Os.dirs s → opened tr s p (Os.born p t)).
  { intros Hi Hd Hq. split; [by apply Hopen, born_touches|]. split; [intros j; congruence|].
    unfold file. cbn. rewrite !lookup_insert_eq. cbn. rewrite lookup_insert_eq, Hi. by destruct tr. }
  apply whole_spec; fold t; change (Os.links t) with (Os.links s); unfold Vio.is_dir; change (Os.dirs t) with (Os.dirs s);
    cbn [tail p]; destruct (Os.links s !! p) as [i|] eqn:Hi; cbn [fst snd].
  - unfold spec. specialize (Hold i eq_refl). split; [done|]. by destruct tr.
  - destruct (bool_decide_reflect (p ∈ Os.dirs s)) as [Hd|Hd]; [unfold spec; cbn; auto|].
    destruct (bool_decide_reflect (q ∈ Os.dirs s)) as [Hq|Hq]; [|unfold spec; cbn; auto].
    unfold spec. split; [by apply Hnew|]. cbn. by rewrite lookup_insert_eq.
  - intros Hc. specialize (Hold i eq_refl). auto 10.
  - intros Hc. destruct (bool_decide_reflect (p ∈ Os.dirs s)) as [Hd|Hd]; [cbn; auto 10|].
    destruct (bool_decide_reflect (q ∈ Os.dirs s)) as [Hq|Hq]; cbn; auto 10.
Qed.

(** A file some of whose bytes have been written. *)
Definition written p i off bs s s' : Prop :=
  touches (eq p) s s' ∧ Os.links s' = Os.links s ∧ Os.dirs s' = Os.dirs s ∧ file s' p = Some (Vio.patch (Vio.contents i s) off bs).
Lemma vio_write_spec p i off bs s : vio_ok s → Os.links s !! p = Some i →
  spec (Vio.write_all i off bs) s (λ _ s', written p i off bs s s')
    (λ _ s', (∃ n, written p i off (ztake n bs) s s') ∧ ¬ calm s) (λ s', (∃ n, written p i off (ztake n bs) s s') ∧ ¬ calm s).
Proof.
  intros Hok Hi. assert (Hw : ∀ x l, touches (eq p) s (Os.set_data i x (Os.set_writes (tail (Os.writes s)) s)) ∧
    (l = x → file (Os.set_data i x (Os.set_writes (tail (Os.writes s)) s)) p = Some l)).
  { intros x l. split; [|intros ->; unfold file; cbn; rewrite Hi; cbn; by rewrite lookup_insert_eq].
    eapply touches_trans; [by apply still_touches, still_writes|]. apply set_data_touches; [by apply vio_ok_writes|done]. }
  apply wcall_spec.
  - unfold spec. cbn. split; [by apply Hw|]. do 2 (split; [done|]). by apply Hw.
  - intros Hc n. split; (split; [|done]); exists n; (split; [by apply Hw|]); do 2 (split; [done|]); by apply Hw.
Qed.

(** A file that has got the name of another. *)
Definition renamed p q i s s' : Prop :=
  touches (λ x, x = p ∨ x = q) s s' ∧ Os.links s' = <[q := i]> (delete p (Os.links s)) ∧ Os.data s' = Os.data s.
Lemma rename_spec p n q i s : let r := n :: q in vio_ok s → Os.links s !! p = Some i →
  spec (Vio.rename p r) s (λ _ s', renamed p r i s s')
    (λ _ s', (still s s' ∨ renamed p r i s s') ∧ (¬ calm s ∨ r ∈ Os.dirs s ∨ q ∉ Os.dirs s))
    (λ s', (still s s' ∨ renamed p r i s s') ∧ ¬ calm s).
Proof.
  intros r Hok Hi. pose proof (still_writes s Hok) as Ht.
  assert (Hren : r ∉ Os.dirs s → q ∈ Os.dirs s →
    renamed p r i s (Os.set_links (<[r := i]> (delete p (Os.links s))) (Os.set_writes (tail (Os.writes s)) s))).
  { intros Hr Hq. split; [|done]. eapply touches_trans; [by apply still_touches|].
    destruct (vo_link _ Hok _ _ Hi) as (pn & pq & _ & _ & _ & Hin & Hid).
    apply set_links_touches; [by apply vio_ok_writes|..]; cbn.
    - intros x j [[<- <-]|[Hne [Hnp Hj]%lookup_delete_Some]]%lookup_insert_Some; [by exists n, q|by apply (vo_link _ Hok)].
    - intros x y j [[<- <-]|[Hne [Hnp Hj]%lookup_delete_Some]]%lookup_insert_Some
        [[<- Hy]|[Hne' [Hnp' Hj']%lookup_delete_Some]]%lookup_insert_Some; try done.
      + destruct Hnp'. by eapply (vo_inj _ Hok).
      + subst. destruct Hnp. by eapply (vo_inj _ Hok).
      + by eapply (vo_inj _ Hok).
    - intros x Hx. rewrite lookup_insert_ne, lookup_delete_ne; naive_solver. }
  apply whole_spec; cbn [Os.links Os.set_writes]; rewrite Hi; unfold Vio.is_dir; cbn [tail Os.dirs Os.set_writes r].
  - destruct (bool_decide_reflect (r ∈ Os.dirs s)); [unfold spec; cbn; auto|].
    destruct (bool_decide_reflect (q ∈ Os.dirs s)); unfold spec; cbn; auto.
  - intros Hc. destruct (bool_decide_reflect (r ∈ Os.dirs s)); [cbn; auto 10|].
    destruct (bool_decide_reflect (q ∈ Os.dirs s)); cbn; auto 10.
Qed.

Definition unlinked p s s' : Prop := touches (eq p) s s' ∧ Os.links s' !! p = None.
Lemma remove_file_spec p s : vio_ok s →
  spec (Vio.remove_file p) s (λ _ s', unlinked p s s')
    (λ e s', (e = NotFound ∧ Os.links s !! p = None ∧ still s s') ∨ (e ≠ NotFound ∧ (still s s' ∨ unlinked p s s') ∧ ¬ calm s))
    (λ s', (still s s' ∨ unlinked p s s') ∧ ¬ calm s).
Proof.
  intros Hok. pose proof (still_writes s Hok) as Ht.
  assert (Hun : unlinked p s (Os.set_links (delete p (Os.links s)) (Os.set_writes (tail (Os.writes s)) s))).
  { split; [|cbn; by rewrite lookup_delete_eq]. eapply touches_trans; [by apply still_touches|].
    apply set_links_touches; [by apply vio_ok_writes|..]; cbn.
    - intros x j [Hnp Hj]%lookup_delete_Some. by apply (vo_link _ Hok).
    - intros x y j [_ Hj]%lookup_delete_Some [_ Hj']%lookup_delete_Some. by eapply (vo_inj _ Hok).
    - intros x Hx. by rewrite lookup_delete_ne. }
  apply whole_spec; unfold Vio.is_file; cbn [Os.links Os.set_writes];
    (destruct (bool_decide_reflect (is_Some (Os.links s !! p))) as [|Hn%eq_None_not_Some]; [unfold spec; cbn; auto 10|unfold spec; cbn; auto 10]).
Qed.

(** *** Directories *)

Lemma suffix_of_cons {A} (x p : list A) n : x `suffix_of` (n :: p) ↔ x = n :: p ∨ x `suffix_of` p.
Proof.
  split; [|intros [->|Hx]; [done|by apply suffix_cons_r]].
  intros [[|m k] Hk]; [by left|]. injection Hk as -> ->. right. by exists k.
Qed.
Lemma blocked_false p s : Vio.blocked p s = false ↔ ∀ x, x `suffix_of` p → Os.links s !! x = None.
Proof.
  induction p as [|n p IH]; cbn [Vio.blocked]; rewrite orb_false_iff; unfold Vio.is_file; rewrite bool_decide_eq_false, <- eq_None_not_Some.
  - split; [by intros [H _] x ->%suffix_nil_inv|]. intros H. split; [by apply H|done].
  - rewrite IH. setoid_rewrite suffix_of_cons. naive_solver.
Qed.
Lemma elem_of_with_dirs p (x : Path) (D : gset Path) : x ∈ Vio.with_dirs p D ↔ x ∈ D ∨ (x ≠ [] ∧ x `suffix_of` p).
Proof.
  induction p as [|n p IH]; cbn [Vio.with_dirs].
  - split; [auto|]. intros [?|[Hx ->%suffix_nil_inv]]; done.
  - rewrite elem_of_union, elem_of_singleton, IH, suffix_of_cons. naive_solver.
Qed.
Lemma make_dirs_ok p s : vio_ok s → (length p ≤ depth)%nat → Vio.blocked p s = false → still s (Vio.make_dirs p s).
Proof.
  intros [] Hp Hb. rewrite blocked_false in Hb. split; [split; cbn; try done|].
  4: { split; [by apply calm_same|]. split; [|done]. intros x. cbn. rewrite elem_of_with_dirs.
       intros [?|[_ Hx%suffix_length]]; [by left|right; lia]. }
  - apply elem_of_with_dirs. auto.
  - intros n q. rewrite !elem_of_with_dirs. intros [Hq|[_ [k Hk]]]; [left; by eapply vo_up0|].
    destruct (decide (q = [])) as [->|Hq]; [by left|]. right. split; [done|]. exists (k ++ [n]). by rewrite <- app_assoc.
  - intros q i Hi. destruct (vo_link0 q i Hi) as (n & r & -> & Hr & Hnr & ?). exists n, r. rewrite !elem_of_with_dirs. split; [done|].
    split; [by left|]. split; [|done]. intros [?|[_ Hx]]; [done|]. by rewrite Hb in Hi.
Qed.

Lemma create_dir_all_spec p s : vio_ok s → (length p ≤ depth)%nat →
  spec (Vio.create_dir_all p) s (λ _ s', still s s' ∧ (p = [] ∨ p ∈ Os.dirs s'))
    (λ e s', still s s' ∧ (¬ calm s ∨ Vio.blocked p s = true)) (λ s', still s s' ∧ ¬ calm s).
Proof.
  intros Hok Hp. pose proof (still_writes s Hok) as Ht. apply wcall_spec; set (t := Os.set_writes _ s) in *;
    assert (Hbt : ∀ q, Vio.blocked q t = Vio.blocked q s) by (intros q; induction q as [|m q IH]; [done|]; cbn [Vio.blocked]; by rewrite IH); rewrite Hbt.
  - destruct (Vio.blocked p s) eqn:Hb; unfold spec; cbn [fst snd]; [auto|]. split.
    + eapply still_trans; [done|]. apply make_dirs_ok; [apply Ht|done|]. by rewrite Hbt.
    + destruct p; [by left|]. right. cbn. set_solver.
  - intros Hc n. destruct (Vio.blocked p s) eqn:Hb; [auto|].
    assert (Hs : still s (Vio.make_dirs (drop (length p - Z.to_nat n) p) t)); [|auto].
    eapply still_trans; [done|]. apply make_dirs_ok; [apply Ht|rewrite length_drop; lia|]. rewrite Hbt. apply blocked_false. intros x Hx.
    eapply blocked_false; [done|]. etrans; [done|]. apply suffix_drop.
Qed.

Lemma ensure_parents_spec n q s : vio_ok s → (length q ≤ depth)%nat →
  spec (ensure_parents_dir (n :: q)) s (λ _ s', still s s' ∧ (Vio.blocked q s = false → q ∈ Os.dirs s'))
    (λ e s', still s s' ∧ e = Io ∧ (¬ calm s ∨ Vio.blocked q s = true)) (λ s', still s s' ∧ ¬ calm s).
Proof.
  intros Hok Hlen. unfold ensure_parents_dir. cbn [tail]. step_by exists_spec; [done| |done|done].
  cbn beta. intros b s1 (Hs1 & Hd & Hbv). destruct b.
  - assert (Hq : Vio.is_dir q s || Vio.is_file q s = true) by (by destruct Hbv as [|[? _]]).
    apply spec_ret. split; [done|]. intros Hb. rewrite Hd. apply orb_true_iff in Hq as [Hq|Hq]; [by apply bool_decide_eq_true in Hq|].
    apply bool_decide_eq_true in Hq as [i Hi]. rewrite blocked_false in Hb. by rewrite Hb in Hi.
  - assert (Hb1 : ∀ p, Vio.blocked p s1 = Vio.blocked p s)
      by (intros p; destruct Hs1 as (_ & _ & _ & Hl & _); induction p; cbn; unfold Vio.is_file; rewrite Hl; congruence).
    unfold io. apply spec_or_else. eapply spec_mono; [apply create_dir_all_spec; [apply Hs1|done]|..]; cbn beta; rewrite ?Hb1.
    + intros [] s2 [Hs2 Hdir]. split; [by eapply still_trans|]. intros _. destruct Hdir as [->|?]; [apply vo_root, Hs2|done].
    + intros e s2 [Hs2 Hr]. apply spec_fail. split; [by eapply still_trans|]. split; [done|].
      destruct Hr as [Hr|Hr]; [left; contradict Hr; by apply Hs1|by right].
    + intros s2 [Hs2 Hr]. split; [by eapply still_trans|]. contradict Hr. by apply Hs1.
Qed.

(** The root is not empty if there is a file. *)
Lemma root_entry p i s : vio_ok s → Os.links s !! p = Some i → Vio.entries [] s ≠ ∅.
Proof.
  intros Hok Hi. destruct (vo_link _ Hok _ _ Hi) as (n & q & -> & Hq & _).
  assert (Hin : n :: q ∈ Os.dirs s ∪ dom (Os.links s)) by (apply elem_of_union_r, elem_of_dom; eauto).
  clear i Hi. revert n Hin Hq. induction q as [|m q IH]; intros n Hin Hq.
  - intros He. assert (Hx : [n] ∈ Vio.entries [] s) by (apply elem_of_filter; done). rewrite He in Hx. set_solver.
  - apply (IH m); [by apply elem_of_union_l|]. by eapply vo_up.
Qed.

Lemma remove_dir_spec p s : vio_ok s → p ∈ Os.dirs s → Vio.entries p s = ∅ →
  spec (Vio.remove_dir p) s (λ _ s', still s s') (λ _ s', still s s' ∧ (¬ calm s ∨ p = [])) (λ s', still s s' ∧ ¬ calm s).
Proof.
  intros Hok Hp He. pose proof (still_writes s Hok) as Ht. set (t := Os.set_writes (tail (Os.writes s)) s) in *.
  assert (Hrm : p ≠ [] → still s (Os.set_dirs (Os.dirs s ∖ {[p]}) t)).
  { intros Hne. eapply still_trans; [done|]. split; [|split; [by apply calm_same|]; split; [|done]; intros x; cbn; set_solver].
    assert (Hno : ∀ x, x ∈ Os.dirs s ∪ dom (Os.links s) → x ≠ [] → tail x ≠ p).
    { intros x Hx Hx0 Hxp. assert (Hin : x ∈ Vio.entries p s) by (by apply elem_of_filter). rewrite He in Hin. set_solver. }
    destruct Hok. split; cbn; try done.
    - set_solver.
    - intros n q. rewrite !elem_of_difference, !elem_of_singleton. intros [Hq _]. split; [by eapply vo_up0|]. intros ->.
      by apply (Hno (n :: p)); [apply elem_of_union_l|..].
    - intros q i Hi. destruct (vo_link0 q i Hi) as (n & r & -> & Hr & Hnr & ?). exists n, r. split; [done|].
      split; [|set_solver]. apply elem_of_difference. split; [done|]. rewrite elem_of_singleton. intros ->.
      by apply (Hno (n :: p)); [apply elem_of_union_r, elem_of_dom; eauto|..]. }
  assert (Het : Vio.entries p t = ∅) by done.
  apply whole_spec; fold t; unfold Vio.is_dir; change (Os.dirs t) with (Os.dirs s); rewrite (bool_decide_true (p ∈ Os.dirs s)) by done;
    rewrite (bool_decide_true (Vio.entries p t = ∅)) by done; cbn [negb]; rewrite orb_false_r.
  - destruct (bool_decide_reflect (p = [])); unfold spec; cbn; auto.
  - intros Hc. destruct (bool_decide_reflect (p = [])); cbn; auto 10.
Qed.

Lemma remove_empty_spec l s : vio_ok s →
  spec (remove_empty l) s (λ _ s', still s s') (λ _ s', still s s' ∧ (¬ calm s ∨ Os.links s = ∅)) (λ s', still s s' ∧ ¬ calm s).
Proof.
  revert s. induction l as [|q l IH]; intros s Hok; cbn [remove_empty]; [by apply spec_ret, still_refl|].
  apply spec_bind, spec_attempt. eapply spec_mono; [by apply rcall_spec|..]; cbn beta.
  - intros n s1 (Hr & Hs1 & Hd1). destruct (Vio.is_dir q s) eqn:Hq; [|done]. injection Hr as <-. apply bool_decide_eq_true in Hq.
    destruct (0 <? _) eqn:Hn; zify_b; [by apply spec_ret|].
    assert (He : Vio.entries q s = ∅) by (apply leibniz_equiv, size_empty_inv; lia).
    assert (He1 : Vio.entries q s1 = ∅) by (unfold Vio.entries in *; destruct Hs1 as (_ & _ & _ & -> & _); by rewrite Hd1).
    apply spec_bind. unfold io. apply spec_or_else. eapply spec_mono; [apply remove_dir_spec; [apply Hs1|by rewrite Hd1|done]|..]; cbn beta.
    + intros [] s2 Hs2. eapply spec_mono; [apply IH, Hs2|..]; cbn beta; assert (Hs : still s s2) by (by eapply still_trans).
      * intros [] s3 Hs3. by eapply still_trans.
      * intros e s3 [Hs3 Hr]. split; [by eapply still_trans|]. destruct Hr as [Hr|Hr]; [left; contradict Hr; by apply Hs|right].
        rewrite <- Hr. symmetry. apply Hs.
      * intros s3 [Hs3 Hr]. split; [by eapply still_trans|]. contradict Hr. by apply Hs.
    + intros e s2 [Hs2 Hr]. apply spec_fail. split; [by eapply still_trans|]. destruct Hr as [Hr| ->]; [left; contradict Hr; by apply Hs1|right].
      apply map_empty. intros p. destruct (Os.links s !! p) eqn:Hi; [|done]. by edestruct root_entry.
    + intros s2 [Hs2 Hr]. split; [by eapply still_trans|]. contradict Hr. by apply Hs1.
  - intros e s1 ([Hr|[-> Hr]] & Hs1 & Hd1).
    + destruct (Vio.is_dir q s); [done|]. injection Hr as <-. by apply spec_ret.
    + apply spec_fail. split; [done|]. left. contradict Hr. by apply calm_sees.
  - intros s1 (Hs1 & _ & [Hc|Hr]); [done|]. by destruct (Vio.is_dir q s).
Qed.
End calls.

(** ** Paths of ids *)

Section paths.
Implicit Types (l : bytes) (i : Eid) (base : Path).

Lemma digit_inj a b : 0 ≤ a < 16 → 0 ≤ b < 16 → EidPath.digit a = EidPath.digit b → a = b.
Proof.
  intros Ha Hb H. enough (Hall : Forall (λ a, Forall (λ b, EidPath.digit a = EidPath.digit b → a = b) (seqZ 0 16)) (seqZ 0 16)).
  { rewrite Forall_forall in Hall. specialize (Hall a). rewrite Forall_forall in Hall. apply Hall; [apply elem_of_seqZ; lia..|done]. }
  clear. repeat (constructor; [repeat (constructor; [try (intros; discriminate); done|]); constructor|]). constructor.
Qed.
Lemma hex_inj l l' : Forall (λ b, 0 ≤ b < 256) l → Forall (λ b, 0 ≤ b < 256) l' → EidPath.hex l = EidPath.hex l' → l = l'.
Proof.
  intros Hl. revert l'. induction Hl as [|a l Ha Hl IH]; intros k Hk H; destruct Hk as [|b k Hb Hk]; cbn in H; try done.
  injection H as H1 H2 H. assert (Hd : ∀ c, 0 ≤ c < 256 → 0 ≤ c / 16 < 16) by (intros; Z.div_mod_to_equations; lia).
  apply digit_inj in H1; [|by apply Hd..].
  apply digit_inj in H2; [|apply Z.mod_pos_bound; lia..]. f_equal; [|by apply IH].
  rewrite (Z.div_mod a 16), (Z.div_mod b 16) by lia. congruence.
Qed.
Lemma hex_length l : String.length (EidPath.hex l) = (2 * length l)%nat.
Proof. induction l; cbn; [done|]. rewrite IHl. lia. Qed.

Definition id_ok i : Prop := 0 ≤ i < 256 ^ Z.of_nat EidPath.EID_SIZE.
Lemma to_le_bytes n x : Forall (λ b, 0 ≤ b < 256) (to_le n x).
Proof. revert x. induction n; intros x; constructor; [apply Z.mod_pos_bound; lia|done]. Qed.
Lemma to_string_inj i j : id_ok i → id_ok j → EidPath.to_string i = EidPath.to_string j → i = j.
Proof.
  intros Hi Hj H%hex_inj; [|apply to_le_bytes..]. by rewrite <- (of_to_le _ _ Hi), <- (of_to_le _ _ Hj), H.
Qed.
Lemma to_string_length i : String.length (EidPath.to_string i) = 64%nat.
Proof. unfold EidPath.to_string. rewrite hex_length. pose proof (zlen_to_le EidPath.EID_SIZE i) as H. unfold zlen in H. cbn in *. lia. Qed.
End paths.
