(* ===== verification/FileArmor.v ===== *)
(** * src/volume/storage/file/file_armor.rs: items in encrypted files.

    An item is saved in two arms as in Armor.v, each arm a file. The file is a sequence of
    frames, each encrypted by itself. Unlike other armors this one loads what arm it can
    when the other cannot be read, so that a save which breaks off does no harm. *)
From stdpp Require Import strings.
From S2P Require Import Prelude Run Crypto Armor SuperBlk Vio.

Definition FRAME_SIZE : Z := 16 * 1024.

(** The files, and a source of random bytes. *)
Record Env (R : Type) := mkEnv { os : Os; rng : R }.
Arguments mkEnv {R}. Arguments os {R}. Arguments rng {R}.

Section env.
Context {R : Type} `{!Random R}.
Definition on_os {A} (m : run Os A) : run (Env R) A := zoom os (λ o e, mkEnv o (rng e)) m.
Definition draw (n : Z) : run (Env R) bytes := λ e,
  let '(b, r) := random_buf n (rng e) in (Some (Ok b), mkEnv (os e) r).
(** [map_io_err!], and the operator ? after it: a panic stays one. *)
Definition to_io {A} (m : run (Env R) A) : run (Env R) A := or_else m (λ _, fail Io).
End env.

(** ** Reading *)

Module CryptoReader.
(** [frame] is the decrypted frame up to [frame_len]; the file has been read up to [pos]. *)
Record CryptoReader := mkReader {
  file : Handle; pos : Z; frame : bytes; rd : Z; crypto : Crypto.Crypto; key : bytes
}.
Definition new (f : Handle) (c : Crypto.Crypto) (k : bytes) : CryptoReader := mkReader f 0 [] 0 c k.

Section reader.
Context `{!Sodium} {R : Type} `{!Random R}.
Definition read (n : Z) (r : CryptoReader) : run (Env R) (bytes * CryptoReader) :=
  o ← (if zlen (frame r) <=? rd r then
         enc ← on_os (Vio.read_up_to (file r) (pos r) FRAME_SIZE);
         match enc with
         | [] => mret None
         | _ =>
             m ← to_io (lift (Crypto.decrypt_to (crypto r) enc (key r)));
             mret (Some (mkReader (file r) (pos r + zlen enc) m 0 (crypto r) (key r)))
         end
       else mret (Some r));
  match o with
  | None => mret ([], r)
  | Some r =>
      _ ← lift (rassert (rd r <? zlen (frame r)));
      let out := ztake (Z.min n (zlen (frame r) - rd r)) (zdrop (rd r) (frame r)) in
      mret (out, mkReader (file r) (pos r) (frame r) (rd r + zlen out) (crypto r) (key r))
  end.

(** [Read::read_to_end], with buffers of the sizes [bufs]: up to the first call that reads nothing. *)
Fixpoint read_to_end (fuel : nat) (bufs : nat → Z) (r : CryptoReader) : run (Env R) bytes :=
  match fuel with
  | O => lift Panic
  | S fuel =>
      '(out, r) ← read (bufs fuel) r;
      match out with [] => mret [] | _ => rest ← read_to_end fuel bufs r; mret (out ++ rest) end
  end.
End reader.
End CryptoReader.

(** ** Writing *)

Module CryptoWriter.
(** [stg] is the staging buffer up to [stg_len], [cap] its size. *)
Record CryptoWriter := mkWriter {
  file : Handle; stg : bytes; cap : Z; written : Z; crypto : Crypto.Crypto; key : bytes
}.
Definition new (f : Handle) (c : Crypto.Crypto) (k : bytes) : res CryptoWriter :=
  n ← Crypto.decrypted_len c FRAME_SIZE; Ok (mkWriter f [] n 0 c k).

Section writer.
Context `{!Sodium} {R : Type} `{!Random R}.
Definition write_frame (w : CryptoWriter) : run (Env R) CryptoWriter :=
  if zlen (stg w) =? 0 then mret w
  else
    nonce ← draw Crypto.AES_NONCE_SIZE;
    frame ← lift (Crypto.encrypt_to (crypto w) nonce (stg w) (key w));
    _ ← on_os (io (Vio.write_all (file w) (written w) frame));
    mret (mkWriter (file w) [] (cap w) (written w + zlen frame) (crypto w) (key w)).
Definition write (buf : bytes) (w : CryptoWriter) : run (Env R) (Z * CryptoWriter) :=
  room ← lift (u_sub (cap w) (zlen (stg w)));
  let copy := ztake (Z.min (zlen buf) room) buf in
  let w := mkWriter (file w) (stg w ++ copy) (cap w) (written w) (crypto w) (key w) in
  w ← (if cap w <=? zlen (stg w) then to_io (write_frame w) else mret w);
  mret (zlen copy, w).
(** [Write::write_all]; it fails when nothing more is taken. *)
Fixpoint write_all (fuel : nat) (buf : bytes) (w : CryptoWriter) : run (Env R) CryptoWriter :=
  match fuel, buf with
  | _, [] => mret w
  | O, _ => lift Panic
  | S fuel, _ =>
      '(n, w) ← write buf w;
      if n =? 0 then fail Io else write_all fuel (zdrop n buf) w
  end.
Definition finish (w : CryptoWriter) : run (Env R) unit := _ ← write_frame w; mret ().
End writer.
End CryptoWriter.

(** ** The armor *)

Module FileArmor.
Record FileArmor := mkArmor { base : Path; crypto : Crypto.Crypto; key : bytes }.
Definition new (b : Path) : FileArmor := mkArmor b Crypto.default [].
Definition set_crypto_ctx (c : Crypto.Crypto) (k : bytes) (a : FileArmor) : FileArmor := mkArmor (base a) c k.

Section armor.
Context `{!ArmHash, !Sodium} {R I : Type} `{!Random R, !ArmAccess I, !Serde bytes I} (bufs : nat → Z).
Context (fa : FileArmor).
Abbreviation act := (run (Env R)).

Definition arm_path (arm_id : Eid) : Path := EidPath.to_path_buf arm_id (base fa).

Definition get_item_reader (arm_id : Eid) : act CryptoReader.CryptoReader :=
  f ← on_os (Vio.open_read (arm_path arm_id)); mret (CryptoReader.new f (crypto fa) (key fa)).
Definition get_item_writer (arm_id : Eid) : act CryptoWriter.CryptoWriter :=
  _ ← on_os (ensure_parents_dir (arm_path arm_id));
  f ← on_os (io (Vio.open_create true (arm_path arm_id)));
  lift (CryptoWriter.new f (crypto fa) (key fa)).
Definition del_arm (arm_id : Eid) : act unit :=
  r ← attempt (on_os (Vio.remove_file (arm_path arm_id)));
  match r with
  | Ok _ | Err NotFound => on_os (remove_empty_parent_dir (arm_path arm_id))
  | _ => fail Io
  end.

(** The fuel is more than there is to read. *)
Definition load_one_arm (id : Eid) (a : Arm.Arm) : act I :=
  rdr ← get_item_reader (to_eid a id);
  n ← ask (λ e, length (Vio.contents (CryptoReader.file rdr) (os e)));
  buf ← CryptoReader.read_to_end (S n) bufs rdr;
  lift (ok_or Decode (decode buf)).

(** An arm that cannot be read counts as not there, if the other can. *)
Definition load_item (id : Eid) : act I :=
  left_arm ← attempt (load_one_arm id Arm.Left);
  right_arm ← attempt (load_one_arm id Arm.Right);
  match left_arm with
  | Ok l =>
      match right_arm with
      | Ok r =>
          _ ← lift (rassert (negb (item_seq l =? item_seq r)));
          mret (if item_seq r <? item_seq l then l else r)
      | _ => mret l
      end
  | _ => lift right_arm
  end.

(** As in Armor.v: the item is changed even when the call fails. *)
Definition save_bytes (arm_id : Eid) (buf : bytes) : act unit :=
  w ← get_item_writer arm_id;
  w ← CryptoWriter.write_all (length buf) buf w;
  CryptoWriter.finish w.
Definition save_item (i : I) : act (I * res unit) :=
  i ← lift (Armor.inc_seq i);
  let i := Armor.toggle i in
  r ← attempt (save_bytes (to_eid (item_arm i) (item_id i)) (encode i));
  match r with Ok _ => mret (i, Ok ()) | _ => mret (Armor.toggle i, r) end.

(** Both arms are removed, the first error counts. *)
Definition remove_all_arms (id : Eid) : act unit :=
  let '(l, r) := both_eid id in
  r1 ← attempt (del_arm l); r2 ← attempt (del_arm r);
  match r1 with Ok _ => lift r2 | Err e => fail e | Panic => lift Panic end.
End armor.
End FileArmor.

(** ** Frames *)

(** What is documented of authenticated encryption: only what has been encrypted is accepted. *)
Class AeadStrict `{!Sodium} : Prop := {
  aead_decrypt_length ci key nonce ad x m : aead_decrypt ci key nonce ad x = Some m → zlen x = zlen m + ATAG_SIZE;
  aead_torn ci key nonce ad m x n :
    aead_encrypt ci key nonce ad m = Some x → 0 ≤ n < zlen x → aead_decrypt ci key nonce ad (ztake n x) = None
}.
(** The serialised item says how long it is. *)
Class SerdeStrict (I : Type) `{!Serde bytes I} : Prop := {
  decode_torn (i : I) n : 0 ≤ n < zlen (encode i : bytes) → decode (I:=I) (ztake n (encode i : bytes)) = None
}.

Section frames.
Context `{!Sodium, !SodiumLaws, !AeadStrict} (c : Crypto.Crypto) (k : bytes).
Implicit Types (x y m z : bytes).

(** The bytes of a file that is a sequence of frames. *)
Fixpoint unseal (fuel : nat) y : res bytes :=
  match fuel, y with
  | _, [] => Ok []
  | O, _ => Panic
  | S fuel, _ =>
      match Crypto.decrypt_to c (ztake FRAME_SIZE y) k with
      | Ok m => _ ← rassert (0 <? zlen m); rest ← unseal fuel (zdrop FRAME_SIZE y); Ok (m ++ rest)
      | Err _ => Err Io
      | Panic => Panic
      end
  end.
Definition opens y : res bytes := unseal (length y) y.

Lemma drop_shorter y (n : nat) : y ≠ [] → (length y ≤ S n)%nat → (length (zdrop FRAME_SIZE y) ≤ n)%nat.
Proof. intros Hy Hn. unfold zdrop. rewrite length_drop. change (Z.to_nat FRAME_SIZE) with (Z.to_nat 16384). destruct y; [done|]. cbn [length] in *. lia. Qed.
Lemma unseal_fuel fuel fuel' y : (length y ≤ fuel)%nat → (length y ≤ fuel')%nat → unseal fuel y = unseal fuel' y.
Proof.
  revert fuel' y. induction fuel as [|fuel IH]; intros fuel' y Hf Hf'; (destruct y as [|b y]; [by destruct fuel'|]); [cbn in Hf; lia|].
  destruct fuel' as [|fuel']; [cbn in Hf'; lia|]. cbn [unseal]. destruct (Crypto.decrypt_to c _ k); [|done..].
  rewrite (IH fuel'); [done|by apply drop_shorter..].
Qed.
Lemma opens_step y : y ≠ [] → opens y =
  match Crypto.decrypt_to c (ztake FRAME_SIZE y) k with
  | Ok m => _ ← rassert (0 <? zlen m); rest ← opens (zdrop FRAME_SIZE y); Ok (m ++ rest)
  | Err _ => Err Io
  | Panic => Panic
  end.
Proof.
  intros Hy. unfold opens at 1. destruct (length y) as [|n] eqn:Hn; [by destruct y|]. destruct y as [|b y]; [done|]. cbn [unseal].
  destruct (Crypto.decrypt_to c _ k); [|done..]. unfold opens.
  rewrite (unseal_fuel n (length (zdrop FRAME_SIZE (b :: y)))); [done|apply drop_shorter; [done|lia]|done].
Qed.

Lemma decrypt_length x m : Crypto.decrypt_to c x k = Ok m → zlen x = Crypto.overhead c + zlen m.
Proof.
  unfold Crypto.decrypt_to, Crypto.decrypt_raw. intros (nonce & Hn & Hx)%bind_Ok_inv. apply bind_Ok_inv in Hx as (o & Ho & Hx).
  destruct o as [m'|]; [|done]. injection Hx as ->. unfold vslice in Hn.
  destruct ((0 <=? Crypto.nonce_size c) && (Crypto.nonce_size c <=? zlen x)) eqn:Hc; [|done]. zify_b.
  assert (Hd : zlen (zdrop (Crypto.nonce_size c) x) = zlen m + ATAG_SIZE).
  { destruct (Crypto.cipher c); [injection Ho as Ho; by eapply aead_decrypt_length|].
    apply bind_Ok_inv in Ho as ([sn sk] & _ & [= Ho]). by eapply aead_decrypt_length. }
  pose proof (Crypto.nonce_size_range c). rewrite zlen_zdrop in Hd by lia. unfold Crypto.overhead, ATAG_SIZE in *. pose proof (zlen_nonneg m). lia.
Qed.

(** A frame, and what is read of a frame that has been written in part. *)
Definition frame m z : Prop := ∃ nonce, zlen nonce = Crypto.AES_NONCE_SIZE ∧ Crypto.encrypt_to c nonce m k = Ok z.
Lemma frame_ok m z : frame m z → zlen z = Crypto.overhead c + zlen m ∧ Crypto.decrypt_to c z k = Ok m.
Proof. intros (nonce & Hn & He). by apply (Crypto.encrypt_raw_ok c nonce m k []). Qed.
Lemma frame_torn m z n : frame m z → 0 ≤ n < zlen z →
  Crypto.decrypt_to c (ztake n z) k = if n <? Crypto.nonce_size c then Panic else Err Decrypt.
Proof.
  intros (nonce & Hn & He) Hnz. pose proof (Crypto.nonce_size_range c) as Hns.
  unfold Crypto.decrypt_to, Crypto.decrypt_raw, vslice. rewrite zlen_ztake by lia.
  destruct (n <? Crypto.nonce_size c) eqn:Hlt; zify_b.
  { rewrite (proj2 (andb_false_iff _ _)); [done|]. right. apply Z.leb_gt. lia. }
  rewrite (proj2 (andb_true_iff _ _)) by (split; apply Z.leb_le; lia). rewrite bind_ok.
  unfold Crypto.encrypt_to, Crypto.encrypt_raw in He. apply bind_Ok_inv in He as (o & Ho & He). destruct o as [ct|]; [|done]. injection He as <-.
  assert (Hl : zlen (ztake (Crypto.nonce_size c) nonce) = Crypto.nonce_size c).
  { rewrite zlen_ztake by lia. unfold Crypto.AES_NONCE_SIZE in Hn. lia. }
  rewrite zlen_app, Hl in Hnz. rewrite (ztake_app_ge n) by lia. rewrite Hl, Z.sub_0_r.
  rewrite zdrop_0 by lia. rewrite ztake_app_le by lia. rewrite ztake_ztake, Z.min_id.
  rewrite zdrop_app_ge, Hl, Z.sub_diag, zdrop_0 by lia.
  unfold Crypto.nonce_size in *. destruct (Crypto.cipher c) eqn:Hci.
  - injection Ho as Ho. rewrite bind_ok. by rewrite (aead_torn _ _ _ _ _ _ _ Ho) by lia.
  - unfold Crypto.extend_nonce in *. rewrite Hci in *. rewrite rassert_ok in * by by apply bool_decide_eq_true.
    rewrite !bind_ok in *. injection Ho as Ho. assert (Hz : ztake Crypto.AES_NONCE_SIZE nonce = nonce) by (apply ztake_ge; lia).
    rewrite Hz in *. by rewrite (aead_torn _ _ _ _ _ _ _ Ho) by lia.
Qed.

(** How much a frame takes. *)
Definition cap : Z := FRAME_SIZE - Crypto.overhead c.
Lemma cap_range : 16340 ≤ cap ≤ 16344.
Proof. pose proof (Crypto.overhead_range c). unfold cap, FRAME_SIZE. lia. Qed.

(** Whole frames, and a file that is all frames of [x], or is being written. *)
Inductive filled : bytes → bytes → Prop :=
| filled_nil : filled [] []
| filled_snoc x y m z : filled x y → zlen m = cap → frame m z → filled (x ++ m) (y ++ z).
Definition sealed x y : Prop :=
  ∃ x0 y0 m z, filled x0 y0 ∧ x = x0 ++ m ∧ y = y0 ++ z ∧ ((m = [] ∧ z = []) ∨ (0 < zlen m ≤ cap ∧ frame m z)).
Definition torn x y : Prop :=
  ∃ x0 y0 m z n, filled x0 y0 ∧ x0 ++ m `prefix_of` x ∧ y = y0 ++ ztake n z ∧ ((m = [] ∧ z = []) ∨ (0 < zlen m ≤ cap ∧ frame m z)).

Lemma opens_filled x y t : filled x y → opens (y ++ t) = (x' ← opens t; Ok (x ++ x')).
Proof.
  intros Hf. revert t. induction Hf as [|x y m z Hf IH Hm Hz]; intros t; [cbn [app]; by destruct (opens t)|].
  rewrite <- app_assoc, IH. destruct (frame_ok m z Hz) as [Hl Hd]. pose proof cap_range. unfold cap in Hm.
  assert (Hzl : zlen z = FRAME_SIZE) by lia. rewrite opens_step by (destruct z; [by rewrite zlen_nil in Hzl|done]).
  rewrite <- Hzl, ztake_zlen, zdrop_zlen, Hd. rewrite rassert_ok by (apply Z.ltb_lt; unfold cap in *; lia). rewrite bind_ok.
  destruct (opens t); cbn; [by rewrite app_assoc|done..].
Qed.
Lemma opens_part m z n : 0 < zlen m ≤ cap → frame m z →
  opens (ztake n z) = if n <? 1 then Ok [] else if n <? Crypto.nonce_size c then Panic else if n <? zlen z then Err Io else Ok m.
Proof.
  intros Hm Hz. destruct (frame_ok m z Hz) as [Hl Hd]. pose proof (Crypto.overhead_range c) as Ho. unfold Crypto.overhead, ATAG_SIZE in *.
  assert (Hzl : zlen z ≤ FRAME_SIZE) by (unfold cap, Crypto.overhead, ATAG_SIZE in *; lia).
  destruct (n <? 1) eqn:Hn; zify_b; [by rewrite ztake_0 by lia|].
  assert (Ht : zlen (ztake n z) = Z.min n (zlen z)) by (apply zlen_ztake; lia).
  rewrite opens_step by (intros He; rewrite He, zlen_nil in Ht; lia).
  rewrite (ztake_ge FRAME_SIZE), (zdrop_ge FRAME_SIZE) by lia. change (opens []) with (Ok (A:=bytes) []).
  destruct (n <? zlen z) eqn:Hnz; zify_b.
  - rewrite (frame_torn m) by (done || lia). by destruct (n <? Crypto.nonce_size c).
  - rewrite ztake_ge, Hd by done. rewrite rassert_ok by (apply Z.ltb_lt; lia). cbn. rewrite app_nil_r.
    destruct (n <? Crypto.nonce_size c) eqn:Hns; zify_b; [lia|done].
Qed.

Lemma opens_sealed x y : sealed x y → opens y = Ok x.
Proof.
  intros (x0 & y0 & m & z & Hf & -> & -> & Hmz). rewrite opens_filled with (x := x0) by done.
  destruct Hmz as [[-> ->]|[Hm Hz]]; [done|]. destruct (frame_ok m z Hz) as [Hl Hd]. pose proof (Crypto.overhead_range c).
  pose proof (Crypto.nonce_size_range c). rewrite <- (ztake_ge (zlen z) z) by lia. rewrite (opens_part m) by done.
  destruct (zlen z <? 1) eqn:Hz1, (zlen z <? Crypto.nonce_size c) eqn:Hz2, (zlen z <? zlen z) eqn:Hz3; zify_b; unfold Crypto.overhead, ATAG_SIZE in *; lia || done.
Qed.
(** Of a file being written comes all of it, a part of it up to a frame, or an error, or a panic if
    fewer bytes than a nonce's have been written of a frame. *)
Definition cut_short y : Prop := ∃ x0 y0 z, filled x0 y0 ∧ y = y0 ++ z ∧ 0 < zlen z < Crypto.nonce_size c.
Lemma opens_torn x y : torn x y → (∃ n, 0 ≤ n ≤ zlen x ∧ opens y = Ok (ztake n x)) ∨ opens y = Err Io ∨ (opens y = Panic ∧ cut_short y).
Proof.
  intros (x0 & y0 & m & z & n & Hf & [x1 ->] & -> & Hmz). rewrite opens_filled with (x := x0) by done.
  assert (Hall : ∀ a b : bytes, ∃ n, 0 ≤ n ≤ zlen ((x0 ++ a) ++ b) ∧ Ok (x0 ++ a) = Ok (ztake n ((x0 ++ a) ++ b))).
  { intros a b. exists (zlen (x0 ++ a)). rewrite ztake_zlen, (zlen_app (x0 ++ a)). pose proof (zlen_nonneg b). pose proof (zlen_nonneg (x0 ++ a)). split; [lia|done]. }
  destruct Hmz as [[-> ->]|[Hm Hz]].
  - left. rewrite ztake_nil. cbn. apply Hall.
  - rewrite (opens_part m) by done. destruct (n <? 1) eqn:Hn1; [|destruct (n <? Crypto.nonce_size c) eqn:Hn2; [right; right|destruct (n <? zlen z); [by right; left|]]]; [left; cbn| |left; cbn].
    + rewrite <- app_assoc. specialize (Hall [] (m ++ x1)). by rewrite !app_nil_r in Hall |- *.
    + split; [done|]. exists x0, y0, (ztake n z). split; [done|]. split; [done|]. zify_b.
      destruct (frame_ok m z Hz) as [Hl _]. pose proof (Crypto.overhead_range c). rewrite zlen_ztake; lia.
    + apply Hall.
Qed.
End frames.

(** ** Reading and writing a file of frames *)

Section io.
Context `{!Sodium, !SodiumLaws, !AeadStrict} {R : Type} `{!Random R, !RandomLaws R} (c : Crypto.Crypto) (k : bytes) (depth : nat).
Implicit Types (e : Env R) (p : Path) (x y m z : bytes) (P : Path → Prop).
Abbreviation opens := (opens c k).

Lemma frame_pos : 0 < FRAME_SIZE.
Proof. done. Qed.
Lemma first_frame y : ztake FRAME_SIZE y = [] → y = [].
Proof.
  intros Hy. destruct y as [|b y]; [done|]. pose proof (zlen_ztake FRAME_SIZE (b :: y) ltac:(by unfold FRAME_SIZE)) as Hz.
  rewrite Hy, zlen_nil, zlen_cons in Hz. pose proof (zlen_nonneg y). unfold FRAME_SIZE in Hz. lia.
Qed.
#[local] Opaque FRAME_SIZE.
Definition quiet e e' : Prop := still depth (os e) (os e').
Definition easy e : Prop := calm (os e).

Lemma on_os_spec {A} (m : run Os A) e (Q : A → Env R → Prop) (E : Error → Env R → Prop) (Hd : Env R → Prop) :
  spec m (os e) (λ a o, Q a (mkEnv o (rng e))) (λ er o, E er (mkEnv o (rng e))) (λ o, Hd (mkEnv o (rng e))) → spec (on_os m) e Q E Hd.
Proof. intros Hm. by apply spec_zoom. Qed.
Lemma env_quiet_trans e1 e2 e3 : quiet e1 e2 → quiet e2 e3 → quiet e1 e3.
Proof. apply still_trans. Qed.

(** What is left for a reader, and how much that is at most. *)
Definition reading (r : CryptoReader.CryptoReader) y : Prop :=
  0 ≤ CryptoReader.pos r ∧ 0 ≤ CryptoReader.rd r ≤ zlen (CryptoReader.frame r) ∧ CryptoReader.crypto r = c ∧ CryptoReader.key r = k.
Definition left_of (r : CryptoReader.CryptoReader) y : res bytes :=
  x ← opens (zdrop (CryptoReader.pos r) y); Ok (zdrop (CryptoReader.rd r) (CryptoReader.frame r) ++ x).
Definition much_left (r : CryptoReader.CryptoReader) y : Z :=
  zlen (CryptoReader.frame r) - CryptoReader.rd r + Z.max 0 (zlen y - CryptoReader.pos r).

Definition reads_on (r : CryptoReader.CryptoReader) y (a : bytes * CryptoReader.CryptoReader) : Prop :=
  CryptoReader.file a.2 = CryptoReader.file r ∧ reading a.2 y ∧ left_of r y = (x ← left_of a.2 y; Ok (a.1 ++ x)) ∧
  (a.1 = [] → left_of r y = Ok []) ∧ (a.1 ≠ [] → much_left a.2 y < much_left r y).

Lemma left_of_mk f pos fr rd y : left_of (CryptoReader.mkReader f pos fr rd c k) y = (x ← opens (zdrop pos y); Ok (zdrop rd fr ++ x)).
Proof. done. Qed.

(** A frame that is not exhausted gives some of its bytes. *)
Lemma read_frame n f pos fr rd y : 0 < n → reading (CryptoReader.mkReader f pos fr rd c k) y → rd < zlen fr →
  let out := ztake (Z.min n (zlen fr - rd)) (zdrop rd fr) in
  out ≠ [] ∧ reads_on (CryptoReader.mkReader f pos fr rd c k) y (out, CryptoReader.mkReader f pos fr (rd + zlen out) c k).
Proof.
  intros Hn (Hpos & Hrd & _ & _) Hlt out. cbn in *.
  assert (Hout : zlen out = Z.min n (zlen fr - rd)) by (unfold out; rewrite zlen_ztake, zlen_zdrop by lia; lia).
  assert (Hne : out ≠ []) by (intros Hnil; rewrite Hnil, zlen_nil in Hout; lia). split; [done|].
  split; [done|]. unfold reading, left_of, much_left. cbn. repeat split; try lia; try done.
  destruct (opens (zdrop pos y)); cbn; [|done..]. f_equal. rewrite app_assoc. f_equal.
  rewrite Z.add_comm, <- zdrop_zdrop, Hout by lia. symmetry. apply ztake_zdrop.
Qed.

Lemma frame_read_spec n r e y : vio_ok (os e) → Os.data (os e) !! CryptoReader.file r = Some y → reading r y → 0 < n →
  spec (CryptoReader.read n r) e (λ a e', quiet e e' ∧ reads_on r y a)
    (λ er e', quiet e e' ∧ (left_of r y = Err er ∨ ¬ sees (os e))) (λ e', quiet e e' ∧ (¬ easy e ∨ left_of r y = Panic)).
Proof.
  destruct r as [f pos fr rd cr ky]. intros Hok Hy Hr Hn. pose proof Hr as (Hpos & Hrd & Hcr & Hky). cbn in Hy, Hpos, Hrd, Hcr, Hky. subst cr ky.
  unfold CryptoReader.read. cbn [CryptoReader.frame CryptoReader.rd CryptoReader.file CryptoReader.pos CryptoReader.crypto CryptoReader.key].
  destruct (zlen fr <=? rd) eqn:Hex; zify_b.
  2: { apply spec_bind, spec_ret. cbn beta iota. rewrite rassert_ok by (apply Z.ltb_lt; cbn; lia). apply spec_bind, spec_lift_ok, spec_ret.
       split; [by apply still_refl|]. by apply (read_frame n). }
  assert (Hfr : zdrop rd fr = []) by (apply zdrop_ge; lia). set (t := zdrop pos y).
  assert (Hleft : left_of (CryptoReader.mkReader f pos fr rd c k) y = opens t) by (unfold left_of; cbn; rewrite Hfr; by destruct (opens _)).
  rewrite Hleft. apply spec_bind, spec_bind, on_os_spec. eapply spec_mono; [by apply rcall_spec| |by intros er o ([?|[_ ?]] & Hs & _); [|split; [|right]]|].
  2: { intros o (Hs & _ & [Hc|?]); [|done]. split; [done|]. by left. }
  cbn beta. intros enc o ([= <-] & Hs & _). unfold Vio.contents. rewrite Hy. change (default [] (Some y)) with y. fold t.
  destruct (ztake FRAME_SIZE t) as [|b enc'] eqn:Henc.
  - assert (Ht : t = []) by by apply first_frame.
    apply spec_ret, spec_ret. split; [done|]. unfold reads_on. cbn. rewrite Hleft. split; [done|]. split; [done|].
    rewrite Ht. by repeat split.
  - rewrite <- Henc. assert (Hne : t ≠ []) by (intros ->; by rewrite ztake_nil in Henc). rewrite (opens_step c k t Hne).
    apply spec_bind. unfold to_io. apply spec_or_else. destruct (Crypto.decrypt_to c (ztake FRAME_SIZE t) k) as [m|er|] eqn:Hd.
    + apply spec_lift_ok, spec_ret. cbn beta iota. cbn [CryptoReader.rd CryptoReader.frame]. destruct (0 <? zlen m) eqn:Hm.
      2: { unfold spec, mbind, run_bind. cbn. split; [done|]. by right. }
      zify_b. apply spec_bind, spec_lift_ok, spec_ret. split; [done|]. cbn [CryptoReader.file CryptoReader.pos CryptoReader.frame CryptoReader.rd CryptoReader.crypto CryptoReader.key].
      assert (Hpos' : zdrop (pos + zlen (ztake FRAME_SIZE t)) y = zdrop FRAME_SIZE t).
      { unfold t. rewrite zlen_ztake, zlen_zdrop, zdrop_zdrop by (pose proof frame_pos; lia).
        destruct (Z_le_gt_dec FRAME_SIZE (Z.max 0 (zlen y - pos))); [f_equal; lia|].
        rewrite !zdrop_ge; [done|lia..]. }
      pose proof (decrypt_length _ _ _ _ Hd) as Hdl. pose proof (Crypto.overhead_range c) as Ho.
      assert (Hel : 0 < zlen (ztake FRAME_SIZE t)) by lia.
      destruct (read_frame n f (pos + zlen (ztake FRAME_SIZE t)) m 0 y Hn) as (Hout & Hf & Hr' & Hl & _ & Hmuch); [unfold reading; cbn [CryptoReader.pos CryptoReader.frame CryptoReader.rd CryptoReader.crypto CryptoReader.key]; repeat split; (done || lia)|lia|].
      assert (Heq : left_of (CryptoReader.mkReader f pos fr rd c k) y = left_of (CryptoReader.mkReader f (pos + zlen (ztake FRAME_SIZE t)) m 0 c k) y).
      { rewrite Hleft, (opens_step c k t Hne), Hd, rassert_ok by (apply Z.ltb_lt; lia). rewrite bind_ok, left_of_mk, Hpos', (zdrop_0 0 m) by lia. done. }
      unfold reads_on in *. rewrite Heq. repeat (split; [done|]). intros Hout'. etrans; [by apply Hmuch|].
      assert (Htl : zlen t = Z.max 0 (zlen y - pos)) by (unfold t; apply zlen_zdrop; lia).
      assert (Hen : zlen (ztake FRAME_SIZE t) ≤ zlen t) by (pose proof frame_pos; rewrite zlen_ztake by lia; lia).
      unfold much_left. cbn [CryptoReader.pos CryptoReader.frame CryptoReader.rd].
      lia.
    + apply spec_fail. split; [done|by left].
    + split; [done|]. by right.
Qed.

Lemma frames_read_spec fuel bufs r e y :
  vio_ok (os e) → Os.data (os e) !! CryptoReader.file r = Some y → reading r y → (∀ n : nat, 0 < bufs n) → much_left r y < Z.of_nat fuel →
  spec (CryptoReader.read_to_end fuel bufs r) e (λ x e', quiet e e' ∧ left_of r y = Ok x)
    (λ er e', quiet e e' ∧ (left_of r y = Err er ∨ ¬ sees (os e))) (λ e', quiet e e' ∧ (¬ easy e ∨ left_of r y = Panic)).
Proof.
  revert e r. induction fuel as [|fuel IH]; intros e r Hok Hy Hr Hb Hfuel.
  { destruct Hr as (? & ? & _). unfold much_left in Hfuel. lia. }
  cbn [CryptoReader.read_to_end]. step_by frame_read_spec; [done|done|done|done| |done|done].
  cbn beta. intros [out r'] e1 (Hq & Hf & Hr' & Hl & Hnil & Hmuch). cbn [fst snd] in *.
  destruct out as [|b out]; [apply spec_ret; by rewrite Hnil|]. specialize (Hmuch ltac:(done)).
  assert (Hy' : Os.data (os e1) !! CryptoReader.file r' = Some y) by (rewrite Hf; by destruct Hq as (_ & _ & _ & _ & -> & _)).
  apply spec_bind. eapply spec_mono; [apply (IH e1 r'); [apply Hq|done|done|done|lia]|..]; cbn beta; rewrite Hl.
  - intros x e2 [Hq2 ->]. apply spec_ret. split; [by eapply env_quiet_trans|done].
  - intros er e2 [Hq2 Hx]. split; [by eapply env_quiet_trans|]. destruct Hx as [->|Hx]; [by left|right]. contradict Hx. by apply Hq.
  - intros e2 [Hq2 Hx]. split; [by eapply env_quiet_trans|]. destruct Hx as [Hx| ->]; [left; contradict Hx; by apply Hq|by right].
Qed.

(** *** Writing *)

(** A writer of the file [p] that has taken [x]. *)
Record writing (w : CryptoWriter.CryptoWriter) p e x : Prop := {
  wr_link : Os.links (os e) !! p = Some (CryptoWriter.file w);
  wr_cap : CryptoWriter.cap w = cap c; wr_crypto : CryptoWriter.crypto w = c; wr_key : CryptoWriter.key w = k;
  wr_file : ∃ x0 y0, filled c k x0 y0 ∧ file (os e) p = Some y0 ∧ CryptoWriter.written w = zlen y0 ∧ x = x0 ++ CryptoWriter.stg w;
  wr_room : zlen (CryptoWriter.stg w) ≤ cap c
}.
(** What a writer leaves when it breaks off. *)
Definition leaves p x e e' : Prop := touches depth (eq p) (os e) (os e') ∧ ∃ y, file (os e') p = Some y ∧ torn c k x y.
Definition breaks e : Prop := ¬ easy e ∨ Crypto.aead_fails.

Lemma patch_end x bs : Vio.patch x (zlen x) bs = x ++ bs.
Proof.
  unfold Vio.patch. destruct bs as [|b bs]; [by rewrite app_nil_r|]. rewrite ztake_ge, Z.sub_diag by lia. cbn [Z.to_nat replicate app].
  by rewrite zdrop_ge, app_nil_r by (rewrite zlen_cons; pose proof (zlen_nonneg bs); lia).
Qed.

(** The frame of the bytes staged is appended to the file. *)
Definition framed (w w' : CryptoWriter.CryptoWriter) p e e' : Prop :=
  touches depth (eq p) (os e) (os e') ∧ Os.links (os e') = Os.links (os e) ∧
  CryptoWriter.file w' = CryptoWriter.file w ∧ CryptoWriter.cap w' = CryptoWriter.cap w ∧
  CryptoWriter.crypto w' = CryptoWriter.crypto w ∧ CryptoWriter.key w' = CryptoWriter.key w ∧
  ∃ y z, file (os e) p = Some y ∧ file (os e') p = Some (y ++ z) ∧ CryptoWriter.written w' = zlen (y ++ z) ∧ CryptoWriter.stg w' = [] ∧
    ((CryptoWriter.stg w = [] ∧ z = []) ∨ (0 < zlen (CryptoWriter.stg w) ∧ frame c k (CryptoWriter.stg w) z)).
Lemma seal_frame_spec w p e x x1 : vio_ok (os e) → writing w p e x →
  spec (CryptoWriter.write_frame w) e (λ w' e', framed w w' p e e')
    (λ er e', leaves p (x ++ x1) e e' ∧ breaks e) (λ e', leaves p (x ++ x1) e e' ∧ breaks e).
Proof.
  intros Hok [Hlink Hcap Hcr Hky (x0 & y0 & Hf & Hfile & Hwr & ->) Hroom]. unfold CryptoWriter.write_frame.
  destruct (zlen (CryptoWriter.stg w) =? 0) eqn:Hz; zify_b.
  { assert (Hstg : CryptoWriter.stg w = []) by (destruct (CryptoWriter.stg w) as [|b l]; [done|rewrite zlen_cons in Hz; pose proof (zlen_nonneg l); lia]).
    apply spec_ret. split; [by apply still_touches, still_refl|]. repeat (split; [done|]). exists y0, []. rewrite app_nil_r. auto 10. }
  assert (Hpos : 0 < zlen (CryptoWriter.stg w)) by (pose proof (zlen_nonneg (CryptoWriter.stg w)); lia).
  apply spec_bind. unfold draw, spec. destruct (random_buf Crypto.AES_NONCE_SIZE (rng e)) as [nonce g] eqn:Hg.
  assert (Hn : zlen nonce = Crypto.AES_NONCE_SIZE) by (pose proof (random_length Crypto.AES_NONCE_SIZE (rng e) ltac:(done)) as Hl; by rewrite Hg in Hl).
  set (e0 := mkEnv (os e) g). assert (Hleave : leaves p ((x0 ++ CryptoWriter.stg w) ++ x1) e e0).
  { split; [by apply still_touches, still_refl|]. exists y0. split; [done|]. exists x0, y0, [], [], 0. rewrite !app_nil_r, <- app_assoc.
    split; [done|]. split; [by apply prefix_app_r|]. split; [done|]. by left. }
  change (spec (frame ← lift (Crypto.encrypt_to (CryptoWriter.crypto w) nonce (CryptoWriter.stg w) (CryptoWriter.key w));
    _ ← on_os (io (Vio.write_all (CryptoWriter.file w) (CryptoWriter.written w) frame));
    mret (CryptoWriter.mkWriter (CryptoWriter.file w) [] (CryptoWriter.cap w) (CryptoWriter.written w + zlen frame) (CryptoWriter.crypto w) (CryptoWriter.key w)))
    e0 (λ w' e', framed w w' p e e') (λ er e', leaves p ((x0 ++ CryptoWriter.stg w) ++ x1) e e' ∧ breaks e)
    (λ e', leaves p ((x0 ++ CryptoWriter.stg w) ++ x1) e e' ∧ breaks e)).
  rewrite Hcr, Hky. apply spec_bind.
  destruct (Crypto.encrypt_raw_cases c nonce (CryptoWriter.stg w) k []) as [[z Hz']|[He Haf]].
  2: { unfold Crypto.encrypt_to. rewrite He. apply spec_fail. split; [done|]. by right. }
  change (Crypto.encrypt_to c nonce (CryptoWriter.stg w) k = Ok z) in Hz'. rewrite Hz'. apply spec_lift_ok.
  assert (Hfr : frame c k (CryptoWriter.stg w) z) by (exists nonce; done).
  assert (Hcont : Vio.contents (CryptoWriter.file w) (os e) = y0).
  { unfold file in Hfile. rewrite Hlink in Hfile. cbn in Hfile. unfold Vio.contents. by rewrite Hfile. }
  assert (Hpart : ∀ n o, written depth p (CryptoWriter.file w) (CryptoWriter.written w) (ztake n z) (os e) o →
    leaves p ((x0 ++ CryptoWriter.stg w) ++ x1) e (mkEnv o g)).
  { intros n o (Ht & _ & _ & Ho). split; [done|]. rewrite Hcont, Hwr, patch_end in Ho. exists (y0 ++ ztake n z). split; [done|].
    exists x0, y0, (CryptoWriter.stg w), z, n. split; [done|]. split; [by apply prefix_app_r|]. split; [done|]. right. auto. }
  apply spec_bind, on_os_spec. unfold io. apply spec_or_else. change (os e0) with (os e). eapply spec_mono; [by apply (vio_write_spec depth p)|..]; cbn beta.
  - intros [] o (Ht & Hl & _ & Ho). apply spec_ret. rewrite Hcont, Hwr, patch_end in Ho. split; [done|]. split; [done|].
    cbn [CryptoWriter.file CryptoWriter.cap CryptoWriter.crypto CryptoWriter.key CryptoWriter.written CryptoWriter.stg].
    repeat (split; [done|]). exists y0, z. rewrite zlen_app, Hwr. auto 10.
  - intros er o [[n Hw] Hc]. apply spec_fail. split; [by eapply Hpart|]. by left.
  - intros o [[n Hw] Hc]. split; [by eapply Hpart|]. by left.
Qed.

Lemma framed_writing w w' p e e' x :
  writing w p e x → zlen (CryptoWriter.stg w) = cap c → framed w w' p e e' → writing w' p e' x ∧ CryptoWriter.stg w' = [].
Proof.
  intros [Hlink Hcap Hcr Hky (x0 & y0 & Hf & Hfile & Hwr & ->) Hroom] Hfull (_ & Hl & Hfw & Hcw & Hcrw & Hkw & y & z & Hy & Hy' & Hwr' & Hstg & Hz).
  pose proof (cap_range c) as Hcr0. split; [|done]. split; try congruence.
  - exists (x0 ++ CryptoWriter.stg w), (y ++ z). rewrite Hstg, app_nil_r. split; [|done]. assert (y = y0) as -> by congruence.
    apply filled_snoc; [done|done|]. destruct Hz as [[Hz _]|[_ Hz]]; [|done]. rewrite Hz, zlen_nil in Hfull. lia.
  - rewrite Hstg, zlen_nil. lia.
Qed.
Lemma leaves_trans p x e0 e e' : touches depth (eq p) (os e0) (os e) → leaves p x e e' → leaves p x e0 e'.
Proof. intros Ht [Ht' Hy]. split; [by eapply touches_trans|done]. Qed.
Lemma breaks_back p e0 e : touches depth (eq p) (os e0) (os e) → breaks e → breaks e0.
Proof. intros Ht [Hb|Hb]; [left; contradict Hb; by eapply touches_calm|by right]. Qed.

Lemma seal_write_spec w p e x buf x1 : vio_ok (os e) → writing w p e x → zlen (CryptoWriter.stg w) < cap c → 0 < zlen buf →
  spec (CryptoWriter.write buf w) e
    (λ a e', touches depth (eq p) (os e) (os e') ∧ 0 < a.1 ≤ zlen buf ∧ writing a.2 p e' (x ++ ztake a.1 buf) ∧ zlen (CryptoWriter.stg a.2) < cap c)
    (λ er e', leaves p (x ++ buf ++ x1) e e' ∧ breaks e) (λ e', leaves p (x ++ buf ++ x1) e e' ∧ breaks e).
Proof.
  intros Hok Hw Hroom Hbuf. pose proof Hw as [Hlink Hcap Hcr Hky (x0 & y0 & Hf & Hfile & Hwr & ->) _].
  unfold CryptoWriter.write. rewrite Hcap, u_sub_ok by lia. apply spec_bind, spec_lift_ok.
  set (n := Z.min (zlen buf) (cap c - zlen (CryptoWriter.stg w))). set (copy := ztake n buf).
  assert (Hcopy : zlen copy = n) by (unfold copy; rewrite zlen_ztake by lia; lia).
  set (w1 := CryptoWriter.mkWriter (CryptoWriter.file w) (CryptoWriter.stg w ++ copy) (cap c) (CryptoWriter.written w) (CryptoWriter.crypto w) (CryptoWriter.key w)).
  assert (Hlen1 : zlen (CryptoWriter.stg w1) = zlen (CryptoWriter.stg w) + n) by (cbn; by rewrite zlen_app, Hcopy).
  assert (Hw1 : writing w1 p e ((x0 ++ CryptoWriter.stg w) ++ copy)).
  { split; try done; [|lia]. exists x0, y0. cbn. by rewrite app_assoc. }
  change (CryptoWriter.cap w1) with (cap c). apply spec_bind. destruct (cap c <=? zlen (CryptoWriter.stg w1)) eqn:Hfull; zify_b.
  - assert (Hn : 0 < n ≤ zlen buf) by (unfold n; lia).
    unfold to_io. apply spec_or_else.
    replace ((x0 ++ CryptoWriter.stg w) ++ buf ++ x1) with (((x0 ++ CryptoWriter.stg w) ++ copy) ++ zdrop n buf ++ x1)
      by (rewrite <- !app_assoc; do 2 f_equal; rewrite app_assoc; f_equal; apply ztake_zdrop).
    eapply spec_mono; [by apply (seal_frame_spec w1 p e ((x0 ++ CryptoWriter.stg w) ++ copy) (zdrop n buf ++ x1))| | |done]; cbn beta.
    + intros w2 e2 Hfr. destruct (framed_writing w1 w2 p e e2 _ Hw1 ltac:(lia) Hfr) as [Hw2 Hs2]. apply spec_ret.
      split; [apply Hfr|]. cbn [fst snd]. rewrite Hcopy. split; [lia|]. split; [done|]. rewrite Hs2, zlen_nil. pose proof (cap_range c). lia.
    + intros er e2 H2. by apply spec_fail.
  - assert (Hn : 0 < n ≤ zlen buf) by (unfold n; lia).
    apply spec_ret, spec_ret. cbn [fst snd]. split; [by apply still_touches, still_refl|]. rewrite Hcopy. split; [lia|]. by split.
Qed.

Lemma write_all_bytes fuel buf w p e x : vio_ok (os e) → writing w p e x → zlen (CryptoWriter.stg w) < cap c → (length buf ≤ fuel)%nat →
  spec (CryptoWriter.write_all fuel buf w) e
    (λ w' e', touches depth (eq p) (os e) (os e') ∧ writing w' p e' (x ++ buf) ∧ zlen (CryptoWriter.stg w') < cap c)
    (λ er e', leaves p (x ++ buf) e e' ∧ breaks e) (λ e', leaves p (x ++ buf) e e' ∧ breaks e).
Proof.
  revert buf w e x. induction fuel as [|fuel IH]; intros buf w e x Hok Hw Hroom Hfuel; (destruct buf as [|b buf];
    [apply spec_ret; rewrite app_nil_r; split; [by apply still_touches, still_refl|done]|]); [cbn in Hfuel; lia|].
  assert (Hbuf : 0 < zlen (b :: buf)) by (rewrite zlen_cons; pose proof (zlen_nonneg buf); lia).
  cbn [CryptoWriter.write_all]. set (l := b :: buf) in *. apply spec_bind.
  eapply spec_mono; [by apply (seal_write_spec w p e x l [])|..]; cbn beta; rewrite ?app_nil_r; [|done|done].
  intros [n w1] e1 (Ht & Hn & Hw1 & Hroom1). cbn [fst snd] in *. rewrite (proj2 (Z.eqb_neq n 0)) by lia.
  replace (x ++ l) with ((x ++ ztake n l) ++ zdrop n l) by (rewrite <- app_assoc; f_equal; apply ztake_zdrop).
  eapply spec_mono; [apply (IH (zdrop n l) w1 e1 (x ++ ztake n l)); [by eapply touches_ok|done|done|]|..]; cbn beta.
  - unfold zdrop. rewrite length_drop. unfold l in *. cbn [length] in *. lia.
  - intros w2 e2 (Ht2 & Hw2 & Hroom2). split; [by eapply touches_trans|done].
  - intros er e2 [Hl2 Hb2]. split; [by eapply leaves_trans|by eapply breaks_back].
  - intros e2 [Hl2 Hb2]. split; [by eapply leaves_trans|by eapply breaks_back].
Qed.

Lemma seal_finish_spec w p e x : vio_ok (os e) → writing w p e x →
  spec (CryptoWriter.finish w) e (λ _ e', touches depth (eq p) (os e) (os e') ∧ ∃ y, file (os e') p = Some y ∧ sealed c k x y)
    (λ er e', leaves p x e e' ∧ breaks e) (λ e', leaves p x e e' ∧ breaks e).
Proof.
  intros Hok Hw. unfold CryptoWriter.finish. apply spec_bind.
  eapply spec_mono; [by apply (seal_frame_spec w p e x [])|..]; cbn beta; rewrite ?app_nil_r; [|done|done].
  intros w' e' (Ht & _ & _ & _ & _ & _ & y & z & Hy & Hy' & _ & _ & Hz). apply spec_ret. split; [done|]. exists (y ++ z). split; [done|].
  destruct Hw as [_ _ _ _ (x0 & y0 & Hf & Hfile & _ & ->) Hroom]. assert (y = y0) as -> by congruence.
  exists x0, y0, (CryptoWriter.stg w), z. repeat (split; [done|]). destruct Hz as [Hz|[Hpos Hz]]; [by left|]. right. split; [lia|done].
Qed.
End io.

(** ** Items in files *)

(** Hashes are ids of 32 bytes, those of the two arms of an item differ. *)
Class ArmHashIds `{!ArmHash} : Prop := {
  to_eid_ok a i : id_ok (to_eid a i);
  to_eid_ne a b i : to_eid a i = to_eid b i → a = b
}.

Section armor.
Context `{!ArmHash, !ArmHashIds, !Sodium, !SodiumLaws, !AeadStrict} {R I : Type} `{!Random R, !RandomLaws R}.
Context `{!ArmAccess I, !Serde bytes I, !SerdeLaws bytes I, !ArmAccessLaws bytes I, !SerdeStrict I}.
Context (bufs : nat → Z) (bufs_pos : ∀ n : nat, 0 < bufs n) (fa : FileArmor.FileArmor).
Implicit Types (e : Env R) (s : Os) (id i : Eid) (a : Arm.Arm) (t j : I) (p : Path).
Abbreviation path := (FileArmor.arm_path fa).
Abbreviation opens := (opens (FileArmor.crypto fa) (FileArmor.key fa)).

(** How deep the directories are in which files are. *)
Definition depth : nat := 2 + length (FileArmor.base fa).
Abbreviation quiet := (quiet depth).
Abbreviation touches := (touches depth).

Lemma arm_path_inj i i' : id_ok i → id_ok i' → path i = path i' → i = i'.
Proof. intros Hi Hj Hp. apply to_string_inj; [done..|]. exact (f_equal (λ l, default EmptyString (head l)) Hp). Qed.
Lemma path_length i : length (path i) = S depth.
Proof. done. Qed.

(** What an arm has, and what loading the item gives. *)
Definition arm_val s id a : res I :=
  match file s (path (to_eid a id)) with
  | None => Err NotFound
  | Some y => match opens y with Ok x => ok_or Decode (decode x) | Err er => Err er | Panic => Panic end
  end.
Definition newer (l r : res I) : res I :=
  match l, r with
  | Panic, _ | _, Panic => Panic
  | Ok l, Ok r => if item_seq l =? item_seq r then Panic else Ok (if item_seq r <? item_seq l then l else r)
  | Ok l, Err _ => Ok l
  | Err _, r => r
  end.
Definition loaded s id : res I := newer (arm_val s id Arm.Left) (arm_val s id Arm.Right).

(** The file of an arm ends within the nonce of a frame. *)
Definition shortened s id a : Prop :=
  ∃ y, file s (path (to_eid a id)) = Some y ∧ cut_short (FileArmor.crypto fa) (FileArmor.key fa) y.
(** What has come of an arm that could not be saved. *)
Definition spoilt s id a : Prop :=
  arm_val s id a = Err Decode ∨ arm_val s id a = Err Io ∨ (arm_val s id a = Panic ∧ shortened s id a).

Lemma arm_val_still s s' id a : still depth s s' → arm_val s' id a = arm_val s id a.
Proof. intros Hs. unfold arm_val. by rewrite (still_file depth s s'). Qed.
Lemma arm_val_touches (P : Path → Prop) s s' id a : touches P s s' → ¬ P (path (to_eid a id)) → arm_val s' id a = arm_val s id a.
Proof. intros Ht Hp. unfold arm_val. by rewrite (touches_file depth P s s'). Qed.

(** *** Loading *)

Lemma load_file_arm_spec id a e : vio_ok (os e) →
  spec (FileArmor.load_one_arm bufs fa id a) e (λ t e', quiet e e' ∧ arm_val (os e) id a = Ok t)
    (λ er e', quiet e e' ∧ (arm_val (os e) id a = Err er ∨ ¬ sees (os e))) (λ e', quiet e e' ∧ (¬ easy e ∨ arm_val (os e) id a = Panic)).
Proof.
  intros Hok. unfold FileArmor.load_one_arm, FileArmor.get_item_reader. set (p := path (to_eid a id)).
  apply spec_bind, spec_bind, on_os_spec. eapply spec_mono; [by apply (rcall_spec depth)|..]; cbn beta.
  - intros f o (Hf & Hs & _). destruct (Os.links (os e) !! p) as [g|] eqn:Hl; [|done]. injection Hf as ->.
    destruct (vo_link _ Hok _ _ Hl) as (pn & pq & _ & _ & _ & _ & [y Hy]). set (e1 := mkEnv o (rng e)).
    assert (Hq1 : quiet e e1) by done. assert (Hy1 : Os.data o !! f = Some y) by (destruct Hs as (_ & _ & _ & _ & -> & _); done).
    assert (Hval : arm_val (os e) id a = match opens y with Ok x => ok_or Decode (decode x) | Err er => Err er | Panic => Panic end).
    { unfold arm_val. fold p. unfold file. rewrite Hl. cbn. by rewrite Hy. }
    apply spec_ret, spec_bind, spec_ask. cbn [CryptoReader.file CryptoReader.new]. unfold Vio.contents. cbn [os e1]. rewrite Hy1.
    change (default [] (Some y)) with y. set (rdr := CryptoReader.new f (FileArmor.crypto fa) (FileArmor.key fa)).
    assert (Hrd : reading (FileArmor.crypto fa) (FileArmor.key fa) rdr y) by (repeat split; done).
    assert (Hleft : left_of (FileArmor.crypto fa) (FileArmor.key fa) rdr y = opens y).
    { unfold rdr, CryptoReader.new. rewrite left_of_mk, (zdrop_0 0 y) by done. change (zdrop 0 []) with (@nil Z). by destruct (opens y). }
    apply spec_bind. eapply spec_mono; [apply (frames_read_spec (FileArmor.crypto fa) (FileArmor.key fa) depth (S (length y)) bufs rdr e1 y); [apply Hs|done|done|done|]|..]; cbn beta.
    + unfold much_left, rdr, zlen. cbn. lia.
    + intros x e2 [Hq2 Hx]. rewrite Hleft in Hx. rewrite Hval, Hx. assert (Hq : quiet e e2) by by eapply env_quiet_trans.
      destruct (decode x); [by apply spec_lift_ok|by apply spec_fail; auto].
    + intros er e2 [Hq2 Hx]. split; [by eapply env_quiet_trans|]. rewrite Hleft in Hx. rewrite Hval.
      destruct Hx as [-> |Hx]; [by left|right]. contradict Hx. by apply Hq1.
    + intros e2 [Hq2 Hx]. split; [by eapply env_quiet_trans|]. rewrite Hleft in Hx. rewrite Hval.
      destruct Hx as [Hx| ->]; [left; contradict Hx; by apply Hq1|by right].
  - intros er o ([Hf|[_ Hf]] & Hs & _); (split; [done|]); [left|by right]. unfold arm_val. fold p. unfold file.
    destruct (Os.links (os e) !! p); [done|]. cbn. by injection Hf as <-.
  - intros o (Hs & _ & [Hc|Hf]); [split; [done|by left]|]. by destruct (Os.links (os e) !! p).
Qed.

Lemma load_item_spec id e : vio_ok (os e) →
  spec (FileArmor.load_item bufs fa id) e (λ t e', quiet e e' ∧ (loaded (os e) id = Ok t ∨ ¬ sees (os e)))
    (λ er e', quiet e e' ∧ (loaded (os e) id = Err er ∨ ¬ sees (os e))) (λ e', quiet e e' ∧ (¬ easy e ∨ loaded (os e) id = Panic)).
Proof.
  intros Hok. unfold FileArmor.load_item, loaded. set (l := arm_val (os e) id Arm.Left). set (r := arm_val (os e) id Arm.Right).
  set (seen v (x : res I) := x ≠ Panic ∧ (v = x ∨ ((∃ er, x = Err er) ∧ ¬ sees (os e)))).
  assert (Hl : spec (attempt (FileArmor.load_one_arm bufs fa id Arm.Left)) e (λ x e', quiet e e' ∧ seen l x) (λ _ _, False)
    (λ e', quiet e e' ∧ (¬ easy e ∨ l = Panic))).
  { apply spec_attempt. eapply spec_mono; [by apply load_file_arm_spec|..]; cbn beta; unfold seen; naive_solver. }
  assert (Hr : ∀ e1, quiet e e1 → spec (attempt (FileArmor.load_one_arm bufs fa id Arm.Right)) e1 (λ x e', quiet e e' ∧ seen r x) (λ _ _, False)
    (λ e', quiet e e' ∧ (¬ easy e ∨ r = Panic))).
  { intros e1 Hq. apply spec_attempt. assert (Hr : arm_val (os e1) id Arm.Right = r) by by apply arm_val_still.
    eapply spec_mono; [apply load_file_arm_spec; apply Hq|..]; cbn beta; rewrite Hr.
    - intros t e2 [Hq2 Ht]. split; [by eapply env_quiet_trans|]. split; [done|by left].
    - intros er e2 [Hq2 Ht]. split; [by eapply env_quiet_trans|]. split; [done|]. destruct Ht as [Ht|Ht]; [by left|right; split; [eauto|]].
      contradict Ht. by apply Hq.
    - intros e2 [Hq2 Ht]. split; [by eapply env_quiet_trans|]. destruct Ht as [Ht|]; [left; contradict Ht; by apply Hq|by right]. }
  apply spec_bind. eapply spec_mono; [apply Hl| |done|].
  - cbn beta. intros x e1 (Hq1 & Hxp & Hx). apply spec_bind. eapply spec_mono; [by apply Hr| |done|].
    + cbn beta. intros z e2 (Hq2 & Hzp & Hz). destruct x as [t|er|]; [| |done].
      * assert (Hlt : l = Ok t) by (destruct Hx as [|[[? ?] _]]; done). destruct z as [u|er|]; [| |done].
        -- assert (Hru : r = Ok u) by (destruct Hz as [|[[? ?] _]]; done). rewrite Hlt, Hru. cbn [newer].
           destruct (item_seq t =? item_seq u) eqn:Hs; cbn [negb rassert].
           ++ unfold spec, mbind, run_bind. cbn. split; [done|]. by right.
           ++ apply spec_bind, spec_lift_ok, spec_ret. auto.
        -- apply spec_ret. split; [done|]. destruct Hz as [Hz|[_ Hz]]; [left; by rewrite Hlt, Hz|by right].
      * destruct z as [u|er'|]; [..|done]; [apply spec_lift_ok|apply spec_fail]; (split; [done|]);
          (destruct Hx as [Hx|[_ Hx]]; [|by right]); (destruct Hz as [Hz|[_ Hz]]; [|by right]); left; by rewrite Hx, Hz.
    + intros e2 [Hq2 Hz]. split; [done|]. destruct Hz as [|Hz]; [by left|right]. rewrite Hz. by destruct l as [| |].
  - intros e1 [Hq1 Hx]. split; [done|]. destruct Hx as [|Hx]; [by left|right]. by rewrite Hx.
Qed.

(** *** Saving *)

(** Something is in the way of the file. *)
Definition hindered p s : Prop := Vio.blocked (tail p) s = true ∨ p ∈ Os.dirs s.
(** The file is as it was, or holds some of the bytes. *)
Definition half p x e e' : Prop :=
  touches (eq p) (os e) (os e') ∧
  (file (os e') p = file (os e) p ∨ ∃ y, file (os e') p = Some y ∧ torn (FileArmor.crypto fa) (FileArmor.key fa) x y).

Lemma save_bytes_spec i x e : let p := path i in vio_ok (os e) →
  spec (FileArmor.save_bytes fa i x) e
    (λ _ e', touches (eq p) (os e) (os e') ∧ ∃ y, file (os e') p = Some y ∧ sealed (FileArmor.crypto fa) (FileArmor.key fa) x y)
    (λ _ e', half p x e e' ∧ (breaks e ∨ hindered p (os e))) (λ e', half p x e e' ∧ breaks e).
Proof.
  intros p Hok. unfold FileArmor.save_bytes, FileArmor.get_item_writer.
  assert (Hhalf : ∀ e', quiet e e' → half p x e e') by (intros e' Hq; split; [by apply still_touches|left; by apply (still_file depth)]).
  apply spec_bind, spec_bind, on_os_spec. eapply spec_mono; [apply (ensure_parents_spec depth); [done|unfold depth; cbn; lia]|..]; cbn beta.
  2: { intros er o (Hs & _ & Hr). split; [by apply Hhalf|]. destruct Hr as [Hr|Hr]; [left; by left|by right; left]. }
  2: { intros o [Hs Hc]. split; [by apply Hhalf|]. by left. }
  intros [] o (Hs & Hdir). set (e1 := mkEnv o (rng e)). assert (Hq1 : quiet e e1) by done.
  assert (Hopened : ∀ o2, opened depth true o p o2 → leaves (FileArmor.crypto fa) (FileArmor.key fa) depth p x e (mkEnv o2 (rng e))).
  { intros o2 (Ht2 & _ & Hf2). split; [eapply touches_trans; [by apply still_touches|done]|]. exists []. split; [done|].
    exists [], [], [], [], 0. split; [constructor|]. split; [apply prefix_nil|]. split; [done|by left]. }
  assert (Hleft : ∀ e', leaves (FileArmor.crypto fa) (FileArmor.key fa) depth p x e e' → half p x e e') by (intros e' [Ht Hy]; split; auto).
  apply spec_bind, on_os_spec. unfold io. apply spec_or_else. eapply spec_mono; [by apply (open_create_spec depth), Hs|..]; cbn beta.
  2: { intros er o2 [Hs2 Hr]. apply spec_fail. split; [destruct Hs2 as [Hs2|Hs2]; [by apply Hhalf; eapply still_trans|by apply Hleft, Hopened]|].
       destruct Hr as [Hr|[Hr|Hr]]; [left; left; contradict Hr; by apply Hs|..].
       - destruct (proj1 (proj2 (proj2 Hs)) _ Hr) as [Hd|Hd]; [by right; right|]. pose proof (path_length i) as Hl. unfold path in Hl. cbn in Hl, Hd. unfold depth in Hd. lia.
       - destruct (Vio.blocked (tail p) (os e)) eqn:Hbl; [by right; left|]. by destruct Hr; apply Hdir. }
  2: { intros o2 [Hs2 Hc]. split; [destruct Hs2 as [Hs2|Hs2]; [by apply Hhalf; eapply still_trans|by apply Hleft, Hopened]|].
       left. contradict Hc. by apply Hs. }
  intros f o2 (Ho2 & Hlink & _). set (e2 := mkEnv o2 (rng e)). pose proof (Hopened o2 Ho2) as [Ht2 _]. destruct Ho2 as (_ & _ & Hf2).
  pose proof (cap_range (FileArmor.crypto fa)) as Hcap. pose proof (Crypto.overhead_range (FileArmor.crypto fa)) as Hov. unfold CryptoWriter.new.
  rewrite (Crypto.decrypted_len_ok _ FRAME_SIZE) by (unfold cap in Hcap; lia). rewrite bind_ok. apply spec_lift_ok.
  set (w := CryptoWriter.mkWriter f [] (FRAME_SIZE - Crypto.overhead (FileArmor.crypto fa)) 0 (FileArmor.crypto fa) (FileArmor.key fa)).
  assert (Hw : writing (FileArmor.crypto fa) (FileArmor.key fa) w p e2 []).
  { split; try done; [|cbn; rewrite zlen_nil; lia]. exists [], []. split; [constructor|]. done. }
  assert (Hback : ∀ e', leaves (FileArmor.crypto fa) (FileArmor.key fa) depth p x e2 e' ∧ breaks e2 → half p x e e' ∧ breaks e).
  { intros e' [Hl Hb]. split; [by eapply Hleft, leaves_trans|by eapply breaks_back]. }
  apply spec_bind. eapply spec_mono; [apply (write_all_bytes (FileArmor.crypto fa) (FileArmor.key fa) depth (length x) x w p e2 []); [by eapply touches_ok|done|cbn; rewrite zlen_nil; lia|done]|..]; cbn beta; cbn [app].
  2: { intros er e3 He3. destruct (Hback _ He3). auto. }
  2: { intros e3 He3. by apply Hback. }
  intros w3 e3 (Ht3 & Hw3 & _). assert (Ht13 : touches (eq p) (os e) (os e3)) by by eapply touches_trans.
  eapply spec_mono; [apply (seal_finish_spec (FileArmor.crypto fa) (FileArmor.key fa) depth w3 p e3 x); [by eapply touches_ok|done]|..]; cbn beta.
  - intros [] e4 (Ht4 & Hy). split; [by eapply touches_trans|done].
  - intros er e4 [Hl4 Hb4]. split; [by eapply Hleft, leaves_trans|]. left. by eapply breaks_back.
  - intros e4 [Hl4 Hb4]. split; [by eapply Hleft, leaves_trans|by eapply breaks_back].
Qed.

Lemma arm_val_sealed s id a t y :
  file s (path (to_eid a id)) = Some y → sealed (FileArmor.crypto fa) (FileArmor.key fa) (encode t) y → arm_val s id a = Ok (stored_form t).
Proof. intros Hf Hs. unfold arm_val. rewrite Hf, (opens_sealed _ _ _ _ Hs). by rewrite decode_encode. Qed.
Lemma arm_val_torn s id a t y :
  file s (path (to_eid a id)) = Some y → torn (FileArmor.crypto fa) (FileArmor.key fa) (encode t) y →
  arm_val s id a = Ok (stored_form t) ∨ spoilt s id a.
Proof.
  intros Hf Hs. unfold spoilt, arm_val. rewrite Hf.
  destruct (opens_torn _ _ _ _ Hs) as [(n & Hn & ->)|[-> |[-> Hc]]]; [|by right; right; left|right; right; right; split; [done|by exists y]].
  destruct (decide (n = zlen (encode t : bytes))) as [->|Hne].
  - left. by rewrite ztake_ge, decode_encode.
  - right. left. by rewrite decode_torn by lia.
Qed.

(** The other arm holds the new item, or is as it was, or is spoilt. *)
Definition unsure t e e' : Prop :=
  let b := Arm.other (item_arm t) in let v := arm_val (os e') (item_id t) b in
  v = arm_val (os e) (item_id t) b ∨ v = Ok (stored_form (next_item t)) ∨ spoilt (os e') (item_id t) b.

Lemma save_item_spec t e : let p := path (to_eid (Arm.other (item_arm t)) (item_id t)) in vio_ok (os e) →
  spec (FileArmor.save_item fa t) e
    (λ r e', touches (eq p) (os e) (os e') ∧ match r.2 with
       | Ok _ => r.1 = next_item t ∧ arm_val (os e') (item_id t) (Arm.other (item_arm t)) = Ok (stored_form (next_item t))
       | Err _ => r.1 = set_item (item_seq t + 1) (item_arm t) t ∧ unsure t e e' ∧ (breaks e ∨ hindered p (os e))
       | Panic => False
       end)
    (λ _ _, False)
    (λ e', touches (eq p) (os e) (os e') ∧ unsure t e e' ∧ (breaks e ∨ U64 ≤ item_seq t + 1)).
Proof.
  intros p Hok. unfold FileArmor.save_item, Armor.inc_seq. apply spec_bind. unfold u_add.
  destruct (item_seq t + 1 <? U64) eqn:Hu; zify_b.
  2: { split; [by apply still_touches, still_refl|]. split; [by left|by right]. }
  rewrite bind_ok. apply spec_lift_ok. unfold Armor.toggle.
  pose proof (λ n a, @set_item_fields _ _ _ _ ArmAccessLaws0 n a t) as Hset.
  destruct (Hset (item_seq t + 1) (item_arm t)) as (_ & -> & ->).
  replace (set_item (item_seq t + 1) (Arm.other (item_arm t)) (set_item (item_seq t + 1) (item_arm t) t)) with (next_item t)
    by (unfold next_item; by rewrite (@set_item_twice _ _ _ _ ArmAccessLaws0)).
  destruct (Hset (item_seq t + 1) (Arm.other (item_arm t))) as (Hid & Hsq & Har). fold (next_item t) in Hid, Hsq, Har. rewrite Har, Hid, Hsq.
  assert (Hhalf : ∀ e', half p (encode (next_item t)) e e' → touches (eq p) (os e) (os e') ∧ unsure t e e').
  { intros e' [Ht Hf]. split; [done|]. unfold unsure. destruct Hf as [Hf|(y & Hf & Hy)]; [left; unfold arm_val; fold p; by rewrite Hf|right].
    exact (arm_val_torn (os e') (item_id t) (Arm.other (item_arm t)) (next_item t) y Hf Hy). }
  apply spec_bind, spec_attempt. eapply spec_mono; [by apply save_bytes_spec|..]; cbn beta.
  - intros [] e' (Ht & y & Hf & Hy). apply spec_ret. split; [done|]. split; [done|]. exact (arm_val_sealed (os e') (item_id t) (Arm.other (item_arm t)) (next_item t) y Hf Hy).
  - intros er e' [Hh Hr]. apply spec_ret. destruct (Hhalf _ Hh) as [Ht Hun]. split; [done|]. cbn. split; [|done].
    rewrite Arm.other_other. unfold next_item. by rewrite (@set_item_twice _ _ _ _ ArmAccessLaws0).
  - intros e' [Hh Hr]. destruct (Hhalf _ Hh) as [Ht Hun]. auto.
Qed.

(** *** Removing *)

(** There are no other files. *)
Definition lonely (P : Path → Prop) s : Prop := ∀ p i, Os.links s !! p = Some i → P p.
(** The file is gone, or nothing has changed. *)
Definition erased p s s' : Prop := touches (eq p) s s' ∧ (file s' p = None ∨ file s' p = file s p).
Lemma del_arm_spec i e : let p := path i in vio_ok (os e) →
  spec (FileArmor.del_arm fa i) e (λ _ e', touches (eq p) (os e) (os e') ∧ file (os e') p = None)
    (λ _ e', erased p (os e) (os e') ∧ (¬ easy e ∨ lonely (eq p) (os e))) (λ e', erased p (os e) (os e') ∧ ¬ easy e).
Proof.
  intros p Hok. unfold FileArmor.del_arm.
  assert (Hstill : ∀ o, still depth (os e) o → erased p (os e) o) by (intros o Hs; split; [by apply still_touches|right; by apply (still_file depth)]).
  assert (Hun : ∀ o, unlinked depth p (os e) o → touches (eq p) (os e) o ∧ file o p = None) by (intros o [Ht Hl]; split; [done|]; unfold file; by rewrite Hl).
  assert (Hgone : ∀ o, touches (eq p) (os e) o → file o p = None → spec (on_os (remove_empty_parent_dir p)) (mkEnv o (rng e))
    (λ _ e', touches (eq p) (os e) (os e') ∧ file (os e') p = None)
    (λ _ e', erased p (os e) (os e') ∧ (¬ easy e ∨ lonely (eq p) (os e))) (λ e', erased p (os e) (os e') ∧ ¬ easy e)).
  { intros o Ht Hf. apply on_os_spec. eapply spec_mono; [apply (remove_empty_spec depth), Ht|..]; cbn beta.
    - intros [] o2 Hs. split; [eapply touches_trans; [done|by apply still_touches]|]. cbn. by rewrite (still_file depth o o2).
    - intros er o2 [Hs Hr]. split; [split; [eapply touches_trans; [done|by apply still_touches]|left; cbn; by rewrite (still_file depth o o2)]|].
      destruct Hr as [Hr|Hr]; [left; contradict Hr; by eapply touches_calm|right]. intros q j Hj. destruct (decide (p = q)) as [|Hne]; [done|].
      destruct Ht as (_ & _ & _ & _ & Hk). destruct (Hk q Hne) as [Hl _]. cbn in Hr, Hl. by rewrite Hr, Hj in Hl.
    - intros o2 [Hs Hr]. split; [split; [eapply touches_trans; [done|by apply still_touches]|left; cbn; by rewrite (still_file depth o o2)]|].
      contradict Hr. by eapply touches_calm. }
  apply spec_bind, spec_attempt, on_os_spec. eapply spec_mono; [by apply (remove_file_spec depth)|..]; cbn beta.
  - intros [] o Ho. destruct (Hun _ Ho). by apply Hgone.
  - intros er o [(-> & Hl & Hs)|(Hne & Hs & Hc)].
    + apply Hgone; [by apply still_touches|]. rewrite (still_file depth (os e) o) by done. unfold file. fold p in Hl. by rewrite Hl.
    + assert (He : erased p (os e) o) by (destruct Hs as [Hs|Hs]; [by apply Hstill|destruct (Hun _ Hs); split; auto]).
      destruct er; try done; apply spec_fail; auto.
  - intros o [Hs Hc]. split; [|done]. destruct Hs as [Hs|Hs]; [by apply Hstill|]. destruct (Hun _ Hs). split; auto.
Qed.

Lemma remove_all_arms_spec id e : let pl := path (to_eid Arm.Left id) in let pr := path (to_eid Arm.Right id) in
  let P := λ q, q = pl ∨ q = pr in let gone e' := ∀ a, arm_val (os e') id a = Err NotFound ∨ arm_val (os e') id a = arm_val (os e) id a in
  vio_ok (os e) →
  spec (FileArmor.remove_all_arms fa id) e
    (λ _ e', touches P (os e) (os e') ∧ ∀ a, arm_val (os e') id a = Err NotFound)
    (λ _ e', touches P (os e) (os e') ∧ gone e' ∧ (¬ easy e ∨ lonely P (os e))) (λ e', touches P (os e) (os e') ∧ gone e' ∧ ¬ easy e).
Proof.
  intros pl pr P gone Hok. unfold FileArmor.remove_all_arms, both_eid.
  assert (Hm : ∀ p s s', p = pl ∨ p = pr → touches (eq p) s s' → touches P s s') by (intros p s s' Hp Ht; eapply touches_mono; [done|]; unfold P; naive_solver).
  (* of both files: gone, or as it was *)
  assert (Hkeep : ∀ p s s', erased p s s' → ∀ q, file s' q = None ∨ file s' q = file s q).
  { intros p s s' [Ht Hf] q. destruct (decide (p = q)) as [<-|Hne]; [done|]. right. by apply (touches_file depth (eq p)). }
  assert (Hval : ∀ e', (∀ q, file (os e') q = None ∨ file (os e') q = file (os e) q) → gone e').
  { intros e' Hq a. unfold arm_val. destruct (Hq (path (to_eid a id))) as [-> | ->]; auto. }
  assert (Hl : spec (attempt (FileArmor.del_arm fa (to_eid Arm.Left id))) e
    (λ r e', r ≠ Panic ∧ erased pl (os e) (os e') ∧ (r = Ok () → file (os e') pl = None) ∧ (r ≠ Ok () → ¬ easy e ∨ lonely P (os e)))
    (λ _ _, False) (λ e', erased pl (os e) (os e') ∧ ¬ easy e)).
  { apply spec_attempt. eapply spec_mono; [by apply del_arm_spec|..]; cbn beta; [|..|done].
    - intros [] e' [Ht Hf]. split; [done|]. split; [split; [done|by left]|done].
    - intros er e' [He Hr]. do 3 (split; [done|]). intros _. destruct Hr as [|Hr]; [by left|right]. intros q j Hj. left. symmetry. by eapply Hr. }
  apply spec_bind. eapply spec_mono; [apply Hl| |done|].
  2: { intros e' [He Hc]. split; [eapply Hm; [by left|apply He]|]. split; [|done]. eapply Hval, Hkeep, He. }
  cbn beta. intros r1 e1 (Hr1 & He1 & Hok1 & Hbad1).
  assert (Hboth : ∀ e', erased pr (os e1) (os e') → touches P (os e) (os e') ∧ ∀ q, file (os e') q = None ∨ file (os e') q = file (os e) q).
  { intros e' He'. split; [eapply touches_trans; [eapply Hm; [by left|apply He1]|eapply Hm; [by right|apply He']]|].
    intros q. destruct (Hkeep _ _ _ He' q) as [|Hq]; [by left|]. rewrite Hq. by eapply Hkeep. }
  assert (Hok1' : vio_ok (os e1)) by (by eapply touches_ok, He1).
  apply spec_bind, spec_attempt. eapply spec_mono; [by apply del_arm_spec|..]; cbn beta.
  - intros [] e2 [Ht2 Hf2]. destruct (Hboth e2) as [Ht Hq]; [split; [done|by left]|].
    destruct r1 as [[]|er|]; [|by apply spec_fail; auto|done]. apply spec_lift_ok. split; [done|].
    assert (Hl2 : file (os e2) pl = None).
    { destruct (decide (pr = pl)) as [Heq|Hne]; [by rewrite <- Heq|]. rewrite (touches_file depth (eq pr) (os e1)) by done. by apply Hok1. }
    intros []; unfold arm_val; [fold pl; by rewrite Hl2|]. fold pr in Hf2. fold pr. by rewrite Hf2.
  - intros er e2 [He2 Hr]. destruct (Hboth e2 He2) as [Ht Hq]. destruct r1 as [[]|er1|]; [| |done]; apply spec_fail; split; [done| |done|]; (split; [by apply Hval|]).
    + destruct Hr as [Hr|Hr]; [left; contradict Hr; by eapply touches_calm, Hr; apply He1|right].
      intros q j Hj. destruct (decide (pl = q)) as [|Hne]; [by left|right]. destruct He1 as [(_ & _ & _ & _ & Hk) _].
      destruct (Hk q Hne) as [Hlq _]. symmetry. eapply Hr. by rewrite Hlq.
    + by apply Hbad1.
  - intros e2 [He2 Hr]. destruct (Hboth e2 He2) as [Ht Hq]. split; [done|]. split; [by apply Hval|]. contradict Hr. eapply touches_calm; [apply He1|done].
Qed.

(** ** Items kept over saves *)

(** What arms say of themselves, and what is true of every item that was ever saved. *)
Definition arms_ok (fine : I → Prop) s id : Prop := ∀ a t, arm_val s id a = Ok t → item_arm t = a ∧ item_id t = id ∧ fine t.
(** What can be loaded now, or when the arm that the next save of [t] writes is spoilt, is good. *)
Record tended (good : I → Prop) s id t : Prop := {
  td_id : item_id t = id;
  td_safe j : arm_val s id (item_arm t) = Ok j → good j;
  td_load j : loaded s id = Ok j → good j;
  td_seq j : arm_val s id (item_arm t) = Ok j → item_seq j ≤ item_seq t
}.

Lemma newer_inv (l r : res I) t : newer l r = Ok t → l = Ok t ∨ r = Ok t.
Proof. destruct l, r; cbn; try done; try naive_solver. repeat case_match; naive_solver. Qed.
Lemma loaded_inv s id t : loaded s id = Ok t → ∃ a, arm_val s id a = Ok t.
Proof. intros [?|?]%newer_inv; eauto. Qed.
Lemma loaded_newest s id t : loaded s id = Ok t → ∃ a, arm_val s id a = Ok t ∧ ∀ b j, arm_val s id b = Ok j → item_seq j ≤ item_seq t.
Proof.
  unfold loaded. intros Hl. destruct (arm_val s id Arm.Left) as [l|el|] eqn:Hal, (arm_val s id Arm.Right) as [r|er|] eqn:Har; cbn in Hl; try done.
  - destruct (item_seq l =? item_seq r) eqn:He; [done|]. zify_b. destruct (item_seq r <? item_seq l) eqn:Hlt; zify_b; injection Hl as <-.
    + exists Arm.Left. split; [done|]. intros [] j Hj; [|assert (j = r) as -> by congruence; lia]. assert (j = l) as -> by congruence. lia.
    + exists Arm.Right. split; [done|]. intros [] j Hj; [assert (j = l) as -> by congruence; lia|]. assert (j = r) as -> by congruence. lia.
  - injection Hl as <-. exists Arm.Left. split; [done|]. intros [] j Hj; [|congruence]. assert (j = l) as -> by congruence. lia.
  - injection Hl as <-. exists Arm.Right. split; [done|]. intros [] j Hj; [congruence|]. assert (j = r) as -> by congruence. lia.
Qed.
(** The arm with the greatest number is loaded, unless the other makes loading panic. *)
Lemma loaded_top s id a t : arm_val s id a = Ok t → (∀ j, arm_val s id (Arm.other a) = Ok j → item_seq j < item_seq t) →
  loaded s id = Ok t ∨ (loaded s id = Panic ∧ arm_val s id (Arm.other a) = Panic).
Proof.
  unfold loaded. intros Ha Ho. destruct a; cbn [Arm.other] in *; rewrite Ha.
  - destruct (arm_val s id Arm.Right) as [r| |]; cbn; [left|by left|by right]. specialize (Ho r eq_refl).
    destruct (item_seq t =? item_seq r) eqn:He, (item_seq r <? item_seq t) eqn:Hlt; zify_b; lia || done.
  - destruct (arm_val s id Arm.Left) as [l| |]; cbn; [left|by left|by right]. specialize (Ho l eq_refl).
    destruct (item_seq l =? item_seq t) eqn:He, (item_seq t <? item_seq l) eqn:Hlt; zify_b; lia || done.
Qed.

Lemma other_path id a : path (to_eid (Arm.other a) id) ≠ path (to_eid a id).
Proof. intros Hp%arm_path_inj; [|apply to_eid_ok..]. apply to_eid_ne in Hp. by destruct a. Qed.

Lemma load_tended fine good s id t : arms_ok fine s id → (∀ j, loaded s id = Ok j → good j) → loaded s id = Ok t → tended good s id t.
Proof.
  intros Ha Hg Hl. destruct (loaded_newest _ _ _ Hl) as (a & Hat & Hmax). destruct (Ha _ _ Hat) as (Harm & Hid & _).
  split; [done| |done|intros j Hj; by eapply Hmax]. intros j Hj. rewrite Harm in Hj. assert (j = t) as -> by congruence. by apply Hg.
Qed.

(** A save that works: only what was saved can be loaded from then on. *)
Lemma saved_tended fine good s s' id t : let p := path (to_eid (Arm.other (item_arm t)) id) in
  touches (eq p) s s' → arm_val s' id (Arm.other (item_arm t)) = Ok (stored_form (next_item t)) → item_id t = id →
  (∀ j, arm_val s id (item_arm t) = Ok j → item_seq j ≤ item_seq t) → arms_ok fine s id → fine (stored_form (next_item t)) → good (stored_form (next_item t)) →
  tended good s' id (next_item t) ∧ arms_ok fine s' id ∧ arm_val s' id (item_arm (next_item t)) = Ok (stored_form (next_item t)).
Proof.
  intros p Ht Hv Hid Hseq Harms Hfine Hgood.
  pose proof (@set_item_fields _ _ _ _ ArmAccessLaws0 (item_seq t + 1) (Arm.other (item_arm t)) t) as (Hnid & Hnseq & Hnarm). fold (next_item t) in *.
  pose proof (@stored_form_fields _ _ _ _ ArmAccessLaws0 (next_item t)) as (Hfid & Hfseq & Hfarm).
  assert (Hsafe : arm_val s' id (item_arm t) = arm_val s id (item_arm t)).
  { eapply arm_val_touches; [done|]. apply (other_path id (item_arm t)). }
  split; [|split; [|by rewrite Hnarm]].
  - split; [congruence| | |intros j Hj; rewrite Hnarm in Hj; assert (j = stored_form (next_item t)) as -> by congruence; lia].
    + intros j Hj. rewrite Hnarm in Hj. assert (j = stored_form (next_item t)) as -> by congruence. done.
    + intros j Hj. destruct (loaded_top s' id (Arm.other (item_arm t)) (stored_form (next_item t)) Hv) as [Hl|[Hl _]].
      * intros i Hi. rewrite Arm.other_other, Hsafe in Hi. apply Hseq in Hi. lia.
      * assert (j = stored_form (next_item t)) as -> by congruence. done.
      * congruence.
  - intros a j Hj. destruct (Arm.arm_cases (item_arm t) a) as [-> | ->].
    + rewrite Hsafe in Hj. by apply Harms.
    + assert (j = stored_form (next_item t)) as -> by congruence. split; [congruence|]. split; [congruence|done].
Qed.

(** A save that does not: the item that was, or the one that should be. *)
Lemma unsaved_tended fine good s s' id t : let b := Arm.other (item_arm t) in
  touches (eq (path (to_eid b id))) s s' → item_id t = id →
  (arm_val s' id b = arm_val s id b ∨ arm_val s' id b = Ok (stored_form (next_item t)) ∨ spoilt s' id b) →
  tended good s id t → arms_ok fine s id → fine (stored_form (next_item t)) → good (stored_form (next_item t)) →
  tended good s' id (set_item (item_seq t + 1) (item_arm t) t) ∧ arms_ok fine s' id ∧ arm_val s' id (item_arm t) = arm_val s id (item_arm t).
Proof.
  intros b Ht Hid Hv [_ Hsf Hld Hsq] Harms Hfine Hgood.
  pose proof (@set_item_fields _ _ _ _ ArmAccessLaws0 (item_seq t + 1) (Arm.other (item_arm t)) t) as (Hnid & Hnseq & Hnarm). fold (next_item t) in *.
  pose proof (@set_item_fields _ _ _ _ ArmAccessLaws0 (item_seq t + 1) (item_arm t) t) as (Hmid & Hmseq & Hmarm).
  pose proof (@stored_form_fields _ _ _ _ ArmAccessLaws0 (next_item t)) as (Hfid & Hfseq & Hfarm).
  assert (Hsafe : arm_val s' id (item_arm t) = arm_val s id (item_arm t)).
  { eapply arm_val_touches; [done|]. apply (other_path id (item_arm t)). }
  assert (Hb : ∀ j, arm_val s' id b = Ok j → arm_val s id b = Ok j ∨ j = stored_form (next_item t)).
  { intros j Hj. destruct Hv as [Hv|[Hv|[Hv|[Hv|[Hv _]]]]]; rewrite Hv in Hj; try done; [by left|right; congruence]. }
  assert (Hall : ∀ a j, arm_val s' id a = Ok j → arm_val s id a = Ok j ∨ (a = b ∧ j = stored_form (next_item t))).
  { intros a j Hj. destruct (Arm.arm_cases (item_arm t) a) as [-> | ->]; [left; congruence|]. destruct (Hb j Hj); auto. }
  split; [|split; [|done]].
  - split; [congruence| | |].
    + intros j Hj. rewrite Hmarm, Hsafe in Hj. by apply Hsf.
    + intros j Hj. destruct (loaded_newest _ _ _ Hj) as (a & Ha & Hmax). destruct (Hall a j Ha) as [Ho|[_ ->]]; [|done].
      destruct (Arm.arm_cases (item_arm t) a) as [-> | ->]; [by apply Hsf|].
      (* the other arm as it was, and newer than the safe one *)
      change (Arm.other (item_arm t)) with b in Ha.
      destruct Hv as [Hv|[Hv|Hv]].
      * apply Hld. unfold loaded in *. unfold b in *. by destruct (item_arm t) eqn:Hta; cbn [Arm.other] in *; rewrite Hv, Hsafe in Hj.
      * assert (j = stored_form (next_item t)) as -> by congruence. done.
      * destruct Hv as [Hv|[Hv|[Hv _]]]; congruence.
    + intros j Hj. rewrite Hmarm, Hsafe in Hj. rewrite Hmseq. apply Hsq in Hj. lia.
  - intros a j Hj. destruct (Hall a j Hj) as [Ho|[-> ->]]; [by apply Harms|]. split; [by rewrite Hfarm, Hnarm|]. split; [congruence|done].
Qed.

(** *** Saves that break off *)

(** Loading gives [t] while no read fails; or it panics. *)
Definition loads e id t : Prop :=
  spec (FileArmor.load_item bufs fa id) e (λ u e', quiet e e' ∧ (u = t ∨ ¬ sees (os e)))
    (λ _ e', quiet e e' ∧ ¬ sees (os e)) (λ e', quiet e e' ∧ ¬ easy e).
Definition load_panics e id : Prop :=
  spec (FileArmor.load_item (I:=I) bufs fa id) e (λ _ e', quiet e e' ∧ ¬ sees (os e)) (λ _ e', quiet e e' ∧ ¬ sees (os e)) (quiet e).
Lemma loaded_loads e id t : vio_ok (os e) → loaded (os e) id = Ok t → loads e id t.
Proof.
  intros Hok Hl. eapply spec_mono; [by apply load_item_spec|..]; cbn beta; rewrite Hl.
  - intros u e' [Hq [[= ->]|Hs]]; auto.
  - by intros er e' [Hq [?|?]].
  - intros e' [Hq [Hc|?]]; done.
Qed.
Lemma loaded_panics e id : vio_ok (os e) → loaded (os e) id = Panic → load_panics e id.
Proof. intros Hok Hl. eapply spec_mono; [by apply load_item_spec|..]; cbn beta; rewrite Hl; naive_solver. Qed.

(** Wherever a save has broken off, the item is loaded, old or new, or loading panics as the file of the other
    arm ends within a nonce. *)
Definition old_or_new t d e' : Prop :=
  loads e' (item_id t) d ∨ loads e' (item_id t) (stored_form (next_item t)) ∨
  (load_panics e' (item_id t) ∧ shortened (os e') (item_id t) (Arm.other (item_arm t))).
Lemma unsure_loads t d e e' : let id := item_id t in
  vio_ok (os e) → arms_ok (λ _, True) (os e) id → loaded (os e) id = Ok d → item_arm t = item_arm d → item_seq d ≤ item_seq t →
  touches (eq (path (to_eid (Arm.other (item_arm t)) id))) (os e) (os e') → unsure t e e' → old_or_new t d e'.
Proof.
  intros id Hok Harms Hl Harm Hseq Ht Hun. pose proof (touches_ok _ _ _ _ Ht) as Hok'. set (n := stored_form (next_item t)).
  pose proof (load_tended (λ _, True) (λ j, j = d) (os e) id d Harms ltac:(intros j; congruence) Hl) as [_ _ _ Hmax].
  destruct (loaded_newest _ _ _ Hl) as (a & Ha & _). destruct (Harms _ _ Ha) as (Hda & _). rewrite <- Hda, <- Harm in Ha.
  assert (Htd : tended (λ j, j = d ∨ j = n) (os e) id t).
  { split; [done|intros j Hj; left; congruence|intros j Hj; left; congruence|]. intros j Hj. rewrite Harm in Hj. apply Hmax in Hj. lia. }
  destruct (unsaved_tended (λ _, True) (λ j, j = d ∨ j = n) (os e) (os e') id t Ht eq_refl Hun Htd Harms Logic.I ltac:(by right)) as ([_ _ Hld _] & _ & Hsafe).
  rewrite Ha in Hsafe. unfold old_or_new. fold id. fold n. destruct (loaded (os e') id) as [j|er|] eqn:Hlj.
  - destruct (Hld j eq_refl) as [-> | ->]; [left|right; left]; by apply loaded_loads.
  - unfold loaded in Hlj. exfalso. destruct (item_arm t); rewrite Hsafe in Hlj; cbn in Hlj.
    + destruct (arm_val (os e') id Arm.Right); cbn in Hlj; try done. by case_match.
    + destruct (arm_val (os e') id Arm.Left); cbn in Hlj; try done. by case_match.
  - (* were it not for a file that is cut short, the numbers would differ *)
    right; right. split; [by apply loaded_panics|]. set (b := Arm.other (item_arm t)) in *.
    assert (Hnp : ∀ v, arm_val (os e') id b = v → v ≠ Panic → (∀ u, v = Ok u → item_seq u ≠ item_seq d) → loaded (os e') id ≠ Panic).
    { intros v Hv Hvp Hvs. unfold loaded. unfold b in Hv. destruct (item_arm t); cbn [Arm.other] in Hv; rewrite Hsafe, Hv; cbn [newer];
        destruct v as [u| |]; try done; specialize (Hvs u eq_refl); unfold newer; rewrite (proj2 (Z.eqb_neq _ _)) by congruence; done. }
    destruct Hun as [Hv|[Hv|[Hv|[Hv|[_ Hv]]]]]; [..|exact Hv]; exfalso; fold id b in Hv.
    + assert (Hsame : loaded (os e') id = loaded (os e) id).
      { unfold loaded. unfold b in Hv. destruct (item_arm t); cbn [Arm.other] in Hv; by rewrite Hsafe, Hv, Ha. }
      congruence.
    + apply (Hnp _ Hv); [done| |done]. intros u [= <-].
      pose proof (@set_item_fields _ _ _ _ ArmAccessLaws0 (item_seq t + 1) (Arm.other (item_arm t)) t) as (_ & Hnseq & _). fold (next_item t) in Hnseq.
      pose proof (@stored_form_fields _ _ _ _ ArmAccessLaws0 (next_item t)) as (_ & Hfseq & _). lia.
    + by apply (Hnp _ Hv).
    + by apply (Hnp _ Hv).
Qed.

(** C17: [Armor::save_item] and [FileArmor::load_item], src/volume/storage/file/file_armor.rs. An item is
    stored, and it is saved anew in the other arm. If the save works, loading gives the new item.
    If it fails or the machine stops anywhere in it, loading gives the item that was stored or
    the new one, or it panics, and then the file of the arm that was written ends within the nonce of a frame:
    the frames before it are whole, and fewer bytes than a nonce has follow. This is while no read fails: a load in
    which one does may fail, or give the older arm (file_armor.rs:237). The arms of other items are as they were. *)
Theorem interrupted_save_loads t d e : let id := item_id t in
  vio_ok (os e) → arms_ok (λ _, True) (os e) id → loaded (os e) id = Ok d → item_arm t = item_arm d → item_seq d ≤ item_seq t →
  let others e' := ∀ a i, (∀ b, to_eid a i ≠ to_eid b id) → arm_val (os e') i a = arm_val (os e) i a in
  spec (FileArmor.save_item fa t) e
    (λ r e', others e' ∧ match r.2 with
       | Ok _ => r.1 = next_item t ∧ loads e' id (stored_form (next_item t))
       | _ => old_or_new t d e'
       end)
    (λ _ _, False)
    (λ e', others e' ∧ old_or_new t d e').
Proof.
  intros id Hok Harms Hl Harm Hseq others.
  assert (Hothers : ∀ e', touches (eq (path (to_eid (Arm.other (item_arm t)) (item_id t)))) (os e) (os e') → others e').
  { intros e' Ht a i Hne. eapply arm_val_touches; [done|]. intros Hp%arm_path_inj; [|apply to_eid_ok..]. by destruct (Hne (Arm.other (item_arm t))). }
  destruct (loaded_newest _ _ _ Hl) as (a & Ha & _). destruct (Harms _ _ Ha) as (Hda & _). rewrite <- Hda, <- Harm in Ha.
  eapply spec_mono; [by apply save_item_spec|..]; cbn beta; [|done|].
  - intros [u r] e' [Ht Hr]. cbn [fst snd] in *. split; [by apply Hothers|].
    destruct r as [[]|er|]; [|by destruct Hr as (_ & Hun & _); eapply unsure_loads|done].
    destruct Hr as [-> Hv]. split; [done|]. apply loaded_loads; [by eapply touches_ok|].
    pose proof (@set_item_fields _ _ _ _ ArmAccessLaws0 (item_seq t + 1) (Arm.other (item_arm t)) t) as (_ & Hnseq & _). fold (next_item t) in Hnseq.
    pose proof (@stored_form_fields _ _ _ _ ArmAccessLaws0 (next_item t)) as (_ & Hfseq & _).
    assert (Hsafe : arm_val (os e') id (item_arm t) = Ok d) by (rewrite <- Ha; eapply arm_val_touches; [done|]; apply (other_path id (item_arm t))).
    destruct (loaded_top (os e') id (Arm.other (item_arm t)) (stored_form (next_item t)) Hv) as [|[_ Hp]]; [|done|].
    + intros j Hj. rewrite Arm.other_other, Hsafe in Hj. injection Hj as <-. lia.
    + rewrite Arm.other_other in Hp. congruence.
  - intros e' (Ht & Hun & _). split; [by apply Hothers|]. by eapply unsure_loads.
Qed.
End armor.
