(* ===== verification/Sector.v ===== *)
(** * src/volume/storage/file/sector.rs: blocks in files of 4096.

    A sector is a data file and a map that says where in the file each block is, kept as an
    armored item. Blocks are written at their place until the sector is full, which marks it
    as finished. Blocks are deleted in the map; when few are left of a finished sector its file
    is written anew without the deleted ones, and when none is left it is removed. *)
From stdpp Require Import strings.
From S2P Require Import Prelude Run Base Address Crypto Armor SuperBlk Vio FileArmor.

(** [Crypto::hash_with_key] is foreign: the id that a message and a key give. *)
Class GenericHash := { hash_with_key (msg key : bytes) : Eid }.

Definition BLKS_PER_SECTOR : Z := 4 * 1024.
Definition SECTOR_SIZE : Z := BLK_SIZE * BLKS_PER_SECTOR.
(** [u16::MAX]. *)
Definition BLK_DELETE_MARK : Z := 65535.
Definition SECTOR_CACHE_SIZE : Z := 16.
Definition SECTOR_DATA_CACHE_SIZE : Z := 4.

(** ** Sectors *)

Module Sector.
Record Sector := mkSector {
  id : Eid; seq : Z; arm : Arm.Arm; idx : Z; curr_size : Z; actual_size : Z; blk_map : list Z
}.
Definition new (i : Eid) (n : Z) : Sector := mkSector i 0 Arm.default n 0 0 (seqZ 0 BLKS_PER_SECTOR).
Definition with_map (m : list Z) s : Sector := mkSector (id s) (seq s) (arm s) (idx s) (curr_size s) (actual_size s) m.
Definition with_sizes (c a : Z) s : Sector := mkSector (id s) (seq s) (arm s) (idx s) c a (blk_map s).

Definition is_finished s : bool := 0 <? curr_size s.
Definition is_shrinkable s : bool := actual_size s <=? Z.shiftr (curr_size s) 2.

(** One block marked; [d] is the size deleted so far. *)
Definition mark_one (md : list Z * Z) (i : Z) : res (list Z * Z) :=
  let '(m, d) := md in
  b ← vindex m i;
  if b =? BLK_DELETE_MARK then Ok (m, d)
  else m ← vset m i BLK_DELETE_MARK; d ← u_add d BLK_SIZE; Ok (m, d).
Definition mark_blocks_deletion (sp : Span.Span) s : res Sector :=
  let insec_idx := Span.begin sp mod BLKS_PER_SECTOR in
  e ← u_add insec_idx (Span.cnt sp);
  '(m, deleted) ← foldM mark_one (blk_map s, 0) (range insec_idx e);
  a ← (if is_finished s then u_sub (actual_size s) deleted else Ok (actual_size s));
  Ok (with_sizes (curr_size s) a (with_map m s)).
End Sector.
Abbreviation Sector := Sector.Sector.

#[export] Instance sector_access : ArmAccess Sector := {|
  item_id := Sector.id; item_seq := Sector.seq; item_arm := Sector.arm;
  set_item n a s := Sector.mkSector (Sector.id s) n a (Sector.idx s) (Sector.curr_size s) (Sector.actual_size s) (Sector.blk_map s)
|}.

(** [CountMeter] and [PinChecker]. *)
#[export] Instance sector_meter : Meter Sector := λ _, 1.
#[export] Instance sector_pin : Pinnable Sector := λ _, false.

(** ** The manager *)

Module SectorMgr.
Record SectorMgr (SM DM : Type) := mkMgr {
  base : Path; sec_armor : FileArmor.FileArmor; sec_cache : Lru.Lru SM; sec_data_cache : DM; hash_key : bytes
}.
Arguments mkMgr {SM DM}. Arguments base {SM DM}. Arguments sec_armor {SM DM}. Arguments sec_cache {SM DM}.
Arguments sec_data_cache {SM DM}. Arguments hash_key {SM DM}.

(** The manager with the files. *)
Record St (R SM DM : Type) := mkSt { env : Env R; mgr : SectorMgr SM DM }.
Arguments mkSt {R SM DM}. Arguments env {R SM DM}. Arguments mgr {R SM DM}.

Section mgr.
Context `{!ArmHash, !GenericHash, !Sodium} {R SM DM : Type} `{!Random R, !Serde bytes Sector} (bufs : nat → Z).
Context `{!LinkedMapOps Z Sector SM, !LinkedMapOps Z Handle DM}.
Abbreviation act := (run (St R SM DM)).

Definition new (b : Path) : SectorMgr SM DM :=
  mkMgr b (FileArmor.new b) (Lru.new (K:=Z) (V:=Sector) SECTOR_CACHE_SIZE) (lm_new (K:=Z) (V:=Handle)) [].

Definition on_env {A} (m : run (Env R) A) : act A := zoom env (λ e s, mkSt e (mgr s)) m.
Definition on_files {A} (m : run Os A) : act A := on_env (on_os m).
Definition the {A} (f : SectorMgr SM DM → A) : act A := ask (λ s, f (mgr s)).
Definition set_mgr (f : SectorMgr SM DM → SectorMgr SM DM) : act unit := modify (λ s, mkSt (env s) (f (mgr s))).
Definition set_cache (c : Lru.Lru SM) : act unit :=
  set_mgr (λ m, mkMgr (base m) (sec_armor m) c (sec_data_cache m) (hash_key m)).
Definition set_data_cache (c : DM) : act unit :=
  set_mgr (λ m, mkMgr (base m) (sec_armor m) (sec_cache m) c (hash_key m)).
Definition set_crypto_ctx (c : Crypto.Crypto) (k hk : bytes) : act unit :=
  set_mgr (λ m, mkMgr (base m) (FileArmor.set_crypto_ctx c k (sec_armor m)) (sec_cache m) (sec_data_cache m) hk).

(** The id of a sector, and the paths of its files. *)
Definition idx_id (hk : bytes) (sec_idx : Z) : Eid := hash_with_key (to_le 8 sec_idx) hk.
Definition sector_idx_to_id (sec_idx : Z) : act Eid := the (λ m, idx_id (hash_key m) sec_idx).
Definition sector_path (ext : string) (b : Path) (hk : bytes) (sec_idx : Z) : Path :=
  EidPath.set_extension ext (EidPath.to_path_buf (idx_id hk sec_idx) b).
Definition SECTOR_DATA_EXT : string := "data".
Definition SECTOR_SHRINK_EXT : string := "shrink".
Definition sector_data_path (sec_idx : Z) : act Path := the (λ m, sector_path SECTOR_DATA_EXT (base m) (hash_key m) sec_idx).
(** The extension of the data file is replaced. *)
Definition sector_shrink_path (sec_idx : Z) : act Path := the (λ m, sector_path SECTOR_SHRINK_EXT (base m) (hash_key m) sec_idx).

Definition load_sector (sec_id : Eid) : act Sector := fa ← the sec_armor; on_env (FileArmor.load_item bufs fa sec_id).
(** The sector as saving leaves it, and how saving ended. *)
Definition save_item (sec : Sector) : act (Sector * res unit) := fa ← the sec_armor; on_env (FileArmor.save_item fa sec).

Definition cache_sector (sec_idx : Z) (sec : Sector) : act unit :=
  c ← the sec_cache; '(_, c) ← lift (Lru.insert (K:=Z) (V:=Sector) sec_idx sec c); set_cache c.
(** A cached sector, which becomes the last used one; and its change in place. *)
Definition cached_sector (sec_idx : Z) : act Sector :=
  c ← the sec_cache; let '(o, c) := Lru.get_refresh (K:=Z) (V:=Sector) sec_idx c in _ ← set_cache c; lift (unwrap o).
Definition put_sector (sec_idx : Z) (sec : Sector) : act unit :=
  c ← the sec_cache; set_cache (Lru.mkLru (Lru.capacity c) (Lru.used c) (lm_insert sec_idx sec (Lru.map c)).2).

Definition open_sector (sec_idx : Z) (create : bool) : act Sector :=
  c ← the sec_cache;
  _ ← (if Lru.contains_key (K:=Z) (V:=Sector) sec_idx c then mret ()
       else
         sec_id ← sector_idx_to_id sec_idx;
         r ← attempt (load_sector sec_id);
         match r with
         | Ok sec => cache_sector sec_idx sec
         | Err NotFound =>
             if create then
               '(sec, r) ← save_item (Sector.new sec_id sec_idx);
               _ ← lift r;
               cache_sector sec_idx sec
             else fail NotFound
         | Err e => fail e
         | Panic => lift Panic
         end);
  cached_sector sec_idx.

Definition save_sector (sec_idx : Z) : act unit :=
  sec ← cached_sector sec_idx;
  '(sec, r) ← save_item sec;
  _ ← put_sector sec_idx sec;
  lift r.

Definition open_sector_data (sec_idx : Z) (create : bool) : act Handle :=
  d ← the sec_data_cache;
  _ ← (match lm_get (K:=Z) (V:=Handle) sec_idx d with
       | Some _ => mret ()
       | None =>
           path ← sector_data_path sec_idx;
           b ← (if create then mret true else on_files (Vio.exists_ path));
           if negb b then fail NotFound
           else
             _ ← on_files (ensure_parents_dir path);
             f ← on_files (io (Vio.open_create false path));
             let d := (lm_insert sec_idx f d).2 in
             set_data_cache (if SECTOR_DATA_CACHE_SIZE <=? zlen (lm_entries (K:=Z) (V:=Handle) d) then lm_pop_front (K:=Z) (V:=Handle) d else d)
       end);
  d ← the sec_data_cache;
  let '(o, d) := lm_get_refresh (K:=Z) (V:=Handle) sec_idx d in
  _ ← set_data_cache d;
  f ← lift (unwrap o);
  on_files (io (Vio.try_clone f)).

(** The parts of a span that are in one sector each, done one after another. *)
Definition sector_of (sp : Span.Span) : Z := Span.begin sp / BLKS_PER_SECTOR.
Definition first_in_sector (sp : Span.Span) : Z := Span.begin sp mod BLKS_PER_SECTOR.

Definition read_part (sp : Span.Span) : act bytes :=
  let sec_idx := sector_of sp in
  f ← open_sector_data sec_idx false;
  sec ← open_sector sec_idx false;
  let map_idx := first_in_sector sp in
  insec_idx ← lift (vindex (Sector.blk_map sec) map_idx);
  e ← lift (u_add map_idx (Span.cnt sp));
  bs ← lift (vslice (Sector.blk_map sec) map_idx e);
  if existsb (λ b, b =? BLK_DELETE_MARK) bs then fail NotFound
  else
    blk_offset ← lift (u_mul insec_idx BLK_SIZE);
    read_len ← lift (Span.bytes_len sp);
    on_files (io (Vio.read_exact f blk_offset read_len)).
Fixpoint read_parts (l : list Span.Span) : act bytes :=
  match l with
  | [] => mret []
  | sp :: l => x ← read_part sp; y ← read_parts l; mret (x ++ y)
  end.
(** The destination is as long as the span. *)
Definition read_blocks (sp : Span.Span) : act bytes :=
  _ ← lift (Span.bytes_len sp); l ← lift (Span.divide_by sp BLKS_PER_SECTOR); read_parts l.

(** [shrink_sector]: the loop over the map. [out] is how many blocks have been written. *)
Fixpoint shrink_loop (src dst : Handle) (curr : Z) (m : list Z) (out : Z) : act (list Z * Z) :=
  match m with
  | [] => mret ([], out)
  | b :: m =>
      if b =? BLK_DELETE_MARK then '(m, out) ← shrink_loop src dst curr m out; mret (b :: m, out)
      else
        data_offset ← lift (u_mul b BLK_SIZE);
        if curr <=? data_offset then mret (b :: m, out)
        else
          buf ← on_files (io (Vio.read_exact src data_offset BLK_SIZE));
          _ ← on_files (io (Vio.write_all dst (out * BLK_SIZE) buf));
          '(m, out') ← shrink_loop src dst curr m (out + 1);
          mret (out :: m, out')
  end.
Definition shrink_sector (sec_idx : Z) : act unit :=
  sec ← open_sector sec_idx false;
  src ← open_sector_data sec_idx false;
  data_path ← sector_data_path (Sector.idx sec);
  dst_path ← sector_shrink_path (Sector.idx sec);
  dst ← on_files (io (Vio.open_create true dst_path));
  '(m, out) ← shrink_loop src dst (Sector.curr_size sec) (Sector.blk_map sec) 0;
  n ← lift (u_mul out BLK_SIZE);
  '(sec, r) ← save_item (Sector.with_sizes n n (Sector.with_map m sec));
  _ ← lift r;
  _ ← cache_sector (Sector.idx sec) sec;
  d ← the sec_data_cache;
  _ ← set_data_cache (lm_remove (K:=Z) (V:=Handle) sec_idx d).2;
  on_files (io (Vio.rename dst_path data_path)).

(** A mark of deletion on a block that is written is taken back. *)
Definition correct_one (mc : list Z * Z) (i : Z) : res (list Z * Z) :=
  let '(m, c) := mc in
  b ← vindex m i;
  if b =? BLK_DELETE_MARK then m ← vset m i i; Ok (m, c + 1) else Ok (m, c).

Definition live_cnt (m : list Z) : Z := zlen (filter (λ b, b ≠ BLK_DELETE_MARK) m).

(** [sec] is the sector that has been written to. *)
Definition note_written (sp : Span.Span) (sec : Sector) : act unit :=
  let sec_idx := sector_of sp in
  _ ← lift (rassert (negb (Sector.is_finished sec)));
  e ← lift (u_add (first_in_sector sp) (Span.cnt sp));
  '(m, corrected) ← lift (foldM correct_one (Sector.blk_map sec, 0) (range (first_in_sector sp) e));
  _ ← put_sector sec_idx (Sector.with_map m sec);
  _ ← (if 0 <? corrected then save_sector sec_idx else mret ());
  e ← lift (Span.send sp);
  if e mod BLKS_PER_SECTOR =? 0 then
    sec ← open_sector sec_idx false;
    a ← lift (u_mul BLK_SIZE (live_cnt (Sector.blk_map sec)));
    let sec := Sector.with_sizes SECTOR_SIZE a sec in
    _ ← put_sector sec_idx sec;
    if Sector.is_shrinkable sec then shrink_sector sec_idx else save_sector sec_idx
  else mret ().
Definition write_part (sp : Span.Span) (blks : bytes) : act unit :=
  let sec_idx := sector_of sp in
  f ← open_sector_data sec_idx true;
  blk_offset ← lift (u_mul (first_in_sector sp) BLK_SIZE);
  _ ← on_files (io (Vio.write_all f blk_offset blks));
  sec ← open_sector sec_idx true;
  note_written sp sec.
Fixpoint write_parts (l : list Span.Span) (blks : bytes) : act unit :=
  match l with
  | [] => mret ()
  | sp :: l =>
      n ← lift (Span.bytes_len sp);
      x ← lift (vslice blks 0 n);
      _ ← write_part sp x;
      write_parts l (zdrop n blks)
  end.
Definition write_blocks (sp : Span.Span) (blks : bytes) : act unit :=
  n ← lift (Span.bytes_len sp);
  _ ← lift (rassert (zlen blks =? n));
  l ← lift (Span.divide_by sp BLKS_PER_SECTOR);
  write_parts l blks.

Definition remove_sector (sec_idx : Z) (sec_id : Eid) : act unit :=
  fa ← the sec_armor;
  _ ← on_env (FileArmor.remove_all_arms fa sec_id);
  path ← sector_data_path sec_idx;
  _ ← on_files (io (Vio.remove_file path));
  _ ← on_files (remove_empty_parent_dir path);
  c ← the sec_cache;
  set_cache (Lru.remove (K:=Z) (V:=Sector) sec_idx c).2.
Definition del_part (sp : Span.Span) : act unit :=
  let sec_idx := sector_of sp in
  r ← attempt (open_sector sec_idx false);
  match r with
  | Ok sec =>
      sec ← lift (Sector.mark_blocks_deletion sp sec);
      _ ← put_sector sec_idx sec;
      if negb (Sector.is_finished sec) then save_sector sec_idx
      else if Sector.actual_size sec =? 0 then remove_sector sec_idx (Sector.id sec)
      else if Sector.is_shrinkable sec then shrink_sector sec_idx
      else save_sector sec_idx
  | Err NotFound => mret ()
  | Err e => fail e
  | Panic => lift Panic
  end.
Definition del_blocks (sp : Span.Span) : act unit :=
  l ← lift (Span.divide_by sp BLKS_PER_SECTOR); for_each del_part l.
End mgr.
End SectorMgr.
