(* ===== verification/SectorDemo.v ===== *)
(** * Sectors and armored items in files: instances of what is foreign, witnesses and runs. *)
From stdpp Require Import strings.
From S2P Require Import Prelude Run Base Address Crypto Armor SuperBlk Vio FileArmor Sector.

(** ** Foreign code *)

Module Toy.
(** A cipher that puts the length in front, and accepts nothing else. *)
#[export] Instance sodium : Sodium := {|
  aead_encrypt _ _ _ _ m := if zlen m <? 256 ^ 16 then Some (to_le 16 (zlen m) ++ m) else None;
  aead_decrypt _ _ _ _ x :=
    if (16 <=? zlen x) && (of_le (ztake 16 x) =? zlen x - 16) then Some (zdrop 16 x) else None;
  hchacha20 i _ _ := i; pwhash p s _ _ := Some (p ++ s); kdf_derive k i := Some (i :: k); aes_available := true
|}.
Lemma sealed_form m x ci key nonce ad : aead_encrypt ci key nonce ad m = Some x → x = to_le 16 (zlen m) ++ m ∧ zlen m < 256 ^ 16.
Proof. cbn [aead_encrypt sodium]. destruct (zlen m <? 256 ^ 16) eqn:Hm; [|done]. intros [= <-]. by zify_b. Qed.
Lemma head_len n : zlen (to_le 16 n) = 16.
Proof. by rewrite zlen_to_le. Qed.
#[export] Instance sodium_laws : SodiumLaws.
Proof.
  split; intros ci key nonce ad m x [-> Hm]%sealed_form; pose proof (zlen_nonneg m) as H0.
  - rewrite zlen_app, head_len. unfold ATAG_SIZE. lia.
  - cbn [aead_decrypt sodium]. rewrite zlen_app, head_len.
    replace (ztake 16 (to_le 16 (zlen m) ++ m)) with (to_le 16 (zlen m)) by (symmetry; apply (ztake_zlen (to_le 16 (zlen m)))).
    rewrite of_to_le by (cbn; cbn in Hm; lia). rewrite (proj2 (andb_true_iff _ _)) by (split; [apply Z.leb_le|apply Z.eqb_eq]; lia).
    exact (f_equal Some (zdrop_zlen (to_le 16 (zlen m)) m)).
Qed.
#[export] Instance aead_strict : AeadStrict.
Proof.
  split.
  - intros ci key nonce ad x m. cbn [aead_decrypt sodium]. destruct ((16 <=? zlen x) && _) eqn:Hx; [|done]. intros [= <-]. zify_b.
    rewrite zlen_zdrop by lia. unfold ATAG_SIZE. lia.
  - intros ci key nonce ad m x n [-> Hm]%sealed_form Hn. pose proof (zlen_nonneg m) as H0. rewrite zlen_app, head_len in Hn.
    cbn [aead_decrypt sodium]. rewrite zlen_ztake, zlen_app, head_len by lia.
    destruct (16 <=? Z.min n (16 + zlen m)) eqn:H16; [|done]. zify_b. cbn [andb].
    rewrite ztake_ztake, Z.min_l by lia.
    replace (ztake 16 (to_le 16 (zlen m) ++ m)) with (to_le 16 (zlen m)) by (symmetry; apply (ztake_zlen (to_le 16 (zlen m)))).
    rewrite of_to_le by (cbn; cbn in Hm; lia). rewrite (proj2 (Z.eqb_neq _ _)) by lia. done.
Qed.
#[export] Instance random : Random unit := λ n r, (replicate (Z.to_nat n) 0, r).
#[export] Instance random_laws : RandomLaws unit.
Proof. intros n r Hn. cbn. by apply zlen_replicate. Qed.

(** Hashes of small numbers. *)
#[export] Instance arm_hash : ArmHash := {| to_eid a i := 3 * (i mod 2 ^ 200) + match a with Arm.Left => 0 | Arm.Right => 1 end |}.
#[export] Instance arm_hash_ids : ArmHashIds.
Proof.
  split.
  - intros a i. unfold id_ok. cbn [to_eid arm_hash]. assert (H : 0 ≤ i mod 2 ^ 200 < 2 ^ 200) by by apply Z.mod_pos_bound.
    replace (256 ^ Z.of_nat EidPath.EID_SIZE) with (2 ^ 256) by reflexivity. destruct a; lia.
  - intros [] [] i; cbn [to_eid arm_hash]; intros H; done || lia.
Qed.

(** A sector as numbers, the length of its map first. *)
#[export] Instance sector_serde : Serde bytes Sector := {|
  encode s := zlen (Sector.blk_map s) :: Sector.id s :: Sector.seq s :: match Sector.arm s with Arm.Left => 0 | Arm.Right => 1 end ::
    Sector.idx s :: Sector.curr_size s :: Sector.actual_size s :: Sector.blk_map s;
  decode x := match x with
    | n :: i :: q :: a :: x :: c :: z :: m =>
        if n =? zlen m then Some (Sector.mkSector i q (if a =? 0 then Arm.Left else Arm.Right) x c z m) else None
    | _ => None
    end;
  stored_form s := s
|}.
#[export] Instance sector_serde_laws : SerdeLaws bytes Sector.
Proof. intros [i q a x c z m]. cbn. rewrite Z.eqb_refl. by destruct a. Qed.
#[export] Instance sector_arm_laws : ArmAccessLaws bytes Sector.
Proof. split; try done. by intros [????]. Qed.
#[export] Instance sector_strict : SerdeStrict Sector.
Proof.
  split. intros [i q a x c z m] n Hn. cbn [encode sector_serde Sector.blk_map Sector.id Sector.seq Sector.arm Sector.idx Sector.curr_size Sector.actual_size] in *.
  set (l := [zlen m; i; q; match a with Arm.Left => 0 | Arm.Right => 1 end; x; c; z]) in *.
  change (_ :: i :: q :: _ :: x :: c :: z :: m) with (l ++ m) in *. rewrite zlen_app in Hn. change (zlen l) with 7 in Hn.
  destruct (decide (n < 7)) as [Hlt|Hge].
  - rewrite ztake_app_le by (change (zlen l) with 7; lia). assert (Hn7 : n = 0 ∨ n = 1 ∨ n = 2 ∨ n = 3 ∨ n = 4 ∨ n = 5 ∨ n = 6) by lia.
    by destruct Hn7 as [->|[->|[->|[->|[->|[->| ->]]]]]].
  - rewrite ztake_app_ge by (change (zlen l) with 7; lia). change (zlen l) with 7. cbn [l app decode sector_serde].
    rewrite (proj2 (Z.eqb_neq _ _)); [done|]. rewrite zlen_ztake by lia. lia.
Qed.

Definition bufs (n : nat) : Z := 8192.
Lemma bufs_pos n : 0 < bufs n.
Proof. done. Qed.
End Toy.
Import Toy.

(** ** A save that breaks off *)

(** Nothing but the root; calls end as the plans say. *)
Definition bare (rs ws : list Fate) : Env unit := mkEnv (Os.mkOs {[ [] ]} ∅ ∅ 0 rs ws) ().
Lemma bare_ok rs ws : vio_ok (os (bare rs ws)).
Proof.
  split; cbn; try done. intros n p Hp. by apply elem_of_singleton in Hp.
Qed.

Definition armor0 : FileArmor.FileArmor := FileArmor.mkArmor ["index"%string] Crypto.default [7].
Definition sector0 : Sector := Sector.mkSector 5 0 Arm.Left 0 0 0 [0; 1; 2].
(** The third write call of the second save stops when it has written thirty bytes of the frame. *)
Definition saved0 : Env unit := (FileArmor.save_item armor0 sector0 (bare [] [Works; Works; Works; Works; Stops 30])).2.
Definition sector1 : Sector := next_item sector0.

(** The first save has stored the item, the second stops in the middle of its frame. *)
Lemma interrupted_save_loads_witness :
  loaded armor0 (os saved0) 5 = Ok sector1 ∧ (FileArmor.save_item armor0 sector1 saved0).1 = None ∧
  loads bufs armor0 (FileArmor.save_item armor0 sector1 saved0).2 5 sector1.
Proof.
  assert (Hok : vio_ok (os saved0)).
  { pose proof (save_item_spec armor0 sector0 (bare [] [Works; Works; Works; Works; Stops 30]) (bare_ok _ _)) as Hs.
    refine (spec_all _ _ _ _ _ (λ e, vio_ok (os e)) Hs _ _ _); cbn beta; [intros a e' [Ht _]|done|intros e' [Ht _]]; by eapply touches_ok. }
  assert (Harms : arms_ok armor0 (λ _ : Sector, True) (os saved0) 5).
  { intros [] t; vm_compute; [done|]. by intros [= <-]. }
  assert (Hl : loaded armor0 (os saved0) 5 = Ok sector1) by (vm_compute; reflexivity).
  assert (Hstop : (FileArmor.save_item armor0 sector1 saved0).1 = None) by (vm_compute; reflexivity).
  split; [done|]. split; [done|].
  pose proof (interrupted_save_loads bufs bufs_pos armor0 sector1 sector1 saved0 Hok Harms Hl eq_refl (Z.le_refl _)) as Hs.
  assert (Hload : (FileArmor.load_item bufs armor0 5 (FileArmor.save_item armor0 sector1 saved0).2).1 = Some (Ok sector1)) by (vm_compute; reflexivity).
  assert (Hsees : sees (os (FileArmor.save_item armor0 sector1 saved0).2)).
  { unfold sees. assert (Hr : Os.reads (os (FileArmor.save_item armor0 sector1 saved0).2) = []) by (vm_compute; reflexivity). rewrite Hr. constructor. }
  unfold spec in Hs. destruct (FileArmor.save_item armor0 sector1 saved0) as [r e']. cbn [fst snd] in *. rewrite Hstop in Hs.
  destruct Hs as [_ Hs]. unfold old_or_new, loads, load_panics, spec in *. change (item_id sector1) with 5 in Hs.
  destruct (FileArmor.load_item bufs armor0 5 e') as [u e'']. cbn [fst] in Hload. rewrite Hload in *.
  destruct Hs as [Hd|[[_ [Hn|Hn]]|[[_ Hn] _]]]; [exact Hd| |by destruct Hn..]. apply (f_equal Sector.seq) in Hn. vm_compute in Hn. discriminate Hn.
Defined.
